(* ===== verification/_CoqProject ===== *)
-Q . S2P
Prelude.v
KString.v
KStringProof.v
KPrint.v
KPrintProof.v
Pid.v
PidProof.v
Bpf.v
BpfSound.v
PosixLock.v
PosixLockProof.v
CycleBuf.v
CycleBufProof.v
Pipe.v
PipeProof.v
Phymm.v
PhymmInv.v
PhymmProof.v
KList.v
KListProof.v
Slots.v
SlotsProof.v
Kmalloc.v
KmallocProof.v
KmallocCorrect.v
Threads.v
Lock.v
LockProof.v
RwLock.v
RwLockProof.v
Sem.v
SemProof.v
Poll.v
PollProof.v
TimerFd.v
TimerFdProof.v
EventFd.v
EventFdProof.v
RbTree.v
RbTreeInv.v
RbTreeProof.v
RbTreeErase.v
RbTreeWalk.v
Timer.v
TimerProof.v
Sched.v
Alarm.v
AlarmProof.v
SchedInv.v
SchedKeeps.v
SchedProof.v
SchedCorrect.v
VmMap.v
VmMapTree.v
VmMapRb.v
VmMapPages.v
VmMapInv.v
VmMapOps.v
VmMapProof.v
VmMapCorrect.v
Futex.v
FutexProof.v
FutexCorrect.v
Signal.v
SignalProof.v
SignalInv.v
SignalTake.v
SignalOps.v
SignalCorrect.v
SignalFd.v
SignalFdProof.v
Shm.v
ShmProof.v
ShmSteps.v
ShmCorrect.v
Syslog.v
SyslogProof.v
SyslogRead.v
SyslogCorrect.v
