(* ===== verification/Prelude.v ===== *)
(** * Verification of the MOS kernel

    MOS is a small Unix-like kernel for i386 and x86-64.  This library
    translates parts of its C sources into Rocq functions and relations and
    proves what the parts promise to each other.  Paths below are relative to
    src/ of the repository.

    ** How the code is modelled

    - An integer is a [Z] kept in the range of its C type: [u32], [u64] and
      [s32] are the conversions, and arithmetic that can wrap says so.
    - Code that changes state is a state monad that can fail, [st S A] of this
      file.  [None] stands for what the code must never do: follow a dangling
      pointer, unlink what is on no list, die.  [ends m s Q] says that the
      program [m] started in [s] does end, and in [Q]; so every theorem about a
      program is one of total correctness.
    - A section under a spin lock is one step.  Where steps of different tasks
      meet (locks, semaphores, the ring buffer, the scheduler, futexes,
      signals, shared memory) the theorems are about all interleavings of such steps: a
      transition relation or a list of events in any order.
    - A loop that is not structural has fuel.  The fuel is a function of the
      state (the number of nodes of a tree, of queued events, of pages), and
      the theorems show that it is enough: they state that the program ends.
    - Code outside of the modelled parts is a parameter: the class [Arch] for
      page tables, [Files] for file operations, [PollOps] for the callbacks of
      a wait, [HeapConfig] and [PhysConfig] for the memory layout, arguments
      for clock readings and for what is read from user memory.  The laws such
      code must obey are classes too ([RbTreeLaws], [PollLaws], [HeapLaws]),
      and have instances.

    ** The parts and their files

    A part has a file of definitions and one or more of proofs.

    Library.
    - [KString], [KStringProof]: lib/impl/kstring.c.  strstr() is substring
      search, strglob() decides the language of the pattern, memmove() copies
      between overlapping places, numbers survive the round trip through text.
    - [KPrint], [KPrintProof]: lib/impl/kprint.c, over [KString].  [renders] says
      what text a format and its arguments mean; the formatter hands out exactly
      that text, sprintf() stores it with its NUL, printk() cuts it into records.
      The formatter has the length of the format as fuel, which is enough for
      each round takes a character.  The theorems are about texts without NUL.
      [renders] gives a decimal or octal long a text only where it fits 32 bits,
      an octal long long none: of others the code prints the low half
      ([long_truncated]).  A precision has no text, a width that "%b" or "%h"
      would pad to none, and a size one only where the fraction that the code
      shows is its tenths ([precision_unknown], [width_ignored],
      [human_tenths]).
    - [KList], [KListProof]: lib/impl/list.c on a memory of links.
    - [RbTree], [RbTreeInv], [RbTreeProof], [RbTreeErase], [RbTreeWalk]:
      lib/impl/rbtree.c on a memory of nodes.  Insertion and removal end in a
      balanced tree with the right sequence of nodes.
    - [Kmalloc], [KmallocProof], [KmallocCorrect]: lib/impl/kmalloc.c.  What is
      allocated is free, large enough and overlaps nothing; what is released is
      free again, and one with its right neighbour if that is free.  The
      sections of malloc() under the lock are steps of any number of callers;
      a size of more than 2^29 is not considered, for near 2^32 it wraps.
    - [Slots], [SlotsProof]: lib/slots.h.  [CycleBuf], [CycleBufProof]:
      lib/impl/cyclebuf.c, a bounded FIFO in every interleaving.
    - [Bpf], [BpfSound]: lib/impl/bpf.c.  A filter that is accepted never reads
      outside of its program, scratch memory or packet, and returns.
    - [Threads], [Lock], [RwLock], [Sem] and their proofs: lib/impl/lock.c as
      transition systems of any number of threads.  Exclusion, where a thread
      is in a critical section while it has made more calls of lock than of
      unlock, and no wakeup is lost.

    Memory.
    - [Phymm], [PhymmInv], [PhymmProof]: mm/impl/phymm.c, the buddy allocator.
      A page is free or in exactly one allocation.
    - [VmMap], [VmMapTree], [VmMapRb], [VmMapPages], [VmMapInv], [VmMapOps],
      [VmMapProof], [VmMapCorrect]: mm/impl/mmap.c.  The region tree uses an
      index through the class [RbTree]; [VmMapRb] shows that the trees of
      [RbTree.v] provide it.  Mapping, unmapping and protection change exactly
      the pages of their range.

    - [Shm], [ShmProof], [ShmSteps], [ShmCorrect]: syscall/impl/sys_ipc.c, over
      [Slots] and [Phymm].  [ShmProof] has the invariant of the tables and the
      trees, [ShmSteps] attaching and detaching, [ShmCorrect] the other calls,
      all runs of the steps of any tasks and the theorems.  The slots promise
      [pool_for] of [SlotsProof].  A tree is the list of its nodes in order,
      and [shm_trees] shows that the searches and insertions of the code on a
      tree of any shape do what the model does on the list; that balancing
      keeps the order is the theorem of [RbTreeProof].  shmat() is a
      step for each section under the lock, and without the lock one to read,
      allocate, store and map each page, with no bound on the rounds since
      each is a step.  Runs ask that sizes do not wrap, that identifiers do
      not run out and that a page is not stored to a segment destroyed since
      its entry was read ([store_to_nothing]).  [stale_segment_mapped] is a
      run in which shmat() maps the pages of a segment it does not name,
      [pages_not_shared] one in which two tasks that attach do not share.

    Processes.
    - [Pid], [PidProof]: the identifiers of ps/impl/ps.c.
    - [Timer], [TimerProof]: queues by due time on red-black trees, used by the
      timers of the scheduler and by the interval timers.
    - [Sched], [SchedInv], [SchedKeeps], [SchedProof], [SchedCorrect]:
      ps/impl/alg/ps_alg_rr.c and ps/impl/sched/ps_switch.c.  The queues agree
      with the states of the tasks in every run, the choice is the first task
      of the highest priority that can run and is fair, timed waits end on
      time and wake nobody else.
    - [Alarm], [AlarmProof]: ps/impl/ps_alarm.c.  A tick signals the groups
      that are due, once each, while due times and intervals fit the clock.
    - [Futex], [FutexProof], [FutexCorrect]: ps/impl/ps_futex.c, over [Sched]
      and [VmMap].  No waiter sleeps on once it was to be woken: it is runnable.
    - [Signal], [SignalProof], [SignalInv], [SignalTake], [SignalOps],
      [SignalCorrect]: ps/impl/ps_signal.c, over [Sched], with what it uses of
      ps.c, ps_namespace.c, ps_ptrace.c and ps_alg_rr.c.  [Signal] has the
      operations, [SignalProof] sets of signals and the queue of events,
      [SignalInv] the invariant and queueing, [SignalTake] taking and the
      choice of the next signal, [SignalOps] the invariant for each operation,
      [SignalCorrect] runs of any operations and the theorems: the invariant,
      that no task sleeps through a signal (in runs in which no thread changes
      the dispositions of its siblings and no fault is forced), what a signal
      to a group, a send, a take and a delivery do.  A wait is its steps: the
      test without the lock, ps_prepare_interruptible_wait(), the end of the
      sleep.  The sleeps of wait4() and waitid(), which SIGCHLD does not end,
      and those of futexes are not steps of these runs, nor are the masks that
      the frames of handlers, ppoll() and pselect() install.  The number of signals is
      a parameter, 33 or 65 by architecture.  The loops of delivery have the
      number of signals and of queued events as fuel, which
      [do_signal_correct] shows to be enough.  A run asks of a fault that no
      event of its signal is queued for the task, since ps_fault_signal()
      would leave it behind.  Delivery ends where arch_signal_deliver() or
      do_group_exit() is called; the frame a handler runs on is not modelled.

    Files.
    - [Pipe], [PipeProof]: fs/impl/pipe.c, over [CycleBuf].
    - [PosixLock], [PosixLockProof]: fs/impl/posix_lock.c.
    - [Poll], [PollProof]: fs/impl/poll.c; [EventFd], [EventFdProof]:
      fs/impl/eventfd.c, over [Poll]; [TimerFd], [TimerFdProof]:
      fs/impl/timerfd.c; [SignalFd], [SignalFdProof]: fs/impl/signalfd.c, over
      [Signal].  A read stores what is pending of the mask, a signal makes the
      next look at the watches notify, and [signalfd_mask_hides_signal] is a
      run in which a replaced mask hides one.
    - [Syslog], [SyslogProof], [SyslogRead], [SyslogCorrect]: fs/impl/syslog.c,
      over [KPrint].  The ring stands for the history of all records; the
      stream, the device and syslog(2) give out its lines, which sprintf()
      prints within the buffer; the lines of the device can be parsed back, and
      [printk_logged] composes printk() with the log.  A read is the sections
      it goes through under the lock; a blocked one is given what the others do
      until it wakes.  The loops have the number of records left as fuel, which
      bounds them since each round ends a record or the read.  Runs ask that
      the 64-bit record number does not wrap.

    ** Not modelled

    - Device drivers, interrupt entry, the boot code, register save areas and
      page-table formats: what matters there is the hardware, of which there
      is no model here.
    - Names and directories (fs/impl/vfs.c, root.c, tmpfs.c, mount.c), program
      loading, process creation, namespaces, the network sockets, /proc and
      /sys: they are large and rest on the drivers or on lwext4 and lwIP, which
      are not part of the sources.
    - Weak memory: atomic operations and locks are sequentially consistent.
    - The consoles and the log file that formatted text goes to. *)

From Stdlib Require Export ZArith Lia Bool.
From stdpp Require Export prelude gmap.

#[global] Open Scope Z_scope.

Declare Scope mos_scope.
Delimit Scope mos_scope with mos.

(** ** Machine integers *)

Definition UINT32_MOD : Z := 2 ^ 32.
Definition UINT64_MOD : Z := 2 ^ 64.
Definition UINT32_MAX : Z := 2 ^ 32 - 1.
Definition UINT64_MAX : Z := 2 ^ 64 - 1.
Definition INT64_MAX : Z := 2 ^ 63 - 1.
Definition INT64_MIN : Z := - 2 ^ 63.

Definition u32 (x : Z) : Z := x mod UINT32_MOD.
Definition u64 (x : Z) : Z := x mod UINT64_MOD.
(** Conversion to a 32-bit [int]. *)
Definition s32 (x : Z) : Z := if u32 x <? 2 ^ 31 then u32 x else u32 x - UINT32_MOD.

Definition PAGE_SIZE : Z := 4096.

Notation "x +u y" := (u32 (x + y)) (at level 50, left associativity) : mos_scope.
Notation "x -u y" := (u32 (x - y)) (at level 50, left associativity) : mos_scope.

(** A C condition on an integer: nonzero is true. *)
Definition nz (x : Z) : bool := negb (x =? 0).
Definition b2z (b : bool) : Z := if b then 1 else 0.

Lemma u32_id x : 0 <= x < UINT32_MOD -> u32 x = x.
Proof. intros; apply Z.mod_small; auto. Qed.
Lemma u64_id x : 0 <= x < UINT64_MOD -> u64 x = x.
Proof. intros; apply Z.mod_small; auto. Qed.
Lemma u32_range x : 0 <= u32 x < UINT32_MOD.
Proof. apply Z.mod_pos_bound; reflexivity. Qed.
Lemma u64_range x : 0 <= u64 x < UINT64_MOD.
Proof. apply Z.mod_pos_bound; reflexivity. Qed.

Lemma s32_id x : 0 <= x < 2 ^ 31 -> s32 x = x.
Proof.
  intros; unfold s32; rewrite u32_id by (unfold UINT32_MOD; lia).
  destruct (Z.ltb_spec x (2 ^ 31)); lia.
Qed.

(** ** Bit fields: [r] in the low [n] bits, [q] above them *)

Lemma low_bits n r i : 0 <= n -> 0 <= r < 2 ^ n -> n <= i -> Z.testbit r i = false.
Proof.
  intros Hn Hr Hi. destruct (Z.eq_dec r 0) as [-> | Hnz]; [apply Z.bits_0|].
  apply Z.bits_above_log2; [lia|]. assert (Z.log2 r < n) by (apply Z.log2_lt_pow2; lia). lia.
Qed.

Lemma field_lor n r q : 0 <= n -> 0 <= r < 2 ^ n -> r + 2 ^ n * q = Z.lor r (Z.shiftl q n).
Proof.
  intros Hn Hr. assert (E : Z.land r (Z.shiftl q n) = 0).
  { apply Z.bits_inj'. intros i Hi. rewrite Z.land_spec, Z.bits_0. destruct (Z.ltb_spec i n).
    - rewrite Z.shiftl_spec_low by lia. apply andb_false_r.
    - rewrite (low_bits n r) by lia. done. }
  rewrite <- Z.lxor_lor, <- Z.add_nocarry_lxor, Z.shiftl_mul_pow2 by (done || lia). lia.
Qed.

Section Fields.
Variables (n r q m : Z).
Hypotheses (Hn : 0 <= n) (Hr : 0 <= r < 2 ^ n).

Ltac fields :=
  rewrite ?field_lor by done; apply Z.bits_inj'; intros i Hi;
  rewrite ?Z.ldiff_spec, ?Z.land_spec, ?Z.lor_spec, ?Z.land_spec, ?Z.ldiff_spec; destruct (Z.ltb_spec i n);
  [ rewrite ?Z.shiftl_spec_low by lia; rewrite ?andb_false_r, ?andb_true_r, ?orb_false_r; reflexivity
  | rewrite ?(low_bits n r), ?(low_bits n m), ?Z.shiftl_spec, ?Z.land_spec, ?Z.lor_spec, ?Z.ldiff_spec by (done || lia);
    rewrite ?andb_false_r, ?andb_true_r, ?orb_false_r; reflexivity ].

(** A mask above the low field. *)
Lemma field_land_high : Z.land (r + 2 ^ n * q) (Z.shiftl m n) = 2 ^ n * Z.land q m.
Proof.
  replace (2 ^ n * Z.land q m) with (Z.shiftl (Z.land q m) n) by (rewrite Z.shiftl_mul_pow2; lia). fields.
Qed.
Lemma field_lor_high : Z.lor (r + 2 ^ n * q) (Z.shiftl m n) = r + 2 ^ n * Z.lor q m.
Proof. rewrite !field_lor, <- Z.lor_assoc, <- Z.shiftl_lor by done. done. Qed.
Lemma field_ldiff_high : Z.ldiff (r + 2 ^ n * q) (Z.shiftl m n) = r + 2 ^ n * Z.ldiff q m.
Proof. fields. Qed.

(** A mask within the low field. *)
Hypothesis Hm : 0 <= m < 2 ^ n.

Lemma field_land_low : Z.land (r + 2 ^ n * q) m = Z.land r m.
Proof. fields. Qed.
Lemma field_ldiff_low : 0 <= Z.ldiff r m < 2 ^ n -> Z.ldiff (r + 2 ^ n * q) m = Z.ldiff r m + 2 ^ n * q.
Proof. intros. fields. Qed.
Lemma field_lor_low : 0 <= Z.lor r m < 2 ^ n -> Z.lor (r + 2 ^ n * q) m = Z.lor r m + 2 ^ n * q.
Proof.
  intros. rewrite !field_lor by done.
  rewrite <- !Z.lor_assoc, (Z.lor_comm m). done.
Qed.
End Fields.

(** ** Programs on a state that can fail *)

Definition st (S A : Type) : Type := S -> option (A * S).
#[export] Instance st_ret S : MRet (st S) := fun A x s => Some (x, s).
#[export] Instance st_bind S : MBind (st S) := fun A B f m s => '(x, s) ← m s; f x s.

(** The program ends, in a result and a state that satisfy [Q]. *)
Definition ends {S A} (m : st S A) (s : S) (Q : A -> S -> Prop) : Prop :=
  exists x s', m s = Some (x, s') /\ Q x s'.

Section Ends.
Context {S : Type}.

Lemma ends_ret {A} (x : A) (s : S) (Q : A -> S -> Prop) : Q x s -> ends (mret x) s Q.
Proof. intros H. exists x, s. done. Qed.
Lemma ends_bind {A B} (m : st S A) (f : A -> st S B) s (Q : B -> S -> Prop) :
  ends m s (fun x s' => ends (f x) s' Q) -> ends (m ≫= f) s Q.
Proof.
  intros (x & s1 & E1 & y & s2 & E2 & HQ). exists y, s2. split; [|done].
  unfold mbind, st_bind. rewrite E1. exact E2.
Qed.
Lemma ends_mono {A} (m : st S A) s (Q Q' : A -> S -> Prop) :
  ends m s Q -> (forall x s', Q x s' -> Q' x s') -> ends m s Q'.
Proof. intros (x & s' & E & HQ) H. exists x, s'. auto. Qed.
Lemma ends_both {A} (m : st S A) s (Q Q' : A -> S -> Prop) : ends m s Q -> ends m s Q' -> ends m s (fun x s' => Q x s' /\ Q' x s').
Proof. intros (x & s' & E & H) (x' & s'' & E' & H'). rewrite E in E'. simplify_eq. exists x', s''. done. Qed.
End Ends.

(** ** Copies into an array *)

(** memcpy() of [src] to offset [i] of an array. *)
Definition splice {A} (l : list A) (i : nat) (src : list A) : list A :=
  take i l ++ src ++ drop (i + length src) l.

Lemma splice_length {A} (l : list A) i src :
  (i + length src <= length l)%nat -> length (splice l i src) = length l.
Proof. intros; unfold splice; rewrite !length_app, length_take, length_drop; lia. Qed.

Lemma splice_lookup {A} (l : list A) i src j :
  (i + length src <= length l)%nat ->
  splice l i src !! j =
    if bool_decide (i <= j < i + length src)%nat then src !! (j - i)%nat else l !! j.
Proof.
  intros; unfold splice.
  destruct (decide (j < i)%nat).
  - rewrite lookup_app_l by (rewrite length_take; lia).
    rewrite lookup_take_lt by lia. rewrite bool_decide_eq_false_2 by lia. done.
  - rewrite lookup_app_r by (rewrite length_take; lia).
    rewrite length_take, Nat.min_l by lia.
    destruct (decide (j < i + length src)%nat).
    + rewrite lookup_app_l by lia. rewrite bool_decide_eq_true_2 by lia. done.
    + rewrite lookup_app_r by lia. rewrite lookup_drop.
      rewrite bool_decide_eq_false_2 by lia. f_equal; lia.
Qed.

(** ** Error numbers (src/errno.h) *)

Definition EPERM : Z := 1.
Definition ENOENT : Z := 2.
Definition EINTR : Z := 4.
Definition EBADF : Z := 9.
Definition EAGAIN : Z := 11.
Definition ENOMEM : Z := 12.
Definition EACCES : Z := 13.
Definition EFAULT : Z := 14.
Definition EEXIST : Z := 17.
Definition ENODEV : Z := 19.
Definition EINVAL : Z := 22.
Definition EMFILE : Z := 24.
Definition ENOTTY : Z := 25.
Definition ENOSPC : Z := 28.
Definition ESPIPE : Z := 29.
Definition EPIPE : Z := 32.
Definition EMSGSIZE : Z := 90.
Definition ENOSYS : Z := 38.
Definition EROFS : Z := 30.
Definition EOVERFLOW : Z := 75.
Definition ETIMEDOUT : Z := 110.

(** ** Open flags (src/fs/fcntl.h) *)

Definition O_RDONLY : Z := 0.
Definition O_WRONLY : Z := 1.
Definition O_RDWR : Z := 2.
Definition O_ACCMODE : Z := 3.
Definition O_NONBLOCK : Z := 2048.
Definition O_CLOEXEC : Z := 0x80000.

(** ** Automation *)

Create HintDb mos discriminated.
#[export] Hint Resolve u32_range u64_range : mos.

(** Turn the boolean tests in hypotheses and goal into propositions. *)
Ltac breflect :=
  repeat match goal with
  | H : _ && _ = true |- _ => apply andb_true_iff in H; destruct H
  | H : _ || _ = false |- _ => apply orb_false_iff in H; destruct H
  | H : negb _ = true |- _ => apply negb_true_iff in H
  | H : negb _ = false |- _ => apply negb_false_iff in H
  | H : nz _ = true |- _ => unfold nz in H
  | H : nz _ = false |- _ => unfold nz in H
  | H : (_ =? _) = true |- _ => apply Z.eqb_eq in H
  | H : (_ =? _) = false |- _ => apply Z.eqb_neq in H
  | H : (_ <? _) = true |- _ => apply Z.ltb_lt in H
  | H : (_ <? _) = false |- _ => apply Z.ltb_ge in H
  | H : (_ <=? _) = true |- _ => apply Z.leb_le in H
  | H : (_ <=? _) = false |- _ => apply Z.leb_gt in H
  | H : bool_decide _ = true |- _ => apply bool_decide_eq_true_1 in H
  | H : bool_decide _ = false |- _ => apply bool_decide_eq_false_1 in H
  end.

(** Case analysis on the innermost scrutinee of an [if] or [match]. *)
Ltac case_if :=
  match goal with
  | |- context [if ?b then _ else _] => destruct b eqn:?
  | H : context [if ?b then _ else _] |- _ => destruct b eqn:?
  end.

(** Split on every integer comparison of the goal and the hypotheses. *)
Ltac zcases :=
  repeat match goal with
  | |- context [?a <? ?b] => destruct (Z.ltb_spec a b)
  | |- context [?a <=? ?b] => destruct (Z.leb_spec a b)
  | |- context [?a =? ?b] => destruct (Z.eqb_spec a b)
  | H : context [?a <? ?b] |- _ => destruct (Z.ltb_spec a b)
  | H : context [?a <=? ?b] |- _ => destruct (Z.leb_spec a b)
  | H : context [?a =? ?b] |- _ => destruct (Z.eqb_spec a b)
  end.
