(* ===== verification/KString.v ===== *)
(** * Strings and numbers

    Model of src/lib/impl/kstring.c.  A string is the list of its bytes before
    the NUL, and a pointer into it that only moves forward is the rest of the
    list, [[]] pointing at the NUL.  A buffer that is written to is an array
    of bytes; a load or store outside of it is [None].  Objects are shorter
    than 2^31 bytes, so that indices are naturals. *)

From S2P Require Import Prelude.

Definition load (a : list Z) (i : nat) : option Z := a !! i.
Definition store (a : list Z) (i : nat) (v : Z) : option (list Z) :=
  if decide (i < length a)%nat then Some (<[i := v]> a) else None.

(** A byte as a signed char. *)
Definition schar (c : Z) : Z := if c <? 128 then c else c - 256.

(** ** Memory operations *)

Fixpoint copy_forward (len : nat) (a : list Z) (d s : nat) : option (list Z) :=
  match len with
  | O => Some a
  | S len => v ← load a s; a ← store a d v; copy_forward len a (S d) (S s)
  end.
Fixpoint copy_backward (len : nat) (a : list Z) (d s : nat) : option (list Z) :=
  match len with
  | O => Some a
  | S len => v ← load a (s + len); a ← store a (d + len) v; copy_backward len a d s
  end.
Definition memmove (a : list Z) (d s len : nat) : option (list Z) :=
  if decide (d = s) then Some a else
  if decide (len = 0%nat) then Some a else
  if decide (d < s \/ s + len <= d)%nat then copy_forward len a d s else copy_backward len a d s.

Fixpoint memcmp_loop (n i : nat) (a b : list Z) : option Z :=
  match n with
  | O => Some 0
  | S n =>
      x ← load a i; y ← load b i;
      if y <? x then Some 1 else if x <? y then Some (-1) else memcmp_loop n (S i) a b
  end.
Definition memcmp (a b : list Z) (len : nat) : option Z := memcmp_loop len 0 a b.

(** ** String operations *)

Fixpoint strlen (s : list Z) : nat := match s with [] => 0 | _ :: s => S (strlen s) end.

(** [src] with its NUL is written from [d]. *)
Fixpoint strcpy (a : list Z) (d : nat) (src : list Z) : option (list Z) :=
  match src with
  | [] => store a d 0
  | c :: src => a ← store a d c; strcpy a (S d) src
  end.

Fixpoint pad (n : nat) (a : list Z) (i : nat) : option (list Z) :=
  match n with O => Some a | S n => a ← store a i 0; pad n a (S i) end.
Fixpoint strncpy_loop (n : nat) (a : list Z) (i : nat) (src : list Z) : option (list Z) :=
  match n, src with
  | S n, c :: src => a ← store a i c; strncpy_loop n a (S i) src
  | _, _ => pad n a i
  end.
Definition strncpy (a : list Z) (src : list Z) (len : Z) : option (list Z) := strncpy_loop (Z.to_nat len) a 0 src.

(** The string at the start of an array, [None] without a NUL. *)
Fixpoint c_string (a : list Z) : option (list Z) :=
  match a with [] => None | c :: a => if c =? 0 then Some [] else s ← c_string a; Some (c :: s) end.
Definition strcat (a : list Z) (msg : list Z) : option (list Z) :=
  s ← c_string a; strcpy a (strlen s) msg.

Definition sign_of (x y : Z) : Z := b2z (y <? x) - b2z (x <? y).
Fixpoint strcmp (s d : list Z) : Z :=
  match s, d with
  | x :: s', y :: d' => if x =? y then strcmp s' d' else sign_of x y
  | _, _ => sign_of (default 0 (head s)) (default 0 (head d))
  end.
Fixpoint strncmp_loop (n : nat) (s d : list Z) : Z :=
  match n with
  | O => 0
  | S n =>
      let a := default 0 (head s) in let b := default 0 (head d) in
      if negb (a =? b) then sign_of a b else
      if a =? 0 then 0 else strncmp_loop n (tail s) (tail d)
  end.
Definition strncmp (s d : list Z) (len : Z) : Z := strncmp_loop (Z.to_nat len) s d.

Fixpoint strchr_loop (n i : nat) (s : list Z) (c : Z) : option nat :=
  match n with
  | O => None
  | S n => if bool_decide (s !! i = Some c) then Some i else strchr_loop n (S i) s c
  end.
Definition strchr (s : list Z) (c : Z) : option nat := strchr_loop (strlen s) 0 s c.
Fixpoint strrchr_loop (n : nat) (s : list Z) (c : Z) : option nat :=
  match n with
  | O => None
  | S n => if bool_decide (s !! n = Some c) then Some n else strrchr_loop n s c
  end.
Definition strrchr (s : list Z) (c : Z) : option nat := strrchr_loop (strlen s) s c.

(** The bytes [b, b + len) of an array reversed in place. *)
Fixpoint strrev_loop (n i : nat) (a : list Z) (b len : nat) : option (list Z) :=
  match n with
  | O => Some a
  | S n =>
      x ← load a (b + i); y ← load a (b + (len - i - 1));
      a ← store a (b + i) y; a ← store a (b + (len - i - 1)) x;
      strrev_loop n (S i) a b len
  end.
Definition strrev (a : list Z) (b : nat) : option (list Z) :=
  s ← c_string (drop b a); let len := strlen s in strrev_loop (len / 2) 0 a b len.

(** ** Search

    A result is the index of the match; a step is [None] on an index out of
    range. *)

(** while (j && c != Y[j]) j = next[j - 1]; *)
Fixpoint fall_back (fuel : nat) (y : list Z) (next : list nat) (c : Z) (j : nat) : option nat :=
  match j with
  | O => Some O
  | S j' =>
      v ← y !! j;
      if v =? c then Some j else
      match fuel with O => None | S f => k ← next !! j'; fall_back f y next c k end
  end.
Definition kmp_step (y : list Z) (next : list nat) (c : Z) (j : nat) : option nat :=
  j ← fall_back j y next c j; v ← y !! j; Some (if v =? c then S j else j).

Fixpoint kmp_table (y : list Z) (rest : list Z) (next : list nat) (j : nat) : option (list nat) :=
  match rest with
  | [] => Some next
  | c :: rest => j ← kmp_step y next c j; kmp_table y rest (next ++ [j]) j
  end.
Fixpoint kmp_search (y : list Z) (next : list nat) (rest : list Z) (i j : nat) : option (option nat) :=
  match rest with
  | [] => Some None
  | c :: rest =>
      j ← kmp_step y next c j;
      if decide (j = length y) then Some (Some (S i - length y)%nat) else kmp_search y next rest (S i) j
  end.

Fixpoint match_from (n j : nat) (x y : list Z) (i : nat) : bool :=
  match n with
  | O => true
  | S n => if bool_decide (x !! (i + j)%nat = y !! j) then match_from n (S j) x y i else false
  end.
Fixpoint naive_search (n i : nat) (x y : list Z) : option nat :=
  match n with
  | O => None
  | S n => if match_from (length y) 0 x y i then Some i else naive_search n (S i) x y
  end.

(** [room]: malloc() gives the table. *)
Definition strstr (room : bool) (x y : list Z) : option (option nat) :=
  if decide (y = []) then Some (Some 0%nat) else
  let m := strlen x in let n := strlen y in
  if decide (m < n)%nat then Some None else
  if decide (n = 1%nat) then Some (strchr x (default 0 (head y))) else
  if negb room then Some (naive_search (S (m - n)) 0 x y) else
  next ← kmp_table y (tail y) [0%nat] 0; kmp_search y next x 0 0.

(** ** Glob patterns *)

Definition ch_excl : Z := 33.
Definition ch_star : Z := 42.
Definition ch_minus : Z := 45.
Definition ch_quest : Z := 63.
Definition ch_lbracket : Z := 91.
Definition ch_backslash : Z := 92.
Definition ch_rbracket : Z := 93.
Definition ch_caret : Z := 94.

(** The loop of match_class(): whether [c] matched, and the pattern past the
    bracket. *)
Fixpoint class_loop (c : Z) (pat : list Z) (matched : bool) : bool * list Z :=
  match pat with
  | [] => (matched, [])
  | p :: rest =>
      if p =? ch_rbracket then (matched, rest) else
      match rest with
      | d :: h :: rest' =>
          if (d =? ch_minus) && negb (h =? ch_rbracket)
          then class_loop c rest' (matched || (p <=? c) && (c <=? h))
          else class_loop c rest (matched || (c =? p))
      | _ => class_loop c rest (matched || (c =? p))
      end
  end.
Definition match_class (c : Z) (pat : list Z) : bool * list Z :=
  let negate := match pat with p :: _ => (p =? ch_excl) || (p =? ch_caret) | [] => false end in
  let '(matched, rest) := class_loop c (if negate then tail pat else pat) false in
  (if negate then negb matched else matched, rest).

Fixpoint skip_stars (pat : list Z) : list Z :=
  match pat with p :: rest => if p =? ch_star then skip_stars rest else pat | [] => [] end.

(** The rest of the pattern at each position of the string, the end included. *)
Fixpoint anchors (glob : list Z -> option bool) (str : list Z) : option bool :=
  r ← glob str;
  if r : bool then Some true else
  match str with [] => Some false | _ :: str => anchors glob str end.

Fixpoint strglob_impl (fuel : nat) (pat str : list Z) : option bool :=
  match fuel with
  | O => None
  | S f =>
      match pat with
      | [] => Some (bool_decide (str = []))
      | p :: rest =>
          if p =? ch_star then
            match skip_stars rest with
            | [] => Some true
            | pat => anchors (strglob_impl f pat) str
            end
          else if p =? ch_quest then
            match str with [] => Some false | _ :: str => strglob_impl f rest str end
          else if p =? ch_lbracket then
            match str with
            | [] => Some false
            | c :: str =>
                let '(ok, pat) := match_class c rest in
                if ok : bool then strglob_impl f pat str else Some false
            end
          else if p =? ch_backslash then
            match rest, str with
            | q :: rest, c :: str => if q =? c then strglob_impl f rest str else Some false
            | _, _ => Some false
            end
          else
            match str with
            | c :: str => if p =? c then strglob_impl f rest str else Some false
            | [] => Some false
            end
      end
  end.
(** Each round takes a byte of the pattern. *)
Definition strglob (pat str : list Z) : option bool := strglob_impl (S (length pat)) pat str.

(** ** Characters *)

Definition isspace (c : Z) : bool := (c =? 32) || (c =? 9) || (c =? 10).
Definition islower (c : Z) : bool := (97 <=? c) && (c <=? 122).
Definition isupper (c : Z) : bool := (65 <=? c) && (c <=? 90).
Definition tolower (c : Z) : Z := if isupper c then c - 65 + 97 else c.
Definition toupper (c : Z) : Z := if islower c then c - 97 + 65 else c.
Definition isprint (c : Z) : bool := (31 <? c) && (c <? 127) || (c =? 10) || (c =? 13) || (c =? 9).

(** ** Numbers *)

Definition hexdigit (i : Z) : Z := if i <? 10 then i + 48 else i - 10 + 97.

(** while (uleft) *str++ = _hexdigit(uleft % base), uleft /= base; *)
Fixpoint digits_loop (fuel : nat) (divmod : Z -> Z * Z) (a : list Z) (i : nat) (uleft : Z) : option (list Z) :=
  if uleft =? 0 then Some a else
  match fuel with
  | O => None
  | S f => let '(q, r) := divmod uleft in a ← store a i (hexdigit r); digits_loop f divmod a (S i) q
  end.

(** [num] is an int, the result the bytes of the buffer; [inl tt] for the
    NULL of a base out of range.  The allocation is assumed to succeed. *)
Definition itoa (num base : Z) (sign : bool) : option (unit + list Z) :=
  let str := replicate 34 0 in
  if (base <? 2) || (36 <? base) then Some (inl tt) else
  if num =? 0 then inr <$> strcpy str 0 [48] else
  let negative := sign && (base =? 10) && (num <? 0) in
  a ← (if negative then store str 0 45 else Some str);
  let b := if negative then 1%nat else 0%nat in
  let uleft := if negative then u32 (0 - u32 num) else u32 num in
  a ← digits_loop 32 (fun u => (u / base, u mod base)) a b uleft;
  inr <$> strrev a b.

Fixpoint divmod_loop (i : nat) (n d q rem : Z) : Z * Z :=
  match i with
  | O => (q, rem)
  | S i =>
      let rem := Z.lor (u64 (Z.shiftl rem 1)) (Z.land (Z.shiftr n (Z.of_nat i)) 1) in
      if d <=? rem then divmod_loop i n d (Z.lor q (Z.shiftl 1 (Z.of_nat i))) (rem - d)
      else divmod_loop i n d q rem
  end.
Definition u64_divmod (n d : Z) : Z * Z := divmod_loop 64 n d 0 0.

(** [None] also where the negation of [num] overflows. *)
Definition lltoa (num base : Z) (sign : bool) : option (unit + list Z) :=
  let str := replicate 24 0 in
  if num =? 0 then inr <$> strcpy str 0 [48] else
  if negb (base =? 10) && negb (base =? 16) then Some (inl tt) else
  let negative := (base =? 10) && sign && (num <? 0) in
  if negative && (num =? INT64_MIN) then None else
  a ← (if negative then store str 0 45 else Some str);
  let b := if negative then 1%nat else 0%nat in
  let uleft := if negative then u64 (- num) else u64 num in
  a ← digits_loop 64 (fun u => u64_divmod u base) a b uleft;
  inr <$> strrev a b.

Definition is_digit (c : Z) : bool := (48 <=? c) && (c <=? 57).
Definition accepted (base c : Z) : bool :=
  if base =? 8 then (c <=? 55) && (48 <=? c) else
  if base =? 10 then is_digit c else
  if base =? 16 then is_digit c || (97 <=? c) && (c <=? 102) || (65 <=? c) && (c <=? 70)
  else true.
Definition digit_value (c : Z) : Z :=
  if is_digit c then c - 48 else if (97 <=? c) && (c <=? 102) then c - 97 + 10 else c - 65 + 10.

Definition INT_MIN : Z := - 2 ^ 31.
Definition INT_MAX : Z := 2 ^ 31 - 1.
(** The value of an int expression, [None] when it overflows. *)
Definition int (x : Z) : option Z := if (INT_MIN <=? x) && (x <=? INT_MAX) then Some x else None.

Fixpoint atoi_loop (base : Z) (str : list Z) (ret : Z) : option Z :=
  match str with
  | [] => Some ret
  | c :: str =>
      if negb (accepted base (schar c)) then Some ret else
      t ← int (ret * base); ret ← int (t + digit_value (schar c)); atoi_loop base str ret
  end.
Definition atoi (str : list Z) : option Z :=
  match str with
  | [] => Some 0
  | c0 :: rest =>
      let neg := c0 =? 45 in
      let str := if neg then rest else str in
      match str with
      | [] => Some 0
      | c :: rest =>
          if c =? 48 then
            match rest with
            | x :: rest' =>
                if (x =? 120) || (x =? 88) then atoi_loop 16 rest' 0
                else if x =? 98 then atoi_loop 2 rest' 0
                else if (48 <=? schar x) && (schar x <=? 55) then atoi_loop 8 rest 0
                else Some 0
            | [] => Some 0
            end
          else r ← atoi_loop 10 str 0; int (if neg then - r else r)
      end
  end.

(** ** Pseudo-random numbers: the new state and the number *)

Definition rand (state : Z) : Z * Z :=
  let next := u32 (u32 (state * 0x343fd) + 0x269EC3) in (next, Z.land (Z.shiftr next 16) 0x7fff).
