(* ===== verification/KStringProof.v ===== *)
(** * Strings and numbers: theorems

    Copies between overlapping places, substring search against its
    definition, glob patterns against the language they denote, division by
    shifts, and the round trip of numbers through their texts. *)

From S2P Require Import Prelude KString.

Lemma strlen_length s : strlen s = length s.
Proof. induction s; cbn; auto. Qed.

(** ** Substring search *)

(** [y] occurs in [x] at [i]. *)
Definition occurs (x y : list Z) (i : nat) : Prop := y `prefix_of` drop i x.
(** The first occurrence, if there is one. *)
Definition first_at (x y : list Z) (r : option nat) : Prop :=
  match r with
  | Some i => occurs x y i /\ forall k, (k < i)%nat -> ~ occurs x y k
  | None => forall k, ~ occurs x y k
  end.

Section Kmp.
Context (y : list Z).

(** The prefix of length [k] of the pattern ends the text [t]. *)
Definition ends_with (k : nat) (t : list Z) : Prop := (k <= length y)%nat /\ take k y `suffix_of` t.
Definition longest (t : list Z) (j : nat) : Prop := ends_with j t /\ forall k, ends_with k t -> (k <= j)%nat.

(** Entry [q] of the table: the longest proper border of the first [q + 1]
    bytes, which is the longest prefix that ends them without the first. *)
Definition table_ok (next : list nat) : Prop :=
  forall q b, next !! q = Some b -> longest (take q (tail y)) b.

Lemma ends_with_length k t : ends_with k t -> (k <= length t)%nat.
Proof. intros [Hk Hs]. apply suffix_length in Hs. rewrite length_take in Hs. lia. Qed.

Lemma take_snoc k c : y !! k = Some c -> take (S k) y = take k y ++ [c].
Proof. apply take_S_r. Qed.

Lemma ends_with_snoc k t c : ends_with (S k) (t ++ [c]) <-> ends_with k t /\ y !! k = Some c.
Proof.
  unfold ends_with. split.
  - intros [Hk Hs]. destruct (lookup_lt_is_Some_2 y k ltac:(lia)) as [v Ev]. rewrite (take_snoc k v Ev) in Hs.
    apply suffix_snoc_inv_1 in Hs as Hv. apply suffix_snoc_inv_2 in Hs. subst v. split; [split; [lia | done] | done].
  - intros [[Hk Hs] Ec]. pose proof (lookup_lt_Some _ _ _ Ec). rewrite (take_snoc k c Ec). split; [lia|]. apply suffix_snoc. done.
Qed.

(** Two prefixes that end one text: the shorter ends the longer, and if it is
    strictly shorter then also without its first byte. *)
Lemma ends_with_within k j t : ends_with k t -> ends_with j t -> (k < j)%nat -> ends_with k (take (j - 1) (tail y)).
Proof.
  intros [Hk [u1 E1]] [Hj [u2 E2]] Hlt. split; [done|].
  assert (Hl : length u1 = (length u2 + (j - k))%nat).
  { assert (length (u1 ++ take k y) = length (u2 ++ take j y)) as El by congruence. rewrite !length_app, !length_take in El. lia. }
  exists (drop (length u2 + 1) u1).
  assert (Ed : take (j - 1) (tail y) = drop 1 (take j y)).
  { destruct y as [|v y']; cbn in *; [lia|]. destruct j as [|j]; [lia|]. cbn. rewrite Nat.sub_0_r. done. }
  assert (E3 : drop (length u2) (u1 ++ take k y) = take j y) by (rewrite <- E1, E2, drop_app_length; done).
  rewrite Ed, <- E3, drop_drop, drop_app_le by lia. done.
Qed.

Lemma fall_back_ok next c t : table_ok next -> forall fuel j,
  (j <= fuel)%nat -> (j <= length next)%nat -> (j < length y)%nat -> ends_with j t ->
  (forall k, ends_with (S k) (t ++ [c]) -> (k <= j)%nat) ->
  exists j', fall_back fuel y next c j = Some j' /\ (j' < length y)%nat /\ ends_with j' t /\
    (forall k, ends_with (S k) (t ++ [c]) -> (k <= j')%nat) /\ (j' = 0%nat \/ y !! j' = Some c).
Proof.
  intros Ht. induction fuel as [|fuel IH]; intros j Hf Hn Hj He Hc.
  - replace j with 0%nat in * by lia. exists 0%nat. split; [done|]. auto.
  - destruct j as [|j']; [exists 0%nat; split; [done | auto]|]. destruct (lookup_lt_is_Some_2 y (S j') Hj) as [v Ev].
    cbn [fall_back]. rewrite Ev. cbn. destruct (Z.eqb_spec v c) as [-> | Hv]; [exists (S j'); split_and!; auto|].
    destruct (lookup_lt_is_Some_2 next j' ltac:(lia)) as [b Eb]. rewrite Eb. cbn. destruct (Ht j' b Eb) as [Hb Hmax].
    assert (Hlt : forall k, ends_with (S k) (t ++ [c]) -> (k < S j')%nat).
    { intros k Hk. pose proof (Hc k Hk). apply ends_with_snoc in Hk as [_ Ek].
      destruct (decide (k = S j')) as [-> | ?]; [rewrite Ev in Ek; congruence | lia]. }
    assert (Hb' : ends_with b t).
    { destruct Hb as [Hb1 Hb2]. split; [done|]. destruct He as [_ He]. etrans; [exact Hb2|]. etrans; [|exact He].
      destruct y as [|v0 y']; [cbn in Hj; lia|]. cbn. exists [v0]. done. }
    pose proof (ends_with_length _ _ Hb) as Hbl. rewrite length_take in Hbl.
    apply IH; [lia | lia | lia | done |]. intros k Hk. apply Hmax. pose proof (Hlt k Hk). apply ends_with_snoc in Hk as [Hk _].
    replace j' with (S j' - 1)%nat by lia. exact (ends_with_within k (S j') t Hk He ltac:(lia)).
Qed.

Lemma ends_with_nil t : ends_with 0 t.
Proof. split; [lia|]. rewrite take_0. apply suffix_nil. Qed.

Lemma kmp_step_ok next c t j :
  table_ok next -> (j <= length next)%nat -> (j < length y)%nat -> longest t j ->
  exists j', kmp_step y next c j = Some j' /\ longest (t ++ [c]) j'.
Proof.
  intros Ht Hn Hj [He Hm].
  destruct (fall_back_ok next c t Ht j j ltac:(lia) Hn Hj He) as (j' & Ef & Hj' & He' & Hc' & Hz).
  { intros k Hk. apply Hm. apply ends_with_snoc in Hk. tauto. }
  unfold kmp_step. rewrite Ef. cbn. destruct (lookup_lt_is_Some_2 y j' Hj') as [v Ev]. rewrite Ev. cbn.
  eexists. split; [reflexivity|]. destruct (Z.eqb_spec v c) as [-> | Hv].
  - split; [apply ends_with_snoc; done|]. intros [|k] Hk; [lia|]. pose proof (Hc' k Hk). lia.
  - destruct Hz as [-> | Hz]; [|congruence]. split; [apply ends_with_nil|]. intros [|k] Hk; [lia|]. exfalso.
    pose proof (Hc' k Hk). replace k with 0%nat in * by lia. apply ends_with_snoc in Hk as [_ Hk]. congruence.
Qed.

(** The table, one entry for each byte of the text [tail y] seen so far. *)
Lemma kmp_table_ok rest : forall t next j,
  tail y = t ++ rest -> y <> [] -> table_ok next -> length next = S (length t) -> longest t j ->
  exists next', kmp_table y rest next j = Some next' /\ table_ok next' /\ length next' = length y.
Proof.
  induction rest as [|c rest IH]; intros t next j Et Hy Ht Hl Hj; cbn [kmp_table].
  - exists next. split; [done|]. split; [done|]. rewrite app_nil_r in Et. subst t. destruct y; [done | exact Hl].
  - pose proof (ends_with_length _ _ (proj1 Hj)) as Hjl.
    assert (Hly : length y = S (length t + S (length rest))).
    { destruct y; [done|]. cbn in Et. rewrite Et. cbn. rewrite length_app. done. }
    destruct (kmp_step_ok next c t j Ht ltac:(lia) ltac:(lia) Hj) as (j' & Ej & Hj'). rewrite Ej. cbn.
    apply (IH (t ++ [c])); [rewrite <- app_assoc; done | done | | rewrite !length_app, Hl; cbn; lia | done].
    intros q b [Hq | [Hq Eb]]%lookup_app_Some; [eauto|]. apply list_lookup_singleton_Some in Eb as [Hq0 <-].
    replace q with (length (t ++ [c])) by (rewrite length_app; cbn; lia). replace (tail y) with ((t ++ [c]) ++ rest) by (rewrite Et, <- app_assoc; done). rewrite take_app_length. done.
Qed.

Lemma kmp_table_start : y <> [] -> exists next, kmp_table y (tail y) [0%nat] 0 = Some next /\ table_ok next /\ length next = length y.
Proof.
  intros Hy. assert (H0 : longest [] 0).
  { split; [apply ends_with_nil|]. intros k Hk. apply ends_with_length in Hk. exact Hk. }
  apply (kmp_table_ok (tail y) []); try done. intros q b Hq. apply list_lookup_singleton_Some in Hq as [-> <-]. exact H0.
Qed.

(** The pattern ends at [i] exactly when it is the longest prefix there. *)
Lemma occurs_ends t rest i : occurs (t ++ rest) y i -> (i + length y = length t)%nat -> ends_with (length y) t.
Proof.
  intros [u Eu] Hl. split; [lia|]. rewrite firstn_all. exists (take i t).
  rewrite <- (take_drop i t) at 1. f_equal. rewrite drop_app_le in Eu by lia.
  assert (El : length (drop i t) = length y) by (rewrite length_drop; lia). apply app_inj_1 in Eu; [tauto | done].
Qed.

Lemma kmp_search_ok next : table_ok next -> length next = length y -> y <> [] -> forall rest t j,
  longest t j -> (j < length y)%nat -> (forall k, (k + length y <= length t)%nat -> ~ occurs (t ++ rest) y k) ->
  exists r, kmp_search y next rest (length t) j = Some r /\ first_at (t ++ rest) y r.
Proof.
  intros Ht Hl Hy. induction rest as [|c rest IH]; intros t j Hj Hjy Hno; cbn [kmp_search].
  - eexists. split; [reflexivity|]. intros k Hk. pose proof Hk as Hk'. apply prefix_length in Hk'. rewrite app_nil_r, length_drop in Hk'.
    assert (0 < length y)%nat by (destruct y; [done | cbn; lia]). apply (Hno k); [lia | done].
  - destruct (kmp_step_ok next c t j Ht ltac:(lia) Hjy Hj) as (j' & Ej & Hj'). rewrite Ej. cbn.
    assert (Hlt : length (t ++ [c]) = S (length t)) by (rewrite length_app; cbn; lia).
    assert (Hnew : forall k, (k + length y <= length (t ++ [c]))%nat -> j' <> length y -> ~ occurs ((t ++ [c]) ++ rest) y k).
    { intros k Hk Hne Ho. destruct (decide (k + length y = length (t ++ [c]))%nat) as [He | He].
      - pose proof (proj2 Hj' _ (occurs_ends _ _ _ Ho He)). pose proof (proj1 (proj1 Hj')). lia.
      - apply (Hno k); [lia|]. rewrite <- app_assoc in Ho. exact Ho. }
    case_decide as Hd.
    + eexists. split; [reflexivity|]. destruct Hj' as [[_ Hs] _]. rewrite Hd, firstn_all in Hs. destruct Hs as [u Eu].
      assert (Hu : (S (length t) - length y)%nat = length u) by (rewrite <- Hlt, Eu, length_app; lia). rewrite Hu. split.
      * unfold occurs. rewrite cons_middle, app_assoc, Eu, <- app_assoc, drop_app_length. exists rest. done.
      * intros k Hk Ho. apply (Hno k); [|done]. assert (length (u ++ y) = S (length t)) as El by congruence. rewrite length_app in El. lia.
    + rewrite cons_middle, app_assoc, <- Hlt. apply IH; [done | | intros k Hk; apply Hnew; done].
      pose proof (proj1 (proj1 Hj')). lia.
Qed.
End Kmp.

Lemma occurs_lookup x y i : (i + length y <= length x)%nat ->
  occurs x y i <-> forall k, (k < length y)%nat -> x !! (i + k)%nat = y !! k.
Proof.
  intros Hl. unfold occurs. split.
  - intros [u Eu] k Hk. rewrite <- lookup_drop, Eu, lookup_app_l by done. done.
  - intros H. exists (drop (i + length y) x). rewrite <- (take_drop (length y) (drop i x)) at 1. rewrite drop_drop. f_equal.
    apply list_eq_same_length with (length y); [done | rewrite length_take, length_drop; lia|].
    intros k v w Hk Ev Ew. rewrite lookup_take_lt, lookup_drop, H in Ev by done. congruence.
Qed.

Lemma match_from_spec x y i : forall n j,
  match_from n j x y i = true <-> forall k, (k < n)%nat -> x !! (i + (j + k))%nat = y !! (j + k)%nat.
Proof.
  induction n as [|n IH]; intros j; cbn [match_from]; [split; [lia | done]|]. case_bool_decide as Hc.
  - rewrite IH. split.
    + intros H [|k] Hk; [rewrite !Nat.add_0_r; done|]. replace (j + S k)%nat with (S j + k)%nat by lia. apply H. lia.
    + intros H k Hk. replace (S j + k)%nat with (j + S k)%nat by lia. apply H. lia.
  - split; [done|]. intros H. destruct Hc. specialize (H 0%nat ltac:(lia)). rewrite Nat.add_0_r in H. done.
Qed.

Lemma naive_search_ok x y : forall n i,
  (i + n = S (length x - length y))%nat -> (length y <= length x)%nat -> (0 < length y)%nat -> (forall k, (k < i)%nat -> ~ occurs x y k) ->
  first_at x y (naive_search n i x y).
Proof.
  induction n as [|n IH]; intros i Hi Hl Hy Hno; cbn [naive_search].
  - intros k Hk. destruct (decide (k < i)%nat) as [? | Hge]; [eapply Hno; eauto|].
    apply prefix_length in Hk. rewrite length_drop in Hk. lia.
  - destruct (match_from (length y) 0 x y i) eqn:Em.
    + split; [|done]. apply occurs_lookup; [lia|]. exact (proj1 (match_from_spec x y i (length y) 0) Em).
    + apply IH; [lia | done | done |]. intros k Hk Ho. destruct (decide (k = i)) as [-> | ?]; [|apply (Hno k); [lia | done]].
      rewrite (proj2 (match_from_spec x y i (length y) 0)) in Em; [done|]. apply occurs_lookup; [lia | done].
Qed.

Lemma occurs_one x c k : occurs x [c] k <-> x !! k = Some c.
Proof.
  unfold occurs. split.
  - intros [u Eu]. rewrite <- (Nat.add_0_r k), <- lookup_drop, Eu. done.
  - intros E. rewrite (drop_S x c k E). apply prefix_cons, prefix_nil.
Qed.

Lemma strchr_loop_ok x c : forall n i, (i + n = length x)%nat -> (forall k, (k < i)%nat -> x !! k <> Some c) ->
  first_at x [c] (strchr_loop n i x c).
Proof.
  induction n as [|n IH]; intros i Hi Hno; cbn [strchr_loop].
  - intros k. rewrite occurs_one. intros Hk. pose proof (lookup_lt_Some _ _ _ Hk). apply (Hno k); [lia | done].
  - case_bool_decide as Hc; [split; [apply occurs_one; done|]; intros k Hk; rewrite occurs_one; auto|].
    apply IH; [lia|]. intros k Hk. destruct (decide (k = i)) as [-> | ?]; [done | apply Hno; lia].
Qed.

(** C29: strstr() finds the first occurrence of the pattern, or that there is
    none, and always ends, whether it gets the memory for its table or not:
    the Knuth-Morris-Pratt search with its table of borders and the plain
    search are one function. *)
Theorem strstr_correct room x y : exists r, strstr room x y = Some r /\ first_at x y r.
Proof.
  unfold strstr. case_decide as Hy.
  { subst y. eexists. split; [reflexivity|]. split; [apply prefix_nil | lia]. }
  cbv zeta. rewrite (strlen_length x), (strlen_length y). case_decide as Hl.
  { eexists. split; [reflexivity|]. intros k Hk. apply prefix_length in Hk. rewrite length_drop in Hk. lia. }
  case_decide as H1.
  { destruct y as [|c [|? ?]]; try discriminate. eexists. split; [reflexivity|]. unfold strchr. rewrite strlen_length.
    apply strchr_loop_ok; [lia|]. intros. lia. }
  assert (0 < length y)%nat by (destruct y; [done | cbn; lia]). destruct room; cbn [negb].
  - destruct (kmp_table_start y Hy) as (next & En & Ht & Hn). rewrite En. cbn.
    apply (kmp_search_ok y next Ht Hn Hy x [] 0%nat); [| lia |].
    + split; [apply ends_with_nil|]. intros k Hk. apply ends_with_length in Hk. exact Hk.
    + cbn. intros. lia.
  - eexists. split; [reflexivity|]. apply naive_search_ok; [lia | lia | lia |]. intros. lia.
Qed.

(** ** Glob patterns *)

(** The language of a pattern.  A bracket expression is a list of bytes and
    ranges up to the closing bracket or the end of the pattern. *)
Inductive item := One (c : Z) | Range (lo hi : Z).
Definition in_item (c : Z) (i : item) : bool := match i with One d => c =? d | Range lo hi => (lo <=? c) && (c <=? hi) end.

Inductive bracket : list Z -> list item -> list Z -> Prop :=
| bracket_open : bracket [] [] []
| bracket_close rest : bracket (ch_rbracket :: rest) [] rest
| bracket_range lo hi p its rest :
    lo <> ch_rbracket -> hi <> ch_rbracket -> bracket p its rest -> bracket (lo :: ch_minus :: hi :: p) (Range lo hi :: its) rest
| bracket_one c p its rest :
    c <> ch_rbracket -> (forall hi p', p = ch_minus :: hi :: p' -> hi = ch_rbracket) -> bracket p its rest -> bracket (c :: p) (One c :: its) rest.

Definition negation (c : Z) : Prop := c = ch_excl \/ c = ch_caret.
Definition plain (c : Z) : Prop := c <> ch_star /\ c <> ch_quest /\ c <> ch_lbracket /\ c <> ch_backslash.

Inductive globs : list Z -> list Z -> Prop :=
| globs_end : globs [] []
| globs_star p s1 s2 : globs p s2 -> globs (ch_star :: p) (s1 ++ s2)
| globs_any c p s : globs p s -> globs (ch_quest :: p) (c :: s)
| globs_class c p its rest s :
    (forall n p', p = n :: p' -> ~ negation n) -> bracket p its rest -> existsb (in_item c) its = true ->
    globs rest s -> globs (ch_lbracket :: p) (c :: s)
| globs_negated c n p its rest s :
    negation n -> bracket p its rest -> existsb (in_item c) its = false ->
    globs rest s -> globs (ch_lbracket :: n :: p) (c :: s)
| globs_escape c p s : globs p s -> globs (ch_backslash :: c :: p) (c :: s)
| globs_plain c p s : plain c -> globs p s -> globs (c :: p) (c :: s).

Lemma class_loop_ok c : forall n pat m, (length pat <= n)%nat ->
  exists its rest, bracket pat its rest /\ (length rest <= length pat)%nat /\ class_loop c pat m = (m || existsb (in_item c) its, rest).
Proof.
  induction n as [|n IH]; intros [|p pat] m Hn; cbn in Hn; try lia.
  1,2: exists [], []; split; [constructor | cbn; rewrite orb_false_r; done].
  cbn [class_loop]. destruct (Z.eqb_spec p ch_rbracket) as [-> | Hp].
  { exists [], pat. split; [constructor|]. split; [cbn; lia|]. cbn. rewrite orb_false_r. done. }
  assert (Hone : (forall hi p', pat = ch_minus :: hi :: p' -> hi = ch_rbracket) ->
    exists its rest, bracket (p :: pat) its rest /\ (length rest <= length (p :: pat))%nat /\
      class_loop c pat (m || (c =? p)) = (m || existsb (in_item c) its, rest)).
  { intros Hno. destruct (IH pat (m || (c =? p)) ltac:(lia)) as (its & rest & Hb & Hl & E). exists (One p :: its), rest.
    split; [constructor; done|]. split; [cbn; lia|]. rewrite E. cbn. rewrite orb_assoc. done. }
  destruct pat as [|d [|h pat']]; [apply Hone; done | apply Hone; done|].
  destruct (Z.eqb_spec d ch_minus) as [-> | Hd]; [|apply Hone; intros ? ? [=]; congruence].
  destruct (Z.eqb_spec h ch_rbracket) as [-> | Hh]; [apply Hone; intros ? ? [=]; congruence|]. cbn [negb andb].
  cbn in Hn. destruct (IH pat' (m || (p <=? c) && (c <=? h)) ltac:(lia)) as (its & rest & Hb & Hl & E). exists (Range p h :: its), rest.
  split; [constructor; done|]. split; [cbn; lia|]. rewrite E. cbn. rewrite orb_assoc. done.
Qed.

(** A bracket expression reads one way. *)
Lemma bracket_unique p its rest : bracket p its rest -> forall its' rest', bracket p its' rest' -> its' = its /\ rest' = rest.
Proof.
  induction 1 as [|rest|lo hi p its rest Hlo Hhi Hb IH|c p its rest Hc Hno Hb IH]; intros its' rest' H'; inversion H'; subst; try done.
  - match goal with H : bracket p _ rest' |- _ => destruct (IH _ _ H) as [-> ->] end. done.
  - exfalso. naive_solver.
  - exfalso. naive_solver.
  - match goal with H : bracket p _ rest' |- _ => destruct (IH _ _ H) as [-> ->] end. done.
Qed.

Definition in_class (c : Z) (p : list Z) (rest : list Z) : Prop :=
  (exists its, (forall n p', p = n :: p' -> ~ negation n) /\ bracket p its rest /\ existsb (in_item c) its = true) \/
  (exists n p' its, p = n :: p' /\ negation n /\ bracket p' its rest /\ existsb (in_item c) its = false).

Lemma match_class_ok c p :
  exists ok rest, match_class c p = (ok, rest) /\ (length rest <= length p)%nat /\ forall rest', in_class c p rest' <-> rest' = rest /\ ok = true.
Proof.
  unfold match_class. destruct (match p with n :: _ => (n =? ch_excl) || (n =? ch_caret) | [] => false end) eqn:Hn.
  - destruct p as [|n p]; [discriminate|]. cbn [tail].
    assert (negation n) as Hneg by (apply orb_true_iff in Hn as [?%Z.eqb_eq | ?%Z.eqb_eq]; [left | right]; done).
    destruct (class_loop_ok c (length p) p false ltac:(lia)) as (its & rest & Hb & Hl & E). rewrite E. cbn [orb].
    eexists _, _. split; [reflexivity|]. split; [cbn; lia|]. intros rest'. split.
    + intros [(its' & Hno & _) | (n' & p' & its' & [= <- <-] & _ & Hb' & He)]; [destruct (Hno _ _ eq_refl Hneg)|].
      destruct (bracket_unique _ _ _ Hb _ _ Hb') as [-> ->]. rewrite He. done.
    + intros [-> He%negb_true_iff]. right. eauto 10.
  - assert (Hno : forall n p', p = n :: p' -> ~ negation n).
    { intros n p' -> [-> | ->]; discriminate. }
    destruct (class_loop_ok c (length p) p false ltac:(lia)) as (its & rest & Hb & Hl & E). rewrite E. cbn [orb].
    eexists _, _. split; [reflexivity|]. split; [done|]. intros rest'. split.
    + intros [(its' & _ & Hb' & He) | (n' & p' & its' & -> & Hneg & _)]; [|destruct (Hno _ _ eq_refl Hneg)].
      destruct (bracket_unique _ _ _ Hb _ _ Hb') as [-> ->]. done.
    + intros [-> He]. left. eauto.
Qed.

(** The rest of a pattern somewhere in a string. *)
Definition somewhere (p s : list Z) : Prop := exists s1 s2, s = s1 ++ s2 /\ globs p s2.

Lemma globs_star_iff p s : globs (ch_star :: p) s <-> somewhere p s.
Proof.
  split.
  - intros H. inversion H as [|? s1 s2|?|?|?|?|? ? ? [Hc _]]; subst; [eexists _, _; eauto | done].
  - intros (s1 & s2 & -> & H). constructor. done.
Qed.
Lemma somewhere_skip p s : somewhere p s <-> somewhere (skip_stars p) s.
Proof.
  revert s. induction p as [|c p IH]; intros s; [done|]. cbn [skip_stars]. destruct (Z.eqb_spec c ch_star) as [-> | Hc]; [|done].
  rewrite <- IH. split.
  - intros (s1 & s2 & -> & H). apply globs_star_iff in H as (s3 & s4 & -> & H). exists (s1 ++ s3), s4. rewrite app_assoc. done.
  - intros H. exists [], s. split; [done|]. apply globs_star_iff. done.
Qed.
Lemma skip_stars_length p : (length (skip_stars p) <= length p)%nat.
Proof. induction p as [|c p IH]; cbn; [lia|]. destruct (c =? ch_star); cbn; lia. Qed.
Lemma skip_stars_head p q rest : skip_stars p = q :: rest -> q <> ch_star.
Proof. induction p as [|c p IH]; cbn; [done|]. destruct (Z.eqb_spec c ch_star); [done | congruence]. Qed.

Lemma somewhere_nil s : somewhere [] s.
Proof. exists s, []. rewrite app_nil_r. split; [done | constructor]. Qed.

Lemma anchors_ok g p : (forall s, exists b, g s = Some b /\ (b = true <-> globs p s)) ->
  forall s, exists b, anchors g s = Some b /\ (b = true <-> somewhere p s).
Proof.
  intros Hg s. induction s as [|c s IH]; cbn [anchors].
  - destruct (Hg []) as (b & E & Hb). rewrite E. cbn. destruct b.
    + eexists. split; [reflexivity|]. split; [|done]. intros _. exists [], []. split; [done | apply Hb; done].
    + eexists. split; [reflexivity|]. split; [done|]. intros (s1 & s2 & Es & H). symmetry in Es. apply app_eq_nil in Es as [-> ->]. apply Hb. done.
  - destruct (Hg (c :: s)) as (b & E & Hb). rewrite E. cbn. destruct b.
    + eexists. split; [reflexivity|]. split; [|done]. intros _. exists [], (c :: s). split; [done | apply Hb; done].
    + destruct IH as (b' & E' & Hb'). exists b'. split; [done|]. rewrite Hb'. split.
      * intros (s1 & s2 & -> & H). exists (c :: s1), s2. done.
      * intros ([|c' s1] & s2 & Es & H); cbn in Es; [subst s2; apply Hb in H; discriminate|]. injection Es as _ ->. exists s1, s2. done.
Qed.

Lemma globs_any_iff p s : globs (ch_quest :: p) s <-> exists c s', s = c :: s' /\ globs p s'.
Proof.
  split; [|intros (c & s' & -> & H); constructor; done].
  intros H. inversion H as [|?|c ? s'|?|?|?|? ? ? (_ & Hc & _)]; subst; [eauto | done].
Qed.
Lemma globs_class_iff p s : globs (ch_lbracket :: p) s <-> exists c s' rest, s = c :: s' /\ in_class c p rest /\ globs rest s'.
Proof.
  split.
  - intros H. inversion H; subst; [| |match goal with Hp : plain _ |- _ => destruct Hp as (_ & _ & Hp & _); done end];
      (eexists _, _, _; split; [reflexivity|]; split; [|eassumption]); [left | right]; eauto 10.
  - intros (c & s' & rest & -> & [(its & ? & ? & ?) | (n & p' & its & -> & ? & ? & ?)] & Hg); [eapply globs_class | eapply globs_negated]; eauto.
Qed.
Lemma globs_escape_iff p s : globs (ch_backslash :: p) s <-> exists c p' s', p = c :: p' /\ s = c :: s' /\ globs p' s'.
Proof.
  split; [|intros (c & p' & s' & -> & -> & H); constructor; done].
  intros H. inversion H as [|?|?|?|?|c p' s'|? ? ? (_ & _ & _ & Hc)]; subst; [eauto 10 | done].
Qed.
Lemma globs_plain_iff c p s : plain c -> globs (c :: p) s <-> exists s', s = c :: s' /\ globs p s'.
Proof.
  intros Hp. split; [|intros (s' & -> & H); constructor; done].
  intros H. destruct Hp as (H1 & H2 & H3 & H4). inversion H; subst; try done. eauto.
Qed.

Lemma strglob_impl_ok : forall f pat str, (length pat < f)%nat -> exists b, strglob_impl f pat str = Some b /\ (b = true <-> globs pat str).
Proof.
  induction f as [|f IH]; intros pat str Hf; [lia|]. destruct pat as [|p pat]; cbn [strglob_impl].
  { eexists. split; [reflexivity|]. rewrite bool_decide_eq_true. split; [intros ->; constructor | intros H; inversion H; done]. }
  cbn in Hf. destruct (Z.eqb_spec p ch_star) as [-> | H1].
  { setoid_rewrite globs_star_iff. setoid_rewrite somewhere_skip. pose proof (skip_stars_length pat).
    destruct (skip_stars pat) as [|q rest] eqn:Es; [eexists; split; [reflexivity|]; split; [intros _; apply somewhere_nil | done]|].
    apply anchors_ok. intros s. apply IH. lia. }
  destruct (Z.eqb_spec p ch_quest) as [-> | H2].
  { setoid_rewrite globs_any_iff. destruct str as [|c str]; [eexists; split; [reflexivity|]; split; [done | intros (? & ? & [=] & _)]|].
    destruct (IH pat str ltac:(lia)) as (b & E & Hb). exists b. split; [done|]. rewrite Hb. naive_solver. }
  destruct (Z.eqb_spec p ch_lbracket) as [-> | H3].
  { setoid_rewrite globs_class_iff. destruct str as [|c str]; [eexists; split; [reflexivity|]; split; [done | intros (? & ? & ? & [=] & _)]|].
    destruct (match_class_ok c pat) as (ok & rest & E & Hl & Hc). rewrite E. destruct ok.
    - destruct (IH rest str ltac:(lia)) as (b & E' & Hb). exists b. split; [done|]. rewrite Hb. split.
      + intros H. exists c, str, rest. split_and!; [done | apply Hc; done | done].
      + intros (c' & s' & rest' & [= <- <-] & Hi & H). apply Hc in Hi as [-> _]. done.
    - eexists. split; [reflexivity|]. split; [done|]. intros (c' & s' & rest' & [= <- <-] & Hi & H). apply Hc in Hi as [_ ?]. done. }
  destruct (Z.eqb_spec p ch_backslash) as [-> | H4].
  { setoid_rewrite globs_escape_iff. destruct pat as [|q pat]; [eexists; split; [reflexivity|]; split; [done | intros (? & ? & ? & [=] & _)]|].
    destruct str as [|c str]; [eexists; split; [reflexivity|]; split; [done | intros (? & ? & ? & _ & [=] & _)]|].
    destruct (Z.eqb_spec q c) as [-> | Hq]; [|eexists; split; [reflexivity|]; split; [done | intros (? & ? & ? & [=] & [=] & _); congruence]].
    cbn in Hf. destruct (IH pat str ltac:(lia)) as (b & E & Hb). exists b. split; [done|]. rewrite Hb. naive_solver. }
  setoid_rewrite globs_plain_iff; [|done]. destruct str as [|c str]; [eexists; split; [reflexivity|]; split; [done | intros (? & [=] & _)]|].
  destruct (Z.eqb_spec p c) as [-> | Hq]; [|eexists; split; [reflexivity|]; split; [done | intros (? & [=] & _); congruence]].
  destruct (IH pat str ltac:(lia)) as (b & E & Hb). exists b. split; [done|]. rewrite Hb. naive_solver.
Qed.

(** Strglob() always ends and matches exactly the strings of the language
    of its pattern: stars, single characters, bracket expressions with ranges
    and negation, escapes and plain bytes. *)
Theorem strglob_correct pat str : exists b, strglob pat str = Some b /\ (b = true <-> globs pat str).
Proof. apply strglob_impl_ok. lia. Qed.

(** ** Copies *)

Lemma store_ok a i v : (i < length a)%nat -> store a i v = Some (<[i := v]> a).
Proof. intros. unfold store. rewrite decide_True by done. done. Qed.
Lemma load_ok a i : (i < length a)%nat -> exists v, load a i = Some v.
Proof. apply lookup_lt_is_Some_2. Qed.

(** [a'] is [a] with [len] bytes moved from [s] to [d]. *)
Definition moved_bytes (a a' : list Z) (d s len : nat) : Prop :=
  length a' = length a /\ forall i, a' !! i = if decide (d <= i < d + len)%nat then a !! (s + (i - d))%nat else a !! i.

Lemma copy_forward_ok : forall len a d s,
  (d + len <= length a)%nat -> (s + len <= length a)%nat -> (d <= s \/ s + len <= d)%nat ->
  exists a', copy_forward len a d s = Some a' /\ moved_bytes a a' d s len.
Proof.
  induction len as [|len IH]; intros a d s Hd Hs Hor; cbn [copy_forward].
  { exists a. split; [done|]. split; [done|]. intros i. rewrite decide_False by lia. done. }
  destruct (load_ok a s ltac:(lia)) as [v Ev]. rewrite Ev. cbn. rewrite store_ok by lia. cbn.
  destruct (IH (<[d := v]> a) (S d) (S s)) as (a' & E & Hl & Ha); [rewrite length_insert; lia | rewrite length_insert; lia | lia|].
  exists a'. split; [done|]. split; [rewrite Hl, length_insert; done|]. intros i. rewrite Ha. case_decide.
  - rewrite decide_True by lia. rewrite list_lookup_insert_ne by lia. f_equal. lia.
  - destruct (decide (i = d)) as [-> | Hi].
    + rewrite list_lookup_insert_eq by lia. rewrite decide_True by lia. rewrite Nat.sub_diag, Nat.add_0_r. done.
    + rewrite list_lookup_insert_ne, decide_False by lia. done.
Qed.

Lemma copy_backward_ok : forall len a d s,
  (d + len <= length a)%nat -> (s + len <= length a)%nat -> (s <= d)%nat ->
  exists a', copy_backward len a d s = Some a' /\ moved_bytes a a' d s len.
Proof.
  induction len as [|len IH]; intros a d s Hd Hs Hor; cbn [copy_backward].
  { exists a. split; [done|]. split; [done|]. intros i. rewrite decide_False by lia. done. }
  destruct (load_ok a (s + len) ltac:(lia)) as [v Ev]. rewrite Ev. cbn. rewrite store_ok by lia. cbn.
  destruct (IH (<[(d + len)%nat := v]> a) d s) as (a' & E & Hl & Ha); [rewrite length_insert; lia | rewrite length_insert; lia | lia|].
  exists a'. split; [done|]. split; [rewrite Hl, length_insert; done|]. intros i. rewrite Ha. case_decide.
  - rewrite decide_True by lia. rewrite list_lookup_insert_ne by lia. done.
  - destruct (decide (i = d + len)%nat) as [-> | Hi].
    + rewrite list_lookup_insert_eq by lia. rewrite decide_True by lia. replace (s + (d + len - d))%nat with (s + len)%nat by lia. done.
    + rewrite list_lookup_insert_ne, decide_False by lia. done.
Qed.

(** Memmove() within one array puts the bytes that were at the source to
    the destination and changes nothing else, however the two overlap. *)
Theorem memmove_correct a d s len :
  (d + len <= length a)%nat -> (s + len <= length a)%nat -> memmove a d s len = Some (splice a d (take len (drop s a))).
Proof.
  intros Hd Hs.
  assert (H : exists a', memmove a d s len = Some a' /\ moved_bytes a a' d s len).
  { unfold memmove. case_decide as H1; [subst; exists a; split; [done|]; split; [done|]; intros i; case_decide; [f_equal; lia | done]|].
    case_decide as H2; [subst; exists a; split; [done|]; split; [done|]; intros i; rewrite decide_False by lia; done|].
    case_decide; [apply copy_forward_ok; lia | apply copy_backward_ok; lia]. }
  destruct H as (a' & E & Hl & Ha). rewrite E. f_equal. apply list_eq. intros i. rewrite Ha.
  assert (Hlen : length (take len (drop s a)) = len) by (rewrite length_take, length_drop; lia).
  rewrite splice_lookup by lia. rewrite Hlen. case_decide.
  - rewrite bool_decide_eq_true_2 by lia. rewrite lookup_take_lt, lookup_drop by lia. done.
  - rewrite bool_decide_eq_false_2 by lia. done.
Qed.

Lemma splice_cons {A} (a : list A) i h hs : (i < length a)%nat -> splice (<[i := h]> a) (S i) hs = splice a i (h :: hs).
Proof.
  intros Hi. unfold splice. rewrite (take_S_r _ _ h) by (apply list_lookup_insert_eq; done). rewrite take_insert_ge by lia.
  rewrite drop_insert_lt by (cbn; lia). cbn. rewrite <- app_assoc. cbn. rewrite Nat.add_succ_r. done.
Qed.
Lemma splice_nil {A} (a : list A) i : splice a i [] = a.
Proof. unfold splice. cbn. rewrite Nat.add_0_r. apply take_drop. Qed.

(** strcpy() writes the string and its NUL. *)
Lemma strcpy_ok src : forall a d, (d + length src < length a)%nat -> strcpy a d src = Some (splice a d (src ++ [0])).
Proof.
  induction src as [|c src IH]; intros a d Hl; cbn [strcpy length] in *.
  - rewrite store_ok by lia. cbn [app]. rewrite <- (splice_cons a d 0 []), splice_nil by lia. done.
  - rewrite store_ok by lia. cbn [mbind option_bind]. rewrite IH by (rewrite length_insert; lia). rewrite splice_cons by lia. done.
Qed.

Lemma pad_ok n : forall a i, (i + n <= length a)%nat -> pad n a i = Some (splice a i (replicate n 0)).
Proof.
  induction n as [|n IH]; intros a i Hl; cbn [pad replicate]; [rewrite splice_nil; done|].
  rewrite store_ok by lia. cbn [mbind option_bind]. rewrite IH by (rewrite length_insert; lia). rewrite splice_cons by lia. done.
Qed.

(** strncpy() writes exactly [len] bytes: the string cut to that length, then
    NULs. *)
Lemma strncpy_loop_ok n : forall src a i,
  (i + n <= length a)%nat -> strncpy_loop n a i src = Some (splice a i (take n src ++ replicate (n - length src) 0)).
Proof.
  induction n as [|n IH]; intros [|c src] a i Hl; cbn [strncpy_loop take length Nat.sub app].
  1,2: rewrite pad_ok by lia; done.
  - rewrite pad_ok by lia. done.
  - rewrite store_ok by lia. cbn [mbind option_bind]. rewrite IH by (rewrite length_insert; lia). rewrite splice_cons by lia. done.
Qed.

(** strcmp() is 0 for equal strings only. *)
Lemma strcmp_eq s d : Forall (fun c => 0 < c) s -> Forall (fun c => 0 < c) d -> strcmp s d = 0 <-> s = d.
Proof.
  intros Hs. revert d. induction Hs as [|x s Hx _ IH]; intros d Hd.
  - destruct Hd as [|y d Hy _]; [done|]. cbn. unfold sign_of, b2z. split; [|done]. repeat case_if; breflect; lia.
  - destruct Hd as [|y d Hy Hd]; cbn.
    + unfold sign_of, b2z. split; [|done]. repeat case_if; breflect; lia.
    + destruct (Z.eqb_spec x y) as [-> | Hne]; [rewrite IH by done; split; [intros ->; done | intros [=]; done]|].
      unfold sign_of, b2z. split; [|congruence]. repeat case_if; breflect; lia.
Qed.

(** ** Division by shifts *)

(** Bit [i] of [n] is read after the bits above it. *)
Lemma top_bits n i : 0 <= n -> 0 <= i -> n / 2 ^ i = 2 * (n / 2 ^ (i + 1)) + Z.land (Z.shiftr n i) 1.
Proof.
  intros Hn Hi. rewrite Z.shiftr_div_pow2, (Z.land_ones _ 1) by lia. rewrite Z.pow_add_r, <- Z.div_div by lia.
  change (2 ^ 1) with 2. pose proof (Z.div_mod (n / 2 ^ i) 2 ltac:(lia)). lia.
Qed.

Lemma lor_low r b : 0 <= b <= 1 -> Z.lor (2 * r) b = 2 * r + b.
Proof.
  intros Hb. rewrite Z.lor_comm, Z.add_comm. pose proof (field_lor 1 b r ltac:(lia) ltac:(lia)) as E.
  change (2 ^ 1) with 2 in E. rewrite E, Z.shiftl_mul_pow2 by lia. f_equal. lia.
Qed.

Lemma lor_bit q i : 0 <= i -> q mod 2 ^ (i + 1) = 0 -> Z.lor q (Z.shiftl 1 i) = q + 2 ^ i.
Proof.
  intros Hi Hq. rewrite Z.shiftl_1_l. pose proof (Z.div_mod q (2 ^ (i + 1)) ltac:(lia)) as E. rewrite Hq, Z.add_0_r in E.
  assert (0 < 2 ^ i) by (apply Z.pow_pos_nonneg; lia). assert (E2 : 2 ^ (i + 1) = 2 * 2 ^ i) by (rewrite Z.pow_add_r; lia).
  pose proof (field_lor (i + 1) (2 ^ i) (q / 2 ^ (i + 1)) ltac:(lia) ltac:(lia)) as F.
  rewrite Z.lor_comm. rewrite Z.shiftl_mul_pow2 in F by lia. rewrite Z.mul_comm in E. rewrite <- E in F. lia.
Qed.

Lemma divmod_loop_ok n d : 0 <= n < UINT64_MOD -> 0 < d <= 2 ^ 63 -> forall i q rem,
  n / 2 ^ Z.of_nat i = d * (q / 2 ^ Z.of_nat i) + rem -> q mod 2 ^ Z.of_nat i = 0 -> 0 <= rem < d ->
  divmod_loop i n d q rem = (n / d, n mod d).
Proof.
  intros Hn Hd. induction i as [|i IH]; intros q rem E Hq Hr; cbn [divmod_loop].
  { change (2 ^ Z.of_nat 0) with 1 in *. rewrite !Z.div_1_r in E. f_equal; [apply (Z.div_unique n d q rem) | apply (Z.mod_unique n d q rem)]; lia. }
  set (e := Z.of_nat i) in *. assert (He : 0 <= e) by lia. replace (Z.of_nat (S i)) with (e + 1) in * by lia.
  assert (Hp : 0 < 2 ^ e) by (apply Z.pow_pos_nonneg; lia). assert (E2 : 2 ^ (e + 1) = 2 * 2 ^ e) by (rewrite Z.pow_add_r; lia).
  pose proof (top_bits n e ltac:(lia) He) as Hb. set (b := Z.land (Z.shiftr n e) 1) in *.
  assert (Hb1 : 0 <= b <= 1) by (unfold b; rewrite (Z.land_ones _ 1) by lia; pose proof (Z.mod_pos_bound (Z.shiftr n e) (2 ^ 1) ltac:(lia)); lia).
  set (Q := q / 2 ^ (e + 1)) in *. assert (EQ : q = 2 ^ (e + 1) * Q) by (pose proof (Z.div_mod q (2 ^ (e + 1)) ltac:(lia)); lia).
  assert (Er : Z.lor (u64 (Z.shiftl rem 1)) b = 2 * rem + b).
  { rewrite Z.shiftl_mul_pow2 by lia. change (2 ^ 1) with 2. rewrite u64_id by (unfold UINT64_MOD; lia). rewrite Z.mul_comm. apply lor_low. done. }
  rewrite Er. destruct (Z.leb_spec d (2 * rem + b)) as [Hle | Hgt].
  - rewrite lor_bit by done. assert (Eq : q + 2 ^ e = (2 * Q + 1) * 2 ^ e) by (rewrite EQ, E2; ring).
    apply IH; [rewrite Eq, Z.div_mul by lia; lia | rewrite Eq; apply Z.mod_mul; lia | lia].
  - assert (Eq : q = (2 * Q) * 2 ^ e) by (rewrite EQ, E2; ring).
    apply IH; [rewrite Eq, Z.div_mul by lia; lia | rewrite Eq; apply Z.mod_mul; lia | lia].
Qed.

(** The division of 64-bit numbers by shifts and subtractions is division. *)
Lemma u64_divmod_ok n d : 0 <= n < UINT64_MOD -> 0 < d <= 2 ^ 63 -> u64_divmod n d = (n / d, n mod d).
Proof.
  intros Hn Hd. apply divmod_loop_ok; try done; [|lia]. rewrite Z.div_0_l, Z.mul_0_r by done.
  rewrite Z.div_small by (unfold UINT64_MOD in *; lia). done.
Qed.

(** ** Numbers as text *)

(** The value of digits, the most significant first. *)
Definition value (base : Z) (acc : Z) (ds : list Z) : Z := fold_left (fun v d => v * base + d) ds acc.
Definition is_digits (base : Z) (ds : list Z) : Prop := Forall (fun d => 0 <= d < base) ds.

(** The text of a number: its digits without leading zeros, [0] having none. *)
Definition numeral (base u : Z) (ds : list Z) : Prop :=
  value base 0 ds = u /\ is_digits base ds /\ match ds with [] => u = 0 | d :: _ => 0 < d end.

Lemma value_snoc base acc ds d : value base acc (ds ++ [d]) = value base acc ds * base + d.
Proof. unfold value. rewrite fold_left_app. done. Qed.

(** The digits of [u] are written the least significant first. *)
Lemma digits_loop_ok base divmod : 2 <= base -> forall k fuel a i u,
  0 <= u < base ^ Z.of_nat k -> (k <= fuel)%nat -> (i + k <= length a)%nat ->
  (forall v, 0 <= v <= u -> divmod v = (v / base, v mod base)) ->
  exists ds, numeral base u ds /\ (length ds <= k)%nat /\
    digits_loop fuel divmod a i u = Some (splice a i (hexdigit <$> rev ds)).
Proof.
  intros Hb. induction k as [|k IH]; intros fuel a i u Hu Hf Hl Hdm.
  - change (base ^ Z.of_nat 0) with 1 in Hu. replace u with 0 by lia. exists []. split; [split; [done | split; [constructor | done]]|].
    split; [done|]. destruct fuel; cbn [digits_loop]; rewrite Z.eqb_refl; cbn; rewrite splice_nil; done.
  - destruct (Z.eqb_spec u 0) as [-> | Hz].
    { exists []. split; [split; [done | split; [constructor | done]]|]. split; [cbn; lia|].
      destruct fuel; cbn [digits_loop]; rewrite Z.eqb_refl; cbn; rewrite splice_nil; done. }
    destruct fuel as [|fuel]; [lia|]. cbn [digits_loop]. rewrite (proj2 (Z.eqb_neq _ _)), Hdm, store_ok by (done || lia). cbn [mbind option_bind].
    pose proof (Z.div_mod u base ltac:(lia)) as E. pose proof (Z.mod_pos_bound u base ltac:(lia)) as Hm.
    assert (Hq : 0 <= u / base < base ^ Z.of_nat k).
    { split; [apply Z.div_pos; lia|]. apply Z.div_lt_upper_bound; [lia|]. rewrite Nat2Z.inj_succ, Z.pow_succ_r in Hu by lia. lia. }
    assert (Hqu : u / base <= u) by nia.
    destruct (IH fuel (<[i := hexdigit (u mod base)]> a) (S i) (u / base) Hq ltac:(lia)) as (ds & (Hv & Hd & Hh) & Hlen & Ed).
    { rewrite length_insert. lia. } { intros v Hv. apply Hdm. lia. }
    exists (ds ++ [u mod base]). split; [|split].
    + split; [rewrite value_snoc, Hv; lia|]. split; [apply Forall_app; split; [done | repeat constructor; lia]|].
      destruct ds; cbn; [|done]. rewrite Hh in E. lia.
    + rewrite length_app. cbn. lia.
    + rewrite Ed, splice_cons by lia. rewrite rev_app_distr. done.
Qed.

(** ** Reversal in place *)

Lemma strrev_loop_ok b len : forall n i a, (b + len <= length a)%nat -> (2 * (i + n) <= len)%nat ->
  exists a', strrev_loop n i a b len = Some a' /\ length a' = length a /\
    forall k, a' !! k = if decide (b + i <= k < b + i + n \/ b + len - (i + n) <= k < b + len - i)%nat
                        then a !! (b + (len - 1 - (k - b)))%nat else a !! k.
Proof.
  induction n as [|n IH]; intros i a Hl Hn; cbn [strrev_loop].
  { exists a. split; [done|]. split; [done|]. intros k. rewrite decide_False by lia. done. }
  destruct (load_ok a (b + i) ltac:(lia)) as [x Ex]. destruct (load_ok a (b + (len - i - 1)) ltac:(lia)) as [z Ez]. rewrite Ex, Ez.
  cbn [mbind option_bind]. rewrite store_ok by lia. cbn [mbind option_bind]. rewrite store_ok by (rewrite length_insert; lia). cbn [mbind option_bind].
  set (a1 := <[_ := x]> _). assert (Hl1 : length a1 = length a) by (unfold a1; rewrite !length_insert; done).
  destruct (IH (S i) a1 ltac:(lia) ltac:(lia)) as (a' & E & Hl' & Ha). exists a'. split; [done|]. split; [congruence|].
  assert (H1 : forall k, k <> (b + i)%nat -> k <> (b + (len - i - 1))%nat -> a1 !! k = a !! k).
  { intros k H1 H2. unfold a1. rewrite !list_lookup_insert_ne by lia. done. }
  intros k. rewrite Ha. destruct (decide (k = b + i)%nat) as [-> | Hk1].
  { rewrite decide_False, decide_True by lia. unfold a1. rewrite list_lookup_insert_ne, list_lookup_insert_eq by lia.
    replace (b + (len - 1 - (b + i - b)))%nat with (b + (len - i - 1))%nat by lia. done. }
  destruct (decide (k = b + (len - i - 1))%nat) as [-> | Hk2].
  { rewrite decide_False, decide_True by lia. unfold a1. rewrite list_lookup_insert_eq by (rewrite length_insert; lia).
    replace (b + (len - 1 - (b + (len - i - 1) - b)))%nat with (b + i)%nat by lia. done. }
  case_decide; [rewrite decide_True by lia; apply H1; lia | rewrite decide_False by lia; apply H1; lia].
Qed.

(** The string at [b] of an array is reversed. *)
Lemma strrev_ok a b s rest :
  drop b a = s ++ 0 :: rest -> Forall (fun c => c <> 0) s -> (b < length a)%nat -> strrev a b = Some (splice a b (rev s)).
Proof.
  intros Ea Hs Hb. assert (Ec : c_string (drop b a) = Some s).
  { rewrite Ea. clear Ea. induction Hs as [|c s Hc _ IH]; cbn; [done|]. rewrite (proj2 (Z.eqb_neq _ _)), IH by done. done. }
  unfold strrev. rewrite Ec. cbn [mbind option_bind]. cbv zeta. rewrite strlen_length.
  assert (Hl : length (drop b a) = (length s + S (length rest))%nat) by (rewrite Ea, length_app; done). rewrite length_drop in Hl.
  pose proof (Nat.div_mod (length s) 2 ltac:(lia)). pose proof (Nat.mod_upper_bound (length s) 2 ltac:(lia)).
  destruct (strrev_loop_ok b (length s) (length s / 2) 0 a ltac:(lia) ltac:(lia)) as (a' & E & Hl' & Ha). rewrite E. f_equal.
  apply list_eq. intros k. rewrite Ha, splice_lookup by (rewrite length_rev; lia). rewrite length_rev.
  assert (Hin : forall j, (j < length s)%nat -> a !! (b + j)%nat = s !! j).
  { intros j Hj. rewrite <- lookup_drop, Ea, lookup_app_l by done. done. }
  destruct (decide (b <= k < b + length s)%nat) as [Hk | Hk].
  - rewrite (bool_decide_eq_true_2 _ Hk). rewrite rev_alt. change (rev_append s []) with (reverse s). rewrite reverse_lookup by lia.
    case_decide; [rewrite Hin by lia; f_equal; lia|]. replace k with (b + (k - b))%nat at 1 by lia. rewrite Hin by lia. f_equal. lia.
  - rewrite (bool_decide_eq_false_2 _ Hk), decide_False by lia. done.
Qed.

Lemma c_string_app s rest : Forall (fun c => c <> 0) s -> c_string (s ++ 0 :: rest) = Some s.
Proof. induction 1 as [|c s Hc _ IH]; cbn; [done|]. rewrite (proj2 (Z.eqb_neq _ _)), IH by done. done. Qed.

Lemma splice_after {A} (pre hs old rest : list A) : length old = length hs -> splice (pre ++ old ++ rest) (length pre) hs = pre ++ hs ++ rest.
Proof.
  intros Hl. unfold splice. rewrite take_app_length. f_equal. f_equal. rewrite <- Hl, app_assoc, <- length_app. apply drop_app_length.
Qed.

Lemma hexdigit_nonzero base ds : base <= 36 -> is_digits base ds -> Forall (fun c => c <> 0) (hexdigit <$> ds).
Proof. intros Hb. induction 1 as [|d ds Hd _ IH]; constructor; [|done]. unfold hexdigit. case_if; breflect; lia. Qed.

(** Digits written after a sign and turned round are the text of the number. *)
Lemma print_ok base divmod fuel k pre m u :
  2 <= base <= 36 -> 0 <= u < base ^ Z.of_nat k -> (k <= fuel)%nat -> (k < m)%nat ->
  (forall v, 0 <= v <= u -> divmod v = (v / base, v mod base)) -> Forall (fun c => c <> 0) pre ->
  exists ds a, numeral base u ds /\
    (a ← digits_loop fuel divmod (pre ++ replicate m 0) (length pre) u; strrev a (length pre)) = Some a /\
    length a = (length pre + m)%nat /\ c_string a = Some (pre ++ (hexdigit <$> ds)).
Proof.
  intros Hb Hu Hf Hm Hdm Hpre.
  destruct (digits_loop_ok base divmod ltac:(lia) k fuel (pre ++ replicate m 0) (length pre) u Hu Hf) as (ds & Hn & Hl & E);
    [rewrite length_app, length_replicate; lia | done|].
  set (hs := hexdigit <$> ds). assert (Erev : hexdigit <$> rev ds = rev hs) by apply map_rev. rewrite Erev in E.
  assert (Hlen : length hs = length ds) by apply length_fmap.
  assert (Ez : replicate m 0 = replicate (length hs) 0 ++ 0 :: replicate (m - length hs - 1) 0).
  { replace m with (length hs + S (m - length hs - 1))%nat at 1 by lia. rewrite replicate_add. done. }
  assert (Hnz : Forall (fun c => c <> 0) hs) by (apply (hexdigit_nonzero base); [lia | apply Hn]).
  exists ds, (pre ++ hs ++ 0 :: replicate (m - length hs - 1) 0). split; [done|]. split; [|split].
  - rewrite E. cbn [mbind option_bind]. rewrite Ez, splice_after by (rewrite length_replicate, length_rev; done).
    erewrite strrev_ok; [| rewrite drop_app_length; reflexivity | apply Forall_rev; done | rewrite !length_app; cbn; lia].
    rewrite rev_involutive, splice_after by (rewrite length_rev; done). done.
  - rewrite !length_app. cbn. rewrite length_replicate. lia.
  - rewrite app_assoc. apply c_string_app. apply Forall_app. done.
Qed.

(** The text of an integer. *)
Definition text_of (base : Z) (num : Z) (s : list Z) : Prop :=
  exists ds, numeral base (Z.abs num) ds /\
    s = (if num <? 0 then [45] else []) ++ (hexdigit <$> if num =? 0 then [0] else ds).

(** itoa() never leaves its buffer of 34 bytes and gives the digits of the
    number, in any base up to 36, with a sign when asked for one; a base out
    of range is refused. *)
Lemma itoa_text num base sign :
  INT_MIN <= num <= INT_MAX ->
  if (base <? 2) || (36 <? base) then itoa num base sign = Some (inl tt)
  else exists a s, itoa num base sign = Some (inr a) /\ length a = 34%nat /\ c_string a = Some s /\
    text_of base (if sign && (base =? 10) then num else u32 num) s.
Proof.
  intros Hn. unfold itoa. destruct ((base <? 2) || (36 <? base)) eqn:Hbase; [done|]. breflect.
  destruct (Z.eqb_spec num 0) as [-> | Hz].
  { eexists _, [48]. split; [reflexivity|]. split; [done|]. split; [done|]. exists []. change (u32 0) with 0.
    rewrite Tauto.if_same. split; [split; [done | split; [constructor | done]] | done]. }
  assert (Hu : 0 <= u32 num < 2 ^ 32) by apply u32_range.
  assert (Hu0 : u32 num <> 0).
  { unfold u32, UINT32_MOD, INT_MIN, INT_MAX in *. intros E. apply Z.mod_divide in E as [q E]; [|lia]. lia. }
  destruct (sign && (base =? 10) && (num <? 0)) eqn:Hneg.
  - breflect. subst base. destruct sign; [|discriminate]. cbn [andb].
    assert (Eu : u32 (0 - u32 num) = - num).
    { unfold u32, UINT32_MOD, INT_MIN in *. rewrite Zminus_mod_idemp_r. rewrite Z.mod_small; lia. }
    rewrite Eu, store_ok by (rewrite length_replicate; lia). change (<[0%nat := 45]> (replicate 34 0)) with ([45] ++ replicate 33 0).
    destruct (print_ok 10 (fun u => (u / 10, u mod 10)) 32 10 [45] 33 (- num)) as (ds & a & Hd & E & Hl & Ec);
      [lia | unfold INT_MIN in *; lia | lia | lia | done | repeat constructor; lia|].
    cbn [mbind option_bind length] in E |- *. exists a, ([45] ++ (hexdigit <$> ds)).
    split; [destruct (digits_loop _ _ _ _ _); [|discriminate]; cbn in E |- *; rewrite E; done|]. split; [done|]. split; [done|].
    exists ds. change (10 =? 10) with true. cbv iota. rewrite Z.abs_neq, (proj2 (Z.ltb_lt num 0)), (proj2 (Z.eqb_neq num 0)) by lia. done.
  - assert (En : (if sign && (base =? 10) then num else u32 num) = u32 num).
    { destruct (sign && (base =? 10)); [|done]. cbn in Hneg. breflect. rewrite u32_id; [done|]. unfold UINT32_MOD, INT_MAX in *. lia. }
    rewrite En. assert (Hpow : 2 ^ 32 <= base ^ Z.of_nat 32) by (apply Z.pow_le_mono_l; lia).
    destruct (print_ok base (fun u => (u / base, u mod base)) 32 32 [] 34 (u32 num)) as (ds & a & Hd & E & Hl & Ec);
      [lia | lia | lia | lia | done | constructor|].
    cbn [mbind option_bind length app] in E |- *. exists a, (hexdigit <$> ds).
    split; [destruct (digits_loop _ _ _ _ _); [|discriminate]; cbn in E |- *; rewrite E; done|]. split; [done|]. split; [done|].
    exists ds. rewrite Z.abs_eq, (proj2 (Z.ltb_ge (u32 num) 0)), (proj2 (Z.eqb_neq (u32 num) 0)) by lia. done.
Qed.

(** lltoa() on 64 bits, within 24 bytes; a signed [LLONG_MIN] overflows. *)
Lemma lltoa_text num base sign :
  INT64_MIN <= num <= INT64_MAX -> (sign = true -> num <> INT64_MIN) -> base = 10 \/ base = 16 ->
  exists a s, lltoa num base sign = Some (inr a) /\ length a = 24%nat /\ c_string a = Some s /\
    text_of base (if sign && (base =? 10) then num else u64 num) s.
Proof.
  intros Hn Hmin Hbase. unfold lltoa. destruct (Z.eqb_spec num 0) as [-> | Hz].
  { eexists _, [48]. split; [reflexivity|]. split; [done|]. split; [done|]. exists []. change (u64 0) with 0.
    rewrite Tauto.if_same. split; [split; [done | split; [constructor | done]] | done]. }
  assert (Hb : negb (base =? 10) && negb (base =? 16) = false) by (destruct Hbase as [-> | ->]; done). rewrite Hb.
  assert (Hu : 0 <= u64 num < 2 ^ 64) by apply u64_range.
  assert (Hu0 : u64 num <> 0).
  { unfold u64, UINT64_MOD, INT64_MIN, INT64_MAX in *. intros E. apply Z.mod_divide in E as [q E]; [|lia]. lia. }
  assert (Hdm : forall v, 0 <= v < 2 ^ 64 -> u64_divmod v base = (v / base, v mod base)).
  { intros v Hv. apply u64_divmod_ok; [exact Hv | destruct Hbase as [-> | ->]; lia]. }
  assert (Hpow : 2 ^ 64 <= base ^ Z.of_nat 20) by (destruct Hbase as [-> | ->]; apply Z.leb_le; reflexivity).
  destruct ((base =? 10) && sign && (num <? 0)) eqn:Hneg; cbn [andb].
  - breflect. destruct sign; [|discriminate]. subst base. specialize (Hmin eq_refl). rewrite (proj2 (Z.eqb_neq num INT64_MIN)) by done.
    assert (Eu : u64 (- num) = - num) by (unfold INT64_MIN in *; apply u64_id; unfold UINT64_MOD; lia).
    rewrite Eu, store_ok by (rewrite length_replicate; lia). change (<[0%nat := 45]> (replicate 24 0)) with ([45] ++ replicate 23 0).
    destruct (print_ok 10 (fun u => u64_divmod u 10) 64 20 [45] 23 (- num)) as (ds & a & Hd & E & Hl & Ec);
      [lia | unfold INT64_MIN in *; lia | lia | lia | intros v Hv; apply Hdm; unfold INT64_MIN in *; lia | repeat constructor; lia|].
    cbn [mbind option_bind length] in E |- *. exists a, ([45] ++ (hexdigit <$> ds)).
    split; [destruct (digits_loop _ _ _ _ _); [|discriminate]; cbn in E |- *; rewrite E; done|]. split; [done|]. split; [done|].
    exists ds. change (true && (10 =? 10)) with true. cbv iota. rewrite Z.abs_neq, (proj2 (Z.ltb_lt num 0)), (proj2 (Z.eqb_neq num 0)) by lia. done.
  - assert (En : (if sign && (base =? 10) then num else u64 num) = u64 num).
    { rewrite andb_comm. destruct (base =? 10), sign; try done. cbn in Hneg. breflect. rewrite u64_id; [done|]. unfold UINT64_MOD, INT64_MAX in *. lia. }
    rewrite En. destruct (print_ok base (fun u => u64_divmod u base) 64 20 [] 24 (u64 num)) as (ds & a & Hd & E & Hl & Ec);
      [destruct Hbase; lia | lia | lia | lia | intros v Hv; apply Hdm; lia | constructor|].
    cbn [mbind option_bind length app] in E |- *. exists a, (hexdigit <$> ds).
    split; [destruct (digits_loop _ _ _ _ _); [|discriminate]; cbn in E |- *; rewrite E; done|]. split; [done|]. split; [done|].
    exists ds. rewrite Z.abs_eq, (proj2 (Z.ltb_ge (u64 num) 0)), (proj2 (Z.eqb_neq (u64 num) 0)) by lia. done.
Qed.

(** ** Text as numbers *)

Lemma value_mono base acc ds : 1 <= base -> 0 <= acc -> Forall (fun d => 0 <= d) ds -> acc <= value base acc ds.
Proof.
  intros Hb. revert acc. induction ds as [|d ds IH]; intros acc Ha Hd; [unfold value; cbn; lia|].
  apply Forall_cons in Hd as [Hd0 Hd]. change (value base acc (d :: ds)) with (value base (acc * base + d) ds).
  specialize (IH (acc * base + d) ltac:(nia) Hd). nia.
Qed.

Lemma atoi_digits ds : forall acc, is_digits 10 ds -> 0 <= acc -> value 10 acc ds <= INT_MAX ->
  atoi_loop 10 (hexdigit <$> ds) acc = Some (value 10 acc ds).
Proof.
  induction ds as [|d ds IH]; intros acc Hd Ha Hm; [done|]. apply Forall_cons in Hd as [Hd0 Hd].
  change (value 10 acc (d :: ds)) with (value 10 (acc * 10 + d) ds) in *.
  assert (Hle : acc * 10 + d <= INT_MAX).
  { etrans; [|exact Hm]. apply value_mono; [lia | lia |]. eapply Forall_impl; [exact Hd|]. cbn. lia. }
  assert (Ec : hexdigit d = d + 48) by (unfold hexdigit; rewrite (proj2 (Z.ltb_lt _ _)) by lia; done).
  rewrite fmap_cons, Ec. cbn [atoi_loop]. unfold schar. rewrite (proj2 (Z.ltb_lt (d + 48) 128)) by lia.
  assert (Hdig : is_digit (d + 48) = true) by (unfold is_digit; apply andb_true_iff; rewrite !Z.leb_le; lia).
  unfold accepted, digit_value. cbn [Z.eqb Pos.eqb]. rewrite Hdig. cbn [negb]. unfold int, INT_MIN, INT_MAX in *.
  rewrite (proj2 (andb_true_iff (_ <=? acc * 10) _)) by (rewrite !Z.leb_le; lia). cbn [mbind option_bind].
  replace (acc * 10 + (d + 48 - 48)) with (acc * 10 + d) by lia.
  rewrite (proj2 (andb_true_iff (_ <=? acc * 10 + d) _)) by (rewrite !Z.leb_le; lia). cbn [mbind option_bind]. apply IH; [done | lia | done].
Qed.

Lemma atoi_text num s : INT_MIN < num <= INT_MAX -> text_of 10 num s -> atoi s = Some num.
Proof.
  intros Hn (ds & (Hv & Hd & Hh) & ->). destruct (Z.eqb_spec num 0) as [-> | Hz]; [done|].
  destruct ds as [|d ds]; [lia|]. pose proof Hd as [Hd0 _]%Forall_cons.
  assert (Ec : hexdigit d = d + 48) by (unfold hexdigit; rewrite (proj2 (Z.ltb_lt _ _)) by lia; done).
  assert (Hloop : atoi_loop 10 (hexdigit <$> d :: ds) 0 = Some (Z.abs num)).
  { rewrite atoi_digits; [rewrite Hv; done | done | lia | unfold INT_MIN, INT_MAX in *; lia]. }
  destruct (Z.ltb_spec num 0) as [Hneg | Hpos]; rewrite fmap_cons in *; cbn [app]; unfold atoi.
  - rewrite Z.eqb_refl. rewrite (proj2 (Z.eqb_neq (hexdigit d) 48)) by lia. rewrite Hloop. cbn [mbind option_bind].
    unfold int, INT_MIN, INT_MAX in *. rewrite Z.abs_neq, Z.opp_involutive by lia.
    rewrite (proj2 (andb_true_iff (_ <=? num) _)) by (rewrite !Z.leb_le; lia). done.
  - rewrite (proj2 (Z.eqb_neq (hexdigit d) 45)) by lia. cbv zeta. rewrite (proj2 (Z.eqb_neq (hexdigit d) 48)) by lia.
    rewrite Hloop. cbn [mbind option_bind]. unfold int, INT_MIN, INT_MAX in *. rewrite Z.abs_eq by lia.
    rewrite (proj2 (andb_true_iff (_ <=? num) _)) by (rewrite !Z.leb_le; lia). done.
Qed.

(** An integer printed by itoa() in base ten, which stays in its buffer,
    reads back by atoi() as itself. *)
Theorem itoa_atoi_round_trip num :
  INT_MIN < num <= INT_MAX ->
  exists a s, itoa num 10 true = Some (inr a) /\ length a = 34%nat /\ c_string a = Some s /\ atoi s = Some num.
Proof.
  intros Hn. destruct (itoa_text num 10 true ltac:(unfold INT_MIN, INT_MAX in *; lia)) as (a & s & E & Hl & Ec & Ht).
  exists a, s. split_and!; try done. apply atoi_text; done.
Qed.

(** The least integer prints, but its text overflows the accumulator, which
    is negated only at the end. *)
Lemma atoi_min_overflows : exists a s, itoa INT_MIN 10 true = Some (inr a) /\ c_string a = Some s /\ atoi s = None.
Proof. eexists _, _. split; [vm_compute; reflexivity|]. split; [vm_compute; reflexivity|]. vm_compute. reflexivity. Qed.

(** A sign before a leading zero is dropped: the text -010 reads as 8. *)
Lemma atoi_octal_sign : atoi [45; 48; 49; 48] = Some 8.
Proof. reflexivity. Qed.

Lemma memmove_correct_witness : memmove [1; 2; 3; 4; 5] 1 0 3 = Some [1; 1; 2; 3; 5].
Proof. rewrite (memmove_correct [1; 2; 3; 4; 5] 1 0 3); [reflexivity | cbn; lia | cbn; lia]. Defined.

Lemma itoa_atoi_round_trip_witness :
  exists a s, itoa (-45) 10 true = Some (inr a) /\ length a = 34%nat /\ c_string a = Some s /\ atoi s = Some (-45).
Proof. apply (itoa_atoi_round_trip (-45)). unfold INT_MIN, INT_MAX. lia. Defined.
