(* ===== verification/KPrint.v ===== *)
(** * Formatted output

    Model of src/lib/impl/kprint.c.  The formatter collects characters in an
    array of 64 bytes and hands it to a callback whenever it is full; what the
    callback is called with is the list [chunks], and the functions of the
    interface are what their callbacks make of the chunks.  Undefined
    behaviour is [None]: a store outside of an array, a read past the end of
    the format, an argument of the wrong kind, a width that overflows. *)

From S2P Require Import Prelude KString.

(** What va_arg() reads: the bits of an integer, which the conversion cuts to
    the type it asks for, or a string that may be NULL. *)
Inductive arg := AInt (v : Z) | AStr (s : option (list Z)).

Definition s64 (x : Z) : Z := if u64 x <? 2 ^ 63 then u64 x else u64 x - UINT64_MOD.
(** long and unsigned long. *)
Definition s_long (x64 : bool) (v : Z) : Z := if x64 then s64 v else s32 v.
Definition u_long (x64 : bool) (v : Z) : Z := if x64 then u64 v else u32 v.

(** ** The buffer *)

Definition VBUF_SZ : nat := 64.
Record vbuf := VBuf { buf : list Z; pos : nat; chunks : list (list Z) }.
Abbreviation V := (st vbuf).

Definition the {A} (x : option A) : V A := fun v => y ← x; Some (y, v).
Definition undefined {A} : V A := fun _ => None.
Definition putstr (s : list Z) : V unit := fun v => Some (tt, VBuf (buf v) (pos v) (chunks v ++ [s])).

Definition FLUSH : V unit := fun v =>
  a ← store (buf v) (pos v) 0;
  if (0 <? pos v)%nat then s ← c_string a; Some (tt, VBuf a 0 (chunks v ++ [s])) else Some (tt, VBuf a 0 (chunks v)).
Definition EMIT (c : Z) : V unit := fun v =>
  a ← store (buf v) (pos v) c;
  let v := VBuf a (S (pos v)) (chunks v) in
  if (VBUF_SZ - 1 <=? pos v)%nat then FLUSH v else Some (tt, v).

Fixpoint EMITS (s : list Z) : V unit := match s with [] => mret tt | c :: s => EMIT c;; EMITS s end.
Fixpoint emit_pad (n : nat) (c : Z) : V unit := match n with O => mret tt | S n => EMIT c;; emit_pad n c end.
Definition EMIT_PADDED (str : list Z) (len width fill : Z) (left_align : bool) : V unit :=
  let pad := Z.to_nat (width - len) in
  (if left_align then mret tt else emit_pad pad fill);;
  EMITS str;;
  (if left_align then emit_pad pad 32 else mret tt).

(** ** Sizes for people *)

Definition units : list (list Z) := [[]; [107]; [77]; [71]; [84]; [80]; [69]].
Fixpoint human_loop (up : list (list Z)) (sz frac : Z) : list Z * Z * Z :=
  match up with
  | [] => ([], sz, frac)
  | u :: up' =>
      match up' with
      | [] => (u, sz, frac)
      | _ :: _ => if 1024 <=? sz then human_loop up' (sz / 1024) (sz mod 1024 / 100) else (u, sz, frac)
      end
  end.
(** The string that itoa() or lltoa() returned; NULL is followed. *)
Definition number (r : option (unit + list Z)) : option (list Z) :=
  r ← r; match r with inr a => c_string a | inl _ => None end.
Definition print_human_size (sz : Z) : V unit :=
  let '(unit, sz, frac) := human_loop units sz 0 in
  s ← the (number (itoa (s32 sz) 10 false));
  f ← the (number (itoa (s32 frac) 10 false));
  a ← the (strcpy (replicate 32 0) 0 (s ++ [46] ++ f ++ unit));
  s ← the (c_string a);
  putstr s.

(** ** Conversions *)

Fixpoint parse_flags (zero left : bool) (p : list Z) : bool * bool * list Z :=
  match p with
  | c :: p' => if c =? 45 then parse_flags zero true p' else if c =? 48 then parse_flags true left p' else (zero, left, p)
  | [] => (zero, left, p)
  end.
Fixpoint parse_width (width : Z) (p : list Z) : option (Z * list Z) :=
  match p with
  | c :: p' =>
      if is_digit (schar c) then t ← int (width * 10); width ← int (t + (schar c - 48)); parse_width width p' else Some (width, p)
  | [] => Some (width, p)
  end.
(** flag_l, flag_ll *)
Definition parse_length (p : list Z) : bool * bool * list Z :=
  match p with
  | 108 :: 108 :: p => (false, true, p)
  | 108 :: p => (true, false, p)
  | _ => (false, false, p)
  end.

Definition va_int (args : list arg) : option (Z * list arg) := match args with AInt v :: args => Some (v, args) | _ => None end.
Definition va_str (args : list arg) : option (option (list Z) * list arg) := match args with AStr s :: args => Some (s, args) | _ => None end.

Section Convert.
Context (x64 : bool).

(** [v]: the value whose sign is looked at; [s]: the digits. *)
Definition emit_signed (v : Z) (s : option (list Z)) (zero left : bool) (width fill : Z) : V unit :=
  s ← the s;
  let neg := (v <? 0) && zero in
  (if neg then EMIT 45 else mret tt);;
  let num := if neg then tail s else s in
  EMIT_PADDED num (Z.of_nat (strlen num)) (width - b2z neg) fill left.
Definition emit_string (s : option (list Z)) (left : bool) (width fill : Z) : V unit :=
  s ← the s; EMIT_PADDED s (Z.of_nat (strlen s)) width fill left.

(** The value of an unsigned conversion of any length. *)
Definition wide (l ll : bool) (v : Z) : Z := if ll then u64 v else if l then u_long x64 v else u32 v.

Definition null_text : list Z := [40; 110; 117; 108; 108; 41].

(** The switch; the arguments that are left. *)
Definition convert (zero left : bool) (width : Z) (l ll : bool) (cur : Z) (args : list arg) : V (list arg) :=
  let fill := if zero && negb left then 48 else 32 in
  if cur =? 37 then EMIT 37;; mret args
  else if cur =? 100 then
    '(v, args) ← the (va_int args);
    (if ll then emit_signed (s64 v) (number (lltoa (s64 v) 10 true)) zero left width fill
     else if l then emit_signed (s_long x64 v) (number (itoa (s32 (s_long x64 v)) 10 true)) zero left width fill
     else emit_signed (s32 v) (number (itoa (s32 v) 10 true)) zero left width fill);;
    mret args
  else if cur =? 117 then
    '(v, args) ← the (va_int args);
    emit_string (number (if ll then lltoa (s64 v) 10 false
                         else if l then itoa (s32 (u_long x64 v)) 10 false else itoa (s32 v) 10 false)) left width fill;;
    mret args
  else if cur =? 111 then
    '(v, args) ← the (va_int args);
    emit_string (number (itoa (s32 (if l then u_long x64 v else u32 v)) 8 false)) left width fill;;
    mret args
  else if (cur =? 120) || (cur =? 112) then
    '(v, args) ← the (va_int args);
    let v := wide l ll v in
    emit_string (number (if ll || (l && x64) then lltoa (s64 v) 16 false else itoa (s32 v) 16 false)) left width fill;;
    mret args
  else if cur =? 115 then
    '(s, args) ← the (va_str args);
    emit_string (Some (default null_text s)) left width 32;;
    mret args
  else if cur =? 99 then
    '(v, args) ← the (va_int args);
    let pad := if 1 <? width then Z.to_nat (width - 1) else 0%nat in
    (if left then mret tt else emit_pad pad 32);;
    EMIT (v mod 256);;
    (if left then emit_pad pad 32 else mret tt);;
    mret args
  else if cur =? 98 then
    '(v, args) ← the (va_int args);
    s ← the (number (itoa (v mod 256) 16 false));
    (if (strlen s =? 1)%nat then EMIT 48 else mret tt);;
    EMITS s;;
    mret args
  else if cur =? 104 then
    '(v, args) ← the (va_int args);
    FLUSH;;
    print_human_size (wide l ll v);;
    mret args
  else EMIT 63;; mret args.

(** The format ends where [p] is empty.  Where a conversion ends with the
    format its NUL is taken for the conversion character, and the loop goes on
    reading behind it. *)
Fixpoint format_loop (fuel : nat) (p : list Z) (args : list arg) : V unit :=
  match p, fuel with
  | [], _ => mret tt
  | _ :: _, O => undefined
  | cur :: p, S fuel =>
      if negb (cur =? 37) then EMIT cur;; format_loop fuel p args else
      let '(zero, flag_left, p) := parse_flags false false p in
      wp ← the (parse_width 0 p);
      let '(l, ll, p) := parse_length (snd wp) in
      match p with
      | [] => undefined
      | cur :: p => args ← convert zero flag_left (fst wp) l ll cur args; format_loop fuel p args
      end
  end.

(** [a]: what the array holds before. *)
Definition kvformat (a : list Z) (fmt : list Z) (args : list arg) : option (list (list Z)) :=
  '(_, v) ← (format_loop (length fmt) fmt args;; FLUSH) (VBuf a 0 []); Some (chunks v).
End Convert.

(** ** The functions of the interface *)

Definition putstr_to_str (s : list Z) (out : list Z * Z) : option (list Z * Z) :=
  let '(a, len) := out in
  match s with
  | [] => Some out
  | _ => if decide (Z.to_nat len + strlen s <= length a)%nat
         then Some (splice a (Z.to_nat len) s, u32 (len + Z.of_nat (strlen s))) else None
  end.
Definition putstr_count (s : list Z) (count : Z) : Z := match s with [] => count | _ => u32 (count + Z.of_nat (strlen s)) end.
Fixpoint fill_string (cs : list (list Z)) (out : list Z * Z) : option (list Z * Z) :=
  match cs with [] => Some out | s :: cs => out ← putstr_to_str s out; fill_string cs out end.

(** [dest]: the array to write to, or NULL; the result is the array and the length. *)
Definition vsprintf (x64 : bool) (a : list Z) (dest : option (list Z)) (fmt : list Z) (args : list arg) : option (option (list Z) * Z) :=
  cs ← kvformat x64 a fmt args;
  match dest with
  | None => Some (None, s32 (fold_left (fun n s => putstr_count s n) cs 0))
  | Some d => '(d, len) ← fill_string cs (d, 0); d ← store d (Z.to_nat len) 0; Some (Some d, s32 len)
  end.

(** What the console gets. *)
Definition console_print (s : list Z) : list Z := s ≫= fun c => if c =? 10 then [13; 10] else [c].

(** struct printk_record, and what syslog_emit() was called with. *)
Record printk_record := Record_ { text : list Z; length_ : nat; emitted : list (list Z) }.
Definition RECORD_SZ : nat := 512.
Fixpoint printk_output (s : list Z) (r : printk_record) : option printk_record :=
  match s with
  | [] => Some r
  | c :: s =>
      t ← store (text r) (length_ r) c;
      let n := S (length_ r) in
      printk_output s
        (if (c =? 10) || (n =? RECORD_SZ - 1)%nat then Record_ t 0 (emitted r ++ [take n t]) else Record_ t n (emitted r))
  end.
Fixpoint output_all (cs : list (list Z)) (r : printk_record) : option printk_record :=
  match cs with [] => Some r | s :: cs => r ← printk_output s r; output_all cs r end.

(** The console output and the records; [t] is what the record held before. *)
Definition printk (x64 : bool) (a t : list Z) (psid : Z) (fmt : list Z) (args : list arg) : option (list Z * list (list Z)) :=
  head ← kvformat x64 a [91; 37; 100; 93; 58; 32] [AInt psid];
  cs ← kvformat x64 a fmt args;
  r ← output_all cs (Record_ t 0 []);
  Some (console_print (concat head) ++ console_print (concat cs),
        if (0 <? length_ r)%nat then emitted r ++ [take (length_ r) (text r)] else emitted r).

(** What the serial log gets. *)
Definition klog_writestr (inited : bool) (s : list Z) : list Z := if inited then filter (fun c => isprint (schar c) = true) s else [].
Definition klog (x64 : bool) (a : list Z) (inited : bool) (tickets psid : Z) (fmt : list Z) (args : list arg) : option (list Z) :=
  if negb inited then Some [] else
  head ← kvformat x64 a [91; 37; 108; 108; 100; 93; 91; 37; 100; 93; 58; 32] [AInt tickets; AInt psid];
  cs ← kvformat x64 a fmt args;
  Some ((head ≫= klog_writestr inited) ++ (cs ≫= klog_writestr inited)).
