(* ===== verification/KPrintProof.v ===== *)
(** * Formatted output: theorems

    What a format means, as a relation that knows neither buffer nor callback,
    and that the formatter prints exactly that, never leaving its buffer. *)

From S2P Require Import Prelude KString KStringProof KPrint.

(** ** What a format means *)

(** A text in a field of [w] columns. *)
Definition padded (left_align : bool) (w fill : Z) (s : list Z) : list Z :=
  let n := Z.to_nat (w - Z.of_nat (length s)) in
  if left_align then s ++ replicate n 32 else replicate n fill ++ s.
(** Digits with a sign: zeros go between the two. *)
Definition signed_field (zero left_align : bool) (w : Z) (neg : bool) (ds : list Z) : list Z :=
  let sign := if neg then [45] else [] in
  if zero && negb left_align then sign ++ padded false (w - b2z neg) 48 ds else padded left_align w 32 (sign ++ ds).
Definition unsigned_field (zero left_align : bool) (w : Z) (ds : list Z) : list Z := signed_field zero left_align w false ds.

Definition width_of (digits : list Z) : Z := fold_left (fun w c => w * 10 + (c - 48)) digits 0.

(** The tenths of a unit of [1024 ^ k] bytes in the rest of a size, and what
    takes their place in the code. *)
Definition tenths (sz : Z) (k : nat) : Z := sz mod 1024 ^ Z.of_nat k * 10 / 1024 ^ Z.of_nat k.
Definition hundreds (sz : Z) (k : nat) : Z := if decide (k = 0%nat) then 0 else sz / 1024 ^ (Z.of_nat k - 1) mod 1024 / 100.
(** A size in the largest unit that does not make it less than one, rounded
    down to a tenth. A size has a text where the hundreds of 1024ths are its
    tenths: see [human_tenths]. *)
Definition human_text (sz : Z) (s : list Z) : Prop :=
  exists k unit whole frac, units !! k = Some unit /\ sz / 1024 ^ Z.of_nat k < 1024 /\ (k <> 0%nat -> 1 <= sz / 1024 ^ Z.of_nat k) /\
    text_of 10 (sz / 1024 ^ Z.of_nat k) whole /\
    hundreds sz k = tenths sz k /\ text_of 10 (tenths sz k) frac /\
    s = whole ++ [46] ++ frac ++ unit.

Definition conversions : list Z := [37; 100; 117; 111; 120; 112; 115; 99; 98; 104].

Section Meaning.
Context (x64 : bool).

Definition signed_value (l ll : bool) (v : Z) : Z := if ll then s64 v else if l then s_long x64 v else s32 v.

(** The text of a conversion: of the arguments before it leaves those after.
    In base 8 and 10 a long has a text where it fits 32 bits, and in base 8 a
    long long has none: see [long_truncated]. A precision has no text, nor has
    a width that "%b" or "%h" would have to pad to: see [precision_unknown] and
    [width_ignored]. *)
Inductive field (zero left_align : bool) (w : Z) (l ll : bool) : Z -> list arg -> list Z -> list arg -> Prop :=
| F_percent args : w <= 1 -> field zero left_align w l ll 37 args [37] args
| F_signed v args ds :
    (if ll then signed_value l ll v <> INT64_MIN else INT_MIN <= signed_value l ll v <= INT_MAX) ->
    text_of 10 (Z.abs (signed_value l ll v)) ds ->
    field zero left_align w l ll 100 (AInt v :: args) (signed_field zero left_align w (signed_value l ll v <? 0) ds) args
| F_unsigned v args ds :
    (ll = false -> wide x64 l ll v < 2 ^ 32) -> text_of 10 (wide x64 l ll v) ds ->
    field zero left_align w l ll 117 (AInt v :: args) (unsigned_field zero left_align w ds) args
| F_octal v args ds :
    ll = false -> wide x64 l ll v < 2 ^ 32 -> text_of 8 (wide x64 l ll v) ds ->
    field zero left_align w l ll 111 (AInt v :: args) (unsigned_field zero left_align w ds) args
| F_hex c v args ds :
    c = 120 \/ c = 112 -> text_of 16 (wide x64 l ll v) ds ->
    field zero left_align w l ll c (AInt v :: args) (unsigned_field zero left_align w ds) args
| F_string s args : field zero left_align w l ll 115 (AStr s :: args) (padded left_align w 32 (default null_text s)) args
| F_char v args : field zero left_align w l ll 99 (AInt v :: args) (padded left_align w 32 [v mod 256]) args
| F_byte v args ds :
    w <= 2 -> text_of 16 (v mod 256) ds -> field zero left_align w l ll 98 (AInt v :: args) (padded false 2 48 ds) args
| F_human v args s : w <= Z.of_nat (length s) -> human_text (wide x64 l ll v) s -> field zero left_align w l ll 104 (AInt v :: args) s args
| F_unknown c args :
    c ∉ conversions -> c <> 0 -> c <> 45 -> c <> 46 -> is_digit (schar c) = false -> c <> 108 -> field zero left_align w l ll c args [63] args.

Inductive length_of : list Z -> bool -> bool -> Prop :=
| L_none : length_of [] false false
| L_long : length_of [108] true false
| L_long_long : length_of [108; 108] false true.

Inductive renders : list Z -> list arg -> list Z -> Prop :=
| R_end args : renders [] args []
| R_char c p args t : c <> 37 -> renders p args t -> renders (c :: p) args (c :: t)
| R_conversion flags digits len l ll c p args args' f t :
    Forall (fun c => c = 45 \/ c = 48) flags ->
    Forall (fun c => 48 <= c <= 57) digits -> head digits <> Some 48 -> width_of digits <= INT_MAX ->
    length_of len l ll ->
    field (bool_decide (48 ∈ flags)) (bool_decide (45 ∈ flags)) (width_of digits) l ll c args f args' ->
    renders p args' t ->
    renders (37 :: flags ++ digits ++ len ++ c :: p) args (f ++ t).
End Meaning.

(** ** The buffer *)

Definition printable (t : list Z) : Prop := Forall (fun c => c <> 0) t.
Definition chunk_ok (s : list Z) : Prop := (1 <= length s < VBUF_SZ)%nat.

(** The text so far: what was handed out, and what is in the buffer. *)
Record holds (v : vbuf) (t : list Z) : Prop := {
  h_len : length (buf v) = VBUF_SZ;
  h_pos : (pos v < VBUF_SZ - 1)%nat;
  h_text : t = concat (chunks v) ++ take (pos v) (buf v);
  h_chunks : Forall chunk_ok (chunks v);
  h_nonzero : printable (take (pos v) (buf v))
}.

Lemma store_at a i c : (i < length a)%nat -> store a i c = Some (<[i := c]> a).
Proof. intros H. unfold store. rewrite decide_True by done. done. Qed.
Lemma take_insert_end (a : list Z) i c : (i < length a)%nat -> take (S i) (<[i := c]> a) = take i a ++ [c].
Proof.
  intros H. rewrite (take_S_r _ _ c) by (apply list_lookup_insert_eq; done). rewrite take_insert_ge by lia. done.
Qed.
Lemma c_string_at a i : (i < length a)%nat -> printable (take i a) -> c_string (<[i := 0]> a) = Some (take i a).
Proof.
  intros H Hp. rewrite <- (take_drop i (<[i := 0]> a)), take_insert_ge by lia.
  rewrite (drop_S _ 0 i) by (apply list_lookup_insert_eq; done). apply c_string_app. done.
Qed.

Lemma flush_holds v : length (buf v) = VBUF_SZ -> (pos v < VBUF_SZ)%nat -> Forall chunk_ok (chunks v) -> printable (take (pos v) (buf v)) ->
  ends FLUSH v (fun _ v' => holds v' (concat (chunks v) ++ take (pos v) (buf v)) /\ pos v' = 0%nat).
Proof.
  intros Hl Hp Hc Hn. unfold ends, FLUSH. rewrite store_at by lia. cbn [mbind option_bind].
  destruct (Nat.ltb_spec 0 (pos v)) as [H0 | H0].
  - rewrite c_string_at by (done || lia). cbn [mbind option_bind]. eexists tt, _. split; [done|]. split; [|done]. split; cbn [buf pos chunks].
    + rewrite length_insert. done.
    + unfold VBUF_SZ. lia.
    + rewrite take_0, app_nil_r, concat_app. cbn. rewrite app_nil_r. done.
    + apply Forall_app. split; [done|]. apply Forall_singleton. unfold chunk_ok. rewrite length_take. lia.
    + constructor.
  - replace (pos v) with 0%nat by lia. eexists tt, _. split; [done|]. split; [|done]. split; cbn [buf pos chunks]; try done;
      [rewrite length_insert; done | unfold VBUF_SZ; lia | constructor].
Qed.

(** A program that prints [s] and returns [x], whatever was printed before. *)
Definition emits {A} (m : V A) (x : A) (s : list Z) : Prop := printable s -> forall v t, holds v t -> ends m v (fun y v' => y = x /\ holds v' (t ++ s)).

Lemma emits_ret {A} (x : A) : emits (mret x) x [].
Proof. intros _ v t H. apply ends_ret. rewrite app_nil_r. done. Qed.
Lemma emits_bind {A B} (m : V A) (f : A -> V B) x y s1 s2 : emits m x s1 -> emits (f x) y s2 -> emits (m ≫= f) y (s1 ++ s2).
Proof.
  intros Hm Hf [H1 H2]%Forall_app v t H. eapply ends_bind, ends_mono; [exact (Hm H1 v t H)|]. intros ? v' [-> H']. rewrite app_assoc. apply Hf; done.
Qed.
Lemma emits_the {A B} (o : option A) (f : A -> V B) x y s : o = Some x -> emits (f x) y s -> emits (the o ≫= f) y s.
Proof. intros -> Hf. apply (emits_bind (the (Some x)) f x y [] s); [|done]. intros _ v t H. exists x, v. rewrite app_nil_r. done. Qed.
(** The same, with the text in another form. *)
Lemma emits_eq {A} (m : V A) x s s' : s = s' -> emits m x s -> emits m x s'.
Proof. intros ->. done. Qed.
Lemma emits_then {A} (m : V unit) (n : V A) y s1 s2 : emits m tt s1 -> emits n y s2 -> emits (m;; n) y (s1 ++ s2).
Proof. intros H1 H2. apply (emits_bind m (fun _ => n) tt); done. Qed.
Lemma emits_last {A} (m : V unit) (x : A) s : emits m tt s -> emits (m;; mret x) x s.
Proof. intros H. eapply emits_eq, emits_then, emits_ret; [apply app_nil_r | done]. Qed.
Lemma emits_if {A} (b : bool) (m n : V A) x s1 s2 : emits m x s1 -> emits n x s2 -> emits (if b then m else n) x (if b then s1 else s2).
Proof. destruct b; done. Qed.

Lemma emits_FLUSH : emits FLUSH tt [].
Proof.
  intros _ v t [Hl Hp -> Hc Hn]. eapply ends_mono; [apply (flush_holds v); done || (unfold VBUF_SZ in *; lia)|]. intros [] v' [H _]. rewrite app_nil_r. done.
Qed.
Lemma emits_EMIT c : emits (EMIT c) tt [c].
Proof.
  intros Hc v t [Hl Hp -> Hck Hn]. unfold ends, EMIT. rewrite store_at by (unfold VBUF_SZ in *; lia). cbn [mbind option_bind].
  set (v1 := VBuf _ _ _). assert (Ht : take (pos v1) (buf v1) = take (pos v) (buf v) ++ [c]) by (apply take_insert_end; unfold VBUF_SZ in *; lia).
  assert (Hn1 : printable (take (pos v1) (buf v1))) by (rewrite Ht; apply Forall_app; split; [exact Hn | exact Hc]).
  assert (Hl1 : length (buf v1) = VBUF_SZ) by (cbn; rewrite length_insert; done).
  change (chunks v) with (chunks v1). rewrite <- app_assoc, <- Ht. destruct (Nat.leb_spec (VBUF_SZ - 1) (pos v1)) as [Hf | Hf].
  - destruct (flush_holds v1 Hl1 ltac:(cbn; unfold VBUF_SZ in *; lia) Hck Hn1) as ([] & v2 & E & H & _). exists tt, v2. split; [exact E|]. split; [done | exact H].
  - exists tt, v1. split; [done|]. split; [done|]. split; done.
Qed.
Lemma emits_EMITS s : emits (EMITS s) tt s.
Proof. induction s as [|c s IH]; [apply emits_ret|]. apply (emits_then _ _ _ [c] s); [apply emits_EMIT | exact IH]. Qed.
Lemma emits_pad n c : emits (emit_pad n c) tt (replicate n c).
Proof. induction n as [|n IH]; [apply emits_ret|]. apply (emits_then _ _ _ [c]); [apply emits_EMIT | exact IH]. Qed.

Lemma emits_PADDED s w fill b : emits (EMIT_PADDED s (Z.of_nat (strlen s)) w fill b) tt (padded b w fill s).
Proof.
  unfold EMIT_PADDED, padded. rewrite strlen_length. set (n := Z.to_nat _).
  destruct b; [apply (emits_then (mret tt) _ _ [] (s ++ replicate n 32)); [apply emits_ret|]; apply emits_then; [apply emits_EMITS | apply emits_pad]|].
  apply emits_then; [apply emits_pad|]. eapply emits_eq, emits_then; [apply app_nil_r | apply emits_EMITS | apply emits_ret].
Qed.

(** ** Numbers *)

Lemma value_digits_unique base : 2 <= base -> forall n ds ds', (length ds <= n)%nat ->
  is_digits base ds -> is_digits base ds' -> (forall d l, ds = d :: l -> 0 < d) -> (forall d l, ds' = d :: l -> 0 < d) ->
  value base 0 ds = value base 0 ds' -> ds = ds'.
Proof.
  intros Hb. assert (Hpos : forall l, is_digits base l -> 0 <= value base 0 l).
  { intros l Hl. apply value_mono; [lia | lia|]. eapply Forall_impl; [exact Hl|]. cbn. intros; lia. }
  assert (Hnz : forall l d, is_digits base (l ++ [d]) -> (forall e m, l ++ [d] = e :: m -> 0 < e) -> 0 < value base 0 (l ++ [d])).
  { intros l d Hd Hh. rewrite value_snoc. apply Forall_app in Hd as [Hl [Hd _]%Forall_cons].
    destruct l as [|e l]; [specialize (Hh d [] eq_refl); unfold value; cbn; lia|].
    specialize (Hh e (l ++ [d]) eq_refl). apply Forall_cons in Hl as [He Hl].
    change (value base 0 (e :: l)) with (value base (0 * base + e) l).
    assert (0 * base + e <= value base (0 * base + e) l) by (apply value_mono; [lia | lia | eapply Forall_impl; [exact Hl | cbn; intros; lia]]). nia. }
  induction n as [|n IH]; intros ds ds' Hn Hd Hd' Hh Hh' E; destruct ds as [|d ds _] using rev_ind; destruct ds' as [|d' ds' _] using rev_ind; try done.
  - specialize (Hnz ds' d' Hd' Hh'). rewrite <- E in Hnz. unfold value in Hnz. cbn in Hnz. lia.
  - rewrite length_app in Hn. cbn in Hn. lia.
  - rewrite length_app in Hn. cbn in Hn. lia.
  - specialize (Hnz ds' d' Hd' Hh'). rewrite <- E in Hnz. unfold value in Hnz. cbn in Hnz. lia.
  - specialize (Hnz ds d Hd Hh). rewrite E in Hnz. unfold value in Hnz. cbn in Hnz. lia.
  - rewrite !value_snoc in E. apply Forall_app in Hd as [Hd1 [Hd2 _]%Forall_cons], Hd' as [Hd1' [Hd2' _]%Forall_cons].
    assert (Ed : d = d').
    { apply (f_equal (fun x => x mod base)) in E. rewrite !(Z.add_comm (_ * base)), !Z.mod_add, !Z.mod_small in E by lia. done. }
    subst d'. f_equal. apply IH; try done; [rewrite length_app in Hn; cbn in Hn; lia | | | nia].
    + intros e l ->. apply (Hh e (l ++ [d]) eq_refl).
    + intros e l ->. apply (Hh' e (l ++ [d]) eq_refl).
Qed.
Lemma text_of_unique base n s s' : 2 <= base -> text_of base n s -> text_of base n s' -> s = s'.
Proof.
  intros Hb (ds & (E & Hd & Hh) & ->) (ds' & (E' & Hd' & Hh') & ->).
  assert (ds = ds') as ->; [|done]. apply (value_digits_unique base Hb (length ds)); try done; [| |congruence].
  - intros d l ->. done.
  - intros d l ->. done.
Qed.

Lemma s32_int x : INT_MIN <= s32 x <= INT_MAX.
Proof. unfold s32, INT_MIN, INT_MAX. pose proof (u32_range x). unfold UINT32_MOD in *. destruct (Z.ltb_spec (u32 x) (2 ^ 31)); lia. Qed.
Lemma s64_int x : INT64_MIN <= s64 x <= INT64_MAX.
Proof. unfold s64, INT64_MIN, INT64_MAX. pose proof (u64_range x). unfold UINT64_MOD in *. destruct (Z.ltb_spec (u64 x) (2 ^ 63)); lia. Qed.
Lemma u32_s32 x : u32 (s32 x) = u32 x.
Proof.
  unfold s32. destruct (_ <? _); unfold u32; [apply Z.mod_mod; done|]. rewrite Zminus_mod, Z.mod_same, Z.sub_0_r, !Z.mod_mod by done. done.
Qed.
Lemma u64_s64 x : u64 (s64 x) = u64 x.
Proof.
  unfold s64. destruct (_ <? _); unfold u64; [apply Z.mod_mod; done|]. rewrite Zminus_mod, Z.mod_same, Z.sub_0_r, !Z.mod_mod by done. done.
Qed.
Lemma s32_fits x : INT_MIN <= x <= INT_MAX -> s32 x = x.
Proof.
  unfold s32, INT_MIN, INT_MAX, u32, UINT32_MOD. intros H. destruct (Z.ltb_spec x 0).
  - replace (x mod 2 ^ 32) with (x + 2 ^ 32) by (rewrite <- (Z.mod_add x 1), Z.mod_small by lia; lia). destruct (Z.ltb_spec (x + 2 ^ 32) (2 ^ 31)); lia.
  - rewrite Z.mod_small by lia. destruct (Z.ltb_spec x (2 ^ 31)); lia.
Qed.

Lemma number_itoa n base sign ds : INT_MIN <= n <= INT_MAX -> 2 <= base <= 36 ->
  text_of base (if sign && (base =? 10) then n else u32 n) ds -> number (itoa n base sign) = Some ds.
Proof.
  intros Hn Hb Ht. pose proof (itoa_text n base sign Hn) as H. rewrite (proj2 (Z.ltb_ge base 2)), (proj2 (Z.ltb_ge 36 base)) in H by lia. cbn in H.
  destruct H as (a & s & E & _ & Ec & Hs). unfold number. rewrite E. cbn. rewrite Ec. f_equal. eapply text_of_unique; [|exact Hs | exact Ht]. lia.
Qed.
Lemma number_lltoa n base sign ds : INT64_MIN <= n <= INT64_MAX -> (sign = true -> n <> INT64_MIN) -> base = 10 \/ base = 16 ->
  text_of base (if sign && (base =? 10) then n else u64 n) ds -> number (lltoa n base sign) = Some ds.
Proof.
  intros Hn Hm Hb Ht. destruct (lltoa_text n base sign Hn Hm Hb) as (a & s & E & _ & Ec & Hs). unfold number. rewrite E. cbn. rewrite Ec.
  f_equal. eapply text_of_unique; [|exact Hs | exact Ht]. lia.
Qed.
Lemma text_of_sign base n ds : text_of base (Z.abs n) ds -> text_of base n ((if n <? 0 then [45] else []) ++ ds).
Proof.
  intros (l & Hl & ->). exists l. rewrite Z.abs_idemp in Hl. split; [done|]. f_equal.
  rewrite (proj2 (Z.ltb_ge (Z.abs n) 0)) by lia. destruct (Z.eqb_spec n 0) as [-> | Hn]; [done|]. rewrite (proj2 (Z.eqb_neq (Z.abs n) 0)) by lia. done.
Qed.

(** ** Conversions *)

Definition fill_of (zero left_align : bool) : Z := if zero && negb left_align then 48 else 32.

Lemma emits_signed v ds zero b w :
  emits (emit_signed v (Some ((if v <? 0 then [45] else []) ++ ds)) zero b w (fill_of zero b)) tt (signed_field zero b w (v <? 0) ds).
Proof.
  unfold emit_signed. eapply emits_the; [done|]. unfold signed_field, fill_of. destruct (v <? 0), zero, b; cbn [andb negb app tail b2z];
    try (apply (emits_then (mret tt) _ _ [] _); [apply emits_ret|]; rewrite ?Z.sub_0_r; apply emits_PADDED).
  - eapply emits_eq, emits_then; [|apply emits_EMIT | apply emits_PADDED]. unfold padded. cbn [app length]. do 3 f_equal. lia.
  - apply (emits_then _ _ _ [45]); [apply emits_EMIT | apply emits_PADDED].
Qed.
Lemma emits_unsigned r ds zero b w : r = Some ds -> emits (emit_string r b w (fill_of zero b)) tt (unsigned_field zero b w ds).
Proof.
  intros ->. unfold emit_string, unsigned_field, signed_field, fill_of. eapply emits_the; [done|].
  destruct (zero && negb b) eqn:E; cbn [app b2z]; [|apply emits_PADDED]. apply andb_prop in E as [_ E%negb_true_iff]. subst. rewrite Z.sub_0_r. apply emits_PADDED.
Qed.

(** *** Sizes *)

Lemma human_loop_ok sz0 : 0 <= sz0 < 2 ^ 64 -> forall up pre sz frac,
  units = pre ++ up -> up <> [] -> sz = sz0 / 1024 ^ Z.of_nat (length pre) -> (length pre <> 0%nat -> 1 <= sz) ->
  frac = hundreds sz0 (length pre) ->
  exists k, let '(u, whole, f) := human_loop up sz frac in
    units !! k = Some u /\ whole = sz0 / 1024 ^ Z.of_nat k /\ 0 <= whole < 1024 /\ (k <> 0%nat -> 1 <= whole) /\
    f = hundreds sz0 k.
Proof.
  intros H0. assert (Hpow : forall n, 0 < 1024 ^ Z.of_nat n) by (intros; apply Z.pow_pos_nonneg; lia).
  assert (Hsz : forall n, 0 <= sz0 / 1024 ^ Z.of_nat n) by (intros; apply Z.div_pos; [lia | apply Hpow]).
  induction up as [|u up IH]; intros pre sz frac Hu Hne Es Hs Ef; [done|]. cbn [human_loop].
  assert (Hk : units !! length pre = Some u) by (rewrite Hu; apply list_lookup_middle; done).
  destruct up as [|u' up].
  - exists (length pre). split; [done|]. split; [done|]. split; [|done]. split; [rewrite Es; auto|].
    assert (Hl : length pre = 6%nat) by (apply (f_equal length) in Hu; rewrite length_app in Hu; cbn in Hu; lia).
    rewrite Es, Hl. apply Z.div_lt_upper_bound; [done|]. change (1024 ^ Z.of_nat 6) with (2 ^ 60). lia.
  - destruct (Z.leb_spec 1024 sz) as [Hle | Hlt].
    + apply (IH (pre ++ [u])); [rewrite <- app_assoc; done | done | | |].
      * rewrite length_app, Nat.add_1_r, Nat2Z.inj_succ, Z.pow_succ_r by lia. rewrite Es, Z.div_div by (apply Z.pow_nonzero || lia; lia). f_equal. lia.
      * intros _. apply Z.div_le_lower_bound; lia.
      * unfold hundreds. rewrite length_app, Nat.add_1_r, decide_False by lia. rewrite Nat2Z.inj_succ. replace (Z.succ (Z.of_nat (length pre)) - 1) with (Z.of_nat (length pre)) by lia. rewrite Es. done.
    + exists (length pre). split; [done|]. split; [done|]. split; [split; [rewrite Es; auto | done]|]. split; done.
Qed.

(** Numbers below 1024 have at most four digits. *)
Lemma short_number n ds : 0 <= n < 1024 -> text_of 10 n ds -> number (itoa (s32 n) 10 false) = Some ds /\ (length ds <= 4)%nat.
Proof.
  intros Hn Ht. assert (Es : s32 n = n) by (apply s32_fits; unfold INT_MIN, INT_MAX; lia). rewrite Es.
  assert (E : number (itoa n 10 false) = Some ds).
  { apply number_itoa; [unfold INT_MIN, INT_MAX; lia | lia|]. cbn. rewrite u32_id by (unfold UINT32_MOD; lia). done. }
  split; [done|].
  assert (Hall : forallb (fun m => match number (itoa m 10 false) with Some s => (length s <=? 4)%nat | None => false end) (seqZ 0 1024) = true) by (vm_compute; reflexivity).
  rewrite forallb_forall in Hall. specialize (Hall n). rewrite E in Hall. apply Nat.leb_le, Hall, list_elem_of_In, elem_of_seqZ. lia.
Qed.

Lemma unit_order sz k k' : 0 <= sz -> sz / 1024 ^ Z.of_nat k < 1024 -> (k' <> 0%nat -> 1 <= sz / 1024 ^ Z.of_nat k') -> (k' <= k)%nat.
Proof.
  intros H0 Hk Hk'. destruct (decide (k' <= k)%nat) as [|Hgt]; [done|]. specialize (Hk' ltac:(lia)).
  assert (0 < 1024 ^ Z.of_nat k) by (apply Z.pow_pos_nonneg; lia). assert (0 < 1024 ^ Z.of_nat k') by (apply Z.pow_pos_nonneg; lia).
  assert (1024 ^ Z.of_nat (S k) <= 1024 ^ Z.of_nat k') by (apply Z.pow_le_mono_r; lia).
  rewrite Nat2Z.inj_succ, Z.pow_succ_r in * by lia. assert (1024 <= sz / 1024 ^ Z.of_nat k); [|lia]. apply Z.div_le_lower_bound; [lia|].
  pose proof (Z.mul_div_le sz (1024 ^ Z.of_nat k')). nia.
Qed.

Lemma emits_human sz s : 0 <= sz < 2 ^ 64 -> human_text sz s -> emits (FLUSH;; print_human_size sz) tt s.
Proof.
  intros Hsz (k & unit & whole & frac & Hk & Hlt & Hge & Hw & Et & Hf & Es) Hp v t [Hl Hpos -> Hc Hn].
  eapply ends_bind, ends_mono; [apply (flush_holds v); done || (unfold VBUF_SZ in *; lia)|]. intros [] v1 [[Hl1 _ Ht1 Hc1 _] Hp1].
  destruct (human_loop_ok sz Hsz units [] sz 0) as [k' Hk']; [done | done | rewrite Z.div_1_r; done | done | done|].
  unfold print_human_size. destruct (human_loop units sz 0) as [[u w] f]. destruct Hk' as (Hu & Ew & Hw' & Hge' & Ef).
  assert (k' = k) as ->.
  { apply Nat.le_antisymm; [apply (unit_order sz); [lia | done | rewrite <- Ew; done] | apply (unit_order sz); [lia | rewrite <- Ew; lia | done]]. }
  rewrite Hk in Hu. injection Hu as <-. rewrite <- Ew in Hw. rewrite <- Et, <- Ef in Hf.
  assert (Hfr : 0 <= f < 1024).
  { rewrite Ef. unfold hundreds. destruct (decide _); [lia|]. pose proof (Z.mod_pos_bound (sz / 1024 ^ (Z.of_nat k - 1)) 1024 ltac:(lia)).
    split; [apply Z.div_pos; lia | apply Z.div_lt_upper_bound; lia]. }
  destruct (short_number w whole Hw' Hw) as [E1 L1]. destruct (short_number f frac Hfr Hf) as [E2 L2]. rewrite E1, E2.
  assert (Lu : (length unit <= 1)%nat) by (do 7 (destruct k as [|k]; [injection Hk as <-; cbn; lia|]); done).
  assert (Ls : (1 <= length s < 32)%nat) by (rewrite Es, !length_app; cbn; lia).
  unfold ends, mbind, st_bind, the, putstr. cbn [mbind option_bind]. rewrite <- Es, strcpy_ok by (rewrite length_replicate; lia). cbn [mbind option_bind].
  unfold splice. cbn [take app]. rewrite <- app_assoc. cbn [app]. rewrite take_0. cbn [app]. rewrite c_string_app by done. cbn [mbind option_bind].
  eexists tt, _. split; [reflexivity|]. split; [done|]. rewrite Hp1 in *. cbn in Ht1. rewrite app_nil_r in Ht1. split; cbn [buf pos chunks].
  - done.
  - unfold VBUF_SZ. lia.
  - rewrite Ht1, take_0, app_nil_r, concat_app. cbn. rewrite app_nil_r. done.
  - apply Forall_app. split; [done|]. apply Forall_singleton. unfold chunk_ok, VBUF_SZ. lia.
  - constructor.
Qed.

Lemma wide_range x64 l ll v : 0 <= wide x64 l ll v < 2 ^ 64.
Proof.
  unfold wide, u_long. pose proof (u32_range v). pose proof (u64_range v). unfold UINT32_MOD, UINT64_MOD in *. destruct ll, l, x64; lia.
Qed.

(** Every conversion prints its text. *)
Lemma convert_emits x64 zero b w l ll c args f args' :
  field x64 zero b w l ll c args f args' -> (l = true -> ll = false) -> emits (convert x64 zero b w l ll c args) args' f.
Proof.
  intros H Hll. unfold convert. destruct H; cbn [Z.eqb Pos.eqb orb va_int va_str].
  - apply emits_last, emits_EMIT.
  - eapply emits_the; [done|]. apply emits_last.
    assert (E : forall r, number r = Some ((if signed_value x64 l ll v <? 0 then [45] else []) ++ ds) ->
      emits (emit_signed (signed_value x64 l ll v) (number r) zero b w (fill_of zero b)) tt (signed_field zero b w (signed_value x64 l ll v <? 0) ds))
      by (intros r ->; apply emits_signed).
    unfold signed_value in *. destruct ll; [|destruct l]; apply E.
    + apply number_lltoa; [apply s64_int | done | auto | apply text_of_sign; done].
    + apply number_itoa; [apply s32_int | lia|]. rewrite s32_fits by done. apply text_of_sign. done.
    + apply number_itoa; [apply s32_int | lia | apply text_of_sign; done].
  - eapply emits_the; [done|]. apply emits_last, emits_unsigned.
    unfold wide in *. destruct ll; [|destruct l].
    + apply number_lltoa; [apply s64_int | done | auto|]. cbn. rewrite u64_s64. done.
    + apply number_itoa; [apply s32_int | lia|]. cbn. rewrite u32_s32, u32_id; [done|]. specialize (H eq_refl). unfold u_long, UINT32_MOD in *. destruct x64; [pose proof (u64_range v) | pose proof (u32_range v)]; lia.
    + apply number_itoa; [apply s32_int | lia|]. cbn. rewrite u32_s32. done.
  - subst ll. eapply emits_the; [done|]. apply emits_last, emits_unsigned.
    apply number_itoa; [apply s32_int | lia|]. cbn. rewrite u32_s32, u32_id; [done|]. pose proof (wide_range x64 l false v). unfold wide, UINT32_MOD in *. lia.
  - assert (E : (c =? 37) = false /\ (c =? 100) = false /\ (c =? 117) = false /\ (c =? 111) = false /\ (c =? 120) || (c =? 112) = true) by (destruct H as [-> | ->]; done).
    destruct E as (-> & -> & -> & -> & ->).
    eapply emits_the; [done|]. cbv zeta. apply emits_last, emits_unsigned.
    pose proof (wide_range x64 l ll v) as Hr. destruct (ll || l && x64) eqn:Ew.
    + apply number_lltoa; [apply s64_int | done | auto|]. cbn. rewrite u64_s64, u64_id; [done|]. exact Hr.
    + apply number_itoa; [apply s32_int | lia|]. cbn. rewrite u32_s32, u32_id; [done|].
      unfold wide, u_long in *. destruct ll; [done|]. destruct l, x64; try done; apply u32_range.
  - eapply emits_the; [done|]. apply emits_last. unfold emit_string. eapply emits_the; [done|]. apply emits_PADDED.
  - eapply emits_the; [done|]. set (n := if 1 <? w then _ else _).
    assert (En : n = Z.to_nat (w - 1)) by (unfold n; destruct (Z.ltb_spec 1 w); lia). unfold padded. cbn [length]. change (Z.of_nat 1) with 1. rewrite <- En.
    destruct b.
    + apply (emits_then (mret tt) _ _ [] ([v mod 256] ++ replicate n 32)); [apply emits_ret|]. apply emits_then; [apply emits_EMIT | apply emits_last, emits_pad].
    + apply emits_then; [apply emits_pad|]. apply (emits_then _ _ _ [v mod 256] []); [apply emits_EMIT | apply (emits_last (mret tt)), emits_ret].
  - eapply emits_the; [done|]. assert (Hv : 0 <= v mod 256 < 256) by (apply Z.mod_pos_bound; lia).
    eapply emits_the; [apply number_itoa; [unfold INT_MIN, INT_MAX; lia | lia | cbn; rewrite u32_id by (unfold UINT32_MOD; lia); eassumption]|].
    rewrite strlen_length. unfold padded. replace (Z.to_nat (2 - Z.of_nat (length ds))) with (if (length ds =? 1)%nat then 1%nat else 0%nat).
    + apply emits_then; [|apply emits_last, emits_EMITS]. destruct (length ds =? 1)%nat; [apply emits_EMIT | apply emits_ret].
    + destruct (Nat.eqb_spec (length ds) 1) as [-> |]; [done|]. assert (length ds <> 0%nat); [|lia].
      destruct H0 as (l0 & (E0 & _) & ->). rewrite length_app, length_fmap. destruct (Z.eqb_spec (v mod 256) 0); cbn; [lia|].
      destruct l0; cbn; [|lia]. rewrite Z.abs_eq in E0 by lia. unfold value in E0. cbn in E0. lia.
  - eapply emits_the; [done|]. eapply emits_eq; [apply app_nil_r|]. intros Hp v0 t Hh.
    apply Forall_app in Hp as [Hp _]. destruct (emits_human _ s (wide_range x64 l ll v) H0 Hp v0 t Hh) as ([] & v1 & E & _ & H1).
    exists args, v1. rewrite app_nil_r. split; [|done]. revert E. unfold mbind, st_bind. cbn. destruct (FLUSH v0) as [[[] v2]|]; [|done]. cbn. intros ->. done.
  - assert (Hc : forall d, d ∈ conversions -> (c =? d) = false) by (intros d Hd; apply Z.eqb_neq; intros ->; done).
    rewrite !Hc by (apply (bool_decide_unpack _); reflexivity). cbn. apply emits_last, emits_EMIT.
Qed.

(** ** Formats *)

Lemma parse_flags_ok flags rest : Forall (fun c => c = 45 \/ c = 48) flags -> (forall c p, rest = c :: p -> c <> 45 /\ c <> 48) -> forall zero b,
  parse_flags zero b (flags ++ rest) = (zero || bool_decide (48 ∈ flags), b || bool_decide (45 ∈ flags), rest).
Proof.
  intros Hf Hr. induction Hf as [|c flags Hc Hf IH]; intros zero b; cbn [app].
  - rewrite !bool_decide_eq_false_2, !orb_false_r by apply not_elem_of_nil. destruct rest as [|c p]; [done|]. destruct (Hr c p eq_refl). cbn.
    rewrite (proj2 (Z.eqb_neq c 45)), (proj2 (Z.eqb_neq c 48)) by done. done.
  - cbn. destruct Hc as [-> | ->]; cbn; rewrite IH.
    + rewrite (bool_decide_eq_true_2 (45 ∈ 45 :: flags)) by left. rewrite orb_true_r.
      rewrite (bool_decide_ext (48 ∈ 45 :: flags) (48 ∈ flags)); [done|]. rewrite elem_of_cons. intuition lia.
    + rewrite (bool_decide_eq_true_2 (48 ∈ 48 :: flags)) by left. rewrite orb_true_r.
      rewrite (bool_decide_ext (45 ∈ 48 :: flags) (45 ∈ flags)); [done|]. rewrite elem_of_cons. intuition lia.
Qed.

Lemma width_mono digits : Forall (fun c => 48 <= c <= 57) digits -> forall w, 0 <= w -> w <= fold_left (fun w c => w * 10 + (c - 48)) digits w.
Proof.
  induction 1 as [|c digits Hc Hd IH]; intros w Hw; cbn; [lia|]. specialize (IH (w * 10 + (c - 48)) ltac:(lia)). lia.
Qed.
Lemma int_fits x : INT_MIN <= x <= INT_MAX -> int x = Some x.
Proof. intros [H1 H2]. unfold int. apply Z.leb_le in H1, H2. rewrite H1, H2. done. Qed.
Lemma parse_width_ok digits rest : Forall (fun c => 48 <= c <= 57) digits -> (forall c p, rest = c :: p -> is_digit (schar c) = false) -> forall w,
  0 <= w -> fold_left (fun w c => w * 10 + (c - 48)) digits w <= INT_MAX ->
  parse_width w (digits ++ rest) = Some (fold_left (fun w c => w * 10 + (c - 48)) digits w, rest).
Proof.
  intros Hd Hr. induction Hd as [|c digits Hc Hd IH]; intros w Hw Hm; cbn [app fold_left] in *.
  - destruct rest as [|c p]; [done|]. cbn. rewrite (Hr c p eq_refl). done.
  - pose proof (width_mono digits Hd (w * 10 + (c - 48)) ltac:(lia)) as Hle. cbn [parse_width].
    assert (Es : schar c = c) by (unfold schar; rewrite (proj2 (Z.ltb_lt c 128)) by lia; done).
    assert (Edg : is_digit c = true) by (unfold is_digit; apply andb_true_iff; split; lia).
    rewrite Es, Edg, (int_fits (w * 10)) by (unfold INT_MIN, INT_MAX in *; lia). cbn [mbind option_bind].
    rewrite int_fits by (unfold INT_MIN, INT_MAX in *; lia). cbn [mbind option_bind]. apply IH; lia.
Qed.
Lemma parse_length_ok len l ll c p : length_of len l ll -> c <> 108 -> parse_length (len ++ c :: p) = (l, ll, c :: p).
Proof.
  intros [] Hc; cbn; [| |done]; repeat (case_match; subst; try done).
Qed.

Lemma field_char x64 zero b w l ll c args f args' : field x64 zero b w l ll c args f args' -> c <> 45 /\ c <> 108 /\ is_digit (schar c) = false.
Proof. destruct 1; try done. destruct H as [-> | ->]; done. Qed.

Lemma length_flags len l ll : length_of len l ll -> l = true -> ll = false.
Proof. destruct 1; done. Qed.

Lemma format_loop_ok x64 p args t : renders x64 p args t -> forall fuel, (length p <= fuel)%nat -> emits (format_loop x64 fuel p args) tt t.
Proof.
  induction 1 as [args | c p args t Hc Hr IH | flags digits len l ll c p args args' f t Hf Hd Hh Hw Hl Hfd Hr IH]; intros fuel Hn.
  - destruct fuel; apply emits_ret.
  - destruct fuel as [|fuel]; [cbn in Hn; lia|]. cbn [format_loop]. rewrite (proj2 (Z.eqb_neq c 37) Hc). cbn [negb].
    apply (emits_then _ _ _ [c]); [apply emits_EMIT | apply IH; cbn in Hn; lia].
  - destruct fuel as [|fuel]; [cbn in Hn; lia|]. cbn [format_loop Z.eqb Pos.eqb negb]. destruct (field_char _ _ _ _ _ _ _ _ _ _ Hfd) as (H1 & H2 & H3).
    assert (H48 : c <> 48) by (intros ->; done).
    rewrite parse_flags_ok; [|done|].
    + cbn [orb]. eapply emits_the; [apply parse_width_ok; [done | | lia | exact Hw]|].
      * intros x q E. destruct Hl; injection E as <- _; done.
      * cbn [fst snd]. rewrite (parse_length_ok len l ll c p Hl H2). eapply emits_bind; [apply convert_emits; [exact Hfd | exact (length_flags _ _ _ Hl)]|].
        apply IH. cbn in Hn. rewrite !length_app in Hn. cbn in Hn. lia.
    + intros x q E. destruct digits as [|d digits]; cbn in E.
      * destruct Hl; injection E as <- _; done.
      * injection E as <- _. apply Forall_cons in Hd as [Hd _]. split; [lia|]. intros ->. done.
Qed.

Lemma kvformat_text x64 a fmt args t :
  length a = VBUF_SZ -> renders x64 fmt args t -> printable t ->
  exists cs, kvformat x64 a fmt args = Some cs /\ concat cs = t /\ Forall (fun s => 1 <= length s < VBUF_SZ)%nat cs.
Proof.
  intros Ha Hr Hp. assert (H0 : holds (VBuf a 0 []) []) by (split; cbn; [done | unfold VBUF_SZ; lia | rewrite take_0; done | constructor | constructor]).
  destruct (format_loop_ok _ _ _ _ Hr (length fmt) ltac:(lia) Hp _ _ H0) as ([] & v1 & E1 & _ & [Hl1 Hp1 Ht1 Hc1 Hn1]).
  destruct (flush_holds v1 Hl1 ltac:(lia) Hc1 Hn1) as ([] & v2 & E2 & [_ _ Ht2 Hc2 _] & Hz). exists (chunks v2). split.
  - unfold kvformat, mbind, st_bind. cbn. rewrite E1. cbn. rewrite E2. done.
  - split; [|exact Hc2]. rewrite Hz, take_0, app_nil_r in Ht2. cbn in Ht1. rewrite <- Ht1 in Ht2. done.
Qed.

(** C18: the formatter prints what the format means, for every format without
    a precision and arguments that mean a text without NUL (for the decimal
    and octal conversions of a long, values of 32 bits; for "%h", sizes whose
    tenths are their hundreds of 1024ths): it ends, the pieces it hands to
    its callback make up exactly that text, none is empty or longer than the
    buffer allows, and nothing is stored outside of the buffer, whatever was
    in it. *)
Theorem kvformat_correct x64 a fmt args t :
  length a = VBUF_SZ -> renders x64 fmt args t -> printable t ->
  exists cs, kvformat x64 a fmt args = Some cs /\ concat cs = t /\ Forall (fun s => 1 <= length s < VBUF_SZ)%nat cs.
Proof. apply kvformat_text. Qed.

(** ** The interface *)

Lemma splice_splice (d : list Z) i s1 s2 : (i + length s1 + length s2 <= length d)%nat ->
  splice (splice d i s1) (i + length s1) s2 = splice d i (s1 ++ s2).
Proof.
  intros H. apply list_eq. intros j. rewrite !splice_lookup by (rewrite ?splice_length, ?length_app; rewrite ?length_app; lia).
  rewrite length_app. destruct (decide (i <= j < i + length s1)%nat) as [H1 | H1].
  - rewrite (bool_decide_eq_false_2 (i + length s1 <= j < _)%nat), !bool_decide_eq_true_2 by lia. rewrite lookup_app_l by lia. done.
  - destruct (decide (i + length s1 <= j < i + length s1 + length s2)%nat) as [H2 | H2].
    + rewrite !bool_decide_eq_true_2 by lia. rewrite lookup_app_r by lia. f_equal. lia.
    + rewrite !bool_decide_eq_false_2 by lia. done.
Qed.

Lemma fill_string_ok cs : Forall (fun s => 1 <= length s < VBUF_SZ)%nat cs -> forall d i,
  (i + length (concat cs) <= length d)%nat -> Z.of_nat (i + length (concat cs)) < 2 ^ 31 ->
  fill_string cs (d, Z.of_nat i) = Some (splice d i (concat cs), Z.of_nat (i + length (concat cs))).
Proof.
  induction 1 as [|s cs Hs Hcs IH]; intros d i Hl Hm; cbn [fill_string concat].
  - unfold splice. cbn. rewrite !Nat.add_0_r, take_drop. done.
  - cbn in Hl, Hm. rewrite length_app in Hl, Hm. unfold putstr_to_str. rewrite strlen_length, Nat2Z.id. destruct s as [|c s]; [cbn in Hs; lia|].
    rewrite decide_True by lia. cbn [mbind option_bind]. rewrite u32_id by (unfold UINT32_MOD; lia). rewrite <- Nat2Z.inj_add.
    rewrite IH by (rewrite ?splice_length by lia; lia). rewrite splice_splice, length_app by lia. do 3 f_equal. lia.
Qed.
Lemma count_ok cs : Forall (fun s => 1 <= length s < VBUF_SZ)%nat cs -> forall i, Z.of_nat (i + length (concat cs)) < 2 ^ 31 ->
  fold_left (fun n s => putstr_count s n) cs (Z.of_nat i) = Z.of_nat (i + length (concat cs)).
Proof.
  induction 1 as [|s cs Hs Hcs IH]; intros i Hm; cbn [fold_left concat]; [f_equal; cbn; lia|]. cbn in Hm. rewrite length_app in *.
  unfold putstr_count at 2. rewrite strlen_length. destruct s as [|c s]; [cbn in Hs; lia|]. rewrite u32_id, <- Nat2Z.inj_add by (unfold UINT32_MOD; lia).
  rewrite IH by lia. f_equal. lia.
Qed.

(** Sprintf() into an array with room writes the text and its NUL, leaves
    the rest of the array, and returns the length of the text; without an
    array it returns the same length, which is how callers find out how much
    room they need. *)
Theorem vsprintf_correct x64 a d fmt args t :
  length a = VBUF_SZ -> renders x64 fmt args t -> printable t -> (length t < length d)%nat -> Z.of_nat (length t) < 2 ^ 31 ->
  vsprintf x64 a (Some d) fmt args = Some (Some (t ++ 0 :: drop (S (length t)) d), Z.of_nat (length t)) /\
  vsprintf x64 a None fmt args = Some (None, Z.of_nat (length t)).
Proof.
  intros Ha Hr Hp Hd Hm. destruct (kvformat_text x64 a fmt args t Ha Hr Hp) as (cs & E & <- & Hcs). unfold vsprintf. rewrite E. cbn [mbind option_bind]. split.
  - pose proof (fill_string_ok cs Hcs d 0 ltac:(cbn; lia) ltac:(cbn; lia)) as F. change (Z.of_nat 0) with 0 in F. rewrite F. cbn [mbind option_bind Nat.add].
    rewrite Nat2Z.id, store_at by (rewrite splice_length by (cbn; lia); lia). cbn [mbind option_bind]. rewrite s32_id by lia. do 3 f_equal.
    unfold splice. rewrite take_0. cbn [app Nat.add]. rewrite insert_app_r_alt, Nat.sub_diag by lia. f_equal.
    destruct (drop (length (concat cs)) d) as [|x r] eqn:Ed; [apply (f_equal length) in Ed; rewrite length_drop in Ed; cbn in Ed; lia|].
    cbn. f_equal. rewrite <- Nat.add_1_r, <- drop_drop, Ed. done.
  - pose proof (count_ok cs Hcs 0 ltac:(cbn; lia)) as F. change (Z.of_nat 0) with 0 in F. rewrite F. cbn [Nat.add]. rewrite s32_id by lia. done.
Qed.

(** *** printk() *)

(** A record holds at most one line: a newline only ends it. *)
Definition one_line (s : list Z) : Prop := forall i, s !! i = Some 10 -> S i = length s.
Definition full_record (s : list Z) : Prop := (1 <= length s < RECORD_SZ)%nat /\ one_line s /\ (last s = Some 10 \/ length s = (RECORD_SZ - 1)%nat).

(** The record in progress. *)
Record recording (r : printk_record) : Prop := {
  rc_len : length (text r) = RECORD_SZ;
  rc_pos : (length_ r < RECORD_SZ - 1)%nat;
  rc_line : 10 ∉ take (length_ r) (text r);
  rc_full : Forall full_record (emitted r)
}.
Definition recorded (r : printk_record) : list Z := concat (emitted r) ++ take (length_ r) (text r).

Lemma printk_output_ok s : forall r, recording r -> exists r', printk_output s r = Some r' /\ recording r' /\ recorded r' = recorded r ++ s.
Proof.
  induction s as [|c s IH]; intros r Hr; [exists r; rewrite app_nil_r; done|]. destruct Hr as [Hl Hp Hn Hf]. cbn [printk_output].
  rewrite store_at by (unfold RECORD_SZ in *; lia). cbn [mbind option_bind]. set (t := <[length_ r := c]> (text r)).
  assert (Et : take (S (length_ r)) t = take (length_ r) (text r) ++ [c]) by (apply take_insert_end; unfold RECORD_SZ in *; lia).
  assert (Hlt : length t = RECORD_SZ) by (unfold t; rewrite length_insert; done).
  assert (Hll : length (take (length_ r) (text r)) = length_ r) by (rewrite length_take; unfold RECORD_SZ in *; lia).
  match goal with |- context [printk_output s ?x] => set (r1 := x) end. assert (H1 : recording r1 /\ recorded r1 = recorded r ++ [c]).
  { unfold r1, recorded. destruct ((c =? 10) || (S (length_ r) =? RECORD_SZ - 1)%nat) eqn:Ec; cbn [text length_ emitted].
    - rewrite take_0, app_nil_r, concat_app, Et. cbn [concat]. rewrite app_nil_r, <- app_assoc. split; [|done].
      split; cbn [text length_ emitted]; [done | unfold RECORD_SZ; lia | rewrite take_0; apply not_elem_of_nil|].
      apply Forall_app. split; [done|]. apply Forall_singleton. split; [rewrite length_app; cbn; unfold RECORD_SZ in *; lia|]. split.
      + intros i Hi. rewrite length_app. cbn. destruct (decide (i < length_ r)%nat) as [Hlt' | Hge].
        * rewrite lookup_app_l in Hi by lia. destruct Hn. apply list_elem_of_lookup. eauto.
        * apply lookup_lt_Some in Hi. rewrite length_app in Hi. cbn in Hi. lia.
      + rewrite last_snoc, length_app, Hll. cbn [length]. apply orb_prop in Ec as [->%Z.eqb_eq | E%Nat.eqb_eq]; [left; done | right; lia].
    - apply orb_false_iff in Ec as [E1%Z.eqb_neq E2%Nat.eqb_neq]. rewrite Et, app_assoc. split; [|done].
      split; cbn [text length_ emitted]; [done | unfold RECORD_SZ in *; lia | | done]. rewrite Et. set_solver. }
  destruct H1 as [H1 E1]. destruct (IH r1 H1) as (r' & E' & H' & E2). exists r'. split; [done|]. split; [done|]. rewrite E2, E1, <- app_assoc. done.
Qed.
Lemma output_all_ok cs : forall r, recording r -> exists r', output_all cs r = Some r' /\ recording r' /\ recorded r' = recorded r ++ concat cs.
Proof.
  induction cs as [|s cs IH]; intros r Hr; [exists r; rewrite app_nil_r; done|]. cbn [output_all concat].
  destruct (printk_output_ok s r Hr) as (r1 & E1 & H1 & F1). rewrite E1. cbn [mbind option_bind].
  destruct (IH r1 H1) as (r2 & E2 & H2 & F2). exists r2. rewrite F2, F1, app_assoc. done.
Qed.

Lemma text_printable base n s : 2 <= base <= 36 -> text_of base n s -> printable s.
Proof.
  intros Hb (ds & (_ & Hd & _) & ->). apply Forall_app. split; [destruct (n <? 0); repeat constructor; done|].
  apply (hexdigit_nonzero base); [lia|]. destruct (n =? 0); [repeat constructor; lia | done].
Qed.

Lemma signed_field_plain neg ds : signed_field false false 0 neg ds = (if neg then [45] else []) ++ ds.
Proof. unfold signed_field, padded. cbn [andb]. replace (Z.to_nat (0 - _)) with 0%nat by lia. done. Qed.

(** The conversion d without flags is the number. *)
Lemma renders_int x64 v p args ds t : text_of 10 (s32 v) ds -> renders x64 p args t -> renders x64 (37 :: 100 :: p) (AInt v :: args) (ds ++ t).
Proof.
  intros (l & Hl & ->) Hr. set (ab := hexdigit <$> if s32 v =? 0 then [0] else l).
  assert (Ha : text_of 10 (Z.abs (s32 v)) ab).
  { exists l. rewrite Z.abs_idemp. split; [done|]. rewrite (proj2 (Z.ltb_ge (Z.abs (s32 v)) 0)) by lia. unfold ab.
    destruct (Z.eqb_spec (s32 v) 0) as [-> | Hz]; [done|]. rewrite (proj2 (Z.eqb_neq (Z.abs (s32 v)) 0)) by lia. done. }
  rewrite <- signed_field_plain. apply (R_conversion x64 [] [] [] false false 100 p (AInt v :: args) args); try constructor; try done.
  exact (s32_int v).
Qed.

(** The console output and the records of printk(). *)
Lemma printk_text x64 a r psid fmt args t :
  length a = VBUF_SZ -> length r = RECORD_SZ -> renders x64 fmt args t -> printable t ->
  exists id recs, text_of 10 (s32 psid) id /\
    printk x64 a r psid fmt args = Some (console_print ([91] ++ id ++ [93; 58; 32]) ++ console_print t, recs) /\
    concat recs = t /\ Forall (fun s => 1 <= length s < RECORD_SZ)%nat recs /\ Forall one_line recs /\
    forall s l, recs = l ++ [s] -> Forall full_record l.
Proof.
  intros Ha Hl Hr Hp. pose proof (itoa_text (s32 psid) 10 true (s32_int psid)) as (ia & id & _ & _ & _ & Hid). cbn in Hid. exists id.
  assert (Hh : renders x64 [91; 37; 100; 93; 58; 32] [AInt psid] ([91] ++ id ++ [93; 58; 32])).
  { apply R_char; [done|]. apply renders_int; [exact Hid|]. repeat (apply R_char; [done|]). apply R_end. }
  destruct (kvformat_text x64 a _ _ _ Ha Hh) as (hs & Eh & Ch & _).
  { apply Forall_cons. split; [done|]. apply Forall_app. split; [apply (text_printable 10 (s32 psid)); [lia | done] | repeat constructor; done]. }
  destruct (kvformat_text x64 a _ _ _ Ha Hr Hp) as (cs & Ec & Cc & _).
  destruct (output_all_ok cs (Record_ r 0 [])) as (r' & Er & [L' P' N' F'] & E'); [split; cbn; [done | unfold RECORD_SZ; lia | rewrite take_0; apply not_elem_of_nil | constructor]|].
  unfold recorded in E'. cbn in E'. rewrite take_0, Cc in E'. cbn in E'. unfold printk. rewrite Eh, Ec. cbn [mbind option_bind]. rewrite Er. cbn [mbind option_bind].
  rewrite Ch, Cc. eexists. split; [exact Hid|]. split; [reflexivity|].
  assert (Hfull : Forall (fun s => 1 <= length s < RECORD_SZ)%nat (emitted r') /\ Forall one_line (emitted r')) by (split; eapply Forall_impl; [exact F' | | exact F' |]; intros s (? & ? & ?); done).
  destruct Hfull as [G1 G2]. destruct (Nat.ltb_spec 0 (length_ r')) as [H0 | H0].
  - set (s := take (length_ r') (text r')) in *. assert (Hs : length s = length_ r') by (unfold s; rewrite length_take; unfold RECORD_SZ in *; lia).
    split; [rewrite concat_app; cbn; rewrite app_nil_r; done|]. split; [apply Forall_app; split; [done | apply Forall_singleton; unfold RECORD_SZ in *; lia]|].
    split; [apply Forall_app; split; [done|]; apply Forall_singleton; intros i Hi; destruct N'; apply list_elem_of_lookup; eauto|].
    intros s' l El. apply app_inj_tail in El as [<- _]. done.
  - replace (length_ r') with 0%nat in E' by lia. rewrite take_0, app_nil_r in E'. split; [done|]. split; [done|]. split; [done|].
    intros s l El. rewrite El in F'. apply Forall_app in F' as [? _]. done.
Qed.


(** ** What goes wrong *)

(** On 64 bits "%ld" prints the low half of a long, and "%0ld" loses the
    digit of one that is negative while its low half is not. *)
Lemma long_truncated a : a = replicate 64 0 -> kvformat true a [37; 108; 100] [AInt (2 ^ 32 + 5)] = Some [[53]] /\
  kvformat true a [37; 48; 108; 100] [AInt (5 - 2 ^ 32)] = Some [[45]].
Proof. intros ->. split; vm_compute; reflexivity. Qed.
(** 2047 bytes are shown as "1.10k": the fraction is in hundreds of 1024ths. *)
Lemma human_tenths a : a = replicate 64 0 -> kvformat true a [37; 104] [AInt 2047] = Some [[49; 46; 49; 48; 107]].
Proof. intros ->. vm_compute. reflexivity. Qed.
(** A format that ends in a percent sign is read past its end. *)
Lemma percent_at_end x64 a : kvformat x64 a [37] [] = None.
Proof. reflexivity. Qed.
(** The width of "%5h" and "%4b" is ignored. *)
Lemma width_ignored a : a = replicate 64 0 -> kvformat true a [37; 53; 104] [AInt 7] = Some [[55; 46; 48]] /\
  kvformat true a [37; 52; 98] [AInt 7] = Some [[48; 55]].
Proof. intros ->. split; vm_compute; reflexivity. Qed.
(** A precision is not known: "%.8d" prints "?8d". *)
Lemma precision_unknown a : a = replicate 64 0 -> kvformat true a [37; 46; 56; 100] [AInt 3] = Some [[63; 56; 100]].
Proof. intros ->. vm_compute. reflexivity. Qed.
(** A NUL printed with "%c" hides what follows it in the buffer. *)
Lemma nul_hides a : a = replicate 64 0 -> kvformat true a [97; 37; 99; 98] [AInt 0] = Some [[97]].
Proof. intros ->. vm_compute. reflexivity. Qed.

(** ** An example: "n=%05d %s\n" *)

Module Demo.
Definition fmt : list Z := [110; 61; 37; 48; 53; 100; 32; 37; 115; 10].
Definition args : list arg := [AInt (-42); AStr (Some [111; 107])].
Definition message : list Z := [110; 61; 45; 48; 48; 52; 50; 32; 111; 107; 10].

Lemma demo_renders : renders true fmt args message.
Proof.
  do 2 (apply R_char; [done|]).
  apply (R_conversion true [48] [53] [] false false 100 [32; 37; 115; 10] args [AStr (Some [111; 107])] [45; 48; 48; 52; 50] [32; 111; 107; 10]).
  - repeat constructor; lia.
  - repeat constructor; lia.
  - discriminate.
  - vm_compute. discriminate.
  - constructor.
  - apply (F_signed true true false 5 false false (-42) [AStr (Some [111; 107])] [52; 50]); [vm_compute; split; discriminate|].
    exists [4; 2]. split; [|reflexivity]. split; [reflexivity|]. split; [repeat constructor; lia | lia].
  - apply R_char; [done|].
    apply (R_conversion true [] [] [] false false 115 [10] [AStr (Some [111; 107])] [] [111; 107] [10]);
      [constructor | constructor | done | done | constructor | apply (F_string true false false 0 false false (Some [111; 107]) [])|].
    apply R_char; [done | apply R_end].
Qed.
Lemma demo_printable : printable message.
Proof. repeat constructor; done. Qed.

Lemma kvformat_correct_witness : exists cs, kvformat true (replicate 64 7) fmt args = Some cs /\ concat cs = message.
Proof.
  destruct (kvformat_correct true (replicate 64 7) fmt args message eq_refl demo_renders demo_printable) as (cs & E & C & _).
  exists cs. exact (conj E C).
Defined.

Lemma vsprintf_correct_witness : vsprintf true (replicate 64 7) (Some (replicate 14 9)) fmt args = Some (Some (message ++ [0; 9; 9]), 11).
Proof. apply (vsprintf_correct true (replicate 64 7) (replicate 14 9) fmt args message eq_refl demo_renders demo_printable); cbn; lia. Defined.

End Demo.
