(* ===== verification/Pid.v ===== *)
(** * Process identifiers

    Model of ps_id_gen() and ps_id_free() of src/ps/impl/ps.c: a bitmap of the
    identifiers in use and the last one given out, each call under psid_lock. *)

From S2P Require Import Prelude.

Definition PID_MAX_DEFAULT : Z := 32768.

Record pids := Pids { pid_bitmap : list Z; last_pid : Z }.
Definition pids_init : pids := Pids (replicate (Z.to_nat (PID_MAX_DEFAULT / 8)) 0) UINT32_MAX.

Definition pid_bit (pid : Z) : Z := Z.shiftl 1 (pid mod 8).

Fixpoint pid_scan (fuel : nat) (map : list Z) (start pid : Z) : option (option (Z * list Z)) :=
  match fuel with
  | O => None
  | S f =>
      if pid =? start then Some None else
      let byte := Z.to_nat (pid / 8) in
      b ← map !! byte;
      if Z.land b (pid_bit pid) =? 0 then Some (Some (pid, <[byte := Z.lor b (pid_bit pid)]> map))
      else let pid := u32 (pid + 1) in pid_scan f map start (if PID_MAX_DEFAULT <=? pid then 0 else pid)
  end.
(** One round per identifier and one to see that it is the last given out. *)
Definition scan_fuel : nat := S (Z.to_nat PID_MAX_DEFAULT).

Definition ps_id_gen (s : pids) : option (Z * pids) :=
  let start := last_pid s in
  let pid := u32 (start + 1) in
  let pid := if PID_MAX_DEFAULT <=? pid then 1 else pid in
  r ← pid_scan scan_fuel (pid_bitmap s) start pid;
  match r with
  | Some (pid, map) => Some (pid, Pids map pid)
  | None => Some (UINT32_MAX, s)
  end.

Definition ps_id_free (pid : Z) (s : pids) : option pids :=
  if PID_MAX_DEFAULT <=? pid then Some s else
  let byte := Z.to_nat (pid / 8) in
  b ← pid_bitmap s !! byte; Some (Pids (<[byte := Z.ldiff b (pid_bit pid)]> (pid_bitmap s)) (last_pid s)).
