(* ===== verification/PidProof.v ===== *)
(** * Process identifiers: theorems *)

From S2P Require Import Prelude Pid.

Definition in_range (p : Z) : Prop := 0 <= p < PID_MAX_DEFAULT.
Definition used (map : list Z) (p : Z) : bool := Z.testbit (default 0 (map !! Z.to_nat (p / 8))) (p mod 8).

(** The bitmap has a bit for each identifier; the last one given out is one
    of them, or none was and all are free. *)
Definition pids_ok (s : pids) : Prop :=
  length (pid_bitmap s) = Z.to_nat (PID_MAX_DEFAULT / 8) /\
  (in_range (last_pid s) \/ last_pid s = UINT32_MAX /\ used (pid_bitmap s) 0 = false).

Lemma byte_of p : in_range p -> (Z.to_nat (p / 8) < Z.to_nat (PID_MAX_DEFAULT / 8))%nat /\ 0 <= p mod 8 < 8.
Proof.
  unfold in_range, PID_MAX_DEFAULT. intros H. pose proof (Z.mod_pos_bound p 8 ltac:(lia)). split; [|done].
  change (32768 / 8) with 4096. assert (0 <= p / 8) by (apply Z.div_pos; lia). assert (p / 8 < 4096) by (apply Z.div_lt_upper_bound; lia). lia.
Qed.

(** Distinct identifiers differ in the byte or in the bit. *)
Lemma bit_place p q : in_range p -> in_range q -> Z.to_nat (p / 8) = Z.to_nat (q / 8) -> p mod 8 = q mod 8 -> p = q.
Proof.
  unfold in_range. intros Hp Hq E1 E2. assert (0 <= p / 8) by (apply Z.div_pos; lia). assert (0 <= q / 8) by (apply Z.div_pos; lia).
  pose proof (Z.div_mod p 8 ltac:(lia)). pose proof (Z.div_mod q 8 ltac:(lia)). lia.
Qed.

Lemma pid_bit_testbit p i : in_range p -> Z.testbit (pid_bit p) i = (i =? p mod 8).
Proof.
  intros Hp. destruct (byte_of p Hp) as [_ Hb]. unfold pid_bit. rewrite Z.shiftl_1_l.
  rewrite Z.pow2_bits_eqb by lia. apply Z.eqb_sym.
Qed.

Lemma land_pid_bit b p : in_range p -> (Z.land b (pid_bit p) =? 0) = negb (Z.testbit b (p mod 8)).
Proof.
  intros Hp. destruct (byte_of p Hp) as [_ Hb]. unfold pid_bit. rewrite Z.shiftl_1_l. destruct (Z.testbit b (p mod 8)) eqn:E; cbn.
  - apply Z.eqb_neq. intros H. assert (Z.testbit (Z.land b (2 ^ (p mod 8))) (p mod 8) = false) as H' by (rewrite H; apply Z.bits_0).
    rewrite Z.land_spec, E, Z.pow2_bits_true in H' by lia. done.
  - apply Z.eqb_eq. apply Z.bits_inj'. intros i Hi. rewrite Z.land_spec, Z.bits_0, Z.pow2_bits_eqb by lia.
    destruct (Z.eqb_spec (p mod 8) i) as [<- | ?]; [rewrite E; done | apply andb_false_r].
Qed.

(** The bit of one identifier changes. *)
Lemma used_update map p q b b' (v : bool) :
  length map = Z.to_nat (PID_MAX_DEFAULT / 8) -> in_range p -> in_range q -> map !! Z.to_nat (p / 8) = Some b ->
  (forall i, Z.testbit b' i = if i =? p mod 8 then v else Z.testbit b i) ->
  used (<[Z.to_nat (p / 8) := b']> map) q = if q =? p then v else used map q.
Proof.
  intros Hl Hp Hq E Hb'. unfold used. destruct (byte_of p Hp) as [Hlt _].
  destruct (decide (Z.to_nat (p / 8) = Z.to_nat (q / 8))) as [He | He].
  - rewrite <- He, list_lookup_insert_eq, E by lia. cbn. rewrite Hb'. destruct (Z.eqb_spec (q mod 8) (p mod 8)) as [Hm | Hm].
    + rewrite (bit_place q p) by done. rewrite Z.eqb_refl. done.
    + rewrite (proj2 (Z.eqb_neq q p)); [done|]. intros ->. done.
  - rewrite list_lookup_insert_ne by done. rewrite (proj2 (Z.eqb_neq q p)); [done|]. intros ->. done.
Qed.

(** The identifiers between [a] and [b] on the way round. *)
Definition next_pid (p : Z) : Z := if PID_MAX_DEFAULT <=? p + 1 then 0 else p + 1.
Definition ahead (a p : Z) : Z := (p - a) mod PID_MAX_DEFAULT.

Lemma ahead_next a p : in_range a -> in_range p -> p <> a -> ahead (next_pid a) p = ahead a p - 1.
Proof.
  unfold ahead, next_pid, in_range, PID_MAX_DEFAULT. intros Ha Hp Hne. destruct (Z.leb_spec 32768 (a + 1)).
  - replace a with 32767 in * by lia. rewrite Z.sub_0_r, Z.mod_small by lia.
    replace (p - 32767) with (p + 1 + (-1) * 32768) by lia. rewrite Z.mod_add, Z.mod_small by lia. lia.
  - destruct (Z.ltb_spec p a).
    + replace (p - (a + 1)) with (p - a - 1 + 32768 + (-1) * 32768) by lia. replace (p - a) with (p - a + 32768 + (-1) * 32768) by lia.
      rewrite !Z.mod_add, !Z.mod_small by lia. lia.
    + rewrite !Z.mod_small by lia. lia.
Qed.

Lemma ahead_range a p : 0 <= ahead a p < PID_MAX_DEFAULT.
Proof. apply Z.mod_pos_bound. reflexivity. Qed.
Lemma ahead_self a p : in_range a -> in_range p -> ahead a p = 0 <-> p = a.
Proof.
  unfold ahead, in_range, PID_MAX_DEFAULT. intros Ha Hp. split; [|intros ->; rewrite Z.sub_diag; done].
  intros E. apply Z.mod_divide in E as [q E]; [|lia]. lia.
Qed.
Lemma next_in_range p : in_range p -> in_range (next_pid p).
Proof. unfold in_range, next_pid, PID_MAX_DEFAULT. intros H. destruct (Z.leb_spec 32768 (p + 1)); lia. Qed.

Lemma pid_scan_ok map start :
  length map = Z.to_nat (PID_MAX_DEFAULT / 8) -> in_range start -> forall fuel pid, in_range pid -> ahead pid start < Z.of_nat fuel ->
  exists r, pid_scan fuel map start pid = Some r /\
    match r with
    | None => forall q, in_range q -> ahead pid q < ahead pid start -> used map q = true
    | Some (p, map') => in_range p /\ used map p = false /\ length map' = length map /\
        (forall q, in_range q -> used map' q = (q =? p) || used map q) /\
        ahead pid p < ahead pid start /\ (forall q, in_range q -> ahead pid q < ahead pid p -> used map q = true)
    end.
Proof.
  intros Hl Hst. induction fuel as [|fuel IH]; intros pid Hp Hf; [pose proof (ahead_range pid start); lia|]. cbn [pid_scan].
  destruct (Z.eqb_spec pid start) as [-> | Hne].
  { eexists. split; [reflexivity|]. intros q Hq Hlt. rewrite (proj2 (ahead_self start start Hst Hst) eq_refl) in Hlt. pose proof (ahead_range start q). lia. }
  destruct (byte_of pid Hp) as [Hb _]. destruct (lookup_lt_is_Some_2 map (Z.to_nat (pid / 8)) ltac:(lia)) as [b Eb]. rewrite Eb. cbn [mbind option_bind].
  rewrite land_pid_bit by done. assert (Hu : used map pid = Z.testbit b (pid mod 8)) by (unfold used; rewrite Eb; done). rewrite <- Hu.
  destruct (used map pid) eqn:Eu; cbn [negb].
  - assert (En : u32 (pid + 1) = pid + 1) by (apply u32_id; unfold in_range, PID_MAX_DEFAULT, UINT32_MOD in *; lia). rewrite En.
    change (if PID_MAX_DEFAULT <=? pid + 1 then 0 else pid + 1) with (next_pid pid).
    assert (Hah : forall q, in_range q -> q <> pid -> ahead (next_pid pid) q = ahead pid q - 1) by (intros; apply ahead_next; done).
    assert (Hstart : ahead (next_pid pid) start = ahead pid start - 1) by (apply Hah; auto).
    destruct (IH (next_pid pid) (next_in_range pid Hp) ltac:(lia)) as (r & E & Hr). exists r. split; [done|].
    assert (Hstep : forall q x, in_range q -> in_range x -> x <> pid -> ahead pid q < ahead pid x -> q = pid \/ ahead (next_pid pid) q < ahead (next_pid pid) x).
    { intros q x Hq Hx Hxp Hlt. destruct (decide (q = pid)) as [-> | Hqp]; [auto|]. right. rewrite !Hah by done. lia. }
    destruct r as [[p map']|].
    + destruct Hr as (Hpr & Hpu & Hpl & Hpm & Hps & Hpq). assert (Hpp : p <> pid) by congruence. split_and!; try done.
      * rewrite Hstart, Hah in Hps by done. lia.
      * intros q Hq Hlt. destruct (Hstep q p Hq Hpr Hpp Hlt) as [-> | ?]; auto.
    + intros q Hq Hlt. destruct (Hstep q start Hq Hst ltac:(auto) Hlt) as [-> | ?]; auto.
  - eexists. split; [reflexivity|]. split; [done|]. split; [done|]. split; [apply length_insert|].
    assert (H0 : ahead pid pid = 0) by (apply ahead_self; done). split; [|split].
    + intros q Hq. rewrite (used_update map pid q b _ true) by (try done; intros i; rewrite Z.lor_spec, pid_bit_testbit by done;
        destruct (i =? pid mod 8); rewrite ?orb_true_r, ?orb_false_r; done). destruct (q =? pid); done.
    + rewrite H0. pose proof (ahead_range pid start). destruct (decide (ahead pid start = 0)) as [Hz |]; [apply (ahead_self pid start Hp Hst) in Hz; congruence | lia].
    + intros q _ Hlt. rewrite H0 in Hlt. pose proof (ahead_range pid q). lia.
Qed.

(** From the next one on, the last one comes after all others. *)
Lemma ahead_last p q : in_range p -> in_range q -> q <> p -> ahead (next_pid p) q < ahead (next_pid p) p.
Proof.
  unfold ahead, in_range, next_pid, PID_MAX_DEFAULT. intros Hp Hq Hne. destruct (Z.leb_spec 32768 (p + 1)).
  - rewrite !Z.sub_0_r, !Z.mod_small by lia. lia.
  - replace (p - (p + 1)) with (32767 + (-1) * 32768) by lia. rewrite Z.mod_add, (Z.mod_small 32767) by lia. destruct (Z.ltb_spec q (p + 1)).
    + replace (q - (p + 1)) with (q - p - 1 + 32768 + (-1) * 32768) by lia. rewrite Z.mod_add, Z.mod_small by lia. lia.
    + rewrite Z.mod_small by lia. lia.
Qed.

Lemma pid_scan_first f map start pid b :
  in_range pid -> pid <> start -> map !! Z.to_nat (pid / 8) = Some b -> Z.testbit b (pid mod 8) = false ->
  pid_scan (S f) map start pid = Some (Some (pid, <[Z.to_nat (pid / 8) := Z.lor b (pid_bit pid)]> map)).
Proof. intros Hp Hne Eb Hb. cbn [pid_scan]. rewrite (proj2 (Z.eqb_neq _ _)), Eb by done. cbn [mbind option_bind]. rewrite land_pid_bit, Hb by done. done. Qed.

(** Where the search begins. *)
Definition first_pid (s : pids) : Z := if PID_MAX_DEFAULT <=? u32 (last_pid s + 1) then 1 else u32 (last_pid s + 1).

Lemma ps_id_gen_ok s :
  pids_ok s ->
  exists r s', ps_id_gen s = Some (r, s') /\ pids_ok s' /\
    if r =? UINT32_MAX then s' = s /\ forall q, in_range q -> q <> last_pid s -> (q <> 0 \/ last_pid s <> PID_MAX_DEFAULT - 1) -> used (pid_bitmap s) q = true
    else in_range r /\ r <> last_pid s /\ used (pid_bitmap s) r = false /\ last_pid s' = r /\
      (forall q, in_range q -> used (pid_bitmap s') q = (q =? r) || used (pid_bitmap s) q) /\
      (forall q, in_range q -> ahead (first_pid s) q < ahead (first_pid s) r -> used (pid_bitmap s) q = true).
Proof.
  intros [Hl Hlast]. unfold ps_id_gen. change (if PID_MAX_DEFAULT <=? u32 (last_pid s + 1) then 1 else u32 (last_pid s + 1)) with (first_pid s).
  destruct Hlast as [Hst | [Hst H0]].
  - assert (Hf : in_range (first_pid s) /\ (first_pid s = next_pid (last_pid s) \/ last_pid s = PID_MAX_DEFAULT - 1 /\ first_pid s = 1)).
    { unfold first_pid, next_pid, in_range, PID_MAX_DEFAULT in *. rewrite u32_id by (unfold UINT32_MOD; lia). destruct (Z.leb_spec 32768 (last_pid s + 1)); lia. }
    destruct Hf as [Hf Hf']. destruct (pid_scan_ok (pid_bitmap s) (last_pid s) Hl Hst scan_fuel (first_pid s) Hf) as (r & E & Hr).
    { pose proof (ahead_range (first_pid s) (last_pid s)). unfold scan_fuel. unfold PID_MAX_DEFAULT in *. lia. }
    rewrite E. cbn [mbind option_bind]. destruct r as [[p map]|].
    + destruct Hr as (Hp & Hu & Hl' & Hm & Hd & Hb). eexists _, _. split; [reflexivity|].
      split; [split; [cbn; congruence | left; done]|]. rewrite (proj2 (Z.eqb_neq p UINT32_MAX)) by (unfold in_range, PID_MAX_DEFAULT, UINT32_MAX in *; lia).
      split; [done|]. split; [intros ->; lia | done].
    + eexists _, _. split; [reflexivity|]. split; [split; [done | auto]|]. rewrite Z.eqb_refl. split; [done|]. intros q Hq Hne Hz.
      apply Hr; [done|]. unfold ahead, in_range, PID_MAX_DEFAULT in *. destruct Hf' as [-> | [El ->]]; [apply (ahead_last (last_pid s) q)|]; try done.
      rewrite El in *. rewrite !Z.mod_small; lia.
  - assert (Hf : first_pid s = 0) by (unfold first_pid; rewrite Hst; reflexivity). rewrite Hf, Hst.
    assert (Hr0 : in_range 0) by (unfold in_range, PID_MAX_DEFAULT; lia).
    destruct (lookup_lt_is_Some_2 (pid_bitmap s) 0) as [b Eb]; [rewrite Hl; change (PID_MAX_DEFAULT / 8) with 4096; lia|].
    assert (E : pid_scan scan_fuel (pid_bitmap s) UINT32_MAX 0 = Some (Some (0, <[0%nat := Z.lor b (pid_bit 0)]> (pid_bitmap s)))).
    { apply (pid_scan_first (Z.to_nat PID_MAX_DEFAULT) _ _ 0); [done | done | exact Eb|]. unfold used in H0. change (Z.to_nat (0 / 8)) with 0%nat in H0. rewrite Eb in H0. exact H0. }
    rewrite E. cbn [mbind option_bind]. eexists _, _. split; [reflexivity|]. split; [split; [cbn; rewrite length_insert; done | left; done]|].
    change (0 =? UINT32_MAX) with false. do 4 (split; [done|]). split.
    + intros q Hq. change 0%nat with (Z.to_nat (0 / 8)). cbn [pid_bitmap]. rewrite (used_update (pid_bitmap s) 0 q b _ true); [destruct (q =? 0); done | done..|].
      intros i. rewrite Z.lor_spec, pid_bit_testbit by done. destruct (i =? 0 mod 8); rewrite ?orb_true_r, ?orb_false_r; done.
    + intros q _ Hlt. pose proof (ahead_range 0 q). change (ahead 0 0) with 0 in Hlt. lia.
Qed.

(** The allocator always ends, with the first free identifier after the
    last one it gave out, in round order; it was free and is not that one, is in use from then on,
    and no other changes.  It gives up only when all of them are in use, but
    for the last one given out and, if that is the highest, for 0. *)
Theorem ps_id_gen_correct s :
  pids_ok s ->
  exists r s', ps_id_gen s = Some (r, s') /\ pids_ok s' /\
    if r =? UINT32_MAX then s' = s /\ forall q, in_range q -> q <> last_pid s -> (q <> 0 \/ last_pid s <> PID_MAX_DEFAULT - 1) -> used (pid_bitmap s) q = true
    else in_range r /\ r <> last_pid s /\ used (pid_bitmap s) r = false /\ last_pid s' = r /\
      (forall q, in_range q -> used (pid_bitmap s') q = (q =? r) || used (pid_bitmap s) q) /\
      (forall q, in_range q -> ahead (first_pid s) q < ahead (first_pid s) r -> used (pid_bitmap s) q = true).
Proof. apply ps_id_gen_ok. Qed.

(** ps_id_free() makes one identifier free. *)
Lemma ps_id_free_ok s pid :
  pids_ok s -> in_range pid -> last_pid s <> UINT32_MAX ->
  exists s', ps_id_free pid s = Some s' /\ pids_ok s' /\ last_pid s' = last_pid s /\
    forall q, in_range q -> used (pid_bitmap s') q = negb (q =? pid) && used (pid_bitmap s) q.
Proof.
  intros [Hl Hlast] Hp Hne. destruct Hlast as [Hlast | [? _]]; [|done]. unfold ps_id_free. destruct (byte_of pid Hp) as [Hb _].
  rewrite (proj2 (Z.leb_gt _ _)) by apply Hp. destruct (lookup_lt_is_Some_2 (pid_bitmap s) (Z.to_nat (pid / 8)) ltac:(lia)) as [b Eb].
  rewrite Eb. cbn [mbind option_bind]. eexists. split; [reflexivity|]. split; [split; [cbn; rewrite length_insert; done | left; done]|].
  split; [done|]. intros q Hq. cbn [pid_bitmap]. rewrite (used_update (pid_bitmap s) pid q b _ false); [destruct (q =? pid); done | done..|].
  intros i. destruct (Z.ltb_spec i 0) as [Hi | Hi]; [rewrite !Z.testbit_neg_r by done; destruct (i =? _); done|].
  rewrite Z.ldiff_spec, pid_bit_testbit by done. destruct (i =? pid mod 8); cbn; rewrite ?andb_true_r, ?andb_false_r; done.
Qed.

(** With every identifier but the last one given out in use, none is given
    out, although that one is free. *)
Lemma last_pid_not_reused s :
  pids_ok s -> in_range (last_pid s) -> used (pid_bitmap s) (last_pid s) = false ->
  (forall q, in_range q -> q <> last_pid s -> used (pid_bitmap s) q = true) -> ps_id_gen s = Some (UINT32_MAX, s).
Proof.
  intros Hok Hl Hfree Hall. pose proof (ps_id_gen_ok s Hok) as (r & s' & E & _ & H). rewrite E.
  destruct (Z.eqb_spec r UINT32_MAX) as [-> | Hr]; [destruct H as [-> _]; done|]. exfalso. destruct H as (Hr1 & Hr2 & Hr3 & _).
  rewrite Hall in Hr3; done.
Qed.

Lemma pids_init_ok : pids_ok pids_init.
Proof. split; [apply length_replicate | right; done]. Qed.

Lemma ps_id_gen_correct_witness : exists r s', ps_id_gen pids_init = Some (r, s') /\ in_range r /\ used (pid_bitmap s') r = true.
Proof.
  destruct (ps_id_gen_correct pids_init pids_init_ok) as (r & s' & E & Hok & H). exists r, s'. split; [exact E|].
  destruct (Z.eqb_spec r UINT32_MAX) as [Hr | Hr].
  - exfalso. assert (E' : fst <$> ps_id_gen pids_init = Some r) by (rewrite E; reflexivity). vm_compute in E'. rewrite Hr in E'. discriminate.
  - destruct H as (Hin & _ & _ & _ & Hu & _). split; [done|]. rewrite Hu, Z.eqb_refl by done. done.
Defined.
