(* ===== verification/Bpf.v ===== *)
(** * The socket-filter virtual machine (src/lib/bpf.h, src/lib/impl/bpf.c).

    [mos_bpf_verify] is the static checker run when a filter is attached to
    a socket; [mos_bpf_run] is the interpreter run on every packet.  Array
    accesses that C would perform out of bounds are the value [None] (in the
    checker) and [Fault] (in the interpreter). *)

From S2P Require Import Prelude.

Record mos_bpf_insn := Insn { code : Z; jt : Z; jf : Z; k : Z }.
Record mos_bpf_filter := Filter { count : Z; instructions : list mos_bpf_insn }.

(** Field widths: uint16_t code, uint8_t jt/jf, uint32_t k, and as many
    instructions as [count] announces. *)
Definition insn_wf (p : mos_bpf_insn) : Prop :=
  0 <= code p < 2 ^ 16 /\ 0 <= jt p < 2 ^ 8 /\ 0 <= jf p < 2 ^ 8 /\ 0 <= k p < 2 ^ 32.
Definition filter_wf (f : mos_bpf_filter) : Prop :=
  count f = Z.of_nat (length (instructions f)) /\ Forall insn_wf (instructions f).

(** ** The checker *)

Definition merge (states : list Z) (pc mask : Z) : option (list Z) :=
  s ← states !! Z.to_nat pc;
  Some (<[Z.to_nat pc :=
            if nz (Z.land s 0x10000)
            then Z.lor 0x10000 (Z.land (Z.land s mask) 0xffff)
            else Z.lor 0x10000 mask]> states).

(** The result of one iteration of the checking loop. *)
Inductive verdict :=
| Reject
| Accept (states : list Z).

Definition ld_code_ok (c : Z) : bool :=
  (c =? 0) || (c =? 1) || (c =? 0x20) || (c =? 0x28) || (c =? 0x30) ||
  (c =? 0x40) || (c =? 0x48) || (c =? 0x50) || (c =? 0x60) || (c =? 0x61) ||
  (c =? 0x80) || (c =? 0x81) || (c =? 0xb1).

(** What the [switch] leaves: the outgoing mask, [terminal], [jump], and the
    states after the merges of a jump. *)
Inductive switched :=
| SOut
| SBreak (mask : Z) (terminal jump : bool) (states : list Z).

Definition verify_switch (cnt i : Z) (p : mos_bpf_insn) (si : Z) (states : list Z)
  : option switched :=
  let c := code p in
  let mask := Z.land si 0xffff in
  let cls := Z.land c 7 in
  if (cls =? 0) || (cls =? 1) then
    if negb (ld_code_ok c) then Some SOut
    else if ((c =? 0x60) || (c =? 0x61)) &&
            ((16 <=? k p) || (nz si && negb (nz (Z.land mask (Z.shiftl 1 (k p)))))) then Some SOut
    else Some (SBreak mask false false states)
  else if (cls =? 2) || (cls =? 3) then
    if (negb (c =? 2) && negb (c =? 3)) || (16 <=? k p) then Some SOut
    else Some (SBreak (Z.lor mask (Z.shiftl 1 (k p))) false false states)
  else if cls =? 4 then
    if (0xac <? c) || (0xa0 <? Z.land c 0xf0) ||
       ((Z.land c 0xf0 =? 0x80) && negb (c =? 0x84)) then Some SOut
    else if negb (nz (Z.land c 8)) &&
            ((Z.land c 0xf0 =? 0x30) || (Z.land c 0xf0 =? 0x90)) && (k p =? 0) then Some SOut
    else Some (SBreak mask false false states)
  else if cls =? 5 then
    if c =? 5 then
      if (cnt -u i -u 1)%mos <=? k p then Some SOut
      else if nz si then
        st ← merge states (i +u 1 +u k p)%mos mask;
        Some (SBreak mask false true st)
      else Some (SBreak mask false true states)
    else if (0x4d <? c) || (Z.land c 0xf0 <? 0x10) ||
            ((cnt -u i -u 1)%mos <=? jt p) || ((cnt -u i -u 1)%mos <=? jf p) then Some SOut
    else if nz si then
      st1 ← merge states (i +u 1 +u jt p)%mos mask;
      st2 ← merge st1 (i +u 1 +u jf p)%mos mask;
      Some (SBreak mask false true st2)
    else Some (SBreak mask false true states)
  else if cls =? 6 then
    if negb (c =? 6) && negb (c =? 0x16) then Some SOut
    else Some (SBreak mask true false states)
  else
    if negb (c =? 7) && negb (c =? 0x87) then Some SOut
    else Some (SBreak mask false false states).

Definition verify_insn (f : mos_bpf_filter) (i : Z) (states : list Z) : option verdict :=
  p ← instructions f !! Z.to_nat i;
  si ← states !! Z.to_nat i;
  sw ← verify_switch (count f) i p si states;
  match sw with
  | SOut => Some Reject
  | SBreak mask terminal jump st =>
      if negb terminal && negb jump then
        if (i +u 1)%mos =? count f then Some Reject
        else if nz si then
          st' ← merge st (i +u 1)%mos mask;
          Some (Accept st')
        else Some (Accept st)
      else Some (Accept st)
  end.

(** [for (i = 0; i < filter->count; i++)], [fuel] iterations left. *)
Fixpoint verify_loop (fuel : nat) (f : mos_bpf_filter) (i : Z) (states : list Z)
  : option verdict :=
  match fuel with
  | O => Some (Accept states)
  | S fuel' =>
      v ← verify_insn f i states;
      match v with
      | Reject => Some Reject
      | Accept st => verify_loop fuel' f (i + 1) st
      end
  end.

(** [alloc_ok] is whether zalloc() found memory for the state array. *)
Definition mos_bpf_verify (filter : option mos_bpf_filter) (alloc_ok : bool) : option Z :=
  match filter with
  | None => Some (- EINVAL)
  | Some f =>
      if (count f =? 0) || (4096 <? count f) then Some (- EINVAL)
      else if negb alloc_ok then Some (- ENOMEM)
      else
        let states := <[O := 0x10000]> (replicate (Z.to_nat (count f)) 0) in
        v ← verify_loop (Z.to_nat (count f)) f 0 states;
        match v with
        | Reject => Some (- EINVAL)
        | Accept _ => Some 0
        end
  end.

(** ** The interpreter *)

Record bpf_state := BState { pc : Z; ra : Z; rx : Z; memory : list Z }.

Inductive outcome :=
| Fault
| Return (v : Z)
| Continue (s : bpf_state).

(** [for (i = 0; i < size; i++) loaded = (loaded << 8) | bytes[offset + i]]. *)
Fixpoint load_bytes (data : list Z) (offset loaded : Z) (size : nat) : option Z :=
  match size with
  | O => Some loaded
  | S n =>
      b ← data !! Z.to_nat offset;
      load_bytes data (offset + 1) (Z.lor (u32 (Z.shiftl loaded 8)) b) n
  end.

(** Cases 0 and 1 of the interpreter: the loads. *)
Definition run_load (p : mos_bpf_insn) (data : list Z) (len : Z) (s : bpf_state) : outcome :=
  let c := code p in
  let mode := Z.land c 0xe0 in
  let finish loaded :=
    if nz (Z.land c 1)
    then Continue (BState (pc s) (ra s) loaded (memory s))
    else Continue (BState (pc s) loaded (rx s) (memory s)) in
  if mode =? 0x60 then
    match memory s !! Z.to_nat (k p) with
    | Some v => finish v
    | None => Fault
    end
  else if mode =? 0x80 then finish len
  else if (mode =? 0x20) || (mode =? 0x40) || (mode =? 0xa0) then
    let offset := if mode =? 0x40 then u64 (k p + rx s) else k p in
    let size := if (mode =? 0xa0) || (Z.land c 0x18 =? 0x10) then 1
                else if Z.land c 0x18 =? 8 then 2 else 4 in
    if (len <? offset) || (len - offset <? size) then Return 0
    else match load_bytes data offset 0 (Z.to_nat size) with
         | Some v => finish (if mode =? 0xa0 then Z.shiftl (Z.land v 15) 2 else v)
         | None => Fault
         end
  else finish (k p).

(** Case 4: arithmetic on [a]; [None] is the early [return 0]. *)
Definition run_alu (op a value : Z) : option Z :=
  if op =? 0 then Some (u32 (a + value))
  else if op =? 0x10 then Some (u32 (a - value))
  else if op =? 0x20 then Some (u32 (a * value))
  else if op =? 0x30 then if value =? 0 then None else Some (a / value)
  else if op =? 0x40 then Some (Z.lor a value)
  else if op =? 0x50 then Some (Z.land a value)
  else if op =? 0x60 then Some (if 32 <=? value then 0 else u32 (Z.shiftl a value))
  else if op =? 0x70 then Some (if 32 <=? value then 0 else Z.shiftr a value)
  else if op =? 0x80 then Some (u32 (0 - a))
  else if op =? 0x90 then if value =? 0 then None else Some (a mod value)
  else if op =? 0xa0 then Some (Z.lxor a value)
  else Some a.

(** Case 5: the condition of a conditional jump. *)
Definition run_take (op a value : Z) : bool :=
  if op =? 0x10 then a =? value
  else if op =? 0x20 then value <? a
  else if op =? 0x30 then value <=? a
  else if op =? 0x40 then nz (Z.land a value)
  else false.

(** One iteration of the interpreter loop, the loop's [pc++] excluded. *)
Definition run_insn (p : mos_bpf_insn) (data : list Z) (len : Z) (s : bpf_state) : outcome :=
  let c := code p in
  let value := if nz (Z.land c 8) then rx s else k p in
  let cls := Z.land c 7 in
  let store v :=
    if k p <? Z.of_nat (length (memory s))
    then Continue (BState (pc s) (ra s) (rx s) (<[Z.to_nat (k p) := v]> (memory s)))
    else Fault in
  if (cls =? 0) || (cls =? 1) then run_load p data len s
  else if cls =? 2 then store (ra s)
  else if cls =? 3 then store (rx s)
  else if cls =? 4 then
    match run_alu (Z.land c 0xf0) (ra s) value with
    | None => Return 0
    | Some a => Continue (BState (pc s) a (rx s) (memory s))
    end
  else if cls =? 5 then
    if c =? 5 then Continue (BState (u32 (pc s + k p)) (ra s) (rx s) (memory s))
    else
      let off := if run_take (Z.land c 0xf0) (ra s) value then jt p else jf p in
      Continue (BState (u32 (pc s + off)) (ra s) (rx s) (memory s))
  else if cls =? 6 then Return (if c =? 6 then k p else ra s)
  else if c =? 7 then Continue (BState (pc s) (ra s) (ra s) (memory s))
  else Continue (BState (pc s) (rx s) (rx s) (memory s)).

(** The loop body with the bound test's instruction fetch and the [pc++]. *)
Definition run_step (f : mos_bpf_filter) (data : list Z) (len : Z) (s : bpf_state) : outcome :=
  match instructions f !! Z.to_nat (pc s) with
  | None => Fault
  | Some p =>
      match run_insn p data len s with
      | Continue s' => Continue (BState (u32 (pc s' + 1)) (ra s') (rx s') (memory s'))
      | o => o
      end
  end.

(** [None]: out of fuel.  [Some None]: an out-of-bounds access. *)
Fixpoint run_loop (fuel : nat) (f : mos_bpf_filter) (data : list Z) (len : Z) (s : bpf_state)
  : option (option Z) :=
  match fuel with
  | O => None
  | S fuel' =>
      if pc s <? count f then
        match run_step f data len s with
        | Fault => Some None
        | Return v => Some (Some v)
        | Continue s' => run_loop fuel' f data len s'
        end
      else Some (Some 0)
  end.

(** [uint32_t a = 0, x = 0, memory[16] = { 0 }], scratch contents as given. *)
Definition run_from (fuel : nat) (f : mos_bpf_filter) (data : list Z) (len : Z) (mem : list Z)
  : option (option Z) := run_loop fuel f data len (BState 0 0 0 mem).

Definition mos_bpf_run (fuel : nat) (filter : option mos_bpf_filter) (data : list Z) (len : Z)
  : option (option Z) :=
  match filter with
  | None => Some (Some len)
  | Some f => run_from fuel f data len (replicate 16 0)
  end.
