(* ===== verification/BpfSound.v ===== *)
(** * Soundness of the filter checker for the filter interpreter. *)

From S2P Require Import Prelude Bpf.

Definition reached (s : Z) : Prop := Z.testbit s 16 = true.
Definition bits_sub (s t : Z) : Prop :=
  forall b, 0 <= b < 16 -> Z.testbit s b = true -> Z.testbit t b = true.

Lemma bits_sub_trans s t u : bits_sub s t -> bits_sub t u -> bits_sub s u.
Proof. unfold bits_sub; eauto. Qed.
Lemma bits_sub_refl s : bits_sub s s.
Proof. unfold bits_sub; eauto. Qed.
#[export] Hint Resolve bits_sub_refl : mos.

Lemma testbit_ffff b : 0 <= b < 16 -> Z.testbit 0xffff b = true.
Proof.
  intros Hb. change 0xffff with (Z.ones 16). apply Z.ones_spec_low. lia.
Qed.
Lemma testbit_10000 b : 0 <= b < 16 -> Z.testbit 0x10000 b = false.
Proof.
  intros Hb. change 0x10000 with (2 ^ 16). apply Z.pow2_bits_false. lia.
Qed.
Lemma land_10000_nz s : nz (Z.land s 0x10000) = Z.testbit s 16.
Proof.
  change 0x10000 with (2 ^ 16). unfold nz.
  destruct (Z.testbit s 16) eqn:E.
  - apply negb_true_iff, Z.eqb_neq. intros H.
    assert (Z.testbit (Z.land s (2 ^ 16)) 16 = true) as H'.
    { rewrite Z.land_spec, E. reflexivity. }
    rewrite H in H'. discriminate.
  - apply negb_false_iff, Z.eqb_eq. apply Z.bits_inj'. intros n Hn.
    rewrite Z.land_spec, Z.bits_0. destruct (decide (n = 16)) as [->|].
    + now rewrite E.
    + rewrite Z.pow2_bits_false by lia. apply andb_false_r.
Qed.

(** The value [merge] stores. *)
Definition merged (s mask : Z) : Z :=
  if nz (Z.land s 0x10000)
  then Z.lor 0x10000 (Z.land (Z.land s mask) 0xffff)
  else Z.lor 0x10000 mask.

Lemma merged_reached s mask : reached (merged s mask).
Proof. unfold reached, merged. case_if; rewrite Z.lor_spec; reflexivity. Qed.

Lemma merged_sub_mask s mask : bits_sub (merged s mask) mask.
Proof.
  intros b Hb. unfold merged.
  case_if; rewrite Z.lor_spec, testbit_10000 by lia; cbn [orb]; [|auto].
  rewrite !Z.land_spec, !andb_true_iff. tauto.
Qed.

Lemma merged_sub_old s mask : reached s -> bits_sub (merged s mask) s.
Proof.
  intros Hr b Hb. unfold merged. rewrite land_10000_nz, Hr.
  rewrite Z.lor_spec, testbit_10000 by lia. cbn [orb].
  rewrite !Z.land_spec, !andb_true_iff. tauto.
Qed.

Lemma merge_spec st pc mask s :
  st !! Z.to_nat pc = Some s ->
  merge st pc mask = Some (<[Z.to_nat pc := merged s mask]> st).
Proof. intros H. unfold merge. now rewrite H. Qed.

(** ** Flow facts of one instruction *)

Definition cls (p : mos_bpf_insn) : Z := Z.land (code p) 7.
Definition is_store (p : mos_bpf_insn) : bool := (cls p =? 2) || (cls p =? 3).
Definition out_mask (p : mos_bpf_insn) (s : Z) : Z :=
  if is_store p then Z.lor (Z.land s 0xffff) (Z.shiftl 1 (k p)) else Z.land s 0xffff.
Definition successors (i : Z) (p : mos_bpf_insn) : list Z :=
  if cls p =? 5 then
    if code p =? 5 then [i + 1 + k p] else [i + 1 + jt p; i + 1 + jf p]
  else if cls p =? 6 then [] else [i + 1].

(** Scratch slots an instruction may touch in state [s]. *)
Definition slots_ok (p : mos_bpf_insn) (s : Z) : Prop :=
  (is_store p = true -> k p < 16) /\
  (cls p <= 1 -> ld_code_ok (code p) = true /\
     (Z.land (code p) 0xe0 = 0x60 -> k p < 16 /\ Z.testbit s (k p) = true)).

Definition flows (f : mos_bpf_filter) (st : list Z) (i : Z) : Prop :=
  forall p s, instructions f !! Z.to_nat i = Some p -> st !! Z.to_nat i = Some s -> reached s ->
    slots_ok p s /\
    Forall (fun j => i < j < count f /\
      exists s', st !! Z.to_nat j = Some s' /\ reached s' /\ bits_sub s' (out_mask p s))
      (successors i p).

(** The loop invariant of the checker after [i] instructions. *)
Record checked (f : mos_bpf_filter) (i : Z) (st : list Z) : Prop := {
  checked_len : Z.of_nat (length st) = count f;
  checked_mark : Forall (fun s => s = 0 \/ reached s) st;
  checked_start : st !! O = Some 0x10000;
  checked_flows : forall j, 0 <= j < i -> flows f st j;
}.

(** States only gain marks and lose bits, and below the current instruction
    they no longer change. *)
Definition shrinks (i : Z) (st st' : list Z) : Prop :=
  length st' = length st /\
  (forall j, (j <= Z.to_nat i)%nat -> st' !! j = st !! j) /\
  (forall j s, st !! j = Some s ->
     exists s', st' !! j = Some s' /\ (s' = s \/ reached s') /\
                (reached s -> reached s' /\ bits_sub s' s)).

Lemma shrinks_refl i st : shrinks i st st.
Proof. split_and!; [done..|]. intros j s Hs. exists s. auto with mos. Qed.

Lemma shrinks_trans i st1 st2 st3 :
  shrinks i st1 st2 -> shrinks i st2 st3 -> shrinks i st1 st3.
Proof.
  intros (L1 & U1 & S1) (L2 & U2 & S2). split_and!; [congruence| |].
  - intros j Hj. now rewrite U2, U1.
  - intros j s Hs. destruct (S1 j s Hs) as (s1 & Hs1 & Hm1 & Hr1).
    destruct (S2 j s1 Hs1) as (s2 & Hs2 & Hm2 & Hr2). exists s2. split_and!; [done| |].
    + destruct Hm2 as [->|]; [done|by right].
    + intros Hr. destruct (Hr1 Hr) as [R1 B1]. destruct (Hr2 R1). eauto using bits_sub_trans.
Qed.

Lemma merge_shrinks i j st mask :
  0 <= i -> i < j -> (Z.to_nat j < length st)%nat ->
  exists st' s', merge st j mask = Some st' /\ shrinks i st st' /\
    st' !! Z.to_nat j = Some s' /\ reached s' /\ bits_sub s' mask.
Proof.
  intros Hi Hj Hlen. destruct (lookup_lt_is_Some_2 st (Z.to_nat j) Hlen) as [s Hs].
  exists (<[Z.to_nat j := merged s mask]> st), (merged s mask).
  split_and!; [by apply merge_spec| |by apply list_lookup_insert_eq
              |apply merged_reached|apply merged_sub_mask].
  split_and!; [apply length_insert| |].
  - intros j' Hj'. apply list_lookup_insert_ne. lia.
  - intros j' s0 Hs0. destruct (decide (j' = Z.to_nat j)) as [->|Hne].
    + simplify_eq. exists (merged s mask). rewrite list_lookup_insert_eq by done.
      split_and!; [done|right; apply merged_reached|].
      intros Hr. split; [apply merged_reached|by apply merged_sub_old].
    + exists s0. rewrite list_lookup_insert_ne by done. auto with mos.
Qed.

(** Merging one mask into every successor. *)
Fixpoint merge_all (st : list Z) (js : list Z) (mask : Z) : option (list Z) :=
  match js with
  | [] => Some st
  | j :: js' => st' ← merge st j mask; merge_all st' js' mask
  end.

Lemma merge_all_shrinks i js st mask :
  0 <= i -> Forall (fun j => i < j /\ (Z.to_nat j < length st)%nat) js ->
  exists st', merge_all st js mask = Some st' /\ shrinks i st st' /\
    Forall (fun j => exists s', st' !! Z.to_nat j = Some s' /\ reached s' /\ bits_sub s' mask) js.
Proof.
  intros Hi. revert st. induction js as [|j js IH]; intros st Hjs; cbn [merge_all].
  { exists st. split_and!; [done|apply shrinks_refl|constructor]. }
  apply Forall_cons in Hjs as [[Hij Hlen] Hjs].
  destruct (merge_shrinks i j st mask Hi Hij Hlen) as (st1 & s1 & -> & Hsh1 & Hl1 & Hr1 & Hb1).
  cbn [mbind option_bind].
  destruct (IH st1) as (st2 & Hst2 & Hsh2 & Hall).
  { eapply Forall_impl; [exact Hjs|]. intros j' [? ?]. destruct Hsh1 as [-> _]. auto. }
  exists st2. split_and!; [done|by eapply shrinks_trans|].
  constructor; [|done].
  destruct Hsh2 as (_ & _ & S2). destruct (S2 _ _ Hl1) as (s2 & ? & _ & Hr2).
  destruct (Hr2 Hr1). eauto using bits_sub_trans.
Qed.

(** ** One iteration of the checker *)

Lemma land_bits_16 s kk :
  0 <= kk < 16 -> nz (Z.land (Z.land s 0xffff) (Z.shiftl 1 kk)) = true -> Z.testbit s kk = true.
Proof.
  intros Hk Hn. destruct (Z.testbit s kk) eqn:E; [done|]. exfalso.
  unfold nz in Hn. apply negb_true_iff, Z.eqb_neq in Hn. apply Hn.
  apply Z.bits_inj'. intros n Hn0. rewrite !Z.land_spec, Z.bits_0.
  rewrite Z.shiftl_1_l. destruct (decide (n = kk)) as [->|].
  - now rewrite E.
  - rewrite Z.pow2_bits_false by lia. now rewrite andb_false_r.
Qed.

Lemma unsigned_room cnt i x :
  0 <= i < cnt -> cnt <= 4096 -> 0 <= x ->
  x < (cnt -u i -u 1)%mos ->
  i + 1 + x < cnt /\ (i +u 1 +u x)%mos = i + 1 + x.
Proof.
  intros Hi Hc Hx H.
  assert ((cnt -u i -u 1)%mos = cnt - i - 1) as E.
  { unfold u32. rewrite (Z.mod_small (cnt - i)) by (unfold UINT32_MOD; lia).
    apply Z.mod_small. unfold UINT32_MOD; lia. }
  rewrite E in H. split; [lia|].
  unfold u32. rewrite (Z.mod_small (i + 1)) by (unfold UINT32_MOD; lia).
  apply Z.mod_small. unfold UINT32_MOD; lia.
Qed.

Lemma next_small cnt i : 0 <= i < cnt -> cnt <= 4096 -> (i +u 1)%mos = i + 1.
Proof. intros. apply u32_id. unfold UINT32_MOD. lia. Qed.

Lemma ld_mode_60 c :
  ld_code_ok c = true -> Z.land c 0xe0 = 0x60 -> (c =? 0x60) || (c =? 0x61) = true.
Proof.
  unfold ld_code_ok. rewrite !orb_true_iff, !Z.eqb_eq.
  intros H Hm. repeat destruct H as [H|H]; subst c; auto; discriminate.
Qed.

Lemma reached_nz s : reached s -> nz s = true.
Proof. intros Hr. unfold nz. destruct (Z.eqb_spec s 0) as [->|]; [discriminate|done]. Qed.

Lemma load_slots c kk s :
  0 <= kk -> ld_code_ok c = true -> reached s ->
  ((c =? 0x60) || (c =? 0x61)) &&
  ((16 <=? kk) || nz s && negb (nz (Z.land (Z.land s 0xffff) (Z.shiftl 1 kk)))) = false ->
  Z.land c 0xe0 = 0x60 -> kk < 16 /\ Z.testbit s kk = true.
Proof.
  intros Hk Hld Hr H Hm.
  rewrite (ld_mode_60 c Hld Hm), (reached_nz s Hr) in H. cbn [andb] in H.
  apply orb_false_iff in H as [H1%Z.leb_gt H2%negb_false_iff].
  split; [done|]. apply land_bits_16; [lia|done].
Qed.

Section Iteration.
Context (f : mos_bpf_filter) (i : Z) (st : list Z) (p : mos_bpf_insn) (si : Z).
Context (Hi : 0 <= i < count f) (Hc : count f <= 4096) (Hwf : insn_wf p).
Context (Hp : instructions f !! Z.to_nat i = Some p) (Hs : st !! Z.to_nat i = Some si).
Context (Hlen : Z.of_nat (length st) = count f) (Hmark : si = 0 \/ reached si).

Definition next_states : option (list Z) :=
  if nz si then merge_all st (successors i p) (out_mask p si) else Some st.

(** What acceptance of instruction [i] established. *)
Definition accepted : Prop :=
  (reached si -> slots_ok p si) /\
  Forall (fun j => i < j < count f) (successors i p) /\
  verify_insn f i st = Accept <$> next_states.

Lemma verify_insn_cases : verify_insn f i st = Some Reject \/ accepted.
Proof.
  destruct Hwf as (W1 & W2 & W3 & W4).
  unfold accepted, next_states, verify_insn. rewrite Hp, Hs. cbn [mbind option_bind].
  unfold verify_switch, successors, slots_ok, out_mask, is_store, cls.
  pose proof (next_small (count f) i Hi Hc) as Hnext.
  remember (Z.land (code p) 7) as c eqn:Ecls.
  assert (0 <= c < 8) as Hcls.
  { subst c. change 7 with (Z.ones 3). rewrite Z.land_ones by lia.
    apply Z.mod_pos_bound. reflexivity. }
  assert (c = 0 \/ c = 1 \/ c = 2 \/ c = 3 \/ c = 4 \/ c = 5 \/ c = 6 \/ c = 7) as Hc8 by lia.
  destruct Hc8 as [-> | [-> | [-> | [-> | [-> | [-> | [-> | -> ] ] ] ] ] ] ];
    cbn [Z.eqb Pos.eqb orb andb negb mbind option_bind];
    try destruct (code p =? 5) eqn:E5.
  all: repeat match goal with
       | |- context [if ?b then Some SOut else _] =>
           destruct b eqn:?; cbn [mbind option_bind andb negb]; [by left|]
       | |- context [(i +u 1)%mos =? count f] =>
           rewrite Hnext; destruct (i + 1 =? count f) eqn:?; [by left|]
       end.
  all: right; rewrite ?Forall_cons, ?Forall_nil; breflect;
    repeat match goal with
    | H : ?x < (count f -u i -u 1)%mos |- _ =>
        apply (unsigned_room (count f) i x Hi Hc) in H as [? ->]; [|lia]
    end.
  all: split_and!; try lia; 
    try by destruct (nz si); repeat (cbn; try destruct (merge _ _ _)).
  all: intros Hr; split; [done|intros _; split; [done|]].
  all: apply (load_slots (code p)); [lia|done..].
Qed.

(** An accepted instruction extends the loop invariant by one. *)
Lemma accepted_checked :
  checked f i st -> accepted ->
  exists st', verify_insn f i st = Some (Accept st') /\ checked f (i + 1) st'.
Proof.
  intros [L M Hs0 F] (Hslots & Hsucc & ->).
  assert (exists st', next_states = Some st' /\ shrinks i st st' /\
    (nz si = true -> Forall (fun j => exists s', st' !! Z.to_nat j = Some s' /\ reached s' /\
                                bits_sub s' (out_mask p si)) (successors i p)))
    as (st' & -> & Hsh & Hall).
  { unfold next_states. destruct (nz si).
    - destruct (merge_all_shrinks i (successors i p) st (out_mask p si)) as (st' & -> & ? & ?);
        [lia| |by eauto].
      eapply Forall_impl; [exact Hsucc|]. cbn. intros; lia.
    - exists st. split_and!; [done|apply shrinks_refl|done]. }
  exists st'. split; [done|]. destruct Hsh as (SL & SU & SS). split.
  - congruence.
  - apply Forall_lookup. intros j s' Hj.
    destruct (lookup_lt_is_Some_2 st j) as [s Hsj]; [rewrite <- SL; eauto using lookup_lt_Some|].
    destruct (SS j s Hsj) as (s'' & ? & [?|?] & _); simplify_eq; [|by right].
    rewrite Forall_lookup in M. eauto.
  - rewrite SU by lia. done.
  - intros j Hj p' s' Hp' Hs' Hr'. rewrite SU in Hs' by lia.
    destruct (decide (j = i)) as [->|Hne].
    + simplify_eq. split; [auto|]. specialize (Hall (reached_nz _ Hr')).
      apply Forall_and. split; done.
    + destruct (F j ltac:(lia) p' s' Hp' Hs' Hr') as [Hok Hfl]. split; [done|].
      eapply Forall_impl; [exact Hfl|]. cbn. intros j' (? & t & Ht & Hrt & Hbt). split; [done|].
      destruct (SS _ _ Ht) as (t' & ? & _ & Hr2). destruct (Hr2 Hrt).
      eauto using bits_sub_trans.
Qed.
End Iteration.

Lemma verify_loop_total f fuel i st :
  filter_wf f -> count f <= 4096 -> 0 <= i -> i + Z.of_nat fuel = count f -> checked f i st ->
  verify_loop fuel f i st = Some Reject \/
  exists st', verify_loop fuel f i st = Some (Accept st') /\ checked f (count f) st'.
Proof.
  intros [Hn Hwf] Hc. revert i st. induction fuel as [|fuel IH]; intros i st Hi Hsum Hst.
  { right. exists st. cbn. split; [done|]. replace (count f) with i by lia. done. }
  destruct (lookup_lt_is_Some_2 (instructions f) (Z.to_nat i)) as [p Hp]; [lia|].
  destruct (lookup_lt_is_Some_2 st (Z.to_nat i)) as [s Hs].
  { pose proof (checked_len _ _ _ Hst). lia. }
  assert (insn_wf p) as Hpw by (rewrite Forall_lookup in Hwf; eauto).
  cbn [verify_loop].
  destruct (verify_insn_cases f i st p s) as [-> | Hacc]; try done; [lia|by left|].
  destruct (accepted_checked f i st p s) as (st' & -> & Hst'); try done.
  - lia.
  - cbn [mbind option_bind]. apply IH; [lia..|done].
Qed.

Lemma verify_start f :
  0 < count f -> checked f 0 (<[O := 0x10000]> (replicate (Z.to_nat (count f)) 0)).
Proof.
  intros Hc. split.
  - rewrite length_insert, length_replicate. lia.
  - apply Forall_insert; [|by right]. apply Forall_replicate. by left.
  - apply list_lookup_insert_eq. rewrite length_replicate. lia.
  - intros; lia.
Qed.

(** ** Two runs that differ only in uninitialised scratch words *)

Definition agree (mask : Z) (m m' : list Z) : Prop :=
  length m = 16%nat /\ length m' = 16%nat /\
  forall b : nat, (b < 16)%nat -> Z.testbit mask (Z.of_nat b) = true -> m !! b = m' !! b.

Lemma agree_low s m m' : agree s m m' -> agree (Z.land s 0xffff) m m'.
Proof.
  intros (? & ? & H). split_and!; [done..|]. intros b Hb.
  rewrite Z.land_spec, andb_true_iff. intros [? _]. auto.
Qed.

Lemma land_sub s : bits_sub (Z.land s 0xffff) s.
Proof. intros b Hb. rewrite Z.land_spec, andb_true_iff. tauto. Qed.

Lemma agree_mono s t m m' : bits_sub t s -> agree s m m' -> agree t m m'.
Proof. intros Hb (? & ? & H). split_and!; [done..|]. intros b ??. apply H; [done|]. apply Hb; lia || done. Qed.

Lemma agree_store s kk v m m' :
  0 <= kk < 16 -> agree s m m' ->
  agree (Z.lor (Z.land s 0xffff) (Z.shiftl 1 kk)) (<[Z.to_nat kk := v]> m) (<[Z.to_nat kk := v]> m').
Proof.
  intros Hk (L & L' & H). split_and!; [by rewrite length_insert..|].
  intros b Hb Ht. destruct (decide (b = Z.to_nat kk)) as [->|Hne].
  { rewrite !list_lookup_insert_eq by lia. done. }
  rewrite !list_lookup_insert_ne by done. apply H; [done|].
  rewrite Z.lor_spec, Z.land_spec, Z.shiftl_1_l, Z.pow2_bits_false, orb_false_r in Ht by lia.
  by apply andb_true_iff in Ht as [? _].
Qed.

Definition same_regs (s s' : bpf_state) : Prop := pc s = pc s' /\ ra s = ra s' /\ rx s = rx s'.

(** Both runs return the same verdict, or both go on in states that agree
    on the words of [mask], at one of the instructions [js]. *)
Definition in_step (js : list Z) (mask : Z) (o o' : outcome) : Prop :=
  (exists v, o = Return v /\ o' = Return v) \/
  (exists t t', o = Continue t /\ o' = Continue t' /\ same_regs t t' /\
     agree mask (memory t) (memory t') /\ In (u32 (pc t + 1)) js).

Lemma load_bytes_ok data size off acc :
  0 <= off -> off + Z.of_nat size <= Z.of_nat (length data) ->
  is_Some (load_bytes data off acc size).
Proof.
  revert off acc. induction size as [|n IH]; intros off acc Ho Hl; cbn [load_bytes]; [eauto|].
  destruct (lookup_lt_is_Some_2 data (Z.to_nat off)) as [b ->]; [lia|].
  cbn [mbind option_bind]. apply IH; lia.
Qed.

Lemma run_load_in_step p data len s s' si js :
  insn_wf p -> len = Z.of_nat (length data) -> same_regs s s' ->
  agree si (memory s) (memory s') ->
  (Z.land (code p) 0xe0 = 0x60 -> k p < 16 /\ Z.testbit si (k p) = true) ->
  In (u32 (pc s + 1)) js ->
  in_step js si (run_load p data len s) (run_load p data len s').
Proof.
  destruct s as [pc0 a x m], s' as [pc1 a1 x1 m'].
  intros (W1 & W2 & W3 & W4) Hlen (Epc & Ea & Ex) Hag Hslot Hjs. cbn in *. subst pc1 a1 x1.
  assert (forall v, in_step js si
    (if nz (Z.land (code p) 1) then Continue (BState pc0 a v m) else Continue (BState pc0 v x m))
    (if nz (Z.land (code p) 1) then Continue (BState pc0 a v m') else Continue (BState pc0 v x m')))
    as Hfin.
  { intros v. right. destruct (nz (Z.land (code p) 1)); do 2 eexists; split_and!; eauto; done. }
  unfold run_load. cbn [pc ra rx memory].
  destruct (Z.land (code p) 0xe0 =? 0x60) eqn:E60.
  { apply Z.eqb_eq in E60. destruct (Hslot E60) as [Hk Ht]. destruct Hag as (L & L' & Hm).
    specialize (Hm (Z.to_nat (k p)) ltac:(lia)). rewrite Z2Nat.id in Hm by lia.
    rewrite <- (Hm Ht).
    destruct (lookup_lt_is_Some_2 m (Z.to_nat (k p))) as [v ->]; [lia|apply Hfin]. }
  destruct (Z.land (code p) 0xe0 =? 0x80); [apply Hfin|].
  case_if; [|apply Hfin].
  set (off := if _ =? 0x40 then _ else _).
  set (size := if _ || _ then 1 else _).
  destruct ((len <? off) || (len - off <? size)) eqn:Eb; [left; eauto|].
  assert (0 <= off) by (subst off; case_if; [apply u64_range|lia]).
  assert (0 <= size) by (subst size; repeat case_if; lia).
  breflect. destruct (load_bytes_ok data (Z.to_nat size) off 0) as [v ->]; [lia..|].
  apply Hfin.
Qed.

Lemma in_step_weaken js s t o o' : bits_sub t s -> in_step js s o o' -> in_step js t o o'.
Proof.
  intros Hb [H|(u & u' & H1 & H2 & H3 & H4 & H5)]; [by left|].
  right. exists u, u'. split_and!; eauto using agree_mono.
Qed.

Lemma run_store_in_step p data len pc0 a x m m' si :
  is_store p = true -> 0 <= k p < 16 -> agree si m m' ->
  In (u32 (pc0 + 1)) (successors pc0 p) ->
  in_step (successors pc0 p) (out_mask p si)
    (run_insn p data len (BState pc0 a x m)) (run_insn p data len (BState pc0 a x m')).
Proof.
  intros Est Hk Hag Hin. unfold run_insn, out_mask. rewrite Est. fold (cls p).
  unfold is_store in Est. cbn [pc ra rx memory].
  destruct Hag as (L & L' & Hm). rewrite L, L'.
  destruct (Z.ltb_spec (k p) (Z.of_nat 16)) as [_|]; [|lia].
  assert (forall v, in_step (successors pc0 p) (Z.lor (Z.land si 65535) (Z.shiftl 1 (k p)))
    (Continue (BState pc0 a x (<[Z.to_nat (k p):=v]> m)))
    (Continue (BState pc0 a x (<[Z.to_nat (k p):=v]> m')))) as Hgo.
  { intros v. right. do 2 eexists. split_and!; [done..| |done]; cbn.
    by apply agree_store. }
  apply orb_true_iff in Est as [E%Z.eqb_eq|E%Z.eqb_eq]; rewrite E; apply Hgo.
Qed.

Lemma run_insn_in_step p data len s s' si :
  insn_wf p -> len = Z.of_nat (length data) -> same_regs s s' ->
  agree si (memory s) (memory s') -> slots_ok p si ->
  0 <= pc s -> Forall (fun j => pc s < j < 4097) (successors (pc s) p) ->
  in_step (successors (pc s) p) (out_mask p si) (run_insn p data len s) (run_insn p data len s').
Proof.
  destruct s as [pc0 a x m], s' as [pc1 a1 x1 m'].
  intros Hwf Hlen (Epc & Ea & Ex) Hag [Hst Hld] Hpc Hsucc. cbn in *. subst pc1 a1 x1.
  pose proof (agree_low _ _ _ Hag) as Hlow. pose proof Hwf as (W1 & W2 & W3 & W4).
  assert (Hgo : forall off a' x', In (pc0 + 1 + off) (successors pc0 p) -> 0 <= off ->
    is_store p = false ->
    in_step (successors pc0 p) (out_mask p si)
      (Continue (BState (u32 (pc0 + off)) a' x' m)) (Continue (BState (u32 (pc0 + off)) a' x' m'))).
  { intros off a' x' Hin Hoff Hns. right. do 2 eexists. split_and!; [done..| |]; cbn.
    - unfold out_mask. by rewrite Hns.
    - rewrite Forall_forall in Hsucc. apply list_elem_of_In in Hin as Hin'. apply Hsucc in Hin'.
      cbn in Hin'. rewrite (u32_id (pc0 + off)), u32_id by (unfold UINT32_MOD; lia).
      replace (pc0 + off + 1) with (pc0 + 1 + off) by lia. done. }
  assert (Hnext : In (pc0 + 1) (successors pc0 p) -> u32 pc0 = pc0 /\ u32 (pc0 + 1) = pc0 + 1).
  { intros Hin%list_elem_of_In. rewrite Forall_forall in Hsucc. apply Hsucc in Hin.
    split; apply u32_id; unfold UINT32_MOD; lia. }
  assert (Hfall : forall a' x', In (pc0 + 1) (successors pc0 p) -> is_store p = false ->
    in_step (successors pc0 p) (out_mask p si)
      (Continue (BState pc0 a' x' m)) (Continue (BState pc0 a' x' m'))).
  { intros a' x' Hin Hns. specialize (Hgo 0 a' x'). rewrite !Z.add_0_r in Hgo.
    destruct (Hnext Hin) as [E _]. rewrite E in Hgo. apply Hgo; done. }
  destruct (is_store p) eqn:Estore.
  { assert (In (pc0 + 1) (successors pc0 p)) as Hin.
    { unfold is_store in Estore. unfold successors.
      apply orb_true_iff in Estore as [E%Z.eqb_eq|E%Z.eqb_eq]; rewrite E; cbn; auto. }
    apply run_store_in_step; auto with lia. by rewrite (proj2 (Hnext Hin)). }
  unfold run_insn. fold (cls p). cbn [pc ra rx memory].
  assert (0 <= cls p < 8) as Hcls.
  { unfold cls. change 7 with (Z.ones 3). rewrite Z.land_ones by lia.
    apply Z.mod_pos_bound. reflexivity. }
  unfold is_store in Estore. apply orb_false_iff in Estore as [E2 E3]. rewrite E2, E3.
  unfold successors in Hgo, Hfall, Hnext |- *.
  destruct ((cls p =? 0) || (cls p =? 1)) eqn:E01.
  { apply orb_true_iff in E01. rewrite !Z.eqb_eq in E01.
    rewrite (proj2 (Z.eqb_neq (cls p) 5)), (proj2 (Z.eqb_neq (cls p) 6)) in Hnext |- * by lia.
    apply in_step_weaken with si.
    { unfold out_mask, is_store. rewrite E2, E3. apply land_sub. }
    apply run_load_in_step; try done; [apply Hld; lia|].
    cbn [pc]. destruct Hnext as [_ ->]; cbn; auto. }
  destruct (cls p =? 4) eqn:E4.
  { destruct (run_alu _ _ _); [|left; eauto].
    apply Z.eqb_eq in E4. rewrite E4 in Hfall |- *. apply Hfall; cbn; auto. }
  destruct (cls p =? 5) eqn:E5.
  { destruct (code p =? 5); [apply Hgo; cbn; auto with lia|].
    destruct (run_take _ _ _); apply Hgo; cbn; auto with lia. }
  destruct (cls p =? 6) eqn:E6; [left; eauto|].
  destruct (code p =? 7); apply Hfall; cbn; auto.
Qed.

(** ** Whole runs of a checked filter *)

Section Checked.
Context (f : mos_bpf_filter) (st : list Z) (data : list Z).
Context (Hwf : filter_wf f) (Hcnt : count f <= 4096) (Hst : checked f (count f) st).

Definition related (s s' : bpf_state) : Prop :=
  same_regs s s' /\ 0 <= pc s < count f /\
  exists si, st !! Z.to_nat (pc s) = Some si /\ reached si /\ agree si (memory s) (memory s').

Lemma run_step_related s s' :
  let len := Z.of_nat (length data) in
  related s s' ->
  (exists v, run_step f data len s = Return v /\ run_step f data len s' = Return v) \/
  (exists t t', run_step f data len s = Continue t /\ run_step f data len s' = Continue t' /\
     pc s < pc t /\ related t t').
Proof.
  intros len (Hregs & Hpc & si & Hsi & Hr & Hag).
  destruct Hwf as [Hn Hall].
  destruct (lookup_lt_is_Some_2 (instructions f) (Z.to_nat (pc s))) as [p Hp]; [lia|].
  destruct (checked_flows _ _ _ Hst (pc s) Hpc p si Hp Hsi Hr) as [Hslots Hsucc].
  assert (insn_wf p) as Hpw by (rewrite Forall_lookup in Hall; eauto).
  unfold run_step. destruct Hregs as (Epc & Ea & Ex). rewrite <- Epc, Hp.
  destruct (run_insn_in_step p data len s s' si) as [(v & -> & ->)|H]; try done.
  - lia.
  - eapply Forall_impl; [exact Hsucc|]. cbn. intros; lia.
  - left; eauto.
  - right. destruct H as (t & t' & -> & -> & (Ept & Eat & Ext) & Hagt & Hin).
    rewrite Forall_forall in Hsucc. apply list_elem_of_In in Hin.
    destruct (Hsucc _ Hin) as [Hlt (sj & ? & ? & ?)].
    do 2 eexists. split_and!; [done..|cbn; lia|]. split_and!; cbn; [|lia..|].
    { split_and!; cbn; congruence. }
    exists sj. split_and!; eauto using agree_mono.
Qed.

Lemma run_loop_related fuel s s' :
  count f - pc s <= Z.of_nat fuel -> related s s' ->
  exists v, run_loop fuel f data (Z.of_nat (length data)) s = Some (Some v) /\
            run_loop fuel f data (Z.of_nat (length data)) s' = Some (Some v).
Proof.
  revert s s'. induction fuel as [|fuel IH]; intros s s' Hf Hrel.
  { destruct Hrel as (_ & ? & _). lia. }
  cbn [run_loop].
  assert ((pc s <? count f) = true) as Hlt by (destruct Hrel as (_ & ? & _); lia).
  assert (pc s' = pc s) as -> by (destruct Hrel as ((? & _) & _); congruence).
  rewrite Hlt.
  destruct (run_step_related s s' Hrel) as [(v & -> & ->)|(t & t' & -> & -> & Hlt' & Hrel')].
  - eauto.
  - apply IH; [lia|done].
Qed.

Lemma related_start m m' :
  0 < count f -> length m = 16%nat -> length m' = 16%nat ->
  related (BState 0 0 0 m) (BState 0 0 0 m').
Proof.
  intros Hpos L L'. split_and!; cbn; [done|lia..|].
  exists 0x10000. split_and!; [by apply checked_start in Hst|done|].
  split_and!; [done..|]. intros b Hb. rewrite testbit_10000 by lia. done.
Qed.
End Checked.

Lemma verify_accept f b :
  filter_wf f -> mos_bpf_verify (Some f) b = Some 0 ->
  0 < count f <= 4096 /\ exists st, checked f (count f) st.
Proof.
  intros Hwf. unfold mos_bpf_verify. destruct Hwf as [Hn Hall] eqn:E; clear E.
  destruct ((count f =? 0) || (4096 <? count f)) eqn:Ec; [done|]. breflect.
  destruct b; cbn [negb]; [|done].
  destruct (verify_loop_total f (Z.to_nat (count f)) 0
              (<[O:=0x10000]> (replicate (Z.to_nat (count f)) 0))) as [-> | (st & -> & Hst)];
    try done; try lia; [apply verify_start; lia|].
  intros _. split; [lia|eauto].
Qed.

(** The checker never reads or writes outside its arrays: on every
    well-formed filter it returns 0, -EINVAL or -ENOMEM. *)
Theorem mos_bpf_verify_total f b :
  filter_wf f ->
  mos_bpf_verify (Some f) b = Some 0 \/ mos_bpf_verify (Some f) b = Some (- EINVAL) \/
  mos_bpf_verify (Some f) b = Some (- ENOMEM).
Proof.
  intros Hwf. unfold mos_bpf_verify. pose proof Hwf as [Hn Hall].
  destruct ((count f =? 0) || (4096 <? count f)) eqn:Ec; [by auto|]. breflect.
  destruct b; cbn [negb]; [|by auto].
  destruct (verify_loop_total f (Z.to_nat (count f)) 0
              (<[O:=0x10000]> (replicate (Z.to_nat (count f)) 0))) as [-> | (st & -> & Hst)];
    try done; try lia; [apply verify_start; lia|auto..].
Qed.

(** C28: an accepted filter terminates with a verdict within [count] steps on
    every packet, without any out-of-bounds access. *)
Theorem mos_bpf_run_safe f b data :
  filter_wf f -> mos_bpf_verify (Some f) b = Some 0 ->
  exists v, mos_bpf_run (Z.to_nat (count f)) (Some f) data (Z.of_nat (length data)) = Some (Some v).
Proof.
  intros Hwf Hv. destruct (verify_accept f b Hwf Hv) as [Hc [st Hst]].
  destruct (run_loop_related f st data Hwf ltac:(lia) Hst (Z.to_nat (count f))
    (BState 0 0 0 (replicate 16 0)) (BState 0 0 0 (replicate 16 0))) as (v & Hr & _); eauto.
  - cbn; lia.
  - apply (related_start f st); done || lia.
Qed.

(** The verdict of an accepted filter does not depend on the initial
    contents of the scratch memory: every word is written before it is read. *)
Theorem mos_bpf_scratch_initialised f b data mem :
  filter_wf f -> mos_bpf_verify (Some f) b = Some 0 -> length mem = 16%nat ->
  run_from (Z.to_nat (count f)) f data (Z.of_nat (length data)) mem =
  mos_bpf_run (Z.to_nat (count f)) (Some f) data (Z.of_nat (length data)).
Proof.
  intros Hwf Hv Hm. destruct (verify_accept f b Hwf Hv) as [Hc [st Hst]].
  destruct (run_loop_related f st data Hwf ltac:(lia) Hst (Z.to_nat (count f))
    (BState 0 0 0 mem) (BState 0 0 0 (replicate 16 0))) as (v & Hr & Hr').
  - cbn; lia.
  - apply (related_start f st); done || lia.
  - unfold mos_bpf_run, run_from. congruence.
Qed.

(** Control never runs past the last instruction of an accepted filter:
    the interpreter leaves its loop only through a [return] inside it. *)
Theorem mos_bpf_no_fallthrough f b data s :
  filter_wf f -> mos_bpf_verify (Some f) b = Some 0 ->
  rtc (fun s t => run_step f data (Z.of_nat (length data)) s = Continue t)
      (BState 0 0 0 (replicate 16 0)) s ->
  pc s < count f.
Proof.
  intros Hwf Hv. destruct (verify_accept f b Hwf Hv) as [Hc [st Hst]].
  assert (related f st (BState 0 0 0 (replicate 16 0)) (BState 0 0 0 (replicate 16 0))) as Hrel.
  { apply (related_start f st); done || lia. }
  revert Hrel. generalize (BState 0 0 0 (replicate 16 0)). intros s0 Hrel Hrtc.
  induction Hrtc as [s0|s0 s1 s2 Hstep _ IH].
  { destruct Hrel as (_ & ? & _). lia. }
  apply IH.
  destruct (run_step_related f st data Hwf ltac:(lia) Hst s0 s0 Hrel)
    as [(v & Hs & _)|(t & t' & Hs & Hs' & _ & Hrel')]; simplify_eq; congruence || done.
Qed.

(** ** A concrete filter: accept IPv4 frames, keeping the type word in M[3]. *)
Definition ipv4_filter : mos_bpf_filter :=
  Filter 7 [Insn 0x28 0 0 12; Insn 2 0 0 3; Insn 0 0 0 7; Insn 0x60 0 0 3;
            Insn 0x15 0 1 0x800; Insn 6 0 0 0xffff; Insn 6 0 0 0].

Lemma ipv4_filter_wf : filter_wf ipv4_filter.
Proof.
  split; [done|].
  repeat (apply Forall_cons_2; [unfold insn_wf; cbn; lia|]). apply Forall_nil_2.
Qed.

Lemma mos_bpf_verify_total_witness :
  filter_wf ipv4_filter /\
  (mos_bpf_verify (Some ipv4_filter) true = Some 0 \/
   mos_bpf_verify (Some ipv4_filter) true = Some (- EINVAL) \/
   mos_bpf_verify (Some ipv4_filter) true = Some (- ENOMEM)).
Proof. split; [apply ipv4_filter_wf|]. apply (mos_bpf_verify_total ipv4_filter true), ipv4_filter_wf. Defined.

Lemma mos_bpf_run_safe_witness :
  exists v, mos_bpf_run 7 (Some ipv4_filter) (replicate 14 8) 14 = Some (Some v).
Proof.
  apply (mos_bpf_run_safe ipv4_filter true (replicate 14 8)); [apply ipv4_filter_wf|].
  vm_compute. reflexivity.
Defined.

Lemma mos_bpf_scratch_initialised_witness :
  run_from 7 ipv4_filter (replicate 14 8) 14 (replicate 16 77) =
  mos_bpf_run 7 (Some ipv4_filter) (replicate 14 8) 14.
Proof.
  apply (mos_bpf_scratch_initialised ipv4_filter true (replicate 14 8) (replicate 16 77));
    [apply ipv4_filter_wf|vm_compute; reflexivity|reflexivity].
Defined.

Lemma mos_bpf_no_fallthrough_witness :
  pc (BState 1 0x808 0 (replicate 16 0)) < count ipv4_filter.
Proof.
  apply (mos_bpf_no_fallthrough ipv4_filter true (replicate 14 8)); [apply ipv4_filter_wf|..].
  - vm_compute. reflexivity.
  - apply rtc_once. vm_compute. reflexivity.
Defined.
