(* ===== verification/PosixLock.v ===== *)
(** * Advisory byte-range locks (src/fs/impl/posix_lock.c).

    The lock table is the list [ranges], newest lock first.  A call that has
    to sleep is resumed by a [wakeup], which carries the table the other
    processes left behind while the caller slept. *)

From S2P Require Import Prelude.

(** Lock types, commands and access modes (src/fs/fcntl.h). *)
Definition F_RDLCK : Z := 0.
Definition F_WRLCK : Z := 1.
Definition F_UNLCK : Z := 2.
Definition F_GETLK64 : Z := 12.
Definition F_SETLK64 : Z := 13.
Definition F_SETLKW64 : Z := 14.
Definition LOCK_EX : Z := 2.

Record posix_range := Range {
  identity : Z; r_ino : Z; owner : Z; r_dev : Z; r_type : Z; r_start : Z; r_end : Z }.

(** The fields of an open file that locking looks at.  [getattr] is the
    st_dev found by the file's getattr operation, if it has one and it
    succeeds. *)
Record file := File {
  f_inode : Z; i_pgcache_tag : Z; i_ino : Z; i_size : Z; f_pos : Z; f_mode : Z;
  getattr : option Z; f_flock : Z; f_lock_type : Z; f_lock_pid : Z; f_lock_dev : Z }.

Record flock64 := Flock { l_type : Z; l_whence : Z; l_start : Z; l_len : Z; l_pid : Z }.

Record lock_state := LState {
  ranges : list posix_range;
  flocks : list Z;        (* files (by address) in the BSD-lock inventory *)
  range_wait : list Z;    (* sleeping tasks *)
  ready : list Z }.       (* tasks handed to ps_put_to_ready_queue, in order *)

Definition set_ranges (st : lock_state) (l : list posix_range) : lock_state :=
  LState l (flocks st) (range_wait st) (ready st).

Definition lock_identity (fp : file) : Z :=
  if nz (i_pgcache_tag fp) then i_pgcache_tag fp else f_inode fp.

Definition same_file (r : posix_range) (fp : file) : bool :=
  (identity r =? lock_identity fp) && (r_ino r =? i_ino fp).

(** The list is drained from its tail. *)
Definition wake_waiters (st : lock_state) : lock_state :=
  LState (ranges st) (flocks st) [] (ready st ++ rev (range_wait st)).

(** ** Release *)

Definition released (fp : option file) (own : Z) (r : posix_range) : bool :=
  (owner r =? own) && match fp with None => true | Some f => same_file r f end.

(** The scan of [ranges]: what stays, and the garbage list (newest first). *)
Fixpoint release_scan (fp : option file) (own : Z) (l garbage : list posix_range)
  : list posix_range * list posix_range :=
  match l with
  | [] => ([], garbage)
  | r :: l' =>
      if released fp own r then release_scan fp own l' (r :: garbage)
      else let (keep, g) := release_scan fp own l' garbage in (r :: keep, g)
  end.

(** [group] is the current thread group, as (tgid, posix_locks_used). *)
Definition fs_posix_lock_release (fp : option file) (own : Z) (group : option (Z * bool))
  (st : lock_state) : lock_state :=
  let skip := match group with Some (tgid, used) => (tgid =? own) && negb used | None => false end in
  if skip then st
  else
    let (keep, garbage) := release_scan fp own (ranges st) [] in
    let st' := set_ranges st keep in
    match garbage with [] => st' | _ => wake_waiters st' end.

(** ** Locking *)

Definition add_overflow64 (a b : Z) : option Z :=
  let s := a + b in if (INT64_MIN <=? s) && (s <=? INT64_MAX) then Some s else None.

(** Checks the request and computes the byte range it covers. *)
Definition lock_range (fp : file) (cmd : Z) (fl : flock64) : (Z * Z) + Z :=
  let ty := l_type fl in
  if negb (ty =? F_RDLCK) && negb (ty =? F_WRLCK) && negb (ty =? F_UNLCK) then inr (- EINVAL)
  else if (cmd =? F_GETLK64) && (ty =? F_UNLCK) then inr (- EINVAL)
  else if negb (cmd =? F_GETLK64) && (ty =? F_RDLCK) && (Z.land (f_mode fp) O_ACCMODE =? O_WRONLY)
  then inr (- EBADF)
  else if negb (cmd =? F_GETLK64) && (ty =? F_WRLCK) && (Z.land (f_mode fp) O_ACCMODE =? O_RDONLY)
  then inr (- EBADF)
  else
    let base :=
      if l_whence fl =? 0 then inl 0
      else if l_whence fl =? 1 then inl (f_pos fp)
      else if l_whence fl =? 2 then
        if INT64_MAX <? i_size fp then inr (- EOVERFLOW) else inl (i_size fp)
      else inr (- EINVAL) in
    match base with
    | inr e => inr e
    | inl b =>
        match add_overflow64 b (l_start fl) with
        | None => inr (- EOVERFLOW)
        | Some start =>
            if 0 <? l_len fl then
              match add_overflow64 start (l_len fl - 1) with
              | None => inr (- EOVERFLOW)
              | Some e => if start <? 0 then inr (- EINVAL) else inl (start, e)
              end
            else if l_len fl <? 0 then
              if start <=? 0 then inr (- EINVAL)
              else
                match add_overflow64 start (l_len fl) with
                | None => inr (- EOVERFLOW)
                | Some start' => if start' <? 0 then inr (- EINVAL) else inl (start', start - 1)
                end
            else if start <? 0 then inr (- EINVAL) else inl (start, INT64_MAX)
        end
    end.

(** The test of the conflict scan. *)
Definition conflicts (tgid : Z) (fp : file) (ty start end_ : Z) (r : posix_range) : bool :=
  negb (owner r =? tgid) && same_file r fp && (start <=? r_end r) && (r_start r <=? end_) &&
  ((ty =? F_WRLCK) || (r_type r =? F_WRLCK)).

Fixpoint first_conflict (tgid : Z) (fp : file) (ty start end_ : Z) (l : list posix_range)
  : option posix_range :=
  match l with
  | [] => None
  | r :: l' => if conflicts tgid fp ty start end_ r then Some r
               else first_conflict tgid fp ty start end_ l'
  end.

(** The answer written back by F_GETLK64. *)
Definition getlk_answer (fl : flock64) (c : option posix_range) : flock64 :=
  match c with
  | None => Flock F_UNLCK (l_whence fl) (l_start fl) (l_len fl) (l_pid fl)
  | Some r => Flock (r_type r) 0 (r_start r)
                (if r_end r =? INT64_MAX then 0 else r_end r - r_start r + 1) (owner r)
  end.

Definition with_end (r : posix_range) (e : Z) : posix_range :=
  Range (identity r) (r_ino r) (owner r) (r_dev r) (r_type r) (r_start r) e.
Definition with_start (r : posix_range) (s : Z) : posix_range :=
  Range (identity r) (r_ino r) (owner r) (r_dev r) (r_type r) s (r_end r).

(** Replacement or unlocking preserves the portions outside the request. *)
Fixpoint carve (tgid : Z) (fp : file) (start end_ : Z) (l : list posix_range)
  : list posix_range :=
  match l with
  | [] => []
  | r :: l' =>
      if negb (owner r =? tgid) || negb (same_file r fp) || (r_end r <? start) || (end_ <? r_start r)
      then r :: carve tgid fp start end_ l'
      else if (r_start r <? start) && (end_ <? r_end r)
      then with_end r (start - 1) :: with_start r (end_ + 1) :: l'
      else if r_start r <? start then with_end r (start - 1) :: carve tgid fp start end_ l'
      else if end_ <? r_end r then with_start r (end_ + 1) :: carve tgid fp start end_ l'
      else carve tgid fp start end_ l'
  end.

Definition fresh_range (tgid dev : Z) (fp : file) (ty start end_ : Z) : posix_range :=
  Range (lock_identity fp) (i_ino fp) tgid dev ty start end_.

(** The update made once no conflict stands in the way. *)
Definition apply_lock (tgid dev : Z) (fp : file) (ty start end_ : Z) (st : lock_state) : lock_state :=
  let carved := carve tgid fp start end_ (ranges st) in
  let l := if negb (ty =? F_UNLCK) then fresh_range tgid dev fp ty start end_ :: carved else carved in
  wake_waiters (set_ranges st l).

(** One pass of the [for (;;)] loop with the table locked. *)
Inductive pass :=
| PReturn (ret : Z) (fl : flock64) (st : lock_state)
| PSleep (st : lock_state).

(** [intr] is whether ps_prepare_interruptible_wait() found a signal. *)
Definition lock_pass (task tgid dev : Z) (fp : file) (cmd : Z) (fl : flock64) (start end_ : Z)
  (intr : bool) (st : lock_state) : pass :=
  let c := first_conflict tgid fp (l_type fl) start end_ (ranges st) in
  if cmd =? F_GETLK64 then PReturn 0 (getlk_answer fl c) st
  else match c with
       | Some _ =>
           if l_type fl =? F_UNLCK then PReturn 0 fl (apply_lock tgid dev fp (l_type fl) start end_ st)
           else if cmd =? F_SETLK64 then PReturn (- EAGAIN) fl st
           else if intr then PReturn (- EINTR) fl st
           else PSleep (LState (ranges st) (flocks st) (range_wait st ++ [task]) (ready st))
       | None => PReturn 0 fl (apply_lock tgid dev fp (l_type fl) start end_ st)
       end.

(** What happens around one sleep: whether a signal stops the task from
    sleeping, the table it finds on waking, and whether a signal is then
    pending. *)
Record wakeup := Wakeup { intr_before : bool; table_after : lock_state; intr_after : bool }.

(** [None]: the caller is still asleep when the wakeups are used up. *)
Fixpoint lock_loop (task tgid dev : Z) (fp : file) (cmd : Z) (fl : flock64) (start end_ : Z)
  (ws : list wakeup) (st : lock_state) : option (Z * flock64 * lock_state) :=
  let intr := match ws with w :: _ => intr_before w | [] => false end in
  match lock_pass task tgid dev fp cmd fl start end_ intr st with
  | PReturn r fl' st' => Some (r, fl', st')
  | PSleep _ =>
      match ws with
      | [] => None
      | w :: ws' =>
          if intr_after w then Some (- EINTR, fl, table_after w)
          else lock_loop task tgid dev fp cmd fl start end_ ws' (table_after w)
      end
  end.

(** The result carries the caller's posix_locks_used flag.  [mem] is
    whether the two malloc() calls succeed. *)
Definition fs_posix_lock (task tgid : Z) (used : bool) (fp : file) (cmd : Z) (fl : flock64)
  (mem : bool * bool) (ws : list wakeup) (st : lock_state)
  : option (Z * flock64 * bool * lock_state) :=
  match lock_range fp cmd fl with
  | inr e => Some (e, fl, used, st)
  | inl (start, end_) =>
      let used' := if negb (cmd =? F_GETLK64) then true else used in
      if negb (cmd =? F_GETLK64) && negb (fst mem && snd mem) then Some (- ENOMEM, fl, used', st)
      else
        let dev := default 0 (getattr fp) in
        '(r, fl', st') ← lock_loop task tgid dev fp cmd fl start end_ ws st;
        Some (r, fl', used', st')
  end.

(** ** The inventory of BSD locks *)

Definition fs_flock_inventory (addr : Z) (fp : file) (tgid dev : Z) (st : lock_state)
  : file * lock_state :=
  let '(fp1, fl1) :=
    if nz (f_lock_type fp)
    then (File (f_inode fp) (i_pgcache_tag fp) (i_ino fp) (i_size fp) (f_pos fp) (f_mode fp)
            (getattr fp) (f_flock fp) 0 (f_lock_pid fp) (f_lock_dev fp),
          filter (fun a => a <> addr) (flocks st))
    else (fp, flocks st) in
  if nz (f_flock fp1)
  then (File (f_inode fp1) (i_pgcache_tag fp1) (i_ino fp1) (i_size fp1) (f_pos fp1) (f_mode fp1)
          (getattr fp1) (f_flock fp1) (f_flock fp1) tgid dev,
        LState (ranges st) (addr :: fl1) (range_wait st) (ready st))
  else (fp1, LState (ranges st) fl1 (range_wait st) (ready st)).
