(* ===== verification/PosixLockProof.v ===== *)
(** * Correctness of advisory byte-range locks. *)

From S2P Require Import Prelude PosixLock.

Definition valid_range (r : posix_range) : Prop :=
  0 <= r_start r /\ r_start r <= r_end r /\ r_end r <= INT64_MAX /\
  (r_type r = F_RDLCK \/ r_type r = F_WRLCK).

Definition same_object (r s : posix_range) : Prop := identity r = identity s /\ r_ino r = r_ino s.
Definition overlap (r s : posix_range) : Prop := r_start r <= r_end s /\ r_start s <= r_end r.

(** Two locks may coexist: one owner's locks on a file are disjoint, and
    locks of different owners that overlap are both shared. *)
Definition compatible (r s : posix_range) : Prop :=
  same_object r s -> overlap r s ->
  owner r <> owner s /\ r_type r = F_RDLCK /\ r_type s = F_RDLCK.

Fixpoint pairwise (l : list posix_range) : Prop :=
  match l with [] => True | r :: l' => Forall (compatible r) l' /\ pairwise l' end.

(** The invariant of the lock table. *)
Definition locks_ok (l : list posix_range) : Prop := Forall valid_range l /\ pairwise l.

(** The lock an owner holds on one byte of a file. *)
Definition holds (fp : file) (own b : Z) (r : posix_range) : bool :=
  (owner r =? own) && same_file r fp && (r_start r <=? b) && (b <=? r_end r).
Fixpoint locked (fp : file) (own b : Z) (l : list posix_range) : option Z :=
  match l with
  | [] => None
  | r :: l' => if holds fp own b r then Some (r_type r) else locked fp own b l'
  end.

(** [r'] is what is left of [r] after trimming. *)
Definition part_of (r' r : posix_range) : Prop :=
  identity r' = identity r /\ r_ino r' = r_ino r /\ owner r' = owner r /\ r_type r' = r_type r /\
  r_start r <= r_start r' /\ r_end r' <= r_end r.

Lemma part_of_refl r : part_of r r.
Proof. unfold part_of; lia. Qed.
#[export] Hint Resolve part_of_refl : mos.

Lemma compatible_part r r' s : part_of r' r -> compatible r s -> compatible r' s.
Proof.
  intros (E1 & E2 & E3 & E4 & E5 & E6) H [Ho1 Ho2] [Hv1 Hv2]. rewrite E3, E4.
  apply H; split; congruence || lia.
Qed.
Lemma compatible_sym r s : compatible r s -> compatible s r.
Proof.
  intros H [? ?] [? ?]. destruct H as (? & ? & ?); [split; congruence|split; lia|].
  split_and!; congruence.
Qed.
Lemma compatible_part_r r s s' : part_of s' s -> compatible r s -> compatible r s'.
Proof. eauto using compatible_sym, compatible_part. Qed.

Lemma same_file_eq r fp :
  same_file r fp = true <-> identity r = lock_identity fp /\ r_ino r = i_ino fp.
Proof. unfold same_file. rewrite andb_true_iff, !Z.eqb_eq. done. Qed.

Lemma holds_with_end fp own b r e :
  e <= r_end r -> holds fp own b (with_end r e) = holds fp own b r && (b <=? e).
Proof. intros. unfold holds, same_file; cbn. lia. Qed.
Lemma holds_with_start fp own b r s :
  r_start r <= s -> holds fp own b (with_start r s) = holds fp own b r && (s <=? b).
Proof. intros. unfold holds, same_file; cbn. lia. Qed.

Section Carve.
Context (tgid : Z) (fp : file) (start end_ : Z) (Hse : start <= end_).

Definition mine (r : posix_range) : Prop :=
  owner r = tgid /\ same_file r fp = true /\ start <= r_end r /\ r_start r <= end_.

Lemma carve_skip r :
  negb (owner r =? tgid) || negb (same_file r fp) || (r_end r <? start) || (end_ <? r_start r)
    = false <-> mine r.
Proof.
  unfold mine. rewrite !orb_false_iff, !negb_false_iff, Z.eqb_eq, !Z.ltb_ge. tauto.
Qed.

(** Every lock left by [carve] is part of an old one. *)
Lemma carve_part l : Forall (fun r' => exists r, r ∈ l /\ part_of r' r) (carve tgid fp start end_ l).
Proof.
  assert (forall l, Forall (fun r' => exists r, r ∈ l /\ part_of r' r) l) as Hid.
  { intros l0. apply Forall_forall. eauto with mos. }
  assert (Hweak : forall r l L,
    Forall (fun r' => exists r, r ∈ l /\ part_of r' r) L ->
    Forall (fun r' => exists r0, r0 ∈ r :: l /\ part_of r' r0) L).
  { intros r l0 L H. eapply Forall_impl; [exact H|]. cbn. intros r' (r0 & ? & ?).
    exists r0. split; [by right|done]. }
  induction l as [|r l IH]; cbn [carve]; [constructor|].
  repeat case_if; breflect; auto.
  all: repeat (apply Forall_cons; split; [exists r; split; [left|unfold part_of; cbn; lia]|]); auto.
Qed.

Lemma carve_valid l : 0 <= start -> Forall valid_range l -> Forall valid_range (carve tgid fp start end_ l).
Proof.
  intros H0. induction 1 as [|r l Hr Hl IH]; cbn [carve]; [constructor|].
  unfold valid_range in Hr.
  repeat case_if; breflect; repeat (apply Forall_cons; split; [unfold valid_range; cbn; lia|]); auto.
Qed.

Lemma mine_inside r s :
  compatible r s -> owner r = tgid -> same_file r fp = true ->
  r_start r <= start -> end_ <= r_end r -> ~ mine s.
Proof.
  intros H Ho Hf H1 H2 (Ho' & Hf' & H3 & H4). rewrite same_file_eq in Hf, Hf'.
  destruct H as [H _]; [split; intuition congruence|split; lia|]. congruence.
Qed.

Lemma carve_clear l : pairwise l -> Forall (fun r => ~ mine r) (carve tgid fp start end_ l).
Proof.
  induction l as [|r l IH]; cbn [carve pairwise]; [constructor|]. intros [Hc Hp].
  destruct (_ || _) eqn:E.
  { apply Forall_cons; split; [|auto]. rewrite <- carve_skip. congruence. }
  apply carve_skip in E. destruct E as (Ho & Hf & E1 & E2).
  repeat case_if; breflect;
    repeat (apply Forall_cons; split; [unfold mine; cbn; lia|]); auto.
  eapply Forall_impl; [exact Hc|]. cbn. intros s Hs. eapply mine_inside; eauto; lia.
Qed.

Lemma compatible_carved r l :
  Forall (compatible r) l -> Forall (compatible r) (carve tgid fp start end_ l).
Proof.
  intros H. eapply Forall_impl; [apply carve_part|]. cbn. intros r' (r0 & Hin & Hpart).
  rewrite Forall_forall in H. eauto using compatible_part_r.
Qed.

Lemma carve_pairwise l : pairwise l -> pairwise (carve tgid fp start end_ l).
Proof.
  induction l as [|r l IH]; cbn [carve pairwise]; [done|]. intros [Hc Hp].
  assert (forall r', part_of r' r -> Forall (compatible r') l) as Hpart.
  { intros r' ?. eapply Forall_impl; [exact Hc|]. eauto using compatible_part. }
  repeat case_if; breflect; cbn [pairwise]; auto using compatible_carved.
  - split_and!; [|apply Hpart; unfold part_of; cbn; lia|done].
    apply Forall_cons; split; [|apply Hpart; unfold part_of; cbn; lia].
    intros _ [? ?]. cbn in *. lia.
  - split; [|auto]. apply compatible_carved, Hpart. unfold part_of; cbn; lia.
  - split; [|auto]. apply compatible_carved, Hpart. unfold part_of; cbn; lia.
Qed.

Lemma locked_none fp' own b l :
  (forall r, r ∈ l -> holds fp' own b r = false) -> locked fp' own b l = None.
Proof.
  induction l as [|r l IH]; intros H; cbn [locked]; [done|].
  rewrite H by left. apply IH. intros; apply H. by right.
Qed.

(** Point-wise meaning of [carve]: the request's bytes are freed for this
    process on this file, every other lock is as before. *)
Lemma carve_inside l b : pairwise l -> start <= b <= end_ -> locked fp tgid b (carve tgid fp start end_ l) = None.
Proof.
  intros Hp Hb. apply locked_none. intros r Hr.
  pose proof (carve_clear l Hp) as Hc. rewrite Forall_forall in Hc. specialize (Hc r Hr).
  destruct (holds fp tgid b r) eqn:E; [|done]. exfalso. apply Hc.
  unfold holds in E. breflect. unfold mine. split_and!; done || lia.
Qed.

Lemma carve_outside l fp' own b :
  (own <> tgid \/ lock_identity fp' <> lock_identity fp \/ i_ino fp' <> i_ino fp \/
   b < start \/ end_ < b) ->
  locked fp' own b (carve tgid fp start end_ l) = locked fp' own b l.
Proof.
  intros Hout. induction l as [|r l IH]; cbn [carve locked]; [done|].
  destruct (_ || _) eqn:E; [cbn [locked]; by rewrite IH|].
  apply carve_skip in E. destruct E as (Ho & Hf & E1 & E2).
  rewrite same_file_eq in Hf.
  assert (holds fp' own b r = true -> (b < start \/ end_ < b) /\ r_start r <= b <= r_end r) as Hh.
  { unfold holds, same_file. intros ?; breflect. lia. }
  destruct (holds fp' own b r) eqn:Er; [specialize (Hh eq_refl)|clear Hh].
  all: repeat case_if; breflect; cbn [locked]; rewrite ?holds_with_end, ?holds_with_start by lia;
    rewrite ?Er, ?IH; cbn [andb]; auto.
  all: destruct (Z.leb_spec b (start - 1)), (Z.leb_spec (end_ + 1) b); auto; lia.
Qed.
End Carve.

(** ** Requests *)

Lemma add_overflow64_spec a b s :
  add_overflow64 a b = Some s -> s = a + b /\ INT64_MIN <= s <= INT64_MAX.
Proof. unfold add_overflow64. case_if; [|done]. intros [= <-]. breflect. lia. Qed.

Lemma lock_range_ok fp cmd fl s e :
  lock_range fp cmd fl = inl (s, e) ->
  0 <= s /\ s <= e /\ e <= INT64_MAX /\
  (l_type fl = F_RDLCK \/ l_type fl = F_WRLCK \/ l_type fl = F_UNLCK).
Proof.
  unfold lock_range. intros H.
  assert (INT64_MAX = 2 ^ 63 - 1) by reflexivity.
  repeat match type of H with
  | context [if ?b then _ else _] => destruct b eqn:?; try discriminate
  | context [match add_overflow64 ?a ?b with _ => _ end] =>
      let E := fresh in destruct (add_overflow64 a b) eqn:E; try discriminate;
      apply add_overflow64_spec in E
  end; simplify_eq; breflect; try lia.
Qed.

(** The bytes a request asks for: [l_len] bytes from the start, the bytes
    before it for a negative length, all from there on for length 0; the start
    is relative to the begin of the file, the position, or its end. *)
Definition request_start (fp : file) (fl : flock64) : Z :=
  (if l_whence fl =? 0 then 0 else if l_whence fl =? 1 then f_pos fp else i_size fp) + l_start fl.
Definition requested (fp : file) (fl : flock64) (b : Z) : Prop :=
  0 <= l_whence fl <= 2 /\
  (0 < l_len fl /\ request_start fp fl <= b < request_start fp fl + l_len fl \/
   l_len fl < 0 /\ request_start fp fl + l_len fl <= b < request_start fp fl \/
   l_len fl = 0 /\ request_start fp fl <= b <= INT64_MAX).

Lemma lock_range_bytes fp cmd fl s e b : lock_range fp cmd fl = inl (s, e) -> requested fp fl b <-> s <= b <= e.
Proof.
  unfold lock_range, requested, request_start. intros H.
  repeat match type of H with
  | context [if ?b then _ else _] => destruct b eqn:?; try discriminate
  | context [match add_overflow64 ?a ?b with _ => _ end] =>
      let E := fresh in destruct (add_overflow64 a b) eqn:E; try discriminate;
      apply add_overflow64_spec in E
  end; simplify_eq; breflect; lia.
Qed.

Lemma lock_range_error fp cmd fl : lock_range fp cmd fl <> inr 0.
Proof.
  unfold lock_range. intros H.
  repeat match type of H with
  | context [if ?b then _ else _] => destruct b
  | context [match add_overflow64 ?a ?b with _ => _ end] => destruct (add_overflow64 a b)
  end; discriminate H.
Qed.

Lemma first_conflict_None tgid fp ty s e l :
  first_conflict tgid fp ty s e l = None -> Forall (fun r => conflicts tgid fp ty s e r = false) l.
Proof.
  induction l as [|r l IH]; cbn [first_conflict]; [constructor|].
  destruct (conflicts _ _ _ _ _ _) eqn:E; [done|]. intros. constructor; auto.
Qed.

Lemma first_conflict_Some tgid fp ty s e l r :
  first_conflict tgid fp ty s e l = Some r -> r ∈ l /\ conflicts tgid fp ty s e r = true.
Proof.
  induction l as [|r0 l IH]; cbn [first_conflict]; [done|].
  destruct (conflicts tgid fp ty s e r0) eqn:E.
  - intros [= <-]. split; [left|done].
  - intros H. destruct (IH H). split; [by right|done].
Qed.

Section Apply.
Context (tgid dev : Z) (fp : file) (ty start end_ : Z).
Context (H0 : 0 <= start) (Hse : start <= end_) (Hmax : end_ <= INT64_MAX).
Context (Hty : ty = F_RDLCK \/ ty = F_WRLCK \/ ty = F_UNLCK).

(** A fresh lock is compatible with what [carve] leaves. *)
Lemma fresh_compatible l :
  pairwise l -> Forall (fun r => conflicts tgid fp ty start end_ r = false) l ->
  Forall valid_range l -> ty <> F_UNLCK ->
  Forall (compatible (fresh_range tgid dev fp ty start end_)) (carve tgid fp start end_ l).
Proof.
  intros Hp Hnc Hv Hnu. apply Forall_forall. intros r Hr [Hi1 Hi2] [Ho1 Ho2]. cbn in *.
  pose proof (carve_clear tgid fp start end_ l Hp) as Hc. rewrite Forall_forall in Hc.
  specialize (Hc r Hr).
  pose proof (carve_part tgid fp start end_ l) as Hpart. rewrite Forall_forall in Hpart.
  destruct (Hpart r Hr) as (r0 & Hin & (P1 & P2 & P3 & P4 & P5 & P6)).
  assert (same_file r fp = true) as Hf by (apply same_file_eq; split; congruence).
  destruct (decide (owner r = tgid)) as [Ho|Hno].
  { exfalso. apply Hc. unfold mine. split_and!; done || lia. }
  rewrite Forall_forall in Hnc, Hv. specialize (Hnc r0 Hin). destruct (Hv r0 Hin) as (_ & _ & _ & Ht).
  unfold conflicts, same_file in Hnc. split; [done|].
  unfold F_RDLCK, F_WRLCK, F_UNLCK in *. lia.
Qed.

Lemma apply_lock_ok st :
  locks_ok (ranges st) ->
  (ty <> F_UNLCK -> Forall (fun r => conflicts tgid fp ty start end_ r = false) (ranges st)) ->
  locks_ok (ranges (apply_lock tgid dev fp ty start end_ st)).
Proof.
  intros [Hv Hp] Hnc. unfold apply_lock. cbn.
  destruct (ty =? F_UNLCK) eqn:E; cbn [negb]; breflect.
  - split; [by apply carve_valid|by apply carve_pairwise].
  - split; [apply Forall_cons; split; [|by apply carve_valid]|].
    + unfold valid_range; cbn. unfold F_RDLCK, F_WRLCK, F_UNLCK in *. lia.
    + split; [by apply fresh_compatible; auto|by apply carve_pairwise].
Qed.

(** The bytes of the request change hands, everything else is kept. *)
Lemma apply_lock_locked st fp' own b :
  pairwise (ranges st) ->
  locked fp' own b (ranges (apply_lock tgid dev fp ty start end_ st)) =
  if (own =? tgid) && (lock_identity fp' =? lock_identity fp) && (i_ino fp' =? i_ino fp) &&
     (start <=? b) && (b <=? end_)
  then (if ty =? F_UNLCK then None else Some ty)
  else locked fp' own b (ranges st).
Proof.
  intros Hp. unfold apply_lock. cbn.
  assert (holds fp' own b (fresh_range tgid dev fp ty start end_) =
    (own =? tgid) && (lock_identity fp' =? lock_identity fp) && (i_ino fp' =? i_ino fp) &&
    (start <=? b) && (b <=? end_)) as Hh.
  { unfold holds, same_file; cbn. lia. }
  destruct (_ && (b <=? end_)) eqn:E.
  - assert (locked fp' own b (carve tgid fp start end_ (ranges st)) = None) as Hn.
    { breflect. assert (forall l, locked fp' own b l = locked fp tgid b l) as ->.
      { intros l. induction l as [|r l IH]; cbn; [done|]. rewrite IH.
        unfold holds, same_file.
        replace own with tgid by lia. replace (lock_identity fp') with (lock_identity fp) by lia.
        by replace (i_ino fp') with (i_ino fp) by lia. }
      apply carve_inside; done || lia. }
    destruct (ty =? F_UNLCK); cbn [negb locked]; [done|]. by rewrite Hh.
  - assert (locked fp' own b (carve tgid fp start end_ (ranges st)) =
            locked fp' own b (ranges st)) as Hn by (apply carve_outside; lia).
    destruct (ty =? F_UNLCK); cbn [negb locked]; [done|]. by rewrite Hh.
Qed.
End Apply.

(** ** Whole calls *)

Lemma lock_pass_cases task tgid dev fp cmd fl s e intr st :
  (exists r fl', lock_pass task tgid dev fp cmd fl s e intr st = PReturn r fl' st /\
     (cmd <> F_GETLK64 -> r = - EAGAIN \/ r = - EINTR)) \/
  (lock_pass task tgid dev fp cmd fl s e intr st =
     PReturn 0 fl (apply_lock tgid dev fp (l_type fl) s e st) /\ cmd <> F_GETLK64 /\
   (l_type fl <> F_UNLCK ->
      Forall (fun r => conflicts tgid fp (l_type fl) s e r = false) (ranges st))) \/
  (exists st', lock_pass task tgid dev fp cmd fl s e intr st = PSleep st' /\ cmd <> F_GETLK64).
Proof.
  unfold lock_pass.
  destruct (cmd =? F_GETLK64) eqn:Ec; breflect; [left; do 2 eexists; split; [done|congruence]|].
  destruct (first_conflict _ _ _ _ _ _) eqn:Ef.
  - destruct (l_type fl =? F_UNLCK) eqn:Eu; breflect; [right; left; split_and!; [done..|congruence]|].
    destruct (cmd =? F_SETLK64); [left; eauto 10|].
    destruct intr; [left; eauto 10|right; right; eauto].
  - right; left. split_and!; [done..|]. intros _. by apply first_conflict_None.
Qed.

(** The table a successful call updated: the one it was called with, or the
    one it found after its last sleep. *)
Definition in_force (st : lock_state) (ws : list wakeup) (st0 : lock_state) : Prop :=
  st0 = st \/ exists w, w ∈ ws /\ st0 = table_after w.

Lemma lock_loop_cases task tgid dev fp cmd fl s e ws st r fl' st' :
  lock_loop task tgid dev fp cmd fl s e ws st = Some (r, fl', st') ->
  exists st0, in_force st ws st0 /\
    ((st' = st0 /\ (cmd <> F_GETLK64 -> r = - EAGAIN \/ r = - EINTR)) \/
     (r = 0 /\ cmd <> F_GETLK64 /\ st' = apply_lock tgid dev fp (l_type fl) s e st0 /\
      (l_type fl <> F_UNLCK ->
         Forall (fun r => conflicts tgid fp (l_type fl) s e r = false) (ranges st0)))).
Proof.
  revert st. induction ws as [|w ws IH]; intros st; cbn [lock_loop].
  - destruct (lock_pass_cases task tgid dev fp cmd fl s e false st)
      as [(r0 & f0 & -> & Hr)|[(-> & Hc & Hn)|(st1 & -> & Hc)]]; intros [=]; simplify_eq.
    + exists st'. split; [by left|]. left. eauto.
    + exists st. split; [by left|]. right. eauto.
  - destruct (lock_pass_cases task tgid dev fp cmd fl s e (intr_before w) st)
      as [(r0 & f0 & -> & Hr)|[(-> & Hc & Hn)|(st1 & -> & Hc)]].
    + intros [=]; simplify_eq. exists st'. split; [by left|]. left. eauto.
    + intros [=]; simplify_eq. exists st. split; [by left|]. right. eauto.
    + destruct (intr_after w).
      * intros [=]; simplify_eq. exists (table_after w). split; [right; exists w; split; [left|done]|].
        left. auto.
      * intros H. destruct (IH _ H) as (st0 & Hin & Hcase). exists st0. split; [|done].
        destruct Hin as [->|(w' & ? & ->)]; right; [exists w|exists w']; split; (done || by constructor).
Qed.

Lemma in_force_ok st ws st0 :
  in_force st ws st0 -> locks_ok (ranges st) -> Forall (fun w => locks_ok (ranges (table_after w))) ws ->
  locks_ok (ranges st0).
Proof. intros [->|(w & Hw & ->)] H Hws; [done|]. rewrite Forall_forall in Hws. auto. Qed.

(** C23: every call of fs_posix_lock(), whatever its command, arguments and
    sleeps, keeps the lock table consistent: well-formed ranges, one owner's
    locks on a file disjoint, overlapping locks of different owners shared. *)
Theorem fs_posix_lock_ok task tgid used fp cmd fl mem ws st r fl' used' st' :
  locks_ok (ranges st) -> Forall (fun w => locks_ok (ranges (table_after w))) ws ->
  fs_posix_lock task tgid used fp cmd fl mem ws st = Some (r, fl', used', st') ->
  locks_ok (ranges st').
Proof.
  intros Hok Hws. unfold fs_posix_lock.
  destruct (lock_range fp cmd fl) as [[s e]|er] eqn:Er; [|by intros [=]; simplify_eq].
  apply lock_range_ok in Er as (H0 & Hse & Hmax & Hty).
  destruct (negb (cmd =? F_GETLK64) && _); [by intros [=]; simplify_eq|].
  destruct (lock_loop _ _ _ _ _ _ _ _ _ _) as [[[r1 f1] st1]|] eqn:El; [|done].
  intros [=]; simplify_eq.
  apply lock_loop_cases in El as (st0 & Hin & [[-> _]|(_ & _ & -> & Hnc)]);
    pose proof (in_force_ok _ _ _ Hin Hok Hws); [done|].
  by apply apply_lock_ok.
Qed.

(** C24: a lock or unlock request that returns 0 did exactly what was asked,
    byte by byte: on the caller's own locks of that file each byte that was
    asked for, counting [l_len] bytes from the offset [l_start] of the begin,
    the position or the end of the file, has the requested type (none for
    F_UNLCK), and every other byte, file and process holds what it held
    when the call took effect. *)
Theorem fs_posix_lock_bytes task tgid used fp cmd fl mem ws st fl' used' st' :
  locks_ok (ranges st) -> Forall (fun w => locks_ok (ranges (table_after w))) ws -> cmd <> F_GETLK64 ->
  fs_posix_lock task tgid used fp cmd fl mem ws st = Some (0, fl', used', st') ->
  used' = true /\ 0 <= l_whence fl <= 2 /\
  exists st0, in_force st ws st0 /\ forall fp' own b,
    let mine := own = tgid /\ lock_identity fp' = lock_identity fp /\ i_ino fp' = i_ino fp /\ requested fp fl b in
    (mine -> locked fp' own b (ranges st') = if l_type fl =? F_UNLCK then None else Some (l_type fl)) /\
    (~ mine -> locked fp' own b (ranges st') = locked fp' own b (ranges st0)).
Proof.
  intros Hok Hws Hc. unfold fs_posix_lock.
  destruct (lock_range fp cmd fl) as [[s e]|er] eqn:Hr; [|intros [= -> _ _ _]; destruct (lock_range_error fp cmd fl Hr)].
  pose proof (fun b => lock_range_bytes fp cmd fl s e b Hr) as Hreq.
  apply lock_range_ok in Hr as (H0 & Hse & Hmax & Hty).
  rewrite (proj2 (Z.eqb_neq _ _) Hc). cbn [negb andb].
  destruct (fst mem && snd mem); cbn [negb]; [|done].
  destruct (lock_loop _ _ _ _ _ _ _ _ _ _) as [[[r1 f1] st1]|] eqn:El; [|done].
  intros [=]; simplify_eq. split; [done|]. split; [apply (proj2 (Hreq s)); lia|].
  apply lock_loop_cases in El as (st0 & Hin & [[_ Hbad]|(_ & _ & -> & Hnc)]).
  { destruct (Hbad Hc); discriminate. }
  exists st0. split; [done|]. intros fp' own b. cbv zeta. rewrite Hreq.
  rewrite apply_lock_locked by (done || by apply (in_force_ok _ _ _ Hin Hok Hws)).
  rewrite <- !Z.eqb_eq, <- !Z.leb_le, <- !andb_true_iff, !andb_assoc. split; [intros ->; done|].
  intros Hn%not_true_is_false. rewrite Hn. done.
Qed.

(** ** Conflicts, byte by byte *)

Lemma holds_spec fp own b r :
  holds fp own b r = true <->
  owner r = own /\ identity r = lock_identity fp /\ r_ino r = i_ino fp /\ r_start r <= b <= r_end r.
Proof. unfold holds, same_file. rewrite !andb_true_iff, !Z.eqb_eq, !Z.leb_le. tauto. Qed.

Lemma locked_In fp own b l t :
  locked fp own b l = Some t -> exists r, r ∈ l /\ holds fp own b r = true /\ r_type r = t.
Proof.
  induction l as [|r l IH]; cbn [locked]; [done|]. destruct (holds fp own b r) eqn:E.
  - intros [= <-]. exists r. split; [left|done].
  - intros H. destruct (IH H) as (r' & ? & ?). exists r'. split; [by right|done].
Qed.

Lemma In_locked fp own b l r :
  pairwise l -> r ∈ l -> holds fp own b r = true -> locked fp own b l = Some (r_type r).
Proof.
  induction l as [|r0 l IH]; cbn [locked pairwise]; [intros _ []%not_elem_of_nil|].
  intros [Hc Hp] Hin Hh. destruct (holds fp own b r0) eqn:E0.
  - apply elem_of_cons in Hin as [->|Hin]; [done|].
    exfalso. rewrite Forall_forall in Hc. specialize (Hc r Hin).
    apply holds_spec in Hh, E0. destruct Hc as [Hne _]; [split; intuition congruence|split; lia|].
    intuition congruence.
  - apply elem_of_cons in Hin as [->|Hin]; [congruence|auto].
Qed.

Lemma pairwise_In l r s : pairwise l -> r ∈ l -> s ∈ l -> r = s \/ compatible r s.
Proof.
  induction l as [|x l IH]; cbn [pairwise]; [intros _ []%not_elem_of_nil|].
  intros [Hc Hp] Hr Hs. rewrite Forall_forall in Hc.
  apply elem_of_cons in Hr as [->|Hr], Hs as [->|Hs]; auto using compatible_sym.
Qed.

(** In a consistent table a byte locked for writing by one process is
    not locked at all by any other process. *)
Theorem write_lock_exclusive fp l a c b :
  locks_ok l -> locked fp a b l = Some F_WRLCK -> locked fp c b l <> None -> a = c.
Proof.
  intros [_ Hp] Ha Hc. destruct (locked fp c b l) as [t|] eqn:Et; [clear Hc|done].
  apply locked_In in Ha as (r & Hr & Hhr & Htr). apply locked_In in Et as (s & Hs & Hhs & _).
  apply holds_spec in Hhr as (? & ? & ? & ?), Hhs as (? & ? & ? & ?).
  destruct (pairwise_In l r s Hp Hr Hs) as [->|Hcomp]; [congruence|].
  destruct Hcomp as (_ & Hrd & _); [split; congruence|split; lia|].
  rewrite Htr in Hrd. discriminate.
Qed.

(** Another process stands in the way of a request. *)
Definition blocked (tgid : Z) (fp : file) (ty s e : Z) (l : list posix_range) : Prop :=
  exists own b t, own <> tgid /\ s <= b <= e /\ locked fp own b l = Some t /\
    (ty = F_WRLCK \/ t = F_WRLCK).

Lemma conflict_blocked tgid fp ty s e l :
  locks_ok l -> s <= e ->
  (exists r, r ∈ l /\ conflicts tgid fp ty s e r = true) <-> blocked tgid fp ty s e l.
Proof.
  intros [Hv Hp] Hse. split.
  - intros (r & Hin & Hc). unfold conflicts, same_file in Hc.
    rewrite Forall_forall in Hv. destruct (Hv r Hin) as (V1 & V2 & _).
    exists (owner r), (Z.max s (r_start r)), (r_type r). split_and!; [lia..| |lia].
    apply In_locked; [done..|]. apply holds_spec. lia.
  - intros (own & b & t & Hne & Hb & Hl & Hw). apply locked_In in Hl as (r & Hin & Hh & Ht).
    exists r. split; [done|]. apply holds_spec in Hh. unfold conflicts, same_file. lia.
Qed.

Lemma first_conflict_blocked tgid fp ty s e l :
  locks_ok l -> s <= e -> first_conflict tgid fp ty s e l <> None <-> blocked tgid fp ty s e l.
Proof.
  intros Hok Hse. rewrite <- (conflict_blocked tgid fp ty s e l Hok Hse). split.
  - destruct (first_conflict _ _ _ _ _ _) as [r|] eqn:E; [|done]. intros _.
    apply first_conflict_Some in E. eauto.
  - intros (r & Hin & Hc) E. apply first_conflict_None in E. rewrite Forall_forall in E.
    specialize (E r Hin). congruence.
Qed.

(** F_SETLK64 never sleeps; it fails with -EAGAIN exactly when another
    process holds a conflicting lock on some byte of the range, and then
    leaves the table alone. *)
Theorem setlk_exact task tgid used fp fl ws st s e :
  locks_ok (ranges st) -> lock_range fp F_SETLK64 fl = inl (s, e) -> l_type fl <> F_UNLCK ->
  exists r st', fs_posix_lock task tgid used fp F_SETLK64 fl (true, true) ws st = Some (r, fl, true, st') /\
    (r = - EAGAIN /\ st' = st /\ blocked tgid fp (l_type fl) s e (ranges st) \/
     r = 0 /\ ~ blocked tgid fp (l_type fl) s e (ranges st)).
Proof.
  intros Hok Hr Hu. unfold fs_posix_lock. rewrite Hr.
  apply lock_range_ok in Hr as (H0 & Hse & Hmax & Hty).
  pose proof (first_conflict_blocked tgid fp (l_type fl) s e (ranges st) Hok Hse) as Hb.
  destruct ws; cbn -[apply_lock]; unfold lock_pass; cbn -[apply_lock];
    (destruct (first_conflict _ _ _ _ _ _); cbn -[apply_lock];
     [rewrite (proj2 (Z.eqb_neq _ _) Hu); cbn -[apply_lock]|]);
    do 2 eexists; (split; [reflexivity|]); [left|right|left|right]; rewrite <- Hb; intuition congruence.
Qed.

(** The answer of F_GETLK64, read back as a request, names the lock's bytes. *)
Lemma getlk_answer_range fp fl r :
  valid_range r -> lock_range fp F_GETLK64 (getlk_answer fl (Some r)) = inl (r_start r, r_end r).
Proof.
  intros (V1 & V2 & V3 & V4). unfold lock_range, getlk_answer; cbn [l_type l_whence l_start l_len].
  assert (INT64_MAX = 2 ^ 63 - 1) as Hm by reflexivity.
  assert (INT64_MIN = - 2 ^ 63) as Hm' by reflexivity.
  assert (negb (r_type r =? F_RDLCK) && negb (r_type r =? F_WRLCK) && negb (r_type r =? F_UNLCK) = false
          /\ (r_type r =? F_UNLCK) = false) as [-> ->].
  { destruct V4 as [-> | ->]; done. }
  cbn [F_GETLK64 Z.eqb Pos.eqb negb andb]. unfold add_overflow64.
  rewrite !Z.add_0_l.
  rewrite (proj2 (Z.leb_le INT64_MIN (r_start r))), (proj2 (Z.leb_le (r_start r) INT64_MAX)) by lia.
  cbn [andb]. destruct (Z.eqb_spec (r_end r) INT64_MAX) as [->|Hne].
  - cbn [Z.ltb Z.compare]. by rewrite (proj2 (Z.ltb_ge (r_start r) 0)) by lia.
  - rewrite (proj2 (Z.ltb_lt 0 (r_end r - r_start r + 1))) by lia.
    replace (r_start r + (r_end r - r_start r + 1 - 1)) with (r_end r) by lia.
    rewrite (proj2 (Z.leb_le INT64_MIN (r_end r))), (proj2 (Z.leb_le (r_end r) INT64_MAX)) by lia.
    cbn [andb]. by rewrite (proj2 (Z.ltb_ge (r_start r) 0)) by lia.
Qed.

(** F_GETLK64 changes nothing and tells the truth: it answers F_UNLCK
    exactly when no other process blocks the request, and otherwise describes
    a lock that another process really holds on every byte it names. *)
Theorem getlk_truthful task tgid used fp fl mem ws st s e :
  locks_ok (ranges st) -> lock_range fp F_GETLK64 fl = inl (s, e) ->
  exists fl', fs_posix_lock task tgid used fp F_GETLK64 fl mem ws st = Some (0, fl', used, st) /\
    (l_type fl' = F_UNLCK /\ ~ blocked tgid fp (l_type fl) s e (ranges st) \/
     blocked tgid fp (l_type fl) s e (ranges st) /\ l_pid fl' <> tgid /\
     exists s' e', lock_range fp F_GETLK64 fl' = inl (s', e') /\ s' <= e /\ s <= e' /\
       forall b, s' <= b <= e' -> locked fp (l_pid fl') b (ranges st) = Some (l_type fl')).
Proof.
  intros Hok Hr. unfold fs_posix_lock at 1. rewrite Hr.
  apply lock_range_ok in Hr as (H0 & Hse & Hmax & Hty).
  pose proof (first_conflict_blocked tgid fp (l_type fl) s e (ranges st) Hok Hse) as Hb.
  destruct (first_conflict tgid fp (l_type fl) s e (ranges st)) as [r|] eqn:Ef.
  - exists (getlk_answer fl (Some r)). split.
    { destruct ws; cbn -[getlk_answer]; unfold lock_pass; cbn -[getlk_answer]; by rewrite Ef. }
    right. rewrite <- Hb. split; [done|].
    apply first_conflict_Some in Ef as [Hin Hc]. destruct Hok as [Hv Hp].
    rewrite Forall_forall in Hv. destruct (Hv r Hin) as (V1 & V2 & V3 & V4).
    unfold conflicts, same_file in Hc. split; [cbn; lia|].
    exists (r_start r), (r_end r). split_and!; [|lia..|].
    + apply getlk_answer_range; unfold valid_range; auto.
    + intros b Hbb. cbn [getlk_answer l_pid l_type]. apply In_locked; [done..|].
      apply holds_spec. lia.
  - exists (getlk_answer fl None). split.
    { destruct ws; cbn -[getlk_answer]; unfold lock_pass; cbn -[getlk_answer]; by rewrite Ef. }
    left. rewrite <- Hb. intuition congruence.
Qed.

(** ** Release on close and exit *)

(** posix_locks_used is false only while the process owns no lock. *)
Definition used_ok (tgid : Z) (used : bool) (l : list posix_range) : Prop :=
  used = false -> Forall (fun r => owner r <> tgid) l.

Lemma release_scan_spec fp own l g :
  release_scan fp own l g =
  (filter (fun r => released fp own r = false) l,
   rev (filter (fun r => released fp own r = true) l) ++ g).
Proof.
  revert g. induction l as [|r l IH]; intros g; cbn [release_scan]; [done|].
  destruct (released fp own r) eqn:E.
  - rewrite IH, filter_cons_False, filter_cons_True by congruence. cbn. by rewrite <- app_assoc.
  - rewrite IH, filter_cons_True, filter_cons_False by congruence. done.
Qed.

Lemma locked_filter fp' own' b (P : posix_range -> Prop) `{!forall r, Decision (P r)} l :
  (forall r, r ∈ l -> holds fp' own' b r = true -> P r) ->
  locked fp' own' b (filter P l) = locked fp' own' b l.
Proof.
  induction l as [|r l IH]; intros HP; [done|].
  rewrite filter_cons. case_decide as Hd; cbn [locked].
  - rewrite IH; [done|]. intros; apply HP; [by right|done].
  - destruct (holds fp' own' b r) eqn:E; [exfalso; apply Hd, HP; [left|done]|].
    apply IH. intros; apply HP; [by right|done].
Qed.

Lemma pairwise_filter (P : posix_range -> Prop) `{!forall r, Decision (P r)} l :
  pairwise l -> pairwise (filter P l).
Proof.
  induction l as [|r l IH]; [done|]. intros [Hc Hp]. rewrite filter_cons.
  case_decide; cbn [pairwise]; [|auto]. split; [|auto].
  apply Forall_forall. intros s Hs. apply list_elem_of_filter in Hs as [_ Hs].
  rewrite Forall_forall in Hc. auto.
Qed.

Lemma release_ranges fp own group st :
  (forall tgid used, group = Some (tgid, used) -> used_ok tgid used (ranges st)) ->
  ranges (fs_posix_lock_release fp own group st) =
  filter (fun r => released fp own r = false) (ranges st).
Proof.
  intros Hu. unfold fs_posix_lock_release.
  destruct (match group with Some (tgid, used) => (tgid =? own) && negb used | None => false end) eqn:E.
  - destruct group as [[tgid used]|]; [|done]. breflect. subst tgid.
    specialize (Hu own used eq_refl ltac:(done)).
    induction Hu as [|r l Hr Hl IH]; [done|]. rewrite filter_cons_True; [by f_equal|].
    unfold released. by rewrite (proj2 (Z.eqb_neq _ _) Hr).
  - rewrite release_scan_spec. by destruct (_ ++ _).
Qed.

(** Closing a file ([Some fp]) or exiting ([None]) drops every lock the
    process holds there and no other lock, keeps the table consistent, and
    the shortcut through posix_locks_used never skips a lock. *)
Theorem fs_posix_lock_release_bytes fp own group st fp' own' b :
  locks_ok (ranges st) ->
  (forall tgid used, group = Some (tgid, used) -> used_ok tgid used (ranges st)) ->
  let st' := fs_posix_lock_release fp own group st in
  locks_ok (ranges st') /\
  locked fp' own' b (ranges st') =
  if (own' =? own) && match fp with
                      | None => true
                      | Some f => (lock_identity fp' =? lock_identity f) && (i_ino fp' =? i_ino f)
                      end
  then None else locked fp' own' b (ranges st).
Proof.
  intros [Hv Hp] Hu st'. subst st'. rewrite release_ranges by done. split.
  { split; [|by apply pairwise_filter]. apply Forall_forall. intros r Hr.
    apply list_elem_of_filter in Hr as [_ Hr]. rewrite Forall_forall in Hv. auto. }
  assert (forall r, holds fp' own' b r = true -> released fp own r =
    (own' =? own) && match fp with None => true
      | Some f => (lock_identity fp' =? lock_identity f) && (i_ino fp' =? i_ino f) end) as Hrel.
  { intros r Hh%holds_spec. unfold released, same_file. destruct fp; lia. }
  destruct ((own' =? own) && _) eqn:E.
  - apply locked_none. intros r Hr. apply list_elem_of_filter in Hr as [Hr _].
    destruct (holds fp' own' b r) eqn:Eh; [|done]. rewrite Hrel in Hr; congruence.
  - apply locked_filter. intros r _ Hh. by rewrite Hrel.
Qed.

(** Releasing a lock lets every sleeping process look again: when
    something was dropped, the whole wait list moves to the ready queue, last
    waiter first. *)
Theorem fs_posix_lock_release_wakes fp own group st :
  ranges (fs_posix_lock_release fp own group st) <> ranges st ->
  range_wait (fs_posix_lock_release fp own group st) = [] /\
  ready (fs_posix_lock_release fp own group st) = ready st ++ rev (range_wait st).
Proof.
  unfold fs_posix_lock_release. case_if; [done|]. rewrite release_scan_spec, app_nil_r.
  destruct (rev _) as [|g gs] eqn:Eg; cbn; [|auto].
  intros Hne. exfalso. apply Hne. clear Hne.
  assert (filter (fun r => released fp own r = true) (ranges st) = []) as Hn.
  { apply (f_equal (@rev _)) in Eg. by rewrite rev_involutive in Eg. }
  clear Eg. induction (ranges st) as [|r l IH]; [done|]. rewrite filter_cons in Hn |- *.
  case_decide; [done|]. rewrite decide_True by (by destruct (released fp own r)).
  f_equal. auto.
Qed.

(** The flag the shortcut relies on is maintained by locking. *)
Lemma fs_posix_lock_used task tgid used fp cmd fl mem ws st r fl' used' st' :
  used_ok tgid used (ranges st) ->
  fs_posix_lock task tgid used fp cmd fl mem ws st = Some (r, fl', used', st') ->
  used_ok tgid used' (ranges st').
Proof.
  intros Hu. unfold fs_posix_lock.
  destruct (lock_range fp cmd fl) as [[s e]|er] eqn:Er; [|by intros [=]; simplify_eq].
  destruct (cmd =? F_GETLK64) eqn:Ec; cbn [negb andb].
  - destruct ws; cbn; unfold lock_pass; rewrite Ec; cbn; intros [=]; simplify_eq; done.
  - case_if; [by intros [=]; simplify_eq|].
    destruct (lock_loop _ _ _ _ _ _ _ _ _ _) as [[[r1 f1] st1]|]; intros [=]; simplify_eq; done.
Qed.

(** ** A concrete table *)

Definition demo_file : file := File 100 7 42 5000 0 2 (Some 3) 0 0 0 0.
Definition demo_table : lock_state :=
  LState [Range 7 42 10 3 F_WRLCK 0 99; Range 7 42 20 3 F_RDLCK 200 299; Range 7 42 30 3 F_RDLCK 250 399]
         [] [77; 88] [].
Definition demo_request (ty start len : Z) : flock64 := Flock ty 0 start len 0.

Lemma demo_table_ok : locks_ok (ranges demo_table).
Proof.
  split.
  - repeat (apply Forall_cons_2; [unfold valid_range; cbn; unfold INT64_MAX, F_RDLCK, F_WRLCK; lia|]).
    apply Forall_nil_2.
  - cbn. split_and!; [..|done].
    all: repeat (apply Forall_cons_2; [intros _ [? ?]; cbn in *; (lia || split_and!; lia || done)|]).
    all: apply Forall_nil_2.
Qed.

Lemma fs_posix_lock_ok_witness :
  exists st', fs_posix_lock 1 20 true demo_file F_SETLK64 (demo_request F_UNLCK 220 10) (true, true) []
                demo_table = Some (0, demo_request F_UNLCK 220 10, true, st') /\ locks_ok (ranges st').
Proof.
  eexists. split; [reflexivity|].
  apply (fs_posix_lock_ok 1 20 true demo_file F_SETLK64 (demo_request F_UNLCK 220 10) (true, true) []
           demo_table 0 (demo_request F_UNLCK 220 10) true).
  - exact demo_table_ok.
  - constructor.
  - reflexivity.
Defined.

Lemma fs_posix_lock_bytes_witness :
  exists st', fs_posix_lock 1 20 true demo_file F_SETLK64 (demo_request F_UNLCK 220 10) (true, true) []
                demo_table = Some (0, demo_request F_UNLCK 220 10, true, st') /\
    locked demo_file 20 229 (ranges st') = None.
Proof.
  eexists. split; [reflexivity|].
  destruct (fs_posix_lock_bytes 1 20 true demo_file F_SETLK64 (demo_request F_UNLCK 220 10) (true, true) []
           demo_table (demo_request F_UNLCK 220 10) true _ demo_table_ok (Forall_nil_2 _) ltac:(discriminate) eq_refl)
    as (_ & _ & st0 & _ & H).
  apply (H demo_file 20 229). split_and!; [reflexivity | reflexivity | reflexivity |].
  unfold requested, request_start. cbn. lia.
Defined.

Lemma write_lock_exclusive_witness : 10 = 10.
Proof.
  apply (write_lock_exclusive demo_file (ranges demo_table) 10 10 50); [exact demo_table_ok|..].
  - reflexivity.
  - vm_compute. discriminate.
Defined.

Lemma setlk_exact_witness :
  exists r st', fs_posix_lock 1 20 true demo_file F_SETLK64 (demo_request F_WRLCK 0 10) (true, true) []
                  demo_table = Some (r, demo_request F_WRLCK 0 10, true, st') /\
    (r = - EAGAIN /\ st' = demo_table /\ blocked 20 demo_file F_WRLCK 0 9 (ranges demo_table) \/
     r = 0 /\ ~ blocked 20 demo_file F_WRLCK 0 9 (ranges demo_table)).
Proof.
  apply (setlk_exact 1 20 true demo_file (demo_request F_WRLCK 0 10) [] demo_table 0 9);
    [exact demo_table_ok|reflexivity|discriminate].
Defined.

Lemma getlk_truthful_witness :
  exists fl', fs_posix_lock 1 20 true demo_file F_GETLK64 (demo_request F_WRLCK 0 10) (true, true) []
                demo_table = Some (0, fl', true, demo_table) /\
    (l_type fl' = F_UNLCK /\ ~ blocked 20 demo_file F_WRLCK 0 9 (ranges demo_table) \/
     blocked 20 demo_file F_WRLCK 0 9 (ranges demo_table) /\ l_pid fl' <> 20 /\
    exists s' e', lock_range demo_file F_GETLK64 fl' = inl (s', e') /\ s' <= 9 /\ 0 <= e' /\
    forall b, s' <= b <= e' -> locked demo_file (l_pid fl') b (ranges demo_table) = Some (l_type fl')).
Proof.
  apply (getlk_truthful 1 20 true demo_file (demo_request F_WRLCK 0 10) (true, true) [] demo_table 0 9);
    [exact demo_table_ok|reflexivity].
Defined.

Lemma fs_posix_lock_release_bytes_witness :
  locked demo_file 20 260 (ranges (fs_posix_lock_release (Some demo_file) 20 (Some (20, true)) demo_table)) = None.
Proof.
  apply (fs_posix_lock_release_bytes (Some demo_file) 20 (Some (20, true)) demo_table demo_file 20 260).
  - exact demo_table_ok.
  - intros tgid used [=]; subst. discriminate.
Defined.

Lemma fs_posix_lock_release_wakes_witness :
  range_wait (fs_posix_lock_release None 20 None demo_table) = [] /\
    ready (fs_posix_lock_release None 20 None demo_table) = ready demo_table ++ rev (range_wait demo_table).
Proof. apply (fs_posix_lock_release_wakes None 20 None demo_table). vm_compute. discriminate. Defined.
