(* ===== verification/CycleBuf.v ===== *)
(** * The ring buffer behind pipes, terminals and event queues

    Model of src/lib/impl/cyclebuf.c.  A critical section under [b->lock]
    is one transition of the buffer; the wake-ups that follow it are
    recorded, in order, in [signals].  A cond_t is its lock word: 0 when the
    event has fired, 1 when it has been consumed or re-armed.  A call that
    may sleep takes the list of the wake-ups it receives, each with the
    result of cond_wait() and the buffer found then. *)

From S2P Require Import Prelude.
Open Scope mos_scope.

Inductive signal :=
| NotifyRead   (** cond_notify(&b->read_event) *)
| NotifyWrite  (** cond_notify(&b->write_event) *)
| PollRead     (** cyb_notify_poll(b, 1) *)
| PollWrite.   (** cyb_notify_poll(b, 0) *)

Record cy_buf := CyBuf {
  blen : Z; write_idx : Z; read_idx : Z;
  read_event : Z; write_event : Z;
  reader_sequence : Z; writer_sequence : Z;
  writer_count : Z; reader_count : Z; ref_count : Z;
  buf : list Z; buf_size : Z;
  signals : list signal }.

(** Field updates. *)
Definition set_span (b : cy_buf) (l w r : Z) (d : list Z) : cy_buf :=
  CyBuf l w r (read_event b) (write_event b) (reader_sequence b) (writer_sequence b)
    (writer_count b) (reader_count b) (ref_count b) d (buf_size b) (signals b).
Definition set_events (b : cy_buf) (re we : Z) (s : list signal) : cy_buf :=
  CyBuf (blen b) (write_idx b) (read_idx b) re we (reader_sequence b) (writer_sequence b)
    (writer_count b) (reader_count b) (ref_count b) (buf b) (buf_size b) s.
Definition set_ends (b : cy_buf) (rs ws wc rc ref : Z) : cy_buf :=
  CyBuf (blen b) (write_idx b) (read_idx b) (read_event b) (write_event b) rs ws
    wc rc ref (buf b) (buf_size b) (signals b).

Definition cond_reset_read (b : cy_buf) : cy_buf := set_events b 1 (write_event b) (signals b).
Definition cond_reset_write (b : cy_buf) : cy_buf := set_events b (read_event b) 1 (signals b).
Definition cond_notify_read (b : cy_buf) : cy_buf :=
  set_events b 0 (write_event b) (signals b ++ [NotifyRead]).
Definition cond_notify_write (b : cy_buf) : cy_buf :=
  set_events b (read_event b) 0 (signals b ++ [NotifyWrite]).
Definition cyb_notify_poll (b : cy_buf) (read : bool) : cy_buf :=
  set_events b (read_event b) (write_event b) (signals b ++ [if read then PollRead else PollWrite]).

(** ** Creation and destruction *)

Definition DEFAULT_BUF_PAGES : Z := 1.

(** [mem] is the content of the pages vm_alloc() returns. *)
Definition cyb_create (pages : Z) (mem : list Z) : cy_buf :=
  let pages := if pages =? 0 then DEFAULT_BUF_PAGES else pages in
  CyBuf 0 0 0 1 0 0 0 1 1 2 mem (u32 (pages * PAGE_SIZE)) [].

Definition cyb_create_named (pages : Z) (mem : list Z) : cy_buf :=
  let pages := if pages =? 0 then DEFAULT_BUF_PAGES else pages in
  CyBuf 0 0 0 1 0 0 0 0 0 1 mem (u32 (pages * PAGE_SIZE)) [].

(** The result says whether the buffer was freed. *)
Definition cyb_destroy (b : cy_buf) : cy_buf * bool :=
  let ref := ref_count b -u 1 in
  (set_ends b (reader_sequence b) (writer_sequence b) (writer_count b) (reader_count b) ref,
   ref =? 0).

(** ** The two copies *)

Definition cyb_copy_in (b : cy_buf) (src : list Z) : cy_buf :=
  let len := Z.of_nat (length src) in
  let first := buf_size b -u write_idx b in
  let first := if len <? first then len else first in
  let d := splice (buf b) (Z.to_nat (write_idx b)) (take (Z.to_nat first) src) in
  let d := if first <? len then splice d 0 (drop (Z.to_nat first) src) else d in
  let w := write_idx b +u len in
  let w := if buf_size b <=? w then w -u buf_size b else w in
  set_span b (blen b +u len) w (read_idx b) d.

(** The bytes copied to [dst], and the buffer. *)
Definition cyb_copy_out (b : cy_buf) (len : Z) : list Z * cy_buf :=
  let first := buf_size b -u read_idx b in
  let first := if len <? first then len else first in
  let dst := take (Z.to_nat first) (drop (Z.to_nat (read_idx b)) (buf b)) in
  let dst := if first <? len then dst ++ take (Z.to_nat (len -u first)) (buf b) else dst in
  let r := read_idx b +u len in
  let r := if buf_size b <=? r then r -u buf_size b else r in
  (dst, set_span b (blen b -u len) (write_idx b) r (buf b)).

(** ** Writing *)

(** One wake-up of a sleeping call: the result of cond_wait() and the
    buffer as the other tasks left it. *)
Record wakeup := Wakeup { wait_ret : Z; buf_after : cy_buf }.

(** Results of calls that may sleep: [Asleep] when the wake-ups are used up. *)
Inductive call (A : Type) :=
| Returned (ret : Z) (out : A) (b : cy_buf)
| Asleep (out : A) (b : cy_buf).
Arguments Returned {A}.
Arguments Asleep {A}.

(** The critical section of the write loop and the wake-ups after it:
    the buffer and the number of bytes moved. *)
Definition put_section (b : cy_buf) (data : list Z) (written : Z) : cy_buf * Z :=
  let len := Z.of_nat (length data) in
  let notify := blen b =? 0 in
  let i := buf_size b -u blen b in
  let i := if (len -u written) <? i then len -u written else i in
  let b1 := if nz i
            then cyb_copy_in b (take (Z.to_nat i) (drop (Z.to_nat written) data)) else b in
  let b2 := if blen b1 =? buf_size b1 then cond_reset_write b1 else b1 in
  let b3 := if notify && (0 <? i) then cond_notify_read b2 else b2 in
  let b4 := if 0 <? i then cyb_notify_poll b3 true else b3 in
  (b4, i).

Definition cyb_reader_count (b : cy_buf) : Z := reader_count b.
Definition cyb_writer_count (b : cy_buf) : Z := writer_count b.

Fixpoint put_loop (data : list Z) (written : Z) (blocking : bool) (b : cy_buf) (ws : list wakeup)
  : call Z :=
  let len := Z.of_nat (length data) in
  let '(b', i) := put_section b data written in
  let written' := written +u i in
  if negb blocking || (written' =? len) then Returned (s32 written') written' b'
  else if cyb_reader_count b' =? 0
  then Returned (if 0 <? written' then s32 written' else - EPIPE) written' b'
  else match ws with
       | [] => Asleep written' b'
       | w :: ws' =>
           if wait_ret w <? 0
           then Returned (if 0 <? written' then s32 written' else - EINTR) written' (buf_after w)
           else if written' <? len then put_loop data written' blocking (buf_after w) ws'
           else Returned (s32 written') written' (buf_after w)
       end.

(** The second component of the result is the number of bytes moved. *)
Definition cyb_putbuf (b : cy_buf) (data : list Z) (blocking : bool) (ws : list wakeup) : call Z :=
  if Z.of_nat (length data) =? 0 then Returned 0 0 b else put_loop data 0 blocking b ws.

Definition cyb_put_record (b : cy_buf) (data : list Z) : Z * cy_buf :=
  let len := Z.of_nat (length data) in
  if len =? 0 then (0, b)
  else if (buf_size b -u blen b) <? len then (0, b)
  else
    let notify := blen b =? 0 in
    let b1 := cyb_copy_in b data in
    let b2 := if blen b1 =? buf_size b1 then cond_reset_write b1 else b1 in
    let b3 := if notify then cond_notify_read b2 else b2 in
    (s32 len, cyb_notify_poll b3 true).

(** ** Reading *)

(** From the point where the loop finds bytes, with the lock held. *)
Definition get_section (b : cy_buf) (len : Z) : Z * list Z * cy_buf :=
  let was_full := blen b =? buf_size b in
  let n := if blen b <? len then blen b else len in
  let '(dst, b1) := cyb_copy_out b n in
  let b2 := if blen b1 =? 0 then cond_reset_read b1 else b1 in
  let b3 := if was_full then cyb_notify_poll (cond_notify_write b2) false else b2 in
  (n, dst, b3).

Fixpoint get_loop (len : Z) (blocking : bool) (b : cy_buf) (ws : list wakeup) : call (list Z) :=
  if 0 <? blen b then
    let '(n, dst, b') := get_section b len in Returned n dst b'
  else if writer_count b =? 0 then Returned 0 [] b
  else if negb blocking then Returned 0 [] b
  else match ws with
       | [] => Asleep [] b
       | w :: ws' =>
           if wait_ret w <? 0 then
             if writer_count (buf_after w) =? 0
             then get_loop len blocking (buf_after w) ws'
             else Returned (-1) [] (buf_after w)
           else get_loop len blocking (buf_after w) ws'
       end.

(** [len] is an [int]. *)
Definition cyb_getbuf (b : cy_buf) (len : Z) (blocking : bool) (ws : list wakeup) : call (list Z) :=
  if len <=? 0 then Returned 0 [] b else get_loop len blocking b ws.

(** ** Queries, flush, open and close *)

Definition cyb_isempty (b : cy_buf) : bool := blen b =? 0.
Definition cyb_isfull (b : cy_buf) : bool := blen b =? buf_size b.
Definition cyb_get_buf_len (b : cy_buf) : Z := s32 (blen b).

Definition cyb_flush (b : cy_buf) : cy_buf :=
  let was_full := blen b =? buf_size b in
  let b1 := cond_reset_read (set_span b 0 (write_idx b) (write_idx b) (buf b)) in
  if was_full then cyb_notify_poll (cond_notify_write b1) false else b1.

Definition cyb_writer_open (b : cy_buf) : cy_buf :=
  cyb_notify_poll
    (set_ends b (reader_sequence b) (writer_sequence b +u 1) (writer_count b + 1)
       (reader_count b) (ref_count b +u 1)) true.

Definition cyb_reader_open (b : cy_buf) : cy_buf :=
  cyb_notify_poll
    (set_ends b (reader_sequence b +u 1) (writer_sequence b) (writer_count b)
       (reader_count b + 1) (ref_count b +u 1)) false.

Definition cyb_writer_close (b : cy_buf) : cy_buf * bool :=
  let b1 := set_ends b (reader_sequence b) (writer_sequence b) (writer_count b - 1)
              (reader_count b) (ref_count b) in
  cyb_destroy (cyb_notify_poll (cond_notify_read b1) true).

Definition cyb_reader_close (b : cy_buf) : cy_buf * bool :=
  let b1 := set_ends b (reader_sequence b) (writer_sequence b) (writer_count b)
              (reader_count b - 1) (ref_count b) in
  cyb_destroy (cyb_notify_poll (cond_notify_write b1) false).

Definition cyb_open_sequence (b : cy_buf) (writer : bool) : Z :=
  if writer then writer_sequence b else reader_sequence b.
