(* ===== verification/CycleBufProof.v ===== *)
(** * The ring buffer is a bounded FIFO

    The abstract state of a buffer is the list of its unread bytes.  Writes
    append to it, reads take from its front, and any interleaving of reads
    and writes by any number of tasks delivers the written bytes in order
    without loss or repetition. *)

From S2P Require Import Prelude CycleBuf.
Open Scope mos_scope.

(** ** Representation *)

Definition wrap (size x : Z) : Z := if x <? size then x else x - size.

Definition cell (b : cy_buf) (i : Z) : Z :=
  default 0 (buf b !! Z.to_nat (wrap (buf_size b) (read_idx b + i))).

(** The unread bytes, oldest first. *)
Definition contents (b : cy_buf) : list Z :=
  (fun i => cell b (Z.of_nat i)) <$> seq 0 (Z.to_nat (blen b)).

Record cyb_wf (b : cy_buf) : Prop := {
  wf_size : 0 < buf_size b < 2 ^ 31;
  wf_buf : Z.of_nat (length (buf b)) = buf_size b;
  wf_read : 0 <= read_idx b < buf_size b;
  wf_len : 0 <= blen b <= buf_size b;
  wf_write : write_idx b = wrap (buf_size b) (read_idx b + blen b) }.

Lemma wrap_range size x : 0 <= x < 2 * size -> 0 <= wrap size x < size.
Proof. unfold wrap; zcases; lia. Qed.

Lemma contents_length b : length (contents b) = Z.to_nat (blen b).
Proof. unfold contents; rewrite length_fmap, length_seq; done. Qed.

Lemma contents_lookup b i :
  (i < Z.to_nat (blen b))%nat -> contents b !! i = Some (cell b (Z.of_nat i)).
Proof. intros; unfold contents; rewrite list_lookup_fmap, lookup_seq_lt by lia; done. Qed.

(** Two buffers with the same span have the same contents. *)
Lemma contents_ext b b' :
  blen b = blen b' -> read_idx b = read_idx b' -> buf b = buf b' -> buf_size b = buf_size b' ->
  contents b = contents b'.
Proof. unfold contents, cell; intros -> -> -> ->; done. Qed.

Lemma wf_ext b b' :
  blen b = blen b' -> read_idx b = read_idx b' -> write_idx b = write_idx b' ->
  buf b = buf b' -> buf_size b = buf_size b' -> cyb_wf b -> cyb_wf b'.
Proof. intros E1 E2 E3 E4 E5 []; split; congruence. Qed.

(** The list is determined by its length and cells. *)
Lemma contents_eq b l :
  length l = Z.to_nat (blen b) ->
  (forall i, (i < length l)%nat -> l !! i = Some (cell b (Z.of_nat i))) -> contents b = l.
Proof.
  intros E Hl; apply list_eq; intros i.
  destruct (decide (i < length l)%nat) as [h | h].
  - rewrite contents_lookup by lia; symmetry; auto.
  - rewrite !lookup_ge_None_2; [done | lia | rewrite contents_length; lia].
Qed.

(** ** The two copies *)

Section CopyIn.
Variables (b : cy_buf) (src : list Z).
Hypothesis Hwf : cyb_wf b.
Hypothesis Hfit : Z.of_nat (length src) <= buf_size b - blen b.

(** What the array holds after the copy: the new bytes at the cells that
    follow the old ones, the old bytes elsewhere. *)
Lemma copy_in_array (k : nat) :
  (k < length (buf b))%nat ->
  let w := write_idx b in let n := Z.of_nat (length src) in
  buf (cyb_copy_in b src) !! k =
    if bool_decide (w <= Z.of_nat k < w + n) then src !! (k - Z.to_nat w)%nat
    else if bool_decide (w + n - buf_size b > Z.of_nat k)
    then src !! (k + Z.to_nat (buf_size b - w))%nat
    else buf b !! k.
Proof.
  intros Hk w n; destruct Hwf as [Hs Hb Hr Hl Hw].
  assert (Hw' : 0 <= w < buf_size b) by (subst w; rewrite Hw; apply wrap_range; lia).
  unfold cyb_copy_in; fold w n; cbn.
  rewrite u32_id by (unfold UINT32_MOD; lia).
  destruct (Z.ltb_spec n (buf_size b - w)) as [h | h].
  - destruct (Z.ltb_spec n n); [lia|].
    rewrite firstn_all2 by lia. rewrite splice_lookup by lia.
    repeat case_bool_decide; try lia; done.
  - assert (L1 : length (take (Z.to_nat (buf_size b - w)) src) = Z.to_nat (buf_size b - w))
      by (rewrite length_take; lia).
    assert (L2 : length (drop (Z.to_nat (buf_size b - w)) src) = Z.to_nat (n - (buf_size b - w)))
      by (rewrite length_drop; lia).
    destruct (Z.ltb_spec (buf_size b - w) n).
    + rewrite splice_lookup by (rewrite splice_length; lia).
      rewrite splice_lookup by lia. rewrite L1, L2, Nat.sub_0_r, lookup_drop.
      repeat case_bool_decide; try lia; try (rewrite lookup_take_lt by lia); try done.
      f_equal; lia.
    + rewrite splice_lookup by lia. rewrite L1.
      repeat case_bool_decide; try lia; try (rewrite lookup_take_lt by lia); done.
Qed.

Lemma copy_in_wf : cyb_wf (cyb_copy_in b src).
Proof.
  destruct Hwf as [Hs Hb Hr Hl Hw].
  assert (Hw' : 0 <= write_idx b < buf_size b) by (rewrite Hw; apply wrap_range; lia).
  split; cbn; try lia.
  - unfold cyb_copy_in; cbn. rewrite u32_id by (unfold UINT32_MOD; lia).
    set (n := Z.of_nat (length src)) in *.
    destruct (Z.ltb_spec n (buf_size b - write_idx b)).
    + destruct (Z.ltb_spec n n); [lia|]. rewrite splice_length; [done|]. rewrite length_take; lia.
    + destruct (Z.ltb_spec (buf_size b - write_idx b) n);
        repeat rewrite splice_length; rewrite ?length_take, ?length_drop; try lia;
        rewrite splice_length; rewrite ?length_take; lia.
  - rewrite u32_id by (unfold UINT32_MOD; lia). lia.
  - rewrite (u32_id (blen b + _)), (u32_id (write_idx b + _)) by (unfold UINT32_MOD; lia).
    rewrite Hw; unfold wrap in *.
    zcases; try lia;
      rewrite u32_id by (unfold UINT32_MOD; lia); lia.
Qed.

Lemma copy_in_contents : contents (cyb_copy_in b src) = contents b ++ src.
Proof.
  pose proof Hwf as [Hs Hb Hr Hl Hw].
  assert (Hlen : blen (cyb_copy_in b src) = blen b + Z.of_nat (length src))
    by (cbn; rewrite u32_id by (unfold UINT32_MOD; lia); done).
  apply contents_eq; rewrite length_app, contents_length; [lia|].
  intros i Hi; unfold cell.
  change (buf_size (cyb_copy_in b src)) with (buf_size b).
  change (read_idx (cyb_copy_in b src)) with (read_idx b).
  set (p := wrap (buf_size b) (read_idx b + Z.of_nat i)).
  assert (Hp : 0 <= p < buf_size b) by (subst p; apply wrap_range; lia).
  rewrite copy_in_array by lia. rewrite Z2Nat.id by lia.
  destruct (decide (i < Z.to_nat (blen b))%nat) as [h | h].
  - rewrite lookup_app_l by (rewrite contents_length; lia).
    rewrite contents_lookup by lia.
    rewrite !bool_decide_eq_false_2; [done | | ]; subst p; rewrite Hw; unfold wrap;
      zcases; lia.
  - rewrite lookup_app_r, contents_length by (rewrite contents_length; lia).
    destruct (lookup_lt_is_Some_2 src (i - Z.to_nat (blen b))) as [x Hx]; [lia|].
    rewrite Hx; f_equal.
    repeat case_bool_decide; subst p; rewrite Hw in *; unfold wrap in *;
      zcases; try lia;
      match goal with |- x = default 0 (src !! ?e) =>
        replace e with (i - Z.to_nat (blen b))%nat by lia end; rewrite Hx; done.
Qed.
End CopyIn.

Lemma copy_out_spec b n :
  cyb_wf b -> 0 <= n <= blen b ->
  (cyb_copy_out b n).1 = take (Z.to_nat n) (contents b) /\
  contents (cyb_copy_out b n).2 = drop (Z.to_nat n) (contents b) /\
  cyb_wf (cyb_copy_out b n).2 /\ blen (cyb_copy_out b n).2 = blen b - n.
Proof.
  intros [Hs Hb Hr Hl Hw] Hn; unfold cyb_copy_out; cbn.
  rewrite !(u32_id (buf_size b - read_idx b)), (u32_id (blen b - n)), (u32_id (read_idx b + n))
    by (unfold UINT32_MOD; lia).
  assert (Er : (if buf_size b <=? read_idx b + n then u32 (read_idx b + n - buf_size b)
                else read_idx b + n) = wrap (buf_size b) (read_idx b + n)).
  { unfold wrap; zcases; try lia.
    rewrite u32_id; unfold UINT32_MOD; lia. }
  rewrite Er. split_and!; cbn; try lia.
  - symmetry; apply list_eq; intros i.
    destruct (decide (i < Z.to_nat n)%nat) as [h | h].
    + rewrite lookup_take_lt, contents_lookup by lia. unfold cell, wrap.
      set (l := buf b) in *.
      assert (G : forall j, (j < length l)%nat -> Some (default 0 (l !! j)) = l !! j).
      { intros j Hj; destruct (lookup_lt_is_Some_2 l j Hj) as [x ->]; done. }
      destruct (Z.ltb_spec n (buf_size b - read_idx b)).
      * destruct (Z.ltb_spec n n), (Z.ltb_spec (read_idx b + Z.of_nat i) (buf_size b)); try lia.
        rewrite lookup_take_lt, lookup_drop, G by lia. f_equal; lia.
      * rewrite (u32_id (n - _)) by (unfold UINT32_MOD; lia).
        assert (L : length (take (Z.to_nat (buf_size b - read_idx b)) (drop (Z.to_nat (read_idx b)) l))
                    = Z.to_nat (buf_size b - read_idx b)) by (rewrite length_take, length_drop; lia).
        destruct (Z.ltb_spec (read_idx b + Z.of_nat i) (buf_size b)).
        -- destruct (Z.ltb_spec (buf_size b - read_idx b) n);
             [rewrite lookup_app_l by lia|]; rewrite lookup_take_lt, lookup_drop, G by lia; f_equal; lia.
        -- destruct (Z.ltb_spec (buf_size b - read_idx b) n); [|lia].
           rewrite lookup_app_r, L, lookup_take_lt, G by lia. f_equal; lia.
    + rewrite !lookup_ge_None_2; [done | | rewrite length_take, contents_length; lia].
      zcases; try lia;
        rewrite ?length_app, !length_take, ?length_drop, ?u32_id; unfold UINT32_MOD; lia.
  - apply contents_eq; rewrite length_drop, contents_length; cbn; [lia|].
    intros i Hi; rewrite lookup_drop, contents_lookup by lia. unfold cell; cbn.
    do 3 f_equal. unfold wrap; zcases; lia.
  - split; cbn; try lia; unfold wrap in *; zcases; lia.
Qed.

(** ** The critical sections *)

Definition space (b : cy_buf) : Z := buf_size b - blen b.

(** Same bytes, possibly different events, counts and wake-ups. *)
Definition same_span (b b' : cy_buf) : Prop :=
  blen b = blen b' /\ read_idx b = read_idx b' /\ write_idx b = write_idx b' /\
  buf b = buf b' /\ buf_size b = buf_size b'.

Lemma same_span_contents b b' : same_span b b' -> contents b' = contents b.
Proof. intros (?&?&?&?&?); symmetry; apply contents_ext; done. Qed.
Lemma same_span_wf b b' : same_span b b' -> cyb_wf b -> cyb_wf b'.
Proof. intros (?&?&?&?&?); apply wf_ext; done. Qed.

(** Number of bytes one pass of the write loop moves. *)
Definition put_room (b : cy_buf) (data : list Z) (written : Z) : Z :=
  Z.min (space b) (Z.of_nat (length data) - written).

Lemma put_section_spec b data written :
  cyb_wf b -> 0 <= written <= Z.of_nat (length data) -> Z.of_nat (length data) < UINT32_MOD ->
  let n := put_room b data written in
  let b' := (put_section b data written).1 in
  (put_section b data written).2 = n /\
  contents b' = contents b ++ take (Z.to_nat n) (drop (Z.to_nat written) data) /\
  cyb_wf b' /\ buf_size b' = buf_size b /\ blen b' = blen b + n /\
  reader_count b' = reader_count b /\ writer_count b' = writer_count b /\
  read_event b' = (if (blen b =? 0) && (0 <? n) then 0 else read_event b) /\
  signals b' = signals b ++ (if (blen b =? 0) && (0 <? n) then [NotifyRead] else [])
                         ++ (if 0 <? n then [PollRead] else []).
Proof.
  intros Hwf Hw Hd n b'; pose proof Hwf as [Hs Hb Hr Hl _].
  assert (Hn : (put_section b data written).2 = n).
  { cbn; rewrite !u32_id by (unfold UINT32_MOD in *; lia).
    subst n; unfold put_room, space; zcases; lia. }
  assert (Hn0 : 0 <= n <= space b) by (subst n; unfold put_room, space; lia).
  set (piece := take (Z.to_nat n) (drop (Z.to_nat written) data)).
  assert (Lp : Z.of_nat (length piece) = n).
  { subst piece n; unfold put_room, space in *; rewrite length_take, length_drop; lia. }
  set (b1 := if nz n then cyb_copy_in b piece else b).
  assert (B1 : contents b1 = contents b ++ piece /\ cyb_wf b1 /\ blen b1 = blen b + n /\
               buf_size b1 = buf_size b).
  { subst b1; destruct (nz n) eqn:E; breflect; unfold space in *.
    - rewrite copy_in_contents by (done || lia). split_and!; [done | apply copy_in_wf; done || lia | | done].
      cbn; rewrite Lp, u32_id by (unfold UINT32_MOD; lia); done.
    - assert (piece = []) as -> by (destruct piece; [done | cbn in Lp; lia]).
      rewrite app_nil_r; split_and!; done || lia. }
  assert (E : b' = let b2 := if blen b1 =? buf_size b1 then cond_reset_write b1 else b1 in
    let b3 := if (blen b =? 0) && (0 <? n) then cond_notify_read b2 else b2 in
    if 0 <? n then cyb_notify_poll b3 true else b3).
  { subst b' b1 piece; rewrite <- Hn; done. }
  destruct B1 as (C1 & W1 & L1 & S1).
  assert (SP : same_span b1 b') by (rewrite E; repeat case_if; done).
  rewrite (same_span_contents _ _ SP).
  split; [exact Hn|]. split; [exact C1|]. split; [exact (same_span_wf _ _ SP W1)|].
  destruct SP as (<- & _ & _ & _ & <-).
  rewrite E; split_and!; try done; subst b1; repeat case_if; try done;
    cbn; rewrite ?app_nil_r, <- ?app_assoc; done.
Qed.

Lemma get_section_spec b len :
  cyb_wf b -> 0 <= len ->
  let n := Z.min (blen b) len in
  let '(r, dst, b') := get_section b len in
  r = n /\ dst = take (Z.to_nat n) (contents b) /\
  contents b' = drop (Z.to_nat n) (contents b) /\ cyb_wf b' /\
  blen b' = blen b - n /\ buf_size b' = buf_size b /\
  read_event b' = (if blen b - n =? 0 then 1 else read_event b) /\
  signals b' = signals b ++ (if blen b =? buf_size b then [NotifyWrite; PollWrite] else []).
Proof.
  intros Hwf Hl n; unfold get_section.
  assert (En : (if blen b <? len then blen b else len) = n) by (subst n; zcases; lia).
  rewrite En. pose proof (wf_len _ Hwf).
  destruct (copy_out_spec b n Hwf ltac:(lia)) as (D & C & W & L).
  destruct (cyb_copy_out b n) as [dst b1] eqn:E; cbn in D, C, W, L.
  assert (X : buf_size b1 = buf_size b /\ signals b1 = signals b /\ read_event b1 = read_event b)
    by (inversion E; done).
  destruct X as (X1 & X2 & X3). rewrite <- L.
  set (b3 := if blen b =? buf_size b then _ else _).
  assert (SP : same_span b1 b3) by (subst b3; repeat case_if; done).
  rewrite (same_span_contents _ _ SP).
  split_and!; try done; try (apply (same_span_wf _ _ SP W)); subst b3; repeat case_if; try done;
    cbn; rewrite ?app_nil_r, <- ?app_assoc, ?X2; done.
Qed.

Lemma put_record_section b data :
  cyb_wf b -> 0 < Z.of_nat (length data) <= space b ->
  cyb_put_record b data = (Z.of_nat (length data), (put_section b data 0).1).
Proof.
  intros Hwf Hd; pose proof Hwf as [Hs _ _ Hl _]; unfold space in *.
  unfold cyb_put_record, put_section; set (n := Z.of_nat (length data)) in *.
  rewrite !(u32_id (buf_size b - blen b)), (u32_id (n - 0)) by (unfold UINT32_MOD; lia).
  rewrite s32_id, Z.sub_0_r by lia.
  destruct (Z.eqb_spec n 0), (Z.ltb_spec (buf_size b - blen b) n); try lia.
  assert (E : (if n <? buf_size b - blen b then n else buf_size b - blen b) = n) by (zcases; lia).
  rewrite E. cbn [fst].
  assert (N : nz n = true) by (unfold nz; zcases; done || lia).
  assert (P : (0 <? n) = true) by lia.
  rewrite N, P, andb_true_r, drop_0, firstn_all2 by lia. done.
Qed.

(** ** Many readers and writers *)

(** A buffer shared by write calls in progress ([data], bytes written so
    far) and readers.  [pushed] is the ghost history of the bytes stored,
    each with the index of the call that stored it; [popped] that of the
    bytes taken out. *)
Record system := System {
  sbuf : cy_buf; writers : list (list Z * Z);
  pushed : list (nat * Z); popped : list Z }.

(** Every transition is one critical section of cyclebuf.c, or a change of
    events, end-point counts or wake-ups outside of it. *)
Inductive sys_step : system -> system -> Prop :=
| StepBegin s data :
    Z.of_nat (length data) < UINT32_MOD ->
    sys_step s (System (sbuf s) (writers s ++ [(data, 0)]) (pushed s) (popped s))
| StepPut s i data written b' n :
    writers s !! i = Some (data, written) ->
    put_section (sbuf s) data written = (b', n) ->
    sys_step s (System b' (<[i := (data, written +u n)]> (writers s))
                  (pushed s ++ (pair i <$> take (Z.to_nat n) (drop (Z.to_nat written) data)))
                  (popped s))
| StepRecord s i data ret b' :
    writers s !! i = Some (data, 0) ->
    cyb_put_record (sbuf s) data = (ret, b') ->
    sys_step s (System b' (<[i := (data, ret)]> (writers s))
                  (pushed s ++ (pair i <$> take (Z.to_nat ret) data)) (popped s))
| StepGet s len n dst b' :
    0 <= len -> 0 < blen (sbuf s) ->
    get_section (sbuf s) len = (n, dst, b') ->
    sys_step s (System b' (writers s) (pushed s) (popped s ++ dst))
| StepFlush s :
    sys_step s (System (cyb_flush (sbuf s)) (writers s) (pushed s) (popped s ++ contents (sbuf s)))
| StepOther s b' :
    same_span (sbuf s) b' ->
    sys_step s (System b' (writers s) (pushed s) (popped s)).

Definition sys_steps : system -> system -> Prop := rtc sys_step.

Definition sent_by (i : nat) (h : list (nat * Z)) : list Z :=
  (filter (fun p => p.1 = i) h).*2.

Record sys_ok (s : system) : Prop := {
  ok_wf : cyb_wf (sbuf s);
  ok_stream : popped s ++ contents (sbuf s) = (pushed s).*2;
  ok_range : forall i data w, writers s !! i = Some (data, w) ->
    0 <= w <= Z.of_nat (length data) /\ Z.of_nat (length data) < UINT32_MOD;
  ok_sent : forall i data w, writers s !! i = Some (data, w) ->
    sent_by i (pushed s) = take (Z.to_nat w) data;
  ok_known : Forall (fun p => (p.1 < length (writers s))%nat) (pushed s) }.

Lemma sent_by_app i h h' : sent_by i (h ++ h') = sent_by i h ++ sent_by i h'.
Proof. unfold sent_by; rewrite filter_app, fmap_app; done. Qed.
Lemma sent_by_same i l : sent_by i (pair i <$> l) = l.
Proof.
  induction l as [|x l IH]; [done|]; unfold sent_by in *.
  rewrite fmap_cons, filter_cons_True, fmap_cons, IH by done; done.
Qed.
Lemma sent_by_other i j l : i <> j -> sent_by i (pair j <$> l) = [].
Proof.
  intros Hij; induction l as [|x l IH]; [done|]; unfold sent_by in *.
  rewrite fmap_cons, filter_cons_False by (cbn; congruence); done.
Qed.
Lemma sent_by_new i h : Forall (fun p : nat * Z => (p.1 < i)%nat) h -> sent_by i h = [].
Proof.
  induction 1 as [|x l Hx _ IH]; [done|]; unfold sent_by in *.
  rewrite filter_cons_False by lia; done.
Qed.

(** Appending [n] further bytes of call [i] keeps the history of every call. *)
Lemma sys_push s b' i data w n :
  sys_ok s -> writers s !! i = Some (data, w) ->
  0 <= n -> w + n <= Z.of_nat (length data) -> cyb_wf b' ->
  contents b' = contents (sbuf s) ++ take (Z.to_nat n) (drop (Z.to_nat w) data) ->
  sys_ok (System b' (<[i := (data, w + n)]> (writers s))
            (pushed s ++ (pair i <$> take (Z.to_nat n) (drop (Z.to_nat w) data))) (popped s)).
Proof.
  intros [Hwf Hst Hrg Hse Hkn] Hi Hn Hw Hwf' Hc; pose proof (Hrg _ _ _ Hi).
  split; cbn [sbuf writers pushed popped]; try done.
  - rewrite Hc, fmap_app, app_assoc, Hst, <- list_fmap_compose. f_equal.
    symmetry; apply list_fmap_id.
  - intros j d v Hj; destruct (decide (i = j)) as [<- | Hij].
    + rewrite list_lookup_insert_eq in Hj by (eapply lookup_lt_Some; eauto). simplify_eq. lia.
    + rewrite list_lookup_insert_ne in Hj by done. eauto.
  - intros j d v Hj; rewrite sent_by_app; destruct (decide (i = j)) as [<- | Hij].
    + rewrite list_lookup_insert_eq in Hj by (eapply lookup_lt_Some; eauto). simplify_eq.
      rewrite (Hse _ _ _ Hi), sent_by_same, Z2Nat.inj_add by lia.
      rewrite take_take_drop; done.
    + rewrite list_lookup_insert_ne in Hj by done.
      rewrite sent_by_other, app_nil_r by congruence. eauto.
  - rewrite length_insert. apply Forall_app; split; [done|].
    apply Forall_fmap, Forall_true; intros; cbn; eapply lookup_lt_Some; eauto.
Qed.

Lemma sys_step_ok s s' : sys_step s s' -> sys_ok s -> sys_ok s'.
Proof.
  intros Hstep Hok; pose proof Hok as [Hwf Hst Hrg Hse Hkn].
  destruct Hstep as [s data Hd | s i data w b' n Hi E | s i data ret b' Hi E
                    | s len n dst b' Hl Hb E | s | s b' SP].
  - split; cbn [sbuf writers pushed popped]; try done.
    + intros i d v; rewrite lookup_snoc_Some; intros [[_ Hi]|[_ [=]]]; [eauto | subst; lia].
    + intros i d v; rewrite lookup_snoc_Some; intros [[_ Hi]|[-> [=]]]; [eauto | subst].
      apply sent_by_new; done.
    + rewrite length_app; eapply Forall_impl; [exact Hkn | cbn; lia].
  - destruct (Hrg _ _ _ Hi) as [Hw Hd].
    destruct (put_section_spec (sbuf s) data w Hwf Hw Hd) as (En & C & W & _).
    rewrite E in En, C, W; cbn in En, C, W.
    assert (0 <= n <= Z.of_nat (length data) - w)
      by (pose proof (wf_len _ Hwf); rewrite En; unfold put_room, space; lia).
    rewrite u32_id by lia. apply sys_push; try done; try lia. rewrite En; done.
  - destruct (Hrg _ _ _ Hi) as [Hw Hd]; pose proof Hwf as [Hs _ _ Hln _].
    destruct (decide (0 < Z.of_nat (length data) <= space (sbuf s))) as [h | h].
    + rewrite put_record_section in E by done. injection E as <- <-.
      destruct (put_section_spec (sbuf s) data 0 Hwf Hw Hd) as (_ & C & W & _).
      assert (R : put_room (sbuf s) data 0 = Z.of_nat (length data)) by (unfold put_room; lia).
      rewrite R in C.
      apply (sys_push s _ i data 0 (Z.of_nat (length data))); done || lia.
    + assert (E0 : cyb_put_record (sbuf s) data = (0, sbuf s)).
      { unfold cyb_put_record, space in *; rewrite u32_id by (unfold UINT32_MOD; lia).
        zcases; done || lia. }
      rewrite E0 in E; injection E as <- <-. cbn.
      rewrite app_nil_r, list_insert_id by done. destruct s; done.
  - pose proof (get_section_spec (sbuf s) len Hwf Hl) as G; rewrite E in G.
    destruct G as (-> & -> & C & W & _).
    split; cbn; try done. rewrite C, <- app_assoc, take_drop; done.
  - split; cbn [sbuf writers pushed popped]; try done; unfold cyb_flush.
    + set (b1 := cond_reset_read _).
      assert (cyb_wf b1).
      { destruct Hwf as [Hs Hb Hr Hln Hw]; split; cbn; try lia;
          rewrite ?Z.add_0_r; pose proof (wrap_range (buf_size (sbuf s)) (read_idx (sbuf s) + blen (sbuf s)));
          [lia | unfold wrap in *; zcases; lia]. }
      case_if; [eapply same_span_wf; [|done]; done | done].
    + rewrite <- Hst, <- app_assoc; f_equal. case_if; cbn; rewrite app_nil_r; done.
  - split; cbn [sbuf writers pushed popped]; try done.
    + eapply same_span_wf; eauto.
    + rewrite (same_span_contents _ _ SP); done.
Qed.

Lemma sys_steps_ok s s' : sys_steps s s' -> sys_ok s -> sys_ok s'.
Proof. induction 1; eauto using sys_step_ok. Qed.

(** ** Properties *)

(** C40. Take an empty, well-formed buffer and any interleaving of the
    critical sections of any number of readers and of write calls.  The bytes
    that left the buffer followed by the bytes still in it are exactly the
    bytes stored, in the order they were stored; and the bytes stored by each
    write call are the first [written] bytes of its data, in order.  The
    buffer never holds more than its size. *)
Theorem cyb_stream b0 s :
  cyb_wf b0 -> blen b0 = 0 ->
  sys_steps (System b0 [] [] []) s ->
  popped s ++ contents (sbuf s) = (pushed s).*2 /\
  (forall i data w, writers s !! i = Some (data, w) ->
     sent_by i (pushed s) = take (Z.to_nat w) data) /\
  Z.of_nat (length (contents (sbuf s))) <= buf_size (sbuf s).
Proof.
  intros Hwf H0 Hsteps.
  assert (Hok : sys_ok (System b0 [] [] [])).
  { split; cbn; try done; unfold contents; rewrite H0; done. }
  destruct (sys_steps_ok _ _ Hsteps Hok) as [[Hs _ _ Hl _] Hst _ Hse _].
  split_and!; try done. rewrite contents_length; lia.
Qed.

(** The buffer a call reads from: the one at its start or at a wake-up. *)
Definition seen (b : cy_buf) (ws : list wakeup) (b0 : cy_buf) : Prop :=
  b0 = b \/ exists w, w ∈ ws /\ b0 = buf_after w.

Lemma seen_cons b w ws b0 : seen (buf_after w) ws b0 -> seen b (w :: ws) b0.
Proof.
  intros [->|(v&?&->)]; right; [exists w | exists v]; split; try done; constructor; done.
Qed.

(** A read that returns gives either between 1 and [len] bytes, the
    oldest unread ones, removed from the buffer; or 0 with the buffer empty,
    and then no writer is left or the call was non-blocking; or -1, only for a
    blocking call whose wait was interrupted while a writer was still open. *)
Theorem cyb_getbuf_spec b len blocking ws r dst b' :
  0 < len -> cyb_wf b -> Forall (fun w => cyb_wf (buf_after w)) ws ->
  cyb_getbuf b len blocking ws = Returned r dst b' ->
  (0 < r <= len /\ r = Z.of_nat (length dst) /\
     exists b0, seen b ws b0 /\ contents b0 = dst ++ contents b') \/
  (r = 0 /\ dst = [] /\ blen b' = 0 /\ (writer_count b' = 0 \/ blocking = false)) \/
  (r = -1 /\ dst = [] /\ blocking = true /\ writer_count b' <> 0 /\
     exists w, w ∈ ws /\ wait_ret w < 0 /\ buf_after w = b').
Proof.
  intros Hlen; unfold cyb_getbuf; destruct (Z.leb_spec len 0); [lia|]. clear H.
  revert b; induction ws as [|w ws IH]; intros b Hwf Hws; cbn [get_loop];
    pose proof (wf_len _ Hwf);
    destruct (Z.ltb_spec 0 (blen b)) as [Hb | Hb].
  1, 3: pose proof (get_section_spec b len Hwf ltac:(lia)) as G;
    destruct (get_section b len) as [[n d] b1]; intros [= <- <- <-];
    destruct G as (-> & -> & C & _); left; split; [lia|];
    rewrite length_take, contents_length; split; [lia|];
    exists b; rewrite C, take_drop; split; [left|]; done.
  1, 2: destruct (Z.eqb_spec (writer_count b) 0); [intros [= <- <- <-]; right; left; split_and!; auto; lia|];
    destruct blocking; [|intros [= <- <- <-]; right; left; split_and!; auto; lia]; cbn; try done.
  apply Forall_cons in Hws as [Hw Hws].
  assert (L : forall P Q R : Prop, P \/ Q \/ R -> forall P' R' : Prop, (P -> P') -> (R -> R') -> P' \/ Q \/ R')
    by tauto.
  pose proof (IH (buf_after w) Hw Hws) as K.
  destruct (Z.ltb_spec (wait_ret w) 0); [destruct (Z.eqb_spec (writer_count (buf_after w)) 0)|].
  2: intros [= <- <- <-]; right; right; split_and!; try done; exists w; split_and!; [constructor | lia | done].
  all: intros E; eapply L; [exact (K E) | |];
    [intros (?&?&b0&?&?); split_and!; try lia; exists b0; eauto using seen_cons
    | intros (?&?&?&?&v&?&?); split_and!; try done; exists v; split; [constructor|]; done].
Qed.

(** A record write stores all of its bytes or none: it returns the
    length of the record when the record is not empty and fits, the buffer
    then ends with it and the readers' poll subscribers are notified;
    otherwise it returns 0 and changes nothing. *)
Theorem cyb_put_record_atomic b data :
  cyb_wf b ->
  let '(ret, b') := cyb_put_record b data in
  (data <> [] /\ Z.of_nat (length data) <= space b /\ ret = Z.of_nat (length data) /\
     contents b' = contents b ++ data /\ cyb_wf b' /\ PollRead ∈ drop (length (signals b)) (signals b')) \/
  ((data = [] \/ space b < Z.of_nat (length data)) /\ ret = 0 /\ b' = b).
Proof.
  intros Hwf; pose proof Hwf as [Hs _ _ Hl _].
  destruct (decide (0 < Z.of_nat (length data) <= space b)) as [h | h].
  - rewrite put_record_section by done. left.
    destruct (put_section_spec b data 0 Hwf) as (_ & C & W & _ & _ & _ & _ & _ & S);
      [lia | unfold space, UINT32_MOD in *; lia|].
    assert (R : put_room b data 0 = Z.of_nat (length data)) by (unfold put_room; lia).
    rewrite R in C, S. rewrite C, S, drop_app_length.
    split_and!; try done; try lia.
    + intros ->; cbn in h; lia.
    + rewrite drop_0, firstn_all2 by lia. done.
    + destruct (Z.ltb_spec 0 (Z.of_nat (length data))); [|lia].
      destruct ((blen b =? 0) && true); repeat constructor.
  - unfold cyb_put_record, space in *; rewrite u32_id by (unfold UINT32_MOD; lia).
    destruct data as [|x l]; [right; auto|].
    destruct (Z.eqb_spec (Z.of_nat (length (x :: l))) 0); [cbn in *; lia|].
    destruct (Z.ltb_spec (buf_size b - blen b) (Z.of_nat (length (x :: l)))); [|cbn in *; lia].
    right; auto.
Qed.

(** A wake-up that lets a writer go on: the wait succeeded, a reader is
    open, and there is room. *)
Definition fruitful (w : wakeup) : Prop :=
  cyb_wf (buf_after w) /\ 0 <= wait_ret w /\ 0 < space (buf_after w) /\
  reader_count (buf_after w) <> 0.

Lemma put_loop_completes data ws :
  Z.of_nat (length data) < 2 ^ 31 ->
  forall b written, cyb_wf b -> reader_count b <> 0 -> Forall fruitful ws ->
  0 <= written < Z.of_nat (length data) ->
  Z.of_nat (length data) - written - put_room b data written <= Z.of_nat (length ws) ->
  exists b', put_loop data written true b ws = Returned (Z.of_nat (length data)) (Z.of_nat (length data)) b'.
Proof.
  intros Hd; induction ws as [|w ws IH]; intros b written Hwf Hrc Hws Hw Hn;
    destruct (put_section_spec b data written Hwf ltac:(lia) ltac:(unfold UINT32_MOD; lia))
      as (En & _ & _ & _ & _ & Erc & _);
    pose proof (wf_len _ Hwf); cbn [put_loop];
    destruct (put_section b data written) as [b' n]; cbn in En, Erc; subst n;
    assert (0 <= put_room b data written <= Z.of_nat (length data) - written)
      by (unfold put_room, space in *; lia);
    rewrite u32_id by (unfold UINT32_MOD; lia); cbn [orb negb].
  - destruct (Z.eqb_spec (written + put_room b data written) (Z.of_nat (length data))) as [E|]; [|cbn in *; lia].
    rewrite E, s32_id by lia. eauto.
  - destruct (Z.eqb_spec (written + put_room b data written) (Z.of_nat (length data))) as [E | E].
    { rewrite E, s32_id by lia. eauto. }
    unfold cyb_reader_count; rewrite Erc.
    destruct (Z.eqb_spec (reader_count b) 0); [done|].
    apply Forall_cons in Hws as [(W1 & W2 & W3 & W4) Hws].
    destruct (Z.ltb_spec (wait_ret w) 0); [lia|].
    destruct (Z.ltb_spec (written + put_room b data written) (Z.of_nat (length data))); [|lia].
    apply IH; try done; [lia|]. unfold put_room at 2. cbn in Hn. lia.
Qed.

(** A blocking write terminates: if readers stay open and every wake-up
    finds room, a write of [n] bytes needs at most [n] wake-ups to store all
    of them and return [n]. *)
Theorem cyb_putbuf_completes b data ws :
  Z.of_nat (length data) < 2 ^ 31 -> cyb_wf b -> reader_count b <> 0 ->
  Forall fruitful ws -> (length data <= length ws)%nat ->
  exists b', cyb_putbuf b data true ws = Returned (Z.of_nat (length data)) (Z.of_nat (length data)) b'.
Proof.
  intros Hd Hwf Hrc Hws Hn; unfold cyb_putbuf.
  destruct (Z.eqb_spec (Z.of_nat (length data)) 0) as [-> |]; [eauto|].
  apply put_loop_completes; try done; try lia.
  pose proof (wf_len _ Hwf); unfold put_room, space; lia.
Qed.

(** Once one reader has consumed the read event and left bytes behind,
    no write wakes a second sleeping reader: while the buffer is not empty
    the event stays consumed and no write signals it, whatever is written. *)
Theorem consumed_event_not_renewed b data :
  cyb_wf b -> 0 < blen b -> read_event b = 1 -> Z.of_nat (length data) < 2 ^ 31 ->
  exists ret b', cyb_putbuf b data false [] = Returned ret ret b' /\
    0 < blen b' /\ read_event b' = 1 /\
    forall sg, sg ∈ drop (length (signals b)) (signals b') -> sg <> NotifyRead.
Proof.
  intros Hwf Hb He Hd; pose proof (wf_len _ Hwf); unfold cyb_putbuf.
  destruct (Z.eqb_spec (Z.of_nat (length data)) 0).
  { exists 0, b; split_and!; try done. intros sg; rewrite drop_all; intros Hin.
    apply list_elem_of_In in Hin as []. }
  destruct (put_section_spec b data 0 Hwf ltac:(lia) ltac:(unfold UINT32_MOD; lia))
    as (En & _ & _ & _ & El & _ & _ & Er & Es).
  assert (0 <= put_room b data 0 <= Z.of_nat (length data)) by (unfold put_room, space; lia).
  cbn [put_loop]; destruct (put_section b data 0) as [b' i]; cbn in En, El, Er, Es; subst i.
  rewrite u32_id, s32_id by (unfold UINT32_MOD; lia). cbn [orb negb].
  destruct (Z.eqb_spec (blen b) 0); [lia|]; cbn in Er, Es.
  eexists _, b'; split_and!; [done | lia | congruence |].
  rewrite Es, drop_app_length; intros sg Hin; apply list_elem_of_In in Hin.
  destruct (0 <? put_room b data 0); cbn in Hin; intuition congruence.
Qed.

(** ** Concrete instances *)

Definition demo_buf : cy_buf := CyBuf 0 0 0 1 0 0 0 1 1 2 [0; 0; 0; 0] 4 [].

Lemma demo_wf : cyb_wf demo_buf.
Proof. split; cbn; lia || done. Qed.

(** Two bytes stored, the event consumed by one reader, one byte read. *)
Definition demo_left : cy_buf :=
  let b1 := (put_section demo_buf [7; 8] 0).1 in
  (get_section (set_events b1 1 (write_event b1) (signals b1)) 1).2.

Lemma demo_left_wf : cyb_wf demo_left.
Proof. split; vm_compute; intuition congruence. Qed.

Definition demo_end : system :=
  System (get_section (put_section demo_buf [7; 8] 0).1 1).2 [([7; 8], 2)]
    [(0%nat, 7); (0%nat, 8)] [7].

Lemma demo_exchange : sys_steps (System demo_buf [] [] []) demo_end.
Proof.
  eapply rtc_l; [apply (StepBegin _ [7; 8]); done|].
  eapply rtc_l; [apply (StepPut _ 0 [7; 8] 0 (put_section demo_buf [7; 8] 0).1 2); done|].
  eapply rtc_l; [|apply rtc_refl].
  apply (StepGet (System (put_section demo_buf [7; 8] 0).1 [([7; 8], 2)] [(0%nat, 7); (0%nat, 8)] [])
           1 1 [7] (get_section (put_section demo_buf [7; 8] 0).1 1).2); vm_compute; congruence.
Qed.

Lemma cyb_stream_witness :
  popped demo_end ++ contents (sbuf demo_end) = (pushed demo_end).*2.
Proof. apply (cyb_stream demo_buf demo_end demo_wf eq_refl demo_exchange). Defined.

Lemma cyb_getbuf_spec_witness :
  cyb_getbuf demo_left 3 true [] = Returned 1 [8] (get_section demo_left 3).2 /\
  (0 < 1 <= 3 /\ 1 = Z.of_nat (length [8]) /\
     exists b0, seen demo_left [] b0 /\ contents b0 = [8] ++ contents (get_section demo_left 3).2).
Proof.
  split; [reflexivity|].
  destruct (cyb_getbuf_spec demo_left 3 true [] 1 [8] (get_section demo_left 3).2
              ltac:(lia) demo_left_wf (List.Forall_nil _) eq_refl) as [K | [K | K]];
    [exact K | lia | lia].
Defined.

Lemma cyb_put_record_atomic_witness :
  cyb_wf demo_left /\
  let '(ret, b') := cyb_put_record demo_left [1; 2; 3] in
  ([1; 2; 3] <> [] /\ Z.of_nat (length [1; 2; 3]) <= space demo_left /\ ret = Z.of_nat (length [1; 2; 3]) /\
     contents b' = contents demo_left ++ [1; 2; 3] /\ cyb_wf b' /\
     PollRead ∈ drop (length (signals demo_left)) (signals b')) \/
  (([1; 2; 3] = [] \/ space demo_left < Z.of_nat (length [1; 2; 3])) /\ ret = 0 /\ b' = demo_left).
Proof.
  split; [exact demo_left_wf|]. apply (cyb_put_record_atomic demo_left [1; 2; 3] demo_left_wf).
Defined.

Lemma cyb_putbuf_completes_witness :
  exists b', cyb_putbuf demo_buf [1; 2; 3; 4; 5] true (replicate 5 (Wakeup 0 demo_left))
             = Returned 5 5 b'.
Proof.
  apply (cyb_putbuf_completes demo_buf [1; 2; 3; 4; 5] (replicate 5 (Wakeup 0 demo_left)));
    [done | exact demo_wf | done | | cbn; lia].
  repeat constructor; try exact demo_left_wf; try (vm_compute; congruence).
Defined.

Lemma consumed_event_not_renewed_witness :
  blen demo_left = 1 /\ read_event demo_left = 1 /\
  exists ret b', cyb_putbuf demo_left [9] false [] = Returned ret ret b' /\
    0 < blen b' /\ read_event b' = 1 /\
    forall sg, sg ∈ drop (length (signals demo_left)) (signals b') -> sg <> NotifyRead.
Proof.
  split; [reflexivity|]. split; [reflexivity|].
  apply (consumed_event_not_renewed demo_left [9] demo_left_wf); [reflexivity..].
Defined.
