(* ===== verification/Pipe.v ===== *)
(** * Anonymous pipes

    Model of src/fs/impl/pipe.c and of the command table of
    src/lib/command.h it uses.  The end points of one pipe share one ring
    buffer: every operation takes the end point (a [file] with its private
    pipe_inode) and the buffer, and returns the buffer it leaves. *)

From S2P Require Import Prelude CycleBuf.
Open Scope mos_scope.

Definition FS_POLL_READ : Z := 1.
Definition FS_POLL_WRITE : Z := 2.
Definition FS_POLL_HUP : Z := 8.
Definition FS_POLL_ERR : Z := 16.
Definition FIONREAD : Z := 0x541B.
Definition FIONBIO : Z := 0x5421.
Definition SIGPIPE : Z := 13.
Definition S_IFIFO : Z := 0x1000.
Definition S_IRUSR : Z := 256.
Definition S_IWUSR : Z := 128.

(** The operation tables pipe_read_fops, pipe_write_fops and pipe_rw_fops,
    and any other. *)
Inductive fops := pipe_read_fops | pipe_write_fops | pipe_rw_fops | other_fops.

(** The pipe_inode behind an end point; its [buf] is the shared buffer. *)
Record pipe_inode := PipeInode { mode : Z; uid : Z; gid : Z }.

Record file := File {
  f_private : pipe_inode; i_mode : Z;
  f_fop : fops; f_count : Z; f_mode : Z; f_flag : Z }.

Definition set_flag (fp : file) (fl : Z) : file :=
  File (f_private fp) (i_mode fp) (f_fop fp) (f_count fp) (f_mode fp) fl.

(** ** Release *)

(** [None] stands for a use of the buffer after it was freed. *)
Definition pipe_release (fp : file) (b : cy_buf) : option (cy_buf * bool) :=
  let n := f_private fp in
  let '(b1, freed) := if negb (mode n =? O_RDONLY) then cyb_writer_close b else (b, false) in
  if negb (mode n =? O_WRONLY)
  then if freed then None else Some (cyb_reader_close b1)
  else Some (b1, freed).

(** ** Read and write *)

Definition pipe_read (fp : file) (b : cy_buf) (len : Z) (ws : list wakeup) : call (list Z) :=
  let n := f_private fp in
  if mode n =? O_WRONLY then Returned (- EBADF) [] b
  else if len =? 0 then Returned 0 [] b
  else
    let nonblock := nz (Z.land (f_flag fp) O_NONBLOCK) in
    match cyb_getbuf b (s32 len) (negb nonblock) ws with
    | Asleep d b' => Asleep d b'
    | Returned ret d b' =>
        if ret <? 0 then Returned (- EINTR) d b'
        else if nonblock && (ret =? 0) && (0 <? cyb_writer_count b')
        then Returned (- EAGAIN) d b'
        else Returned ret d b'
    end.

(** The number of bytes stored and the caller's pending signals come with
    the result; [user] is whether the caller is a user task. *)
Definition pipe_write (fp : file) (b : cy_buf) (data : list Z) (user : bool) (pending : Z)
  (ws : list wakeup) : call (Z * Z) :=
  let n := f_private fp in
  if mode n =? O_RDONLY then Returned (- EBADF) (0, pending) b
  else if Z.of_nat (length data) =? 0 then Returned 0 (0, pending) b
  else
    let nonblock := nz (Z.land (f_flag fp) O_NONBLOCK) in
    let r := if cyb_reader_count b =? 0 then Returned (- EPIPE) 0 b
             else cyb_putbuf b data (negb nonblock) ws in
    match r with
    | Asleep w b' => Asleep (w, pending) b'
    | Returned ret w b' =>
        let ret := if nonblock && (ret =? 0) && (0 <? cyb_reader_count b') then - EAGAIN else ret in
        let pending := if (ret =? - EPIPE) && user
                       then Z.lor pending (Z.shiftl 1 (SIGPIPE - 1)) else pending in
        Returned ret (w, pending) b'
    end.

(** ** Poll *)

(** The ready mask, and the subscriptions made when [pt] is given: [true]
    for the readers' list, [false] for the writers'. *)
Definition pipe_poll_common (b : cy_buf) (events : Z) (pt : bool) : Z * list bool :=
  let r1 := if nz (Z.land events FS_POLL_READ) && negb (cyb_isempty b) then FS_POLL_READ else 0 in
  let r2 := if nz (Z.land events FS_POLL_HUP) && (cyb_writer_count b =? 0)
            then Z.lor r1 FS_POLL_HUP else r1 in
  let r3 := if nz (Z.land events FS_POLL_ERR) && (cyb_reader_count b =? 0)
            then Z.lor r2 FS_POLL_ERR else r2 in
  let r4 := if nz (Z.land events FS_POLL_WRITE) && (0 <? cyb_reader_count b) && negb (cyb_isfull b)
            then Z.lor r3 FS_POLL_WRITE else r3 in
  let subs := if pt
    then (if nz (Z.land events (Z.lor FS_POLL_READ FS_POLL_HUP)) then [true] else []) ++
         (if nz (Z.land events FS_POLL_WRITE) then [false] else [])
    else [] in
  (r4, subs).

Definition pipe_read_poll (b : cy_buf) (events : Z) (pt : bool) : Z * list bool :=
  pipe_poll_common b (Z.land events (Z.lor FS_POLL_READ FS_POLL_HUP)) pt.
Definition pipe_write_poll (b : cy_buf) (events : Z) (pt : bool) : Z * list bool :=
  pipe_poll_common b (Z.land events (Z.lor FS_POLL_WRITE FS_POLL_ERR)) pt.
Definition pipe_rw_poll (b : cy_buf) (events : Z) (pt : bool) : Z * list bool :=
  pipe_poll_common b events pt.

(** Dispatch through the operation table of the end point. *)
Definition pipe_poll (fp : file) (b : cy_buf) (events : Z) (pt : bool) : Z * list bool :=
  match f_fop fp with
  | pipe_read_fops => pipe_read_poll b events pt
  | pipe_write_fops => pipe_write_poll b events pt
  | _ => pipe_rw_poll b events pt
  end.

Definition pipe_llseek : Z := - ESPIPE.

(** ** Control commands *)

(** A command handler takes the file, the buffer and the [int] its argument
    points to ([None] for a null pointer), and returns the result, the file
    and that [int]; [None] is a write through a null pointer. *)
Definition command_fn : Type :=
  file -> cy_buf -> option Z -> option (Z * file * option Z).

Record command_operation := Command { command : Z; invoke : command_fn }.

Definition command_lookup (groups : Z -> option (Z -> option command_operation)) (cmd : Z)
  : option command_fn :=
  group ← groups (Z.land (Z.shiftr cmd 8) 255);
  operation ← group (Z.land cmd 255);
  if negb (command operation =? cmd) then None else Some (invoke operation).

Definition command_dispatch (groups : Z -> option (Z -> option command_operation))
  (fp : file) (b : cy_buf) (cmd : Z) (arg : option Z) (unsupported : Z)
  : option (Z * file * option Z) :=
  match command_lookup groups cmd with
  | Some f => f fp b arg
  | None => Some (unsupported, fp, arg)
  end.

Definition pipe_ioctl_fionread : command_fn := fun fp b arg =>
  _ ← arg; Some (0, fp, Some (cyb_get_buf_len b)).

Definition pipe_ioctl_fionbio : command_fn := fun fp b arg =>
  match arg with
  | None => Some (- EFAULT, fp, None)
  | Some v =>
      Some (0, set_flag fp (if nz v then Z.lor (f_flag fp) O_NONBLOCK
                            else Z.ldiff (f_flag fp) O_NONBLOCK), arg)
  end.

Definition pipe_commands (n : Z) : option command_operation :=
  if n =? Z.land FIONREAD 255 then Some (Command FIONREAD pipe_ioctl_fionread)
  else if n =? Z.land FIONBIO 255 then Some (Command FIONBIO pipe_ioctl_fionbio)
  else None.

Definition pipe_command_groups (g : Z) : option (Z -> option command_operation) :=
  if g =? Z.land (Z.shiftr FIONREAD 8) 255 then Some pipe_commands else None.

Definition pipe_ioctl (fp : file) (b : cy_buf) (cmd : Z) (arg : option Z) :=
  command_dispatch pipe_command_groups fp b cmd arg (- ENOTTY).

(** ** Attributes *)

Record stat := Stat {
  st_time : Z; st_mode : Z; st_size : Z; st_blksize : Z; st_blocks : Z;
  st_dev : Z; st_ino : Z; st_uid : Z; st_gid : Z }.

Definition pipe_getattr (fp : file) (time_wall_sec : Z) : stat :=
  let n := f_private fp in
  Stat time_wall_sec (i_mode fp) 0 PAGE_SIZE 0 0 0 (uid n) (gid n).

(** ** Creating end points *)

(** [mem_ok] is whether the three zalloc() calls succeed. *)
Definition pipe_reopen (original : option file) (flags : Z) (mem_ok : bool) (b : cy_buf)
  : option (file * cy_buf) :=
  original ← original;
  let md := Z.land flags O_ACCMODE in
  match f_fop original with
  | other_fops => None
  | _ =>
      if negb (md =? O_RDONLY) && negb (md =? O_WRONLY) && negb (md =? O_RDWR) then None
      else if negb mem_ok then None
      else
        let source := f_private original in
        let b1 := if negb (md =? O_WRONLY) then cyb_reader_open b else b in
        let b2 := if negb (md =? O_RDONLY) then cyb_writer_open b1 else b1 in
        Some (File (PipeInode md (uid source) (gid source)) (i_mode original)
                (if md =? O_RDONLY then pipe_read_fops
                 else if md =? O_WRONLY then pipe_write_fops else pipe_rw_fops)
                1 md flags, b2)
  end.

(** The read end, the write end and the buffer. *)
Definition pipe_open (euid egid : Z) (mem : list Z) : file * file * cy_buf :=
  let b := cyb_create 16 mem in
  let md := Z.lor (Z.lor S_IFIFO S_IRUSR) S_IWUSR in
  (File (PipeInode O_RDONLY euid egid) md pipe_read_fops 1 O_RDONLY O_RDONLY,
   File (PipeInode O_WRONLY euid egid) md pipe_write_fops 1 O_WRONLY O_WRONLY, b).
