(* ===== verification/PipeProof.v ===== *)
(** * Pipes: lifetime, end of file, poll

    The shared buffer lives exactly as long as some end point is open; the
    results of read and write say truthfully why no byte moved; poll
    announces exactly the operations that would not block. *)

From S2P Require Import Prelude CycleBuf CycleBufProof Pipe.
Open Scope mos_scope.

(** ** Lifetime of the shared buffer *)

Record pipe_sys := PipeSys { pbuf : cy_buf; ends : list file; freed : bool }.

Definition reads (fp : file) : bool := negb (mode (f_private fp) =? O_WRONLY).
Definition writes (fp : file) : bool := negb (mode (f_private fp) =? O_RDONLY).
Definition count (p : file -> bool) (l : list file) : Z := Z.of_nat (length (List.filter p l)).

(** What can happen to a pipe.  The bound on the number of end points is
    that of a 32-bit reference counter. *)
Inductive pipe_step : pipe_sys -> pipe_sys -> Prop :=
| PReopen s fp flags fp' b' :
    freed s = false -> fp ∈ ends s -> Z.of_nat (length (ends s)) < 2 ^ 30 ->
    pipe_reopen (Some fp) flags true (pbuf s) = Some (fp', b') ->
    pipe_step s (PipeSys b' (fp' :: ends s) false)
| PRelease s l1 fp l2 b' fr :
    freed s = false -> ends s = l1 ++ fp :: l2 ->
    pipe_release fp (pbuf s) = Some (b', fr) ->
    pipe_step s (PipeSys b' (l1 ++ l2) fr)
| PWrite s data written :
    freed s = false ->
    pipe_step s (PipeSys (put_section (pbuf s) data written).1 (ends s) false)
| PRead s len :
    freed s = false ->
    pipe_step s (PipeSys (get_section (pbuf s) len).2 (ends s) false)
| PWait s re we :
    freed s = false ->
    pipe_step s (PipeSys (set_events (pbuf s) re we (signals (pbuf s))) (ends s) false).

Record pipe_ok (s : pipe_sys) : Prop := {
  pk_readers : reader_count (pbuf s) = count reads (ends s);
  pk_writers : writer_count (pbuf s) = count writes (ends s);
  pk_ref : ref_count (pbuf s) = count reads (ends s) + count writes (ends s);
  pk_bound : Z.of_nat (length (ends s)) <= 2 ^ 30;
  pk_modes : Forall (fun fp => reads fp = true \/ writes fp = true) (ends s);
  pk_freed : freed s = bool_decide (ends s = []) }.

Lemma count_app p l1 l2 : count p (l1 ++ l2) = count p l1 + count p l2.
Proof. unfold count; rewrite List.filter_app, length_app; lia. Qed.
Lemma count_cons p x l : count p (x :: l) = b2z (p x) + count p l.
Proof. unfold count; cbn; destruct (p x); cbn [b2z length]; lia. Qed.
Lemma count_range p l : 0 <= count p l <= Z.of_nat (length l).
Proof. unfold count; pose proof (List.filter_length_le p l); lia. Qed.

(** Reads and writes of bytes leave the counts alone. *)
Lemma put_section_counts b data w :
  let b' := (put_section b data w).1 in
  reader_count b' = reader_count b /\ writer_count b' = writer_count b /\ ref_count b' = ref_count b.
Proof. cbn; repeat case_if; done. Qed.
Lemma get_section_counts b len :
  let b' := (get_section b len).2 in
  reader_count b' = reader_count b /\ writer_count b' = writer_count b /\ ref_count b' = ref_count b.
Proof. unfold get_section; cbn; repeat case_if; done. Qed.

(** What a release does to the counts: it never touches a freed buffer
    while each open direction of the end point holds its reference. *)
Lemma release_counts fp b R W :
  reader_count b = b2z (reads fp) + R -> writer_count b = b2z (writes fp) + W ->
  ref_count b = b2z (reads fp) + b2z (writes fp) + R + W ->
  0 <= R <= 2 ^ 30 -> 0 <= W <= 2 ^ 30 -> reads fp = true \/ writes fp = true ->
  exists b', pipe_release fp b = Some (b', R + W =? 0) /\
    reader_count b' = R /\ writer_count b' = W /\ ref_count b' = R + W.
Proof.
  unfold pipe_release, reads, writes; intros Er Ew Ef HR HW Hm.
  destruct (Z.eqb_spec (mode (f_private fp)) O_RDONLY) as [E1|];
    destruct (Z.eqb_spec (mode (f_private fp)) O_WRONLY) as [E2|]; cbn in Er, Ew, Ef |- *;
    [unfold O_RDONLY, O_WRONLY in *; lia | | |].
  3: destruct (Z.eqb_spec (u32 (ref_count b - 1)) 0) as [E|];
    [rewrite u32_id in E by (unfold UINT32_MOD; lia); lia|].
  all: unfold cyb_reader_close, cyb_destroy; eexists; split; [f_equal; f_equal|]; cbn;
    repeat (rewrite u32_id by (rewrite ?u32_id; unfold UINT32_MOD; lia));
    try (split_and!; lia);
    match goal with |- (?a =? 0) = _ => f_equal; lia end.
Qed.

Lemma pipe_step_ok s s' : pipe_step s s' -> pipe_ok s -> pipe_ok s'.
Proof.
  intros Hs [Hr Hw Hf Hb Hm Hfr].
  pose proof (count_range reads (ends s)); pose proof (count_range writes (ends s)).
  destruct Hs as [s fp flags fp' b' Hfree Hin Hlen E | s l1 fp l2 b' fr Hfree El E
                 | s data w Hfree | s len Hfree | s re we Hfree].
  - assert (Er : reader_count b' = b2z (reads fp') + reader_count (pbuf s) /\
                 writer_count b' = b2z (writes fp') + writer_count (pbuf s) /\
                 ref_count b' = b2z (reads fp') + b2z (writes fp') + ref_count (pbuf s) /\
                 (reads fp' = true \/ writes fp' = true)).
    { unfold pipe_reopen in E; cbn in E. set (md := Z.land flags O_ACCMODE) in *.
      destruct (f_fop fp); try done;
        (destruct (negb (md =? O_RDONLY) && negb (md =? O_WRONLY) && negb (md =? O_RDWR)); [done|]);
        injection E as <- <-; unfold reads, writes; cbn;
        destruct (Z.eqb_spec md O_RDONLY), (Z.eqb_spec md O_WRONLY); cbn;
        try (unfold O_RDONLY, O_WRONLY in *; lia);
        repeat (rewrite u32_id by (rewrite ?u32_id; unfold UINT32_MOD; lia));
        split_and!; auto; lia. }
    destruct Er as (E1 & E2 & E3 & E4).
    split; cbn [pbuf ends freed]; rewrite ?count_cons; try lia; [cbn; lia | constructor; done |].
    rewrite bool_decide_eq_false_2; done.
  - rewrite El in *; rewrite !count_app, !count_cons in *.
    pose proof (count_range reads (l1 ++ l2)); pose proof (count_range writes (l1 ++ l2)).
    rewrite !count_app, !length_app in *. cbn [length] in *.
    apply Forall_app in Hm as [Hm1 Hm2]; apply Forall_cons in Hm2 as [Hm0 Hm2].
    destruct (release_counts fp (pbuf s) (count reads l1 + count reads l2)
                (count writes l1 + count writes l2)) as (b1 & E1 & E2 & E3 & E4); try lia; try done.
    rewrite E1 in E; injection E as <- <-.
    split; cbn [pbuf ends freed]; rewrite ?count_app, ?length_app; try lia;
      [apply Forall_app; done|].
    destruct (l1 ++ l2) as [|fp0 l] eqn:El'.
    { apply app_eq_nil in El' as [-> ->]; done. }
    rewrite bool_decide_eq_false_2 by done.
    assert (Hm' : Forall (fun fp => reads fp = true \/ writes fp = true) (l1 ++ l2))
      by (apply Forall_app; done).
    rewrite El', Forall_cons in Hm'; destruct Hm' as [Hm' _].
    pose proof (count_app reads l1 l2) as C1; pose proof (count_app writes l1 l2) as C2.
    rewrite El', count_cons in C1, C2.
    pose proof (count_range reads l); pose proof (count_range writes l).
    destruct Hm' as [K | K]; rewrite K in C1 || rewrite K in C2; cbn [b2z] in *; lia.
  - destruct (put_section_counts (pbuf s) data w) as (E1 & E2 & E3).
    split; cbn [pbuf ends freed]; congruence || done.
  - destruct (get_section_counts (pbuf s) len) as (E1 & E2 & E3).
    split; cbn [pbuf ends freed]; congruence || done.
  - split; cbn [pbuf ends freed]; congruence || done.
Qed.

Lemma pipe_steps_ok s s' : rtc pipe_step s s' -> pipe_ok s -> pipe_ok s'.
Proof. induction 1; eauto using pipe_step_ok. Qed.

Definition opened (euid egid : Z) (mem : list Z) : pipe_sys :=
  let '(r, w, b) := pipe_open euid egid mem in PipeSys b [r; w] false.

(** ** Properties *)

(** From pipe_open() on, whatever end points are reopened and released
    and whatever is read and written: the buffer is freed exactly when the
    last end point is gone, its counters are the numbers of open readable and
    writable end points, and releasing any end point is safe (it never
    touches the buffer after freeing it). *)
Theorem pipe_lifetime euid egid mem s :
  rtc pipe_step (opened euid egid mem) s ->
  freed s = bool_decide (ends s = []) /\
  reader_count (pbuf s) = count reads (ends s) /\
  writer_count (pbuf s) = count writes (ends s) /\
  (forall fp, fp ∈ ends s -> exists b' fr, pipe_release fp (pbuf s) = Some (b', fr) /\
     fr = bool_decide (length (ends s) = 1%nat)).
Proof.
  intros Hs; assert (Hok : pipe_ok (opened euid egid mem)).
  { split; cbn; try done; try lia. constructor; [left; done | constructor; [right; done | constructor]]. }
  pose proof (pipe_steps_ok _ _ Hs Hok) as [Hr Hw Hf Hb Hm Hfr].
  split_and!; try done. intros fp Hin.
  apply list_elem_of_split in Hin as (l1 & l2 & El).
  assert (St : freed s = false) by (rewrite Hfr, bool_decide_eq_false_2; [done|]; rewrite El; destruct l1; done).
  rewrite El in *; rewrite !count_app, !count_cons, !length_app in *; cbn [length] in *.
  pose proof (count_range reads l1); pose proof (count_range reads l2).
  pose proof (count_range writes l1); pose proof (count_range writes l2).
  pose proof (proj1 (Forall_app _ _ _) Hm) as [_ Hm2]; apply Forall_cons in Hm2 as [Hm0 _].
  destruct (release_counts fp (pbuf s) (count reads l1 + count reads l2)
              (count writes l1 + count writes l2)) as (b1 & E1 & _); try lia; try done.
  exists b1, (count reads l1 + count reads l2 + (count writes l1 + count writes l2) =? 0).
  split; [done|].
  assert (Hok' : pipe_ok (PipeSys b1 (l1 ++ l2)
            (count reads l1 + count reads l2 + (count writes l1 + count writes l2) =? 0))).
  { eapply pipe_step_ok; [eapply (PRelease s l1 fp l2) | split]; try done;
      rewrite El, ?count_app, ?count_cons, ?length_app; done. }
  pose proof (pk_freed _ Hok') as F; cbn [freed ends] in F; rewrite F.
  apply bool_decide_ext. destruct l1, l2; cbn; split; intros; done || lia.
Qed.

(** The flag that makes an end point non-blocking. *)
Definition nonblocking (fp : file) : Prop := nz (Z.land (f_flag fp) O_NONBLOCK) = true.

(** On a non-blocking readable end point read() moves bytes exactly
    when poll reports it readable; otherwise it returns 0 (end of file)
    exactly when poll reports hang-up, and -EAGAIN when it does not. *)
Theorem pipe_read_poll_agree fp b len :
  cyb_wf b -> nonblocking fp -> reads fp = true -> 0 < len < 2 ^ 31 -> 0 <= writer_count b ->
  let ready := (pipe_poll_common b (Z.lor FS_POLL_READ FS_POLL_HUP) false).1 in
  exists r dst b', pipe_read fp b len [] = Returned r dst b' /\
    (0 < r <-> nz (Z.land ready FS_POLL_READ) = true) /\
    (r = 0 <-> nz (Z.land ready FS_POLL_READ) = false /\ nz (Z.land ready FS_POLL_HUP) = true) /\
    (r = - EAGAIN <-> ready = 0).
Proof.
  unfold nonblocking, reads; intros Hwf Hnb Hrd Hlen Hwc; pose proof (wf_len _ Hwf).
  unfold pipe_read, pipe_poll_common, cyb_getbuf, cyb_writer_count, cyb_isempty.
  apply negb_true_iff in Hrd; rewrite Hrd, Hnb, s32_id by lia.
  destruct (Z.eqb_spec len 0), (Z.leb_spec len 0); try lia. cbn [get_loop negb].
  destruct (Z.ltb_spec 0 (blen b)) as [Hb | Hb].
  - pose proof (get_section_spec b len Hwf ltac:(lia)) as G.
    destruct (get_section b len) as [[m d] b1]; destruct G as (-> & _).
    destruct (Z.ltb_spec (Z.min (blen b) len) 0), (Z.eqb_spec (Z.min (blen b) len) 0),
      (Z.eqb_spec (blen b) 0); try lia. cbn [andb].
    eexists _, _, _; split; [done|].
    destruct (writer_count b =? 0); cbn; unfold EAGAIN; intuition (lia || done).
  - destruct (Z.eqb_spec (blen b) 0); [|lia].
    destruct (Z.eqb_spec (writer_count b) 0) as [E | E]; cbn.
    + rewrite E; cbn; eexists _, _, _; split; [done|]; unfold EAGAIN; cbn; intuition (lia || done).
    + destruct (Z.ltb_spec 0 (writer_count b)); [|lia].
      eexists _, _, _; split; [done|]; unfold EAGAIN; cbn; intuition (lia || done).
Qed.

(** On a non-blocking writable end point write() of a non-empty span
    moves bytes exactly when poll reports it writable; otherwise it returns
    -EPIPE exactly when poll reports an error, and -EAGAIN when it does not. *)
Theorem pipe_write_poll_agree fp b data user pending :
  cyb_wf b -> nonblocking fp -> writes fp = true -> 0 < Z.of_nat (length data) < 2 ^ 31 ->
  0 <= reader_count b ->
  let ready := (pipe_poll_common b (Z.lor FS_POLL_WRITE FS_POLL_ERR) false).1 in
  exists r out b', pipe_write fp b data user pending [] = Returned r out b' /\
    (0 < r <-> nz (Z.land ready FS_POLL_WRITE) = true) /\
    (r = - EPIPE <-> nz (Z.land ready FS_POLL_ERR) = true) /\
    (r = - EAGAIN <-> ready = 0).
Proof.
  unfold nonblocking, writes; intros Hwf Hnb Hrd Hlen Hrc; pose proof (wf_len _ Hwf).
  unfold pipe_write, pipe_poll_common, cyb_putbuf, cyb_reader_count, cyb_isfull.
  apply negb_true_iff in Hrd; rewrite Hrd, Hnb.
  destruct (Z.eqb_spec (Z.of_nat (length data)) 0); [lia|].
  destruct (Z.eqb_spec (reader_count b) 0) as [E | E].
  { eexists _, _, _; split; [done|]. rewrite E; cbn. unfold EPIPE, EAGAIN; intuition (lia || done). }
  destruct (Z.ltb_spec 0 (reader_count b)); [|lia].
  destruct (put_section_spec b data 0 Hwf ltac:(lia) ltac:(unfold UINT32_MOD; lia))
    as (En & _ & _ & _ & _ & Er & _).
  cbn [put_loop negb orb]; destruct (put_section b data 0) as [b1 m]; cbn in En, Er; subst m.
  unfold put_room, space in *; rewrite u32_id, s32_id by (unfold UINT32_MOD; lia).
  rewrite Er; eexists _, _, _; split; [done|].
  destruct (Z.ltb_spec 0 (reader_count b)); [|lia].
  destruct (Z.eqb_spec (0 + Z.min (buf_size b - blen b) (Z.of_nat (length data) - 0)) 0),
    (Z.eqb_spec (blen b) (buf_size b)); try lia; cbn; unfold EPIPE, EAGAIN; intuition (lia || done).
Qed.

(** The result of a write loop is the number of bytes stored, or an error
    when it stored none. *)
Lemma put_loop_result data blocking ws :
  Z.of_nat (length data) < 2 ^ 31 ->
  forall b written r w b', cyb_wf b -> Forall (fun k => cyb_wf (buf_after k)) ws ->
  0 <= written <= Z.of_nat (length data) ->
  put_loop data written blocking b ws = Returned r w b' ->
  written <= w <= Z.of_nat (length data) /\
  (r = w \/ (w = 0 /\ (r = - EPIPE \/ r = - EINTR))).
Proof.
  intros Hd; induction ws as [|k ws IH]; intros b written r w b' Hwf Hws Hw;
    destruct (put_section_spec b data written Hwf ltac:(lia) ltac:(unfold UINT32_MOD; lia))
      as (En & _);
    pose proof (wf_len _ Hwf); cbn [put_loop];
    destruct (put_section b data written) as [b1 n]; cbn in En; subst n;
    assert (0 <= put_room b data written <= Z.of_nat (length data) - written)
      by (unfold put_room, space in *; lia);
    rewrite u32_id, s32_id by (unfold UINT32_MOD; lia);
    set (w' := written + put_room b data written) in *;
    (destruct (negb blocking || _); [intros [= <- <- <-]; lia|]);
    (destruct (cyb_reader_count b1 =? 0);
     [destruct (Z.ltb_spec 0 w'); intros [= <- <- <-]; lia|]); [done|].
  apply Forall_cons in Hws as [Hk Hws].
  destruct (wait_ret k <? 0); [destruct (Z.ltb_spec 0 w'); intros [= <- <- <-]; lia|].
  destruct (Z.ltb_spec w' (Z.of_nat (length data))); [|intros [= <- <- <-]; lia].
  intros E; apply (IH _ w' _ _ _ Hk Hws) in E; lia.
Qed.

(** A write fails with -EPIPE only after storing nothing, and then, and
    only then, it makes SIGPIPE pending for a user task; a write on a pipe
    without readers does fail so and leaves the buffer alone; and a positive
    result is the number of bytes stored. *)
Theorem pipe_write_sigpipe fp b data user pending ws r w pending' b' :
  cyb_wf b -> Forall (fun k => cyb_wf (buf_after k)) ws ->
  0 < Z.of_nat (length data) < 2 ^ 31 -> writes fp = true ->
  pipe_write fp b data user pending ws = Returned r (w, pending') b' ->
  (r = - EPIPE -> w = 0) /\ (0 < r -> r = w) /\
  pending' = (if (r =? - EPIPE) && user then Z.lor pending (2 ^ 12) else pending) /\
  (reader_count b = 0 -> r = - EPIPE /\ b' = b).
Proof.
  unfold writes; intros Hwf Hws Hd Hm; apply negb_true_iff in Hm.
  unfold pipe_write, cyb_reader_count; rewrite Hm.
  destruct (Z.eqb_spec (Z.of_nat (length data)) 0); [lia|].
  set (nb := nz (Z.land (f_flag fp) O_NONBLOCK)).
  destruct (Z.eqb_spec (reader_count b) 0) as [E0 | E0].
  { destruct nb; cbn; intros [= <- <- <- <-]; unfold EPIPE; destruct user; split_and!; done || lia. }
  unfold cyb_putbuf. destruct (Z.eqb_spec (Z.of_nat (length data)) 0); [lia|].
  destruct (put_loop data 0 (negb nb) b ws) as [r0 w0 b0|] eqn:E; [|done].
  apply (put_loop_result data (negb nb) ws ltac:(lia) b 0 r0 w0 b0) in E as [Hw Hr]; [|done..|lia].
  intros [= <- <- <- <-]. unfold EAGAIN, EPIPE, EINTR in *.
  destruct (nb && (r0 =? 0) && (0 <? reader_count b0)) eqn:Ea; split_and!; try done; lia.
Qed.

(** Round trip through a fresh pipe: what is written in one call of at
    most 64 KB is what the next read returns, byte for byte. *)
Theorem pipe_round_trip euid egid mem data len :
  length mem = Z.to_nat 65536 -> 0 < Z.of_nat (length data) <= 65536 ->
  Z.of_nat (length data) <= len < 2 ^ 31 ->
  let '(rd, wr, b) := pipe_open euid egid mem in
  exists b1 b2,
    pipe_write wr b data true 0 [] = Returned (Z.of_nat (length data)) (Z.of_nat (length data), 0) b1 /\
    pipe_read rd b1 len [] = Returned (Z.of_nat (length data)) data b2 /\ blen b2 = 0.
Proof.
  intros Hm Hd Hlen; cbn [pipe_open]. set (b := cyb_create 16 mem).
  assert (Hwf : cyb_wf b) by (subst b; split; cbn; rewrite ?Hm; done || lia).
  assert (Hc : contents b = []) by done.
  unfold pipe_write; cbn [f_private mode f_flag].
  destruct (put_section_spec b data 0 Hwf ltac:(lia) ltac:(unfold UINT32_MOD; lia))
    as (En & C & W & _ & L & Er & _).
  assert (R : put_room b data 0 = Z.of_nat (length data))
    by (unfold put_room, space; change (buf_size b) with 65536; change (blen b) with 0; lia).
  rewrite R in *. rewrite Hc, drop_0, firstn_all2 in C by lia.
  destruct (Z.eqb_spec (Z.of_nat (length data)) 0); [lia|].
  change (nz (Z.land O_WRONLY O_NONBLOCK)) with false.
  change (cyb_reader_count b =? 0) with false. cbn iota.
  unfold cyb_putbuf. destruct (Z.eqb_spec (Z.of_nat (length data)) 0); [lia|].
  cbn [put_loop negb]. destruct (put_section b data 0) as [b1 m]; cbn in En, C, W, L, Er; subst m.
  rewrite u32_id, Z.add_0_l, s32_id, Z.eqb_refl by (unfold UINT32_MOD; lia).
  exists b1. cbn [orb andb].
  destruct (Z.eqb_spec (Z.of_nat (length data)) (- EPIPE)); [unfold EPIPE in *; lia|].
  pose proof (get_section_spec b1 len W ltac:(lia)) as G.
  unfold pipe_read; cbn [f_private mode f_flag].
  change (nz (Z.land O_RDONLY O_NONBLOCK)) with false.
  destruct (Z.eqb_spec len 0); [lia|]. rewrite s32_id by lia.
  unfold cyb_getbuf; destruct (Z.leb_spec len 0); [lia|]. cbn [get_loop negb].
  assert (L1 : blen b1 = Z.of_nat (length data)) by (rewrite L; done).
  destruct (Z.ltb_spec 0 (blen b1)); [|lia].
  destruct (get_section b1 len) as [[m d] b2]; destruct G as (-> & -> & _ & _ & L2 & _).
  exists b2; split; [done|].
  rewrite C, L1, Z.min_l, firstn_all2 by lia.
  destruct (Z.ltb_spec (Z.of_nat (length data)) 0); [lia|]. split; [done | lia].
Qed.

(** ** Concrete instances *)

Definition demo_rw : file :=
  File (PipeInode O_RDWR 0 0) 0 pipe_rw_fops 1 O_RDWR (Z.lor O_RDWR O_NONBLOCK).

(** A pipe whose write end has been released. *)
Definition demo_half : pipe_sys :=
  let '(r, w, b) := pipe_open 0 0 [] in PipeSys (cyb_writer_close b).1 [r] false.

Lemma demo_half_reached : rtc pipe_step (opened 0 0 []) demo_half.
Proof.
  eapply rtc_l; [|apply rtc_refl]. unfold opened, demo_half; cbn [pipe_open].
  apply (PRelease (PipeSys _ _ _) [(pipe_open 0 0 []).1.1] (pipe_open 0 0 []).1.2 []); reflexivity.
Qed.

Lemma pipe_lifetime_witness :
  freed demo_half = bool_decide (ends demo_half = []) /\
  writer_count (pbuf demo_half) = 0.
Proof.
  destruct (pipe_lifetime 0 0 [] demo_half demo_half_reached) as (F & _ & W & _).
  split; [exact F | exact W].
Defined.

Lemma pipe_read_poll_agree_witness :
  exists r dst b', pipe_read demo_rw demo_left 5 [] = Returned r dst b' /\
    (0 < r <-> nz (Z.land (pipe_poll_common demo_left (Z.lor FS_POLL_READ FS_POLL_HUP) false).1
                     FS_POLL_READ) = true).
Proof.
  destruct (pipe_read_poll_agree demo_rw demo_left 5 demo_left_wf eq_refl eq_refl)
    as (r & d & b' & E & K & _); [lia | vm_compute; discriminate|].
  exists r, d, b'; split; [exact E | exact K].
Defined.

Lemma pipe_write_poll_agree_witness :
  exists r out b', pipe_write demo_rw demo_left [1] true 0 [] = Returned r out b' /\
    (0 < r <-> nz (Z.land (pipe_poll_common demo_left (Z.lor FS_POLL_WRITE FS_POLL_ERR) false).1
                     FS_POLL_WRITE) = true).
Proof.
  destruct (pipe_write_poll_agree demo_rw demo_left [1] true 0 demo_left_wf eq_refl eq_refl)
    as (r & d & b' & E & K & _); [cbn; lia | vm_compute; discriminate|].
  exists r, d, b'; split; [exact E | exact K].
Defined.

Definition demo_broken : cy_buf := CyBuf 0 0 0 1 0 0 0 1 0 1 [0; 0; 0; 0] 4 [].

Lemma pipe_write_sigpipe_witness :
  pipe_write demo_rw demo_broken [1] true 0 [] = Returned (- EPIPE) (0, 4096) demo_broken /\
  4096 = (if (- EPIPE =? - EPIPE) && true then Z.lor 0 (2 ^ 12) else 0).
Proof.
  split; [reflexivity|].
  apply (pipe_write_sigpipe demo_rw demo_broken [1] true 0 [] (- EPIPE) 0 4096 demo_broken);
    [split; cbn; lia || done | constructor | cbn; lia | reflexivity | reflexivity].
Defined.

Lemma pipe_round_trip_witness :
  exists b1 b2,
    pipe_write (pipe_open 0 0 (replicate (Z.to_nat 65536) 0)).1.2
      (pipe_open 0 0 (replicate (Z.to_nat 65536) 0)).2 [1; 2] true 0 [] = Returned 2 (2, 0) b1 /\
    pipe_read (pipe_open 0 0 (replicate (Z.to_nat 65536) 0)).1.1 b1 9 [] = Returned 2 [1; 2] b2 /\
    blen b2 = 0.
Proof.
  apply (pipe_round_trip 0 0 (replicate (Z.to_nat 65536) 0) [1; 2] 9);
    [apply length_replicate | cbn; lia | cbn; lia].
Defined.
