(* ===== verification/Phymm.v ===== *)
(** * The physical page allocator

    Model of src/mm/impl/phymm.c: a buddy allocator over the page indices
    [phymm_begin, phymm_end), per-page reference counts, the cache budget
    and the boot-time population from the firmware memory map.

    The page array is a function from indices to descriptors.  The chain of
    list_entry links of one order is the list of the page indices on it, head
    first; a descriptor's own list_entry is empty (self-linked) exactly when
    its index is on no list. *)

From S2P Require Import Prelude.
Open Scope mos_scope.

Definition PHYMM_INVALID : Z := 0xFFFFFFFF.
Definition PHYMM_RESERVED : Z := 0xFFFFFFFE.
Definition MAX_BUDDY_ORDER : Z := 10.
Definition PHYMM_ORDER_NONE : Z := 0xFE.
Definition PHYMM_PAGE_DIRTY : Z := 1.

(** The constants of arch/<arch>/arch/config.h. *)
Class PhysConfig := {
  MOS_KERNEL_RAM_LIMIT : Z;
  MOS_KERNEL_ALLOC_PREFERRED_BASE : Z;
  MOS_DMA_RAM_LIMIT : Z;
  PHYMM_ADDRESS_LIMIT : Z;
  MOS_BLOCK_CACHE_MAX_PAGES : Z }.

#[export] Instance x86_config : PhysConfig := {
  MOS_KERNEL_RAM_LIMIT := 0xF0000000 - 0xC0000000;
  MOS_KERNEL_ALLOC_PREFERRED_BASE := 0xF0000000 - 0xC0000000;
  MOS_DMA_RAM_LIMIT := 0xF0000000 - 0xC0000000;
  PHYMM_ADDRESS_LIMIT := 0x100000000;
  MOS_BLOCK_CACHE_MAX_PAGES := UINT32_MAX }.

Definition x64_config : PhysConfig := {|
  MOS_KERNEL_RAM_LIMIT := 0x2000000000;
  MOS_KERNEL_ALLOC_PREFERRED_BASE := 0x100000000;
  MOS_DMA_RAM_LIMIT := 0x100000000;
  PHYMM_ADDRESS_LIMIT := 0x2000000000;
  MOS_BLOCK_CACHE_MAX_PAGES := UINT32_MAX |}.

Record phymm_page := Page { ref_count : Z; order : Z; flags : Z }.

Record phymm := Phymm {
  phymm_begin : Z; phymm_end : Z;
  phymm_pages : Z -> phymm_page;
  buddy_lists : Z -> list Z;
  buddy_free_pages : Z; managed_pages : Z; phymm_used : Z }.

Definition upd {A} (f : Z -> A) (k : Z) (v : A) : Z -> A := fun x => if x =? k then v else f x.

Definition set_pages (st : phymm) (f : Z -> phymm_page) : phymm :=
  Phymm (phymm_begin st) (phymm_end st) f (buddy_lists st)
    (buddy_free_pages st) (managed_pages st) (phymm_used st).
Definition set_page (st : phymm) (i : Z) (p : phymm_page) : phymm :=
  set_pages st (upd (phymm_pages st) i p).
Definition set_free (st : phymm) (l : Z -> list Z) (n : Z) : phymm :=
  Phymm (phymm_begin st) (phymm_end st) (phymm_pages st) l n (managed_pages st) (phymm_used st).

Definition set_order (p : phymm_page) (o : Z) : phymm_page := Page (ref_count p) o (flags p).
Definition set_ref (p : phymm_page) (r : Z) : phymm_page := Page r (order p) (flags p).

(** ** Helpers *)

(** [None]: the loop does not end ([size] has wrapped to 0). *)
Fixpoint ceil_log2_loop (fuel : nat) (n ord size : Z) : option Z :=
  match fuel with
  | O => None
  | S fuel' =>
      if size <? n then ceil_log2_loop fuel' n (ord +u 1) (u32 (Z.shiftl size 1))
      else Some ord
  end.
Definition ceil_log2 (n : Z) : option Z := ceil_log2_loop 33 n 0 1.

Definition orders : list Z := seqZ 0 (MAX_BUDDY_ORDER + 1).

(** The descriptor's list_entry is linked. *)
Definition linked (st : phymm) (idx : Z) : bool :=
  existsb (fun o => existsb (Z.eqb idx) (buddy_lists st o)) orders.

Definition buddy_first (st : phymm) (o : Z) : Z :=
  match buddy_lists st o with [] => PHYMM_INVALID | i :: _ => i end.

Definition buddy_push (st : phymm) (idx o : Z) : phymm :=
  let st1 := set_page st idx (set_order (phymm_pages st idx) o) in
  set_free st1 (upd (buddy_lists st) o (idx :: buddy_lists st o))
    (buddy_free_pages st +u Z.shiftl 1 o).

(** list_remove_entry() unlinks the entry from whatever list it is on. *)
Definition buddy_remove (st : phymm) (idx : Z) : phymm :=
  set_free st (fun o => List.filter (fun i => negb (i =? idx)) (buddy_lists st o))
    (buddy_free_pages st -u Z.shiftl 1 (order (phymm_pages st idx))).

Definition buddy_pop (st : phymm) (o : Z) : Z * phymm :=
  let idx := buddy_first st o in
  (idx, if negb (idx =? PHYMM_INVALID) then buddy_remove st idx else st).

Definition buddy_is_free_at_order (st : phymm) (idx o : Z) : bool :=
  if (idx <? phymm_begin st) || (phymm_end st <=? idx) then false
  else (ref_count (phymm_pages st idx) =? 0) && (order (phymm_pages st idx) =? o) && linked st idx.

(** ** Allocation *)

(** The descent from order [order + k] to [order]: the upper halves go back
    to the lists. *)
Fixpoint split_low (st : phymm) (idx ord : Z) (k : nat) : phymm :=
  match k with
  | O => st
  | S k' =>
      let o := ord + Z.of_nat k' in
      let half := idx +u Z.shiftl 1 o in
      let st1 := if half <? phymm_end st
                 then buddy_push (set_page st half (set_ref (phymm_pages st half) 0)) half o
                 else st in
      split_low st1 idx ord k'
  end.

(** The same, keeping the upper half; the index it ends at. *)
Fixpoint split_high (st : phymm) (idx ord : Z) (k : nat) : phymm * Z :=
  match k with
  | O => (st, idx)
  | S k' =>
      let o := ord + Z.of_nat k' in
      let upper := idx +u Z.shiftl 1 o in
      if upper <? phymm_end st
      then split_high (buddy_push (set_page st idx (set_ref (phymm_pages st idx) 0)) idx o) upper ord k'
      else split_high st idx ord k'
  end.

(** The order of the head page, and PHYMM_ORDER_NONE on the other pages. *)
Definition mark_block (st : phymm) (idx ord : Z) : phymm :=
  let st1 := set_page st idx (set_order (phymm_pages st idx) ord) in
  foldl (fun s half =>
           if (idx +u half) <? phymm_end s
           then set_page s (idx +u half) (set_order (phymm_pages s (idx +u half)) PHYMM_ORDER_NONE)
           else s)
    st1 (seqZ 1 (Z.shiftl 1 ord - 1)).

(** The for loop over the orders [o, MAX_BUDDY_ORDER]. *)
Fixpoint alloc_loop (st : phymm) (ord o : Z) (n : nat) : Z * phymm :=
  match n with
  | O => (PHYMM_INVALID, st)
  | S n' =>
      let '(idx, st1) := buddy_pop st o in
      if idx =? PHYMM_INVALID then alloc_loop st ord (o + 1) n'
      else (idx, mark_block (split_low st1 idx ord (Z.to_nat (o - ord))) idx ord)
  end.
Definition buddy_alloc (st : phymm) (ord : Z) : Z * phymm :=
  alloc_loop st ord ord (Z.to_nat (MAX_BUDDY_ORDER + 1 - ord)).

(** The highest index on a list. *)
Definition best_of (l : list Z) : Z :=
  foldl (fun best idx => if (best =? PHYMM_INVALID) || (best <? idx) then idx else best)
    PHYMM_INVALID l.

Fixpoint alloc_high_loop (st : phymm) (ord o : Z) (n : nat) : Z * phymm :=
  match n with
  | O => (PHYMM_INVALID, st)
  | S n' =>
      let best := best_of (buddy_lists st o) in
      if best =? PHYMM_INVALID then alloc_high_loop st ord (o + 1) n'
      else
        let '(st1, idx) := split_high (buddy_remove st best) best ord (Z.to_nat (o - ord)) in
        (idx, mark_block st1 idx ord)
  end.
Definition buddy_alloc_high (st : phymm) (ord : Z) : Z * phymm :=
  alloc_high_loop st ord ord (Z.to_nat (MAX_BUDDY_ORDER + 1 - ord)).

Definition buddy_block_fits (idx o min_idx max_idx : Z) : bool :=
  (min_idx <=? idx) && ((idx +u Z.shiftl 1 o) <=? max_idx).

Definition first_fit (l : list Z) (o min_idx max_idx : Z) : option Z :=
  List.find (fun idx => buddy_block_fits idx o min_idx max_idx) l.

Fixpoint alloc_range_loop (st : phymm) (ord o min_idx max_idx : Z) (n : nat) : Z * phymm :=
  match n with
  | O => (PHYMM_INVALID, st)
  | S n' =>
      match first_fit (buddy_lists st o) o min_idx max_idx with
      | None => alloc_range_loop st ord (o + 1) min_idx max_idx n'
      | Some idx =>
          (idx, mark_block (split_low (buddy_remove st idx) idx ord (Z.to_nat (o - ord))) idx ord)
      end
  end.
Definition buddy_alloc_in_range (st : phymm) (ord min_idx max_idx : Z) : Z * phymm :=
  if max_idx <=? min_idx then (PHYMM_INVALID, st)
  else alloc_range_loop st ord ord min_idx max_idx (Z.to_nat (MAX_BUDDY_ORDER + 1 - ord)).

(** ** Release *)

Fixpoint coalesce (st : phymm) (idx ord : Z) (k : nat) : phymm * Z * Z :=
  match k with
  | O => (st, idx, ord)
  | S k' =>
      let buddy := Z.lxor idx (Z.shiftl 1 ord) in
      if negb (buddy_is_free_at_order st buddy ord) then (st, idx, ord)
      else coalesce (buddy_remove st buddy) (if buddy <? idx then buddy else idx) (ord + 1) k'
  end.

Definition buddy_free_block (st : phymm) (idx ord : Z) : phymm :=
  let '(st1, idx1, ord1) := coalesce st idx ord (Z.to_nat (MAX_BUDDY_ORDER - ord)) in
  let p := phymm_pages st1 idx1 in
  buddy_push (set_page st1 idx1 (Page 0 (order p) 0)) idx1 ord1.

(** ** Public allocation and release *)

(** First of several attempts: [k] continues when [r] failed. *)
Definition or_else (r : Z * phymm) (k : phymm -> Z * phymm) : Z * phymm :=
  if fst r =? PHYMM_INVALID then k (snd r) else r.

Section Config.
Context {cfg : PhysConfig}.

Definition phymm_kernel_page_limit (st : phymm) : Z :=
  let limit := u32 (MOS_KERNEL_RAM_LIMIT / PAGE_SIZE) in
  if limit <? phymm_end st then limit else phymm_end st.

(** [None]: ceil_log2() does not return. *)
Definition phymm_alloc_kernel (st : phymm) (page_count : Z) : option (Z * phymm) :=
  ord ← ceil_log2 (if nz page_count then page_count else 1);
  Some (if MAX_BUDDY_ORDER <? ord then (PHYMM_INVALID, st)
        else or_else
               (buddy_alloc_in_range st ord (u32 (MOS_KERNEL_ALLOC_PREFERRED_BASE / PAGE_SIZE))
                  (phymm_kernel_page_limit st))
               (fun st1 => buddy_alloc_in_range st1 ord (phymm_begin st1) (phymm_kernel_page_limit st1))).

Definition phymm_alloc_dma (st : phymm) (page_count : Z) : option (Z * phymm) :=
  ord ← ceil_log2 (if nz page_count then page_count else 1);
  let limit := u32 (MOS_DMA_RAM_LIMIT / PAGE_SIZE) in
  Some (if MAX_BUDDY_ORDER <? ord then (PHYMM_INVALID, st)
        else buddy_alloc_in_range st ord (phymm_begin st)
               (if phymm_end st <? limit then phymm_end st else limit)).

Definition phymm_alloc_user (st : phymm) : Z * phymm :=
  or_else
    (or_else (buddy_alloc_in_range st 0 0x100000 (phymm_end st))
       (fun st1 => buddy_alloc_in_range st1 0 (phymm_kernel_page_limit st1) (phymm_end st1)))
    (fun st2 => buddy_alloc_high st2 0).

Definition phymm_alloc_cache_pages (st : phymm) (page_count : Z) : option (Z * phymm) :=
  ord ← ceil_log2 (if nz page_count then page_count else 1);
  Some (if MAX_BUDDY_ORDER <? ord then (PHYMM_INVALID, st)
        else or_else
               (or_else (buddy_alloc_in_range st ord 0x100000 (phymm_end st))
                  (fun st1 => buddy_alloc_in_range st1 ord (phymm_kernel_page_limit st1) (phymm_end st1)))
               (fun st2 => if phymm_end st2 <=? phymm_kernel_page_limit st2
                           then buddy_alloc_high st2 ord else (PHYMM_INVALID, st2))).

Definition phymm_alloc_cache (st : phymm) : option (Z * phymm) := phymm_alloc_cache_pages st 1.

Definition phymm_free_kernel (st : phymm) (page_index page_count : Z) : option phymm :=
  if (page_index =? PHYMM_INVALID) || (page_index <? phymm_begin st) || (phymm_end st <=? page_index)
  then Some st
  else
    let ord := order (phymm_pages st page_index) in
    ord' ← (if MAX_BUDDY_ORDER <? ord
            then ceil_log2 (if nz page_count then page_count else 1) else Some ord);
    Some (buddy_free_block st page_index ord').

Definition phymm_free_user (st : phymm) (page_index : Z) : phymm :=
  if (page_index =? PHYMM_INVALID) || (page_index <? phymm_begin st) || (phymm_end st <=? page_index)
  then st
  else buddy_free_block st page_index 0.

(** ** Cache budget *)

Record phymm_cache_policy := Policy { file_pages : Z; block_pages : Z; reserve_pages : Z }.

Definition phymm_cache_budget (total free file_cached block_cached : Z) : phymm_cache_policy :=
  let available := u64 (u64 (free + file_cached) + block_cached) in
  let available := if total <? available then total else available in
  let fp := if block_cached <? available then u32 (available - block_cached) else 0 in
  let bp := if file_cached <? available then u32 (available - file_cached) else 0 in
  let fp := if nz fp then fp else 1 in
  let bp := if nz bp then bp else 1 in
  let bp := if MOS_BLOCK_CACHE_MAX_PAGES <? bp then MOS_BLOCK_CACHE_MAX_PAGES else bp in
  Policy fp bp 0.

Definition phymm_get_cache_policy_snapshot (st : phymm) (file_cached block_cached : Z)
  : phymm_cache_policy :=
  phymm_cache_budget (managed_pages st) (buddy_free_pages st) file_cached block_cached.

(** [file_reclaim] and [block_reclaim] are the results of the two caches'
    reclaim calls. *)
Definition phymm_reclaim_user_cache (file_reclaim block_reclaim : Z -> Z) (target_pages : Z) : Z :=
  let freed := file_reclaim target_pages in
  if freed <? target_pages then freed +u block_reclaim (target_pages -u freed) else freed.
Definition phymm_reclaim_kernel_cache (block_reclaim : Z -> Z) (target_pages : Z) : Z :=
  block_reclaim target_pages.

(** ** Reference counts *)

Definition set_used (st : phymm) (n : Z) : phymm :=
  Phymm (phymm_begin st) (phymm_end st) (phymm_pages st) (buddy_lists st)
    (buddy_free_pages st) (managed_pages st) n.

Definition phymm_reference_page (st : phymm) (i : Z) : Z * phymm :=
  let p := phymm_pages st i in
  let ret := ref_count p +u 1 in
  let st1 := set_page st i (set_ref p ret) in
  (ret, if ret =? 1 then set_used st1 (phymm_used st +u 1) else st1).

Definition phymm_dereference_page (st : phymm) (i : Z) : Z * phymm :=
  let p := phymm_pages st i in
  let ret := ref_count p -u 1 in
  let st1 := set_page st i (set_ref p ret) in
  (ret, if ret =? 0 then set_used st1 (phymm_used st -u 1) else st1).

Definition phymm_is_cow (st : phymm) (i : Z) : bool := 1 <? s32 (ref_count (phymm_pages st i)).
Definition phymm_is_used (st : phymm) (i : Z) : bool := 0 <? s32 (ref_count (phymm_pages st i)).

(** ** Usage *)

Record phymm_usage := Usage {
  low_total_pages : Z; low_used_pages : Z; low_free_pages : Z;
  high_total_pages : Z; high_used_pages : Z; high_free_pages : Z }.

(** Low and high totals over the managed, not reserved pages. *)
Definition count_totals (st : phymm) (limit : Z) : Z * Z :=
  foldl (fun '(low, high) i =>
           if ref_count (phymm_pages st i) =? PHYMM_RESERVED then (low, high)
           else if i <? limit then (low +u 1, high) else (low, high +u 1))
    (0, 0) (seqZ (phymm_begin st) (phymm_end st - phymm_begin st)).

(** One free block, cut at [limit]. *)
Definition add_block (limit o : Z) (acc : Z * Z) (idx : Z) : Z * Z :=
  let '(low, high) := acc in
  let end_ := idx +u Z.shiftl 1 o in
  let low_start := if idx <? limit then idx else limit in
  let low_end := if end_ <? limit then end_ else limit in
  let low := if low_start <? low_end then low +u (low_end - low_start) else low in
  let high_start := if limit <? idx then idx else limit in
  let high := if high_start <? end_ then high +u (end_ - high_start) else high in
  (low, high).

Definition count_free (st : phymm) (limit : Z) : Z * Z :=
  foldl (fun acc o => foldl (add_block limit o) acc (buddy_lists st o)) (0, 0) orders.

Definition phymm_get_usage (st : phymm) : phymm_usage :=
  let limit := phymm_kernel_page_limit st in
  let '(lt, ht) := count_totals st limit in
  let '(lf, hf) := count_free st limit in
  Usage lt (if lf <? lt then lt -u lf else 0) lf ht (if hf <? ht then ht -u hf else 0) hf.

Definition phymm_mark_dirty (st : phymm) (i : Z) : phymm :=
  let p := phymm_pages st i in
  set_page st i (Page (ref_count p) (order p) (Z.lor (flags p) PHYMM_PAGE_DIRTY)).
Definition phymm_is_dirty (st : phymm) (i : Z) : bool :=
  nz (Z.land (flags (phymm_pages st i)) PHYMM_PAGE_DIRTY).
Definition phymm_clear_dirty (st : phymm) (i : Z) : phymm :=
  let p := phymm_pages st i in
  set_page st i (Page (ref_count p) (order p) (Z.land (flags p) 0xFE)).

(** ** Boot *)

(** sizeof(phymm_page): the counter, two links, two bytes and padding. *)
Definition phymm_get_mgmt_pages (sizeof_page highest_page : Z) : Z :=
  u32 (u64 (u64 (highest_page * sizeof_page) + PAGE_SIZE - 1) / PAGE_SIZE).

(** The largest order whose block is aligned at [p] and ends by [end_]. *)
Fixpoint fit_order (p end_ : Z) (o : nat) : Z :=
  match o with
  | O => 0
  | S o' =>
      let block := Z.shiftl 1 (Z.of_nat o) in
      if (Z.land p (block - 1) =? 0) && ((p +u block) <=? end_) then Z.of_nat o
      else fit_order p end_ o'
  end.

Fixpoint add_range_loop (fuel : nat) (st : phymm) (p end_ : Z) : phymm :=
  match fuel with
  | O => st
  | S fuel' =>
      if p <? end_ then
        let o := fit_order p end_ (Z.to_nat MAX_BUDDY_ORDER) in
        if end_ <? (p +u Z.shiftl 1 o) then st
        else add_range_loop fuel' (buddy_push st p o) (p +u Z.shiftl 1 o) end_
      else st
  end.
(** Every pass advances by at least one page. *)
Definition buddy_add_free_range (st : phymm) (start end_ : Z) : phymm :=
  add_range_loop (Z.to_nat (end_ - start)) st start end_.

Record memory_map := MemoryMap {
  base_addr_low : Z; base_addr_high : Z; length_low : Z; length_high : Z; mtype : Z }.

(** The first two steps of phymm_init(). *)
Definition init_reserve (st : phymm) : phymm :=
  foldl (fun s i => set_page s i (Page PHYMM_RESERVED PHYMM_ORDER_NONE (flags (phymm_pages s i))))
    (Phymm (phymm_begin st) (phymm_end st) (phymm_pages st) (fun _ => []) 0 0 (phymm_used st))
    (seqZ (phymm_begin st) (phymm_end st - phymm_begin st)).

(** The page range of a usable entry, clamped; [None] skips the entry. *)
Definition entry_range (st : phymm) (m : memory_map) : option (Z * Z) :=
  if mtype m =? 1 then
    let base := Z.lor (base_addr_low m) (Z.shiftl (base_addr_high m) 32) in
    let top := u64 (base + Z.lor (length_low m) (Z.shiftl (length_high m) 32)) in
    if PHYMM_ADDRESS_LIMIT <=? base then None
    else
      let top := if PHYMM_ADDRESS_LIMIT <? top then PHYMM_ADDRESS_LIMIT else top in
      let page_start := u32 (base / PAGE_SIZE) in
      let page_end := u32 (top / PAGE_SIZE) in
      let page_start := if page_start <? phymm_begin st then phymm_begin st else page_start in
      let page_end := if phymm_end st <? page_end then phymm_end st else page_end in
      if page_end <=? page_start then None else Some (page_start, page_end)
  else None.

Definition set_managed (st : phymm) (n : Z) : phymm :=
  Phymm (phymm_begin st) (phymm_end st) (phymm_pages st) (buddy_lists st)
    (buddy_free_pages st) n (phymm_used st).

Definition clear_reserved (st : phymm) (page_start page_end : Z) : phymm :=
  foldl (fun s i => set_managed
                      (set_page s i (Page 0 PHYMM_ORDER_NONE (flags (phymm_pages s i))))
                      (managed_pages s +u 1))
    st (seqZ page_start (page_end - page_start)).

Definition init_entry (st : phymm) (m : memory_map) : phymm :=
  match entry_range st m with
  | None => st
  | Some (s, e) => buddy_add_free_range (clear_reserved st s e) s e
  end.

(** The entries of the map in memory order. *)
Definition phymm_init (st : phymm) (map : list memory_map) : phymm :=
  foldl init_entry (init_reserve st) map.
End Config.
