(* ===== verification/PhymmInv.v ===== *)
(** * Invariant of the buddy allocator and what each operation does to it

    The free pages are those covered by a block on a free list.  Blocks are
    aligned, inside the managed range and pairwise disjoint, and the page
    counter is the number of free pages.  Each operation is described by its
    effect on the set of free pages. *)

From S2P Require Import Prelude Phymm.
Open Scope mos_scope.

(** ** Powers of two and counting *)

Lemma shiftl_1 o : 0 <= o -> Z.shiftl 1 o = 2 ^ o.
Proof. intros; rewrite Z.shiftl_1_l; done. Qed.

Lemma pow2_pos o : 0 <= o -> 1 <= 2 ^ o.
Proof. intros; pose proof (Z.pow_pos_nonneg 2 o); lia. Qed.

Lemma pow2_succ o : 0 <= o -> 2 ^ (o + 1) = 2 * 2 ^ o.
Proof. intros; rewrite Z.add_1_r, Z.pow_succ_r; lia. Qed.

Lemma pow2_le_1024 o : 0 <= o <= 10 -> 2 ^ o <= 1024.
Proof. intros; change 1024 with (2 ^ 10); apply Z.pow_le_mono_r; lia. Qed.

(** The buddy of an aligned block is its neighbour, and the two together
    are a block aligned at the next order. *)
Lemma lxor_buddy i o :
  0 <= o -> (2 ^ o | i) ->
  let b := Z.lxor i (2 ^ o) in
  (2 ^ (o + 1) | Z.min i b) /\ (b = i + 2 ^ o \/ b = i - 2 ^ o) /\ (2 ^ o | b).
Proof.
  intros Ho [q ->] b; subst b.
  replace (q * 2 ^ o) with (Z.shiftl q o) by (rewrite Z.shiftl_mul_pow2 by lia; done).
  replace (Z.lxor _ _) with (Z.shiftl (Z.lxor q 1) o)
    by (rewrite Z.shiftl_lxor, Z.shiftl_1_l; done).
  rewrite !Z.shiftl_mul_pow2, pow2_succ by lia.
  assert (E : Z.lxor q 1 = q + 1 /\ Z.even q = true \/ Z.lxor q 1 = q - 1 /\ Z.even q = false).
  { rewrite <- Z.negb_odd; destruct (Z.odd q) eqn:E; [right | left]; split; try done;
      apply Z.bits_inj'; intros n Hn; rewrite Z.lxor_spec.
    - pose proof (Zodd_bool_iff q) as [Hq _]; specialize (Hq E); apply Zodd_ex in Hq as [m ->].
      replace (2 * m + 1 - 1) with (2 * m) by lia.
      destruct (decide (n = 0)) as [-> | h]; [rewrite Z.testbit_odd_0, Z.testbit_even_0; done|].
      replace n with (Z.succ (n - 1)) by lia.
      rewrite Z.testbit_odd_succ, Z.testbit_even_succ by lia.
      rewrite (Z.bits_above_log2 1) by (cbn; lia). apply xorb_false_r.
    - assert (Hq : Z.even q = true) by (rewrite <- Z.negb_odd, E; done).
      apply Zeven_bool_iff, Zeven_ex in Hq as [m ->].
      destruct (decide (n = 0)) as [-> | h]; [rewrite Z.testbit_odd_0, Z.testbit_even_0; done|].
      replace n with (Z.succ (n - 1)) by lia.
      rewrite Z.testbit_odd_succ, Z.testbit_even_succ by lia.
      rewrite (Z.bits_above_log2 1) by (cbn; lia). apply xorb_false_r. }
  pose proof (pow2_pos o Ho).
  destruct E as [[-> E] | [-> E]]; split_and!; try (eexists; done); try nia.
  - apply Zeven_bool_iff, Zeven_ex in E as [m ->]. exists m. nia.
  - rewrite <- Z.negb_odd in E; apply negb_false_iff, Zodd_bool_iff, Zodd_ex in E as [m ->].
    exists m. nia.
Qed.

(** Number of indices of [b, e) that satisfy [f]. *)
Definition npages (f : Z -> bool) (b e : Z) : Z :=
  Z.of_nat (length (List.filter f (seqZ b (e - b)))).

Lemma npages_ext f g b e : (forall p, b <= p < e -> f p = g p) -> npages f b e = npages g b e.
Proof.
  intros H; unfold npages; do 2 f_equal; apply List.filter_ext_in; intros p Hp.
  apply list_elem_of_In, elem_of_seqZ in Hp; apply H; lia.
Qed.

Lemma npages_or f g b e :
  (forall p, b <= p < e -> f p = true -> g p = true -> False) ->
  npages (fun p => f p || g p) b e = npages f b e + npages g b e.
Proof.
  intros H; unfold npages.
  assert (H' : forall p, In p (seqZ b (e - b)) -> f p = true -> g p = true -> False).
  { intros p Hp; apply list_elem_of_In, elem_of_seqZ in Hp; apply H; lia. }
  induction (seqZ b (e - b)) as [|p l IH]; [done|]; cbn.
  assert (IH' := IH (fun q Hq => H' q (or_intror Hq))).
  specialize (H' p (or_introl eq_refl)).
  destruct (f p) eqn:Ef, (g p) eqn:Eg; cbn [orb length] in *; lia || (exfalso; auto).
Qed.

Lemma npages_none b e : npages (fun _ => false) b e = 0.
Proof. unfold npages; induction (seqZ b (e - b)); done. Qed.

Definition inb (i n p : Z) : bool := (i <=? p) && (p <? i + n).

Lemma npages_block i n b e : b <= i -> i + n <= e -> 0 <= n -> npages (inb i n) b e = n.
Proof.
  intros Hb He Hn; unfold npages, inb.
  replace (e - b) with ((i - b) + (n + (e - (i + n)))) by lia.
  rewrite seqZ_app, seqZ_app, !List.filter_app, !length_app by lia.
  assert (N : forall l, (forall p, In p l -> inb i n p = false) -> List.filter (inb i n) l = []).
  { induction l as [|p l IH]; [done|]; intros H; cbn; rewrite (H p) by (left; done).
    apply IH; intros; apply H; right; done. }
  assert (Y : forall l, (forall p, In p l -> inb i n p = true) -> List.filter (inb i n) l = l).
  { induction l as [|p l IH]; [done|]; intros H; cbn; rewrite (H p) by (left; done).
    f_equal; apply IH; intros; apply H; right; done. }
  fold (inb i n).
  rewrite (N (seqZ b (i - b))), (N (seqZ _ (e - (i + n)))), (Y (seqZ _ n)), length_seqZ; cbn; [lia|..];
    intros p Hp; apply list_elem_of_In, elem_of_seqZ in Hp; unfold inb; zcases; done || lia.
Qed.

Lemma npages_range f b e : b <= e -> 0 <= npages f b e <= e - b.
Proof.
  intros; unfold npages; pose proof (List.filter_length_le f (seqZ b (e - b))).
  rewrite length_seqZ in *; lia.
Qed.

(** ** Free pages and the invariant *)

(** [p] lies in a block of some free list. *)
Definition free_b (st : phymm) (p : Z) : bool :=
  existsb (fun o => existsb (fun i => inb i (2 ^ o) p) (buddy_lists st o)) orders.

Definition on_list (st : phymm) (o i : Z) : Prop := 0 <= o <= MAX_BUDDY_ORDER /\ In i (buddy_lists st o).

Definition apart (o i o' i' : Z) : Prop := i + 2 ^ o <= i' \/ i' + 2 ^ o' <= i.

(** A block that can be put on a list of order [o]. *)
Definition block_ok (st : phymm) (o i : Z) : Prop :=
  0 <= o <= MAX_BUDDY_ORDER /\ phymm_begin st <= i /\ i + 2 ^ o <= phymm_end st /\ (2 ^ o | i).

Record phymm_ok (st : phymm) : Prop := {
  k_range : 0 <= phymm_begin st <= phymm_end st /\ phymm_end st <= PHYMM_INVALID;
  k_block : forall o i, on_list st o i ->
    block_ok st o i /\ ref_count (phymm_pages st i) = 0 /\ order (phymm_pages st i) = o;
  k_nodup : forall o, 0 <= o <= MAX_BUDDY_ORDER -> List.NoDup (buddy_lists st o);
  k_apart : forall o i o' i', on_list st o i -> on_list st o' i' ->
    (o = o' /\ i = i') \/ apart o i o' i';
  k_count : buddy_free_pages st = npages (free_b st) (phymm_begin st) (phymm_end st) }.

Lemma inb_spec i n p : inb i n p = true <-> i <= p < i + n.
Proof. unfold inb; lia. Qed.

Lemma in_orders o : In o orders <-> 0 <= o <= MAX_BUDDY_ORDER.
Proof. unfold orders; rewrite <- list_elem_of_In, elem_of_seqZ. lia. Qed.

Lemma free_b_spec st p :
  free_b st p = true <-> exists o i, on_list st o i /\ i <= p < i + 2 ^ o.
Proof.
  unfold free_b, on_list; rewrite existsb_exists; setoid_rewrite existsb_exists.
  setoid_rewrite inb_spec; setoid_rewrite in_orders; split.
  - intros (o & Ho & i & Hi & Hp); eauto 10.
  - intros (o & i & [Ho Hi] & Hp); eauto 10.
Qed.

Lemma linked_spec st i : linked st i = true <-> exists o, on_list st o i.
Proof.
  unfold linked, on_list; rewrite existsb_exists; setoid_rewrite existsb_exists.
  setoid_rewrite in_orders; split.
  - intros (o & Ho & j & Hj & E); apply Z.eqb_eq in E as ->; eauto.
  - intros (o & Ho & Hi); exists o; split; [done|]; exists i; split; [done | apply Z.eqb_refl].
Qed.

(** Heads are free. *)
Lemma head_free st o i : on_list st o i -> free_b st i = true.
Proof.
  intros H; apply free_b_spec; exists o, i; split; [done|].
  destruct H as [H _]; pose proof (pow2_pos o); lia.
Qed.

(** States with the same lists and range. *)
Definition same_lists (st st' : phymm) : Prop :=
  phymm_begin st' = phymm_begin st /\ phymm_end st' = phymm_end st /\
  buddy_lists st' = buddy_lists st /\ buddy_free_pages st' = buddy_free_pages st.

Lemma same_lists_free st st' p : same_lists st st' -> free_b st' p = free_b st p.
Proof. intros (_ & _ & E & _); unfold free_b; rewrite E; done. Qed.

(** Pages that head no free block may be changed. *)
Lemma ok_same_lists st st' :
  same_lists st st' ->
  (forall o i, on_list st o i -> phymm_pages st' i = phymm_pages st i) ->
  phymm_ok st -> phymm_ok st'.
Proof.
  intros Hs Hp [Hr Hb Hn Ha Hc]; pose proof Hs as (E1 & E2 & E3 & E4).
  assert (HL : forall o i, on_list st' o i <-> on_list st o i) by (intros; unfold on_list; rewrite E3; done).
  split.
  - rewrite E1, E2; done.
  - intros o i Hi; apply HL in Hi. rewrite (Hp o i Hi). unfold block_ok; rewrite E1, E2. apply Hb; done.
  - intros o Ho; rewrite E3; auto.
  - intros o i o' i' Hi Hi'; apply HL in Hi, Hi'; auto.
  - rewrite E4, Hc, E1, E2. apply npages_ext; intros; symmetry; apply same_lists_free; done.
Qed.

Lemma same_lists_set_page st i p : same_lists st (set_page st i p).
Proof. repeat split. Qed.

Lemma ok_set_page st i p : phymm_ok st -> free_b st i = false -> phymm_ok (set_page st i p).
Proof.
  intros Hok Hf; eapply ok_same_lists; [apply same_lists_set_page | | exact Hok].
  intros o j Hj; cbn; unfold upd. destruct (Z.eqb_spec j i) as [-> |]; [|done].
  apply head_free in Hj; congruence.
Qed.

(** ** Removing and adding one block *)

Section Remove.
Variables (st : phymm) (o i : Z).
Hypothesis Hok : phymm_ok st.
Hypothesis Hi : on_list st o i.
Let st' := buddy_remove st i.

Lemma remove_on_list o' i' : on_list st' o' i' <-> on_list st o' i' /\ i' <> i.
Proof.
  unfold on_list, st'; cbn. rewrite filter_In, negb_true_iff, Z.eqb_neq. tauto.
Qed.

Lemma remove_free p : free_b st' p = free_b st p && negb (inb i (2 ^ o) p).
Proof.
  apply eq_true_iff_eq; rewrite andb_true_iff, negb_true_iff, <- not_true_iff_false, inb_spec.
  rewrite !free_b_spec; split.
  - intros (o' & i' & Hl & Hp); apply remove_on_list in Hl as [Hl Hne].
    split; [eauto|]. destruct (k_apart _ Hok _ _ _ _ Hl Hi) as [[-> ->] | [? | ?]]; lia.
  - intros ((o' & i' & Hl & Hp) & Hn); exists o', i'; split; [|done].
    apply remove_on_list; split; [done|]. intros ->.
    destruct (k_apart _ Hok _ _ _ _ Hl Hi) as [[-> _] | [? | ?]]; [lia | |];
      destruct Hl as [Hl _], Hi as [Ho _]; pose proof (pow2_pos o); pose proof (pow2_pos o'); lia.
Qed.

Lemma remove_ok : phymm_ok st'.
Proof.
  destruct (k_block _ Hok _ _ Hi) as [(Ho & Hb1 & Hb2 & Hb3) [_ Hord]].
  pose proof (k_range _ Hok) as Hr. split.
  - exact Hr.
  - intros o' i' Hl; apply remove_on_list in Hl as [Hl _]. exact (k_block _ Hok _ _ Hl).
  - intros o' Ho'; cbn. apply List.NoDup_filter, (k_nodup _ Hok); done.
  - intros * H1 H2; apply remove_on_list in H1 as [H1 _], H2 as [H2 _]; exact (k_apart _ Hok _ _ _ _ H1 H2).
  - unfold st'; cbn [buddy_remove buddy_free_pages set_free phymm_begin phymm_end].
    rewrite Hord, shiftl_1, (k_count _ Hok) by lia.
    assert (E : npages (free_b st) (phymm_begin st) (phymm_end st)
              = npages (free_b st') (phymm_begin st) (phymm_end st) + 2 ^ o).
    { rewrite <- (npages_block i (2 ^ o) (phymm_begin st) (phymm_end st)) by (pose proof (pow2_pos o); lia).
      rewrite <- npages_or.
      - apply npages_ext; intros p _; rewrite remove_free.
        destruct (inb i (2 ^ o) p) eqn:E; [|rewrite andb_true_r, orb_false_r; done].
        rewrite orb_true_r; apply free_b_spec; exists o, i; split; [done | apply inb_spec; done].
      - intros p _; rewrite remove_free; intros H1 H2; rewrite H2, andb_false_r in H1; done. }
    fold st'. rewrite E.
    pose proof (npages_range (free_b st') (phymm_begin st) (phymm_end st) ltac:(lia)).
    replace (_ + 2 ^ o - 2 ^ o) with (npages (free_b st') (phymm_begin st) (phymm_end st)) by lia.
    apply u32_id. unfold PHYMM_INVALID in Hr. unfold UINT32_MOD; lia.
Qed.
End Remove.

Section Push.
Variables (st : phymm) (o i : Z).
Hypothesis Hok : phymm_ok st.
Hypothesis Hblk : block_ok st o i.
Hypothesis Hdis : forall p, inb i (2 ^ o) p = true -> free_b st p = false.
Hypothesis Href : ref_count (phymm_pages st i) = 0.
Let st' := buddy_push st i o.

Lemma push_on_list o' i' : on_list st' o' i' <-> on_list st o' i' \/ (o' = o /\ i' = i).
Proof.
  unfold on_list, st'; cbn; unfold upd; destruct Hblk as [Ho _].
  destruct (Z.eqb_spec o' o) as [-> |]; cbn; intuition lia.
Qed.

Lemma push_free p : free_b st' p = free_b st p || inb i (2 ^ o) p.
Proof.
  apply eq_true_iff_eq; rewrite orb_true_iff, inb_spec, !free_b_spec; split.
  - intros (o' & i' & Hl & Hp); apply push_on_list in Hl as [Hl | [-> ->]]; eauto.
  - intros [(o' & i' & Hl & Hp) | Hp]; [exists o', i' | exists o, i]; rewrite push_on_list; auto.
Qed.

(** A listed block does not meet the new one. *)
Lemma push_apart o' i' : on_list st o' i' -> apart o' i' o i.
Proof.
  intros Hl; unfold apart.
  destruct (decide (i' + 2 ^ o' <= i)); [auto|]. destruct (decide (i + 2 ^ o <= i')); [auto|].
  exfalso. destruct Hblk as [Ho _]; pose proof Hl as [Ho' _].
  pose proof (pow2_pos o); pose proof (pow2_pos o').
  assert (F : free_b st (Z.max i i') = true) by (apply free_b_spec; exists o', i'; split; [done | lia]).
  rewrite Hdis in F; [done|]. apply inb_spec; lia.
Qed.

Lemma push_ok : phymm_ok st'.
Proof.
  pose proof Hblk as (Ho & Hb1 & Hb2 & Hb3); pose proof (k_range _ Hok) as Hr.
  pose proof (pow2_pos o ltac:(lia)).
  assert (Hni : forall o', ~ on_list st o' i).
  { intros o' Hl; apply head_free in Hl; rewrite Hdis in Hl; [done | apply inb_spec; lia]. }
  split.
  - exact Hr.
  - intros o' i' Hl; apply push_on_list in Hl as [Hl | [-> ->]].
    + destruct (k_block _ Hok _ _ Hl) as (B & R & O). unfold st'; cbn; unfold upd.
      destruct (Z.eqb_spec i' i) as [-> |]; [destruct (Hni _ Hl) | auto].
    + unfold st'; cbn; unfold upd; rewrite Z.eqb_refl; cbn. auto.
  - intros o' Ho'; unfold st'; cbn; unfold upd. destruct (Z.eqb_spec o' o) as [-> |]; [|apply (k_nodup _ Hok); done].
    constructor; [|apply (k_nodup _ Hok); done]. intros Hin; apply (Hni o); split; done.
  - intros o1 i1 o2 i2 H1 H2; apply push_on_list in H1, H2.
    destruct H1 as [H1 | [-> ->]], H2 as [H2 | [-> ->]].
    + exact (k_apart _ Hok _ _ _ _ H1 H2).
    + right; apply push_apart; done.
    + right; destruct (push_apart _ _ H2); unfold apart; auto.
    + auto.
  - unfold st'; cbn [buddy_push buddy_free_pages set_free phymm_begin phymm_end set_page set_pages].
    rewrite shiftl_1, (k_count _ Hok) by lia. fold st'.
    rewrite (npages_ext (free_b st') (fun p => free_b st p || inb i (2 ^ o) p)) by (intros; apply push_free).
    rewrite npages_or by (intros p _ H1 H2; rewrite Hdis in H1; done).
    rewrite npages_block by lia.
    pose proof (npages_range (fun p => free_b st p || inb i (2 ^ o) p) (phymm_begin st) (phymm_end st) ltac:(lia)) as R.
    rewrite npages_or, npages_block in R by (lia || (intros p _ H1 H2; rewrite Hdis in H1; done)).
    apply u32_id; unfold PHYMM_INVALID, UINT32_MOD in *; lia.
Qed.
End Push.

(** ** Splitting a block *)

(** [st'] differs from [st] only in the descriptors of pages in [S]. *)
Definition frame (S : Z -> Prop) (st st' : phymm) : Prop :=
  phymm_begin st' = phymm_begin st /\ phymm_end st' = phymm_end st /\
  managed_pages st' = managed_pages st /\
  forall p, ~ S p -> phymm_pages st' p = phymm_pages st p.

Lemma frame_trans (S S' : Z -> Prop) st1 st2 st3 :
  frame S st1 st2 -> frame S' st2 st3 -> (forall p, S' p -> S p) -> frame S st1 st3.
Proof.
  intros (A1 & A2 & A3 & A4) (B1 & B2 & B3 & B4) H; split_and!; try congruence.
  intros p Hp; rewrite B4 by auto; auto.
Qed.

Lemma frame_weaken (S S' : Z -> Prop) st st' : frame S st st' -> (forall p, S p -> S' p) -> frame S' st st'.
Proof. intros (A1 & A2 & A3 & A4) H; split_and!; auto. Qed.

Lemma frame_push st i o (S : Z -> Prop) : S i -> frame S st (buddy_push (set_page st i (set_ref (phymm_pages st i) 0)) i o).
Proof.
  intros; split_and!; try done. intros p Hp; cbn; unfold upd.
  destruct (Z.eqb_spec p i) as [-> |]; done.
Qed.

(** Pushing a block whose head is reset first. *)
Lemma push_reset_ok st o i r :
  phymm_ok st -> block_ok st o i -> (forall p, inb i (2 ^ o) p = true -> free_b st p = false) ->
  ref_count r = 0 ->
  let st' := buddy_push (set_page st i r) i o in
  phymm_ok st' /\ (forall p, free_b st' p = free_b st p || inb i (2 ^ o) p).
Proof.
  intros Hok Hb Hd Hr st'.
  assert (Hi : free_b st i = false).
  { apply Hd, inb_spec; destruct Hb as [? _]; pose proof (pow2_pos o); lia. }
  assert (Hok1 : phymm_ok (set_page st i r)) by (apply ok_set_page; done).
  split.
  - apply push_ok; try done. cbn; unfold upd; rewrite Z.eqb_refl; done.
  - intros p; subst st'; rewrite push_free; done.
Qed.

(** An aligned block of order [o + 1] is two aligned blocks of order [o]. *)
Lemma halves st o i :
  0 <= o -> block_ok st (o + 1) i -> block_ok st o i /\ block_ok st o (i + 2 ^ o).
Proof.
  intros Ho (H1 & H2 & H3 & [q Hq]); rewrite pow2_succ in * by lia.
  pose proof (pow2_pos o Ho). unfold block_ok; split_and!; try lia.
  - exists (2 * q); lia.
  - exists (2 * q + 1); lia.
Qed.

Lemma block_bound st o i : phymm_ok st -> block_ok st o i -> i +u Z.shiftl 1 o = i + 2 ^ o.
Proof.
  intros Hok (H1 & H2 & H3 & _); pose proof (k_range _ Hok) as [? Hr]; rewrite shiftl_1 by lia.
  apply u32_id; pose proof (pow2_pos o ltac:(lia)); unfold PHYMM_INVALID, UINT32_MOD in *; lia.
Qed.

Lemma block_same st st' o i :
  phymm_begin st' = phymm_begin st -> phymm_end st' = phymm_end st ->
  block_ok st' o i <-> block_ok st o i.
Proof. unfold block_ok; intros -> ->; done. Qed.

Lemma split_low_spec idx ord k :
  0 <= ord -> forall st, phymm_ok st -> block_ok st (ord + Z.of_nat k) idx ->
  (forall p, inb idx (2 ^ (ord + Z.of_nat k)) p = true -> free_b st p = false) ->
  let st' := split_low st idx ord k in
  phymm_ok st' /\
  (forall p, free_b st' p = free_b st p || inb (idx + 2 ^ ord) (2 ^ (ord + Z.of_nat k) - 2 ^ ord) p) /\
  frame (fun p => idx <= p < idx + 2 ^ (ord + Z.of_nat k)) st st'.
Proof.
  intros Hord; induction k as [|k IH]; intros st Hok Hblk Hdis; cbn [split_low].
  - split_and!; try done. intros p; rewrite Z.add_0_r, Z.sub_diag.
    replace (inb _ 0 p) with false by (unfold inb; lia). rewrite orb_false_r; done.
  - set (o := ord + Z.of_nat k) in *.
    replace (ord + Z.of_nat (S k)) with (o + 1) in * by lia.
    destruct (halves st o idx ltac:(lia) Hblk) as [HL HH].
    rewrite (block_bound st o idx Hok HL).
    pose proof (pow2_pos o ltac:(lia)) as Hpo; pose proof (pow2_succ o ltac:(lia)) as Hps.
    destruct (Z.ltb_spec (idx + 2 ^ o) (phymm_end st)); [|destruct HH as (? & ? & ? & _); lia].
    set (half := idx + 2 ^ o) in *. set (st1 := buddy_push _ _ _).
    assert (Hdh : forall p, inb half (2 ^ o) p = true -> free_b st p = false).
    { intros p Hp; apply Hdis; rewrite inb_spec in *; lia. }
    destruct (push_reset_ok st o half (set_ref (phymm_pages st half) 0) Hok HH Hdh eq_refl) as [Hok1 Hf1].
    fold st1 in Hok1, Hf1.
    destruct (IH st1 Hok1) as (Hok2 & Hf2 & Hfr2).
    { apply (block_same st); done. }
    { intros p Hp; rewrite Hf1, Hdis by (rewrite inb_spec in *; lia). rewrite inb_spec in Hp.
      unfold inb; lia. }
    assert (2 ^ ord <= 2 ^ o) by (apply Z.pow_le_mono_r; lia).
    split_and!; [done | |].
    + intros p; rewrite Hf2, Hf1, <- orb_assoc; f_equal. unfold inb; lia.
    + eapply frame_trans; [apply frame_push | exact Hfr2 |]; cbn; lia.
Qed.

Lemma split_high_spec ord k :
  0 <= ord -> forall st idx, phymm_ok st -> block_ok st (ord + Z.of_nat k) idx ->
  (forall p, inb idx (2 ^ (ord + Z.of_nat k)) p = true -> free_b st p = false) ->
  let '(st', idx') := split_high st idx ord k in
  phymm_ok st' /\ idx' = idx + 2 ^ (ord + Z.of_nat k) - 2 ^ ord /\ block_ok st' ord idx' /\
  (forall p, free_b st' p = free_b st p || inb idx (2 ^ (ord + Z.of_nat k) - 2 ^ ord) p) /\
  frame (fun p => idx <= p < idx + 2 ^ (ord + Z.of_nat k)) st st'.
Proof.
  intros Hord; induction k as [|k IH]; intros st idx Hok Hblk Hdis; cbn [split_high].
  - rewrite Z.add_0_r in *. split_and!; try done; try lia.
    intros p; rewrite Z.sub_diag. replace (inb _ 0 p) with false by (unfold inb; lia).
    rewrite orb_false_r; done.
  - set (o := ord + Z.of_nat k) in *.
    replace (ord + Z.of_nat (S k)) with (o + 1) in * by lia.
    destruct (halves st o idx ltac:(lia) Hblk) as [HL HH].
    rewrite (block_bound st o idx Hok HL).
    pose proof (pow2_pos o ltac:(lia)) as Hpo; pose proof (pow2_succ o ltac:(lia)) as Hps.
    destruct (Z.ltb_spec (idx + 2 ^ o) (phymm_end st)); [|destruct HH as (? & ? & ? & _); lia].
    set (upper := idx + 2 ^ o) in *. set (st1 := buddy_push _ _ _).
    assert (Hdl : forall p, inb idx (2 ^ o) p = true -> free_b st p = false).
    { intros p Hp; apply Hdis; rewrite inb_spec in *; lia. }
    destruct (push_reset_ok st o idx (set_ref (phymm_pages st idx) 0) Hok HL Hdl eq_refl) as [Hok1 Hf1].
    fold st1 in Hok1, Hf1.
    assert (2 ^ ord <= 2 ^ o) by (apply Z.pow_le_mono_r; lia).
    specialize (IH st1 upper Hok1). destruct (split_high st1 upper ord k) as [st' idx'].
    destruct IH as (Hok2 & -> & Hb2 & Hf2 & Hfr2).
    { apply (block_same st); done. }
    { intros p Hp; rewrite Hf1, Hdis by (rewrite inb_spec in *; lia). rewrite inb_spec in Hp.
      unfold inb; lia. }
    split_and!; [done | lia | done | |].
    + intros p; rewrite Hf2, Hf1, <- orb_assoc; f_equal. unfold inb; lia.
    + eapply frame_trans; [apply frame_push | exact Hfr2 |]; cbn; lia.
Qed.

(** ** Marking the allocated block *)

Lemma mark_loop_spec idx l : forall st,
  phymm_end st <= PHYMM_INVALID -> 0 <= idx -> (forall h, In h l -> 1 <= h <= 1024) ->
  idx < phymm_end st ->
  let st' := foldl (fun s half =>
           if (idx +u half) <? phymm_end s
           then set_page s (idx +u half) (set_order (phymm_pages s (idx +u half)) PHYMM_ORDER_NONE)
           else s) st l in
  same_lists st st' /\ managed_pages st' = managed_pages st /\
  (forall p, (forall h, In h l -> p <> idx +u h) -> phymm_pages st' p = phymm_pages st p).
Proof.
  induction l as [|h l IH]; intros st He Hi Hl Hlt; cbn [foldl]; [repeat split|].
  match goal with |- context [foldl _ ?s l] => set (st1 := s) end.
  assert (S1 : same_lists st st1) by (subst st1; case_if; repeat split).
  assert (M1 : managed_pages st1 = managed_pages st) by (subst st1; case_if; done).
  assert (P1 : forall p, p <> idx +u h -> phymm_pages st1 p = phymm_pages st p).
  { intros p Hp; subst st1; case_if; [|done]; cbn; unfold upd.
    destruct (Z.eqb_spec p (idx +u h)); done. }
  destruct S1 as (A1 & A2 & A3 & A4).
  destruct (IH st1) as ((B1 & B2 & B3 & B4) & M2 & P2); try lia; [intros; apply Hl; right; done|].
  split; [|split].
  - split_and!; congruence.
  - congruence.
  - intros p Hp; rewrite P2, P1; [done | apply Hp; left; done | intros; apply Hp; right; done].
Qed.

Lemma mark_block_spec st idx ord :
  phymm_ok st -> block_ok st ord idx ->
  (forall p, inb idx (2 ^ ord) p = true -> free_b st p = false) ->
  let st' := mark_block st idx ord in
  phymm_ok st' /\ (forall p, free_b st' p = free_b st p) /\ order (phymm_pages st' idx) = ord /\
  frame (fun p => idx <= p < idx + 2 ^ ord) st st'.
Proof.
  intros Hok Hb Hd st'; pose proof Hb as (Ho & H1 & H2 & _); pose proof (k_range _ Hok) as Hr.
  pose proof (pow2_pos ord ltac:(lia)); pose proof (pow2_le_1024 ord Ho).
  unfold PHYMM_INVALID in Hr.
  set (st1 := set_page st idx (set_order (phymm_pages st idx) ord)).
  assert (Hin : forall h, In h (seqZ 1 (2 ^ ord - 1)) -> 1 <= h < 2 ^ ord).
  { intros h Hh; apply list_elem_of_In, elem_of_seqZ in Hh; lia. }
  assert (Hu : forall h, In h (seqZ 1 (2 ^ ord - 1)) -> idx +u h = idx + h).
  { intros h Hh; specialize (Hin _ Hh); apply u32_id; unfold UINT32_MOD; lia. }
  destruct (mark_loop_spec idx (seqZ 1 (2 ^ ord - 1)) st1) as ((B1 & B2 & B3 & B4) & M & P);
    [cbn; unfold PHYMM_INVALID; lia | lia | intros h Hh; specialize (Hin _ Hh); lia | cbn; lia |].
  assert (E : st' = foldl (fun s half =>
           if (idx +u half) <? phymm_end s
           then set_page s (idx +u half) (set_order (phymm_pages s (idx +u half)) PHYMM_ORDER_NONE)
           else s) st1 (seqZ 1 (2 ^ ord - 1)))
    by (subst st'; unfold mark_block; rewrite shiftl_1 by lia; done).
  rewrite <- E in *. clear E.
  assert (SL : same_lists st st') by (split_and!; done).
  assert (PP : forall p, ~ idx <= p < idx + 2 ^ ord -> phymm_pages st' p = phymm_pages st p).
  { intros p Hp; rewrite P.
    - cbn; unfold upd; destruct (Z.eqb_spec p idx); [lia | done].
    - intros h Hh; rewrite Hu by done; specialize (Hin _ Hh); lia. }
  split_and!; try done.
  - eapply ok_same_lists; [exact SL | | exact Hok]. intros o i Hl; apply PP; intros Hp.
    apply head_free in Hl; rewrite Hd in Hl; [done | apply inb_spec; lia].
  - intros p; apply same_lists_free; done.
  - rewrite P; [cbn; unfold upd; rewrite Z.eqb_refl; done|].
    intros h Hh; rewrite Hu by done; specialize (Hin _ Hh); lia.
Qed.

(** ** Allocation *)

(** A successful allocation of [2 ^ ord] pages at [idx]: the block is
    aligned, inside the managed range, was free and is not any more; no
    other page becomes free or used and no descriptor of a used page
    changes. *)
Record allocated (st : phymm) (ord idx : Z) (st' : phymm) : Prop := {
  al_block : block_ok st ord idx;
  al_ok : phymm_ok st';
  al_was : forall p, inb idx (2 ^ ord) p = true -> free_b st p = true;
  al_free : forall p, free_b st' p = free_b st p && negb (inb idx (2 ^ ord) p);
  al_order : order (phymm_pages st' idx) = ord;
  al_frame : frame (fun p => free_b st p = true) st st' }.

Section Take.
Variables (st : phymm) (ord o idx : Z).
Hypothesis Hok : phymm_ok st.
Hypothesis Ho : 0 <= ord <= o.
Hypothesis Hl : on_list st o idx.

Let Hblk : block_ok st o idx := proj1 (k_block _ Hok _ _ Hl).

Lemma take_removed p : inb idx (2 ^ o) p = true -> free_b (buddy_remove st idx) p = false.
Proof. intros Hp; rewrite (remove_free st o idx Hok Hl), Hp, andb_false_r; done. Qed.

Lemma take_was p : inb idx (2 ^ o) p = true -> free_b st p = true.
Proof. intros Hp; apply free_b_spec; exists o, idx; split; [done | apply inb_spec; done]. Qed.

(** A sub-block of the taken block. *)
Lemma sub_block i : idx <= i -> i + 2 ^ ord <= idx + 2 ^ o -> (2 ^ ord | i) -> block_ok st ord i.
Proof.
  destruct Hblk as (? & ? & ? & _); intros; unfold block_ok; split_and!; try lia; done.
Qed.

Lemma pow_divide : (2 ^ ord | 2 ^ o).
Proof. exists (2 ^ (o - ord)); rewrite <- Z.pow_add_r by lia; f_equal; lia. Qed.

(** From the split state to the result. *)
Lemma take_mark st2 i :
  phymm_ok st2 -> block_ok st ord i -> idx <= i -> i + 2 ^ ord <= idx + 2 ^ o ->
  (forall p, free_b st2 p =
     free_b (buddy_remove st idx) p || (inb idx (2 ^ o) p && negb (inb i (2 ^ ord) p))) ->
  frame (fun p => idx <= p < idx + 2 ^ o) (buddy_remove st idx) st2 ->
  allocated st ord i (mark_block st2 i ord).
Proof.
  intros Hok2 Hbi Hi1 Hi2 Hf2 Hfr.
  assert (Hd : forall p, inb i (2 ^ ord) p = true -> free_b st2 p = false).
  { intros p Hp; rewrite Hf2, Hp, andb_false_r, orb_false_r. apply take_removed.
    rewrite inb_spec in *; lia. }
  pose proof Hfr as (E1 & E2 & _).
  destruct (mark_block_spec st2 i ord Hok2 (proj2 (block_same st st2 ord i E1 E2) Hbi) Hd)
    as (Hok3 & Hf3 & Ho3 & Hfr3).
  split; try done.
  - intros p Hp; apply take_was; rewrite inb_spec in *; lia.
  - intros p; rewrite Hf3, Hf2, (remove_free st o idx Hok Hl).
    destruct (inb i (2 ^ ord) p) eqn:Ei; [|cbn; rewrite !andb_true_r].
    + replace (inb idx (2 ^ o) p) with true by (symmetry; rewrite inb_spec in *; lia).
      rewrite !andb_false_r; done.
    + destruct (inb idx (2 ^ o) p) eqn:Eo; cbn; [|rewrite andb_true_r, orb_false_r; done].
      rewrite take_was, orb_true_r; done.
  - assert (Hw : forall p, idx <= p < idx + 2 ^ o -> free_b st p = true)
      by (intros p Hp; apply take_was, inb_spec; done).
    eapply frame_trans; [eapply frame_trans with (st2 := buddy_remove st idx) | exact Hfr3 |].
    + repeat split.
    + exact Hfr.
    + exact Hw.
    + intros p Hp; cbn in Hp; apply Hw; lia.
Qed.

Lemma take_low :
  allocated st ord idx (mark_block (split_low (buddy_remove st idx) idx ord (Z.to_nat (o - ord))) idx ord).
Proof.
  assert (2 ^ ord <= 2 ^ o) by (apply Z.pow_le_mono_r; lia).
  pose proof (pow2_pos ord ltac:(lia)).
  assert (Ek : ord + Z.of_nat (Z.to_nat (o - ord)) = o) by lia.
  destruct (split_low_spec idx ord (Z.to_nat (o - ord)) ltac:(lia) (buddy_remove st idx)
              (remove_ok st o idx Hok Hl)) as (Hok2 & Hf2 & Hfr); rewrite ?Ek in *.
  - exact Hblk.
  - exact take_removed.
  - apply take_mark; try done; try lia.
    + apply sub_block; try lia. destruct Hblk as (_ & _ & _ & Hd).
      eapply Z.divide_trans; [apply pow_divide | exact Hd].
    + intros p; rewrite Hf2; f_equal; unfold inb; lia.
Qed.

Lemma take_high :
  let '(st1, i) := split_high (buddy_remove st idx) idx ord (Z.to_nat (o - ord)) in
  i = idx + 2 ^ o - 2 ^ ord /\ allocated st ord i (mark_block st1 i ord).
Proof.
  assert (2 ^ ord <= 2 ^ o) by (apply Z.pow_le_mono_r; lia).
  pose proof (pow2_pos ord ltac:(lia)).
  assert (Ek : ord + Z.of_nat (Z.to_nat (o - ord)) = o) by lia.
  pose proof (split_high_spec ord (Z.to_nat (o - ord)) ltac:(lia) (buddy_remove st idx) idx
              (remove_ok st o idx Hok Hl)) as S; rewrite ?Ek in S.
  specialize (S Hblk take_removed).
  destruct (split_high (buddy_remove st idx) idx ord (Z.to_nat (o - ord))) as [st1 i].
  destruct S as (Hok2 & -> & Hb & Hf2 & Hfr). split; [done|].
  pose proof Hfr as (E1 & E2 & _).
  apply take_mark; try done; try lia.
  - apply (block_same st st1); done.
  - intros p; rewrite Hf2; f_equal; unfold inb; lia.
Qed.
End Take.

Lemma listed_valid st o i : phymm_ok st -> on_list st o i -> i <> PHYMM_INVALID.
Proof.
  intros Hok Hl; destruct (k_block _ Hok _ _ Hl) as [(Ho & _ & H2 & _) _].
  pose proof (k_range _ Hok); pose proof (pow2_pos o ltac:(lia)); lia.
Qed.

(** What an allocation in the window [lo, hi) guarantees. *)
Definition alloc_spec (st : phymm) (ord lo hi : Z) (r : Z * phymm) : Prop :=
  let '(idx, st') := r in
  if idx =? PHYMM_INVALID
  then st' = st /\
       forall o i, on_list st o i -> ord <= o -> lo <= i -> i + 2 ^ o <= hi -> False
  else allocated st ord idx st' /\ lo <= idx /\ idx + 2 ^ ord <= hi.

Lemma alloc_range_loop_spec st ord lo hi n :
  phymm_ok st -> forall o, 0 <= ord <= o -> o + Z.of_nat n = MAX_BUDDY_ORDER + 1 ->
  (forall o' i, on_list st o' i -> ord <= o' < o -> lo <= i -> i + 2 ^ o' <= hi -> False) ->
  alloc_spec st ord lo hi (alloc_range_loop st ord o lo hi n).
Proof.
  intros Hok; induction n as [|n IH]; intros o Ho Hn Hbelow; cbn [alloc_range_loop].
  - cbn. split; [done|]. intros o' i Hl Hle; apply (Hbelow _ _ Hl). destruct Hl as [? _]; lia.
  - unfold first_fit.
    destruct (List.find _ (buddy_lists st o)) as [idx|] eqn:E.
    + apply List.find_some in E as [Hin Hfit].
      assert (Hl : on_list st o idx) by (split; [lia | done]).
      unfold buddy_block_fits in Hfit; rewrite (block_bound st o idx Hok) in Hfit
        by (apply (k_block _ Hok); done).
      assert (2 ^ ord <= 2 ^ o) by (apply Z.pow_le_mono_r; lia).
      cbn [alloc_spec]. destruct (Z.eqb_spec idx PHYMM_INVALID).
      { destruct (listed_valid _ _ _ Hok Hl); done. }
      split; [apply take_low; done || lia | lia].
    + apply IH; try lia. intros o' i Hl Hr Hlo Hhi.
      destruct (decide (o' = o)) as [-> |]; [|eapply Hbelow; eauto; lia].
      pose proof (List.find_none _ _ E i (proj2 Hl)) as F; cbn in F.
      unfold buddy_block_fits in F; rewrite (block_bound st o i Hok) in F by (apply (k_block _ Hok); done).
      lia.
Qed.

Lemma buddy_alloc_in_range_spec st ord lo hi :
  phymm_ok st -> 0 <= ord <= MAX_BUDDY_ORDER ->
  alloc_spec st ord lo hi (buddy_alloc_in_range st ord lo hi).
Proof.
  intros Hok Ho; unfold buddy_alloc_in_range. destruct (Z.leb_spec hi lo) as [h | h].
  - cbn. split; [done|]. intros o i Hl Hle ? ?.
    destruct Hl as [? _]; pose proof (pow2_pos o ltac:(lia)); lia.
  - apply alloc_range_loop_spec; done || lia.
Qed.

Lemma best_of_loop l : forall b,
  b <> PHYMM_INVALID -> (forall i, In i l -> i <> PHYMM_INVALID) ->
  let r := foldl (fun best idx => if (best =? PHYMM_INVALID) || (best <? idx) then idx else best) b l in
  r <> PHYMM_INVALID /\ (In r (b :: l)) /\ (forall i, In i (b :: l) -> i <= r).
Proof.
  induction l as [|x l IH]; intros b Hb Hl; cbn [foldl].
  - cbn; split_and!; auto. intros i [-> | []]; lia.
  - destruct (Z.eqb_spec b PHYMM_INVALID); [done|]; cbn [orb].
    assert (Hx : x <> PHYMM_INVALID) by (apply Hl; left; done).
    assert (Hl' : forall i, In i l -> i <> PHYMM_INVALID) by (intros; apply Hl; right; done).
    destruct (Z.ltb_spec b x).
    + destruct (IH x Hx Hl') as (A & B & C); split_and!; [done | right; done |].
      intros i [<- | Hi]; [specialize (C x (or_introl eq_refl)); lia | auto].
    + destruct (IH b Hb Hl') as (A & B & C); split_and!; [done | |].
      * destruct B as [B | B]; [left; done | right; right; done].
      * intros i [<- | [<- | Hi]]; [apply C; left; done | | apply C; right; done].
        specialize (C b (or_introl eq_refl)); lia.
Qed.

Lemma best_of_spec l :
  (forall i, In i l -> i <> PHYMM_INVALID) ->
  (l = [] /\ best_of l = PHYMM_INVALID) \/
  (In (best_of l) l /\ best_of l <> PHYMM_INVALID /\ forall i, In i l -> i <= best_of l).
Proof.
  destruct l as [|x l]; [auto|]; intros Hl; right. unfold best_of; cbn [foldl].
  destruct (best_of_loop l x (Hl x (or_introl eq_refl)) (fun i Hi => Hl i (or_intror Hi))) as (A & B & C).
  auto.
Qed.

Lemma alloc_high_loop_spec st ord n :
  phymm_ok st -> forall o, 0 <= ord <= o -> o + Z.of_nat n = MAX_BUDDY_ORDER + 1 ->
  (forall o' i, on_list st o' i -> ord <= o' < o -> False) ->
  alloc_spec st ord (phymm_begin st) (phymm_end st) (alloc_high_loop st ord o n).
Proof.
  intros Hok; induction n as [|n IH]; intros o Ho Hn Hbelow; cbn [alloc_high_loop].
  - cbn. split; [done|]. intros o' i Hl Hle _ _; apply (Hbelow _ _ Hl). destruct Hl as [? _]; lia.
  - assert (Hv : forall i, In i (buddy_lists st o) -> i <> PHYMM_INVALID).
    { intros i Hi; apply (listed_valid st o i Hok); split; [lia | done]. }
    destruct (best_of_spec _ Hv) as [[El ->] | (Hin & Hne & _)].
    + rewrite Z.eqb_refl. apply IH; try lia. intros o' i Hl Hr.
      destruct (decide (o' = o)) as [-> |]; [destruct Hl as [_ Hl]; rewrite El in Hl; done|].
      eapply Hbelow; eauto; lia.
    + destruct (Z.eqb_spec (best_of (buddy_lists st o)) PHYMM_INVALID); [done|].
      set (b := best_of (buddy_lists st o)) in *.
      assert (Hl : on_list st o b) by (split; [lia | done]).
      pose proof (take_high st ord o b Hok ltac:(lia) Hl) as T.
      destruct (split_high (buddy_remove st b) b ord (Z.to_nat (o - ord))) as [st1 i].
      destruct T as [_ A]; cbn [alloc_spec].
      destruct (al_block _ _ _ _ A) as (Ho' & B1 & B2 & _). pose proof (k_range _ Hok).
      pose proof (pow2_pos ord ltac:(lia)).
      destruct (Z.eqb_spec i PHYMM_INVALID); [lia | split; [done | lia]].
Qed.

Lemma buddy_alloc_high_spec st ord :
  phymm_ok st -> 0 <= ord <= MAX_BUDDY_ORDER ->
  alloc_spec st ord (phymm_begin st) (phymm_end st) (buddy_alloc_high st ord).
Proof. intros; apply alloc_high_loop_spec; done || lia. Qed.

Lemma buddy_alloc_spec st ord :
  phymm_ok st -> 0 <= ord <= MAX_BUDDY_ORDER ->
  alloc_spec st ord (phymm_begin st) (phymm_end st) (buddy_alloc st ord).
Proof.
  intros Hok Hord; unfold buddy_alloc.
  assert (G : forall n o, 0 <= ord <= o -> o + Z.of_nat n = MAX_BUDDY_ORDER + 1 ->
    (forall o' i, on_list st o' i -> ord <= o' < o -> False) ->
    alloc_spec st ord (phymm_begin st) (phymm_end st) (alloc_loop st ord o n)).
  2: { apply G; try lia; intros; lia. }
  induction n as [|n IH]; intros o Ho Hn Hbelow; cbn [alloc_loop].
  - cbn. split; [done|]. intros o' i Hl Hle _ _; apply (Hbelow _ _ Hl). destruct Hl as [? _]; lia.
  - unfold buddy_pop, buddy_first. destruct (buddy_lists st o) as [|i l] eqn:El.
    + rewrite Z.eqb_refl. apply IH; try lia. intros o' i Hl Hr.
      destruct (decide (o' = o)) as [-> |]; [destruct Hl as [_ Hl]; rewrite El in Hl; done|].
      eapply Hbelow; eauto; lia.
    + assert (Hl : on_list st o i) by (split; [lia | rewrite El; left; done]).
      destruct (Z.eqb_spec i PHYMM_INVALID); [destruct (listed_valid _ _ _ Hok Hl); done|].
      cbn [alloc_spec negb]. destruct (Z.eqb_spec i PHYMM_INVALID); [done|].
      pose proof (take_low st ord o i Hok ltac:(lia) Hl) as A. split; [done|].
      destruct (al_block _ _ _ _ A) as (Ho' & B1 & B2 & _). lia.
Qed.

(** ** Release *)

Lemma free_at_order_spec st b o :
  phymm_ok st -> buddy_is_free_at_order st b o = true <-> on_list st o b.
Proof.
  intros Hok; unfold buddy_is_free_at_order; split.
  - case_if; [done|]; intros H; breflect. apply linked_spec in H0 as [o' Hl].
    destruct (k_block _ Hok _ _ Hl) as (_ & _ & E). replace o with o' by congruence. done.
  - intros Hl; destruct (k_block _ Hok _ _ Hl) as ((Ho & B1 & B2 & _) & -> & ->).
    pose proof (pow2_pos o ltac:(lia)).
    replace (linked st b) with true by (symmetry; apply linked_spec; eauto).
    destruct (Z.ltb_spec b (phymm_begin st)), (Z.leb_spec (phymm_end st) b); try lia.
    rewrite !Z.eqb_refl; done.
Qed.

(** The block is merged with free buddies as long as there are any; the
    pages that are free or in the block stay the same. *)
Lemma coalesce_spec k : forall st idx ord,
  phymm_ok st -> block_ok st ord idx -> ord + Z.of_nat k = MAX_BUDDY_ORDER ->
  (forall p, inb idx (2 ^ ord) p = true -> free_b st p = false) ->
  let '(st', idx', ord') := coalesce st idx ord k in
  phymm_ok st' /\ block_ok st' ord' idx' /\
  (forall p, inb idx' (2 ^ ord') p = true -> free_b st' p = false) /\
  (forall p, free_b st' p || inb idx' (2 ^ ord') p = free_b st p || inb idx (2 ^ ord) p) /\
  frame (fun _ => False) st st' /\
  (ord' = MAX_BUDDY_ORDER \/ ~ on_list st' ord' (Z.lxor idx' (2 ^ ord'))).
Proof.
  induction k as [|k IH]; intros st idx ord Hok Hb Hk Hd; cbn [coalesce].
  - split_and!; try done. left; lia.
  - pose proof Hb as (Ho & Hb1 & Hb2 & Hdiv). rewrite shiftl_1 by lia.
    set (b := Z.lxor idx (2 ^ ord)).
    destruct (buddy_is_free_at_order st b ord) eqn:E; cbn [negb].
    2: { split_and!; try done. right; intros Hl; apply (free_at_order_spec st b ord Hok) in Hl; congruence. }
    apply free_at_order_spec in E; [|done].
    destruct (k_block _ Hok _ _ E) as ((_ & Bb1 & Bb2 & _) & _).
    destruct (lxor_buddy idx ord ltac:(lia) Hdiv) as (D1 & D2 & _); fold b in D1, D2.
    pose proof (pow2_pos ord ltac:(lia)); pose proof (pow2_succ ord ltac:(lia)).
    set (i' := if b <? idx then b else idx).
    assert (Ei : i' = Z.min idx b) by (subst i'; zcases; lia).
    pose proof (remove_ok st ord b Hok E) as Hok1.
    pose proof (remove_free st ord b Hok E) as Hf1.
    assert (Hcov : forall p, inb i' (2 ^ (ord + 1)) p = inb idx (2 ^ ord) p || inb b (2 ^ ord) p)
      by (intros p; unfold inb; lia).
    specialize (IH (buddy_remove st b) i' (ord + 1) Hok1).
    destruct (coalesce (buddy_remove st b) i' (ord + 1) k) as [[st' idx'] ord'].
    destruct IH as (A1 & A2 & A3 & A4 & A5 & A6).
    + unfold block_ok; cbn [phymm_begin phymm_end buddy_remove set_free]. rewrite Ei. split_and!; try lia; done.
    + lia.
    + intros p Hp; rewrite Hf1; rewrite Hcov in Hp.
      destruct (inb b (2 ^ ord) p); [apply andb_false_r|]. rewrite Hd; [done|].
      rewrite orb_false_r in Hp; done.
    + split_and!; try done. intros p; rewrite A4, Hf1, Hcov.
      destruct (inb b (2 ^ ord) p) eqn:Eb; cbn.
      * rewrite !orb_true_r. replace (free_b st p) with true; [done|].
        symmetry; apply free_b_spec; exists ord, b; split; [done | apply inb_spec; done].
      * rewrite andb_true_r, orb_false_r; done.
Qed.

Lemma buddy_free_block_spec st idx ord :
  phymm_ok st -> block_ok st ord idx ->
  (forall p, inb idx (2 ^ ord) p = true -> free_b st p = false) ->
  let st' := buddy_free_block st idx ord in
  phymm_ok st' /\ (forall p, free_b st' p = free_b st p || inb idx (2 ^ ord) p) /\
  frame (fun p => free_b st p = true \/ idx <= p < idx + 2 ^ ord) st st'.
Proof.
  intros Hok Hb Hd st'; pose proof Hb as (Ho & _).
  pose proof (coalesce_spec (Z.to_nat (MAX_BUDDY_ORDER - ord)) st idx ord Hok Hb ltac:(lia) Hd) as C.
  subst st'; unfold buddy_free_block.
  destruct (coalesce st idx ord (Z.to_nat (MAX_BUDDY_ORDER - ord))) as [[st1 idx1] ord1].
  destruct C as (C1 & C2 & C3 & C4 & C5 & _).
  destruct (push_reset_ok st1 ord1 idx1 (Page 0 (order (phymm_pages st1 idx1)) 0) C1 C2 C3 eq_refl)
    as [P1 P2].
  split_and!; [done | intros p; rewrite P2; apply C4 |].
  assert (Hs : free_b st idx1 = true \/ idx <= idx1 < idx + 2 ^ ord).
  { rewrite <- inb_spec, <- orb_true_iff, <- C4, orb_true_iff; right.
    apply inb_spec; destruct C2 as (? & _); pose proof (pow2_pos ord1); lia. }
  destruct C5 as (E1 & E2 & E3 & E4); split_and!; try done.
  intros p Hp; cbn; unfold upd. destruct (Z.eqb_spec p idx1) as [-> |]; [done|]. apply E4; tauto.
Qed.
