(* ===== verification/PhymmProof.v ===== *)
(** * Correctness of the physical page allocator

    Every usable page is, at every moment, either free or inside exactly one
    live allocation; allocations are aligned, inside their window and fail
    only when no free block fits; release gives the pages back; the boot
    code frees exactly the usable pages of the firmware map. *)

From S2P Require Import Prelude Phymm PhymmInv.
Open Scope mos_scope.

(** ** The order of a request *)

Lemma ceil_log2_step f n j :
  0 <= j < 31 -> 2 ^ j < n ->
  ceil_log2_loop (S f) n j (2 ^ j) = ceil_log2_loop f n (j + 1) (2 ^ (j + 1)).
Proof.
  intros Hj Hn; cbn [ceil_log2_loop]. destruct (Z.ltb_spec (2 ^ j) n); [|lia].
  rewrite Z.shiftl_mul_pow2, Z.pow_1_r by lia.
  assert (2 ^ (j + 1) <= 2 ^ 31) by (apply Z.pow_le_mono_r; lia).
  rewrite pow2_succ in * by lia. pose proof (pow2_pos j ltac:(lia)).
  rewrite !u32_id by (unfold UINT32_MOD; lia). f_equal; lia.
Qed.

Lemma ceil_log2_loop_spec n k : forall j,
  0 <= j -> j + Z.of_nat k = 31 -> n <= 2 ^ 31 -> (j = 0 \/ 2 ^ (j - 1) < n) ->
  exists r, ceil_log2_loop (S k) n j (2 ^ j) = Some r /\ j <= r <= 31 /\ n <= 2 ^ r /\
    (r = 0 \/ 2 ^ (r - 1) < n).
Proof.
  induction k as [|k IH]; intros j Hj Hk Hn Hp.
  - replace j with 31 in * by lia. cbn [ceil_log2_loop].
    destruct (Z.ltb_spec (2 ^ 31) n); [lia|]. exists 31; split_and!; try done; lia.
  - destruct (Z.ltb_spec (2 ^ j) n) as [h | h].
    + rewrite ceil_log2_step by lia. destruct (IH (j + 1)) as (r & E & Hr & R); try lia.
      { right; replace (j + 1 - 1) with j by lia; done. }
      exists r; split_and!; try done; lia.
    + cbn [ceil_log2_loop]; destruct (Z.ltb_spec (2 ^ j) n); [lia|].
      exists j; split_and!; try done; lia.
Qed.

Lemma ceil_log2_some n :
  0 < n <= 2 ^ 31 ->
  exists r, ceil_log2 n = Some r /\ 0 <= r <= 31 /\ n <= 2 ^ r /\ (r = 0 \/ 2 ^ (r - 1) < n).
Proof.
  intros Hn; destruct (ceil_log2_loop_spec n 31 0) as (r & E & Hr & R); try lia.
  exists r; split; [|split_and!; try done; lia].
  assert (M : forall f m j s v, ceil_log2_loop f m j s = Some v -> ceil_log2_loop (S f) m j s = Some v).
  { induction f as [|f IH]; intros m j s v; [done|]. cbn [ceil_log2_loop].
    destruct (s <? m); [apply IH | done]. }
  apply M; exact E.
Qed.

Lemma ceil_log2_wrapped f n j : 0 < n -> ceil_log2_loop f n j 0 = None.
Proof.
  intros Hn; revert j; induction f as [|f IH]; intros j; [done|]; cbn [ceil_log2_loop].
  destruct (Z.ltb_spec 0 n); [apply IH | lia].
Qed.

Lemma ceil_log2_diverges_loop n f : forall j,
  0 <= j <= 31 -> 2 ^ 31 < n -> ceil_log2_loop f n j (2 ^ j) = None.
Proof.
  induction f as [|f IH]; intros j Hj Hn; [done|].
  destruct (decide (j = 31)) as [-> |].
  - cbn [ceil_log2_loop]; destruct (Z.ltb_spec (2 ^ 31) n); [|lia].
    apply ceil_log2_wrapped; lia.
  - assert (2 ^ j <= 2 ^ 31) by (apply Z.pow_le_mono_r; lia).
    rewrite ceil_log2_step by lia. apply IH; lia.
Qed.

(** Ceil_log2() returns the least order whose block holds the request,
    for every request of up to 2^31 pages; for a larger one its loop never
    ends, however long it runs. *)
Theorem ceil_log2_exact n :
  0 < n < UINT32_MOD ->
  (n <= 2 ^ 31 -> exists r, ceil_log2 n = Some r /\ n <= 2 ^ r /\ (r = 0 \/ 2 ^ (r - 1) < n)) /\
  (2 ^ 31 < n -> forall fuel, ceil_log2_loop fuel n 0 1 = None).
Proof.
  intros Hn; split.
  - intros Hs; destruct (ceil_log2_some n) as (r & E & _ & R); [lia|]. eauto.
  - intros Hs f; apply (ceil_log2_diverges_loop n f 0); lia.
Qed.

(** ** The public operations *)

(** The outcome of an allocation, whatever the window. *)
Definition alloc_any (st : phymm) (ord : Z) (r : Z * phymm) : Prop :=
  let '(idx, st') := r in
  if idx =? PHYMM_INVALID then st' = st else allocated st ord idx st'.

Lemma alloc_any_of st ord lo hi r : alloc_spec st ord lo hi r -> alloc_any st ord r.
Proof. destruct r as [idx st']; cbn; destruct (idx =? PHYMM_INVALID); tauto. Qed.

(** A failed attempt leaves the state to the next one. *)
Lemma or_else_any st ord r k :
  alloc_any st ord r -> alloc_any st ord (k st) -> alloc_any st ord (or_else r k).
Proof.
  destruct r as [idx st']; unfold or_else, alloc_any; cbn.
  destruct (Z.eqb_spec idx PHYMM_INVALID); [intros ->; done|].
  intros A _; destruct (Z.eqb_spec idx PHYMM_INVALID); done.
Qed.

(** Both attempts in their windows. *)
Lemma or_else_spec st ord lo hi lo' hi' r k :
  alloc_spec st ord lo hi r -> alloc_spec st ord lo' hi' (k st) ->
  lo' <= lo -> hi <= hi' -> alloc_spec st ord lo' hi' (or_else r k).
Proof.
  destruct r as [idx st']; unfold or_else, alloc_spec; cbn.
  destruct (Z.eqb_spec idx PHYMM_INVALID); [intros [-> _]; done|].
  intros (A & ? & ?) _ ? ?; destruct (Z.eqb_spec idx PHYMM_INVALID); [done|]. split; [done | lia].
Qed.

Section Config.
Context {cfg : PhysConfig}.

(** The order used for a request of [n] pages. *)
Definition request_order (n ord : Z) : Prop := ceil_log2 (if nz n then n else 1) = Some ord.

Lemma request_order_range n ord :
  0 <= n < UINT32_MOD -> request_order n ord -> 0 <= ord <= 31 /\ n <= 2 ^ ord.
Proof.
  unfold request_order, nz; intros Hn E. destruct (Z.eqb_spec n 0) as [-> |]; cbn [negb] in E.
  - vm_compute in E; injection E as <-; cbn; lia.
  - destruct (decide (n <= 2 ^ 31)) as [h | h].
    + destruct (ceil_log2_some n ltac:(lia)) as (r & E' & R). rewrite E' in E; injection E as <-. lia.
    + pose proof (ceil_log2_diverges_loop n 33 0 ltac:(lia) ltac:(lia)) as D.
      unfold ceil_log2 in E; change 1 with (2 ^ 0) in E; congruence.
Qed.

Lemma alloc_kernel_window st n ord r :
  phymm_ok st -> 0 <= n < UINT32_MOD -> request_order n ord -> ord <= MAX_BUDDY_ORDER ->
  phymm_alloc_kernel st n = Some r ->
  let '(idx, st') := r in
  (idx = PHYMM_INVALID /\ st' = st /\
     forall o i, on_list st o i -> ord <= o -> phymm_begin st <= i ->
       i + 2 ^ o <= phymm_kernel_page_limit st -> False) \/
  (allocated st ord idx st' /\ idx + 2 ^ ord <= phymm_kernel_page_limit st).
Proof.
  unfold phymm_alloc_kernel, request_order; intros Hok Hn E Hle; rewrite E; cbn; intros [= <-].
  destruct (request_order_range n ord Hn E) as [Hr _].
  destruct (Z.ltb_spec MAX_BUDDY_ORDER ord); [lia|].
  pose proof (buddy_alloc_in_range_spec st ord (u32 (MOS_KERNEL_ALLOC_PREFERRED_BASE / PAGE_SIZE))
                (phymm_kernel_page_limit st) Hok ltac:(lia)) as A.
  pose proof (buddy_alloc_in_range_spec st ord (phymm_begin st)
                (phymm_kernel_page_limit st) Hok ltac:(lia)) as B.
  unfold or_else. destruct (buddy_alloc_in_range st ord _ _) as [i1 s1]; cbn in A |- *.
  destruct (Z.eqb_spec i1 PHYMM_INVALID) as [-> |]; [|right; split; [tauto | lia]].
  destruct A as [-> _]. destruct (buddy_alloc_in_range st ord (phymm_begin st) _) as [i2 s2]; cbn in B.
  destruct (Z.eqb_spec i2 PHYMM_INVALID) as [-> |]; [left | right]; tauto.
Qed.

(** One allocation call of the interface. *)
Inductive request := RKernel (n : Z) | RDma (n : Z) | RCache (n : Z) | RUser.

Definition req_pages (r : request) : Z :=
  match r with RKernel n | RDma n | RCache n => n | RUser => 1 end.

Definition serve (st : phymm) (r : request) : option (Z * phymm) :=
  match r with
  | RKernel n => phymm_alloc_kernel st n
  | RDma n => phymm_alloc_dma st n
  | RCache n => phymm_alloc_cache_pages st n
  | RUser => Some (phymm_alloc_user st)
  end.

Lemma alloc_any_invalid st ord : alloc_any st ord (PHYMM_INVALID, st).
Proof. done. Qed.

Lemma serve_any st r ord res :
  phymm_ok st -> 0 <= req_pages r < UINT32_MOD -> request_order (req_pages r) ord ->
  serve st r = Some res -> alloc_any st ord res.
Proof.
  intros Hok Hn E; destruct (request_order_range _ _ Hn E) as [Hr _].
  assert (R : forall lo hi, ord <= MAX_BUDDY_ORDER ->
            alloc_any st ord (buddy_alloc_in_range st ord lo hi))
    by (intros; eapply alloc_any_of, buddy_alloc_in_range_spec; done || lia).
  assert (H : ord <= MAX_BUDDY_ORDER -> alloc_any st ord (buddy_alloc_high st ord))
    by (intros; eapply alloc_any_of, buddy_alloc_high_spec; done || lia).
  unfold request_order in E.
  destruct r as [n | n | n |]; cbn [req_pages serve] in *;
    unfold phymm_alloc_kernel, phymm_alloc_dma, phymm_alloc_cache_pages;
    rewrite ?E; cbn [mbind option_bind]; intros [= <-].
  4: { unfold ceil_log2 in E; vm_compute in E; injection E as <-. unfold phymm_alloc_user.
       repeat apply or_else_any; [apply R | apply R | apply H]; unfold MAX_BUDDY_ORDER; lia. }
  all: destruct (Z.ltb_spec MAX_BUDDY_ORDER ord); [apply alloc_any_invalid|].
  - apply or_else_any; apply R; done.
  - apply R; done.
  - repeat apply or_else_any; [apply R; done | apply R; done |].
    case_if; [apply H; done | apply alloc_any_invalid].
Qed.

(** ** Ownership of pages *)

(** The allocator with the blocks handed out, as (order, first page). *)
Record world := World { mem : phymm; live : list (Z * Z) }.

(** Number of live blocks that contain page [p]. *)
Definition cover (l : list (Z * Z)) (p : Z) : Z :=
  Z.of_nat (length (List.filter (fun b => inb b.2 (2 ^ b.1) p) l)).

Definition grant (idx ord : Z) (l : list (Z * Z)) : list (Z * Z) :=
  if idx =? PHYMM_INVALID then l else (ord, idx) :: l.

(** Allocation calls, releases of live blocks, and reference counting of
    pages inside live blocks. *)
Inductive world_step : world -> world -> Prop :=
| WAlloc w r ord idx st' :
    0 <= req_pages r < UINT32_MOD -> request_order (req_pages r) ord ->
    serve (mem w) r = Some (idx, st') ->
    world_step w (World st' (grant idx ord (live w)))
| WFree w l1 ord idx l2 page_count st' :
    live w = l1 ++ (ord, idx) :: l2 ->
    phymm_free_kernel (mem w) idx page_count = Some st' ->
    world_step w (World st' (l1 ++ l2))
| WFreeUser w l1 idx l2 :
    live w = l1 ++ (0, idx) :: l2 ->
    world_step w (World (phymm_free_user (mem w) idx) (l1 ++ l2))
| WReference w p :
    0 < cover (live w) p ->
    world_step w (World (phymm_reference_page (mem w) p).2 (live w))
| WDereference w p :
    0 < cover (live w) p ->
    world_step w (World (phymm_dereference_page (mem w) p).2 (live w)).

Record world_ok (ram : Z -> bool) (w : world) : Prop := {
  w_ok : phymm_ok (mem w);
  w_own : forall p, b2z (free_b (mem w) p) + cover (live w) p = b2z (ram p);
  w_live : forall ord idx, In (ord, idx) (live w) ->
    block_ok (mem w) ord idx /\ order (phymm_pages (mem w) idx) = ord }.

Lemma cover_cons ord idx l p : cover ((ord, idx) :: l) p = b2z (inb idx (2 ^ ord) p) + cover l p.
Proof. unfold cover; cbn [List.filter fst snd]; destruct (inb idx (2 ^ ord) p); cbn [b2z length]; lia. Qed.
Lemma cover_app l1 l2 p : cover (l1 ++ l2) p = cover l1 p + cover l2 p.
Proof. unfold cover; rewrite List.filter_app, length_app; lia. Qed.
Lemma cover_nonneg l p : 0 <= cover l p.
Proof. unfold cover; lia. Qed.
Lemma cover_in l ord idx p : In (ord, idx) l -> inb idx (2 ^ ord) p = true -> 1 <= cover l p.
Proof.
  intros Hin Hp; apply List.in_split in Hin as (l1 & l2 & ->).
  rewrite cover_app, cover_cons, Hp; pose proof (cover_nonneg l1 p); pose proof (cover_nonneg l2 p).
  cbn [b2z]; lia.
Qed.
Lemma b2z_range b : 0 <= b2z b <= 1.
Proof. destruct b; cbn; lia. Qed.

(** Live pages are not free. *)
Lemma live_not_free ram w p : world_ok ram w -> 0 < cover (live w) p -> free_b (mem w) p = false.
Proof.
  intros [_ Ho _] Hc; specialize (Ho p); pose proof (b2z_range (ram p)).
  destruct (free_b (mem w) p); cbn in *; lia || done.
Qed.

(** The first page of a block lies in it. *)
Lemma block_head st o i : block_ok st o i -> inb i (2 ^ o) i = true.
Proof. intros (? & _); apply inb_spec; pose proof (pow2_pos o); lia. Qed.

Lemma live_head ram w ord idx :
  world_ok ram w -> In (ord, idx) (live w) -> free_b (mem w) idx = false.
Proof.
  intros Hw Hin; eapply live_not_free; [exact Hw|].
  destruct (w_live _ _ Hw _ _ Hin) as [B _].
  pose proof (cover_in _ _ _ _ Hin (block_head _ _ _ B)); lia.
Qed.

Lemma world_alloc ram w ord idx st' :
  world_ok ram w -> allocated (mem w) ord idx st' ->
  world_ok ram (World st' ((ord, idx) :: live w)).
Proof.
  intros Hw [B Hok W F O (E1 & E2 & _ & Fr)]; pose proof Hw as [_ Ho Hl]; split; cbn [mem live].
  - done.
  - intros p; specialize (Ho p); rewrite cover_cons, F. destruct (inb idx (2 ^ ord) p) eqn:E.
    + rewrite (W p E) in *. cbn in *; lia.
    + rewrite andb_true_r. cbn; lia.
  - intros o i [[= <- <-] | Hin]; [split; [apply (block_same (mem w)); done | done]|].
    destruct (Hl _ _ Hin) as [Bi Oi]; split; [apply (block_same (mem w)); done|].
    rewrite Fr; [done|]. rewrite (live_head ram w o i); done.
Qed.

Lemma world_free ram w l1 ord idx l2 :
  world_ok ram w -> live w = l1 ++ (ord, idx) :: l2 ->
  world_ok ram (World (buddy_free_block (mem w) idx ord) (l1 ++ l2)).
Proof.
  intros Hw El; pose proof Hw as [Hok Ho Hl].
  assert (Hin : In (ord, idx) (live w)) by (rewrite El; apply in_or_app; right; left; done).
  destruct (Hl _ _ Hin) as [B _].
  assert (Hc : forall p, cover (live w) p = cover (l1 ++ l2) p + b2z (inb idx (2 ^ ord) p))
    by (intros p; rewrite El, !cover_app, cover_cons; lia).
  assert (Hd : forall p, inb idx (2 ^ ord) p = true -> free_b (mem w) p = false).
  { intros p Hp; eapply live_not_free; [exact Hw|]. pose proof (cover_in _ _ _ _ Hin Hp); lia. }
  destruct (buddy_free_block_spec (mem w) idx ord Hok B Hd) as (Hok' & F & E1 & E2 & _ & Fr).
  split; cbn [mem live].
  - done.
  - intros p; specialize (Ho p); rewrite Hc in Ho; rewrite F.
    destruct (inb idx (2 ^ ord) p) eqn:E; [rewrite (Hd p E) in *; cbn in *; lia | rewrite orb_false_r; cbn in *; lia].
  - intros o i Hi.
    assert (Hi' : In (o, i) (live w)) by (rewrite El; apply in_app_iff in Hi as [? | ?]; apply in_or_app; auto; right; right; done).
    destruct (Hl _ _ Hi') as [Bi Oi]. split; [apply (block_same (mem w)); done|].
    rewrite Fr; [done|]. rewrite (live_head ram w o i) by done. intros [? | Hp]; [done|].
    pose proof (cover_in _ _ _ _ Hi (block_head _ _ _ Bi)). specialize (Ho i); rewrite Hc in Ho.
    assert (Ep : inb idx (2 ^ ord) i = true) by (apply inb_spec; done).
    rewrite Ep in Ho; cbn [b2z] in Ho. pose proof (b2z_range (free_b (mem w) i)); pose proof (b2z_range (ram i)); lia.
Qed.

(** Changes of the descriptor of a live page that keep its order. *)
Lemma world_touch ram w st' p :
  world_ok ram w -> 0 < cover (live w) p -> same_lists (mem w) st' ->
  (forall q, q <> p -> phymm_pages st' q = phymm_pages (mem w) q) ->
  order (phymm_pages st' p) = order (phymm_pages (mem w) p) ->
  world_ok ram (World st' (live w)).
Proof.
  intros Hw Hc SL Hq Hp; pose proof Hw as [Hok Ho Hl]; pose proof SL as (E1 & E2 & _).
  pose proof (live_not_free ram w p Hw Hc) as Hf.
  split; cbn [mem live].
  - eapply ok_same_lists; [exact SL | | exact Hok]. intros o i Hi; apply Hq; intros ->.
    apply head_free in Hi; congruence.
  - intros q; rewrite (same_lists_free _ _ _ SL); auto.
  - intros o i Hi; destruct (Hl _ _ Hi) as [B O]; split; [apply (block_same (mem w)); done|].
    destruct (decide (i = p)) as [-> |]; [congruence | rewrite Hq; done].
Qed.

Lemma world_step_ok ram w w' : world_step w w' -> world_ok ram w -> world_ok ram w'.
Proof.
  intros Hs Hw; pose proof Hw as [Hok Ho Hl].
  assert (Hrng : forall ord idx, In (ord, idx) (live w) ->
            (idx =? PHYMM_INVALID) || (idx <? phymm_begin (mem w)) || (phymm_end (mem w) <=? idx) = false).
  { intros ord idx Hin; destruct (Hl _ _ Hin) as [(Ho' & B1 & B2 & _) _].
    pose proof (k_range _ Hok); pose proof (pow2_pos ord ltac:(lia)). unfold PHYMM_INVALID in *; lia. }
  destruct Hs as [w r ord idx st' Hn Er Es | w l1 ord idx l2 pc st' El Ef | w l1 idx l2 El | w p Hc | w p Hc].
  - pose proof (serve_any _ _ _ _ Hok Hn Er Es) as A; cbn in A; unfold grant.
    destruct (idx =? PHYMM_INVALID); [subst; destruct w; done | apply world_alloc; done].
  - assert (Hin : In (ord, idx) (live w)) by (rewrite El; apply in_or_app; right; left; done).
    destruct (Hl _ _ Hin) as [(Hr & _) Eo].
    unfold phymm_free_kernel in Ef; rewrite (Hrng _ _ Hin), Eo in Ef.
    destruct (Z.ltb_spec MAX_BUDDY_ORDER ord); [lia|]; cbn in Ef; injection Ef as <-.
    apply world_free; done.
  - assert (Hin : In (0, idx) (live w)) by (rewrite El; apply in_or_app; right; left; done).
    unfold phymm_free_user; rewrite (Hrng _ _ Hin). apply world_free; done.
  - apply (world_touch ram w _ p); try done; unfold phymm_reference_page; cbn; case_if; try (repeat split);
      cbn; unfold upd; try (intros q Hq; destruct (Z.eqb_spec q p); done); rewrite Z.eqb_refl; done.
  - apply (world_touch ram w _ p); try done; unfold phymm_dereference_page; cbn; case_if; try (repeat split);
      cbn; unfold upd; try (intros q Hq; destruct (Z.eqb_spec q p); done); rewrite Z.eqb_refl; done.
Qed.

Lemma world_steps_ok ram w w' : rtc world_step w w' -> world_ok ram w -> world_ok ram w'.
Proof. induction 1; eauto using world_step_ok. Qed.

(** ** Boot *)

Lemma init_reserve_spec st :
  0 <= phymm_begin st <= phymm_end st /\ phymm_end st <= PHYMM_INVALID ->
  let st' := init_reserve st in
  phymm_ok st' /\ (forall p, free_b st' p = false) /\ managed_pages st' = 0 /\
  phymm_begin st' = phymm_begin st /\ phymm_end st' = phymm_end st.
Proof.
  intros Hr st'; unfold st', init_reserve.
  set (st0 := Phymm _ _ _ (fun _ => []) 0 0 _).
  assert (G : forall l s, same_lists st0 s /\ managed_pages s = 0 ->
    let s' := foldl (fun s i => set_page s i (Page PHYMM_RESERVED PHYMM_ORDER_NONE (flags (phymm_pages s i)))) s l in
    same_lists st0 s' /\ managed_pages s' = 0).
  { induction l as [|i l IH]; intros s Hs; cbn [foldl]; [done|]. apply IH. exact Hs. }
  destruct (G (seqZ (phymm_begin st) (phymm_end st - phymm_begin st)) st0) as [SL M]; [repeat split|].
  set (s' := foldl _ _ _) in *.
  assert (F : forall p, free_b s' p = false).
  { intros p; rewrite (same_lists_free _ _ _ SL). reflexivity. }
  pose proof SL as (E1 & E2 & E3 & E4).
  assert (NL : forall o i, ~ on_list s' o i) by (intros o i [_ Hi]; rewrite E3 in Hi; done).
  split_and!; try done. split.
  - rewrite E1, E2; exact Hr.
  - intros o i Hi; destruct (NL _ _ Hi).
  - intros o _; rewrite E3; constructor.
  - intros o i o' i' Hi; destruct (NL _ _ Hi).
  - rewrite E4; cbn [buddy_free_pages].
    rewrite (npages_ext _ (fun _ => false)), npages_none by (intros; apply F); done.
Qed.

Lemma clear_reserved_loop st l : forall s,
  same_lists st s -> NoDup l ->
  let s' := foldl (fun s i => set_managed (set_page s i (Page 0 PHYMM_ORDER_NONE (flags (phymm_pages s i))))
                                (managed_pages s +u 1)) s l in
  same_lists st s' /\
  (forall p, p ∉ l -> phymm_pages s' p = phymm_pages s p) /\
  (forall p, p ∈ l -> ref_count (phymm_pages s' p) = 0) /\
  (0 <= managed_pages s -> managed_pages s + Z.of_nat (length l) < UINT32_MOD ->
   managed_pages s' = managed_pages s + Z.of_nat (length l)).
Proof.
  induction l as [|i l IH]; intros s Hs Hnd; cbn [foldl].
  - split_and!; try done; [intros p Hp; inversion Hp | cbn; lia].
  - apply NoDup_cons in Hnd as [Hi Hnd].
    set (s1 := set_managed _ _). destruct (IH s1 Hs Hnd) as (A & B & C & D).
    split_and!; try done.
    + intros p Hp; apply not_elem_of_cons in Hp as [Hp1 Hp2]. rewrite B by done. cbn; unfold upd.
      destruct (Z.eqb_spec p i); done.
    + intros p Hp; apply elem_of_cons in Hp as [-> | Hp]; [|auto].
      rewrite B by done; cbn; unfold upd; rewrite Z.eqb_refl; done.
    + intros Hm Hb; cbn [length] in *.
      assert (E : managed_pages s1 = managed_pages s + 1) by (apply u32_id; lia).
      rewrite D; lia.
Qed.

Lemma clear_reserved_spec st s e :
  phymm_ok st -> s <= e -> (forall p, s <= p < e -> free_b st p = false) ->
  let st' := clear_reserved st s e in
  phymm_ok st' /\ (forall p, free_b st' p = free_b st p) /\
  phymm_begin st' = phymm_begin st /\ phymm_end st' = phymm_end st /\
  (forall p, s <= p < e -> ref_count (phymm_pages st' p) = 0) /\
  (0 <= managed_pages st -> managed_pages st + (e - s) < UINT32_MOD ->
   managed_pages st' = managed_pages st + (e - s)).
Proof.
  intros Hok Hse Hd st'.
  destruct (clear_reserved_loop st (seqZ s (e - s)) st) as (A & B & C & D);
    [repeat split | apply NoDup_seqZ|]. fold (clear_reserved st s e) in A, B, C, D; fold st' in A, B, C, D.
  pose proof A as (E1 & E2 & _). rewrite length_seqZ, Z2Nat.id in D by lia.
  split_and!; try done.
  - eapply ok_same_lists; [exact A | | exact Hok]. intros o i Hi; apply B.
    rewrite elem_of_seqZ; intros Hp. apply head_free in Hi; rewrite Hd in Hi by lia; done.
  - intros p; apply same_lists_free; done.
  - intros p Hp; apply C, elem_of_seqZ; lia.
Qed.

Lemma fit_order_spec p e o :
  0 <= p -> p < e -> e <= 2 ^ 31 -> (o <= 10)%nat ->
  let r := fit_order p e o in
  0 <= r <= Z.of_nat o /\ (2 ^ r | p) /\ p + 2 ^ r <= e.
Proof.
  intros Hp He Hb; induction o as [|o IH]; intros Ho; cbn [fit_order].
  - split_and!; try lia. apply Z.divide_1_l.
  - set (k := Z.of_nat (S o)) in *. rewrite shiftl_1 by lia.
    pose proof (pow2_pos k ltac:(lia)); pose proof (pow2_le_1024 k ltac:(lia)).
    rewrite u32_id by (unfold UINT32_MOD; lia).
    destruct (Z.eqb_spec (Z.land p (2 ^ k - 1)) 0) as [E |]; cbn [andb];
      [|destruct (IH ltac:(lia)) as (? & ? & ?); split_and!; done || lia].
    destruct (Z.leb_spec (p + 2 ^ k) e);
      [|destruct (IH ltac:(lia)) as (? & ? & ?); split_and!; done || lia].
    split_and!; try lia. apply Z.mod_divide; [lia|].
    rewrite <- Z.land_ones by lia. rewrite Z.ones_equiv. rewrite <- E; f_equal; lia.
Qed.

Lemma add_range_loop_spec e fuel : forall st p,
  phymm_ok st -> phymm_begin st <= p -> p <= e -> e <= phymm_end st -> phymm_end st <= 2 ^ 31 ->
  e - p <= Z.of_nat fuel ->
  (forall q, p <= q < e -> free_b st q = false /\ ref_count (phymm_pages st q) = 0) ->
  let st' := add_range_loop fuel st p e in
  phymm_ok st' /\ (forall q, free_b st' q = free_b st q || inb p (e - p) q) /\
  phymm_begin st' = phymm_begin st /\ phymm_end st' = phymm_end st /\ managed_pages st' = managed_pages st.
Proof.
  induction fuel as [|fuel IH]; intros st p Hok Hb Hp He Hm Hf Hq; cbn [add_range_loop].
  - split_and!; try done. intros q; replace (inb p (e - p) q) with false by (unfold inb; lia).
    rewrite orb_false_r; done.
  - pose proof (k_range _ Hok) as Hr.
    destruct (Z.ltb_spec p e) as [h | h].
    2: { split_and!; try done. intros q; replace (inb p (e - p) q) with false by (unfold inb; lia).
         rewrite orb_false_r; done. }
    destruct (fit_order_spec p e (Z.to_nat MAX_BUDDY_ORDER)) as (R1 & R2 & R3);
      try lia; [unfold MAX_BUDDY_ORDER; lia|].
    change (Z.of_nat (Z.to_nat MAX_BUDDY_ORDER)) with MAX_BUDDY_ORDER in R1.
    set (o := fit_order p e (Z.to_nat MAX_BUDDY_ORDER)) in *.
    pose proof (pow2_pos o ltac:(lia)). rewrite shiftl_1, u32_id by (unfold UINT32_MOD; lia).
    destruct (Z.ltb_spec e (p + 2 ^ o)); [lia|].
    assert (B : block_ok st o p) by (unfold block_ok; split_and!; try done; lia).
    assert (Hd : forall q, inb p (2 ^ o) q = true -> free_b st q = false)
      by (intros q Hin; apply inb_spec in Hin; apply Hq; lia).
    assert (Href : ref_count (phymm_pages st p) = 0) by (apply Hq; lia).
    pose proof (push_ok st o p Hok B Hd Href) as Hok1.
    pose proof (push_free st o p B) as Hf1.
    destruct (IH (buddy_push st p o) (p + 2 ^ o)) as (A1 & A2 & A3 & A4 & A5); try done; cbn; try lia.
    { intros q Hqr; split.
      - rewrite Hf1. destruct (Hq q) as [-> _]; [lia|]. unfold inb; lia.
      - unfold upd. destruct (Z.eqb_spec q p); [lia | apply Hq; lia]. }
    split_and!; try done. intros q; rewrite A2, Hf1, <- orb_assoc; f_equal. unfold inb; lia.
Qed.

Lemma entry_range_spec st m s e :
  entry_range st m = Some (s, e) -> phymm_begin st <= s < e /\ e <= phymm_end st.
Proof.
  unfold entry_range; intros H.
  destruct (mtype m =? 1); [|done]. cbv zeta in H.
  set (base := Z.lor (base_addr_low m) _) in *. set (top := u64 _) in *.
  destruct (PHYMM_ADDRESS_LIMIT <=? base); [done|].
  set (t := if PHYMM_ADDRESS_LIMIT <? top then _ else _) in *.
  set (s0 := u32 (base / PAGE_SIZE)) in *; set (e0 := u32 (t / PAGE_SIZE)) in *.
  set (s1 := if s0 <? phymm_begin st then phymm_begin st else s0) in *.
  set (e1 := if phymm_end st <? e0 then phymm_end st else e0) in *.
  destruct (Z.leb_spec e1 s1); [done|]. injection H as <- <-.
  subst s1 e1; zcases; lia.
Qed.

(** The page ranges of the usable entries of a firmware map, and how many
    of them contain a page. *)
Definition map_ranges (st : phymm) (map : list memory_map) : list (Z * Z) := omap (entry_range st) map.
Definition in_ranges (rs : list (Z * Z)) (p : Z) : Z :=
  Z.of_nat (length (List.filter (fun r => inb r.1 (r.2 - r.1) p) rs)).

Lemma entry_range_same st st' m :
  phymm_begin st' = phymm_begin st -> phymm_end st' = phymm_end st ->
  entry_range st' m = entry_range st m.
Proof. intros E1 E2; unfold entry_range; rewrite E1, E2; done. Qed.

Lemma init_loop_spec map : forall st,
  phymm_ok st -> phymm_end st <= 2 ^ 31 -> managed_pages st = buddy_free_pages st ->
  (forall p, b2z (free_b st p) + in_ranges (map_ranges st map) p <= 1) ->
  let st' := foldl init_entry st map in
  phymm_ok st' /\ managed_pages st' = buddy_free_pages st' /\
  (forall p, b2z (free_b st' p) = b2z (free_b st p) + in_ranges (map_ranges st map) p).
Proof.
  induction map as [|m map IH]; intros st Hok Hm Hmg Hd; cbn [foldl].
  - split_and!; try done. intros p; unfold in_ranges; cbn; lia.
  - assert (Ei : init_entry st m = match entry_range st m with
      | None => st | Some (s, e) => buddy_add_free_range (clear_reserved st s e) s e end) by done.
    rewrite Ei; clear Ei. unfold map_ranges in *; cbn [omap list_omap] in *.
    destruct (entry_range st m) as [[s e]|] eqn:E; [|apply IH; done].
    destruct (entry_range_spec _ _ _ _ E) as [R1 R2].
    pose proof (k_range _ Hok) as [Hr0 _].
    assert (Hc : forall p, in_ranges ((s, e) :: omap (entry_range st) map) p =
                   b2z (inb s (e - s) p) + in_ranges (omap (entry_range st) map) p).
    { intros p; unfold in_ranges; cbn [List.filter fst snd].
      destruct (inb s (e - s) p); cbn [length b2z]; lia. }
    assert (Hnf : forall p, s <= p < e -> free_b st p = false).
    { intros p Hp; specialize (Hd p); rewrite Hc in Hd.
      replace (inb s (e - s) p) with true in Hd by (symmetry; apply inb_spec; lia).
      unfold in_ranges in Hd; destruct (free_b st p); cbn in Hd; [lia | done]. }
    destruct (clear_reserved_spec st s e Hok ltac:(lia) Hnf) as (C1 & C2 & C3 & C4 & C5 & C6).
    set (st1 := clear_reserved st s e) in *.
    destruct (add_range_loop_spec e (Z.to_nat (e - s)) st1 s) as (A1 & A2 & A3 & A4 & A5);
      rewrite ?C3, ?C4; try lia; try done.
    { intros q Hq; rewrite C2; auto. }
    fold (buddy_add_free_range st1 s e) in A1, A2, A3, A4, A5.
    set (st2 := buddy_add_free_range st1 s e) in *.
    assert (Ef : forall p, free_b st2 p = free_b st p || inb s (e - s) p)
      by (intros p; rewrite A2, C2; done).
    assert (En : buddy_free_pages st2 = buddy_free_pages st + (e - s)).
    { rewrite (k_count _ A1), (k_count _ Hok), A3, A4, C3, C4.
      rewrite (npages_ext _ (fun p => free_b st p || inb s (e - s) p)) by (intros; apply Ef).
      rewrite npages_or, npages_block; try lia.
      intros p _ H1 H2; apply inb_spec in H2; rewrite Hnf in H1 by lia; done. }
    assert (Em : managed_pages st2 = buddy_free_pages st2).
    { pose proof (npages_range (free_b st2) (phymm_begin st2) (phymm_end st2)) as N.
      rewrite <- (k_count _ A1) in N. rewrite A3, A4, C3, C4 in N. specialize (N ltac:(lia)).
      pose proof (npages_range (free_b st) (phymm_begin st) (phymm_end st)) as N0.
      rewrite <- (k_count _ Hok) in N0. specialize (N0 ltac:(lia)).
      rewrite A5, C6; unfold UINT32_MOD; lia. }
    assert (Er : omap (entry_range st2) map = omap (entry_range st) map).
    { apply list_omap_ext; apply Forall_Forall2_diag, Forall_true; intros m'.
      apply entry_range_same; congruence. }
    assert (Eb : forall p, b2z (free_b st2 p) = b2z (free_b st p) + b2z (inb s (e - s) p)).
    { intros p; rewrite Ef. destruct (inb s (e - s) p) eqn:Ei; [|rewrite orb_false_r; cbn; lia].
      rewrite Hnf by (apply inb_spec in Ei; lia). done. }
    destruct (IH st2 A1 ltac:(lia) Em) as (B1 & B2 & B3); rewrite ?Er in *.
    + intros p; rewrite Eb; specialize (Hd p); rewrite Hc in Hd; lia.
    + split_and!; try done. intros p; rewrite B3, Eb, Hc; lia.
Qed.

(** ** Properties *)

(** C14. After boot with a firmware map whose usable ranges do not overlap,
    and after any sequence of allocations, releases of live blocks and
    reference count changes of live pages: every page of a usable range is
    either free or in exactly one live block, and no other page is either.
    Live blocks are aligned to their size and inside the managed range, and
    the free page counter is the number of free pages. *)
Theorem phymm_pages_owned st0 map w :
  0 <= phymm_begin st0 <= phymm_end st0 -> phymm_end st0 <= 2 ^ 31 ->
  (forall p, in_ranges (map_ranges st0 map) p <= 1) ->
  rtc world_step (World (phymm_init st0 map) []) w ->
  (forall p, b2z (free_b (mem w) p) + cover (live w) p = in_ranges (map_ranges st0 map) p) /\
  (forall ord idx, In (ord, idx) (live w) -> block_ok (mem w) ord idx) /\
  buddy_free_pages (mem w) = npages (free_b (mem w)) (phymm_begin (mem w)) (phymm_end (mem w)).
Proof.
  intros Hr Hm Hd Hs.
  destruct (init_reserve_spec st0) as (I1 & I2 & I3 & I4 & I5); [unfold PHYMM_INVALID; lia|].
  assert (Er : map_ranges (init_reserve st0) map = map_ranges st0 map).
  { unfold map_ranges; apply list_omap_ext, Forall_Forall2_diag, Forall_true; intros m.
    apply entry_range_same; done. }
  destruct (init_loop_spec map (init_reserve st0) I1) as (J1 & J2 & J3).
  - lia.
  - rewrite I3, (k_count _ I1), (npages_ext _ (fun _ => false)) by (intros; apply I2).
    rewrite npages_none; done.
  - intros p; rewrite I2, Er; specialize (Hd p); cbn [b2z]; lia.
  - rewrite Er in J3. set (ram := fun p => nz (in_ranges (map_ranges st0 map) p)).
    assert (Hram : forall p, b2z (ram p) = in_ranges (map_ranges st0 map) p).
    { intros p; specialize (Hd p); subst ram; cbn; unfold nz.
      assert (0 <= in_ranges (map_ranges st0 map) p) by (unfold in_ranges; lia).
      zcases; cbn; lia. }
    assert (Hw : world_ok ram w).
    { eapply world_steps_ok; [exact Hs|]. split; cbn [mem live]; [exact J1 | | done].
      intros p; rewrite Hram; unfold phymm_init; rewrite J3, I2. change (cover [] p) with 0; cbn [b2z]; lia. }
    destruct Hw as [W1 W2 W3]; split_and!.
    + intros p; rewrite W2; apply Hram.
    + intros ord idx Hin; apply W3; done.
    + apply (k_count _ W1).
Qed.

(** Kernel allocation: a request of [n] pages (order at most
    MAX_BUDDY_ORDER) returns an aligned run of [2 ^ ord >= n] pages that were
    all free, below the kernel page limit, and takes exactly those out of the
    free pages; it fails only when no free block of a sufficient order lies
    below the limit, and then changes nothing. *)
Theorem phymm_alloc_kernel_correct st n ord :
  phymm_ok st -> 0 <= n < UINT32_MOD -> request_order n ord -> ord <= MAX_BUDDY_ORDER ->
  exists idx st', phymm_alloc_kernel st n = Some (idx, st') /\ n <= 2 ^ ord /\
  ((idx = PHYMM_INVALID /\ st' = st /\
     forall o i, on_list st o i -> ord <= o -> phymm_begin st <= i ->
       i + 2 ^ o <= phymm_kernel_page_limit st -> False) \/
   (phymm_ok st' /\ phymm_begin st <= idx /\ idx + 2 ^ ord <= phymm_kernel_page_limit st /\
     (2 ^ ord | idx) /\
     (forall p, idx <= p < idx + 2 ^ ord -> free_b st p = true) /\
     (forall p, free_b st' p = free_b st p && negb (inb idx (2 ^ ord) p)))).
Proof.
  intros Hok Hn E Hle; destruct (request_order_range n ord Hn E) as [_ Hsz].
  destruct (phymm_alloc_kernel st n) as [[idx st']|] eqn:A.
  2: { unfold phymm_alloc_kernel in A; unfold request_order in E; rewrite E in A; done. }
  exists idx, st'; split_and!; try done.
  destruct (alloc_kernel_window st n ord _ Hok Hn E Hle A) as [? | [[B O W F _ _] L]]; [auto|].
  right; destruct B as (B0 & B1 & B2 & B3). split_and!; try done.
  intros p Hp; apply W, inb_spec; done.
Qed.

(** Round trip: releasing a block that an allocation call returned,
    before anything else happens, restores the set of free pages, the free
    page counter and the invariant. *)
Theorem phymm_alloc_free_round_trip st r ord idx st1 page_count :
  phymm_ok st -> 0 <= req_pages r < UINT32_MOD -> request_order (req_pages r) ord ->
  serve st r = Some (idx, st1) -> idx <> PHYMM_INVALID ->
  exists st2, phymm_free_kernel st1 idx page_count = Some st2 /\ phymm_ok st2 /\
    (forall p, free_b st2 p = free_b st p) /\ buddy_free_pages st2 = buddy_free_pages st.
Proof.
  intros Hok Hn E S Hv; pose proof (serve_any _ _ _ _ Hok Hn E S) as A; cbn in A.
  destruct (Z.eqb_spec idx PHYMM_INVALID); [done|].
  destruct A as [B Hok1 W F O (E1 & E2 & _)].
  pose proof B as (B0 & B1 & B2 & B3). pose proof (k_range _ Hok).
  pose proof (pow2_pos ord ltac:(lia)).
  unfold phymm_free_kernel; rewrite O, E1, E2.
  destruct (Z.eqb_spec idx PHYMM_INVALID), (Z.ltb_spec idx (phymm_begin st)),
    (Z.leb_spec (phymm_end st) idx), (Z.ltb_spec MAX_BUDDY_ORDER ord); try lia.
  cbn [orb mbind option_bind]; eexists; split; [done|].
  destruct (buddy_free_block_spec st1 idx ord Hok1) as (Hok2 & F2 & E3 & E4 & _).
  { apply (block_same st st1); done. }
  { intros p Hp; rewrite F, Hp, andb_false_r; done. }
  assert (Fe : forall p, free_b (buddy_free_block st1 idx ord) p = free_b st p).
  { intros p; rewrite F2, F; destruct (inb idx (2 ^ ord) p) eqn:Ep; [|rewrite andb_true_r, orb_false_r; done].
    rewrite orb_true_r, (W p Ep); done. }
  split_and!; try done.
  rewrite (k_count _ Hok2), (k_count _ Hok), E3, E4, E1, E2. apply npages_ext; intros; apply Fe.
Qed.

(** Cache budget: on consistent figures each cache may grow to its own
    pages plus all free pages; on any figures each budget is at least one
    page and at most the managed pages (or one). *)
Theorem phymm_cache_budget_bounds total free fc bc :
  0 <= total < UINT32_MOD -> 0 <= free < UINT32_MOD -> 0 <= fc < UINT32_MOD -> 0 <= bc < UINT32_MOD ->
  UINT32_MAX <= MOS_BLOCK_CACHE_MAX_PAGES ->
  let p := phymm_cache_budget total free fc bc in
  1 <= file_pages p <= Z.max 1 total /\ 1 <= block_pages p <= Z.max 1 total /\
  (free + fc + bc <= total ->
     file_pages p = Z.max 1 (free + fc) /\ block_pages p = Z.max 1 (free + bc)).
Proof.
  intros Ht Hf Hc Hb HM p; subst p; unfold phymm_cache_budget, UINT32_MOD, UINT32_MAX in *.
  rewrite !u64_id by (rewrite ?u64_id; unfold UINT64_MOD; lia).
  set (av := if total <? free + fc + bc then total else free + fc + bc).
  assert (Hav : 0 <= av <= total) by (subst av; zcases; lia).
  assert (Hav' : free + fc + bc <= total -> av = free + fc + bc) by (subst av; zcases; lia).
  destruct (Z.ltb_spec bc av), (Z.ltb_spec fc av);
    rewrite ?u32_id by (unfold UINT32_MOD; lia); unfold nz; cbn; zcases; cbn in *; lia.
Qed.
End Config.

(** ** Concrete instances *)

(** Eleven pages from page 5, all usable. *)
Definition demo_boot : phymm :=
  Phymm 5 16 (fun _ => Page 0 0 0) (fun _ => []) 0 0 0.
Definition demo_map : list memory_map := [MemoryMap 0x5000 0 0xB000 0 1].
#[local] Abbreviation demo_mem := (phymm_init demo_boot demo_map).

Lemma demo_ranges p : in_ranges (map_ranges demo_boot demo_map) p <= 1.
Proof.
  assert (E : map_ranges demo_boot demo_map = [(5, 16)]) by reflexivity.
  rewrite E; unfold in_ranges; cbn [List.filter fst snd]. destruct (inb 5 (16 - 5) p); cbn; lia.
Qed.

Lemma demo_mem_ok : phymm_ok demo_mem.
Proof.
  destruct (init_reserve_spec demo_boot) as (I1 & I2 & I3 & I4 & I5); [cbn; unfold PHYMM_INVALID; lia|].
  apply (init_loop_spec demo_map (init_reserve demo_boot)); try done.
  intros p; rewrite I2. apply demo_ranges.
Qed.

(** Two pages are taken and released again. *)
Definition demo_taken : phymm := default demo_mem (snd <$> phymm_alloc_kernel demo_mem 2).

Lemma demo_taken_eq : phymm_alloc_kernel demo_mem 2 = Some (6, demo_taken).
Proof.
  assert (F : fst <$> phymm_alloc_kernel demo_mem 2 = Some 6) by (vm_compute; reflexivity).
  unfold demo_taken; destruct (phymm_alloc_kernel demo_mem 2) as [[i s]|]; [|done].
  injection F as ->; done.
Qed.

Definition demo_world : world := World demo_taken [(1, 6)].

Lemma demo_run :
  rtc world_step (World (phymm_init demo_boot demo_map) []) demo_world.
Proof.
  eapply rtc_l; [|apply rtc_refl].
  apply (WAlloc (World demo_mem []) (RKernel 2) 1 6 demo_taken);
    [split; reflexivity || discriminate | vm_compute; reflexivity | exact demo_taken_eq].
Qed.

Lemma ceil_log2_exact_witness :
  (exists r, ceil_log2 5 = Some r /\ 5 <= 2 ^ r /\ (r = 0 \/ 2 ^ (r - 1) < 5)) /\
  (forall fuel, ceil_log2_loop fuel (2 ^ 31 + 1) 0 1 = None).
Proof.
  split.
  - apply (ceil_log2_exact 5); [split; reflexivity | discriminate].
  - apply (ceil_log2_exact (2 ^ 31 + 1)); [split; reflexivity | reflexivity].
Defined.

Lemma phymm_pages_owned_witness :
  b2z (free_b (mem demo_world) 6) + cover (live demo_world) 6 = in_ranges (map_ranges demo_boot demo_map) 6 /\
  block_ok (mem demo_world) 1 6.
Proof.
  assert (H1 : 0 <= phymm_begin demo_boot <= phymm_end demo_boot) by (cbn; lia).
  assert (H2 : phymm_end demo_boot <= 2 ^ 31) by (cbn; lia).
  destruct (phymm_pages_owned demo_boot demo_map demo_world H1 H2 demo_ranges demo_run)
    as (A & B & _).
  split; [exact (A 6) | exact (B 1 6 (or_introl eq_refl))].
Defined.

Lemma phymm_alloc_kernel_correct_witness :
  exists idx st', phymm_alloc_kernel demo_mem 2 = Some (idx, st') /\ 2 <= 2 ^ 1.
Proof.
  destruct (phymm_alloc_kernel_correct demo_mem 2 1 demo_mem_ok) as (idx & st' & A & B & _);
    [split; reflexivity || discriminate | vm_compute; reflexivity | discriminate |].
  exists idx, st'; split; [exact A | exact B].
Defined.

Lemma phymm_alloc_free_round_trip_witness :
  exists st2, phymm_free_kernel demo_taken 6 2 = Some st2 /\ phymm_ok st2 /\
    (forall p, free_b st2 p = free_b demo_mem p) /\ buddy_free_pages st2 = buddy_free_pages demo_mem.
Proof.
  apply (phymm_alloc_free_round_trip demo_mem (RKernel 2) 1 6 demo_taken 2 demo_mem_ok);
    [split; reflexivity || discriminate | vm_compute; reflexivity | exact demo_taken_eq | discriminate].
Defined.

Lemma phymm_cache_budget_bounds_witness :
  let p := phymm_cache_budget 100 20 30 40 in file_pages p = 50 /\ block_pages p = 60.
Proof.
  apply (phymm_cache_budget_bounds 100 20 30 40); try (split; reflexivity || discriminate); discriminate.
Defined.
