(* ===== verification/KList.v ===== *)
(** * Intrusive circular lists

    Model of src/lib/impl/list.c at the level of its pointers: memory maps
    the addresses of list_entry objects to their two links, every assignment
    is one memory update in the order of the source, and the access of an
    address that holds no entry is [None]. *)

From S2P Require Import Prelude.

Record list_entry := Entry { prev : Z; next : Z }.
Abbreviation memory := (gmap Z list_entry).

Definition get_prev (m : memory) (p : Z) : option Z := prev <$> m !! p.
Definition get_next (m : memory) (p : Z) : option Z := next <$> m !! p.
Definition set_prev (m : memory) (p v : Z) : option memory :=
  e ← m !! p; Some (<[p := Entry v (next e)]> m).
Definition set_next (m : memory) (p v : Z) : option memory :=
  e ← m !! p; Some (<[p := Entry (prev e) v]> m).

Definition list_init (m : memory) (head : Z) : option memory :=
  m ← set_next m head head;
  set_prev m head head.

Definition list_is_empty (m : memory) (head : Z) : option bool :=
  p ← get_prev m head; Some (p =? head).

Definition list_remove_entry (m : memory) (entry : Z) : option (bool * memory) :=
  p ← get_prev m entry;
  n ← get_next m entry;
  m ← set_prev m n p;
  m ← set_next m p n;
  Some (p =? n, m).

Definition list_remove_tail (m : memory) (head : Z) : option (Z * memory) :=
  entry ← get_prev m head;
  p ← get_prev m entry;
  m ← set_prev m head p;
  m ← set_next m p head;
  Some (entry, m).

Definition list_remove_head (m : memory) (head : Z) : option (Z * memory) :=
  entry ← get_next m head;
  n ← get_next m entry;
  m ← set_next m head n;
  m ← set_prev m n head;
  Some (entry, m).

Definition list_insert_head (m : memory) (head entry : Z) : option memory :=
  n ← get_next m head;
  m ← set_prev m entry head;
  m ← set_next m entry n;
  m ← set_prev m n entry;
  set_next m head entry.

Definition list_insert_tail (m : memory) (head entry : Z) : option memory :=
  p ← get_prev m head;
  m ← set_prev m entry p;
  m ← set_next m entry head;
  m ← set_next m p entry;
  set_prev m head entry.
