(* ===== verification/KListProof.v ===== *)
(** * The pointer lists implement sequences

    A ring of entries represents the sequence met when the [next] links are
    followed from the head.  Each operation acts on the sequence as its name
    says, keeps both directions of links consistent, and touches no entry
    outside the ring. *)

From S2P Require Import Prelude KList.

(** ** Representation *)

(** The links between consecutive addresses of [x :: l], in both directions. *)
Fixpoint links (m : memory) (x : Z) (l : list Z) : Prop :=
  match l with
  | [] => True
  | y :: l' => get_next m x = Some y /\ get_prev m y = Some x /\ links m y l'
  end.

Definition last_of (x : Z) (l : list Z) : Z := default x (last l).

(** [es] are the entries of the list with head [h]. *)
Definition ring (m : memory) (h : Z) (es : list Z) : Prop :=
  NoDup (h :: es) /\ links m h es /\
  get_next m (last_of h es) = Some h /\ get_prev m h = Some (last_of h es).

(** Changing links outside the ring. *)
Definition untouched (m m' : memory) (inside : list Z) : Prop :=
  forall p, p ∉ inside -> m' !! p = m !! p.

Lemma last_of_snoc x l y : last_of x (l ++ [y]) = y.
Proof. unfold last_of; rewrite last_snoc; done. Qed.
Lemma last_of_cons x y l : last_of x (y :: l) = last_of y l.
Proof. unfold last_of; rewrite last_cons; destruct (last l); done. Qed.
Lemma last_of_app x l y l' : last_of x (l ++ y :: l') = last_of y l'.
Proof. unfold last_of; rewrite last_app_cons, last_cons; destruct (last l'); done. Qed.
Lemma last_of_in x l : last_of x l ∈ x :: l.
Proof.
  destruct l as [|y l] using rev_ind; [constructor|]. rewrite last_of_snoc.
  right; apply elem_of_app; right; constructor.
Qed.

Lemma links_app m x l1 y l2 :
  links m x (l1 ++ y :: l2) <->
  links m x l1 /\ get_next m (last_of x l1) = Some y /\ get_prev m y = Some (last_of x l1) /\ links m y l2.
Proof.
  revert x; induction l1 as [|z l1 IH]; intros x; cbn [links app].
  - unfold last_of; cbn; tauto.
  - rewrite IH, last_of_cons. tauto.
Qed.

(** The links depend on [next] of all but the last address and on [prev] of
    all but the first. *)
Lemma links_frame m m' x l :
  (forall p, p ∈ x :: l -> p <> last_of x l -> get_next m' p = get_next m p) ->
  (forall p, p ∈ l -> get_prev m' p = get_prev m p) ->
  NoDup (x :: l) -> links m x l -> links m' x l.
Proof.
  revert x; induction l as [|y l IH]; intros x Hn Hp Hd Hl; [done|].
  destruct Hl as (H1 & H2 & H3); rewrite last_of_cons in Hn; cbn [links].
  apply NoDup_cons in Hd as [Hx Hd]. split_and!.
  - rewrite Hn; [done | constructor |]. intros ->; apply Hx, last_of_in.
  - rewrite Hp; [done | constructor].
  - apply IH; try done; intros p Hin; [intros; apply Hn | apply Hp]; try done; right; done.
Qed.

(** A list whose entries keep their contents stays a list. *)
Lemma ring_untouched m m' inside h es :
  ring m h es -> untouched m m' inside -> (forall q, q ∈ h :: es -> q ∉ inside) -> ring m' h es.
Proof.
  intros (Hd & Hl & Hn & Hp) U Hq.
  assert (N : forall q, q ∈ h :: es -> get_next m' q = get_next m q)
    by (intros q Hin; unfold get_next; rewrite U; auto).
  assert (P : forall q, q ∈ h :: es -> get_prev m' q = get_prev m q)
    by (intros q Hin; unfold get_prev; rewrite U; auto).
  split_and!; try done.
  - apply (links_frame m); try done; intros q Hin; [intros _; auto | apply P; right; done].
  - rewrite N by (apply last_of_in); done.
  - rewrite P by constructor; done.
Qed.

(** Memory after the assignments: reads of one link. *)
Lemma get_next_set_next m p v q e :
  m !! p = Some e -> get_next (<[p := Entry (prev e) v]> m) q = if decide (q = p) then Some v else get_next m q.
Proof.
  intros He; unfold get_next. destruct (decide (q = p)) as [-> |].
  - rewrite lookup_insert_eq; done.
  - rewrite lookup_insert_ne by done; done.
Qed.
Lemma get_prev_set_next m p v q e :
  m !! p = Some e -> get_prev (<[p := Entry (prev e) v]> m) q = get_prev m q.
Proof.
  intros He; unfold get_prev. destruct (decide (q = p)) as [-> |].
  - rewrite lookup_insert_eq, He; done.
  - rewrite lookup_insert_ne by done; done.
Qed.
Lemma get_prev_set_prev m p v q e :
  m !! p = Some e -> get_prev (<[p := Entry v (next e)]> m) q = if decide (q = p) then Some v else get_prev m q.
Proof.
  intros He; unfold get_prev. destruct (decide (q = p)) as [-> |].
  - rewrite lookup_insert_eq; done.
  - rewrite lookup_insert_ne by done; done.
Qed.
Lemma get_next_set_prev m p v q e :
  m !! p = Some e -> get_next (<[p := Entry v (next e)]> m) q = get_next m q.
Proof.
  intros He; unfold get_next. destruct (decide (q = p)) as [-> |].
  - rewrite lookup_insert_eq, He; done.
  - rewrite lookup_insert_ne by done; done.
Qed.

(** What an assignment does, without the stored record. *)
Record assigned_next (m : memory) (p v : Z) (m' : memory) : Prop := {
  an_next : forall q, get_next m' q = if decide (q = p) then Some v else get_next m q;
  an_prev : forall q, get_prev m' q = get_prev m q;
  an_else : untouched m m' [p] }.
Record assigned_prev (m : memory) (p v : Z) (m' : memory) : Prop := {
  ap_prev : forall q, get_prev m' q = if decide (q = p) then Some v else get_prev m q;
  ap_next : forall q, get_next m' q = get_next m q;
  ap_else : untouched m m' [p] }.

Lemma set_next_ok m p v : is_Some (m !! p) -> exists m', set_next m p v = Some m' /\ assigned_next m p v m'.
Proof.
  intros [e He]; unfold set_next; rewrite He; eexists; split; [done|]; split.
  - intros q; apply get_next_set_next; done.
  - intros q; apply get_prev_set_next; done.
  - intros q Hq; apply not_elem_of_cons in Hq as [Hq _]; rewrite lookup_insert_ne; done.
Qed.
Lemma set_prev_ok m p v : is_Some (m !! p) -> exists m', set_prev m p v = Some m' /\ assigned_prev m p v m'.
Proof.
  intros [e He]; unfold set_prev; rewrite He; eexists; split; [done|]; split.
  - intros q; apply get_prev_set_prev; done.
  - intros q; apply get_next_set_prev; done.
  - intros q Hq; apply not_elem_of_cons in Hq as [Hq _]; rewrite lookup_insert_ne; done.
Qed.

Lemma valid_next m p : is_Some (m !! p) <-> is_Some (get_next m p).
Proof. unfold get_next; rewrite fmap_is_Some; done. Qed.
Lemma valid_prev m p : is_Some (m !! p) <-> is_Some (get_prev m p).
Proof. unfold get_prev; rewrite fmap_is_Some; done. Qed.

(** One assignment of a run: [H] says that the address is valid. *)
Ltac assign m' A H :=
  match goal with
  | |- context [set_next ?m ?p ?v] =>
      destruct (set_next_ok m p v H) as (m' & -> & A); cbn [mbind option_bind]
  | |- context [set_prev ?m ?p ?v] =>
      destruct (set_prev_ok m p v H) as (m' & -> & A); cbn [mbind option_bind]
  end.

Section Insert.
Variables (m : memory) (h : Z) (es : list Z) (e : Z).
Hypothesis Hring : ring m h es.
Hypothesis Hnew : e ∉ h :: es.
Hypothesis Hval : is_Some (m !! e).
Let p := last_of h es.

Lemma insert_tail_links :
  exists m', list_insert_tail m h e = Some m' /\
    (forall q, get_next m' q = if decide (q = p) then Some e else if decide (q = e) then Some h else get_next m q) /\
    (forall q, get_prev m' q = if decide (q = h) then Some e else if decide (q = e) then Some p else get_prev m q) /\
    untouched m m' [e; p; h].
Proof.
  destruct Hring as (_ & _ & Hn & Hp); fold p in Hn, Hp.
  assert (Hep : e <> p) by (intros E; apply Hnew; rewrite E; apply last_of_in).
  unfold list_insert_tail; rewrite Hp; cbn [mbind option_bind].
  assign m1 A1 Hval.
  assert (V2 : is_Some (m1 !! e)) by (apply valid_prev; rewrite (ap_prev _ _ _ _ A1), decide_True; done).
  assign m2 A2 V2.
  assert (V3 : is_Some (m2 !! p)).
  { apply valid_next; rewrite (an_next _ _ _ _ A2), (ap_next _ _ _ _ A1), decide_False by done; eauto. }
  assign m3 A3 V3.
  assert (V4 : is_Some (m3 !! h)).
  { apply valid_prev; rewrite (an_prev _ _ _ _ A3), (an_prev _ _ _ _ A2), (ap_prev _ _ _ _ A1).
    case_decide; eauto. }
  assign m4 A4 V4. exists m4; split_and!; [done | | |].
  - intros q; rewrite (ap_next _ _ _ _ A4), (an_next _ _ _ _ A3), (an_next _ _ _ _ A2), (ap_next _ _ _ _ A1).
    repeat case_decide; done.
  - intros q; rewrite (ap_prev _ _ _ _ A4), (an_prev _ _ _ _ A3), (an_prev _ _ _ _ A2), (ap_prev _ _ _ _ A1).
    repeat case_decide; done.
  - intros q Hq; rewrite !not_elem_of_cons in Hq; destruct Hq as (Q1 & Q2 & Q3 & _).
    rewrite (ap_else _ _ _ _ A4), (an_else _ _ _ _ A3), (an_else _ _ _ _ A2), (ap_else _ _ _ _ A1);
      try done; rewrite list_elem_of_singleton; done.
Qed.

Lemma insert_tail_ring :
  exists m', list_insert_tail m h e = Some m' /\ ring m' h (es ++ [e]) /\ untouched m m' (e :: h :: es).
Proof.
  destruct insert_tail_links as (m' & E & N & P & U); exists m'; split; [done|].
  destruct Hring as (Hd & Hl & Hn & Hp); fold p in Hn, Hp.
  pose proof (last_of_in h es) as Hpi; fold p in Hpi.
  assert (Hdh : h ∉ es) by (apply NoDup_cons in Hd; tauto).
  assert (Hep : e <> p) by (intros ->; done).
  assert (Heh : e <> h) by (intros ->; apply Hnew; constructor).
  split; [|intros q Hq; apply U; rewrite !not_elem_of_cons in *].
  2: { destruct Hq as (Q1 & Q2 & Q3); split_and!; try done; [|intros Hx; inversion Hx].
       intros ->; apply elem_of_cons in Hpi as [? | ?]; done. }
  split_and!.
  - rewrite NoDup_cons, elem_of_app, list_elem_of_singleton, NoDup_app.
    apply NoDup_cons in Hd as [_ Hd]. split_and!; try done; [intros [? | ->]; done | | apply NoDup_singleton].
    intros q Hq; rewrite list_elem_of_singleton; intros ->. apply Hnew; right; done.
  - apply links_app; fold p; split_and!; [|rewrite N, decide_True; done
      | rewrite P, decide_False, decide_True; done | done].
    apply (links_frame m); try done.
    + intros q Hq Hqp; fold p in Hqp. rewrite N, !decide_False; [done | intros ->; done | done].
    + intros q Hq. rewrite P, !decide_False; [done | | ]; intros ->; [|done]. apply Hnew; right; done.
  - rewrite last_of_snoc, N, decide_False, decide_True; done.
  - rewrite last_of_snoc, P, decide_True; done.
Qed.

Lemma insert_head_links :
  let n := default h (head es) in
  exists m', list_insert_head m h e = Some m' /\
    (forall q, get_next m' q = if decide (q = h) then Some e else if decide (q = e) then Some n else get_next m q) /\
    (forall q, get_prev m' q = if decide (q = n) then Some e else if decide (q = e) then Some h else get_prev m q) /\
    untouched m m' [e; n; h].
Proof.
  intros n; destruct Hring as (_ & Hl & Hn & Hp).
  assert (Hh : get_next m h = Some n).
  { subst n; destruct es as [|x l]; [exact Hn | cbn; apply Hl]. }
  assert (Hpn : is_Some (get_prev m n)).
  { subst n; destruct es as [|x l]; cbn; [eauto | destruct Hl as (_ & -> & _); eauto]. }
  assert (Heh : e <> h) by (intros ->; apply Hnew; constructor).
  unfold list_insert_head; rewrite Hh; cbn [mbind option_bind].
  assign m1 A1 Hval.
  assert (V2 : is_Some (m1 !! e)) by (apply valid_prev; rewrite (ap_prev _ _ _ _ A1), decide_True; done).
  assign m2 A2 V2.
  assert (V3 : is_Some (m2 !! n)).
  { apply valid_prev; rewrite (an_prev _ _ _ _ A2), (ap_prev _ _ _ _ A1). case_decide; eauto. }
  assign m3 A3 V3.
  assert (V4 : is_Some (m3 !! h)).
  { apply valid_next; rewrite (ap_next _ _ _ _ A3), (an_next _ _ _ _ A2), (ap_next _ _ _ _ A1).
    case_decide; eauto. }
  assign m4 A4 V4. exists m4; split_and!; [done | | |].
  - intros q; rewrite (an_next _ _ _ _ A4), (ap_next _ _ _ _ A3), (an_next _ _ _ _ A2), (ap_next _ _ _ _ A1).
    repeat case_decide; done.
  - intros q; rewrite (an_prev _ _ _ _ A4), (ap_prev _ _ _ _ A3), (an_prev _ _ _ _ A2), (ap_prev _ _ _ _ A1).
    repeat case_decide; done.
  - intros q Hq; rewrite !not_elem_of_cons in Hq; destruct Hq as (Q1 & Q2 & Q3 & _).
    rewrite (an_else _ _ _ _ A4), (ap_else _ _ _ _ A3), (an_else _ _ _ _ A2), (ap_else _ _ _ _ A1);
      try done; rewrite list_elem_of_singleton; done.
Qed.

Lemma insert_head_ring :
  exists m', list_insert_head m h e = Some m' /\ ring m' h (e :: es) /\ untouched m m' (e :: h :: es).
Proof.
  destruct insert_head_links as (m' & E & N & P & U); exists m'; split; [done|].
  destruct Hring as (Hd & Hl & Hn & Hp).
  assert (Heh : e <> h) by (intros ->; apply Hnew; constructor).
  assert (Hee : e ∉ es) by (intros ?; apply Hnew; right; done).
  pose proof Hd as Hd'; apply NoDup_cons in Hd' as [Hdh Hde].
  set (n := default h (head es)) in *.
  assert (Hne : n <> e) by (subst n; destruct es; cbn; [done | intros ->; apply Hee; constructor]).
  split; [|intros q Hq; apply U; rewrite !not_elem_of_cons in *].
  2: { destruct Hq as (Q1 & Q2 & Q3); split_and!; try done; [|intros Hx; inversion Hx].
       subst n; destruct es; cbn; [done | intros ->; apply Q3; constructor]. }
  split_and!.
  - apply NoDup_cons; split; [|apply NoDup_cons; done].
    rewrite not_elem_of_cons; done.
  - cbn [links]; split_and!.
    + rewrite N, decide_True; done.
    + rewrite P, decide_False, decide_True; done.
    + subst n. destruct es as [|x l]; [done|]. cbn in *. destruct Hl as (_ & _ & Hl).
      apply NoDup_cons in Hde as [Hx Hdl]. rewrite not_elem_of_cons in Hdh, Hee.
      split_and!.
      * rewrite N, decide_False, decide_True; done.
      * rewrite P, decide_True; done.
      * apply (links_frame m); try done; [| |apply NoDup_cons; done].
        -- intros q Hq _. rewrite N, !decide_False; [done | |]; intros ->;
             apply elem_of_cons in Hq as [? | ?]; tauto.
        -- intros q Hq. rewrite P, !decide_False; [done | |]; intros ->; tauto.
  - rewrite last_of_cons, N. subst n. destruct es as [|x l].
    + rewrite decide_False, decide_True; done.
    + rewrite last_of_cons in *. pose proof (last_of_in x l) as Hin.
      rewrite !decide_False; [done | |]; intros E'; rewrite E' in Hin; done.
  - rewrite last_of_cons, P. subst n. destruct es as [|x l].
    + rewrite decide_True; done.
    + rewrite last_of_cons in *. cbn. rewrite !decide_False; [done | |]; intros E';
        [congruence | apply Hdh; rewrite E'; constructor].
Qed.
End Insert.

(** ** Removal *)

Section Remove.
Variables (m : memory) (h : Z) (l1 : list Z) (e : Z) (l2 : list Z).
Hypothesis Hring : ring m h (l1 ++ e :: l2).
Let p := last_of h l1.
Let n := default h (head l2).

(** The neighbours of the entry, and facts on the addresses. *)
Lemma remove_neighbours :
  get_prev m e = Some p /\ get_next m e = Some n /\ is_Some (m !! p) /\ is_Some (m !! n) /\
  get_next m p = Some e /\ get_prev m n = Some e.
Proof.
  destruct Hring as (_ & Hl & Hn & Hp); apply links_app in Hl as (_ & H1 & H2 & H3); fold p in H1, H2.
  rewrite last_of_app in Hn, Hp.
  assert (He : get_next m e = Some n /\ get_prev m n = Some e).
  { subst n; destruct l2 as [|x l]; cbn; [done|]. destruct H3 as (? & ? & _); done. }
  destruct He as [He1 He2].
  split_and!; try done; [apply valid_next | apply valid_prev]; eauto.
Qed.

(** Linking the neighbours to each other gives the ring without the entry. *)
Lemma unlinked_ring m' :
  (forall q, get_next m' q = if decide (q = p) then Some n else get_next m q) ->
  (forall q, get_prev m' q = if decide (q = n) then Some p else get_prev m q) ->
  ring m' h (l1 ++ l2).
Proof.
  intros N P; destruct Hring as (Hd & Hl & Hn & Hp).
  rewrite last_of_app in Hn, Hp. apply links_app in Hl as (Hl1 & _ & _ & Hl2).
  pose proof Hd as Hd'; rewrite NoDup_cons, elem_of_app, elem_of_cons, NoDup_app, NoDup_cons in Hd'.
  destruct Hd' as (Hh & D1 & Dx & De & D2).
  assert (Hh1 : h ∉ l1) by tauto. assert (Hh2 : h ∉ l2) by tauto.
  assert (Dx' : forall q, q ∈ l1 -> q ∉ l2) by (intros q Hq Hq2; apply (Dx q Hq); right; done).
  assert (L1 : links m' h l1).
  { apply (links_frame m); try done; [| |apply NoDup_cons; done].
    - intros q Hq Hqp; rewrite N, decide_False; done.
    - intros q Hq; rewrite P, decide_False; [done|]. subst n; intros ->.
      destruct l2 as [|x l]; cbn in Hq; [done|]. apply (Dx' x Hq); constructor. }
  split_and!.
  - rewrite NoDup_cons, elem_of_app, NoDup_app. tauto.
  - subst n. destruct l2 as [|x l]; [rewrite app_nil_r; done|]. cbn in N, P.
    apply links_app; fold p. destruct Hl2 as (_ & _ & Hl2). apply NoDup_cons in D2 as [Dxl D2].
    split_and!; [done | rewrite N, decide_True; done | rewrite P, decide_True; done|].
    apply (links_frame m); try done; [| |apply NoDup_cons; done].
    + intros q Hq _; rewrite N, decide_False; [done|]. intros ->. pose proof (last_of_in h l1) as Hin.
      fold p in Hin; apply elem_of_cons in Hin as [E | Hin]; [rewrite E in Hq; done | apply (Dx' p Hin Hq)].
    + intros q Hq; rewrite P, decide_False; [done | intros ->; done].
  - rewrite N. subst n. destruct l2 as [|x l].
    + rewrite app_nil_r; fold p. rewrite decide_True; done.
    + rewrite last_of_app, last_of_cons in *. rewrite decide_False; [done|]. intros E.
      pose proof (last_of_in h l1) as Hin; fold p in Hin. pose proof (last_of_in x l) as Hin2. rewrite E in Hin2.
      apply elem_of_cons in Hin as [E' | Hin]; [rewrite E' in Hin2; done | apply (Dx' p Hin Hin2)].
  - rewrite P. subst n. destruct l2 as [|x l].
    + rewrite app_nil_r; fold p. rewrite decide_True; done.
    + rewrite last_of_app, last_of_cons in *. cbn. rewrite decide_False; [done|].
      intros ->; apply Hh2; constructor.
Qed.

Lemma unlinked_inside q : q ∉ h :: l1 ++ e :: l2 -> q <> p /\ q <> n.
Proof.
  rewrite not_elem_of_cons, elem_of_app, elem_of_cons; intros [Hq1 Hq2]; split; intros ->.
  - pose proof (last_of_in h l1) as Hin; fold p in Hin; apply elem_of_cons in Hin; tauto.
  - subst n; destruct l2; cbn in *; [done|]. apply Hq2; right; right; constructor.
Qed.

Lemma remove_entry_ring :
  exists m', list_remove_entry m e = Some (bool_decide (p = n), m') /\ ring m' h (l1 ++ l2) /\
    untouched m m' (h :: l1 ++ e :: l2).
Proof.
  destruct remove_neighbours as (E1 & E2 & Vp & Vn & F1 & F2).
  unfold list_remove_entry; rewrite E1, E2; cbn [mbind option_bind].
  assign m1 A1 Vn.
  assert (V2 : is_Some (m1 !! p)) by (apply valid_next; rewrite (ap_next _ _ _ _ A1); eauto).
  assign m2 A2 V2. exists m2; split_and!.
  - do 2 f_equal; case_bool_decide; lia.
  - apply unlinked_ring; intros q.
    + rewrite (an_next _ _ _ _ A2), (ap_next _ _ _ _ A1); done.
    + rewrite (an_prev _ _ _ _ A2), (ap_prev _ _ _ _ A1); done.
  - intros q Hq; apply unlinked_inside in Hq as [Q1 Q2].
    rewrite (an_else _ _ _ _ A2), (ap_else _ _ _ _ A1); try done; rewrite list_elem_of_singleton; done.
Qed.
End Remove.

(** Taking from either end. *)
Lemma remove_head_ring m h e es :
  ring m h (e :: es) ->
  exists m', list_remove_head m h = Some (e, m') /\ ring m' h es /\ untouched m m' (h :: e :: es).
Proof.
  intros Hr; destruct (remove_neighbours m h [] e es Hr) as (E1 & E2 & Vp & Vn & F1 & F2).
  unfold list_remove_head; change (last_of h []) with h in *; rewrite F1; cbn [mbind option_bind].
  rewrite E2; cbn [mbind option_bind]. assign m1 A1 Vp.
  assert (V2 : is_Some (m1 !! default h (head es)))
    by (apply valid_prev; rewrite (an_prev _ _ _ _ A1); eauto).
  assign m2 A2 V2. exists m2; split_and!; [done | |].
  - apply (unlinked_ring m h [] e es Hr); intros q.
    + rewrite (ap_next _ _ _ _ A2), (an_next _ _ _ _ A1); done.
    + rewrite (ap_prev _ _ _ _ A2), (an_prev _ _ _ _ A1); done.
  - intros q Hq; apply (unlinked_inside m h [] e es Hr) in Hq as [Q1 Q2].
    rewrite (ap_else _ _ _ _ A2), (an_else _ _ _ _ A1); try done; rewrite list_elem_of_singleton; done.
Qed.

Lemma remove_tail_ring m h e es :
  ring m h (es ++ [e]) ->
  exists m', list_remove_tail m h = Some (e, m') /\ ring m' h es /\ untouched m m' (h :: es ++ [e]).
Proof.
  intros Hr; destruct (remove_neighbours m h es e [] Hr) as (E1 & E2 & Vp & Vn & F1 & F2).
  unfold list_remove_tail; cbn [head default] in *; rewrite F2; cbn [mbind option_bind].
  rewrite E1; cbn [mbind option_bind]. assign m1 A1 Vn.
  assert (V2 : is_Some (m1 !! last_of h es))
    by (apply valid_next; rewrite (ap_next _ _ _ _ A1); eauto).
  assign m2 A2 V2. exists m2; split_and!; [done | |].
  - pose proof (unlinked_ring m h es e [] Hr m2) as R; rewrite app_nil_r in R; apply R; intros q.
    + rewrite (an_next _ _ _ _ A2), (ap_next _ _ _ _ A1); done.
    + rewrite (an_prev _ _ _ _ A2), (ap_prev _ _ _ _ A1); done.
  - intros q Hq; apply (unlinked_inside m h es e [] Hr) in Hq as [Q1 Q2].
    rewrite (an_else _ _ _ _ A2), (ap_else _ _ _ _ A1); try done; rewrite list_elem_of_singleton; done.
Qed.

(** ** Properties *)

(** Inserting a valid entry that is not on the list puts it first or
    last, keeps all links consistent and touches only entries of the list:
    any other list stays as it is. *)
Theorem list_insert_refines m h es e h' es' :
  ring m h es -> e ∉ h :: es -> is_Some (m !! e) ->
  ring m h' es' -> (forall q, q ∈ h' :: es' -> q ∉ e :: h :: es) ->
  (exists m', list_insert_tail m h e = Some m' /\ ring m' h (es ++ [e]) /\ ring m' h' es') /\
  (exists m', list_insert_head m h e = Some m' /\ ring m' h (e :: es) /\ ring m' h' es').
Proof.
  intros Hr Hn Hv Hr' Hdis.
  destruct (insert_tail_ring m h es e Hr Hn Hv) as (m1 & E1 & R1 & U1).
  destruct (insert_head_ring m h es e Hr Hn Hv) as (m2 & E2 & R2 & U2).
  split; [exists m1 | exists m2]; split_and!; try done; eapply ring_untouched; eauto.
Qed.

(** Removing an entry from anywhere, or from either end, takes exactly
    that entry out of the sequence, keeps all links consistent and leaves any
    other list as it is. *)
Theorem list_remove_refines m h l1 e l2 h' es' :
  ring m h (l1 ++ e :: l2) ->
  ring m h' es' -> (forall q, q ∈ h' :: es' -> q ∉ h :: l1 ++ e :: l2) ->
  (exists b m', list_remove_entry m e = Some (b, m') /\ ring m' h (l1 ++ l2) /\ ring m' h' es') /\
  (l1 = [] -> exists m', list_remove_head m h = Some (e, m') /\ ring m' h l2 /\ ring m' h' es') /\
  (l2 = [] -> exists m', list_remove_tail m h = Some (e, m') /\ ring m' h l1 /\ ring m' h' es').
Proof.
  intros Hr Hr' Hdis; split_and!.
  - destruct (remove_entry_ring m h l1 e l2 Hr) as (m1 & E1 & R1 & U1).
    eexists _, m1; split_and!; try done; eapply ring_untouched; eauto.
  - intros ->; destruct (remove_head_ring m h e l2 Hr) as (m1 & E1 & R1 & U1).
    exists m1; split_and!; try done; eapply ring_untouched; eauto.
  - intros ->; destruct (remove_tail_ring m h e l1 Hr) as (m1 & E1 & R1 & U1).
    exists m1; split_and!; try done; eapply ring_untouched; eauto.
Qed.

(** The emptiness test is exact on every list, and list_init() makes an
    empty list of any valid entry. *)
Theorem list_empty_exact m h es :
  ring m h es ->
  list_is_empty m h = Some (bool_decide (es = [])) /\
  (forall x, is_Some (m !! x) -> exists m', list_init m x = Some m' /\ ring m' x []).
Proof.
  intros (Hd & _ & _ & Hp); split.
  - unfold list_is_empty; rewrite Hp; cbn. f_equal.
    destruct es as [|e l] using rev_ind; [cbn; unfold last_of; cbn; lia|].
    rewrite last_of_snoc, bool_decide_eq_false_2 by (destruct l; done).
    apply NoDup_cons in Hd as [Hd _]. apply Z.eqb_neq; intros ->.
    apply Hd, elem_of_app; right; constructor.
  - intros x Hx; unfold list_init. assign m1 A1 Hx.
    assert (V2 : is_Some (m1 !! x)) by (apply valid_next; rewrite (an_next _ _ _ _ A1), decide_True; done).
    assign m2 A2 V2. exists m2; split; [done|]. split_and!.
    + apply NoDup_singleton.
    + done.
    + unfold last_of; cbn. rewrite (ap_next _ _ _ _ A2), (an_next _ _ _ _ A1), decide_True; done.
    + unfold last_of; cbn. rewrite (ap_prev _ _ _ _ A2), decide_True; done.
Qed.

(** ** Concrete instances *)

(** Two lists: head 1 with entries 10 and 20, and head 2 with entry 30; 40 is
    an entry on no list. *)
Definition demo_memory : memory :=
  {[ 1 := Entry 20 10; 10 := Entry 1 20; 20 := Entry 10 1;
     2 := Entry 30 30; 30 := Entry 2 2; 40 := Entry 40 40 ]}.

Lemma demo_ring1 : ring demo_memory 1 [10; 20].
Proof. repeat split; try reflexivity. repeat (apply NoDup_cons; split; [set_solver|]). constructor. Qed.
Lemma demo_ring2 : ring demo_memory 2 [30].
Proof. repeat split; try reflexivity. repeat (apply NoDup_cons; split; [set_solver|]). constructor. Qed.

Lemma list_insert_refines_witness :
  exists m', list_insert_tail demo_memory 1 40 = Some m' /\ ring m' 1 [10; 20; 40] /\ ring m' 2 [30].
Proof.
  apply (list_insert_refines demo_memory 1 [10; 20] 40 2 [30] demo_ring1);
    [set_solver | eexists; reflexivity | exact demo_ring2 | set_solver].
Defined.

Lemma list_remove_refines_witness :
  exists b m', list_remove_entry demo_memory 10 = Some (b, m') /\ ring m' 1 [20] /\ ring m' 2 [30].
Proof.
  apply (list_remove_refines demo_memory 1 [] 10 [20] 2 [30] demo_ring1 demo_ring2); set_solver.
Defined.

Lemma list_empty_exact_witness : list_is_empty demo_memory 1 = Some (bool_decide ([10; 20] = [])).
Proof. apply (list_empty_exact demo_memory 1 [10; 20] demo_ring1). Defined.
