(* ===== verification/Slots.v ===== *)
(** * Two-level slot bitmap

    Model of src/lib/slots.h: up to 4096 slots in 64 words of 64 bits, with a
    summary word whose bit [i] says that word [i] is not zero. *)

From S2P Require Import Prelude.
Open Scope mos_scope.

Record slot_pool := Pool { free : list Z; available : Z; capacity : Z }.

(** __builtin_ctz() of a word with [fuel] bits from bit [i] on; [None] where
    it is undefined. *)
Fixpoint ctz_from (fuel : nat) (v i : Z) : option Z :=
  match fuel with
  | O => None
  | S f => if Z.testbit v i then Some i else ctz_from f v (i + 1)
  end.
Definition builtin_ctz (v : Z) : option Z := ctz_from 32 v 0.

Definition slot_ctz64 (value : Z) : option Z :=
  let low := u32 value in
  if nz low then builtin_ctz low
  else c ← builtin_ctz (u32 (Z.shiftr value 32)); Some (32 + c).

Fixpoint init_words (n : nat) (cap i : Z) (p : slot_pool) : option slot_pool :=
  match n with
  | O => Some p
  | S n' =>
      if i <? (cap +u 63) / 64 then
        let bits := cap -u i * 64 in
        let w := if 64 <=? bits then UINT64_MAX else u64 (Z.shiftl 1 bits) - 1 in
        _ ← free p !! Z.to_nat i;
        init_words n' cap (i + 1)
          (Pool (<[Z.to_nat i := w]> (free p)) (Z.lor (available p) (u64 (Z.shiftl 1 i))) (capacity p))
      else Some p
  end.

(** [None] is an access out of range or an undefined bit scan.  The loop
    runs at most once per word of a pool; its fuel is one more. *)
Definition slot_take (pool : slot_pool) (cap : Z) : option (Z * slot_pool) :=
  p ← (if nz (capacity pool) then Some pool
       else init_words 65 cap 0 (Pool (free pool) (available pool) cap));
  if negb (nz (available p)) then Some (-1, p)
  else
    word ← slot_ctz64 (available p);
    w ← free p !! Z.to_nat word;
    bit ← slot_ctz64 w;
    let w' := Z.land w (Z.lxor UINT64_MAX (u64 (Z.shiftl 1 bit))) in
    let av := if nz w' then available p
              else Z.land (available p) (Z.lxor UINT64_MAX (u64 (Z.shiftl 1 word))) in
    Some (word * 64 + bit, Pool (<[Z.to_nat word := w']> (free p)) av (capacity p)).

Definition slot_return (pool : slot_pool) (slot : Z) : option slot_pool :=
  w ← free pool !! Z.to_nat (slot / 64);
  Some (Pool (<[Z.to_nat (slot / 64) := Z.lor w (u64 (Z.shiftl 1 (slot mod 64)))]> (free pool))
          (Z.lor (available pool) (u64 (Z.shiftl 1 (slot / 64)))) (capacity pool)).
