(* ===== verification/SlotsProof.v ===== *)
(** * The slot bitmap is a set with least-element extraction *)

From S2P Require Import Prelude Slots.
Open Scope mos_scope.

(** ** Bits of 64-bit words *)

Definition word64 (v : Z) : Prop := 0 <= v < 2 ^ 64.

Lemma word64_high v i : word64 v -> 64 <= i -> Z.testbit v i = false.
Proof.
  intros [H1 H2] Hi. destruct (Z.eq_dec v 0) as [-> |]; [apply Z.testbit_0_l|].
  apply Z.bits_above_log2; [lia|]. apply Z.log2_lt_pow2; [lia|].
  assert (2 ^ 64 <= 2 ^ i) by (apply Z.pow_le_mono_r; lia). lia.
Qed.

Lemma word64_bits v : 0 <= v -> (forall i, 64 <= i -> Z.testbit v i = false) -> word64 v.
Proof.
  intros Hv Hb; split; [done|]. destruct (Z.eq_dec v 0) as [-> |]; [done|].
  apply Z.log2_lt_pow2; [lia|]. destruct (Z.lt_ge_cases (Z.log2 v) 64) as [|h]; [done|].
  specialize (Hb (Z.log2 v) h). rewrite Z.bit_log2 in Hb by lia. done.
Qed.

Lemma word64_zero v : word64 v -> (forall i, 0 <= i < 64 -> Z.testbit v i = false) -> v = 0.
Proof.
  intros Hv Hb; apply Z.bits_inj'; intros i Hi; rewrite Z.testbit_0_l.
  destruct (Z.lt_ge_cases i 64); [apply Hb; lia | apply word64_high; done].
Qed.

Lemma bit64 i j : 0 <= i < 64 -> Z.testbit (u64 (Z.shiftl 1 i)) j = (j =? i).
Proof.
  intros Hi. rewrite Z.shiftl_1_l, u64_id.
  - rewrite Z.pow2_bits_eqb by lia. apply Z.eqb_sym.
  - split; [apply Z.pow_nonneg; lia | apply Z.pow_lt_mono_r; lia].
Qed.

Lemma bit64_pow i : 0 <= i < 64 -> u64 (Z.shiftl 1 i) = 2 ^ i.
Proof.
  intros Hi; rewrite Z.shiftl_1_l, u64_id; [done|].
  split; [apply Z.pow_nonneg; lia | apply Z.pow_lt_mono_r; lia].
Qed.

(** Clearing and setting one bit. *)
Lemma clear_bit v i j :
  word64 v -> 0 <= i < 64 -> 0 <= j ->
  Z.testbit (Z.land v (Z.lxor UINT64_MAX (u64 (Z.shiftl 1 i)))) j = Z.testbit v j && negb (j =? i).
Proof.
  intros Hv Hi Hj. rewrite Z.land_spec, Z.lxor_spec, bit64 by done.
  destruct (Z.lt_ge_cases j 64) as [h | h].
  - replace UINT64_MAX with (Z.ones 64) by done. rewrite Z.ones_spec_low by lia. done.
  - rewrite word64_high by done. done.
Qed.

Lemma clear_word v i : word64 v -> 0 <= i < 64 ->
  word64 (Z.land v (Z.lxor UINT64_MAX (u64 (Z.shiftl 1 i)))).
Proof.
  intros Hv Hi; apply word64_bits.
  - apply Z.land_nonneg; left; apply Hv.
  - intros j Hj; rewrite clear_bit, word64_high by (done || lia). done.
Qed.

Lemma set_word v i : word64 v -> 0 <= i < 64 -> word64 (Z.lor v (u64 (Z.shiftl 1 i))).
Proof.
  intros Hv Hi; apply word64_bits.
  - apply Z.lor_nonneg; split; [apply Hv | rewrite bit64_pow by done; apply Z.pow_nonneg; lia].
  - intros j Hj; rewrite Z.lor_spec, bit64, word64_high by done. lia.
Qed.

(** ** First set bit *)

Lemma ctz_from_spec v fuel : forall i,
  0 <= i -> (exists j, i <= j < i + Z.of_nat fuel /\ Z.testbit v j = true) ->
  exists c, ctz_from fuel v i = Some c /\ i <= c < i + Z.of_nat fuel /\ Z.testbit v c = true /\
    (forall j, i <= j < c -> Z.testbit v j = false).
Proof.
  induction fuel as [|f IH]; intros i Hi (j & Hj & Ht); [lia|]; cbn [ctz_from].
  destruct (Z.testbit v i) eqn:E.
  - exists i; split_and!; try done; lia.
  - destruct (IH (i + 1)) as (c & Ec & Hc & Tc & Lc); [lia | |].
    + exists j; split; [|done]. assert (j <> i) by congruence. lia.
    + exists c; split_and!; try done; try lia. intros k Hk.
      destruct (decide (k = i)) as [-> |]; [done | apply Lc; lia].
Qed.

Lemma u32_testbit v i : 0 <= i -> Z.testbit (u32 v) i = (i <? 32) && Z.testbit v i.
Proof.
  intros Hi; unfold u32, UINT32_MOD. destruct (Z.ltb_spec i 32); cbn.
  - apply Z.mod_pow2_bits_low; lia.
  - apply Z.mod_pow2_bits_high; lia.
Qed.

Lemma u32_nonzero v : 0 <= v -> nz v = true -> v < 2 ^ 32 ->
  exists j, 0 <= j < 32 /\ Z.testbit v j = true.
Proof.
  unfold nz; intros H0 Hn Hb; apply negb_true_iff, Z.eqb_neq in Hn.
  exists (Z.log2 v); split; [|apply Z.bit_log2; lia].
  split; [apply Z.log2_nonneg | apply Z.log2_lt_pow2; lia].
Qed.

Lemma slot_ctz64_spec v :
  word64 v -> v <> 0 ->
  exists c, slot_ctz64 v = Some c /\ 0 <= c < 64 /\ Z.testbit v c = true /\
    (forall j, 0 <= j < c -> Z.testbit v j = false).
Proof.
  intros Hv Hn; unfold slot_ctz64. pose proof (u32_range v) as Hr; unfold UINT32_MOD in Hr.
  destruct (nz (u32 v)) eqn:E.
  - destruct (u32_nonzero (u32 v) ltac:(lia) E ltac:(lia)) as (j & Hj & Ht).
    destruct (ctz_from_spec (u32 v) 32 0) as (c & Ec & Hc & Tc & Lc); [lia | exists j; split; [lia | done] |].
    unfold builtin_ctz; rewrite Ec; exists c; rewrite u32_testbit in Tc by lia.
    apply andb_true_iff in Tc as [_ Tc].
    split_and!; try done; try lia. intros k Hk; specialize (Lc k ltac:(lia)).
    rewrite u32_testbit in Lc by lia. replace (k <? 32) with true in Lc by lia. done.
  - assert (Elow : forall j, 0 <= j < 32 -> Z.testbit v j = false).
    { intros j Hj. unfold nz in E; apply negb_false_iff, Z.eqb_eq in E.
      pose proof (u32_testbit v j ltac:(lia)) as T. rewrite E, Z.testbit_0_l in T.
      replace (j <? 32) with true in T by lia. done. }
    set (h := u32 (Z.shiftr v 32)).
    assert (Th : forall j, 0 <= j < 32 -> Z.testbit h j = Z.testbit v (j + 32)).
    { intros j Hj; subst h; rewrite u32_testbit, Z.shiftr_spec by lia.
      replace (j <? 32) with true by lia. done. }
    assert (Hex : exists j, 0 <= j < 32 /\ Z.testbit h j = true).
    { assert (Z.testbit v (Z.log2 v) = true) by (apply Z.bit_log2; destruct Hv; lia).
      assert (Z.log2 v < 64) by (apply Z.log2_lt_pow2; destruct Hv; lia).
      pose proof (Z.log2_nonneg v).
      destruct (Z.lt_ge_cases (Z.log2 v) 32); [rewrite Elow in * by lia; done|].
      exists (Z.log2 v - 32); split; [lia|]. rewrite Th by lia.
      replace (Z.log2 v - 32 + 32) with (Z.log2 v) by lia. done. }
    destruct Hex as (j & Hj & Ht).
    destruct (ctz_from_spec h 32 0) as (c & Ec & Hc & Tc & Lc); [lia | exists j; split; [lia | done] |].
    unfold builtin_ctz; rewrite Ec; exists (32 + c). rewrite Th in Tc by lia.
    split_and!; try done; try lia; [rewrite Z.add_comm; done|].
    intros k Hk. destruct (Z.lt_ge_cases k 32); [apply Elow; lia|].
    specialize (Lc (k - 32) ltac:(lia)). rewrite Th in Lc by lia.
    replace (k - 32 + 32) with k in Lc by lia. done.
Qed.

(** ** Pools *)

Definition word_of (p : slot_pool) (i : Z) : Z := default 0 (free p !! Z.to_nat i).
Definition slot_free (p : slot_pool) (s : Z) : bool := Z.testbit (word_of p (s / 64)) (s mod 64).

Record pool_ok (p : slot_pool) : Prop := {
  po_len : length (free p) = 64%nat;
  po_words : forall i, word64 (word_of p i);
  po_av : word64 (available p);
  po_summary : forall i, 0 <= i < 64 -> Z.testbit (available p) i = negb (word_of p i =? 0);
  po_cap : 0 < capacity p <= 4096;
  po_above : forall s, capacity p <= s -> slot_free p s = false }.

Lemma word_of_insert p i j w av c :
  0 <= i < 64 -> 0 <= j -> length (free p) = 64%nat ->
  word_of (Pool (<[Z.to_nat i := w]> (free p)) av c) j = if j =? i then w else word_of p j.
Proof.
  intros Hi Hj Hl; unfold word_of; cbn [free]. destruct (Z.eqb_spec j i) as [-> |].
  - rewrite list_lookup_insert_eq by lia. done.
  - rewrite list_lookup_insert_ne by lia. done.
Qed.

Lemma word_of_negative p i : i < 0 -> word_of p i = word_of p 0.
Proof. intros; unfold word_of; replace (Z.to_nat i) with 0%nat by lia; done. Qed.

Lemma slot_split i j : 0 <= j < 64 -> (i * 64 + j) / 64 = i /\ (i * 64 + j) mod 64 = j.
Proof.
  intros Hj; split; symmetry; [apply (Z.div_unique _ _ i j) | apply (Z.mod_unique _ _ i j)]; lia.
Qed.

(** A changed word changes only its own slots. *)
Lemma slot_free_insert p i w av c s :
  0 <= i < 64 -> 0 <= s -> length (free p) = 64%nat ->
  slot_free (Pool (<[Z.to_nat i := w]> (free p)) av c) s =
    if s / 64 =? i then Z.testbit w (s mod 64) else slot_free p s.
Proof.
  intros Hi Hs Hl; unfold slot_free.
  rewrite word_of_insert; [|done | apply Z.div_pos; lia | done]. destruct (s / 64 =? i); done.
Qed.

Lemma take_from_ok p cap :
  pool_ok p ->
  (forall s, 0 <= s -> slot_free p s = false) /\ slot_take p cap = Some (-1, p) \/
  exists r p', slot_take p cap = Some (r, p') /\ pool_ok p' /\ capacity p' = capacity p /\
    0 <= r < capacity p /\ slot_free p r = true /\
    (forall s, 0 <= s < r -> slot_free p s = false) /\
    (forall s, 0 <= s -> slot_free p' s = slot_free p s && negb (s =? r)).
Proof.
  intros Hok; pose proof Hok as [Hl Hw Ha Hs Hc Hab].
  unfold slot_take. replace (nz (capacity p)) with true by (unfold nz; lia). cbn [mbind option_bind].
  destruct (Z.eq_dec (available p) 0) as [E0 | E0].
  - left; split; [|unfold nz; rewrite E0; done].
    intros s H0. destruct (Z.lt_ge_cases s 4096) as [h | h]; [|apply Hab; lia].
    assert (Hi : 0 <= s / 64 < 64) by (split; [apply Z.div_pos | apply Z.div_lt_upper_bound]; lia).
    specialize (Hs _ Hi). rewrite E0, Z.testbit_0_l in Hs. symmetry in Hs.
    apply negb_false_iff, Z.eqb_eq in Hs. unfold slot_free; rewrite Hs. apply Z.testbit_0_l.
  - right. replace (negb (nz (available p))) with false by (unfold nz; lia).
    destruct (slot_ctz64_spec _ Ha E0) as (i & -> & Hi & Ti & Li). cbn [mbind option_bind].
    destruct (free p !! Z.to_nat i) as [w|] eqn:Ew; [|apply lookup_ge_None in Ew; lia].
    assert (Wi : word_of p i = w) by (unfold word_of; rewrite Ew; done).
    assert (Hn : w <> 0) by (rewrite Hs, Wi in Ti by done; lia).
    pose proof (Hw i) as Hwi; rewrite Wi in Hwi.
    destruct (slot_ctz64_spec w Hwi Hn) as (j & Ej & Hj & Tj & Lj). cbn [mbind option_bind]. rewrite Ej.
    cbn [mbind option_bind]. set (w' := Z.land w _). set (av := if nz w' then _ else _).
    destruct (slot_split i j Hj) as [D M].
    assert (Hbelow : forall s, 0 <= s < i * 64 + j -> slot_free p s = false).
    { intros s Hlt. assert (s / 64 < i + 1) by (apply Z.div_lt_upper_bound; lia).
      assert (0 <= s / 64) by (apply Z.div_pos; lia). pose proof (Z.mod_pos_bound s 64 ltac:(lia)).
      unfold slot_free. destruct (decide (s / 64 = i)) as [E |].
      - rewrite E, Wi. apply Lj. pose proof (Z.div_mod s 64 ltac:(lia)). lia.
      - specialize (Li (s / 64) ltac:(lia)). rewrite Hs in Li by lia.
        apply negb_false_iff, Z.eqb_eq in Li. rewrite Li. apply Z.testbit_0_l. }
    assert (Hf : slot_free p (i * 64 + j) = true) by (unfold slot_free; rewrite D, M, Wi; done).
    assert (Hr : 0 <= i * 64 + j < capacity p).
    { split; [lia|]. destruct (Z.lt_ge_cases (i * 64 + j) (capacity p)) as [|h]; [done|].
      rewrite Hab in Hf by done; done. }
    assert (Hf' : forall s, 0 <= s ->
      slot_free (Pool (<[Z.to_nat i := w']> (free p)) av (capacity p)) s = slot_free p s && negb (s =? i * 64 + j)).
    { intros s H0; rewrite slot_free_insert by done. pose proof (Z.mod_pos_bound s 64 ltac:(lia)).
      pose proof (Z.div_mod s 64 ltac:(lia)).
      destruct (Z.eqb_spec (s / 64) i) as [E | E].
      - subst w'; rewrite clear_bit by (done || lia). unfold slot_free; rewrite E, Wi. f_equal; f_equal.
        zcases; lia.
      - replace (s =? i * 64 + j) with false; [rewrite andb_true_r; done|].
        symmetry; apply Z.eqb_neq; intros ->; lia. }
    assert (Hwi' : word64 w') by (apply clear_word; done).
    assert (Hav : word64 av) by (subst av; case_if; [done | apply clear_word; done]).
    assert (Wo : forall k, word_of (Pool (<[Z.to_nat i := w']> (free p)) av (capacity p)) k =
                   if Z.max 0 k =? i then w' else word_of p k).
    { intros k. destruct (Z.lt_ge_cases k 0) as [h | h].
      - rewrite word_of_negative, word_of_insert by lia. rewrite (word_of_negative p k), Z.max_l by lia. done.
      - rewrite word_of_insert, Z.max_r by lia. done. }
    eexists _, _; split; [done|]; split; [|split_and!; done || lia].
    split; cbn [free available capacity]; try done.
    + rewrite length_insert; done.
    + intros k; rewrite Wo; case_if; auto.
    + intros k Hk; rewrite Wo, Z.max_r by lia. subst av.
      destruct (Z.eqb_spec k i) as [-> | Hki].
      * unfold nz. destruct (Z.eqb_spec w' 0) as [E |]; cbn [negb]; [|done].
        rewrite clear_bit, Z.eqb_refl, andb_false_r by (done || lia). done.
      * case_if; [apply Hs; done|]. rewrite clear_bit by (done || lia). rewrite Hs by done.
        replace (k =? i) with false by lia. rewrite andb_true_r; done.
    + intros s Hs'; destruct (Z.lt_ge_cases s 0); [lia|]. rewrite Hf' by done. rewrite Hab by done. done.
Qed.

(** ** First use *)

Definition zero_pool : slot_pool := Pool (replicate 64 0) 0 0.

Section Init.
Variable cap : Z.
Hypothesis Hcap : 0 < cap <= 4096.
Let words := (cap + 63) / 64.

Definition full_word (i : Z) : Z := if 64 <=? cap - i * 64 then UINT64_MAX else 2 ^ (cap - i * 64) - 1.

Lemma words_range : 1 <= words <= 64 /\ words * 64 < cap + 64 /\ cap <= words * 64.
Proof.
  subst words; pose proof (Z.div_mod (cap + 63) 64 ltac:(lia)).
  pose proof (Z.mod_pos_bound (cap + 63) 64 ltac:(lia)). lia.
Qed.

Lemma full_word_bits i j :
  0 <= i < words -> 0 <= j < 64 -> Z.testbit (full_word i) j = (i * 64 + j <? cap).
Proof.
  intros Hi Hj; pose proof words_range; unfold full_word. destruct (Z.leb_spec 64 (cap - i * 64)).
  - replace UINT64_MAX with (Z.ones 64) by done. rewrite Z.ones_spec_low by lia. lia.
  - replace (2 ^ (cap - i * 64) - 1) with (Z.ones (cap - i * 64)) by (rewrite Z.ones_equiv; lia).
    destruct (Z.ltb_spec (i * 64 + j) cap); [apply Z.ones_spec_low | apply Z.ones_spec_high]; lia.
Qed.

Lemma full_word_64 i : 0 <= i < words -> word64 (full_word i) /\ full_word i <> 0.
Proof.
  intros Hi; pose proof words_range; unfold full_word, word64.
  destruct (Z.leb_spec 64 (cap - i * 64)); [done|].
  assert (2 ^ 1 <= 2 ^ (cap - i * 64)) by (apply Z.pow_le_mono_r; lia).
  assert (2 ^ (cap - i * 64) < 2 ^ 64) by (apply Z.pow_lt_mono_r; lia). lia.
Qed.

(** The pool when the first [i] words have been filled. *)
Record filling (i : Z) (p : slot_pool) : Prop := {
  fi_len : length (free p) = 64%nat;
  fi_cap : capacity p = cap;
  fi_words : forall j, 0 <= j -> word_of p j = if j <? i then full_word j else 0;
  fi_av : forall j, 0 <= j -> Z.testbit (available p) j = (j <? i);
  fi_av64 : word64 (available p) }.

Lemma init_words_spec n : forall i p,
  0 <= i <= words -> words - i < Z.of_nat n -> filling i p ->
  exists p', init_words n cap i p = Some p' /\ filling words p'.
Proof.
  pose proof words_range as Hw.
  induction n as [|n IH]; intros i p Hi Hn Hp; [lia|]; cbn [init_words].
  rewrite u32_id by (unfold UINT32_MOD; lia). fold words.
  destruct (Z.ltb_spec i words) as [h | h]; [|replace i with words in Hp by lia; eauto].
  rewrite (u32_id (cap - i * 64)) by (unfold UINT32_MOD; lia).
  destruct Hp as [L C W A A64].
  destruct (free p !! Z.to_nat i) as [w|] eqn:E; [|apply lookup_ge_None in E; lia].
  cbn [mbind option_bind]. apply IH; try lia.
  assert (Ew : (if 64 <=? cap - i * 64 then UINT64_MAX else u64 (Z.shiftl 1 (cap - i * 64)) - 1) = full_word i).
  { unfold full_word. destruct (Z.leb_spec 64 (cap - i * 64)); [done|].
    rewrite bit64_pow by lia. done. }
  rewrite Ew; split; cbn [free capacity available].
  - rewrite length_insert; done.
  - done.
  - intros j Hj; rewrite word_of_insert by lia. rewrite W by done.
    destruct (Z.eqb_spec j i) as [-> |]; [replace (i <? i + 1) with true by lia; done|].
    destruct (Z.ltb_spec j i), (Z.ltb_spec j (i + 1)); lia || done.
  - intros j Hj; rewrite Z.lor_spec, A, bit64 by lia. lia.
  - apply set_word; [done | lia].
Qed.

Lemma first_use :
  exists p, init_words 65 cap 0 (Pool (replicate 64 0) 0 cap) = Some p /\ pool_ok p /\ capacity p = cap /\
    forall s, 0 <= s -> slot_free p s = (s <? cap).
Proof.
  pose proof words_range as Hw.
  destruct (init_words_spec 65 0 (Pool (replicate 64 0) 0 cap)) as (p & E & [L C W A A64]); try lia.
  { split; cbn [free capacity available]; try done.
    - intros j Hj; replace (j <? 0) with false by lia. unfold word_of; cbn [free].
      destruct (replicate 64 0 !! Z.to_nat j) eqn:R; [|done]. apply lookup_replicate in R as [-> _]; done.
    - intros j Hj; rewrite Z.testbit_0_l. lia. }
  assert (Hf : forall s, 0 <= s -> slot_free p s = (s <? cap)).
  { intros s Hs; unfold slot_free. assert (0 <= s / 64) by (apply Z.div_pos; lia).
    pose proof (Z.mod_pos_bound s 64 ltac:(lia)); pose proof (Z.div_mod s 64 ltac:(lia)).
    rewrite W by done. destruct (Z.ltb_spec (s / 64) words).
    - rewrite full_word_bits by lia. lia.
    - rewrite Z.testbit_0_l. lia. }
  exists p; split_and!; try done. split; try done.
  - intros i. destruct (Z.lt_ge_cases i 0); [rewrite word_of_negative by done|]; rewrite W by lia;
      case_if; try done; apply full_word_64; lia.
  - intros i Hi; rewrite A, W by lia. destruct (Z.ltb_spec i words); [|done].
    destruct (full_word_64 i) as [_ Hn]; [lia|]. symmetry; apply negb_true_iff, Z.eqb_neq; done.
  - rewrite C; done.
  - intros s Hs; rewrite C in Hs. rewrite Hf by lia. lia.
Qed.
End Init.

(** ** Properties *)

(** The slots a call of slot_take() can give out: those of the pool, or all
    below the capacity when the pool has not been used. *)
Definition offered (p : slot_pool) (cap s : Z) : bool :=
  if capacity p =? 0 then s <? cap else slot_free p s.

(** Slot_take() returns the least free slot and takes exactly that one,
    on a pool in use as well as on the first use of a zeroed pool; it returns
    -1 exactly when no slot is free.  No access is out of range and no bit
    scan is undefined. *)
Theorem slot_take_least p cap :
  pool_ok p \/ (p = zero_pool /\ 0 < cap <= 4096) ->
  exists r p', slot_take p cap = Some (r, p') /\ pool_ok p' /\
    ((r = -1 /\ forall s, 0 <= s -> offered p cap s = false /\ slot_free p' s = false) \/
     (0 <= r < capacity p' /\ offered p cap r = true /\
      (forall s, 0 <= s < r -> offered p cap s = false) /\
      (forall s, 0 <= s -> slot_free p' s = offered p cap s && negb (s =? r)))).
Proof.
  intros Hp.
  assert (G : exists q, (forall s, 0 <= s -> slot_free q s = offered p cap s) /\ pool_ok q /\
                slot_take p cap = slot_take q cap).
  { destruct Hp as [Hok | [-> Hc]].
    - exists p; split_and!; try done. intros s _; unfold offered.
      pose proof (po_cap _ Hok). replace (capacity p =? 0) with false by lia. done.
    - destruct (first_use cap Hc) as (q & E & Hok & C & F). exists q; split_and!; [exact F | done |].
      unfold slot_take at 1. cbn [capacity zero_pool nz]. change (nz 0) with false. cbn iota.
      cbn [free available zero_pool]. rewrite E. cbn [mbind option_bind].
      unfold slot_take. replace (nz (capacity q)) with true by (unfold nz; lia). done. }
  destruct G as (q & F & Hq & ->).
  destruct (take_from_ok q cap Hq) as [[Hn E] | (r & p' & E & Hok' & C & Hr & Fr & Lr & Fs)].
  - exists (-1), q; split_and!; try done. left; split; [done|]. intros s Hs; rewrite <- F by done; auto.
  - exists r, p'; split_and!; try done. right; split_and!; try lia.
    + rewrite <- F by lia; done.
    + intros s Hs; rewrite <- F by lia; auto.
    + intros s Hs; rewrite <- F by lia; auto.
Qed.

(** Slot_return() makes exactly the given slot free again and keeps the
    summary word exact, whatever was free before. *)
Theorem slot_return_exact p slot :
  pool_ok p -> 0 <= slot < capacity p ->
  exists p', slot_return p slot = Some p' /\ pool_ok p' /\
    forall s, 0 <= s -> slot_free p' s = slot_free p s || (s =? slot).
Proof.
  intros Hok Hs; pose proof Hok as [Hl Hw Ha Hsum Hc Hab]; unfold slot_return.
  set (i := slot / 64). set (j := slot mod 64).
  assert (Hi : 0 <= i < 64) by (subst i; split; [apply Z.div_pos | apply Z.div_lt_upper_bound]; lia).
  assert (Hj : 0 <= j < 64) by (apply Z.mod_pos_bound; lia).
  assert (Esl : slot = 64 * i + j) by (apply Z.div_mod; lia).
  destruct (free p !! Z.to_nat i) as [w|] eqn:Ew; [|apply lookup_ge_None in Ew; lia].
  assert (Wi : word_of p i = w) by (unfold word_of; rewrite Ew; done).
  cbn [mbind option_bind]; set (w' := Z.lor w _); set (av := Z.lor (available p) _).
  assert (Hw' : word64 w') by (apply set_word; [rewrite <- Wi; auto | done]).
  assert (Tj : Z.testbit w' j = true) by (subst w'; rewrite Z.lor_spec, bit64, Z.eqb_refl, orb_true_r by done; done).
  assert (Hf : forall s, 0 <= s ->
    slot_free (Pool (<[Z.to_nat i := w']> (free p)) av (capacity p)) s = slot_free p s || (s =? slot)).
  { intros s H0; rewrite slot_free_insert by done. pose proof (Z.mod_pos_bound s 64 ltac:(lia)).
    pose proof (Z.div_mod s 64 ltac:(lia)).
    destruct (Z.eqb_spec (s / 64) i) as [E | E].
    - subst w'; rewrite Z.lor_spec, bit64 by done. unfold slot_free; rewrite E, Wi. f_equal. zcases; lia.
    - replace (s =? slot) with false by (symmetry; apply Z.eqb_neq; intros ->; done). rewrite orb_false_r; done. }
  eexists; split; [done|]; split; [|exact Hf].
  split; cbn [free available capacity]; try done.
  - rewrite length_insert; done.
  - intros k. destruct (Z.lt_ge_cases k 0); [rewrite word_of_negative by done|];
      rewrite word_of_insert by lia; case_if; auto.
  - apply set_word; done.
  - intros k Hk; rewrite word_of_insert by lia. subst av; rewrite Z.lor_spec, bit64, Hsum by done.
    destruct (Z.eqb_spec k i) as [-> |]; [|rewrite orb_false_r; done].
    rewrite orb_true_r; symmetry; apply negb_true_iff, Z.eqb_neq; intros E.
    rewrite E, Z.testbit_0_l in Tj; done.
  - intros s Hge. rewrite Hf by lia. rewrite Hab by done. cbn; lia.
Qed.

(** ** Concrete instances *)

Lemma slot_take_least_witness :
  exists r p', slot_take zero_pool 70 = Some (r, p') /\ pool_ok p'.
Proof.
  destruct (slot_take_least zero_pool 70) as (r & p' & E & Hok & _); [right; split; [reflexivity | lia]|].
  exists r, p'; split; [exact E | exact Hok].
Defined.

Definition demo_pool : slot_pool := Pool (<[1%nat := 6]> (replicate 64 0)) 2 70.

Lemma demo_pool_ok : pool_ok demo_pool.
Proof.
  assert (W : forall i, word_of demo_pool i = if i =? 1 then 6 else 0).
  { intros i; unfold word_of; cbn [free demo_pool]. destruct (Z.eqb_spec i 1) as [-> | h]; [done|].
    destruct (decide (Z.to_nat i = 1%nat)) as [e | e]; [lia|]. rewrite list_lookup_insert_ne by done.
    destruct (replicate 64 0 !! Z.to_nat i) eqn:R; [|done]. apply lookup_replicate in R as [-> _]; done. }
  split; try (cbn; done || lia).
  - intros i; rewrite W; case_if; done.
  - intros i Hi; rewrite W. cbn [available demo_pool]. change 2 with (2 ^ 1).
    rewrite Z.pow2_bits_eqb by lia. rewrite (Z.eqb_sym 1 i). destruct (i =? 1); done.
  - intros s Hs; cbn in Hs. unfold slot_free; rewrite W.
    destruct (Z.eqb_spec (s / 64) 1) as [E | E]; [|apply Z.testbit_0_l].
    pose proof (Z.div_mod s 64 ltac:(lia)); pose proof (Z.mod_pos_bound s 64 ltac:(lia)).
    apply Z.bits_above_log2; [lia|]. change (Z.log2 6) with 2. lia.
Qed.

Lemma slot_return_exact_witness :
  exists p', slot_return demo_pool 3 = Some p' /\ pool_ok p' /\
    forall s, 0 <= s -> slot_free p' s = slot_free demo_pool s || (s =? 3).
Proof. apply (slot_return_exact demo_pool 3 demo_pool_ok); cbn; lia. Defined.

(** ** The pool of a table

    The pool of a table of [cap] entries of which those in [T] are in use, from
    the zeroed pool on. *)

Record pool_for (cap : Z) (p : slot_pool) (T : gset Z) : Prop := {
  pf_pool : pool_ok p /\ capacity p = cap \/ p = zero_pool;
  pf_free i : 0 <= i -> offered p cap i = bool_decide (i < cap /\ i ∉ T);
  pf_range i : i ∈ T -> 0 <= i < cap
}.

Lemma init_words_capacity cap n : forall i p p', init_words n cap i p = Some p' -> capacity p' = capacity p.
Proof.
  induction n as [|n IH]; intros i p p'; cbn [init_words]; [intros [= <-]; done|]. case_match; [|intros [= <-]; done].
  destruct (free p !! Z.to_nat i); [|done]. cbn. intros E. apply IH in E. done.
Qed.
Lemma slot_take_capacity p cap r p' : slot_take p cap = Some (r, p') -> capacity p' = if capacity p =? 0 then cap else capacity p.
Proof.
  unfold slot_take, nz. destruct (capacity p =? 0) eqn:Ec; cbn [negb].
  - destruct (init_words _ _ _ _) as [q|] eqn:Eq; [|done]. apply init_words_capacity in Eq. cbn in *. rewrite <- Eq. case_match; [intros [= _ <-]; done|].
    repeat (match goal with |- context [(?o ≫= _)] => destruct o; [cbn|done] end). intros [= _ <-]. done.
  - cbn. case_match; [intros [= _ <-]; done|]. repeat (match goal with |- context [(?o ≫= _)] => destruct o; [cbn|done] end). intros [= _ <-]. done.
Qed.

Lemma pool_take cap p T : 0 < cap <= 4096 -> pool_for cap p T ->
  exists r p', slot_take p cap = Some (r, p') /\
    (r = -1 /\ pool_for cap p' T /\ (forall i, 0 <= i < cap -> i ∈ T) \/ 0 <= r < cap /\ (r ∉ T) /\ pool_for cap p' ({[r]} ∪ T)).
Proof.
  intros Hc [Hp Hf Hr]. destruct (slot_take_least p cap) as (r & p' & E & Hok & H); [destruct Hp as [[? _] | ->]; auto|].
  pose proof (slot_take_capacity _ _ _ _ E) as Ecap.
  assert (Hcap : capacity p' = cap) by (destruct Hp as [[_ Hp] | ->]; [rewrite Hp, (proj2 (Z.eqb_neq cap 0)) in Ecap by lia | cbn in Ecap]; done).
  assert (Hoff : forall i, offered p' cap i = slot_free p' i) by (intros i; unfold offered; rewrite Hcap, (proj2 (Z.eqb_neq cap 0)) by lia; done).
  exists r, p'. split; [done|]. destruct H as [[-> H] | (H1 & H2 & H3 & H4)].
  - left. split; [done|]. assert (Hall : forall i, 0 <= i < cap -> i ∈ T).
    { intros i Hi. destruct (H i ltac:(lia)) as [Hn _]. rewrite Hf in Hn by lia. apply bool_decide_eq_false in Hn. destruct (decide (i ∈ T)); [done|]. tauto. }
    split; [|done]. split; [left; done | | done]. intros i Hi. rewrite Hoff. destruct (H i Hi) as [H1 ->]. rewrite Hf in H1 by done. done.
  - right. rewrite Hf in H2 by lia. apply bool_decide_eq_true in H2. split; [lia|]. split; [tauto|]. split; [left; done | |].
    + intros i Hi. rewrite Hoff, H4, Hf by done. destruct (Z.eqb_spec i r) as [-> | Hne]; cbn.
      * rewrite andb_false_r. symmetry. apply bool_decide_eq_false. set_solver.
      * rewrite andb_true_r. apply bool_decide_ext. set_solver.
    + intros i [->%elem_of_singleton | Hi]%elem_of_union; [lia | auto].
Qed.
Lemma pool_return cap p T i : pool_for cap p T -> i ∈ T -> exists p', slot_return p i = Some p' /\ pool_for cap p' (T ∖ {[i]}).
Proof.
  intros [Hp Hf Hr] Hi. pose proof (Hr i Hi) as Hin. destruct Hp as [[Hok Hcap] | ->].
  - destruct (slot_return_exact p i Hok ltac:(lia)) as (p' & E & Hok' & Hs). exists p'. split; [done|].
    assert (Hcap' : capacity p' = cap) by (unfold slot_return in E; destruct (free p !! _); [|done]; cbn in E; injection E as <-; done).
    pose proof (po_cap _ Hok) as Hpos. split; [left; done | | intros j Hj; apply Hr; set_solver].
    intros j Hj. specialize (Hf j Hj). unfold offered in *. rewrite Hcap', Hcap in *. rewrite (proj2 (Z.eqb_neq cap 0)) in * by lia. rewrite Hs, Hf by done.
    destruct (Z.eqb_spec j i) as [-> | Hne].
    + rewrite orb_true_r. symmetry. apply bool_decide_eq_true. split; [lia | set_solver].
    + rewrite orb_false_r. apply bool_decide_ext. set_solver.
  - specialize (Hf i ltac:(lia)). unfold offered in Hf. cbn in Hf. rewrite (proj2 (Z.ltb_lt i cap)) in Hf by lia. symmetry in Hf. apply bool_decide_eq_true in Hf. tauto.
Qed.
Lemma pool_start cap : 0 < cap -> pool_for cap zero_pool ∅.
Proof. intros Hc. split; [right; done | | set_solver]. intros i Hi. unfold offered. cbn. destruct (Z.ltb_spec i cap); symmetry; [apply bool_decide_eq_true | apply bool_decide_eq_false]; set_solver by lia. Qed.
