(* ===== verification/Kmalloc.v ===== *)
(** * The kernel heap

    Model of src/lib/impl/kmalloc.c: blocks with a size-and-flag header, one
    circular free list per size class, a bitmap of the classes in use, the
    extension of the heap by chunks that end in a sentinel, splitting and
    right coalescing.

    The heap is the memory of the header words and, for each class, the
    addresses of the blocks on its free list (the lists themselves are those of
    src/lib/impl/list.c).  An operation returns [None] where the code would
    read a header that was never written or unlink a block that is on no list.
    A section under the spin lock is one step.  malloc() has up to three:
    the search, the extension of the heap (kblk_raw() takes the lock of its
    own; the headers of the new chunk are written before anything points to
    it), and the split of the new block.  Other callers run in between. *)

From S2P Require Import Prelude Slots.
Open Scope mos_scope.

Definition HDR_SZ : Z := 8.
Definition ALLOC_BIT : Z := 1.
Definition SMALL_BIN_MAX : Z := 1024.
Definition LARGE_BIN_COUNT : Z := 22.
Definition BIN_BITMAP_WORDS : Z := 5.

(** The pointer size, and the range the heap grows in. *)
Class HeapConfig := {
  pointer_size : Z;
  address_mod : Z;
  KHEAP_BEGIN : Z;
  KHEAP_END : Z
}.
Definition x86_heap : HeapConfig := {|
  pointer_size := 4; address_mod := 2 ^ 32;
  KHEAP_BEGIN := 0xC0700000; KHEAP_END := 0xC0700000 + 0x4FF000
|}.
Definition x64_heap : HeapConfig := {|
  pointer_size := 8; address_mod := 2 ^ 64;
  KHEAP_BEGIN := 0xFFFFFFFFC0700000; KHEAP_END := 0xFFFFFFFFC0700000 + 0x4FF000
|}.

Record heap := Heap {
  hdrs : gmap Z Z;
  bins : list (list Z);
  bin_bitmap : list Z;
  cur_block_top : Z;
  heap_quota : Z;
  heap_quota_high : Z
}.

Section Heap.
Context `{HeapConfig}.

Definition MIN_BLK : Z := HDR_SZ + 2 * pointer_size.
Definition SMALL_BIN_COUNT : Z := (SMALL_BIN_MAX - MIN_BLK) / 8 + 1.
Definition NUM_BINS : Z := SMALL_BIN_COUNT + LARGE_BIN_COUNT.

Definition ALIGN8 (n : Z) : Z := Z.ldiff (u32 n +u 7) 7.

(** ** Headers *)

Definition blk_sz (h : heap) (b : Z) : option Z :=
  w ← hdrs h !! b; Some (Z.ldiff w ALLOC_BIT).
Definition blk_is_alloc (h : heap) (b : Z) : option bool :=
  w ← hdrs h !! b; Some (nz (Z.land w ALLOC_BIT)).
Definition set_hdr (b total_size : Z) (alloc : bool) (h : heap) : heap :=
  Heap (<[b := Z.lor total_size (if alloc then ALLOC_BIT else 0)]> (hdrs h)) (bins h)
    (bin_bitmap h) (cur_block_top h) (heap_quota h) (heap_quota_high h).
Definition blk_next (h : heap) (b : Z) : option Z := sz ← blk_sz h b; Some (b + sz).

(** ** Free lists *)

(** The loop of size_to_bin(): [n] passes are left. *)
Fixpoint large_bin (n : nat) (sz i bound : Z) : Z :=
  match n with
  | O => NUM_BINS - 1
  | S n' =>
      if i <? NUM_BINS - 1
      then if sz <=? bound then i else large_bin n' sz (i + 1) (u32 (Z.shiftl bound 1))
      else NUM_BINS - 1
  end.
Definition size_to_bin (sz : Z) : Z :=
  if sz <=? SMALL_BIN_MAX then (sz -u MIN_BLK) / 8
  else large_bin (Z.to_nat LARGE_BIN_COUNT) sz SMALL_BIN_COUNT (SMALL_BIN_MAX * 2).

Definition set_bins (l : list (list Z)) (w : list Z) (h : heap) : heap :=
  Heap (hdrs h) l w (cur_block_top h) (heap_quota h) (heap_quota_high h).

Definition fl_insert (block : Z) (h : heap) : option heap :=
  sz ← blk_sz h block;
  let bin := size_to_bin sz in
  l ← bins h !! Z.to_nat bin;
  w ← bin_bitmap h !! Z.to_nat (bin / 32);
  Some (set_bins (<[Z.to_nat bin := block :: l]> (bins h))
          (<[Z.to_nat (bin / 32) := Z.lor w (u32 (Z.shiftl 1 (bin mod 32)))]> (bin_bitmap h)) h).

Definition fl_remove (block : Z) (h : heap) : option heap :=
  sz ← blk_sz h block;
  let bin := size_to_bin sz in
  l ← bins h !! Z.to_nat bin;
  if negb (bool_decide (block ∈ l)) then None
  else
    let l := filter (fun b => b <> block) l in
    w ← bin_bitmap h !! Z.to_nat (bin / 32);
    Some (set_bins (<[Z.to_nat bin := l]> (bins h))
            (if bool_decide (l = [])
             then <[Z.to_nat (bin / 32) := Z.ldiff w (u32 (Z.shiftl 1 (bin mod 32)))]> (bin_bitmap h)
             else bin_bitmap h) h).

Definition bins_init (h : heap) : heap :=
  set_bins (replicate (Z.to_nat NUM_BINS) []) (replicate (Z.to_nat BIN_BITMAP_WORDS) 0) h.

Fixpoint bitmap_scan (fuel : nat) (h : heap) (word active : Z) : option Z :=
  match fuel with
  | O => None
  | S f =>
      if nz active then c ← builtin_ctz active; Some (word * 32 + c)
      else if word + 1 =? BIN_BITMAP_WORDS then Some NUM_BINS
      else a ← bin_bitmap h !! Z.to_nat (word + 1); bitmap_scan f h (word + 1) a
  end.
(** The scan visits each word of the bitmap at most once. *)
Definition next_nonempty_bin (h : heap) (start : Z) : option Z :=
  if NUM_BINS <=? start then Some NUM_BINS
  else
    let word := start / 32 in
    w ← bin_bitmap h !! Z.to_nat word;
    bitmap_scan (Z.to_nat BIN_BITMAP_WORDS) h word
      (Z.land w (u32 (Z.shiftl (UINT32_MAX) (start mod 32)))).

(** ** Extension *)

(** kblk_raw(); [vm] is the answer of vm_alloc(), 0 when it has no pages. *)
Definition kblk_raw (page_count vm : Z) (h : heap) : Z * heap :=
  if page_count =? 0 then (0, h)
  else
    let top := (cur_block_top h + page_count * PAGE_SIZE) mod address_mod in
    if top <? KHEAP_END
    then (cur_block_top h,
          Heap (hdrs h) (bins h) (bin_bitmap h) top (heap_quota h) (heap_quota_high h))
    else (vm, h).

(** The number of pages and of bytes of a chunk for [min_sz] bytes. *)
Definition chunk_pages (min_sz : Z) : Z :=
  u32 ((u32 (min_sz + HDR_SZ) + PAGE_SIZE - 1) mod address_mod / PAGE_SIZE).

Definition extend_heap (min_sz vm : Z) (h : heap) : Z * heap :=
  let pages := chunk_pages min_sz in
  let chunk := u32 (pages * PAGE_SIZE) in
  let '(addr, h) := kblk_raw pages vm h in
  if addr =? 0 then (0, h)
  else
    let h := set_hdr (addr + chunk - HDR_SZ) ALLOC_BIT false h in
    (addr, set_hdr addr (chunk -u HDR_SZ) false h).

Definition coalesce_right (b : Z) (h : heap) : option heap :=
  next ← blk_next h b;
  a ← blk_is_alloc h next;
  if (a : bool) then Some h
  else
    h' ← fl_remove next h;
    s1 ← blk_sz h' b;
    s2 ← blk_sz h' next;
    Some (set_hdr b (s1 +u s2) false h').

(** ** Search *)

(** The first block of a list that is large enough; [None] on a bad header. *)
Fixpoint first_fit (h : heap) (need : Z) (l : list Z) : option (option Z) :=
  match l with
  | [] => Some None
  | b :: l' => sz ← blk_sz h b; if need <=? sz then Some (Some b) else first_fit h need l'
  end.

(** The block found, 0 when there is none. *)
Definition find_free (need : Z) (h : heap) : option (Z * heap) :=
  let start := size_to_bin need in
  let higher start :=
    bin ← next_nonempty_bin h start;
    if bin =? NUM_BINS then Some (0, h)
    else
      l ← bins h !! Z.to_nat bin;
      match l with
      | [] => None
      | block :: _ => h' ← fl_remove block h; Some (block, h')
      end in
  if SMALL_BIN_COUNT <=? start then
    l ← bins h !! Z.to_nat start;
    r ← first_fit h need l;
    match r with
    | Some block => h' ← fl_remove block h; Some (block, h')
    | None => higher (start + 1)
    end
  else higher start.

(** ** Allocation and release *)

Definition add_quota (sz : Z) (h : heap) : heap :=
  let q := heap_quota h +u sz in
  Heap (hdrs h) (bins h) (bin_bitmap h) (cur_block_top h) q
    (if heap_quota_high h <? q then q else heap_quota_high h).

(** The second half of malloc(): the block is split and marked. *)
Definition split_block (blk need : Z) (h : heap) : option (Z * heap) :=
  sz ← blk_sz h blk;
  let rem := sz -u need in
  h ← (if MIN_BLK <=? rem then
         let h := set_hdr blk need true h in
         let h := set_hdr (blk + need) rem false h in
         fl_insert (blk + need) h
       else Some (set_hdr blk sz true h));
  sz' ← blk_sz h blk;
  Some (blk + HDR_SZ, add_quota sz' h).

Definition block_need (size : Z) : Z :=
  let need := ALIGN8 (size +u HDR_SZ) in
  if need <? MIN_BLK then MIN_BLK else need.

(** Where a call of malloc() is: it has returned, or goes on with the
    extension of the heap or the split of a new block. *)
Inductive mstate := Returned (p : Z) | Extending (size : Z) | Splitting (size blk : Z).

Definition malloc_split (size blk : Z) (h : heap) : option (mstate * heap) :=
  '(p, h) ← split_block blk (block_need size) h; Some (Returned p, h).
(** Up to the first unlock; a block that is found is split at once. *)
Definition malloc_search (size : Z) (h : heap) : option (mstate * heap) :=
  if size =? 0 then Some (Returned 0, h)
  else
    '(blk, h) ← find_free (block_need size) h;
    if blk =? 0 then Some (Extending size, h) else malloc_split size blk h.
(** [vm] answers vm_alloc() if the heap is extended outside of its range. *)
Definition malloc_extend (size vm : Z) (h : heap) : mstate * heap :=
  let '(blk, h) := extend_heap (block_need size) vm h in
  (if blk =? 0 then Returned 0 else Splitting size blk, h).

(** A call that nobody interrupts.  0 is NULL. *)
Definition malloc (size vm : Z) (h : heap) : option (Z * heap) :=
  '(m, h) ← malloc_search size h;
  let '(m, h) := match m with Extending size => malloc_extend size vm h | _ => (m, h) end in
  '(m, h) ← match m with Splitting size blk => malloc_split size blk h | _ => Some (m, h) end;
  match m with Returned p => Some (p, h) | _ => None end.

Definition free (ptr : Z) (h : heap) : option heap :=
  if ptr =? 0 then Some h
  else
    let blk := ptr - HDR_SZ in
    sz ← blk_sz h blk;
    let h := Heap (hdrs h) (bins h) (bin_bitmap h) (cur_block_top h) (heap_quota h -u sz)
               (heap_quota_high h) in
    let h := set_hdr blk sz false h in
    h ← coalesce_right blk h;
    fl_insert blk h.

(** zalloc(): the range it clears, and the result. *)
Definition zalloc (size vm : Z) (h : heap) : option (Z * option (Z * Z) * heap) :=
  '(p, h) ← malloc size vm h;
  Some (p, if p =? 0 then None else Some (p, size), h).

Definition kmalloc_init : heap :=
  bins_init (Heap ∅ [] [] KHEAP_BEGIN 0 0).

(** ** Callers

    The calls of malloc() that are under way, by thread, and what the threads
    do next; the result is that of a call of malloc() that returns. *)
Record allocator := Allocator { the_heap : heap; callers : gmap Z mstate }.
Inductive heap_event := Search (t size : Z) | Extend (t vm : Z) | Split (t : Z) | Free (p : Z).

Definition go_on (t : Z) (cs : gmap Z mstate) (r : mstate * heap) : option Z * allocator :=
  match r.1 with
  | Returned p => (Some p, Allocator r.2 (delete t cs))
  | m => (None, Allocator r.2 (<[t := m]> cs))
  end.
Definition heap_step (e : heap_event) (s : allocator) : option (option Z * allocator) :=
  match e with
  | Search t size => r ← malloc_search size (the_heap s); Some (go_on t (callers s) r)
  | Extend t vm =>
      match callers s !! t with
      | Some (Extending size) => Some (go_on t (callers s) (malloc_extend size vm (the_heap s)))
      | _ => None
      end
  | Split t =>
      match callers s !! t with
      | Some (Splitting size blk) => r ← malloc_split size blk (the_heap s); Some (go_on t (callers s) r)
      | _ => None
      end
  | Free p => h ← free p (the_heap s); Some (None, Allocator h (callers s))
  end.
End Heap.
