(* ===== verification/KmallocProof.v ===== *)
(** * Correctness of the kernel heap

    The free lists and their bitmap represent the set of free blocks; the
    headers tile the heap; allocation returns a free range of memory of
    sufficient size that overlaps no live allocation, and release returns
    exactly that range. *)

From S2P Require Import Prelude Slots SlotsProof Kmalloc.
Open Scope mos_scope.

Class HeapLaws `{HeapConfig} := {
  hl_pointer : pointer_size = 4 \/ pointer_size = 8;
  hl_begin : 0 < KHEAP_BEGIN < KHEAP_END /\ KHEAP_BEGIN mod PAGE_SIZE = 0;
  hl_room : KHEAP_END + 2 ^ 29 + 2 * PAGE_SIZE <= address_mod;
  hl_mod : 2 ^ 32 <= address_mod
}.

(** The blocks, with size and whether they are allocated. *)
Abbreviation blocks := (gmap Z (Z * bool)).

Ltac blk_cases E :=
  repeat first
    [ rewrite lookup_insert_Some in E; destruct E as [[? E] | [? E]]
    | rewrite lookup_delete_Some in E; destruct E as [? E] ];
  simplify_eq.

Section Proofs.
Context `{HeapLaws}.

Lemma min_blk_cases : MIN_BLK = 16 \/ MIN_BLK = 24.
Proof. unfold MIN_BLK, HDR_SZ. destruct hl_pointer as [-> | ->]; lia. Qed.

Lemma num_bins_cases :
  (MIN_BLK = 16 /\ SMALL_BIN_COUNT = 127 /\ NUM_BINS = 149) \/
  (MIN_BLK = 24 /\ SMALL_BIN_COUNT = 126 /\ NUM_BINS = 148).
Proof.
  unfold NUM_BINS, SMALL_BIN_COUNT. destruct min_blk_cases as [-> | ->]; [left | right]; done.
Qed.

(** ** Size classes *)

Lemma large_bin_range n sz i bound :
  i <= NUM_BINS - 1 -> i <= large_bin n sz i bound <= NUM_BINS - 1.
Proof.
  revert i bound. induction n as [|n IH]; intros i bound Hi; cbn [large_bin]; [lia|].
  repeat case_if; breflect; try lia. specialize (IH (i + 1) (u32 (Z.shiftl bound 1)) ltac:(lia)). lia.
Qed.

Lemma large_bin_mono n sz sz' i bound :
  sz <= sz' -> i <= NUM_BINS - 1 -> large_bin n sz i bound <= large_bin n sz' i bound.
Proof.
  intros Hs. revert i bound. induction n as [|n IH]; intros i bound Hi; cbn [large_bin]; [lia|].
  repeat case_if; breflect; try lia.
  - pose proof (large_bin_range n sz' (i + 1) (u32 (Z.shiftl bound 1)) ltac:(lia)). lia.
  - apply IH. lia.
Qed.

(** The sizes of blocks: at least the minimum, multiples of 8. *)
Definition size_ok (sz : Z) : Prop := MIN_BLK <= sz < 2 ^ 32 /\ sz mod 8 = 0.

Lemma small_bin sz : MIN_BLK <= sz <= 1024 -> size_to_bin sz = (sz - MIN_BLK) / 8.
Proof.
  intros Hs. unfold size_to_bin, SMALL_BIN_MAX. rewrite (proj2 (Z.leb_le _ _)) by lia.
  rewrite u32_id; [done|]. unfold UINT32_MOD. destruct min_blk_cases; lia.
Qed.

Lemma size_to_bin_small sz : MIN_BLK <= sz -> size_to_bin sz < SMALL_BIN_COUNT <-> sz <= 1024.
Proof.
  intros Hs. destruct (Z.le_gt_cases sz 1024) as [Hle | Hgt].
  - rewrite small_bin by lia.
    destruct num_bins_cases as [(E1 & E2 & _) | (E1 & E2 & _)]; rewrite E1, E2 in *;
      Z.to_euclidean_division_equations; lia.
  - unfold size_to_bin, SMALL_BIN_MAX. rewrite (proj2 (Z.leb_gt _ _)) by lia.
    pose proof (large_bin_range (Z.to_nat LARGE_BIN_COUNT) sz SMALL_BIN_COUNT (1024 * 2)) as Hr.
    destruct num_bins_cases as [(E1 & E2 & E3) | (E1 & E2 & E3)]; rewrite E2, E3 in *; lia.
Qed.

Lemma size_to_bin_range sz : MIN_BLK <= sz -> 0 <= size_to_bin sz < NUM_BINS.
Proof.
  intros Hs. destruct (Z.le_gt_cases sz 1024) as [Hle | Hgt].
  - pose proof (proj2 (size_to_bin_small sz Hs) Hle). rewrite small_bin in * by lia.
    destruct num_bins_cases as [(E1 & E2 & E3) | (E1 & E2 & E3)]; rewrite E1, E2, E3 in *;
      Z.to_euclidean_division_equations; lia.
  - unfold size_to_bin, SMALL_BIN_MAX. rewrite (proj2 (Z.leb_gt _ _)) by lia.
    pose proof (large_bin_range (Z.to_nat LARGE_BIN_COUNT) sz SMALL_BIN_COUNT (1024 * 2)) as Hr.
    destruct num_bins_cases as [(E1 & E2 & E3) | (E1 & E2 & E3)]; rewrite E2, E3 in *; lia.
Qed.

(** Larger blocks are in the same or a higher class. *)
Lemma size_to_bin_mono sz sz' : MIN_BLK <= sz <= sz' -> size_to_bin sz <= size_to_bin sz'.
Proof.
  intros Hs. destruct (Z.le_gt_cases sz' 1024) as [Hle | Hgt].
  - rewrite !small_bin by lia. apply Z.div_le_mono; lia.
  - destruct (Z.le_gt_cases sz 1024) as [Hle | Hgt'].
    + pose proof (proj2 (size_to_bin_small sz ltac:(lia)) Hle).
      pose proof (proj1 (size_to_bin_small sz' ltac:(lia))). lia.
    + unfold size_to_bin, SMALL_BIN_MAX. rewrite !(proj2 (Z.leb_gt _ _)) by lia.
      apply large_bin_mono; [lia|].
      destruct num_bins_cases as [(E1 & E2 & E3) | (E1 & E2 & E3)]; rewrite E2, E3; lia.
Qed.

(** A small class holds one size. *)
Lemma small_class_exact sz sz' :
  size_ok sz -> size_ok sz' -> size_to_bin sz = size_to_bin sz' -> size_to_bin sz < SMALL_BIN_COUNT ->
  sz = sz'.
Proof.
  intros [Hs Ms] [Hs' Ms'] E Hlt.
  pose proof (proj1 (size_to_bin_small sz ltac:(lia)) Hlt). rewrite E in Hlt.
  pose proof (proj1 (size_to_bin_small sz' ltac:(lia)) Hlt). rewrite !small_bin in E by lia.
  destruct min_blk_cases as [E1 | E1]; rewrite E1 in *; Z.to_euclidean_division_equations; lia.
Qed.

(** ** Free lists and bitmap *)

(** The lists and the bitmap represent the free blocks [F], with their sizes. *)
Record bins_ok (F : gmap Z Z) (h : heap) : Prop := {
  bo_bins : length (bins h) = Z.to_nat NUM_BINS;
  bo_words : length (bin_bitmap h) = 5%nat;
  bo_nodup i l : bins h !! i = Some l -> NoDup l;
  bo_mem i l a : bins h !! i = Some l ->
    (a ∈ l <-> exists sz, F !! a = Some sz /\ Z.to_nat (size_to_bin sz) = i);
  bo_word j w : bin_bitmap h !! j = Some w -> 0 <= w < 2 ^ 32;
  bo_bit j w k : bin_bitmap h !! j = Some w -> 0 <= k < 32 ->
    (Z.testbit w k = true <-> exists l, bins h !! (32 * j + Z.to_nat k)%nat = Some l /\ l <> [])
}.

Definition sizes_ok (F : gmap Z Z) : Prop := forall a sz, F !! a = Some sz -> size_ok sz.

Lemma bit32_pow i : 0 <= i < 32 -> u32 (Z.shiftl 1 i) = 2 ^ i.
Proof.
  intros Hi; rewrite Z.shiftl_1_l, u32_id; [done|].
  split; [apply Z.pow_nonneg; lia | apply Z.pow_lt_mono_r; lia].
Qed.
Lemma bit32 i j : 0 <= i < 32 -> Z.testbit (u32 (Z.shiftl 1 i)) j = (j =? i).
Proof. intros Hi. rewrite bit32_pow, Z.pow2_bits_eqb by lia. apply Z.eqb_sym. Qed.

Lemma word32_high w i : 0 <= w < 2 ^ 32 -> 32 <= i -> Z.testbit w i = false.
Proof.
  intros [H1 H2] Hi. destruct (Z.eq_dec w 0) as [-> |]; [apply Z.testbit_0_l|].
  apply Z.bits_above_log2; [lia|]. apply Z.log2_lt_pow2; [lia|].
  assert (2 ^ 32 <= 2 ^ i) by (apply Z.pow_le_mono_r; lia). lia.
Qed.

Lemma word32_bits w : 0 <= w -> (forall i, 32 <= i -> Z.testbit w i = false) -> 0 <= w < 2 ^ 32.
Proof.
  intros Hv Hb; split; [done|]. destruct (Z.eq_dec w 0) as [-> |]; [done|].
  apply Z.log2_lt_pow2; [lia|]. destruct (Z.lt_ge_cases (Z.log2 w) 32) as [|h]; [done|].
  specialize (Hb (Z.log2 w) h). rewrite Z.bit_log2 in Hb by lia. done.
Qed.

(** The lists after the list of class [n] becomes [l], and the bit of the
    class after it becomes that of [l]. *)
Lemma bins_ok_update F F' h n l w w' :
  bins_ok F h -> 0 <= n < NUM_BINS -> bin_bitmap h !! Z.to_nat (n / 32) = Some w ->
  NoDup l -> 0 <= w' < 2 ^ 32 ->
  (forall a, a ∈ l <-> exists sz, F' !! a = Some sz /\ Z.to_nat (size_to_bin sz) = Z.to_nat n) ->
  (forall a i, i <> Z.to_nat n ->
     (exists sz, F' !! a = Some sz /\ Z.to_nat (size_to_bin sz) = i) <->
     (exists sz, F !! a = Some sz /\ Z.to_nat (size_to_bin sz) = i)) ->
  (forall k, 0 <= k < 32 -> Z.testbit w' k = if k =? n mod 32 then negb (bool_decide (l = [])) else Z.testbit w k) ->
  bins_ok F' (set_bins (<[Z.to_nat n := l]> (bins h)) (<[Z.to_nat (n / 32) := w']> (bin_bitmap h)) h).
Proof.
  intros [Lb Lw Nd Mem Wd Bt] Hn Ew Hl Hw' Hin Hout Hbit.
  assert (Hlt : (Z.to_nat n < length (bins h))%nat) by lia.
  split; cbn [bins bin_bitmap set_bins]; rewrite ?length_insert; auto.
  - intros i l' E. destruct (decide (i = Z.to_nat n)) as [-> | Hi].
    + rewrite list_lookup_insert_eq in E by done. simplify_eq. done.
    + rewrite list_lookup_insert_ne in E by done. eauto.
  - intros i l' a E. destruct (decide (i = Z.to_nat n)) as [-> | Hi].
    + rewrite list_lookup_insert_eq in E by done. simplify_eq. apply Hin.
    + rewrite list_lookup_insert_ne in E by done. rewrite Hout by done. eauto.
  - intros j x E. destruct (decide (j = Z.to_nat (n / 32))) as [-> | Hj].
    + rewrite list_lookup_insert_eq in E by (apply lookup_lt_Some in Ew; done). simplify_eq. done.
    + rewrite list_lookup_insert_ne in E by done. eauto.
  - intros j x k E Hk. destruct (decide (j = Z.to_nat (n / 32))) as [-> | Hj].
    + rewrite list_lookup_insert_eq in E by (apply lookup_lt_Some in Ew; done). simplify_eq.
      rewrite Hbit by done. destruct (Z.eqb_spec k (n mod 32)) as [-> | Hkn].
      * replace (32 * Z.to_nat (n / 32) + Z.to_nat (n mod 32))%nat with (Z.to_nat n)
          by (Z.to_euclidean_division_equations; lia).
        rewrite list_lookup_insert_eq by done. rewrite negb_true_iff, bool_decide_eq_false. naive_solver.
      * rewrite list_lookup_insert_ne; [eauto|]. Z.to_euclidean_division_equations; lia.
    + rewrite list_lookup_insert_ne in E by done. rewrite list_lookup_insert_ne; [eauto|].
      Z.to_euclidean_division_equations; lia.
Qed.

Lemma bins_lookup F h n : bins_ok F h -> 0 <= n < NUM_BINS ->
  exists l w, bins h !! Z.to_nat n = Some l /\ bin_bitmap h !! Z.to_nat (n / 32) = Some w.
Proof.
  intros [Lb Lw _ _ _ _] Hn.
  destruct (lookup_lt_is_Some_2 (bins h) (Z.to_nat n)) as [l El]; [lia|].
  destruct (lookup_lt_is_Some_2 (bin_bitmap h) (Z.to_nat (n / 32))) as [w Ew]; [|eauto].
  rewrite Lw. destruct num_bins_cases as [(_ & _ & E) | (_ & _ & E)]; rewrite E in *;
    Z.to_euclidean_division_equations; lia.
Qed.

Definition same_memory (h h' : heap) : Prop :=
  hdrs h' = hdrs h /\ cur_block_top h' = cur_block_top h /\
  heap_quota h' = heap_quota h /\ heap_quota_high h' = heap_quota_high h.

Lemma fl_insert_ok F h b sz :
  bins_ok F h -> blk_sz h b = Some sz -> size_ok sz -> F !! b = None ->
  exists h', fl_insert b h = Some h' /\ bins_ok (<[b := sz]> F) h' /\ same_memory h h'.
Proof.
  intros Hok Es [Hs _] Hn. unfold fl_insert. rewrite Es. cbn [mbind option_bind].
  pose proof (size_to_bin_range sz ltac:(lia)) as Hr.
  destruct (bins_lookup F h (size_to_bin sz) Hok Hr) as (l & w & El & Ew). rewrite El, Ew. cbn [mbind option_bind].
  eexists. split; [done|]. split; [|done].
  pose proof (bo_word _ _ Hok _ _ Ew) as Hw.
  eapply bins_ok_update; eauto.
  - constructor; [|eapply bo_nodup; eauto]. rewrite (bo_mem _ _ Hok _ _ b El). intros (s' & E & _). congruence.
  - apply word32_bits.
    + apply Z.lor_nonneg; split; [lia|]. rewrite bit32_pow by (Z.to_euclidean_division_equations; lia).
      apply Z.pow_nonneg; lia.
    + intros i Hi. rewrite Z.lor_spec, word32_high, bit32 by (auto; Z.to_euclidean_division_equations; lia).
      apply Z.eqb_neq. Z.to_euclidean_division_equations; lia.
  - intros a. rewrite elem_of_cons. destruct (decide (a = b)) as [-> | Ha].
    + rewrite lookup_insert_eq. split; [eauto | auto].
    + rewrite lookup_insert_ne by auto. rewrite (bo_mem _ _ Hok _ _ a El). naive_solver.
  - intros a i Hi. destruct (decide (a = b)) as [-> | Ha].
    + rewrite lookup_insert_eq, Hn. naive_solver.
    + rewrite lookup_insert_ne by auto. done.
  - intros k Hk. rewrite Z.lor_spec, bit32 by (Z.to_euclidean_division_equations; lia).
    destruct (k =? _); [|apply orb_false_r]. rewrite orb_true_r. done.
Qed.

Lemma fl_remove_ok F h b sz :
  bins_ok F h -> blk_sz h b = Some sz -> size_ok sz -> F !! b = Some sz ->
  exists h', fl_remove b h = Some h' /\ bins_ok (delete b F) h' /\ same_memory h h'.
Proof.
  intros Hok Es [Hs _] Hb. unfold fl_remove. rewrite Es. cbn [mbind option_bind].
  pose proof (size_to_bin_range sz ltac:(lia)) as Hr.
  destruct (bins_lookup F h (size_to_bin sz) Hok Hr) as (l & w & El & Ew). rewrite El, Ew. cbn [mbind option_bind].
  rewrite bool_decide_eq_true_2 by (apply (bo_mem _ _ Hok _ _ b El); eauto). cbn [negb].
  eexists. split; [done|]. split; [|done].
  pose proof (bo_word _ _ Hok _ _ Ew) as Hw. set (l' := filter _ l).
  assert (Hmod : 0 <= size_to_bin sz mod 32 < 32) by (Z.to_euclidean_division_equations; lia).
  assert (Hmem : forall a, a ∈ l' <-> exists s', delete b F !! a = Some s' /\ Z.to_nat (size_to_bin s') = Z.to_nat (size_to_bin sz)).
  { intros a. unfold l'. rewrite list_elem_of_filter, (bo_mem _ _ Hok _ _ a El).
    destruct (decide (a = b)) as [-> | Ha]; [rewrite lookup_delete_eq | rewrite lookup_delete_ne by auto]; naive_solver. }
  set (w' := if bool_decide (l' = []) then Z.ldiff w (u32 (Z.shiftl 1 (size_to_bin sz mod 32))) else w).
  replace (if bool_decide (l' = []) then _ else bin_bitmap h)
    with (<[Z.to_nat (size_to_bin sz / 32) := w']> (bin_bitmap h)).
  2: { unfold w'. case_bool_decide; auto. apply list_insert_id; auto. }
  eapply bins_ok_update; eauto.
  - unfold l'. apply NoDup_filter. eapply bo_nodup; eauto.
  - unfold w'. case_bool_decide; auto. apply word32_bits.
    + apply Z.ldiff_nonneg. left; lia.
    + intros i Hi. rewrite Z.ldiff_spec, word32_high by auto. done.
  - intros a i Hi. destruct (decide (a = b)) as [-> | Ha].
    + rewrite lookup_delete_eq, Hb. naive_solver.
    + rewrite lookup_delete_ne by auto. done.
  - intros k Hk. unfold w'. case_bool_decide as Hnil.
    + rewrite Z.ldiff_spec, bit32 by auto. destruct (k =? _); cbn; [apply andb_false_r | apply andb_true_r].
    + destruct (Z.eqb_spec k (size_to_bin sz mod 32)) as [-> | Hk']; auto.
      apply (bo_bit _ _ Hok _ _ _ Ew); auto. exists l. split; [|intros ->; done].
      rewrite <- El. f_equal. Z.to_euclidean_division_equations; lia.
Qed.

(** ** Searching the bitmap *)

Definition in_use (h : heap) (i : Z) : Prop := exists l, bins h !! Z.to_nat i = Some l /\ l <> [].

Lemma in_use_range F h i : bins_ok F h -> 0 <= i -> in_use h i -> i < NUM_BINS.
Proof.
  intros Hok Hi (l & El & _). apply lookup_lt_Some in El. rewrite (bo_bins _ _ Hok) in El. lia.
Qed.

Lemma bitmap_bit F h j w k :
  bins_ok F h -> 0 <= j -> bin_bitmap h !! Z.to_nat j = Some w -> 0 <= k < 32 ->
  Z.testbit w k = true <-> in_use h (32 * j + k).
Proof.
  intros Hok Hj Ew Hk. rewrite (bo_bit _ _ Hok _ _ _ Ew Hk). unfold in_use.
  replace (Z.to_nat (32 * j + k)) with (32 * Z.to_nat j + Z.to_nat k)%nat by lia. done.
Qed.

(** What a search from [start] returns: the least class in use, or the
    number of classes. *)
Definition search_result (h : heap) (start r : Z) : Prop :=
  (r = NUM_BINS /\ forall i, start <= i -> ~ in_use h i) \/
  (start <= r < NUM_BINS /\ in_use h r /\ forall i, start <= i < r -> ~ in_use h i).

Lemma bitmap_scan_ok F h fuel word active start :
  bins_ok F h -> 0 <= start -> 0 <= word < 5 -> start < 32 * (word + 1) -> 5 <= word + Z.of_nat fuel -> 0 <= active < 2 ^ 32 ->
  (forall k, 0 <= k < 32 -> Z.testbit active k = true <-> start <= 32 * word + k /\ in_use h (32 * word + k)) ->
  (forall i, start <= i < 32 * word -> ~ in_use h i) ->
  exists r, bitmap_scan fuel h word active = Some r /\ search_result h start r.
Proof.
  intros Hok Hst. revert word active.
  induction fuel as [|f IH]; intros word active Hw Hsw Hf Ha Hb Hlow; [lia|].
  cbn [bitmap_scan]. unfold BIN_BITMAP_WORDS. destruct (nz active) eqn:En.
  - destruct (u32_nonzero active ltac:(lia) En ltac:(lia)) as (j & Hj & Tj).
    destruct (ctz_from_spec active 32 0) as (c & Ec & Hc & Tc & Lc); [lia | exists j; split; [lia | done] |].
    unfold builtin_ctz. rewrite Ec. cbn [mbind option_bind]. eexists. split; [done|]. right.
    apply Hb in Tc as [Hsc Huc]; [|lia]. replace (word * 32 + c) with (32 * word + c) by lia.
    split; [|split; [done|]].
    + split; [lia|]. eapply in_use_range; eauto. lia.
    + intros i Hi Hu. destruct (Z.lt_ge_cases i (32 * word)); [eapply Hlow; eauto; lia|].
      specialize (Lc (i - 32 * word) ltac:(lia)).
      assert (Z.testbit active (i - 32 * word) = true); [|congruence].
      apply Hb; [lia|]. replace (32 * word + (i - 32 * word)) with i by lia. split; [lia | done].
  - assert (Hz : forall k, 0 <= k < 32 -> start <= 32 * word + k -> ~ in_use h (32 * word + k)).
    { unfold nz in En. breflect. subst active. intros k Hk Hs Hu.
      assert (Z.testbit 0 k = true) as E0 by (apply Hb; auto). rewrite Z.testbit_0_l in E0. done. }
    assert (Hlow' : forall i, start <= i < 32 * (word + 1) -> ~ in_use h i).
    { intros i Hi Hu. destruct (Z.lt_ge_cases i (32 * word)); [eapply Hlow; eauto; lia|].
      apply (Hz (i - 32 * word)); [lia | lia |]. replace (32 * word + (i - 32 * word)) with i by lia. done. }
    case_if; breflect.
    + eexists. split; [done|]. left. split; [done|]. intros i Hi Hu.
      assert (i < NUM_BINS) by (eapply in_use_range; eauto; lia).
      apply (Hlow' i); auto. destruct num_bins_cases as [(_ & _ & E) | (_ & _ & E)]; lia.
    + destruct (lookup_lt_is_Some_2 (bin_bitmap h) (Z.to_nat (word + 1))) as [w Ew].
      { rewrite (bo_words _ _ Hok). lia. }
      rewrite Ew. cbn [mbind option_bind]. apply IH; auto; try lia.
      * eapply bo_word; eauto.
      * intros k Hk. rewrite (bitmap_bit F h (word + 1) w k) by (auto; lia).
        split; [|tauto]. intros Hu. split; [lia | done].
Qed.

Lemma next_nonempty_bin_ok F h start :
  bins_ok F h -> 0 <= start <= NUM_BINS ->
  exists r, next_nonempty_bin h start = Some r /\ search_result h start r.
Proof.
  intros Hok Hs. unfold next_nonempty_bin. case_if; breflect.
  - eexists. split; [done|]. left. split; [done|]. intros i Hi Hu.
    pose proof (in_use_range _ _ i Hok ltac:(lia) Hu). lia.
  - destruct (bins_lookup F h start Hok ltac:(lia)) as (l & w & _ & Ew). rewrite Ew. cbn [mbind option_bind].
    pose proof (bo_word _ _ Hok _ _ Ew) as Hw.
    assert (Hmod : 0 <= start mod 32 < 32) by (Z.to_euclidean_division_equations; lia).
    assert (Hmask : forall k, 0 <= k < 32 ->
      Z.testbit (u32 (Z.shiftl UINT32_MAX (start mod 32))) k = (start mod 32 <=? k)).
    { intros k Hk. rewrite u32_testbit by lia. rewrite (proj2 (Z.ltb_lt k 32)) by lia. cbn [andb].
      rewrite Z.shiftl_spec by lia. change UINT32_MAX with (Z.ones 32).
      destruct (Z.leb_spec (start mod 32) k); [apply Z.ones_spec_low; lia | apply Z.testbit_neg_r; lia]. }
    apply (bitmap_scan_ok F); auto; try lia.
    + destruct num_bins_cases as [(_ & _ & E) | (_ & _ & E)]; rewrite E in *;
        Z.to_euclidean_division_equations; lia.
    + Z.to_euclidean_division_equations; lia.
    + unfold BIN_BITMAP_WORDS. Z.to_euclidean_division_equations; lia.
    + apply word32_bits; [apply Z.land_nonneg; left; lia|].
      intros i Hi. rewrite Z.land_spec, word32_high by auto. done.
    + intros k Hk. rewrite Z.land_spec, Hmask, andb_true_iff, Z.leb_le by done.
      rewrite (bitmap_bit F h (start / 32) w k) by (auto; Z.to_euclidean_division_equations; lia).
      split; intros [? ?]; split; auto; Z.to_euclidean_division_equations; lia.
    + intros i Hi. Z.to_euclidean_division_equations; lia.
Qed.

(** ** Finding a free block *)

Definition hdr_sizes (F : gmap Z Z) (h : heap) : Prop :=
  forall a sz, F !! a = Some sz -> blk_sz h a = Some sz.

Lemma first_fit_ok F h need l :
  hdr_sizes F h -> (forall a, a ∈ l -> is_Some (F !! a)) ->
  exists r, first_fit h need l = Some r /\
    match r with
    | Some b => b ∈ l /\ exists sz, F !! b = Some sz /\ need <= sz
    | None => forall a sz, a ∈ l -> F !! a = Some sz -> sz < need
    end.
Proof.
  intros Hh. induction l as [|b l IH]; intros Hl; cbn [first_fit].
  - exists None. split; [done|]. intros a sz Ha. inversion Ha.
  - destruct (Hl b) as [sz Esz]; [left|]. rewrite (Hh b sz Esz). cbn [mbind option_bind].
    case_if; breflect.
    + exists (Some b). split; [done|]. split; [left|eauto].
    + destruct IH as (r & Er & Hr). { intros a Ha; apply Hl; right; auto. }
      exists r. split; [done|]. destruct r as [c|].
      * destruct Hr as [Hc Hsz]. split; [right; auto | done].
      * intros a sa [-> | Ha]%elem_of_cons Ea; [congruence | eauto].
Qed.

(** What the search for [need] bytes returns: a free block of that size,
    taken out of the lists, or 0 when there is none. *)
Definition found (F : gmap Z Z) (h : heap) (need b : Z) (h' : heap) : Prop :=
  (b = 0 /\ h' = h /\ forall a sz, F !! a = Some sz -> sz < need) \/
  (exists sz, F !! b = Some sz /\ need <= sz /\ bins_ok (delete b F) h' /\ same_memory h h').

Lemma take_block F h need b sz :
  bins_ok F h -> sizes_ok F -> hdr_sizes F h -> F !! b = Some sz -> need <= sz ->
  exists h', (h' ← fl_remove b h; Some (b, h')) = Some (b, h') /\ found F h need b h'.
Proof.
  intros Hok Hs Hh Hb Hn. destruct (fl_remove_ok F h b sz) as (h' & -> & Hok' & Hm); eauto.
  exists h'. split; [done|]. right. eauto.
Qed.

Lemma find_higher F h need start :
  bins_ok F h -> sizes_ok F -> hdr_sizes F h -> size_ok need -> size_to_bin need <= start <= NUM_BINS ->
  (start = size_to_bin need -> size_to_bin need < SMALL_BIN_COUNT) ->
  (forall a sz, F !! a = Some sz -> size_to_bin sz < start -> sz < need) ->
  exists b h',
    (bin ← next_nonempty_bin h start;
     if bin =? NUM_BINS then Some (0, h)
     else l ← bins h !! Z.to_nat bin;
          match l with
          | [] => None
          | block :: _ => h' ← fl_remove block h; Some (block, h')
          end) = Some (b, h') /\ found F h need b h'.
Proof.
  intros Hok Hs Hh Hneed Hst Hsmall Hlow.
  pose proof (size_to_bin_range need ltac:(apply Hneed)) as Hr.
  destruct (next_nonempty_bin_ok F h start Hok ltac:(lia)) as (r & -> & Hres). cbn [mbind option_bind].
  destruct Hres as [[-> Hnone] | (Hrr & (l & El & Hnl) & Hleast)].
  - rewrite Z.eqb_refl. exists 0, h. split; [done|]. left. split_and!; auto. intros a sz Ea.
    destruct (Z.lt_ge_cases (size_to_bin sz) start); [eauto|]. exfalso.
    pose proof (size_to_bin_range sz ltac:(apply (Hs a sz Ea))) as Hrs.
    destruct (bins_lookup F h _ Hok Hrs) as (l & _ & El & _).
    apply (Hnone (size_to_bin sz)); auto. exists l. split; auto. intros ->.
    assert (Hin : a ∈ []) by (apply (bo_mem _ _ Hok _ _ a El); eauto). inversion Hin.
  - rewrite (proj2 (Z.eqb_neq _ _)) by lia. rewrite El. cbn [mbind option_bind].
    destruct l as [|b l]; [done|].
    destruct (proj1 (bo_mem _ _ Hok _ _ b El) ltac:(left)) as (sz & Eb & Ebin).
    pose proof (size_to_bin_range sz ltac:(apply (Hs b sz Eb))) as Hrs.
    assert (Er : size_to_bin sz = r) by lia.
    destruct (take_block F h need b sz) as (h' & E & Hf); eauto.
    destruct (Z.eq_dec r (size_to_bin need)) as [E|].
    + rewrite (small_class_exact need sz); auto; [lia| eapply Hs; eauto | congruence |]. apply Hsmall. lia.
    + destruct (Z.le_gt_cases need sz); [lia|]. exfalso.
      pose proof (size_to_bin_mono sz need ltac:(split; [apply (Hs b sz Eb) | lia])). lia.
Qed.

(** find_free() finds a fitting block whenever there is one. *)
Lemma find_free_ok F h need :
  bins_ok F h -> sizes_ok F -> hdr_sizes F h -> size_ok need ->
  exists b h', find_free need h = Some (b, h') /\ found F h need b h'.
Proof.
  intros Hok Hs Hh Hneed. unfold find_free.
  pose proof (size_to_bin_range need ltac:(apply Hneed)) as Hr.
  assert (Hbelow : forall a sz, F !! a = Some sz -> size_to_bin sz < size_to_bin need -> sz < need).
  { intros a sz Ea Hlt. destruct (Z.lt_ge_cases sz need); auto. exfalso.
    pose proof (size_to_bin_mono need sz ltac:(split; [apply Hneed | lia])). lia. }
  case_if; breflect.
  - destruct (bins_lookup F h _ Hok Hr) as (l & _ & El & _). rewrite El. cbn [mbind option_bind].
    destruct (first_fit_ok F h need l Hh) as (r & -> & Hff).
    { intros a Ha. apply (bo_mem _ _ Hok _ _ a El) in Ha as (sz & ? & _). eauto. }
    cbn [mbind option_bind]. destruct r as [b|].
    + destruct Hff as (Hb & sz & Eb & Hn).
      destruct (take_block F h need b sz) as (h' & E & Hf); eauto.
    + apply find_higher; auto; [lia | lia |]. intros a sz Ea Hlt.
      destruct (Z.lt_ge_cases (size_to_bin sz) (size_to_bin need)); [eauto|].
      apply (Hff a sz); auto. apply (bo_mem _ _ Hok _ _ a El). exists sz. split; auto. f_equal. lia.
  - apply find_higher; auto. lia.
Qed.

(** ** The blocks of the heap *)

Definition header (sz : Z) (al : bool) : Z := Z.lor sz (if al then ALLOC_BIT else 0).

(** Headers tile the heap: each block is followed by a block or a sentinel,
    none overlaps another, and a sentinel bounds its chunk; nothing lies where the heap grows next. *)
Record shape_ok (B : blocks) (Sn : gset Z) (h : heap) : Prop := {
  so_hdr a sz al : B !! a = Some (sz, al) -> hdrs h !! a = Some (header sz al);
  so_sent s : s ∈ Sn -> hdrs h !! s = Some ALLOC_BIT;
  so_size a sz al : B !! a = Some (sz, al) -> size_ok sz /\ 0 < a /\ a mod 8 = 0;
  so_next a sz al : B !! a = Some (sz, al) -> is_Some (B !! (a + sz)) \/ a + sz ∈ Sn;
  so_disj a sz al a' sz' al' :
    B !! a = Some (sz, al) -> B !! a' = Some (sz', al') -> a < a' -> a + sz <= a';
  so_sdisj a sz al s : B !! a = Some (sz, al) -> s ∈ Sn -> s + HDR_SZ <= a \/ a + sz <= s;
  so_chunk a sz al : B !! a = Some (sz, al) -> exists s, s ∈ Sn /\ a + sz <= s < a + 2 ^ 32;
  so_room a sz al : B !! a = Some (sz, al) -> a + sz <= cur_block_top h \/ KHEAP_END <= a;
  so_sroom s : s ∈ Sn -> s + HDR_SZ <= cur_block_top h \/ KHEAP_END <= s;
  so_top : KHEAP_BEGIN <= cur_block_top h < KHEAP_END /\ cur_block_top h mod PAGE_SIZE = 0
}.

Definition free_of (B : blocks) : gmap Z Z :=
  omap (fun x : Z * bool => if snd x then None else Some (fst x)) B.
Definition live (B : blocks) : gmap Z Z :=
  omap (fun x : Z * bool => if snd x then Some (fst x) else None) B.

Lemma free_of_lookup B a : free_of B !! a = match B !! a with Some (sz, false) => Some sz | _ => None end.
Proof. unfold free_of. rewrite lookup_omap. destruct (B !! a) as [[? []]|]; done. Qed.
Lemma live_lookup B a : live B !! a = match B !! a with Some (sz, true) => Some sz | _ => None end.
Proof. unfold live. rewrite lookup_omap. destruct (B !! a) as [[? []]|]; done. Qed.

(** The invariant of the heap.  [R] has the new blocks that calls of malloc()
    under way have not split yet: they look free but are on no list, and no
    block ends where one begins, so that none will take it in. *)
Definition listed (R : gmap Z Z) (B : blocks) : gmap Z Z := free_of B ∖ R.
Record heap_ok (R : gmap Z Z) (B : blocks) (Sn : gset Z) (h : heap) : Prop := {
  ho_shape : shape_ok B Sn h;
  ho_bins : bins_ok (listed R B) h;
  ho_new b sz : R !! b = Some sz -> B !! b = Some (sz, false);
  ho_first b a sz al : is_Some (R !! b) -> B !! a = Some (sz, al) -> a + sz <> b
}.
Lemma listed_lookup R B a :
  listed R B !! a = match R !! a, B !! a with None, Some (sz, false) => Some sz | _, _ => None end.
Proof. unfold listed. rewrite lookup_difference, free_of_lookup. destruct (R !! a); done. Qed.

Lemma header_size sz al : sz mod 8 = 0 -> Z.ldiff (header sz al) ALLOC_BIT = sz.
Proof.
  intros Hm. unfold header, ALLOC_BIT.
  assert (Hb : Z.testbit sz 0 = false).
  { rewrite Z.bit0_odd, <- Z.negb_even. apply negb_false_iff. apply Z.even_spec. exists (4 * (sz / 8)).
    Z.to_euclidean_division_equations; lia. }
  apply Z.bits_inj'. intros i Hi. rewrite Z.ldiff_spec, Z.lor_spec.
  destruct (Z.eq_dec i 0) as [-> |]; [rewrite Hb; destruct al; done|].
  assert (E : Z.testbit 1 i = false) by (apply (Z.pow2_bits_false 0); lia).
  destruct al; rewrite ?E, ?Z.testbit_0_l, ?orb_false_r, ?E; cbn; apply andb_true_r.
Qed.

Lemma header_alloc sz al : sz mod 8 = 0 -> nz (Z.land (header sz al) ALLOC_BIT) = al.
Proof.
  intros Hm. unfold header, ALLOC_BIT.
  assert (Hb : Z.land sz 1 = 0).
  { change 1 with (Z.ones 1). rewrite Z.land_ones by lia. Z.to_euclidean_division_equations; lia. }
  rewrite Z.land_lor_distr_l, Hb. destruct al; done.
Qed.

Lemma shape_blk_sz B Sn h a sz al : shape_ok B Sn h -> B !! a = Some (sz, al) -> blk_sz h a = Some sz.
Proof.
  intros Hs Ha. unfold blk_sz. rewrite (so_hdr _ _ _ Hs _ _ _ Ha). cbn.
  rewrite header_size; [done|]. apply (so_size _ _ _ Hs _ _ _ Ha).
Qed.

Lemma shape_sizes R B Sn h : shape_ok B Sn h -> sizes_ok (listed R B) /\ hdr_sizes (listed R B) h.
Proof.
  intros Hs. split; intros a sz; rewrite listed_lookup; destruct (R !! a); try discriminate; destruct (B !! a) as [[s []]|] eqn:E; try discriminate;
    intros; simplify_eq; [apply (so_size _ _ _ Hs _ _ _ E) | eapply shape_blk_sz; eauto].
Qed.

(** The lists of a heap are unaffected by headers. *)
Lemma bins_ok_same F h h' :
  bins_ok F h -> bins h' = bins h -> bin_bitmap h' = bin_bitmap h -> bins_ok F h'.
Proof. intros [] E1 E2. split; rewrite ?E1, ?E2; auto. Qed.

Lemma shape_same B Sn h h' :
  shape_ok B Sn h -> hdrs h' = hdrs h -> cur_block_top h' = cur_block_top h -> shape_ok B Sn h'.
Proof. intros [] E1 E2. split; rewrite ?E1, ?E2; auto. Qed.

(** A block other than [a] does not begin inside of it. *)
Lemma shape_apart B Sn h a sz al b x :
  shape_ok B Sn h -> B !! a = Some (sz, al) -> B !! b = Some x -> b <> a -> ~ (a <= b < a + sz).
Proof.
  intros Hs Ha Hb Hn Hc. destruct x as [sb ab].
  pose proof (so_disj _ _ _ Hs _ _ _ _ _ _ Ha Hb). lia.
Qed.

(** ** Changing one block *)

(** A header is rewritten with the same size. *)
Lemma shape_mark B Sn h a sz al al' :
  shape_ok B Sn h -> B !! a = Some (sz, al) ->
  shape_ok (<[a := (sz, al')]> B) Sn (set_hdr a sz al' h).
Proof.
  intros Hs Ha.
  assert (HB : forall b x, <[a := (sz, al')]> B !! b = Some x -> exists y, B !! b = Some (fst x, y)).
  { intros b x. destruct (decide (b = a)) as [-> | Hn].
    - rewrite lookup_insert_eq. intros; simplify_eq. eauto.
    - rewrite lookup_insert_ne by auto. destruct x; eauto. }
  pose proof (so_size _ _ _ Hs _ _ _ Ha) as (Sz & _ & _).
  destruct Hs as [H1 H2 H3 H4 H5 H6 H7 H8 H9 H10]. split; auto; cbn [hdrs set_hdr cur_block_top].
  - intros b s' al1 E. destruct (decide (b = a)) as [-> | Hn].
    + rewrite lookup_insert_eq in E. rewrite lookup_insert_eq. simplify_eq. done.
    + rewrite lookup_insert_ne in E by auto. rewrite lookup_insert_ne by auto. eauto.
  - intros s Hsn. rewrite lookup_insert_ne; auto. intros <-.
    destruct (H6 _ _ _ _ Ha Hsn); unfold HDR_SZ, size_ok in *; destruct min_blk_cases; lia.
  - intros b s' al1 E. apply HB in E as [y E]. eauto.
  - intros b s' al1 E. apply HB in E as [y E]. destruct (H4 _ _ _ E) as [[z Hz] | Hz]; auto.
    left. cbn [fst]. destruct (decide (b + s' = a)) as [-> | Hn]; [rewrite lookup_insert_eq; eauto|].
    rewrite lookup_insert_ne by auto. eauto.
  - intros b s1 a1 b' s2 a2 E1 E2. apply HB in E1 as [y1 E1], E2 as [y2 E2]. eauto.
  - intros b s1 a1 s E Hsn. apply HB in E as [y E]. eauto.
  - intros b s1 a1 E. apply HB in E as [y E]. eauto.
  - intros b s1 a1 E. apply HB in E as [y E]. eauto.
Qed.

(** A block is split in an allocated and a free one. *)
Lemma shape_split B Sn h a sz al need rem :
  shape_ok B Sn h -> B !! a = Some (sz, al) -> need + rem = sz -> size_ok need -> size_ok rem ->
  shape_ok (<[a + need := (rem, false)]> (<[a := (need, true)]> B)) Sn
    (set_hdr (a + need) rem false (set_hdr a need true h)).
Proof.
  intros Hs Ha Hsum [Hn Mn] [Hr Mr].
  assert (Hm : 16 <= MIN_BLK) by (destruct min_blk_cases; lia).
  assert (Hfar : forall b x, B !! b = Some x -> b <> a -> b + fst x <= a \/ a + sz <= b).
  { intros b [sb ab] Hb Hne. destruct (Z.lt_ge_cases b a).
    - left. apply (so_disj _ _ _ Hs _ _ _ _ _ _ Hb Ha). lia.
    - right. apply (so_disj _ _ _ Hs _ _ _ _ _ _ Ha Hb). lia. }
  assert (Hpos : forall b x, B !! b = Some x -> 16 <= fst x).
  { intros b [sb ab] Hb. pose proof (so_size _ _ _ Hs _ _ _ Hb) as ((? & _) & _). cbn. lia. }
  pose proof (so_size _ _ _ Hs _ _ _ Ha) as (_ & Pa & Aa).
  destruct Hs as [H1 H2 H3 H4 H5 H6 H7 H8 H9 H10]. split; auto; cbn [hdrs set_hdr cur_block_top].
  - intros b s' al1 E. blk_cases E; rewrite ?lookup_insert_eq; auto.
    + rewrite lookup_insert_ne, lookup_insert_eq by lia. done.
    + rewrite !lookup_insert_ne by auto. eauto.
  - intros s Hsn. destruct (H6 _ _ _ _ Ha Hsn); unfold HDR_SZ in *;
      rewrite !lookup_insert_ne by lia; auto.
  - intros b s' al1 E. blk_cases E; [| |eauto]; (split; [split; lia|]); split; auto; try lia.
    Z.to_euclidean_division_equations; lia.
  - intros b s' al1 E. blk_cases E.
    + destruct (H4 _ _ _ Ha) as [[x Hx] | Hx]; [left | right].
      * rewrite !lookup_insert_ne by lia. exists x. rewrite <- Hx. f_equal. lia.
      * replace (a + need + s') with (a + (need + s')) by lia. done.
    + left. rewrite lookup_insert_eq. eauto.
    + destruct (H4 _ _ _ E) as [[x Hx] | Hx]; [left | right; done].
      destruct (decide (b + s' = a)) as [-> | Hne].
      * rewrite lookup_insert_ne, lookup_insert_eq by lia. eauto.
      * rewrite lookup_insert_ne, lookup_insert_ne by
          (auto; intros E2; destruct (Hfar _ _ Hx ltac:(auto)); pose proof (Hpos _ _ Hx); lia). eauto.
  - intros b s1 a1 b' s2 a2 E1 E2 Hlt. blk_cases E1; blk_cases E2; try lia;
      try (destruct (Hfar _ _ E1 ltac:(auto)); cbn in *; lia);
      try (destruct (Hfar _ _ E2 ltac:(auto)); pose proof (Hpos _ _ E2); cbn in *; lia).
    eauto.
  - intros b s1 a1 s E Hsn. blk_cases E; [| |eauto]; destruct (H6 _ _ _ _ Ha Hsn); lia.
  - intros b s1 a1 E. blk_cases E; [| |eauto]; destruct (H7 _ _ _ Ha) as (s & ? & ?); exists s; split; auto; lia.
  - intros b s1 a1 E. blk_cases E; [| |eauto]; destruct (H8 _ _ _ Ha); lia.
Qed.

(** A block takes in its right neighbour. *)
Lemma shape_merge B Sn h a sa al b sb bl al' :
  shape_ok B Sn h -> B !! a = Some (sa, al) -> B !! b = Some (sb, bl) -> b = a + sa ->
  size_ok (sa + sb) /\
  shape_ok (<[a := (sa + sb, al')]> (delete b B)) Sn (set_hdr a (sa + sb) al' h).
Proof.
  intros Hs Ha Hb ->.
  assert (Hm : 16 <= MIN_BLK) by (destruct min_blk_cases; lia).
  assert (Hfar : forall c x, B !! c = Some x -> c <> a -> c <> a + sa -> c + fst x <= a \/ a + sa + sb <= c).
  { intros c [sc ac] Hc N1 N2. destruct (Z.lt_ge_cases c a).
    - left. apply (so_disj _ _ _ Hs _ _ _ _ _ _ Hc Ha). lia.
    - right. pose proof (so_disj _ _ _ Hs _ _ _ _ _ _ Ha Hc ltac:(lia)).
      apply (so_disj _ _ _ Hs _ _ _ _ _ _ Hb Hc). lia. }
  pose proof (so_size _ _ _ Hs _ _ _ Ha) as ([Sa Ma] & Pa & Aa).
  pose proof (so_size _ _ _ Hs _ _ _ Hb) as ([Sb Mb] & _ & _).
  destruct Hs as [H1 H2 H3 H4 H5 H6 H7 H8 H9 H10].
  assert (Hsum : exists s, s ∈ Sn /\ a + (sa + sb) <= s < a + 2 ^ 32).
  { destruct (H7 _ _ _ Ha) as (s & Hsn & ?). exists s. split; auto.
    destruct (H6 _ _ _ _ Hb Hsn); unfold HDR_SZ in *; lia. }
  assert (Hsz : size_ok (sa + sb)).
  { destruct Hsum as (s & _ & ?). split; [lia|]. Z.to_euclidean_division_equations; lia. }
  split; [done|]. split; auto; cbn [hdrs set_hdr cur_block_top].
  - intros c s' al1 E. blk_cases E; rewrite ?lookup_insert_eq; auto.
    rewrite lookup_insert_ne by auto. eauto.
  - intros s Hsn. rewrite lookup_insert_ne; auto. intros <-.
    destruct (H6 _ _ _ _ Ha Hsn); unfold HDR_SZ in *; lia.
  - intros c s' al1 E. blk_cases E; eauto.
  - intros c s' al1 E. blk_cases E.
    + destruct (H4 _ _ _ Hb) as [[x Hx] | Hx]; [left | right].
      * rewrite lookup_insert_ne, lookup_delete_ne by lia. exists x. rewrite <- Hx. f_equal. lia.
      * replace (c + (sa + sb)) with (c + sa + sb) by lia. done.
    + destruct (H4 _ _ _ E) as [[x Hx] | Hx]; [left | right; done].
      destruct (decide (c + s' = a)) as [-> | Hne]; [rewrite lookup_insert_eq; eauto|].
      rewrite lookup_insert_ne, lookup_delete_ne; eauto. intros E2.
      destruct (H3 _ _ _ E) as ((? & _) & _).
      destruct (Hfar _ _ E ltac:(auto) ltac:(auto)); cbn in *; lia.
  - intros c s1 a1 c' s2 a2 E1 E2 Hlt. blk_cases E1; blk_cases E2; try lia;
      try (destruct (Hfar _ _ E1 ltac:(auto) ltac:(auto)); cbn in *; lia);
      try (destruct (H3 _ _ _ E2) as ((? & _) & _); destruct (Hfar _ _ E2 ltac:(auto) ltac:(auto)); cbn in *; lia).
    eauto.
  - intros c s1 a1 s E Hsn. blk_cases E; [|eauto].
    destruct (H6 _ _ _ _ Ha Hsn); auto. destruct (H6 _ _ _ _ Hb Hsn); unfold HDR_SZ in *; lia.
  - intros c s1 a1 E. blk_cases E; eauto.
  - intros c s1 a1 E. blk_cases E; [|eauto]. destruct (H8 _ _ _ Ha); auto. destruct (H8 _ _ _ Hb); auto; lia.
Qed.

Definition apart (B : blocks) (Sn : gset Z) (lo hi : Z) : Prop :=
  (forall a sz al, B !! a = Some (sz, al) -> a + sz <= lo \/ hi <= a) /\
  (forall s, s ∈ Sn -> s + HDR_SZ <= lo \/ hi <= s).

Definition set_top (t : Z) (h : heap) : heap :=
  Heap (hdrs h) (bins h) (bin_bitmap h) t (heap_quota h) (heap_quota_high h).

(** A chunk is added: one free block and a sentinel. *)
Lemma shape_extend B Sn h addr chunk top :
  shape_ok B Sn h -> apart B Sn addr (addr + chunk) -> 0 < addr -> addr mod 8 = 0 ->
  size_ok (chunk - HDR_SZ) -> chunk < 2 ^ 32 ->
  cur_block_top h <= top < KHEAP_END -> top mod PAGE_SIZE = 0 ->
  (addr + chunk <= top \/ KHEAP_END <= addr) ->
  shape_ok (<[addr := (chunk - HDR_SZ, false)]> B) ({[addr + chunk - HDR_SZ]} ∪ Sn)
    (set_hdr addr (chunk - HDR_SZ) false (set_hdr (addr + chunk - HDR_SZ) ALLOC_BIT false (set_top top h))) /\
  B !! addr = None.
Proof.
  intros Hs [HaB HaS] Pa Aa [Sz Mz] Hc Ht At Hr.
  assert (Hm : 16 <= MIN_BLK) by (destruct min_blk_cases; lia). unfold HDR_SZ in *.
  assert (Hpos : forall b sb ab, B !! b = Some (sb, ab) -> 16 <= sb).
  { intros b sb ab Hb. pose proof (so_size _ _ _ Hs _ _ _ Hb) as ((? & _) & _). lia. }
  destruct Hs as [H1 H2 H3 H4 H5 H6 H7 H8 H9 H10].
  assert (Hna : B !! addr = None).
  { destruct (B !! addr) as [[sz al]|] eqn:E; auto. pose proof (Hpos _ _ _ E). destruct (HaB _ _ _ E); lia. }
  split; [|done]. split; unfold HDR_SZ in *; cbn [hdrs set_hdr cur_block_top set_top].
  - intros b s' al1 E. blk_cases E; [rewrite lookup_insert_eq; done|].
    pose proof (Hpos _ _ _ E). destruct (HaB _ _ _ E); rewrite !lookup_insert_ne by lia; eauto.
  - intros s [->%elem_of_singleton | Hsn]%elem_of_union.
    + rewrite lookup_insert_ne, lookup_insert_eq by lia. done.
    + destruct (HaS _ Hsn); rewrite !lookup_insert_ne by lia; auto.
  - intros b s' al1 E. blk_cases E; eauto. split; [split|]; auto.
  - intros b s' al1 E. blk_cases E; [right|].
    + apply elem_of_union; left. apply elem_of_singleton. lia.
    + destruct (H4 _ _ _ E) as [[x Hx] | Hx]; [left | right; set_solver].
      destruct (decide (b + s' = addr)) as [-> |]; [rewrite lookup_insert_eq | rewrite lookup_insert_ne by auto]; eauto.
  - intros b s1 a1 b' s2 a2 E1 E2 Hlt. blk_cases E1; blk_cases E2; try lia.
    + pose proof (Hpos _ _ _ E2). destruct (HaB _ _ _ E2); lia.
    + destruct (HaB _ _ _ E1); lia.
    + eauto.
  - intros b s1 a1 s E [->%elem_of_singleton | Hsn]%elem_of_union; blk_cases E; try lia.
    + destruct (HaB _ _ _ E); lia.
    + destruct (HaS _ Hsn); lia.
    + eauto.
  - intros b s1 a1 E. blk_cases E.
    + exists (b + chunk - 8). split; [set_solver | lia].
    + destruct (H7 _ _ _ E) as (s & ? & ?). exists s. split; [set_solver | lia].
  - intros b s1 a1 E. blk_cases E; [lia|]. destruct (H8 _ _ _ E); lia.
  - intros s [->%elem_of_singleton | Hsn]%elem_of_union; [lia|]. destruct (H9 _ Hsn); lia.
  - lia.
Qed.
End Proofs.
