(* ===== verification/KmallocCorrect.v ===== *)
(** * Theorems of the kernel heap

    Allocation and release on the invariant of the heap (src/lib/impl/kmalloc.c). *)

From S2P Require Import Prelude Slots SlotsProof Kmalloc KmallocProof.
Open Scope mos_scope.

Section Theorems.
Context `{HeapLaws}.

(** ** Sizes *)

Lemma align8_spec n : 0 <= n < 2 ^ 32 - 8 -> n <= ALIGN8 n < n + 8 /\ ALIGN8 n mod 8 = 0.
Proof.
  intros Hn. unfold ALIGN8. rewrite !u32_id by (rewrite ?u32_id; unfold UINT32_MOD; lia).
  assert (E : Z.ldiff (n + 7) 7 = (n + 7) / 8 * 8).
  { change 7 with (Z.ones 3). rewrite Z.ldiff_ones_r by lia.
    rewrite Z.shiftr_div_pow2, Z.shiftl_mul_pow2 by lia. done. }
  rewrite E. Z.to_euclidean_division_equations; lia.
Qed.

(** The block for [size] bytes holds them and its header. *)
Lemma block_need_ok size :
  0 < size <= 2 ^ 29 -> size_ok (block_need size) /\ size + HDR_SZ <= block_need size <= 2 ^ 29 + 32.
Proof.
  intros Hs. unfold block_need, HDR_SZ. rewrite u32_id by (unfold UINT32_MOD; lia).
  pose proof (align8_spec (size + 8) ltac:(lia)) as [Ha Hm]. unfold size_ok.
  destruct min_blk_cases as [E | E]; rewrite E in *; case_if; breflect; split; try split; try lia; done.
Qed.

Lemma chunk_ok need :
  size_ok need -> need <= 2 ^ 29 + 32 ->
  let chunk := u32 (chunk_pages need * PAGE_SIZE) in
  chunk = chunk_pages need * PAGE_SIZE /\ need + HDR_SZ <= chunk <= 2 ^ 29 + 2 * PAGE_SIZE /\ chunk mod 8 = 0.
Proof.
  intros [Hn Hm] Hb. unfold chunk_pages, HDR_SZ, PAGE_SIZE. destruct min_blk_cases as [E | E]; rewrite E in *;
    pose proof hl_mod; rewrite (u32_id (need + 8)) by (unfold UINT32_MOD; lia);
    rewrite (Z.mod_small (need + 8 + 4096 - 1)) by lia;
    rewrite (u32_id (_ / 4096)) by (unfold UINT32_MOD; Z.to_euclidean_division_equations; lia);
    cbv zeta; rewrite u32_id by (unfold UINT32_MOD; Z.to_euclidean_division_equations; lia);
    Z.to_euclidean_division_equations; lia.
Qed.

(** ** Extension *)

(** What vm_alloc() promises: no pages, or pages nothing else lies in,
    outside of the range of the heap. *)
Definition vm_answer (B : blocks) (Sn : gset Z) (chunk vm : Z) : Prop :=
  vm = 0 \/ (0 < vm /\ vm mod 8 = 0 /\ apart B Sn vm (vm + chunk) /\
             (vm + chunk <= KHEAP_BEGIN \/ KHEAP_END <= vm)).

Lemma extend_heap_ok B Sn h need vm :
  shape_ok B Sn h -> size_ok need -> need <= 2 ^ 29 + 32 ->
  vm_answer B Sn (u32 (chunk_pages need * PAGE_SIZE)) vm ->
  exists addr h', extend_heap need vm h = (addr, h') /\ bins h' = bins h /\ bin_bitmap h' = bin_bitmap h /\
    heap_quota h' = heap_quota h /\
    ((addr = 0 /\ h' = h /\ vm = 0) \/
     (addr <> 0 /\ exists sz Sn', need <= sz /\ B !! addr = None /\
        shape_ok (<[addr := (sz, false)]> B) Sn' h' /\ (forall a s al, B !! a = Some (s, al) -> a + s <> addr) /\
        B !! (addr + sz) = None)).
Proof.
  intros Hs Hn Hb Hvm. destruct (chunk_ok need Hn Hb) as (Ec & Hc & Mc). cbv zeta in *.
  assert (Hends : forall addr chunk, 16 <= chunk -> apart B Sn addr (addr + chunk) ->
    (forall a s al, B !! a = Some (s, al) -> a + s <> addr) /\ B !! (addr + (chunk - HDR_SZ)) = None).
  { intros addr chunk Hch [Ha1 Ha2]. unfold HDR_SZ in *. split.
    - intros a s al Ea Ee. destruct (so_next _ _ _ Hs _ _ _ Ea) as [[[s' al'] E'] | E']; rewrite Ee in E'.
      + pose proof (so_size _ _ _ Hs _ _ _ E') as ((? & _) & _). destruct min_blk_cases; destruct (Ha1 _ _ _ E'); lia.
      + destruct (Ha2 _ E'); lia.
    - destruct (B !! (addr + (chunk - 8))) as [[s al]|] eqn:E'; [|done]. exfalso.
      pose proof (so_size _ _ _ Hs _ _ _ E') as ((? & _) & _). destruct min_blk_cases; destruct (Ha1 _ _ _ E'); lia. }
  set (chunk := u32 _) in *. pose proof (so_top _ _ _ Hs) as (Ht & At).
  pose proof hl_room as Hroom. pose proof hl_mod as Hmod. pose proof hl_begin as (Hb0 & _).
  assert (Hm : 16 <= MIN_BLK) by (destruct min_blk_cases; lia).
  assert (Hsz : size_ok (chunk - HDR_SZ) /\ chunk < 2 ^ 32 /\ 0 < chunk).
  { unfold size_ok, HDR_SZ, PAGE_SIZE in *. destruct Hn. split; [split|]; try lia.
    Z.to_euclidean_division_equations; lia. }
  destruct Hsz as (Hsz & Hc32 & Hc0).
  unfold extend_heap, kblk_raw. fold chunk. clearbody chunk.
  assert (Hp0 : chunk_pages need <> 0) by (intros E0; rewrite E0 in Ec; lia).
  rewrite (proj2 (Z.eqb_neq (chunk_pages need) 0)) by auto. rewrite <- Ec.
  rewrite (Z.mod_small (cur_block_top h + chunk)) by lia.
  assert (Hh : 0 <= chunk - HDR_SZ < UINT32_MOD).
  { unfold HDR_SZ, UINT32_MOD, size_ok in *. lia. }
  rewrite (u32_id (chunk - HDR_SZ)) by auto.
  destruct (Z.ltb_spec (cur_block_top h + chunk) KHEAP_END).
  - rewrite (proj2 (Z.eqb_neq (cur_block_top h) 0)) by lia.
    assert (Hap : apart B Sn (cur_block_top h) (cur_block_top h + chunk)).
    { split.
      - intros a sz al Ha. destruct (so_room _ _ _ Hs _ _ _ Ha); lia.
      - intros s Hsn. destruct (so_sroom _ _ _ Hs _ Hsn); lia. }
    destruct (Hends _ chunk ltac:(unfold size_ok, HDR_SZ in *; lia) Hap) as [He1 He2].
    destruct (shape_extend B Sn h (cur_block_top h) chunk (cur_block_top h + chunk)) as [Hs' Hnone]; auto; try lia.
    + unfold PAGE_SIZE in At. Z.to_euclidean_division_equations; lia.
    + rewrite Ec. unfold PAGE_SIZE in *. Z.to_euclidean_division_equations; lia.
    + eexists _, _. split; [done|]. split_and!; auto. right. split; [lia|].
      eexists _, _. split; [|split; [exact Hnone | split; [exact Hs' | split; [exact He1 | exact He2]]]]. unfold HDR_SZ in *. lia.
  - destruct Hvm as [-> | (Pv & Av & Hap & Hout)].
    + exists 0, h. split_and!; auto.
    + rewrite (proj2 (Z.eqb_neq vm 0)) by lia. destruct (Hends _ chunk ltac:(unfold size_ok, HDR_SZ in *; lia) Hap) as [He1 He2].
      destruct (shape_extend B Sn h vm chunk (cur_block_top h)) as [Hs' Hnone]; auto; try lia.
      eexists _, _. split; [done|]. split_and!; auto. right. split; [lia|].
      eexists _, _. split; [|split; [exact Hnone | split; [|split; [exact He1 | exact He2]]]].
      2: { eapply shape_same; [exact Hs' | done | done]. }
      unfold HDR_SZ in *. lia.
Qed.

(** ** Splitting *)

Lemma lookup_hdr_eq h b sz al : sz mod 8 = 0 -> blk_sz (set_hdr b sz al h) b = Some sz.
Proof.
  intros Hm. unfold blk_sz, set_hdr. cbn [hdrs]. rewrite lookup_insert_eq. cbn [mbind option_bind].
  f_equal. apply (header_size sz al Hm).
Qed.

Lemma bins_ok_ext F F' h : bins_ok F h -> F = F' -> bins_ok F' h.
Proof. intros ? <-. done. Qed.

(** The blocks after [need] bytes are taken of the block [b]. *)
Definition split_of (B : blocks) (b sz need : Z) : blocks :=
  if MIN_BLK <=? sz - need then <[b + need := (sz - need, false)]> (<[b := (need, true)]> B) else <[b := (sz, true)]> B.

(** The new blocks are still there, and still the first of their chunks. *)
Definition new_ok (R : gmap Z Z) (B : blocks) : Prop :=
  (forall b sz, R !! b = Some sz -> B !! b = Some (sz, false)) /\
  (forall b a sz al, is_Some (R !! b) -> B !! a = Some (sz, al) -> a + sz <> b).

Lemma split_new R B Sn h b sz need :
  shape_ok B Sn h -> B !! b = Some (sz, false) -> R !! b = None -> size_ok need -> need <= sz ->
  new_ok R B -> new_ok R (split_of B b sz need).
Proof.
  intros Hs Hb HR [Hn _] Hle [H1 H2]. assert (Hm : 16 <= MIN_BLK) by (destruct min_blk_cases; lia).
  unfold split_of. case_if; breflect.
  - assert (Hnb : forall s, R !! (b + need) <> Some s).
    { intros s E. apply H1 in E. eapply (shape_apart B Sn h b sz false (b + need)); eauto; lia. }
    split.
    + intros c s E. rewrite !lookup_insert_ne; [auto | intros <-; congruence | intros <-; eapply Hnb; eauto].
    + intros c a s al Hc E. blk_cases E; try (eapply H2; eauto; fail).
      * replace (b + need + (sz - need)) with (b + sz) by lia. eauto.
      * intros <-. destruct Hc as [s' Hc]. eapply Hnb; eauto.
  - split.
    + intros c s E. rewrite lookup_insert_ne; [auto | intros <-; congruence].
    + intros c a s al Hc E. blk_cases E; eauto.
Qed.

Lemma live_split B b sz need : B !! b = Some (sz, false) -> B !! (b + need) = None -> 0 < need ->
  live (split_of B b sz need) = <[b := if MIN_BLK <=? sz - need then need else sz]> (live B).
Proof.
  intros Hb Hnb Hn. unfold split_of. apply map_eq. intros a. rewrite live_lookup. case_if.
  - destruct (decide (a = b + need)) as [-> | Na].
    { rewrite lookup_insert_eq, lookup_insert_ne by lia. rewrite live_lookup, Hnb. done. }
    rewrite (lookup_insert_ne _ (b + need)) by auto. destruct (decide (a = b)) as [-> | Nb].
    { rewrite !lookup_insert_eq. done. } rewrite !lookup_insert_ne, live_lookup by auto. done.
  - destruct (decide (a = b)) as [-> | Nb].
    { rewrite !lookup_insert_eq. done. } rewrite !lookup_insert_ne, live_lookup by auto. done.
Qed.

(** The block taken is marked, its excess freed. *)
Lemma split_block_ok R B Sn h b sz need :
  shape_ok B Sn h -> B !! b = Some (sz, false) -> R !! b = None -> new_ok R B -> bins_ok (delete b (listed R B)) h ->
  size_ok need -> need <= sz ->
  exists h' sz', split_block b need h = Some (b + HDR_SZ, h') /\ heap_ok R (split_of B b sz need) Sn h' /\
    need <= sz' /\ live (split_of B b sz need) = <[b := sz']> (live B) /\ heap_quota h' = heap_quota h +u sz'.
Proof.
  intros Hs Hb HRb HR Hbin Hn Hle. destruct (split_new R B Sn h b sz need Hs Hb HRb Hn Hle HR) as [HR1 HR2].
  pose proof (so_size _ _ _ Hs _ _ _ Hb) as ((Hsz & Hm8) & _ & _).
  destruct Hn as [Hn Hnm]. assert (Hm : 16 <= MIN_BLK) by (destruct min_blk_cases; lia).
  assert (Hnb : B !! (b + need) = None \/ need = sz).
  { destruct (Z.eq_dec need sz); [auto|]. left. destruct (B !! (b + need)) as [x|] eqn:E; auto. exfalso.
    eapply (shape_apart B Sn h b sz false (b + need)); eauto; lia. }
  unfold split_block. rewrite (shape_blk_sz _ _ _ _ _ _ Hs Hb). cbn [mbind option_bind].
  rewrite (u32_id (sz - need)) by (unfold UINT32_MOD; lia).
  unfold split_of in *. destruct (Z.leb_spec MIN_BLK (sz - need)) as [Hrem | Hrem].
  - set (rem := sz - need) in *. assert (Hrok : size_ok rem).
    { unfold rem. split; [lia|]. Z.to_euclidean_division_equations; lia. }
    destruct Hnb as [Hnb | ?]; [|lia].
    pose proof (live_split B b sz need Hb Hnb ltac:(lia)) as Hlive. unfold split_of in Hlive. rewrite (proj2 (Z.leb_le _ _)) in Hlive by lia.
    pose proof (shape_split B Sn h b sz false need rem Hs Hb ltac:(unfold rem; lia) (conj Hn Hnm) Hrok) as Hs'.
    set (h1 := set_hdr (b + need) rem false (set_hdr b need true h)) in *.
    destruct (fl_insert_ok (delete b (listed R B)) h1 (b + need) rem) as (h2 & E2 & Hb2 & Hsm); auto.
    { eapply bins_ok_same; [exact Hbin | done | done]. } { apply lookup_hdr_eq, Hrok. }
    { rewrite lookup_delete_ne by lia. rewrite listed_lookup, Hnb. destruct (R !! (b + need)); done. }
    rewrite E2. cbn [mbind option_bind]. destruct Hsm as (Sh & St & Sq & _).
    assert (Hs2 : shape_ok (<[b + need := (rem, false)]> (<[b := (need, true)]> B)) Sn h2).
    { eapply shape_same; [exact Hs' | done | done]. }
    rewrite (shape_blk_sz _ _ _ b need true Hs2) by (rewrite lookup_insert_ne, lookup_insert_eq by lia; done).
    cbn [mbind option_bind]. eexists _, need. split; [done|]. split; [split|]; auto.
    + eapply shape_same; [exact Hs2 | done | done].
    + eapply bins_ok_ext; [eapply bins_ok_same; [exact Hb2 | done | done]|]. apply map_eq. intros a.
      rewrite listed_lookup. destruct (decide (a = b + need)) as [-> | Na].
      { rewrite !lookup_insert_eq. destruct (R !! (b + need)) as [s|] eqn:E; [|done]. destruct HR as [HR _]. apply HR in E. congruence. }
      rewrite !(lookup_insert_ne _ (b + need)) by auto. destruct (decide (a = b)) as [-> | Nb].
      { rewrite lookup_delete_eq, lookup_insert_eq, HRb. done. }
      rewrite lookup_delete_ne, lookup_insert_ne, listed_lookup by auto. done.
    + split; [lia|]. split; [exact Hlive|]. cbn. rewrite Sq. done.
  - cbn [mbind option_bind]. rewrite lookup_hdr_eq by done. cbn [mbind option_bind].
    pose proof (shape_mark B Sn h b sz false true Hs Hb) as Hs'.
    eexists _, sz. split; [done|]. split; [split|]; auto.
    + eapply shape_same; [exact Hs' | done | done].
    + eapply bins_ok_ext; [eapply bins_ok_same; [exact Hbin | done | done]|]. apply map_eq. intros a.
      rewrite listed_lookup. destruct (decide (a = b)) as [-> | Nb].
      { rewrite lookup_delete_eq, lookup_insert_eq, HRb. done. }
      rewrite lookup_delete_ne, lookup_insert_ne, listed_lookup by auto. done.
    + split; [lia|]. split; [|done]. apply map_eq. intros a. rewrite live_lookup.
      destruct (decide (a = b)) as [-> | Nb].
      { rewrite !lookup_insert_eq. done. } rewrite !lookup_insert_ne, live_lookup by auto. done.
Qed.

(** Live allocations of a consistent heap are disjoint. *)
Lemma live_disjoint R B Sn h a sa b sb :
  heap_ok R B Sn h -> live B !! a = Some sa -> live B !! b = Some sb -> a <> b -> a + sa <= b \/ b + sb <= a.
Proof.
  intros [Hs _ _ _]. rewrite !live_lookup.
  destruct (B !! a) as [[? []]|] eqn:Ea; try discriminate. destruct (B !! b) as [[? []]|] eqn:Eb; try discriminate.
  intros; simplify_eq. destruct (Z.lt_ge_cases a b).
  - left. eapply (so_disj _ _ _ Hs); eauto.
  - right. eapply (so_disj _ _ _ Hs); eauto. lia.
Qed.

(** ** Allocation *)

(** The address [p] is given out for [size] bytes. *)
Definition granted (size p : Z) (B B' : blocks) (h h' : heap) : Prop :=
  p <> 0 /\ p mod 8 = 0 /\ live B !! (p - HDR_SZ) = None /\
  exists sz, size + HDR_SZ <= sz /\ live B' = <[p - HDR_SZ := sz]> (live B) /\
    (forall a sa, live B !! a = Some sa -> a + sa <= p - HDR_SZ \/ p - HDR_SZ + sz <= a) /\
    heap_quota h' = heap_quota h +u sz.

(** The calls under way: each block in [R] is that of one call, and large
    enough for it. *)
Record allocator_ok (R : gmap Z Z) (B : blocks) (Sn : gset Z) (s : allocator) : Prop := {
  al_heap : heap_ok R B Sn (the_heap s);
  al_extend t size : callers s !! t = Some (Extending size) -> 0 < size <= 2 ^ 29;
  al_split t size b : callers s !! t = Some (Splitting size b) ->
    0 < size <= 2 ^ 29 /\ exists sz, R !! b = Some sz /\ block_need size <= sz;
  al_returned t p : callers s !! t <> Some (Returned p);
  al_owner t t' size size' b :
    callers s !! t = Some (Splitting size b) -> callers s !! t' = Some (Splitting size' b) -> t = t';
  al_new b : is_Some (R !! b) -> exists t size, callers s !! t = Some (Splitting size b)
}.

Lemma heap_new R B Sn h : heap_ok R B Sn h -> new_ok R B.
Proof. intros [_ _ H1 H2]. split; [done | exact H2]. Qed.

Lemma malloc_split_ok R B Sn h b sz size :
  shape_ok B Sn h -> B !! b = Some (sz, false) -> R !! b = None -> new_ok R B -> bins_ok (delete b (listed R B)) h ->
  0 < size <= 2 ^ 29 -> block_need size <= sz ->
  exists p h', malloc_split size b h = Some (Returned p, h') /\ heap_ok R (split_of B b sz (block_need size)) Sn h' /\
    granted size p B (split_of B b sz (block_need size)) h h'.
Proof.
  intros Hs Hb HRb HR Hbin Hsize Hle. destruct (block_need_ok size Hsize) as (Hn & Hn1).
  destruct (split_block_ok R B Sn h b sz (block_need size)) as (h' & sz' & E & Hok & Hsz & El & Eq); auto.
  pose proof (so_size _ _ _ Hs _ _ _ Hb) as (_ & Pb & Ab). unfold malloc_split. rewrite E. cbn [mbind option_bind].
  exists (b + HDR_SZ), h'. split; [done|]. split; [done|]. unfold granted. replace (b + HDR_SZ - HDR_SZ) with b by lia.
  assert (Hfree : live B !! b = None) by (rewrite live_lookup, Hb; done).
  split; [unfold HDR_SZ; lia|]. split; [unfold HDR_SZ; Z.to_euclidean_division_equations; lia|]. split; [done|].
  exists sz'. split; [lia|]. split; [done|]. split; [|done]. intros a sa Ha.
  assert (Hne : a <> b) by (intros ->; congruence).
  eapply (live_disjoint R _ Sn h'); eauto; rewrite El; [rewrite lookup_insert_ne by auto; done | apply lookup_insert_eq].
Qed.

Lemma search_ok R B Sn h size :
  heap_ok R B Sn h -> 0 < size <= 2 ^ 29 ->
  (malloc_search size h = Some (Extending size, h) /\ forall a sz, listed R B !! a = Some sz -> sz < block_need size) \/
  exists p h' B', malloc_search size h = Some (Returned p, h') /\ heap_ok R B' Sn h' /\ granted size p B B' h h'.
Proof.
  intros Hok Hsize. pose proof Hok as [Hs Hbin _ _]. destruct (block_need_ok size Hsize) as (Hn & Hn1).
  destruct (shape_sizes R _ _ _ Hs) as [Hss Hhs]. unfold malloc_search. rewrite (proj2 (Z.eqb_neq size 0)) by lia.
  destruct (find_free_ok _ h (block_need size) Hbin Hss Hhs Hn) as (b & h1 & -> & Hf). cbn [mbind option_bind].
  destruct Hf as [(-> & -> & Hnone) | (sz & Eb & Hle & Hbin1 & Hsm)]; [left; done|]. right.
  rewrite listed_lookup in Eb. destruct (R !! b) eqn:ER; [discriminate|].
  destruct (B !! b) as [[s []]|] eqn:EB; try discriminate. simplify_eq.
  pose proof (so_size _ _ _ Hs _ _ _ EB) as (_ & Pb & _). rewrite (proj2 (Z.eqb_neq b 0)) by lia.
  destruct Hsm as (Sh & St & Sq & _).
  destruct (malloc_split_ok R B Sn h1 b sz size) as (p & h' & E & Hok' & Hg); auto; [eapply shape_same; eauto | eapply heap_new; eauto|].
  exists p, h', (split_of B b sz (block_need size)). split; [done|]. split; [done|]. unfold granted in *. rewrite Sq in Hg. exact Hg.
Qed.

Lemma extend_ok R B Sn h size vm :
  heap_ok R B Sn h -> 0 < size <= 2 ^ 29 -> vm_answer B Sn (u32 (chunk_pages (block_need size) * PAGE_SIZE)) vm ->
  (malloc_extend size vm h = (Returned 0, h) /\ vm = 0) \/
  exists b sz h' Sn', malloc_extend size vm h = (Splitting size b, h') /\ block_need size <= sz /\ R !! b = None /\ B !! b = None /\
    heap_ok (<[b := sz]> R) (<[b := (sz, false)]> B) Sn' h' /\ heap_quota h' = heap_quota h.
Proof.
  intros Hok Hsize Hvm. pose proof Hok as [Hs Hbin H1 H2]. destruct (block_need_ok size Hsize) as (Hn & Hn1).
  destruct (extend_heap_ok B Sn h (block_need size) vm) as (addr & h2 & E & E1 & E2 & E3 & Hx); auto; [lia|].
  unfold malloc_extend. rewrite E. destruct Hx as [(-> & -> & Evm) | (Ha & sz & Sn' & Hle & Hfresh & Hs' & He1 & He2)]; [left; done|].
  rewrite (proj2 (Z.eqb_neq addr 0)) by done. right. exists addr, sz, h2, Sn'.
  assert (HRa : R !! addr = None) by (destruct (R !! addr) as [x|] eqn:Ex; [apply H1 in Ex; congruence | done]).
  assert (Hpos : 0 < sz) by (destruct Hn; destruct min_blk_cases; lia).
  split_and!; auto. split; auto.
  - eapply bins_ok_ext; [eapply bins_ok_same; eauto|]. apply map_eq. intros a. rewrite !listed_lookup.
    destruct (decide (a = addr)) as [-> | Na]; [rewrite !lookup_insert_eq, HRa, Hfresh; done|]. rewrite !lookup_insert_ne by auto. done.
  - intros c s Ec. destruct (decide (c = addr)) as [-> | Nc]; [rewrite lookup_insert_eq in Ec; rewrite lookup_insert_eq; congruence|].
    rewrite lookup_insert_ne in Ec by auto. rewrite lookup_insert_ne by auto. auto.
  - intros c a s al Hc Ea. destruct (decide (c = addr)) as [-> | Nc].
    + blk_cases Ea; [lia | eauto].
    + rewrite lookup_insert_ne in Hc by auto. blk_cases Ea; [|eauto]. intros <-. destruct Hc as [x Hc]. apply H1 in Hc. congruence.
Qed.

(** What can happen to calls of malloc(): a thread calls it for up to half a
    gigabyte, and vm_alloc() keeps its promise. *)
Definition calls (B : blocks) (Sn : gset Z) (s : allocator) (e : heap_event) : Prop :=
  match e with
  | Search t size => callers s !! t = None /\ 0 <= size <= 2 ^ 29
  | Extend t vm => exists size, callers s !! t = Some (Extending size) /\
      vm_answer B Sn (u32 (chunk_pages (block_need size) * PAGE_SIZE)) vm
  | Split t => exists size b, callers s !! t = Some (Splitting size b)
  | Free _ => False
  end.

Lemma search_step_ok R B Sn s t size :
  allocator_ok R B Sn s -> callers s !! t = None -> 0 <= size <= 2 ^ 29 ->
  exists r s' B', heap_step (Search t size) s = Some (r, s') /\ allocator_ok R B' Sn s' /\
    match r with
    | None => B' = B /\ the_heap s' = the_heap s /\ forall a sz, listed R B !! a = Some sz -> sz < block_need size
    | Some p => size = 0 /\ p = 0 /\ s' = s /\ B' = B \/ 0 < size /\ granted size p B B' (the_heap s) (the_heap s')
    end.
Proof.
  intros Hal Et Hsize. pose proof Hal as [Hok H1 H2 H3 H4 H5]. cbn [heap_step]. destruct (Z.eq_dec size 0) as [-> | Hz].
  { exists (Some 0), s, B. cbn. rewrite delete_id by done. destruct s. split_and!; auto. }
  assert (0 < size <= 2 ^ 29) by lia. destruct (search_ok R B Sn (the_heap s) size Hok) as [[-> Hno] | (p & h' & B' & -> & Hok' & Hg)]; [lia| |].
  - cbn. eexists None, _, B. split; [done|]. split; [|done]. split; cbn; auto.
    + intros u n E. apply lookup_insert_Some in E as [[<- [= <-]] | [_ E]]; eauto.
    + intros u n b E. apply lookup_insert_Some in E as [[_ E] | [_ E]]; [discriminate | eauto].
    + intros u p E. apply lookup_insert_Some in E as [[_ E] | [_ E]]; [discriminate | eapply H3; eauto].
    + intros u u' n n' b E E'. apply lookup_insert_Some in E as [[_ E] | [_ E]]; [discriminate|].
      apply lookup_insert_Some in E' as [[_ E'] | [_ E']]; [discriminate | eauto].
    + intros b Hb. destruct (H5 b Hb) as (u & n & E). exists u, n. rewrite lookup_insert_ne; [done | congruence].
  - cbn. eexists (Some p), _, B'. split; [done|]. rewrite delete_id by done. split; [split; cbn; auto | right; split; [lia | exact Hg]].
Qed.

(** The call of [t] leaves: the other ones are as they were. *)
Lemma leave_callers R B Sn s t m R' B' Sn' h' :
  allocator_ok R B Sn s -> callers s !! t = Some m -> heap_ok R' B' Sn' h' ->
  (forall b, (exists size, m = Splitting size b) \/ R' !! b = R !! b) ->
  (forall size b, m = Splitting size b -> R' !! b = None) -> allocator_ok R' B' Sn' (Allocator h' (delete t (callers s))).
Proof.
  intros [Hok H1 H2 H3 H4 H5] Et Hok' HR Hgone. split; cbn; auto.
  - intros u n (_ & E)%lookup_delete_Some. eauto.
  - intros u n b (Hu & E)%lookup_delete_Some. destruct (H2 u n b E) as (? & sz & ER & ?). split; [done|]. exists sz. split; [|done].
    destruct (HR b) as [[n' ->] | ->]; [|done]. destruct Hu. eapply H4; eauto.
  - intros u p (_ & E)%lookup_delete_Some. eapply H3; eauto.
  - intros u u' n n' b (_ & E)%lookup_delete_Some (_ & E')%lookup_delete_Some. eauto.
  - intros b Hb. destruct (HR b) as [[n ->] | Eb]; [rewrite (Hgone n b eq_refl) in Hb; destruct Hb; discriminate|].
    rewrite Eb in Hb. destruct (H5 b Hb) as (u & n & E). exists u, n. apply lookup_delete_Some. split; [|done]. intros <-.
    rewrite Et in E. injection E as ->. rewrite <- Eb, (Hgone n b eq_refl) in Hb. destruct Hb; discriminate.
Qed.

Lemma extend_step_ok R B Sn s t size vm :
  allocator_ok R B Sn s -> callers s !! t = Some (Extending size) ->
  vm_answer B Sn (u32 (chunk_pages (block_need size) * PAGE_SIZE)) vm ->
  exists r s' R' B' Sn', heap_step (Extend t vm) s = Some (r, s') /\ allocator_ok R' B' Sn' s' /\ live B' = live B /\
    heap_quota (the_heap s') = heap_quota (the_heap s) /\ match r with None => True | Some p => p = 0 /\ vm = 0 end.
Proof.
  intros Hal Et Hvm. pose proof Hal as [Hok H1 H2 H3 H4 H5]. cbn [heap_step]. rewrite Et.
  destruct (extend_ok R B Sn (the_heap s) size vm Hok (H1 t size Et) Hvm) as [[-> Ev] | (b & sz & h' & Sn' & -> & Hle & HRb & HBb & Hok' & Eq)]; cbn.
  - eexists (Some 0), _, R, B, Sn. split; [done|]. split; [|done].
    apply (leave_callers R B Sn s t (Extending size)); auto; discriminate.
  - eexists None, _, (<[b := sz]> R), (<[b := (sz, false)]> B), Sn'. split; [done|]. split; [|split; [|done]].
    2:{ apply map_eq. intros a. rewrite !live_lookup. destruct (decide (a = b)) as [-> | Na]; [rewrite lookup_insert_eq, HBb; done|].
        rewrite lookup_insert_ne by auto. done. }
    assert (Hnot : forall u n, callers s !! u <> Some (Splitting n b)).
    { intros u n E. destruct (H2 u n b E) as (_ & x & Ex & _). congruence. }
    split; cbn; auto.
    + intros u n E. apply lookup_insert_Some in E as [[_ E] | [_ E]]; [discriminate | eauto].
    + intros u n c E. apply lookup_insert_Some in E as [[<- E] | [Hu E]].
      * injection E as <- <-. split; [eauto|]. exists sz. rewrite lookup_insert_eq. done.
      * destruct (H2 u n c E) as (? & x & Ex & ?). split; [done|]. exists x. split; [|done]. rewrite lookup_insert_ne; [done | congruence].
    + intros u p E. apply lookup_insert_Some in E as [[_ E] | [_ E]]; [discriminate | eapply H3; eauto].
    + intros u u' n n' c E E'. apply lookup_insert_Some in E as [[<- E] | [Hu E]]; apply lookup_insert_Some in E' as [[<- E'] | [Hu' E']].
      * done.
      * injection E as <- <-. destruct (Hnot u' n' E').
      * injection E' as <- <-. destruct (Hnot u n E).
      * eauto.
    + intros c Hc. destruct (decide (c = b)) as [-> | Nc]; [exists t, size; apply lookup_insert_eq|].
      rewrite lookup_insert_ne in Hc by auto. destruct (H5 c Hc) as (u & n & E). exists u, n. rewrite lookup_insert_ne; [done | congruence].
Qed.

Lemma split_step_ok R B Sn s t size b :
  allocator_ok R B Sn s -> callers s !! t = Some (Splitting size b) ->
  exists p s' R' B', heap_step (Split t) s = Some (Some p, s') /\ allocator_ok R' B' Sn s' /\
    granted size p B B' (the_heap s) (the_heap s').
Proof.
  intros Hal Et. pose proof Hal as [Hok H1 H2 H3 H4 H5]. destruct (H2 t size b Et) as (Hsize & sz & ER & Hle).
  pose proof Hok as [Hs Hbin Hn1 Hn2]. pose proof (Hn1 b sz ER) as EB. cbn [heap_step]. rewrite Et.
  destruct (malloc_split_ok (delete b R) B Sn (the_heap s) b sz size) as (p & h' & -> & Hok' & Hg); auto.
  - apply lookup_delete_eq.
  - split; [intros c x (_ & E)%lookup_delete_Some; auto|]. intros c a x al [y (_ & E)%lookup_delete_Some]. eauto.
  - eapply bins_ok_ext; [exact Hbin|]. apply map_eq. intros a. destruct (decide (a = b)) as [-> | Na].
    + rewrite lookup_delete_eq, listed_lookup, ER. done.
    + rewrite lookup_delete_ne, !listed_lookup, lookup_delete_ne by auto. done.
  - cbn. eexists p, _, (delete b R), _. split; [done|]. split; [|exact Hg].
    apply (leave_callers R B Sn s t (Splitting size b)); auto.
    + intros c. destruct (decide (c = b)) as [-> | Nc]; [left; eauto | right; apply lookup_delete_ne; auto].
    + intros n c E. injection E as <- <-. apply lookup_delete_eq.
Qed.

(** C13: from a consistent heap, with any calls of malloc() under way, each
    section of a call of malloc() for at most half a gigabyte completes and
    leaves the heap consistent, whatever the other threads did in between.
    The search gives out a block, or the call goes on and then no free block
    fits; the extension ends with NULL only if vm_alloc() has no pages; the
    split gives out the new block.  An address that is given out is 8-byte
    aligned, its block is large enough, was not allocated and overlaps no
    allocation, it is the only one added, and the account of bytes in use
    grows by its size.  A call for 0 bytes returns NULL. *)
Theorem malloc_correct R B Sn s e :
  allocator_ok R B Sn s -> calls B Sn s e ->
  exists r s' R' B' Sn', heap_step e s = Some (r, s') /\ allocator_ok R' B' Sn' s' /\
    match e, r with
    | Search t size, None => live B' = live B /\ (forall a sz, listed R B !! a = Some sz -> sz < block_need size)
    | Search t size, Some p => size = 0 /\ p = 0 /\ s' = s \/ granted size p B B' (the_heap s) (the_heap s')
    | Extend t vm, None => live B' = live B /\ heap_quota (the_heap s') = heap_quota (the_heap s)
    | Extend t vm, Some p => p = 0 /\ vm = 0 /\ live B' = live B /\ heap_quota (the_heap s') = heap_quota (the_heap s)
    | Split t, Some p => exists size b, callers s !! t = Some (Splitting size b) /\ granted size p B B' (the_heap s) (the_heap s')
    | _, _ => False
    end.
Proof.
  intros Hal Hv. destruct e as [t size | t vm | t | p]; [| | |done].
  - destruct Hv as [Et Hs]. destruct (search_step_ok R B Sn s t size Hal Et Hs) as (r & s' & B' & E & Hal' & Hr).
    exists r, s', R, B', Sn. split; [done|]. split; [done|]. destruct r as [p|]; [tauto|]. destruct Hr as (-> & _ & Hr). done.
  - destruct Hv as (size & Et & Hvm). destruct (extend_step_ok R B Sn s t size vm Hal Et Hvm) as (r & s' & R' & B' & Sn' & E & Hal' & Hl & Hq & Hr).
    exists r, s', R', B', Sn'. split; [done|]. split; [done|]. destruct r; tauto.
  - destruct Hv as (size & b & Et). destruct (split_step_ok R B Sn s t size b Hal Et) as (p & s' & R' & B' & E & Hal' & Hg).
    exists (Some p), s', R', B', Sn. split; [done|]. split; [done|]. eauto.
Qed.

(** A call that nobody interrupts. *)
Theorem malloc_alone R B Sn h size vm :
  heap_ok R B Sn h -> 0 < size <= 2 ^ 29 -> vm_answer B Sn (u32 (chunk_pages (block_need size) * PAGE_SIZE)) vm ->
  exists p h' B' Sn', malloc size vm h = Some (p, h') /\ heap_ok R B' Sn' h' /\
    (p = 0 /\ vm = 0 /\ live B' = live B \/ granted size p B B' h h').
Proof.
  intros Hok Hsize Hvm. unfold malloc.
  destruct (search_ok R B Sn h size Hok Hsize) as [[-> _] | (p & h' & B' & -> & Hok' & Hg)]; cbn [mbind option_bind].
  2:{ exists p, h', B', Sn. split; [done|]. split; [done|]. auto. }
  destruct (extend_ok R B Sn h size vm Hok Hsize Hvm) as [[-> Ev] | (b & sz & h1 & Sn' & -> & Hle & HRb & HBb & Hok1 & Eq)].
  { exists 0, h, B, Sn. split; [done|]. split; [done|]. auto. }
  pose proof Hok1 as [Hs1 Hbin1 Hn1 Hn2].
  assert (Hl : live (<[b := (sz, false)]> B) = live B).
  { apply map_eq. intros a. rewrite !live_lookup. destruct (decide (a = b)) as [-> | Na]; [rewrite lookup_insert_eq, HBb; done|].
    rewrite lookup_insert_ne by auto. done. }
  destruct (malloc_split_ok R (<[b := (sz, false)]> B) Sn' h1 b sz size) as (p & h2 & -> & Hok2 & Hg); auto.
  - apply lookup_insert_eq.
  - destruct (heap_new _ _ _ _ Hok1) as [Hm1 Hm2].
    assert (HR : forall c x, R !! c = Some x -> <[b := sz]> R !! c = Some x) by (intros c x E; rewrite lookup_insert_ne; congruence).
    split; [intros c x E; apply Hm1, HR, E|]. intros c a x al [y Ey]. apply Hm2. eauto.
  - eapply bins_ok_ext; [exact Hbin1|]. apply map_eq. intros a. destruct (decide (a = b)) as [-> | Na].
    + rewrite lookup_delete_eq, listed_lookup, lookup_insert_eq. done.
    + rewrite lookup_delete_ne, !listed_lookup, !lookup_insert_ne by auto. done.
  - exists p, h2. eexists _, Sn'. split; [done|]. split; [exact Hok2|]. right. unfold granted in *. rewrite Hl, Eq in Hg. exact Hg.
Qed.

(** ** Release *)

(** The blocks after the block [b] is freed: a free right neighbour is taken
    in. *)
Definition merged (B : blocks) (b sz : Z) : blocks :=
  match B !! (b + sz) with
  | Some (s2, false) => <[b := (sz + s2, false)]> (delete (b + sz) B)
  | _ => <[b := (sz, false)]> B
  end.

Lemma merged_live B b sz : live (merged B b sz) = delete b (live B).
Proof.
  apply map_eq. intros a. rewrite live_lookup. unfold merged.
  destruct (decide (a = b)) as [-> | Na]; [rewrite lookup_delete_eq; repeat case_match; rewrite lookup_insert_eq in *; congruence|].
  rewrite lookup_delete_ne, live_lookup by auto. destruct (B !! (b + sz)) as [[s2 []]|] eqn:E2; rewrite lookup_insert_ne by auto; try done.
  destruct (decide (a = b + sz)) as [-> | Na2]; [rewrite lookup_delete_eq, E2; done|]. rewrite lookup_delete_ne by auto. done.
Qed.

Lemma merged_new R B Sn h b sz : shape_ok B Sn h -> B !! b = Some (sz, true) -> new_ok R B -> new_ok R (merged B b sz).
Proof.
  intros Hs Hb [H1 H2]. pose proof (so_size _ _ _ Hs _ _ _ Hb) as ((Hsz & _) & _ & _).
  assert (Hm : 16 <= MIN_BLK) by (destruct min_blk_cases; lia).
  assert (HRb : R !! b = None) by (destruct (R !! b) as [x|] eqn:E; [apply H1 in E; congruence | done]).
  assert (HRn : R !! (b + sz) = None) by (destruct (R !! (b + sz)) as [x|] eqn:E; [destruct (H2 (b + sz) b sz true); eauto | done]).
  unfold merged. destruct (B !! (b + sz)) as [[s2 []]|] eqn:E2; split.
  all: try (intros c x E; rewrite lookup_insert_ne by congruence; try (rewrite lookup_delete_ne by congruence); auto; fail).
  all: intros c a x al Hc E; blk_cases E; try (eapply H2; eauto; fail).
  rewrite Z.add_assoc. eapply H2; eauto.
Qed.

(** The block's right neighbour is taken in when it is free. *)
Lemma coalesce_right_ok R B Sn h b sz :
  shape_ok B Sn h -> B !! b = Some (sz, false) -> R !! (b + sz) = None -> bins_ok (delete b (listed R B)) h ->
  exists h' sz', coalesce_right b h = Some h' /\ shape_ok (merged B b sz) Sn h' /\ merged B b sz !! b = Some (sz', false) /\
    bins_ok (delete b (listed R (merged B b sz))) h' /\ heap_quota h' = heap_quota h.
Proof.
  intros Hs Hb HR Hbin. unfold coalesce_right, blk_next, merged. rewrite (shape_blk_sz _ _ _ _ _ _ Hs Hb). cbn [mbind option_bind].
  pose proof (so_size _ _ _ Hs _ _ _ Hb) as (Hsz & _ & _).
  assert (Hm : 16 <= MIN_BLK) by (destruct min_blk_cases; lia).
  assert (Hsame : <[b := (sz, false)]> B = B) by (apply insert_id; done).
  unfold blk_is_alloc. destruct (B !! (b + sz)) as [[s2 a2]|] eqn:H2.
  - rewrite (so_hdr _ _ _ Hs _ _ _ H2). cbn [mbind option_bind].
    pose proof (so_size _ _ _ Hs _ _ _ H2) as (Hs2 & _ & _).
    rewrite header_alloc by apply Hs2. destruct a2; [rewrite Hsame; exists h, sz; auto 8|].
    destruct (fl_remove_ok (delete b (listed R B)) h (b + sz) s2) as (h1 & -> & Hb1 & Hsm); auto.
    { eapply shape_blk_sz; eauto. }
    { unfold size_ok in *. rewrite lookup_delete_ne by lia. rewrite listed_lookup, HR, H2. done. }
    destruct Hsm as (Sh & St & Sq & _).
    assert (Hs1 : shape_ok B Sn h1) by (eapply shape_same; eauto).
    cbn [mbind option_bind]. rewrite (shape_blk_sz _ _ _ _ _ _ Hs1 Hb), (shape_blk_sz _ _ _ _ _ _ Hs1 H2).
    cbn [mbind option_bind].
    destruct (shape_merge B Sn h1 b sz false (b + sz) s2 false false Hs1 Hb H2 eq_refl) as [Hsum Hs'].
    rewrite u32_id by (unfold UINT32_MOD; unfold size_ok in *; lia).
    eexists _, (sz + s2). split; [done|]. split; [exact Hs'|]. split; [apply lookup_insert_eq|].
    assert (Hne : b <> b + sz) by (unfold size_ok in *; lia).
    split; [|done]. eapply bins_ok_ext; [eapply bins_ok_same; [exact Hb1 | done | done]|]. apply map_eq. intros a.
    destruct (decide (a = b)) as [-> | Na]; [rewrite lookup_delete_ne, !lookup_delete_eq by auto; done|].
    rewrite (lookup_delete_ne _ b) by auto. rewrite listed_lookup, lookup_insert_ne by auto.
    destruct (decide (a = b + sz)) as [-> | Na2]; [rewrite !lookup_delete_eq, HR; done|].
    rewrite !lookup_delete_ne, listed_lookup by auto. done.
  - destruct (so_next _ _ _ Hs _ _ _ Hb) as [[x Hx] | Hx]; [congruence|].
    rewrite (so_sent _ _ _ Hs _ Hx). cbn [mbind option_bind]. rewrite Hsame. exists h, sz. auto 8.
Qed.

(** C30: releasing a live allocation always completes, also with calls of
    malloc() under way, and keeps the heap consistent.  The blocks afterwards
    are those of before, but that the block is free, and one with its right
    neighbour if that was free; so exactly that allocation is gone, and the
    account of bytes in use shrinks by its size. *)
Theorem free_correct R B Sn s p sz :
  allocator_ok R B Sn s -> p <> 0 -> live B !! (p - HDR_SZ) = Some sz ->
  let B' := match B !! (p - HDR_SZ + sz) with
            | Some (s2, false) => <[p - HDR_SZ := (sz + s2, false)]> (delete (p - HDR_SZ + sz) B)
            | _ => <[p - HDR_SZ := (sz, false)]> B
            end in
  exists s', heap_step (Free p) s = Some (None, s') /\ allocator_ok R B' Sn s' /\ callers s' = callers s /\
    live B' = delete (p - HDR_SZ) (live B) /\ heap_quota (the_heap s') = heap_quota (the_heap s) -u sz.
Proof.
  intros Hal Hp Hl. pose proof Hal as [Hok H1 H2 H3 H4 H5]. pose proof Hok as [Hs Hbin Hn1 Hn2]. cbv zeta.
  set (b := p - HDR_SZ) in *. change (match B !! (b + sz) with Some (s2, false) => _ | _ => _ end) with (merged B b sz).
  rewrite live_lookup in Hl. destruct (B !! b) as [[x []]|] eqn:Hb; try discriminate. injection Hl as ->.
  pose proof (so_size _ _ _ Hs _ _ _ Hb) as ((Hsz & _) & _ & _). assert (Hm : 16 <= MIN_BLK) by (destruct min_blk_cases; lia).
  destruct (merged_new R B Sn (the_heap s) b sz Hs Hb (heap_new _ _ _ _ Hok)) as [Hm1 Hm2].
  assert (HRn : R !! (b + sz) = None) by (destruct (R !! (b + sz)) as [y|] eqn:E; [destruct (Hn2 (b + sz) b sz true); eauto | done]).
  assert (HRb : R !! b = None) by (destruct (R !! b) as [y|] eqn:E; [apply Hn1 in E; congruence | done]).
  set (h := the_heap s) in *.
  set (h0 := Heap (hdrs h) (bins h) (bin_bitmap h) (cur_block_top h) (heap_quota h -u sz) (heap_quota_high h)).
  assert (Hs0 : shape_ok B Sn h0) by (eapply shape_same; [exact Hs | done | done]).
  pose proof (shape_mark B Sn h0 b sz true false Hs0 Hb) as Hs1.
  assert (Hmm : merged (<[b := (sz, false)]> B) b sz = merged B b sz).
  { unfold merged. rewrite lookup_insert_ne by lia. destruct (B !! (b + sz)) as [[s2 []]|]; rewrite ?insert_insert_eq; try done.
    rewrite delete_insert_ne by lia. rewrite insert_insert_eq. done. }
  destruct (coalesce_right_ok R _ Sn (set_hdr b sz false h0) b sz Hs1) as (h2 & sz2 & E2 & Hs2 & Hb2 & Hbin2 & Hq2).
  { apply lookup_insert_eq. } { done. }
  { eapply bins_ok_ext; [eapply bins_ok_same; [exact Hbin | done | done]|]. apply map_eq. intros a.
    destruct (decide (a = b)) as [-> | Na]; [rewrite lookup_delete_eq, listed_lookup, Hb, HRb; done|].
    rewrite lookup_delete_ne, !listed_lookup, lookup_insert_ne by auto. done. }
  rewrite Hmm in *. pose proof (so_size _ _ _ Hs2 _ _ _ Hb2) as (Hsz2 & _ & _).
  destruct (fl_insert_ok (delete b (listed R (merged B b sz))) h2 b sz2) as (h3 & E3 & Hbin3 & Hsm); auto.
  { eapply shape_blk_sz; eauto. } { apply lookup_delete_eq. }
  destruct Hsm as (Sh & St & Sq & _). exists (Allocator h3 (callers s)). split; [|split; [|split; [done | split]]].
  - cbn [heap_step]. fold h. unfold free. rewrite (proj2 (Z.eqb_neq p 0)) by auto. fold b. rewrite (shape_blk_sz _ _ _ _ _ _ Hs Hb).
    cbn [mbind option_bind]. fold h0. rewrite E2. cbn [mbind option_bind]. rewrite E3. done.
  - split; auto. cbn [the_heap]. split; [eapply shape_same; eauto | | done | exact Hm2].
    eapply bins_ok_ext; [exact Hbin3|]. rewrite insert_delete_eq, insert_id; [done|]. rewrite listed_lookup, HRb, Hb2. done.
  - apply merged_live.
  - cbn [the_heap]. rewrite Sq, Hq2. done.
Qed.

(** The empty heap is consistent. *)
Lemma kmalloc_init_ok : heap_ok ∅ ∅ ∅ kmalloc_init.
Proof.
  split.
  - split; try (intros *; rewrite lookup_empty; discriminate); try set_solver.
    cbn. pose proof hl_begin. split; [lia | tauto].
  - split; cbn [bins bin_bitmap kmalloc_init bins_init set_bins]; rewrite ?length_replicate; auto.
    + intros i l E. apply lookup_replicate in E as [-> _]. constructor.
    + intros i l a E. apply lookup_replicate in E as [-> _]. split; [intros Ha; inversion Ha|].
      intros (sz & E & _). rewrite listed_lookup, !lookup_empty in E. discriminate.
    + intros j w E. apply lookup_replicate in E as [-> _]. lia.
    + intros j w k E Hk. apply lookup_replicate in E as [-> _]. rewrite Z.testbit_0_l. split; [discriminate|].
      intros (l & E & Hn). apply lookup_replicate in E as [-> _]. done.
  - intros b sz. rewrite lookup_empty. discriminate.
  - intros b a sz al [x E]. rewrite lookup_empty in E. discriminate.
Qed.

(** Nobody has called malloc() yet. *)
Definition allocator_init : allocator := Allocator kmalloc_init ∅.
Lemma allocator_init_ok : allocator_ok ∅ ∅ ∅ allocator_init.
Proof.
  split; [exact kmalloc_init_ok | ..]; cbn [callers allocator_init]; try (intros *; rewrite lookup_empty; discriminate).
  intros b [x E]. rewrite lookup_empty in E. discriminate.
Qed.

(** ** Requests that wrap *)

(** A request within eight bytes of the largest size gets a smallest block:
    the header size wraps the sum around. *)
Theorem block_need_wraps size :
  2 ^ 32 - HDR_SZ <= size < 2 ^ 32 -> block_need size = MIN_BLK.
Proof.
  unfold HDR_SZ. intros Hs. unfold block_need, HDR_SZ.
  assert (E : u32 (size + 8) = size + 8 - 2 ^ 32).
  { unfold u32, UINT32_MOD. Z.to_euclidean_division_equations; lia. }
  rewrite E. pose proof (align8_spec (size + 8 - 2 ^ 32) ltac:(lia)) as [Ha Hm].
  destruct min_blk_cases as [Em | Em]; rewrite Em in *; case_if; breflect; auto;
    Z.to_euclidean_division_equations; lia.
Qed.
End Theorems.

Lemma x86_heap_laws : @HeapLaws x86_heap.
Proof. split; vm_compute; auto; try split; try done; intros; discriminate. Qed.
Lemma x64_heap_laws : @HeapLaws x64_heap.
Proof. split; vm_compute; auto; try split; try done; intros; discriminate. Qed.

(** A request for a gigabyte of pages wraps the top of the heap around, on
    both machines: it is granted inside of the heap's range, and the top is
    left below its beginning. *)
Theorem kblk_raw_wraps (c : HeapConfig) (h : heap) (vm : Z) :
  c = x86_heap \/ c = x64_heap -> KHEAP_BEGIN <= cur_block_top h < KHEAP_END ->
  exists h', kblk_raw 0x40000 vm h = (cur_block_top h, h') /\ cur_block_top h' < KHEAP_BEGIN.
Proof.
  intros Hc Ht. unfold kblk_raw. change (0x40000 =? 0) with false. cbv iota zeta.
  assert (Hw : (cur_block_top h + 0x40000 * PAGE_SIZE) mod address_mod < KHEAP_BEGIN /\ KHEAP_BEGIN < KHEAP_END).
  { destruct Hc as [-> | ->]; cbn in *; unfold PAGE_SIZE; Z.to_euclidean_division_equations; lia. }
  rewrite (proj2 (Z.ltb_lt _ _)) by lia. eexists. split; [done|]. apply Hw.
Qed.

(** ** Runs *)

Module Demo.
#[local] Existing Instances x86_heap x86_heap_laws.

(** Thread 7 asks for 100 bytes: the heap is empty, so it is extended. *)
Definition demo_extending : allocator := Allocator kmalloc_init {[ 7 := Extending 100 ]}.
Lemma demo_extending_ok : allocator_ok ∅ ∅ ∅ demo_extending.
Proof.
  split; [exact kmalloc_init_ok | ..]; cbn [callers demo_extending].
  - intros t size E. apply lookup_singleton_Some in E as [_ [= <-]]. lia.
  - intros t size b E. apply lookup_singleton_Some in E as [_ E]. discriminate.
  - intros t p E. apply lookup_singleton_Some in E as [_ E]. discriminate.
  - intros t t' size size' b E. apply lookup_singleton_Some in E as [_ E]. discriminate.
  - intros b [x E]. rewrite lookup_empty in E. discriminate.
Qed.

Lemma malloc_correct_witness :
  exists r s' R' B' Sn', heap_step (Extend 7 0) demo_extending = Some (r, s') /\ allocator_ok R' B' Sn' s'.
Proof.
  destruct (malloc_correct ∅ ∅ ∅ demo_extending (Extend 7 0) demo_extending_ok)
    as (r & s' & R' & B' & Sn' & E & Hok & _); [exists 100; split; [reflexivity | left; reflexivity]|].
  exists r, s', R', B', Sn'. exact (conj E Hok).
Defined.

(** The three sections one after the other. *)
Definition demo_calls : list heap_event := [Search 7 100; Extend 7 0; Split 7].
Definition demo_allocator : allocator :=
  default allocator_init (foldl (fun s e => s ← s; snd <$> heap_step e s) (Some allocator_init) demo_calls).
Definition demo_ptr : Z := 0xC0700008.

Lemma demo_live : exists R B Sn sz, allocator_ok R B Sn demo_allocator /\ live B !! (demo_ptr - HDR_SZ) = Some sz.
Proof.
  destruct (search_step_ok ∅ ∅ ∅ allocator_init 7 100 allocator_init_ok) as (r1 & s1 & B1 & E1 & H1 & _); [reflexivity | lia|].
  vm_compute in E1. injection E1 as <- <-.
  destruct (extend_step_ok ∅ B1 ∅ _ 7 100 0 H1) as (r2 & s2 & R2 & B2 & Sn2 & E2 & H2 & _); [reflexivity | left; reflexivity|].
  vm_compute in E2. injection E2 as <- <-.
  destruct (split_step_ok R2 B2 Sn2 _ 7 100 0xC0700000 H2) as (p & s3 & R3 & B3 & E3 & H3 & (_ & _ & _ & sz & _ & El & _)); [reflexivity|].
  vm_compute in E3. injection E3 as <- <-. exists R3, B3, Sn2, sz. split; [exact H3|]. rewrite El. apply lookup_insert_eq.
Qed.

Lemma free_correct_witness :
  exists s' B', heap_step (Free demo_ptr) demo_allocator = Some (None, s') /\ live B' !! (demo_ptr - HDR_SZ) = None.
Proof.
  destruct demo_live as (R & B & Sn & sz & Hok & Hl).
  destruct (free_correct R B Sn demo_allocator demo_ptr sz Hok) as (s' & E & _ & _ & El & _);
    [discriminate | exact Hl|].
  eexists s', _. split; [exact E|]. rewrite El. apply lookup_delete_eq.
Defined.
End Demo.
