(* ===== verification/Threads.v ===== *)
(** * Threads by their program points

    What the transition systems of the locks share: the threads are a list of
    program points, counted by class and moved one at a time, and the queues
    are lists of thread numbers without duplicates. *)

From S2P Require Import Prelude.

Section Threads.
Context {A : Type}.

(** The number of threads in a class. *)
Definition nthreads (P : A -> bool) (l : list A) : Z := Z.of_nat (length (List.filter P l)).

Lemma nthreads_cons P p l : nthreads P (p :: l) = b2z (P p) + nthreads P l.
Proof. unfold nthreads; cbn; destruct (P p); cbn; lia. Qed.

Lemma nthreads_insert P (l : list A) t p p' :
  l !! t = Some p -> nthreads P (<[t := p']> l) = nthreads P l - b2z (P p) + b2z (P p').
Proof.
  revert t. induction l as [|q l IH]; intros t E; [discriminate|].
  destruct t as [|t]; cbn in E.
  - simplify_eq. change (<[0%nat := p']> (p :: l)) with (p' :: l). rewrite !nthreads_cons. lia.
  - change (<[S t := p']> (q :: l)) with (q :: <[t := p']> l). rewrite !nthreads_cons, (IH t) by done. lia.
Qed.

Lemma nthreads_nonneg P (l : list A) : 0 <= nthreads P l.
Proof. unfold nthreads; lia. Qed.

Lemma nthreads_le P (l : list A) : nthreads P l <= Z.of_nat (length l).
Proof. unfold nthreads. pose proof (List.filter_length_le P l). lia. Qed.

Lemma nthreads_pos P (l : list A) t p : l !! t = Some p -> P p = true -> 0 < nthreads P l.
Proof.
  revert t. induction l as [|q l IH]; intros t E Hp; [discriminate|].
  destruct t as [|t]; cbn in *; rewrite nthreads_cons; pose proof (nthreads_nonneg P l).
  - simplify_eq. rewrite Hp. cbn. lia.
  - specialize (IH t E Hp). destruct (P q); cbn; lia.
Qed.

(** Two threads of a class of which there is at most one are the same. *)
Lemma nthreads_unique P (l : list A) t u p q :
  nthreads P l <= 1 -> l !! t = Some p -> l !! u = Some q -> P p = true -> P q = true -> t = u.
Proof.
  revert t u. induction l as [|x l IH]; intros t u Hc Et Eu Hp Hq; [discriminate|].
  rewrite nthreads_cons in Hc. pose proof (nthreads_nonneg P l).
  destruct t as [|t], u as [|u]; cbn in *; auto.
  - simplify_eq. pose proof (nthreads_pos P l u q Eu Hq). rewrite Hp in Hc. cbn in Hc. lia.
  - simplify_eq. pose proof (nthreads_pos P l t p Et Hp). rewrite Hq in Hc. cbn in Hc. lia.
  - f_equal. apply IH; auto. destruct (P x); cbn in Hc; lia.
Qed.

Lemma nthreads_none P (l : list A) : (forall t p, l !! t = Some p -> P p = false) -> nthreads P l = 0.
Proof.
  induction l as [|p l IH]; intros H; [done|]. rewrite nthreads_cons, (H 0%nat p eq_refl), IH; [done|]. intros t. apply (H (S t)).
Qed.

Lemma nthreads_mono P Q (l : list A) : (forall p, P p = true -> Q p = true) -> nthreads P l <= nthreads Q l.
Proof.
  intros Hi. induction l as [|p l IH]; [done|]. rewrite !nthreads_cons. specialize (Hi p).
  destruct (P p); [rewrite Hi by done | destruct (Q p)]; cbn; lia.
Qed.

(** Two classes that agree on all threads but one. *)
Lemma nthreads_diff P Q (l : list A) t p :
  l !! t = Some p -> (forall u q, u <> t -> l !! u = Some q -> P q = Q q) ->
  nthreads P l - b2z (P p) = nthreads Q l - b2z (Q p).
Proof.
  revert t. induction l as [|x l IH]; intros t E Hd; [discriminate|]. rewrite !nthreads_cons.
  destruct t as [|t]; cbn in E.
  - simplify_eq. assert (E : nthreads P l = nthreads Q l); [|lia].
    unfold nthreads. do 2 f_equal. apply List.filter_ext_in. intros q Hq.
    apply list_elem_of_In, list_elem_of_lookup in Hq as [u Hu]. apply (Hd (S u)); done.
  - rewrite (Hd 0%nat x) by done. enough (nthreads P l - b2z (P p) = nthreads Q l - b2z (Q p)) by lia.
    apply (IH t); [done|]. intros u q Hu. apply (Hd (S u)). lia.
Qed.

(** The numbers of the threads in a class. *)
Definition members (P : A -> bool) (l : list A) : list nat :=
  List.filter (fun i => match l !! i with Some p => P p | None => false end) (seq 0 (length l)).

Lemma members_length P l : nthreads P l = Z.of_nat (length (members P l)).
Proof.
  unfold nthreads, members. f_equal. induction l as [|p l IH]; [done|]. cbn [length seq List.filter lookup list_lookup].
  assert (E : length (List.filter (fun i => match (p :: l) !! i with Some q => P q | None => false end) (seq 1 (length l)))
            = length (List.filter P l)).
  { rewrite IH, <- fmap_S_seq. generalize (seq 0 (length l)). intros ks.
    induction ks as [|k ks IHk]; [done|]. cbn. destruct (l !! k) as [q|]; [destruct (P q)|]; cbn; auto. }
  destruct (P p); cbn [length]; rewrite E; done.
Qed.

Lemma elem_of_members P l t : t ∈ members P l <-> exists p, l !! t = Some p /\ P p = true.
Proof.
  unfold members. rewrite list_elem_of_In, List.filter_In, List.in_seq. split.
  - intros [_ Hp]. destruct (l !! t) eqn:E; [eauto | discriminate].
  - intros (p & E & Hp). rewrite E. apply lookup_lt_Some in E. split; [lia | done].
Qed.

Lemma members_nodup P l : NoDup (members P l).
Proof. apply NoDup_ListNoDup, List.NoDup_filter, List.seq_NoDup. Qed.

(** A queue of threads of a class is no longer than the class has threads. *)
Lemma queue_le P l q :
  NoDup q -> (forall t, t ∈ q -> exists p, l !! t = Some p /\ P p = true) -> Z.of_nat (length q) <= nthreads P l.
Proof.
  intros Hn Hq. rewrite members_length. apply Nat2Z.inj_le, List.NoDup_incl_length; [apply NoDup_ListNoDup; done|].
  intros t Ht%list_elem_of_In. apply list_elem_of_In, elem_of_members. auto.
Qed.

(** When it is shorter, a thread of the class is not on it. *)
Lemma queue_lt P l (q : list nat) :
  Z.of_nat (length q) < nthreads P l -> exists t p, l !! t = Some p /\ P p = true /\ t ∉ q.
Proof.
  intros Hlt. destruct (decide (Forall (fun t => t ∈ q) (members P l))) as [Hall | Hno].
  - exfalso. rewrite members_length in Hlt.
    assert (length (members P l) <= length q)%nat; [|lia].
    apply List.NoDup_incl_length; [apply NoDup_ListNoDup, members_nodup|].
    intros t Ht%list_elem_of_In. apply list_elem_of_In. rewrite Forall_forall in Hall. auto.
  - apply not_Forall_Exists in Hno; [|apply _]. apply Exists_exists in Hno as (t & Ht & Hnq).
    apply elem_of_members in Ht as (p & E & Hp). eauto.
Qed.

Lemma nthreads_replicate P n p : P p = false -> nthreads P (replicate n p) = 0.
Proof. intros Hp. induction n; [done|]. cbn [replicate]. rewrite nthreads_cons, Hp, IHn. done. Qed.

Lemma lookup_goto (l : list A) t p u q :
  l !! t = Some p -> <[t := q]> l !! u = if decide (u = t) then Some q else l !! u.
Proof.
  intros E. destruct (decide (u = t)) as [-> | Hn].
  - apply list_lookup_insert_eq. apply lookup_lt_Some in E. done.
  - apply list_lookup_insert_ne. auto.
Qed.

End Threads.

Lemma tail_sub (l : list nat) u : u ∈ tail l -> u ∈ l.
Proof. destruct l; [auto | right; auto]. Qed.

Lemma nodup_tail (l : list nat) : NoDup l -> NoDup (tail l).
Proof. destruct 1; [constructor | auto]. Qed.

