(* ===== verification/Lock.v ===== *)
(** * Sleeping locks

    Model of the sleeping locks of src/lib/impl/lock.c that are built on
    lock_base: mutexes, recursive mutexes and event variables (cond_t), as a
    transition system of any number of threads on one lock.  Every atomic
    operation of the code is one step; the wait lock is taken and released in
    steps of its own, so the steps of different threads interleave freely.

    A thread is an index in the list of program points.  The choices of the
    environment are the calls a thread makes, the outcome of its checks for
    signals, and wakeups that come from elsewhere (timers, signals).  Memory
    is sequentially consistent, as the orders given on the paths that meet
    require. *)

From S2P Require Import Prelude.

(** What the lock is used for by a call. *)
Inductive kind := Mutex | Event (interruptible : bool).

(** Program points.  [Idle r]: outside of the lock, the last call returned [r]. *)
Inductive pc :=
| Idle (r : Z)
| RCheck | RCheckNested
| TryLoad (k : kind) | TryCas (k : kind)
| Register (k : kind) | Spin (k : kind) | Try (k : kind)
| WonDeregister (k : kind) | WonUnlock (k : kind)
| Enqueue (k : kind) | SleepUnlock (k : kind) | Sleep (k : kind)
| AbortDeregister | AbortUnlock
| IntSpin | IntDeregister | IntLoad | IntWake | IntUnlock
| SetHolder | SetDepth | Held
| UCheck | ClearHolder
| Store | Load | WakeSpin | Wake | WakeUnlock
| Died.

Inductive choice :=
| Go            (* the next operation of the thread *)
| Signalled     (* the same, its check for signals finds one *)
| CallLock | CallUnlock
| CallWait (interruptible : bool) | CallNotify | CallReset
| Woken.        (* a wakeup from elsewhere *)

Record state := State {
  lock : Z;
  waiters : Z;
  wait_list : list nat;
  wait_lock : option nat;
  holder : Z;
  depth : Z;
  pcs : list pc
}.

(** The number a thread stores in [holder]. *)
Definition psid (t : nat) : Z := Z.of_nat t + 1.

Definition goto (t : nat) (p : pc) (s : state) : state :=
  State (lock s) (waiters s) (wait_list s) (wait_lock s) (holder s) (depth s) (<[t := p]> (pcs s)).
Definition set_lock (v : Z) (s : state) : state :=
  State v (waiters s) (wait_list s) (wait_lock s) (holder s) (depth s) (pcs s).
Definition add_waiters (d : Z) (s : state) : state :=
  State (lock s) (waiters s + d) (wait_list s) (wait_lock s) (holder s) (depth s) (pcs s).
Definition set_list (l : list nat) (s : state) : state :=
  State (lock s) (waiters s) l (wait_lock s) (holder s) (depth s) (pcs s).
Definition set_wait_lock (o : option nat) (s : state) : state :=
  State (lock s) (waiters s) (wait_list s) o (holder s) (depth s) (pcs s).
Definition set_holder (v : Z) (s : state) : state :=
  State (lock s) (waiters s) (wait_list s) (wait_lock s) v (depth s) (pcs s).
Definition set_depth (v : Z) (s : state) : state :=
  State (lock s) (waiters s) (wait_list s) (wait_lock s) (holder s) v (pcs s).

(** Where a thread goes when it has acquired. *)
Definition acquired (k : kind) : pc := match k with Mutex => SetHolder | Event _ => Idle 0 end.

(** spinlock_lock() of the wait lock: a step only when it is free. *)
Definition enter (t : nat) (p : pc) (s : state) : option state :=
  match wait_lock s with
  | None => Some (goto t p (set_wait_lock (Some t) s))
  | Some _ => None
  end.
Definition leave (t : nat) (p : pc) (s : state) : option state :=
  Some (goto t p (set_wait_lock None s)).

(** lock_wake_one_unsafe(): the first task of the list becomes ready. *)
Definition wake_one (s : state) : state := set_list (tail (wait_list s)) s.

(** The compare-and-exchange of 0 with 1. *)
Definition cas (t : nat) (won lost : pc) (s : state) : option state :=
  Some (if lock s =? 0 then goto t won (set_lock 1 s) else goto t lost s).

Section Lock.
(** Whether the lock is a recursive mutex. *)
Variable recursive : bool.

(** One step of a thread; [None] when it has none for the choice. *)
Definition step (t : nat) (c : choice) (s : state) : option state :=
  p ← pcs s !! t;
  match p, c with
  (* calls *)
  | Idle _, CallLock => Some (goto t (if recursive then RCheck else TryLoad Mutex) s)
  | Held, CallLock => if recursive then Some (goto t RCheckNested s) else None
  | Held, CallUnlock => Some (goto t UCheck s)
  | Idle _, CallWait i => Some (goto t (TryLoad (Event i)) s)
  | Idle _, CallNotify => Some (goto t Store s)
  | Idle _, CallReset => Some (set_lock 1 s)
  (* rmutex_lock() *)
  | RCheck, Go | RCheckNested, Go =>
      Some (if holder s =? psid t then goto t Held (set_depth (depth s + 1) s)
            else goto t (TryLoad Mutex) s)
  (* lock_try_acquire() *)
  | TryLoad k, Go => Some (goto t (if lock s =? 0 then TryCas k else Register k) s)
  | TryCas k, Go => cas t (acquired k) (Register k) s
  (* the slow path of lock_base_acquire() and cond_wait() *)
  | Register k, Go => Some (goto t (Spin k) (add_waiters 1 s))
  | Spin k, Go => enter t (Try k) s
  | Try k, Go => cas t (WonDeregister k) (Enqueue k) s
  | WonDeregister k, Go => Some (goto t (WonUnlock k) (add_waiters (-1) s))
  | WonUnlock k, Go => leave t (acquired k) s
  | Enqueue k, Go => Some (goto t (SleepUnlock k) (set_list (wait_list s ++ [t]) s))
  | Enqueue (Event true), Signalled => Some (goto t AbortDeregister s)
  | AbortDeregister, Go => Some (goto t AbortUnlock (add_waiters (-1) s))
  | AbortUnlock, Go => leave t (Idle (-1)) s
  | SleepUnlock k, Go => leave t (Sleep k) s
  | SleepUnlock _, Woken | Sleep _, Woken =>
      Some (set_list (filter (fun u => u <> t) (wait_list s)) s)
  (* task_sched() returns when the task is off the list *)
  | Sleep k, Go => if bool_decide (t ∈ wait_list s) then None else Some (goto t (Spin k) s)
  | Sleep (Event true), Signalled =>
      if bool_decide (t ∈ wait_list s) then None else Some (goto t IntSpin s)
  | IntSpin, Go => enter t IntDeregister s
  | IntDeregister, Go => Some (goto t IntLoad (add_waiters (-1) s))
  | IntLoad, Go => Some (goto t (if lock s =? 0 then IntWake else IntUnlock) s)
  | IntWake, Go => Some (goto t IntUnlock (wake_one s))
  | IntUnlock, Go => leave t (Idle (-1)) s
  (* the end of mutex_lock() and rmutex_lock() *)
  | SetHolder, Go => Some (goto t (if recursive then SetDepth else Held) (set_holder (psid t) s))
  | SetDepth, Go => Some (goto t Held (set_depth 1 s))
  (* mutex_unlock(), rmutex_unlock() *)
  | UCheck, Go =>
      Some (if negb (holder s =? psid t) then goto t Died s
            else if recursive then
              let s := set_depth (depth s - 1) s in
              goto t (if 0 <? depth s then Held else ClearHolder) s
            else goto t ClearHolder s)
  | ClearHolder, Go => Some (goto t Store (set_holder 0 s))
  (* lock_base_release(), cond_notify() *)
  | Store, Go => Some (goto t Load (set_lock 0 s))
  | Load, Go => Some (goto t (if waiters s =? 0 then Idle 0 else WakeSpin) s)
  | WakeSpin, Go => enter t Wake s
  | Wake, Go => Some (goto t WakeUnlock (wake_one s))
  | WakeUnlock, Go => leave t (Idle 0) s
  | _, _ => None
  end.

(** A run: the steps of a schedule in order. *)
Fixpoint run (sched : list (nat * choice)) (s : state) : option state :=
  match sched with
  | [] => Some s
  | (t, c) :: rest => s' ← step t c s; run rest s'
  end.

(** lock_init(): [n] threads, none of which has called yet. *)
Definition lock_init (initstat : Z) (n : nat) : state :=
  State initstat 0 [] None 0 0 (replicate n (Idle 0)).
End Lock.
