(* ===== verification/LockProof.v ===== *)
(** * Sleeping locks: exclusion and wakeups

    Invariants of the transition system of [Lock], by induction on runs: the
    queue and its lock are consistent, no wakeup is lost, and a mutex has at
    most one owner. *)

From S2P Require Import Prelude Threads Lock.

(** ** Classes of program points *)

(** Counted in [waiters]. *)
Definition registered (p : pc) : bool :=
  match p with
  | Spin _ | Try _ | WonDeregister _ | Enqueue _ | SleepUnlock _ | Sleep _
  | AbortDeregister | IntSpin | IntDeregister => true
  | _ => false
  end.

(** Holding the wait lock. *)
Definition inside (p : pc) : bool :=
  match p with
  | Try _ | WonDeregister _ | WonUnlock _ | Enqueue _ | SleepUnlock _ | AbortDeregister
  | AbortUnlock | IntDeregister | IntLoad | IntWake | IntUnlock | Wake | WakeUnlock => true
  | _ => false
  end.

(** About to try the lock again or to wake a sleeper. *)
Definition awake (t : nat) (p : pc) (s : state) : Prop :=
  match p with
  | Spin _ | Try _ | Load | WakeSpin | Wake | IntSpin | IntDeregister | IntLoad | IntWake => True
  | Sleep _ => t ∉ wait_list s
  | _ => False
  end.

(** A thread sleeps on the lock, or has decided to. *)
Definition pending (s : state) : Prop :=
  wait_list s <> [] \/ exists t k, pcs s !! t = Some (Enqueue k).

Definition someone_awake (s : state) : Prop :=
  exists u p, pcs s !! u = Some p /\ awake u p s.

(** The invariant of every run. *)
Record ok (s : state) : Prop := {
  ok_waiters : waiters s = nthreads registered (pcs s);
  ok_inside t p : pcs s !! t = Some p -> inside p = true <-> wait_lock s = Some t;
  ok_holder t : wait_lock s = Some t -> exists p, pcs s !! t = Some p;
  ok_list t : t ∈ wait_list s -> exists k, pcs s !! t = Some (SleepUnlock k) \/ pcs s !! t = Some (Sleep k);
  ok_nodup : NoDup (wait_list s);
  ok_lost : lock s = 0 -> pending s -> someone_awake s
}.

(** ** Frames: what a step that moves one thread must show *)

Lemma waiters_frame s s' t p p' d :
  waiters s = nthreads registered (pcs s) -> pcs s !! t = Some p -> pcs s' = <[t := p']> (pcs s) ->
  waiters s' = waiters s + d -> d = b2z (registered p') - b2z (registered p) ->
  waiters s' = nthreads registered (pcs s').
Proof. intros E Ep Ep' Ew Ed. rewrite Ep', (nthreads_insert _ _ _ p), Ew by done. lia. Qed.

Lemma list_frame s s' t p p' :
  (forall u, u ∈ wait_list s -> exists k, pcs s !! u = Some (SleepUnlock k) \/ pcs s !! u = Some (Sleep k)) ->
  pcs s !! t = Some p -> pcs s' = <[t := p']> (pcs s) ->
  (forall u, u ∈ wait_list s' -> u <> t -> u ∈ wait_list s) ->
  (t ∈ wait_list s' -> exists k, p' = SleepUnlock k \/ p' = Sleep k) ->
  forall u, u ∈ wait_list s' -> exists k, pcs s' !! u = Some (SleepUnlock k) \/ pcs s' !! u = Some (Sleep k).
Proof.
  intros Hl Ep Ep' Hsub Ht u Hu. rewrite Ep', (lookup_goto _ _ p) by done.
  destruct (decide (u = t)) as [-> | Hn]; [|auto].
  destruct (Ht Hu) as [k [-> | ->]]; eauto.
Qed.

Lemma lost_frame s s' t p p' :
  (lock s = 0 -> pending s -> someone_awake s) ->
  pcs s !! t = Some p -> pcs s' = <[t := p']> (pcs s) ->
  (lock s' = 0 -> pending s' -> lock s = 0 /\ pending s) ->
  (forall u, u <> t -> u ∈ wait_list s' -> u ∈ wait_list s) ->
  (awake t p s -> lock s' = 0 -> pending s' -> someone_awake s') ->
  lock s' = 0 -> pending s' -> someone_awake s'.
Proof.
  intros Hl Ep Ep' Hpre Hsub Hme E0 Hp. destruct (Hpre E0 Hp) as [E0' Hp'].
  destruct (Hl E0' Hp') as (u & q & Eu & Hu). destruct (decide (u = t)) as [-> | Hn].
  - apply Hme; auto. congruence.
  - exists u, q. rewrite Ep', (lookup_goto _ _ p), decide_False by done. split; [done|].
    destruct q; auto. cbn in *. intros Hin. apply Hu. auto.
Qed.

Lemma awake_self s t p : pcs s !! t = Some p -> awake t p s -> someone_awake s.
Proof. intros; exists t, p; auto. Qed.

Lemma move_ok s s' t p p' :
  ok s -> pcs s !! t = Some p -> pcs s' = <[t := p']> (pcs s) ->
  waiters s' - waiters s = b2z (registered p') - b2z (registered p) ->
  (inside p' = true <-> wait_lock s' = Some t) ->
  (forall u, u <> t -> wait_lock s' = Some u <-> wait_lock s = Some u) ->
  (forall u, u ∈ wait_list s' -> u <> t -> u ∈ wait_list s) ->
  (t ∈ wait_list s' -> exists k, p' = SleepUnlock k \/ p' = Sleep k) ->
  NoDup (wait_list s') ->
  (lock s' = 0 -> pending s' -> someone_awake s') ->
  ok s'.
Proof.
  intros [Hw Hi Hh Hl Hn Hs] Ep Ep' Ew Ei Eo El Et En Eme. split; auto.
  - rewrite Ep', (nthreads_insert _ _ _ p) by done. lia.
  - intros u q. rewrite Ep', (lookup_goto _ _ p) by done. destruct (decide (u = t)) as [-> | Hne].
    + intros; simplify_eq; auto.
    + intros Hu. rewrite Eo by done. eauto.
  - intros u Hu. rewrite Ep', (lookup_goto _ _ p) by done. destruct (decide (u = t)); [eauto|].
    apply Hh, Eo; auto.
  - eapply (list_frame s s' t p p'); eauto.
Qed.

(** A step that does not add to the list leaves no new pending sleeper. *)
Lemma pending_frame s s' t p p' :
  pending s' -> pcs s !! t = Some p -> pcs s' = <[t := p']> (pcs s) -> (forall k, p' <> Enqueue k) ->
  (wait_list s' <> [] -> wait_list s <> []) -> pending s.
Proof.
  intros [Hw | (u & k & Hu)] Ep Ep' Hne Hl; [left; auto|]. right.
  rewrite Ep', (lookup_goto _ _ p) in Hu by done. destruct (decide (u = t)); [|eauto].
  simplify_eq. exfalso. eapply Hne; eauto.
Qed.

(** A thread that holds the wait lock meets no other that does. *)
Lemma alone s t p u k :
  ok s -> pcs s !! t = Some p -> inside p = true -> pcs s !! u = Some (Enqueue k) -> u = t.
Proof.
  intros Hok Ep Hin Hu. apply (ok_inside s Hok t p Ep) in Hin.
  assert (wait_lock s = Some u) by (apply (ok_inside s Hok u _ Hu); done). congruence.
Qed.

(** Waking the first of a list that holds no newcomer leaves someone awake. *)
Lemma wake_someone s t p p' :
  ok s -> pcs s !! t = Some p -> inside p = true -> (forall k, p <> Enqueue k) -> (forall k, p <> SleepUnlock k) ->
  (forall k, p' <> Enqueue k) ->
  pending (goto t p' (wake_one s)) -> someone_awake (goto t p' (wake_one s)).
Proof.
  intros Hok Ep Hin He Hsl He' Hpend.
  assert (Hnil : wait_list s <> []).
  { destruct Hpend as [Hl | (u & k & Hu)].
    - cbn in Hl. intros E. rewrite E in Hl. done.
    - cbn in Hu. rewrite (lookup_goto _ _ p) in Hu by done. destruct (decide (u = t)); [simplify_eq; exfalso; eapply He'; eauto|].
      pose proof (alone s t p u k Hok Ep Hin Hu). congruence. }
  destruct (wait_list s) as [|h l] eqn:El; [done|].
  destruct (ok_list s Hok h) as [k Hk]; [rewrite El; left|].
  assert (h <> t).
  { intros ->. rewrite Ep in Hk. destruct Hk as [Hk | Hk]; injection Hk as ->; [eapply Hsl; eauto | discriminate]. }
  destruct Hk as [Hk | Hk].
  { exfalso. assert (wait_lock s = Some h) by (apply (ok_inside s Hok h _ Hk); done).
    apply (ok_inside s Hok t p Ep) in Hin. congruence. }
  exists h, (Sleep k). cbn. rewrite (lookup_goto _ _ p), decide_False by done. split; [done|].
  cbn. rewrite El. cbn. pose proof (ok_nodup s Hok) as Hnd. rewrite El in Hnd. inversion Hnd; auto.
Qed.

(** A thread that acquires, or that is awake after its step. *)
Ltac lost_now Ep t :=
  first
    [ solve [cbn; intros; lia]
    | solve [intros _ _; eapply (awake_self _ t); cbn;
             [rewrite (lookup_goto _ _ _ _ _ Ep), decide_True by done; reflexivity | cbn; auto]] ].

(** A thread that was not awake moves, the list does not grow. *)
Ltac lost_frame Hok Ep t :=
  solve [match goal with |- _ -> pending ?s' -> _ => eapply (lost_frame _ s' t _ _ (ok_lost _ Hok) Ep) end;
    [ reflexivity
    | let E0 := fresh in let Hp := fresh in intros E0 Hp; split; [exact E0|];
      apply (pending_frame _ _ t _ _ Hp Ep eq_refl); [intros; discriminate | exact (fun x => x)]
    | cbn; auto
    | cbn; tauto ]].

(** The cases of a step: what [move_ok] asks for is computed. *)
Ltac step_list Hok t Ep :=
  let Hu := fresh in
  cbn; intros Hu; try done; try apply tail_sub in Hu;
  destruct (ok_list _ Hok t Hu) as [? [?E | ?E]]; rewrite Ep in *; simplify_eq; eauto.

Ltac moves Hok Ep t :=
  let Hi := fresh "Hi" in
  pose proof (ok_inside _ Hok t _ Ep) as Hi; cbn in Hi;
  eapply move_ok; [exact Hok | exact Ep | reflexivity |..];
  [ cbn; lia
  | cbn; naive_solver
  | cbn; naive_solver
  | cbn; auto using tail_sub
  | try solve [step_list Hok t Ep]
  | first [exact (ok_nodup _ Hok) | apply nodup_tail, (ok_nodup _ Hok) | idtac]
  | first [lost_now Ep t | lost_frame Hok Ep t | idtac] ].

Lemma reset_ok s : ok s -> ok (set_lock 1 s).
Proof. intros []. split; auto. discriminate. Qed.

Lemma woken_ok s t k :
  ok s -> pcs s !! t = Some (SleepUnlock k) \/ pcs s !! t = Some (Sleep k) ->
  ok (set_list (filter (fun u => u <> t) (wait_list s)) s).
Proof.
  intros [Hw Hi Hh Hl Hn Hs] Ht. split; auto; cbn.
  - intros u Hu. apply list_elem_of_filter in Hu as [_ Hu]. auto.
  - apply NoDup_filter. done.
  - intros E0 Hp. assert (Hp' : pending s).
    { destruct Hp as [Hp | Hp]; [left | right; exact Hp]. cbn in Hp. intros E. rewrite E in Hp. done. }
    destruct (Hs E0 Hp') as (u & q & Eu & Hu). exists u, q. split; [done|].
    destruct q; auto. cbn in *. intros Hin. apply list_elem_of_filter in Hin as [_ Hin]. auto.
Qed.

(** A thread goes to the end of the list. *)
Lemma enqueue_ok s t k :
  ok s -> pcs s !! t = Some (Enqueue k) -> ok (goto t (SleepUnlock k) (set_list (wait_list s ++ [t]) s)).
Proof.
  intros Hok Ep. assert (Hnt : t ∉ wait_list s).
  { intros Hu. destruct (ok_list s Hok t Hu) as [? [E | E]]; congruence. }
  moves Hok Ep t.
  - intros u [Hu | ->%list_elem_of_singleton]%elem_of_app Hn; [auto | congruence].
  - eauto.
  - cbn. apply NoDup_app. split_and!; [apply Hok | | apply NoDup_singleton].
    intros u Hu ->%list_elem_of_singleton. done.
  - eapply (lost_frame s (goto t (SleepUnlock k) (set_list (wait_list s ++ [t]) s)) t _ _ (ok_lost _ Hok) Ep).
    + reflexivity.
    + intros E0 _. split; [exact E0|]. right. eauto.
    + cbn. intros u Hn [Hu | ->%list_elem_of_singleton]%elem_of_app; [auto | congruence].
    + cbn. tauto.
Qed.

(** A sleeper that is off the list goes on. *)
Lemma resume_ok s t k p :
  ok s -> pcs s !! t = Some (Sleep k) -> t ∉ wait_list s -> (p = Spin k \/ p = IntSpin) -> ok (goto t p s).
Proof.
  intros Hok Ep Hn [-> | ->]; moves Hok Ep t; cbn; tauto.
Qed.

Lemma step_ok r t c s s' : ok s -> step r t c s = Some s' -> ok s'.
Proof.
  intros Hok. unfold step. destruct (pcs s !! t) as [p|] eqn:Ep; [|discriminate]. cbn [mbind option_bind].
  destruct p, c; try discriminate; intros E; unfold enter, leave, cas in E.
  all: repeat match type of E with match ?x with _ => _ end = Some _ => destruct x eqn:?; try discriminate E end.
  all: injection E as <-; cbn zeta; repeat case_if; breflect; try (moves Hok Ep t; fail).
  all: eauto using reset_ok, woken_ok, enqueue_ok, resume_ok.
  - destruct k; moves Hok Ep t.
  - destruct k; moves Hok Ep t.
  - moves Hok Ep t. intros _. eapply wake_someone; eauto; discriminate.
  - moves Hok Ep t. intros E0 Hp. exfalso. cbn in E0.
    assert (Hpos : 0 < nthreads registered (pcs s)).
    { destruct Hp as [Hl | (u & k & Hu)].
      - cbn in Hl. destruct (wait_list s) as [|h l] eqn:El; [done|].
        destruct (ok_list s Hok h) as [k [E | E]]; [rewrite El; left | |]; eapply nthreads_pos; eauto.
      - cbn in Hu. rewrite (lookup_goto _ _ _ _ _ Ep) in Hu. destruct (decide (u = t)); [discriminate|].
        eapply nthreads_pos; eauto. }
    rewrite <- (ok_waiters s Hok) in Hpos. lia.
  - moves Hok Ep t. intros _. eapply wake_someone; eauto; discriminate.
Qed.

Lemma init_ok v n : ok (lock_init v n).
Proof.
  split; cbn.
  - rewrite nthreads_replicate; done.
  - intros t p E. apply lookup_replicate in E as [-> _]. cbn. split; discriminate.
  - discriminate.
  - intros t Ht. inversion Ht.
  - constructor.
  - intros _ [Hp | (t & k & Hp)]; [done|]. cbn in Hp. apply lookup_replicate in Hp as [Hp _]. discriminate.
Qed.

Lemma run_ok r sched s s' : ok s -> run r sched s = Some s' -> ok s'.
Proof.
  revert s. induction sched as [|[t c] rest IH]; intros s Hok; cbn [run]; [intros; simplify_eq; auto|].
  destruct (step r t c s) as [s1|] eqn:E; [|discriminate]. cbn. apply IH. eapply step_ok; eauto.
Qed.

(** ** No wakeup is lost *)

(** A thread that holds the wait lock can always go on. *)
Lemma inside_steps r s t p : pcs s !! t = Some p -> inside p = true -> exists s', step r t Go s = Some s'.
Proof.
  intros Ep Hi. unfold step. rewrite Ep. cbn [mbind option_bind].
  destruct p; try discriminate; unfold cas, leave; eauto. destruct k as [|[]]; eauto.
Qed.

(** C20: in every run of any threads that lock, unlock, wait, get interrupted,
    notify and reset, whenever the lock is free while threads sleep on it,
    some thread is awake that will try to take it or will wake a sleeper, and
    it, or the thread that holds the wait lock before it, can take a step. *)
Theorem no_lost_wakeup r v n sched s :
  run r sched (lock_init v n) = Some s -> lock s = 0 -> wait_list s <> [] ->
  exists u p, pcs s !! u = Some p /\ awake u p s /\
    exists w s', step r w Go s = Some s' /\ (w = u \/ wait_lock s = Some w).
Proof.
  intros Hrun E0 Hl. pose proof (run_ok _ _ _ _ (init_ok v n) Hrun) as Hok.
  destruct (ok_lost s Hok E0 (or_introl Hl)) as (u & p & Eu & Hu).
  exists u, p. split; [done|]. split; [done|].
  destruct (wait_lock s) as [w|] eqn:Ew.
  - destruct (ok_holder s Hok w Ew) as [q Eq].
    destruct (inside_steps r s w q Eq) as [s' Es]; [apply (ok_inside s Hok w q Eq); done|]. eauto.
  - exists u. unfold step. rewrite Eu. cbn [mbind option_bind]. unfold enter, cas. rewrite Ew.
    destruct p; try (cbn in Hu; done); eauto.
    cbn in Hu. rewrite bool_decide_eq_false_2 by done. destruct k as [|[]]; eauto.
Qed.

(** ** Mutual exclusion *)

(** Owning the lock of a mutex. *)
Definition own (p : pc) : bool :=
  match p with
  | WonDeregister _ | WonUnlock _ | SetHolder | SetDepth | Held | RCheckNested | UCheck
  | ClearHolder | Store => true
  | _ => false
  end.
(** Recorded as the holder. *)
Definition holds (p : pc) : bool :=
  match p with SetDepth | Held | RCheckNested | UCheck | ClearHolder => true | _ => false end.
(** The depth counts. *)
Definition deep (p : pc) : bool :=
  match p with Held | RCheckNested | UCheck => true | _ => false end.
(** The points of a thread that uses the lock as a mutex. *)
Definition mutex_pc (p : pc) : bool :=
  match p with
  | TryLoad k | TryCas k | Register k | Spin k | Try k | WonDeregister k | WonUnlock k
  | Enqueue k | SleepUnlock k | Sleep k => match k with Mutex => true | Event _ => false end
  | AbortDeregister | AbortUnlock | IntSpin | IntDeregister | IntLoad | IntWake | IntUnlock | Died => false
  | _ => true
  end.

(** The choices of threads that only lock and unlock. *)
Definition mutex_choice (c : choice) : bool :=
  match c with Go | CallLock | CallUnlock | Woken => true | _ => false end.

Record excl (r : bool) (s : state) : Prop := {
  ex_lock : lock s = nthreads own (pcs s);
  ex_one : lock s <= 1;
  ex_pc t p : pcs s !! t = Some p -> mutex_pc p = true;
  ex_holder t p : pcs s !! t = Some p -> holds p = true <-> holder s = psid t;
  ex_range : holder s = 0 \/ exists t p, pcs s !! t = Some p /\ holder s = psid t;
  ex_depth t p : pcs s !! t = Some p -> deep p = true -> r = true -> 1 <= depth s
}.

Lemma excl_move r s s' t p p' :
  excl r s -> pcs s !! t = Some p -> pcs s' = <[t := p']> (pcs s) ->
  lock s' - lock s = b2z (own p') - b2z (own p) -> lock s' <= 1 -> mutex_pc p' = true ->
  (holds p' = true <-> holder s' = psid t) ->
  (forall u, u <> t -> holder s' = psid u <-> holder s = psid u) ->
  (holder s' = 0 \/ holder s' = psid t \/ holder s' = holder s) ->
  (deep p' = true -> r = true -> 1 <= depth s') ->
  (forall u q, u <> t -> pcs s !! u = Some q -> deep q = true -> r = true -> 1 <= depth s') ->
  excl r s'.
Proof.
  intros [Hl H1 Hpc Hh Hr Hd] Ep Ep' El El1 Em Eh Eo Er Ed Edo. split; auto.
  - rewrite Ep', (nthreads_insert _ _ _ p) by done. lia.
  - intros u q. rewrite Ep', (lookup_goto _ _ p) by done. destruct (decide (u = t)); [intros; simplify_eq; auto | eauto].
  - intros u q. rewrite Ep', (lookup_goto _ _ p) by done. destruct (decide (u = t)) as [-> | Hn].
    + intros; simplify_eq. auto.
    + intros Hu. rewrite Eo by done. eauto.
  - destruct Er as [Er | [Er | Er]]; [auto | |].
    + right. exists t, p'. rewrite Ep', (lookup_goto _ _ p), decide_True by done. auto.
    + rewrite Er. destruct Hr as [Hr | (u & q & Hu & Hr)]; [auto|]. right. exists u.
      rewrite Ep', (lookup_goto _ _ p) by done. destruct (decide (u = t)); eauto.
  - intros u q. rewrite Ep', (lookup_goto _ _ p) by done. destruct (decide (u = t)); [intros; simplify_eq; auto | eauto].
Qed.

Lemma psid_inj t u : psid t = psid u -> t = u.
Proof. unfold psid; lia. Qed.
Lemma psid_pos t : psid t <> 0.
Proof. unfold psid; lia. Qed.

Lemma excl_list r s l : excl r s -> excl r (set_list l s).
Proof. intros []. split; auto. Qed.

Lemma step_excl r t c s s' : excl r s -> mutex_choice c = true -> step r t c s = Some s' -> excl r s'.
Proof.
  intros Hex Hc. unfold step. destruct (pcs s !! t) as [p|] eqn:Ep; [|discriminate]. cbn [mbind option_bind].
  pose proof (ex_pc _ _ Hex t p Ep) as Hm. pose proof (ex_holder _ _ Hex t p Ep) as Hh.
  pose proof (ex_depth _ _ Hex t p Ep) as Hd. pose proof (ex_one _ _ Hex) as H1.
  pose proof (ex_lock _ _ Hex) as Hl. pose proof (nthreads_nonneg own (pcs s)) as H0.
  assert (Hun : forall u q, own p = true -> pcs s !! u = Some q -> own q = true -> u = t).
  { intros u q Hp Hu Hq. eapply (nthreads_unique own (pcs s) u t q p); eauto. lia. }
  assert (Hod : forall u q, u <> t -> pcs s !! u = Some q -> deep q = true -> r = true -> 1 <= depth s).
  { intros. eapply ex_depth; eauto. }
  assert (Hnd : forall u q, own p = true -> u <> t -> pcs s !! u = Some q -> deep q = true -> False).
  { intros u q Hp Hn Hu Hq. apply Hn. eapply Hun; eauto. destruct q; done. }
  assert (Hno : forall u, own p = true -> u <> t -> holder s <> psid u).
  { intros u Hp Hn E. destruct (ex_range _ _ Hex) as [Er | (w & q & Hw & Er)]; [pose proof (psid_pos u); congruence|].
    rewrite Er in E. apply psid_inj in E as ->. apply (ex_holder _ _ Hex u q Hw) in Er.
    apply Hn. eapply Hun; eauto. destruct q; done. }
  assert (Hlk : own p = true -> lock s = 1).
  { intros Hp. pose proof (nthreads_pos own (pcs s) t p Ep Hp). lia. }
  destruct p, c; try discriminate; intros E; unfold enter, leave, cas in E.
  all: repeat match type of E with match ?x with _ => _ end = Some _ => destruct x eqn:?; try discriminate E end.
  all: injection E as <-; cbn zeta; repeat case_if; breflect.
  all: try (apply excl_list; exact Hex).
  all: try match goal with k : kind |- _ => destruct k; [|discriminate Hm] end.
  all: eapply (excl_move _ s _ t); [exact Hex | exact Ep | reflexivity |..];
    cbn in Hm, Hh, Hd, Hun, Hnd, Hno, Hlk |- *.
  all: try exact Hh; try exact Hod; try (intros; reflexivity); try discriminate; try assumption; try tauto.
  all: try specialize (Hlk eq_refl); try lia.
  all: try (intros u q Hn Hu Hq; exfalso; eapply Hnd; eauto; fail).
  - intros _ Hr. specialize (Hd eq_refl Hr). lia.
  - intros u Hn. specialize (Hno u eq_refl Hn). split; intros E; exfalso; [apply Hn; symmetry; apply psid_inj; done | auto].
  - intros u Hn. specialize (Hno u eq_refl Hn). split; intros E; exfalso; [apply Hn; symmetry; apply psid_inj; done | auto].
  - pose proof (psid_pos t). split; intros; [discriminate | congruence].
  - intros u Hn. specialize (Hno u eq_refl Hn). pose proof (psid_pos u). split; intros; congruence.
Qed.

Lemma init_excl r n : excl r (lock_init 0 n).
Proof.
  split; cbn.
  - rewrite nthreads_replicate; done.
  - lia.
  - intros t p E. apply lookup_replicate in E as [-> _]. done.
  - intros t p E. apply lookup_replicate in E as [-> _]. cbn. pose proof (psid_pos t). split; intros; congruence.
  - auto.
  - intros t p E. apply lookup_replicate in E as [-> _]. discriminate.
Qed.

Lemma run_excl r sched s s' :
  excl r s -> Forall (fun tc => mutex_choice (snd tc) = true) sched -> run r sched s = Some s' -> excl r s'.
Proof.
  revert s. induction sched as [|[t c] rest IH]; intros s Hex Hf; cbn [run]; [intros; simplify_eq; auto|].
  inversion Hf; subst. destruct (step r t c s) as [s1|] eqn:E; [|discriminate]. cbn. apply IH; auto.
  eapply step_excl; eauto.
Qed.

(** ** The balance of the calls *)

(** Calls of lock less calls of unlock, by a thread, in a schedule. *)
Definition call_delta (c : choice) : Z := match c with CallLock => 1 | CallUnlock => -1 | _ => 0 end.
Fixpoint balance (t : nat) (sched : list (nat * choice)) : Z :=
  match sched with
  | [] => 0
  | (u, c) :: rest => (if bool_decide (u = t) then call_delta c else 0) + balance t rest
  end.

(** In a call of lock that has not returned. *)
Definition locking (p : pc) : bool :=
  match p with
  | RCheck | RCheckNested | TryLoad _ | TryCas _ | Register _ | Spin _ | Try _ | WonDeregister _ | WonUnlock _
  | Enqueue _ | SleepUnlock _ | Sleep _ | SetHolder | SetDepth => true
  | _ => false
  end.
(** The calls of lock of a thread that have returned, less its calls of
    unlock: the thread is in its critical section while this is positive. *)
Definition held (t : nat) (sched : list (nat * choice)) (s : state) : Z :=
  balance t sched - from_option (fun p => b2z (locking p)) 0 (pcs s !! t).

(** The balance of a thread at a program point. *)
Definition expected (r : bool) (d : Z) (p : pc) : Z :=
  match p with
  | Held => if r then d else 1
  | RCheckNested => d + 1
  | UCheck => if r then d - 1 else 0
  | _ => b2z (locking p)
  end.
Definition balanced (r : bool) (s : state) (b : nat -> Z) : Prop :=
  forall t, b t = from_option (expected r (depth s)) 0 (pcs s !! t).

Lemma balanced_move r s s' b t p p' x :
  balanced r s b -> pcs s !! t = Some p -> pcs s' = <[t := p']> (pcs s) ->
  expected r (depth s') p' = expected r (depth s) p + x ->
  (forall u q, u <> t -> pcs s !! u = Some q -> expected r (depth s') q = expected r (depth s) q) ->
  balanced r s' (fun u => b u + (if bool_decide (t = u) then x else 0)).
Proof.
  intros Hb Ep Ep' Ex Eo u. rewrite Hb, Ep'. case_bool_decide as Hu; [subst u|].
  - rewrite Ep, list_lookup_insert_eq by (eapply lookup_lt_Some; eauto). cbn. lia.
  - rewrite list_lookup_insert_ne by done. destruct (pcs s !! u) as [q|] eqn:Eq; [|done]. cbn. rewrite (Eo u q) by auto. lia.
Qed.

Lemma step_balanced r t c s s' b :
  excl r s -> balanced r s b -> mutex_choice c = true -> (r = false -> forall t p, pcs s !! t = Some p -> p <> RCheckNested) ->
  step r t c s = Some s' -> balanced r s' (fun u => b u + (if bool_decide (t = u) then call_delta c else 0)).
Proof.
  intros Hex Hb Hc Hnr. unfold step. destruct (pcs s !! t) as [p|] eqn:Ep; [|discriminate]. cbn [mbind option_bind].
  pose proof (ex_pc _ _ Hex t p Ep) as Hm. pose proof (ex_holder _ _ Hex t p Ep) as Hh.
  pose proof (ex_depth _ _ Hex t p Ep) as Hd. pose proof (ex_one _ _ Hex) as H1. pose proof (ex_lock _ _ Hex) as Hl.
  assert (Hdeep : own p = true -> forall d u q, u <> t -> pcs s !! u = Some q -> expected r d q = expected r (depth s) q).
  { intros Hp d u q Hn Hu. destruct (deep q) eqn:Hq; [|destruct q; done]. destruct Hn.
    eapply (nthreads_unique own (pcs s) u t q p); eauto; [lia | destruct q; done]. }
  destruct p, c; try discriminate; intros E; unfold enter, leave, cas in E.
  all: repeat match type of E with match ?x with _ => _ end = Some _ => destruct x eqn:?; try discriminate E end.
  all: injection E as <-; cbn zeta; repeat case_if; breflect.
  all: try match goal with k : kind |- _ => destruct k; [|discriminate Hm] end.
  all: try (eapply (balanced_move _ s _ _ t); [exact Hb | exact Ep | reflexivity | cbn; try reflexivity; try lia | intros; reflexivity]; fail).
  all: cbn in Hh, Hd; try (exfalso; tauto).
  all: try (intros u; specialize (Hb u); case_bool_decide; cbn in Hb |- *; lia).
  all: eapply (balanced_move _ s _ _ t); [exact Hb | exact Ep | reflexivity | | first [exact (Hdeep eq_refl _) | intros; reflexivity]]; cbn.
  - destruct r; [lia|]. destruct (Hnr eq_refl t _ Ep eq_refl).
  - destruct r; done.
  - destruct r; lia.
  - lia.
  - specialize (Hd eq_refl eq_refl). lia.
Qed.

(** Only a recursive mutex is locked by the thread that holds it. *)
Definition flat (r : bool) (s : state) : Prop := r = false -> forall t p, pcs s !! t = Some p -> p <> RCheckNested.
Lemma step_flat r t c s s' : flat r s -> step r t c s = Some s' -> flat r s'.
Proof.
  intros Hf E Hr u q. specialize (Hf Hr). revert E. unfold step. destruct (pcs s !! t) as [p|] eqn:Ep; [|discriminate]. cbn [mbind option_bind].
  destruct p, c; try discriminate; intros E; unfold enter, leave, cas in E.
  all: repeat match type of E with match ?x with _ => _ end = Some _ => destruct x eqn:?; try discriminate E end.
  all: try discriminate Hr; injection E as <-; cbn zeta; cbn [pcs set_list set_lock]; try apply Hf.
  all: repeat case_if; cbn [pcs goto set_depth set_holder set_wait_lock set_list set_lock add_waiters]; rewrite (lookup_goto _ _ _ _ _ Ep);
    (destruct (decide (u = t)); [intros E Hq; subst q | apply Hf]); try (injection E as E); try discriminate E.
  all: try (destruct k; discriminate E).
Qed.

Lemma run_balanced r sched : forall s s' b,
  excl r s -> flat r s -> balanced r s b -> Forall (fun tc => mutex_choice (snd tc) = true) sched -> run r sched s = Some s' ->
  balanced r s' (fun u => b u + balance u sched).
Proof.
  induction sched as [|[t c] rest IH]; intros s s' b Hex Hfl Hb Hf; cbn [run balance].
  { intros [= <-] u. rewrite Hb. lia. }
  inversion Hf; subst. destruct (step r t c s) as [s1|] eqn:E; [|discriminate]. cbn [mbind option_bind]. intros Hrun u.
  pose proof (IH s1 s' _ (step_excl _ _ _ _ _ Hex ltac:(done) E) (step_flat _ _ _ _ _ Hfl E)
    (step_balanced _ _ _ _ _ _ Hex Hb ltac:(done) Hfl E) ltac:(done) Hrun u) as Hu. cbn [snd] in Hu. cbv beta. lia.
Qed.
Lemma run_flat r sched : forall s s', flat r s -> run r sched s = Some s' -> flat r s'.
Proof.
  induction sched as [|[t c] rest IH]; intros s s' Hf; cbn [run]; [intros [= <-]; done|].
  destruct (step r t c s) as [s1|] eqn:E; [|discriminate]. cbn [mbind option_bind]. apply IH. eapply step_flat; eauto.
Qed.
Lemma init_balanced r n : balanced r (lock_init 0 n) (fun _ => 0).
Proof. intros t. cbn. destruct (replicate n (Idle 0) !! t) as [p|] eqn:E; [|done]. apply lookup_replicate in E as [-> _]. done. Qed.

(** C19: in every run of any number of threads that lock and unlock a mutex,
    recursive or not, at most one thread is in its critical section: has more
    calls of lock that returned than calls of unlock.  The lock word is set
    while one is, and its number is recorded as the holder; no unlock finds
    another holder and dies; and when no call is under way and each call of
    lock was followed by one of unlock, the lock is free. *)
Theorem mutex_exclusion r n sched s :
  Forall (fun tc => mutex_choice (snd tc) = true) sched -> run r sched (lock_init 0 n) = Some s ->
  (forall t u, 0 < held t sched s -> 0 < held u sched s -> t = u) /\
  (forall t, 0 < held t sched s -> lock s = 1 /\ holder s = psid t) /\
  (forall t, 0 <= held t sched s /\ pcs s !! t <> Some Died) /\
  ((forall t p, pcs s !! t = Some p -> (p = Held \/ exists x, p = Idle x) /\ balance t sched = 0) -> lock s = 0 /\ holder s = 0).
Proof.
  intros Hf Hrun. pose proof (run_excl _ _ _ _ (init_excl r n) Hf Hrun) as Hex.
  assert (Hfl : flat r (lock_init 0 n)) by (intros _ t p E; apply lookup_replicate in E as [-> _]; done).
  pose proof (run_balanced _ _ _ _ _ (init_excl r n) Hfl (init_balanced r n) Hf Hrun) as Hb.
  pose proof (ex_lock _ _ Hex) as Hl. pose proof (ex_one _ _ Hex) as H1.
  assert (Hheld : forall t, 0 <= held t sched s /\ (0 < held t sched s -> exists p, pcs s !! t = Some p /\ own p = true /\ holds p = true)).
  { intros t. specialize (Hb t). cbv beta in Hb. rewrite Z.add_0_l in Hb. unfold held. rewrite Hb. destruct (pcs s !! t) as [p|] eqn:Ep; cbn; [|lia].
    pose proof (ex_depth _ _ Hex t p Ep) as Hd. pose proof (ex_pc _ _ Hex t p Ep) as Hm.
    pose proof (fun E => run_flat _ _ _ _ Hfl Hrun E t p Ep) as Hn.
    destruct p; cbn in *; try lia; try discriminate Hm; destruct r; try specialize (Hd eq_refl eq_refl); try (destruct (Hn eq_refl eq_refl));
      (split; [lia | intros; eexists; split; [reflexivity | done]]). }
  split_and!.
  - intros t u Ht Hu. destruct (proj2 (Hheld t) Ht) as (p & Ep & Hp & _), (proj2 (Hheld u) Hu) as (q & Eq & Hq & _).
    eapply (nthreads_unique own (pcs s) t u); eauto; lia.
  - intros t Ht. destruct (proj2 (Hheld t) Ht) as (p & Ep & Hp & Hh). pose proof (nthreads_pos own (pcs s) t p Ep Hp). split; [lia|].
    apply (ex_holder _ _ Hex t p Ep). done.
  - intros t. split; [apply Hheld|]. intros Ht. pose proof (ex_pc _ _ Hex t _ Ht). discriminate.
  - intros Hq. assert (Hidle : forall t p, pcs s !! t = Some p -> exists x, p = Idle x).
    { intros t p Ep. destruct (Hq t p Ep) as [[-> | ?] Hz]; [|done]. specialize (Hb t). rewrite Ep in Hb. cbn in Hb.
      pose proof (ex_depth _ _ Hex t Held Ep eq_refl). destruct r; [specialize (H eq_refl)|]; lia. }
    split.
    + rewrite Hl. apply nthreads_none. intros t p Ep. destruct (Hidle t p Ep) as [x ->]. done.
    + destruct (ex_range _ _ Hex) as [? | (t & p & Ep & Hh)]; [done|]. apply (ex_holder _ _ Hex t p Ep) in Hh.
      destruct (Hidle t p Ep) as [x ->]. discriminate.
Qed.

(** ** Runs *)

(** Thread 0 locks; thread 1 finds the lock taken and goes to sleep; thread 0
    unlocks and is about to look for waiters. *)
Definition contend : list (nat * choice) :=
  [(0, CallLock); (0, Go); (0, Go); (0, Go);
   (1, CallLock); (1, Go); (1, Go); (1, Go); (1, Go); (1, Go); (1, Go);
   (0, CallUnlock); (0, Go); (0, Go); (0, Go)]%nat.

Definition contended : state :=
  Eval vm_compute in default (lock_init 0 2) (run false contend (lock_init 0 2)).

Lemma contended_run : run false contend (lock_init 0 2) = Some contended.
Proof. vm_compute. reflexivity. Qed.

Lemma no_lost_wakeup_witness :
  lock contended = 0 /\ wait_list contended = [1%nat] /\
  exists u p, pcs contended !! u = Some p /\ awake u p contended.
Proof.
  split; [reflexivity|]. split; [reflexivity|].
  destruct (no_lost_wakeup false 0 2 contend contended contended_run) as (u & p & E & Hu & _);
    [reflexivity | discriminate |]. exists u, p. exact (conj E Hu).
Defined.

(** A recursive mutex is locked twice and unlocked once: still held. *)
Definition nest : list (nat * choice) :=
  [(0, CallLock); (0, Go); (0, Go); (0, Go); (0, Go); (0, Go); (0, CallLock); (0, Go); (0, CallUnlock); (0, Go)]%nat.
Definition nested : state := Eval vm_compute in default (lock_init 0 2) (run true nest (lock_init 0 2)).

Lemma mutex_exclusion_witness : held 0 nest nested = 1 /\ lock nested = 1 /\ forall u, 0 < held u nest nested -> 0%nat = u.
Proof.
  assert (H0 : 0 < held 0 nest nested) by reflexivity.
  destruct (mutex_exclusion true 2 nest nested) as (H1 & H2 & _); [repeat constructor | vm_compute; reflexivity|].
  split; [reflexivity|]. split; [apply (H2 0%nat H0)|]. intros u Hu. exact (H1 0%nat u H0 Hu).
Defined.
