(* ===== verification/RwLock.v ===== *)
(** * Readers-writer locks

    Model of rwlock_t of src/lib/impl/lock.c, as a transition system of any
    number of threads on one lock, in the way of [Lock]: every atomic
    operation is a step, the wait lock is taken and released in steps, and
    memory is sequentially consistent. *)

From S2P Require Import Prelude.

Definition RW_WRITER : Z := 2 ^ 30.
Definition RW_PENDING : Z := 2 ^ 31.
Definition RW_READERS : Z := RW_WRITER - 1.

(** Program points.  The argument of [RTry] is the local copy of the word;
    its flag says that the thread is on the slow path, with the wait lock. *)
Inductive pc :=
| Idle | Died
(* rwlock_read_lock() *)
| RLoad (slow : bool) | RTry (slow : bool) (st : Z)
| RSpin | RGotUnlock | REnqueue | RSleepUnlock | RSleep | Reading
(* rwlock_read_unlock() *)
| RWakeSpin | RWakeLoad | RWake | RWakeUnlock
(* rwlock_write_lock() *)
| WCas | WSpin | WCount | WGate | WTry | WEnqueue | WSleepUnlock | WSleep | WSpinAgain
| WUncount | WClear | WGotUnlock | Writing
(* rwlock_write_unlock() *)
| USpin | UClear | UDecide | UWakeWriter | UWakeReaders | UUnlock.

Inductive choice := Go | Spurious | CallRead | CallWrite | CallUnlock | Woken.

Record state := State {
  word : Z;
  writers_waiting : Z;
  reader_wait_list : list nat;
  writer_wait_list : list nat;
  wait_lock : option nat;
  pcs : list pc
}.

Definition goto (t : nat) (p : pc) (s : state) : state :=
  State (word s) (writers_waiting s) (reader_wait_list s) (writer_wait_list s) (wait_lock s)
    (<[t := p]> (pcs s)).
Definition set_word (w : Z) (s : state) : state :=
  State w (writers_waiting s) (reader_wait_list s) (writer_wait_list s) (wait_lock s) (pcs s).
Definition add_writers (d : Z) (s : state) : state :=
  State (word s) (writers_waiting s + d) (reader_wait_list s) (writer_wait_list s) (wait_lock s) (pcs s).
Definition set_readers (l : list nat) (s : state) : state :=
  State (word s) (writers_waiting s) l (writer_wait_list s) (wait_lock s) (pcs s).
Definition set_writers (l : list nat) (s : state) : state :=
  State (word s) (writers_waiting s) (reader_wait_list s) l (wait_lock s) (pcs s).
Definition set_wait_lock (o : option nat) (s : state) : state :=
  State (word s) (writers_waiting s) (reader_wait_list s) (writer_wait_list s) o (pcs s).

Definition enter (t : nat) (p : pc) (s : state) : option state :=
  match wait_lock s with
  | None => Some (goto t p (set_wait_lock (Some t) s))
  | Some _ => None
  end.
Definition leave (t : nat) (p : pc) (s : state) : option state :=
  Some (goto t p (set_wait_lock None s)).

(** The gates readers stop at. *)
Definition closed (st : Z) : bool := nz (Z.land st (Z.lor RW_WRITER RW_PENDING)).

(** One pass of the loop of rwlock_try_read(); [weak]: the exchange fails
    spuriously. *)
Definition try_read (t : nat) (slow : bool) (st : Z) (weak : bool) (s : state) : state :=
  if closed st then goto t (if slow then REnqueue else RSpin) s
  else if Z.land st RW_READERS =? RW_READERS then goto t Died s
  else if (word s =? st) && negb weak
  then goto t (if slow then RGotUnlock else Reading) (set_word (st + 1) s)
  else goto t (RTry slow (word s)) s.

Definition step (t : nat) (c : choice) (s : state) : option state :=
  p ← pcs s !! t;
  match p, c with
  | Idle, CallRead => Some (goto t (RLoad false) s)
  | Idle, CallWrite => Some (goto t WCas s)
  | RLoad slow, Go => Some (goto t (RTry slow (word s)) s)
  | RTry slow st, Go => Some (try_read t slow st false s)
  | RTry slow st, Spurious => Some (try_read t slow st true s)
  | RSpin, Go => enter t (RLoad true) s
  | RGotUnlock, Go => leave t Reading s
  | REnqueue, Go => Some (goto t RSleepUnlock (set_readers (reader_wait_list s ++ [t]) s))
  | RSleepUnlock, Go => leave t RSleep s
  | RSleepUnlock, Woken | RSleep, Woken =>
      Some (set_readers (filter (fun u => u <> t) (reader_wait_list s)) s)
  | RSleep, Go => if bool_decide (t ∈ reader_wait_list s) then None else Some (goto t RSpin s)
  | Reading, CallUnlock =>
      let old := word s in
      Some (goto t (if negb (old =? Z.lor RW_PENDING 1) then Idle else RWakeSpin) (set_word (u32 (old - 1)) s))
  | RWakeSpin, Go => enter t RWakeLoad s
  | RWakeLoad, Go => Some (goto t (if word s =? RW_PENDING then RWake else RWakeUnlock) s)
  | RWake, Go => Some (goto t RWakeUnlock (set_writers (tail (writer_wait_list s)) s))
  | RWakeUnlock, Go => leave t Idle s
  | WCas, Go => Some (if word s =? 0 then goto t Writing (set_word RW_WRITER s) else goto t WSpin s)
  | WSpin, Go => enter t WCount s
  | WCount, Go => Some (goto t WGate (add_writers 1 s))
  | WGate, Go => Some (goto t WTry (set_word (Z.lor (word s) RW_PENDING) s))
  | WTry, Go =>
      Some (if word s =? RW_PENDING
            then goto t WUncount (set_word (Z.lor RW_PENDING RW_WRITER) s)
            else goto t WEnqueue s)
  | WEnqueue, Go => Some (goto t WSleepUnlock (set_writers (writer_wait_list s ++ [t]) s))
  | WSleepUnlock, Go => leave t WSleep s
  | WSleepUnlock, Woken | WSleep, Woken =>
      Some (set_writers (filter (fun u => u <> t) (writer_wait_list s)) s)
  | WSleep, Go => if bool_decide (t ∈ writer_wait_list s) then None else Some (goto t WSpinAgain s)
  | WSpinAgain, Go => enter t WTry s
  | WUncount, Go =>
      let s := add_writers (-1) s in
      Some (goto t (if writers_waiting s =? 0 then WClear else WGotUnlock) s)
  | WClear, Go => Some (goto t WGotUnlock (set_word (Z.ldiff (word s) RW_PENDING) s))
  | WGotUnlock, Go => leave t Writing s
  | Writing, CallUnlock => Some (goto t USpin s)
  | USpin, Go => enter t UClear s
  | UClear, Go => Some (goto t UDecide (set_word (Z.ldiff (word s) RW_WRITER) s))
  | UDecide, Go => Some (goto t (if 0 <? writers_waiting s then UWakeWriter else UWakeReaders) s)
  | UWakeWriter, Go => Some (goto t UUnlock (set_writers (tail (writer_wait_list s)) s))
  | UWakeReaders, Go =>
      Some (match reader_wait_list s with
            | [] => goto t UUnlock s
            | _ :: l => set_readers l s
            end)
  | UUnlock, Go => leave t Idle s
  | _, _ => None
  end.

Fixpoint run (sched : list (nat * choice)) (s : state) : option state :=
  match sched with
  | [] => Some s
  | (t, c) :: rest => s' ← step t c s; run rest s'
  end.

Definition rwlock_init (n : nat) : state := State 0 0 [] [] None (replicate n Idle).
