(* ===== verification/RwLockProof.v ===== *)
(** * Readers-writer locks: exclusion and wakeups

    The invariant of the transition system [RwLock], by induction on runs:
    the word counts the owners, writers exclude, and no wakeup of a writer or
    of the readers is lost. *)

From S2P Require Import Prelude Threads RwLock.

(** ** The word: 30 bits of readers below the two flags *)

Definition low (r : Z) : Prop := 0 <= r < 2 ^ 30.

(** The word of [r] readers, [w] writers and the gate [p]. *)
Definition enc (r w : Z) (p : bool) : Z := r + 2 ^ 30 * (w + 2 * b2z p).

Lemma enc_closed r w p : low r -> w = 0 \/ w = 1 -> closed (enc r w p) = true <-> w = 1 \/ p = true.
Proof.
  intros Hr [-> | ->]; unfold closed, nz, enc; change (Z.lor RW_WRITER RW_PENDING) with (Z.shiftl 3 30);
    rewrite field_land_high by done; destruct p; cbn; split; (tauto || intuition discriminate).
Qed.

Lemma enc_readers r w p : low r -> Z.land (enc r w p) RW_READERS = r.
Proof.
  intros Hr. unfold enc. change RW_READERS with (Z.ones 30). unfold low in Hr.
  rewrite Z.land_ones, (Z.mul_comm (2 ^ 30)), Z_mod_plus_full, Z.mod_small by lia. done.
Qed.

Lemma enc_gate r w p : low r -> w = 0 \/ w = 1 -> Z.lor (enc r w p) RW_PENDING = enc r w true.
Proof.
  intros Hr [-> | ->]; unfold enc; change RW_PENDING with (Z.shiftl 2 30); rewrite field_lor_high by done;
    destruct p; reflexivity.
Qed.

Lemma enc_open r w p : low r -> w = 0 \/ w = 1 -> Z.ldiff (enc r w p) RW_PENDING = enc r w false.
Proof.
  intros Hr [-> | ->]; unfold enc; change RW_PENDING with (Z.shiftl 2 30); rewrite field_ldiff_high by done;
    destruct p; reflexivity.
Qed.

Lemma enc_release r p : low r -> Z.ldiff (enc r 1 p) RW_WRITER = enc r 0 p.
Proof.
  intros Hr; unfold enc; change RW_WRITER with (Z.shiftl 1 30); rewrite field_ldiff_high by done;
    destruct p; reflexivity.
Qed.

(** ** Classes of program points *)

(** Counted in the low bits of the word. *)
Definition rown (p : pc) : bool := match p with RGotUnlock | Reading => true | _ => false end.
(** Owning the writer flag. *)
Definition wown (p : pc) : bool :=
  match p with WUncount | WClear | WGotUnlock | Writing | USpin | UClear => true | _ => false end.
(** Keeping the gate shut. *)
Definition gated (p : pc) : bool :=
  match p with
  | WTry | WEnqueue | WSleepUnlock | WSleep | WSpinAgain | WUncount | WClear => true
  | _ => false
  end.
(** Counted in [writers_waiting]. *)
Definition counted (p : pc) : bool :=
  match p with
  | WGate | WTry | WEnqueue | WSleepUnlock | WSleep | WSpinAgain | WUncount => true
  | _ => false
  end.
(** Holding the wait lock. *)
Definition inside (p : pc) : bool :=
  match p with
  | RLoad slow | RTry slow _ => slow
  | RGotUnlock | REnqueue | RSleepUnlock | RWakeLoad | RWake | RWakeUnlock
  | WCount | WGate | WTry | WEnqueue | WSleepUnlock | WUncount | WClear | WGotUnlock
  | UClear | UDecide | UWakeWriter | UWakeReaders | UUnlock => true
  | _ => false
  end.

Abbreviation readers s := (nthreads rown (pcs s)).
Abbreviation writers s := (nthreads wown (pcs s)).
Abbreviation gatekeepers s := (nthreads gated (pcs s)).

(** About to take the lock as a writer, or to wake one that sleeps. *)
Definition awake (t : nat) (p : pc) (s : state) : Prop :=
  match p with
  | WTry | WSpinAgain | RWakeSpin | RWakeLoad | RWake | UDecide | UWakeWriter => True
  | WSleep => t ∉ writer_wait_list s
  | _ => False
  end.
Definition someone_awake (s : state) : Prop := exists u p, pcs s !! u = Some p /\ awake u p s.

(** A writer sleeps, or has decided to. *)
Definition pending (s : state) : Prop :=
  writer_wait_list s <> [] \/ exists t, pcs s !! t = Some WEnqueue.

(** A thread in the course of an unlock that will wake every reader. *)
Definition waking_readers (s : state) : Prop :=
  exists u, pcs s !! u = Some UDecide \/ pcs s !! u = Some UWakeReaders.

(** What a thread inside of the wait lock knows. *)
Definition knows (p : pc) (s : state) : Prop :=
  match p with
  | RTry true st => closed st = true -> 0 < writers s + gatekeepers s
  | REnqueue => 0 < writers s + gatekeepers s
  | WClear => writers_waiting s = 0
  | _ => True
  end.

(** No thread dies, and no copy of the word makes one die. *)
Definition fine (p : pc) : Prop :=
  match p with Died => False | RTry _ st => Z.land st RW_READERS <> RW_READERS | _ => True end.

(** The invariant of every run. *)
Record ok (s : state) : Prop := {
  ok_size : Z.of_nat (length (pcs s)) < RW_READERS;
  ok_fine t p : pcs s !! t = Some p -> fine p;
  ok_word : word s = enc (readers s) (writers s) (0 <? gatekeepers s);
  ok_writers : writers s <= 1;
  ok_excl : writers s = 1 -> readers s = 0;
  ok_counted : writers_waiting s = nthreads counted (pcs s);
  ok_inside t p : pcs s !! t = Some p -> inside p = true <-> wait_lock s = Some t;
  ok_holder t : wait_lock s = Some t -> exists p, pcs s !! t = Some p;
  ok_rlist t : t ∈ reader_wait_list s -> pcs s !! t = Some RSleepUnlock \/ pcs s !! t = Some RSleep;
  ok_wlist t : t ∈ writer_wait_list s -> pcs s !! t = Some WSleepUnlock \/ pcs s !! t = Some WSleep;
  ok_wnodup : NoDup (writer_wait_list s);
  ok_knows t p : pcs s !! t = Some p -> knows p s;
  ok_wlost : readers s = 0 -> writers s = 0 -> pending s -> someone_awake s;
  ok_rlost : writers s = 0 -> gatekeepers s = 0 -> reader_wait_list s <> [] -> waking_readers s
}.

(** ** Frames: what a step that moves one thread must show *)

Lemma inside_one s t u p q :
  ok s -> pcs s !! t = Some p -> pcs s !! u = Some q -> inside p = true -> inside q = true -> t = u.
Proof.
  intros Hok Et Eu Hp Hq. apply (ok_inside s Hok t p Et) in Hp. apply (ok_inside s Hok u q Eu) in Hq. congruence.
Qed.

Lemma knows_inside p s : inside p = true \/ knows p s.
Proof. destruct p; try destruct slow; cbn; auto. Qed.

Lemma rw_move_ok s s' t p p' :
  ok s -> pcs s !! t = Some p -> pcs s' = <[t := p']> (pcs s) ->
  word s' = enc (readers s') (writers s') (0 <? gatekeepers s') ->
  fine p' -> writers s' <= 1 -> (writers s' = 1 -> readers s' = 0) ->
  writers_waiting s' - writers_waiting s = b2z (counted p') - b2z (counted p) ->
  (inside p' = true <-> wait_lock s' = Some t) ->
  (forall u, u <> t -> wait_lock s' = Some u <-> wait_lock s = Some u) ->
  (forall u, u ∈ reader_wait_list s' -> u <> t -> u ∈ reader_wait_list s) ->
  (t ∈ reader_wait_list s' -> p' = RSleepUnlock \/ p' = RSleep) ->
  (forall u, u ∈ writer_wait_list s' -> u <> t -> u ∈ writer_wait_list s) ->
  (t ∈ writer_wait_list s' -> p' = WSleepUnlock \/ p' = WSleep) ->
  NoDup (writer_wait_list s') ->
  knows p' s' ->
  (forall u, wait_lock s' = Some u -> u <> t ->
     writers_waiting s' = writers_waiting s /\ writers s + gatekeepers s <= writers s' + gatekeepers s') ->
  (readers s' = 0 -> writers s' = 0 -> pending s' -> someone_awake s') ->
  (writers s' = 0 -> gatekeepers s' = 0 -> reader_wait_list s' <> [] -> waking_readers s') ->
  ok s'.
Proof.
  intros Hok Ep Ep' Ew Ef Ewr Ex Ec Ei Eo Hr Hrt Hw Hwt Hn Hk Hko Hwl Hrl.
  assert (Hlk : forall u, pcs s' !! u = if decide (u = t) then Some p' else pcs s !! u).
  { intros u. rewrite Ep', (lookup_goto _ _ p) by done. done. }
  assert (Hin : forall u q, u <> t -> pcs s !! u = Some q -> inside q = true <-> wait_lock s' = Some u).
  { intros u q Hne Hu. rewrite Eo by done. apply (ok_inside s Hok); done. }
  split; auto.
  - rewrite Ep', length_insert. apply Hok.
  - intros u q. rewrite Hlk. destruct (decide (u = t)); [intros; simplify_eq; auto | apply (ok_fine s Hok)].
  - rewrite Ep', (nthreads_insert _ _ _ p), <- (ok_counted s Hok) by done. lia.
  - intros u q. rewrite Hlk. destruct (decide (u = t)) as [-> | Hne]; [intros; simplify_eq; auto | auto].
  - intros u Hu. rewrite Hlk. destruct (decide (u = t)); [eauto|]. apply (ok_holder s Hok), Eo; auto.
  - intros u Hu. rewrite Hlk. destruct (decide (u = t)) as [-> | Hne]; [destruct (Hrt Hu); subst; auto|].
    apply (ok_rlist s Hok); auto.
  - intros u Hu. rewrite Hlk. destruct (decide (u = t)) as [-> | Hne]; [destruct (Hwt Hu); subst; auto|].
    apply (ok_wlist s Hok); auto.
  - intros u q. rewrite Hlk. destruct (decide (u = t)) as [-> | Hne]; [intros; simplify_eq; auto|].
    intros Hu. destruct (knows_inside q s') as [Hq | Hq]; [|done].
    destruct (Hko u) as [E1 E2]; [apply (Hin u q); auto | done |].
    pose proof (ok_knows s Hok u q Hu) as Hkn. destruct q; try destruct slow; cbn in *; auto; try lia.
    intros Hc. specialize (Hkn Hc). lia.
Qed.

Lemma wlost_frame s s' t p p' :
  ok s -> pcs s !! t = Some p -> pcs s' = <[t := p']> (pcs s) ->
  (readers s' = 0 -> writers s' = 0 -> pending s' -> readers s = 0 /\ writers s = 0 /\ pending s) ->
  (forall u, u <> t -> u ∈ writer_wait_list s' -> u ∈ writer_wait_list s) ->
  (awake t p s -> readers s' = 0 -> writers s' = 0 -> pending s' -> someone_awake s') ->
  readers s' = 0 -> writers s' = 0 -> pending s' -> someone_awake s'.
Proof.
  intros Hok Ep Ep' Hpre Hsub Hme E0 E1 Hp. destruct (Hpre E0 E1 Hp) as (E0' & E1' & Hp').
  destruct (ok_wlost s Hok E0' E1' Hp') as (u & q & Eu & Hu). destruct (decide (u = t)) as [-> | Hn].
  - apply Hme; auto. congruence.
  - exists u, q. rewrite Ep', (lookup_goto _ _ p), decide_False by done. split; [done|].
    destruct q; auto. cbn in *. intros Hin. apply Hu. auto.
Qed.

Lemma rw_pending_frame s s' t p p' :
  pending s' -> pcs s !! t = Some p -> pcs s' = <[t := p']> (pcs s) -> p' <> WEnqueue ->
  (writer_wait_list s' <> [] -> writer_wait_list s <> []) -> pending s.
Proof.
  intros [Hw | (u & Hu)] Ep Ep' Hne Hl; [left; auto|]. right.
  rewrite Ep', (lookup_goto _ _ p) in Hu by done. destruct (decide (u = t)); [simplify_eq | eauto].
Qed.

(** A pending writer keeps the gate and is counted. *)
Lemma pending_counts s : ok s -> pending s -> 0 < gatekeepers s /\ 0 < writers_waiting s.
Proof.
  intros Hok Hp. rewrite (ok_counted s Hok). destruct Hp as [Hl | (u & Hu)].
  - destruct (writer_wait_list s) as [|h l] eqn:El; [done|].
    destruct (ok_wlist s Hok h) as [E | E]; [rewrite El; left | |]; split; eapply nthreads_pos; eauto.
  - split; eapply nthreads_pos; eauto.
Qed.

(** Waking the first of the writers leaves someone awake. *)
Lemma rw_wake_someone s t p p' :
  ok s -> pcs s !! t = Some p -> inside p = true -> p <> WEnqueue -> p <> WSleepUnlock -> p' <> WEnqueue ->
  let s' := goto t p' (set_writers (tail (writer_wait_list s)) s) in pending s' -> someone_awake s'.
Proof.
  intros Hok Ep Hin He Hsl He' s' Hpend. subst s'.
  assert (Hnil : writer_wait_list s <> []).
  { assert (pending s) as [Hl | (u & Hu)]; [|done|].
    - apply (rw_pending_frame s _ t p p' Hpend); auto. cbn. intros Hl E. rewrite E in Hl. done.
    - pose proof (inside_one s t u p _ Hok Ep Hu Hin eq_refl). subst u. congruence. }
  destruct (writer_wait_list s) as [|h l] eqn:El in Hnil; [done|].
  destruct (ok_wlist s Hok h) as [Hk | Hk]; [rewrite El; left | |].
  { pose proof (inside_one s t h p _ Hok Ep Hk Hin eq_refl). subst h. congruence. }
  assert (h <> t) by (intros ->; rewrite Ep in Hk; simplify_eq).
  exists h, WSleep. cbn. rewrite (lookup_goto _ _ p), decide_False by done. split; [done|].
  cbn. pose proof (ok_wnodup s Hok) as Hnd. rewrite El in *. inversion Hnd; auto.
Qed.

Lemma rw_awake_self s t p : pcs s !! t = Some p -> awake t p s -> someone_awake s.
Proof. intros; exists t, p; auto. Qed.

Lemma enc_eq r w p r' w' p' : r = r' -> w = w' -> p = p' -> enc r w p = enc r' w' p'.
Proof. congruence. Qed.

Lemma enc_add r w p d : enc r w p + d = enc (r + d) w p.
Proof. unfold enc. lia. Qed.

Lemma rlost_frame s s' t p p' :
  ok s -> pcs s !! t = Some p -> pcs s' = <[t := p']> (pcs s) ->
  (writers s' = 0 -> gatekeepers s' = 0 -> writers s = 0 /\ gatekeepers s = 0) ->
  (reader_wait_list s' <> [] -> reader_wait_list s <> []) ->
  p <> UDecide -> p <> UWakeReaders ->
  writers s' = 0 -> gatekeepers s' = 0 -> reader_wait_list s' <> [] -> waking_readers s'.
Proof.
  intros Hok Ep Ep' Hc Hl H1 H2 E1 E2 Hr. destruct (Hc E1 E2) as [E1' E2'].
  destruct (ok_rlost s Hok E1' E2' (Hl Hr)) as [u Hu]. exists u. rewrite Ep', (lookup_goto _ _ p) by done.
  destruct (decide (u = t)) as [-> | Hn]; [rewrite Ep in Hu; destruct Hu; simplify_eq | done].
Qed.

(** ** The cases of a step *)

Ltac pcbn := cbn [word writers_waiting reader_wait_list writer_wait_list wait_lock pcs goto set_word
  add_writers set_readers set_writers set_wait_lock b2z rown wown gated counted inside].
Ltac flags := first [reflexivity | apply eq_true_iff_eq; rewrite !Z.ltb_lt; lia].
Ltac counts Ep := pcbn; rewrite ?(nthreads_insert _ _ _ _ _ Ep); pcbn.

(** A step after which a writer would be pending only as before. *)
Ltac no_pending Ep :=
  let E0 := fresh "E0" in let E1 := fresh "E1" in let Hp := fresh "Hp" in
  counts Ep; intros E0 E1 Hp; exfalso;
  apply rw_pending_frame with (2 := Ep) (3 := eq_refl) in Hp; [|discriminate | exact (fun x => x)];
  apply pending_counts in Hp; [|assumption].

Ltac in_list lem t Ep :=
  let Hu := fresh in
  cbn; intros Hu; try done; try apply tail_sub in Hu;
  destruct (lem t Hu) as [?E | ?E]; rewrite Ep in *; simplify_eq; auto.

Ltac wlost_now Ep t :=
  first
    [ solve [counts Ep; intros; exfalso; lia]
    | solve [intros _ _ _; eapply (rw_awake_self _ t); pcbn;
             [rewrite (lookup_goto _ _ _ _ _ Ep), decide_True by done; reflexivity | cbn; auto]] ].
Ltac wlost_far Hok Ep t :=
  solve [match goal with |- _ -> _ -> pending ?s' -> _ => eapply (wlost_frame _ s' t _ _ Hok Ep) end;
    [ reflexivity
    | counts Ep; let E0 := fresh in let E1 := fresh in let Hp := fresh in intros E0 E1 Hp; split_and!;
      [lia | lia | apply (rw_pending_frame _ _ t _ _ Hp Ep eq_refl); [discriminate | exact (fun x => x)]]
    | pcbn; auto
    | cbn; tauto ]].
Ltac rlost_far Hok Ep t :=
  solve [match goal with |- _ -> _ -> reader_wait_list ?s' <> [] -> _ => eapply (rlost_frame _ s' t _ _ Hok Ep) end;
    [ reflexivity | counts Ep; lia | exact (fun x => x) | discriminate | discriminate ]].
Ltac spin Hi :=
  pcbn; first
    [ exact Hi | reflexivity | split; discriminate | split; reflexivity
    | intros ? ?; first [reflexivity | rewrite (proj1 Hi eq_refl) | match goal with E : wait_lock _ = None |- _ => rewrite E end];
      split; congruence ].
Ltac others Hi Ep :=
  counts Ep; first
    [ solve [intros ? _ _; split; lia]
    | solve [let E := fresh in intros ? E ?; exfalso; try rewrite (proj1 Hi eq_refl) in E; congruence] ].

Ltac moves Hok Ep t :=
  let Hi := fresh "Hi" in
  pose proof (ok_inside _ Hok t _ Ep) as Hi; cbn [inside] in Hi;
  eapply rw_move_ok; [exact Hok | exact Ep | reflexivity |..];
  [ try solve [counts Ep; rewrite ?(ok_word _ Hok); apply enc_eq; [lia | lia | flags]]
  | try exact I | try solve [counts Ep; lia] | try solve [counts Ep; lia]
  | pcbn; try lia
  | try solve [spin Hi]
  | try solve [spin Hi]
  | pcbn; try solve [auto]
  | try solve [in_list (ok_rlist _ Hok) t Ep]
  | pcbn; try solve [auto using tail_sub]
  | try solve [in_list (ok_wlist _ Hok) t Ep]
  | first [exact (ok_wnodup _ Hok) | apply nodup_tail, (ok_wnodup _ Hok) | idtac]
  | try exact I
  | try solve [others Hi Ep]
  | try solve [wlost_now Ep t | wlost_far Hok Ep t]
  | try solve [counts Ep; intros; exfalso; lia | rlost_far Hok Ep t] ].

Section Facts.
Variables (s : state).
Hypothesis Hok : ok s.

Lemma readers_low : low (readers s).
Proof.
  pose proof (ok_size s Hok). pose proof (nthreads_le rown (pcs s)). pose proof (nthreads_nonneg rown (pcs s)).
  unfold low, RW_READERS, RW_WRITER in *. lia.
Qed.

Lemma writers_bit : writers s = 0 \/ writers s = 1.
Proof. pose proof (ok_writers s Hok). pose proof (nthreads_nonneg wown (pcs s)). lia. Qed.

Lemma word_closed : closed (word s) = true <-> 0 < writers s + gatekeepers s.
Proof.
  rewrite (ok_word s Hok), (enc_closed _ _ _ readers_low writers_bit), Z.ltb_lt.
  pose proof (nthreads_nonneg gated (pcs s)). pose proof writers_bit. lia.
Qed.

Lemma copy_fine slow : fine (RTry slow (word s)).
Proof.
  cbn [fine]. rewrite (ok_word s Hok), (enc_readers _ _ _ readers_low).
  pose proof (ok_size s Hok). pose proof (nthreads_le rown (pcs s)). lia.
Qed.

End Facts.

Ltac bounds t s Hok Ep :=
  pose proof (ok_writers s Hok); pose proof (ok_excl s Hok);
  let Hlow := fresh "Hlow" in pose proof (readers_low s Hok) as Hlow; unfold low in Hlow;
  pose proof (nthreads_nonneg wown (pcs s)); pose proof (nthreads_nonneg gated (pcs s));
  let F P := (try pose proof (nthreads_pos P (pcs s) t _ Ep eq_refl)) in F rown; F wown; F gated.

Section Cases.
Variables (t : nat) (s : state).
Hypothesis Hok : ok s.
#[local] Abbreviation readers_low := (readers_low s Hok).
#[local] Abbreviation writers_bit := (writers_bit s Hok).
#[local] Abbreviation word_closed := (word_closed s Hok).
#[local] Abbreviation copy_fine := (copy_fine s Hok).

(** A pass of the loop of the readers. *)
Lemma read_ok slow st weak :
  pcs s !! t = Some (RTry slow st) -> ok (try_read t slow st weak s).
Proof.
  intros Ep. pose proof (ok_fine s Hok t _ Ep) as Hf. pose proof (ok_knows s Hok t _ Ep) as Hk.
  bounds t s Hok Ep. unfold try_read. destruct (closed st) eqn:Ec.
  { destruct slow; moves Hok Ep t. cbn in Hk |- *. counts Ep. specialize (Hk Ec). lia. }
  rewrite (proj2 (Z.eqb_neq _ _) Hf). case_if; breflect; cycle 1.
  { destruct slow; moves Hok Ep t; try apply copy_fine. cbn [knows]. rewrite word_closed. counts Ep. lia. }
  subst st. assert (Ho : ~ 0 < writers s + gatekeepers s) by (rewrite <- word_closed; congruence).
  destruct slow; moves Hok Ep t; counts Ep; rewrite (ok_word s Hok), enc_add; apply enc_eq; (lia || flags).
Qed.

Lemma rw_load_ok slow : pcs s !! t = Some (RLoad slow) -> ok (goto t (RTry slow (word s)) s).
Proof.
  intros Ep. bounds t s Hok Ep. destruct slow; moves Hok Ep t; try apply copy_fine.
  cbn [knows]. rewrite word_closed. counts Ep. lia.
Qed.

Lemma read_enqueue_ok :
  pcs s !! t = Some REnqueue -> ok (goto t RSleepUnlock (set_readers (reader_wait_list s ++ [t]) s)).
Proof.
  intros Ep. pose proof (ok_knows s Hok t _ Ep) as Hk. cbn in Hk. bounds t s Hok Ep. moves Hok Ep t.
  - intros u [Hu | ->%list_elem_of_singleton]%elem_of_app Hn; [auto | congruence].
  - cbn. auto.
Qed.

Lemma woken_reader_ok : ok (set_readers (filter (fun u => u <> t) (reader_wait_list s)) s).
Proof.
  destruct Hok. split; auto; cbn.
  - intros u Hu. apply list_elem_of_filter in Hu as [_ Hu]. auto.
  - intros E1 E2 Hr. apply ok_rlost0; auto. intros E. rewrite E in Hr. done.
Qed.

Lemma woken_writer_ok : ok (set_writers (filter (fun u => u <> t) (writer_wait_list s)) s).
Proof.
  destruct Hok. split; auto; cbn.
  - intros u Hu. apply list_elem_of_filter in Hu as [_ Hu]. auto.
  - apply NoDup_filter. done.
  - intros E1 E2 Hp. assert (Hp' : pending s).
    { destruct Hp as [Hp | Hp]; [left | right; exact Hp]. cbn in Hp. intros E. rewrite E in Hp. done. }
    destruct (ok_wlost0 E1 E2 Hp') as (u & q & Eu & Hu). exists u, q. split; [done|].
    destruct q; auto. cbn in *. intros Hin. apply list_elem_of_filter in Hin as [_ Hin]. auto.
Qed.

Lemma pending_word : word s = RW_PENDING <-> readers s = 0 /\ writers s = 0 /\ 0 < gatekeepers s.
Proof.
  rewrite (ok_word s Hok). pose proof readers_low as Hl. pose proof writers_bit. unfold low in Hl.
  unfold enc, RW_PENDING. destruct (0 <? gatekeepers s) eqn:E; breflect; cbn [b2z]; lia.
Qed.

Lemma last_reader_word : word s = Z.lor RW_PENDING 1 <-> readers s = 1 /\ writers s = 0 /\ 0 < gatekeepers s.
Proof.
  rewrite (ok_word s Hok). pose proof readers_low as Hl. pose proof writers_bit. unfold low in Hl.
  change (Z.lor RW_PENDING 1) with (2 ^ 31 + 1).
  unfold enc. destruct (0 <? gatekeepers s) eqn:E; breflect; cbn [b2z]; lia.
Qed.

Lemma read_unlock_ok :
  pcs s !! t = Some Reading ->
  ok (goto t (if negb (word s =? Z.lor RW_PENDING 1) then Idle else RWakeSpin) (set_word (u32 (word s - 1)) s)).
Proof.
  intros Ep. bounds t s Hok Ep.
  assert (E : u32 (word s - 1) = enc (readers s - 1) (writers s) (0 <? gatekeepers s)).
  { rewrite (ok_word s Hok), <- Z.add_opp_r, enc_add, u32_id; [done|]. unfold enc, UINT32_MOD.
    destruct (0 <? gatekeepers s); cbn [b2z]; lia. }
  rewrite E. clear E. case_if; breflect; moves Hok Ep t.
  no_pending Ep. rewrite last_reader_word in Heqb. lia.
Qed.

(** The last reader looks again with the wait lock held. *)
Lemma read_wake_ok :
  pcs s !! t = Some RWakeLoad -> word s <> RW_PENDING -> ok (goto t RWakeUnlock s).
Proof. intros Ep Hw. bounds t s Hok Ep. moves Hok Ep t. no_pending Ep. rewrite pending_word in Hw. lia. Qed.

Lemma rw_wake_ok p p' :
  pcs s !! t = Some p -> (p = RWake /\ p' = RWakeUnlock) \/ (p = UWakeWriter /\ p' = UUnlock) ->
  ok (goto t p' (set_writers (tail (writer_wait_list s)) s)).
Proof.
  intros Ep Hp. bounds t s Hok Ep. destruct Hp as [[-> ->] | [-> ->]]; moves Hok Ep t; intros _ _;
    eapply rw_wake_someone; eauto; discriminate.
Qed.

(** Writers. *)
Lemma write_fast_ok : pcs s !! t = Some WCas -> word s = 0 -> ok (goto t Writing (set_word RW_WRITER s)).
Proof.
  intros Ep Hw. bounds t s Hok Ep.
  assert (readers s = 0 /\ writers s = 0 /\ gatekeepers s = 0) as (E1 & E2 & E3).
  { rewrite (ok_word s Hok) in Hw. unfold enc in Hw. destruct (0 <? gatekeepers s) eqn:?; breflect; cbn [b2z] in Hw; lia. }
  moves Hok Ep t. counts Ep. rewrite E1, E2, E3. reflexivity.
Qed.

Lemma gate_ok : pcs s !! t = Some WGate -> ok (goto t WTry (set_word (Z.lor (word s) RW_PENDING) s)).
Proof.
  intros Ep. bounds t s Hok Ep. moves Hok Ep t. counts Ep.
  rewrite (ok_word s Hok), (enc_gate _ _ _ readers_low writers_bit). apply enc_eq; [lia | lia | symmetry; apply Z.ltb_lt; lia].
Qed.

Lemma write_try_ok :
  pcs s !! t = Some WTry ->
  ok (if word s =? RW_PENDING then goto t WUncount (set_word (Z.lor RW_PENDING RW_WRITER) s) else goto t WEnqueue s).
Proof.
  intros Ep. bounds t s Hok Ep. case_if; breflect; rewrite pending_word in *; moves Hok Ep t.
  counts Ep. replace (0 <? _) with true by (symmetry; apply Z.ltb_lt; lia).
  replace (readers s - 0 + 0) with 0 by lia. replace (writers s - 0 + 1) with 1 by lia. reflexivity.
Qed.

Lemma write_enqueue_ok :
  pcs s !! t = Some WEnqueue -> ok (goto t WSleepUnlock (set_writers (writer_wait_list s ++ [t]) s)).
Proof.
  intros Ep. bounds t s Hok Ep. assert (Hnt : t ∉ writer_wait_list s).
  { intros Hu. destruct (ok_wlist s Hok t Hu); congruence. }
  moves Hok Ep t.
  - intros u [Hu | ->%list_elem_of_singleton]%elem_of_app Hn; [auto | congruence].
  - cbn. auto.
  - cbn. apply NoDup_app. split_and!; [apply Hok | | apply NoDup_singleton].
    intros u Hu ->%list_elem_of_singleton. done.
  - eapply (wlost_frame s (goto t WSleepUnlock (set_writers (writer_wait_list s ++ [t]) s)) t _ _ Hok Ep).
    + reflexivity.
    + counts Ep. intros. split_and!; [lia | lia | right; eauto].
    + cbn. intros u Hn [Hu | ->%list_elem_of_singleton]%elem_of_app; [auto | congruence].
    + cbn. tauto.
Qed.

(** Under the wait lock the gate is kept by the writers that are counted. *)
Lemma counted_gated p :
  pcs s !! t = Some p -> inside p = true ->
  writers_waiting s - b2z (counted p) = gatekeepers s - b2z (gated p).
Proof.
  intros Ep Hi. rewrite (ok_counted s Hok). apply nthreads_diff with (t := t); [done|]. intros u q Hn Hu.
  assert (inside q = false) as Hq.
  { apply not_true_iff_false. intros Hq. apply Hn. symmetry. apply (inside_one s t u p q); auto. }
  destruct q; try discriminate Hq; reflexivity.
Qed.

Lemma uncount_ok :
  pcs s !! t = Some WUncount ->
  ok (goto t (if writers_waiting s + -1 =? 0 then WClear else WGotUnlock) (add_writers (-1) s)).
Proof.
  intros Ep. bounds t s Hok Ep. case_if; breflect; moves Hok Ep t; try (cbn; lia).
  pose proof (counted_gated _ Ep eq_refl) as Hc. cbn in Hc.
  counts Ep. rewrite (ok_word s Hok). apply enc_eq; (lia || flags).
Qed.

Lemma clear_ok :
  pcs s !! t = Some WClear -> ok (goto t WGotUnlock (set_word (Z.ldiff (word s) RW_PENDING) s)).
Proof.
  intros Ep. pose proof (ok_knows s Hok t _ Ep) as Hk. cbn in Hk. bounds t s Hok Ep. moves Hok Ep t.
  pose proof (counted_gated _ Ep eq_refl) as Hc. cbn in Hc.
  counts Ep. rewrite (ok_word s Hok), (enc_open _ _ _ readers_low writers_bit).
  apply enc_eq; [lia | lia | symmetry; apply Z.ltb_ge; lia].
Qed.

Lemma write_unlock_ok :
  pcs s !! t = Some UClear -> ok (goto t UDecide (set_word (Z.ldiff (word s) RW_WRITER) s)).
Proof.
  intros Ep. bounds t s Hok Ep. moves Hok Ep t.
  - assert (E : writers s = 1) by lia. pose proof readers_low as Hlow'.
    counts Ep. rewrite (ok_word s Hok), E, enc_release by done. apply enc_eq; (lia || flags).
  - intros _ _ _. exists t. cbn. rewrite (lookup_goto _ _ _ _ _ Ep), decide_True by done. auto.
Qed.

Lemma decide_ok :
  pcs s !! t = Some UDecide ->
  ok (goto t (if 0 <? writers_waiting s then UWakeWriter else UWakeReaders) s).
Proof.
  intros Ep. bounds t s Hok Ep. case_if; breflect; moves Hok Ep t.
  - pose proof (counted_gated _ Ep eq_refl) as Hc. cbn in Hc. counts Ep. intros. exfalso. lia.
  - no_pending Ep. lia.
  - intros _ _ _. exists t. cbn. rewrite (lookup_goto _ _ _ _ _ Ep), decide_True by done. auto.
Qed.

Lemma wake_readers_ok :
  pcs s !! t = Some UWakeReaders ->
  ok (match reader_wait_list s with [] => goto t UUnlock s | _ :: l => set_readers l s end).
Proof.
  intros Ep. bounds t s Hok Ep. destruct (reader_wait_list s) as [|h l] eqn:El.
  - moves Hok Ep t. cbn. rewrite El. done.
  - destruct Hok. split; auto; cbn.
    + intros u Hu. apply ok_rlist0. rewrite El. right. done.
    + intros _ _ _. exists t. auto.
Qed.
End Cases.

Create HintDb rwlock.
#[local] Hint Resolve rw_load_ok read_wake_ok write_fast_ok read_ok read_enqueue_ok woken_reader_ok woken_writer_ok read_unlock_ok rw_wake_ok gate_ok
  write_try_ok write_enqueue_ok uncount_ok clear_ok write_unlock_ok decide_ok wake_readers_ok : rwlock.

Lemma rw_step_ok t c s s' : ok s -> step t c s = Some s' -> ok s'.
Proof.
  intros Hok. unfold step. destruct (pcs s !! t) as [p|] eqn:Ep; [|discriminate]. cbn [mbind option_bind].
  destruct p; try (destruct slow); destruct c; try discriminate; intros E; unfold enter, leave in E.
  all: repeat match type of E with match ?x with _ => _ end = Some _ => destruct x eqn:?; try discriminate E end.
  all: injection E as <-; cbn zeta; try solve [eauto with rwlock].
  all: bounds t s Hok Ep; repeat case_if; breflect; eauto with rwlock; moves Hok Ep t.
Qed.

Lemma rw_init_ok n : Z.of_nat n < RW_READERS -> ok (rwlock_init n).
Proof.
  intros Hn. assert (Hid : forall t p, pcs (rwlock_init n) !! t = Some p -> p = Idle).
  { intros t p E. apply lookup_replicate in E as [-> _]. done. }
  split; cbn [pcs rwlock_init word writers_waiting wait_lock reader_wait_list writer_wait_list].
  1: rewrite length_replicate; done.
  all: rewrite ?nthreads_replicate by done; try done; try lia.
  - intros t p ->%Hid. exact I.
  - intros t p ->%Hid. split; discriminate.
  - intros t Ht. inversion Ht.
  - intros t Ht. inversion Ht.
  - constructor.
  - intros t p ->%Hid. exact I.
  - intros _ _ [Hp | (t & Hp)]; [done|]. apply Hid in Hp. discriminate.
Qed.

Lemma rw_run_ok sched s s' : ok s -> run sched s = Some s' -> ok s'.
Proof.
  revert s. induction sched as [|[t c] rest IH]; intros s Hok; cbn [run]; [intros; simplify_eq; auto|].
  destruct (step t c s) as [s1|] eqn:E; [|discriminate]. cbn. apply IH. eapply rw_step_ok; eauto.
Qed.

(** A thread that holds the wait lock can always go on. *)
Lemma rw_inside_steps s t p : pcs s !! t = Some p -> inside p = true -> exists s', step t Go s = Some s'.
Proof.
  intros Ep Hi. unfold step. rewrite Ep. cbn [mbind option_bind].
  destruct p; try discriminate; unfold leave; eauto.
Qed.

(** C21: in every run of fewer than 2^30 - 1 threads that lock for reading and
    for writing and unlock, at most one thread writes, none reads while one
    does, the low bits of the word count the threads that own it for reading,
    no thread dies, and while a writer sleeps the gate is shut to readers. *)
Theorem rwlock_exclusion n sched s :
  Z.of_nat n < RW_READERS -> run sched (rwlock_init n) = Some s ->
  (forall t u, pcs s !! t = Some Writing -> pcs s !! u = Some Writing -> t = u) /\
  (forall t u, pcs s !! t = Some Writing -> pcs s !! u <> Some Reading) /\
  Z.land (word s) RW_READERS = nthreads rown (pcs s) /\
  (forall t, pcs s !! t <> Some Died) /\
  (writer_wait_list s <> [] -> closed (word s) = true).
Proof.
  intros Hn Hrun. pose proof (rw_run_ok _ _ _ (rw_init_ok n Hn) Hrun) as Hok. pose proof (ok_writers s Hok) as Hw.
  split_and!.
  - intros t u Ht Hu. apply (nthreads_unique wown (pcs s) t u Writing Writing); auto.
  - intros t u Ht Hu. pose proof (nthreads_pos wown _ t _ Ht eq_refl). pose proof (nthreads_pos rown _ u _ Hu eq_refl).
    pose proof (ok_excl s Hok). lia.
  - rewrite (ok_word s Hok). apply enc_readers, readers_low, Hok.
  - intros t Ht. exact (ok_fine s Hok t _ Ht).
  - intros Hl. apply (word_closed s Hok). pose proof (pending_counts s Hok (or_introl Hl)) as [? _].
    pose proof (nthreads_nonneg wown (pcs s)). lia.
Qed.

(** C22: in every such run, when the word is free for the writers while one of
    them sleeps, some thread is awake that will take the lock for writing or
    wake a writer, and it or the holder of the wait lock can take a step; and
    when the gate is open while readers sleep, a thread that can take a step
    is in the middle of waking all of them. *)
Theorem rwlock_no_lost_wakeup n sched s :
  Z.of_nat n < RW_READERS -> run sched (rwlock_init n) = Some s ->
  (word s = RW_PENDING -> writer_wait_list s <> [] ->
   exists u p, pcs s !! u = Some p /\ awake u p s /\
     exists w s', step w Go s = Some s' /\ (w = u \/ wait_lock s = Some w)) /\
  (closed (word s) = false -> reader_wait_list s <> [] ->
   exists u s', (pcs s !! u = Some UDecide \/ pcs s !! u = Some UWakeReaders) /\ step u Go s = Some s').
Proof.
  intros Hn Hrun. pose proof (rw_run_ok _ _ _ (rw_init_ok n Hn) Hrun) as Hok. split.
  - intros (E1 & E2 & _)%(pending_word s Hok) Hl.
    destruct (ok_wlost s Hok E1 E2 (or_introl Hl)) as (u & p & Eu & Hu). exists u, p. split; [done|]. split; [done|].
    destruct (wait_lock s) as [w|] eqn:Ew.
    + destruct (ok_holder s Hok w Ew) as [q Eq].
      destruct (rw_inside_steps s w q Eq) as [s' Es]; [apply (ok_inside s Hok w q Eq); done|]. eauto.
    + exists u. unfold step. rewrite Eu. cbn [mbind option_bind]. unfold enter. rewrite Ew.
      destruct p; try (cbn in Hu; done); eauto. cbn in Hu. rewrite bool_decide_eq_false_2 by done. eauto.
  - intros Hc Hl. assert (~ 0 < writers s + gatekeepers s) by (rewrite <- (word_closed s Hok), Hc; done).
    pose proof (nthreads_nonneg wown (pcs s)). pose proof (nthreads_nonneg gated (pcs s)).
    destruct (ok_rlost s Hok) as [u Hu]; [lia | lia | done |]. exists u.
    destruct Hu as [Hu | Hu]; destruct (rw_inside_steps s u _ Hu eq_refl) as [s' Es]; eauto.
Qed.

(** ** Runs *)

(** Thread 0 reads, thread 1 wants to write and goes to sleep, thread 0
    unlocks and is about to wake it. *)
Definition rw_schedule : list (nat * choice) :=
  [(0, CallRead); (0, Go); (0, Go);
   (1, CallWrite); (1, Go); (1, Go); (1, Go); (1, Go); (1, Go); (1, Go); (1, Go);
   (0, CallUnlock)]%nat.

Definition rw_contended : state :=
  Eval vm_compute in default (rwlock_init 2) (run rw_schedule (rwlock_init 2)).

Lemma rw_contended_run : run rw_schedule (rwlock_init 2) = Some rw_contended.
Proof. vm_compute. reflexivity. Qed.

Lemma rwlock_exclusion_witness :
  writer_wait_list rw_contended = [1%nat] /\ closed (word rw_contended) = true.
Proof.
  split; [reflexivity|].
  apply (rwlock_exclusion 2 rw_schedule rw_contended); [reflexivity | exact rw_contended_run | discriminate].
Defined.

Lemma rwlock_no_lost_wakeup_witness :
  word rw_contended = RW_PENDING /\ writer_wait_list rw_contended = [1%nat] /\
  exists u p, pcs rw_contended !! u = Some p /\ awake u p rw_contended.
Proof.
  split; [reflexivity|]. split; [reflexivity|].
  destruct (rwlock_no_lost_wakeup 2 rw_schedule rw_contended) as [H _]; [reflexivity | exact rw_contended_run |].
  destruct H as (u & p & E & Hu & _); [reflexivity | discriminate |]. exists u, p. exact (conj E Hu).
Defined.
