(* ===== verification/Sem.v ===== *)
(** * Semaphores

    Model of sem_t of src/lib/impl/lock.c, as a transition system of any number
    of threads on one semaphore, in the way of [Lock]. *)

From S2P Require Import Prelude.

Inductive pc :=
| Idle
| Load (slow : bool) | Try (slow : bool) (count : Z)
| Register | Spin | GotDeregister | GotUnlock | Enqueue | SleepUnlock | Sleep
| PostLoad | PostSpin | PostWake | PostUnlock.

Inductive choice := Go | Spurious | CallWait | CallPost | Woken.

Record state := State {
  count : Z;
  waiters : Z;
  wait_list : list nat;
  wait_lock : option nat;
  pcs : list pc
}.

Definition goto (t : nat) (p : pc) (s : state) : state :=
  State (count s) (waiters s) (wait_list s) (wait_lock s) (<[t := p]> (pcs s)).
Definition set_count (v : Z) (s : state) : state :=
  State v (waiters s) (wait_list s) (wait_lock s) (pcs s).
Definition add_waiters (d : Z) (s : state) : state :=
  State (count s) (waiters s + d) (wait_list s) (wait_lock s) (pcs s).
Definition set_list (l : list nat) (s : state) : state :=
  State (count s) (waiters s) l (wait_lock s) (pcs s).
Definition set_wait_lock (o : option nat) (s : state) : state :=
  State (count s) (waiters s) (wait_list s) o (pcs s).
Definition enter (t : nat) (p : pc) (s : state) : option state :=
  match wait_lock s with
  | None => Some (goto t p (set_wait_lock (Some t) s))
  | Some _ => None
  end.
Definition leave (t : nat) (p : pc) (s : state) : option state :=
  Some (goto t p (set_wait_lock None s)).

(** One pass of the loop of sem_try_wait() with its local copy [c]. *)
Definition try_wait (t : nat) (slow : bool) (c : Z) (weak : bool) (s : state) : state :=
  if 0 <? c then
    if (count s =? c) && negb weak
    then goto t (if slow then GotDeregister else Idle) (set_count (c - 1) s)
    else goto t (Try slow (count s)) s
  else goto t (if slow then Enqueue else Register) s.

Definition step (t : nat) (c : choice) (s : state) : option state :=
  p ← pcs s !! t;
  match p, c with
  | Idle, CallWait => Some (goto t (Load false) s)
  | Idle, CallPost => Some (goto t PostLoad (set_count (s32 (count s + 1)) s))
  | Load slow, Go => Some (goto t (Try slow (count s)) s)
  | Try slow v, Go => Some (try_wait t slow v false s)
  | Try slow v, Spurious => Some (try_wait t slow v true s)
  | Register, Go => Some (goto t Spin (add_waiters 1 s))
  | Spin, Go => enter t (Load true) s
  | GotDeregister, Go => Some (goto t GotUnlock (add_waiters (-1) s))
  | GotUnlock, Go => leave t Idle s
  | Enqueue, Go => Some (goto t SleepUnlock (set_list (wait_list s ++ [t]) s))
  | SleepUnlock, Go => leave t Sleep s
  | SleepUnlock, Woken | Sleep, Woken =>
      Some (set_list (filter (fun u => u <> t) (wait_list s)) s)
  | Sleep, Go => if bool_decide (t ∈ wait_list s) then None else Some (goto t Spin s)
  | PostLoad, Go => Some (goto t (if waiters s =? 0 then Idle else PostSpin) s)
  | PostSpin, Go => enter t PostWake s
  | PostWake, Go => Some (goto t PostUnlock (set_list (tail (wait_list s)) s))
  | PostUnlock, Go => leave t Idle s
  | _, _ => None
  end.

Fixpoint run (sched : list (nat * choice)) (s : state) : option state :=
  match sched with
  | [] => Some s
  | (t, c) :: rest => s' ← step t c s; run rest s'
  end.

Definition sem_init (v : Z) (n : nat) : state := State v 0 [] None (replicate n Idle).
