(* ===== verification/SemProof.v ===== *)
(** * Semaphores: units and wakeups

    The invariant of the transition system [Sem]: while threads sleep,
    at least as many threads are awake as there are units to take. *)

From S2P Require Import Prelude Threads Sem.

(** ** Classes of program points *)

(** Counted in [waiters]. *)
Definition registered (p : pc) : bool :=
  match p with
  | Load slow | Try slow _ => slow
  | Spin | GotDeregister | Enqueue | SleepUnlock | Sleep => true
  | _ => false
  end.
(** Holding the wait lock. *)
Definition inside (p : pc) : bool :=
  match p with
  | Load slow | Try slow _ => slow
  | GotDeregister | GotUnlock | Enqueue | SleepUnlock | PostWake | PostUnlock => true
  | _ => false
  end.
(** About to try again, or to wake a sleeper. *)
Definition active (p : pc) : bool :=
  match p with
  | Load slow => slow
  | Try slow c => slow && (0 <? c)
  | Spin | PostLoad | PostSpin | PostWake => true
  | _ => false
  end.
Definition asleep (p : pc) : bool := match p with SleepUnlock | Sleep => true | _ => false end.
(** Decided to sleep. *)
Definition giving_up (p : pc) : bool :=
  match p with Try slow c => slow && negb (0 <? c) | Enqueue => true | _ => false end.

(** The threads awake: active, or taken off the list while asleep. *)
Definition awake (s : state) : Z :=
  nthreads active (pcs s) + nthreads asleep (pcs s) - Z.of_nat (length (wait_list s)).

Definition pending (s : state) : Prop := 0 < Z.of_nat (length (wait_list s)) + nthreads giving_up (pcs s).

Record ok (s : state) : Prop := {
  ok_range : - 2 ^ 31 <= count s < 2 ^ 31;
  ok_waiters : waiters s = nthreads registered (pcs s);
  ok_inside t p : pcs s !! t = Some p -> inside p = true <-> wait_lock s = Some t;
  ok_holder t : wait_lock s = Some t -> exists p, pcs s !! t = Some p;
  ok_list t : t ∈ wait_list s -> exists p, pcs s !! t = Some p /\ asleep p = true;
  ok_nodup : NoDup (wait_list s);
  ok_lost : pending s -> count s <= awake s
}.

Lemma awake_nonneg s : ok s -> nthreads active (pcs s) <= awake s.
Proof.
  intros Hok. pose proof (queue_le asleep (pcs s) _ (ok_nodup s Hok) (ok_list s Hok)). unfold awake. lia.
Qed.

Lemma s32_le x : - 2 ^ 31 <= x <= 2 ^ 31 -> - 2 ^ 31 <= s32 x < 2 ^ 31 /\ s32 x <= x.
Proof.
  intros Hx. unfold s32, u32, UINT32_MOD. change (2 ^ 32) with 4294967296. pose proof (Z.mod_pos_bound x 4294967296).
  pose proof (Z.div_mod x 4294967296). case_if; breflect; lia.
Qed.

(** ** Steps *)

Lemma sem_move_ok s s' t p p' :
  ok s -> pcs s !! t = Some p -> pcs s' = <[t := p']> (pcs s) ->
  - 2 ^ 31 <= count s' < 2 ^ 31 ->
  waiters s' - waiters s = b2z (registered p') - b2z (registered p) ->
  (inside p' = true <-> wait_lock s' = Some t) ->
  (forall u, u <> t -> wait_lock s' = Some u <-> wait_lock s = Some u) ->
  (forall u, u ∈ wait_list s' -> u <> t -> u ∈ wait_list s) ->
  (t ∈ wait_list s' -> asleep p' = true) ->
  NoDup (wait_list s') ->
  (pending s' -> count s' <= awake s') ->
  ok s'.
Proof.
  intros Hok Ep Ep' Er Ew Ei Eo Hl Ht Hn Hp.
  assert (Hlk : forall u, pcs s' !! u = if decide (u = t) then Some p' else pcs s !! u).
  { intros u. rewrite Ep', (lookup_goto _ _ p) by done. done. }
  split; auto.
  - rewrite Ep', (nthreads_insert _ _ _ p), <- (ok_waiters s Hok) by done. lia.
  - intros u q. rewrite Hlk. destruct (decide (u = t)) as [-> | Hne]; [intros; simplify_eq; auto|].
    intros Hu. rewrite Eo by done. apply (ok_inside s Hok). done.
  - intros u Hu. rewrite Hlk. destruct (decide (u = t)); [eauto|]. apply (ok_holder s Hok), Eo; auto.
  - intros u Hu. rewrite Hlk. destruct (decide (u = t)) as [-> | Hne]; [eauto|]. apply (ok_list s Hok); auto.
Qed.

(** Under the wait lock of a thread no other has decided to sleep. *)
Lemma nobody_gives_up s t p :
  ok s -> pcs s !! t = Some p -> inside p = true -> giving_up p = false -> nthreads giving_up (pcs s) = 0.
Proof.
  intros Hok Ep Hi Hg. pose proof (nthreads_nonneg giving_up (pcs s)).
  destruct (Z.eq_dec (nthreads giving_up (pcs s)) 0) as [|Hne]; [done|]. exfalso.
  destruct (queue_lt giving_up (pcs s) []) as (u & q & Eu & Hq & _); [cbn; lia|].
  assert (Hiq : inside q = true) by (destruct q; cbn in *; try done; destruct slow; done).
  apply (ok_inside s Hok t p Ep) in Hi. apply (ok_inside s Hok u q Eu) in Hiq. congruence.
Qed.

(** Without waiters there is no sleeper. *)
Lemma no_waiters s : ok s -> waiters s = 0 -> ~ pending s.
Proof.
  intros Hok Hw. pose proof (queue_le asleep (pcs s) _ (ok_nodup s Hok) (ok_list s Hok)).
  rewrite (ok_waiters s Hok) in Hw. unfold pending.
  pose proof (nthreads_mono asleep registered (pcs s)) as H1. pose proof (nthreads_mono giving_up registered (pcs s)) as H2.
  assert (nthreads asleep (pcs s) <= 0) by (rewrite <- Hw; apply H1; intros []; done).
  assert (nthreads giving_up (pcs s) <= 0); [|lia].
  rewrite <- Hw; apply H2. intros p; destruct p; cbn; try done; destruct slow; done.
Qed.

Ltac pcbn := cbn [count waiters wait_list wait_lock pcs goto set_count add_waiters set_list set_wait_lock
  b2z registered inside active asleep giving_up andb negb].
Ltac counts Ep := unfold pending, awake in *; pcbn; rewrite ?(nthreads_insert _ _ _ _ _ Ep); pcbn.
Ltac numbers Ep :=
  counts Ep; cbn [active giving_up andb] in *;
  repeat match goal with
  | H : context [0 <? ?b] |- _ => destruct (Z.ltb_spec 0 b)
  | |- context [0 <? ?b] => destruct (Z.ltb_spec 0 b)
  end; cbn [negb b2z] in *;
  repeat match goal with H : true = true -> _ |- _ => specialize (H eq_refl) end; lia.
Ltac spin Hi :=
  pcbn; first
    [ exact Hi | reflexivity | split; discriminate | split; reflexivity
    | intros ? ?; first [reflexivity | rewrite (proj1 Hi eq_refl) | match goal with E : wait_lock _ = None |- _ => rewrite E end];
      split; congruence ].
Ltac in_list Hok t Ep :=
  let Hu := fresh in
  cbn; intros Hu; try done; try apply tail_sub in Hu;
  destruct (ok_list _ Hok t Hu) as (? & ?E & ?); rewrite Ep in *; simplify_eq; auto.

Ltac moves Hok Ep t :=
  let Hi := fresh "Hi" in
  pose proof (ok_inside _ Hok t _ Ep) as Hi; cbn [inside] in Hi;
  pose proof (ok_range _ Hok); pose proof (ok_lost _ Hok); pose proof (awake_nonneg _ Hok);
  pose proof (nthreads_pos active _ t _ Ep); pose proof (nthreads_pos giving_up _ t _ Ep);
  eapply sem_move_ok; [exact Hok | exact Ep | reflexivity |..];
  [ pcbn; try lia | pcbn; try lia | try solve [spin Hi] | try solve [spin Hi]
  | pcbn; try solve [auto using tail_sub]
  | try solve [in_list Hok t Ep]
  | first [exact (ok_nodup _ Hok) | apply nodup_tail, (ok_nodup _ Hok) | idtac]
  | try solve [numbers Ep] ].

Lemma try_ok s t slow c weak : ok s -> pcs s !! t = Some (Try slow c) -> ok (try_wait t slow c weak s).
Proof.
  intros Hok Ep. unfold try_wait. case_if; breflect; [case_if; breflect|]; destruct slow; moves Hok Ep t.
Qed.

Lemma sem_load_ok s t slow : ok s -> pcs s !! t = Some (Load slow) -> ok (goto t (Try slow (count s)) s).
Proof. intros Hok Ep. destruct slow; moves Hok Ep t. Qed.

Lemma sem_enqueue_ok s t :
  ok s -> pcs s !! t = Some Enqueue -> ok (goto t SleepUnlock (set_list (wait_list s ++ [t]) s)).
Proof.
  intros Hok Ep. assert (Hnt : t ∉ wait_list s).
  { intros Hu. destruct (ok_list s Hok t Hu) as (? & E & ?). rewrite Ep in E. simplify_eq. }
  moves Hok Ep t.
  - intros u [Hu | ->%list_elem_of_singleton]%elem_of_app Hn; [auto | congruence].
  - cbn. apply NoDup_app. split_and!; [apply Hok | | apply NoDup_singleton]. intros u Hu ->%list_elem_of_singleton. done.
  - counts Ep. rewrite length_app. cbn [length]. numbers Ep.
Qed.

Lemma sem_woken_ok s t : ok s -> ok (set_list (filter (fun u => u <> t) (wait_list s)) s).
Proof.
  intros Hok. pose proof (length_filter (fun u => u <> t) (wait_list s)) as Hle.
  pose proof (ok_lost s Hok) as Hl. destruct Hok. split; auto; cbn.
  - intros u Hu. apply list_elem_of_filter in Hu as [_ Hu]. auto.
  - apply NoDup_filter. done.
  - unfold pending, awake in *. cbn. lia.
Qed.

Lemma sem_wake_ok s t :
  ok s -> pcs s !! t = Some PostWake -> ok (goto t PostUnlock (set_list (tail (wait_list s)) s)).
Proof.
  intros Hok Ep. pose proof (nobody_gives_up s t _ Hok Ep eq_refl eq_refl). moves Hok Ep t.
  counts Ep. destruct (wait_list s); cbn [tail length] in *; numbers Ep.
Qed.

Lemma post_ok s t :
  ok s -> pcs s !! t = Some Idle -> ok (goto t PostLoad (set_count (s32 (count s + 1)) s)).
Proof.
  intros Hok Ep. pose proof (s32_le (count s + 1)) as Hs. pose proof (ok_range s Hok).
  destruct Hs as [Hr Hs]; [lia|]. moves Hok Ep t.
Qed.

Lemma post_load_ok s t :
  ok s -> pcs s !! t = Some PostLoad -> ok (goto t (if waiters s =? 0 then Idle else PostSpin) s).
Proof.
  intros Hok Ep. case_if; breflect; moves Hok Ep t.
  pose proof (no_waiters s Hok ltac:(done)). numbers Ep.
Qed.

Create HintDb sem.
#[local] Hint Resolve try_ok sem_load_ok sem_enqueue_ok sem_woken_ok sem_wake_ok post_ok post_load_ok : sem.

Lemma sem_step_ok t c s s' : ok s -> step t c s = Some s' -> ok s'.
Proof.
  intros Hok. unfold step. destruct (pcs s !! t) as [p|] eqn:Ep; [|discriminate]. cbn [mbind option_bind].
  destruct p; destruct c; try discriminate; intros E; unfold enter, leave in E.
  all: repeat match type of E with match ?x with _ => _ end = Some _ => destruct x eqn:?; try discriminate E end.
  all: injection E as <-; cbn zeta; try solve [eauto with sem]; try (moves Hok Ep t; fail).
  apply bool_decide_eq_false in Heqb. moves Hok Ep t.
Qed.

Lemma sem_init_ok v n : - 2 ^ 31 <= v < 2 ^ 31 -> ok (sem_init v n).
Proof.
  intros Hv. assert (Hid : forall t p, pcs (sem_init v n) !! t = Some p -> p = Idle).
  { intros t p E. apply lookup_replicate in E as [-> _]. done. }
  split; try done.
  - cbn. rewrite nthreads_replicate; done.
  - intros t p ->%Hid. split; discriminate.
  - intros t Ht. inversion Ht.
  - constructor.
  - unfold pending. cbn. rewrite nthreads_replicate by done. lia.
Qed.

Lemma sem_run_ok sched s s' : ok s -> run sched s = Some s' -> ok s'.
Proof.
  revert s. induction sched as [|[t c] rest IH]; intros s Hok; cbn [run]; [intros; simplify_eq; auto|].
  destruct (step t c s) as [s1|] eqn:E; [|discriminate]. cbn. apply IH. eapply sem_step_ok; eauto.
Qed.

(** A thread that is awake can take a step when the wait lock is free. *)
Lemma awake_steps s u p :
  pcs s !! u = Some p -> inside p = true \/ wait_lock s = None ->
  active p = true \/ asleep p = true /\ u ∉ wait_list s -> exists s', step u Go s = Some s'.
Proof.
  intros Eu Hi Ha. unfold step. rewrite Eu. cbn [mbind option_bind]. unfold enter, leave.
  destruct p; cbn in Ha, Hi; try (intuition discriminate); eauto.
  - destruct Hi as [| ->]; [discriminate | eauto].
  - destruct Ha as [|[_ Ha]]; [discriminate|]. rewrite bool_decide_eq_false_2 by done. eauto.
  - destruct Hi as [| ->]; [discriminate | eauto].
Qed.

Lemma sem_inside_steps s t p : pcs s !! t = Some p -> inside p = true -> exists s', step t Go s = Some s'.
Proof.
  intros Ep Hi. unfold step. rewrite Ep. cbn [mbind option_bind]. destruct p; try discriminate; unfold leave; eauto.
Qed.

(** In every run of any threads that wait and post, while threads sleep at
    least as many threads are awake as there are units to take: about to try
    for one, or to wake a sleeper.  So when there is a unit, some thread is
    awake, and it or the holder of the wait lock can take a step. *)
Theorem sem_no_lost_wakeup v n sched s :
  - 2 ^ 31 <= v < 2 ^ 31 -> run sched (sem_init v n) = Some s -> wait_list s <> [] ->
  count s <= awake s /\
  (0 < count s ->
   exists u p, pcs s !! u = Some p /\ (active p = true \/ asleep p = true /\ u ∉ wait_list s) /\
     exists w s', step w Go s = Some s' /\ (w = u \/ wait_lock s = Some w)).
Proof.
  intros Hv Hrun Hl. pose proof (sem_run_ok _ _ _ (sem_init_ok v n Hv) Hrun) as Hok.
  assert (Hc : count s <= awake s).
  { apply (ok_lost s Hok). unfold pending. pose proof (nthreads_nonneg giving_up (pcs s)).
    destruct (wait_list s); [done | cbn [length]; lia]. }
  split; [exact Hc|]. intros H0. unfold awake in Hc.
  assert (exists u p, pcs s !! u = Some p /\ (active p = true \/ asleep p = true /\ u ∉ wait_list s)) as (u & p & Eu & Hu).
  { destruct (Z.ltb_spec 0 (nthreads active (pcs s))).
    - destruct (queue_lt active (pcs s) []) as (u & p & Eu & Hu & _); [cbn; lia | eauto].
    - destruct (queue_lt asleep (pcs s) (wait_list s)) as (u & p & Eu & Hu & Hn); [lia | eauto 6]. }
  exists u, p. split; [done|]. split; [done|]. destruct (wait_lock s) as [w|] eqn:Ew.
  - destruct (ok_holder s Hok w Ew) as [q Eq].
    destruct (sem_inside_steps s w q Eq) as [s' Es]; [apply (ok_inside s Hok w q Eq); done|]. eauto.
  - destruct (awake_steps s u p Eu (or_intror Ew) Hu) as [s' Es]. eauto.
Qed.

(** ** Units are conserved *)

Definition posts (sched : list (nat * choice)) : Z :=
  Z.of_nat (length (List.filter (fun tc => match snd tc with CallPost => true | _ => false end) sched)).

(** A step by which a thread passes sem_wait(): out of the loop with a unit. *)
Definition passes_now (s s' : state) (t : nat) : Z :=
  match pcs s !! t, pcs s' !! t with
  | Some (Try _ _), Some GotDeregister | Some (Try _ _), Some Idle => 1
  | _, _ => 0
  end.
Fixpoint passes (sched : list (nat * choice)) (s : state) : Z :=
  match sched with
  | [] => 0
  | (t, c) :: rest =>
      match step t c s with
      | Some s' => passes_now s s' t + passes rest s'
      | None => 0
      end
  end.

Lemma posts_cons t c rest : posts ((t, c) :: rest) = (match c with CallPost => 1 | _ => 0 end) + posts rest.
Proof. unfold posts. cbn. destruct c; cbn [length]; lia. Qed.

Lemma step_units t c s s' :
  0 <= count s -> count s + 1 < 2 ^ 31 -> step t c s = Some s' ->
  count s' = count s + (match c with CallPost => 1 | _ => 0 end) - passes_now s s' t /\ 0 <= count s'.
Proof.
  intros H0 H1. unfold step. destruct (pcs s !! t) as [p|] eqn:Ep; [|discriminate]. cbn [mbind option_bind].
  destruct p; destruct c; try discriminate; intros E; unfold enter, leave, try_wait in E.
  all: repeat match type of E with match ?x with _ => _ end = Some _ => destruct x eqn:?; try discriminate E end.
  all: injection E as <-; cbn zeta; repeat case_if; breflect; unfold passes_now; rewrite Ep; pcbn;
    rewrite ?(lookup_goto _ _ _ _ _ Ep), ?decide_True by done; try (rewrite s32_id by lia); try lia.
  all: rewrite Ep; lia.
Qed.


(** Units are neither made nor lost: in every run without overflow, the
    count is the initial one plus the posts less the threads that passed
    sem_wait(), so that never more threads have passed than units were there. *)
Theorem sem_conservation v n sched s :
  0 <= v -> v + posts sched < 2 ^ 31 - 1 -> run sched (sem_init v n) = Some s ->
  count s = v + posts sched - passes sched (sem_init v n) /\ 0 <= count s.
Proof.
  change v with (count (sem_init v n)) at 1 2 4. generalize (sem_init v n) as s0. clear v n.
  induction sched as [|[t c] rest IH]; intros s0 H0 Hb.
  - cbn [run passes]. change (posts []) with 0. intros; simplify_eq. lia.
  - rewrite posts_cons in Hb |- *. cbn [run passes]. destruct (step t c s0) as [s1|] eqn:E; [|discriminate].
    cbn [mbind option_bind]. intros Hrun.
    assert (0 <= posts rest) by (unfold posts; lia).
    destruct (step_units t c s0 s1) as [E1 E2]; [done | destruct c; lia | done |].
    assert (0 <= passes_now s0 s1 t).
    { unfold passes_now. destruct (pcs s0 !! t) as [[]|]; try lia; destruct (pcs s1 !! t) as [[]|]; lia. }
    destruct (IH s1) as [E3 E4]; [done | destruct c; lia | done | destruct c; lia].
Qed.

(** ** Runs *)

(** Thread 0 waits and goes to sleep, thread 1 posts. *)
Definition sem_schedule : list (nat * choice) :=
  [(0, CallWait); (0, Go); (0, Go); (0, Go); (0, Go); (0, Go); (0, Go); (0, Go); (0, Go);
   (1, CallPost)]%nat.
Definition sem_contended : state :=
  Eval vm_compute in default (sem_init 0 2) (run sem_schedule (sem_init 0 2)).
Lemma sem_contended_run : run sem_schedule (sem_init 0 2) = Some sem_contended.
Proof. vm_compute. reflexivity. Qed.

Lemma sem_no_lost_wakeup_witness :
  wait_list sem_contended = [0%nat] /\ count sem_contended = 1 /\ count sem_contended <= awake sem_contended.
Proof.
  split; [reflexivity|]. split; [reflexivity|].
  apply (sem_no_lost_wakeup 0 2 sem_schedule sem_contended); [lia | exact sem_contended_run | discriminate].
Defined.

(** Then thread 0 is woken and passes. *)
Definition sem_passed : list (nat * choice) :=
  sem_schedule ++ [(1, Go); (1, Go); (1, Go); (1, Go); (0, Go); (0, Go); (0, Go); (0, Go); (0, Go); (0, Go)]%nat.
Definition sem_done : state :=
  Eval vm_compute in default (sem_init 0 2) (run sem_passed (sem_init 0 2)).
Lemma sem_done_run : run sem_passed (sem_init 0 2) = Some sem_done.
Proof. vm_compute. reflexivity. Qed.

Lemma sem_conservation_witness :
  passes sem_passed (sem_init 0 2) = 1 /\ count sem_done = 0 + posts sem_passed - 1.
Proof.
  split; [reflexivity|].
  apply (sem_conservation 0 2 sem_passed sem_done); [lia | reflexivity | exact sem_done_run].
Defined.
