(* ===== verification/Poll.v ===== *)
(** * Waiting for readiness: the poll loop, poll tables and poll(2)

    Model of src/fs/impl/poll.c and of the poll table of src/fs/impl/fs.c.
    The callback table [struct poll_ops] is a class over the type of the
    context.  A sleeping loop takes the list of rounds it goes through; a
    round gives the clock readings, the signals, and what other tasks do to
    the context at the points where they can run. *)

From S2P Require Import Prelude.
Open Scope mos_scope.

Definition TICK_MS : Z := 10.

(** ** The generic loop *)

(** struct poll_ops: each callback returns its result and the context. *)
Class PollOps (S : Type) := {
  check : S -> Z * S;
  reg : S -> Z * S;
  dereg : S -> S }.

Record round (S : Type) := Round {
  r_now1 : Z;         (** clock at the first deadline test *)
  r_reg : S -> S;     (** other tasks, until the second check *)
  r_now2 : Z;         (** clock at the second deadline test *)
  r_intr : bool;      (** ps_prepare_interruptible_wait() refuses *)
  r_prep : S -> S;    (** other tasks, until the last check *)
  r_sleep : S -> S;   (** other tasks, during the sleep *)
  r_sig : bool }.     (** a signal is pending after the sleep *)
Arguments Round {S}.
Arguments r_now1 {S}.
Arguments r_reg {S}.
Arguments r_now2 {S}.
Arguments r_intr {S}.
Arguments r_prep {S}.
Arguments r_sleep {S}.
Arguments r_sig {S}.

(** [slept] are the timeouts of the sleeps, in order; 0 is no timeout. *)
Inductive poll_result (S : Type) :=
| PollDone (ret : Z) (s : S) (slept : list Z)
| PollWaiting (s : S) (slept : list Z).
Arguments PollDone {S}.
Arguments PollWaiting {S}.

(** The timeout of a sleep; [None] when the deadline has passed. *)
Definition sleep_time (infinite : bool) (deadline now has_unsupported : Z) : option Z :=
  if negb infinite then
    if deadline <=? now then None
    else
      let d := u64 (deadline - now) in
      let ms := if UINT32_MAX <? d then UINT32_MAX else u32 d in
      Some (if nz has_unsupported && (TICK_MS <? ms) then TICK_MS else ms)
  else if nz has_unsupported then Some TICK_MS else Some 0.

Section Loop.
Context {S : Type} `{PollOps S}.

Fixpoint poll_loop (just_test infinite : bool) (deadline : Z) (rs : list (round S)) (s : S)
  (slept : list Z) : poll_result S :=
  let '(ret, s) := check s in
  if nz ret then PollDone ret s slept
  else if just_test then PollDone ret s slept
  else match rs with
  | [] => PollWaiting s slept
  | r :: rs' =>
      if negb infinite && (deadline <=? r_now1 r) then PollDone ret s slept
      else
        let '(unsup, s) := reg s in
        if unsup <? 0 then PollDone unsup s slept
        else
          let '(ret, s) := check (r_reg r s) in
          if nz ret then PollDone ret (dereg s) slept
          else match sleep_time infinite deadline (r_now2 r) unsup with
          | None => PollDone 0 (dereg s) slept
          | Some ms =>
              let '(ret, s) := check (r_prep r s) in
              if r_intr r then PollDone (if nz ret then ret else - EINTR) (dereg s) slept
              else if nz ret then PollDone ret (dereg s) slept
              else
                let '(ret, s) := check (dereg (r_sleep r s)) in
                if nz ret then PollDone ret s (slept ++ [ms])
                else if r_sig r then PollDone (- EINTR) s (slept ++ [ms])
                else poll_loop just_test infinite deadline rs' s (slept ++ [ms])
          end
  end.

Definition poll_wait_loop (just_test infinite : bool) (deadline : Z) (rs : list (round S)) (s : S)
  : poll_result S := poll_loop just_test infinite deadline rs s [].
End Loop.

(** ** Poll tables *)

(** The subscriptions of one table: the wait lists its entries are on, in
    the order they were made.  The other fields of poll_table_entry do not
    change after that. *)
Record poll_table := Table {
  cap : Z; entries : list Z; unsupported : bool }.

(** The wait lists: for each list head, the table entries on it, as the
    table's identity and the entry's index. *)
Definition wait_lists : Type := Z -> list (Z * Z).

Definition poll_table_init (c : Z) : poll_table := Table c [] false.

Definition poll_subscribe (id : Z) (pt : poll_table) (head : Z) (w : wait_lists)
  : poll_table * wait_lists :=
  let nr := Z.of_nat (length (entries pt)) in
  if cap pt <=? nr then (Table (cap pt) (entries pt) true, w)
  else (Table (cap pt) (entries pt ++ [head]) (unsupported pt),
        fun h => if h =? head then w h ++ [(id, nr)] else w h).

(** One step of the cleanup: the last entry leaves its list. *)
Definition unsubscribe (id nr head : Z) (w : wait_lists) : wait_lists :=
  fun h => if h =? head then List.filter (fun e => negb ((e.1 =? id) && (e.2 =? nr))) (w h) else w h.

Fixpoint cleanup_entries (id : Z) (rev_entries : list Z) (w : wait_lists) : wait_lists :=
  match rev_entries with
  | [] => w
  | head :: l => cleanup_entries id l (unsubscribe id (Z.of_nat (length l)) head w)
  end.

Definition poll_table_cleanup (id : Z) (pt : poll_table) (w : wait_lists) : poll_table * wait_lists :=
  (Table (cap pt) [] (unsupported pt), cleanup_entries id (rev (entries pt)) w).

(** ** poll(2) *)

Definition POLLIN : Z := 1.
Definition POLLPRI : Z := 2.
Definition POLLOUT : Z := 4.
Definition POLLERR : Z := 8.
Definition POLLHUP : Z := 16.
Definition POLLNVAL : Z := 32.
Definition MAX_FD : Z := 1024.

Definition FS_POLL_READ : Z := 1.
Definition FS_POLL_WRITE : Z := 2.
Definition FS_POLL_EXCEPT : Z := 4.
Definition FS_POLL_HUP : Z := 8.
Definition FS_POLL_ERR : Z := 16.

Record pollfd := Pollfd { fd : Z; events : Z; revents : Z }.

(** What the files of the process promise to the loop: which descriptors are
    open, the ready mask of a file, and the wait lists a file's poll method
    subscribes to; [dev] is the state of all files. *)
Class Files (dev : Type) := {
  fd_open : dev -> Z -> bool;
  fd_ready : dev -> Z -> Z -> Z;
  fd_lists : Z -> Z -> list Z }.

Definition bit (v b out : Z) : Z := if nz (Z.land v b) then out else 0.

Definition poll_want (events : Z) : Z :=
  Z.lor (Z.lor (Z.lor (bit events POLLIN FS_POLL_READ) (bit events POLLPRI FS_POLL_EXCEPT))
           (bit events POLLOUT FS_POLL_WRITE))
    (Z.lor FS_POLL_ERR FS_POLL_HUP).

Definition poll_revents (ready : Z) : Z :=
  Z.lor (Z.lor (Z.lor (Z.lor (bit ready FS_POLL_READ POLLIN) (bit ready FS_POLL_WRITE POLLOUT))
                  (bit ready FS_POLL_EXCEPT POLLPRI))
           (bit ready FS_POLL_ERR POLLERR))
    (bit ready FS_POLL_HUP POLLHUP).

Section Poll.
Context {dev : Type} `{Files dev}.

Record poll_ctx := Ctx {
  files : dev; fds : list pollfd; wait : poll_table; lists : wait_lists; self : Z }.

(** The revents of one element: the condition, whether or not it counts. *)
Definition poll_one (d : dev) (p : pollfd) : pollfd :=
  if fd p <? 0 then Pollfd (fd p) (events p) 0
  else if (MAX_FD <=? fd p) || negb (fd_open d (fd p)) then Pollfd (fd p) (events p) POLLNVAL
  else Pollfd (fd p) (events p) (poll_revents (fd_ready d (fd p) (poll_want (events p)))).

Definition poll_ctx_check (c : poll_ctx) : Z * poll_ctx :=
  let l := poll_one (files c) <$> fds c in
  (Z.of_nat (length (List.filter (fun p => nz (revents p)) l)),
   Ctx (files c) l (wait c) (lists c) (self c)).

(** fs_fd_poll() with a table: the file's poll method subscribes the table
    to its lists; a closed descriptor does nothing. *)
Definition fd_subscribe (id : Z) (d : dev) (p : pollfd) (t : poll_table * wait_lists)
  : poll_table * wait_lists :=
  if fd p <? 0 then t
  else if (MAX_FD <=? fd p) || negb (fd_open d (fd p)) then t
  else foldl (fun t head => poll_subscribe id (fst t) head (snd t)) t (fd_lists (fd p) (poll_want (events p))).

Definition poll_ctx_reg (c : poll_ctx) : Z * poll_ctx :=
  let '(t, w) := foldl (fun t p => fd_subscribe (self c) (files c) p t) (wait c, lists c) (fds c) in
  (b2z (unsupported t), Ctx (files c) (fds c) t w (self c)).

Definition poll_ctx_dereg (c : poll_ctx) : poll_ctx :=
  let '(t, w) := poll_table_cleanup (self c) (wait c) (lists c) in
  Ctx (files c) (fds c) t w (self c).

#[export] Instance poll_fops : PollOps poll_ctx := {
  check := poll_ctx_check; reg := poll_ctx_reg; dereg := poll_ctx_dereg }.

(** time_deadline_ms(): the clock in microseconds is rounded up, and the sum
    saturates. *)
Definition time_deadline_ms (us delay_ms : Z) : Z :=
  let now := us / 1000 + b2z (nz (us mod 1000)) in
  if UINT64_MAX - now <? delay_ms then UINT64_MAX else now + delay_ms.

(** [ufds] is [None] for a null pointer and otherwise has [nfds] elements;
    [us] is the clock at the call, [id] the identity of the table. *)
Definition do_poll (d : dev) (w : wait_lists) (id : Z) (ufds : option (list pollfd)) (nfds : Z)
  (timeout us : Z) (rs : list (round poll_ctx)) : poll_result poll_ctx :=
  let just_test := timeout =? 0 in
  let infinite := timeout <? 0 in
  let c0 := Ctx d (default [] ufds) (poll_table_init (if 0 <? nfds then u32 (nfds * 2) else 0)) w id in
  if negb (bool_decide (is_Some ufds)) && (0 <? nfds) then PollDone (- EFAULT) c0 []
  else
    let deadline := if negb just_test && negb infinite then time_deadline_ms us timeout else 0 in
    poll_wait_loop just_test infinite deadline rs c0.

(** ppoll(): [timeout] is the optional (seconds, nanoseconds) pair, [sigmask]
    the optional mask; the result carries the signal mask in force, the saved
    mask and the flag that asks for its restoration. *)
Record sig_state := Sig { sig_mask : Z; saved_sigmask : Z; restore_sigmask : bool }.

Definition ppoll_deadline (us tv_sec tv_nsec : Z) : Z :=
  time_deadline_ms us (u64 (u64 (tv_sec * 1000) + (tv_nsec + 999999) / 1000000)).

Definition do_ppoll (d : dev) (w : wait_lists) (id : Z) (ufds : option (list pollfd)) (nfds : Z)
  (timeout : option (Z * Z)) (sigmask : option Z) (sg : sig_state) (mem_ok : bool) (us : Z)
  (rs : list (round poll_ctx)) : poll_result poll_ctx * sig_state :=
  let c0 := Ctx d (default [] ufds) (poll_table_init (if 0 <? nfds then u32 (nfds * 2) else 0)) w id in
  let fail e := (PollDone e c0 [], sg) in
  if negb (bool_decide (is_Some ufds)) && nz nfds then fail (- EFAULT)
  else if MAX_FD <? nfds then fail (- EINVAL)
  else if (match timeout with
           | Some (sec, nsec) => (sec <? 0) || (nsec <? 0) || (1000000000 <=? nsec)
           | None => false
           end) then fail (- EINVAL)
  else if nz nfds && negb mem_ok then fail (- ENOMEM)
  else
    let '(just_test, infinite, deadline) :=
      match timeout with
      | Some (sec, nsec) => ((sec =? 0) && (nsec =? 0), false, ppoll_deadline us sec nsec)
      | None => (false, true, 0)
      end in
    let r := poll_wait_loop just_test infinite deadline rs c0 in
    let sg' := match sigmask, r with
      | None, _ => sg
      | Some m, PollWaiting _ _ => Sig m (saved_sigmask sg) (restore_sigmask sg)
      | Some m, PollDone ret _ _ =>
          if ret =? - EINTR then Sig m (sig_mask sg) true
          else Sig (sig_mask sg) (saved_sigmask sg) (restore_sigmask sg)
      end in
    (r, sg').
End Poll.
