(* ===== verification/PollProof.v ===== *)
(** * The poll loop: truthful results, no subscription left behind *)

From S2P Require Import Prelude Poll.
Open Scope mos_scope.

(** ** The generic loop *)

(** What an implementation of the callbacks promises the loop: [inv] holds
    of every context, [clean] of those with no registration. *)
Class PollLaws (S : Type) `{PollOps S} (inv clean : S -> Prop) := {
  check_inv : forall s, inv s -> inv (check s).2;
  check_clean : forall s, clean s -> clean (check s).2;
  reg_inv : forall s, inv s -> clean s -> inv (reg s).2;
  reg_ok : forall s, 0 <= (reg s).1;
  dereg_inv : forall s, inv s -> inv (dereg s);
  dereg_clean : forall s, inv s -> clean (dereg s) }.

Section Generic.
Context {S : Type} `{PollLaws S}.

(** Other tasks keep the invariant. *)
Definition round_ok (r : round S) : Prop :=
  (forall s, inv s -> inv (r_reg r s)) /\ (forall s, inv s -> inv (r_prep r s)) /\
  (forall s, inv s -> inv (r_sleep r s)).

(** How a finished wait ended: by the last check, whose result is returned
    unless it is 0 and a signal arrived. *)
Definition ended (ret : Z) (s : S) : Prop :=
  exists s0, inv s0 /\
    (s = (check s0).2 /\ clean s0 \/ s = dereg (check s0).2) /\
    (ret = (check s0).1 \/ ((check s0).1 = 0 /\ ret = - EINTR)).

Lemma poll_loop_ended jt inf deadline rs : forall s sl ret s' sl',
  inv s -> clean s -> Forall round_ok rs ->
  poll_loop jt inf deadline rs s sl = PollDone ret s' sl' -> ended ret s'.
Proof.
  induction rs as [|r rs IH]; intros s sl ret s' sl' Hi Hc Hrs; cbn [poll_loop];
    pose proof (check_inv s Hi) as Hi1; pose proof (check_clean s Hc) as Hc1;
    destruct (check s) as [ret1 s1] eqn:E1; cbn [snd] in Hi1, Hc1.
  - destruct (nz ret1); [|destruct jt; [|done]]; intros [= <- <- <-];
      exists s; rewrite E1; cbn; auto 6.
  - assert (D1 : ended ret1 s1) by (exists s; rewrite E1; cbn; auto 6).
    destruct (nz ret1); [intros [= <- <- <-]; done|]. destruct jt; [intros [= <- <- <-]; done|].
    destruct (negb inf && _); [intros [= <- <- <-]; done|].
    pose proof (reg_inv s1 Hi1 Hc1) as Hi2; pose proof (reg_ok s1) as Hr.
    destruct (reg s1) as [un s2]; cbn [fst snd] in Hi2, Hr.
    destruct (Z.ltb_spec un 0); [lia|].
    apply Forall_cons in Hrs as [(R1 & R2 & R3) Hrs].
    pose proof (check_inv _ (R1 _ Hi2)) as Hi3.
    destruct (check (r_reg r s2)) as [ret3 s3] eqn:E3; cbn [snd] in Hi3.
    assert (D3 : ended ret3 (dereg s3)) by (exists (r_reg r s2); rewrite E3; cbn; auto 6).
    destruct (nz ret3) eqn:N3; [intros [= <- <- <-]; done|].
    assert (ret3 = 0) as -> by (unfold nz in N3; lia).
    destruct (sleep_time inf deadline (r_now2 r) un) as [ms|]; [|intros [= <- <- <-]; done].
    pose proof (check_inv _ (R2 _ Hi3)) as Hi4.
    destruct (check (r_prep r s3)) as [ret4 s4] eqn:E4; cbn [snd] in Hi4.
    assert (D4 : ended (if nz ret4 then ret4 else - EINTR) (dereg s4)).
    { exists (r_prep r s3); rewrite E4; cbn; split_and!; auto.
      destruct (nz ret4) eqn:N4; [auto|]. right; split; [unfold nz in N4; lia | done]. }
    destruct (r_intr r); [intros [= <- <- <-]; done|].
    destruct (nz ret4); [intros [= <- <- <-]; done|].
    pose proof (R3 _ Hi4) as Hi5. pose proof (dereg_inv _ Hi5) as Hi6; pose proof (dereg_clean _ Hi5) as Hc6.
    pose proof (check_inv _ Hi6) as Hi7; pose proof (check_clean _ Hc6) as Hc7.
    destruct (check (dereg (r_sleep r s4))) as [ret7 s7] eqn:E7; cbn [snd] in Hi7, Hc7.
    assert (D7 : forall v, v = ret7 \/ (ret7 = 0 /\ v = - EINTR) -> ended v s7).
    { intros v Hv; exists (dereg (r_sleep r s4)); rewrite E7; cbn; auto 6. }
    destruct (nz ret7) eqn:N7; [intros [= <- <- <-]; auto|].
    destruct (r_sig r); [intros [= <- <- <-]; apply D7; right; split; [unfold nz in N7; lia | done]|].
    intros E; apply (IH s7 (sl ++ [ms]) ret s' sl'); done.
Qed.

Lemma ended_clean ret s : ended ret s -> clean s /\ inv s.
Proof.
  intros (s0 & Hi & [[-> Hc] | ->] & _).
  - split; [apply check_clean | apply check_inv]; done.
  - split; [apply dereg_clean | apply dereg_inv]; apply check_inv; done.
Qed.
End Generic.

(** ** Poll tables *)

(** The places of a table's entries on the list with head [h]. *)
Definition own (id h : Z) (es : list Z) : list (Z * Z) :=
  concat (imap (fun i x => if x =? h then [(id, Z.of_nat i)] else []) es).

Definition mine (id : Z) (l : list (Z * Z)) : list (Z * Z) := List.filter (fun e => e.1 =? id) l.

(** The wait lists hold exactly the entries the table records. *)
Definition table_ok (id : Z) (pt : poll_table) (w : wait_lists) : Prop :=
  forall h, mine id (w h) = own id h (entries pt).

Lemma own_snoc id h es x :
  own id h (es ++ [x]) = own id h es ++ (if x =? h then [(id, Z.of_nat (length es))] else []).
Proof.
  unfold own; rewrite imap_app, concat_app; cbn. rewrite app_nil_r, Nat.add_0_r. done.
Qed.

Lemma mine_app id l l' : mine id (l ++ l') = mine id l ++ mine id l'.
Proof. apply List.filter_app. Qed.

Lemma mine_none id l : (forall e, In e l -> e.1 <> id) -> mine id l = [].
Proof.
  unfold mine; induction l as [|x l IH]; intros Hx; [done|]; cbn.
  specialize (Hx x (or_introl eq_refl)) as Hx0. replace (x.1 =? id) with false by lia.
  apply IH; intros; apply Hx; right; done.
Qed.

Lemma poll_subscribe_ok id pt head w :
  table_ok id pt w -> table_ok id (poll_subscribe id pt head w).1 (poll_subscribe id pt head w).2.
Proof.
  intros Ht; unfold poll_subscribe; case_if; [done|]; cbn [fst snd]. intros h; cbn [entries].
  rewrite own_snoc, <- Ht, (Z.eqb_sym head h). destruct (h =? head); [|rewrite app_nil_r; done].
  rewrite mine_app; cbn. rewrite Z.eqb_refl; done.
Qed.

Lemma own_bound id h es e : In e (own id h es) -> e.1 = id /\ 0 <= e.2 < Z.of_nat (length es).
Proof.
  induction es as [|x es IH] using rev_ind; [done|]. rewrite own_snoc, in_app_iff, length_app; cbn [length].
  intros [Hin | Hin]; [destruct (IH Hin); lia|]. destruct (x =? h); [|done].
  destruct Hin as [<- | []]; cbn; lia.
Qed.

Lemma filter_none {A} (f : A -> bool) l : (forall x, In x l -> f x = true) -> List.filter f l = l.
Proof.
  induction l as [|x l IH]; intros Hx; [done|]; cbn. rewrite (Hx x (or_introl eq_refl)).
  f_equal; apply IH; intros; apply Hx; right; done.
Qed.

Lemma mine_filter id f l : mine id (List.filter f l) = List.filter f (mine id l).
Proof.
  unfold mine; induction l as [|x l IH]; [done|]; cbn.
  destruct (f x) eqn:Ef, (x.1 =? id) eqn:Ei; cbn; rewrite ?Ei, ?Ef, IH; done.
Qed.

Lemma unsubscribe_ok id es x w :
  (forall h, mine id (w h) = own id h (es ++ [x])) ->
  forall h, mine id (unsubscribe id (Z.of_nat (length es)) x w h) = own id h es.
Proof.
  intros Ht h; unfold unsubscribe; specialize (Ht h); rewrite own_snoc, (Z.eqb_sym x h) in Ht.
  destruct (h =? x); [|rewrite app_nil_r in Ht; done].
  rewrite mine_filter, Ht, List.filter_app; cbn. rewrite !Z.eqb_refl; cbn. rewrite app_nil_r.
  apply filter_none; intros e He; apply own_bound in He as [-> He]. lia.
Qed.

Lemma cleanup_entries_ok id l : forall w,
  (forall h, mine id (w h) = own id h (rev l)) -> forall h, mine id (cleanup_entries id l w h) = [].
Proof.
  induction l as [|x l IH]; intros w Ht h; cbn [cleanup_entries]; [apply Ht|].
  apply IH; intros h'. cbn [rev] in Ht. rewrite <- (length_rev l). apply unsubscribe_ok; done.
Qed.

Lemma poll_table_cleanup_ok id pt w :
  table_ok id pt w -> let '(pt', w') := poll_table_cleanup id pt w in
  entries pt' = [] /\ forall h, mine id (w' h) = [].
Proof.
  intros Ht; cbn; split; [done|]. apply cleanup_entries_ok. intros h; rewrite rev_involutive; apply Ht.
Qed.

(** ** poll(2) *)

Section PollSyscall.
Context {dev : Type} `{Files dev}.
#[local] Abbreviation ctx := (@poll_ctx dev).

Definition request (l : list pollfd) : list (Z * Z) := (fun p => (fd p, events p)) <$> l.

Definition ctx_inv (id : Z) (req : list (Z * Z)) (c : ctx) : Prop :=
  self c = id /\ request (fds c) = req /\ table_ok id (wait c) (lists c).
Definition ctx_clean (id : Z) (c : ctx) : Prop :=
  entries (wait c) = [] /\ forall h, mine id (lists c h) = [].

Lemma poll_one_request d l : request (poll_one d <$> l) = request l.
Proof.
  unfold request; rewrite <- list_fmap_compose; apply list_fmap_ext; intros i p _.
  unfold compose, poll_one; repeat case_if; done.
Qed.

Lemma subscribe_all_ok id (l : list Z) : forall t,
  table_ok id t.1 t.2 ->
  let t' := foldl (fun t head => poll_subscribe id (fst t) head (snd t)) t l in table_ok id t'.1 t'.2.
Proof.
  induction l as [|x l IH]; intros t Ht; cbn [foldl]; [done|]. apply IH, poll_subscribe_ok; done.
Qed.

Lemma fd_subscribe_ok id (d : dev) (l : list pollfd) : forall t,
  table_ok id t.1 t.2 ->
  let t' := foldl (fun t p => fd_subscribe id d p t) t l in table_ok id t'.1 t'.2.
Proof.
  induction l as [|p l IH]; intros t Ht; cbn [foldl]; [done|]. apply IH.
  unfold fd_subscribe; repeat case_if; try done. apply subscribe_all_ok; done.
Qed.

#[local] Instance poll_laws id req : PollLaws ctx (ctx_inv id req) (ctx_clean id).
Proof.
  split.
  - intros c (I1 & I2 & I3); split_and!; try done. cbn. rewrite poll_one_request; done.
  - intros c Hc; done.
  - intros c (I1 & I2 & I3) _; cbn; unfold poll_ctx_reg. rewrite I1.
    pose proof (fd_subscribe_ok id (files c) (fds c) (wait c, lists c) I3) as T; cbn [fst snd] in T.
    destruct (foldl _ _ _) as [t w]; cbn in T |- *. split_and!; done.
  - intros c; cbn; unfold poll_ctx_reg. destruct (foldl _ _ _) as [t w]; cbn. destruct (unsupported t); cbn; lia.
  - intros c (I1 & I2 & I3); change (dereg c) with (poll_ctx_dereg c); unfold poll_ctx_dereg; rewrite I1.
    pose proof (poll_table_cleanup_ok id (wait c) (lists c) I3) as T.
    destruct (poll_table_cleanup id (wait c) (lists c)) as [t w]; destruct T as [T1 T2].
    split_and!; try done. intros h; cbn [wait lists]; rewrite T1, T2; done.
  - intros c (I1 & I2 & I3); change (dereg c) with (poll_ctx_dereg c); unfold poll_ctx_dereg; rewrite I1.
    pose proof (poll_table_cleanup_ok id (wait c) (lists c) I3) as T.
    destruct (poll_table_cleanup id (wait c) (lists c)) as [t w]; destruct T as [T1 T2]. split; done.
Qed.

(** What other tasks may do: anything to the files and to their own
    subscriptions. *)
Definition others (c c' : ctx) : Prop :=
  fds c' = fds c /\ wait c' = wait c /\ self c' = self c /\
  forall h, mine (self c) (lists c' h) = mine (self c) (lists c h).

Definition round_fair (r : round ctx) : Prop :=
  forall c, others c (r_reg r c) /\ others c (r_prep r c) /\ others c (r_sleep r c).

Lemma others_inv id req c c' : others c c' -> ctx_inv id req c -> ctx_inv id req c'.
Proof.
  intros (O1 & O2 & O3 & O4) (I1 & I2 & I3); split; [congruence|]; split; [congruence|].
  intros h; rewrite O2, <- I3, <- I1, O4; done.
Qed.

Lemma round_fair_ok id req r : round_fair r -> @round_ok _ (ctx_inv id req) r.
Proof. intros Hf; split_and!; intros c Hc; eapply others_inv; try apply Hf; done. Qed.

(** The number of elements poll() reports in a state of the files. *)
Definition ready_count (d : dev) (l : list pollfd) : Z :=
  Z.of_nat (length (List.filter (fun p => nz (revents p)) (poll_one d <$> l))).

Lemma poll_one_again d l l' : request l = request l' -> poll_one d <$> l = poll_one d <$> l'.
Proof.
  unfold request; revert l'; induction l as [|p l IH]; intros [|p' l']; cbn; try done.
  intros [= E1 E2 E3]; f_equal; [|apply IH; done].
  unfold poll_one; rewrite E1, E2; done.
Qed.

Lemma wait_loop_result id l w d jt inf deadline rs ret c slept :
  Forall round_fair rs -> (forall h, mine id (w h) = []) ->
  forall cp, poll_wait_loop jt inf deadline rs (Ctx d l (poll_table_init cp) w id) = PollDone ret c slept ->
  (forall h, mine id (lists c h) = []) /\
  fds c = poll_one (files c) <$> l /\
  (ret = ready_count (files c) l \/ (ready_count (files c) l = 0 /\ ret = - EINTR)).
Proof.
  intros Hrs Hw cp E.
  assert (Hi : ctx_inv id (request l) (Ctx d l (poll_table_init cp) w id)).
  { split; [done|]; split; [done|]. intros h; apply Hw. }
  assert (Hc : ctx_clean id (Ctx d l (poll_table_init cp) w id)) by (split; done).
  assert (Hr : Forall (@round_ok _ (ctx_inv id (request l))) rs)
    by (eapply Forall_impl; [exact Hrs | intros; apply round_fair_ok; done]).
  pose proof (poll_loop_ended (inv := ctx_inv id (request l)) (clean := ctx_clean id)
                _ _ _ _ _ _ _ _ _ Hi Hc Hr E) as En.
  destruct (ended_clean _ _ En) as [[_ Hcl] _]. split; [done|].
  destruct En as (c0 & (I1 & I2 & I3) & Hs & Hret).
  assert (F : fds c = poll_one (files c0) <$> l /\ files c = files c0).
  { cbn in Hs. destruct Hs as [[-> _] | ->]; cbn; [split; [apply poll_one_again; done | done]|].
    unfold poll_ctx_dereg; cbn. split; [apply poll_one_again; done | done]. }
  destruct F as [F1 F2]. rewrite F2; split; [done|].
  assert (R : (check c0).1 = ready_count (files c0) l).
  { cbn; unfold ready_count. rewrite (poll_one_again _ (fds c0) l); done. }
  rewrite R in Hret. tauto.
Qed.

(** ** Properties *)

(** When poll() returns, the task is on no wait list any more: every
    subscription it made is gone, however the wait ended, so the table's
    entries can be freed. *)
Theorem do_poll_no_subscription_left d w id ufds nfds timeout us rs ret c slept :
  Forall round_fair rs -> (forall h e, In e (w h) -> e.1 <> id) ->
  do_poll d w id ufds nfds timeout us rs = PollDone ret c slept ->
  forall h e, In e (lists c h) -> e.1 <> id.
Proof.
  intros Hrs Hw E h e Hin.
  assert (Hw' : forall h, mine id (w h) = []) by (intros; apply mine_none; eauto).
  assert (G : mine id (lists c h) = []).
  { unfold do_poll in E. case_if; [injection E as <- <- <-; apply Hw'|].
    eapply wait_loop_result; eauto. }
  intros Ee; assert (Hm : In e (mine id (lists c h))) by (apply filter_In; split; [done | lia]).
  rewrite G in Hm; done.
Qed.

(** The result of poll() is truthful: when it returns on a valid array,
    the [revents] of every element describe the files as they are at that
    moment, and the result is the number of elements with non-zero [revents],
    or -EINTR when that number is 0. *)
Theorem do_poll_truthful d w id l nfds timeout us rs ret c slept :
  Forall round_fair rs -> (forall h e, In e (w h) -> e.1 <> id) ->
  do_poll d w id (Some l) nfds timeout us rs = PollDone ret c slept ->
  fds c = poll_one (files c) <$> l /\
  (ret = ready_count (files c) l \/ (ready_count (files c) l = 0 /\ ret = - EINTR)).
Proof.
  intros Hrs Hw E.
  assert (Hw' : forall h, mine id (w h) = []) by (intros; apply mine_none; eauto).
  unfold do_poll in E; rewrite bool_decide_eq_true_2 in E by eauto; cbn [negb andb default] in E.
  eapply (wait_loop_result id l w); eauto.
Qed.

(** Ppoll() puts the caller's signal mask back on every return, at once
    or, after -EINTR, by leaving the old mask for the signal delivery to
    restore; while it waits the given mask is in force. *)
Theorem do_ppoll_mask d w id ufds nfds timeout m sg mem_ok us rs :
  restore_sigmask sg = false ->
  match do_ppoll d w id ufds nfds timeout (Some m) sg mem_ok us rs with
  | (PollDone ret _ _, sg') =>
      sg' = sg \/ (ret = - EINTR /\ sig_mask sg' = m /\ saved_sigmask sg' = sig_mask sg /\
                   restore_sigmask sg' = true)
  | (PollWaiting _ _, sg') => sig_mask sg' = m /\ restore_sigmask sg' = false
  end.
Proof.
  intros Hs; unfold do_ppoll.
  destruct (negb _ && nz nfds); [auto|]. destruct (MAX_FD <? nfds); [auto|].
  destruct (match timeout with Some (_, _) => _ | None => false end); [auto|].
  destruct (nz nfds && negb mem_ok); [auto|].
  destruct (match timeout with Some (_, _) => _ | None => (false, true, 0) end) as [[jt inf] dl].
  destruct (poll_wait_loop jt inf dl rs _) as [ret c sl | c sl]; [|done].
  destruct (Z.eqb_spec ret (- EINTR)); [right; done | left; destruct sg; done].
Qed.
End PollSyscall.

(** ** Concrete instances *)

(** One file, descriptor 3, readable when the counter is positive, with wait
    list 7. *)
#[local] Instance demo_files : Files Z := {
  fd_open _ n := n =? 3;
  fd_ready d _ want := if 0 <? d then Z.land want FS_POLL_READ else 0;
  fd_lists _ _ := [7] }.

Definition demo_ctx_round : round (@poll_ctx Z) :=
  Round 0 (fun c => c) 0 false (fun c => c)
    (fun c => Ctx 1 (fds c) (wait c) (lists c) (self c)) false.

Definition demo_lists : wait_lists := fun h => if h =? 7 then [(50, 0)] else [].

Definition demo_poll : poll_result (@poll_ctx Z) :=
  do_poll 0 demo_lists 9 (Some [Pollfd 3 POLLIN 0]) 1 (-1) 0 [demo_ctx_round].

Lemma demo_fair : Forall round_fair [demo_ctx_round].
Proof. constructor; [|constructor]. intros c; repeat split. Qed.

Lemma demo_foreign h e : In e (demo_lists h) -> e.1 <> 9.
Proof. unfold demo_lists; destruct (h =? 7); cbn; [intros [<- | []]; done | done]. Qed.

Definition demo_final : @poll_ctx Z := match demo_poll with PollDone _ c _ | PollWaiting c _ => c end.

Lemma do_poll_no_subscription_left_witness :
  demo_poll = PollDone 1 demo_final [0] /\ forall h e, In e (lists demo_final h) -> e.1 <> 9.
Proof.
  assert (E : demo_poll = PollDone 1 demo_final [0]) by reflexivity.
  split; [exact E|].
  exact (do_poll_no_subscription_left 0 demo_lists 9 (Some [Pollfd 3 POLLIN 0]) 1 (-1) 0
           [demo_ctx_round] 1 demo_final [0] demo_fair demo_foreign E).
Defined.

Lemma do_poll_truthful_witness :
  fds demo_final = poll_one (files demo_final) <$> [Pollfd 3 POLLIN 0].
Proof.
  assert (E : demo_poll = PollDone 1 demo_final [0]) by reflexivity.
  exact (proj1 (do_poll_truthful 0 demo_lists 9 [Pollfd 3 POLLIN 0] 1 (-1) 0
           [demo_ctx_round] 1 demo_final [0] demo_fair demo_foreign E)).
Defined.

Lemma do_ppoll_mask_witness :
  match do_ppoll 0 demo_lists 9 (Some [Pollfd 3 POLLIN 0]) 1 None (Some 5) (Sig 2 0 false) true 0 [] with
  | (PollDone ret _ _, sg') =>
      sg' = Sig 2 0 false \/ (ret = - EINTR /\ sig_mask sg' = 5 /\ saved_sigmask sg' = 2 /\
                   restore_sigmask sg' = true)
  | (PollWaiting _ _, sg') => sig_mask sg' = 5 /\ restore_sigmask sg' = false
  end.
Proof.
  exact (do_ppoll_mask 0 demo_lists 9 (Some [Pollfd 3 POLLIN 0]) 1 None 5 (Sig 2 0 false) true 0 [] eq_refl).
Defined.
