(* ===== verification/TimerFd.v ===== *)
(** * Timer descriptors (timerfd)

    Model of src/fs/impl/timerfd.c.  Each operation runs under timerfd_lock
    and brings the state up to date with the clock first; [clock] is what the
    clock shows then: the monotonic and the wall time in microseconds, and how
    often the wall time was set. *)

From S2P Require Import Prelude Poll.

Definition TFD_TIMER_ABSTIME : Z := 1.
Definition TFD_TIMER_CANCEL_ON_SET : Z := 2.
Definition NS_PER_SEC : Z := 1000000000.
Definition ECANCELED : Z := 125.

Record clock := Clock { mono_us : Z; wall_us : Z; wall_generation : Z }.

(** [notified] counts the calls of poll_notify() on the waiters. *)
Record timerfd_state := TimerFd {
  due : Z; interval : Z; ticks : Z; generation : Z;
  clockid : Z; wall : bool; cancel_on_set : bool; canceled : bool; notified : Z
}.

Definition timerfd_now (s : timerfd_state) (c : clock) : Z :=
  if wall s then u64 (wall_us c * 1000) else u64 (mono_us c * 1000).

Definition timerfd_update (c : clock) (s : timerfd_state) : timerfd_state :=
  let gen := if wall s then wall_generation c else generation s in
  let now := timerfd_now s c in
  if cancel_on_set s && negb (gen =? generation s) then
    TimerFd 0 (interval s) 0 gen (clockid s) (wall s) (cancel_on_set s) true (notified s + 1)
  else if (due s =? 0) || (now <? due s) then s else
  let '(count, next) :=
    if nz (interval s) then
      let count := u64 (1 + (now - due s) / interval s) in
      let remaining := interval s - (now - due s) mod interval s in
      (count, if UINT64_MAX - now <? remaining then 0 else u64 (now + remaining))
    else (1, 0) in
  TimerFd next (interval s) (if UINT64_MAX - ticks s <? count then UINT64_MAX else u64 (ticks s + count))
    (generation s) (clockid s) (wall s) (cancel_on_set s) (canceled s) (notified s + 1).

Definition timerfd_poll_timers (c : clock) (l : list timerfd_state) : list timerfd_state := timerfd_update c <$> l.

Definition timerfd_poll (c : clock) (events : Z) (s : timerfd_state) : Z * timerfd_state :=
  let s := timerfd_update c s in
  (if nz (ticks s) || canceled s then Z.land events FS_POLL_READ else 0, s).

Definition set_ticks (t : Z) (x : bool) (s : timerfd_state) : timerfd_state :=
  TimerFd (due s) (interval s) t (generation s) (clockid s) (wall s) (cancel_on_set s) x (notified s).

(** The result and the ticks read: [- ECANCELED], 8 for a read, or 0 when
    there is nothing to read yet. *)
Definition timerfd_take (c : clock) (s : timerfd_state) : Z * Z * timerfd_state :=
  let s := timerfd_update c s in
  if canceled s then (- ECANCELED, 0, set_ticks (ticks s) false s)
  else if nz (ticks s) then (8, ticks s, set_ticks 0 false s)
  else (0, 0, s).

Definition timerfd_ns (sec nsec : Z) : Z + Z :=
  if (sec <? 0) || (nsec <? 0) || (NS_PER_SEC <=? nsec) then inl (- EINVAL)
  else if (INT64_MAX - nsec) / NS_PER_SEC <? sec then inr INT64_MAX
  else inr (sec * NS_PER_SEC + nsec).

(** Interval and value, each in seconds and nanoseconds. *)
Record timerfd_spec := Spec { interval_sec : Z; interval_nsec : Z; value_sec : Z; value_nsec : Z }.

Definition timerfd_get (c c' : clock) (s : timerfd_state) : timerfd_spec * timerfd_state :=
  let s := timerfd_update c s in
  let now := timerfd_now s c' in
  let left := if now <? due s then due s - now else 0 in
  (Spec (interval s / NS_PER_SEC) (interval s mod NS_PER_SEC) (left / NS_PER_SEC) (left mod NS_PER_SEC), s).

(** The part of timerfd_control() under the lock that sets the timer; [c] is
    read for the start and [c'] for the update. *)
Definition timerfd_set (c c' : clock) (flags at_ns ivl : Z) (s : timerfd_state) : Z * timerfd_state :=
  let absolute := nz (Z.land flags TFD_TIMER_ABSTIME) in
  let wall := (clockid s =? 0) && absolute in
  let gen := if wall then wall_generation c else 0 in
  let now := if wall then u64 (wall_us c * 1000) else u64 (mono_us c * 1000) in
  if negb absolute && (UINT64_MAX - now <? at_ns) then (- EINVAL, s) else
  (0, timerfd_update c' (TimerFd (if nz at_ns then if absolute then at_ns else u64 (now + at_ns) else 0) ivl 0 gen (clockid s) wall
     (wall && nz (Z.land flags TFD_TIMER_CANCEL_ON_SET)) false (notified s))).

(** [value]: the new setting, if one is given; [old]: whether the old one is
    asked for.  The descriptor is a timer descriptor. *)
Definition timerfd_control (c1 c2 c3 c4 : clock) (flags : Z) (value : option timerfd_spec) (old : bool) (s : timerfd_state)
  : (Z + option timerfd_spec) * timerfd_state :=
  let run at_ns ivl :=
    let '(o, s) := if old then let '(v, s) := timerfd_get c1 c2 s in (Some v, s) else (None, s) in
    match value with
    | None => (inr o, s)
    | Some _ => let '(r, s) := timerfd_set c3 c4 flags at_ns ivl s in (if nz r then inl r else inr o, s)
    end in
  match value with
  | None => run 0 0
  | Some v =>
      if nz (Z.ldiff flags (Z.lor TFD_TIMER_ABSTIME TFD_TIMER_CANCEL_ON_SET)) then (inl (- EINVAL), s) else
      match timerfd_ns (value_sec v) (value_nsec v), timerfd_ns (interval_sec v) (interval_nsec v) with
      | inl e, _ => (inl e, s)
      | _, inl e => (inl e, s)
      | inr at_ns, inr ivl => run at_ns ivl
      end
  end.

Definition timerfd_copy32 (v : timerfd_spec) : Z + timerfd_spec :=
  if (0x7fffffff <? interval_sec v) || (0x7fffffff <? value_sec v) then inl (- EOVERFLOW) else inr v.

(** sys_timerfd_create() *)
Definition timerfd_create (id flags : Z) : Z + timerfd_state :=
  if negb ((id =? 0) || (id =? 1) || (id =? 7)) || nz (Z.ldiff flags (Z.lor O_NONBLOCK O_CLOEXEC)) then inl (- EINVAL)
  else inr (TimerFd 0 0 0 0 id false false false 0).

(** ** A history of one descriptor: polls and reads, with the ticks read *)

Inductive tevent := TPoll (c : clock) | TRead (c : clock).
Definition clock_of (e : tevent) : clock := match e with TPoll c | TRead c => c end.
Definition tperform (e : tevent) (sr : timerfd_state * Z) : timerfd_state * Z :=
  let '(s, r) := sr in
  match e with
  | TPoll c => (snd (timerfd_poll c FS_POLL_READ s), r)
  | TRead c => let '(_, t, s) := timerfd_take c s in (s, r + t)
  end.
