(* ===== verification/TimerFdProof.v ===== *)
(** * Timer descriptors: theorems

    The ticks of a periodic timer are exact whenever and however often it is
    polled and read. *)

From S2P Require Import Prelude Poll TimerFd.

(** How often a timer first due at [d] has expired at [now]. *)
Definition expirations (d i now : Z) : Z := if now <? d then 0 else (now - d) / i + 1.

(** A running periodic timer on the monotonic clock, [r] of whose ticks were
    read. *)
Record running (d i r : Z) (s : timerfd_state) : Prop := {
  r_interval : interval s = i;
  r_due : due s = d + i * (r + ticks s);
  r_mono : wall s = false /\ cancel_on_set s = false /\ canceled s = false;
  r_ticks : 0 <= ticks s /\ 0 <= r
}.

Definition now_ns (c : clock) : Z := mono_us c * 1000.

Section Periodic.
Context (d i : Z) (Hd : 0 < d) (Hi : 0 < i).

Lemma expirations_bound now : 0 <= expirations d i now /\ (d <= now -> expirations d i now <= now - d + 1).
Proof.
  unfold expirations. destruct (Z.ltb_spec now d); [lia|]. assert (0 <= (now - d) / i) by (apply Z.div_pos; lia).
  split; [lia|]. intros _. assert ((now - d) / i <= now - d) by (apply Z.div_le_upper_bound; nia). lia.
Qed.

(** The count goes on from where it was. *)
Lemma expirations_step k now prev :
  prev <= now -> expirations d i prev = k ->
  expirations d i now = if now <? d + i * k then k else k + (1 + (now - (d + i * k)) / i).
Proof.
  unfold expirations. intros Hp Hk. destruct (Z.ltb_spec now (d + i * k)) as [Hlt | Hge].
  - destruct (Z.ltb_spec prev d); [subst k; rewrite (proj2 (Z.ltb_lt _ _)) by lia; done|]. rewrite (proj2 (Z.ltb_ge _ _)) by lia.
    assert ((prev - d) / i <= (now - d) / i) by (apply Z.div_le_mono; lia).
    assert ((now - d) / i < k) by (apply Z.div_lt_upper_bound; lia). lia.
  - assert (0 <= k) by (pose proof (expirations_bound prev) as [? _]; unfold expirations in *; lia).
    rewrite (proj2 (Z.ltb_ge _ _)) by nia. replace (now - (d + i * k)) with (now - d + (- k) * i) by ring. rewrite Z.div_add by lia. lia.
Qed.

Lemma update_running r s c prev :
  running d i r s -> expirations d i prev = r + ticks s -> prev <= now_ns c -> 0 <= now_ns c -> now_ns c + i < UINT64_MOD ->
  running d i r (timerfd_update c s) /\ r + ticks (timerfd_update c s) = expirations d i (now_ns c).
Proof.
  intros [H1 H2 (Hw & Hc & Hx) [Ht Hr]] Hk Hp H0 Hb. pose proof (expirations_step _ _ _ Hp Hk) as He. rewrite <- H2 in He.
  unfold timerfd_update, timerfd_now. rewrite Hw, Hc. cbn [andb]. unfold now_ns in *. set (now := mono_us c * 1000) in *.
  assert (Hdue : 0 < due s) by nia. rewrite u64_id by (unfold UINT64_MOD in *; lia). rewrite (proj2 (Z.eqb_neq (due s) 0)) by lia. cbn [orb].
  destruct (Z.ltb_spec now (due s)) as [Hlt | Hge]; [split; [split; auto | lia]|].
  unfold nz. rewrite H1, (proj2 (Z.eqb_neq i 0)) by lia. cbn [negb].
  set (q := (now - due s) / i) in *. pose proof (Z.div_mod (now - due s) i ltac:(lia)) as Em. pose proof (Z.mod_pos_bound (now - due s) i ltac:(lia)) as Hm.
  fold q in Em. assert (Hq : 0 <= q) by (apply Z.div_pos; lia). pose proof (expirations_bound now) as [_ Hbound].
  assert (Hk' : r + ticks s + (1 + q) <= now) by nia. unfold UINT64_MAX, UINT64_MOD in *.
  rewrite (u64_id (1 + q)) by (unfold UINT64_MOD; lia). rewrite (proj2 (Z.ltb_ge (2 ^ 64 - 1 - now) _)) by lia.
  rewrite (proj2 (Z.ltb_ge (2 ^ 64 - 1 - ticks s) _)) by lia. rewrite !u64_id by (unfold UINT64_MOD; lia).
  cbn [ticks]. split; [|lia]. split; cbn; [done | nia | auto | lia].
Qed.

Lemma step_running e r s prev :
  running d i r s -> expirations d i prev = r + ticks s -> prev <= now_ns (clock_of e) -> 0 <= now_ns (clock_of e) -> now_ns (clock_of e) + i < UINT64_MOD ->
  let '(s', r') := tperform e (s, r) in running d i r' s' /\ r' + ticks s' = expirations d i (now_ns (clock_of e)).
Proof.
  intros H Hk Hp H0 Hb. destruct (update_running r s (clock_of e) prev H Hk Hp H0 Hb) as [Hu Ht]. destruct e as [c | c]; cbn [tperform clock_of] in *.
  - unfold timerfd_poll. cbn [snd]. done.
  - unfold timerfd_take. destruct Hu as [U1 U2 (U3 & U4 & U5) [U6 U7]]. rewrite U5. unfold nz. destruct (Z.eqb_spec (ticks (timerfd_update c s)) 0) as [Hz | Hz]; cbn [negb].
    + rewrite Z.add_0_r. split; [split; auto | done].
    + cbn [set_ticks ticks]. split; [|lia]. split; cbn; [done | rewrite U2; ring | auto | lia].
Qed.

Fixpoint tperform_all (es : list tevent) (sr : timerfd_state * Z) : timerfd_state * Z :=
  match es with [] => sr | e :: es => tperform_all es (tperform e sr) end.

(** The clock does not run backwards from [prev]. *)
Fixpoint in_order (prev : Z) (es : list tevent) : Prop :=
  match es with [] => True | e :: es => prev <= now_ns (clock_of e) /\ in_order (now_ns (clock_of e)) es end.

Lemma history_running es : forall r s prev,
  running d i r s -> expirations d i prev = r + ticks s -> 0 <= prev -> in_order prev es -> Forall (fun e => now_ns (clock_of e) + i < UINT64_MOD) es ->
  let '(s', r') := tperform_all es (s, r) in
  running d i r' s' /\ r' + ticks s' = expirations d i (from_option (fun e => now_ns (clock_of e)) prev (last es)).
Proof.
  induction es as [|e es IH]; intros r s prev H Hk H0 Ho Hb; [cbn; done|]. destruct Ho as [Hp Ho]. apply Forall_cons in Hb as [Hb Hbs].
  pose proof (step_running e r s prev H Hk Hp ltac:(lia) Hb) as Hs. cbn [tperform_all]. destruct (tperform e (s, r)) as [s1 r1]. destruct Hs as [H1 H2].
  pose proof (IH r1 s1 (now_ns (clock_of e)) H1 ltac:(auto) ltac:(lia) Ho Hbs) as Hrec. destruct (tperform_all es (s1, r1)) as [s2 r2].
  destruct es as [|e' es]; [cbn in *; done|]. rewrite last_cons_cons. destruct (last (e' :: es)) eqn:El; [exact Hrec|]. apply last_None in El. done.
Qed.
End Periodic.

(** A periodic timer never loses or invents a tick: after any history of
    polls and reads, at whatever times and however late, the ticks that were
    read and the ones still to be read are together the number of its periods
    that have passed. *)
Theorem timerfd_ticks_exact d i s es e :
  0 < d -> 0 < i -> running d i 0 s -> ticks s = 0 -> in_order 0 (es ++ [e]) -> Forall (fun e => now_ns (clock_of e) + i < UINT64_MOD) (es ++ [e]) ->
  let '(s', r) := tperform_all (es ++ [e]) (s, 0) in r + ticks s' = expirations d i (now_ns (clock_of e)).
Proof.
  intros Hd Hi Hr Ht Ho Hb. pose proof (history_running d i Hd Hi (es ++ [e]) 0 s 0 Hr) as H.
  rewrite last_snoc in H. cbn [from_option] in H. destruct (tperform_all (es ++ [e]) (s, 0)) as [s' r]. apply H; try done.
  rewrite Ht. unfold expirations. rewrite (proj2 (Z.ltb_lt _ _)) by lia. done.
Qed.

Lemma timerfd_ticks_exact_witness :
  let s := TimerFd 5000 2000 0 0 1 false false false 0 in
  let '(s', r) := tperform_all [TRead (Clock 4 0 0); TPoll (Clock 8 0 0); TRead (Clock 12 0 0); TPoll (Clock 16 0 0)] (s, 0) in r + ticks s' = 6.
Proof.
  apply (timerfd_ticks_exact 5000 2000 (TimerFd 5000 2000 0 0 1 false false false 0) [TRead (Clock 4 0 0); TPoll (Clock 8 0 0); TRead (Clock 12 0 0)] (TPoll (Clock 16 0 0)));
    [lia | lia | split; cbn; auto; lia | done | cbn; unfold now_ns; cbn; lia | repeat constructor; unfold now_ns, UINT64_MOD; cbn; lia].
Defined.
