(* ===== verification/EventFd.v ===== *)
(** * Event counters (eventfd)

    Model of src/fs/impl/eventfd.c.  A read or write waits in the generic
    poll loop with the transfer itself as the check, so the loop of Poll is
    instantiated with the context of the call. *)

From S2P Require Import Prelude Poll.
Open Scope mos_scope.

Definition EFD_SEMAPHORE : Z := 1.
Definition EVENTFD_MAX : Z := UINT64_MAX - 1.
Definition S_IRUSR : Z := 256.
Definition S_IWUSR : Z := 128.

(** [notified] counts the calls of poll_notify() on the waiters. *)
Record eventfd_state := EventFd {
  counter : Z; semaphore : bool; uid : Z; gid : Z; notified : Z }.

(** A waiting call: [head] is the address of the waiters' list, [io_wait]
    whether the task's cancellation hook is set. *)
Record eventfd_wait := EWait {
  state : eventfd_state; value : Z; write : bool;
  table : poll_table; lists : wait_lists; head : Z; self : Z; io_wait : bool }.

Definition set_counter (s : eventfd_state) (c : Z) : eventfd_state :=
  EventFd c (semaphore s) (uid s) (gid s) (notified s + 1).

Definition eventfd_transfer (w : eventfd_wait) : Z * eventfd_wait :=
  let s := state w in
  let done v s' := (8, EWait s' v (write w) (table w) (lists w) (head w) (self w) (io_wait w)) in
  if write w then
    if u64 (EVENTFD_MAX - counter s) <? value w then (0, w)
    else done (value w) (set_counter s (u64 (counter s + value w)))
  else
    if counter s =? 0 then (0, w)
    else
      let v := if semaphore s then 1 else counter s in
      done v (set_counter s (u64 (counter s - v))).

Definition eventfd_wait_register (w : eventfd_wait) : Z * eventfd_wait :=
  let '(t, l) := poll_subscribe (self w) (table w) (head w) (lists w) in
  (b2z (unsupported t), EWait (state w) (value w) (write w) t l (head w) (self w) true).

Definition eventfd_wait_unregister (w : eventfd_wait) : eventfd_wait :=
  let '(t, l) := poll_table_cleanup (self w) (table w) (lists w) in
  EWait (state w) (value w) (write w) t l (head w) (self w) false.

#[export] Instance eventfd_wait_ops : PollOps eventfd_wait := {
  check := eventfd_transfer; reg := eventfd_wait_register; dereg := eventfd_wait_unregister }.

(** The cancellation hook run when the waiting task is killed. *)
Definition eventfd_wait_cancel (w : eventfd_wait) : eventfd_wait :=
  let '(t, l) := poll_table_cleanup (self w) (table w) (lists w) in
  EWait (state w) (value w) (write w) t l (head w) (self w) (io_wait w).

Definition map_done {S} (f : Z -> Z) (r : poll_result S) : poll_result S :=
  match r with
  | PollDone ret s sl => PollDone (f ret) s sl
  | PollWaiting s sl => PollWaiting s sl
  end.

Definition eventfd_transfer_wait (f_flag : Z) (rs : list (round eventfd_wait)) (w : eventfd_wait)
  : poll_result eventfd_wait :=
  let w0 := EWait (state w) (value w) (write w) (poll_table_init 1) (lists w) (head w) (self w) (io_wait w) in
  map_done (fun ret => if nz ret then ret else - EAGAIN)
    (poll_wait_loop (nz (Z.land f_flag O_NONBLOCK)) true 0 rs w0).

Definition new_wait (s : eventfd_state) (v : Z) (wr : bool) (l : wait_lists) (h id : Z) : eventfd_wait :=
  EWait s v wr (poll_table_init 0) l h id false.

(** [copied] is whether the copy to the caller's buffer succeeds. *)
Definition eventfd_read (s : eventfd_state) (l : wait_lists) (h id f_flag count : Z) (copied : bool)
  (rs : list (round eventfd_wait)) : poll_result eventfd_wait :=
  let w := new_wait s 0 false l h id in
  if count <? 8 then PollDone (- EINVAL) w []
  else map_done (fun ret => if (0 <? ret) && negb copied then - EFAULT else ret)
         (eventfd_transfer_wait f_flag rs w).

(** [data] is the value copied from the caller, [None] when that fails. *)
Definition eventfd_write (s : eventfd_state) (l : wait_lists) (h id f_flag count : Z) (data : option Z)
  (rs : list (round eventfd_wait)) : poll_result eventfd_wait :=
  let w := new_wait s 0 true l h id in
  if negb (count =? 8) then PollDone (- EINVAL) w []
  else match data with
  | None => PollDone (- EFAULT) w []
  | Some v =>
      if v =? UINT64_MAX then PollDone (- EINVAL) (new_wait s v true l h id) []
      else eventfd_transfer_wait f_flag rs (new_wait s v true l h id)
  end.

Definition eventfd_poll (s : eventfd_state) (events : Z) : Z :=
  let r := if nz (counter s) then Z.land events FS_POLL_READ else 0 in
  if counter s <? EVENTFD_MAX then Z.lor r (Z.land events FS_POLL_WRITE) else r.

Definition eventfd_getattr (s : eventfd_state) : Z * Z * Z * Z :=
  (Z.lor S_IRUSR S_IWUSR, 1, uid s, gid s).

(** [mem_ok]: the allocations succeed; [install]: what fs_install_fd()
    returns.  The result carries the new state and the file's flags. *)
Definition sys_eventfd2 (initval flags : Z) (mem_ok : bool) (install euid egid : Z)
  : Z * option (eventfd_state * Z) :=
  if nz (Z.ldiff flags (Z.lor (Z.lor EFD_SEMAPHORE O_NONBLOCK) O_CLOEXEC)) then (- EINVAL, None)
  else if negb mem_ok then (- ENOMEM, None)
  else
    let s := EventFd initval (nz (Z.land flags EFD_SEMAPHORE)) euid egid 0 in
    if install <? 0 then (if install <? -1 then install else - EMFILE, None)
    else (install, Some (s, Z.lor O_RDWR (Z.land flags O_NONBLOCK))).

Definition sys_eventfd (initval : Z) (mem_ok : bool) (install euid egid : Z) :=
  sys_eventfd2 initval 0 mem_ok install euid egid.
