(* ===== verification/EventFdProof.v ===== *)
(** * Event counters never lose or invent events *)

From S2P Require Import Prelude Poll PollProof EventFd.
Open Scope mos_scope.

Definition efd_ok (s : eventfd_state) : Prop := 0 <= counter s <= EVENTFD_MAX.

(** ** One transfer *)

(** The effect of a successful transfer on the counter. *)
Definition moved (s s' : eventfd_state) (wr : bool) (v : Z) : Prop :=
  semaphore s' = semaphore s /\ notified s' = notified s + 1 /\
  if wr then counter s' = counter s + v
  else 0 < counter s /\ v = (if semaphore s then 1 else counter s) /\ counter s' = counter s - v.

Lemma transfer_cases w :
  efd_ok (state w) -> 0 <= value w < UINT64_MAX ->
  let '(r, w') := eventfd_transfer w in
  (r = 0 /\ w' = w /\ (if write w then EVENTFD_MAX < counter (state w) + value w else counter (state w) = 0)) \/
  (r = 8 /\ moved (state w) (state w') (write w) (value w') /\ efd_ok (state w') /\
   (write w = true -> value w' = value w) /\ 0 <= value w' < UINT64_MAX /\
   write w' = write w /\ table w' = table w /\ lists w' = lists w /\ head w' = head w /\ self w' = self w).
Proof.
  unfold efd_ok, EVENTFD_MAX, UINT64_MAX; intros Hc Hv; unfold eventfd_transfer.
  destruct (write w) eqn:Ew.
  - rewrite u64_id by (unfold UINT64_MOD, EVENTFD_MAX, UINT64_MAX; lia). unfold EVENTFD_MAX, UINT64_MAX.
    destruct (Z.ltb_spec (2 ^ 64 - 1 - 1 - counter (state w)) (value w)); [left; split_and!; done || lia|].
    right; unfold moved; cbn. rewrite u64_id by (unfold UINT64_MOD; lia). split_and!; done || lia.
  - destruct (Z.eqb_spec (counter (state w)) 0); [left; done|].
    right; unfold moved; cbn. destruct (semaphore (state w)); cbn;
      rewrite u64_id by (unfold UINT64_MOD; lia); split_and!; done || lia.
Qed.

(** ** Waiting calls *)

(** The context of a call with identity [id]; a writer's value does not
    change. *)
Definition efd_inv (id : Z) (wr : bool) (v : Z) (w : eventfd_wait) : Prop :=
  self w = id /\ write w = wr /\ (wr = true -> value w = v) /\ 0 <= value w < UINT64_MAX /\
  efd_ok (state w) /\ table_ok id (table w) (lists w).
Definition efd_clean (id : Z) (w : eventfd_wait) : Prop :=
  entries (table w) = [] /\ forall h, mine id (lists w h) = [].

Lemma unregister_spec id w :
  self w = id -> table_ok id (table w) (lists w) ->
  efd_clean id (eventfd_wait_unregister w) /\ table_ok id (table (eventfd_wait_unregister w))
    (lists (eventfd_wait_unregister w)) /\ state (eventfd_wait_unregister w) = state w /\
  value (eventfd_wait_unregister w) = value w /\ write (eventfd_wait_unregister w) = write w /\
  self (eventfd_wait_unregister w) = id.
Proof.
  intros Es Ht; unfold eventfd_wait_unregister. rewrite Es.
  pose proof (poll_table_cleanup_ok id (table w) (lists w) Ht) as T.
  destruct (poll_table_cleanup id (table w) (lists w)) as [t l]; destruct T as [T1 T2].
  split; [split; done|]. split; [intros h; cbn [table lists]; rewrite T1, T2; done|].
  split_and!; done.
Qed.

#[local] Instance efd_laws id wr v : PollLaws eventfd_wait (efd_inv id wr v) (efd_clean id).
Proof.
  split.
  - intros w Hi; pose proof Hi as (I1 & I2 & I3 & I4 & I5 & I6); pose proof (transfer_cases w I5 I4) as T.
    change (check w) with (eventfd_transfer w). destruct (eventfd_transfer w) as [r w']; cbn [snd].
    destruct T as [(-> & -> & _) | (_ & _ & T1 & T2 & T3 & T4 & T5 & T6 & T7 & T8)]; [exact Hi|].
    split; [congruence|]. split; [congruence|]. split; [intros Hw; rewrite T2; auto; congruence|].
    split; [lia|]. split; [done|]. rewrite T5, T6; done.
  - intros w [C1 C2]. change (check w) with (eventfd_transfer w); unfold eventfd_transfer.
    repeat case_if; split; done.
  - intros w (I1 & I2 & I3 & I4 & I5 & I6) _. change (reg w) with (eventfd_wait_register w).
    unfold eventfd_wait_register. rewrite I1. pose proof (poll_subscribe_ok id (table w) (head w) (lists w) I6) as T.
    destruct (poll_subscribe id (table w) (head w) (lists w)) as [t l].
    cbn [snd fst] in T |- *. unfold efd_inv; cbn [self write value state table lists]. auto 8.
  - intros w. change (reg w) with (eventfd_wait_register w). unfold eventfd_wait_register.
    destruct (poll_subscribe _ _ _ _) as [t l]; cbn. destruct (unsupported t); cbn; lia.
  - intros w (I1 & I2 & I3 & I4 & I5 & I6). change (dereg w) with (eventfd_wait_unregister w).
    destruct (unregister_spec id w I1 I6) as (_ & U1 & U2 & U3 & U4 & U5).
    unfold efd_inv; rewrite U2, U3, U4. auto 8.
  - intros w (I1 & I2 & I3 & I4 & I5 & I6). change (dereg w) with (eventfd_wait_unregister w).
    apply unregister_spec; done.
Qed.

(** Other tasks may use the counter, within its range, and the lists. *)
Definition efd_others (w w' : eventfd_wait) : Prop :=
  efd_ok (state w') /\ value w' = value w /\ write w' = write w /\ table w' = table w /\
  self w' = self w /\ forall h, mine (self w) (lists w' h) = mine (self w) (lists w h).
Definition efd_fair (r : round eventfd_wait) : Prop :=
  forall w, efd_ok (state w) -> efd_others w (r_reg r w) /\ efd_others w (r_prep r w) /\ efd_others w (r_sleep r w).

Lemma efd_others_inv id wr v w w' : efd_others w w' -> efd_inv id wr v w -> efd_inv id wr v w'.
Proof.
  intros (O1 & O2 & O3 & O4 & O5 & O6) (I1 & I2 & I3 & I4 & I5 & I6).
  split; [congruence|]. split; [congruence|]. split; [rewrite O2; done|]. split; [rewrite O2; lia|].
  split; [done|]. intros h; rewrite O4, <- I6, <- I1, O6; done.
Qed.

(** How a transfer wait ends: with one transfer as the last thing it does, or
    with an error and no transfer. *)
Lemma transfer_wait_result s v wr l h id flag rs ret w slept :
  efd_ok s -> 0 <= v < UINT64_MAX -> (forall h, mine id (l h) = []) -> Forall efd_fair rs ->
  eventfd_transfer_wait flag rs (new_wait s v wr l h id) = PollDone ret w slept ->
  (forall h, mine id (lists w h) = []) /\ efd_ok (state w) /\
  ((ret = 8 /\ exists s0, efd_ok s0 /\ moved s0 (state w) wr (value w) /\ (wr = true -> value w = v)) \/
   ((ret = - EAGAIN \/ ret = - EINTR) /\
    (if wr then EVENTFD_MAX < counter (state w) + v else counter (state w) = 0))).
Proof.
  intros Hs Hv Hl Hrs; unfold eventfd_transfer_wait, new_wait.
  cbn [state value write table lists head self io_wait].
  set (w0 := EWait s v wr (poll_table_init 1) l h id false).
  destruct (poll_wait_loop _ true 0 rs w0) as [ret0 w1 sl|] eqn:E; cbn [map_done]; [|done].
  intros [= <- <- <-].
  assert (Hi : efd_inv id wr v w0) by (unfold efd_inv, w0; cbn [self write value state table lists]; auto 8).
  assert (Hc : efd_clean id w0) by (split; done).
  assert (Hr : Forall (@round_ok _ (efd_inv id wr v)) rs).
  { eapply Forall_impl; [exact Hrs|]. intros r Hf; split_and!; intros x Hx;
      (eapply efd_others_inv; [apply Hf; apply Hx | exact Hx]). }
  pose proof (poll_loop_ended (inv := efd_inv id wr v) (clean := efd_clean id) _ _ _ _ _ _ _ _ _ Hi Hc Hr E) as En.
  destruct (ended_clean _ _ En) as [[_ Hcl] (_ & _ & _ & _ & Hok & _)].
  split; [done|]. split; [done|].
  destruct En as (x & (I1 & I2 & I3 & I4 & I5 & I6) & Hst & Hret).
  pose proof (transfer_cases x I5 I4) as T. change (check x) with (eventfd_transfer x) in *.
  destruct (eventfd_transfer x) as [r x']; cbn [fst snd] in *.
  assert (F : state w1 = state x' /\ value w1 = value x').
  { destruct Hst as [[-> _] | ->]; [done|]. change (dereg x') with (eventfd_wait_unregister x').
    unfold eventfd_wait_unregister; destruct (poll_table_cleanup _ _ _); done. }
  destruct F as [-> ->].
  destruct T as [(-> & -> & T) | (-> & T1 & T2 & T3 & _)].
  - right; rewrite I2 in T. split; [destruct Hret as [-> | [_ ->]]; cbn; auto|].
    destruct wr; [rewrite I3 in T; done | done].
  - left. destruct Hret as [-> | [? _]]; [|lia]. split; [done|]. exists (state x).
    rewrite I2 in *. split_and!; try done. intros Hw; rewrite T3; auto.
Qed.

(** ** Properties *)

(** Any number of tasks transfer: the values given and taken so far. *)
Record efd_sys := EfdSys { es : eventfd_state; given : list Z; taken : list Z }.

Inductive efd_step : efd_sys -> efd_sys -> Prop :=
| EGive s w w' :
    state w = es s -> write w = true -> 0 <= value w < UINT64_MAX ->
    eventfd_transfer w = (8, w') ->
    efd_step s (EfdSys (state w') (given s ++ [value w]) (taken s))
| ETake s w w' :
    state w = es s -> write w = false -> 0 <= value w < UINT64_MAX ->
    eventfd_transfer w = (8, w') ->
    efd_step s (EfdSys (state w') (given s) (taken s ++ [value w'])).

Definition sum (l : list Z) : Z := foldr Z.add 0 l.

Lemma sum_snoc l x : sum (l ++ [x]) = sum l + x.
Proof. unfold sum; induction l as [|y l IH]; cbn in *; lia. Qed.

Definition efd_books (init : Z) (sem : bool) (s : efd_sys) : Prop :=
  efd_ok (es s) /\ semaphore (es s) = sem /\
  counter (es s) = init + sum (given s) - sum (taken s) /\
  Forall (fun v => 0 < v /\ (sem = true -> v = 1)) (taken s).

Lemma efd_step_books init sem s s' : efd_step s s' -> efd_books init sem s -> efd_books init sem s'.
Proof.
  intros Hs (B1 & B2 & B3 & B4); destruct Hs as [s w w' E Ew Hv T | s w w' E Ew Hv T];
    rewrite <- E in B1; pose proof (transfer_cases w B1 Hv) as C; rewrite T in C;
    destruct C as [(? & _) | (_ & (M1 & _ & M2) & C2 & C3 & _)]; try done; rewrite Ew, E in *;
    unfold efd_books; cbn [es given taken]; rewrite sum_snoc.
  - rewrite (C3 eq_refl) in M2. split_and!; try done; [congruence | lia].
  - destruct M2 as (M2 & M3 & M4). split_and!; try done; [congruence | lia |].
    apply Forall_app; split; [done|]. constructor; [|constructor]. rewrite M3, B2.
    destruct sem; [lia | split; [lia | done]].
Qed.

(** Bookkeeping: whatever reads and writes succeed, in any order, the
    counter is the initial value plus all values written minus all values
    read, and stays between 0 and its maximum; every read takes a positive
    value, 1 in semaphore mode. *)
Theorem eventfd_accounting init sem uid0 gid0 s :
  0 <= init <= EVENTFD_MAX ->
  rtc efd_step (EfdSys (EventFd init sem uid0 gid0 0) [] []) s ->
  counter (es s) = init + sum (given s) - sum (taken s) /\ efd_ok (es s) /\
  Forall (fun v => 0 < v /\ (sem = true -> v = 1)) (taken s).
Proof.
  intros Hi Hs.
  assert (B : efd_books init sem (EfdSys (EventFd init sem uid0 gid0 0) [] []))
    by (split_and!; cbn; try done; try lia; constructor).
  assert (B' : efd_books init sem s)
    by (clear Hi; revert B; induction Hs; eauto using efd_step_books).
  destruct B' as (B1 & _ & B3 & B4); auto.
Qed.

(** A read of at least 8 bytes ends in one of three ways: it returns 8,
    having taken a positive value (1 in semaphore mode) from the counter as
    its last action; or -EFAULT after the same transfer, when the copy to the
    caller fails; or -EAGAIN or -EINTR with the counter at 0 and nothing
    taken.  No subscription is left. *)
Theorem eventfd_read_result s l h id flag count copied rs ret w slept :
  efd_ok s -> (forall h, mine id (l h) = []) -> Forall efd_fair rs -> 8 <= count ->
  eventfd_read s l h id flag count copied rs = PollDone ret w slept ->
  (forall h, mine id (lists w h) = []) /\
  ((ret = (if copied then 8 else - EFAULT) /\ exists s0, efd_ok s0 /\ moved s0 (state w) false (value w)) \/
   ((ret = - EAGAIN \/ ret = - EINTR) /\ counter (state w) = 0)).
Proof.
  intros Hs Hl Hrs Hc; unfold eventfd_read. destruct (Z.ltb_spec count 8); [lia|].
  destruct (eventfd_transfer_wait flag rs (new_wait s 0 false l h id)) as [r w1 sl|] eqn:E; [|done].
  cbn [map_done]; intros [= <- <- <-].
  assert (Hv : 0 <= 0 < UINT64_MAX) by (unfold UINT64_MAX; lia).
  destruct (transfer_wait_result _ _ _ _ _ _ _ _ _ _ _ Hs Hv Hl Hrs E)
    as (H1 & _ & [(-> & s0 & H2 & H3 & _) | (H2 & H3)]); split; try done.
  - left; split; [destruct copied; done | eauto].
  - right; split; [|done]. destruct H2 as [-> | ->]; cbn; auto.
Qed.

(** A write of a legal value ends either with 8, having added exactly
    that value to the counter as its last action without overflow, or with
    -EAGAIN or -EINTR and no effect, the value not fitting.  The value
    2^64 - 1 is refused. *)
Theorem eventfd_write_result s l h id flag v rs ret w slept :
  efd_ok s -> (forall h, mine id (l h) = []) -> Forall efd_fair rs -> 0 <= v <= UINT64_MAX ->
  eventfd_write s l h id flag 8 (Some v) rs = PollDone ret w slept ->
  (forall h, mine id (lists w h) = []) /\
  ((v = UINT64_MAX /\ ret = - EINVAL /\ state w = s) \/
   (v <> UINT64_MAX /\ ret = 8 /\ exists s0, efd_ok s0 /\ counter (state w) = counter s0 + v /\ efd_ok (state w)) \/
   (v <> UINT64_MAX /\ (ret = - EAGAIN \/ ret = - EINTR) /\ EVENTFD_MAX < counter (state w) + v)).
Proof.
  intros Hs Hl Hrs Hv; unfold eventfd_write. cbn [negb Z.eqb]. change (8 =? 8) with true; cbn [negb].
  destruct (Z.eqb_spec v UINT64_MAX) as [-> | Hn]; [intros [= <- <- <-]; split; [exact Hl | auto]|].
  intros E; assert (Hv' : 0 <= v < UINT64_MAX) by lia.
  destruct (transfer_wait_result _ _ _ _ _ _ _ _ _ _ _ Hs Hv' Hl Hrs E)
    as (H1 & H0 & [(-> & s0 & H2 & (_ & _ & H3) & H4) | (H2 & H3)]); split; try done; right.
  - left; rewrite H4 in H3 by done. eauto 6.
  - right; auto.
Qed.

(** Eventfd_poll() announces reading exactly when a non-blocking read
    would take a value, and writing exactly when a non-blocking write of 1
    would be accepted. *)
Theorem eventfd_poll_agree s l h id :
  efd_ok s ->
  let ready := eventfd_poll s (Z.lor FS_POLL_READ FS_POLL_WRITE) in
  (exists w, eventfd_read s l h id O_NONBLOCK 8 true [] =
     PollDone (if nz (Z.land ready FS_POLL_READ) then 8 else - EAGAIN) w []) /\
  (exists w, eventfd_write s l h id O_NONBLOCK 8 (Some 1) [] =
     PollDone (if nz (Z.land ready FS_POLL_WRITE) then 8 else - EAGAIN) w []).
Proof.
  intros Hs; unfold efd_ok in Hs.
  unfold eventfd_poll, eventfd_read, eventfd_write, eventfd_transfer_wait, poll_wait_loop, new_wait.
  cbn -[EVENTFD_MAX u64 UINT64_MAX Z.lor Z.land nz].
  change (nz (Z.land O_NONBLOCK O_NONBLOCK)) with true. unfold eventfd_transfer; cbn -[EVENTFD_MAX u64 UINT64_MAX Z.lor Z.land nz].
  rewrite (u64_id (EVENTFD_MAX - counter s)) by (unfold UINT64_MOD, EVENTFD_MAX, UINT64_MAX in *; lia). split.
  - change (nz (counter s)) with (negb (counter s =? 0)).
    destruct (Z.eqb_spec (counter s) 0); eexists; destruct (counter s <? EVENTFD_MAX); reflexivity.
  - change (1 =? UINT64_MAX) with false; cbn iota.
    destruct (Z.ltb_spec (EVENTFD_MAX - counter s) 1), (Z.ltb_spec (counter s) EVENTFD_MAX); try lia;
      eexists; destruct (nz (counter s)); reflexivity.
Qed.

(** ** Concrete instances *)

Definition demo_efd : eventfd_state := EventFd 5 false 0 0 0.
Definition demo_no_lists : wait_lists := fun _ => [].

Lemma eventfd_accounting_witness :
  let s := EfdSys (EventFd 0 false 0 0 2) [2] [7] in
  counter (es s) = 5 + sum (given s) - sum (taken s).
Proof.
  apply (eventfd_accounting 5 false 0 0 (EfdSys (EventFd 0 false 0 0 2) [2] [7])).
  - split; discriminate.
  - eapply rtc_l; [|eapply rtc_l; [|apply rtc_refl]].
    + apply (EGive (EfdSys demo_efd [] []) (new_wait demo_efd 2 true demo_no_lists 7 9)
               (eventfd_transfer (new_wait demo_efd 2 true demo_no_lists 7 9)).2);
        [reflexivity | reflexivity | split; [discriminate | reflexivity] | reflexivity].
    + apply (ETake (EfdSys (EventFd 7 false 0 0 1) [2] [])
               (new_wait (EventFd 7 false 0 0 1) 0 false demo_no_lists 7 9)
               (eventfd_transfer (new_wait (EventFd 7 false 0 0 1) 0 false demo_no_lists 7 9)).2);
        [reflexivity | reflexivity | split; [discriminate | reflexivity] | reflexivity].
Defined.

(** The reader sleeps on an empty counter; a writer adds 4 meanwhile. *)
Definition demo_efd_round : round eventfd_wait :=
  Round 0 (fun w => w) 0 false (fun w => w)
    (fun w => EWait (EventFd 4 false 0 0 1) (value w) (write w) (table w) (lists w) (head w) (self w) (io_wait w))
    false.

Lemma demo_efd_fair : Forall efd_fair [demo_efd_round].
Proof.
  constructor; [|constructor]. intros w Hw; split_and!; try done;
    unfold efd_ok; cbn; try lia; vm_compute; split; discriminate.
Qed.

Definition demo_efd_read : poll_result eventfd_wait :=
  eventfd_read (EventFd 0 false 0 0 0) demo_no_lists 7 9 0 8 true [demo_efd_round].
Definition demo_efd_end : eventfd_wait :=
  match demo_efd_read with PollDone _ w _ | PollWaiting w _ => w end.

Lemma eventfd_read_result_witness :
  demo_efd_read = PollDone 8 demo_efd_end [0] /\ (forall h, mine 9 (lists demo_efd_end h) = []).
Proof.
  assert (E : demo_efd_read = PollDone 8 demo_efd_end [0]) by reflexivity.
  split; [exact E|].
  apply (eventfd_read_result (EventFd 0 false 0 0 0) demo_no_lists 7 9 0 8 true [demo_efd_round]
           8 demo_efd_end [0]); [split; discriminate | reflexivity | exact demo_efd_fair | discriminate | exact E].
Defined.

Definition demo_efd_write : poll_result eventfd_wait :=
  eventfd_write demo_efd demo_no_lists 7 9 0 8 (Some 3) [].
Definition demo_efd_write_end : eventfd_wait :=
  match demo_efd_write with PollDone _ w _ | PollWaiting w _ => w end.

Lemma eventfd_write_result_witness :
  demo_efd_write = PollDone 8 demo_efd_write_end [] /\ (forall h, mine 9 (lists demo_efd_write_end h) = []).
Proof.
  assert (E : demo_efd_write = PollDone 8 demo_efd_write_end []) by reflexivity.
  split; [exact E|].
  apply (eventfd_write_result demo_efd demo_no_lists 7 9 0 3 [] 8 demo_efd_write_end []);
    [split; discriminate | reflexivity | constructor | split; discriminate | exact E].
Defined.

Lemma eventfd_poll_agree_witness :
  exists w, eventfd_read demo_efd demo_no_lists 7 9 O_NONBLOCK 8 true [] = PollDone 8 w [].
Proof. apply (eventfd_poll_agree demo_efd demo_no_lists 7 9); split; discriminate. Defined.
