(* ===== verification/RbTree.v ===== *)
(** * Red-black trees

    Model of src/lib/impl/rbtree.c and src/lib/rbtree.h at the level of
    memory: nodes with the parent and the colour packed in one word, and the
    two children, at addresses; 0 is NULL.  The functions are programs of a
    state monad that fail where the code would follow a NULL or dangling
    pointer, or when a loop runs longer than its fuel. *)

From S2P Require Import Prelude.

Record rb_node := RbNode { rb_parent_color : Z; rb_right : Z; rb_left : Z }.
Definition _RBTREE_RED : Z := 0.
Definition _RBTREE_BLACK : Z := 1.

(** The memory of the nodes and the root. *)
Record rb_mem := RbMem { nodes : gmap Z rb_node; root : Z }.

Abbreviation M := (st rb_mem).

Definition node (a : Z) : M rb_node := fun s => n ← nodes s !! a; Some (n, s).
Definition update (a : Z) (f : rb_node -> rb_node) : M unit := fun s =>
  n ← nodes s !! a; Some (tt, RbMem (<[a := f n]> (nodes s)) (root s)).
Definition get_root : M Z := fun s => Some (root s, s).
Definition set_root (a : Z) : M unit := fun s => Some (tt, RbMem (nodes s) a).

(** ** Fields *)

Definition parent_of (n : rb_node) : Z := Z.ldiff (rb_parent_color n) 3.
Definition color_of (n : rb_node) : Z := Z.land (rb_parent_color n) 1.

Definition rb_parent (r : Z) : M Z := n ← node r; mret (parent_of n).
Definition rb_color (r : Z) : M Z := n ← node r; mret (color_of n).
Definition rb_is_red (r : Z) : M bool := c ← rb_color r; mret (negb (nz c)).
Definition rb_is_black (r : Z) : M bool := c ← rb_color r; mret (nz c).
Definition left (r : Z) : M Z := n ← node r; mret (rb_left n).
Definition right (r : Z) : M Z := n ← node r; mret (rb_right n).

Definition set_pc (f : Z -> Z) (n : rb_node) : rb_node :=
  RbNode (f (rb_parent_color n)) (rb_right n) (rb_left n).
Definition rb_set_red (r : Z) : M unit := update r (set_pc (fun w => Z.ldiff w 1)).
Definition rb_set_black (r : Z) : M unit := update r (set_pc (fun w => Z.lor w 1)).
Definition rb_set_parent (r p : Z) : M unit := update r (set_pc (fun w => Z.lor (Z.land w 3) p)).
Definition rb_set_color (r c : Z) : M unit := update r (set_pc (fun w => Z.lor (Z.ldiff w 1) c)).
Definition set_left (r x : Z) : M unit := update r (fun n => RbNode (rb_parent_color n) (rb_right n) x).
Definition set_right (r x : Z) : M unit := update r (fun n => RbNode (rb_parent_color n) x (rb_left n)).

Definition when (b : bool) (m : M unit) : M unit := if b then m else mret tt.

(** The link to [old] in its parent, or in the root, becomes one to [new];
    [right_first]: which child the code compares. *)
Definition change_child (right_first : bool) (parent old new : Z) : M unit :=
  if nz parent then
    if right_first then
      r ← right parent; if old =? r then set_right parent new else set_left parent new
    else
      l ← left parent; if old =? l then set_left parent new else set_right parent new
  else set_root new.

(** ** Rotations *)

Definition __rb_rotate_left (n : Z) : M unit :=
  r ← right n; parent ← rb_parent n;
  rl ← left r; set_right n rl;;
  when (nz rl) (rb_set_parent rl n);;
  set_left r n;;
  rb_set_parent r parent;;
  change_child false parent n r;;
  rb_set_parent n r.

Definition __rb_rotate_right (n : Z) : M unit :=
  l ← left n; parent ← rb_parent n;
  lr ← right l; set_left n lr;;
  when (nz lr) (rb_set_parent lr n);;
  set_right l n;;
  rb_set_parent l parent;;
  change_child true parent n l;;
  rb_set_parent n l.

(** ** Insertion *)

Definition rb_link_node (n parent : Z) (rb_link : Z -> M unit) : M unit :=
  update n (fun _ => RbNode parent 0 0);; rb_link n.

(** Whether a child that may be NULL is there and red, or not there or black. *)
Definition red_child (r : Z) : M bool := if nz r then rb_is_red r else mret false.
Definition black_child (r : Z) : M bool := if nz r then rb_is_black r else mret true.

Definition recolor (uncle parent gparent : Z) : M unit :=
  rb_set_black uncle;; rb_set_black parent;; rb_set_red gparent.

(** The body of the loop for a red parent that is a left child; [again] is the
    next round. *)
Definition insert_left (again : Z -> M unit) (n parent gparent : Z) : M unit :=
  uncle ← right gparent;
  u ← red_child uncle;
  if u : bool then recolor uncle parent gparent;; again gparent else
  pr ← right parent;
  let turn := pr =? n in
  when turn (__rb_rotate_left parent);;
  let '(parent, n) := if turn then (n, parent) else (parent, n) in
  rb_set_black parent;; rb_set_red gparent;; __rb_rotate_right gparent;;
  again n.

(** For a right child. *)
Definition insert_right (again : Z -> M unit) (n parent gparent : Z) : M unit :=
  uncle ← left gparent;
  u ← red_child uncle;
  if u : bool then recolor uncle parent gparent;; again gparent else
  pl ← left parent;
  let turn := pl =? n in
  when turn (__rb_rotate_right parent);;
  let '(parent, n) := if turn then (n, parent) else (parent, n) in
  rb_set_black parent;; rb_set_red gparent;; __rb_rotate_left gparent;;
  again n.

Fixpoint insert_loop (fuel : nat) (n : Z) : M unit :=
  match fuel with
  | O => fun _ => None
  | S f =>
      parent ← rb_parent n;
      red ← red_child parent;
      if negb red then mret tt else
      gparent ← rb_parent parent;
      gl ← left gparent;
      if parent =? gl then insert_left (insert_loop f) n parent gparent
      else insert_right (insert_loop f) n parent gparent
  end.

(** Enough for a path to the root. *)
Definition fuel_of (s : rb_mem) : nat := S (S (size (nodes s))).
Definition with_fuel {A} (m : nat -> M A) : M A := fun s => m (fuel_of s) s.

Definition rb_insert_color (n : Z) : M unit :=
  with_fuel (fun f => insert_loop f n);; r ← get_root; rb_set_black r.

(** ** Removal *)

Definition black_children (r : Z) : M bool :=
  l ← left r; lb ← black_child l;
  if lb : bool then x ← right r; black_child x else mret false.

(** The body of the loop for a left child, with a black sibling [other];
    [again] is the next round. *)
Definition erase_left_black (again : Z -> Z -> M unit) (parent other : Z) : M unit :=
  both ← black_children other;
  if both : bool then
    rb_set_red other;; up ← rb_parent parent; again parent up
  else
    or ← right other; orb ← black_child or;
    when orb (ol ← left other; rb_set_black ol;; rb_set_red other;; __rb_rotate_right other);;
    other ← (if orb : bool then right parent else mret other);
    c ← rb_color parent; rb_set_color other c;;
    rb_set_black parent;;
    or ← right other; rb_set_black or;;
    __rb_rotate_left parent;;
    r ← get_root; when (nz r) (rb_set_black r).
Definition erase_left (again : Z -> Z -> M unit) (parent : Z) : M unit :=
  other ← right parent;
  red ← rb_is_red other;
  when red (rb_set_black other;; rb_set_red parent;; __rb_rotate_left parent);;
  other ← (if red : bool then right parent else mret other);
  erase_left_black again parent other.

(** For a right child. *)
Definition erase_right_black (again : Z -> Z -> M unit) (parent other : Z) : M unit :=
  both ← black_children other;
  if both : bool then
    rb_set_red other;; up ← rb_parent parent; again parent up
  else
    ol ← left other; olb ← black_child ol;
    when olb (or ← right other; rb_set_black or;; rb_set_red other;; __rb_rotate_left other);;
    other ← (if olb : bool then left parent else mret other);
    c ← rb_color parent; rb_set_color other c;;
    rb_set_black parent;;
    ol ← left other; rb_set_black ol;;
    __rb_rotate_right parent;;
    r ← get_root; when (nz r) (rb_set_black r).
Definition erase_right (again : Z -> Z -> M unit) (parent : Z) : M unit :=
  other ← left parent;
  red ← rb_is_red other;
  when red (rb_set_black other;; rb_set_red parent;; __rb_rotate_right parent);;
  other ← (if red : bool then left parent else mret other);
  erase_right_black again parent other.

Fixpoint erase_loop (fuel : nat) (n parent : Z) : M unit :=
  match fuel with
  | O => fun _ => None
  | S f =>
      b ← black_child n; r ← get_root;
      if negb (b && negb (n =? r)) then when (nz n) (rb_set_black n) else
      pl ← left parent;
      if pl =? n then erase_left (erase_loop f) parent else erase_right (erase_loop f) parent
  end.
Definition __rb_erase_color (n parent : Z) : M unit := with_fuel (fun f => erase_loop f n parent).

(** The walks down to the first and to the last node of a subtree. *)
Fixpoint leftmost (fuel : nat) (n : Z) : M Z :=
  match fuel with
  | O => fun _ => None
  | S f => l ← left n; if nz l then leftmost f l else mret n
  end.
Fixpoint rightmost (fuel : nat) (n : Z) : M Z :=
  match fuel with
  | O => fun _ => None
  | S f => r ← right n; if nz r then rightmost f r else mret n
  end.

(** A node with at most one child leaves it to its parent: the child, its new
    parent and the colour that is gone. *)
Definition erase_simple (n child : Z) : M (Z * Z * Z) :=
  parent ← rb_parent n; color ← rb_color n;
  when (nz child) (rb_set_parent child parent);;
  change_child false parent n child;;
  mret (child, parent, color).

(** A node with two children is replaced by its successor. *)
Definition erase_double (old : Z) : M (Z * Z * Z) :=
  n ← right old; n ← with_fuel (fun f => leftmost f n);
  op ← rb_parent old;
  change_child false op old n;;
  child ← right n; parent ← rb_parent n; color ← rb_color n;
  parent ← (if parent =? old then mret n else
    when (nz child) (rb_set_parent child parent);;
    set_left parent child;;
    r ← right old; set_right n r;; rb_set_parent r n;;
    mret parent);
  o ← node old;
  update n (set_pc (fun _ => rb_parent_color o));;
  l ← left old; set_left n l;; rb_set_parent l n;;
  mret (child, parent, color).

Definition rb_erase (n : Z) : M unit :=
  l ← left n; r ← right n;
  '(child, parent, color) ←
    (if negb (nz l) then erase_simple n r
     else if negb (nz r) then erase_simple n l
     else erase_double n);
  when (color =? _RBTREE_BLACK) (__rb_erase_color child parent).

(** ** Walks *)

Definition rb_first : M Z :=
  n ← get_root; if negb (nz n) then mret 0 else with_fuel (fun f => leftmost f n).
Definition rb_last : M Z :=
  n ← get_root; if negb (nz n) then mret 0 else with_fuel (fun f => rightmost f n).

Fixpoint up_from_right (fuel : nat) (n : Z) : M Z :=
  match fuel with
  | O => fun _ => None
  | S f =>
      parent ← rb_parent n;
      if negb (nz parent) then mret parent else
      r ← right parent; if n =? r then up_from_right f parent else mret parent
  end.
Fixpoint up_from_left (fuel : nat) (n : Z) : M Z :=
  match fuel with
  | O => fun _ => None
  | S f =>
      parent ← rb_parent n;
      if negb (nz parent) then mret parent else
      l ← left parent; if n =? l then up_from_left f parent else mret parent
  end.

Definition rb_next (n : Z) : M Z :=
  p ← rb_parent n; if p =? n then mret 0 else
  r ← right n;
  if nz r then with_fuel (fun f => leftmost f r) else with_fuel (fun f => up_from_right f n).
Definition rb_prev (n : Z) : M Z :=
  p ← rb_parent n; if p =? n then mret 0 else
  l ← left n;
  if nz l then with_fuel (fun f => rightmost f l) else with_fuel (fun f => up_from_left f n).

Definition rb_replace_node (victim new : Z) : M unit :=
  parent ← rb_parent victim;
  change_child false parent victim new;;
  l ← left victim; when (nz l) (rb_set_parent l new);;
  r ← right victim; when (nz r) (rb_set_parent r new);;
  v ← node victim; update new (fun _ => v).

(** ** Initialisation *)

Definition rb_init_node (n : Z) : M unit :=
  update n (fun _ => RbNode 0 0 0);; rb_set_parent n n.
