(* ===== verification/RbTreeInv.v ===== *)
(** * Red-black trees: memory and trees

    What it means that a memory of [RbTree] holds a tree, or a tree with a
    subtree in focus; what the primitives do to it; and the rotations. *)

From S2P Require Import Prelude RbTree.

(** ** Packed words *)

Inductive color := R | B.
Definition cz (c : color) : Z := match c with R => _RBTREE_RED | B => _RBTREE_BLACK end.

Definition aligned (a : Z) : Prop := 0 <= a /\ a mod 4 = 0.
(** The word of a node with parent [p] and colour [c]. *)
Definition pack (p : Z) (c : color) : Z := cz c + p.

Section Words.
Variables (p : Z) (c : color).
Hypothesis Hp : aligned p.

Lemma pack_field : pack p c = cz c + 2 ^ 2 * (p / 4).
Proof. destruct Hp as [_ Hm]. unfold pack. pose proof (Z.div_mod p 4). lia. Qed.

Ltac bits :=
  repeat match goal with
  | |- context [Z.land ?a ?b] => let v := eval vm_compute in (Z.land a b) in change (Z.land a b) with v
  | |- context [Z.lor ?a ?b] => let v := eval vm_compute in (Z.lor a b) in change (Z.lor a b) with v
  | |- context [Z.ldiff ?a ?b] => let v := eval vm_compute in (Z.ldiff a b) in change (Z.ldiff a b) with v
  end.
Ltac word := rewrite ?pack_field; destruct c; cbn [cz]; unfold _RBTREE_RED, _RBTREE_BLACK;
  rewrite ?field_land_low, ?field_ldiff_low, ?field_lor_low by (bits; lia); bits;
  destruct Hp as [_ Hm]; pose proof (Z.div_mod p 4); unfold pack; cbn [cz]; unfold _RBTREE_RED, _RBTREE_BLACK; try lia.

Lemma pack_parent : Z.ldiff (pack p c) 3 = p.
Proof. word. Qed.
Lemma pack_color : Z.land (pack p c) 1 = cz c.
Proof. word. Qed.
Lemma pack_red : Z.ldiff (pack p c) 1 = pack p R.
Proof. word. Qed.
Lemma pack_black : Z.lor (pack p c) 1 = pack p B.
Proof. word. Qed.
Lemma pack_set_parent q : aligned q -> Z.lor (Z.land (pack p c) 3) q = pack q c.
Proof.
  intros Hq. assert (E : Z.land (pack p c) 3 = cz c) by word. rewrite E.
  replace q with (2 ^ 2 * (q / 4)) at 1 by (destruct Hq; pose proof (Z.div_mod q 4); lia).
  rewrite Z.lor_comm. replace (2 ^ 2 * (q / 4)) with (0 + 2 ^ 2 * (q / 4)) by lia.
  destruct Hq as [_ Hm]. pose proof (Z.div_mod q 4).
  unfold pack. destruct c; cbn [cz]; unfold _RBTREE_RED, _RBTREE_BLACK; rewrite field_lor_low; bits; lia.
Qed.
End Words.

Lemma pack_set_color p c d : aligned p -> Z.lor (Z.ldiff (pack p c) 1) (cz d) = pack p d.
Proof.
  intros Hp. rewrite pack_red by done. destruct d; cbn [cz].
  - apply Z.lor_0_r.
  - apply pack_black. done.
Qed.

(** ** Trees of addresses, and a subtree in its context *)

Inductive rbt := E | T (c : color) (l : rbt) (a : Z) (r : rbt).

Definition addr (t : rbt) : Z := match t with E => 0 | T _ _ a _ => a end.
Definition col (t : rbt) : color := match t with E => B | T c _ _ _ => c end.
Fixpoint inorder (t : rbt) : list Z :=
  match t with E => [] | T _ l a r => inorder l ++ a :: inorder r end.

(** The parents of the subtree, from the nearest: the subtree is the left or
    the right child. *)
Inductive frame := FL (c : color) (a : Z) (r : rbt) | FR (c : color) (l : rbt) (a : Z).
Definition ctx : Type := list frame.

Definition faddr (f : frame) : Z := match f with FL _ a _ | FR _ _ a => a end.
Definition fcol (f : frame) : color := match f with FL c _ _ | FR c _ _ => c end.
Definition sib (f : frame) : rbt := match f with FL _ _ r => r | FR _ l _ => l end.
Definition fill (f : frame) (t : rbt) : rbt :=
  match f with FL c a r => T c t a r | FR c l a => T c l a t end.
Fixpoint plug (k : ctx) (t : rbt) : rbt := match k with [] => t | f :: k => plug k (fill f t) end.

(** The parent's address. *)
Definition pa (k : ctx) : Z := match k with [] => 0 | f :: _ => faddr f end.
Fixpoint kaddrs (k : ctx) : list Z :=
  match k with [] => [] | f :: k => faddr f :: inorder (sib f) ++ kaddrs k end.

(** ** What memory holds *)

(** The subtree [t] with parent [p]. *)
Fixpoint rep (m : gmap Z rb_node) (p : Z) (t : rbt) : Prop :=
  match t with
  | E => True
  | T c l a r => m !! a = Some (RbNode (pack p c) (addr r) (addr l)) /\ rep m a l /\ rep m a r
  end.

(** The context [k] around a subtree at [x]. *)
Fixpoint repk (m : gmap Z rb_node) (rt : Z) (k : ctx) (x : Z) : Prop :=
  match k with
  | [] => rt = x
  | f :: k =>
      m !! faddr f = Some (match f with
                           | FL c a r => RbNode (pack (pa k) c) (addr r) x
                           | FR c l a => RbNode (pack (pa k) c) x (addr l)
                           end) /\
      rep m (faddr f) (sib f) /\ repk m rt k (faddr f)
  end.

(** All of it; memory elsewhere is that of [m0]. *)
Record holds (m0 : gmap Z rb_node) (s : rb_mem) (k : ctx) (t : rbt) : Prop := {
  h_tree : rep (nodes s) (pa k) t;
  h_ctx : repk (nodes s) (root s) k (addr t);
  h_nodup : NoDup (inorder t ++ kaddrs k);
  h_aligned : Forall (fun a => aligned a /\ a <> 0) (inorder t ++ kaddrs k);
  h_frame a : a ∉ inorder t ++ kaddrs k -> nodes s !! a = m0 !! a
}.

Lemma inorder_plug k t : inorder (plug k t) ≡ₚ inorder t ++ kaddrs k.
Proof.
  revert t. induction k as [|f k IH]; intros t; cbn [plug]; [cbn; rewrite app_nil_r; done|].
  rewrite IH. destruct f as [c a r | c l a]; cbn; rewrite <- app_assoc; cbn; [done|].
  rewrite <- !Permutation_middle. apply Permutation_cons; [done|]. apply Permutation_app_swap_app.
Qed.

(** What comes before and after a place of the tree. *)
Fixpoint before (k : ctx) : list Z :=
  match k with [] => [] | FL _ _ _ :: k => before k | FR _ l a :: k => before k ++ inorder l ++ [a] end.
Fixpoint after (k : ctx) : list Z :=
  match k with [] => [] | FL _ a r :: k => a :: inorder r ++ after k | FR _ _ _ :: k => after k end.

Lemma inorder_around k t : inorder (plug k t) = before k ++ inorder t ++ after k.
Proof.
  revert t. induction k as [|[c a r | c l a] k IH]; intros t; cbn [plug fill before after];
    [by rewrite app_nil_r | |]; rewrite IH; cbn [inorder]; rewrite <- ?app_assoc; done.
Qed.

(** Nothing else matters. *)
Lemma rep_frame m m' p t : (forall a, a ∈ inorder t -> m' !! a = m !! a) -> rep m p t -> rep m' p t.
Proof.
  revert p. induction t as [|c l IHl a r IHr]; intros p Hm; [done|]. cbn. intros (Ha & Hl & Hr).
  cbn in Hm. split_and!; [rewrite Hm; set_solver | apply IHl; set_solver | apply IHr; set_solver].
Qed.

Lemma repk_frame m m' rt k x : (forall a, a ∈ kaddrs k -> m' !! a = m !! a) -> repk m rt k x -> repk m' rt k x.
Proof.
  revert x. induction k as [|f k IH]; intros x Hm; [done|]. cbn. intros (Ha & Hs & Hk).
  cbn in Hm. split_and!.
  - rewrite Hm; [done | set_solver].
  - apply (rep_frame m); [set_solver | done].
  - apply IH; [set_solver | done].
Qed.

Lemma rep_parent m p t : rep m p t -> t <> E -> exists n, m !! addr t = Some n /\ rb_parent_color n = pack p (col t).
Proof. destruct t; cbn; [done|]. intros (Ha & _) _. eauto. Qed.

(** A subtree changes its parent. *)
Lemma rep_reparent m p q t n :
  rep m p t -> NoDup (inorder t) -> m !! addr t = Some n -> t <> E ->
  rep (<[addr t := RbNode (pack q (col t)) (rb_right n) (rb_left n)]> m) q t.
Proof.
  destruct t as [|c l a r]; [done|]. cbn. intros (Ha & Hl & Hr) Hn Ea _. rewrite Ea in Ha. simplify_eq.
  apply NoDup_app in Hn as (_ & Hd & (Hn & _)%NoDup_cons). cbn. split_and!.
  - apply lookup_insert_eq.
  - apply (rep_frame m); [|done]. intros x Hx. apply lookup_insert_ne. intros ->. apply (Hd x Hx). left.
  - apply (rep_frame m); [|done]. intros x Hx. apply lookup_insert_ne. intros ->. done.
Qed.

(** ** Programs that end *)

Lemma ends_fuel {A} (m : nat -> M A) s (Q : A -> rb_mem -> Prop) : ends (m (fuel_of s)) s Q -> ends (with_fuel m) s Q.
Proof. done. Qed.

Lemma ends_node a n s (Q : rb_node -> rb_mem -> Prop) : nodes s !! a = Some n -> Q n s -> ends (node a) s Q.
Proof. intros E1 HQ. exists n, s. unfold node. rewrite E1. done. Qed.

Lemma ends_update a f n s (Q : unit -> rb_mem -> Prop) :
  nodes s !! a = Some n -> Q tt (RbMem (<[a := f n]> (nodes s)) (root s)) -> ends (update a f) s Q.
Proof. intros E1 HQ. unfold update. eexists _, _. rewrite E1. done. Qed.

Lemma ends_right a w r l s (Q : Z -> rb_mem -> Prop) :
  nodes s !! a = Some (RbNode w r l) -> Q r s -> ends (right a) s Q.
Proof. intros E1 HQ. eapply ends_bind, ends_node; [done|]. apply ends_ret. done. Qed.
Lemma ends_left a w r l s (Q : Z -> rb_mem -> Prop) :
  nodes s !! a = Some (RbNode w r l) -> Q l s -> ends (left a) s Q.
Proof. intros E1 HQ. eapply ends_bind, ends_node; [done|]. apply ends_ret. done. Qed.

Lemma ends_parent a p c r l s (Q : Z -> rb_mem -> Prop) :
  nodes s !! a = Some (RbNode (pack p c) r l) -> aligned p -> Q p s -> ends (rb_parent a) s Q.
Proof.
  intros E1 Hp HQ. eapply ends_bind, ends_node; [done|]. apply ends_ret.
  unfold parent_of. cbn. rewrite pack_parent by done. done.
Qed.
Lemma ends_color a p c r l s (Q : Z -> rb_mem -> Prop) :
  nodes s !! a = Some (RbNode (pack p c) r l) -> aligned p -> Q (cz c) s -> ends (rb_color a) s Q.
Proof.
  intros E1 Hp HQ. eapply ends_bind, ends_node; [done|]. apply ends_ret.
  unfold color_of. cbn. rewrite pack_color by done. done.
Qed.

Definition is_black (c : color) : bool := match c with B => true | R => false end.

Lemma ends_is_red a p c r l s (Q : bool -> rb_mem -> Prop) :
  nodes s !! a = Some (RbNode (pack p c) r l) -> aligned p -> Q (negb (is_black c)) s -> ends (rb_is_red a) s Q.
Proof. intros E1 Hp HQ. eapply ends_bind, ends_color; [done..|]. apply ends_ret. destruct c; done. Qed.
Lemma ends_is_black a p c r l s (Q : bool -> rb_mem -> Prop) :
  nodes s !! a = Some (RbNode (pack p c) r l) -> aligned p -> Q (is_black c) s -> ends (rb_is_black a) s Q.
Proof. intros E1 Hp HQ. eapply ends_bind, ends_color; [done..|]. apply ends_ret. destruct c; done. Qed.

Section Sets.
Variables (a p : Z) (c : color) (r l : Z) (s : rb_mem) (Q : unit -> rb_mem -> Prop).
Hypotheses (Ea : nodes s !! a = Some (RbNode (pack p c) r l)) (Hp : aligned p).
Definition with_node (n : rb_node) : rb_mem := RbMem (<[a := n]> (nodes s)) (root s).

Lemma ends_set_red : Q tt (with_node (RbNode (pack p R) r l)) -> ends (rb_set_red a) s Q.
Proof. intros HQ. eapply ends_update; [done|]. unfold set_pc. cbn. rewrite pack_red by done. done. Qed.
Lemma ends_set_black : Q tt (with_node (RbNode (pack p B) r l)) -> ends (rb_set_black a) s Q.
Proof. intros HQ. eapply ends_update; [done|]. unfold set_pc. cbn. rewrite pack_black by done. done. Qed.
Lemma ends_set_parent q : aligned q -> Q tt (with_node (RbNode (pack q c) r l)) -> ends (rb_set_parent a q) s Q.
Proof. intros Hq HQ. eapply ends_update; [done|]. unfold set_pc. cbn. rewrite pack_set_parent by done. done. Qed.
Lemma ends_set_color d : Q tt (with_node (RbNode (pack p d) r l)) -> ends (rb_set_color a (cz d)) s Q.
Proof. intros HQ. eapply ends_update; [done|]. unfold set_pc. cbn. rewrite pack_set_color by done. done. Qed.
Lemma ends_set_left x : Q tt (with_node (RbNode (pack p c) r x)) -> ends (set_left a x) s Q.
Proof. intros HQ. eapply ends_update; [done|]. done. Qed.
Lemma ends_set_right x : Q tt (with_node (RbNode (pack p c) x l)) -> ends (set_right a x) s Q.
Proof. intros HQ. eapply ends_update; [done|]. done. Qed.
End Sets.

Lemma nz_addr t : Forall (fun a => aligned a /\ a <> 0) (inorder t) -> nz (addr t) = match t with E => false | _ => true end.
Proof.
  destruct t as [|c l a r]; [done|]. cbn. rewrite Forall_app, Forall_cons. intros (_ & (_ & Ha) & _).
  unfold nz. apply negb_true_iff, Z.eqb_neq. done.
Qed.

(** A child, if there is one, gets another parent. *)
Lemma ends_reparent s p q t (Q : unit -> rb_mem -> Prop) :
  rep (nodes s) p t -> NoDup (inorder t) -> Forall (fun a => aligned a /\ a <> 0) (inorder t) ->
  aligned p -> aligned q ->
  (forall m', rep m' q t -> (forall a, a <> addr t \/ a ∉ inorder t -> m' !! a = nodes s !! a) -> Q tt (RbMem m' (root s))) ->
  ends (when (nz (addr t)) (rb_set_parent (addr t) q)) s Q.
Proof.
  intros Hr Hn Ha Hp Hq HQ. rewrite nz_addr by done. destruct t as [|c l a r].
  - apply ends_ret. destruct s as [m rt]. apply HQ; done.
  - cbn [when]. pose proof Hr as (Ea & _). cbn [addr] in *.
    eapply ends_set_parent; [done | done | done |]. apply HQ.
    + apply (rep_reparent _ p q (T c l a r) _ Hr Hn Ea). done.
    + intros x Hx. apply lookup_insert_ne. intros ->. cbn in Hx. rewrite elem_of_app, elem_of_cons in Hx. tauto.
Qed.

Lemma ends_reparent_some s p q t (Q : unit -> rb_mem -> Prop) :
  t <> E -> rep (nodes s) p t -> NoDup (inorder t) -> Forall (fun a => aligned a /\ a <> 0) (inorder t) ->
  aligned p -> aligned q ->
  (forall m', rep m' q t -> (forall a, a <> addr t \/ a ∉ inorder t -> m' !! a = nodes s !! a) -> Q tt (RbMem m' (root s))) ->
  ends (rb_set_parent (addr t) q) s Q.
Proof.
  intros Ht Hr Hn Ha Hp Hq HQ. pose proof (ends_reparent s p q t Q Hr Hn Ha Hp Hq HQ) as He.
  rewrite nz_addr in He by done. destruct t; done.
Qed.

(** The parent, or the root, gets another child. *)
Lemma ends_change_child b s k old new (Q : unit -> rb_mem -> Prop) :
  repk (nodes s) (root s) k old -> NoDup (kaddrs k) -> old ∉ kaddrs k -> old <> 0 ->
  Forall (fun a => aligned a /\ a <> 0) (kaddrs k) ->
  (forall m' rt', repk m' rt' k new -> (forall a, a <> pa k \/ a ∉ kaddrs k -> m' !! a = nodes s !! a) -> Q tt (RbMem m' rt')) ->
  ends (change_child b (pa k) old new) s Q.
Proof.
  intros Hk Hn Ho Ho0 Ha HQ. unfold change_child. destruct k as [|f k].
  - cbn. eexists _, _. split; [reflexivity|]. apply HQ; done.
  - cbn [pa kaddrs] in *. cbn in Hk. destruct Hk as (Ef & Hs & Hk).
    apply NoDup_cons in Hn as [Hn1 Hn2]. apply NoDup_app in Hn2 as (_ & Hn2 & _).
    assert (Hf : faddr f <> 0) by (apply Forall_cons in Ha; tauto).
    assert (nz (faddr f) = true) as -> by (apply negb_true_iff, Z.eqb_neq; done).
    assert (Hsib : old <> addr (sib f)) by (destruct f as [? ? []|? [] ?]; cbn in *; set_solver).
    assert (Hdone : forall n',
       n' = match f with FL c a r => RbNode (pack (pa k) c) (addr r) new
                       | FR c l a => RbNode (pack (pa k) c) new (addr l) end ->
       Q tt (RbMem (<[faddr f := n']> (nodes s)) (root s))).
    { intros n' ->. apply HQ.
      - cbn. split_and!.
        + apply lookup_insert_eq.
        + apply (rep_frame (nodes s)); [|done]. intros x Hx. apply lookup_insert_ne. set_solver.
        + apply (repk_frame (nodes s)); [|done]. intros x Hx. apply lookup_insert_ne. set_solver.
      - intros x Hx. apply lookup_insert_ne. intros E1. cbn in Hx. subst x. rewrite elem_of_cons in Hx. tauto. }
    destruct b, f; cbn in *; eapply ends_bind; first [eapply ends_right; [done|] | eapply ends_left; [done|]];
      rewrite ?Z.eqb_refl, ?(proj2 (Z.eqb_neq _ _) Hsib);
      first [eapply ends_set_left; [done|] | eapply ends_set_right; [done|]]; apply Hdone; done.
Qed.

(** ** Rotations *)

Lemma aligned_pa k : Forall (fun a => aligned a /\ a <> 0) (kaddrs k) -> aligned (pa k).
Proof. destruct k; cbn; [split; done|]. rewrite Forall_cons. tauto. Qed.

Definition disj (A B : list Z) : Prop := forall x, x ∈ A -> x ∉ B.
Lemma disj_app_l A A' B : disj (A ++ A') B <-> disj A B /\ disj A' B.
Proof.
  unfold disj. setoid_rewrite elem_of_app. split; [intros H; split; auto|]. intros [H1 H2] x [Hx | Hx]; auto.
Qed.
Lemma disj_app_r A B B' : disj A (B ++ B') <-> disj A B /\ disj A B'.
Proof. unfold disj. setoid_rewrite not_elem_of_app. firstorder. Qed.
Lemma disj_cons_l x A B : disj (x :: A) B <-> (x ∉ B) /\ disj A B.
Proof.
  unfold disj. setoid_rewrite elem_of_cons. split; [intros H; split; auto|]. intros [H1 H2] y [-> | Hy]; auto.
Qed.
Lemma disj_cons_r x A B : disj A (x :: B) <-> (x ∉ A) /\ disj A B.
Proof.
  unfold disj. setoid_rewrite not_elem_of_cons. split.
  - intros H. split; [|intros y Hy; apply H; done]. intros Hx. destruct (H x Hx). done.
  - intros [H1 H2] y Hy. split; [intros ->; done | auto].
Qed.
Lemma nodup_disj (A B : list Z) : NoDup (A ++ B) <-> NoDup A /\ disj A B /\ NoDup B.
Proof. apply NoDup_app. Qed.

(** The address of a child or of the parent is not that of another node. *)
Lemma addr_other x t : x <> 0 -> x ∉ inorder t -> x <> addr t.
Proof. intros H0 Hd ->. destruct t; cbn in *; [done | apply Hd; rewrite elem_of_app, elem_of_cons; auto]. Qed.
Lemma pa_other x k : x <> 0 -> x ∉ kaddrs k -> x <> pa k.
Proof. intros H0 Hd ->. destruct k; cbn in *; [done | apply Hd; left]. Qed.
Lemma disj_sym A B : disj A B -> disj B A.
Proof. intros H x Hb Ha. exact (H x Ha Hb). Qed.
Lemma in_nonzero (A : list Z) x : x ∈ A -> 0 ∉ A -> x <> 0.
Proof. intros Hx H0 ->. done. Qed.
Lemma good_nonzero A : Forall (fun a => aligned a /\ a <> 0) A -> 0 ∉ A.
Proof. intros H Hin. rewrite Forall_forall in H. apply H in Hin. tauto. Qed.

(** Distinct addresses, as facts about each pair. *)
Ltac apart H :=
  cbn [inorder kaddrs] in H;
  repeat first
    [ rewrite nodup_disj in H | rewrite NoDup_cons in H
    | rewrite disj_app_l in H | rewrite disj_app_r in H | rewrite disj_cons_l in H | rewrite disj_cons_r in H
    | rewrite not_elem_of_app in H | rewrite not_elem_of_cons in H ];
  destruct_and? H.
Ltac away :=
  first
    [ assumption
    | match goal with
      | Hu : ?u ∈ ?A, D : disj ?A ?B |- ?u ∉ ?B => exact (D u Hu)
      | Hu : ?u ∈ ?A, D : disj ?B ?A |- ?u ∉ ?B => exact (disj_sym B A D u Hu)
      end ].
Ltac nonzero :=
  first [tauto | assumption | apply not_eq_sym; assumption
    | match goal with Hu : ?u ∈ ?A, H0 : 0 ∉ ?A |- ?u <> 0 => exact (in_nonzero A u Hu H0) end].
Ltac dis :=
  lazymatch goal with
  | |- ?u <> ?v =>
      first
        [ assumption | apply not_eq_sym; assumption
        | match goal with
          | Hu : u ∈ ?A, Hv : v ∉ ?A |- _ => intros E1; rewrite E1 in Hu; exact (Hv Hu)
          | Hv : v ∈ ?A, Hu : u ∉ ?A |- _ => intros E1; rewrite E1 in Hu; exact (Hu Hv)
          | Hu : u ∈ ?A, Hv : v ∈ ?B, D : disj ?A ?B |- _ => intros E1; rewrite E1 in Hu; exact (D _ Hu Hv)
          | Hu : u ∈ ?A, Hv : v ∈ ?B, D : disj ?B ?A |- _ => intros E1; rewrite E1 in Hu; exact (D _ Hv Hu)
          end
        | apply addr_other; [nonzero | away] | apply not_eq_sym, addr_other; [nonzero | away]
        | apply pa_other; [nonzero | away] | apply not_eq_sym, pa_other; [nonzero | away] ]
  | |- _ ∉ _ => away
  | |- _ \/ _ => first [left; dis | right; away]
  end.

(** A lookup in a memory that was changed elsewhere. *)
Ltac look :=
  unfold with_node; cbn [nodes root];
  repeat first
    [ rewrite lookup_insert_eq
    | rewrite lookup_insert_ne by dis
    | match goal with H : forall a, _ -> ?m !! a = _ |- context [?m !! _] => rewrite H by dis end ];
  first [reflexivity | eassumption].

Abbreviation good := (Forall (fun a => aligned a /\ a <> 0)).

Lemma ends_rotate_left m0 s k c l n c' rl x rr (Q : unit -> rb_mem -> Prop) :
  holds m0 s k (T c l n (T c' rl x rr)) ->
  (forall s', holds m0 s' k (T c' (T c l n rl) x rr) -> Q tt s') ->
  ends (__rb_rotate_left n) s Q.
Proof.
  intros [(En & Hl & (Ex & Hrl & Hrr)) Hk Hn Ha Hf] HQ. cbn [addr] in *.
  assert (Eq : inorder (T c l n (T c' rl x rr)) = inorder (T c' (T c l n rl) x rr))
    by (cbn; rewrite <- app_assoc; done).
  assert (Hpa : aligned (pa k)) by (apply aligned_pa; rewrite Forall_app in Ha; tauto).
  assert (Hgn : (aligned n /\ n <> 0) /\ (aligned x /\ x <> 0) /\ good (inorder rl) /\ good (kaddrs k)).
  { cbn in Ha. rewrite !Forall_app, Forall_cons, Forall_app, Forall_cons in Ha. tauto. }
  destruct Hgn as (Hgn & Hgx & Hgl & Hgk).
  pose proof Hn as Hd. apart Hd. pose proof (good_nonzero _ Ha) as Hz. apart Hz.
  unfold __rb_rotate_left.
  eapply ends_bind, ends_right; [done|]. eapply ends_bind, ends_parent; [done..|].
  eapply ends_bind, ends_left; [done|]. eapply ends_bind, ends_set_right; [done|].
  eapply ends_bind, (ends_reparent _ x n rl); try done; try tauto.
  { apply (rep_frame (nodes s)); [|done]. intros y Hy. look. }
  intros m2 Hrl2 Hm2. cbn [with_node nodes root] in *.
  eapply ends_bind, ends_set_left; [cbn; look|]. 
  eapply ends_bind, ends_set_parent; [cbn; look | tauto | tauto|].
  eapply ends_bind, (ends_change_child _ _ k); try done; try tauto.
  { cbn. apply (repk_frame (nodes s)); [|done]. intros y Hy. look. }
  intros m5 rt5 Hk5 Hm5. cbn [with_node nodes root] in *.
  eapply ends_set_parent; [cbn; look | tauto | tauto|].
  apply HQ. split; cbn [with_node nodes root].
  - cbn. split_and!; try look.
    + apply (rep_frame (nodes s)); [|done]. intros y Hy. look.
    + apply (rep_frame m2); [|done]. intros y Hy. look.
    + apply (rep_frame (nodes s)); [|done]. intros y Hy. look.
  - apply (repk_frame m5); [|done]. intros y Hy. look.
  - rewrite <- Eq. done.
  - rewrite <- Eq. done.
  - intros y Hy. rewrite <- Eq in Hy. rewrite <- Hf by done. apart Hy. look.
Qed.

Lemma ends_rotate_right m0 s k c ll x c' lr n r (Q : unit -> rb_mem -> Prop) :
  holds m0 s k (T c (T c' ll x lr) n r) ->
  (forall s', holds m0 s' k (T c' ll x (T c lr n r)) -> Q tt s') ->
  ends (__rb_rotate_right n) s Q.
Proof.
  intros [(En & (Ex & Hll & Hlr) & Hr) Hk Hn Ha Hf] HQ. cbn [addr] in *.
  assert (Eq : inorder (T c (T c' ll x lr) n r) = inorder (T c' ll x (T c lr n r)))
    by (cbn; rewrite <- app_assoc; done).
  assert (Hpa : aligned (pa k)) by (apply aligned_pa; rewrite Forall_app in Ha; tauto).
  assert (Hgn : (aligned n /\ n <> 0) /\ (aligned x /\ x <> 0) /\ good (inorder lr) /\ good (kaddrs k)).
  { cbn in Ha. rewrite !Forall_app, !Forall_cons in Ha. tauto. }
  destruct Hgn as (Hgn & Hgx & Hgl & Hgk).
  pose proof Hn as Hd. apart Hd. pose proof (good_nonzero _ Ha) as Hz. apart Hz.
  unfold __rb_rotate_right.
  eapply ends_bind, ends_left; [done|]. eapply ends_bind, ends_parent; [done..|].
  eapply ends_bind, ends_right; [done|]. eapply ends_bind, ends_set_left; [done|].
  eapply ends_bind, (ends_reparent _ x n lr); try done; try tauto.
  { apply (rep_frame (nodes s)); [|done]. intros y Hy. look. }
  intros m2 Hlr2 Hm2. cbn [with_node nodes root] in *.
  eapply ends_bind, ends_set_right; [cbn; look|]. 
  eapply ends_bind, ends_set_parent; [cbn; look | tauto | tauto|].
  eapply ends_bind, (ends_change_child _ _ k); try done; try tauto.
  { cbn. apply (repk_frame (nodes s)); [|done]. intros y Hy. look. }
  intros m5 rt5 Hk5 Hm5. cbn [with_node nodes root] in *.
  eapply ends_set_parent; [cbn; look | tauto | tauto|].
  apply HQ. split; cbn [with_node nodes root].
  - cbn. split_and!; try look.
    + apply (rep_frame (nodes s)); [|done]. intros y Hy. look.
    + apply (rep_frame m2); [|done]. intros y Hy. look.
    + apply (rep_frame (nodes s)); [|done]. intros y Hy. look.
  - apply (repk_frame m5); [|done]. intros y Hy. look.
  - rewrite <- Eq. done.
  - rewrite <- Eq. done.
  - intros y Hy. rewrite <- Eq in Hy. rewrite <- Hf by done. apart Hy. look.
Qed.

(** ** Moving the focus *)

Lemma repk_step m rt f k t :
  rep m (pa (f :: k)) t /\ repk m rt (f :: k) (addr t) <-> rep m (pa k) (fill f t) /\ repk m rt k (addr (fill f t)).
Proof. destruct f; cbn; tauto. Qed.

Lemma holds_up m0 s f k t : holds m0 s (f :: k) t <-> holds m0 s k (fill f t).
Proof.
  assert (P : inorder t ++ kaddrs (f :: k) ≡ₚ inorder (fill f t) ++ kaddrs k).
  { rewrite <- (inorder_plug (f :: k)), <- (inorder_plug k). done. }
  split; intros [Ht Hk Hn Ha Hf]; destruct (repk_step (nodes s) (root s) f k t) as [H1 H2].
  - destruct (H1 (conj Ht Hk)). split; auto; [rewrite <- P; done | rewrite <- P; done|].
    intros a Hin. apply Hf. rewrite P. done.
  - destruct (H2 (conj Ht Hk)). split; auto; [rewrite P; done | rewrite P; done|].
    intros a Hin. apply Hf. rewrite <- P. done.
Qed.

Lemma go_up m0 s f k t : holds m0 s (f :: k) t -> holds m0 s k (fill f t).
Proof. apply holds_up. Qed.
Lemma go_left m0 s k c l a r : holds m0 s k (T c l a r) -> holds m0 s (FL c a r :: k) l.
Proof. apply (holds_up _ _ (FL c a r)). Qed.
Lemma go_right m0 s k c l a r : holds m0 s k (T c l a r) -> holds m0 s (FR c l a :: k) r.
Proof. apply (holds_up _ _ (FR c l a)). Qed.

Lemma holds_plug m0 s k t : holds m0 s k t <-> holds m0 s [] (plug k t).
Proof. revert t. induction k as [|f k IH]; intros t; [done|]. rewrite holds_up, IH. done. Qed.

(** What the node in focus holds. *)
Lemma holds_node m0 s k c l a r :
  holds m0 s k (T c l a r) -> nodes s !! a = Some (RbNode (pack (pa k) c) (addr r) (addr l)) /\ aligned (pa k).
Proof. intros [(Ea & _) _ _ Ha _]. split; [done|]. apply aligned_pa. rewrite Forall_app in Ha. tauto. Qed.

(** The node in focus gets another colour. *)
Lemma holds_paint m0 s k c d l a r :
  holds m0 s k (T c l a r) -> holds m0 (with_node a s (RbNode (pack (pa k) d) (addr r) (addr l))) k (T d l a r).
Proof.
  intros [(Ea & Hl & Hr) Hk Hn Ha Hf]. pose proof Hn as Hd. apart Hd.
  split; try done; cbn [rep addr].
  - split_and!; [look | |]; (apply (rep_frame (nodes s)); [|done]); intros y Hy; look.
  - apply (repk_frame (nodes s)); [|done]. intros y Hy. look.
  - intros y Hy. rewrite <- Hf by done. apart Hy. look.
Qed.

Section Paint.
Variables (m0 : gmap Z rb_node) (s : rb_mem) (k : ctx) (c : color) (l : rbt) (a : Z) (r : rbt).
Variable Q : unit -> rb_mem -> Prop.
Hypothesis Hs : holds m0 s k (T c l a r).

Lemma ends_paint_red : (forall s', holds m0 s' k (T R l a r) -> Q tt s') -> ends (rb_set_red a) s Q.
Proof.
  intros HQ. destruct (holds_node _ _ _ _ _ _ _ Hs) as [Ea Hp]. eapply ends_set_red; [done..|].
  apply HQ, (holds_paint _ _ _ c), Hs.
Qed.
Lemma ends_paint_black : (forall s', holds m0 s' k (T B l a r) -> Q tt s') -> ends (rb_set_black a) s Q.
Proof.
  intros HQ. destruct (holds_node _ _ _ _ _ _ _ Hs) as [Ea Hp]. eapply ends_set_black; [done..|].
  apply HQ, (holds_paint _ _ _ c), Hs.
Qed.
Lemma ends_paint d : (forall s', holds m0 s' k (T d l a r) -> Q tt s') -> ends (rb_set_color a (cz d)) s Q.
Proof.
  intros HQ. destruct (holds_node _ _ _ _ _ _ _ Hs) as [Ea Hp]. eapply ends_set_color; [done..|].
  apply HQ, (holds_paint _ _ _ c), Hs.
Qed.
End Paint.

