(* ===== verification/RbTreeProof.v ===== *)
(** * Red-black trees: insertion

    The balance of a tree and of a context, and that the recolouring loop of
    an insertion ends in a balanced tree with the nodes in the same order. *)

From S2P Require Import Prelude RbTree RbTreeInv.

(** ** Balance *)

(** No red node has a red child, and each path has [n] black nodes. *)
Inductive bal : rbt -> nat -> Prop :=
| bal_E : bal E 0
| bal_R l a r n : bal l n -> bal r n -> col l = B -> col r = B -> bal (T R l a r) n
| bal_B l a r n : bal l n -> bal r n -> bal (T B l a r) (S n).

(** A context for a subtree of black height [n]; the root is black. *)
Inductive kbal : ctx -> nat -> Prop :=
| kb_nil n : kbal [] n
| kb_black f k n : fcol f = B -> bal (sib f) n -> kbal k (S n) -> kbal (f :: k) n
| kb_red f g k n : fcol f = R -> fcol g = B -> bal (sib f) n -> col (sib f) = B -> kbal (g :: k) n -> kbal (f :: g :: k) n.

(** A well-formed tree: balanced, with a black root. *)
Definition wf (t : rbt) : Prop := col t = B /\ exists n, bal t n.

Definition blacken (t : rbt) : rbt := match t with E => E | T _ l a r => T B l a r end.
Definition kcol (k : ctx) : color := match k with [] => B | f :: _ => fcol f end.

Create HintDb rb.
#[export] Hint Constructors bal kbal : rb.

Lemma blacken_wf t n : bal t n -> wf (blacken t).
Proof. intros Ht. split; [destruct t; done|]. inversion Ht; subst; cbn; eauto with rb. Qed.

Lemma fill_bal f t n : bal t n -> bal (sib f) n -> fcol f = B -> bal (fill f t) (S n).
Proof. intros Ht Hs Hf. destruct f; cbn in *; subst; constructor; done. Qed.
Lemma fill_bal_red f t n : bal t n -> bal (sib f) n -> fcol f = R -> col t = B -> col (sib f) = B -> bal (fill f t) n.
Proof. intros Ht Hs Hf. destruct f; cbn in *; subst; constructor; done. Qed.
Lemma fill_col f t : col (fill f t) = fcol f.
Proof. destruct f; done. Qed.

Lemma plug_wf k t n :
  kbal k n -> bal t n -> kcol k = B \/ col t = B -> (k = [] -> col t = B) -> wf (plug k t).
Proof.
  intros Hk. revert t. induction Hk as [n | f k n Hf Hs Hk IH | f g k n Hf Hg Hs Hc Hk IH];
    intros t Ht Hct Hr; cbn [plug].
  - split; eauto.
  - apply IH; [apply fill_bal; done | right | intros _]; rewrite fill_col; done.
  - apply IH; [apply fill_bal_red; try done | left; done | done]. destruct Hct; [|done]. cbn in *. congruence.
Qed.

(** ** Reading the neighbourhood *)

Section Reads.
Variables (m0 : gmap Z rb_node) (s : rb_mem) (k : ctx).

Lemma ends_focus_parent c l a r (Q : Z -> rb_mem -> Prop) :
  holds m0 s k (T c l a r) -> Q (pa k) s -> ends (rb_parent a) s Q.
Proof. intros Hs HQ. destruct (holds_node _ _ _ _ _ _ _ Hs). eapply ends_parent; done. Qed.
Lemma ends_focus_color c l a r (Q : Z -> rb_mem -> Prop) :
  holds m0 s k (T c l a r) -> Q (cz c) s -> ends (rb_color a) s Q.
Proof. intros Hs HQ. destruct (holds_node _ _ _ _ _ _ _ Hs). eapply ends_color; done. Qed.
Lemma ends_focus_red c l a r (Q : bool -> rb_mem -> Prop) :
  holds m0 s k (T c l a r) -> Q (negb (is_black c)) s -> ends (rb_is_red a) s Q.
Proof. intros Hs HQ. destruct (holds_node _ _ _ _ _ _ _ Hs). eapply ends_is_red; done. Qed.
Lemma ends_focus_left c l a r (Q : Z -> rb_mem -> Prop) :
  holds m0 s k (T c l a r) -> Q (addr l) s -> ends (left a) s Q.
Proof. intros Hs HQ. destruct (holds_node _ _ _ _ _ _ _ Hs). eapply ends_left; done. Qed.
Lemma ends_focus_right c l a r (Q : Z -> rb_mem -> Prop) :
  holds m0 s k (T c l a r) -> Q (addr r) s -> ends (right a) s Q.
Proof. intros Hs HQ. destruct (holds_node _ _ _ _ _ _ _ Hs). eapply ends_right; done. Qed.

Lemma focus_good t : holds m0 s k t -> good (inorder t).
Proof. intros [_ _ _ Ha _]. rewrite Forall_app in Ha. tauto. Qed.

Lemma ends_red_child t (Q : bool -> rb_mem -> Prop) :
  holds m0 s k t -> Q (negb (is_black (col t))) s -> ends (red_child (addr t)) s Q.
Proof.
  intros Hs HQ. unfold red_child. rewrite nz_addr by (apply (focus_good t Hs)).
  destruct t; [apply ends_ret; done|]. cbn [addr]. eapply ends_focus_red; done.
Qed.
Lemma ends_black_child t (Q : bool -> rb_mem -> Prop) :
  holds m0 s k t -> Q (is_black (col t)) s -> ends (black_child (addr t)) s Q.
Proof.
  intros Hs HQ. unfold black_child. rewrite nz_addr by (apply (focus_good t Hs)).
  destruct t as [|c l a r]; [apply ends_ret; done|]. cbn [addr].
  destruct (holds_node _ _ _ _ _ _ _ Hs). eapply ends_is_black; done.
Qed.
End Reads.

Lemma ends_red_parent m0 s k t (Q : bool -> rb_mem -> Prop) :
  holds m0 s k t -> Q (negb (is_black (kcol k))) s -> ends (red_child (pa k)) s Q.
Proof.
  intros Hs HQ. destruct k as [|f k]; [apply ends_ret; done|]. apply go_up in Hs.
  replace (pa (f :: k)) with (addr (fill f t)) by (destruct f; done).
  eapply ends_red_child; [done|]. rewrite fill_col. done.
Qed.

(** The addresses of distinct nodes differ. *)
Lemma holds_children m0 s k c l a r : holds m0 s k (T c l a r) -> addr l <> addr r \/ (l = E /\ r = E).
Proof.
  intros [_ _ Hn Ha _]. pose proof (good_nonzero _ Ha) as Hz. apart Hn. apart Hz.
  destruct l as [|cl ll la lr], r as [|cr rl ra rr]; [tauto | | |]; left; cbn in *.
  - set_solver.
  - set_solver.
  - set_solver.
Qed.

Lemma plug_app j k t : plug (j ++ k) t = plug k (plug j t).
Proof. revert t. induction j as [|f j IH]; intros t; cbn; auto. Qed.

Lemma inorder_plug_eq k t t' : inorder t = inorder t' -> inorder (plug k t) = inorder (plug k t').
Proof. revert t t'. induction k as [|f k IH]; intros t t' Ht; [done|]. cbn [plug]. apply IH. destruct f; cbn; rewrite ?Ht; reflexivity. Qed.

(** ** Insertion *)

(** The tree that is left, up to the colour of its root. *)
Definition settled (m0 : gmap Z rb_node) (l : list Z) (s : rb_mem) : Prop :=
  exists t, holds m0 s [] t /\ inorder t = l /\ wf (blacken t).

Lemma settle m0 s k t n l :
  holds m0 s k t -> kbal k n -> bal t n -> kcol k = B \/ col t = B -> inorder (plug k t) = l -> settled m0 l s.
Proof.
  intros Hs Hk Ht Hc Hl. exists (plug k t). split_and!; [apply (holds_plug m0 s k t); done | done |].
  destruct k as [|f k]; [apply (blacken_wf t n Ht)|].
  assert (Hwf : wf (plug (f :: k) t)) by (apply (plug_wf _ _ n); done).
  destruct (plug (f :: k) t) as [|[] ? ? ?]; [done | destruct Hwf; done | done].
Qed.

Definition after_insert (m0 : gmap Z rb_node) (l : list Z) (fuel : nat) : Prop :=
  forall s k lt x rt n,
    holds m0 s k (T R lt x rt) -> bal lt n -> bal rt n -> col lt = B -> col rt = B -> kbal k n ->
    (length k < fuel)%nat -> inorder (plug k (T R lt x rt)) = l ->
    ends (insert_loop fuel x) s (fun _ s' => settled m0 l s').

Lemma insert_stop m0 s k lt x rt n l f :
  holds m0 s k (T R lt x rt) -> bal lt n -> bal rt n -> col lt = B -> col rt = B -> kbal k n ->
  kcol k = B -> inorder (plug k (T R lt x rt)) = l ->
  ends (insert_loop (S f) x) s (fun _ s' => settled m0 l s').
Proof.
  intros Hs Hl Hr Cl Cr Hk Hc Hi. cbn [insert_loop].
  eapply ends_bind, ends_focus_parent; [done|]. eapply ends_bind, ends_red_parent; [done|].
  rewrite Hc. cbn. apply ends_ret. eapply settle; eauto with rb.
Qed.

Ltac up H := apply go_up in H; cbn [fill] in H.

Lemma insert_left_ok m0 l fuel s f ga u k lt x rt n :
  after_insert m0 l fuel -> (S (length k) < fuel)%nat ->
  holds m0 s (f :: FL B ga u :: k) (T R lt x rt) -> fcol f = R ->
  bal lt n -> bal rt n -> col lt = B -> col rt = B -> bal (sib f) n -> col (sib f) = B ->
  bal u n -> kbal k (S n) -> inorder (plug (f :: FL B ga u :: k) (T R lt x rt)) = l ->
  ends (insert_left (insert_loop fuel) x (faddr f) ga) s (fun _ s' => settled m0 l s').
Proof.
  intros IH Hfu Hs Hf Hl Hr Cl Cr Hsb Csb Hu Hk Hi. unfold insert_left.
  pose proof Hs as Hg. rewrite !holds_up in Hg. cbn [fill] in Hg. destruct f as [cf p sb | cf sb p]; cbn in Hf; subst cf.
  all: cbn [fill faddr sib] in *; eapply ends_bind, ends_focus_right; [exact Hg|].
  all: pose proof Hg as P1; apply go_right in P1; eapply ends_bind, ends_red_child; [exact P1|].
  all: destruct (col u) eqn:Cu; cbn [is_black negb].
  1, 3: destruct u as [|cu ul ua ur]; [done|]; cbn in Cu; subst cu; inversion Hu; subst;
    unfold recolor; eapply ends_bind, ends_bind, ends_paint_black; [exact P1|]; intros s1 P2;
    up P2; apply go_left in P2; eapply ends_bind, ends_paint_black; [exact P2|]; intros s2 P4; up P4;
    eapply ends_paint_red; [exact P4|]; intros s3 P7; eapply (IH _ _ _ _ _ (S n)); eauto with rb; try lia;
    cbn [plug]; apply inorder_plug_eq; done.
  - apply go_left in Hg. eapply ends_bind, ends_focus_right; [exact Hg|].
    destruct (holds_children _ _ _ _ _ _ _ Hg) as [Hne | [? ?]]; [|done]. cbn [addr] in Hne.
    rewrite (proj2 (Z.eqb_neq _ _)) by auto. cbn [when]. apply ends_bind, ends_ret.
    eapply ends_bind, ends_paint_black; [exact Hg|]. intros s1 P2. up P2.
    eapply ends_bind, ends_paint_red; [exact P2|]. intros s2 P3.
    eapply ends_bind, ends_rotate_right; [exact P3|]. intros s3 P4. apply go_left in P4.
    destruct fuel as [|fuel]; [lia|]. eapply insert_stop; eauto with rb.
    rewrite <- Hi. cbn [plug]. apply inorder_plug_eq. cbn. rewrite <- !app_assoc. cbn. done.
  - apply go_left in Hg. eapply ends_bind, ends_focus_right; [exact Hg|].
    cbn [addr]. rewrite Z.eqb_refl. cbn [when].
    eapply ends_bind, ends_rotate_left; [exact Hg|]. intros s1 P2.
    eapply ends_bind, ends_paint_black; [exact P2|]. intros s2 P3. up P3.
    eapply ends_bind, ends_paint_red; [exact P3|]. intros s3 P4.
    eapply ends_bind, ends_rotate_right; [exact P4|]. intros s4 P5. apply go_left in P5.
    destruct fuel as [|fuel]; [lia|]. eapply insert_stop; eauto with rb.
    rewrite <- Hi. cbn [plug]. apply inorder_plug_eq. cbn. rewrite <- !app_assoc. cbn. rewrite <- !app_assoc. done.
Qed.
Lemma insert_right_ok m0 l fuel s f ga u k lt x rt n :
  after_insert m0 l fuel -> (S (length k) < fuel)%nat ->
  holds m0 s (f :: FR B u ga :: k) (T R lt x rt) -> fcol f = R ->
  bal lt n -> bal rt n -> col lt = B -> col rt = B -> bal (sib f) n -> col (sib f) = B ->
  bal u n -> kbal k (S n) -> inorder (plug (f :: FR B u ga :: k) (T R lt x rt)) = l ->
  ends (insert_right (insert_loop fuel) x (faddr f) ga) s (fun _ s' => settled m0 l s').
Proof.
  intros IH Hfu Hs Hf Hl Hr Cl Cr Hsb Csb Hu Hk Hi. unfold insert_right.
  pose proof Hs as Hg. rewrite !holds_up in Hg. cbn [fill] in Hg. destruct f as [cf p sb | cf sb p]; cbn in Hf; subst cf.
  all: cbn [fill faddr sib] in *; eapply ends_bind, ends_focus_left; [exact Hg|].
  all: pose proof Hg as P1; apply go_left in P1; eapply ends_bind, ends_red_child; [exact P1|].
  all: destruct (col u) eqn:Cu; cbn [is_black negb].
  1, 3: destruct u as [|cu ul ua ur]; [done|]; cbn in Cu; subst cu; inversion Hu; subst;
    unfold recolor; eapply ends_bind, ends_bind, ends_paint_black; [exact P1|]; intros s1 P2;
    up P2; apply go_right in P2; eapply ends_bind, ends_paint_black; [exact P2|]; intros s2 P4; up P4;
    eapply ends_paint_red; [exact P4|]; intros s3 P7; eapply (IH _ _ _ _ _ (S n)); eauto with rb; try lia;
    cbn [plug]; apply inorder_plug_eq; done.
  - apply go_right in Hg. eapply ends_bind, ends_focus_left; [exact Hg|].
    cbn [addr]. rewrite Z.eqb_refl. cbn [when].
    eapply ends_bind, ends_rotate_right; [exact Hg|]. intros s1 P2.
    eapply ends_bind, ends_paint_black; [exact P2|]. intros s2 P3. up P3.
    eapply ends_bind, ends_paint_red; [exact P3|]. intros s3 P4.
    eapply ends_bind, ends_rotate_left; [exact P4|]. intros s4 P5. apply go_right in P5.
    destruct fuel as [|fuel]; [lia|]. eapply insert_stop; eauto with rb.
    rewrite <- Hi. cbn [plug]. apply inorder_plug_eq. cbn. rewrite <- !app_assoc. cbn. rewrite <- ?app_assoc. done.
  - apply go_right in Hg. eapply ends_bind, ends_focus_left; [exact Hg|].
    destruct (holds_children _ _ _ _ _ _ _ Hg) as [Hne | [? ?]]; [|done]. cbn [addr] in Hne.
    rewrite (proj2 (Z.eqb_neq _ _)) by auto. cbn [when]. apply ends_bind, ends_ret.
    eapply ends_bind, ends_paint_black; [exact Hg|]. intros s1 P2. up P2.
    eapply ends_bind, ends_paint_red; [exact P2|]. intros s2 P3.
    eapply ends_bind, ends_rotate_left; [exact P3|]. intros s3 P4. apply go_right in P4.
    destruct fuel as [|fuel]; [lia|]. eapply insert_stop; eauto with rb.
    rewrite <- Hi. cbn [plug]. apply inorder_plug_eq. cbn. rewrite <- ?app_assoc. cbn. rewrite <- ?app_assoc. done.
Qed.

Lemma insert_loop_ok m0 l fuel : after_insert m0 l fuel.
Proof.
  induction fuel as [|fuel IH]; intros s k lt x rt n Hs Hl Hr Cl Cr Hk Hlen Hi; [lia|].
  inversion Hk as [n' | f k' n' Hf Hsib Hk' | f g k' n' Hf Hg Hsib Hc Hk']; subst.
  1, 2: eapply insert_stop; eauto.
  inversion Hk' as [| g' k'' n'' _ Hu Hk'' | ]; subst; [|congruence].
  cbn [insert_loop]. eapply ends_bind, ends_focus_parent; [done|].
  eapply ends_bind, ends_red_parent; [done|]. cbn [kcol pa]. rewrite Hf. cbn [is_black negb].
  pose proof Hs as Hp. apply go_up in Hp.
  assert (exists pl pr, fill f (T R lt x rt) = T R pl (faddr f) pr) as (pl & pr & Ef)
    by (destruct f; cbn in *; subst; eauto).
  eapply ends_bind, ends_focus_parent; [rewrite Ef in Hp; exact Hp|]. cbn in Hlen.
  pose proof Hp as Hgp. rewrite Ef in Hgp. apply go_up in Hgp.
  destruct g as [cg ga u | cg u ga]; cbn in Hg, Hu, Hgp; subst cg; cbn [pa faddr].
  - eapply ends_bind, ends_focus_left; [exact Hgp|]. cbn [addr]. rewrite Z.eqb_refl.
    eapply insert_left_ok; eauto. lia.
  - eapply ends_bind, ends_focus_left; [exact Hgp|].
    destruct (holds_children _ _ _ _ _ _ _ Hgp) as [Hne | [? ?]]; [|done]. cbn [addr] in Hne.
    rewrite (proj2 (Z.eqb_neq _ _)) by auto. eapply insert_right_ok; eauto. lia.
Qed.

(** ** Fuel *)

Lemma rep_dom m p t a : rep m p t -> a ∈ inorder t -> a ∈ dom m.
Proof.
  revert p. induction t as [|c l IHl x r IHr]; intros p; cbn; [intros _ Hin; inversion Hin|].
  intros (Hx & Hl & Hr) [Hin | [-> | Hin]%elem_of_cons]%elem_of_app; eauto. apply elem_of_dom. eauto.
Qed.
Lemma repk_dom m rt k x a : repk m rt k x -> a ∈ kaddrs k -> a ∈ dom m.
Proof.
  revert x. induction k as [|f k IH]; intros x; cbn; [intros _ Hin; inversion Hin|].
  intros (Hx & Hs & Hk) [-> | [Hin | Hin]%elem_of_app]%elem_of_cons; eauto using rep_dom.
  apply elem_of_dom. eauto.
Qed.

Lemma holds_size m0 s k t : holds m0 s k t -> (length (inorder t ++ kaddrs k) <= size (nodes s))%nat.
Proof.
  intros [Ht Hk Hn _ _]. rewrite <- (size_list_to_set (C := gset Z) (inorder t ++ kaddrs k)) by done.
  rewrite <- size_dom. apply subseteq_size. intros a Ha%elem_of_list_to_set.
  apply elem_of_app in Ha as [Ha | Ha]; eauto using rep_dom, repk_dom.
Qed.

Lemma kaddrs_length k : (length k <= length (kaddrs k))%nat.
Proof. induction k as [|f k IH]; cbn; [lia|]. rewrite length_app. lia. Qed.

Lemma holds_fuel m0 s k t : holds m0 s k t -> (length k < fuel_of s)%nat.
Proof.
  intros Hs%holds_size. pose proof (kaddrs_length k). rewrite length_app in Hs. unfold fuel_of. lia.
Qed.

(** ** A position in a well-formed tree *)

Lemma wf_focus k t :
  wf (plug k t) -> exists n, bal t n /\ kbal k n /\ (kcol k = B \/ col t = B) /\ (k = [] -> col t = B).
Proof.
  revert t. induction k as [|f k IH]; intros t Hwf; cbn [plug] in Hwf.
  - destruct Hwf as [Hc [n Hn]]. eauto 10 with rb.
  - destruct (IH _ Hwf) as (n & Hb & Hk & Hc & Hr). rewrite fill_col in Hc, Hr.
    destruct (fcol f) eqn:Ef.
    + assert (bal t n /\ bal (sib f) n /\ col t = B /\ col (sib f) = B) as (H1 & H2 & H3 & H4)
        by (destruct f; cbn in *; subst; inversion Hb; done).
      exists n. split_and!; auto. destruct k as [|g k]; [specialize (Hr eq_refl); done|].
      apply kb_red; auto. destruct Hc; [done | congruence].
    + assert (exists n', n = S n' /\ bal t n' /\ bal (sib f) n') as (n' & -> & H1 & H2)
        by (destruct f; cbn in *; subst; inversion Hb; eauto).
      exists n'. split_and!; auto with rb. done.
Qed.

(** The pointer to the subtree at a position: where a new node is linked. *)
Definition link (k : ctx) (x : Z) : M unit :=
  match k with
  | [] => set_root x
  | FL _ a _ :: _ => set_left a x
  | FR _ _ a :: _ => set_right a x
  end.

Lemma ends_link m s k t x :
  holds m s k E -> x ∉ kaddrs k -> aligned x -> x <> 0 -> is_Some (nodes s !! x) -> t = T R E x E ->
  ends (rb_link_node x (pa k) (link k)) s (fun _ s' => holds m s' k t).
Proof.
  intros [_ Hk Hn Ha Hf] Hx Hax Hx0 [nx Ex] ->. cbn [inorder app addr] in *.
  unfold rb_link_node. eapply ends_bind, ends_update; [done|].
  set (m1 := <[x := RbNode (pa k) 0 0]> (nodes s)).
  assert (Hk1 : repk m1 (root s) k 0) by (apply (repk_frame (nodes s)); [|done]; intros a Hin; apply lookup_insert_ne; intros ->; done).
  assert (Hdone : forall m2 rt2, m2 !! x = m1 !! x -> repk m2 rt2 k x ->
            (forall a, a ∉ x :: kaddrs k -> m2 !! a = m1 !! a) -> holds m (RbMem m2 rt2) k (T R E x E)).
  { intros m2 rt2 E2 Hk2 Hf2. split; cbn; auto.
    - split_and!; [|done..]. rewrite E2. unfold m1. rewrite lookup_insert_eq. unfold pack. cbn. done.
    - apply NoDup_cons. done.
    - intros a Hin. rewrite Hf2 by done. apply not_elem_of_cons in Hin as [H1 H2]. unfold m1.
      rewrite lookup_insert_ne by auto. auto. }
  destruct k as [|f k]; [eexists _, _; split; [reflexivity|]; apply Hdone; done|].
  cbn in Hk1, Hx, Hn. destruct Hk1 as (Ef & Hs & Hk1). apply not_elem_of_cons in Hx as [Hxf Hx].
  apply NoDup_cons in Hn as [Hn Hn2]. apply not_elem_of_app in Hx as [Hx1 Hx2]. apply not_elem_of_app in Hn as [Hn1 Hn3].
  assert (Hfin : forall n', n' = match f with FL c a r => RbNode (pack (pa k) c) (addr r) x
                                            | FR c l a => RbNode (pack (pa k) c) x (addr l) end ->
            holds m (RbMem (<[faddr f := n']> m1) (root s)) (f :: k) (T R E x E)).
  { intros n' ->. apply Hdone.
    - apply lookup_insert_ne. auto.
    - cbn. split_and!; [apply lookup_insert_eq | |].
      + apply (rep_frame m1); [|done]. intros a Hin. apply lookup_insert_ne. intros <-. done.
      + apply (repk_frame m1); [|done]. intros a Hin. apply lookup_insert_ne. intros <-. done.
    - intros a Hin. apply lookup_insert_ne. intros <-. apply Hin. right. left. }
  destruct f as [c a r | c l a]; cbn [link]; (eapply ends_set_left || eapply ends_set_right); [exact Ef | apply Hfin; done | exact Ef | apply Hfin; done].
Qed.

(** The tree in memory. *)
Definition tree_in (s : rb_mem) (t : rbt) : Prop := holds (nodes s) s [] t.

Lemma ends_black_root m0 l s : settled m0 l s -> l <> [] ->
  ends (r ← get_root; rb_set_black r) s (fun _ s' => exists t', holds m0 s' [] t' /\ wf t' /\ inorder t' = l).
Proof.
  intros (t & Hs & Hi & Hwf) Hl. destruct t as [|c lt a rt]; [subst; done|]. apply ends_bind.
  exists (root s), s. split; [done|]. assert (root s = a) as -> by exact (h_ctx _ _ _ _ Hs).
  eapply ends_paint_black; [exact Hs|]. intros s' Hs'. exists (T B lt a rt). auto.
Qed.

(** Recolouring after a red node is linked at a leaf of a balanced tree. *)
Lemma ends_insert_color m0 s k x :
  holds m0 s k (T R E x E) -> wf (plug k E) ->
  ends (rb_insert_color x) s (fun _ s' => exists t', holds m0 s' [] t' /\ wf t' /\ inorder t' = before k ++ x :: after k).
Proof.
  intros H1 Hwf. destruct (wf_focus k E Hwf) as (n & Hb & Hkb & _ & _).
  assert (Hn0 : n = 0%nat) by (inversion Hb; done). subst n.
  unfold rb_insert_color. eapply ends_bind, ends_fuel, ends_mono.
  - eapply (insert_loop_ok m0 _ (fuel_of s) s k E x E 0%nat H1);
      [constructor | constructor | done | done | exact Hkb | exact (holds_fuel _ _ _ _ H1) | reflexivity].
  - intros [] s2 H2. rewrite (inorder_around k (T R E x E)) in H2. apply ends_black_root; [exact H2|].
    destruct (before k); done.
Qed.

(** C3: linking a node at a leaf of a balanced tree and recolouring always
    ends, in a balanced tree that has the node at that place of the order,
    all others where they were, and memory elsewhere unchanged. *)
Theorem rb_insert_correct s t k x :
  tree_in s t -> wf t -> plug k E = t -> x ∉ inorder t -> aligned x -> x <> 0 -> is_Some (nodes s !! x) ->
  ends (rb_link_node x (pa k) (link k);; rb_insert_color x) s
    (fun _ s' => exists t', holds (nodes s) s' [] t' /\ wf t' /\
      inorder t = before k ++ after k /\ inorder t' = before k ++ x :: after k).
Proof.
  intros Ht Hwf Hk Hx Ha Hx0 Hin. subst t. unfold tree_in in Ht. apply holds_plug in Ht.
  assert (Hxk : x ∉ kaddrs k) by (intros Hin'; apply Hx; rewrite inorder_plug; exact Hin').
  eapply ends_bind, ends_mono; [exact (ends_link _ _ _ _ _ Ht Hxk Ha Hx0 Hin eq_refl)|].
  intros [] s1 H1. eapply ends_mono; [exact (ends_insert_color _ _ _ _ H1 Hwf)|].
  intros [] s2 (t' & H2 & Hw & Hi). exists t'. rewrite (inorder_around k E). done.
Qed.

(** ** A tree of five nodes, and a free node at 24 *)

Definition demo : rbt := T B (T B E 4 E) 8 (T R (T B E 12 E) 16 (T B E 20 E)).
Fixpoint store (p : Z) (t : rbt) (m : gmap Z rb_node) : gmap Z rb_node :=
  match t with
  | E => m
  | T c l a r => <[a := RbNode (pack p c) (addr r) (addr l)]> (store a l (store a r m))
  end.
Definition demo_mem : rb_mem := RbMem (store 0 demo {[24 := RbNode 0 0 0]}) 8.

Lemma demo_balanced : wf demo.
Proof. split; [done|]. exists 2%nat. repeat constructor. Qed.
Lemma demo_in : tree_in demo_mem demo.
Proof.
  split; [cbn; split_and!; done | done | apply (bool_decide_unpack _); vm_compute; done | | done].
  cbn. repeat constructor; cbn; lia || done.
Qed.

Lemma rb_insert_correct_witness :
  ends (rb_link_node 24 20 (link [FR B E 20; FR R (T B E 12 E) 16; FR B (T B E 4 E) 8]);; rb_insert_color 24) demo_mem
    (fun _ s' => exists t', holds (nodes demo_mem) s' [] t' /\ wf t' /\
      inorder demo = [4; 8; 12; 16; 20] /\ inorder t' = [4; 8; 12; 16; 20; 24]).
Proof.
  apply (rb_insert_correct demo_mem demo [FR B E 20; FR R (T B E 12 E) 16; FR B (T B E 4 E) 8] 24 demo_in demo_balanced);
    try done; try (cbn; set_solver by lia); vm_compute; eauto.
Defined.
