(* ===== verification/RbTreeErase.v ===== *)
(** * Red-black trees: removal

    That removing a node ends in a balanced tree with the remaining nodes in
    the same order. *)

From S2P Require Import Prelude RbTree RbTreeInv RbTreeProof.

(** ** The rebalancing loop *)

(** A subtree that lacks one black node: balanced, or with a red root over
    balanced children. *)
Definition lacking (t : rbt) (n : nat) : Prop :=
  match t with T R l _ r => bal l n /\ bal r n | _ => bal t n end.

Lemma bal_lacking t n : bal t n -> lacking t n.
Proof. intros H. destruct t as [|[] l a r]; cbn; try done. inversion H; done. Qed.

Definition erased (m0 : gmap Z rb_node) (l : list Z) (s : rb_mem) : Prop :=
  exists t, holds m0 s [] t /\ wf t /\ inorder t = l.

(** The rounds that remain: a red subtree is painted and that is all. *)
Definition rounds (k : ctx) (c : color) : nat := match c with R => 0 | B => S (length k) end.

Definition after_erase (m0 : gmap Z rb_node) (l : list Z) (fuel : nat) : Prop :=
  forall s k t n,
    holds m0 s k t -> lacking t n -> kbal k (S n) -> (rounds k (col t) < fuel)%nat -> inorder (plug k t) = l ->
    ends (erase_loop fuel (addr t) (pa k)) s (fun _ s' => erased m0 l s').

Lemma ends_black_children m0 s k c l a r (Q : bool -> rb_mem -> Prop) :
  holds m0 s k (T c l a r) -> Q (is_black (col l) && is_black (col r)) s -> ends (black_children a) s Q.
Proof.
  intros Hs HQ. unfold black_children. eapply ends_bind, ends_focus_left; [exact Hs|].
  pose proof Hs as H1. apply go_left in H1. eapply ends_bind, ends_black_child; [exact H1|].
  destruct (is_black (col l)); [|apply ends_ret; done].
  eapply ends_bind, ends_focus_right; [exact Hs|]. apply go_right in Hs. eapply ends_black_child; [exact Hs | exact HQ].
Qed.

(** Painting the root of a well-formed tree black changes nothing. *)
Lemma ends_root_black m0 s k t n l :
  holds m0 s k t -> bal t n -> kbal k n -> kcol k = B \/ col t = B -> (k = [] -> col t = B) ->
  inorder (plug k t) = l ->
  ends (r ← get_root; when (nz r) (rb_set_black r)) s (fun _ s' => erased m0 l s').
Proof.
  intros Hs Ht Hk Hc Hr Hi. apply holds_plug in Hs. pose proof (plug_wf k t n Hk Ht Hc Hr) as Hwf.
  apply ends_bind. exists (root s), s. split; [done|].
  assert (root s = addr (plug k t)) as -> by exact (h_ctx _ _ _ _ Hs).
  rewrite nz_addr by (apply (focus_good _ _ _ _ Hs)). destruct (plug k t) as [|c lt a rt] eqn:Ep.
  - apply ends_ret. exists E. done.
  - cbn [when addr]. destruct Hwf as [Hcol Hn]. cbn in Hcol. subst c.
    eapply ends_paint_black; [exact Hs|]. intros s' Hs'. exists (T B lt a rt). split_and!; done.
Qed.

(** Another subtree in the place of a parent of the same colour. *)
Lemma kbal_up f k m :
  kbal (f :: k) m ->
  exists m', kbal k m' /\ (m' = match fcol f with B => S m | R => m end) /\
    (kcol k = B \/ fcol f = B) /\ (k = [] -> fcol f = B) /\ bal (sib f) m /\ (fcol f = R -> col (sib f) = B).
Proof.
  inversion 1 as [| f' k' m' Hf Hs Hk | f' g k' m' Hf Hg Hs Hc Hk]; subst; rewrite Hf.
  - eexists. split_and!; eauto. done.
  - eexists. split_and!; eauto. done.
Qed.

Lemma bal_red l a r n : bal (T R l a r) n -> bal l n /\ bal r n /\ col l = B /\ col r = B.
Proof. inversion 1; auto. Qed.

Section Left.
Variables (m0 : gmap Z rb_node) (l : list Z) (fuel : nat) (c : color) (p : Z) (k : ctx) (n : nat) (t : rbt).
Hypothesis IH : after_erase m0 l fuel.
Hypothesis Hfu : (rounds k c < fuel)%nat.
Hypothesis Ht : bal t n.

Lemma erase_left_turn s x o y q z w :
  holds m0 s k (T c t p (T B x o (T R y q z))) -> bal x n -> bal y n -> bal z n ->
  kbal (FL c p w :: k) (S n) -> inorder (plug k (T c t p (T B x o (T R y q z)))) = l ->
  ends (c ← rb_color p; rb_set_color o c;; rb_set_black p;; or ← right o; rb_set_black or;;
        __rb_rotate_left p;; r ← get_root; when (nz r) (rb_set_black r)) s (fun _ s' => erased m0 l s').
Proof.
  intros Hs Hx Hy Hz Hk Hi. destruct (kbal_up _ _ _ Hk) as (m' & Hk' & -> & Hc & Hr & _). cbn [fcol] in *.
  eapply ends_bind, ends_focus_color; [exact Hs|]. pose proof Hs as H1. apply go_right in H1.
  eapply ends_bind, ends_paint; [exact H1|]. intros s1 H2. up H2.
  eapply ends_bind, ends_paint_black; [exact H2|]. intros s2 H3. apply go_right in H3.
  eapply ends_bind, ends_focus_right; [exact H3|]. apply go_right in H3. cbn [addr].
  eapply ends_bind, ends_paint_black; [exact H3|]. intros s3 H4. up H4. up H4.
  eapply ends_bind, ends_rotate_left; [exact H4|]. intros s4 H5.
  eapply ends_root_black; [exact H5 | | exact Hk' | exact Hc | exact Hr |].
  - destruct c; auto with rb.
  - rewrite <- Hi. apply inorder_plug_eq. cbn. rewrite <- ?app_assoc. cbn. rewrite <- ?app_assoc. done.
Qed.

Lemma erase_left_black_ok s wl wa wr :
  holds m0 s k (T c t p (T B wl wa wr)) -> bal wl n -> bal wr n -> kbal (FL c p (T B wl wa wr) :: k) (S n) ->
  inorder (plug k (T c t p (T B wl wa wr))) = l ->
  ends (erase_left_black (erase_loop fuel) p wa) s (fun _ s' => erased m0 l s').
Proof.
  intros Hs Hwl Hwr Hk Hi. unfold erase_left_black. pose proof Hs as H1. apply go_right in H1.
  eapply ends_bind, ends_black_children; [exact H1|].
  destruct (col wl) eqn:Cl, (col wr) eqn:Cr; cbn [is_black andb].
  4: { eapply ends_bind, ends_paint_red; [exact H1|]. intros s1 H2. up H2.
    eapply ends_bind, ends_focus_parent; [exact H2|]. destruct (kbal_up _ _ _ Hk) as (m' & Hk' & -> & _).
    change p with (addr (T c t p (T R wl wa wr))) at 1. apply (IH s1 k _ (match c with B => S n | R => n end)).
    - exact H2.
    - destruct c; cbn; auto with rb.
    - destruct c; exact Hk'.
    - exact Hfu.
    - rewrite <- Hi. apply inorder_plug_eq. done. }
  all: eapply ends_bind, ends_focus_right; [exact H1|].
  all: pose proof H1 as Hr; apply go_right in Hr; eapply ends_bind, ends_black_child; [exact Hr|].
  all: rewrite Cr; cbn [is_black when].
  1, 3: apply ends_bind, ends_ret; apply ends_bind, ends_ret;
    destruct wr as [|cr y q z]; [done|]; cbn in Cr; subst cr;
    apply bal_red in Hwr as (Hy & Hz & _); eapply erase_left_turn; eauto.
  destruct wl as [|cl wll wla wlr]; [done|]. cbn in Cl. subst cl.
  apply bal_red in Hwl as (Hwll & Hwlr & Cll & Clr).
  eapply ends_bind, ends_bind, ends_focus_left; [exact H1|]. pose proof H1 as H2. apply go_left in H2. cbn [addr].
  eapply ends_bind, ends_paint_black; [exact H2|]. intros s1 H3. up H3.
  eapply ends_bind, ends_paint_red; [exact H3|]. intros s2 H4.
  eapply ends_rotate_right; [exact H4|]. intros s3 H5. up H5.
  eapply ends_bind, ends_focus_right; [exact H5|]. cbn [addr]. eapply erase_left_turn; eauto.
  rewrite <- Hi. apply inorder_plug_eq. cbn. rewrite <- ?app_assoc. cbn. rewrite <- ?app_assoc. done.
Qed.
End Left.

Lemma erase_left_ok m0 l fuel s c p w k t n :
  after_erase m0 l fuel -> (S (length k) < fuel)%nat ->
  holds m0 s (FL c p w :: k) t -> bal t n -> kbal (FL c p w :: k) (S n) ->
  inorder (plug (FL c p w :: k) t) = l ->
  ends (erase_left (erase_loop fuel) p) s (fun _ s' => erased m0 l s').
Proof.
  intros IH Hfu Hs Ht Hk Hi. unfold erase_left. up Hs.
  destruct (kbal_up _ _ _ Hk) as (m' & Hk' & _ & _ & _ & Hw & Hc). cbn [fcol sib] in *.
  eapply ends_bind, ends_focus_right; [exact Hs|]. destruct w as [|[] wl wa wr]; [inversion Hw | |];
    pose proof Hs as H1; apply go_right in H1; eapply ends_bind, ends_focus_red; try exact H1; cbn [is_black negb when addr].
  - apply bal_red in Hw as (Hwl & Hwr & Cl & Cr). assert (c = B) as -> by (destruct c; auto; discriminate (Hc eq_refl)).
    eapply ends_bind, ends_bind, ends_paint_black; [exact H1|]. intros s1 H2. up H2.
    eapply ends_bind, ends_paint_red; [exact H2|]. intros s2 H3.
    eapply ends_rotate_left; [exact H3|]. intros s3 H4. apply go_left in H4.
    eapply ends_bind, ends_focus_right; [exact H4|]. destruct wl as [|cl x o y]; [inversion Hwl|]. cbn in Cl. subst cl.
    cbn [addr]. inversion Hwl; subst.
    apply (erase_left_black_ok m0 _ fuel R p (FL B wa wr :: k) n t IH ltac:(cbn; lia) Ht s3 x o y); auto.
    + apply kb_red; cbn; auto with rb. apply kb_black; auto. inversion Hk; done.
    + cbn [plug]. apply inorder_plug_eq. cbn. rewrite <- ?app_assoc. cbn. rewrite <- ?app_assoc. done.
  - inversion Hw; subst. apply ends_bind, ends_ret. apply ends_bind, ends_ret.
    apply (erase_left_black_ok m0 _ fuel c p k n t IH ltac:(destruct c; cbn; lia) Ht s wl wa wr); auto.
Qed.

Section Right.
Variables (m0 : gmap Z rb_node) (l : list Z) (fuel : nat) (c : color) (p : Z) (k : ctx) (n : nat) (t : rbt).
Hypothesis IH : after_erase m0 l fuel.
Hypothesis Hfu : (rounds k c < fuel)%nat.
Hypothesis Ht : bal t n.

Lemma erase_right_turn s x o y q z w :
  holds m0 s k (T c (T B (T R y q z) o x) p t) -> bal x n -> bal y n -> bal z n ->
  kbal (FR c w p :: k) (S n) -> inorder (plug k (T c (T B (T R y q z) o x) p t)) = l ->
  ends (c ← rb_color p; rb_set_color o c;; rb_set_black p;; ol ← left o; rb_set_black ol;;
        __rb_rotate_right p;; r ← get_root; when (nz r) (rb_set_black r)) s (fun _ s' => erased m0 l s').
Proof.
  intros Hs Hx Hy Hz Hk Hi. destruct (kbal_up _ _ _ Hk) as (m' & Hk' & -> & Hc & Hr & _). cbn [fcol] in *.
  eapply ends_bind, ends_focus_color; [exact Hs|]. pose proof Hs as H1. apply go_left in H1.
  eapply ends_bind, ends_paint; [exact H1|]. intros s1 H2. up H2.
  eapply ends_bind, ends_paint_black; [exact H2|]. intros s2 H3. apply go_left in H3.
  eapply ends_bind, ends_focus_left; [exact H3|]. apply go_left in H3. cbn [addr].
  eapply ends_bind, ends_paint_black; [exact H3|]. intros s3 H4. up H4. up H4.
  eapply ends_bind, ends_rotate_right; [exact H4|]. intros s4 H5.
  eapply ends_root_black; [exact H5 | | exact Hk' | exact Hc | exact Hr |].
  - destruct c; auto with rb.
  - rewrite <- Hi. apply inorder_plug_eq. cbn. rewrite <- ?app_assoc. cbn. rewrite <- ?app_assoc. done.
Qed.

Lemma erase_right_black_ok s wl wa wr :
  holds m0 s k (T c (T B wl wa wr) p t) -> bal wl n -> bal wr n -> kbal (FR c (T B wl wa wr) p :: k) (S n) ->
  inorder (plug k (T c (T B wl wa wr) p t)) = l ->
  ends (erase_right_black (erase_loop fuel) p wa) s (fun _ s' => erased m0 l s').
Proof.
  intros Hs Hwl Hwr Hk Hi. unfold erase_right_black. pose proof Hs as H1. apply go_left in H1.
  eapply ends_bind, ends_black_children; [exact H1|].
  destruct (col wl) eqn:Cl, (col wr) eqn:Cr; cbn [is_black andb].
  4: { eapply ends_bind, ends_paint_red; [exact H1|]. intros s1 H2. up H2.
    eapply ends_bind, ends_focus_parent; [exact H2|]. destruct (kbal_up _ _ _ Hk) as (m' & Hk' & -> & _).
    change p with (addr (T c (T R wl wa wr) p t)) at 1. apply (IH s1 k _ (match c with B => S n | R => n end)).
    - exact H2.
    - destruct c; cbn; auto with rb.
    - destruct c; exact Hk'.
    - exact Hfu.
    - rewrite <- Hi. apply inorder_plug_eq. done. }
  all: eapply ends_bind, ends_focus_left; [exact H1|].
  all: pose proof H1 as Hr; apply go_left in Hr; eapply ends_bind, ends_black_child; [exact Hr|].
  all: rewrite Cl; cbn [is_black when].
  1, 2: apply ends_bind, ends_ret; apply ends_bind, ends_ret;
    destruct wl as [|cl y q z]; [done|]; cbn in Cl; subst cl;
    apply bal_red in Hwl as (Hy & Hz & _); eapply erase_right_turn; eauto.
  destruct wr as [|cr wrl wra wrr]; [done|]. cbn in Cr. subst cr.
  apply bal_red in Hwr as (Hwrl & Hwrr & Crl & Crr).
  eapply ends_bind, ends_bind, ends_focus_right; [exact H1|]. pose proof H1 as H2. apply go_right in H2. cbn [addr].
  eapply ends_bind, ends_paint_black; [exact H2|]. intros s1 H3. up H3.
  eapply ends_bind, ends_paint_red; [exact H3|]. intros s2 H4.
  eapply ends_rotate_left; [exact H4|]. intros s3 H5. up H5.
  eapply ends_bind, ends_focus_left; [exact H5|]. cbn [addr]. eapply erase_right_turn; eauto.
  rewrite <- Hi. apply inorder_plug_eq. cbn. rewrite <- ?app_assoc. cbn. rewrite <- ?app_assoc. done.
Qed.
End Right.

Lemma erase_right_ok m0 l fuel s c p w k t n :
  after_erase m0 l fuel -> (S (length k) < fuel)%nat ->
  holds m0 s (FR c w p :: k) t -> bal t n -> kbal (FR c w p :: k) (S n) ->
  inorder (plug (FR c w p :: k) t) = l ->
  ends (erase_right (erase_loop fuel) p) s (fun _ s' => erased m0 l s').
Proof.
  intros IH Hfu Hs Ht Hk Hi. unfold erase_right. up Hs.
  destruct (kbal_up _ _ _ Hk) as (m' & Hk' & _ & _ & _ & Hw & Hc). cbn [fcol sib] in *.
  eapply ends_bind, ends_focus_left; [exact Hs|]. destruct w as [|[] wl wa wr]; [inversion Hw | |];
    pose proof Hs as H1; apply go_left in H1; eapply ends_bind, ends_focus_red; try exact H1; cbn [is_black negb when addr].
  - apply bal_red in Hw as (Hwl & Hwr & Cl & Cr). assert (c = B) as -> by (destruct c; auto; discriminate (Hc eq_refl)).
    eapply ends_bind, ends_bind, ends_paint_black; [exact H1|]. intros s1 H2. up H2.
    eapply ends_bind, ends_paint_red; [exact H2|]. intros s2 H3.
    eapply ends_rotate_right; [exact H3|]. intros s3 H4. apply go_right in H4.
    eapply ends_bind, ends_focus_left; [exact H4|]. destruct wr as [|cr x o y]; [inversion Hwr|]. cbn in Cr. subst cr.
    cbn [addr]. inversion Hwr; subst.
    apply (erase_right_black_ok m0 _ fuel R p (FR B wl wa :: k) n t IH ltac:(cbn; lia) Ht s3 x o y); auto.
    + apply kb_red; cbn; auto with rb. apply kb_black; auto. inversion Hk; done.
    + cbn [plug]. apply inorder_plug_eq. cbn. rewrite <- ?app_assoc. cbn. rewrite <- ?app_assoc. done.
  - inversion Hw; subst. apply ends_bind, ends_ret. apply ends_bind, ends_ret.
    apply (erase_right_black_ok m0 _ fuel c p k n t IH ltac:(destruct c; cbn; lia) Ht s wl wa wr); auto.
Qed.

(** The root is not in focus below it. *)
Lemma focus_not_root m0 s f k t : holds m0 s (f :: k) t -> addr t <> root s.
Proof.
  intros [_ Hk Hn Ha _]. assert (Hr : root s ∈ kaddrs (f :: k)).
  { clear Hn Ha. revert f t Hk. induction k as [|g k IH]; intros f t; cbn [repk]; intros (_ & _ & Hk).
    - cbn in Hk. rewrite Hk. left.
    - right. apply elem_of_app. right. apply (IH g (fill f t)). destruct f; exact Hk. }
  apply NoDup_app in Hn as (_ & Hd & _). pose proof (good_nonzero _ Ha) as Hz.
  apply not_elem_of_app in Hz as [_ Hz]. intros E1. rewrite <- E1 in Hr. destruct t; cbn in *; [done|].
  apply (Hd a); [rewrite elem_of_app, elem_of_cons; auto | done].
Qed.

Lemma erase_loop_ok m0 l fuel : after_erase m0 l fuel.
Proof.
  induction fuel as [|fuel IH]; intros s k t n Hs Ht Hk Hlen Hi; [lia|]. cbn [erase_loop].
  eapply ends_bind, ends_black_child; [exact Hs|]. apply ends_bind. exists (root s), s. split; [done|].
  assert (Hpaint : forall c lt a rt m, t = T c lt a rt -> bal (T B lt a rt) m -> kbal k m ->
    ends (when (nz (addr t)) (rb_set_black (addr t))) s (fun _ s' => erased m0 l s')).
  { intros c lt a rt m -> Hb Hkm. rewrite nz_addr by (apply (focus_good _ _ _ _ Hs)). cbn [when addr].
    eapply ends_paint_black; [exact Hs|]. intros s' Hs'. apply holds_plug in Hs'. eexists. split; [exact Hs'|].
    split; [apply (plug_wf k _ m); auto|].
    rewrite <- Hi. apply inorder_plug_eq. done. }
  destruct (col t) eqn:Ct; cbn [is_black andb negb].
  { destruct t as [|c lt a rt]; [done|]. cbn in Ct. subst c. destruct Ht. eapply Hpaint; eauto with rb. }
  assert (Hb : bal t n) by (destruct t as [|[] ? ? ?]; done).
  destruct k as [|f k].
  - assert (root s = addr t) as -> by exact (h_ctx _ _ _ _ Hs). rewrite Z.eqb_refl. cbn [negb].
    destruct t as [|[] lt a rt]; [|done | eapply Hpaint; eauto with rb].
    apply ends_ret. exists E. split; [done|]. split; [split; eauto with rb | done].
  - rewrite (proj2 (Z.eqb_neq _ _)) by (apply (focus_not_root _ _ _ _ _ Hs)). cbn [negb]. cbn in Hlen.
    destruct (kbal_up _ _ _ Hk) as (m' & _ & _ & _ & _ & Hw & _). pose proof Hs as H1. up H1.
    destruct f as [c p w | c w p]; cbn [pa faddr fill] in *; (eapply ends_bind, ends_focus_left; [exact H1|]).
    + rewrite Z.eqb_refl. eapply erase_left_ok; eauto. lia.
    + destruct (holds_children _ _ _ _ _ _ _ H1) as [Hne | [-> _]]; [|inversion Hw].
      rewrite (proj2 (Z.eqb_neq _ _)) by done. eapply erase_right_ok; eauto. lia.
Qed.

(** ** Positions *)

Lemma inorder_plug_split k : exists A B, forall t, inorder (plug k t) = A ++ inorder t ++ B.
Proof.
  induction k as [|f k (A & B & IH)]; [exists [], []; intros; cbn; rewrite app_nil_r; done|].
  destruct f as [c a r | c l a]; cbn [plug].
  - exists A, (a :: inorder r ++ B). intros t. rewrite IH. cbn. rewrite <- ?app_assoc. done.
  - exists (A ++ inorder l ++ [a]), B. intros t. rewrite IH. cbn. rewrite <- ?app_assoc. done.
Qed.

Lemma position t x : x ∈ inorder t -> exists k c l r, t = plug k (T c l x r).
Proof.
  induction t as [|c l IHl a r IHr]; cbn; [intros H; inversion H|].
  intros [Hx | [-> | Hx]%elem_of_cons]%elem_of_app.
  - destruct (IHl Hx) as (k & c' & l' & r' & ->). exists (k ++ [FL c a r]), c', l', r'. rewrite plug_app. done.
  - exists [], c, l, r. done.
  - destruct (IHr Hx) as (k & c' & l' & r' & ->). exists (k ++ [FR c l a]), c', l', r'. rewrite plug_app. done.
Qed.

Lemma holds_nested m0 s k j t : holds m0 s k (plug j t) <-> holds m0 s (j ++ k) t.
Proof. rewrite (holds_plug m0 s k), (holds_plug m0 s (j ++ k)), plug_app. done. Qed.

(** ** Taking a node out *)

(** A node with one child, [ch], at most. *)
Lemma erase_simple_ok s k c n ch l r :
  tree_in s (plug k (T c l n r)) -> (l = E /\ ch = r) \/ (r = E /\ ch = l) ->
  ends (erase_simple n (addr ch)) s
    (fun res s' => res = (addr ch, pa k, cz c) /\ holds (nodes s) s' k ch).
Proof.
  intros Hs Hch. unfold tree_in in Hs. apply holds_plug in Hs. destruct (holds_node _ _ _ _ _ _ _ Hs) as [En Hpa].
  destruct Hs as [(_ & Hl & Hr) Hk Hn Ha _]. pose proof (good_nonzero _ Ha) as Hz.
  assert (Hch' : rep (nodes s) n ch /\ NoDup (inorder ch ++ kaddrs k) /\ (n ∉ inorder ch) /\ good (inorder ch ++ kaddrs k) /\
     aligned n /\ (n ∉ kaddrs k) /\ n <> 0).
  { cbn in Hn, Ha, Hz. apart Hz. rewrite !Forall_app, Forall_cons in Ha. rewrite Forall_app.
    destruct Hch as [[-> ->] | [-> ->]]; cbn [inorder app] in *; rewrite ?nodup_disj in *; apart Hn; tauto. }
  destruct Hch' as (Hc & Hn2 & Hnc & Ha2 & Han & Hnk & Hn0). clear Hch Hl Hr Hn Ha Hz.
  pose proof Hn2 as Hd. apart Hd. pose proof (good_nonzero _ Ha2) as Hz. apart Hz.
  apply Forall_app in Ha2 as [Hg1 Hg2].
  unfold erase_simple. eapply ends_bind, ends_parent; [done..|]. eapply ends_bind, ends_color; [done..|].
  eapply ends_bind, (ends_reparent _ n (pa k) ch); try done. intros m1 Hc1 Hm1.
  eapply ends_bind, (ends_change_child _ _ k); cbn [nodes root]; try done.
  { apply (repk_frame (nodes s)); [|done]. intros y Hy. look. }
  intros m2 rt2 Hk2 Hm2. apply ends_ret. split; [done|]. split; cbn [nodes root]; auto.
  - apply (rep_frame m1); [|done]. intros y Hy. look.
  - apply Forall_app. done.
  - intros y Hy. apart Hy. look.
Qed.

(** The first node of a tree, at the end of a path of left children. *)
Definition left_path (j : ctx) : Prop := Forall (fun f => match f with FL _ _ _ => True | FR _ _ _ => False end) j.

Lemma first_node t : t <> E -> exists j c a r, t = plug j (T c E a r) /\ left_path j.
Proof.
  induction t as [|c l IHl a r _]; [done|]. intros _. destruct l as [|c' l' a' r'].
  - exists [], c, a, r. split; [done | constructor].
  - destruct IHl as (j & cc & aa & rr & Ej & Hj); [done|]. rewrite Ej.
    exists (j ++ [FL c a r]), cc, aa, rr. rewrite plug_app. split; [done|].
    apply Forall_app. split; [done | repeat constructor].
Qed.

Lemma ends_leftmost m0 s k j c a r fuel (Q : Z -> rb_mem -> Prop) :
  holds m0 s k (plug j (T c E a r)) -> left_path j -> (length j < fuel)%nat -> Q a s ->
  ends (leftmost fuel (addr (plug j (T c E a r)))) s Q.
Proof.
  revert k fuel. induction j as [|f j IH] using rev_ind; intros k fuel Hs Hj Hf HQ;
    (destruct fuel as [|fuel]; [lia|]); cbn [leftmost].
  - cbn in *. eapply ends_bind, ends_focus_left; [exact Hs|]. apply ends_ret. done.
  - rewrite plug_app in *. apply Forall_app in Hj as [Hj Hf1]. apply Forall_cons in Hf1 as [Hf1 _].
    destruct f as [cf p w|]; [|done]. cbn [plug fill addr] in *. rewrite length_app in Hf. cbn in Hf.
    eapply ends_bind, ends_focus_left; [exact Hs|]. apply go_left in Hs.
    rewrite nz_addr by (apply (focus_good _ _ _ _ Hs)).
    assert (plug j (T c E a r) <> E) by (destruct j using rev_ind; [done | rewrite plug_app; cbn; destruct x; done]).
    destruct (plug j (T c E a r)) eqn:Ej; [done|]. rewrite <- Ej in *. eapply IH; eauto. lia.
Qed.

(** The memory of a context below a node [p]; its top is at [y]. *)
Definition pj (p : Z) (j : ctx) : Z := match j with [] => p | f :: _ => faddr f end.
Fixpoint repj (m : gmap Z rb_node) (p y : Z) (j : ctx) (x : Z) : Prop :=
  match j with
  | [] => y = x
  | f :: j =>
      m !! faddr f = Some (match f with
                           | FL c a r => RbNode (pack (pj p j) c) (addr r) x
                           | FR c l a => RbNode (pack (pj p j) c) x (addr l)
                           end) /\
      rep m (faddr f) (sib f) /\ repj m p y j (faddr f)
  end.

Lemma rep_plug m p j t : rep m p (plug j t) <-> rep m (pj p j) t /\ repj m p (addr (plug j t)) j (addr t).
Proof.
  revert t. induction j as [|f j IH]; intros t; [cbn; tauto|]. cbn [plug]. rewrite IH.
  destruct f; cbn; tauto.
Qed.

Lemma repj_frame m m' p y j x : (forall a, a ∈ kaddrs j -> m' !! a = m !! a) -> repj m p y j x -> repj m' p y j x.
Proof.
  revert x. induction j as [|f j IH]; intros x Hm; [done|]. cbn. intros (Hf & Hs & Hj). cbn in Hm. split_and!.
  - rewrite Hm; [done | left].
  - apply (rep_frame m); [|done]. intros a Ha. apply Hm. right. apply elem_of_app. auto.
  - apply IH; [|done]. intros a Ha. apply Hm. right. apply elem_of_app. auto.
Qed.

Lemma addr_plug f j t t' : addr (plug (f :: j) t) = addr (plug (f :: j) t').
Proof.
  revert f t t'. induction j as [|g j IH]; intros f t t'; [destruct f; done|].
  cbn [plug]. apply (IH g (fill f t) (fill f t')).
Qed.

(** The first node of a subtree gives way to its right child. *)
Lemma ends_unlink m s p f j c a r (Q : unit -> rb_mem -> Prop) :
  left_path (f :: j) -> nodes s = m -> rep m p (plug (f :: j) (T c E a r)) ->
  NoDup (inorder (plug (f :: j) (T c E a r))) -> good (inorder (plug (f :: j) (T c E a r))) ->
  (forall m', rep m' p (plug (f :: j) r) ->
     (forall y, (y ∉ inorder (plug (f :: j) r)) -> m' !! y = m !! y) -> Q tt (RbMem m' (root s))) ->
  ends (when (nz (addr r)) (rb_set_parent (addr r) (faddr f))) s (fun _ s' => ends (set_left (faddr f) (addr r)) s' Q).
Proof.
  intros Hj <- Hr Hn Ha HQ. rewrite inorder_plug in Hn, Ha. apply rep_plug in Hr as ((_ & _ & Hr) & Hf).
  apply Forall_cons in Hj as [Hj _]. destruct f as [cf pf w|]; [|done]. cbn [pj faddr inorder app] in *.
  pose proof (good_nonzero _ Ha) as Hz. pose proof Hn as Hd. apart Hd. apart Hz.
  cbn in Ha. rewrite !Forall_cons, Forall_app, Forall_cons, Forall_app in Ha.
  destruct Hf as (Ef & Hw & Hf). cbn [faddr sib] in *.
  eapply (ends_reparent _ a pf r); try tauto. intros m1 Hr1 Hm1.
  eapply ends_set_left; [cbn; rewrite Hm1; [exact Ef | dis]|]. apply HQ.
  - apply rep_plug. cbn [pj faddr nodes repj sib]. split_and!.
    + apply (rep_frame m1); [|done]. intros y Hy. look.
    + look.
    + apply (rep_frame (nodes s)); [|done]. intros y Hy. look.
    + rewrite (addr_plug _ _ _ (T c E a r)). apply (repj_frame (nodes s)); [|done]. intros y Hy. look.
  - intros y Hy. rewrite inorder_plug in Hy. apart Hy. look.
Qed.

(** The end of it: the successor takes over the colour, the parent and the
    left subtree. *)
Lemma erase_tail {A} m0 s k c l o n R w L ro (res : A) :
  repk (nodes s) (root s) k n -> nodes s !! o = Some (RbNode (pack (pa k) c) ro (addr l)) -> rep (nodes s) o l ->
  nodes s !! n = Some (RbNode w (addr R) L) -> rep (nodes s) n R -> l <> E -> aligned o ->
  NoDup (inorder (T c l n R) ++ kaddrs k) -> good (inorder (T c l n R) ++ kaddrs k) ->
  o ∉ inorder (T c l n R) ++ kaddrs k ->
  (forall a, (a ∉ inorder (T c l n R) ++ kaddrs k) -> nodes s !! a = m0 !! a) ->
  ends (v ← node o; update n (set_pc (fun _ => rb_parent_color v));;
        l' ← left o; set_left n l';; rb_set_parent l' n;; mret res) s
    (fun r s' => r = res /\ holds m0 s' k (T c l n R)).
Proof.
  intros Hk Eo Hl En HR Hle Hao Hn Ha Ho Hf. pose proof (good_nonzero _ Ha) as Hz. pose proof Hn as Hd.
  apart Hd. apart Hz. apart Ho. pose proof Ha as Ha'. cbn in Ha'. rewrite !Forall_app, Forall_cons in Ha'.
  destruct Ha' as ((Hgl & (Hgn & _) & _) & _).
  eapply ends_bind, ends_node; [done|]. eapply ends_bind, ends_update; [done|]. cbn [rb_parent_color].
  eapply ends_bind, ends_left; [look|]. eapply ends_bind, ends_set_left; [look|].
  eapply ends_bind, (ends_reparent_some _ o n l); try done.
  { apply (rep_frame (nodes s)); [|done]. intros y Hy. look. }
  intros m' Hl' Hm'. apply ends_ret. split; [done|]. unfold with_node in Hm'. cbn [nodes root set_pc rb_right rb_left] in *.
  split; cbn [nodes root rep addr]; auto.
  - split_and!; [look | done |]. apply (rep_frame (nodes s)); [|done]. intros y Hy. look.
  - apply (repk_frame (nodes s)); [|done]. intros y Hy. look.
  - intros y Hy. rewrite <- Hf by done. apart Hy. look.
Qed.

(** A node with two children. *)
Lemma erase_double_ok s k c l o j c2 n rr :
  left_path j -> l <> E -> tree_in s (plug k (T c l o (plug j (T c2 E n rr)))) ->
  ends (erase_double o) s (fun res s' =>
    let K := j ++ FR c l n :: k in res = (addr rr, pa K, cz c2) /\ holds (nodes s) s' K rr).
Proof.
  intros Hj Hl Hs. unfold tree_in in Hs. apply holds_plug in Hs. unfold erase_double.
  destruct (holds_node _ _ _ _ _ _ _ Hs) as [Eo Hpa].
  eapply ends_bind, ends_focus_right; [exact Hs|].
  pose proof Hs as Hr. apply go_right in Hr.
  eapply ends_bind, ends_fuel, ends_leftmost; [exact Hr | exact Hj | |].
  { apply holds_nested, holds_fuel in Hr. rewrite length_app in Hr. lia. }
  destruct Hs as [(_ & Hll & Hrr) Hk Hn Ha _]. assert (P : inorder (T c l o (plug j (T c2 E n rr))) ++ kaddrs k
    ≡ₚ o :: inorder (T c l n (plug j rr)) ++ kaddrs k).
  { cbn. rewrite !inorder_plug. cbn. rewrite <- !Permutation_middle. cbn. done. }
  rewrite P in Hn, Ha. apply NoDup_cons in Hn as [Ho Hn]. apply Forall_cons in Ha as [[Hao Ho0] Ha].
  pose proof Hn as Hd. pose proof Ho as Hd2. pose proof (good_nonzero _ Ha) as Hz. cbn [inorder] in Hd, Hd2, Hz.
  rewrite inorder_plug in Hd, Hd2, Hz. apart Hd. apart Hd2. apart Hz.
  pose proof Ha as Hg. cbn in Hg. rewrite inorder_plug, !Forall_app, Forall_cons, Forall_app in Hg.
  destruct Hg as ((Hgl & ([Han Hn0] & Hgr & Hgj)) & Hgk).
  pose proof Hrr as Hrp. apply rep_plug in Hrp as ((En & _ & Hnr) & Hfj). cbn [addr] in En, Hfj.
  assert (Hpj : aligned (pj o j)) by (destruct j; [done | cbn in Hgj |- *; apply Forall_cons in Hgj; tauto]).
  eapply ends_bind, ends_parent; [done..|].
  eapply ends_bind, (ends_change_child _ _ k); try done. intros m1 rt1 Hk1 Hm1.
  eapply ends_bind, ends_right; [look|]. eapply ends_bind, ends_parent; [look | done |].
  eapply ends_bind, ends_color; [look | done |]. destruct j as [|f j].
  - cbn [pj]. rewrite Z.eqb_refl. apply ends_bind, ends_ret. eapply ends_mono; [eapply (erase_tail (nodes s)); try done|].
    + look.
    + apply (rep_frame (nodes s)); [|done]. intros y Hy. look.
    + look.
    + apply (rep_frame (nodes s)); [|done]. intros y Hy. look.
    + intros y Hy. cbn in Hy. apart Hy. look.
    + intros res s' [-> Hs']. split; [done|]. apply go_right in Hs'. exact Hs'.
  - pose proof Hn as Hd3. pose proof Ho as Hd4. pose proof (good_nonzero _ Ha) as Hz3. apart Hd3. apart Hd4. apart Hz3.
    assert (Hpo : pj o (f :: j) <> o) by (cbn; intros E1; rewrite <- E1 in *; set_solver).
    rewrite (proj2 (Z.eqb_neq _ _) Hpo). rewrite (addr_plug f j (T c2 E n rr) rr) in *. cbn [pj].
    eapply ends_bind, ends_bind, ends_mono;
      [apply (ends_unlink m1 _ o f j c2 n rr (fun _ s' => rep (nodes s') o (plug (f :: j) rr) /\ root s' = rt1 /\
                (forall y, (y ∉ inorder (plug (f :: j) rr)) -> nodes s' !! y = m1 !! y))); try done|].
    { apply (rep_frame (nodes s)); [|done]. intros y Hy. rewrite inorder_plug in Hy.
      apply Hm1. right. cbn [inorder app] in Hy. rewrite elem_of_cons, elem_of_app in Hy.
      destruct Hy as [-> | [Hy | Hy]]; away. }
    { rewrite inorder_plug. apply NoDup_cons. rewrite not_elem_of_app, nodup_disj. done. }
    { rewrite inorder_plug. apply Forall_cons. rewrite Forall_app. done. }
    intros [] s2 Hu. eapply ends_bind, ends_mono; [exact Hu|]. clear s2 Hu. intros [] [m3 rt3] (Hr3 & Ert & Hm3).
    cbn [nodes root] in *. subst rt3.
    eapply ends_bind, ends_right; [look|]. eapply ends_bind, ends_set_right; [look|].
    assert (Hgp : good (inorder (plug (f :: j) rr))) by (rewrite inorder_plug; apply Forall_app; done).
    eapply ends_bind, (ends_reparent_some _ o n (plug (f :: j) rr)); try done.
    { intros E1. assert (Hin : faddr f ∈ inorder (plug (f :: j) rr)) by (rewrite inorder_plug; cbn; set_solver).
      rewrite E1 in Hin. inversion Hin. }
    { apply (rep_frame m3); [|done]. intros y Hy. look. }
    intros m5 Hr5 Hm5. apply ends_ret. unfold with_node in Hm5. cbn [nodes root with_node] in *.
    eapply ends_mono; [eapply (erase_tail (nodes s) _ k c l o n (plug (f :: j) rr)); cbn [nodes root]; try done|].
    + apply (repk_frame m1); [|done]. intros y Hy. look.
    + look.
    + apply (rep_frame (nodes s)); [|done]. intros y Hy. look.
    + look.
    + intros y Hy. cbn [inorder] in Hy. apart Hy. look.
    + intros res s' [-> Hs']. split; [done|]. apply go_right, holds_nested in Hs'. exact Hs'.
Qed.

(** ** rb_erase() *)

(** With the node out, the tree is rebalanced if a black node is gone. *)
Lemma finish_erase m0 s k t c n :
  holds m0 s k t -> bal t n -> (c = B -> kbal k (S n)) -> (c = R -> col t = B /\ kbal k n) ->
  ends (when (cz c =? _RBTREE_BLACK) (__rb_erase_color (addr t) (pa k))) s
    (fun _ s' => erased m0 (inorder (plug k t)) s').
Proof.
  intros Hs Ht HB HR. destruct c.
  - cbn. apply ends_ret. destruct (HR eq_refl) as [Hc Hk]. exists (plug k t).
    split; [apply (holds_plug m0 s k t), Hs|]. split; [apply (plug_wf k t n); auto | done].
  - cbn [cz when]. rewrite Z.eqb_refl. apply ends_fuel. eapply (erase_loop_ok m0 _ _ s k t n); auto using bal_lacking.
    pose proof (holds_size _ _ _ _ Hs) as Hsz. rewrite length_app in Hsz. pose proof (kaddrs_length k).
    unfold rounds, fuel_of. destruct (col t); lia.
Qed.

(** The balance of a context does not depend on the addresses in it. *)
Lemma kbal_rename j c l a b k n : kbal (j ++ FR c l a :: k) n -> kbal (j ++ FR c l b :: k) n.
Proof.
  revert n. induction j as [|f j IH]; intros n.
  - cbn. inversion 1; subst; [apply kb_black | apply kb_red]; done.
  - cbn. inversion 1; subst; [apply kb_black; auto|]. destruct j as [|g' j]; cbn in *; simplify_eq; apply kb_red; auto.
Qed.

Lemma inorder_left_path j c a r : left_path j -> inorder (plug j (T c E a r)) = a :: inorder (plug j r).
Proof.
  intros Hj. assert (exists D, forall t, inorder (plug j t) = inorder t ++ D) as [D HD].
  { induction Hj as [|f j Hf _ [D IH]]; [exists []; intros; cbn; by rewrite app_nil_r|].
    destruct f as [d b u|]; [|done]. exists (b :: inorder u ++ D). intros t. cbn [plug]. rewrite IH. cbn.
    rewrite <- app_assoc. done. }
  rewrite !HD. done.
Qed.

Lemma bal_children c l x r n :
  bal (T c l x r) n -> exists m, bal l m /\ bal r m /\ (c = B -> n = S m) /\ (c = R -> n = m /\ col l = B /\ col r = B).
Proof. inversion 1; subst; eexists; split_and!; eauto; discriminate. Qed.

Lemma ends_erase s t x :
  tree_in s t -> wf t -> x ∈ inorder t ->
  ends (rb_erase x) s (fun _ s' => exists t' A B,
    holds (nodes s) s' [] t' /\ wf t' /\ inorder t = A ++ x :: B /\ inorder t' = A ++ B).
Proof.
  intros Ht Hwf Hx. destruct (position t x Hx) as (k & c & l & r & ->).
  destruct (wf_focus _ _ Hwf) as (n & Hb & Hk & Hcol & Hrt).
  destruct (inorder_plug_split k) as (A & C & HAC).
  pose proof Ht as Hs. unfold tree_in in Hs. apply holds_plug in Hs. unfold rb_erase.
  eapply ends_bind, ends_focus_left; [exact Hs|]. eapply ends_bind, ends_focus_right; [exact Hs|].
  assert (Hgl : good (inorder l) /\ good (inorder r)).
  { pose proof (focus_good _ _ _ _ Hs) as Hg. cbn in Hg. rewrite Forall_app, Forall_cons in Hg. tauto. }
  rewrite !nz_addr by tauto.
  destruct (bal_children _ _ _ _ _ Hb) as (m & Hl & Hr & HB & HR).
  assert (Hsimple : forall ch, (l = E /\ ch = r) \/ (r = E /\ ch = l) ->
    ends (erase_simple x (addr ch) ≫= fun '(child, parent, color) =>
          when (color =? _RBTREE_BLACK) (__rb_erase_color child parent)) s (fun _ s' => exists t' A B,
      holds (nodes s) s' [] t' /\ wf t' /\ inorder (plug k (T c l x r)) = A ++ x :: B /\ inorder t' = A ++ B)).
  { intros ch Hch. eapply ends_bind, ends_mono; [apply (erase_simple_ok s k c x ch l r Ht Hch)|].
    intros res s1 [-> H1]. eapply ends_mono; [apply (finish_erase (nodes s) s1 k ch c m H1)|].
    - destruct Hch as [[_ ->] | [_ ->]]; done.
    - intros E1. rewrite <- HB by done. done.
    - intros E1. destruct (HR E1) as (<- & ? & ?). destruct Hch as [[_ ->] | [_ ->]]; done.
    - intros [] s2 (t' & H2 & Hwf' & Hi). exists t', (A ++ inorder l), (inorder r ++ C).
      rewrite Hi, !HAC. cbn. rewrite <- ?app_assoc. split_and!; try done; [apply Hwf'..|].
      destruct Hch as [[-> ->] | [-> ->]]; done. }
  destruct l as [|cl ll la lr] eqn:El; cbn [negb]; [apply (Hsimple r); auto|]. rewrite <- El in *.
  destruct r as [|cr rl ra rr] eqn:Er; cbn [negb]; [apply (Hsimple l); auto|]. rewrite <- Er in *.
  destruct (first_node r) as (j & c2 & a & r2 & Ej & Hj); [subst; done|].
  assert (Hne : l <> E) by (subst; done). clear Hsimple El Er cl ll la lr cr rl ra rr.
  set (K := j ++ FR c l a :: k).
  assert (Hfoc : exists n2, bal (T c2 E a r2) n2 /\ kbal K n2).
  { rewrite Ej in Hwf. pose proof (plug_app j (FR c l x :: k) (T c2 E a r2)) as Hp. cbn in Hp. rewrite <- Hp in Hwf.
    destruct (wf_focus _ _ Hwf) as (n2 & ? & Hk2 & _). exists n2. split; [done|]. by apply (kbal_rename j c l x a k). }
  destruct Hfoc as (n2 & Hb2 & Hk2). destruct (bal_children _ _ _ _ _ Hb2) as (m2 & _ & Hr2 & HB2 & HR2).
  rewrite Ej in Ht.
  eapply ends_bind, ends_mono; [apply (erase_double_ok s k c l x j c2 a r2 Hj Hne Ht)|].
  intros res s1 [-> H1]. eapply ends_mono; [apply (finish_erase (nodes s) s1 K r2 c2 m2 H1 Hr2)|].
  - intros E1. by rewrite <- HB2.
  - intros E1. destruct (HR2 E1) as (<- & ? & ?). done.
  - intros [] s2 (t' & H2 & Hwf' & Hi). exists t', (A ++ inorder l), (inorder r ++ C).
    rewrite Hi. unfold K. rewrite plug_app. cbn. rewrite !HAC. cbn. rewrite Ej, (inorder_left_path j) by done.
    rewrite <- !app_assoc. split_and!; try done; [apply Hwf'..].
Qed.

(** C4: removing a node of a balanced tree always ends, in a balanced tree
    with the other nodes in the same order; memory outside of that tree, the
    removed node included, is unchanged. *)
Theorem rb_erase_correct s t x :
  tree_in s t -> wf t -> x ∈ inorder t ->
  ends (rb_erase x) s (fun _ s' => exists t' A B,
    holds (nodes s) s' [] t' /\ wf t' /\ inorder t = A ++ x :: B /\ inorder t' = A ++ B).
Proof. apply ends_erase. Qed.

Lemma rb_erase_correct_witness :
  ends (rb_erase 8) demo_mem (fun _ s' => exists t' A B,
    holds (nodes demo_mem) s' [] t' /\ wf t' /\ inorder demo = A ++ 8 :: B /\ inorder t' = A ++ B).
Proof. apply (rb_erase_correct demo_mem demo 8 demo_in demo_balanced). cbn. set_solver. Defined.
