(* ===== verification/RbTreeWalk.v ===== *)
(** * Red-black trees: walks, replacement and height

    The four walks reach the neighbours in the order of the tree, a replaced
    node gives its place to the new one, and a balanced tree is not higher
    than twice the logarithm of its size. *)

From S2P Require Import Prelude RbTree RbTreeInv RbTreeProof RbTreeErase.

Lemma hd_app_ne (A B : list Z) : A <> [] -> hd 0 (A ++ B) = hd 0 A.
Proof. destruct A; done. Qed.
Lemma last_app_ne (A B : list Z) : B <> [] -> List.last (A ++ B) 0 = List.last B 0.
Proof.
  intros HB. induction A as [|a A IH]; [done|]. rewrite <- IH. cbn. destruct (A ++ B) eqn:Ea; [|done].
  destruct A; [subst; done | done].
Qed.
Lemma inorder_ne t : t <> E -> inorder t <> [].
Proof. destruct t as [|? l ? ?]; [done|]. cbn. destruct (inorder l); done. Qed.

(** The height of a tree, and what walking down or up it costs. *)
Fixpoint height (t : rbt) : nat := match t with E => 0 | T _ l _ r => S (Nat.max (height l) (height r)) end.

Lemma height_size t : (height t <= length (inorder t))%nat.
Proof. induction t as [|c l IHl a r IHr]; cbn; rewrite ?length_app; cbn; lia. Qed.
Lemma height_fill f t : (height t < height (fill f t))%nat.
Proof. destruct f; cbn; lia. Qed.
Lemma height_plug k t : (length k + height t <= height (plug k t))%nat.
Proof.
  revert t. induction k as [|f k IH]; intros t; cbn; [lia|]. specialize (IH (fill f t)). pose proof (height_fill f t). lia.
Qed.

(** ** Down to the ends of a subtree *)

Section Down.
Variables (m0 : gmap Z rb_node) (s : rb_mem) (Q : Z -> rb_mem -> Prop).

Lemma ends_first t k fuel :
  holds m0 s k t -> t <> E -> (height t <= fuel)%nat -> Q (hd 0 (inorder t)) s -> ends (leftmost fuel (addr t)) s Q.
Proof.
  revert k fuel. induction t as [|c l IHl a r _]; [done|]. intros k fuel Hs _ Hf HQ. cbn in Hf.
  destruct fuel as [|fuel]; [lia|]. cbn [leftmost addr]. eapply ends_bind, ends_focus_left; [exact Hs|].
  apply go_left in Hs. rewrite nz_addr by (apply (focus_good _ _ _ _ Hs)).
  destruct l as [|cl ll la lr] eqn:El; [apply ends_ret; exact HQ|]. rewrite <- El in *.
  apply (IHl _ _ Hs); [subst; done | lia|]. cbn in HQ. rewrite hd_app_ne in HQ by (apply inorder_ne; subst; done). exact HQ.
Qed.

Lemma ends_last t k fuel :
  holds m0 s k t -> t <> E -> (height t <= fuel)%nat -> Q (List.last (inorder t) 0) s -> ends (rightmost fuel (addr t)) s Q.
Proof.
  revert k fuel. induction t as [|c l _ a r IHr]; [done|]. intros k fuel Hs _ Hf HQ. cbn in Hf.
  destruct fuel as [|fuel]; [lia|]. cbn [rightmost addr]. eapply ends_bind, ends_focus_right; [exact Hs|].
  apply go_right in Hs. rewrite nz_addr by (apply (focus_good _ _ _ _ Hs)).
  destruct r as [|cr rl ra rr] eqn:Er; [apply ends_ret; cbn in HQ; rewrite List.last_last in HQ; exact HQ|]. rewrite <- Er in *.
  apply (IHr _ _ Hs); [subst; done | lia|]. cbn [inorder] in HQ. rewrite last_app_ne in HQ by done.
  change (a :: inorder r) with ([a] ++ inorder r) in HQ. rewrite last_app_ne in HQ by (apply inorder_ne; subst; done). exact HQ.
Qed.

Lemma inorder_fuel k t : holds m0 s k t -> (height t <= fuel_of s)%nat.
Proof. intros H%holds_size. rewrite length_app in H. pose proof (height_size t). unfold fuel_of. lia. Qed.

Lemma ends_leftmost_fuel k t : holds m0 s k t -> t <> E -> Q (hd 0 (inorder t)) s -> ends (with_fuel (fun f => leftmost f (addr t))) s Q.
Proof. intros Hs Ht HQ. apply ends_fuel, (ends_first t k); auto. apply (inorder_fuel k t Hs). Qed.
Lemma ends_rightmost_fuel k t :
  holds m0 s k t -> t <> E -> Q (List.last (inorder t) 0) s -> ends (with_fuel (fun f => rightmost f (addr t))) s Q.
Proof. intros Hs Ht HQ. apply ends_fuel, (ends_last t k); auto. apply (inorder_fuel k t Hs). Qed.
End Down.

(** ** Up to the first turn *)

Section Up.
Variables (m0 : gmap Z rb_node) (s : rb_mem) (Q : Z -> rb_mem -> Prop).

Lemma nz_faddr k f t : holds m0 s (f :: k) t -> nz (faddr f) = true.
Proof.
  intros Hs%go_up. pose proof (focus_good _ _ _ _ Hs) as Hg. apply nz_addr in Hg. destruct f; exact Hg.
Qed.

Lemma ends_up_right k t fuel :
  holds m0 s k t -> t <> E -> (length k < fuel)%nat -> Q (hd 0 (after k)) s -> ends (up_from_right fuel (addr t)) s Q.
Proof.
  revert t fuel. induction k as [|f k IH]; intros t fuel Hs Ht Hf HQ; (destruct fuel as [|fuel]; [cbn in Hf; lia|]);
    cbn [up_from_right]; destruct t as [|c l a r] eqn:Et; try done; cbn [addr];
    (eapply ends_bind, ends_focus_parent; [exact Hs|]); [apply ends_ret; exact HQ|].
  cbn [pa]. rewrite (nz_faddr k f _ Hs). cbn [negb]. pose proof (go_up _ _ _ _ _ Hs) as H1. cbn in Hf.
  destruct f as [cf p w | cf w p]; cbn [fill faddr] in *; (eapply ends_bind, ends_focus_right; [exact H1|]).
  - destruct (holds_children _ _ _ _ _ _ _ H1) as [Hne | [? _]]; [|done].
    rewrite (proj2 (Z.eqb_neq _ _)) by exact Hne. apply ends_ret. exact HQ.
  - rewrite Z.eqb_refl. apply (IH (T cf w p (T c l a r))); [done | done | lia | exact HQ].
Qed.

Lemma ends_up_left k t fuel :
  holds m0 s k t -> t <> E -> (length k < fuel)%nat -> Q (List.last (before k) 0) s -> ends (up_from_left fuel (addr t)) s Q.
Proof.
  revert t fuel. induction k as [|f k IH]; intros t fuel Hs Ht Hf HQ; (destruct fuel as [|fuel]; [cbn in Hf; lia|]);
    cbn [up_from_left]; destruct t as [|c l a r] eqn:Et; try done; cbn [addr];
    (eapply ends_bind, ends_focus_parent; [exact Hs|]); [apply ends_ret; exact HQ|].
  cbn [pa]. rewrite (nz_faddr k f _ Hs). cbn [negb]. pose proof (go_up _ _ _ _ _ Hs) as H1. cbn in Hf.
  destruct f as [cf p w | cf w p]; cbn [fill faddr] in *; (eapply ends_bind, ends_focus_left; [exact H1|]).
  - rewrite Z.eqb_refl. apply (IH (T cf (T c l a r) p w)); [done | done | lia | exact HQ].
  - destruct (holds_children _ _ _ _ _ _ _ H1) as [Hne | [_ ?]]; [|done].
    rewrite (proj2 (Z.eqb_neq _ _)) by (symmetry; exact Hne). apply ends_ret. cbn in HQ.
    rewrite app_assoc, last_app_ne in HQ by done. exact HQ.
Qed.
End Up.

(** ** The walks *)

Lemma nodup_split (A B A' B' : list Z) x : NoDup (A ++ x :: B) -> A ++ x :: B = A' ++ x :: B' -> A = A' /\ B = B'.
Proof.
  revert A'. induction A as [|a A IH]; intros A' Hn Heq; destruct A' as [|a' A']; cbn in *; simplify_eq; [done | | |].
  - apply NoDup_cons in Hn as [Hx _]. set_solver.
  - apply NoDup_cons in Hn as [Hx _]. set_solver.
  - apply NoDup_cons in Hn as [_ Hn]. destruct (IH A' Hn) as [? ?]; [done | subst; done].
Qed.

Section Neighbours.
Variables (m0 : gmap Z rb_node) (s : rb_mem) (k : ctx) (c : color) (l : rbt) (x : Z) (r : rbt).
Hypothesis Hs : holds m0 s k (T c l x r).

Lemma not_own_parent : (pa k =? x) = false.
Proof.
  apply Z.eqb_neq. destruct Hs as [_ _ Hn Ha _]. pose proof (good_nonzero _ Ha) as Hz. cbn in Hn, Hz. apart Hn. apart Hz.
  intros E1. symmetry in E1. revert E1. apply pa_other; done.
Qed.

Lemma rb_next_ok : ends (rb_next x) s (fun a s' => s' = s /\ a = hd 0 (inorder r ++ after k)).
Proof.
  unfold rb_next. eapply ends_bind, ends_focus_parent; [exact Hs|]. rewrite not_own_parent.
  eapply ends_bind, ends_focus_right; [exact Hs|].
  rewrite (nz_addr r) by (apply (focus_good _ _ _ _ (go_right _ _ _ _ _ _ _ Hs))).
  destruct r as [|cr rl ra rr] eqn:Er; cbn beta iota.
  - apply ends_fuel, (ends_up_right m0 s _ k (T c l x E)); [done | done | apply (holds_fuel _ _ _ _ Hs) | done].
  - rewrite <- Er in *. apply (ends_leftmost_fuel _ _ _ _ _ (go_right _ _ _ _ _ _ _ Hs)); [subst; done|].
    rewrite hd_app_ne; [done|]. apply inorder_ne. subst; done.
Qed.

Lemma rb_prev_ok : ends (rb_prev x) s (fun a s' => s' = s /\ a = List.last (before k ++ inorder l) 0).
Proof.
  unfold rb_prev. eapply ends_bind, ends_focus_parent; [exact Hs|]. rewrite not_own_parent.
  eapply ends_bind, ends_focus_left; [exact Hs|].
  rewrite (nz_addr l) by (apply (focus_good _ _ _ _ (go_left _ _ _ _ _ _ _ Hs))).
  destruct l as [|cl ll la lr] eqn:El; cbn beta iota.
  - apply ends_fuel, (ends_up_left m0 s _ k (T c E x r)); [done | done | apply (holds_fuel _ _ _ _ Hs) |].
    cbn. rewrite app_nil_r. done.
  - rewrite <- El in *. apply (ends_rightmost_fuel _ _ _ _ _ (go_left _ _ _ _ _ _ _ Hs)); [subst; done|].
    rewrite last_app_ne; [done|]. apply inorder_ne. subst; done.
Qed.
End Neighbours.

Section InOrder.
Variables (s : rb_mem) (t : rbt).
Hypothesis Hs : tree_in s t.

Lemma root_is : root s = addr t /\ nz (addr t) = match t with E => false | _ => true end.
Proof. split; [exact (h_ctx _ _ _ _ Hs) | apply nz_addr, (focus_good _ _ _ _ Hs)]. Qed.

Lemma rb_first_ok : ends rb_first s (fun a s' => s' = s /\ a = hd 0 (inorder t)).
Proof.
  destruct root_is as [Hroot Hz]. unfold rb_first. eapply ends_bind, (ends_ret (root s)). rewrite Hroot, Hz.
  destruct t; [apply ends_ret; done|]. apply (ends_leftmost_fuel _ _ _ _ _ Hs); done.
Qed.
Lemma rb_last_ok : ends rb_last s (fun a s' => s' = s /\ a = List.last (inorder t) 0).
Proof.
  destruct root_is as [Hroot Hz]. unfold rb_last. eapply ends_bind, (ends_ret (root s)). rewrite Hroot, Hz.
  destruct t; [apply ends_ret; done|]. apply (ends_rightmost_fuel _ _ _ _ _ Hs); done.
Qed.

(** The place of a node of the order. *)
Lemma placed A x C :
  inorder t = A ++ x :: C ->
  exists k c l r, holds (nodes s) s k (T c l x r) /\ A = before k ++ inorder l /\ C = inorder r ++ after k.
Proof.
  intros Ht. destruct (position t x) as (k & c & l & r & Et); [rewrite Ht; set_solver|].
  pose proof Hs as H0. unfold tree_in in H0. pose proof (h_nodup _ _ _ _ H0) as Hn. cbn in Hn. rewrite app_nil_r, Ht in Hn.
  rewrite Et, inorder_around in Ht. cbn in Ht. rewrite <- app_assoc in Ht. cbn in Ht. rewrite app_assoc in Ht.
  symmetry in Ht. destruct (nodup_split _ _ _ _ _ Hn Ht) as [-> ->].
  rewrite Et in H0. apply holds_plug in H0. eauto 10.
Qed.

Lemma rb_next_at A x C : inorder t = A ++ x :: C -> ends (rb_next x) s (fun a s' => s' = s /\ a = hd 0 C).
Proof. intros (k & c & l & r & H & _ & ->)%placed. apply (rb_next_ok _ _ _ _ _ _ _ H). Qed.
Lemma rb_prev_at A x C : inorder t = A ++ x :: C -> ends (rb_prev x) s (fun a s' => s' = s /\ a = List.last A 0).
Proof. intros (k & c & l & r & H & -> & _)%placed. apply (rb_prev_ok _ _ _ _ _ _ _ H). Qed.
End InOrder.

(** The walks over a tree read only; the first and last node are those of
    the order, the next and previous node of each are its neighbours there,
    and NULL ends it. *)
Theorem rb_walk_correct s t :
  tree_in s t ->
  ends rb_first s (fun a s' => s' = s /\ a = hd 0 (inorder t)) /\
  ends rb_last s (fun a s' => s' = s /\ a = List.last (inorder t) 0) /\
  forall A x B, inorder t = A ++ x :: B ->
    ends (rb_next x) s (fun a s' => s' = s /\ a = hd 0 B) /\
    ends (rb_prev x) s (fun a s' => s' = s /\ a = List.last A 0).
Proof.
  intros Hs. split; [apply rb_first_ok; done|]. split; [apply rb_last_ok; done|].
  intros A x C Ht. split; [eapply rb_next_at | eapply rb_prev_at]; done.
Qed.

(** ** Replacement *)

Lemma replace_ok m0 s k c l x r y :
  holds m0 s k (T c l x r) -> (y ∉ inorder (T c l x r) ++ kaddrs k) -> aligned y -> y <> 0 -> is_Some (nodes s !! y) ->
  ends (rb_replace_node x y) s (fun _ s' => holds (<[x := RbNode (pack (pa k) c) (addr r) (addr l)]> m0) s' k (T c l y r)).
Proof.
  intros [(Ex & Hl & Hr) Hk Hn Ha Hf] Hy Hay Hy0 [ny Ey]. 
  assert (Hg : (aligned x /\ x <> 0) /\ good (inorder l) /\ good (inorder r) /\ good (kaddrs k)).
  { cbn in Ha. rewrite !Forall_app, Forall_cons in Ha. tauto. }
  destruct Hg as (Hgx & Hgl & Hgr & Hgk). assert (Hpa : aligned (pa k)) by (apply aligned_pa; done).
  pose proof Hn as Hd. apart Hd. pose proof (good_nonzero _ Ha) as Hz. apart Hz. pose proof Hy as Hyd. apart Hyd.
  unfold rb_replace_node. eapply ends_bind, ends_parent; [done..|].
  eapply ends_bind, (ends_change_child _ _ k); try done; try tauto. intros m1 rt1 Hk1 Hm1.
  eapply ends_bind, ends_left; [cbn; look|].
  eapply ends_bind, (ends_reparent _ x y l); try done; try tauto; cbn [nodes root].
  { apply (rep_frame (nodes s)); [|done]. intros z Hz'. look. }
  intros m2 Hl2 Hm2. cbn [nodes root] in *.
  eapply ends_bind, ends_right; [cbn; look|].
  eapply ends_bind, (ends_reparent _ x y r); try done; try tauto; cbn [nodes root].
  { apply (rep_frame (nodes s)); [|done]. intros z Hz'. look. }
  intros m3 Hr3 Hm3. cbn [nodes root] in *.
  eapply ends_bind, ends_node; [cbn; look|]. eapply ends_update.
  { cbn. rewrite Hm3, Hm2, Hm1 by dis. exact Ey. }
  split; cbn [nodes root].
  - cbn. split_and!; [look | apply (rep_frame m2) | apply (rep_frame m3)]; try done; intros z Hz'; look.
  - cbn. apply (repk_frame m1); [|done]. intros z Hz'. look.
  - cbn. rewrite !nodup_disj, NoDup_cons, !disj_app_l, !disj_cons_l, !disj_cons_r. tauto.
  - cbn. rewrite !Forall_app, Forall_cons. tauto.
  - intros z Hz'. pose proof Hz' as Hzd. apart Hzd. destruct (decide (z = x)) as [-> | Hzx]; [look|].
    rewrite (lookup_insert_ne m0) by auto. rewrite <- Hf; [look|].
    cbn. rewrite !not_elem_of_app, not_elem_of_cons. tauto.
Qed.

(** Replacing a node keeps the shape and the colours of the tree and
    gives the new node the old one's place; the old node itself and memory
    outside of the tree are unchanged. *)
Theorem rb_replace_correct s t x y :
  tree_in s t -> x ∈ inorder t -> y ∉ inorder t -> aligned y -> y <> 0 -> is_Some (nodes s !! y) ->
  ends (rb_replace_node x y) s (fun _ s' => exists t' A B,
    inorder t = A ++ x :: B /\ inorder t' = A ++ y :: B /\ (wf t -> wf t') /\
    holds (nodes s) s' [] t').
Proof.
  intros Hs Hx Hy Hay Hy0 Ey. destruct (position t x Hx) as (k & c & l & r & ->).
  unfold tree_in in Hs. apply holds_plug in Hs. rewrite inorder_plug in Hy.
  eapply ends_mono; [apply (replace_ok _ _ _ _ _ _ _ y Hs Hy Hay Hy0 Ey)|].
  intros [] s' H'. exists (plug k (T c l y r)), (before k ++ inorder l), (inorder r ++ after k).
  rewrite !inorder_around. cbn. rewrite <- !app_assoc. split_and!; [done | done | |].
  - intros (n & Hb & Hk & Hc & Hr)%wf_focus. apply (plug_wf k _ n Hk); [|done..]. inversion Hb; subst; constructor; done.
  - apply (holds_plug (nodes s) s' k). destruct (holds_node _ _ _ _ _ _ _ Hs) as [Ex _].
    rewrite insert_id in H' by exact Ex. exact H'.
Qed.

(** ** Height *)

(** The black height bounds the size from below and the height from above. *)
Lemma bal_size t n : bal t n -> (2 ^ n <= S (length (inorder t)))%nat.
Proof.
  induction 1 as [|l a r n Hl IHl Hr IHr _ _ | l a r n Hl IHl Hr IHr]; cbn; rewrite ?length_app; cbn; lia.
Qed.
Lemma bal_height t n : bal t n -> (height t <= 2 * n + match col t with R => 1 | B => 0 end)%nat.
Proof.
  induction 1 as [|l a r n Hl IHl Hr IHr El Er | l a r n Hl IHl Hr IHr]; cbn; [lia | rewrite El, Er in *; lia|].
  destruct (col l), (col r); lia.
Qed.

Lemma wf_height t : wf t -> (height t <= 2 * Nat.log2 (S (length (inorder t))))%nat.
Proof.
  intros (Hc & n & Hb). pose proof (bal_size t n Hb) as H1. pose proof (bal_height t n Hb) as H2. rewrite Hc in H2.
  apply Nat.log2_le_mono in H1. rewrite Nat.log2_pow2 in H1 by lia. lia.
Qed.

(** In a balanced tree of [n] nodes each loop of a walk and the loop of an
    insertion end within [2 * log2 (n + 1) + 1] rounds. *)
Theorem rb_loops_logarithmic s t :
  tree_in s t -> wf t ->
  let b := S (2 * Nat.log2 (S (length (inorder t)))) in
  (t <> E -> ends (leftmost b (root s)) s (fun a s' => s' = s /\ a = hd 0 (inorder t)) /\
             ends (rightmost b (root s)) s (fun a s' => s' = s /\ a = List.last (inorder t) 0)) /\
  (forall x, x ∈ inorder t -> ends (up_from_right b x) s (fun _ s' => s' = s) /\ ends (up_from_left b x) s (fun _ s' => s' = s)) /\
  (forall k x, plug k E = t -> x ∉ inorder t -> aligned x -> x <> 0 -> is_Some (nodes s !! x) ->
     ends (rb_link_node x (pa k) (link k);; insert_loop b x) s
       (fun _ s' => exists t', holds (nodes s) s' [] t' /\ inorder t' = before k ++ x :: after k)).
Proof.
  intros Hs Hwf b. unfold tree_in in Hs. pose proof (wf_height t Hwf) as Hh. split; [|split].
  - intros Ht. assert (root s = addr t) as -> by exact (h_ctx _ _ _ _ Hs).
    split; [eapply ends_first | eapply ends_last]; eauto; unfold b; lia.
  - intros x Hx. destruct (position t x Hx) as (k & c & l & r & ->). apply holds_plug in Hs.
    pose proof (height_plug k (T c l x r)). cbn [height] in *.
    split; [eapply (ends_up_right _ _ _ k (T c l x r)) | eapply (ends_up_left _ _ _ k (T c l x r))]; eauto; unfold b; lia.
  - intros k x <- Hx Ha Hx0 Hin. apply holds_plug in Hs. destruct (wf_focus k E Hwf) as (n & Hb & Hkb & _ & _).
    assert (Hn0 : n = 0%nat) by (inversion Hb; done). subst n. pose proof (height_plug k E).
    assert (Hxk : x ∉ kaddrs k) by (intros Hin'; apply Hx; rewrite inorder_plug; exact Hin').
    eapply ends_bind, ends_mono; [exact (ends_link _ _ _ _ _ Hs Hxk Ha Hx0 Hin eq_refl)|]. intros [] s1 H1.
    eapply ends_mono; [apply (insert_loop_ok (nodes s) (inorder (plug k (T R E x E))) b s1 k E x E 0%nat H1); try done; try apply bal_E|].
    + unfold b. cbn in *. lia.
    + intros [] s2 (t' & H2 & Hi & _). exists t'. rewrite Hi, inorder_around. done.
Qed.

Lemma rb_walk_correct_witness :
  ends (rb_next 8) demo_mem (fun a s' => s' = demo_mem /\ a = 12) /\
  ends (rb_prev 4) demo_mem (fun a s' => s' = demo_mem /\ a = 0).
Proof.
  destruct (rb_walk_correct demo_mem demo demo_in) as (_ & _ & H).
  split; [apply (H [4] 8 [12; 16; 20] eq_refl) | apply (H [] 4 [8; 12; 16; 20] eq_refl)].
Defined.

Lemma rb_replace_correct_witness :
  ends (rb_replace_node 16 24) demo_mem (fun _ s' => exists t' A B,
    inorder demo = A ++ 16 :: B /\ inorder t' = A ++ 24 :: B /\ (wf demo -> wf t') /\ holds (nodes demo_mem) s' [] t').
Proof.
  apply (rb_replace_correct demo_mem demo 16 24 demo_in); try done; try (cbn; set_solver by lia); vm_compute; eauto.
Defined.

Lemma rb_loops_logarithmic_witness : ends (leftmost 5 8) demo_mem (fun a s' => s' = demo_mem /\ a = 4).
Proof. apply (rb_loops_logarithmic demo_mem demo demo_in demo_balanced). done. Defined.
