(* ===== verification/Timer.v ===== *)
(** * Queues ordered by due time

    The timer tree of src/ps/impl/alg/ps_alg_rr.c and the alarm tree of
    src/ps/impl/ps_alarm.c: red-black trees whose nodes are linked by a
    descent on their due times.  The nodes are those of RbTree.v; the due time
    of a node is a field of the structure it is embedded in, here the
    function [due]. *)

From S2P Require Import Prelude RbTree.

(** src/lib/rbtree.h *)
Definition RB_EMPTY_NODE (n : Z) : M bool := p ← rb_parent n; mret (p =? n).
Definition RB_CLEAR_NODE (n : Z) : M unit := rb_set_parent n n.

(** The loop that finds the link for a node due at [d]: equal due times go to
    the right. *)
Fixpoint descend (fuel : nat) (due : Z -> Z) (d cur parent : Z) (link : Z -> M unit)
  : M (Z * (Z -> M unit)) :=
  match fuel with
  | O => fun _ => None
  | S f =>
      if negb (nz cur) then mret (parent, link)
      else if d <? due cur then l ← left cur; descend f due d l cur (set_left cur)
      else r ← right cur; descend f due d r cur (set_right cur)
  end.
Definition queue_link (due : Z -> Z) (n : Z) : M unit :=
  r ← get_root;
  '(parent, link) ← with_fuel (fun f => descend f due (due n) r 0 set_root);
  rb_link_node n parent link;; rb_insert_color n.

(** Whether the node was queued. *)
Definition queue_unlink (n : Z) : M bool :=
  empty ← RB_EMPTY_NODE n;
  if empty : bool then mret false else rb_erase n;; RB_CLEAR_NODE n;; mret true.
