(* ===== verification/TimerProof.v ===== *)
(** * Queues ordered by due time: correctness

    The invariant of such a queue and what linking and unlinking do to the
    list of its nodes in order. *)

From Stdlib Require Import Sorting.Sorted.
From S2P Require Import Prelude RbTree RbTreeInv RbTreeProof RbTreeErase RbTreeWalk Timer.

Definition by_due (due : Z -> Z) (x y : Z) : Prop := due x <= due y.
Definition sorted (due : Z -> Z) (l : list Z) : Prop := StronglySorted (by_due due) l.

Lemma sorted_app due l1 l2 :
  sorted due (l1 ++ l2) <-> sorted due l1 /\ sorted due l2 /\ forall x y, x ∈ l1 -> y ∈ l2 -> due x <= due y.
Proof.
  unfold sorted. induction l1 as [|a l1 IH]; cbn [app].
  - split; [intros H; split_and!; [constructor | done | intros x y Hx; inversion Hx] | tauto].
  - split.
    + intros H. inversion H as [|? ? Hs Ha]; subst. apply Forall_app in Ha as [Ha1 Ha2].
      apply IH in Hs as (H1 & H2 & Hx). split_and!; [constructor; done | done|].
      intros x y [-> | Hi]%elem_of_cons Hy; [|auto]. rewrite Forall_forall in Ha2. apply Ha2, Hy.
    + intros (H1 & H2 & Hx). inversion H1 as [|? ? Hs Ha]; subst. constructor.
      * apply IH. split_and!; [done | done|]. intros x y Hi. apply Hx. right. done.
      * apply Forall_app. split; [done|]. apply Forall_forall. intros y Hy. apply Hx; [left | done].
Qed.

Lemma sorted_cons due a l : sorted due (a :: l) <-> sorted due l /\ forall y, y ∈ l -> due a <= due y.
Proof.
  change (a :: l) with ([a] ++ l). rewrite sorted_app. split.
  - intros (_ & H & Hx). split; [done|]. intros y Hy. apply Hx; [left | done].
  - intros (H & Hx). split_and!; [repeat constructor | done|]. intros x y ->%list_elem_of_singleton. auto.
Qed.

Lemma sorted_filter due P `{!forall x, Decision (P x)} l : sorted due l -> sorted due (filter P l).
Proof.
  induction l as [|a l IH]; [done|]. rewrite sorted_cons. intros [Hs Ha]. rewrite filter_cons. case_decide; [|auto].
  apply sorted_cons. split; [auto|]. intros y [_ Hy]%list_elem_of_filter. auto.
Qed.

Lemma sorted_ext due due' l : (forall x, x ∈ l -> due x = due' x) -> sorted due l -> sorted due' l.
Proof.
  induction l as [|a l IH]; intros He; [constructor|]. rewrite !sorted_cons. intros [Hs Ha].
  split; [apply IH; [|done]; intros; apply He; right; done|]. intros y Hy.
  rewrite <- !He by (left || (right; done)). auto.
Qed.

(** The nodes of the queue in order are [l]; the other nodes are cleared. *)
Record queue_ok (due : Z -> Z) (s : rb_mem) (l : list Z) : Prop := {
  q_tree : exists t, tree_in s t /\ wf t /\ inorder t = l;
  q_sorted : sorted due l;
  q_clear n nd : nodes s !! n = Some nd -> n ∉ l -> exists c, rb_parent_color nd = pack n c;
  q_nodes n : is_Some (nodes s !! n) -> aligned n /\ n <> 0
}.

Lemma queue_due due due' s l : (forall x, x ∈ l -> due x = due' x) -> queue_ok due s l -> queue_ok due' s l.
Proof. intros He [? ? ? ?]. split; auto. eapply sorted_ext; eauto. Qed.

Lemma queue_nodup due s l : queue_ok due s l -> NoDup l.
Proof. intros [(t & Ht & _ & <-) _ _ _]. pose proof (h_nodup _ _ _ _ Ht) as H. cbn in H. rewrite app_nil_r in H. done. Qed.

Lemma rep_in m p t a : rep m p t -> a ∈ inorder t -> is_Some (m !! a).
Proof.
  revert p. induction t as [|c l IHl b r IHr]; intros p; cbn; [intros _ H; inversion H|].
  intros (Eb & Hl & Hr) [Hi | [-> | Hi]%elem_of_cons]%elem_of_app; eauto.
Qed.

Lemma queue_in due s l n : queue_ok due s l -> n ∈ l -> is_Some (nodes s !! n).
Proof. intros [(t & Ht & _ & <-) _ _ _] Hn. exact (rep_in _ _ _ _ (h_tree _ _ _ _ Ht) Hn). Qed.

(** Memory that changed only inside the new tree has the same nodes. *)
Lemma holds_nodes m s t n :
  holds m s [] t -> (forall a, a ∈ inorder t -> is_Some (m !! a)) -> is_Some (nodes s !! n) <-> is_Some (m !! n).
Proof.
  intros Hs Hm. destruct (decide (n ∈ inorder t)) as [Hi | Hi].
  - split; intros _; [auto | exact (rep_in _ _ _ _ (h_tree _ _ _ _ Hs) Hi)].
  - rewrite (h_frame _ _ _ _ Hs); [done|]. cbn. rewrite app_nil_r. done.
Qed.

(** ** Linking *)

Lemma descend_ok due d m0 s t : forall fuel k lk,
  holds m0 s k t -> sorted due (inorder t) -> (length (inorder t) < fuel)%nat -> (forall x, lk x = link k x) ->
  (forall y, y ∈ before k -> due y <= d) -> (forall y, y ∈ after k -> d < due y) ->
  ends (descend fuel due d (addr t) (pa k) lk) s (fun res s' => s' = s /\ exists k',
    plug k' E = plug k t /\ res.1 = pa k' /\ (forall x, res.2 x = link k' x) /\
    (forall y, y ∈ before k' -> due y <= d) /\ (forall y, y ∈ after k' -> d < due y)).
Proof.
  induction t as [|c l IHl a r IHr]; intros fuel k lk Hs Ho Hf Hlk Hb Ha; (destruct fuel as [|fuel]; [lia|]); cbn [descend].
  { apply ends_ret. split; [done|]. exists k. auto. }
  rewrite nz_addr by (apply (focus_good _ _ _ _ Hs)). cbn [negb addr]. cbn in Ho, Hf.
  apply sorted_app in Ho as (Hl & Hr & Hlr). apply sorted_cons in Hr as [Hr Har]. rewrite length_app in Hf. cbn in Hf.
  destruct (Z.ltb_spec d (due a)) as [Hd | Hd].
  - eapply ends_bind, ends_focus_left; [exact Hs|]. change a with (pa (FL c a r :: k)) at 2.
    apply (IHl fuel (FL c a r :: k)); [apply go_left; done | done | lia | done | done|].
    cbn. intros y [-> | [Hy | Hy]%elem_of_app]%elem_of_cons; [done | specialize (Har y Hy); lia | auto].
  - eapply ends_bind, ends_focus_right; [exact Hs|]. change a with (pa (FR c l a :: k)) at 2.
    apply (IHr fuel (FR c l a :: k)); [apply go_right; done | done | lia | done | | done].
    cbn. intros y [Hy | [Hy | ->%list_elem_of_singleton]%elem_of_app]%elem_of_app; [auto | | lia].
    specialize (Hlr y a Hy ltac:(left)). lia.
Qed.

Lemma ends_link_by due n s t :
  tree_in s t -> wf t -> sorted due (inorder t) -> n ∉ inorder t -> aligned n -> n <> 0 -> is_Some (nodes s !! n) ->
  ends (queue_link due n) s (fun _ s' => exists t' A C,
    inorder t = A ++ C /\ (forall y, y ∈ A -> due y <= due n) /\ (forall y, y ∈ C -> due n < due y) /\
    holds (nodes s) s' [] t' /\ wf t' /\ inorder t' = A ++ n :: C).
Proof.
  intros Ht Hw Ho Hn Han Hn0 Hin. unfold queue_link. eapply ends_bind, (ends_ret (root s)).
  assert (root s = addr t) as -> by exact (h_ctx _ _ _ _ Ht).
  eapply ends_bind, ends_fuel, ends_mono.
  { apply (descend_ok due (due n) (nodes s) s t _ []); [exact Ht | done | | done | | ].
    - pose proof (holds_size _ _ _ _ Ht) as Hz. rewrite length_app in Hz. unfold fuel_of. lia.
    - intros y Hy. inversion Hy.
    - intros y Hy. inversion Hy. }
  intros [p lk] s' [-> (k & Ek & Ep & Elk & Hb & Ha)]. cbn in Ek, Ep, Elk. subst p t.
  unfold tree_in in Ht. apply holds_plug in Ht.
  assert (Hxk : n ∉ kaddrs k) by (intros Hi; apply Hn; rewrite inorder_plug; exact Hi).
  assert (El : rb_link_node n (pa k) lk = rb_link_node n (pa k) (link k)) by (unfold rb_link_node; rewrite Elk; done).
  rewrite El. eapply ends_bind, ends_mono; [exact (ends_link _ _ _ _ _ Ht Hxk Han Hn0 Hin eq_refl)|].
  intros [] s1 H1. eapply ends_mono; [exact (ends_insert_color _ _ _ _ H1 Hw)|].
  intros [] s2 (t' & H2 & Hw2 & Hi). exists t', (RbTreeInv.before k), (after k). rewrite inorder_around. done.
Qed.

Lemma queue_link_ok due s l n :
  queue_ok due s l -> n ∉ l -> is_Some (nodes s !! n) ->
  ends (queue_link due n) s (fun _ s' => exists A C,
    l = A ++ C /\ (forall y, y ∈ A -> due y <= due n) /\ (forall y, y ∈ C -> due n < due y) /\
    queue_ok due s' (A ++ n :: C) /\ forall x, is_Some (nodes s' !! x) <-> is_Some (nodes s !! x)).
Proof.
  intros Hq Hn Hin. destruct Hq as [(t & Ht & Hw & <-) Ho Hc Hg]. destruct (Hg n Hin) as [Han Hn0].
  eapply ends_mono; [exact (ends_link_by due n s t Ht Hw Ho Hn Han Hn0 Hin)|].
  intros [] s' (t' & A & C & Et & HA & HC & Hs & Hw' & Et'). exists A, C. do 3 (split; [done|]).
  assert (Hsame : forall x, is_Some (nodes s' !! x) <-> is_Some (nodes s !! x)).
  { intros x. apply (holds_nodes _ _ t'); [done|]. rewrite Et'. intros a Ha.
    destruct (decide (a = n)) as [-> | Hne]; [done|]. apply (rep_in _ _ _ _ (h_tree _ _ _ _ Ht)). rewrite Et. set_solver. }
  split; [|done]. split.
  - exists t'. split; [|done]. destruct Hs. split; auto.
  - rewrite Et in Ho. apply sorted_app in Ho as (H1 & H2 & H12). apply sorted_app. split; [done|]. split.
    + apply sorted_cons. split; [done|]. intros y Hy. specialize (HC y Hy). lia.
    + intros x y Hx [-> | Hy]%elem_of_cons; auto.
  - intros x nd Hx Hxi. rewrite (h_frame _ _ _ _ Hs) in Hx by (cbn; rewrite app_nil_r, Et'; done).
    apply (Hc x nd Hx). rewrite Et. set_solver.
  - intros x Hx. apply Hg, Hsame, Hx.
Qed.

(** ** Unlinking *)

Lemma ends_empty_node due s l n :
  queue_ok due s l -> is_Some (nodes s !! n) ->
  ends (RB_EMPTY_NODE n) s (fun b s' => s' = s /\ b = bool_decide (n ∉ l)).
Proof.
  intros [(t & Ht & Hw & <-) Ho Hc Hg] [nd En]. destruct (Hg n (ex_intro _ _ En)) as [Han Hn0].
  unfold RB_EMPTY_NODE. destruct (decide (n ∈ inorder t)) as [Hi | Hi].
  - destruct (position t n Hi) as (k & c & lt & rt & ->). unfold tree_in in Ht. apply holds_plug in Ht.
    eapply ends_bind, ends_focus_parent; [exact Ht|]. apply ends_ret. split; [done|].
    rewrite (not_own_parent _ _ _ _ _ _ _ Ht). symmetry. apply bool_decide_eq_false. intros Hf. done.
  - destruct (Hc n nd En Hi) as [c Ec]. destruct nd as [w rr ll]. cbn in Ec. subst w.
    eapply ends_bind, ends_parent; [exact En | done|]. apply ends_ret. split; [done|].
    rewrite Z.eqb_refl. symmetry. apply bool_decide_eq_true. done.
Qed.

Lemma without_absent (n : Z) (l : list Z) : n ∉ l -> filter (fun x => x <> n) l = l.
Proof. induction l as [|x l IH]; [done|]. intros [H1 H2]%not_elem_of_cons. rewrite filter_cons_True by auto. rewrite IH; done. Qed.

Lemma without_split (n : Z) (A C : list Z) : NoDup (A ++ n :: C) -> filter (fun x => x <> n) (A ++ n :: C) = A ++ C.
Proof.
  intros Hn. apart Hn. rewrite filter_app, filter_cons_False by (intros Hf; apply Hf; done).
  rewrite !without_absent by done. done.
Qed.

(** A node outside of the tree that is cleared. *)
Lemma queue_clear due s l t n p c r lf :
  holds (nodes s) s [] t -> wf t -> inorder t = l -> sorted due l ->
  nodes s !! n = Some (RbNode (pack p c) r lf) -> aligned p -> aligned n -> n ∉ l ->
  (forall x nd, nodes s !! x = Some nd -> x ∉ l -> x <> n -> exists c, rb_parent_color nd = pack x c) ->
  (forall x, is_Some (nodes s !! x) -> aligned x /\ x <> 0) ->
  ends (RB_CLEAR_NODE n) s (fun _ s' => queue_ok due s' l /\ forall x, is_Some (nodes s' !! x) <-> is_Some (nodes s !! x)).
Proof.
  intros Hs Hw El Ho En Hp Hn Hnl Hc Hg. unfold RB_CLEAR_NODE. eapply ends_set_parent; [exact En | done | done|].
  unfold with_node. cbn [nodes root].
  assert (Hsame : forall x, is_Some (<[n := RbNode (pack n c) r lf]> (nodes s) !! x) <-> is_Some (nodes s !! x)).
  { intros x. destruct (decide (x = n)) as [-> | Hne]; [rewrite lookup_insert_eq, En; split; eauto | rewrite lookup_insert_ne by auto; done]. }
  split; [|done]. split; cbn [nodes].
  - exists t. split; [|done]. destruct Hs as [H1 H2 H3 H4 H5]. split; cbn [nodes root]; auto.
    apply (rep_frame (nodes s)); [|done]. intros a Ha. apply lookup_insert_ne. intros ->. rewrite El in Ha. done.
  - done.
  - intros x nd Hx Hxl. destruct (decide (x = n)) as [-> | Hne].
    + rewrite lookup_insert_eq in Hx. simplify_eq. exists c. done.
    + rewrite lookup_insert_ne in Hx by auto. eauto.
  - intros x Hx. apply Hg, Hsame, Hx.
Qed.

(** The two stores that take a node of the queue out of it. *)
Lemma queue_erase_ok due s l n :
  queue_ok due s l -> n ∈ l ->
  ends (rb_erase n) s (fun _ s1 => ends (RB_CLEAR_NODE n) s1 (fun _ s' =>
    queue_ok due s' (filter (fun x => x <> n) l) /\ forall x, is_Some (nodes s' !! x) <-> is_Some (nodes s !! x))).
Proof.
  intros Hq Hi. pose proof (queue_nodup _ _ _ Hq) as Hnd. pose proof (queue_in _ _ _ _ Hq Hi) as Hin.
  destruct Hq as [(t & Ht & Hw & El) Ho Hc Hg]. subst l. destruct (Hg n Hin) as [Han Hn0].
  destruct (position t n Hi) as (k & c & lt & rt & Et). pose proof Ht as Ht0. unfold tree_in in Ht0. rewrite Et in Ht0.
  apply holds_plug in Ht0. destruct (holds_node _ _ _ _ _ _ _ Ht0) as [En Hpa].
  eapply ends_mono; [exact (ends_erase s t n Ht Hw Hi)|]. intros [] s1 (t' & A & C & Hs1 & Hw1 & Ei & Ei').
  rewrite Ei in *. rewrite without_split by done.
  assert (Hnot : n ∉ inorder t') by (rewrite Ei'; apart Hnd; apply not_elem_of_app; done).
  assert (Hfr : forall a, a ∉ inorder t' -> nodes s1 !! a = nodes s !! a).
  { intros a Ha. apply (h_frame _ _ _ _ Hs1). cbn. rewrite app_nil_r. done. }
  assert (Hsame : forall x, is_Some (nodes s1 !! x) <-> is_Some (nodes s !! x)).
  { intros x. apply (holds_nodes _ _ t'); [done|]. rewrite Ei'. intros a Ha.
    apply (rep_in _ _ _ _ (h_tree _ _ _ _ Ht)). rewrite Ei. set_solver. }
  eapply ends_mono; [apply (queue_clear due s1 (A ++ C) t' n (pa k) c (addr rt) (addr lt))|]; try done.
  - destruct Hs1. split; auto.
  - apply sorted_app in Ho as (H1 & H2 & H12). apply sorted_cons in H2 as [H2 _]. apply sorted_app.
    split_and!; [done | done|]. intros x y Hx Hy. apply H12; [done | right; done].
  - rewrite Hfr by done. done.
  - rewrite <- Ei'. done.
  - intros x nd Hx Hxl Hxn. rewrite Hfr in Hx by (rewrite Ei'; done). apply (Hc x nd Hx). set_solver.
  - intros x Hx. apply Hg, Hsame, Hx.
  - intros [] s2 [Hq2 Hs2]. split; [done|]. intros x. rewrite Hs2. apply Hsame.
Qed.

Lemma queue_unlink_ok due s l n :
  queue_ok due s l -> is_Some (nodes s !! n) ->
  ends (queue_unlink n) s (fun b s' => b = bool_decide (n ∈ l) /\ queue_ok due s' (filter (fun x => x <> n) l) /\
    forall x, is_Some (nodes s' !! x) <-> is_Some (nodes s !! x)).
Proof.
  intros Hq Hin. unfold queue_unlink. eapply ends_bind, ends_mono; [exact (ends_empty_node _ _ _ _ Hq Hin)|].
  intros b s0 [-> ->]. destruct (decide (n ∈ l)) as [Hi | Hi].
  - rewrite bool_decide_eq_false_2 by (intros Hf; done).
    eapply ends_bind, ends_mono; [exact (queue_erase_ok _ _ _ _ Hq Hi)|]. intros [] s1 H1.
    eapply ends_bind, ends_mono; [exact H1|]. intros [] s2 H2. apply ends_ret. rewrite bool_decide_eq_true_2 by done. done.
  - rewrite bool_decide_eq_true_2 by done. apply ends_ret. rewrite bool_decide_eq_false_2, without_absent by done. done.
Qed.

(** ** The head of the queue *)

Lemma queue_first_ok due s l : queue_ok due s l -> ends rb_first s (fun a s' => s' = s /\ a = hd 0 l).
Proof. intros [(t & Ht & _ & <-) _ _ _]. apply (rb_first_ok s t Ht). Qed.

Lemma queue_next_ok due s x l : queue_ok due s (x :: l) -> ends (rb_next x) s (fun a s' => s' = s /\ a = hd 0 l).
Proof. intros [(t & Ht & _ & Et) _ _ _]. exact (rb_next_at s t Ht [] x l Et). Qed.
