(* ===== verification/Sched.v ===== *)
(** * The scheduler

    Model of src/ps/impl/alg/ps_alg_rr.c and src/ps/impl/sched/ps_switch.c:
    the ready queues by priority, the wait queues, the timer tree, the choice
    of the next task and the switch to it, on any number of CPUs.

    Each operation runs under ps_lock and is one step of the system; task_sched()
    holds the lock across the switch, until ps_switch_finish() on the stack of
    the next task.  A task is named by the address of its timer node.  Queues
    are the lists of their members (KListProof.v relates such lists to the
    rings of links); [list_remove_entry] takes a task off the queue it is on.
    An operation is [None] where the code would use a task or a queue that
    does not exist, or dies. *)

From S2P Require Import Prelude RbTree Timer.

Inductive ps_status := ps_running | ps_ready | ps_waiting | ps_stopped | ps_dying.
#[export] Instance ps_status_eq : EqDecision ps_status.
Proof. solve_decision. Defined.

Definition ps_idle : Z := 0.
Definition PS_PRIORITY_MAX : nat := 3.
Definition NO_PSID : Z := 0xFFFFFFFF.

(** Of task_schedule, task_wait and task_lifecycle what the scheduler uses;
    [param] of an idle task is its CPU. *)
Record task := Task {
  status : ps_status; priority : Z; psid : Z; on_cpu : Z; affinity_mask : Z;
  terminate_requested : bool; vm_lock_depth : Z; param : Z;
  wait_interruptible : bool; timer_due_ms : Z
}.

(** [wait_lists]: the wait queue of the scheduler is the first, the others
    belong to locks and devices; [cpus]: the task of each CPU. *)
Record sched := Sched {
  tasks : gmap Z task;
  ready_queue : list (list Z);
  wait_lists : list (list Z);
  timer_queue : rb_mem;
  cpus : list Z
}.

Abbreviation P := (st sched).

(** A program that looks at the state. *)
Definition seeing {A} (f : sched -> P A) : P A := fun s => f s s.

Definition get_task (t : Z) : P task := fun s => k ← tasks s !! t; Some (k, s).
Definition set_tasks (m : gmap Z task) (s : sched) : sched :=
  Sched m (ready_queue s) (wait_lists s) (timer_queue s) (cpus s).
Definition modify (t : Z) (f : task -> task) : P unit := fun s =>
  k ← tasks s !! t; Some (tt, set_tasks (<[t := f k]> (tasks s)) s).
Definition set_ready (q : list (list Z)) (s : sched) : sched :=
  Sched (tasks s) q (wait_lists s) (timer_queue s) (cpus s).
Definition set_waits (q : list (list Z)) (s : sched) : sched :=
  Sched (tasks s) (ready_queue s) q (timer_queue s) (cpus s).
Definition set_timers (m : rb_mem) (s : sched) : sched :=
  Sched (tasks s) (ready_queue s) (wait_lists s) m (cpus s).
Definition set_cpus (l : list Z) (s : sched) : sched :=
  Sched (tasks s) (ready_queue s) (wait_lists s) (timer_queue s) l.

Definition set_status (x : ps_status) (k : task) : task :=
  Task x (priority k) (psid k) (on_cpu k) (affinity_mask k) (terminate_requested k) (vm_lock_depth k)
    (param k) (wait_interruptible k) (timer_due_ms k).
Definition set_on_cpu (x : Z) (k : task) : task :=
  Task (status k) (priority k) (psid k) x (affinity_mask k) (terminate_requested k) (vm_lock_depth k)
    (param k) (wait_interruptible k) (timer_due_ms k).
Definition set_interruptible (x : bool) (k : task) : task :=
  Task (status k) (priority k) (psid k) (on_cpu k) (affinity_mask k) (terminate_requested k) (vm_lock_depth k)
    (param k) x (timer_due_ms k).
Definition set_due (x : Z) (k : task) : task :=
  Task (status k) (priority k) (psid k) (on_cpu k) (affinity_mask k) (terminate_requested k) (vm_lock_depth k)
    (param k) (wait_interruptible k) x.

Definition current (cpu : nat) : P Z := fun s => t ← cpus s !! cpu; Some (t, s).

Definition die {A} : P A := fun _ => None.
Definition put_current (cpu : nat) (t : Z) : P unit := fun s => Some (tt, set_cpus (<[cpu := t]> (cpus s)) s).

(** ** Queues *)

Definition without (t : Z) (l : list Z) : list Z := filter (fun x => x <> t) l.
Definition list_remove_entry (t : Z) : P unit := fun s =>
  Some (tt, set_waits (without t <$> wait_lists s) (set_ready (without t <$> ready_queue s) s)).
Definition insert_ready (p : Z) (t : Z) : P unit := fun s =>
  if p <? 0 then None else
  l ← ready_queue s !! Z.to_nat p; Some (tt, set_ready (<[Z.to_nat p := l ++ [t]]> (ready_queue s)) s).
Definition insert_wait (q : nat) (t : Z) : P unit := fun s =>
  l ← wait_lists s !! q; Some (tt, set_waits (<[q := l ++ [t]]> (wait_lists s)) s).

Definition ps_put_to_wait_queue_unsafe (t : Z) (which_list : option nat) : P unit :=
  let which_list := default 0%nat which_list in
  list_remove_entry t;;
  k ← get_task t;
  (if negb (psid k =? NO_PSID) then insert_wait which_list t else mret tt);;
  modify t (set_interruptible false);;
  modify t (set_status ps_waiting).

Definition ps_put_to_ready_queue_unsafe (t : Z) : P unit :=
  k ← get_task t;
  if bool_decide (status k = ps_dying) then mret tt else
  (if negb (psid k =? NO_PSID) then list_remove_entry t;; insert_ready (priority k) t else mret tt);;
  modify t (set_interruptible false);;
  modify t (set_status ps_ready).

(** What ptrace_stop_task_unsafe() does to the queues. *)
Definition ps_stop_unsafe (t : Z) : P unit :=
  list_remove_entry t;;
  k ← get_task t;
  (if negb (psid k =? NO_PSID) then insert_wait 0 t else mret tt);;
  modify t (set_status ps_stopped).

(** Public wakeups touch only tasks that are still blocked. *)
Definition ps_put_to_ready_queue (t : Z) : P unit :=
  k ← get_task t;
  if bool_decide (status k = ps_waiting) then ps_put_to_ready_queue_unsafe t else mret tt.

(** ** Timers *)

Definition on_timers {A} (m : st rb_mem A) : P A := fun s =>
  '(x, r) ← m (timer_queue s); Some (x, set_timers r s).
Definition due_of (s : sched) (t : Z) : Z := from_option timer_due_ms 0 (tasks s !! t).

(** src/driver/timer/time.c: [us] is the reading of time_now_us(). *)
Definition time_deadline_ms (us delay_ms : Z) : Z :=
  let now := us / 1000 + b2z (nz (us mod 1000)) in
  if UINT64_MAX - now <? delay_ms then UINT64_MAX else u64 (now + delay_ms).

Definition timer_disarm_unsafe (t : Z) : P unit :=
  armed ← on_timers (queue_unlink t);
  if armed : bool then modify t (set_due 0) else mret tt.

Definition timer_arm_unsafe (us : Z) (t ms : Z) : P unit :=
  timer_disarm_unsafe t;;
  modify t (set_due (time_deadline_ms us ms));;
  seeing (fun s => on_timers (queue_link (due_of s) t)).

Definition timer_fire (n : Z) : P unit :=
  on_timers (rb_erase n);; on_timers (RB_CLEAR_NODE n);;
  modify n (set_due 0);;
  ps_put_to_ready_queue_unsafe n.

(** Each task due at [now] becomes ready; the successor is read before the
    node is taken out. *)
Fixpoint fire_loop (fuel : nat) (now n : Z) : P unit :=
  match fuel with
  | O => fun _ => None
  | S f =>
      if negb (nz n) then mret tt else
      k ← get_task n;
      if now <? timer_due_ms k then mret tt else
      next ← on_timers (rb_next n);
      timer_fire n;;
      fire_loop f now next
  end.
Definition ps_fire_timers_unsafe (now : Z) : P unit :=
  n ← on_timers rb_first; seeing (fun s => fire_loop (fuel_of (timer_queue s)) now n).

(** ** The choice of the next task *)

Definition ps_task_available (cpu : nat) (cur t : Z) (k : task) : bool :=
  (bool_decide (status k = ps_ready) || (t =? cur)) &&
  (negb (terminate_requested k) || nz (vm_lock_depth k)) &&
  ((on_cpu k =? 0) || (t =? cur)) &&
  ((affinity_mask k =? 0) || nz (Z.land (affinity_mask k) (u32 (Z.shiftl 1 (Z.of_nat cpu))))) &&
  (negb (priority k =? ps_idle) || (param k =? Z.of_nat cpu)).

Definition available_in (s : sched) (cpu : nat) (cur t : Z) : bool :=
  match tasks s !! t with Some k => ps_task_available cpu cur t k | None => false end.

(** The first eligible task of a queue, which goes to its end. *)
Fixpoint scan (avail : Z -> bool) (seen l : list Z) : option (Z * list Z) :=
  match l with
  | [] => None
  | t :: l => if avail t then Some (t, rev seen ++ l ++ [t]) else scan avail (t :: seen) l
  end.
Definition ps_get_available_ready_task (avail : Z -> bool) (l : list Z) : option (Z * list Z) :=
  scan avail [] l.

(** The levels from the highest down: [i] is one above the next. *)
Fixpoint pick (avail : Z -> bool) (queues : list (list Z)) (i : nat) : option (Z * list (list Z)) :=
  match i with
  | O => None
  | S i =>
      match queues !! i with
      | None => None
      | Some l =>
          match ps_get_available_ready_task avail l with
          | Some (t, l') => Some (t, <[i := l']> queues)
          | None => pick avail queues i
          end
      end
  end.

(** [now]: the reading of time_coarse_ms(). *)
Definition ps_get_next_task_unsafe (cpu : nat) (now : Z) : P (option Z) :=
  cur ← current cpu; k ← get_task cur;
  (if negb (psid k =? NO_PSID) then ps_fire_timers_unsafe now else mret tt);;
  seeing (fun s =>
    match pick (available_in s cpu cur) (ready_queue s) PS_PRIORITY_MAX with
    | Some (t, q) => fun _ => Some (Some t, set_ready q s)
    | None => mret None
    end).

Definition ps_has_ready_task (cpu : nat) : P bool :=
  cur ← current cpu;
  seeing (fun s => mret (existsb (available_in s cpu cur) (concat (drop 1 (ready_queue s))))).

(** ** The switch *)

Definition task_sched (cpu : nat) (now : Z) : P unit :=
  prev ← current cpu; k ← get_task prev;
  (if bool_decide (status k = ps_running) then modify prev (set_status ps_ready) else mret tt);;
  next ← ps_get_next_task_unsafe cpu now;
  match next with
  | None => die
  | Some next =>
      modify next (set_status ps_running);;
      if next =? prev then mret tt else
      modify next (set_on_cpu (Z.of_nat cpu + 1));;
      put_current cpu next;;
      (* ps_switch_finish() *)
      modify prev (set_on_cpu 0)
  end.

(** ** Waiting *)

Definition ps_prepare_timed_wait (us : Z) (t ms : Z) : P unit :=
  (if 0 <? ms then timer_arm_unsafe us t ms else mret tt);;
  ps_put_to_wait_queue_unsafe t None.

(** [interrupted]: a signal the wait must give way to is pending. *)
Definition ps_prepare_interruptible_wait (us : Z) (interrupted : bool) (t : Z) (queue : option nat) (ms : Z) : P Z :=
  if interrupted then mret (- EINTR) else
  (if nz ms then timer_arm_unsafe us t ms else mret tt);;
  ps_put_to_wait_queue_unsafe t queue;;
  modify t (set_interruptible true);;
  mret 0.

Definition ps_finish_timed_wait (t : Z) : P unit := timer_disarm_unsafe t.

(** ** The system

    What the CPUs and the rest of the kernel do to the scheduler, in any
    order.  [Stop] and [Continue] are what signals and tracers do, [Exit] is the part of the end of a task that the scheduler sees:
    it leaves its queue and its timer, and is dying. *)
Inductive event :=
| Schedule (cpu : nat) (now : Z)
| TimedWait (cpu : nat) (us ms : Z)
| InterruptibleWait (cpu : nat) (us : Z) (interrupted : bool) (queue : option nat) (ms : Z)
| Block (cpu : nat) (queue : nat)
| FinishWait (cpu : nat)
| Wake (t : Z)
| Stop (cpu : nat)
| Continue (t : Z)
| Exit (cpu : nat).

Definition perform (e : event) : P unit :=
  match e with
  | Schedule cpu now => task_sched cpu now
  | TimedWait cpu us ms => cur ← current cpu; ps_prepare_timed_wait us cur ms
  | InterruptibleWait cpu us intr q ms =>
      cur ← current cpu; _ ← ps_prepare_interruptible_wait us intr cur q ms; mret tt
  | Block cpu q => cur ← current cpu; ps_put_to_wait_queue_unsafe cur (Some q)
  | FinishWait cpu => cur ← current cpu; ps_finish_timed_wait cur
  | Wake t => ps_put_to_ready_queue t
  | Stop cpu => cur ← current cpu; ps_stop_unsafe cur
  | Continue t => ps_put_to_ready_queue_unsafe t
  | Exit cpu =>
      cur ← current cpu; list_remove_entry cur;; timer_disarm_unsafe cur;; modify cur (set_status ps_dying)
  end.

Fixpoint perform_all (es : list event) : P unit :=
  match es with [] => mret tt | e :: es => perform e;; perform_all es end.
