(* ===== verification/Alarm.v ===== *)
(** * Interval timers

    Model of src/ps/impl/ps_alarm.c (the real-time interval timer of a thread
    group and the tick that fires it) and of the calls on it in
    src/syscall/impl/syscall_proc.c: alarm(2), setitimer(2), getitimer(2).

    The groups whose timer runs are in a tree ordered by due time, the queue
    of Timer.v, in which a group is named by the address of its node.  Each
    operation runs under ps_lock.  [mgr] lists the tasks in the order of the
    manager tree, and [sent] the tasks that SIGALRM was queued for. *)

From S2P Require Import Prelude RbTree Timer Sched.

Record group := Group { alarm_expire_ms : Z; alarm_interval_ms : Z }.
Record member := Member { m_task : Z; m_thread : Z; m_dying : bool; m_sighand : bool }.

Record alarm_state := AlarmSt {
  groups : gmap Z group; alarms : rb_mem; mgr : list member; sent : list Z
}.
Abbreviation AL := (st alarm_state).

Definition on_alarms {X} (m : st rb_mem X) : AL X := fun s =>
  '(x, r) ← m (alarms s); Some (x, AlarmSt (groups s) r (mgr s) (sent s)).
Definition get_group (g : Z) : AL group := fun s => k ← groups s !! g; Some (k, s).
Definition put_group (g : Z) (k : group) : AL unit := fun s =>
  Some (tt, AlarmSt (<[g := k]> (groups s)) (alarms s) (mgr s) (sent s)).
Definition send (t : Z) : AL unit := fun s => Some (tt, AlarmSt (groups s) (alarms s) (mgr s) (sent s ++ [t])).
Definition members : AL (list member) := fun s => Some (mgr s, s).
Definition expire_of (s : alarm_state) (g : Z) : Z := from_option alarm_expire_ms 0 (groups s !! g).

Definition disarm (g : Z) : AL unit :=
  _ ← on_alarms (queue_unlink g);
  k ← get_group g; put_group g (Group 0 (alarm_interval_ms k)).

Definition arm (g : Z) : AL unit := fun s => on_alarms (queue_link (expire_of s) g) s.

Fixpoint find_member (g except : Z) (l : list member) : option member :=
  match l with
  | [] => None
  | m :: l => if negb (m_task m =? except) && (m_thread m =? g) && negb (m_dying m) then Some m else find_member g except l
  end.
(** [except] is 0 for none. *)
Definition recipient (g except : Z) : AL (option member) := l ← members; mret (find_member g except l).

Definition ps_alarm_disarm_unsafe (t g : Z) : AL unit :=
  r ← recipient g t; match r with Some _ => mret tt | None => disarm g end.

(** The remaining time and the interval it had; [us] and [us'] are two
    readings of the clock. *)
Definition ps_alarm_update (us us' : Z) (g : Z) (set : bool) (value interval : Z) : AL (Z * Z) :=
  k ← get_group g;
  let now := us / 1000 in
  let remaining := if now <? alarm_expire_ms k then alarm_expire_ms k - now else 0 in
  (if set then
     disarm g;;
     put_group g (Group 0 interval);;
     if nz value then put_group g (Group (time_deadline_ms us' value) interval);; arm g else mret tt
   else mret tt);;
  mret (remaining, alarm_interval_ms k).

(** The first due time after [now] in the phase of the timer. *)
Definition next_due (due now interval : Z) : Z := u64 (due + u64 (u64 ((now - due) / interval + 1) * interval)).

(** The first group of the queue, which is due. *)
Definition fire_group (now g : Z) (k : group) : AL unit :=
  disarm g;;
  r ← recipient g 0;
  match r with
  | None => mret tt
  | Some m =>
      if negb (m_sighand m) then mret tt else
      (if nz (alarm_interval_ms k)
       then put_group g (Group (next_due (alarm_expire_ms k) now (alarm_interval_ms k)) (alarm_interval_ms k));; arm g
       else mret tt);;
      send (m_task m)
  end.

Fixpoint tick_loop (fuel : nat) (now : Z) : AL unit :=
  match fuel with
  | O => fun _ => None
  | S f =>
      g ← on_alarms rb_first;
      if negb (nz g) then mret tt else
      k ← get_group g;
      if now <? alarm_expire_ms k then mret tt else
      fire_group now g k;; tick_loop f now
  end.
(** One round per group and one that finds none due. *)
Definition ps_alarm_tick (now : Z) : AL unit := fun s => tick_loop (S (size (nodes (alarms s)))) now s.

(** ** System calls *)

Definition TICK_MS : Z := 10.

Definition timeval_to_ms (sec usec : Z) : Z :=
  if (sec <? 0) || (usec <? 0) then 0 else
  let ms := u64 (u64 (sec * 1000) + usec / 1000) in
  if (0 <? usec) && (ms =? 0) then 1 else ms.
Definition round_itimer_ms (ms : Z) : Z :=
  if ms =? 0 then 0 else if ms <=? TICK_MS then TICK_MS else
  u64 (u64 (ms + TICK_MS - 1) / TICK_MS * TICK_MS).

Definition sys_alarm (us us' g seconds : Z) : AL Z :=
  '(value, _) ← ps_alarm_update us us' g true (seconds * 1000) 0;
  mret (u32 (u64 (value + 999) / 1000)).

(** The new value and interval, each as seconds and microseconds; the result
    is the old ones in milliseconds. *)
Definition sys_setitimer (us us' g which : Z) (new : option (Z * Z * (Z * Z))) : AL (Z + Z * Z) :=
  if nz which then mret (inl (- EINVAL)) else
  match new with
  | None => r ← ps_alarm_update us us' g false 0 0; mret (inr r)
  | Some (vs, vu, (isec, iu)) =>
      if (vs <? 0) || (vu <? 0) || (1000000 <=? vu) || (isec <? 0) || (iu <? 0) || (1000000 <=? iu) then mret (inl (- EINVAL)) else
      r ← ps_alarm_update us us' g true (round_itimer_ms (timeval_to_ms vs vu)) (round_itimer_ms (timeval_to_ms isec iu));
      mret (inr r)
  end.

Definition ms_to_itimeval (ms : Z) : Z * Z := (s32 (ms / 1000), ms mod 1000 * 1000).
(** [value]: there is a place for the result, the value and the interval. *)
Definition sys_getitimer (us g which : Z) (value : bool) : AL (Z + (Z * Z) * (Z * Z)) :=
  if nz which then mret (inl (- EINVAL)) else
  if negb value then mret (inl (- EFAULT)) else
  '(remaining, interval) ← ps_alarm_update us us g false 0 0;
  mret (inr (ms_to_itimeval remaining, ms_to_itimeval interval)).
