(* ===== verification/AlarmProof.v ===== *)
(** * Interval timers: theorems

    What a tick does to the timers of the groups, and the phase that a
    periodic timer keeps. *)

From S2P Require Import Prelude RbTree RbTreeInv Timer TimerProof Sched Alarm.

Lemma runs_alarms {X} (m : st rb_mem X) s (Q : X -> alarm_state -> Prop) :
  ends m (alarms s) (fun x r => Q x (AlarmSt (groups s) r (mgr s) (sent s))) -> ends (on_alarms m) s Q.
Proof. intros (x & r & E & H). eexists x, _. unfold on_alarms. rewrite E. done. Qed.
Lemma runs_group g k s (Q : group -> alarm_state -> Prop) : groups s !! g = Some k -> Q k s -> ends (get_group g) s Q.
Proof. intros E H. exists k, s. unfold get_group. rewrite E. done. Qed.

(** The groups of [l], in this order, are the ones whose timer runs. *)
Record alarm_ok (s : alarm_state) (l : list Z) : Prop := {
  a_queue : queue_ok (expire_of s) (alarms s) l;
  a_nodes g : is_Some (nodes (alarms s) !! g) <-> is_Some (groups s !! g)
}.

Lemma expire_other s g k x : x <> g -> expire_of (AlarmSt (<[g := k]> (groups s)) (alarms s) (mgr s) (sent s)) x = expire_of s x.
Proof. intros Hx. unfold expire_of. cbn. rewrite lookup_insert_ne by auto. done. Qed.

(** The group changes in memory only. *)
Definition with_group (g : Z) (k : group) (s s' : alarm_state) : Prop :=
  groups s' = <[g := k]> (groups s) /\ mgr s' = mgr s /\ sent s' = sent s.

Lemma disarm_alarm s l g k :
  alarm_ok s l -> groups s !! g = Some k ->
  ends (disarm g) s (fun _ s' => alarm_ok s' (filter (fun x => x <> g) l) /\ with_group g (Group 0 (alarm_interval_ms k)) s s').
Proof.
  intros [Hq Hn] Ek. unfold disarm. eapply ends_bind, runs_alarms, ends_mono; [apply (queue_unlink_ok _ _ _ g Hq); apply Hn; eauto|].
  intros b r (_ & Hq' & Hn'). eapply ends_bind, runs_group; [exact Ek|]. eexists _, _. split; [reflexivity|]. split; [|done]. split.
  - cbn. eapply queue_due; [|exact Hq']. intros x [Hx _]%list_elem_of_filter. symmetry.
    exact (expire_other (AlarmSt (groups s) r (mgr s) (sent s)) g _ x Hx).
  - cbn. intros x. rewrite Hn', Hn. destruct (decide (x = g)) as [-> | Hx]; [rewrite lookup_insert_eq, Ek; split; eauto | rewrite lookup_insert_ne by auto; done].
Qed.

Lemma arm_alarm s l g k k0 :
  alarm_ok s l -> g ∉ l -> groups s !! g = Some k0 ->
  ends (put_group g k;; arm g) s (fun _ s' => exists l1 l2, l = l1 ++ l2 /\
    (forall y, y ∈ l1 -> expire_of s y <= alarm_expire_ms k) /\ (forall y, y ∈ l2 -> alarm_expire_ms k < expire_of s y) /\
    alarm_ok s' (l1 ++ g :: l2) /\ with_group g k s s').
Proof.
  intros [Hq Hn] Hg Ek. eapply ends_bind. eexists _, _. split; [reflexivity|]. set (s1 := AlarmSt _ _ _ _).
  assert (He : forall x, x ∈ l -> expire_of s1 x = expire_of s x) by (intros x Hx; apply expire_other; set_solver).
  assert (Eg : expire_of s1 g = alarm_expire_ms k) by (unfold expire_of; cbn; rewrite lookup_insert_eq; done).
  assert (Hq1 : queue_ok (expire_of s1) (alarms s1) l) by (eapply queue_due; [|exact Hq]; intros x Hx; symmetry; auto).
  enough (H : ends (on_alarms (queue_link (expire_of s1) g)) s1 (fun _ s' => exists l1 l2, l = l1 ++ l2 /\
    (forall y, y ∈ l1 -> expire_of s y <= alarm_expire_ms k) /\ (forall y, y ∈ l2 -> alarm_expire_ms k < expire_of s y) /\
    alarm_ok s' (l1 ++ g :: l2) /\ with_group g k s s')) by exact H.
  apply runs_alarms. eapply ends_mono; [apply (queue_link_ok _ _ l g Hq1 Hg); cbn; apply Hn; eauto|].
  intros [] r (l1 & l2 & -> & H1 & H2 & Hq2 & Hn2). exists l1, l2. split; [done|]. rewrite Eg in *.
  split; [intros y Hy; rewrite <- He by set_solver; auto|]. split; [intros y Hy; rewrite <- He by set_solver; auto|]. split; [|done]. split; [exact Hq2|].
  cbn. intros x. rewrite Hn2. cbn. rewrite Hn. destruct (decide (x = g)) as [-> | Hx]; [rewrite lookup_insert_eq, Ek; split; eauto | rewrite lookup_insert_ne by auto; done].
Qed.

(** ** The tick *)

(** The task the signal of a group goes to. *)
Definition target (ms : list member) (g : Z) : option Z :=
  m ← find_member g 0 ms; if m_sighand m then Some (m_task m) else None.
Definition rearms (ms : list member) (g : Z) (k : group) : bool := bool_decide (is_Some (target ms g)) && nz (alarm_interval_ms k).
Definition after_tick (now : Z) (ms : list member) (g : Z) (k : group) : group :=
  Group (if rearms ms g k then next_due (alarm_expire_ms k) now (alarm_interval_ms k) else 0) (alarm_interval_ms k).

(** The next due time is the first after [now] that is a whole number of
    intervals after the last one. *)
Lemma next_due_ok due now i :
  0 <= due <= now -> 0 < i -> now + i < UINT64_MOD ->
  now < next_due due now i <= now + i /\ (next_due due now i - due) mod i = 0.
Proof.
  intros Hd Hi Hb. unfold next_due. pose proof (Z.div_mod (now - due) i ltac:(lia)) as E. pose proof (Z.mod_pos_bound (now - due) i ltac:(lia)).
  assert (0 <= (now - due) / i) by (apply Z.div_pos; lia). set (q := (now - due) / i) in *.
  assert (q + 1 <= (q + 1) * i) by nia. unfold UINT64_MOD in *. rewrite (u64_id (q + 1)) by (unfold UINT64_MOD; nia).
  rewrite (u64_id ((q + 1) * i)) by (unfold UINT64_MOD; nia). rewrite u64_id by (unfold UINT64_MOD; nia). split; [nia|].
  replace (due + (q + 1) * i - due) with ((q + 1) * i) by lia. apply Z.mod_mul. lia.
Qed.

Record ticked (now : Z) (d : list Z) (s s' : alarm_state) : Prop := {
  t_groups g : groups s' !! g = (if decide (g ∈ d) then after_tick now (mgr s) g else id) <$> groups s !! g;
  t_mgr : mgr s' = mgr s;
  t_sent : sent s' = sent s ++ omap (target (mgr s)) d
}.

(** Clock and intervals leave room for the next due time. *)
Definition roomy (now : Z) (s : alarm_state) : Prop :=
  forall g k, groups s !! g = Some k -> 0 <= alarm_expire_ms k /\ 0 <= alarm_interval_ms k /\ now + alarm_interval_ms k < UINT64_MOD.

Lemma ticked_nil now s : ticked now [] s s.
Proof.
  split; [|done | rewrite app_nil_r; done]. intros g. rewrite decide_False by set_solver. destruct (groups s !! g); done.
Qed.

(** One group, then the others. *)
Lemma ticked_cons now g d k s s1 s2 :
  groups s !! g = Some k -> g ∉ d -> groups s1 = <[g := after_tick now (mgr s) g k]> (groups s) -> mgr s1 = mgr s ->
  sent s1 = sent s ++ option_list (target (mgr s) g) -> ticked now d s1 s2 -> ticked now (g :: d) s s2.
Proof.
  intros Ek Hg Eg Em Es [H1 H2 H3]. split; [|congruence|].
  - intros x. rewrite H1, Eg, Em. destruct (decide (x = g)) as [-> | Hx].
    + rewrite lookup_insert_eq, Ek, decide_False, decide_True by set_solver. done.
    + rewrite lookup_insert_ne by auto. destruct (decide (x ∈ d)), (decide (x ∈ g :: d)); set_solver.
  - rewrite H3, Es, Em, <- app_assoc. f_equal. cbn. destruct (target (mgr s) g); done.
Qed.

Lemma roomy_group now s s1 g k :
  roomy now s -> groups s1 = <[g := k]> (groups s) -> 0 <= alarm_expire_ms k -> 0 <= alarm_interval_ms k -> now + alarm_interval_ms k < UINT64_MOD ->
  roomy now s1.
Proof.
  intros Hr E H1 H2 H3 x kx. rewrite E. destruct (decide (x = g)) as [-> | Hx]; [rewrite lookup_insert_eq; intros; simplify_eq; done|].
  rewrite lookup_insert_ne by auto. apply Hr.
Qed.

Lemma expire_lookup s g k : groups s !! g = Some k -> expire_of s g = alarm_expire_ms k.
Proof. intros E. unfold expire_of. rewrite E. done. Qed.

(** A list cut at two places, the second no earlier than the first. *)
Lemma split_due (P : Z -> Prop) (d r l1 l2 : list Z) :
  d ++ r = l1 ++ l2 -> (forall x, x ∈ d -> P x) -> (forall x, x ∈ l2 -> ~ P x) -> exists r1, l1 = d ++ r1 /\ r = r1 ++ l2.
Proof.
  revert l1. induction d as [|a d IH]; intros l1 E Hd Hl; [exists l1; done|]. destruct l1 as [|b l1]; cbn in E.
  - subst l2. destruct (Hl a ltac:(left)). apply Hd. left.
  - injection E as -> E. destruct (IH l1 E) as (r1 & -> & ->); [intros x Hx; apply Hd; right; done | done|]. exists r1. done.
Qed.

Lemma runs_target g (f : Z -> AL unit) s Q :
  ends (match target (mgr s) g with None => mret tt | Some t => f t end) s Q ->
  ends (r ← recipient g 0; match r with None => mret tt | Some m => if negb (m_sighand m) then mret tt else f (m_task m) end) s Q.
Proof.
  intros H. eapply ends_bind. unfold recipient. eexists _, _. split; [reflexivity|]. unfold target in H.
  destruct (find_member g 0 (mgr s)) as [m|]; [|exact H]. cbn in H. destruct (m_sighand m); exact H.
Qed.

(** The first group of the queue fires. *)
Lemma fire_first now s g d r k :
  alarm_ok s (g :: d ++ r) -> groups s !! g = Some k -> alarm_expire_ms k <= now -> roomy now s ->
  (forall x, x ∈ r -> now < expire_of s x) -> (forall x, x ∈ d -> expire_of s x <= now) ->
  ends (fire_group now g k) s
    (fun _ s' => exists r', alarm_ok s' (d ++ r') /\ roomy now s' /\
       groups s' = <[g := after_tick now (mgr s) g k]> (groups s) /\ mgr s' = mgr s /\ sent s' = sent s ++ option_list (target (mgr s) g) /\
       (forall x, x ∈ d -> expire_of s' x <= now) /\ (forall x, x ∈ r' -> now < expire_of s' x) /\
       (forall x, x ∈ r' <-> x ∈ r \/ x = g /\ rearms (mgr s) g k = true)).
Proof.
  intros Hok Ek Hdue Hroom Hr Hd. unfold fire_group. pose proof (queue_nodup _ _ _ (a_queue _ _ Hok)) as Hnd. pose proof (Hroom _ _ Ek) as (He0 & Hi0 & Hib).
  apply NoDup_cons in Hnd as [Hg Hnd]. eapply ends_bind, ends_mono; [exact (disarm_alarm s _ g k Hok Ek)|]. intros [] s1 [Hok1 (Eg1 & Em1 & Es1)].
  rewrite filter_cons_False, without_absent in Hok1 by (done || tauto).
  assert (Hexp : forall s', groups s' = <[g := after_tick now (mgr s) g k]> (groups s) -> forall x, x <> g -> expire_of s' x = expire_of s x).
  { intros s' E x Hx. unfold expire_of. rewrite E, lookup_insert_ne by auto. done. }
  assert (Hd' : forall s', groups s' = <[g := after_tick now (mgr s) g k]> (groups s) -> forall x, x ∈ d -> expire_of s' x <= now).
  { intros s' E x Hx. rewrite (Hexp s' E) by set_solver. auto. }
  assert (Hr' : forall s', groups s' = <[g := after_tick now (mgr s) g k]> (groups s) -> forall x, x ∈ r -> now < expire_of s' x).
  { intros s' E x Hx. rewrite (Hexp s' E) by set_solver. auto. }
  apply (runs_target g (fun t => (if nz (alarm_interval_ms k)
       then put_group g (Group (next_due (alarm_expire_ms k) now (alarm_interval_ms k)) (alarm_interval_ms k));; arm g else mret tt);; send t)).
  rewrite Em1. destruct (target (mgr s) g) as [t|] eqn:Et.
  2:{ assert (Era : rearms (mgr s) g k = false) by (unfold rearms; rewrite Et; done).
      assert (Eg' : groups s1 = <[g := after_tick now (mgr s) g k]> (groups s)) by (unfold after_tick; rewrite Era; done).
      apply ends_ret. exists r. rewrite app_nil_r. split_and!; auto; [|intros x; rewrite Era; naive_solver].
      apply (roomy_group now s s1 g _ Hroom Eg1); done. }
  destruct (nz (alarm_interval_ms k)) eqn:Hi.
  - assert (Era : rearms (mgr s) g k = true) by (unfold rearms; rewrite Et, Hi, bool_decide_eq_true_2 by eauto; done).
    set (k' := Group (next_due (alarm_expire_ms k) now (alarm_interval_ms k)) (alarm_interval_ms k)).
    assert (Ek' : k' = after_tick now (mgr s) g k) by (unfold after_tick; rewrite Era; done).
    destruct (next_due_ok (alarm_expire_ms k) now (alarm_interval_ms k) ltac:(lia)) as [Hnext _]; [unfold nz in Hi; breflect; lia | done|].
    eapply ends_bind, ends_mono; [apply (arm_alarm s1 (d ++ r) g k' (Group 0 (alarm_interval_ms k)) Hok1 Hg); rewrite Eg1; apply lookup_insert_eq|].
    intros [] s2 (l1 & l2 & El & H1 & H2 & Hok2 & (Eg2 & Em2 & Es2)). eexists _, _. split; [reflexivity|]. cbn [groups mgr sent].
    rewrite Eg1, insert_insert_eq, Ek' in Eg2.
    assert (Hsplit : exists r1, l1 = d ++ r1 /\ r = r1 ++ l2).
    { apply split_due with (P := fun x => expire_of s1 x <= now) in El; [done| |].
      - intros x Hx. unfold expire_of. rewrite Eg1, lookup_insert_ne by set_solver. apply Hd. done.
      - intros x Hx. specialize (H2 x Hx). cbn in H2. lia. }
    destruct Hsplit as (r1 & -> & ->). exists (r1 ++ g :: l2). split; [destruct Hok2 as [Hq2 Hn2]; split; [rewrite <- app_assoc in Hq2; exact Hq2 | exact Hn2]|].
    split; [apply (roomy_group now s _ g (after_tick now (mgr s) g k) Hroom Eg2); rewrite <- Ek'; cbn; lia|]. split; [done|]. split; [congruence|].
    split; [rewrite Es2, Es1; done|]. split; [exact (Hd' _ Eg2)|]. split.
    + intros x [Hx | [-> | Hx]%elem_of_cons]%elem_of_app; [apply (Hr' _ Eg2); set_solver | | apply (Hr' _ Eg2); set_solver].
      rewrite (expire_lookup _ g (after_tick now (mgr s) g k)) by (cbn; rewrite Eg2; apply lookup_insert_eq). rewrite <- Ek'. cbn. lia.
    + intros x. rewrite Era, !elem_of_app, elem_of_cons. naive_solver.
  - assert (Era : rearms (mgr s) g k = false) by (unfold rearms; rewrite Hi; apply andb_false_r).
    assert (Eg' : groups s1 = <[g := after_tick now (mgr s) g k]> (groups s)) by (unfold after_tick; rewrite Era; done).
    eapply ends_bind, ends_ret. eexists _, _. split; [reflexivity|]. exists r. cbn [groups mgr sent].
    split; [destruct Hok1; split; done|]. split; [apply (roomy_group now s _ g _ Hroom Eg1); done|]. split; [done|]. split; [done|].
    split; [rewrite Es1; done|]. split; [exact (Hd' _ Eg')|]. split; [exact (Hr' _ Eg')|]. intros x. rewrite Era. naive_solver.
Qed.

Lemma queue_size s l : alarm_ok s l -> (length l <= size (nodes (alarms s)))%nat.
Proof.
  intros [Hq _]. pose proof (queue_nodup _ _ _ Hq) as Hnd. rewrite <- (size_dom (D := gset Z)), <- (size_list_to_set (C := gset Z)) by done.
  apply subseteq_size. intros x Hx%elem_of_list_to_set. apply elem_of_dom. eapply queue_in; eauto.
Qed.

Lemma tick_loop_ok now : forall d fuel s r,
  alarm_ok s (d ++ r) -> roomy now s -> (forall x, x ∈ d -> expire_of s x <= now) -> (forall x, x ∈ r -> now < expire_of s x) -> (length d < fuel)%nat ->
  ends (tick_loop fuel now) s (fun _ s' => exists r', alarm_ok s' r' /\ ticked now d s s' /\ (forall x, x ∈ r' -> now < expire_of s' x) /\
    (forall x, x ∈ r' <-> x ∈ r \/ x ∈ d /\ exists k, groups s !! x = Some k /\ rearms (mgr s) x k = true)).
Proof.
  induction d as [|g d IH]; intros fuel s r Hok Hroom Hd Hr Hf; (destruct fuel as [|fuel]; [cbn in Hf; lia|]); cbn [tick_loop].
  - eapply ends_bind, runs_alarms, ends_mono; [exact (queue_first_ok _ _ _ (a_queue _ _ Hok))|]. intros a m [-> ->].
    assert (Es : AlarmSt (groups s) (alarms s) (mgr s) (sent s) = s) by (destruct s; done). rewrite Es. cbn [app].
    assert (Hend : exists r', alarm_ok s r' /\ ticked now [] s s /\ (forall x, x ∈ r' -> now < expire_of s x) /\
      (forall x, x ∈ r' <-> x ∈ r \/ x ∈ [] /\ exists k, groups s !! x = Some k /\ rearms (mgr s) x k = true)).
    { exists r. split_and!; [done | apply ticked_nil | done | set_solver]. }
    destruct r as [|a r]; [apply ends_ret; exact Hend|]. cbn [hd].
    destruct (queue_in _ _ _ a (a_queue _ _ Hok) ltac:(left)) as [nd Hnd]. destruct (q_nodes _ _ _ (a_queue _ _ Hok) a ltac:(eauto)) as [_ Ha].
    destruct (proj1 (a_nodes _ _ Hok a) ltac:(eauto)) as [k Ek]. unfold nz. rewrite (proj2 (Z.eqb_neq _ _)) by done. cbn [negb].
    eapply ends_bind, runs_group; [exact Ek|]. pose proof (Hr a ltac:(left)) as Hlt. rewrite (expire_lookup _ _ _ Ek) in Hlt.
    rewrite (proj2 (Z.ltb_lt _ _)) by done. apply ends_ret. exact Hend.
  - eapply ends_bind, runs_alarms, ends_mono; [exact (queue_first_ok _ _ _ (a_queue _ _ Hok))|]. intros a m [-> ->].
    assert (Es : AlarmSt (groups s) (alarms s) (mgr s) (sent s) = s) by (destruct s; done). rewrite Es. cbn [app hd].
    pose proof (queue_nodup _ _ _ (a_queue _ _ Hok)) as Hnd. apply NoDup_cons in Hnd as [[Hgd Hgr]%not_elem_of_app _].
    destruct (queue_in _ _ _ g (a_queue _ _ Hok) ltac:(left)) as [nd Hn]. destruct (q_nodes _ _ _ (a_queue _ _ Hok) g ltac:(eauto)) as [_ Ha].
    destruct (proj1 (a_nodes _ _ Hok g) ltac:(eauto)) as [k Ek]. unfold nz at 1. rewrite (proj2 (Z.eqb_neq _ _)) by done. cbn [negb].
    eapply ends_bind, runs_group; [exact Ek|]. pose proof (Hd g ltac:(left)) as Hle. rewrite (expire_lookup _ _ _ Ek) in Hle.
    rewrite (proj2 (Z.ltb_ge _ _)) by done.
    eapply ends_bind, ends_mono; [apply (fire_first now s g d r k Hok Ek Hle Hroom Hr); intros x Hx; apply Hd; right; done|].
    intros [] s1 (r1 & Hok1 & Hroom1 & Eg1 & Em1 & Es1 & Hd1 & Hr1 & Hin1).
    eapply ends_mono; [apply (IH fuel s1 r1 Hok1 Hroom1 Hd1 Hr1); cbn in Hf; lia|]. intros [] s2 (r2 & Hok2 & Ht2 & Hr2 & Hin2).
    exists r2. split; [done|]. split; [exact (ticked_cons now g d k s s1 s2 Ek Hgd Eg1 Em1 Es1 Ht2)|]. split; [done|].
    intros x. rewrite Hin2, Hin1, Eg1, Em1, elem_of_cons. destruct (decide (x = g)) as [-> | Hx].
    + rewrite lookup_insert_eq, Ek. split.
      * intros [[? | [_ ?]] | [? _]]; [auto | right; eauto | done].
      * intros [? | [_ (k0 & [= <-] & ?)]]; auto.
    + rewrite lookup_insert_ne by auto. split; [intros [[? | [? _]] | [? ?]]; auto; done | intros [? | [[? | ?] ?]]; auto; done].
Qed.

(** The groups due at [now] come first in the queue. *)
Lemma due_split s l now : sorted (expire_of s) l ->
  exists d r, l = d ++ r /\ (forall x, x ∈ d -> expire_of s x <= now) /\ (forall x, x ∈ r -> now < expire_of s x).
Proof.
  induction l as [|a l IH]; intros Hs; [exists [], []; set_solver|]. apply sorted_cons in Hs as [Hs Ha].
  destruct (Z.leb_spec (expire_of s a) now).
  - destruct (IH Hs) as (d & r & -> & Hd & Hr). exists (a :: d), r. split_and!; [done | | done]. intros x [-> | Hx]%elem_of_cons; auto.
  - exists [], (a :: l). split_and!; [done | set_solver|]. intros x [-> | Hx]%elem_of_cons; [done|]. specialize (Ha x Hx). lia.
Qed.

(** The task a group's signal goes to: the first task of the list that is in
    the group and is not dying, which must have a table of handlers. *)
Definition living (g : Z) (m : member) : Prop := m_task m <> 0 /\ m_thread m = g /\ m_dying m = false.
Definition takes (ms : list member) (g t : Z) : Prop :=
  exists A m B, ms = A ++ m :: B /\ Forall (fun x => ~ living g x) A /\ living g m /\ m_sighand m = true /\ m_task m = t.
(** One signal for each of the groups that has such a task. *)
Inductive delivered (ms : list member) : list Z -> list Z -> Prop :=
| delivered_nil : delivered ms [] []
| delivered_to g t d ts : takes ms g t -> delivered ms d ts -> delivered ms (g :: d) (t :: ts)
| delivered_none g d ts : (forall t, ~ takes ms g t) -> delivered ms d ts -> delivered ms (g :: d) ts.

Lemma find_living g ms :
  match find_member g 0 ms with
  | Some m => exists A B, ms = A ++ m :: B /\ Forall (fun x => ~ living g x) A /\ living g m
  | None => Forall (fun x => ~ living g x) ms
  end.
Proof.
  unfold living. induction ms as [|x ms IH]; cbn [find_member]; [constructor|].
  destruct (negb (m_task x =? 0) && (m_thread x =? g) && negb (m_dying x)) eqn:E.
  - breflect. exists [], ms. split_and!; [done | constructor | done | done | done].
  - assert (Hx : ~ (m_task x <> 0 /\ m_thread x = g /\ m_dying x = false)).
    { intros (H1 & H2 & H3). rewrite H2, H3, Z.eqb_refl, (proj2 (Z.eqb_neq _ _) H1) in E. done. }
    destruct (find_member g 0 ms) as [m|]; [|by constructor].
    destruct IH as (A & B & -> & HA & Hm). exists (x :: A), B. split_and!; [done | by constructor | apply Hm..].
Qed.
Lemma first_unique {A} (P : A -> Prop) l1 x l2 l1' x' l2' :
  l1 ++ x :: l2 = l1' ++ x' :: l2' -> Forall (fun y => ~ P y) l1 -> Forall (fun y => ~ P y) l1' -> P x -> P x' -> x = x'.
Proof.
  revert l1'. induction l1 as [|y l1 IH]; intros [|y' l1'] E H1 H1' Hx Hx'; cbn in E; injection E as E1 E2; subst.
  - done.
  - apply Forall_cons in H1' as [? _]. done.
  - apply Forall_cons in H1 as [? _]. done.
  - apply Forall_cons in H1 as [_ H1]. apply Forall_cons in H1' as [_ H1']. eauto.
Qed.
Lemma target_takes ms g t : target ms g = Some t <-> takes ms g t.
Proof.
  unfold target, takes. pose proof (find_living g ms) as H. destruct (find_member g 0 ms) as [m|]; cbn.
  - destruct H as (A & B & E & HA & Hm). split.
    + destruct (m_sighand m) eqn:Es; [|done]. intros [= <-]. exists A, m, B. done.
    + intros (A' & m' & B' & E' & HA' & Hm' & Hs & Ht).
      assert (m = m') as -> by (eapply first_unique; [rewrite <- E; exact E' | done..]). rewrite Hs, Ht. done.
  - split; [done|]. intros (A & m & B & -> & _ & Hm & _). apply Forall_app in H as [_ H]. apply Forall_cons in H as [H _]. done.
Qed.
Lemma target_delivered ms d : delivered ms d (omap (target ms) d).
Proof.
  induction d as [|g d IH]; [constructor|]. cbn. destruct (target ms g) as [t|] eqn:E; constructor; [by apply target_takes | done | | done].
  intros t Ht. apply target_takes in Ht. congruence.
Qed.
Lemma rearms_takes ms g k : rearms ms g k = true <-> alarm_interval_ms k <> 0 /\ exists t, takes ms g t.
Proof.
  unfold rearms, nz. rewrite andb_true_iff, bool_decide_eq_true, negb_true_iff, Z.eqb_neq. unfold is_Some.
  setoid_rewrite target_takes. tauto.
Qed.

(** C39: a tick always ends and leaves no timer that is due: each group whose
    timer had expired gets SIGALRM once, however late the tick is, if it has
    a task to take it: the first task of the list that is in the group and is
    not dying, if that one has handlers; the signals are sent in the order
    of the due times. Its timer is set to the first time after the tick
    that is a whole number of intervals after the one that expired, or stops;
    the timers that had not expired are left alone. No due time and interval
    are so large that their sum with the clock leaves 64 bits. *)
Theorem ps_alarm_tick_correct now s l :
  alarm_ok s l -> roomy now s ->
  let due g := exists k, g ∈ l /\ groups s !! g = Some k /\ alarm_expire_ms k <= now in
  ends (ps_alarm_tick now) s (fun _ s' => exists d r l' ts, l = d ++ r /\ (forall g, g ∈ d <-> due g) /\ alarm_ok s' l' /\
    (forall g, g ∈ l' -> now < expire_of s' g) /\
    sent s' = sent s ++ ts /\ delivered (mgr s) d ts /\ NoDup d /\
    (forall g k, groups s !! g = Some k -> exists k', groups s' !! g = Some k' /\ alarm_interval_ms k' = alarm_interval_ms k /\
       if decide (g ∈ d) then
         let again := alarm_interval_ms k <> 0 /\ exists t, takes (mgr s) g t in
         again /\ g ∈ l' /\ now < alarm_expire_ms k' <= now + alarm_interval_ms k /\ (alarm_expire_ms k' - alarm_expire_ms k) mod alarm_interval_ms k = 0
         \/ ~ again /\ (g ∉ l') /\ alarm_expire_ms k' = 0
       else (g ∈ l' <-> g ∈ l) /\ k' = k)).
Proof.
  intros Hok Hroom due. pose proof (queue_size s l Hok) as Hsize. pose proof (queue_nodup _ _ _ (a_queue _ _ Hok)) as Hnd.
  destruct (due_split s l now (q_sorted _ _ _ (a_queue _ _ Hok))) as (d & r & -> & Hd & Hr).
  rewrite length_app in Hsize. apply NoDup_app in Hnd as (Hnd & Hdr & _).
  destruct (tick_loop_ok now d (S (size (nodes (alarms s)))) s r Hok Hroom Hd Hr ltac:(lia)) as ([] & s' & E & l' & Hok' & Ht & Hl' & Hin).
  exists tt, s'. split; [exact E|]. exists d, r, l', (omap (target (mgr s)) d). split; [done|].
  assert (Hdue : forall g, g ∈ d <-> due g).
  { intros g. unfold due. split.
    - intros Hg. assert (Hi : g ∈ d ++ r) by set_solver. pose proof (queue_in _ _ _ g (a_queue _ _ Hok) Hi) as Hn. apply (a_nodes _ _ Hok) in Hn as [k Ek].
      exists k. split_and!; [done | done|]. rewrite <- (expire_lookup _ _ _ Ek). auto.
    - intros (k & [Hg | Hg]%elem_of_app & Ek & Hle); [done|]. specialize (Hr g Hg). rewrite (expire_lookup _ _ _ Ek) in Hr. lia. }
  split; [done|]. split; [done|]. split; [done|]. split; [apply (t_sent _ _ _ _ Ht)|].
  split; [apply target_delivered|]. split; [done|].
  intros g k Ek. pose proof (t_groups _ _ _ _ Ht g) as Eg. rewrite Ek in Eg. cbn in Eg. eexists. split; [exact Eg|]. case_decide as Hg.
  - split; [done|]. unfold after_tick. destruct (rearms (mgr s) g k) eqn:Era; cbn [alarm_expire_ms].
    + left. split; [by apply rearms_takes|]. split; [apply Hin; right; eauto|]. apply Hdue in Hg as (k0 & _ & Ek0 & Hle). rewrite Ek in Ek0. injection Ek0 as <-.
      destruct (Hroom _ _ Ek) as (? & ? & ?). unfold rearms, nz in Era. breflect. apply next_due_ok; lia.
    + right. split; [rewrite <- rearms_takes, Era; done|]. split; [|done]. rewrite Hin. intros [Hg' | (_ & k0 & Ek0 & ?)]; [apply (Hdr g Hg Hg') | congruence].
  - split; [done|]. split; [|done]. rewrite Hin, elem_of_app. naive_solver.
Qed.

(** An interval near the width of the clock wraps the next due time into the
    past: one expiry sends a signal for every 16 milliseconds of uptime. *)
Definition one_group (due interval : Z) : alarm_state :=
  AlarmSt {[ 8 := Group due interval ]} (RbMem {[ 8 := RbNode 1 0 0 ]} 8) [Member 3 8 false true] [].
Lemma alarm_interval_wraps : exists s', tick_loop 20 100 (one_group 100 (2 ^ 64 - 16)) = Some (tt, s') /\ length (sent s') = 7%nat.
Proof. eexists. split; [vm_compute; reflexivity | reflexivity]. Qed.

Lemma one_group_ok due interval : alarm_ok (one_group due interval) [8].
Proof.
  split; [split|].
  - exists (T B E 8 E). split; [|split; [split; [done | exists 1%nat; repeat constructor] | done]].
    split; [vm_compute; done | done | apply (bool_decide_unpack _); vm_compute; done | | done]. cbn. repeat constructor; cbn; lia || done.
  - repeat constructor.
  - intros n nd Hn Hl. cbn in Hn. apply lookup_singleton_Some in Hn as [<- _]. destruct Hl. left.
  - intros n [nd Hn]. cbn in Hn. apply lookup_singleton_Some in Hn as [<- _]. split; [split; [lia | done] | lia].
  - intros g. cbn. split; intros [x Hx]; apply lookup_singleton_Some in Hx as [<- _]; eauto.
Qed.

Lemma ps_alarm_tick_correct_witness :
  ends (ps_alarm_tick 250) (one_group 100 30) (fun _ s' => sent s' = [3] /\ exists k', groups s' !! 8 = Some k' /\ alarm_interval_ms k' = 30).
Proof.
  eapply ends_mono; [apply (ps_alarm_tick_correct 250 (one_group 100 30) [8] (one_group_ok 100 30))|].
  - intros g k Hk. cbn in Hk. apply lookup_singleton_Some in Hk as [_ <-]. cbn. unfold UINT64_MOD. lia.
  - intros [] s' (d & r & l' & ts & Hl & Hd & _ & _ & -> & Hts & _ & Hg). split.
    + assert (H8 : 8 ∈ d). { apply Hd. exists (Group 100 30). split_and!; [left | reflexivity | cbn; lia]. }
      destruct d as [|x [|y d]]; [set_solver | | discriminate Hl]. cbn in Hl. injection Hl as <- _.
      inversion Hts as [|? t ? ts' Ht Hn|? ? ? Hno]; subst; [|exfalso; apply (Hno 3), target_takes; reflexivity].
      inversion Hn; subst. apply target_takes in Ht. injection Ht as <-. reflexivity.
    + destruct (Hg 8 (Group 100 30)) as (k' & E & Hi & _); [reflexivity|]. exists k'. done.
Defined.
