(* ===== verification/SchedInv.v ===== *)
(** * The scheduler: invariant

    What holds between two operations of the scheduler: the queues hold the
    tasks their state says, the timer tree is ordered by due time, and the
    CPUs and the tasks agree on who runs where. *)

From S2P Require Import Prelude RbTree RbTreeInv Timer TimerProof Sched.

(** ** Programs that end *)

Lemma runs_seeing {A} (f : sched -> P A) s Q : ends (f s) s Q -> ends (seeing f) s Q.
Proof. done. Qed.
Lemma runs_get t k s (Q : task -> sched -> Prop) : tasks s !! t = Some k -> Q k s -> ends (get_task t) s Q.
Proof. intros E H. exists k, s. unfold get_task. rewrite E. done. Qed.
Lemma runs_modify t f k s (Q : unit -> sched -> Prop) :
  tasks s !! t = Some k -> Q tt (set_tasks (<[t := f k]> (tasks s)) s) -> ends (modify t f) s Q.
Proof. intros E H. eexists _, _. unfold modify. rewrite E. done. Qed.
Lemma runs_current cpu t s (Q : Z -> sched -> Prop) : cpus s !! cpu = Some t -> Q t s -> ends (current cpu) s Q.
Proof. intros E H. exists t, s. unfold current. rewrite E. done. Qed.
Lemma runs_timers {A} (m : st rb_mem A) s (Q : A -> sched -> Prop) :
  ends m (timer_queue s) (fun x r => Q x (set_timers r s)) -> ends (on_timers m) s Q.
Proof. intros (x & r & E & H). exists x, (set_timers r s). unfold on_timers. rewrite E. done. Qed.

Lemma runs_insert_wait q t l s (Q : unit -> sched -> Prop) :
  wait_lists s !! q = Some l -> Q tt (set_waits (<[q := l ++ [t]]> (wait_lists s)) s) -> ends (insert_wait q t) s Q.
Proof. intros E H. eexists _, _. unfold insert_wait. rewrite E. done. Qed.
Lemma runs_insert_ready p t l s (Q : unit -> sched -> Prop) :
  0 <= p -> ready_queue s !! Z.to_nat p = Some l ->
  Q tt (set_ready (<[Z.to_nat p := l ++ [t]]> (ready_queue s)) s) -> ends (insert_ready p t) s Q.
Proof. intros Hp E H. eexists _, _. unfold insert_ready. rewrite (proj2 (Z.ltb_ge _ _)), E by lia. done. Qed.

(** ** Queues *)

Definition runnable (k : task) : Prop := status k = ps_ready \/ status k = ps_running.
Definition blocked (k : task) : Prop := status k = ps_waiting \/ status k = ps_stopped.
Lemma runnable_blocked k : runnable k -> blocked k -> False.
Proof. intros [H | H] [H' | H']; congruence. Qed.
(** No queue changes for a task that can run and still can. *)
Lemma still_runnable k k' : runnable k -> runnable k' -> (runnable k <-> runnable k') /\ (blocked k <-> blocked k').
Proof. intros H H'. split; [tauto|]. split; intros Hb; [destruct (runnable_blocked k H Hb) | destruct (runnable_blocked k' H' Hb)]. Qed.
Definition queued (k : task) : Prop := psid k <> NO_PSID.

(** A task is on the queue of its level exactly while it can run, and on a
    wait queue exactly while it waits or is stopped. *)
Definition at_level (m : gmap Z task) (p : nat) (t : Z) : Prop :=
  exists k, m !! t = Some k /\ queued k /\ runnable k /\ priority k = Z.of_nat p.
Definition asleep (m : gmap Z task) (t : Z) : Prop :=
  exists k, m !! t = Some k /\ queued k /\ blocked k.

Record queues_ok (s : sched) : Prop := {
  q_levels : length (ready_queue s) = PS_PRIORITY_MAX;
  q_level p l t : ready_queue s !! p = Some l -> t ∈ l <-> at_level (tasks s) p t;
  q_asleep t : t ∈ concat (wait_lists s) <-> asleep (tasks s) t;
  q_nodup p l : ready_queue s !! p = Some l -> NoDup l;
  q_wait_nodup : NoDup (concat (wait_lists s));
  q_priority t k : tasks s !! t = Some k -> 0 <= priority k < Z.of_nat PS_PRIORITY_MAX
}.

Lemma elem_of_without t x l : x ∈ without t l <-> x <> t /\ x ∈ l.
Proof. unfold without. rewrite list_elem_of_filter. done. Qed.
Lemma concat_without t ls : concat (without t <$> ls) = without t (concat ls).
Proof. induction ls as [|l ls IH]; cbn; [done|]. unfold without in *. rewrite filter_app, IH. done. Qed.
Lemma without_nodup t l : NoDup l -> NoDup (without t l).
Proof. unfold without. apply NoDup_filter. Qed.

(** One queue of several grows at its end. *)
Lemma concat_insert_perm (ls : list (list Z)) q l t :
  ls !! q = Some l -> concat (<[q := l ++ [t]]> ls) ≡ₚ t :: concat ls.
Proof.
  intros Hq. pose proof (lookup_lt_Some _ _ _ Hq) as Hlt.
  rewrite <- (take_drop_middle ls q l Hq) at 2. rewrite insert_take_drop by done. rewrite !concat_app. cbn.
  rewrite <- !app_assoc. cbn. rewrite <- !Permutation_middle. rewrite app_assoc. done.
Qed.

(** ** Moving a task *)

(** After its removal a task is on no queue. *)
Lemma level_without s t p l x :
  queues_ok s -> (without t <$> ready_queue s) !! p = Some l -> x ∈ l <-> x <> t /\ at_level (tasks s) p x.
Proof.
  intros H. rewrite list_lookup_fmap. intros (l0 & E0 & ->)%fmap_Some. rewrite elem_of_without, (q_level _ H _ _ _ E0). done.
Qed.

Lemma at_level_other m t k p x : x <> t -> at_level (<[t := k]> m) p x <-> at_level m p x.
Proof. intros Hx. unfold at_level. setoid_rewrite lookup_insert_ne; done. Qed.
Lemma asleep_other m t k x : x <> t -> asleep (<[t := k]> m) x <-> asleep m x.
Proof. intros Hx. unfold asleep. setoid_rewrite lookup_insert_ne; done. Qed.
Lemma at_level_self m t k p : at_level (<[t := k]> m) p t <-> queued k /\ runnable k /\ priority k = Z.of_nat p.
Proof. unfold at_level. rewrite lookup_insert_eq. split; [intros (k' & E & ?); simplify_eq; done | eauto]. Qed.
Lemma asleep_self m t k : asleep (<[t := k]> m) t <-> queued k /\ blocked k.
Proof. unfold asleep. rewrite lookup_insert_eq. split; [intros (k' & E & ?); simplify_eq; done | eauto]. Qed.

Lemma priority_kept (m : gmap Z task) t k k' (n : Z) :
  m !! t = Some k -> (forall x k0, m !! x = Some k0 -> 0 <= priority k0 < n) -> priority k' = priority k ->
  forall x k0, <[t := k']> m !! x = Some k0 -> 0 <= priority k0 < n.
Proof.
  intros E H Ep x k0. destruct (decide (x = t)) as [-> | Hx]; [rewrite lookup_insert_eq; intros; simplify_eq; rewrite Ep; eauto|].
  rewrite lookup_insert_ne by auto. eauto.
Qed.

(** A change of a task that moves it to no other queue. *)
Lemma queues_modify s t k k' :
  queues_ok s -> tasks s !! t = Some k -> priority k' = priority k -> psid k' = psid k ->
  (~ queued k \/ (runnable k <-> runnable k') /\ (blocked k <-> blocked k')) ->
  queues_ok (set_tasks (<[t := k']> (tasks s)) s).
Proof.
  intros [H1 H2 H3 H4 H5 H6] E Ep Ei Hs. split; cbn; auto.
  - intros p l x El. rewrite (H2 p l x El). destruct (decide (x = t)) as [-> | Hx]; [|symmetry; apply at_level_other; done].
    rewrite at_level_self. unfold at_level, queued in *. rewrite E, Ei, Ep. destruct Hs as [Hn | [Hr _]].
    + split; [intros (k0 & ? & ?); simplify_eq; tauto | tauto].
    + rewrite <- Hr. split; [intros (k0 & ? & ?); simplify_eq; tauto | eauto].
  - intros x. rewrite H3. destruct (decide (x = t)) as [-> | Hx]; [|symmetry; apply asleep_other; done].
    rewrite asleep_self. unfold asleep, queued in *. rewrite E, Ei. destruct Hs as [Hn | [_ Hw]].
    + split; [intros (k0 & ? & ?); simplify_eq; tauto | tauto].
    + rewrite <- Hw. split; [intros (k0 & ? & ?); simplify_eq; tauto | eauto].
  - apply (priority_kept _ _ k); done.
Qed.

(** What a move of [t] changes besides the queues. *)
Definition moved (t : Z) (k' : task) (s s' : sched) : Prop :=
  tasks s' = <[t := k']> (tasks s) /\ timer_queue s' = timer_queue s /\ cpus s' = cpus s /\
  length (wait_lists s') = length (wait_lists s).

(** The state with [t] taken off its queue and changed to [k']. *)
Definition taken (t : Z) (k' : task) (s : sched) : sched :=
  Sched (<[t := k']> (tasks s)) (without t <$> ready_queue s) (without t <$> wait_lists s) (timer_queue s) (cpus s).

Lemma taken_ok s t k k' :
  queues_ok s -> tasks s !! t = Some k -> priority k' = priority k ->
  (~ queued k' \/ status k' = ps_dying) -> queues_ok (taken t k' s).
Proof.
  intros Hq E Ep Hs. destruct Hq as [H1 H2 H3 H4 H5 H6] eqn:Hqe. clear Hqe. split; cbn.
  - rewrite length_fmap. done.
  - intros p l x El. rewrite (level_without s t p l x Hq El). destruct (decide (x = t)) as [-> | Hx]; [|rewrite at_level_other by done; tauto].
    rewrite at_level_self. unfold runnable. split; [tauto|]. intros (? & [Hr | Hr] & _); destruct Hs as [? | ?]; congruence || done.
  - intros x. rewrite concat_without, elem_of_without, H3. destruct (decide (x = t)) as [-> | Hx]; [|rewrite asleep_other by done; tauto].
    rewrite asleep_self. split; [tauto|]. intros (? & [Hr | Hr]); destruct Hs as [? | ?]; congruence || done.
  - intros p l. rewrite list_lookup_fmap. intros (l0 & E0 & ->)%fmap_Some. apply without_nodup. eauto.
  - rewrite concat_without. apply without_nodup. done.
  - apply (priority_kept _ _ k); done.
Qed.

Lemma wait_ok s t k k' q l :
  queues_ok s -> tasks s !! t = Some k -> priority k' = priority k -> queued k' -> blocked k' ->
  wait_lists s !! q = Some l ->
  queues_ok (Sched (<[t := k']> (tasks s)) (without t <$> ready_queue s)
               (<[q := without t l ++ [t]]> (without t <$> wait_lists s)) (timer_queue s) (cpus s)).
Proof.
  intros Hq E Ep Hk Hs El. destruct Hq as [H1 H2 H3 H4 H5 H6] eqn:Hqe. clear Hqe.
  assert (Ew : (without t <$> wait_lists s) !! q = Some (without t l)) by (rewrite list_lookup_fmap, El; done).
  pose proof (concat_insert_perm _ _ _ t Ew) as Pw. rewrite concat_without in Pw. split; cbn.
  - rewrite length_fmap. done.
  - intros p l0 x El0. rewrite (level_without s t p l0 x Hq El0). destruct (decide (x = t)) as [-> | Hx]; [|rewrite at_level_other by done; tauto].
    rewrite at_level_self. split; [tauto|]. intros (_ & [Hr | Hr] & _); destruct Hs; congruence.
  - intros x. rewrite Pw, elem_of_cons, elem_of_without, H3.
    destruct (decide (x = t)) as [-> | Hx]; [rewrite asleep_self; tauto | rewrite asleep_other by done; tauto].
  - intros p l0. rewrite list_lookup_fmap. intros (l1 & E0 & ->)%fmap_Some. apply without_nodup. eauto.
  - rewrite Pw. apply NoDup_cons. rewrite elem_of_without. split; [tauto|]. apply without_nodup. done.
  - apply (priority_kept _ _ k); done.
Qed.

Lemma ready_ok s t k k' p l :
  queues_ok s -> tasks s !! t = Some k -> priority k' = priority k -> priority k = Z.of_nat p -> queued k' -> runnable k' ->
  ready_queue s !! p = Some l ->
  queues_ok (Sched (<[t := k']> (tasks s)) (<[p := without t l ++ [t]]> (without t <$> ready_queue s))
               (without t <$> wait_lists s) (timer_queue s) (cpus s)).
Proof.
  intros Hq E Ep Epp Hk Hs El. destruct Hq as [H1 H2 H3 H4 H5 H6] eqn:Hqe. clear Hqe. split; cbn.
  - rewrite length_insert, length_fmap. done.
  - intros p' l0 x. rewrite list_lookup_insert_Some, list_lookup_fmap. intros [(-> & <- & _) | (Hp & El0)].
    + rewrite elem_of_app, list_elem_of_singleton, elem_of_without, (H2 _ _ _ El).
      destruct (decide (x = t)) as [-> | Hx]; [rewrite at_level_self, Ep; tauto | rewrite at_level_other by done; tauto].
    + rewrite <- list_lookup_fmap in El0. rewrite (level_without s t p' l0 x Hq El0).
      destruct (decide (x = t)) as [-> | Hx]; [|rewrite at_level_other by done; tauto].
      rewrite at_level_self. split; [tauto|]. intros (_ & _ & Hpr). exfalso. apply Hp. lia.
  - intros x. rewrite concat_without, elem_of_without, H3. destruct (decide (x = t)) as [-> | Hx]; [|rewrite asleep_other by done; tauto].
    rewrite asleep_self. split; [tauto|]. intros (_ & [Hw | Hw]); destruct Hs; congruence.
  - intros p' l0. rewrite list_lookup_insert_Some, list_lookup_fmap. intros [(-> & <- & _) | (Hp & (l1 & E0 & ->)%fmap_Some)].
    + apply NoDup_app. split; [apply without_nodup; eauto|]. split; [|apply NoDup_singleton].
      intros x Hx ->%list_elem_of_singleton. apply elem_of_without in Hx. tauto.
    + apply without_nodup. eauto.
  - rewrite concat_without. apply without_nodup. done.
  - apply (priority_kept _ _ k); done.
Qed.

Definition to_waiting (k : task) : task := set_status ps_waiting (set_interruptible false k).
Definition to_ready (k : task) : task := set_status ps_ready (set_interruptible false k).

Lemma runs_modify2 t f g k s (Q : unit -> sched -> Prop) :
  tasks s !! t = Some k -> Q tt (set_tasks (<[t := g (f k)]> (tasks s)) s) -> ends (modify t f;; modify t g) s Q.
Proof.
  intros E H. eapply ends_bind, runs_modify; [exact E|]. eapply runs_modify; [cbn; apply lookup_insert_eq|].
  cbn. unfold set_tasks in *. cbn. rewrite insert_insert_eq. exact H.
Qed.

Lemma put_to_wait_ok s t k q :
  queues_ok s -> tasks s !! t = Some k -> (default 0 q < length (wait_lists s))%nat ->
  ends (ps_put_to_wait_queue_unsafe t q) s (fun _ s' => queues_ok s' /\ moved t (to_waiting k) s s').
Proof.
  intros Hq E Hl. destruct (lookup_lt_is_Some_2 _ _ Hl) as [l El]. unfold ps_put_to_wait_queue_unsafe.
  eapply ends_bind. eexists _, _. split; [reflexivity|]. eapply ends_bind, runs_get; [exact E|].
  destruct (Z.eqb_spec (psid k) NO_PSID) as [Hp | Hp]; cbn [negb].
  - eapply ends_bind, ends_ret. eapply runs_modify2; [exact E|]. cbn. split.
    + apply (taken_ok s t k (to_waiting k)); [done | done | done | left; unfold queued; cbn; tauto].
    + split_and!; try done. cbn. apply length_fmap.
  - eapply ends_bind, runs_insert_wait; [cbn; rewrite list_lookup_fmap, El; reflexivity|].
    eapply runs_modify2; [exact E|]. cbn. split.
    + apply (wait_ok s t k (to_waiting k)); try done. left. done.
    + split_and!; try done. cbn. rewrite length_insert, length_fmap. done.
Qed.

Lemma stop_queues_ok s t k :
  queues_ok s -> tasks s !! t = Some k -> (0 < length (wait_lists s))%nat ->
  ends (ps_stop_unsafe t) s (fun _ s' => queues_ok s' /\ moved t (set_status ps_stopped k) s s').
Proof.
  intros Hq E Hl. destruct (lookup_lt_is_Some_2 _ _ Hl) as [l El]. unfold ps_stop_unsafe.
  eapply ends_bind. eexists _, _. split; [reflexivity|]. eapply ends_bind, runs_get; [exact E|].
  destruct (Z.eqb_spec (psid k) NO_PSID) as [Hp | Hp]; cbn [negb].
  - eapply ends_bind, ends_ret. eapply runs_modify; [exact E|]. split.
    + apply (taken_ok s t k); [done | done | done | left; unfold queued; cbn; tauto].
    + split_and!; try done. cbn. apply length_fmap.
  - eapply ends_bind, runs_insert_wait; [cbn; rewrite list_lookup_fmap, El; reflexivity|].
    eapply runs_modify; [exact E|]. split.
    + apply (wait_ok s t k (set_status ps_stopped k)); try done. right. done.
    + split_and!; try done. cbn. rewrite length_insert, length_fmap. done.
Qed.

Lemma put_to_ready_ok s t k :
  queues_ok s -> tasks s !! t = Some k -> status k <> ps_dying ->
  ends (ps_put_to_ready_queue_unsafe t) s (fun _ s' => queues_ok s' /\ moved t (to_ready k) s s').
Proof.
  intros Hq E Hd. unfold ps_put_to_ready_queue_unsafe. eapply ends_bind, runs_get; [exact E|].
  rewrite bool_decide_eq_false_2 by done. pose proof (q_priority _ Hq _ _ E) as Hp.
  destruct (Z.eqb_spec (psid k) NO_PSID) as [Hn | Hn]; cbn [negb].
  - eapply ends_bind, ends_ret. eapply runs_modify2; [exact E|]. split; [|done].
    apply (queues_modify s t k (to_ready k)); try done. left. unfold queued. tauto.
  - assert (Hlt : (Z.to_nat (priority k) < length (ready_queue s))%nat) by (rewrite (q_levels _ Hq); lia).
    destruct (lookup_lt_is_Some_2 _ _ Hlt) as [l El].
    eapply ends_bind, ends_bind. eexists _, _. split; [reflexivity|].
    eapply runs_insert_ready; [lia | cbn; rewrite list_lookup_fmap, El; reflexivity|].
    eapply runs_modify2; [exact E|]. cbn. split.
    + apply (ready_ok s t k (to_ready k)); try done; [lia | left; done].
    + split_and!; try done. cbn. apply length_fmap.
Qed.

(** ** Timers *)

(** The tasks with a timer, in the order they are due. *)
Record armed (s : sched) (l : list Z) : Prop := {
  a_queue : queue_ok (due_of s) (timer_queue s) l;
  a_nodes t : is_Some (nodes (timer_queue s) !! t) <-> is_Some (tasks s !! t)
}.

Lemma armed_modify s s' t k k' l :
  armed s l -> tasks s !! t = Some k -> tasks s' = <[t := k']> (tasks s) -> timer_queue s' = timer_queue s ->
  (t ∈ l -> timer_due_ms k' = timer_due_ms k) -> armed s' l.
Proof.
  intros [Hq Hn] E Et Em Hd. split; rewrite Em.
  - eapply queue_due; [|exact Hq]. intros x Hx. unfold due_of. rewrite Et.
    destruct (decide (x = t)) as [-> | Hne]; [rewrite lookup_insert_eq, E; cbn; rewrite Hd; done | rewrite lookup_insert_ne by auto; done].
  - intros x. rewrite Hn, Et. destruct (decide (x = t)) as [-> | Hne]; [rewrite lookup_insert_eq, E; split; eauto | rewrite lookup_insert_ne by auto; done].
Qed.

Lemma disarm_ok s t k l :
  armed s l -> tasks s !! t = Some k ->
  ends (timer_disarm_unsafe t) s (fun _ s' => armed s' (without t l) /\ exists r,
    s' = set_timers r (if bool_decide (t ∈ l) then set_tasks (<[t := set_due 0 k]> (tasks s)) s else s)).
Proof.
  intros [Hq Hn] E. unfold timer_disarm_unsafe. eapply ends_bind, runs_timers, ends_mono.
  { apply (queue_unlink_ok (due_of s)); [exact Hq | apply Hn; eauto]. }
  intros b r (-> & Hq' & Hs). fold (without t l) in Hq'. case_bool_decide as Hi.
  - eapply runs_modify; [exact E|]. split; [|exists r; done].
    assert (Ha : armed (set_timers r s) (without t l)).
    { split; [exact Hq'|]. intros x. cbn. rewrite Hs. apply Hn. }
    eapply (armed_modify (set_timers r s) _ t k); [exact Ha | exact E | done | done|].
    rewrite elem_of_without. tauto.
  - apply ends_ret. split; [|exists r; done]. split; [exact Hq'|]. intros x. cbn. rewrite Hs. apply Hn.
Qed.

Lemma arm_ok us ms s t k l :
  armed s l -> tasks s !! t = Some k ->
  ends (timer_arm_unsafe us t ms) s (fun _ s' => exists r A C,
    let d := time_deadline_ms us ms in
    without t l = A ++ C /\ (forall y, y ∈ A -> due_of s y <= d) /\ (forall y, y ∈ C -> d < due_of s y) /\
    armed s' (A ++ t :: C) /\ s' = set_timers r (set_tasks (<[t := set_due d k]> (tasks s)) s)).
Proof.
  intros Ha E. unfold timer_arm_unsafe. eapply ends_bind, ends_mono; [exact (disarm_ok _ _ _ _ Ha E)|].
  intros [] s1 (Ha1 & r1 & E1). set (d := time_deadline_ms us ms).
  assert (Et : exists k1, tasks s1 !! t = Some k1 /\ set_due d k1 = set_due d k).
  { subst s1. case_bool_decide; cbn; [rewrite lookup_insert_eq | rewrite E]; eauto. }
  destruct Et as (k1 & Et & Ed). eapply ends_bind, runs_modify; [exact Et|]. rewrite Ed. apply runs_seeing.
  set (s2 := set_tasks (<[t := set_due d k]> (tasks s1)) s1).
  assert (Ha2 : armed s2 (without t l)).
  { eapply (armed_modify s1 s2 t k1); [exact Ha1 | exact Et | done | done|]. rewrite elem_of_without. tauto. }
  destruct Ha2 as [Hq2 Hn2]. apply runs_timers. eapply ends_mono.
  { apply (queue_link_ok (due_of s2)); [exact Hq2 | rewrite elem_of_without; tauto|]. apply Hn2. cbn. rewrite lookup_insert_eq. eauto. }
  intros [] r (A & C & El & HA & HC & Hq3 & Hs3). exists r, A, C. cbv zeta.
  assert (Hdue : due_of s2 t = d) by (unfold due_of; cbn; rewrite lookup_insert_eq; done).
  assert (Hoth : forall y, y <> t -> due_of s2 y = due_of s y).
  { intros y Hy. unfold due_of. cbn. rewrite lookup_insert_ne by auto. subst s1. case_bool_decide; cbn; [rewrite lookup_insert_ne by auto|]; done. }
  assert (Hne : forall y, y ∈ A ++ C -> y <> t) by (intros y; rewrite <- El, elem_of_without; tauto).
  rewrite Hdue in *. split; [done|]. split; [|split; [|split]].
  - intros y Hy. rewrite <- Hoth by (apply Hne; set_solver). auto.
  - intros y Hy. rewrite <- Hoth by (apply Hne; set_solver). auto.
  - split; [exact Hq3|]. intros x. cbn. rewrite Hs3. apply Hn2.
  - subst s2 s1. unfold set_timers, set_tasks. case_bool_decide; cbn; rewrite ?insert_insert_eq; done.
Qed.

(** ** CPUs *)

Definition permitted (c : nat) (k : task) : bool :=
  ((affinity_mask k =? 0) || nz (Z.land (affinity_mask k) (u32 (Z.shiftl 1 (Z.of_nat c))))) &&
  (negb (priority k =? ps_idle) || (param k =? Z.of_nat c)).

(** A task is on a CPU exactly if it is that CPU's task, it may use that CPU,
    and a running task is on one. *)
Record cpus_ok (m : gmap Z task) (cs : list Z) : Prop := {
  c_cpu c t : cs !! c = Some t -> exists k, m !! t = Some k /\ on_cpu k = Z.of_nat c + 1;
  c_on t k : m !! t = Some k -> on_cpu k <> 0 ->
    exists c, on_cpu k = Z.of_nat c + 1 /\ cs !! c = Some t /\ (queued k -> permitted c k = true);
  c_running t k : m !! t = Some k -> status k = ps_running -> on_cpu k <> 0
}.

(** What decides on the CPUs and the queues a task may use. *)
Definition same_place (k k' : task) : Prop :=
  affinity_mask k' = affinity_mask k /\ priority k' = priority k /\ param k' = param k /\ psid k' = psid k.
Lemma permitted_same c k k' : same_place k k' -> permitted c k' = permitted c k.
Proof. unfold permitted. intros (-> & -> & -> & _). done. Qed.
Lemma queued_same k k' : same_place k k' -> queued k' <-> queued k.
Proof. unfold queued. intros (_ & _ & _ & ->). done. Qed.

(** A task changes, but not where it runs. *)
Lemma cpus_modify m cs t k k' :
  cpus_ok m cs -> m !! t = Some k -> on_cpu k' = on_cpu k -> same_place k k' ->
  (status k' = ps_running -> on_cpu k' <> 0) ->
  cpus_ok (<[t := k']> m) cs.
Proof.
  intros [H1 H2 H3] E Ec Hp Hs. split.
  - intros c x Hx. destruct (H1 c x Hx) as (k0 & E0 & Ek). destruct (decide (x = t)) as [-> | Hne].
    + rewrite lookup_insert_eq. exists k'. split; [done|]. rewrite Ec. congruence.
    + rewrite lookup_insert_ne by auto. eauto.
  - intros x k0. destruct (decide (x = t)) as [-> | Hne]; [|rewrite lookup_insert_ne by auto; eauto].
    rewrite lookup_insert_eq. intros [= <-]. rewrite Ec. intros Hn. destruct (H2 t k E Hn) as (c & ? & ? & Hpc).
    exists c. rewrite (permitted_same c k k' Hp), (queued_same k k' Hp). done.
  - intros x k0. destruct (decide (x = t)) as [-> | Hne]; [|rewrite lookup_insert_ne by auto; eauto].
    rewrite lookup_insert_eq. intros [= <-]. auto.
Qed.

(** ** All of it; [l] are the tasks with a timer *)

Record sched_ok (s : sched) (l : list Z) : Prop := {
  so_queues : queues_ok s;
  so_timers : armed s l;
  so_cpus : cpus_ok (tasks s) (cpus s)
}.

(** A task is moved to a queue by its new status, and is not made to run. *)
Lemma sched_moved s s' t k k' l :
  sched_ok s l -> tasks s !! t = Some k -> queues_ok s' -> moved t k' s s' ->
  on_cpu k' = on_cpu k -> same_place k k' -> timer_due_ms k' = timer_due_ms k -> status k' <> ps_running -> sched_ok s' l.
Proof.
  intros [Hq Ha Hc] E Hq' (Et & Em & Ec & _) Eo Hp Ed Hs. split; [done | |].
  - eapply (armed_modify s s' t k k'); eauto.
  - rewrite Et, Ec. eapply cpus_modify; eauto; done.
Qed.
