(* ===== verification/SchedKeeps.v ===== *)
(** * The scheduler: how a task can change

    A relation between a task before and after that every change the scheduler
    makes to a task satisfies holds across whole operations, which make and
    end no queue and no CPU. *)

From S2P Require Import Prelude RbTree Timer Sched.

Section Evolves.
Context (R : task -> task -> Prop).

Definition evolves {A} (m : P A) : Prop := forall s x s', m s = Some (x, s') ->
  (forall t, option_Forall2 R (tasks s !! t) (tasks s' !! t)) /\
  length (wait_lists s') = length (wait_lists s) /\ length (cpus s') = length (cpus s).

(** What the scheduler does to a task, but for putting it to sleep. *)
Record task_moves : Prop := {
  tc_refl k : R k k;
  tc_trans k1 k2 k3 : R k1 k2 -> R k2 k3 -> R k1 k3;
  tc_on_cpu k x : R k (set_on_cpu x k);
  tc_due k x : R k (set_due x k);
  tc_uninterruptible k : R k (set_interruptible false k);
  tc_status k x : x <> ps_waiting -> R k (set_status x k)
}.
(** The same and the sleep, but for the interruptible one. *)
Record task_changes : Prop := {
  tc_moves :> task_moves;
  tc_waiting k : R k (set_status ps_waiting (set_interruptible false k))
}.
Hypothesis HR : task_moves.

Lemma evolves_same {A} (m : P A) :
  (forall s x s', m s = Some (x, s') ->
     tasks s' = tasks s /\ length (wait_lists s') = length (wait_lists s) /\ length (cpus s') = length (cpus s)) -> evolves m.
Proof.
  intros H s x s' E. destruct (H _ _ _ E) as [-> ?]. split; [|done]. intros t. destruct (tasks s !! t); constructor. apply HR.
Qed.
Lemma evolves_ret {A} (x : A) : evolves (mret x).
Proof. apply evolves_same. intros s y s' [= _ <-]. done. Qed.
Lemma evolves_bind {A B} (m : P A) (f : A -> P B) : evolves m -> (forall x, evolves (f x)) -> evolves (m ≫= f).
Proof.
  intros Hm Hf s y s' E. unfold mbind, st_bind in E. destruct (m s) as [[x s1]|] eqn:E1; [|discriminate]. cbn in E.
  destruct (Hm _ _ _ E1) as (Tm & Wm & Cm). destruct (Hf x _ _ _ E) as (Tf & Wf & Cf). split; [|split; congruence].
  intros t. specialize (Tm t). specialize (Tf t). destruct (tasks s1 !! t).
  - inversion Tm as [k1 k2 H1 EE|]; subst. inversion Tf as [k3 k4 H2|]; subst. constructor. eapply HR; eauto.
  - inversion Tm; subst. inversion Tf; subst. constructor.
Qed.
Lemma evolves_seeing {A} (f : sched -> P A) : (forall s, evolves (f s)) -> evolves (seeing f).
Proof. intros H s x s' E. exact (H s s x s' E). Qed.
Lemma evolves_timers {A} (m : st rb_mem A) : evolves (on_timers m).
Proof.
  apply evolves_same. intros s x s' E. unfold on_timers in E.
  destruct (m (timer_queue s)) as [[y r]|]; [injection E as _ <-; done | discriminate].
Qed.
Lemma evolves_die {A} : evolves (@die A).
Proof. intros s x s' E. discriminate. Qed.

Lemma evolves_insert (s : sched) t k k' u : tasks s !! t = Some k -> R k k' -> option_Forall2 R (tasks s !! u) (<[t := k']> (tasks s) !! u).
Proof.
  intros E H. destruct (decide (u = t)) as [-> | Hu]; [rewrite lookup_insert_eq, E; constructor; done|].
  rewrite lookup_insert_ne by auto. destruct (tasks s !! u); constructor. apply HR.
Qed.
Lemma evolves_modify t f : (forall k, R k (f k)) -> evolves (modify t f).
Proof.
  intros Hf s x s' E. unfold modify in E. destruct (tasks s !! t) as [k|] eqn:Ek; [|discriminate]. injection E as _ <-.
  split; [|done]. intros u. apply (evolves_insert s t k); auto.
Qed.
Lemma evolves_modify2 t f g : (forall k, R k (g (f k))) -> evolves (modify t f;; modify t g).
Proof.
  intros Hf s x s' E. unfold mbind, st_bind, modify in E. destruct (tasks s !! t) as [k|] eqn:Ek; [|discriminate]. cbn in E.
  rewrite lookup_insert_eq in E. injection E as _ <-. cbn. rewrite insert_insert_eq. split; [|done]. intros u. apply (evolves_insert s t k); auto.
Qed.
End Evolves.

Create HintDb evolves.
#[export] Hint Resolve tc_moves evolves_ret evolves_bind evolves_seeing evolves_timers evolves_die evolves_modify : evolves.
#[export] Hint Extern 2 (evolves _ (if ?b then _ else _)) => destruct b : evolves.
#[export] Hint Extern 2 (evolves _ (match ?b with Some _ => _ | None => _ end)) => destruct b : evolves.
Ltac same_tasks H := apply (evolves_same _ H); intros s0 x0 s0' E0; repeat (case_match; try discriminate);
  simplify_option_eq; cbn; rewrite ?length_insert, ?length_fmap; done.

Section Operations.
Context (R : task -> task -> Prop) (HR : task_moves R).
#[local] Hint Extern 1 (R _ _) => (first [apply (tc_on_cpu R HR) | apply (tc_due R HR) | apply (tc_uninterruptible R HR) | apply (tc_status R HR); discriminate]) : evolves.

Lemma evolves_get t : evolves R (get_task t).
Proof. unfold get_task. same_tasks HR. Qed.
Lemma evolves_current c : evolves R (current c).
Proof. unfold current. same_tasks HR. Qed.
Lemma evolves_remove t : evolves R (list_remove_entry t).
Proof. unfold list_remove_entry. same_tasks HR. Qed.
Lemma evolves_insert_wait q t : evolves R (insert_wait q t).
Proof. unfold insert_wait. same_tasks HR. Qed.
Lemma evolves_insert_ready q t : evolves R (insert_ready q t).
Proof. unfold insert_ready. same_tasks HR. Qed.
Lemma evolves_put_current c t : evolves R (put_current c t).
Proof. unfold put_current. same_tasks HR. Qed.
#[local] Hint Resolve evolves_get evolves_current evolves_remove evolves_insert_wait evolves_insert_ready evolves_put_current : evolves.

Lemma evolves_to_ready t : evolves R (ps_put_to_ready_queue_unsafe t).
Proof. unfold ps_put_to_ready_queue_unsafe. eauto 12 with evolves. Qed.
Lemma evolves_stop t : evolves R (ps_stop_unsafe t).
Proof. unfold ps_stop_unsafe. eauto 12 with evolves. Qed.
#[local] Hint Resolve evolves_to_ready evolves_stop : evolves.
Lemma evolves_disarm t : evolves R (timer_disarm_unsafe t).
Proof. unfold timer_disarm_unsafe. eauto 12 with evolves. Qed.
#[local] Hint Resolve evolves_disarm : evolves.
Lemma evolves_arm us t ms : evolves R (timer_arm_unsafe us t ms).
Proof. unfold timer_arm_unsafe. eauto 12 with evolves. Qed.
#[local] Hint Resolve evolves_arm : evolves.

Lemma evolves_fire now : forall fuel n, evolves R (fire_loop fuel now n).
Proof. induction fuel as [|fuel IH]; intros n; [intros ? ? ?; discriminate|]. cbn [fire_loop]. unfold timer_fire. eauto 20 with evolves. Qed.
#[local] Hint Resolve evolves_fire : evolves.

Lemma evolves_next cpu now : evolves R (ps_get_next_task_unsafe cpu now).
Proof.
  unfold ps_get_next_task_unsafe, ps_fire_timers_unsafe. repeat (apply (evolves_bind _ HR); [eauto 12 with evolves|]; intros ?).
  apply (evolves_same _ HR). intros s y s' E. unfold seeing in E. destruct (pick _ _ _) as [[t q]|]; injection E as _ <-; done.
Qed.
#[local] Hint Resolve evolves_next : evolves.

(** The CPU whose task an event puts to sleep. *)
Definition sleeps_on (e : event) : option nat :=
  match e with TimedWait cpu _ _ | InterruptibleWait cpu _ _ _ _ | Block cpu _ => Some cpu | _ => None end.

Lemma evolves_awake e : sleeps_on e = None -> evolves R (perform e).
Proof.
  destruct e as [cpu now | cpu us ms | cpu us intr q ms | cpu q | cpu | t | cpu | t | cpu]; intros He; try discriminate He; cbn [perform];
    unfold task_sched, ps_finish_timed_wait, ps_put_to_ready_queue; eauto 20 with evolves.
Qed.
End Operations.
#[export] Hint Resolve evolves_get evolves_current evolves_remove evolves_insert_wait evolves_insert_ready evolves_put_current
  evolves_to_ready evolves_stop evolves_disarm evolves_arm evolves_fire evolves_next : evolves.

Section Sleeps.
Context (R : task -> task -> Prop) (HR : task_changes R).

Lemma evolves_to_wait t q : evolves R (ps_put_to_wait_queue_unsafe t q).
Proof.
  unfold ps_put_to_wait_queue_unsafe. do 3 (apply (evolves_bind _ HR); [eauto 10 with evolves|]; intros ?).
  apply evolves_modify2; [apply HR|]. apply HR.
Qed.
#[local] Hint Resolve evolves_to_wait : evolves.

(** An event other than an interruptible wait. *)
Lemma evolves_perform e :
  (forall cpu us intr q ms, e = InterruptibleWait cpu us intr q ms -> forall k, R k (set_interruptible true k)) -> evolves R (perform e).
Proof.
  intros He. pose proof (tc_moves _ HR) as HM. destruct (sleeps_on e) as [c|] eqn:Es; [|apply evolves_awake; done].
  destruct e as [| cpu us ms | cpu us intr q ms | cpu q | | | | |]; try discriminate Es; cbn [perform];
    unfold ps_prepare_timed_wait, ps_prepare_interruptible_wait; eauto 20 with evolves.
Qed.
End Sleeps.
#[export] Hint Resolve evolves_to_wait : evolves.

(** ** No operation of the scheduler makes a task disappear *)

Abbreviation keeps := (evolves (fun _ _ => True)).
Lemma any_change : task_changes (fun _ _ => True).
Proof. repeat split; done. Qed.
#[export] Hint Resolve any_change : evolves.

Lemma keeps_task {A} (m : P A) s x s' t : keeps m -> m s = Some (x, s') -> is_Some (tasks s !! t) -> is_Some (tasks s' !! t).
Proof. intros H E [k Ek]. destruct (H _ _ _ E) as [Ht _]. specialize (Ht t). rewrite Ek in Ht. inversion Ht; eauto. Qed.

(** ** Going to sleep changes no other task *)

Definition only {A} (t : Z) (m : P A) : Prop :=
  forall s x s', m s = Some (x, s') -> forall u, u <> t -> tasks s' !! u = tasks s !! u.

Lemma only_same {A} t (m : P A) : (forall s x s', m s = Some (x, s') -> tasks s' = tasks s) -> only t m.
Proof. intros H s x s' E u _. rewrite (H _ _ _ E). done. Qed.
Lemma only_ret {A} t (x : A) : only t (mret x).
Proof. apply only_same. intros s y s' [= _ <-]. done. Qed.
Lemma only_bind {A B} t (m : P A) (f : A -> P B) : only t m -> (forall x, only t (f x)) -> only t (m ≫= f).
Proof.
  intros Hm Hf s y s' E u Hu. unfold mbind, st_bind in E. destruct (m s) as [[x s1]|] eqn:E1; [|discriminate]. cbn in E.
  rewrite (Hf x _ _ _ E u Hu). exact (Hm _ _ _ E1 u Hu).
Qed.
Lemma only_modify t f : only t (modify t f).
Proof.
  intros s x s' E u Hu. unfold modify in E. destruct (tasks s !! t) as [k|]; [|discriminate]. injection E as _ <-.
  apply lookup_insert_ne. auto.
Qed.
Ltac only_queues := apply only_same; intros s0 x0 s0' E0; repeat (case_match; try discriminate); simplify_option_eq; done.
Lemma only_get t u : only t (get_task u).
Proof. unfold get_task. only_queues. Qed.
Lemma only_remove t u : only t (list_remove_entry u).
Proof. unfold list_remove_entry. only_queues. Qed.
Lemma only_insert_wait t q u : only t (insert_wait q u).
Proof. unfold insert_wait. only_queues. Qed.
Lemma only_timers {A} t (m : st rb_mem A) : only t (on_timers m).
Proof.
  apply only_same. intros s x s' E. unfold on_timers in E.
  destruct (m (timer_queue s)) as [[y r]|]; [injection E as _ <-; done | discriminate].
Qed.
Lemma only_seeing {A} t (f : sched -> P A) : (forall s, only t (f s)) -> only t (seeing f).
Proof. intros H s x s' E. exact (H s s x s' E). Qed.

Create HintDb only.
#[export] Hint Resolve only_ret only_bind only_modify only_get only_remove only_insert_wait only_timers only_seeing : only.
#[export] Hint Extern 2 (only _ (if ?b then _ else _)) => destruct b : only.

Lemma only_arm t us ms : only t (timer_arm_unsafe us t ms).
Proof. unfold timer_arm_unsafe, timer_disarm_unsafe. eauto 20 with only. Qed.
Lemma only_to_wait t q : only t (ps_put_to_wait_queue_unsafe t q).
Proof. unfold ps_put_to_wait_queue_unsafe. eauto 20 with only. Qed.
#[export] Hint Resolve only_arm only_to_wait : only.

(** An event that puts the task of its CPU to sleep. *)
Lemma only_sleep e cpu t s x s' :
  sleeps_on e = Some cpu -> cpus s !! cpu = Some t -> perform e s = Some (x, s') -> forall u, u <> t -> tasks s' !! u = tasks s !! u.
Proof.
  intros He Hc E.
  assert (exists m : P unit, only t m /\ m s = Some (x, s')) as (m & Hm & Em); [|exact (Hm _ _ _ Em)].
  destruct e as [| c us ms | c us intr q ms | c q | | | | |]; try discriminate He; injection He as ->;
    unfold perform, mbind, st_bind, current in E; rewrite Hc in E; cbn in E.
  - exists (ps_prepare_timed_wait us t ms). split; [unfold ps_prepare_timed_wait; eauto 20 with only | done].
  - exists (ps_prepare_interruptible_wait us intr t q ms ≫= fun _ => mret tt).
    split; [unfold ps_prepare_interruptible_wait; eauto 20 with only | done].
  - exists (ps_put_to_wait_queue_unsafe t (Some q)). split; [eauto with only | done].
Qed.
