(* ===== verification/SchedProof.v ===== *)
(** * The scheduler: correctness

    Every operation keeps the invariant; expired timers wake their tasks;
    the choice of the next task is by priority and fair within a level. *)

From S2P Require Import Prelude RbTree RbTreeInv RbTreeProof RbTreeWalk Timer TimerProof Sched SchedInv.

(** ** Expired timers *)

Lemma queues_ext s s' :
  tasks s' = tasks s -> ready_queue s' = ready_queue s -> wait_lists s' = wait_lists s -> queues_ok s -> queues_ok s'.
Proof. intros E1 E2 E3 [? ? ? ? ? ?]. split; rewrite ?E1, ?E2, ?E3; auto. Qed.
Lemma queues_timers r s : queues_ok s -> queues_ok (set_timers r s).
Proof. apply queues_ext; done. Qed.
Lemma set_timers_id s : set_timers (timer_queue s) s = s.
Proof. destruct s; done. Qed.

(** What a timer that fires does to its task. *)
Definition fired (k : task) : task :=
  if bool_decide (status k = ps_dying) then set_due 0 k else to_ready (set_due 0 k).

(** The ready queue of level [p] once the tasks [l1] have fired: the others
    keep their order, and those of [l1] that belong to the level follow them,
    in the order of their deadlines. *)
Definition joins (s : sched) (p : nat) (t : Z) : Prop :=
  exists k, tasks s !! t = Some k /\ status k <> ps_dying /\ queued k /\ priority k = Z.of_nat p.
#[export] Instance joins_dec s p t : Decision (joins s p t).
Proof.
  destruct (tasks s !! t) as [k|] eqn:E; [|right; intros (k & E' & _); congruence].
  destruct (decide (status k <> ps_dying /\ queued k /\ priority k = Z.of_nat p)) as [H | H]; [left; exists k; auto|].
  right. intros (k' & E' & H'). congruence.
Defined.
Definition refilled (s : sched) (l1 : list Z) (p : nat) (q : list Z) : list Z :=
  filter (.∉ l1) q ++ filter (joins s p) l1.

Lemma filter_every {A} (P : A -> Prop) `{!forall x, Decision (P x)} (l : list A) : (forall x, x ∈ l -> P x) -> filter P l = l.
Proof.
  induction l as [|x l IH]; intros Hp; [done|]. rewrite filter_cons_True by (apply Hp; left). f_equal. apply IH. set_solver.
Qed.
Lemma filter_same {A} (P Q : A -> Prop) `{!forall x, Decision (P x), !forall x, Decision (Q x)} (l : list A) :
  (forall x, x ∈ l -> P x <-> Q x) -> filter P l = filter Q l.
Proof.
  induction l as [|x l IH]; intros Hp; [done|]. pose proof (Hp x ltac:(left)) as Hx. rewrite !filter_cons, IH by set_solver.
  destruct (decide (P x)), (decide (Q x)); tauto.
Qed.

Lemma refilled_nil s p q : refilled s [] p q = q.
Proof. unfold refilled. rewrite filter_nil, app_nil_r. apply filter_every. intros x _ Hx. inversion Hx. Qed.
Lemma refilled_one s x p q : refilled s [x] p q = without x q ++ (if decide (joins s p x) then [x] else []).
Proof.
  unfold refilled, without. f_equal.
  apply list_filter_iff. intros y. rewrite list_elem_of_singleton. done.
Qed.
Lemma refilled_joins s s' l1 p q : (forall t, t ∈ l1 -> joins s p t <-> joins s' p t) -> refilled s l1 p q = refilled s' l1 p q.
Proof. intros H. unfold refilled. f_equal. apply filter_same. done. Qed.
Lemma refilled_cons s s1 x l1 p q :
  x ∉ l1 -> (forall t, t <> x -> tasks s1 !! t = tasks s !! t) ->
  refilled s1 l1 p (refilled s [x] p q) = refilled s (x :: l1) p q.
Proof.
  intros Hx Ht. unfold refilled. rewrite filter_app, <- app_assoc, list_filter_filter. f_equal.
  - apply list_filter_iff. intros y. set_solver.
  - assert (El : filter (joins s1 p) l1 = filter (joins s p) l1).
    { apply filter_same. intros y Hy. unfold joins. rewrite Ht; [done|]. intros ->. done. }
    rewrite El, !filter_cons, filter_nil. destruct (decide (joins s p x)); [|done].
    rewrite filter_cons_True by done. done.
Qed.

(** A task that is made ready goes to the end of its level. *)
Lemma put_to_ready_place s t k :
  queues_ok s -> tasks s !! t = Some k ->
  ends (ps_put_to_ready_queue_unsafe t) s (fun _ s' => forall p, ready_queue s' !! p = refilled s [t] p <$> ready_queue s !! p).
Proof.
  intros Hq E. assert (Hj : forall p, joins s p t <-> status k <> ps_dying /\ queued k /\ priority k = Z.of_nat p).
  { intros p. unfold joins. rewrite E. split; [intros (k' & [= <-] & H); done | eauto]. }
  assert (Hout : ~ (status k <> ps_dying /\ queued k) -> forall p, ready_queue s !! p = refilled s [t] p <$> ready_queue s !! p).
  { intros Hn p. destruct (ready_queue s !! p) as [l|] eqn:El; [|done]. cbn. f_equal.
    rewrite refilled_one, decide_False, app_nil_r by (rewrite Hj; tauto). symmetry. apply without_absent. intros Ht.
    apply (q_level _ Hq _ _ _ El) in Ht as (k' & E' & Hk & Hr & _). rewrite E in E'. injection E' as <-.
    apply Hn. split; [destruct Hr; congruence | done]. }
  unfold ps_put_to_ready_queue_unsafe. eapply ends_bind, runs_get; [exact E|].
  case_bool_decide as Hd; [apply ends_ret, Hout; tauto|]. pose proof (q_priority _ Hq _ _ E) as Hp.
  destruct (Z.eqb_spec (psid k) NO_PSID) as [Hn | Hn]; cbn [negb].
  { eapply ends_bind, ends_ret. eapply runs_modify2; [exact E|]. apply Hout. unfold queued. tauto. }
  assert (Hlt : (Z.to_nat (priority k) < length (ready_queue s))%nat) by (rewrite (q_levels _ Hq); lia).
  destruct (lookup_lt_is_Some_2 _ _ Hlt) as [l El].
  eapply ends_bind, ends_bind. eexists _, _. split; [reflexivity|].
  eapply runs_insert_ready; [lia | cbn; rewrite list_lookup_fmap, El; reflexivity|].
  eapply runs_modify2; [exact E|]. cbn. intros p. rewrite list_lookup_insert, length_fmap, list_lookup_fmap.
  destruct (decide (Z.to_nat (priority k) = p)) as [<- | Hne].
  - rewrite decide_True by auto. rewrite El. cbn. rewrite refilled_one, decide_True; [done|]. rewrite Hj. split_and!; [done..|lia].
  - rewrite decide_False by tauto. destruct (ready_queue s !! p); [|done]. cbn. f_equal.
    rewrite refilled_one, decide_False, app_nil_r; [done|]. rewrite Hj. intros (_ & _ & Hpp). lia.
Qed.

(** One task is taken off the timers and made ready. *)
Lemma fire_one s x k l :
  sched_ok s (x :: l) -> tasks s !! x = Some k ->
  ends (timer_fire x) s
    (fun _ s' => sched_ok s' l /\ tasks s' = <[x := fired k]> (tasks s) /\ cpus s' = cpus s /\
       length (wait_lists s') = length (wait_lists s) /\
       forall p, ready_queue s' !! p = refilled s [x] p <$> ready_queue s !! p).
Proof.
  intros [Hq [Ha Hn] Hc] E. pose proof (queue_nodup _ _ _ Ha) as Hd. apply NoDup_cons in Hd as [Hx Hd].
  eapply ends_bind, runs_timers, ends_mono; [exact (queue_erase_ok _ _ _ x Ha ltac:(left))|]. intros [] r1 H1.
  eapply ends_bind, runs_timers, ends_mono; [exact H1|]. intros [] r2 (H2 & Hs). rewrite filter_cons_False in H2 by auto.
  rewrite without_absent in H2 by done.
  eapply ends_bind, runs_modify; [exact E|]. set (s1 := set_timers r2 s).
  assert (Hok : sched_ok (set_tasks (<[x := set_due 0 k]> (tasks s)) s1) l).
  { split.
    - apply (queues_modify s1 x k); try done; [apply queues_timers; done | right; done].
    - eapply (armed_modify s1 _ x k); [split; [exact H2 | intros y; cbn; rewrite Hs; apply Hn] | exact E | done | done|]. done.
    - cbn. eapply cpus_modify; [exact Hc | exact E | done | done|]. exact (c_running _ _ Hc _ _ E). }
  set (s2 := set_tasks (<[x := set_due 0 k]> (tasks s)) s1) in *. assert (E2 : tasks s2 !! x = Some (set_due 0 k)) by apply lookup_insert_eq.
  apply (ends_mono _ _ (fun _ s' => (sched_ok s' l /\ tasks s' = <[x := fired k]> (tasks s) /\ cpus s' = cpus s /\
    length (wait_lists s') = length (wait_lists s)) /\ forall p, ready_queue s' !! p = refilled s2 [x] p <$> ready_queue s2 !! p)).
  2: { intros [] s' ((H3 & H4 & H5 & H6) & Hp). split_and!; try done. intros p. rewrite Hp. apply option_fmap_ext.
       intros q. apply refilled_joins. intros t ->%list_elem_of_singleton. unfold joins. rewrite E, E2.
       split; intros (k' & [= <-] & H7); eexists; (split; [reflexivity | exact H7]). }
  apply ends_both; [|exact (put_to_ready_place _ _ _ (so_queues _ _ Hok) E2)].
  unfold fired. case_bool_decide as Hdy.
  - unfold ps_put_to_ready_queue_unsafe. eapply ends_bind, runs_get; [exact E2|]. cbn.
    rewrite bool_decide_eq_true_2 by done. apply ends_ret. done.
  - eapply ends_mono; [apply (put_to_ready_ok s2 x (set_due 0 k) (so_queues _ _ Hok) E2); done|].
    intros [] s' [Hq' Hm]. split; [|destruct Hm as (Et & _ & Ec & El); cbn in Et; rewrite insert_insert_eq in Et; done].
    apply (sched_moved s2 s' x (set_due 0 k) (to_ready (set_due 0 k))); done.
Qed.

Definition fire_effect (l1 : list Z) (s s' : sched) : Prop :=
  cpus s' = cpus s /\ length (wait_lists s') = length (wait_lists s) /\
  (forall p, ready_queue s' !! p = refilled s l1 p <$> ready_queue s !! p) /\
  forall t, tasks s' !! t = (if bool_decide (t ∈ l1) then fired <$> tasks s !! t else tasks s !! t).

Lemma fire_effect_refl s : fire_effect [] s s.
Proof.
  split_and!; try done. intros p. destruct (ready_queue s !! p); [|done]. cbn. rewrite refilled_nil. done.
Qed.

Lemma fire_loop_ok now l : forall fuel s,
  sched_ok s l -> (length l < fuel)%nat ->
  ends (fire_loop fuel now (hd 0 l)) s (fun _ s' => exists l1 l2, l = l1 ++ l2 /\
    (forall t, t ∈ l1 -> due_of s t <= now) /\ (forall t, t ∈ l2 -> now < due_of s t) /\
    sched_ok s' l2 /\ fire_effect l1 s s').
Proof.
  induction l as [|x l IH]; intros fuel s Hok Hf; (destruct fuel as [|fuel]; [lia|]); cbn [fire_loop hd].
  { apply ends_ret. exists [], []. split_and!; try apply fire_effect_refl; try done; intros t Ht; inversion Ht. }
  pose proof (a_queue _ _ (so_timers _ _ Hok)) as Ha. destruct (queue_in _ _ _ x Ha ltac:(left)) as [nd En].
  destruct (q_nodes _ _ _ Ha x (ex_intro _ _ En)) as [_ Hx0].
  assert (nz x = true) as -> by (apply negb_true_iff, Z.eqb_neq; done). cbn [negb].
  destruct (proj1 (a_nodes _ _ (so_timers _ _ Hok) x) (ex_intro _ _ En)) as [k E].
  eapply ends_bind, runs_get; [exact E|]. assert (Ed : due_of s x = timer_due_ms k) by (unfold due_of; rewrite E; done).
  destruct (proj1 (sorted_cons _ _ _) (q_sorted _ _ _ Ha)) as [_ Hle].
  destruct (Z.ltb_spec now (timer_due_ms k)) as [Hlt | Hge].
  { apply ends_ret. exists [], (x :: l). split_and!; try apply fire_effect_refl; try done; [intros t Ht; inversion Ht|].
    intros t [-> | Ht]%elem_of_cons; [lia | specialize (Hle t Ht); lia]. }
  eapply ends_bind, runs_timers, ends_mono; [exact (queue_next_ok _ _ _ _ Ha)|]. intros y r [-> ->]. rewrite set_timers_id.
  pose proof (queue_nodup _ _ _ Ha) as Hd. apply NoDup_cons in Hd as [Hxl Hd].
  eapply ends_bind, ends_mono; [exact (fire_one s x k l Hok E)|]. intros [] s1 (Hok1 & Et & Ec & El & Eq).
  eapply ends_mono; [apply (IH fuel s1 Hok1); cbn in Hf; lia|]. intros [] s' (l1 & l2 & -> & H1 & H2 & Hok' & Ec' & El' & Eq' & Et').
  assert (Hdue : forall t, t <> x -> due_of s1 t = due_of s t) by (intros t Ht; unfold due_of; rewrite Et, lookup_insert_ne by auto; done).
  exists (x :: l1), l2. split; [done|]. split; [|split; [|split; [done|]]].
  - intros t [-> | Ht]%elem_of_cons; [lia|]. rewrite <- Hdue by set_solver. auto.
  - intros t Ht. rewrite <- Hdue by set_solver. auto.
  - split; [congruence|]. split; [congruence|]. split.
    { intros p. rewrite Eq', Eq. destruct (ready_queue s !! p); [|done]. cbn. f_equal. apply refilled_cons; [set_solver|].
      intros t Ht. rewrite Et, lookup_insert_ne by auto. done. }
    intros t. rewrite Et', Et. destruct (decide (t = x)) as [-> | Hne].
    + rewrite bool_decide_eq_false_2 by set_solver. rewrite bool_decide_eq_true_2 by left. rewrite lookup_insert_eq, E. done.
    + rewrite lookup_insert_ne by auto. rewrite (bool_decide_ext (t ∈ x :: l1) (t ∈ l1)) by (rewrite elem_of_cons; tauto). done.
Qed.

Lemma fire_ok now s l :
  sched_ok s l ->
  ends (ps_fire_timers_unsafe now) s (fun _ s' => exists l1 l2, l = l1 ++ l2 /\
    (forall t, t ∈ l1 -> due_of s t <= now) /\ (forall t, t ∈ l2 -> now < due_of s t) /\
    sched_ok s' l2 /\ fire_effect l1 s s').
Proof.
  intros Hok. pose proof (a_queue _ _ (so_timers _ _ Hok)) as Ha. unfold ps_fire_timers_unsafe.
  eapply ends_bind, runs_timers, ends_mono; [exact (queue_first_ok _ _ _ Ha)|]. intros n r [-> ->]. rewrite set_timers_id.
  apply runs_seeing, fire_loop_ok; [done|]. destruct (q_tree _ _ _ Ha) as (t & Ht & _ & <-).
  pose proof (holds_size _ _ _ _ Ht) as Hz. rewrite length_app in Hz. unfold fuel_of. lia.
Qed.

(** ** The choice *)

Lemma scan_some avail l : forall seen t l',
  scan avail seen l = Some (t, l') -> exists A C, l = A ++ t :: C /\ (forall x, x ∈ A -> avail x = false) /\
    avail t = true /\ l' = rev seen ++ A ++ C ++ [t].
Proof.
  induction l as [|x l IH]; intros seen t l'; cbn; [done|]. destruct (avail x) eqn:Ex.
  - intros [= <- <-]. exists [], l. split_and!; try done. intros y Hy. inversion Hy.
  - intros (A & C & -> & HA & Ht & ->)%IH. exists (x :: A), C. split_and!; try done.
    + intros y [-> | Hy]%elem_of_cons; auto.
    + cbn. rewrite <- app_assoc. done.
Qed.
Lemma scan_none avail l : forall seen, scan avail seen l = None -> forall x, x ∈ l -> avail x = false.
Proof.
  induction l as [|x l IH]; intros seen; cbn; [intros _ y Hy; inversion Hy|]. destruct (avail x) eqn:Ex; [done|].
  intros Hn y [-> | Hy]%elem_of_cons; eauto.
Qed.

(** The first eligible task of the highest level that has one. *)
Record best (avail : Z -> bool) (q : list (list Z)) (n : nat) (t : Z) (q' : list (list Z)) : Prop := {
  b_avail : avail t = true;
  b_place : exists p A C, (p < n)%nat /\ q !! p = Some (A ++ t :: C) /\ (forall x, x ∈ A -> avail x = false) /\
    q' = <[p := A ++ C ++ [t]]> q /\
    forall p' l, (p < p' < n)%nat -> q !! p' = Some l -> forall x, x ∈ l -> avail x = false
}.

Lemma pick_some avail q n t q' : pick avail q n = Some (t, q') -> best avail q n t q'.
Proof.
  induction n as [|n IH]; cbn; [done|]. destruct (q !! n) as [l|] eqn:El; [|done].
  unfold ps_get_available_ready_task. destruct (scan avail [] l) as [[t' l']|] eqn:Es.
  - intros [= <- <-]. apply scan_some in Es as (A & C & -> & HA & Ht & ->). split; [done|].
    exists n, A, C. split_and!; try done; [lia|]. intros p' l Hp. lia.
  - intros [Ht (p & A & C & Hp & Eq & HA & -> & Hh)]%IH. split; [done|]. exists p, A, C. split_and!; try done; [lia|].
    intros p' l0 Hp' El0. destruct (decide (p' = n)) as [-> | Hn]; [|apply (Hh p' l0); [lia | done]].
    rewrite El in El0. simplify_eq. eapply scan_none; eauto.
Qed.
Lemma pick_none avail q n : (n <= length q)%nat -> pick avail q n = None ->
  forall p l, (p < n)%nat -> q !! p = Some l -> forall x, x ∈ l -> avail x = false.
Proof.
  induction n as [|n IH]; cbn; [lia|]. intros Hn. destruct (lookup_lt_is_Some_2 q n ltac:(lia)) as [l El]. rewrite El.
  unfold ps_get_available_ready_task. destruct (scan avail [] l) as [[t' l']|] eqn:Es; [done|].
  intros Hp p l0 Hlt El0. destruct (decide (p = n)) as [-> | Hne]; [|apply (IH ltac:(lia) Hp p l0); [lia | done]].
  rewrite El in El0. simplify_eq. eapply scan_none; eauto.
Qed.

(** A queue is reordered. *)
Lemma queues_rotate s p l l' :
  queues_ok s -> ready_queue s !! p = Some l -> l' ≡ₚ l -> queues_ok (set_ready (<[p := l']> (ready_queue s)) s).
Proof.
  intros [H1 H2 H3 H4 H5 H6] El Hp. split; cbn; auto.
  - rewrite length_insert. done.
  - intros p' l0 x. rewrite list_lookup_insert_Some. intros [(-> & <- & _) | (_ & E0)]; [rewrite Hp|]; eauto.
  - intros p' l0. rewrite list_lookup_insert_Some. intros [(-> & <- & _) | (_ & E0)]; [rewrite Hp|]; eauto.
Qed.

Lemma rotate_perm (A C : list Z) t : A ++ C ++ [t] ≡ₚ A ++ t :: C.
Proof. rewrite <- Permutation_cons_append. done. Qed.

(** ** The switch *)

(** The CPU [c] passes from [prev] to [next]. *)
Lemma switch_ok m cs c prev next kp kn :
  cpus_ok m cs -> cs !! c = Some prev -> m !! prev = Some kp -> status kp <> ps_running -> next <> prev ->
  m !! next = Some kn -> on_cpu kn = 0 -> permitted c kn = true ->
  cpus_ok (<[prev := set_on_cpu 0 kp]> (<[next := set_on_cpu (Z.of_nat c + 1) (set_status ps_running kn)]> m)) (<[c := next]> cs).
Proof.
  intros [H1 H2 H3] Ec Ep Hp Hne En On Hpm. destruct (H1 c prev Ec) as (k0 & E0 & Op). rewrite Ep in E0. simplify_eq.
  split.
  - intros c' x. rewrite list_lookup_insert_Some. intros [(-> & <- & _) | (Hc & Ex)].
    + rewrite lookup_insert_ne, lookup_insert_eq by auto. eauto.
    + destruct (H1 c' x Ex) as (k & E & Ok). assert (x <> prev) by (intros ->; rewrite Ep in E; simplify_eq; lia).
      assert (x <> next) by (intros ->; rewrite En in E; simplify_eq; lia). rewrite !lookup_insert_ne by auto. eauto.
  - intros x k. destruct (decide (x = prev)) as [-> | Hx]; [rewrite lookup_insert_eq; intros [= <-]; cbn; done|].
    rewrite lookup_insert_ne by auto. destruct (decide (x = next)) as [-> | Hx'].
    + rewrite lookup_insert_eq. intros [= <-] _. exists c. cbn. split_and!; [done | | done].
      apply list_lookup_insert_eq. eapply lookup_lt_Some; eauto.
    + rewrite lookup_insert_ne by auto. intros E Hon. destruct (H2 x k E Hon) as (c' & ? & Ec' & ?). exists c'. split_and!; [done | | done].
      rewrite list_lookup_insert_ne; [done|]. intros <-. congruence.
  - intros x k. destruct (decide (x = prev)) as [-> | Hx]; [rewrite lookup_insert_eq; intros [= <-]; cbn; done|].
    rewrite lookup_insert_ne by auto. destruct (decide (x = next)) as [-> | Hx'].
    + rewrite lookup_insert_eq. intros [= <-] _. cbn. lia.
    + rewrite lookup_insert_ne by auto. eauto.
Qed.

(** What availability says of a task of the ready queues. *)
Lemma available_cases s cpu cur t k :
  available_in s cpu cur t = true -> tasks s !! t = Some k ->
  permitted cpu k = true /\ (t = cur \/ status k = ps_ready /\ on_cpu k = 0).
Proof.
  unfold available_in. intros Ha E. rewrite E in Ha. unfold ps_task_available, permitted in *.
  apply andb_true_iff in Ha as [Ha Hi]. apply andb_true_iff in Ha as [Ha Hf]. apply andb_true_iff in Ha as [Ha Ho].
  apply andb_true_iff in Ha as [Ha _]. rewrite Hi, Hf. split; [done|]. destruct (Z.eqb_spec t cur) as [-> | Hne]; [auto|].
  right. rewrite orb_false_r in *. apply bool_decide_eq_true in Ha. apply Z.eqb_eq in Ho. auto.
Qed.

Definition started (cpu : nat) (k : task) : task := set_on_cpu (Z.of_nat cpu + 1) (set_status ps_running k).

(** The tasks and CPUs after the switch from [prev]; [s] is the state of the choice. *)
Definition switched (cpu : nat) (prev next : Z) (s s' : sched) : Prop :=
  cpus s' = <[cpu := next]> (cpus s) /\ length (wait_lists s') = length (wait_lists s) /\
  forall t, tasks s' !! t = (if decide (t = next) then started cpu else if decide (t = prev) then set_on_cpu 0 else id) <$> tasks s !! t.

Lemma sched_modify s l t k k' :
  sched_ok s l -> tasks s !! t = Some k -> same_place k k' -> timer_due_ms k' = timer_due_ms k -> on_cpu k' = on_cpu k ->
  (~ queued k \/ (runnable k <-> runnable k') /\ (blocked k <-> blocked k')) ->
  (status k' = ps_running -> on_cpu k' <> 0) -> sched_ok (set_tasks (<[t := k']> (tasks s)) s) l.
Proof.
  intros [Hq Ha Hc] E Hp Hd Ho Hs Hr. split.
  - destruct Hp as (_ & Hp & _ & Hi). eapply queues_modify; eauto.
  - eapply (armed_modify s _ t k k'); eauto.
  - cbn. eapply cpus_modify; eauto.
Qed.

(** The timers that fire before the choice: none for the bootstrap task. *)
Definition expired (kp : task) (now : Z) (s : sched) (l1 l2 : list Z) : Prop :=
  if psid kp =? NO_PSID then l1 = []
  else (forall t, t ∈ l1 -> due_of s t <= now) /\ (forall t, t ∈ l2 -> now < due_of s t).

Lemma next_task_ok cpu now s l prev kp :
  sched_ok s l -> cpus s !! cpu = Some prev -> tasks s !! prev = Some kp ->
  ends (ps_get_next_task_unsafe cpu now) s (fun r s' => exists s1 l1 l2,
    l = l1 ++ l2 /\ expired kp now s l1 l2 /\ sched_ok s1 l2 /\ fire_effect l1 s s1 /\
    match r with
    | Some t => exists q, best (available_in s1 cpu prev) (ready_queue s1) PS_PRIORITY_MAX t q /\ s' = set_ready q s1
    | None => s' = s1 /\ forall p l x, ready_queue s1 !! p = Some l -> x ∈ l -> available_in s1 cpu prev x = false
    end).
Proof.
  intros Hok Ec Ep. unfold ps_get_next_task_unsafe.
  eapply ends_bind, runs_current; [exact Ec|]. eapply ends_bind, runs_get; [exact Ep|].
  eapply ends_bind, (ends_mono _ _ (fun _ s1 => exists l1 l2, l = l1 ++ l2 /\ expired kp now s l1 l2 /\ sched_ok s1 l2 /\ fire_effect l1 s s1)).
  { unfold expired. destruct (psid kp =? NO_PSID); cbn [negb].
    - apply ends_ret. exists [], l. split_and!; try apply fire_effect_refl; done.
    - eapply ends_mono; [exact (fire_ok now s l Hok)|]. intros [] s1 (l1 & l2 & ? & ? & ? & ? & ?). exists l1, l2. auto. }
  intros [] s1 (l1 & l2 & El & Hx & Hok1 & Hf). apply runs_seeing.
  destruct (pick _ _ _) as [[t q]|] eqn:Epk.
  - eexists _, _. split; [reflexivity|]. exists s1, l1, l2. split_and!; try done; try apply Hf. exists q. split; [apply pick_some; done | done].
  - apply ends_ret. exists s1, l1, l2. split_and!; try done; try apply Hf. intros p l0 x E0.
    apply (pick_none _ _ _ ltac:(rewrite (q_levels _ (so_queues _ _ Hok1)); done) Epk p l0); [|done].
    apply lookup_lt_Some in E0. rewrite (q_levels _ (so_queues _ _ Hok1)) in E0. done.
Qed.

(** The chosen task starts on the CPU. *)
Lemma start_ok cpu s l prev kp next q :
  sched_ok s l -> cpus s !! cpu = Some prev -> tasks s !! prev = Some kp -> status kp <> ps_running ->
  best (available_in s cpu prev) (ready_queue s) PS_PRIORITY_MAX next q ->
  ends (modify next (set_status ps_running);;
        if next =? prev then mret tt else
        modify next (set_on_cpu (Z.of_nat cpu + 1));; put_current cpu next;; modify prev (set_on_cpu 0)) (set_ready q s)
    (fun _ s' => sched_ok s' l /\ switched cpu prev next s s' /\ ready_queue s' = q).
Proof.
  intros Hok Ec Ep Hp [Hav (p & A & C & _ & Eq & _ & -> & _)].
  assert (Hl : next ∈ A ++ next :: C) by set_solver.
  apply (q_level _ (so_queues _ _ Hok) _ _ _ Eq) in Hl as (kn & En & Hqn & Hrn & _).
  destruct (available_cases _ _ _ _ _ Hav En) as [Hpm Hcase].
  set (q := <[p := A ++ C ++ [next]]> (ready_queue s)).
  assert (Hok' : sched_ok (set_ready q s) l).
  { destruct Hok as [Hq Ha Hc]. split; [|destruct Ha; split; done | done].
    apply (queues_rotate s p (A ++ next :: C)); [done | done | apply rotate_perm]. }
  eapply ends_bind, runs_modify; [exact En|]. destruct (Z.eqb_spec next prev) as [-> | Hne].
  - apply ends_ret. destruct (c_cpu _ _ (so_cpus _ _ Hok) _ _ Ec) as (k0 & E0 & O0).
    assert (k0 = kn) as -> by congruence. split.
    + eapply (sched_modify (set_ready q s) l prev); [done | exact En | done | done | done | right | cbn; lia].
      apply still_runnable; [done | right; done].
    + split; [|done]. split; [cbn; symmetry; apply list_insert_id; done|]. split; [done|]. intros t. cbn. destruct (decide (t = prev)) as [-> | Ht].
      * rewrite lookup_insert_eq, En. cbn. unfold started, set_on_cpu. cbn. rewrite <- O0. done.
      * rewrite lookup_insert_ne by auto. destruct (tasks s !! t); done.
  - destruct Hcase as [-> | [Hst Hon]]; [done|].
    eapply ends_bind, runs_modify; [cbn; apply lookup_insert_eq|]. eapply ends_bind. eexists _, _. split; [reflexivity|].
    eapply runs_modify; [cbn; rewrite !lookup_insert_ne by auto; exact Ep|]. cbn. rewrite insert_insert_eq.
    set (kn' := set_on_cpu (Z.of_nat cpu + 1) (set_status ps_running kn)).
    assert (Hq1 : queues_ok (set_tasks (<[next := kn']> (tasks s)) (set_ready q s))).
    { apply (queues_modify (set_ready q s) next kn kn' (so_queues _ _ Hok') En); [done | done|]. right.
      apply still_runnable; [done | right; done]. }
    assert (Ha1 : armed (set_tasks (<[next := kn']> (tasks s)) (set_ready q s)) l)
      by (apply (armed_modify (set_ready q s) _ next kn kn'); [apply Hok' | done | done | done | done]).
    assert (E1 : <[next := kn']> (tasks s) !! prev = Some kp) by (rewrite lookup_insert_ne by auto; done).
    split; [split|].
    + eapply (queues_ext (set_tasks (<[prev := set_on_cpu 0 kp]> (<[next := kn']> (tasks s))) (set_tasks (<[next := kn']> (tasks s)) (set_ready q s))));
        [done | done | done|]. apply (queues_modify _ prev kp (set_on_cpu 0 kp) Hq1 E1); [done | done | right; done].
    + eapply (armed_modify _ _ prev kp (set_on_cpu 0 kp)); [exact Ha1 | exact E1 | done | done | done].
    + cbn. apply (switch_ok _ _ _ _ _ kp kn); try done. apply Hok.
    + split; [|done]. split; [done|]. split; [done|]. intros t. cbn. destruct (decide (t = next)) as [-> | Htn].
      { rewrite lookup_insert_ne, lookup_insert_eq, En by auto. done. }
      destruct (decide (t = prev)) as [-> | Htp]; [rewrite lookup_insert_eq, Ep; done|].
      rewrite !lookup_insert_ne by auto. destruct (tasks s !! t); done.
Qed.

(** ** task_sched() *)

(** The permanent idle task of a CPU, which can run. *)
Definition idle_for (s : sched) (cpu : nat) : Prop :=
  exists i k, tasks s !! i = Some k /\ queued k /\ runnable k /\ priority k = ps_idle /\ param k = Z.of_nat cpu /\
    affinity_mask k = 0 /\ terminate_requested k = false.

(** What a CPU looks at in a task, its state apart. *)
Definition eligible (cpu : nat) (k : task) : bool :=
  permitted cpu k && (negb (terminate_requested k) || nz (vm_lock_depth k)).

Lemma eligible_available s cpu cur t k :
  tasks s !! t = Some k -> eligible cpu k = true -> t = cur \/ status k = ps_ready /\ on_cpu k = 0 -> available_in s cpu cur t = true.
Proof.
  intros E He Hc. unfold available_in. rewrite E. unfold eligible, permitted, ps_task_available in *.
  apply andb_true_iff in He as [He Ht]. apply andb_true_iff in He as [Ha Hi]. rewrite Ha, Hi, Ht.
  destruct Hc as [-> | [Hs Ho]]; [rewrite Z.eqb_refl, !orb_true_r; done|]. rewrite bool_decide_eq_true_2, Ho by done. done.
Qed.

(** The idle task of a CPU is there to be chosen. *)
Lemma idle_available s l cpu prev :
  sched_ok s l -> cpus s !! cpu = Some prev -> idle_for s cpu ->
  exists i q, ready_queue s !! 0%nat = Some q /\ i ∈ q /\ available_in s cpu prev i = true.
Proof.
  intros Hok Ec (i & k & E & Hq & Hr & Hp & Hpa & Haf & Ht). exists i.
  destruct (lookup_lt_is_Some_2 (ready_queue s) 0) as [q Eq]; [rewrite (q_levels _ (so_queues _ _ Hok)); unfold PS_PRIORITY_MAX; lia|].
  exists q. split; [done|]. split; [apply (q_level _ (so_queues _ _ Hok) _ _ _ Eq); exists k; done|].
  assert (Hm : permitted cpu k = true) by (unfold permitted; rewrite Haf, Hpa, !Z.eqb_refl, !orb_true_r; done).
  apply (eligible_available s cpu prev i k E); [unfold eligible; rewrite Hm, Ht; done|].
  destruct (Z.eq_dec (on_cpu k) 0) as [Ho | Ho].
  - right. split; [|done]. destruct Hr as [Hr | Hr]; [done|]. destruct (c_running _ _ (so_cpus _ _ Hok) _ _ E Hr Ho).
  - left. destruct (c_on _ _ (so_cpus _ _ Hok) _ _ E Ho) as (c & _ & Ei & Hpc). specialize (Hpc Hq). unfold permitted in Hpc.
    apply andb_true_iff in Hpc as [_ Hpc]. rewrite Hp, Hpa in Hpc. cbn in Hpc. apply Z.eqb_eq in Hpc.
    assert (c = cpu) as -> by lia. congruence.
Qed.

(** The first store of task_sched(): a running task is ready again. *)
Definition yield (k : task) : task := if bool_decide (status k = ps_running) then set_status ps_ready k else k.
Definition yielded (prev : Z) (kp : task) (s : sched) : sched :=
  if bool_decide (status kp = ps_running) then set_tasks (<[prev := set_status ps_ready kp]> (tasks s)) s else s.

Lemma yielded_task prev kp s t :
  tasks s !! prev = Some kp -> tasks (yielded prev kp s) !! t = (if decide (t = prev) then yield else id) <$> tasks s !! t.
Proof.
  intros Ep. unfold yielded, yield. case_bool_decide as Hr; cbn.
  - destruct (decide (t = prev)) as [-> | Hne]; [rewrite lookup_insert_eq, Ep; cbn; rewrite bool_decide_eq_true_2; done|].
    rewrite lookup_insert_ne by auto. destruct (tasks s !! t); done.
  - destruct (decide (t = prev)) as [-> | Hne]; [rewrite Ep; cbn; rewrite bool_decide_eq_false_2; done|]. destruct (tasks s !! t); done.
Qed.

Lemma yielded_ok prev kp s l : sched_ok s l -> tasks s !! prev = Some kp -> sched_ok (yielded prev kp s) l.
Proof.
  intros Hok Ep. unfold yielded. case_bool_decide as Hr; [|done].
  apply (sched_modify s l prev kp (set_status ps_ready kp)); try done. right. apply still_runnable; [right; done | left; done].
Qed.

Lemma yielded_due prev kp s t : tasks s !! prev = Some kp -> due_of (yielded prev kp s) t = due_of s t.
Proof.
  intros Ep. unfold due_of. rewrite (yielded_task _ _ _ _ Ep). destruct (tasks s !! t) as [k|]; [|destruct (decide _); done].
  destruct (decide _); [|done]. cbn. unfold yield. case_bool_decide; done.
Qed.

(** A task before the choice, from what it was: [f] is the identity or the
    effect of its timer. *)
Lemma chosen_task prev kp s s1 l1 t k :
  tasks s !! prev = Some kp -> fire_effect l1 (yielded prev kp s) s1 -> tasks s !! t = Some k ->
  let k0 := if decide (t = prev) then yield k else k in
  tasks s1 !! t = Some (if bool_decide (t ∈ l1) then fired k0 else k0).
Proof.
  intros Ep (_ & _ & _ & Hf) E. cbv zeta. rewrite Hf, (yielded_task _ _ _ _ Ep), E.
  destruct (decide (t = prev)), (bool_decide (t ∈ l1)); done.
Qed.

Lemma fired_same k : same_place k (fired k) /\ on_cpu (fired k) = on_cpu k /\ terminate_requested (fired k) = terminate_requested k /\
  vm_lock_depth (fired k) = vm_lock_depth k /\ (runnable k -> runnable (fired k)) /\ (status (fired k) = ps_dying <-> status k = ps_dying).
Proof.
  unfold fired, runnable. case_bool_decide as Hd; split_and!; try done; cbn; auto.
Qed.
Lemma yield_same k : same_place k (yield k) /\ on_cpu (yield k) = on_cpu k /\ terminate_requested (yield k) = terminate_requested k /\
  vm_lock_depth (yield k) = vm_lock_depth k /\ (runnable k -> runnable (yield k)) /\ (status (yield k) = ps_dying <-> status k = ps_dying).
Proof.
  unfold yield, runnable. case_bool_decide as Hd; split_and!; try done; cbn; auto. rewrite Hd. done.
Qed.

Lemma idle_kept prev kp s s1 l1 cpu :
  tasks s !! prev = Some kp -> fire_effect l1 (yielded prev kp s) s1 -> idle_for s cpu -> idle_for s1 cpu.
Proof.
  intros Ep Hf (i & k & E & Hq & Hr & Hp & Hpa & Haf & Ht). pose proof (chosen_task _ _ _ _ _ _ _ Ep Hf E) as E1. cbv zeta in E1.
  set (k0 := if decide (i = prev) then yield k else k) in *.
  assert (H0 : queued k0 /\ runnable k0 /\ priority k0 = ps_idle /\ param k0 = Z.of_nat cpu /\ affinity_mask k0 = 0 /\ terminate_requested k0 = false).
  { unfold k0. destruct (decide _); [|done]. destruct (yield_same k) as ((-> & -> & -> & Hi) & _ & -> & _ & Hy & _). unfold queued in *. rewrite Hi. split_and!; auto. }
  destruct H0 as (Hq0 & Hr0 & Hp0 & Hpa0 & Haf0 & Ht0). exists i, (if bool_decide (i ∈ l1) then fired k0 else k0). split; [done|].
  case_bool_decide; [|done]. destruct (fired_same k0) as ((-> & -> & -> & Hi) & _ & -> & _ & Hy & _). unfold queued in *. rewrite Hi. split_and!; auto.
Qed.

Lemma task_sched_ok cpu now s l prev kp :
  sched_ok s l -> cpus s !! cpu = Some prev -> tasks s !! prev = Some kp -> idle_for s cpu ->
  ends (task_sched cpu now) s (fun _ s' => exists s1 l1 l2 next q,
    l = l1 ++ l2 /\ expired kp now s l1 l2 /\ sched_ok s1 l2 /\ fire_effect l1 (yielded prev kp s) s1 /\
    best (available_in s1 cpu prev) (ready_queue s1) PS_PRIORITY_MAX next q /\
    sched_ok s' l2 /\ switched cpu prev next s1 s' /\ ready_queue s' = q).
Proof.
  intros Hok Ec Ep Hidle. unfold task_sched. eapply ends_bind, runs_current; [exact Ec|]. eapply ends_bind, runs_get; [exact Ep|].
  eapply ends_bind, (ends_mono _ _ (fun _ s0 => s0 = yielded prev kp s)).
  { unfold yielded. case_bool_decide; [eapply runs_modify; [exact Ep | done] | apply ends_ret; done]. }
  intros [] s0 ->. set (s0 := yielded prev kp s). assert (Ec0 : cpus s0 !! cpu = Some prev) by (unfold s0, yielded; case_bool_decide; done).
  assert (Ep0 : tasks s0 !! prev = Some (yield kp)) by (unfold s0; rewrite (yielded_task _ _ _ _ Ep), decide_True, Ep; done).
  eapply ends_bind, ends_mono; [exact (next_task_ok cpu now s0 l prev (yield kp) (yielded_ok _ _ _ _ Hok Ep) Ec0 Ep0)|].
  intros r s' (s1 & l1 & l2 & El & Hx & Hok1 & Hf & Hr).
  assert (Hx' : expired kp now s l1 l2).
  { unfold expired in *. destruct (yield_same kp) as ((_ & _ & _ & Hi) & _). rewrite Hi in Hx. destruct (_ =? _); [done|].
    destruct Hx as [H1 H2]. split; intros t Ht; rewrite <- (yielded_due prev kp) by done; auto. }
  assert (Ec1 : cpus s1 !! cpu = Some prev) by (destruct Hf as (-> & _); done).
  destruct r as [next|].
  - destruct Hr as (q & Hb & ->). pose proof (chosen_task _ _ _ _ _ _ _ Ep Hf Ep) as Ep1. cbv zeta in Ep1. rewrite decide_True in Ep1 by done.
    eapply ends_mono; [eapply (start_ok cpu s1 l2 prev _ next q Hok1 Ec1 Ep1); [|exact Hb]|].
    + unfold fired, yield. repeat case_bool_decide; cbn in *; congruence.
    + intros [] s' (Hok' & Hsw & Hrq). exists s1, l1, l2, next, q. done.
  - destruct Hr as [-> Hnone]. destruct (idle_available s1 l2 cpu prev Hok1 Ec1) as (i & q & Eq & Hi & Ha); [exact (idle_kept _ _ _ _ _ _ Ep Hf Hidle)|].
    rewrite (Hnone _ _ _ Eq Hi) in Ha. done.
Qed.

(** ** Every operation keeps the invariant *)

Lemma sched_arm us ms s t k l :
  sched_ok s l -> tasks s !! t = Some k ->
  ends (timer_arm_unsafe us t ms) s (fun _ s' => exists l' k', sched_ok s' l' /\ tasks s' = <[t := k']> (tasks s) /\
    cpus s' = cpus s /\ wait_lists s' = wait_lists s).
Proof.
  intros Hok E. eapply ends_mono; [exact (arm_ok us ms s t k l (so_timers _ _ Hok) E)|].
  intros [] s' (r & A & C & _ & _ & _ & Ha & Es). exists (A ++ t :: C), (set_due (time_deadline_ms us ms) k).
  split; [|subst s'; done]. split; [|done|].
  - subst s'. apply queues_timers, (queues_modify s t k); try done; [apply Hok | right; done].
  - subst s'. cbn. eapply cpus_modify; [apply Hok | exact E | done | done|]. exact (c_running _ _ (so_cpus _ _ Hok) _ _ E).
Qed.

Lemma sched_disarm s t k l :
  sched_ok s l -> tasks s !! t = Some k ->
  ends (timer_disarm_unsafe t) s (fun _ s' => sched_ok s' (without t l) /\ cpus s' = cpus s /\ wait_lists s' = wait_lists s /\
    exists k', tasks s' !! t = Some k' /\ status k' = status k).
Proof.
  intros Hok E. eapply ends_mono; [exact (disarm_ok s t k l (so_timers _ _ Hok) E)|]. intros [] s' (Ha & r & Es).
  split; [|subst s'; case_bool_decide; split_and!; try done; cbn; rewrite ?lookup_insert_eq; eauto]. split; [|done|].
  - subst s'. apply queues_timers. case_bool_decide; [|apply Hok]. apply (queues_modify s t k); try done; [apply Hok | right; done].
  - subst s'. case_bool_decide; cbn; [|apply Hok]. eapply cpus_modify; [apply Hok | exact E | done | done|].
    exact (c_running _ _ (so_cpus _ _ Hok) _ _ E).
Qed.

Lemma sched_wait s t k l q :
  sched_ok s l -> tasks s !! t = Some k -> (default 0 q < length (wait_lists s))%nat ->
  ends (ps_put_to_wait_queue_unsafe t q) s (fun _ s' => sched_ok s' l /\ moved t (to_waiting k) s s').
Proof.
  intros Hok E Hq. eapply ends_mono; [exact (put_to_wait_ok s t k q (so_queues _ _ Hok) E Hq)|]. intros [] s' [Hq' Hm].
  split; [|done]. apply (sched_moved s s' t k (to_waiting k)); done.
Qed.

Lemma sched_stop s t k l :
  sched_ok s l -> tasks s !! t = Some k -> (0 < length (wait_lists s))%nat ->
  ends (ps_stop_unsafe t) s (fun _ s' => sched_ok s' l /\ moved t (set_status ps_stopped k) s s').
Proof.
  intros Hok E Hq. eapply ends_mono; [exact (stop_queues_ok s t k (so_queues _ _ Hok) E Hq)|]. intros [] s' [Hq' Hm].
  split; [|done]. apply (sched_moved s s' t k (set_status ps_stopped k)); done.
Qed.

(** A task made ready, if it is not dying. *)
Definition readied (k : task) : task := if bool_decide (status k = ps_dying) then k else to_ready k.

Lemma sched_ready s t k l :
  sched_ok s l -> tasks s !! t = Some k ->
  ends (ps_put_to_ready_queue_unsafe t) s (fun _ s' => sched_ok s' l /\ tasks s' = <[t := readied k]> (tasks s) /\
    cpus s' = cpus s /\ length (wait_lists s') = length (wait_lists s)).
Proof.
  intros Hok E. unfold readied. case_bool_decide as Hd.
  - unfold ps_put_to_ready_queue_unsafe. eapply ends_bind, runs_get; [exact E|]. rewrite bool_decide_eq_true_2 by done.
    apply ends_ret. rewrite insert_id by done. done.
  - eapply ends_mono; [apply (put_to_ready_ok s t k (so_queues _ _ Hok) E Hd)|]. intros [] s' [Hq Hm].
    split; [apply (sched_moved s s' t k (to_ready k)); done|]. destruct Hm as (? & _ & ? & ?). done.
Qed.

Lemma sched_wake s t k l :
  sched_ok s l -> tasks s !! t = Some k ->
  ends (ps_put_to_ready_queue t) s (fun _ s' => sched_ok s' l /\ cpus s' = cpus s /\
    exists k', tasks s' !! t = Some k' /\ (status k = ps_waiting -> status k' = ps_ready)).
Proof.
  intros Hok E. unfold ps_put_to_ready_queue. eapply ends_bind, runs_get; [exact E|]. case_bool_decide as Hw.
  - eapply ends_mono; [apply (put_to_ready_ok s t k (so_queues _ _ Hok) E); congruence|]. intros [] s' [Hq' Hm].
    split; [apply (sched_moved s s' t k (to_ready k)); done|]. destruct Hm as (Et & _ & Ec & _). split; [done|].
    exists (to_ready k). rewrite Et, lookup_insert_eq. done.
  - apply ends_ret. split; [done|]. split; [done|]. exists k. done.
Qed.

