(* ===== verification/SchedCorrect.v ===== *)
(** * The scheduler: theorems

    The invariant in every run of the system, what a scheduling decision
    does, fairness within a level, and the end of a timed wait. *)

From S2P Require Import Prelude RbTree RbTreeInv Timer TimerProof Sched SchedInv SchedProof.

(** An event that can happen: its CPU, task and queue exist, and a CPU that
    schedules has its idle task. *)
Definition valid (s : sched) (e : event) : Prop :=
  match e with
  | Schedule cpu _ => (cpu < length (cpus s))%nat /\ idle_for s cpu
  | TimedWait cpu _ _ => (cpu < length (cpus s))%nat /\ (0 < length (wait_lists s))%nat
  | InterruptibleWait cpu _ _ q _ => (cpu < length (cpus s))%nat /\ (default 0 q < length (wait_lists s))%nat
  | Block cpu q => (cpu < length (cpus s))%nat /\ (q < length (wait_lists s))%nat
  | FinishWait cpu | Exit cpu => (cpu < length (cpus s))%nat
  | Wake t | Continue t => is_Some (tasks s !! t)
  | Stop cpu => (cpu < length (cpus s))%nat /\ (0 < length (wait_lists s))%nat
  end.

Lemma current_task s l cpu :
  sched_ok s l -> (cpu < length (cpus s))%nat -> exists t k, cpus s !! cpu = Some t /\ tasks s !! t = Some k.
Proof.
  intros Hok Hc. destruct (lookup_lt_is_Some_2 _ _ Hc) as [t Et]. destruct (c_cpu _ _ (so_cpus _ _ Hok) _ _ Et) as (k & E & _). eauto.
Qed.

Lemma exit_ok s l t k :
  sched_ok s l -> tasks s !! t = Some k ->
  ends (list_remove_entry t;; timer_disarm_unsafe t;; modify t (set_status ps_dying)) s (fun _ s' => exists l', sched_ok s' l').
Proof.
  intros Hok E. eapply ends_bind. eexists _, _. split; [reflexivity|].
  set (s0 := set_waits _ _). assert (Ha0 : armed s0 l) by (destruct (so_timers _ _ Hok); split; done).
  eapply ends_bind, ends_mono; [exact (disarm_ok s0 t k l Ha0 E)|]. intros [] s1 (Ha1 & r & E1).
  assert (Et : exists k1, tasks s1 !! t = Some k1 /\ same_place k k1 /\ on_cpu k1 = on_cpu k /\
                 <[t := set_status ps_dying k1]> (tasks s1) = <[t := set_status ps_dying k1]> (tasks s)).
  { subst s1. case_bool_decide; cbn; [exists (set_due 0 k); rewrite lookup_insert_eq, insert_insert_eq | exists k; rewrite E]; done. }
  destruct Et as (k1 & Ek1 & Hp & Ho & Em). eapply runs_modify; [exact Ek1|]. exists (without t l). rewrite Em. split.
  - eapply (queues_ext (taken t (set_status ps_dying k1) s)); [done | subst s1; case_bool_decide; done | subst s1; case_bool_decide; done|].
    apply (taken_ok s t k); [apply Hok | done | apply Hp | auto].
  - eapply (armed_modify s1 _ t k1 (set_status ps_dying k1)); [exact Ha1 | exact Ek1 | cbn; rewrite Em; done | done | done].
  - cbn. assert (cpus s1 = cpus s) as -> by (subst s1; case_bool_decide; done).
    apply (cpus_modify _ _ t k); [apply Hok | done | exact Ho | exact Hp | done].
Qed.

Lemma sched_maybe_arm (b : bool) us ms s t k l :
  sched_ok s l -> tasks s !! t = Some k ->
  ends (if b then timer_arm_unsafe us t ms else mret tt) s
    (fun _ s1 => exists l1 k1, sched_ok s1 l1 /\ tasks s1 !! t = Some k1 /\ wait_lists s1 = wait_lists s).
Proof.
  intros Hok E. destruct b; [|apply ends_ret; eauto]. eapply ends_mono; [exact (sched_arm us ms s t k l Hok E)|].
  intros [] s1 (l1 & k1 & Hok1 & Et & _ & Ew). exists l1, k1. rewrite Et, lookup_insert_eq. done.
Qed.

Lemma perform_ok s l e : sched_ok s l -> valid s e -> ends (perform e) s (fun _ s' => exists l', sched_ok s' l').
Proof.
  intros Hok. destruct e as [cpu now | cpu us ms | cpu us intr q ms | cpu q | cpu | t | cpu | t | cpu]; cbn [valid perform].
  - intros [Hc Hi]. destruct (current_task _ _ _ Hok Hc) as (t & k & Ec & E).
    eapply ends_mono; [exact (task_sched_ok cpu now s l t k Hok Ec E Hi)|]. intros [] s' (s1 & l1 & l2 & n & q & H). exists l2. apply H.
  - intros [Hc Hw]. destruct (current_task _ _ _ Hok Hc) as (t & k & Ec & E). eapply ends_bind, runs_current; [exact Ec|].
    unfold ps_prepare_timed_wait. eapply ends_bind, ends_mono; [exact (sched_maybe_arm _ us ms s t k l Hok E)|].
    intros [] s1 (l1 & k1 & Hok1 & E1 & Ew). eapply ends_mono; [apply (sched_wait s1 t k1 l1 None Hok1 E1); rewrite Ew; done|].
    intros [] s2 [Hok2 _]. eauto.
  - intros [Hc Hw]. destruct (current_task _ _ _ Hok Hc) as (t & k & Ec & E). eapply ends_bind, runs_current; [exact Ec|].
    unfold ps_prepare_interruptible_wait. destruct intr; [eapply ends_bind, ends_ret, ends_ret; eauto|].
    eapply ends_bind, ends_bind, ends_mono; [exact (sched_maybe_arm _ us ms s t k l Hok E)|].
    intros [] s1 (l1 & k1 & Hok1 & E1 & Ew). eapply ends_bind, ends_mono; [apply (sched_wait s1 t k1 l1 q Hok1 E1); rewrite Ew; done|].
    intros [] s2 [Hok2 (Et & _)]. assert (E2 : tasks s2 !! t = Some (to_waiting k1)) by (rewrite Et, lookup_insert_eq; done).
    eapply ends_bind, runs_modify; [exact E2|]. apply ends_ret, ends_ret. exists l1.
    apply (sched_modify s2 l1 t (to_waiting k1)); try done. right. done.
  - intros [Hc Hw]. destruct (current_task _ _ _ Hok Hc) as (t & k & Ec & E). eapply ends_bind, runs_current; [exact Ec|].
    eapply ends_mono; [apply (sched_wait s t k l (Some q) Hok E); done|]. intros [] s2 [Hok2 _]. eauto.
  - intros Hc. destruct (current_task _ _ _ Hok Hc) as (t & k & Ec & E). eapply ends_bind, runs_current; [exact Ec|].
    eapply ends_mono; [exact (sched_disarm s t k l Hok E)|]. intros [] s2 [Hok2 _]. eauto.
  - intros [k E]. eapply ends_mono; [exact (sched_wake s t k l Hok E)|]. intros [] s2 [Hok2 _]. eauto.
  - intros [Hc Hw]. destruct (current_task _ _ _ Hok Hc) as (t & k & Ec & E). eapply ends_bind, runs_current; [exact Ec|].
    eapply ends_mono; [exact (sched_stop s t k l Hok E Hw)|]. intros [] s2 [Hok2 _]. eauto.
  - intros [k E]. eapply ends_mono; [exact (sched_ready s t k l Hok E)|]. intros [] s2 [Hok2 _]. eauto.
  - intros Hc. destruct (current_task _ _ _ Hok Hc) as (t & k & Ec & E). eapply ends_bind, runs_current; [exact Ec|].
    exact (exit_ok s l t k Hok E).
Qed.

Fixpoint all_valid (es : list event) (s : sched) : Prop :=
  match es with
  | [] => True
  | e :: es => valid s e /\ forall s', perform e s = Some (tt, s') -> all_valid es s'
  end.

(** C5: in every run, whatever the CPUs and the rest of the kernel do and in
    whatever order, no operation fails, the queues hold exactly the tasks
    their states say, no task is on two CPUs, and a running task is on a CPU
    its affinity and, for an idle task, its binding permit. *)
Theorem scheduler_invariant s l es :
  sched_ok s l -> all_valid es s ->
  ends (perform_all es) s (fun _ s' =>
    (exists l', sched_ok s' l') /\
    (forall c1 c2 t, cpus s' !! c1 = Some t -> cpus s' !! c2 = Some t -> c1 = c2) /\
    (forall t k, tasks s' !! t = Some k -> status k = ps_running ->
       exists c, cpus s' !! c = Some t /\ on_cpu k = Z.of_nat c + 1 /\ (queued k -> permitted c k = true))).
Proof.
  intros Hok Hv. enough (ends (perform_all es) s (fun _ s' => exists l', sched_ok s' l')) as H.
  { eapply ends_mono; [exact H|]. intros [] s' [l' Hok']. split; [eauto|]. pose proof (so_cpus _ _ Hok') as Hc. split.
    - intros c1 c2 t E1 E2. destruct (c_cpu _ _ Hc _ _ E1) as (k1 & Ek1 & O1). destruct (c_cpu _ _ Hc _ _ E2) as (k2 & Ek2 & O2).
      rewrite Ek1 in Ek2. simplify_eq. lia.
    - intros t k E Hr. destruct (c_on _ _ Hc _ _ E (c_running _ _ Hc _ _ E Hr)) as (c & ? & ? & ?). eauto. }
  revert s l Hok Hv. induction es as [|e es IH]; intros s l Hok Hv; [apply ends_ret; eauto|]. destruct Hv as [Hv Hn]. cbn.
  destruct (perform_ok s l e Hok Hv) as ([] & s1 & E1 & l1 & Hok1). eapply ends_bind. exists tt, s1. split; [done|]. eapply IH; eauto.
Qed.

(** The place of a task of the ready queues. *)
Lemma in_level s t k :
  queues_ok s -> tasks s !! t = Some k -> queued k -> runnable k ->
  exists q, ready_queue s !! Z.to_nat (priority k) = Some q /\ t ∈ q.
Proof.
  intros Hq E Hk Hr. pose proof (q_priority _ Hq _ _ E) as Hp.
  destruct (lookup_lt_is_Some_2 (ready_queue s) (Z.to_nat (priority k))) as [q Eq]; [rewrite (q_levels _ Hq); lia|].
  exists q. split; [done|]. apply (q_level _ Hq _ _ _ Eq). exists k. split_and!; try done. lia.
Qed.

(** No task the CPU could run has a higher priority than the one chosen. *)
Lemma best_priority s l cpu cur t q kt x kx :
  sched_ok s l -> best (available_in s cpu cur) (ready_queue s) PS_PRIORITY_MAX t q -> tasks s !! t = Some kt ->
  tasks s !! x = Some kx -> queued kx -> runnable kx -> available_in s cpu cur x = true -> priority kx <= priority kt.
Proof.
  intros [Hq _ _] [_ (p & A & C & _ & Ep & _ & _ & Hh)] Et Ex Hkx Hrx Ha.
  assert (Hpt : priority kt = Z.of_nat p).
  { assert (Hi : t ∈ A ++ t :: C) by set_solver. apply (q_level _ Hq _ _ _ Ep) in Hi as (k0 & E0 & _ & _ & ?). congruence. }
  destruct (in_level s x kx Hq Ex Hkx Hrx) as (lx & Elx & Hx). pose proof (q_priority _ Hq _ _ Ex).
  destruct (decide (p < Z.to_nat (priority kx))%nat) as [Hlt | Hge]; [|lia].
  rewrite (Hh (Z.to_nat (priority kx)) lx ltac:(lia) Elx x Hx) in Ha. done.
Qed.

(** Of the task chosen. *)
Lemma best_task s l cpu cur t q :
  sched_ok s l -> best (available_in s cpu cur) (ready_queue s) PS_PRIORITY_MAX t q ->
  exists kt, tasks s !! t = Some kt /\ queued kt /\ runnable kt /\ eligible cpu kt = true.
Proof.
  intros [Hq _ _] [Ha (p & A & C & _ & Ep & _)]. assert (Hi : t ∈ A ++ t :: C) by set_solver.
  apply (q_level _ Hq _ _ _ Ep) in Hi as (k & E & Hk & Hr & _). exists k. split_and!; try done.
  unfold available_in in Ha. rewrite E in Ha. unfold ps_task_available, eligible, permitted in *.
  apply andb_true_iff in Ha as [Ha Hi]. apply andb_true_iff in Ha as [Ha Hf]. apply andb_true_iff in Ha as [Ha Ho].
  apply andb_true_iff in Ha as [_ Ht]. rewrite Hi, Hf, Ht. done.
Qed.

(** A task after the decision, from what it was. *)
Lemma decided_task cpu prev kp next s s1 s' l1 t k :
  tasks s !! prev = Some kp -> fire_effect l1 (yielded prev kp s) s1 -> switched cpu prev next s1 s' -> tasks s !! t = Some k ->
  let k0 := if decide (t = prev) then yield k else k in
  let k1 := if bool_decide (t ∈ l1) then fired k0 else k0 in
  tasks s1 !! t = Some k1 /\
  tasks s' !! t = Some (if decide (t = next) then started cpu k1 else if decide (t = prev) then set_on_cpu 0 k1 else k1).
Proof.
  intros Ep Hf (_ & _ & Hs) E k0 k1. pose proof (chosen_task _ _ _ _ _ _ _ Ep Hf E) as E1. cbv zeta in E1. fold k0 k1 in E1.
  split; [done|]. rewrite Hs, E1. repeat destruct (decide _); done.
Qed.

Lemma sched_decision cpu now s l prev kp :
  sched_ok s l -> cpus s !! cpu = Some prev -> tasks s !! prev = Some kp -> queued kp -> idle_for s cpu ->
  ends (task_sched cpu now) s (fun _ s' => exists next kn,
    cpus s' = <[cpu := next]> (cpus s) /\ tasks s' !! next = Some kn /\ status kn = ps_running /\ eligible cpu kn = true /\
    (forall t k, t <> next -> tasks s' !! t = Some k -> queued k -> status k = ps_ready -> on_cpu k = 0 ->
       eligible cpu k = true -> priority k <= priority kn) /\
    (forall t k, t ∈ l -> tasks s !! t = Some k -> exists k', tasks s' !! t = Some k' /\
       if timer_due_ms k <=? now then timer_due_ms k' = 0 /\ (status k = ps_dying \/ runnable k')
       else timer_due_ms k' = timer_due_ms k /\ (status k = ps_waiting -> status k' = ps_waiting))).
Proof.
  intros Hok Ec Ep Hq Hi. eapply ends_mono; [exact (task_sched_ok cpu now s l prev kp Hok Ec Ep Hi)|].
  intros [] s' (s1 & l1 & l2 & next & q & El & Hx & Hok1 & Hf & Hb & Hok' & Hsw & _).
  destruct (best_task _ _ _ _ _ _ Hok1 Hb) as (kt & Et & Hqt & Hrt & Het).
  exists next, (started cpu kt). pose proof Hsw as (Ecs & _ & Hts). pose proof Hf as (Ec1 & _).
  assert (En : tasks s' !! next = Some (started cpu kt)) by (rewrite Hts, decide_True, Et; done).
  split; [rewrite Ecs, Ec1; unfold yielded; case_bool_decide; done|]. do 3 (split; [done|]). split.
  - intros t k Ht E Hk Hs Ho He. rewrite Hts, decide_False in E by done. destruct (tasks s1 !! t) as [k1|] eqn:E1; [|discriminate].
    assert (Hk1 : priority k1 = priority k /\ queued k1 /\ status k1 = ps_ready /\ eligible cpu k1 = true /\ (t = prev \/ on_cpu k1 = 0)).
    { cbn in E. injection E as <-. destruct (decide (t = prev)); split_and!; auto. }
    destruct Hk1 as (<- & Hk1 & Hs1 & He1 & Ho1). cbn.
    apply (best_priority s1 l2 cpu prev next q kt t k1 Hok1 Hb Et E1 Hk1); [left; done|].
    apply (eligible_available s1 cpu prev t k1 E1 He1). destruct Ho1; auto.
  - intros t k Ht E. destruct (decided_task _ _ _ _ _ _ _ _ _ _ Ep Hf Hsw E) as [E1 E']. cbv zeta in E1, E'.
    set (k0 := if decide (t = prev) then yield k else k) in *.
    set (k1 := if bool_decide (t ∈ l1) then fired k0 else k0) in *.
    set (k' := if decide (t = next) then started cpu k1 else _) in *. exists k'. split; [exact E'|].
    assert (H0 : timer_due_ms k0 = timer_due_ms k /\ (status k = ps_waiting -> status k0 = ps_waiting) /\ (status k0 = ps_dying <-> status k = ps_dying)).
    { unfold k0, yield. repeat case_decide; repeat case_bool_decide; cbn; split_and!; try done; [congruence|]. split; congruence. }
    assert (H1 : timer_due_ms k' = timer_due_ms k1 /\ (status k' = status k1 \/ t = next /\ status k' = ps_running)).
    { unfold k'. repeat case_decide; cbn; auto. }
    unfold expired in Hx. unfold queued in Hq. rewrite (proj2 (Z.eqb_neq _ _)) in Hx by done. destruct Hx as [Hx1 Hx2].
    assert (Hd : due_of s t = timer_due_ms k) by (unfold due_of; rewrite E; done). rewrite El in Ht. unfold k1, fired in *.
    destruct H0 as (Hd0 & Hw0 & Hdy0), H1 as [Hd1 Hs1]. destruct (decide (t ∈ l1)) as [Hl1 | Hl1].
    + specialize (Hx1 t Hl1). rewrite (proj2 (Z.leb_le _ _)) by lia. rewrite (bool_decide_eq_true_2 _ Hl1) in *.
      unfold runnable. case_bool_decide; cbn in *; [tauto|]. rewrite Hd1. split; [done|]. destruct Hs1 as [-> | [_ ->]]; auto.
    + assert (Hl2 : t ∈ l2) by set_solver. specialize (Hx2 t Hl2). rewrite (proj2 (Z.leb_gt _ _)) by lia.
      rewrite (bool_decide_eq_false_2 _ Hl1) in *. split; [congruence|]. intros Hw. destruct Hs1 as [-> | [-> _]]; [auto|].
      rewrite Et in E1. injection E1 as ->. unfold runnable in Hrt. rewrite (Hw0 Hw) in Hrt. destruct Hrt; discriminate.
Qed.

(** The tasks whose timers a decision at [now] finds due, in order. *)
Definition due (s : sched) (now : Z) (l : list Z) : list Z := filter (fun t => due_of s t <= now) l.

Lemma expired_due kp now s l1 l2 : queued kp -> expired kp now s l1 l2 -> due s now (l1 ++ l2) = l1.
Proof.
  intros Hq Hx. unfold expired in Hx. rewrite (proj2 (Z.eqb_neq _ _)) in Hx by exact Hq. destruct Hx as [H1 H2].
  unfold due. rewrite filter_app, (filter_every _ l1) by done.
  assert (filter (fun t => due_of s t <= now) l2 = []) as ->; [|apply app_nil_r].
  destruct (filter _ l2) as [|x l] eqn:E; [done|]. assert (Hx : x ∈ filter (fun t => due_of s t <= now) l2) by (rewrite E; left).
  apply list_elem_of_filter in Hx as [Hx Hl]. specialize (H2 x Hl). lia.
Qed.

Lemma yielded_joins prev kp s p t : tasks s !! prev = Some kp -> joins (yielded prev kp s) p t <-> joins s p t.
Proof.
  intros Ep. unfold joins. rewrite (yielded_task _ _ _ _ Ep). destruct (tasks s !! t) as [k|]; [|done].
  destruct (decide (t = prev)); [|done]. destruct (yield_same k) as ((_ & Hp & _ & Hi) & _ & _ & _ & _ & Hd).
  split; intros (k' & [= <-] & Hs & Hk & Hpr); eexists; (split; [reflexivity|]); unfold queued in *.
  - rewrite <- Hp, <- Hi, <- Hd. done.
  - rewrite Hp, Hi, Hd. done.
Qed.

(** What the decision does to the record of task [t]: [prev] leaves the CPU
    and [next] starts on it, and a timer that is due fires before. *)
Definition after (cpu : nat) (prev next : Z) (dues : list Z) (t : Z) (k : task) : task :=
  let k0 := if decide (t = prev) then yield k else k in
  let k1 := if decide (t ∈ dues) then fired k0 else k0 in
  if decide (t = next) then started cpu k1 else if decide (t = prev) then set_on_cpu 0 k1 else k1.

Lemma decided_after cpu prev kp next s s1 s' l1 t :
  tasks s !! prev = Some kp -> fire_effect l1 (yielded prev kp s) s1 -> switched cpu prev next s1 s' ->
  tasks s' !! t = after cpu prev next l1 t <$> tasks s !! t.
Proof.
  intros Ep Hf Hsw. destruct (tasks s !! t) as [k|] eqn:E.
  - destruct (decided_task _ _ _ _ _ _ _ _ _ _ Ep Hf Hsw E) as [_ ->]. cbn. unfold after. do 2 f_equal.
    destruct (decide (t ∈ l1)); [rewrite !bool_decide_eq_true_2 by done | rewrite !bool_decide_eq_false_2 by done]; done.
  - destruct Hsw as (_ & _ & ->), Hf as (_ & _ & _ & ->). rewrite (yielded_task _ _ _ _ Ep), E. cbn. case_bool_decide; done.
Qed.

(** A task that could run on the CPU once the decision is made could have
    been chosen. *)
Lemma passed_over cpu prev next s s' t k :
  switched cpu prev next s s' -> t <> next -> tasks s' !! t = Some k -> status k = ps_ready -> on_cpu k = 0 ->
  eligible cpu k = true -> available_in s cpu prev t = true.
Proof.
  intros (_ & _ & Hts) Ht E Hs Ho He. rewrite Hts, decide_False in E by done.
  destruct (tasks s !! t) as [k1|] eqn:E1; [|discriminate]. cbn in E. injection E as <-.
  apply (eligible_available s cpu prev t k1 E1); destruct (decide (t = prev)); auto.
Qed.

(** C6: let the CPU of [s] have its idle task and run a task of the queues.
    Then a scheduling decision finds a task [next].  The level of [next],
    its due tasks moved to the end, is [A ++ next :: B]; afterwards it is
    [A ++ B ++ [next]], and the other levels only have their due tasks moved.
    Every other queued task that is ready, on no CPU and eligible has a lower
    priority or stands in [B].  Each task record is exactly what [after]
    says: only the due tasks fire, the task that ran before leaves the CPU,
    [next] runs on it, and every other task is as it was. *)
Theorem task_sched_correct cpu now s l prev kp :
  sched_ok s l -> cpus s !! cpu = Some prev -> tasks s !! prev = Some kp -> queued kp -> idle_for s cpu ->
  ends (task_sched cpu now) s (fun _ s' => exists next kn p q A B,
    cpus s' = <[cpu := next]> (cpus s) /\ tasks s' !! next = Some kn /\ status kn = ps_running /\ eligible cpu kn = true /\
    priority kn = Z.of_nat p /\ ready_queue s !! p = Some q /\ refilled s (due s now l) p q = A ++ next :: B /\
    ready_queue s' !! p = Some (A ++ B ++ [next]) /\
    (forall p', p' <> p -> ready_queue s' !! p' = refilled s (due s now l) p' <$> ready_queue s !! p') /\
    (forall t k, t <> next -> tasks s' !! t = Some k -> queued k -> status k = ps_ready -> on_cpu k = 0 ->
       eligible cpu k = true -> priority k < priority kn \/ priority k = priority kn /\ t ∈ B) /\
    (forall t, tasks s' !! t = after cpu prev next (due s now l) t <$> tasks s !! t)).
Proof.
  intros Hok Ec Ep Hq Hi. eapply ends_mono; [exact (task_sched_ok cpu now s l prev kp Hok Ec Ep Hi)|].
  intros [] s' (s1 & l1 & l2 & next & q' & -> & Hx & Hok1 & Hf & Hb & Hok' & Hsw & Hrq).
  rewrite (expired_due _ _ _ _ _ Hq Hx). destruct (best_task _ _ _ _ _ _ Hok1 Hb) as (kt & Et & Hqt & Hrt & Het).
  pose proof Hb as [_ (p & A & B & Hp & Eq & HA & -> & Hh)].
  assert (Hrf : forall p, ready_queue s1 !! p = refilled s l1 p <$> ready_queue s !! p).
  { intros p'. destruct Hf as (_ & _ & -> & _). unfold yielded at 2. case_bool_decide; cbn;
      apply option_fmap_ext; intros l'; apply refilled_joins; intros t _; apply yielded_joins; done. }
  rewrite Hrf in Eq. destruct (ready_queue s !! p) as [q|] eqn:Eqs; [|discriminate]. injection Eq as Eq.
  assert (Hpt : priority kt = Z.of_nat p).
  { assert (Hl : next ∈ refilled s l1 p q) by (rewrite Eq; set_solver).
    apply (q_level _ (so_queues _ _ Hok1) p) in Hl as (k0 & E0 & _ & _ & H0); [congruence|]. rewrite Hrf, Eqs. done. }
  exists next, (started cpu kt), p, q, A, B. pose proof Hsw as (Ecs & _ & Hts).
  split; [rewrite Ecs, (proj1 Hf); unfold yielded; case_bool_decide; done|].
  split; [rewrite Hts, decide_True, Et; done|]. do 5 (split; [done|]).
  assert (Hlt : (p < length (ready_queue s1))%nat) by (apply lookup_lt_is_Some_1; rewrite Hrf, Eqs; eauto).
  rewrite Hrq. split; [apply list_lookup_insert_eq; done|].
  split; [intros p' Hp'; rewrite list_lookup_insert_ne by auto; apply Hrf|].
  split; [|intros t; exact (decided_after _ _ _ _ _ _ _ _ t Ep Hf Hsw)].
  intros t k Ht E Hk Hs Ho He. pose proof (passed_over _ _ _ _ _ _ _ Hsw Ht E Hs Ho He) as Ha. change (priority (started cpu kt)) with (priority kt).
  destruct (in_level s' t k (so_queues _ _ Hok') E Hk (or_introl Hs)) as (lt & Elt & Hin).
  pose proof (q_priority _ (so_queues _ _ Hok') _ _ E) as Hpk. rewrite Hrq in Elt.
  destruct (decide (Z.to_nat (priority k) = p)) as [Hpe | Hne].
  - right. split; [lia|]. rewrite Hpe, list_lookup_insert_eq in Elt by done. injection Elt as <-.
    apply elem_of_app in Hin as [Hin | Hin]; [rewrite (HA t Hin) in Ha; done|]. set_solver.
  - left. rewrite list_lookup_insert_ne in Elt by auto. destruct (decide (p < Z.to_nat (priority k))%nat); [|lia].
    rewrite (Hh (Z.to_nat (priority k)) lt ltac:(lia) Elt t Hin) in Ha. done.
Qed.

(** ** Waiting for a time *)

(** The deadline is never before the delay has passed. *)
Lemma deadline_late us ms :
  0 <= us < UINT64_MOD -> 0 <= ms < UINT64_MOD ->
  time_deadline_ms us ms = UINT64_MAX \/ us + 1000 * ms <= 1000 * time_deadline_ms us ms.
Proof.
  intros Hu Hm. unfold time_deadline_ms. case_if; [auto|]. breflect. right.
  assert (Hn : us <= 1000 * (us / 1000 + b2z (nz (us mod 1000))) /\ 0 <= us / 1000 + b2z (nz (us mod 1000))).
  { unfold nz, b2z. pose proof (Z.div_mod us 1000 ltac:(lia)). pose proof (Z.mod_pos_bound us 1000 ltac:(lia)).
    assert (0 <= us / 1000) by (apply Z.div_pos; lia). case_if; breflect; lia. }
  unfold UINT64_MAX, UINT64_MOD in *. rewrite u64_id by (unfold UINT64_MOD; lia). lia.
Qed.

Lemma prepare_timed_wait_ok us ms s l t k :
  sched_ok s l -> tasks s !! t = Some k -> 0 < ms -> (0 < length (wait_lists s))%nat ->
  ends (ps_prepare_timed_wait us t ms) s (fun _ s1 => exists l1 k1, sched_ok s1 l1 /\ t ∈ l1 /\ cpus s1 = cpus s /\
    tasks s1 = <[t := k1]> (tasks s) /\ status k1 = ps_waiting /\ timer_due_ms k1 = time_deadline_ms us ms).
Proof.
  intros Hok E Hms Hw. unfold ps_prepare_timed_wait. rewrite (proj2 (Z.ltb_lt _ _)) by lia.
  eapply ends_bind, ends_mono; [exact (ends_both _ _ _ _ (arm_ok us ms s t k l (so_timers _ _ Hok) E) (sched_arm us ms s t k l Hok E))|].
  intros [] s1 [(r & A & C & _ & _ & _ & Ha & Es) (l' & k' & Hok1 & _)]. cbv zeta in *.
  set (k1 := set_due (time_deadline_ms us ms) k). assert (E1 : tasks s1 !! t = Some k1) by (subst s1; cbn; apply lookup_insert_eq).
  assert (Hok2 : sched_ok s1 (A ++ t :: C)) by (destruct Hok1; split; done).
  eapply ends_mono; [apply (sched_wait s1 t k1 (A ++ t :: C) None Hok2 E1); subst s1; done|]. intros [] s2 [Hok3 (Et & _ & Ec & _)].
  exists (A ++ t :: C), (to_waiting k1). split; [done|]. split; [set_solver|]. rewrite Et, Ec. subst s1. cbn.
  rewrite insert_insert_eq. done.
Qed.

(** A task that waits for [ms] sleeps until the first scheduling decision,
    on any CPU, at or after a deadline that is not before the delay has
    passed, and that decision makes it ready. *)
Theorem timed_wait_correct us ms s l t k :
  sched_ok s l -> tasks s !! t = Some k -> 0 < ms < UINT64_MOD -> 0 <= us < UINT64_MOD -> (0 < length (wait_lists s))%nat ->
  let d := time_deadline_ms us ms in
  (d = UINT64_MAX \/ us + 1000 * ms <= 1000 * d) /\
  ends (ps_prepare_timed_wait us t ms) s (fun _ s1 =>
    forall cpu now prev kp, cpus s1 !! cpu = Some prev -> tasks s1 !! prev = Some kp -> queued kp -> idle_for s1 cpu ->
    ends (task_sched cpu now) s1 (fun _ s2 => exists k2, tasks s2 !! t = Some k2 /\
      if d <=? now then runnable k2 /\ timer_due_ms k2 = 0 else status k2 = ps_waiting /\ timer_due_ms k2 = d)).
Proof.
  intros Hok E Hms Hus Hw d. split; [apply deadline_late; lia|].
  eapply ends_mono; [exact (prepare_timed_wait_ok us ms s l t k Hok E ltac:(lia) Hw)|].
  intros [] s1 (l1 & k1 & Hok1 & Ht & _ & Et & Hs1 & Hd1) cpu now prev kp Ec Ep Hq Hi.
  eapply ends_mono; [exact (sched_decision cpu now s1 l1 prev kp Hok1 Ec Ep Hq Hi)|].
  intros [] s2 (next & kn & _ & _ & _ & _ & _ & Ht2). assert (E1 : tasks s1 !! t = Some k1) by (rewrite Et; apply lookup_insert_eq).
  destruct (Ht2 t k1 Ht E1) as (k2 & E2 & H2). exists k2. split; [done|]. rewrite Hd1 in H2. fold d in H2.
  destruct (d <=? now); destruct H2 as [Ha Hb]; [|auto]. split; [|done]. destruct Hb as [Hb | Hb]; [congruence | done].
Qed.

(** ** Fairness *)

(** The tasks chosen from one level by successive decisions. *)
Fixpoint picks (avs : list (Z -> bool)) (l : list Z) : list Z :=
  match avs with
  | [] => []
  | avail :: avs =>
      match ps_get_available_ready_task avail l with
      | Some (t, l') => t :: picks avs l'
      | None => picks avs l
      end
  end.

(** C38: within a level the choice is round robin: a task with [n] others
    before it is among the next [n + 1] tasks chosen, as long as it is
    eligible, whatever the others are. *)
Theorem round_robin avs l n t :
  l !! n = Some t -> Forall (fun avail => avail t = true) avs -> (n < length avs)%nat -> t ∈ picks avs l.
Proof.
  revert l n. induction avs as [|avail avs IH]; intros l n El Hav Hn; [cbn in Hn; lia|].
  apply Forall_cons in Hav as [Ha Hav]. cbn [picks]. unfold ps_get_available_ready_task.
  destruct (scan avail [] l) as [[x l']|] eqn:Es.
  - apply scan_some in Es as (A & C & -> & HA & Hx & ->). cbn [rev app]. destruct (decide (x = t)) as [-> | Hne]; [left|].
    right. apply lookup_app_Some in El as [El | [Hlen El]].
    { apply list_elem_of_lookup_2 in El. rewrite (HA t El) in Ha. discriminate. }
    destruct (n - length A)%nat as [|m] eqn:Em; cbn in El; [congruence|].
    apply (IH _ (length A + m)%nat); [|done | cbn in Hn; lia].
    rewrite lookup_app_r by lia. replace (length A + m - length A)%nat with m by lia. apply lookup_app_l_Some. done.
  - apply list_elem_of_lookup_2 in El. rewrite (scan_none _ _ _ Es t El) in Ha. discriminate.
Qed.

(** ** Two CPUs, five tasks: one runs, one is ready, one sleeps until 100 *)

Module Demo.
Definition idle (cpu : Z) (st : ps_status) (on : Z) : task := Task st ps_idle (cpu + 1) on 0 false 0 cpu false 0.
Definition user (pid : Z) (st : ps_status) (on due : Z) : task := Task st 1 pid on 0 false 0 0 false due.
Definition demo_tasks : list (Z * task) :=
  [(4, idle 0 ps_ready 0); (8, idle 1 ps_running 2); (12, user 10 ps_running 1 0); (16, user 11 ps_ready 0 0);
   (20, user 12 ps_waiting 0 100)].
Definition demo : sched :=
  Sched (list_to_map demo_tasks) [[4; 8]; [16; 12]; []] [[20]; []]
    (RbMem (list_to_map [(4, RbNode 4 0 0); (8, RbNode 8 0 0); (12, RbNode 12 0 0); (16, RbNode 16 0 0); (20, RbNode 1 0 0)]) 20)
    [12; 8].

Lemma demo_task t k : tasks demo !! t = Some k -> (t, k) ∈ demo_tasks.
Proof. apply elem_of_list_to_map_2. Qed.
Ltac each_task E := apply demo_task in E; repeat (apply elem_of_cons in E as [E | E]; [injection E as -> -> |]); [..|inversion E].

Lemma demo_level p q t : ready_queue demo !! p = Some q -> t ∈ q <-> at_level (tasks demo) p t.
Proof.
  intros Eq. split.
  - intros Ht. destruct p as [|[|[|p]]]; cbn in Eq; simplify_eq; try (inversion Eq; fail).
    + repeat (apply elem_of_cons in Ht as [-> | Ht]); [eexists; split; [vm_compute; reflexivity|]; split_and!; try done; unfold runnable; cbn; auto..|inversion Ht].
    + repeat (apply elem_of_cons in Ht as [-> | Ht]); [eexists; split; [vm_compute; reflexivity|]; split_and!; try done; unfold runnable; cbn; auto..|inversion Ht].
    + inversion Ht.
  - intros (k & E & _ & Hr & Hp). unfold runnable in Hr. each_task E; cbn in Hr, Hp; destruct Hr as [Hr | Hr]; try discriminate;
      destruct p as [|[|p]]; try (cbn in Hp; unfold ps_idle in Hp; lia); cbn in Eq; simplify_eq; set_solver.
Qed.

Lemma demo_asleep t : t ∈ concat (wait_lists demo) <-> asleep (tasks demo) t.
Proof.
  split.
  - intros ->%list_elem_of_singleton. eexists. split; [vm_compute; reflexivity|]. split; [done | left; done].
  - intros (k & E & _ & Hw). unfold blocked in Hw. each_task E; cbn in Hw; destruct Hw; try discriminate. cbn. set_solver.
Qed.

Lemma demo_sched_ok : sched_ok demo [20].
Proof.
  split; [split | split; [split|] | split].
  - done.
  - apply demo_level.
  - apply demo_asleep.
  - intros [|[|[|p]]] q Eq; cbn in Eq; simplify_eq; try (apply (bool_decide_unpack _); vm_compute; done).
  - apply (bool_decide_unpack _). vm_compute. done.
  - intros t k E. each_task E; (split; [discriminate | reflexivity]).
  - exists (T B E 20 E). split; [|split; [split; [done | exists 1%nat; repeat constructor] | done]].
    split; [vm_compute; done | done | apply (bool_decide_unpack _); vm_compute; done | | done]. cbn. repeat constructor; cbn; lia || done.
  - repeat constructor.
  - intros n nd Hn Hl. apply elem_of_list_to_map_2 in Hn. 
    repeat (apply elem_of_cons in Hn as [Hn | Hn]; [injection Hn as -> -> |]); [| | | |exfalso; apply Hl; left | inversion Hn]; exists R; done.
  - intros n [nd Hn]. apply elem_of_list_to_map_2 in Hn.
    repeat (apply elem_of_cons in Hn as [Hn | Hn]; [injection Hn as -> -> |]); [..|inversion Hn]; (split; [split; [lia | done] | lia]).
  - intros t. split; intros [x Hx].
    + apply elem_of_list_to_map_2 in Hx.
      repeat (apply elem_of_cons in Hx as [Hx | Hx]; [injection Hx as -> -> |]); [..|inversion Hx]; vm_compute; eauto.
    + each_task Hx; vm_compute; eauto.
  - intros [|[|c]] t Ec; cbn in Ec; simplify_eq; eexists; (split; [vm_compute; reflexivity | done]).
  - intros t k E Ho. each_task E; cbn in Ho; try done; [exists 1%nat | exists 0%nat]; done.
  - intros t k E Hr. each_task E; cbn in *; congruence || lia.
Qed.

Lemma demo_idle : idle_for demo 0.
Proof. exists 4. eexists. split; [vm_compute; reflexivity|]. split_and!; try done. left. done. Qed.

Lemma demo_queued : queued (user 10 ps_running 1 0).
Proof. done. Qed.

Lemma scheduler_invariant_witness :
  ends (perform_all [TimedWait 0 5000 20; Wake 20]) demo (fun _ s' => exists l', sched_ok s' l').
Proof.
  eapply ends_mono; [apply (scheduler_invariant demo [20] [TimedWait 0 5000 20; Wake 20] demo_sched_ok)|].
  - split; [cbn; lia|]. intros s' Hs'. split; [|done]. vm_compute in Hs'. injection Hs' as <-. vm_compute. eauto.
  - intros x s' [H _]. exact H.
Defined.

Lemma task_sched_correct_witness :
  ends (task_sched 0 100) demo (fun _ s' => exists next kn, cpus s' = <[0%nat := next]> [12; 8] /\
    tasks s' !! next = Some kn /\ status kn = ps_running).
Proof.
  eapply ends_mono; [apply (task_sched_correct 0 100 demo [20] 12 (user 10 ps_running 1 0) demo_sched_ok eq_refl eq_refl demo_queued demo_idle)|].
  intros x s' (next & kn & p & q & A & B & H1 & H2 & H3 & _). exists next, kn. exact (conj H1 (conj H2 H3)).
Defined.

Lemma timed_wait_correct_witness : time_deadline_ms 5500 20 = UINT64_MAX \/ 5500 + 1000 * 20 <= 1000 * time_deadline_ms 5500 20.
Proof.
  apply (timed_wait_correct 5500 20 demo [20] 12 (user 10 ps_running 1 0) demo_sched_ok eq_refl);
    [unfold UINT64_MOD; lia | unfold UINT64_MOD; lia | cbn; lia].
Defined.

Lemma round_robin_witness : 16 ∈ picks [fun t => t =? 16; fun _ => true] [12; 16].
Proof. apply (round_robin _ [12; 16] 1 16 eq_refl); [repeat constructor | cbn; lia]. Defined.
End Demo.
