(* ===== verification/VmMap.v ===== *)
(** * The memory map of a process

    Model of src/mm/impl/mmap.c and src/mm/mmap.h: the tree of mapped regions
    of an address space, its queries, and the operations that add, split,
    remove, extend, re-protect and flush mappings, up to the handlers of
    mmap(2) and munmap(2).

    An address space is one [mm_struct]; [kstate] is what the operations
    touch outside of it: the page table of the running task, the dirty bits of
    its pages, the reference counts of files, anonymous identities and fault
    locks, and the pages written back.  The locks that serialise a mapping
    transaction are held for whole operations and are not part of the state.
    Pointers to files and fault locks are integers, 0 being NULL.  An
    operation returns [None] where the code would use a released object. *)

From S2P Require Import Prelude.

(** ** Constants (src/mm/mm.h, src/config.h, src/fs/fs.h) *)

Definition PROT_WRITE : Z := 2.
Definition PROT_EXEC : Z := 4.
Definition PROT_NONE : Z := 0.
Definition MAP_SHARED : Z := 1.
Definition MAP_FIXED : Z := 16.
Definition MAP_ANONYMOUS : Z := 32.
Definition VM_REGION_F_DIRECT_PHYS : Z := 1.
Definition USER_STACK_PAGES : Z := 4096.
Definition PAGE_ENTRY_WRITABLE : Z := 2.
Definition PAGE_ENTRY_DPL_USER : Z := 4.
Definition MAX_FD : Z := 1024.
Definition O_PATH : Z := 2097152.
Definition S_IFMT : Z := 61440.
Definition S_IFREG : Z := 32768.
Definition S_IFCHR : Z := 8192.

(** src/device/devnode.h: MKDEV(1, 1) *)
Definition DEV_MEM_RDEV : Z := 257.

(** The machine: width of an address, bounds of the user range. *)
Class Arch := {
  vaddr_mod : Z;
  MOS_NATIVE_TASK_SIZE : Z;
  MOS_COMPAT_TASK_SIZE : Z;
  TASK_UNMAPPED_BASE : Z;
  PHYMM_ADDRESS_LIMIT : Z;
  PAGE_ENTRY_NO_EXEC : Z;
  arch_mm_user_range_valid : Z -> Z -> bool
}.

Definition x86_arch : Arch := {|
  vaddr_mod := 2 ^ 32;
  MOS_NATIVE_TASK_SIZE := 0xC0000000;
  MOS_COMPAT_TASK_SIZE := 0xC0000000;
  TASK_UNMAPPED_BASE := 0x40000000;
  PHYMM_ADDRESS_LIMIT := 0x100000000;
  PAGE_ENTRY_NO_EXEC := 0;
  arch_mm_user_range_valid address length :=
    negb ((0xC0000000 <=? address) || (0xC0000000 - address <? length))
|}.

Definition x64_arch : Arch := {|
  vaddr_mod := 2 ^ 64;
  MOS_NATIVE_TASK_SIZE := 0x800000000000;
  MOS_COMPAT_TASK_SIZE := 0xC0000000;
  TASK_UNMAPPED_BASE := 0x40000000;
  PHYMM_ADDRESS_LIMIT := 0x2000000000;
  PAGE_ENTRY_NO_EXEC := 0x80000000;
  arch_mm_user_range_valid address length :=
    if (0x800000000000 <=? address) || (0x800000000000 - address <? length) then false
    else if (address <? 0x100000000) && (0xC0000000 <? address + length) then false
    else true
|}.

(** ** Files, as far as a mapping looks at them *)

Record inode := Inode {
  i_mode : Z; i_ino : Z; i_private : Z; i_pgcache_tag : Z;
  i_phys_size : Z; i_phys_base : Z; i_phys_user : bool
}.
Record file := File {
  f_inode : option inode; f_mode : Z; f_flag : Z;
  fop_map_page : bool; fop_write_page : bool; fop_mmap_file : bool
}.

(** What the rest of the kernel answers: the file behind a pointer, and the
    outcome of the calls made on it. *)
Class Files := {
  file_of : Z -> file;
  fs_file_readonly : Z -> bool;
  write_page : Z -> Z -> Z -> bool;
  ext4_fseek : Z -> Z -> bool;
  ext4_fwrite : Z -> Z -> Z -> bool;
  (** result, new offset and backing file of f_fop->mmap_file() *)
  mmap_file : Z -> Z -> Z -> Z -> Z -> Z * Z * Z;
  (** a frame of the page array that is not reserved *)
  frame_ordinary : Z -> bool
}.

(** ** State *)

Record vm_region := Region {
  begin : Z; end_ : Z; prot : Z; flag : Z; vm_flags : Z;
  fault_lock : Z; fp : Z; offset : Z; anon_id : Z
}.

(** The nodes of a red-black tree with their colours; the links to the
    parents are those of the shape. *)
Inductive tree := Leaf | Node (red : bool) (rb_left : tree) (r : vm_region) (rb_right : tree).

Fixpoint inorder (t : tree) : list vm_region :=
  match t with Leaf => [] | Node _ l r rt => inorder l ++ r :: inorder rt end.

(** src/lib/impl/rbtree.c after the link of the node of a new region, and its
    removal of the node of a region. *)
Class RbTree := {
  rb_insert_color : tree -> vm_region -> tree;
  rb_erase : tree -> vm_region -> tree
}.

Record mm_struct := Mm {
  vma_index : tree; vma_generation : Z; mmap_base : Z; task_size : Z
}.

Record pte := Pte { pte_index : Z; pte_flags : Z }.

Record kstate := Kst {
  ptes : gmap Z pte;
  dirty : gset Z;
  file_refs : gmap Z Z;
  anon_refs : gmap Z Z;
  lock_refs : gmap Z Z;
  next_lock : Z;
  g_anon_id_next : Z;
  written : list (Z * Z * Z)
}.

Definition set_ptes (p : gmap Z pte) (s : kstate) : kstate :=
  Kst p (dirty s) (file_refs s) (anon_refs s) (lock_refs s) (next_lock s)
    (g_anon_id_next s) (written s).
Definition set_file_refs (m : gmap Z Z) (s : kstate) : kstate :=
  Kst (ptes s) (dirty s) m (anon_refs s) (lock_refs s) (next_lock s)
    (g_anon_id_next s) (written s).
Definition set_anon_refs (m : gmap Z Z) (s : kstate) : kstate :=
  Kst (ptes s) (dirty s) (file_refs s) m (lock_refs s) (next_lock s)
    (g_anon_id_next s) (written s).
Definition set_lock_refs (m : gmap Z Z) (s : kstate) : kstate :=
  Kst (ptes s) (dirty s) (file_refs s) (anon_refs s) m (next_lock s)
    (g_anon_id_next s) (written s).

(** ** Reference counts *)

Definition rc (m : gmap Z Z) (k : Z) : Z := default 0 (m !! k).

(** A reference is taken on an object that is held, and dropped from one. *)
Definition ref_get (m : gmap Z Z) (k : Z) : option (gmap Z Z) :=
  if 0 <? rc m k then Some (<[k := rc m k + 1]> m) else None.
Definition ref_put (m : gmap Z Z) (k : Z) : option (gmap Z Z) :=
  if 0 <? rc m k then Some (<[k := rc m k - 1]> m) else None.

Definition fs_get_file (f : Z) (s : kstate) : option kstate :=
  m ← ref_get (file_refs s) f; Some (set_file_refs m s).
Definition fs_put_file (f : Z) (s : kstate) : option kstate :=
  m ← ref_put (file_refs s) f; Some (set_file_refs m s).

(** The first reference to an identity creates its count. *)
Definition mm_anon_shared_get (id : Z) (s : kstate) : option kstate :=
  Some (set_anon_refs (<[id := rc (anon_refs s) id + 1]> (anon_refs s)) s).
Definition mm_anon_shared_put (id : Z) (s : kstate) : option kstate :=
  m ← ref_put (anon_refs s) id; Some (set_anon_refs m s).

Definition lock_get (l : Z) (s : kstate) : option kstate :=
  m ← ref_get (lock_refs s) l; Some (set_lock_refs m s).
Definition lock_put (l : Z) (s : kstate) : option kstate :=
  m ← ref_put (lock_refs s) l; Some (set_lock_refs m s).

Definition vm_fault_lock_new (s : kstate) : Z * kstate :=
  (next_lock s,
   Kst (ptes s) (dirty s) (file_refs s) (anon_refs s)
     (<[next_lock s := 1]> (lock_refs s)) (next_lock s + 1) (g_anon_id_next s) (written s)).

Definition shared_anon (r : vm_region) : bool :=
  nz (Z.land (flag r) MAP_SHARED) && (fp r =? 0) && nz (anon_id r).

(** The references a region holds: its file, its identity, its lock. *)
Definition hold_refs (r : vm_region) (s : kstate) : option kstate :=
  s ← (if nz (fp r) then fs_get_file (fp r) s else Some s);
  s ← (if shared_anon r then mm_anon_shared_get (anon_id r) s else Some s);
  lock_get (fault_lock r) s.
Definition vm_region_free (r : vm_region) (s : kstate) : option kstate :=
  s ← (if nz (fp r) then fs_put_file (fp r) s else Some s);
  s ← (if shared_anon r then mm_anon_shared_put (anon_id r) s else Some s);
  lock_put (fault_lock r) s.

(** ** The tree *)

(** vm_region_compare() of [b1, e1) with [b2, e2). *)
Definition vm_region_compare (b1 e1 b2 e2 : Z) : Z :=
  if e1 <=? b2 then -1 else if e2 <=? b1 then 1 else 0.

Fixpoint tree_find (t : tree) (b e : Z) : option vm_region :=
  match t with
  | Leaf => None
  | Node _ l r rt =>
      let comp := vm_region_compare b e (begin r) (end_ r) in
      if comp <? 0 then tree_find l b e
      else if 0 <? comp then tree_find rt b e
      else Some r
  end.
Definition vm_tree_find (mm : mm_struct) (b e : Z) : option vm_region :=
  tree_find (vma_index mm) b e.

(** The descent of vm_tree_insert(); [None] when a region overlaps. *)
Fixpoint tree_link (t : tree) (n : vm_region) : option tree :=
  match t with
  | Leaf => Some (Node true Leaf n Leaf)
  | Node c l r rt =>
      let comp := vm_region_compare (begin n) (end_ n) (begin r) (end_ r) in
      if comp <? 0 then l' ← tree_link l n; Some (Node c l' r rt)
      else if 0 <? comp then rt' ← tree_link rt n; Some (Node c l r rt')
      else None
  end.

Definition set_index (t : tree) (mm : mm_struct) : mm_struct :=
  Mm t (u32 (vma_generation mm + 1)) (mmap_base mm) (task_size mm).

Definition vm_tree_insert `{RbTree} (mm : mm_struct) (r : vm_region) : mm_struct * bool :=
  match tree_link (vma_index mm) r with
  | Some t => (set_index (rb_insert_color t r) mm, true)
  | None => (mm, false)
  end.

Definition vm_tree_remove `{RbTree} (mm : mm_struct) (r : vm_region) (s : kstate)
  : option (mm_struct * kstate) :=
  s ← vm_region_free r s; Some (set_index (rb_erase (vma_index mm) r) mm, s).

Fixpoint rb_first (t : tree) : option vm_region :=
  match t with
  | Leaf => None
  | Node _ Leaf r _ => Some r
  | Node _ l _ _ => rb_first l
  end.
(** The successor of a node in address order. *)
Fixpoint rb_next (t : tree) (n : vm_region) : option vm_region :=
  match t with
  | Leaf => None
  | Node _ l r rt =>
      if begin n <? begin r
      then match rb_next l n with Some x => Some x | None => Some r end
      else rb_next rt n
  end.
Definition vm_tree_first (mm : mm_struct) : option vm_region := rb_first (vma_index mm).
Definition vm_tree_next (mm : mm_struct) (r : vm_region) : option vm_region :=
  rb_next (vma_index mm) r.

Fixpoint tree_size (t : tree) : nat :=
  match t with Leaf => 0 | Node _ l _ r => S (tree_size l + tree_size r) end.

Fixpoint destroy_loop `{RbTree} (fuel : nat) (mm : mm_struct) (s : kstate)
  : option (mm_struct * kstate) :=
  match fuel with
  | O => None
  | S f =>
      match vm_tree_first mm with
      | None => Some (mm, s)
      | Some r => '(mm, s) ← vm_tree_remove mm r s; destroy_loop f mm s
      end
  end.
(** One pass per region and one to see the tree empty. *)
Definition vm_tree_destroy `{RbTree} (mm : mm_struct) (s : kstate) :=
  destroy_loop (S (tree_size (vma_index mm))) mm s.

(** The stores of a field of the region that begins at [b]. *)
Fixpoint tree_update (t : tree) (b : Z) (f : vm_region -> vm_region) : tree :=
  match t with
  | Leaf => Leaf
  | Node c l r rt =>
      if begin r =? b then Node c l (f r) rt
      else if b <? begin r then Node c (tree_update l b f) r rt
      else Node c l r (tree_update rt b f)
  end.

Definition vm_create `{Arch} : mm_struct :=
  Mm Leaf 1 TASK_UNMAPPED_BASE MOS_COMPAT_TASK_SIZE.

(** ** Queries *)

Definition page_of (a : Z) : Z := a - a mod PAGE_SIZE.

Definition vm_find_region (mm : mm_struct) (addr : Z) : option vm_region :=
  vm_tree_find mm (page_of addr) (page_of addr + PAGE_SIZE).
Definition vm_find_map (mm : mm_struct) (addr : Z) : option vm_region :=
  vm_find_region mm (page_of addr).

Fixpoint find_vma_from (t : tree) (addr : Z) (candidate : option vm_region) : option vm_region :=
  match t with
  | Leaf => candidate
  | Node _ l r rt =>
      if addr <? begin r then find_vma_from l addr (Some r)
      else if end_ r <=? addr then find_vma_from rt addr candidate
      else Some r
  end.
(** A region of the tree is no pointer here: the source also gives up at a
    node below MOS_NATIVE_TASK_SIZE, which is never a region of the heap. *)
Definition vm_find_vma (mm : mm_struct) (addr : Z) : option vm_region :=
  find_vma_from (vma_index mm) (page_of addr) None.

(** The last-hit cache of a thread.  The cached pointer is the begin of the
    region it points to: a region keeps it as long as it is in the tree. *)
Record execution := Exec {
  mmap_cache : option Z; mmap_cache_vm : bool; mmap_cache_generation : Z
}.
Definition vm_invalidate_task_cache : execution := Exec None false 0.

Fixpoint region_at (t : tree) (b : Z) : option vm_region :=
  match t with
  | Leaf => None
  | Node _ l r rt =>
      if begin r =? b then Some r
      else if b <? begin r then region_at l b else region_at rt b
  end.

(** [None]: the cached pointer is read after its region is freed. *)
Definition vm_find_vma_cached (c : execution) (mm : mm_struct) (addr : Z)
  : option (option vm_region * execution) :=
  let page := page_of addr in
  let slow :=
    let region := vm_find_vma mm page in
    Some (region, Exec (begin <$> region) true (vma_generation mm)) in
  match mmap_cache c with
  | Some p =>
      if mmap_cache_vm c && (mmap_cache_generation c =? vma_generation mm) then
        r ← region_at (vma_index mm) p;
        if (begin r <=? page) && (page <? end_ r) then Some (Some r, c) else slow
      else slow
  | None => slow
  end.
Definition vm_find_map_cached (c : execution) (mm : mm_struct) (addr : Z)
  : option (option vm_region * execution) :=
  '(region, c) ← vm_find_vma_cached c mm addr;
  Some (match region with
        | Some r => if (begin r <=? page_of addr) && (page_of addr <? end_ r) then Some r else None
        | None => None
        end, c).

(** ** Pages *)

(** The first mapped page of [b, e) (arch/*/mm/impl/mm.c walks the levels of
    the page table, skipping the subtrees that are absent). *)
Definition mm_next_mapped_page (p : gmap Z pte) (b e : Z) : Z :=
  if e <=? b then b
  else foldr (fun k m => if (b <=? k) && (k <? m) then k else m) e (map fst (map_to_list p)).

Definition mm_unmap_page (v : Z) (s : kstate) : kstate := set_ptes (delete v (ptes s)) s.

(** A loop over the mapped pages of [b, e) from [vir] on; the fuel is one more
    than the number of mapped pages. *)
Fixpoint page_loop (fuel : nat) (body : Z -> kstate -> kstate) (vir e : Z) (s : kstate)
  : option kstate :=
  match fuel with
  | O => None
  | S f =>
      if vir <? e then
        let s := body vir s in
        page_loop f body (mm_next_mapped_page (ptes s) (vir + PAGE_SIZE) e) e s
      else Some s
  end.
Definition for_mapped (body : Z -> kstate -> kstate) (b e : Z) (s : kstate) : option kstate :=
  page_loop (S (size (ptes s))) body (mm_next_mapped_page (ptes s) b e) e s.

Definition unmap_range (b e : Z) (s : kstate) : option kstate := for_mapped mm_unmap_page b e s.

Section Ops.
Context `{Arch} `{Files} `{RbTree}.

Definition vm_region_flags_for_file (f : Z) : Z :=
  if f =? 0 then 0
  else match f_inode (file_of f) with
       | None => 0
       | Some i =>
           if nz (i_phys_size i) || (u32 (i_private i) =? DEV_MEM_RDEV)
           then VM_REGION_F_DIRECT_PHYS else 0
       end.

Definition clear_dirty (s : kstate) (pi f off vir : Z) (ok : bool) : kstate :=
  Kst (ptes s) (if ok then dirty s ∖ {[ pi ]} else dirty s) (file_refs s) (anon_refs s)
    (lock_refs s) (next_lock s) (g_anon_id_next s)
    (if ok then written s ++ [(f, off, vir)] else written s).

Definition flush_page (r : vm_region) (vir : Z) (s : kstate) : kstate :=
  match ptes s !! vir with
  | None => s
  | Some p =>
      if pte_flags p =? 0 then s
      else if negb (frame_ordinary (pte_index p)) then s
      else if negb (bool_decide (pte_index p ∈ dirty s)) then s
      else
        let off := u64 (offset r + (vir - begin r)) in
        if fop_write_page (file_of (fp r))
        then clear_dirty s (pte_index p) (fp r) off vir (write_page (fp r) off vir)
        else if negb (ext4_fseek (fp r) off) then s
        else clear_dirty s (pte_index p) (fp r) off vir (ext4_fwrite (fp r) off vir)
  end.

Definition vm_flush_dirty_region (r : vm_region) (b e : Z) (s : kstate) : option kstate :=
  if negb (nz (Z.land (flag r) MAP_SHARED)) || (fp r =? 0) then Some s
  else if nz (Z.land (vm_flags r) VM_REGION_F_DIRECT_PHYS) || fop_map_page (file_of (fp r)) then Some s
  else for_mapped (flush_page r) b e s.

(** ** Adding a mapping *)

(** The insertion that ends vm_add_map_with_lock(). *)
Definition insert_region (b e p fl f off id lk : Z) (mm : mm_struct) (s : kstate)
  : option (mm_struct * kstate) :=
  '(lk, s) ← (if lk =? 0 then Some (vm_fault_lock_new s)
              else s ← lock_get lk s; Some (lk, s));
  let region := Region b e p fl (vm_region_flags_for_file f) lk f off id in
  s ← (if nz f then fs_get_file f s else Some s);
  s ← (if shared_anon region then mm_anon_shared_get id s else Some s);
  Some (fst (vm_tree_insert mm region), s).

(** vm_add_map_with_lock(); each unit of fuel is one pass of its loop, the
    passes of the calls for the remnants included. *)
Fixpoint add_map_loop (fuel : nat) (b e p fl f off id lk : Z) (mm : mm_struct) (s : kstate)
  : option (mm_struct * kstate) :=
  match fuel with
  | O => None
  | S n =>
      match vm_tree_find mm b e with
      | None => insert_region b e p fl f off id lk mm s
      | Some o =>
          s ← hold_refs o s;
          let unmap_begin := if b <? begin o then begin o else b in
          let unmap_end := if end_ o <? e then end_ o else e in
          s ← vm_flush_dirty_region o unmap_begin unmap_end s;
          s ← unmap_range unmap_begin unmap_end s;
          '(mm, s) ← vm_tree_remove mm o s;
          '(mm, s) ← (if begin o <? b
                      then add_map_loop n (begin o) b (prot o) (flag o) (fp o) (offset o)
                             (anon_id o) (fault_lock o) mm s
                      else Some (mm, s));
          '(mm, s) ← (if e <? end_ o
                      then add_map_loop n e (end_ o) (prot o) (flag o) (fp o)
                             (u64 (offset o + (e - begin o))) (anon_id o) (fault_lock o) mm s
                      else Some (mm, s));
          s ← vm_region_free o s;
          add_map_loop n b e p fl f off id lk mm s
      end
  end.

(** Every pass removes an overlapping region and none is added: one pass per
    region of the tree and one to insert are enough. *)
Definition vm_add_map_with_lock (b e p fl f off id lk : Z) (mm : mm_struct) (s : kstate) :=
  add_map_loop (S (tree_size (vma_index mm))) b e p fl f off id lk mm s.
Definition vm_add_map (b e p fl f off id : Z) (mm : mm_struct) (s : kstate) :=
  vm_add_map_with_lock b e p fl f off id 0 mm s.
Definition vm_add_map_clone (src : option vm_region) (mm : mm_struct) (s : kstate)
  : option (mm_struct * kstate) :=
  match src with
  | None => Some (mm, s)
  | Some r => vm_add_map_with_lock (begin r) (end_ r) (prot r) (flag r) (fp r) (offset r)
                (anon_id r) (fault_lock r) mm s
  end.

Definition set_end (e : Z) (r : vm_region) : vm_region :=
  Region (begin r) e (prot r) (flag r) (vm_flags r) (fault_lock r) (fp r) (offset r) (anon_id r).
Definition set_prot_flag (p fl : Z) (r : vm_region) : vm_region :=
  Region (begin r) (end_ r) p fl (vm_flags r) (fault_lock r) (fp r) (offset r) (anon_id r).

Definition vm_extend_map (mm : mm_struct) (b old_end new_end : Z) : mm_struct * Z :=
  if (old_end <=? b) || (new_end <=? old_end) then (mm, 0)
  else match vm_find_region mm b with
       | None => (mm, 0)
       | Some r =>
           if negb (begin r =? b) || negb (end_ r =? old_end) then (mm, 0)
           else match vm_tree_find mm old_end new_end with
                | Some _ => (mm, 0)
                | None => (set_index (tree_update (vma_index mm) (begin r) (set_end new_end)) mm, 1)
                end
       end.

(** ** Removing mappings *)

Definition vm_del_map (addr : Z) (mm : mm_struct) (s : kstate) : option (mm_struct * kstate) :=
  match vm_find_region mm (page_of addr) with
  | None => Some (mm, s)
  | Some r =>
      s ← lock_get (fault_lock r) s;
      s ← unmap_range (begin r) (end_ r) s;
      '(mm, s) ← vm_tree_remove mm r s;
      s ← lock_put (fault_lock r) s;
      Some (mm, s)
  end.

Fixpoint munmap_loop (fuel : nat) (b e : Z) (mm : mm_struct) (s : kstate)
  : option (mm_struct * kstate) :=
  match fuel with
  | O => None
  | S n =>
      match vm_tree_find mm b e with
      | None => Some (mm, s)
      | Some r =>
          let unmap_begin := if b <? begin r then begin r else b in
          let unmap_end := if end_ r <? e then end_ r else e in
          s ← vm_flush_dirty_region r unmap_begin unmap_end s;
          s ← unmap_range unmap_begin unmap_end s;
          s ← hold_refs r s;
          '(mm, s) ← vm_tree_remove mm r s;
          '(mm, s) ← (if begin r <? unmap_begin
                      then vm_add_map_with_lock (begin r) unmap_begin (prot r) (flag r) (fp r)
                             (offset r) (anon_id r) (fault_lock r) mm s
                      else Some (mm, s));
          '(mm, s) ← (if unmap_end <? end_ r
                      then vm_add_map_with_lock unmap_end (end_ r) (prot r) (flag r) (fp r)
                             (u64 (offset r + (unmap_end - begin r))) (anon_id r) (fault_lock r) mm s
                      else Some (mm, s));
          s ← vm_region_free r s;
          munmap_loop n b e mm s
      end
  end.

Definition do_munmap (addr length : Z) (c : execution) (mm : mm_struct) (s : kstate)
  : option (Z * execution * mm_struct * kstate) :=
  let b := page_of addr in
  let pages := (length + PAGE_SIZE - 1) mod vaddr_mod / PAGE_SIZE in
  let e := (b + pages * PAGE_SIZE) mod vaddr_mod in
  if (task_size mm <=? b) || (task_size mm - b <? length) then Some (- EINVAL, c, mm, s)
  else if negb (arch_mm_user_range_valid b length) then Some (- EINVAL, c, mm, s)
  else if length =? 0 then Some (0, c, mm, s)
  else '(mm, s) ← munmap_loop (S (tree_size (vma_index mm))) b e mm s;
       Some (0, vm_invalidate_task_cache, mm, s).

(** ** Protection *)

Fixpoint mprotect_loop (fuel : nat) (b e cursor new_prot : Z) (mm : mm_struct) (s : kstate)
  : option (mm_struct * kstate) :=
  match fuel with
  | O => None
  | S n =>
      match vm_find_vma mm cursor with
      | None => Some (mm, s)
      | Some r =>
          if negb (begin r <? e) then Some (mm, s)
          else
            let upd_begin := if b <? begin r then begin r else b in
            let upd_end := if end_ r <? e then end_ r else e in
            s ← hold_refs r s;
            '(mm, s) ← vm_tree_remove mm r s;
            '(mm, s) ← (if begin r <? upd_begin
                        then vm_add_map_with_lock (begin r) upd_begin (prot r) (flag r) (fp r)
                               (offset r) (anon_id r) (fault_lock r) mm s
                        else Some (mm, s));
            '(mm, s) ← vm_add_map_with_lock upd_begin upd_end new_prot (flag r) (fp r)
                         (u64 (offset r + (upd_begin - begin r))) (anon_id r) (fault_lock r) mm s;
            '(mm, s) ← (if upd_end <? end_ r
                        then vm_add_map_with_lock upd_end (end_ r) (prot r) (flag r) (fp r)
                               (u64 (offset r + (upd_end - begin r))) (anon_id r) (fault_lock r) mm s
                        else Some (mm, s));
            s ← vm_region_free r s;
            mprotect_loop n b e upd_end new_prot mm s
      end
  end.
(** One pass per region at or above [b], and one to see the end. *)
Definition vm_mprotect (b e new_prot : Z) (mm : mm_struct) (s : kstate) :=
  mprotect_loop (S (tree_size (vma_index mm))) b e b new_prot mm s.

(** The permission bits do_mmap_update() gives a mapped page. *)
Definition update_flags (r : vm_region) (p mmflag : Z) : Z :=
  if p =? PROT_NONE then Z.ldiff mmflag (Z.lor PAGE_ENTRY_DPL_USER PAGE_ENTRY_WRITABLE)
  else
    let m := if nz PAGE_ENTRY_NO_EXEC
             then if nz (Z.land p PROT_EXEC) then Z.ldiff mmflag PAGE_ENTRY_NO_EXEC
                  else Z.lor mmflag PAGE_ENTRY_NO_EXEC
             else mmflag in
    let m := Z.lor m PAGE_ENTRY_DPL_USER in
    if negb (nz (Z.land p PROT_WRITE)) then Z.ldiff m PAGE_ENTRY_WRITABLE
    else if nz (Z.land (vm_flags r) VM_REGION_F_DIRECT_PHYS) ||
            (nz (Z.land (flag r) MAP_SHARED) && nz (fp r) && fop_map_page (file_of (fp r)))
    then Z.lor m PAGE_ENTRY_WRITABLE
    else m.
Definition update_page (r : vm_region) (p vir : Z) (s : kstate) : kstate :=
  match ptes s !! vir with
  | None => s
  | Some x =>
      if pte_flags x =? 0 then s
      else set_ptes (<[vir := Pte (pte_index x) (update_flags r p (pte_flags x))]> (ptes s)) s
  end.
Definition do_mmap_update (addr p fl : Z) (c : execution) (mm : mm_struct) (s : kstate)
  : option (execution * mm_struct * kstate) :=
  match vm_find_map mm (page_of addr) with
  | None => Some (c, mm, s)
  | Some r =>
      let r' := set_prot_flag p fl r in
      s ← for_mapped (update_page r' p) (begin r) (end_ r) s;
      Some (vm_invalidate_task_cache,
            Mm (tree_update (vma_index mm) (begin r) (set_prot_flag p fl))
              (vma_generation mm) (mmap_base mm) (task_size mm), s)
  end.

(** ** Finding room *)

Fixpoint disc_loop (fuel : nat) (mm : mm_struct) (size : Z) (region : option vm_region)
  (candidate : Z) : option Z :=
  match fuel with
  | O => None
  | S n =>
      match region with
      | Some r =>
          if (candidate + size) mod vaddr_mod <=? begin r then Some candidate
          else disc_loop n mm size (vm_tree_next mm r)
                 (if candidate <? end_ r then end_ r else candidate)
      | None =>
          Some (if (candidate + size) mod vaddr_mod <=? task_size mm - USER_STACK_PAGES * PAGE_SIZE
                then candidate else 0)
      end
  end.
Definition vm_disc_map (mm : mm_struct) (size : Z) : option Z :=
  disc_loop (S (tree_size (vma_index mm))) mm size (vm_tree_first mm) (mmap_base mm).

(** ** mmap *)

Definition do_mmap_kernel (addr len p flags f off : Z) (c : execution) (mm : mm_struct)
  (s : kstate) : option (Z * execution * mm_struct * kstate) :=
  let a := page_of addr in
  let last_addr := page_of ((addr + len - 1) mod vaddr_mod) in
  let page_count := ((last_addr - a) mod vaddr_mod / PAGE_SIZE + 1) mod vaddr_mod in
  let size := page_count * PAGE_SIZE mod vaddr_mod in
  a ← (if nz (Z.land flags MAP_FIXED) then Some a
       else
         let a := if nz a then
                    match vm_tree_find mm a ((a + size) mod vaddr_mod) with
                    | Some _ => 0
                    | None => a
                    end
                  else a in
         if a =? 0 then vm_disc_map mm size else Some a);
  if (a =? 0) || (task_size mm <=? a) || (task_size mm - a <? size) then Some (0, c, mm, s)
  else
    let '(id, s) :=
      if nz (Z.land flags MAP_SHARED) && (f =? 0) then
        let id := u32 (g_anon_id_next s + 1) in
        (id, Kst (ptes s) (dirty s) (file_refs s) (anon_refs s) (lock_refs s) (next_lock s) id
               (written s))
      else (0, s) in
    '(mm, s) ← vm_add_map a (a + size) p flags f off id mm s;
    Some (a, vm_invalidate_task_cache, mm, s).

(** do_mmap(): [fds] is the descriptor table of the task (0 for a free slot)
    and [euid] its effective user. *)
Definition S_ISREG (m : Z) : bool := Z.land m S_IFMT =? S_IFREG.
Definition S_ISCHR (m : Z) : bool := Z.land m S_IFMT =? S_IFCHR.

(** The checks of a descriptor: an error, or the file mapped. *)
Definition mmap_node (fd : Z) (fds : Z -> Z) : Z + Z :=
  if fd =? -1 then inr 0
  else if (fd <? 0) || (MAX_FD <=? fd) || (fds fd =? 0) then inl (- EBADF)
  else match f_inode (file_of (fds fd)) with
       | None => inl (- ENODEV)
       | Some i =>
           if negb (S_ISREG (i_mode i)) && negb (S_ISCHR (i_mode i)) then inl (- ENODEV)
           else inr (fds fd)
       end.

Definition mmap_access (node p flags : Z) : Z :=
  if negb (nz node) then 0
  else match f_inode (file_of node) with
       | None => 0
       | Some i =>
           let f := file_of node in
           if S_ISREG (i_mode i) then
             if f_mode f =? O_WRONLY then - EACCES
             else if nz (Z.land flags MAP_SHARED) && nz (Z.land p PROT_WRITE) then
               if f_mode f =? O_RDONLY then - EACCES
               else if fs_file_readonly node then - EROFS else 0
             else 0
           else 0
       end.

(** The checks of a window of physical memory: an error, or the offset in
    physical memory. *)
Definition mmap_phys (node len p off euid : Z) : Z + Z :=
  if negb (nz node) then inr off
  else match f_inode (file_of node) with
       | None => inr off
       | Some i =>
           let f := file_of node in
           if nz (i_phys_size i) then
             if (negb (i_phys_user i) && nz euid) || nz (Z.land (f_flag f) O_PATH) then inl (- EACCES)
             else
               let e := u64 (off + len) in
               if nz (Z.land (i_phys_base i) (PAGE_SIZE - 1)) || (i_phys_size i <? e) ||
                  (PHYMM_ADDRESS_LIMIT <? u64 (i_phys_base i + e))
               then inl (- EINVAL)
               else if nz (Z.land p PROT_WRITE) && (f_mode f =? O_RDONLY) then inl (- EACCES)
               else inr (u64 (off + i_phys_base i))
           else inr off
       end.

Definition do_mmap (addr len p flags fd off : Z) (fds : Z -> Z) (euid : Z) (c : execution)
  (mm : mm_struct) (s : kstate) : option (Z * execution * mm_struct * kstate) :=
  let anon := nz (Z.land flags MAP_ANONYMOUS) in
  let fd := if anon then -1 else fd in
  let off := if anon then 0 else off in
  if (len =? 0) || (task_size mm <? len) || (task_size mm <=? addr) || (task_size mm - addr <? len)
  then Some (- EINVAL, c, mm, s)
  else if negb (fd =? -1) && ((INT64_MAX <? off) || (INT64_MAX - off <? len))
  then Some (- EINVAL, c, mm, s)
  else if negb (arch_mm_user_range_valid addr len) && nz (Z.land flags MAP_FIXED)
  then Some (- EINVAL, c, mm, s)
  else
    let addr := if arch_mm_user_range_valid addr len then addr else 0 in
    match mmap_node fd fds with
    | inl err => Some (err, c, mm, s)
    | inr node =>
        if mmap_access node p flags <? 0 then Some (mmap_access node p flags, c, mm, s)
        else match mmap_phys node len p off euid with
             | inl err => Some (err, c, mm, s)
             | inr off =>
                 if nz (Z.land (vm_region_flags_for_file node) VM_REGION_F_DIRECT_PHYS) &&
                    ((PHYMM_ADDRESS_LIMIT <=? off) || (PHYMM_ADDRESS_LIMIT - off <? len))
                 then Some (- EINVAL, c, mm, s)
                 else if nz node && fop_mmap_file (file_of node) then
                   let '(result, off, backing) := mmap_file node off len p flags in
                   if result <? 0 then Some (result, c, mm, s)
                   else
                     '(a, c, mm, s) ← do_mmap_kernel addr len p flags backing off c mm s;
                     s ← fs_put_file backing s;
                     Some (a, c, mm, s)
                 else do_mmap_kernel addr len p flags node off c mm s
             end
    end.

(** ** Whole maps *)

Fixpoint dup_loop (fuel : nat) (src : mm_struct) (region : option vm_region) (dst : mm_struct)
  (s : kstate) : option (mm_struct * kstate) :=
  match region with
  | None => Some (dst, s)
  | Some r =>
      match fuel with
      | O => None
      | S n =>
          '(dst, s) ← vm_add_map_clone (Some r) dst s;
          dup_loop n src (vm_tree_next src r) dst s
      end
  end.
Definition vm_dup (src dst : mm_struct) (s : kstate) : option (mm_struct * kstate) :=
  dup_loop (tree_size (vma_index src)) src (vm_tree_first src) dst s.

(** vm_enum() with a callback that acts on the kernel state. *)
Fixpoint enum_loop (fuel : nat) (mm : mm_struct) (fn : vm_region -> kstate -> option kstate)
  (region : option vm_region) (s : kstate) : option kstate :=
  match region with
  | None => Some s
  | Some r =>
      match fuel with
      | O => None
      | S n => s ← fn r s; enum_loop n mm fn (vm_tree_next mm r) s
      end
  end.
Definition vm_enum (mm : mm_struct) (fn : vm_region -> kstate -> option kstate) (s : kstate) :=
  enum_loop (tree_size (vma_index mm)) mm fn (vm_tree_first mm) s.

Definition vm_flush_region_cb (r : vm_region) (s : kstate) : option kstate :=
  vm_flush_dirty_region r (begin r) (end_ r) s.
Definition vm_flush_all_dirty (mm : mm_struct) (s : kstate) : option kstate :=
  vm_enum mm vm_flush_region_cb s.

Definition inode_tag (i : inode) : Z :=
  if nz (i_pgcache_tag i) then i_pgcache_tag i else i_private i.
Definition vm_same_file_identity (left right : Z) : bool :=
  if (left =? 0) || (right =? 0) then false
  else match f_inode (file_of left), f_inode (file_of right) with
       | Some li, Some ri => (inode_tag li =? inode_tag ri) && (i_ino li =? i_ino ri)
       | _, _ => false
       end.
Definition vm_flush_file_region_cb (f : Z) (r : vm_region) (s : kstate) : option kstate :=
  if negb (vm_same_file_identity (fp r) f) then Some s
  else vm_flush_dirty_region r (begin r) (end_ r) s.
Definition vm_flush_file_dirty (mm : mm_struct) (f : Z) (s : kstate) : option kstate :=
  if f =? 0 then Some s else vm_enum mm (vm_flush_file_region_cb f) s.
End Ops.
