(* ===== verification/VmMapTree.v ===== *)
(** * The region tree of an address space

    The order of the regions, the promises of the red-black tree to its
    client, and the meaning of the descents of src/mm/impl/mmap.c in terms of the list of regions. *)

From Stdlib Require Import Sorting.Sorted.
From S2P Require Import Prelude VmMap.

(** ** Well-formed lists of regions *)

Definition before (x y : vm_region) : Prop := end_ x <= begin y.

Definition nonempty (r : vm_region) : Prop := begin r < end_ r.

(** In address order, disjoint, none empty. *)
Definition ordered (l : list vm_region) : Prop :=
  StronglySorted before l /\ Forall nonempty l.

Definition overlaps (b e : Z) (r : vm_region) : Prop := begin r < e /\ b < end_ r.
#[export] Instance overlaps_dec b e r : Decision (overlaps b e r).
Proof. unfold overlaps; apply _. Defined.

Definition contains (a : Z) (r : vm_region) : Prop := begin r <= a < end_ r.
#[export] Instance contains_dec a r : Decision (contains a r).
Proof. unfold contains; apply _. Defined.

(** What src/lib/impl/rbtree.c promises of the trees it balances, [rb_wf]:
    after the link of a node recolouring keeps the order of the nodes, erasing
    removes one node from it, and both leave a balanced tree. *)
Class RbTreeLaws `{RbTree} := {
  rb_wf : tree -> Prop;
  rb_wf_leaf : rb_wf Leaf;
  rb_wf_update t b f : rb_wf t -> rb_wf (tree_update t b f);
  rb_insert_color_ok t n t' :
    rb_wf t -> tree_link t n = Some t' -> ordered (inorder t') ->
    rb_wf (rb_insert_color t' n) /\ inorder (rb_insert_color t' n) = inorder t';
  rb_erase_ok t r l1 l2 :
    rb_wf t -> ordered (inorder t) -> inorder t = l1 ++ r :: l2 ->
    rb_wf (rb_erase t r) /\ inorder (rb_erase t r) = l1 ++ l2
}.

Lemma ordered_app l1 l2 :
  ordered (l1 ++ l2) <->
  ordered l1 /\ ordered l2 /\ (forall x y, x ∈ l1 -> y ∈ l2 -> before x y).
Proof.
  unfold ordered. rewrite Forall_app.
  induction l1 as [|a l1 IH]; cbn [app].
  - split; [intros (? & ? & ?) | intros (? & (? & ?) & ?)]; repeat split; auto;
      try constructor; intros x y Hx; inversion Hx.
  - split.
    + intros (Hs & Hf1 & Hf2). inversion Hs as [|? ? Hs' Ha]; subst.
      inversion Hf1; subst. rewrite Forall_app in Ha. destruct Ha as [Ha1 Ha2].
      destruct IH as [IH _]. destruct IH as ((? & ?) & (? & ?) & Hx); auto.
      repeat split; auto; try (constructor; auto).
      intros x y [-> | Hx1]%elem_of_cons Hy; auto.
      rewrite Forall_forall in Ha2. auto.
    + intros ((Hs & Hf) & (Hs2 & Hf2) & Hx). inversion Hs; inversion Hf; subst.
      destruct IH as [_ IH]. destruct IH as (Hs' & ? & ?); [repeat split; auto|].
      { intros x y Hx1 Hy; apply Hx; auto. right; auto. }
      repeat split; auto. constructor; auto. rewrite Forall_app; split; auto.
      rewrite Forall_forall. intros y Hy; apply Hx; auto. left.
Qed.

Lemma ordered_cons a l :
  ordered (a :: l) <-> nonempty a /\ ordered l /\ (forall y, y ∈ l -> before a y).
Proof.
  change (a :: l) with ([a] ++ l). rewrite ordered_app.
  split.
  - intros ((_ & Ha) & Hl & Hx). inversion Ha; subst.
    repeat split; try apply Hl; auto. intros; apply Hx; auto. left.
  - intros (Ha & Hl & Hx). repeat split; try apply Hl; auto.
    + repeat constructor.
    + intros x y ->%list_elem_of_singleton. auto.
Qed.

Lemma ordered_delete l1 r l2 : ordered (l1 ++ r :: l2) -> ordered (l1 ++ l2).
Proof.
  rewrite !ordered_app, ordered_cons. intros (? & (? & ? & ?) & Hx).
  repeat split; auto; try apply H; try apply H1; intros; apply Hx; auto; right; auto.
Qed.

Lemma ordered_member l r : ordered l -> r ∈ l -> nonempty r.
Proof. intros [_ Hf]; rewrite Forall_forall in Hf; auto. Qed.

(** Two regions of an ordered list that share an address are one. *)
Lemma ordered_disjoint l x y a :
  ordered l -> x ∈ l -> y ∈ l -> contains a x -> contains a y -> x = y.
Proof.
  induction l as [|z l IH]; [intros _ Hx; inversion Hx|].
  rewrite ordered_cons. unfold contains, before. intros (Hz & Hl & Hb).
  rewrite !elem_of_cons. intros [-> | Hx] [-> | Hy] Hc1 Hc2; auto.
  - apply Hb in Hy; lia.
  - apply Hb in Hx; lia.
Qed.

(** The other regions of an ordered list lie beside a region of it. *)
Lemma ordered_beside l o l' r :
  ordered l -> l ≡ₚ o :: l' -> r ∈ l' -> end_ r <= begin o \/ end_ o <= begin r.
Proof.
  intros Ho P Hr. assert (Hi : o ∈ l) by (rewrite P; left).
  apply list_elem_of_split in Hi as (l1 & l2 & ->).
  rewrite <- Permutation_middle in P. apply Permutation_cons_inv in P. rewrite <- P in Hr.
  apply ordered_app in Ho as (_ & H2 & Hx). apply ordered_cons in H2 as (_ & _ & Hb).
  apply elem_of_app in Hr as [Hr | Hr]; [left | right].
  - apply (Hx r o); auto. left.
  - apply Hb; auto.
Qed.

Lemma ordered_begin_inj l x y :
  ordered l -> x ∈ l -> y ∈ l -> begin x = begin y -> x = y.
Proof.
  intros Hl Hx Hy E. apply (ordered_disjoint l x y (begin x)); auto;
    pose proof (ordered_member _ _ Hl Hx); pose proof (ordered_member _ _ Hl Hy);
    unfold contains, nonempty in *; lia.
Qed.

(** ** The descents *)

Lemma elem_of_inorder_node c l r rt x :
  x ∈ inorder (Node c l r rt) <-> x ∈ inorder l \/ x = r \/ x ∈ inorder rt.
Proof. cbn. rewrite elem_of_app, elem_of_cons. tauto. Qed.

Lemma ordered_node c l r rt :
  ordered (inorder (Node c l r rt)) <->
  ordered (inorder l) /\ nonempty r /\ ordered (inorder rt) /\
  (forall x, x ∈ inorder l -> before x r) /\ (forall y, y ∈ inorder rt -> before r y) /\
  (forall x y, x ∈ inorder l -> y ∈ inorder rt -> before x y).
Proof.
  cbn. rewrite ordered_app, ordered_cons. split.
  - intros (? & (? & ? & ?) & Hx). split_and!; auto; intros; apply Hx; auto; [left | right; auto].
  - intros (? & ? & ? & ? & ? & ?). split_and!; auto.
    intros x y ? [-> | ?]%elem_of_cons; auto.
Qed.

Lemma tree_size_inorder t : tree_size t = length (inorder t).
Proof. induction t; cbn; rewrite ?length_app; cbn; lia. Qed.

Ltac comp_cases :=
  unfold vm_region_compare in *; zcases; cbn in *; try discriminate; try lia.

Lemma tree_find_some t b e r : tree_find t b e = Some r -> r ∈ inorder t /\ overlaps b e r.
Proof.
  induction t as [|c l IHl x rt IHr]; cbn [tree_find]; [discriminate|].
  rewrite elem_of_inorder_node. unfold vm_region_compare, overlaps in *.
  repeat (case_if; breflect); try lia; intros; simplify_eq; try (split; [tauto | lia]);
    [destruct IHl | destruct IHr]; tauto.
Qed.

Lemma tree_find_none t b e :
  ordered (inorder t) -> tree_find t b e = None -> forall r, r ∈ inorder t -> ~ overlaps b e r.
Proof.
  induction t as [|c l IHl x rt IHr]; [intros _ _ r Hr; inversion Hr|].
  rewrite ordered_node. intros (Hl & Hx & Hr & Blx & Bxr & _). cbn [tree_find].
  intros E r. rewrite elem_of_inorder_node. unfold overlaps, before, nonempty in *.
  revert E. unfold vm_region_compare. repeat (case_if; breflect); try lia; try discriminate.
  - intros E [Hi | [-> | Hi]]; [apply IHl; auto | lia |]. specialize (Bxr _ Hi); lia.
  - intros E [Hi | [-> | Hi]]; [| lia | apply IHr; auto]. specialize (Blx _ Hi); lia.
Qed.

(** An insertion that meets no overlap puts the region at its place. *)
Lemma tree_link_spec t n :
  ordered (inorder t) -> nonempty n ->
  (forall r, r ∈ inorder t -> ~ overlaps (begin n) (end_ n) r) ->
  exists t', tree_link t n = Some t' /\ inorder t' ≡ₚ n :: inorder t /\ ordered (inorder t').
Proof.
  intros Ho Hn. induction t as [|c l IHl x rt IHr]; intros Hd.
  { exists (Node true Leaf n Leaf). repeat split; auto; repeat constructor; auto. }
  apply ordered_node in Ho. destruct Ho as (Hl & Hx & Hr & Blx & Bxr & Blr).
  assert (Hdx : ~ overlaps (begin n) (end_ n) x) by (apply Hd; cbn; set_solver).
  cbn [tree_link]. unfold vm_region_compare, overlaps, before, nonempty in *.
  repeat (case_if; breflect); try lia.
  - destruct IHl as (t' & -> & P & O); auto. { intros; apply Hd; cbn; set_solver. }
    exists (Node c t' x rt). split; [done|]. split; [cbn; rewrite P; done|].
    apply ordered_node. unfold before. split_and!; auto.
    + intros y Hy. rewrite P in Hy. apply elem_of_cons in Hy as [-> | Hy]; auto.
    + intros y z Hy Hz. rewrite P in Hy. apply elem_of_cons in Hy as [-> | Hy]; auto.
      specialize (Bxr z Hz). lia.
  - destruct IHr as (t' & -> & P & O); auto. { intros; apply Hd; cbn; set_solver. }
    exists (Node c l x t'). split; [done|].
    split. { cbn. rewrite P. rewrite (Permutation_swap n x). symmetry; apply Permutation_middle. }
    apply ordered_node. unfold before. split_and!; auto.
    + intros y Hy. rewrite P in Hy. apply elem_of_cons in Hy as [-> | Hy]; auto.
    + intros y z Hy Hz. rewrite P in Hz. apply elem_of_cons in Hz as [-> | Hz]; auto.
      specialize (Blx y Hy). lia.
Qed.

Lemma rb_first_spec t : rb_first t = head (inorder t).
Proof.
  induction t as [|c l IHl x rt IHr]; [done|]. destruct l as [|d a y b]; [done|].
  change (rb_first (Node c (Node d a y b) x rt)) with (rb_first (Node d a y b)). rewrite IHl. cbn.
  destruct (inorder a); done.
Qed.

Lemma filter_nothing {A} (P : A -> Prop) `{!forall x, Decision (P x)} (l : list A) :
  (forall x, x ∈ l -> ~ P x) -> filter P l = [].
Proof.
  induction l as [|a l IH]; intros Hl; [done|].
  rewrite filter_cons_False by (apply Hl; left). apply IH. intros; apply Hl; right; auto.
Qed.

Lemma filter_everything {A} (P : A -> Prop) `{!forall x, Decision (P x)} (l : list A) :
  (forall x, x ∈ l -> P x) -> filter P l = l.
Proof.
  induction l as [|a l IH]; intros Hl; [done|].
  rewrite filter_cons_True by (apply Hl; left). f_equal. apply IH. intros; apply Hl; right; auto.
Qed.

Lemma rb_next_above t n :
  ordered (inorder t) -> rb_next t n = head (filter (fun x => begin n < begin x) (inorder t)).
Proof.
  induction t as [|c l IHl x rt IHr]; intros Ho; [done|].
  apply ordered_node in Ho as (Hl & Hx & Hr & Blx & Bxr & _).
  cbn [rb_next inorder]. rewrite filter_app. case_if; breflect.
  - rewrite IHl by done. rewrite filter_cons_True by done.
    destruct (filter _ (inorder l)); done.
  - rewrite filter_cons_False, IHr by (done || lia).
    rewrite (filter_nothing _ (inorder l)); [done|].
    intros y Hy. specialize (Blx y Hy).
    pose proof (ordered_member _ _ Hl Hy) as Hny.
    unfold before, nonempty in *; lia.
Qed.

(** The successor of a region is the next one of the list. *)
Lemma rb_next_spec t l1 r l2 :
  ordered (inorder t) -> inorder t = l1 ++ r :: l2 -> rb_next t r = head l2.
Proof.
  intros Ho E. rewrite rb_next_above, E by done. rewrite E in Ho.
  apply ordered_app in Ho as (H1 & H2 & Hx). apply ordered_cons in H2 as (Hr & H2 & Hb).
  rewrite filter_app, filter_cons_False by lia.
  rewrite filter_nothing, filter_everything; [done | |].
  - intros y Hy. specialize (Hb y Hy). unfold before, nonempty in *; lia.
  - intros y Hy. specialize (Hx y r Hy ltac:(left)).
    pose proof (ordered_member _ _ H1 Hy) as Hny.
    unfold before, nonempty in *; lia.
Qed.

(** vm_find_vma(): the region of the address or else the next one above. *)
Lemma find_vma_from_spec t a c :
  ordered (inorder t) ->
  find_vma_from t a c =
    match head (filter (fun x => a < end_ x) (inorder t)) with Some x => Some x | None => c end.
Proof.
  revert c. induction t as [|d l IHl x rt IHr]; intros c Ho; [done|].
  apply ordered_node in Ho as (Hl & Hx & Hr & Blx & Bxr & _).
  cbn [find_vma_from inorder]. rewrite filter_app. unfold nonempty, before in *.
  assert (Hlo : begin x <= a -> filter (fun y => a < end_ y) (inorder l) = []).
  { intros. apply filter_nothing. intros y Hy. specialize (Blx y Hy). lia. }
  repeat (case_if; breflect).
  - rewrite IHl, filter_cons_True by (auto || lia).
    destruct (filter _ (inorder l)); done.
  - rewrite Hlo, filter_cons_False, IHr by (auto || lia). done.
  - rewrite Hlo, filter_cons_True by lia. done.
Qed.

Lemma region_at_spec t r :
  ordered (inorder t) -> r ∈ inorder t -> region_at t (begin r) = Some r.
Proof.
  induction t as [|c l IHl x rt IHr]; intros Ho Hi; [inversion Hi|].
  pose proof Ho as Ho'. apply ordered_node in Ho as (Hl & Hx & Hr & Blx & Bxr & _).
  cbn [region_at]. unfold nonempty, before in *.
  repeat (case_if; breflect).
  - f_equal. eapply ordered_begin_inj; eauto. rewrite elem_of_inorder_node; tauto.
  - apply IHl; auto. apply elem_of_inorder_node in Hi as [? | [-> | Hi]]; auto; [lia|].
    specialize (Bxr r Hi). lia.
  - apply IHr; auto. apply elem_of_inorder_node in Hi as [Hi | [-> | Hi]]; auto; [|lia].
    specialize (Blx r Hi). pose proof (ordered_member _ _ Hl Hi) as Hnr.
    unfold nonempty in *; lia.
Qed.

(** A region has one place in an ordered list. *)
Lemma ordered_split_unique k1 k2 l1 l2 r :
  ordered (k1 ++ r :: k2) -> k1 ++ r :: k2 = l1 ++ r :: l2 -> k1 = l1 /\ k2 = l2.
Proof.
  revert l1. induction k1 as [|y k1 IH]; intros [|z l1] Hk E; cbn in *; simplify_eq; auto.
  - apply ordered_cons in Hk as (Hn & _ & Hb). specialize (Hb z ltac:(set_solver)).
    unfold before, nonempty in *; lia.
  - apply ordered_cons in Hk as (Hn & _ & Hb). specialize (Hb r ltac:(set_solver)).
    unfold before, nonempty in *; lia.
  - apply ordered_cons in Hk as (_ & Hk & _). destruct (IH l1) as [-> ->]; auto.
Qed.

(** Where the descent for a region of the list goes. *)
Lemma split_node c l x rt l1 r l2 :
  ordered (inorder (Node c l x rt)) -> inorder (Node c l x rt) = l1 ++ r :: l2 ->
  (begin x = begin r /\ x = r /\ inorder l = l1 /\ inorder rt = l2) \/
  (begin r < begin x /\ exists k, inorder l = l1 ++ r :: k /\ l2 = k ++ x :: inorder rt) \/
  (begin x < begin r /\ exists k, inorder rt = k ++ r :: l2 /\ l1 = inorder l ++ x :: k).
Proof.
  intros Ho E. assert (Hr0 : r ∈ inorder (Node c l x rt)) by (rewrite E; set_solver).
  pose proof Ho as Ho'. apply ordered_node in Ho as (Hl & Hx & Hr & Blx & Bxr & _).
  cbn [inorder] in *. apply (elem_of_inorder_node c l x rt) in Hr0 as [Hi | [-> | Hi]].
  - right; left. pose proof (ordered_member _ _ Hl Hi). specialize (Blx r Hi).
    unfold nonempty, before in *. split; [lia|].
    apply list_elem_of_split in Hi as (k1 & k2 & Ek). exists k2. rewrite Ek in *.
    rewrite <- app_assoc in *. cbn in *.
    destruct (ordered_split_unique _ _ _ _ _ Ho' E) as [-> <-]. auto.
  - left. destruct (ordered_split_unique _ _ _ _ _ Ho' E) as [-> ->]. auto.
  - right; right. specialize (Bxr r Hi). unfold nonempty, before in *. split; [lia|].
    apply list_elem_of_split in Hi as (k1 & k2 & Ek). exists k1. rewrite Ek in *.
    change (inorder l ++ x :: k1 ++ r :: k2) with (inorder l ++ (x :: k1) ++ r :: k2) in *.
    rewrite app_assoc in *. destruct (ordered_split_unique _ _ _ _ _ Ho' E) as [<- ->]. auto.
Qed.

(** A store in the region that begins at [b] touches that region alone. *)
Lemma tree_update_spec t l1 r l2 f :
  ordered (inorder t) -> inorder t = l1 ++ r :: l2 ->
  inorder (tree_update t (begin r) f) = l1 ++ f r :: l2.
Proof.
  revert l1 l2. induction t as [|c l IHl x rt IHr]; intros l1 l2 Ho E; [destruct l1; discriminate|].
  pose proof Ho as Ho'. apply ordered_node in Ho' as (Hl & _ & Hr & _).
  cbn [tree_update].
  destruct (split_node _ _ _ _ _ _ _ Ho E) as [(B & -> & <- & <-) | [(B & k & Ek & ->) | (B & k & Ek & ->)]].
  - rewrite Z.eqb_refl. done.
  - rewrite (proj2 (Z.eqb_neq _ _)), (proj2 (Z.ltb_lt _ _)) by lia. cbn [inorder].
    rewrite (IHl l1 k), <- app_assoc by auto. done.
  - rewrite (proj2 (Z.eqb_neq _ _)), (proj2 (Z.ltb_ge _ _)) by lia. cbn [inorder].
    rewrite (IHr k l2), <- app_assoc by auto. done.
Qed.
