(* ===== verification/VmMapRb.v ===== *)
(** * The region tree on the red-black trees of the kernel

    The index of an address space is a tree of src/lib/impl/rbtree.c: the
    interface the memory map is verified against is discharged here by the
    programs of RbTree.v.  A tree of regions is laid out in memory, the
    program runs, and the tree is read back. *)

From S2P Require Import Prelude RbTree RbTreeInv RbTreeProof RbTreeErase VmMap VmMapTree.

(** ** Layout: the nodes in order at 4, 8, 12, ... *)

Definition color_is (red : bool) : color := if red then R else B.
Definition slot (i : nat) : Z := 4 * (Z.of_nat i + 1).
Fixpoint lay (t : tree) (i : nat) : rbt :=
  match t with
  | Leaf => E
  | Node c l _ r =>
      let j := (i + tree_size l)%nat in T (color_is c) (lay l i) (slot j) (lay r (S j))
  end.
Definition memory_of (t : rbt) : rb_mem := RbMem (store 0 t ∅) (addr t).

(** Back from memory: the tree at an address, 0 being NULL. *)
Fixpoint read (fuel : nat) (m : gmap Z rb_node) (a : Z) : rbt :=
  match fuel with
  | O => E
  | S f =>
      if negb (nz a) then E else
      match m !! a with
      | Some n => T (if nz (color_of n) then B else R) (read f m (rb_left n)) a (read f m (rb_right n))
      | None => E
      end
  end.
Fixpoint label (region : Z -> vm_region) (t : rbt) : tree :=
  match t with
  | E => Leaf
  | T c l a r => Node (negb (is_black c)) (label region l) (region a) (label region r)
  end.

(** The region of a slot, and the slot of a region. *)
Definition region_of (l : list vm_region) (a : Z) : vm_region :=
  nth (Z.to_nat (a / 4 - 1)) l (Region 0 0 0 0 0 0 0 0 0).
Definition slot_of (l : list vm_region) (r : vm_region) : Z :=
  slot (length (filter (fun x => begin x < begin r) l)).

(** What a program that gets stuck leaves: a tree that is not balanced, so
    that nothing lawful hides the failure. *)
Definition broken : tree :=
  let r := Region 0 0 0 0 0 0 0 0 0 in Node false Leaf r (Node false Leaf r Leaf).
Definition run_on (prog : M unit) (t : tree) : tree :=
  match prog (memory_of (lay t 0)) with
  | Some (_, s) => label (region_of (inorder t)) (read (fuel_of s) (nodes s) (root s))
  | None => broken
  end.

#[export] Instance kernel_rbtree : VmMap.RbTree := {
  rb_insert_color t r := run_on (RbTree.rb_insert_color (slot_of (inorder t) r)) t;
  rb_erase t r := run_on (RbTree.rb_erase (slot_of (inorder t) r)) t
}.

(** ** Layout and back *)

Lemma store_other p t m a : a ∉ RbTreeInv.inorder t -> store p t m !! a = m !! a.
Proof.
  revert p m. induction t as [|c l IHl b r IHr]; intros p m Ha; [done|]. cbn in Ha. apart Ha.
  cbn. rewrite lookup_insert_ne by auto. rewrite IHl, IHr by done. done.
Qed.

Lemma rep_store p t m : NoDup (RbTreeInv.inorder t) -> rep (store p t m) p t.
Proof.
  revert p m. induction t as [|c l IHl a r IHr]; intros p m Hn; [done|]. apart Hn. cbn. split_and!.
  - apply lookup_insert_eq.
  - apply (rep_frame (store a l (store a r m))); [|auto]. intros x Hx. apply lookup_insert_ne. dis.
  - apply (rep_frame (store a r m)); [|auto]. intros x Hx. rewrite lookup_insert_ne by dis. apply store_other. away.
Qed.

Lemma lay_inorder t i : RbTreeInv.inorder (lay t i) = slot <$> seq i (tree_size t).
Proof.
  revert i. induction t as [|c l IHl x r IHr]; intros i; [done|]. cbn [lay RbTreeInv.inorder tree_size]. rewrite IHl, IHr.
  replace (S (tree_size l + tree_size r)) with (tree_size l + S (tree_size r))%nat by lia.
  rewrite seq_app, fmap_app. done.
Qed.

Lemma lay_good t i : good (RbTreeInv.inorder (lay t i)).
Proof.
  rewrite lay_inorder. apply Forall_fmap, Forall_forall. intros j _. unfold slot, RbTreeInv.aligned. cbn. split; [|lia].
  split; [lia|]. rewrite Z.mul_comm. apply Z.mod_mul. lia.
Qed.

Lemma lay_in t : tree_in (memory_of (lay t 0)) (lay t 0).
Proof.
  assert (Hn : NoDup (RbTreeInv.inorder (lay t 0))).
  { rewrite lay_inorder. apply NoDup_fmap_2; [|apply NoDup_seq]. intros x y. unfold slot. lia. }
  split; cbn [RbTreeInv.kaddrs]; rewrite ?app_nil_r; try done; [apply rep_store; done | apply lay_good].
Qed.

Lemma read_rep m p t fuel :
  rep m p t -> good (RbTreeInv.inorder t) -> RbTreeInv.aligned p -> (length (RbTreeInv.inorder t) < fuel)%nat -> read fuel m (addr t) = t.
Proof.
  revert p fuel. induction t as [|c l IHl a r IHr]; intros p fuel Hr Hg Hp Hf; (destruct fuel as [|fuel]; [lia|]); [done|].
  cbn [read]. rewrite nz_addr by done. cbn [negb addr]. cbn in Hr, Hg, Hf. destruct Hr as (Ea & Hl & Hr).
  rewrite Forall_app, Forall_cons in Hg. destruct Hg as (Hgl & [Ha _] & Hgr). rewrite length_app in Hf. cbn in Hf.
  rewrite Ea. unfold color_of. cbn [rb_parent_color rb_left rb_right]. rewrite pack_color by done.
  rewrite (IHl a), (IHr a) by (done || lia). destruct c; done.
Qed.

Lemma label_inorder f t : inorder (label f t) = f <$> RbTreeInv.inorder t.
Proof. induction t as [|c l IHl a r IHr]; cbn; [done|]. rewrite IHl, IHr, fmap_app. done. Qed.

Lemma region_slot l i : region_of l (slot i) = nth i l (Region 0 0 0 0 0 0 0 0 0).
Proof.
  unfold region_of, slot. rewrite (Z.mul_comm 4), Z.div_mul by lia. f_equal. lia.
Qed.

Lemma region_slots l : (region_of l <$> (slot <$> seq 0 (length l))) = l.
Proof.
  rewrite <- list_fmap_compose. apply list_eq. intros n. rewrite list_lookup_fmap. destruct (decide (n < length l)%nat) as [Hn | Hn].
  - rewrite lookup_seq_lt by done. cbn. rewrite region_slot, nth_lookup. destruct (lookup_lt_is_Some_2 l n Hn) as [x ->]. done.
  - rewrite !lookup_ge_None_2 by (rewrite ?length_seq; lia). done.
Qed.

(** The labels of a tree over the slots of [t] are the regions of [t]. *)
Lemma regions_of_slots t u A B :
  RbTreeInv.inorder (lay t 0) = A ++ u ++ B -> exists l1 l2,
  inorder t = l1 ++ (region_of (inorder t) <$> u) ++ l2 /\
  (region_of (inorder t) <$> A) = l1 /\ (region_of (inorder t) <$> B) = l2.
Proof.
  rewrite lay_inorder, tree_size_inorder. intros Ei. eexists _, _. split; [|done].
  rewrite <- !fmap_app, <- Ei, region_slots. done.
Qed.

(** The shape decides on the balance. *)
Lemma lay_col t i j : col (lay t i) = col (lay t j).
Proof. destruct t; done. Qed.
Lemma lay_bal t i j n : bal (lay t i) n -> bal (lay t j) n.
Proof.
  revert i j n. induction t as [|c l IHl x r IHr]; intros i j n Hb; cbn in *; [inversion Hb; constructor|].
  inversion Hb; subst; [apply bal_R; eauto; erewrite lay_col; eauto | apply bal_B; eauto].
Qed.
Lemma label_col f t i : col (lay (label f t) i) = col t.
Proof. destruct t as [|[] ? ? ?]; done. Qed.
Lemma label_bal f t i n : bal t n -> bal (lay (label f t) i) n.
Proof.
  intros Hb. revert i. induction Hb; intros i; cbn; [constructor | |]; constructor; auto; rewrite label_col; done.
Qed.
Lemma update_size t b f : tree_size (tree_update t b f) = tree_size t.
Proof. induction t as [|c l IHl x r IHr]; cbn; [done|]. repeat case_if; cbn; rewrite ?IHl, ?IHr; done. Qed.
Lemma update_lay t b f i : lay (tree_update t b f) i = lay t i.
Proof.
  revert i. induction t as [|c l IHl x r IHr]; intros i; cbn; [done|].
  repeat case_if; cbn; rewrite ?update_size, ?IHl, ?IHr; done.
Qed.

(** The link of a new region, as a red leaf in its context. *)
Lemma link_lay t n t' i :
  tree_link t n = Some t' -> exists k l1 l2,
  lay t' i = plug k (T R E (slot (i + length l1)) E) /\ inorder t' = l1 ++ n :: l2 /\
  col (plug k E) = col (lay t i) /\ forall m, bal (lay t i) m -> bal (plug k E) m.
Proof.
  revert t' i. induction t as [|c l IHl x r IHr]; intros t' i Hl; cbn in Hl.
  { simplify_eq. exists [], [], []. cbn. rewrite Nat.add_0_r. auto. }
  repeat case_if; try discriminate.
  - destruct (tree_link l n) as [l'|] eqn:El; [|discriminate]. cbn in Hl. simplify_eq.
    destruct (IHl l' i eq_refl) as (k & l1 & l2 & Ek & Ei & Ec & Hb).
    exists (k ++ [FL (color_is c) (slot (i + tree_size l')) (lay r (S (i + tree_size l')))]), l1, (l2 ++ x :: inorder r).
    cbn [lay inorder]. rewrite !plug_app, Ek, Ei, <- app_assoc. split_and!; try done. cbn.
    intros m Hm. inversion Hm; subst; [apply bal_R; eauto using lay_bal; [congruence | erewrite lay_col; eauto] | apply bal_B; eauto using lay_bal].
  - destruct (tree_link r n) as [r'|] eqn:Er; [|discriminate]. cbn in Hl. simplify_eq.
    destruct (IHr r' (S (i + tree_size l)) eq_refl) as (k & l1 & l2 & Ek & Ei & Ec & Hb).
    exists (k ++ [FR (color_is c) (lay l i) (slot (i + tree_size l))]), (inorder l ++ x :: l1), l2.
    cbn [lay inorder]. rewrite !plug_app, Ek, Ei, <- app_assoc. split_and!; try done.
    + cbn [plug fill]. rewrite length_app, <- tree_size_inorder. cbn [length].
      replace (i + (tree_size l + S (length l1)))%nat with (S (i + tree_size l) + length l1)%nat by lia. done.
    + cbn. intros m Hm. inversion Hm; subst; [apply bal_R; eauto; congruence | apply bal_B; eauto].
Qed.

Lemma slot_of_split l1 r l2 : ordered (l1 ++ r :: l2) -> slot_of (l1 ++ r :: l2) r = slot (length l1).
Proof.
  intros Ho. apply ordered_app in Ho as (H1 & H2 & Hx). apply ordered_cons in H2 as (Hr & H2 & Hb).
  unfold slot_of. rewrite filter_app, filter_cons_False by lia. rewrite filter_everything, filter_nothing, app_nil_r; [done | |].
  - intros y Hy. specialize (Hb y Hy). unfold before, nonempty in *; lia.
  - intros y Hy. specialize (Hx y r Hy ltac:(left)).
    pose proof (ordered_member _ _ H1 Hy) as Hny. unfold before, nonempty in *; lia.
Qed.

(** ** Programs on a laid out tree *)

Lemma run_on_ok prog t (P : list Z -> Prop) :
  ends prog (memory_of (lay t 0))
    (fun _ s' => exists u, holds (nodes (memory_of (lay t 0))) s' [] u /\ wf u /\ P (RbTreeInv.inorder u)) ->
  exists u, run_on prog t = label (region_of (inorder t)) u /\ wf u /\ P (RbTreeInv.inorder u).
Proof.
  intros ([] & s' & E1 & u & Hs & Hw & Hp). exists u. split; [|done]. unfold run_on. rewrite E1. f_equal.
  assert (root s' = addr u) as -> by exact (h_ctx _ _ _ _ Hs). apply (read_rep _ 0).
  - apply (h_tree _ _ _ _ Hs).
  - apply (focus_good _ _ _ _ Hs).
  - done.
  - pose proof (holds_size _ _ _ _ Hs) as Hz. rewrite length_app in Hz. unfold fuel_of. lia.
Qed.

Lemma label_wf f u : wf u -> wf (lay (label f u) 0).
Proof. intros (Hc & n & Hb). split; [rewrite label_col; done | exists n; apply label_bal; done]. Qed.

Section Discharge.
Variables (t : tree) (r : vm_region) (l1 l2 : list vm_region).
Hypotheses (Ho : ordered (inorder t)) (Et : inorder t = l1 ++ r :: l2).

(** The slots around the one of [r]. *)
Lemma slots_around A C :
  RbTreeInv.inorder (lay t 0) = A ++ slot_of (inorder t) r :: C ->
  (region_of (inorder t) <$> A) = l1 /\ region_of (inorder t) (slot_of (inorder t) r) = r /\
  (region_of (inorder t) <$> C) = l2.
Proof.
  intros Ei. assert (Er : region_of (inorder t) (slot_of (inorder t) r) = r).
  { rewrite Et in *. rewrite slot_of_split, region_slot by done. apply nth_middle. }
  rewrite lay_inorder, tree_size_inorder in Ei.
  assert (Es : inorder t = (region_of (inorder t) <$> A) ++ r :: (region_of (inorder t) <$> C)).
  { rewrite <- (region_slots (inorder t)) at 1. rewrite Ei, fmap_app. cbn. rewrite Er. done. }
  rewrite Es in Ho. rewrite Et in Es at 1. symmetry in Es.
  destruct (ordered_split_unique _ _ _ _ _ Ho Es) as [-> ->]. done.
Qed.
End Discharge.

Definition tree_wf (t : tree) : Prop := wf (lay t 0).

Lemma kernel_insert_color t n t' :
  tree_wf t -> tree_link t n = Some t' -> ordered (inorder t') ->
  tree_wf (rb_insert_color t' n) /\ inorder (rb_insert_color t' n) = inorder t'.
Proof.
  intros (Hc & m & Hb) Hl Ho. destruct (link_lay t n t' 0 Hl) as (k & l1 & l2 & Ek & Ei & Ec & Hk).
  assert (Es : slot (0 + length l1) = slot_of (inorder t') n)
    by (rewrite Ei in Ho |- *; rewrite slot_of_split; done).
  rewrite Es in Ek. pose proof (lay_in t') as Hin. unfold tree_in in Hin. rewrite Ek in Hin at 3. apply holds_plug in Hin.
  destruct (run_on_ok (RbTree.rb_insert_color (slot_of (inorder t') n)) t' (eq (RbTreeInv.inorder (lay t' 0))))
    as (u & Eu & Hw & Hu).
  { eapply ends_mono; [apply (ends_insert_color _ _ _ _ Hin)|].
    - split; [congruence | eauto].
    - intros [] s' (u & Hu & Hw & Hi). exists u. split; [done|]. split; [done|]. rewrite Hi, Ek, inorder_around. done. }
  cbn. rewrite Eu. split; [apply label_wf; done|]. rewrite label_inorder, <- Hu, lay_inorder, tree_size_inorder. apply region_slots.
Qed.

Lemma kernel_erase t r l1 l2 :
  tree_wf t -> ordered (inorder t) -> inorder t = l1 ++ r :: l2 ->
  tree_wf (rb_erase t r) /\ inorder (rb_erase t r) = l1 ++ l2.
Proof.
  intros Hw0 Ho Et. 
  destruct (run_on_ok (RbTree.rb_erase (slot_of (inorder t) r)) t
    (fun l => exists A C, RbTreeInv.inorder (lay t 0) = A ++ slot_of (inorder t) r :: C /\ l = A ++ C))
    as (u & Eu & Hw & A & C & Hi & Hu).
  { eapply ends_mono; [apply (ends_erase _ _ _ (lay_in t) Hw0)|].
    - rewrite lay_inorder, tree_size_inorder, Et in *. rewrite slot_of_split by done.
      apply list_elem_of_fmap_2, elem_of_seq. rewrite length_app. cbn. lia.
    - intros [] s' (u & A & C & Hs & Hw & Hi & Hu). eauto 10. }
  cbn. rewrite Eu. split; [apply label_wf; done|].
  destruct (slots_around t r l1 l2 Ho Et A C Hi) as (Ha & _ & Hc). rewrite label_inorder, Hu, fmap_app, Ha, Hc. done.
Qed.

Lemma broken_not_wf : ~ tree_wf broken.
Proof. intros (_ & n & Hb). cbn in Hb. inversion Hb as [| |? ? ? ? Hl Hr]; subst. inversion Hl; subst. inversion Hr. Qed.
Lemma tree_wf_leaf : tree_wf Leaf.
Proof. split; [done | exists 0%nat; constructor]. Qed.
Lemma tree_wf_update t b f : tree_wf t -> tree_wf (tree_update t b f).
Proof. unfold tree_wf. rewrite update_lay. done. Qed.

#[export] Instance kernel_rbtree_laws : RbTreeLaws := {
  rb_wf := tree_wf;
  rb_wf_leaf := tree_wf_leaf;
  rb_wf_update := tree_wf_update;
  rb_insert_color_ok := kernel_insert_color;
  rb_erase_ok := kernel_erase
}.

(** C36: the red-black tree programs on the memory of a balanced region tree
    implement insertion into and removal from the ordered list of regions:
    they end, the tree read back lists exactly the regions wanted, in address
    order, and is balanced again. *)
Theorem kernel_tree_refines t :
  tree_wf t -> ordered (inorder t) ->
  (forall n, nonempty n -> (forall r, r ∈ inorder t -> ~ overlaps (begin n) (end_ n) r) ->
     exists t', tree_link t n = Some t' /\ tree_wf (rb_insert_color t' n) /\
       inorder (rb_insert_color t' n) ≡ₚ n :: inorder t /\ ordered (inorder (rb_insert_color t' n))) /\
  (forall r l1 l2, inorder t = l1 ++ r :: l2 ->
     tree_wf (rb_erase t r) /\ inorder (rb_erase t r) = l1 ++ l2).
Proof.
  intros Hw Ho. split; [|intros r l1 l2; apply kernel_erase; done].
  intros n Hn Hd. destruct (tree_link_spec t n Ho Hn Hd) as (t' & Et & Pt & Ot). exists t'.
  destruct (kernel_insert_color t n t' Hw Et Ot) as [? ->]. done.
Qed.

Lemma kernel_tree_refines_witness :
  let region b := Region b (b + 4096) 3 2 0 1 0 0 0 in
  let t := Node false Leaf (region 8192) (Node true Leaf (region 16384) Leaf) in
  tree_wf (rb_erase t (region 8192)) /\ inorder (rb_erase t (region 8192)) = [region 16384].
Proof.
  intros region t. apply (kernel_tree_refines t) with (l1 := []); [| |done].
  - split; [done | exists 1%nat; repeat constructor].
  - apply ordered_node. unfold before, nonempty. cbn. split_and!; try done; [repeat constructor | repeat constructor | intros x Hx; inversion Hx | | intros x y Hx; inversion Hx].
    intros y ->%list_elem_of_singleton. cbn. lia.
Defined.
