(* ===== verification/VmMapPages.v ===== *)
(** * Page loops and reference counts of the memory map

    What the loops of src/mm/impl/mmap.c over mapped pages do to a page
    table, and the account of the references that regions hold. *)

From S2P Require Import Prelude VmMap VmMapTree.

(** ** Loops over the mapped pages of a range *)

Lemma next_mapped_spec (p : gmap Z pte) b e :
  let v := mm_next_mapped_page p b e in
  b <= v /\ (forall k, b <= k < v -> k < e -> p !! k = None) /\ (v < e -> is_Some (p !! v)).
Proof.
  unfold mm_next_mapped_page. case_if; breflect; cbv zeta; [split_and!; intros; lia|].
  set (ks := map fst (map_to_list p)).
  assert (Hks : forall k, k ∈ ks <-> is_Some (p !! k)).
  { intros k. unfold ks. rewrite list_elem_of_fmap. split.
    - intros ([k' x] & -> & Hx). apply elem_of_map_to_list in Hx. eauto.
    - intros [x Hx]. exists (k, x). rewrite elem_of_map_to_list; auto. }
  enough (Hf : let v := foldr (fun k m => if (b <=? k) && (k <? m) then k else m) e ks in
          b <= v <= e /\ (forall k, k ∈ ks -> b <= k -> v <= k \/ e <= k) /\ (v < e -> v ∈ ks)).
  { cbv zeta in Hf. destruct Hf as (H1 & H2 & H3). split_and!; [lia | |].
    - intros k Hk Hke. apply eq_None_not_Some. rewrite <- Hks. intros Hin.
      destruct (H2 k Hin); lia.
    - intros Hv. apply Hks. auto. }
  clear Hks. induction ks as [|k ks IH]; cbv zeta in *; cbn [foldr].
  { split_and!; try lia. intros k Hk; inversion Hk. }
  set (v := foldr _ _ ks) in *. destruct IH as (H1 & H2 & H3).
  case_if; breflect; split_and!; try lia.
  - intros j [-> | Hj]%elem_of_cons Hb; [lia|]. destruct (H2 j Hj Hb); lia.
  - intros. left.
  - apply andb_false_iff in Heqb1. intros j [-> | Hj]%elem_of_cons Hb; [|auto].
    destruct Heqb1; breflect; lia.
  - intros. right. auto.
Qed.

(** The rule of a loop: an invariant of the pages below the cursor.  The
    loop ends because its body adds no page. *)
Lemma for_mapped_rule body b e s (I : Z -> kstate -> Prop) :
  (forall v s, dom (ptes (body v s)) ⊆ dom (ptes s)) ->
  (forall v v' s, I v s -> v <= v' -> (forall k, v <= k < v' -> k < e -> ptes s !! k = None) -> I v' s) ->
  (forall v s, I v s -> b <= v < e -> is_Some (ptes s !! v) -> I (v + PAGE_SIZE) (body v s)) ->
  I b s -> exists s' v, e <= v /\ I v s' /\ for_mapped body b e s = Some s'.
Proof.
  intros Hdom Hskip Hstep Hb.
  enough (Hl : forall fuel (vir : Z) s, (size (filter (fun k => (vir <= k)%Z) (dom (ptes s))) < fuel)%nat ->
            b <= vir -> I vir s -> (vir < e -> is_Some (ptes s !! vir)) ->
            exists s' v, e <= v /\ I v s' /\ page_loop fuel body vir e s = Some s').
  { destruct (next_mapped_spec (ptes s) b e) as (H1 & H2 & H3).
    apply Hl; eauto. apply Nat.lt_succ_r. rewrite <- size_dom.
    apply subseteq_size. set_solver. }
  clear Hb s. induction fuel as [|fuel IH]; intros vir s Hsz Hge HI Hv; [lia|].
  cbn [page_loop]. case_if; breflect; [|eauto].
  set (s1 := body vir s).
  assert (HI1 : I (vir + PAGE_SIZE) s1) by (apply Hstep; auto).
  destruct (next_mapped_spec (ptes s1) (vir + PAGE_SIZE) e) as (H1 & H2 & H3).
  unfold PAGE_SIZE in *.
  apply IH; eauto; [|lia].
  enough (size (filter (fun k => (mm_next_mapped_page (ptes s1) (vir + 4096) e <= k)%Z) (dom (ptes s1))) <
          size (filter (fun k => (vir <= k)%Z) (dom (ptes s))))%nat by lia.
  apply subset_size. specialize (Hdom vir s). apply Hv in Heqb0 as [x Hx].
  apply elem_of_dom_2 in Hx. split.
  - intros k. rewrite !elem_of_filter. intros [? ?]. split; [lia | set_solver].
  - intros Hsub. specialize (Hsub vir). rewrite !elem_of_filter in Hsub.
    destruct Hsub; [split; [lia | auto] | lia].
Qed.

Definition aligned (a : Z) : Prop := a mod PAGE_SIZE = 0.
Definition pages_aligned (p : gmap Z pte) : Prop := forall k, is_Some (p !! k) -> aligned k.

(** A page table without its pages in [b, e). *)
Definition outside (b e : Z) (p : gmap Z pte) : gmap Z pte :=
  filter (fun kv => ~ (b <= fst kv < e)) p.

Lemma outside_lookup b e p k :
  outside b e p !! k = if bool_decide (b <= k < e) then None else p !! k.
Proof.
  unfold outside. case_bool_decide.
  - apply map_lookup_filter_None. right. intros; cbn; tauto.
  - destruct (p !! k) eqn:E.
    + apply map_lookup_filter_Some; auto.
    + apply map_lookup_filter_None; auto.
Qed.

(** Unmapping a range removes its pages and nothing else. *)
Lemma unmap_range_spec b e s :
  pages_aligned (ptes s) -> aligned e ->
  unmap_range b e s = Some (set_ptes (outside b e (ptes s)) s).
Proof.
  intros Ha He. unfold unmap_range.
  destruct (for_mapped_rule mm_unmap_page b e s
    (fun v t => b <= v /\ t = set_ptes (outside b (Z.min v e) (ptes s)) s)) as (s' & v & Hv & (_ & ->) & E).
  - intros v t. cbn. rewrite dom_delete_L. set_solver.
  - intros v v' t (Hb & ->) Hle Hn. split; [lia|]. f_equal. apply map_eq. intros k.
    rewrite !outside_lookup. destruct (decide (Z.min v e <= k < Z.min v' e)).
    + specialize (Hn k ltac:(lia) ltac:(lia)). cbn in Hn. rewrite outside_lookup in Hn.
      repeat case_bool_decide; auto; lia.
    + repeat case_bool_decide; auto; lia.
  - intros v t (Hb & ->) Hve Hm. split; [unfold PAGE_SIZE; lia|].
    change (mm_unmap_page v (set_ptes ?p s)) with (set_ptes (delete v p) s).
    f_equal. apply map_eq. intros k.
    assert (aligned v) as Hva.
    { apply Ha. cbn in Hm. rewrite outside_lookup in Hm.
      case_bool_decide; [destruct Hm; discriminate | auto]. }
    destruct (decide (k = v)) as [-> | Hk].
    { rewrite lookup_delete_eq, outside_lookup. rewrite bool_decide_eq_true_2; auto.
      unfold PAGE_SIZE; lia. }
    rewrite lookup_delete_ne, !outside_lookup by auto.
    destruct (ptes s !! k) eqn:Ek; [|repeat case_bool_decide; auto].
    assert (aligned k) by (apply Ha; eauto).
    unfold aligned, PAGE_SIZE in *. repeat case_bool_decide; auto; exfalso; Z.to_euclidean_division_equations; lia.
  - split; [lia|]. replace (outside b (Z.min b e) (ptes s)) with (ptes s); [destruct s; done|].
    apply map_eq. intros k. rewrite outside_lookup. case_bool_decide; auto; lia.
  - rewrite E. do 2 f_equal. apply map_eq. intros k. rewrite !outside_lookup.
    repeat case_bool_decide; auto; lia.
Qed.

(** ** The references of regions *)

(** How often the regions of a list refer to a file, an anonymous identity
    or a lock. *)
Definition cnt (P : vm_region -> bool) (l : list vm_region) : Z :=
  Z.of_nat (length (List.filter P l)).
Definition uses_file (f : Z) (r : vm_region) : bool := nz (fp r) && (fp r =? f).
Definition uses_anon (i : Z) (r : vm_region) : bool := shared_anon r && (anon_id r =? i).
Definition uses_lock (k : Z) (r : vm_region) : bool := fault_lock r =? k.

(** References held outside of the regions in view: descriptors, other
    address spaces. *)
Record others := Others { of_file : Z -> Z; of_anon : Z -> Z; of_lock : Z -> Z }.

(** Every count is what the holders [L] and the others account for; the
    next lock is not in use. *)
Record refs_ok (ext : others) (L : list vm_region) (s : kstate) : Prop := {
  ro_ext k : 0 <= of_file ext k /\ 0 <= of_anon ext k /\ 0 <= of_lock ext k;
  ro_file f : rc (file_refs s) f = of_file ext f + cnt (uses_file f) L;
  ro_anon i : rc (anon_refs s) i = of_anon ext i + cnt (uses_anon i) L;
  ro_lock k : rc (lock_refs s) k = of_lock ext k + cnt (uses_lock k) L;
  ro_next : 0 < next_lock s;
  ro_fresh k : next_lock s <= k -> rc (lock_refs s) k = 0
}.

Lemma cnt_cons P r l : cnt P (r :: l) = b2z (P r) + cnt P l.
Proof. unfold cnt; cbn; destruct (P r); cbn; lia. Qed.
Lemma cnt_nonneg P l : 0 <= cnt P l.
Proof. unfold cnt; lia. Qed.
#[export] Instance cnt_proper P : Proper ((≡ₚ) ==> eq) (cnt P).
Proof. intros l l' HP. unfold cnt. induction HP; cbn; repeat case_if; cbn; lia. Qed.
Lemma cnt_pos P l r : r ∈ l -> P r = true -> 0 < cnt P l.
Proof.
  intros (l1 & l2 & ->)%list_elem_of_split Hr.
  rewrite <- Permutation_middle, cnt_cons, Hr. pose proof (cnt_nonneg P (l1 ++ l2)). cbn; lia.
Qed.

#[export] Instance refs_ok_proper ext : Proper ((≡ₚ) ==> eq ==> iff) (refs_ok ext).
Proof.
  assert (Himp : forall L L' s, L ≡ₚ L' -> refs_ok ext L s -> refs_ok ext L' s).
  { intros L L' s HP [? F A K ? ?]. split; auto; intros k; rewrite ?F, ?A, ?K;
      rewrite HP; done. }
  intros L L' HP s ? <-. split; apply Himp; [|symmetry]; auto.
Qed.

Lemma rc_insert m k v j : rc (<[k := v]> m) j = if j =? k then v else rc m j.
Proof.
  unfold rc. destruct (Z.eqb_spec j k) as [-> | Hn].
  - rewrite lookup_insert_eq; done.
  - rewrite lookup_insert_ne; auto.
Qed.

(** The state with the references of [r] added, and dropped. *)
Definition moved (d : Z) (r : vm_region) (s : kstate) : kstate :=
  Kst (ptes s) (dirty s)
    (if nz (fp r) then <[fp r := rc (file_refs s) (fp r) + d]> (file_refs s) else file_refs s)
    (if shared_anon r then <[anon_id r := rc (anon_refs s) (anon_id r) + d]> (anon_refs s)
     else anon_refs s)
    (<[fault_lock r := rc (lock_refs s) (fault_lock r) + d]> (lock_refs s))
    (next_lock s) (g_anon_id_next s) (written s).
Abbreviation added := (moved 1).
Abbreviation dropped := (moved (-1)).

Lemma uses_file_self r : nz (fp r) = true -> uses_file (fp r) r = true.
Proof. intros E; unfold uses_file; rewrite E, Z.eqb_refl; done. Qed.
Lemma uses_anon_self r : shared_anon r = true -> uses_anon (anon_id r) r = true.
Proof. intros E; unfold uses_anon; rewrite E, Z.eqb_refl; done. Qed.
Lemma uses_lock_self r : uses_lock (fault_lock r) r = true.
Proof. apply Z.eqb_refl. Qed.

(** The counts of a region among the holders are positive. *)
Lemma held_pos ext L s r :
  refs_ok ext L s -> r ∈ L ->
  (nz (fp r) = true -> 0 < rc (file_refs s) (fp r)) /\
  (shared_anon r = true -> 0 < rc (anon_refs s) (anon_id r)) /\
  0 < rc (lock_refs s) (fault_lock r).
Proof.
  intros [E F A K _ _] Hr. rewrite F, A, K. split_and!; intros.
  - pose proof (E (fp r)). pose proof (cnt_pos _ _ _ Hr (uses_file_self r ltac:(auto))). lia.
  - pose proof (E (anon_id r)). pose proof (cnt_pos _ _ _ Hr (uses_anon_self r ltac:(auto))). lia.
  - pose proof (E (fault_lock r)). pose proof (cnt_pos _ _ _ Hr (uses_lock_self r)). lia.
Qed.

Lemma hold_refs_eq r s :
  (nz (fp r) = true -> 0 < rc (file_refs s) (fp r)) -> 0 < rc (lock_refs s) (fault_lock r) ->
  hold_refs r s = Some (added r s).
Proof.
  intros Hf Hl. unfold hold_refs, fs_get_file, mm_anon_shared_get, lock_get, ref_get, moved.
  destruct (nz (fp r)) eqn:Ef; [rewrite (proj2 (Z.ltb_lt _ _)) by auto|]; cbn;
    (destruct (shared_anon r) eqn:Ea; cbn; rewrite (proj2 (Z.ltb_lt _ _)) by auto; done).
Qed.

Lemma vm_region_free_eq r s :
  (nz (fp r) = true -> 0 < rc (file_refs s) (fp r)) ->
  (shared_anon r = true -> 0 < rc (anon_refs s) (anon_id r)) ->
  0 < rc (lock_refs s) (fault_lock r) ->
  vm_region_free r s = Some (dropped r s).
Proof.
  intros Hf Ha Hl. unfold vm_region_free, fs_put_file, mm_anon_shared_put, lock_put, ref_put, moved.
  destruct (nz (fp r)) eqn:Ef; [rewrite (proj2 (Z.ltb_lt _ _)) by auto|]; cbn;
    (destruct (shared_anon r) eqn:Ea; cbn; [rewrite (proj2 (Z.ltb_lt _ _)) by auto; cbn|];
     rewrite (proj2 (Z.ltb_lt _ _)) by auto; done).
Qed.

Lemma rc_moved_file d r s f :
  rc (file_refs (moved d r s)) f = rc (file_refs s) f + d * b2z (uses_file f r).
Proof.
  unfold moved, uses_file; cbn [file_refs]. destruct (nz (fp r)); cbn; [|lia].
  rewrite rc_insert, (Z.eqb_sym f). destruct (Z.eqb_spec (fp r) f) as [<- | ?]; cbn; lia.
Qed.
Lemma rc_moved_anon d r s i :
  rc (anon_refs (moved d r s)) i = rc (anon_refs s) i + d * b2z (uses_anon i r).
Proof.
  unfold moved, uses_anon; cbn [anon_refs]. destruct (shared_anon r); cbn; [|lia].
  rewrite rc_insert, (Z.eqb_sym i). destruct (Z.eqb_spec (anon_id r) i) as [<- | ?]; cbn; lia.
Qed.
Lemma rc_moved_lock d r s k :
  rc (lock_refs (moved d r s)) k = rc (lock_refs s) k + d * b2z (uses_lock k r).
Proof.
  unfold moved, uses_lock; cbn [lock_refs].
  rewrite rc_insert, (Z.eqb_sym k). destruct (Z.eqb_spec (fault_lock r) k) as [<- | ?]; cbn; lia.
Qed.

Lemma refs_added ext L r s :
  refs_ok ext L s -> fault_lock r < next_lock s -> refs_ok ext (r :: L) (added r s).
Proof.
  intros [E F A K N Fr] Hl. split; auto; intros k;
    rewrite ?rc_moved_file, ?rc_moved_anon, ?rc_moved_lock, ?cnt_cons, ?F, ?A; try lia.
  - rewrite K; lia.
  - cbn [next_lock moved]. intros Hk. rewrite Fr by auto. unfold uses_lock.
    rewrite (proj2 (Z.eqb_neq _ _)) by lia. done.
Qed.

Lemma refs_dropped ext L r s : refs_ok ext (r :: L) s -> refs_ok ext L (dropped r s).
Proof.
  intros [E F A K N Fr]. split; auto; intros k;
    rewrite ?rc_moved_file, ?rc_moved_anon, ?rc_moved_lock, ?F, ?A; rewrite ?cnt_cons; try lia.
  - rewrite K, cnt_cons; lia.
  - cbn [next_lock moved]. intros Hk. pose proof (Fr k Hk) as Hz. rewrite K, cnt_cons in Hz.
    rewrite K, cnt_cons. pose proof (E k). pose proof (cnt_nonneg (uses_lock k) L).
    destruct (uses_lock k r); cbn in *; lia.
Qed.

(** Taking the references of a holder again, and dropping them. *)
Lemma hold_refs_ok ext L s r :
  refs_ok ext L s -> r ∈ L ->
  hold_refs r s = Some (added r s) /\ refs_ok ext (r :: L) (added r s).
Proof.
  intros HR Hr. destruct (held_pos _ _ _ _ HR Hr) as (Hf & _ & Hl). split.
  - apply hold_refs_eq; auto.
  - apply refs_added; auto. destruct (decide (fault_lock r < next_lock s)); auto.
    rewrite (ro_fresh _ _ _ HR) in Hl; lia.
Qed.

Lemma vm_region_free_ok ext L s r :
  refs_ok ext (r :: L) s ->
  vm_region_free r s = Some (dropped r s) /\ refs_ok ext L (dropped r s).
Proof.
  intros HR. destruct (held_pos _ _ _ r HR) as (Hf & Ha & Hl); [left|]. split.
  - apply vm_region_free_eq; auto.
  - apply refs_dropped; auto.
Qed.
