(* ===== verification/VmMapInv.v ===== *)
(** * The invariant of an address space, and the steps that keep it

    The invariant of a memory map with the kernel state around it, and the
    steps the operations of src/mm/impl/mmap.c are made of: removing a region,
    inserting a piece that meets nothing, flushing. *)

From S2P Require Import Prelude VmMap VmMapTree VmMapPages.

Section Inv.
Context `{Arch} `{Files} `{RbTreeLaws}.

Abbreviation regions mm := (inorder (vma_index mm)).

(** Page aligned, with the metadata of its file and with a lock. *)
Record region_ok (r : vm_region) : Prop := {
  rg_begin : aligned (begin r);
  rg_end : aligned (end_ r);
  rg_flags : vm_flags r = vm_region_flags_for_file (fp r);
  rg_lock : fault_lock r <> 0
}.

(** The state between two steps; [held] are the regions whose references an
    operation holds for itself. *)
Record mid (ext : others) (held : list vm_region) (mm : mm_struct) (s : kstate) : Prop := {
  md_tree : rb_wf (vma_index mm);
  md_ordered : ordered (regions mm);
  md_regions r : r ∈ regions mm -> region_ok r;
  md_refs : refs_ok ext (held ++ regions mm) s;
  md_pages : pages_aligned (ptes s)
}.

(** The invariant: moreover every mapped page belongs to a region. *)
Record mm_ok (ext : others) (mm : mm_struct) (s : kstate) : Prop := {
  mo_mid : mid ext [] mm s;
  mo_pages k : is_Some (ptes s !! k) -> exists r, r ∈ regions mm /\ contains k r
}.

(** What a step leaves alone. *)
Definition kept (mm : mm_struct) (s : kstate) (mm' : mm_struct) (s' : kstate) : Prop :=
  mmap_base mm' = mmap_base mm /\ task_size mm' = task_size mm /\
  ptes s' = ptes s /\ g_anon_id_next s' = g_anon_id_next s.

Lemma kept_refl mm s : kept mm s mm s.
Proof. done. Qed.
Lemma kept_trans mm s mm1 s1 mm2 s2 :
  kept mm s mm1 s1 -> kept mm1 s1 mm2 s2 -> kept mm s mm2 s2.
Proof. unfold kept; intuition congruence. Qed.

(** ** Flushing *)

(** A flush changes dirty bits and what is written, nothing else. *)
Definition flushed (s s' : kstate) : Prop :=
  ptes s' = ptes s /\ file_refs s' = file_refs s /\ anon_refs s' = anon_refs s /\
  lock_refs s' = lock_refs s /\ next_lock s' = next_lock s /\ g_anon_id_next s' = g_anon_id_next s.

Lemma flush_page_flushed r v s : flushed s (flush_page r v s).
Proof. unfold flush_page; repeat case_match; done. Qed.

Lemma vm_flush_dirty_region_spec r b e s :
  exists s', vm_flush_dirty_region r b e s = Some s' /\ flushed s s'.
Proof.
  unfold vm_flush_dirty_region. repeat case_if; eauto; try (exists s; done).
  destruct (for_mapped_rule (flush_page r) b e s (fun _ t => flushed s t)) as (s' & _ & _ & Hf & E); eauto.
  - intros v t. pose proof (flush_page_flushed r v t) as (E & _). rewrite E. done.
  - intros v t Ht _ _. pose proof (flush_page_flushed r v t) as Hf.
    unfold flushed in *; intuition congruence.
  - done.
Qed.

Lemma mid_flushed ext held mm s s' : mid ext held mm s -> flushed s s' -> mid ext held mm s'.
Proof.
  intros [? ? ? [? F A K ? Fr] ?] (E1 & E2 & E3 & E4 & E5 & E6). split; auto; [split; auto|].
  - rewrite E2; auto.
  - rewrite E3; auto.
  - rewrite E4; auto.
  - rewrite E5; auto.
  - rewrite E4, E5; auto.
  - rewrite E1; auto.
Qed.

Lemma mid_ptes ext held mm s p :
  mid ext held mm s -> (forall k, is_Some (p !! k) -> is_Some (ptes s !! k)) ->
  mid ext held mm (set_ptes p s).
Proof.
  intros [? ? ? [? F A K ? Fr] Hp] Hs. split; auto; [split; auto|]. intros k Hk. apply Hp, Hs, Hk.
Qed.

(** ** Holding, removing, inserting *)

Lemma hold_step ext held mm s r :
  mid ext held mm s -> r ∈ regions mm ->
  exists s', hold_refs r s = Some s' /\ mid ext (r :: held) mm s' /\ kept mm s mm s'.
Proof.
  intros [? ? ? HR ?] Hr. destruct (hold_refs_ok _ _ _ r HR) as [E HR']; [set_solver|].
  exists (added r s). split; [done|]. split; [split; auto | done].
Qed.

Lemma release_step ext held mm s r :
  mid ext (r :: held) mm s ->
  exists s', vm_region_free r s = Some s' /\ mid ext held mm s' /\ kept mm s mm s'.
Proof.
  intros [? ? ? HR ?]. destruct (vm_region_free_ok _ _ _ _ HR) as [E HR'].
  exists (dropped r s). split; [done|]. split; [split; auto | done].
Qed.

Lemma remove_step ext held mm s r :
  mid ext held mm s -> r ∈ regions mm ->
  exists mm' s', vm_tree_remove mm r s = Some (mm', s') /\ regions mm ≡ₚ r :: regions mm' /\
    mid ext held mm' s' /\ kept mm s mm' s'.
Proof.
  intros [Hw Ho Hr HR ?] Hi. unfold vm_tree_remove.
  apply list_elem_of_split in Hi as (l1 & l2 & El).
  assert (Hp : regions mm ≡ₚ r :: l1 ++ l2) by (rewrite El; symmetry; apply Permutation_middle).
  assert (HR' : refs_ok ext (r :: held ++ l1 ++ l2) s).
  { rewrite Hp in HR. rewrite <- Permutation_middle in HR. done. }
  destruct (vm_region_free_ok _ _ _ _ HR') as [-> HR2]. cbn.
  exists (set_index (rb_erase (vma_index mm) r) mm), (dropped r s).
  destruct (rb_erase_ok _ _ l1 l2 Hw Ho El) as [Hw' Ei].
  split; [done|]. cbn [vma_index set_index]. rewrite Ei. split; [done|]. split; [|done].
  split; cbn [vma_index set_index]; rewrite ?Ei; auto.
  - rewrite El in Ho. eapply ordered_delete; eauto.
  - intros x Hx. apply Hr. rewrite El. set_solver.
Qed.

(** The region vm_add_map_with_lock() builds. *)
Definition new_region (b e p fl f off id lk : Z) : vm_region :=
  Region b e p fl (vm_region_flags_for_file f) lk f off id.

(** The state after the number of a new lock is taken. *)
Definition bump (s : kstate) : kstate :=
  Kst (ptes s) (dirty s) (file_refs s) (anon_refs s) (lock_refs s) (next_lock s + 1)
    (g_anon_id_next s) (written s).

Lemma insert_region_eq b e p fl f off id lk mm s t :
  let r := new_region b e p fl f off id (if lk =? 0 then next_lock s else lk) in
  tree_link (vma_index mm) r = Some t ->
  (f <> 0 -> 0 < rc (file_refs s) f) -> (lk <> 0 -> 0 < rc (lock_refs s) lk) ->
  rc (lock_refs s) (next_lock s) = 0 ->
  insert_region b e p fl f off id lk mm s =
    Some (set_index (rb_insert_color t r) mm, added r (if lk =? 0 then bump s else s)).
Proof.
  intros r Et Hf Hl Hz. subst r. unfold insert_region, vm_tree_insert, new_region in *.
  assert (Hf' : nz f = true -> (0 <? rc (file_refs s) f) = true).
  { intros Hn. unfold nz in Hn. breflect. apply Z.ltb_lt; auto. }
  destruct (Z.eqb_spec lk 0) as [-> | Hn].
  - cbn. unfold moved, bump, fs_get_file, ref_get. cbn. destruct (nz f) eqn:Enz.
    + cbn. rewrite Hf' by done. cbn. rewrite Hz.
      destruct (shared_anon _) eqn:Ea; cbn; rewrite Et; done.
    + cbn. rewrite Hz. destruct (shared_anon _) eqn:Ea; cbn; rewrite Et; done.
  - unfold lock_get, ref_get. rewrite (proj2 (Z.ltb_lt _ _)) by auto.
    cbn. unfold moved, fs_get_file, ref_get. cbn. destruct (nz f) eqn:Enz.
    + cbn. rewrite Hf' by done. cbn.
      destruct (shared_anon _) eqn:Ea; cbn; rewrite Et; done.
    + cbn. destruct (shared_anon _) eqn:Ea; cbn; rewrite Et; done.
Qed.

Lemma insert_step ext held mm s b e p fl f off id lk :
  mid ext held mm s -> b < e -> aligned b -> aligned e ->
  (forall r, r ∈ regions mm -> ~ overlaps b e r) ->
  (f <> 0 -> 0 < rc (file_refs s) f) -> (lk <> 0 -> 0 < rc (lock_refs s) lk) ->
  let r := new_region b e p fl f off id (if lk =? 0 then next_lock s else lk) in
  exists mm' s', insert_region b e p fl f off id lk mm s = Some (mm', s') /\
    regions mm' ≡ₚ r :: regions mm /\ mid ext held mm' s' /\ kept mm s mm' s'.
Proof.
  intros [Hw Ho Hg HR Hp] Hbe Ab Ae Hd Hf Hl r.
  destruct (tree_link_spec (vma_index mm) r) as (t & Et & Pt & Ot); auto.
  assert (Hz : rc (lock_refs s) (next_lock s) = 0) by (apply (ro_fresh _ _ _ HR); lia).
  rewrite (insert_region_eq _ _ _ _ _ _ _ _ _ _ t) by auto. fold r.
  destruct (rb_insert_color_ok _ _ _ Hw Et Ot) as [Hw' Ei].
  eexists _, _. split; [done|]. cbn [vma_index set_index]. rewrite Ei.
  split; [done|].
  assert (HR' : refs_ok ext (held ++ regions mm) (if lk =? 0 then bump s else s)).
  { destruct (lk =? 0); auto. destruct HR as [? ? ? ? Hn Hfr]. split; auto; cbn; [lia|].
    intros k Hk; apply Hfr; lia. }
  split; [|destruct (lk =? 0); done].
  split; cbn [vma_index set_index]; rewrite ?Ei; auto.
  - intros x Hx. rewrite Pt in Hx. apply elem_of_cons in Hx as [-> | Hx]; auto.
    split; auto; cbn. destruct (Z.eqb_spec lk 0); auto. pose proof (ro_next _ _ _ HR); lia.
  - rewrite Pt, <- Permutation_middle. apply refs_added; auto. unfold r. cbn.
    destruct (Z.eqb_spec lk 0); cbn; [lia|].
    destruct (decide (lk < next_lock s)); auto. specialize (Hl ltac:(auto)).
    rewrite (ro_fresh _ _ _ HR) in Hl; lia.
  - destruct (lk =? 0); done.
Qed.
End Inv.
