(* ===== verification/VmMapOps.v ===== *)
(** * Splitting regions

    The meaning of an address space, address by address, and what the split
    of a region by the operations of src/mm/impl/mmap.c does to it. *)

From S2P Require Import Prelude VmMap VmMapTree VmMapPages VmMapInv.

(** ** What an address maps to *)

Record attributes := Attr {
  at_prot : Z; at_flag : Z; at_vm_flags : Z; at_lock : Z; at_file : Z; at_offset : Z; at_anon : Z
}.

(** The attributes of address [a] of a region, with the byte of the file that
    the address shows. *)
Definition attr (a : Z) (r : vm_region) : attributes :=
  Attr (prot r) (flag r) (vm_flags r) (fault_lock r) (fp r) (u64 (offset r + (a - begin r))) (anon_id r).

(** The address space as a function of the address. *)
Definition view (mm : mm_struct) (a : Z) : option attributes :=
  attr a <$> head (filter (contains a) (inorder (vma_index mm))).

Abbreviation regions mm := (inorder (vma_index mm)).

Lemma head_filter_some {A} (P : A -> Prop) `{!forall x, Decision (P x)} l x :
  head (filter P l) = Some x -> x ∈ l /\ P x.
Proof.
  intros E. assert (Hx : x ∈ filter P l) by (destruct (filter P l); cbn in *; simplify_eq; left).
  apply list_elem_of_filter in Hx. tauto.
Qed.

Lemma head_filter_none {A} (P : A -> Prop) `{!forall x, Decision (P x)} l :
  head (filter P l) = None -> forall x, x ∈ l -> ~ P x.
Proof.
  intros E x Hx Hp. assert (Hf : x ∈ filter P l) by (apply list_elem_of_filter; auto).
  destruct (filter P l); [inversion Hf | discriminate].
Qed.

Lemma view_in mm a r :
  ordered (regions mm) -> r ∈ regions mm -> contains a r -> view mm a = Some (attr a r).
Proof.
  intros Ho Hr Hc. unfold view. destruct (head _) as [x|] eqn:E.
  - apply head_filter_some in E as [Hx Hxc]. cbn. do 2 f_equal. eapply ordered_disjoint; eauto.
  - exfalso. eapply head_filter_none; eauto.
Qed.

Lemma view_out mm a : (forall r, r ∈ regions mm -> ~ contains a r) -> view mm a = None.
Proof.
  intros Hn. unfold view. destruct (head _) as [x|] eqn:E; [|done].
  apply head_filter_some in E as [Hx Hxc]. exfalso. eapply Hn; eauto.
Qed.

Lemma view_none mm a r : view mm a = None -> r ∈ regions mm -> ~ contains a r.
Proof.
  unfold view. destruct (head _) as [x|] eqn:E; [discriminate|]. intros _.
  eapply head_filter_none; eauto.
Qed.

Lemma view_some mm a x :
  view mm a = Some x -> exists r, r ∈ regions mm /\ contains a r /\ x = attr a r.
Proof.
  unfold view. destruct (head _) as [r|] eqn:E; [|discriminate].
  apply head_filter_some in E as [? ?]. cbn. intros; simplify_eq; eauto.
Qed.

(** ** Pieces of a region *)

Definition piece (o : vm_region) (b e p off : Z) : vm_region :=
  Region b e p (flag o) (vm_flags o) (fault_lock o) (fp o) off (anon_id o).

(** What is left of [o] when [x, y) is taken out. *)
Definition rest (o : vm_region) (x y : Z) : list vm_region :=
  (if begin o <? x then [piece o (begin o) x (prot o) (offset o)] else []) ++
  (if y <? end_ o then [piece o y (end_ o) (prot o) (u64 (offset o + (y - begin o)))] else []).

Lemma u64_shift x y z : u64 (u64 (x + y) + z) = u64 (x + (y + z)).
Proof. unfold u64. rewrite Zplus_mod_idemp_l. f_equal. lia. Qed.

Lemma rest_member o x y r :
  r ∈ rest o x y ->
  (r = piece o (begin o) x (prot o) (offset o) /\ begin o < x) \/
  (r = piece o y (end_ o) (prot o) (u64 (offset o + (y - begin o))) /\ y < end_ o).
Proof.
  unfold rest. rewrite elem_of_app. intros [Hr | Hr]; [left | right]; case_if; breflect;
    try (inversion Hr; fail); apply list_elem_of_singleton in Hr; auto.
Qed.

(** The pieces cover what is left, with the attributes of the region. *)
Lemma rest_covers o x y a :
  contains a o -> ~ (x <= a < y) -> x <= y ->
  exists r, r ∈ rest o x y /\ contains a r /\ attr a r = attr a o.
Proof.
  unfold contains, rest. intros Hc Hn Hxy. destruct (decide (a < x)).
  - exists (piece o (begin o) x (prot o) (offset o)).
    rewrite (proj2 (Z.ltb_lt _ _)) by lia. cbn. split; [left|]. split; [lia | done].
  - exists (piece o y (end_ o) (prot o) (u64 (offset o + (y - begin o)))).
    rewrite (proj2 (Z.ltb_lt y _)) by lia. split; [apply elem_of_app; right; left|].
    cbn. split; [lia|]. unfold attr; cbn. rewrite u64_shift. repeat f_equal; lia.
Qed.

Lemma rest_within o x y a r :
  r ∈ rest o x y -> contains a r -> x <= end_ o -> begin o <= y -> x <= y ->
  contains a o /\ ~ (x <= a < y).
Proof.
  intros Hr Hc ? ? ?. unfold contains in *.
  destruct (rest_member _ _ _ _ Hr) as [[-> ?] | [-> ?]]; cbn in *; lia.
Qed.

Section Ops.
Context `{Arch} `{Files} `{RbTreeLaws}.

(** Inserting a piece of a held region where nothing is in the way. *)
Lemma piece_step ext held mm s o b e p off n :
  mid ext held mm s -> o ∈ held -> region_ok o -> b < e -> aligned b -> aligned e ->
  (forall r, r ∈ regions mm -> ~ overlaps b e r) ->
  exists mm' s', add_map_loop (S n) b e p (flag o) (fp o) off (anon_id o) (fault_lock o) mm s
                 = Some (mm', s') /\
    regions mm' ≡ₚ piece o b e p off :: regions mm /\ mid ext held mm' s' /\ kept mm s mm' s'.
Proof.
  intros Hm Ho [_ _ Hvf Hlk] Hbe Ab Ae Hd. cbn [add_map_loop]. unfold vm_tree_find.
  destruct (tree_find (vma_index mm) b e) eqn:E.
  { exfalso. apply tree_find_some in E as [? ?]. eapply Hd; eauto. }
  destruct (held_pos _ _ _ o (md_refs _ _ _ _ Hm)) as (Hf & _ & Hl); [set_solver|].
  destruct (insert_step ext held mm s b e p (flag o) (fp o) off (anon_id o) (fault_lock o))
    as (mm' & s' & E' & P & M & K); auto.
  { intros Hn. apply Hf. unfold nz. destruct (Z.eqb_spec (fp o) 0); auto. }
  exists mm', s'. split; [done|]. split; [|done]. rewrite P.
  rewrite (proj2 (Z.eqb_neq (fault_lock o) 0)) by auto. unfold new_region, piece.
  rewrite Hvf. done.
Qed.

Lemma maybe_piece_step ext held mm s o b e p off n :
  mid ext held mm s -> o ∈ held -> region_ok o ->
  (b < e -> aligned b /\ aligned e /\ forall r, r ∈ regions mm -> ~ overlaps b e r) ->
  exists mm' s',
    (if b <? e then add_map_loop (S n) b e p (flag o) (fp o) off (anon_id o) (fault_lock o) mm s
     else Some (mm, s)) = Some (mm', s') /\
    regions mm' ≡ₚ (if b <? e then [piece o b e p off] else []) ++ regions mm /\
    mid ext held mm' s' /\ kept mm s mm' s'.
Proof.
  intros Hm Ho Hok Hc. case_if; breflect.
  - destruct (Hc Heqb0) as (? & ? & ?). apply piece_step; auto.
  - exists mm, s. split_and!; auto. apply kept_refl.
Qed.

(** [mm'] is [mm] with [x, y) taken out of the region [o]. *)
Definition carved (o : vm_region) (x y : Z) (mm mm' : mm_struct) : Prop :=
  exists l, regions mm ≡ₚ o :: l /\ regions mm' ≡ₚ rest o x y ++ l /\
            x <= y /\ x <= end_ o /\ begin o <= y.

(** The end of a pass of the splitting loops: the region held is removed, its
    two remnants are inserted, the references are dropped. *)
Lemma carve_steps ext mm s o x y (n1 n2 : mm_struct -> nat) :
  mid ext [o] mm s -> o ∈ regions mm -> x <= y -> x <= end_ o -> begin o <= y ->
  (begin o < x -> aligned x) -> (y < end_ o -> aligned y) ->
  exists mm1 s1 mm2 s2 mm3 s3 s4,
    vm_tree_remove mm o s = Some (mm1, s1) /\
    (if begin o <? x
     then add_map_loop (S (n1 mm1)) (begin o) x (prot o) (flag o) (fp o) (offset o) (anon_id o)
            (fault_lock o) mm1 s1
     else Some (mm1, s1)) = Some (mm2, s2) /\
    (if y <? end_ o
     then add_map_loop (S (n2 mm2)) y (end_ o) (prot o) (flag o) (fp o)
            (u64 (offset o + (y - begin o))) (anon_id o) (fault_lock o) mm2 s2
     else Some (mm2, s2)) = Some (mm3, s3) /\
    vm_region_free o s3 = Some s4 /\
    mid ext [] mm3 s4 /\ kept mm s mm3 s4 /\ carved o x y mm mm3.
Proof.
  intros Hm Ho Hxy Hx Hy Ax Ay.
  assert (Hok : region_ok o) by (eapply md_regions; eauto).
  pose proof (md_ordered _ _ _ _ Hm) as Hord.
  destruct (remove_step _ _ _ _ _ Hm Ho) as (mm1 & s1 & E1 & P1 & M1 & K1).
  assert (Hdis : forall r, r ∈ regions mm1 -> end_ r <= begin o \/ end_ o <= begin r).
  { intros r Hr. eapply ordered_beside; eauto. }
  destruct (maybe_piece_step ext [o] mm1 s1 o (begin o) x (prot o) (offset o) (n1 mm1))
    as (mm2 & s2 & E2 & P2 & M2 & K2); auto; [left| |].
  { intros Hlt. split_and!; auto; [apply Hok|]. intros r Hr. unfold overlaps.
    specialize (Hdis r Hr). lia. }
  destruct (maybe_piece_step ext [o] mm2 s2 o y (end_ o) (prot o) (u64 (offset o + (y - begin o))) (n2 mm2))
    as (mm3 & s3 & E3 & P3 & M3 & K3); auto; [left| |].
  { intros Hlt. split_and!; auto; [apply Hok|]. intros r Hr. rewrite P2 in Hr. unfold overlaps.
    apply elem_of_app in Hr as [Hr | Hr]; [|specialize (Hdis r Hr); lia].
    case_if; [|inversion Hr]. apply list_elem_of_singleton in Hr as ->. cbn. lia. }
  destruct (release_step _ _ _ _ _ M3) as (s4 & E4 & M4 & K4).
  exists mm1, s1, mm2, s2, mm3, s3, s4. split_and!; auto.
  - eapply kept_trans; [eapply kept_trans; [eapply kept_trans|]|]; eauto.
  - exists (regions mm1). split_and!; auto. rewrite P3, P2. unfold rest.
    rewrite !app_assoc. f_equiv. apply Permutation_app_comm.
Qed.

(** ** The meaning of a split *)

Lemma carved_view o x y mm mm' a :
  carved o x y mm mm' -> ordered (regions mm) -> ordered (regions mm') ->
  view mm' a = if bool_decide (contains a o /\ x <= a < y) then None else view mm a.
Proof.
  intros (l & P & P' & Hxy & Hx & Hy) Ho Ho'.
  assert (Hoi : o ∈ regions mm) by (rewrite P; left).
  assert (Hl : forall r, r ∈ l -> r ∈ regions mm /\ r ∈ regions mm' /\ (end_ r <= begin o \/ end_ o <= begin r)).
  { intros r Hr. rewrite P, P'. split_and!; [set_solver | set_solver |]. apply (ordered_beside (regions mm) o l); auto. }
  assert (Hres : forall r, r ∈ rest o x y -> r ∈ regions mm') by (intros; rewrite P'; set_solver).
  case_bool_decide as Hc.
  - apply view_out. intros r Hr Hcr. rewrite P' in Hr. apply elem_of_app in Hr as [Hr | Hr].
    + destruct (rest_within _ _ _ _ _ Hr Hcr); auto. tauto.
    + destruct (Hl r Hr) as (_ & _ & ?). unfold contains in *. lia.
  - destruct (decide (contains a o)) as [Hao | Hao].
    + destruct (rest_covers o x y a) as (r & Hr & Hcr & Er); auto.
      rewrite (view_in mm' a r), (view_in mm a o); auto. congruence.
    + destruct (view mm a) as [z|] eqn:Ev.
      * apply view_some in Ev as (r & Hr & Hcr & ->). rewrite P in Hr.
        apply elem_of_cons in Hr as [-> | Hr]; [tauto|]. apply view_in; auto. apply Hl; auto.
      * apply view_out. intros r Hr Hcr. rewrite P' in Hr. apply elem_of_app in Hr as [Hr | Hr].
        -- destruct (rest_within _ _ _ _ _ Hr Hcr); auto.
        -- eapply (view_none mm a r); eauto. apply Hl; auto.
Qed.

(** How many regions a range meets. *)
Definition meets (b e : Z) (mm : mm_struct) : nat := length (filter (overlaps b e) (regions mm)).

Lemma filter_length_perm {A} (P : A -> Prop) `{!forall x, Decision (P x)} (l l' : list A) :
  l ≡ₚ l' -> length (filter P l) = length (filter P l').
Proof. intros Hp. rewrite Hp. done. Qed.

(** Taking the range out of a region it meets leaves one less. *)
Lemma carved_meets o x y b e mm mm' :
  carved o x y mm mm' -> overlaps b e o -> (begin o < x -> x <= b) -> (y < end_ o -> e <= y) ->
  meets b e mm = S (meets b e mm').
Proof.
  intros (l & P & P' & _) Hov Hx Hy. unfold meets. rewrite P, P', filter_app.
  rewrite filter_cons_True by done. rewrite (filter_nothing _ (rest o x y)); [done|].
  intros r Hr. unfold overlaps.
  destruct (rest_member _ _ _ _ Hr) as [[-> ?] | [-> ?]]; cbn; lia.
Qed.

Lemma meets_bound b e mm : (meets b e mm <= tree_size (vma_index mm))%nat.
Proof. unfold meets. rewrite tree_size_inorder. apply length_filter. Qed.

(** A mapped page keeps a region, unless it is in the part taken out. *)
Lemma carved_pages o x y mm mm' k :
  carved o x y mm mm' -> (exists r, r ∈ regions mm /\ contains k r) -> ~ (x <= k < y) ->
  exists r, r ∈ regions mm' /\ contains k r.
Proof.
  intros (l & P & P' & Hxy & _) (r & Hr & Hc) Hn. rewrite P in Hr.
  apply elem_of_cons in Hr as [-> | Hr].
  - destruct (rest_covers o x y k) as (q & Hq & Hcq & _); auto. exists q. rewrite P'. set_solver.
  - exists r. rewrite P'. set_solver.
Qed.
End Ops.
