(* ===== verification/VmMapProof.v ===== *)
(** * Correctness of the memory map

    Theorems about src/mm/impl/mmap.c: what mapping, unmapping, protecting,
    extending and duplicating do to an address space, address by address; that
    the splitting loops end and never use a released object; that the search
    for room finds it; that the cached lookup agrees with the tree. *)

From S2P Require Import Prelude VmMap VmMapTree VmMapPages VmMapInv VmMapOps.

Section Proofs.
Context `{Arch} `{Files} `{RbTreeLaws}.

(** ** Taking a range out of a region *)

Definition in_range (a b e : Z) : bool := bool_decide (b <= a < e).

(** The part of a region that a range takes: the code's unmap_begin and
    unmap_end. *)
Definition cut_begin (b : Z) (o : vm_region) : Z := if b <? begin o then begin o else b.
Definition cut_end (e : Z) (o : vm_region) : Z := if end_ o <? e then end_ o else e.

(** After a flush and the unmapping of a part of a region, the state between
    two steps is kept. *)
Lemma clear_step ext held mm s o b e :
  mid ext held mm s -> o ∈ regions mm -> overlaps b e o -> aligned e ->
  exists s1, vm_flush_dirty_region o (cut_begin b o) (cut_end e o) s = Some s1 /\
    exists s2, unmap_range (cut_begin b o) (cut_end e o) s1 = Some s2 /\
    mid ext held mm s2 /\ g_anon_id_next s2 = g_anon_id_next s /\
    ptes s2 = outside (cut_begin b o) (cut_end e o) (ptes s).
Proof.
  intros Hm Ho Hov Ae.
  destruct (vm_flush_dirty_region_spec o (cut_begin b o) (cut_end e o) s) as (s1 & E1 & F1).
  exists s1. split; [done|]. pose proof (mid_flushed _ _ _ _ _ Hm F1) as M1.
  assert (Ac : aligned (cut_end e o)).
  { unfold cut_end. case_if; auto. apply (md_regions _ _ _ _ Hm _ Ho). }
  eexists. rewrite unmap_range_spec; [|apply (md_pages _ _ _ _ M1) | done].
  split; [done|]. destruct F1 as (Ep & _ & _ & _ & _ & Eg). split_and!.
  - apply mid_ptes; auto. intros k. rewrite outside_lookup. case_bool_decide; auto.
    intros [? ?]; discriminate.
  - cbn. done.
  - cbn. rewrite Ep. done.
Qed.

Lemma outside_outside b e b' e' p :
  b' <= b -> e <= e' -> outside b' e' (outside b e p) = outside b' e' p.
Proof.
  intros. apply map_eq. intros k. rewrite !outside_lookup.
  repeat case_bool_decide; auto; lia.
Qed.

(** One pass of the loops of mapping and unmapping leaves an address space
    with the range taken out of one region. *)
Lemma pass_ok ext mm s s2 o b e mm3 s4 :
  mm_ok ext mm s -> o ∈ regions mm -> overlaps b e o -> b < e ->
  ptes s2 = outside (cut_begin b o) (cut_end e o) (ptes s) ->
  mid ext [] mm3 s4 -> kept mm s2 mm3 s4 -> carved o (cut_begin b o) (cut_end e o) mm mm3 ->
  mm_ok ext mm3 s4 /\ meets b e mm = S (meets b e mm3) /\
  outside b e (ptes s4) = outside b e (ptes s) /\
  (forall a, ~ (b <= a < e) -> view mm3 a = view mm a).
Proof.
  intros [Hm Hp] Ho Hov Hbe Ep M (_ & _ & Ek & _) Hc.
  pose proof (ordered_member _ _ (md_ordered _ _ _ _ Hm) Ho) as Hne.
  unfold overlaps, nonempty in *.
  assert (Hcut : b <= cut_begin b o /\ cut_end e o <= e /\ begin o <= cut_begin b o /\ cut_end e o <= end_ o).
  { unfold cut_begin, cut_end. repeat case_if; breflect; lia. }
  split_and!.
  - split; auto. intros k Hk. rewrite Ek, Ep, outside_lookup in Hk.
    case_bool_decide; [destruct Hk; discriminate|]. eapply carved_pages; eauto.
  - eapply carved_meets; eauto; unfold overlaps, cut_begin, cut_end; repeat case_if; breflect; lia.
  - rewrite Ek, Ep. apply outside_outside; lia.
  - intros a Ha. rewrite (carved_view _ _ _ _ _ _ Hc); [|apply Hm | apply M].
    rewrite bool_decide_eq_false_2; auto. lia.
Qed.

Lemma cut_facts b e o :
  overlaps b e o -> nonempty o -> b < e ->
  cut_begin b o <= cut_end e o /\ cut_begin b o <= end_ o /\ begin o <= cut_end e o.
Proof. unfold overlaps, nonempty, cut_begin, cut_end. intros; repeat case_if; breflect; lia. Qed.

Lemma cut_begin_ltb b o :
  (begin o <? cut_begin b o) = (begin o <? b) /\ (begin o < b -> cut_begin b o = b).
Proof. unfold cut_begin. repeat case_if; breflect; zcases; split; intros; lia. Qed.
Lemma cut_end_ltb e o :
  (cut_end e o <? end_ o) = (e <? end_ o) /\ (e < end_ o -> cut_end e o = e).
Proof. unfold cut_end. repeat case_if; breflect; zcases; split; intros; lia. Qed.

Lemma cut_aligned b e o :
  aligned b -> aligned e ->
  (begin o < cut_begin b o -> aligned (cut_begin b o)) /\ (cut_end e o < end_ o -> aligned (cut_end e o)).
Proof. unfold cut_begin, cut_end. intros; split; repeat case_if; breflect; auto; lia. Qed.

(** ** Mapping *)

(** What the address space is after a mapping of [b, e). *)
Definition mapped_over (b e : Z) (new : vm_region) (mm mm' : mm_struct) : Prop :=
  forall a, view mm' a = if in_range a b e then Some (attr a new) else view mm a.

Definition same_bounds (mm : mm_struct) (s : kstate) (mm' : mm_struct) (s' : kstate) : Prop :=
  mmap_base mm' = mmap_base mm /\ task_size mm' = task_size mm /\
  g_anon_id_next s' = g_anon_id_next s.

(** The insertion that ends a mapping, when nothing is in the way. *)
Lemma insert_over ext b e p fl f off id lk mm s :
  mm_ok ext mm s -> b < e -> aligned b -> aligned e ->
  (f <> 0 -> 0 < of_file ext f) -> (lk <> 0 -> 0 < of_lock ext lk) ->
  (forall r, r ∈ regions mm -> ~ overlaps b e r) ->
  exists mm' s' lk', insert_region b e p fl f off id lk mm s = Some (mm', s') /\
    (lk <> 0 -> lk' = lk) /\
    mm_ok ext mm' s' /\ mapped_over b e (new_region b e p fl f off id lk') mm mm' /\
    ptes s' = outside b e (ptes s) /\ same_bounds mm s mm' s'.
Proof.
  intros Hok Hbe Ab Ae Hf Hl Hd.
  pose proof Hok as [Hm Hp]. pose proof (md_refs _ _ _ _ Hm) as [Hext HF _ HK _ _].
  destruct (insert_step ext [] mm s b e p fl f off id lk) as (mm' & s' & Es & P & M & (Kb & Kt & Kp & Kg)); auto.
  { intros Hf0. rewrite HF. pose proof (cnt_nonneg (uses_file f) ([] ++ regions mm)). specialize (Hf Hf0). lia. }
  { intros Hl0. rewrite HK. pose proof (cnt_nonneg (uses_lock lk) ([] ++ regions mm)). specialize (Hl Hl0). lia. }
  set (r := new_region _ _ _ _ _ _ _ _) in P.
  exists mm', s', (fault_lock r). rewrite Es. split; [done|].
  split. { intros Hl0. unfold r. cbn. rewrite (proj2 (Z.eqb_neq _ _)); auto. }
  assert (Hout : outside b e (ptes s) = ptes s).
  { apply map_eq. intros k. rewrite outside_lookup. case_bool_decide as Hk; auto.
    destruct (ptes s !! k) eqn:Ek; auto. destruct (Hp k) as (q & Hq & Hc); eauto.
    exfalso. apply (Hd q Hq). unfold overlaps, contains in *. lia. }
  rewrite Hout. split_and!; auto; [| |done].
  - split; auto. intros k Hk. rewrite Kp in Hk. destruct (Hp k Hk) as (q & Hq & Hc).
    exists q. rewrite P. set_solver.
  - intros a. unfold in_range. case_bool_decide as Ha.
    + apply (view_in mm' a r); [apply M | rewrite P; left | unfold r; apply Ha].
    + destruct (view mm a) as [z|] eqn:Ev.
      * apply view_some in Ev as (q & Hq & Hc & ->). apply view_in; [apply M | | auto].
        rewrite P. set_solver.
      * apply view_out. intros q Hq. rewrite P in Hq. apply elem_of_cons in Hq as [-> | Hq].
        -- unfold contains, r; cbn. lia.
        -- eapply view_none; eauto.
Qed.

Lemma meets_pos b e mm o : o ∈ regions mm -> overlaps b e o -> meets b e mm <> O.
Proof.
  intros Ho Hov. unfold meets.
  assert (Hof : o ∈ filter (overlaps b e) (regions mm)) by (apply list_elem_of_filter; auto).
  destruct (filter _ _); [inversion Hof | done].
Qed.

Lemma add_map_loop_ok ext n b e p fl f off id lk mm s :
  mm_ok ext mm s -> b < e -> aligned b -> aligned e ->
  (f <> 0 -> 0 < of_file ext f) -> (lk <> 0 -> 0 < of_lock ext lk) -> (meets b e mm < n)%nat ->
  exists mm' s' lk', add_map_loop n b e p fl f off id lk mm s = Some (mm', s') /\
    (lk <> 0 -> lk' = lk) /\
    mm_ok ext mm' s' /\ mapped_over b e (new_region b e p fl f off id lk') mm mm' /\
    ptes s' = outside b e (ptes s) /\ same_bounds mm s mm' s'.
Proof.
  intros Hok Hbe Ab Ae Hf Hl. revert mm s Hok. induction n as [|n IH]; intros mm s Hok Hn; [lia|].
  cbn [add_map_loop]. unfold vm_tree_find. destruct (tree_find (vma_index mm) b e) as [o|] eqn:E.
  2: { apply insert_over; auto. apply tree_find_none; auto. apply Hok. }
  apply tree_find_some in E as [Ho Hov]. pose proof Hok as [Hm _].
  pose proof (ordered_member _ _ (md_ordered _ _ _ _ Hm) Ho) as Hne.
  destruct (hold_step _ _ _ _ _ Hm Ho) as (s0 & -> & M0 & K0). cbn [mbind option_bind].
  fold (cut_begin b o) (cut_end e o).
  destruct (clear_step _ _ _ _ _ b e M0 Ho Hov Ae) as (s1 & -> & s2 & E2 & M2 & G2 & P2).
  cbn [mbind option_bind]. rewrite E2. cbn [mbind option_bind].
  destruct (cut_facts b e o Hov Hne Hbe) as (C1 & C2 & C3).
  destruct (cut_aligned b e o Ab Ae) as (A1 & A2).
  pose proof (meets_pos b e mm o Ho Hov) as Hn0. destruct n as [|n']; [lia|].
  destruct (carve_steps ext mm s2 o (cut_begin b o) (cut_end e o) (fun _ => n') (fun _ => n') M2 Ho C1 C2 C3 A1 A2)
    as (mm1 & s3 & mm2 & s4 & mm3 & s5 & s6 & R1 & R2 & R3 & R4 & M6 & K6 & Hc).
  destruct (cut_begin_ltb b o) as [B1 B2], (cut_end_ltb e o) as [B3 B4].
  rewrite B1 in R2. rewrite B3 in R3. rewrite R1. cbn [mbind option_bind].
  replace (if begin o <? b then _ else _) with (Some (mm2, s4)).
  2: { rewrite <- R2. case_if; breflect; [rewrite B2|]; done. }
  cbn [mbind option_bind].
  replace (if e <? end_ o then _ else _) with (Some (mm3, s5)).
  2: { rewrite <- R3. case_if; breflect; [rewrite B4|]; done. }
  cbn [mbind option_bind]. rewrite R4. cbn [mbind option_bind].
  rewrite (proj1 (proj2 (proj2 K0))) in P2.
  destruct (pass_ok ext mm s s2 o b e mm3 s6) as (Hok' & Hmt & Hout & Hv); auto.
  destruct (IH mm3 s6 Hok') as (mm' & s' & lk' & Er & El & Hok2 & Hover & Ep & Eb); [lia|].
  exists mm', s', lk'. rewrite Er. unfold same_bounds, kept in *.
  split_and!; auto; try (intuition congruence).
  intros a. rewrite Hover. unfold in_range. case_bool_decide; auto.
Qed.

(** ** Unmapping *)

(** What the address space is after [b, e) is unmapped. *)
Definition unmapped_over (b e : Z) (mm mm' : mm_struct) : Prop :=
  forall a, view mm' a = if in_range a b e then None else view mm a.

Lemma munmap_loop_ok ext n b e mm s :
  mm_ok ext mm s -> b < e -> aligned b -> aligned e -> (meets b e mm < n)%nat ->
  exists mm' s', munmap_loop n b e mm s = Some (mm', s') /\
    mm_ok ext mm' s' /\ unmapped_over b e mm mm' /\
    ptes s' = outside b e (ptes s) /\ same_bounds mm s mm' s'.
Proof.
  intros Hok Hbe Ab Ae. revert mm s Hok. induction n as [|n IH]; intros mm s Hok Hn; [lia|].
  cbn [munmap_loop]. unfold vm_tree_find. destruct (tree_find (vma_index mm) b e) as [o|] eqn:E.
  - apply tree_find_some in E as [Ho Hov]. pose proof Hok as [Hm _].
    pose proof (ordered_member _ _ (md_ordered _ _ _ _ Hm) Ho) as Hne.
    fold (cut_begin b o) (cut_end e o).
    destruct (clear_step _ _ _ _ _ b e Hm Ho Hov Ae) as (s1 & -> & s2 & E2 & M2 & G2 & P2).
    cbn [mbind option_bind]. rewrite E2. cbn [mbind option_bind].
    destruct (hold_step _ _ _ _ _ M2 Ho) as (s0 & -> & M0 & K0). cbn [mbind option_bind].
    destruct (cut_facts b e o Hov Hne Hbe) as (C1 & C2 & C3).
    destruct (cut_aligned b e o Ab Ae) as (A1 & A2).
    destruct (carve_steps ext mm s0 o (cut_begin b o) (cut_end e o)
                (fun m => tree_size (vma_index m)) (fun m => tree_size (vma_index m)) M0 Ho C1 C2 C3 A1 A2)
      as (mm1 & s3 & mm2 & s4 & mm3 & s5 & s6 & R1 & R2 & R3 & R4 & M6 & K6 & Hc).
    unfold vm_add_map_with_lock.
    rewrite R1. cbn [mbind option_bind]. rewrite R2. cbn [mbind option_bind].
    rewrite R3. cbn [mbind option_bind]. rewrite R4. cbn [mbind option_bind].
    destruct (pass_ok ext mm s s0 o b e mm3 s6) as (Hok' & Hmt & Hout & Hv); auto.
    { unfold kept in K0. intuition congruence. }
    destruct (IH mm3 s6 Hok') as (mm' & s' & Er & Hok2 & Hover & Ep & Eb); [lia|].
    exists mm', s'. rewrite Er. unfold same_bounds, kept in *.
    split_and!; auto; try (intuition congruence).
    intros a. rewrite Hover. unfold in_range. case_bool_decide; auto.
  - pose proof Hok as [Hm Hp].
    pose proof (tree_find_none _ _ _ (md_ordered _ _ _ _ Hm) E) as Hd.
    exists mm, s. split_and!; auto; [| |done].
    + intros a. unfold in_range. case_bool_decide as Ha; auto. apply view_out.
      intros r Hr Hc. apply (Hd r Hr). unfold overlaps, contains in *; lia.
    + apply map_eq. intros k. rewrite outside_lookup. case_bool_decide as Hk; auto.
      destruct (ptes s !! k) eqn:Ek; auto. destruct (Hp k) as (q & Hq & Hc); eauto.
      exfalso. apply (Hd q Hq). unfold overlaps, contains in *. lia.
Qed.
(** ** Protecting *)

Definition protect (p : Z) (x : attributes) : attributes :=
  Attr p (at_flag x) (at_vm_flags x) (at_lock x) (at_file x) (at_offset x) (at_anon x).

(** What the address space is after [b, e) gets protection [p]. *)
Definition protected_over (b e p : Z) (mm mm' : mm_struct) : Prop :=
  forall a, view mm' a = if in_range a b e then protect p <$> view mm a else view mm a.

(** The part of [o] between [x] and [y] with protection [p]. *)
Abbreviation inner o x y p := (piece o x y p (u64 (offset o + (x - begin o)))).

(** A pass of vm_mprotect() splits one region in three. *)
Lemma reprotect_steps ext mm s o x y p :
  mid ext [] mm s -> o ∈ regions mm -> begin o <= x -> x < y -> y <= end_ o -> aligned x -> aligned y ->
  exists s0 mm1 s1 mm2 s2 mm3 s3 mm4 s4 s5,
    hold_refs o s = Some s0 /\ vm_tree_remove mm o s0 = Some (mm1, s1) /\
    (if begin o <? x
     then vm_add_map_with_lock (begin o) x (prot o) (flag o) (fp o) (offset o) (anon_id o)
            (fault_lock o) mm1 s1
     else Some (mm1, s1)) = Some (mm2, s2) /\
    vm_add_map_with_lock x y p (flag o) (fp o) (u64 (offset o + (x - begin o))) (anon_id o)
      (fault_lock o) mm2 s2 = Some (mm3, s3) /\
    (if y <? end_ o
     then vm_add_map_with_lock y (end_ o) (prot o) (flag o) (fp o)
            (u64 (offset o + (y - begin o))) (anon_id o) (fault_lock o) mm3 s3
     else Some (mm3, s3)) = Some (mm4, s4) /\
    vm_region_free o s4 = Some s5 /\
    mid ext [] mm4 s5 /\ kept mm s mm4 s5 /\
    exists l, regions mm ≡ₚ o :: l /\ regions mm4 ≡ₚ inner o x y p :: rest o x y ++ l.
Proof.
  intros Hm Ho Hx Hxy Hy Ax Ay. assert (Hok : region_ok o) by (eapply md_regions; eauto).
  pose proof (md_ordered _ _ _ _ Hm) as Hord.
  destruct (hold_step _ _ _ _ _ Hm Ho) as (s0 & E0 & M0 & K0).
  destruct (remove_step _ _ _ _ _ M0 Ho) as (mm1 & s1 & E1 & P1 & M1 & K1).
  assert (Hdis : forall r, r ∈ regions mm1 -> end_ r <= begin o \/ end_ o <= begin r).
  { intros r Hr. eapply ordered_beside; eauto. }
  destruct (maybe_piece_step ext [o] mm1 s1 o (begin o) x (prot o) (offset o) (tree_size (vma_index mm1)))
    as (mm2 & s2 & E2 & P2 & M2 & K2); auto; [left| |].
  { intros Hlt. split_and!; auto; [apply Hok|]. intros r Hr. specialize (Hdis r Hr). unfold overlaps. lia. }
  assert (Hd2 : forall r, r ∈ regions mm2 -> end_ r <= x \/ end_ o <= begin r).
  { intros r Hr. rewrite P2 in Hr. apply elem_of_app in Hr as [Hr | Hr]; [|specialize (Hdis r Hr); lia].
    case_if; [|inversion Hr]. apply list_elem_of_singleton in Hr as ->. cbn. lia. }
  destruct (piece_step ext [o] mm2 s2 o x y p (u64 (offset o + (x - begin o))) (tree_size (vma_index mm2)))
    as (mm3 & s3 & E3 & P3 & M3 & K3); auto; [left| |].
  { intros r Hr. specialize (Hd2 r Hr). unfold overlaps. lia. }
  destruct (maybe_piece_step ext [o] mm3 s3 o y (end_ o) (prot o) (u64 (offset o + (y - begin o))) (tree_size (vma_index mm3)))
    as (mm4 & s4 & E4 & P4 & M4 & K4); auto; [left| |].
  { intros Hlt. split_and!; auto; [apply Hok|]. intros r Hr. unfold overlaps. rewrite P3 in Hr.
    apply elem_of_cons in Hr as [-> | Hr]; [cbn; lia|]. specialize (Hd2 r Hr). lia. }
  destruct (release_step _ _ _ _ _ M4) as (s5 & E5 & M5 & K5).
  exists s0, mm1, s1, mm2, s2, mm3, s3, mm4, s4, s5. split_and!; auto.
  - do 5 (eapply kept_trans; [eassumption|]). done.
  - exists (regions mm1). split; [done|]. rewrite P4, P3, P2. unfold rest.
    rewrite <- Permutation_middle. apply Permutation_skip. rewrite app_assoc.
    apply Permutation_app_tail, Permutation_app_comm.
Qed.

Lemma reprotect_view o x y p l mm mm' :
  regions mm ≡ₚ o :: l -> regions mm' ≡ₚ inner o x y p :: rest o x y ++ l ->
  begin o <= x -> x < y -> y <= end_ o -> ordered (regions mm) -> ordered (regions mm') ->
  protected_over x y p mm mm'.
Proof.
  intros P P' Hx Hxy Hy Ho Ho' a. unfold in_range.
  assert (Hoi : o ∈ regions mm) by (rewrite P; left).
  assert (Hl : forall r, r ∈ l -> r ∈ regions mm /\ r ∈ regions mm').
  { intros r Hr. rewrite P, P'. set_solver. }
  case_bool_decide as Ha.
  - rewrite (view_in mm a o), (view_in mm' a (inner o x y p)); auto; unfold contains; cbn; try lia.
    + unfold attr, protect; cbn. do 2 f_equal. rewrite u64_shift. f_equal; lia.
    + rewrite P'. left.
  - destruct (decide (contains a o)) as [Hao | Hao].
    + destruct (rest_covers o x y a) as (r & Hr & Hcr & Er); auto; [lia|].
      rewrite (view_in mm' a r), (view_in mm a o); auto; [congruence|]. rewrite P'. set_solver.
    + destruct (view mm a) as [z|] eqn:Ev.
      * apply view_some in Ev as (r & Hr & Hcr & ->). rewrite P in Hr.
        apply elem_of_cons in Hr as [-> | Hr]; [tauto|]. apply view_in; auto. apply Hl; auto.
      * apply view_out. intros r Hr Hcr. rewrite P' in Hr. apply elem_of_cons in Hr as [-> | Hr].
        { unfold contains in *; cbn in *. lia. }
        apply elem_of_app in Hr as [Hr | Hr].
        -- destruct (rest_within _ _ _ _ _ Hr Hcr); auto; lia.
        -- eapply (view_none mm a r); eauto. apply Hl; auto.
Qed.

(** The regions a protection from [cursor] on has before it. *)
Definition pending (cursor e : Z) (mm : mm_struct) : nat :=
  length (filter (fun r => cursor < end_ r /\ begin r < e) (regions mm)).

Lemma filter_length_mono {A} (P Q : A -> Prop) `{!forall x, Decision (P x)} `{!forall x, Decision (Q x)}
  (l : list A) : (forall x, P x -> Q x) -> (length (filter P l) <= length (filter Q l))%nat.
Proof.
  intros Hi. induction l as [|a l IH]; [done|]. destruct (decide (P a)).
  - rewrite !filter_cons_True by auto. cbn. lia.
  - rewrite filter_cons_False by auto. destruct (decide (Q a)).
    + rewrite filter_cons_True by auto. cbn. lia.
    + rewrite filter_cons_False by auto. done.
Qed.

Lemma reprotect_pending o x y p l cursor e mm mm' :
  regions mm ≡ₚ o :: l -> regions mm' ≡ₚ inner o x y p :: rest o x y ++ l ->
  x < y -> cursor <= y -> cursor < end_ o -> begin o < e -> (y < end_ o -> e <= y) ->
  (pending y e mm' < pending cursor e mm)%nat.
Proof.
  intros P P' Hxy Hc Hco Hoe Hy. unfold pending. rewrite P, P'.
  rewrite filter_cons_False by (cbn; lia). rewrite filter_cons_True by lia.
  rewrite filter_app, filter_nothing. { cbn. apply Nat.lt_succ_r. apply filter_length_mono. lia. }
  intros r Hr. destruct (rest_member _ _ _ _ Hr) as [[-> ?] | [-> ?]]; cbn; lia.
Qed.
Lemma page_of_aligned a : aligned a -> page_of a = a.
Proof. unfold aligned, page_of. lia. Qed.

(** The region vm_find_vma() returns is the first that ends above. *)
Lemma find_vma_first mm a r :
  ordered (regions mm) -> aligned a -> vm_find_vma mm a = Some r ->
  r ∈ regions mm /\ a < end_ r /\
  forall q, q ∈ regions mm -> a < end_ q -> begin r <= begin q.
Proof.
  intros Ho Aa. unfold vm_find_vma. rewrite page_of_aligned, find_vma_from_spec by auto.
  destruct (filter _ (regions mm)) as [|x l] eqn:Ef; cbn; [discriminate|]. intros; simplify_eq.
  assert (Hr : r ∈ filter (fun x => a < end_ x) (regions mm)) by (rewrite Ef; left).
  apply list_elem_of_filter in Hr as [Hr1 Hr2]. split_and!; auto. intros q Hq Hqa.
  assert (Hqf : q ∈ filter (fun x => a < end_ x) (regions mm)) by (apply list_elem_of_filter; auto).
  rewrite Ef in Hqf. apply elem_of_cons in Hqf as [-> | Hqf]; [lia|].
  assert (Hs : ordered (r :: l)).
  { rewrite <- Ef. clear -Ho. induction (regions mm) as [|y k IH]; [done|].
    apply ordered_cons in Ho as (? & Hk & Hb). destruct (decide (a < end_ y)).
    - rewrite filter_cons_True by auto. apply ordered_cons. split_and!; auto.
      intros z Hz. apply list_elem_of_filter in Hz as [_ Hz]. auto.
    - rewrite filter_cons_False by auto. auto. }
  pose proof (ordered_member _ _ Hs ltac:(left)) as Hn. apply ordered_cons in Hs as (_ & _ & Hb).
  specialize (Hb q Hqf). unfold before, nonempty in *. lia.
Qed.

Lemma find_vma_none mm a :
  ordered (regions mm) -> aligned a -> vm_find_vma mm a = None ->
  forall r, r ∈ regions mm -> end_ r <= a.
Proof.
  intros Ho Aa. unfold vm_find_vma. rewrite page_of_aligned, find_vma_from_spec by auto.
  destruct (head _) eqn:E; [discriminate|]. intros _ r Hr.
  pose proof (head_filter_none _ _ E r Hr) as Hn. cbv beta in Hn. lia.
Qed.

Lemma protect_idem p (x : option attributes) : protect p <$> (protect p <$> x) = protect p <$> x.
Proof. destruct x; done. Qed.

Lemma mprotect_loop_ok ext n b e cursor p mm s :
  mm_ok ext mm s -> b < e -> aligned b -> aligned e -> aligned cursor -> b <= cursor <= e ->
  (forall a, b <= a < cursor -> view mm a = protect p <$> view mm a) ->
  (pending cursor e mm < n)%nat ->
  exists mm' s', mprotect_loop n b e cursor p mm s = Some (mm', s') /\
    mm_ok ext mm' s' /\ protected_over b e p mm mm' /\
    ptes s' = ptes s /\ same_bounds mm s mm' s'.
Proof.
  intros Hok Hbe Ab Ae. revert cursor mm s Hok.
  induction n as [|n IH]; intros cursor mm s Hok Ac Hbc Hdone Hn; [lia|].
  cbn [mprotect_loop]. pose proof Hok as [Hm Hp]. pose proof (md_ordered _ _ _ _ Hm) as Ho.
  (* nothing is left between the cursor and the end *)
  assert (Hend : (forall r, r ∈ regions mm -> end_ r <= cursor \/ e <= begin r) ->
          exists mm' s', Some (mm, s) = Some (mm', s') /\ mm_ok ext mm' s' /\
            protected_over b e p mm mm' /\ ptes s' = ptes s /\ same_bounds mm s mm' s').
  { intros Hnone. exists mm, s. split_and!; auto; [|done]. intros a. unfold in_range.
    case_bool_decide; auto. destruct (decide (a < cursor)); [apply Hdone; lia|].
    rewrite view_out; [done|]. intros r Hr. specialize (Hnone r Hr). unfold contains. lia. }
  destruct (vm_find_vma mm cursor) as [r|] eqn:Ef.
  2: { apply Hend. intros r Hr. left. eapply find_vma_none; eauto. }
  destruct (find_vma_first _ _ _ Ho Ac Ef) as (Hr & Hre & Hfirst).
  destruct (Z.ltb_spec (begin r) e) as [Hlt | Hge]; cbn [negb].
  2: { apply Hend. intros q Hq. destruct (decide (cursor < end_ q)) as [Hc|]; [|lia].
       specialize (Hfirst q Hq Hc). lia. }
  fold (cut_begin b r) (cut_end e r).
  pose proof (ordered_member _ _ Ho Hr) as Hne. pose proof (md_regions _ _ _ _ Hm r Hr) as [Ar1 Ar2 _ _].
  assert (HB : (begin r <= cut_begin b r /\ b <= cut_begin b r /\ cut_begin b r < cut_end e r /\
              cut_end e r <= end_ r) /\ cursor <= cut_end e r <= e /\ (cut_end e r < end_ r -> e <= cut_end e r) /\
              aligned (cut_begin b r) /\ aligned (cut_end e r) /\
              (cut_begin b r = b \/ cut_begin b r = begin r)).
  { unfold cut_begin, cut_end, nonempty in *. repeat case_if; breflect; (split; [lia|]); split; auto; try lia;
      split; auto; lia. }
  destruct HB as ((B1 & B2 & B3 & B4) & B5 & B6 & B7 & B8 & B9).
  destruct (reprotect_steps ext mm s r (cut_begin b r) (cut_end e r) p)
    as (s0 & mm1 & s1 & mm2 & s2 & mm3 & s3 & mm4 & s4 & s5 & E0 & E1 & E2 & E3 & E4 & E5 & M5 & K5 & l & P & P'); auto.
  rewrite E0. cbn [mbind option_bind]. rewrite E1. cbn [mbind option_bind]. rewrite E2. cbn [mbind option_bind].
  rewrite E3. cbn [mbind option_bind]. rewrite E4. cbn [mbind option_bind]. rewrite E5. cbn [mbind option_bind].
  pose proof (reprotect_view _ _ _ _ _ _ _ P P' B1 B3 B4 Ho (md_ordered _ _ _ _ M5)) as Hv.
  pose proof (reprotect_pending _ _ _ _ _ cursor e _ _ P P' B3 ltac:(lia) Hre Hlt B6) as Hpn.
  destruct (IH (cut_end e r) mm4 s5) as (mm' & s' & Er & Hok' & Hover & Ep & Eb); auto; try lia.
  { split; auto. intros k Hk. rewrite (proj1 (proj2 (proj2 K5))) in Hk.
    destruct (Hp k Hk) as (q & Hq & Hc).
    pose proof (view_in mm k q Ho Hq Hc) as Hvk. specialize (Hv k). rewrite Hvk in Hv.
    destruct (view mm4 k) eqn:E4k; [|destruct (in_range _ _ _); discriminate].
    apply view_some in E4k as (z & ? & ? & _); eauto. }
  { intros a Ha. rewrite Hv. unfold in_range. case_bool_decide; [rewrite protect_idem; done|].
    destruct (decide (a < cursor)); [apply Hdone; lia|].
    rewrite view_out; [done|]. intros q Hq Hc. unfold contains in *.
    specialize (Hfirst q Hq ltac:(lia)). lia. }
  exists mm', s'. rewrite Er. unfold same_bounds, kept in *. split_and!; auto; try (intuition congruence).
  intros a. rewrite Hover, Hv. unfold in_range. repeat case_bool_decide; auto; try lia.
  rewrite protect_idem; done.
Qed.
(** ** Finding room *)

Definition free_range (mm : mm_struct) (b e : Z) : Prop :=
  forall r, r ∈ regions mm -> ~ overlaps b e r.

Lemma disc_loop_ok mm size l1 l2 c fuel :
  ordered (regions mm) -> regions mm = l1 ++ l2 -> (length l2 < fuel)%nat -> 0 < size ->
  (forall r, r ∈ l1 -> end_ r <= c) ->
  exists c', disc_loop fuel mm size (head l2) c = Some c' /\
    (c' = 0 \/ (c <= c' /\ (c' + size < vaddr_mod -> 0 <= c -> free_range mm c' (c' + size)))) /\
    (forall w, 0 <= c <= w -> free_range mm w (w + size) -> task_size mm < vaddr_mod ->
       w + size <= task_size mm - USER_STACK_PAGES * PAGE_SIZE ->
       c <= c' <= w /\ free_range mm c' (c' + size)).
Proof.
  revert l1 l2 c. induction fuel as [|fuel IH]; intros l1 l2 c Ho El Hf Hs Hc; [lia|].
  destruct l2 as [|r l2]; cbn [disc_loop head].
  - rewrite app_nil_r in El. rewrite <- El in Hc.
    assert (Hfree : free_range mm c (c + size)).
    { intros r Hr. specialize (Hc r Hr). unfold overlaps. lia. }
    eexists. split; [done|]. split.
    + case_if; [right | left; done]. split; [lia | auto].
    + intros w Hw _ Hts Hwl. unfold USER_STACK_PAGES, PAGE_SIZE in *.
      rewrite Z.mod_small by lia. rewrite (proj2 (Z.leb_le _ _)) by lia. split; [lia | auto].
  - assert (Hr : r ∈ regions mm) by (rewrite El; set_solver).
    assert (Hl2 : forall q, q ∈ l2 -> end_ r <= begin q).
    { rewrite El in Ho. apply ordered_app in Ho as (_ & Ho & _). apply ordered_cons in Ho as (_ & _ & Hb). auto. }
    pose proof (ordered_member _ _ Ho Hr) as Hne. unfold nonempty in Hne.
    assert (Hgap : c + size <= begin r -> free_range mm c (c + size)).
    { intros Hg q Hq. rewrite El in Hq. apply elem_of_app in Hq as [Hq | Hq].
      - specialize (Hc q Hq). unfold overlaps; lia.
      - unfold overlaps. apply elem_of_cons in Hq as [-> | Hq]; [lia|]. specialize (Hl2 q Hq). lia. }
    case_if; breflect.
    + exists c. split; [done|]. split.
      * right. split; [lia|]. intros Hlt H0c. apply Hgap. rewrite Z.mod_small in *; lia.
      * intros w Hw _ Hts Hwl. split; [lia|]. apply Hgap.
        unfold USER_STACK_PAGES, PAGE_SIZE in *. rewrite Z.mod_small in *; lia.
    + unfold vm_tree_next. rewrite (rb_next_spec _ l1 r l2) by auto.
      set (c2 := if c <? end_ r then end_ r else c).
      assert (Hc2 : c <= c2 /\ end_ r <= c2 /\ (c2 = c \/ c2 = end_ r)).
      { unfold c2. case_if; breflect; lia. }
      destruct (IH (l1 ++ [r]) l2 c2) as (c' & -> & Hsound & Hcomp); auto.
      { rewrite <- app_assoc. done. } { cbn in Hf. lia. }
      { intros q Hq. apply elem_of_app in Hq as [Hq | Hq]; [specialize (Hc q Hq); lia|].
        apply list_elem_of_singleton in Hq as ->. lia. }
      exists c'. split; [done|]. split.
      * destruct Hsound as [? | [? ?]]; [left; auto | right]. split; [lia|]. intros; auto with lia.
      * intros w Hw Hwf Hts Hwl. assert (c2 <= w).
        { specialize (Hwf r Hr). unfold overlaps in Hwf.
          unfold USER_STACK_PAGES, PAGE_SIZE in *. rewrite Z.mod_small in *; lia. }
        destruct (Hcomp w) as [? ?]; auto; split; auto; lia.
Qed.
End Proofs.
