(* ===== verification/VmMapCorrect.v ===== *)
(** * Theorems of the memory map

    The correctness of the operations of src/mm/impl/mmap.c, stated for any
    machine, any files and any red-black tree that keeps its promises, with
    runs on the two machines of the repository. *)

From S2P Require Import Prelude VmMap VmMapTree VmMapRb VmMapPages VmMapInv VmMapOps VmMapProof.

Section Theorems.
Context `{Arch} `{Files} `{RbTreeLaws}.

(** C1: vm_add_map() always completes, keeps the invariant (regions in order
    and disjoint, every reference accounted for, no page outside of a
    region), maps every address of [b, e) as asked and leaves every other
    address with the attributes and the file byte it had, however many
    regions it splits; the pages of the range are unmapped, the others are
    not touched. *)
Theorem vm_add_map_correct ext b e p fl f off id mm s :
  mm_ok ext mm s -> b < e -> aligned b -> aligned e -> (f <> 0 -> 0 < of_file ext f) ->
  exists mm' s' lk, vm_add_map b e p fl f off id mm s = Some (mm', s') /\ mm_ok ext mm' s' /\
    (forall a, view mm' a = if in_range a b e
                            then Some (Attr p fl (vm_region_flags_for_file f) lk f (u64 (off + (a - b))) id)
                            else view mm a) /\
    (forall k, ptes s' !! k = if in_range k b e then None else ptes s !! k).
Proof.
  intros Hok Hbe Ab Ae Hf.
  destruct (add_map_loop_ok ext (S (tree_size (vma_index mm))) b e p fl f off id 0 mm s)
    as (mm' & s' & lk & E & _ & Hok' & Hv & Hp & _); auto; [lia| |].
  { pose proof (meets_bound b e mm). lia. }
  exists mm', s', lk. split_and!; auto. intros k. rewrite Hp, outside_lookup. done.
Qed.

(** C2: do_munmap() refuses a range outside of the task with -EINVAL and no
    effect; otherwise it completes, keeps the invariant, and afterwards no
    address and no page of the range is mapped while every other address and
    page is what it was. *)
Theorem do_munmap_correct ext addr length c mm s :
  mm_ok ext mm s -> 0 <= addr -> 0 <= length -> task_size mm + PAGE_SIZE <= vaddr_mod ->
  let b := page_of addr in
  let e := b + (length + PAGE_SIZE - 1) / PAGE_SIZE * PAGE_SIZE in
  exists res c' mm' s', do_munmap addr length c mm s = Some (res, c', mm', s') /\ mm_ok ext mm' s' /\
    if (task_size mm <=? b) || (task_size mm - b <? length) || negb (arch_mm_user_range_valid b length)
    then res = - EINVAL /\ mm' = mm /\ s' = s
    else res = 0 /\
         (forall a, view mm' a = if in_range a b e then None else view mm a) /\
         (forall k, ptes s' !! k = if in_range k b e then None else ptes s !! k).
Proof.
  intros Hok Ha Hl Hw b e. unfold do_munmap. fold b.
  assert (Hb : 0 <= b /\ aligned b /\ b <= addr).
  { unfold b, page_of, aligned, PAGE_SIZE. Z.to_euclidean_division_equations. lia. }
  destruct (_ || _) eqn:Ebad; cbn [orb].
  { eexists _, _, _, _. split; [done|]. auto. }
  destruct (negb _) eqn:Earch; [eexists _, _, _, _; split; [done|]; auto|].
  breflect. unfold PAGE_SIZE in *.
  destruct (Z.eqb_spec length 0) as [-> | Hn].
  { eexists _, _, _, _. split; [done|]. split; [done|]. split; [done|].
    assert (Ee : e = b) by (unfold e; change ((0 + 4096 - 1) / 4096) with 0; lia). rewrite Ee.
    split; intros a; unfold in_range; rewrite bool_decide_eq_false_2; auto; lia. }
  rewrite (Z.mod_small (length + 4096 - 1)) by lia.
  assert (He : b < e /\ aligned e /\ e < vaddr_mod).
  { unfold e, aligned, PAGE_SIZE in *. Z.to_euclidean_division_equations. lia. }
  fold e. rewrite (Z.mod_small e) by lia.
  destruct (munmap_loop_ok ext (S (tree_size (vma_index mm))) b e mm s)
    as (mm' & s' & -> & Hok' & Hv & Hp & _); auto; try tauto.
  { pose proof (meets_bound b e mm). lia. }
  cbn. eexists _, _, _, _. split; [done|]. split; [done|]. split; [done|].
  split; auto. intros k. rewrite Hp, outside_lookup. done.
Qed.

(** C37: vm_mprotect() completes, keeps the invariant and the page table, and
    changes exactly the protection of the mapped addresses of [b, e). *)
Theorem vm_mprotect_correct ext b e p mm s :
  mm_ok ext mm s -> b < e -> aligned b -> aligned e ->
  exists mm' s', vm_mprotect b e p mm s = Some (mm', s') /\ mm_ok ext mm' s' /\ ptes s' = ptes s /\
    (forall a, view mm' a = if in_range a b e then protect p <$> view mm a else view mm a).
Proof.
  intros Hok Hbe Ab Ae.
  destruct (mprotect_loop_ok ext (S (tree_size (vma_index mm))) b e b p mm s)
    as (mm' & s' & E & Hok' & Hv & Hp & _); auto; try lia.
  { unfold pending. rewrite tree_size_inorder. apply Nat.lt_succ_r, length_filter. }
  exists mm', s'. auto.
Qed.

(** Vm_disc_map() is first fit: when a free range of the asked size
    exists in the mmap zone, the range it returns is free, starts in the zone
    and is not above that one. *)
Theorem vm_disc_map_first_fit mm size w :
  ordered (regions mm) -> 0 < size -> 0 <= mmap_base mm <= w -> task_size mm < vaddr_mod ->
  w + size <= task_size mm - USER_STACK_PAGES * PAGE_SIZE -> free_range mm w (w + size) ->
  exists c, vm_disc_map mm size = Some c /\ mmap_base mm <= c <= w /\ free_range mm c (c + size).
Proof.
  intros Ho Hs Hw Ht Hl Hf. unfold vm_disc_map, vm_tree_first. rewrite rb_first_spec.
  destruct (disc_loop_ok mm size [] (regions mm) (mmap_base mm) (S (tree_size (vma_index mm))))
    as (c & -> & _ & Hc); auto.
  { rewrite tree_size_inorder; lia. } { intros r Hr; inversion Hr. }
  exists c. split; [done|]. apply Hc; auto.
Qed.
(** ** mmap *)

Lemma mm_ok_anon ext mm s id :
  mm_ok ext mm s ->
  mm_ok ext mm (Kst (ptes s) (dirty s) (file_refs s) (anon_refs s) (lock_refs s) (next_lock s) id (written s)).
Proof. intros [[? ? ? [] ?] ?]. split; auto. split; auto. split; auto. Qed.

(** The pages that hold [addr, addr + len). *)
Definition span (addr len : Z) : Z := page_of (addr + len - 1) - page_of addr + PAGE_SIZE.

Lemma span_ok addr len :
  0 <= addr -> 0 < len ->
  0 < span addr len /\ aligned (span addr len) /\
  page_of addr <= addr /\ addr + len <= page_of addr + span addr len < addr + len + PAGE_SIZE.
Proof.
  intros. unfold span, page_of, aligned, PAGE_SIZE. Z.to_euclidean_division_equations. lia.
Qed.

Lemma aligned_add a b : aligned a -> aligned b -> aligned (a + b).
Proof. unfold aligned, PAGE_SIZE. intros. Z.to_euclidean_division_equations. lia. Qed.

Lemma kernel_size addr len :
  0 <= addr -> 0 < len -> addr + len + PAGE_SIZE <= vaddr_mod ->
  ((page_of ((addr + len - 1) mod vaddr_mod) - page_of addr) mod vaddr_mod / PAGE_SIZE + 1) mod vaddr_mod
    * PAGE_SIZE mod vaddr_mod = span addr len.
Proof.
  intros Ha Hl Hw. pose proof (span_ok addr len Ha Hl) as (S1 & S2 & S3 & S4).
  rewrite (Z.mod_small (addr + len - 1)) by lia. unfold span, aligned in *.
  set (d := page_of (addr + len - 1) - page_of addr) in *.
  assert (Hd : 0 <= d /\ d mod PAGE_SIZE = 0).
  { unfold PAGE_SIZE in *. Z.to_euclidean_division_equations. lia. }
  assert (0 <= page_of addr). { unfold page_of, PAGE_SIZE. Z.to_euclidean_division_equations. lia. }
  unfold PAGE_SIZE in *. rewrite (Z.mod_small d) by lia.
  rewrite (Z.mod_small (d / 4096 + 1)) by (Z.to_euclidean_division_equations; lia).
  rewrite Z.mod_small; Z.to_euclidean_division_equations; lia.
Qed.

(** The address do_mmap_kernel() settles on. *)
Definition mmap_target (flags a size : Z) (mm : mm_struct) : option Z :=
  if nz (Z.land flags MAP_FIXED) then Some a
  else
    let a := if nz a then
               match vm_tree_find mm a ((a + size) mod vaddr_mod) with Some _ => 0 | None => a end
             else a in
    if a =? 0 then vm_disc_map mm size else Some a.

Lemma disc_aligned mm size fuel l1 l2 c c' :
  (forall r, r ∈ regions mm -> aligned (end_ r)) -> ordered (regions mm) -> regions mm = l1 ++ l2 ->
  aligned c -> disc_loop fuel mm size (head l2) c = Some c' -> aligned c'.
Proof.
  intros Hr Ho. revert l1 l2 c. induction fuel as [|n IH]; intros l1 l2 c El Ac; [discriminate|].
  destruct l2 as [|r l2]; cbn [disc_loop head].
  - case_if; intros; simplify_eq; auto. done.
  - case_if; [intros; simplify_eq; auto|]. unfold vm_tree_next. rewrite (rb_next_spec _ l1 r l2) by auto.
    apply (IH (l1 ++ [r])). { rewrite <- app_assoc; auto. }
    case_if; auto. apply Hr. rewrite El. set_solver.
Qed.

Lemma mmap_target_ok ext flags a size mm s :
  mid ext [] mm s -> aligned a -> 0 <= a -> 0 < size -> a + size < vaddr_mod ->
  aligned (mmap_base mm) -> 0 <= mmap_base mm ->
  exists t, mmap_target flags a size mm = Some t /\ aligned t /\ 0 <= t /\
    (nz (Z.land flags MAP_FIXED) = true -> t = a) /\
    (nz (Z.land flags MAP_FIXED) = false -> t <> 0 -> t + size < vaddr_mod -> free_range mm t (t + size)).
Proof.
  intros [_ Ho Hr _ _] Aa Ha Hs Hw Ab Hb. unfold mmap_target. destruct (nz (Z.land flags MAP_FIXED)).
  { exists a. split_and!; auto. discriminate. }
  assert (Hd : exists t, vm_disc_map mm size = Some t /\ aligned t /\ 0 <= t /\
                 (t <> 0 -> t + size < vaddr_mod -> free_range mm t (t + size))).
  { unfold vm_disc_map, vm_tree_first. rewrite rb_first_spec.
    destruct (disc_loop_ok mm size [] (regions mm) (mmap_base mm) (S (tree_size (vma_index mm))))
      as (c & Ec & Hc & _); auto.
    { rewrite tree_size_inorder; lia. } { intros r Hi; inversion Hi. }
    exists c. split; [done|]. split; [|destruct Hc as [-> | [? ?]]; split; auto; lia].
    eapply (disc_aligned mm size _ []); eauto. intros r Hi. apply Hr; auto. }
  destruct Hd as (t & Et & At & Pt & Ft). rewrite (Z.mod_small (a + size)) by lia.
  destruct (nz a) eqn:Ea; unfold nz in Ea; breflect.
  - unfold vm_tree_find. destruct (tree_find _ _ _) eqn:Ef; cbn.
    + exists t. split_and!; auto. discriminate.
    + rewrite (proj2 (Z.eqb_neq a 0)) by auto. exists a. split_and!; auto.
      intros _ _ _. exact (tree_find_none _ _ _ Ho Ef).
  - rewrite Ea. exists t. split_and!; auto. discriminate.
Qed.

(** A mapping request inside of the task's range either fails with 0 and
    no effect or returns a page-aligned address with the whole range below
    the end of the task.  Unless MAP_FIXED was given, nothing was mapped in
    that range before.  The range has the attributes asked for, every other
    address is unchanged, no page of the range stays mapped, and the
    invariant is kept. *)
Theorem do_mmap_kernel_correct ext addr len p flags f off c mm s :
  mm_ok ext mm s -> 0 <= addr -> 0 < len -> addr + len <= task_size mm ->
  task_size mm + PAGE_SIZE <= vaddr_mod -> aligned (mmap_base mm) -> 0 <= mmap_base mm ->
  (f <> 0 -> 0 < of_file ext f) ->
  exists t c' mm' s', do_mmap_kernel addr len p flags f off c mm s = Some (t, c', mm', s') /\
    mm_ok ext mm' s' /\
    ((t = 0 /\ mm' = mm /\ s' = s) \/
     (t <> 0 /\ aligned t /\ t + span addr len <= task_size mm /\
      (nz (Z.land flags MAP_FIXED) = true -> t = page_of addr) /\
      (nz (Z.land flags MAP_FIXED) = false -> forall a, in_range a t (t + span addr len) = true -> view mm a = None) /\
      (exists lk id, forall a, view mm' a =
         if in_range a t (t + span addr len)
         then Some (Attr p flags (vm_region_flags_for_file f) lk f (u64 (off + (a - t))) id)
         else view mm a) /\
      (forall k, ptes s' !! k = if in_range k t (t + span addr len) then None else ptes s !! k))).
Proof.
  intros Hok Ha Hl Ht Hw Ab Hb Hf.
  pose proof (span_ok addr len Ha Hl) as (S1 & S2 & S3 & S4).
  assert (Hpa : aligned (page_of addr) /\ 0 <= page_of addr).
  { unfold page_of, aligned, PAGE_SIZE. Z.to_euclidean_division_equations. lia. }
  destruct (mmap_target_ok ext flags (page_of addr) (span addr len) mm s (mo_mid _ _ _ Hok))
    as (t & Et & At & Pt & Ffix & Ffree); try tauto; [lia|].
  unfold do_mmap_kernel. rewrite kernel_size by lia. fold (mmap_target flags (page_of addr) (span addr len) mm).
  rewrite Et. cbn [mbind option_bind].
  destruct (_ || _) eqn:Ebad; [exists 0, c, mm, s; split_and!; auto|]. breflect.
  match goal with |- context [if nz (Z.land flags MAP_SHARED) && (f =? 0) then ?x else ?y] =>
    destruct (if nz (Z.land flags MAP_SHARED) && (f =? 0) then x else y) as [id s0] eqn:Eid
  end.
  assert (Hok0 : mm_ok ext mm s0 /\ ptes s0 = ptes s).
  { case_if; simplify_eq; split; auto. apply mm_ok_anon; auto. }
  destruct Hok0 as [Hok0 Ep0].
  destruct (add_map_loop_ok ext (S (tree_size (vma_index mm))) t (t + span addr len) p flags f off id 0 mm s0)
    as (mm' & s' & lk & E & _ & Hok' & Hv & Hp & _); auto; try lia.
  { apply aligned_add; auto. } { pose proof (meets_bound t (t + span addr len) mm). lia. }
  unfold vm_add_map, vm_add_map_with_lock. rewrite E. cbn. eexists _, _, _, _. split; [done|].
  split; [done|]. right. split_and!; auto.
  - lia.
  - intros Hnf a Hin. apply view_out. intros r Hr Hc. unfold in_range in Hin. apply bool_decide_eq_true_1 in Hin.
    unfold PAGE_SIZE in *. apply (Ffree Hnf ltac:(auto) ltac:(lia) r Hr). unfold overlaps, contains in *. lia.
  - exists lk, id. intros a. rewrite Hv. done.
  - intros k. rewrite Hp, outside_lookup, Ep0. done.
Qed.
(** ** Duplicating *)

(** The others, and the regions of another address space. *)
Definition also (ext : others) (L : list vm_region) : others :=
  Others (fun f => of_file ext f + cnt (uses_file f) L) (fun i => of_anon ext i + cnt (uses_anon i) L)
    (fun k => of_lock ext k + cnt (uses_lock k) L).

Lemma cnt_app P l1 l2 : cnt P (l1 ++ l2) = cnt P l1 + cnt P l2.
Proof. unfold cnt. rewrite List.filter_app, length_app. lia. Qed.

Lemma refs_also ext A B s : refs_ok ext (A ++ B) s -> refs_ok (also ext A) B s.
Proof.
  intros [E F G K N Fr]; split; auto; cbn in *; intros k.
  - pose proof (E k). pose proof (cnt_nonneg (uses_file k) A).
    pose proof (cnt_nonneg (uses_anon k) A). pose proof (cnt_nonneg (uses_lock k) A). lia.
  - rewrite F, cnt_app. lia.
  - rewrite G, cnt_app. lia.
  - rewrite K, cnt_app. lia.
Qed.

Lemma refs_also_inv ext ext' A B s :
  refs_ok ext' A s -> ext' = also ext B -> (exists L s0, refs_ok ext L s0) -> refs_ok ext (B ++ A) s.
Proof.
  intros [E F G K N Fr] -> (L & s0 & [E0 _ _ _ _ _]); split; auto; cbn in *; intros k;
    rewrite ?F, ?G, ?K, ?cnt_app; lia.
Qed.

(** Ordered lists with the same regions are the same list. *)
Lemma ordered_perm_eq l l' : ordered l -> ordered l' -> l ≡ₚ l' -> l = l'.
Proof.
  revert l'. induction l as [|x l IH]; intros l' Ho Ho' P.
  { apply Permutation_nil in P. auto. }
  destruct l' as [|y l']; [symmetry in P; apply Permutation_nil in P; discriminate|].
  assert (x = y) as ->.
  { apply ordered_cons in Ho as (Hx & _ & Hb). apply ordered_cons in Ho' as (Hy & _ & Hb').
    assert (Hx' : x ∈ y :: l') by (rewrite <- P; left). assert (Hy' : y ∈ x :: l) by (rewrite P; left).
    apply elem_of_cons in Hx' as [? | Hx']; auto. apply elem_of_cons in Hy' as [? | Hy']; auto.
    specialize (Hb y Hy'). specialize (Hb' x Hx'). unfold before, nonempty in *. lia. }
  apply Permutation_cons_inv in P. f_equal. apply IH; auto; eapply ordered_cons; eauto.
Qed.

Lemma dup_loop_ok ext src l1 l2 fuel dst s :
  ordered (regions src) -> (forall r, r ∈ regions src -> region_ok r) ->
  regions src = l1 ++ l2 -> (length l2 <= fuel)%nat ->
  mid (also ext (regions src)) [] dst s -> regions dst ≡ₚ l1 ->
  (forall k, 0 <= of_file ext k /\ 0 <= of_anon ext k /\ 0 <= of_lock ext k) ->
  exists dst' s', dup_loop fuel src (head l2) dst s = Some (dst', s') /\
    mid (also ext (regions src)) [] dst' s' /\ regions dst' ≡ₚ regions src /\ ptes s' = ptes s.
Proof.
  intros Ho Hok. revert l1 l2 dst s. induction fuel as [|n IH]; intros l1 l2 dst s El Hf Hm P Hext.
  { destruct l2; [|cbn in Hf; lia]. exists dst, s. rewrite app_nil_r in El. rewrite El in *. auto. }
  destruct l2 as [|r l2]; cbn [dup_loop head].
  { exists dst, s. rewrite app_nil_r in El. rewrite El in *. auto. }
  assert (Hr : r ∈ regions src) by (rewrite El; set_solver).
  pose proof (Hok r Hr) as [Ab Ae Hvf Hlk]. pose proof (ordered_member _ _ Ho Hr) as Hne.
  assert (Hd : forall q, q ∈ regions dst -> ~ overlaps (begin r) (end_ r) q).
  { intros q Hq. rewrite P in Hq. pose proof Ho as Ho'. rewrite El in Ho'.
    apply ordered_app in Ho' as (_ & _ & Hx). specialize (Hx q r Hq ltac:(left)).
    unfold overlaps, before in *. lia. }
  cbn [vm_add_map_clone]. unfold vm_add_map_with_lock. cbn [add_map_loop]. unfold vm_tree_find.
  destruct (tree_find (vma_index dst) _ _) eqn:Ef.
  { exfalso. apply tree_find_some in Ef as [? ?]. eapply Hd; eauto. }
  pose proof (md_refs _ _ _ _ Hm) as [_ HF _ HK _ _]. cbn in HF, HK.
  destruct (insert_step (also ext (regions src)) [] dst s (begin r) (end_ r) (prot r) (flag r) (fp r)
              (offset r) (anon_id r) (fault_lock r)) as (dst1 & s1 & E1 & P1 & M1 & K1); auto.
  { intros Hn. rewrite HF. pose proof (Hext (fp r)). pose proof (cnt_nonneg (uses_file (fp r)) (regions dst)).
    pose proof (cnt_pos (uses_file (fp r)) _ _ Hr (uses_file_self r ltac:(unfold nz; apply negb_true_iff, Z.eqb_neq; auto))). lia. }
  { intros Hn. rewrite HK. pose proof (Hext (fault_lock r)). pose proof (cnt_nonneg (uses_lock (fault_lock r)) (regions dst)).
    pose proof (cnt_pos (uses_lock (fault_lock r)) _ _ Hr (uses_lock_self r)). lia. }
  rewrite E1. cbn [mbind option_bind]. unfold vm_tree_next. rewrite (rb_next_spec _ l1 r l2) by auto.
  destruct (IH (l1 ++ [r]) l2 dst1 s1) as (dst' & s' & -> & M' & P' & Ep); auto.
  - rewrite <- app_assoc; auto.
  - cbn in Hf; lia.
  - rewrite P1, P. rewrite (proj2 (Z.eqb_neq _ _)) by auto. unfold new_region. rewrite <- Hvf.
    destruct r; cbn. apply Permutation_cons_append.
  - exists dst', s'. split_and!; auto. rewrite Ep. apply K1.
Qed.

(** Vm_dup() into an empty address space completes and gives it exactly
    the regions of the source, in order, with their files, identities and
    fault locks; every reference the copy holds is counted, and the page
    table is not touched. *)
Theorem vm_dup_correct ext src dst s :
  mid ext [] src s -> vma_index dst = Leaf ->
  exists dst' s', vm_dup src dst s = Some (dst', s') /\ regions dst' = regions src /\
    mid (also ext (regions src)) [] dst' s' /\ mid (also ext (regions dst')) [] src s' /\
    ptes s' = ptes s.
Proof.
  intros [Hw Ho Hok HR Hp] Hdst. unfold vm_dup, vm_tree_first. rewrite rb_first_spec.
  destruct (dup_loop_ok ext src [] (regions src) (tree_size (vma_index src)) dst s)
    as (dst' & s' & -> & M & P & Ep); auto.
  - rewrite tree_size_inorder. lia.
  - split; rewrite ?Hdst; auto.
    + apply rb_wf_leaf.
    + repeat constructor.
    + intros r Hr. inversion Hr.
    + apply refs_also. cbn in *. rewrite app_nil_r. auto.
  - rewrite Hdst. done.
  - apply (ro_ext _ _ _ HR).
  - exists dst', s'. pose proof (ordered_perm_eq _ _ (md_ordered _ _ _ _ M) Ho P) as Er.
    split_and!; auto. split; auto; [|rewrite Ep; auto]. rewrite Er. apply refs_also.
    pose proof (md_refs _ _ _ _ M) as HR'. cbn in HR'.
    eapply (refs_also_inv ext _ _ (regions src)); eauto. rewrite Er in HR'. done.
Qed.

(** ** The cache of the last lookup *)

(** A cache whose generation is the current one points into the tree. *)
Definition cache_valid (c : execution) (mm : mm_struct) : Prop :=
  mmap_cache_vm c = true -> mmap_cache_generation c = vma_generation mm ->
  forall p, mmap_cache c = Some p -> exists r, r ∈ regions mm /\ begin r = p.

Lemma cache_valid_removed mm r s mm' s' c :
  0 <= vma_generation mm < UINT32_MOD -> mmap_cache_generation c = vma_generation mm ->
  vm_tree_remove mm r s = Some (mm', s') -> mmap_cache_generation c <> vma_generation mm'.
Proof.
  intros Hg Ec. unfold vm_tree_remove. destruct (vm_region_free r s); cbn; [|discriminate].
  intros; simplify_eq. cbn. unfold u32, UINT32_MOD in *. rewrite Ec. Z.to_euclidean_division_equations. lia.
Qed.

(** The cached lookup never reads a region that is gone, returns what the
    search of the tree returns, and leaves a valid cache.  After a region is
    removed, the generation keeps a cache filled before from being read. *)
Theorem vm_find_vma_cached_correct c mm addr :
  ordered (regions mm) -> 0 <= vma_generation mm < UINT32_MOD -> cache_valid c mm ->
  exists c', vm_find_vma_cached c mm addr = Some (vm_find_vma mm addr, c') /\ cache_valid c' mm /\
    (mmap_cache_generation c' = vma_generation mm) /\
    (forall r s mm' s', vm_tree_remove mm r s = Some (mm', s') ->
       mmap_cache_generation c' <> vma_generation mm').
Proof.
  intros Ho Hg Hv.
  assert (Hpp : page_of (page_of addr) = page_of addr).
  { unfold page_of, PAGE_SIZE. Z.to_euclidean_division_equations. lia. }
  assert (Hslow : exists c', Some (vm_find_vma mm (page_of addr),
      Exec (begin <$> vm_find_vma mm (page_of addr)) true (vma_generation mm)) = Some (vm_find_vma mm addr, c') /\
      cache_valid c' mm /\ mmap_cache_generation c' = vma_generation mm).
  { eexists. unfold vm_find_vma. rewrite Hpp. split; [done|]. split; [|done].
    intros _ _ p. cbn. rewrite find_vma_from_spec by auto. destruct (head _) as [r|] eqn:E; cbn; [|discriminate].
    apply head_filter_some in E as [Hr _]. intros; simplify_eq; eauto. }
  enough (Hm : exists c', vm_find_vma_cached c mm addr = Some (vm_find_vma mm addr, c') /\ cache_valid c' mm /\
               mmap_cache_generation c' = vma_generation mm).
  { destruct Hm as (c' & E & V & G). exists c'. split_and!; auto. intros. eapply cache_valid_removed; eauto. }
  unfold vm_find_vma_cached. destruct (mmap_cache c) as [p|] eqn:Ec; [|exact Hslow].
  destruct (mmap_cache_vm c && _) eqn:Eg; [|exact Hslow]. breflect.
  destruct (Hv ltac:(auto) ltac:(auto) p Ec) as (r & Hr & <-).
  rewrite region_at_spec by auto. cbn [mbind option_bind].
  destruct ((begin r <=? page_of addr) && _) eqn:Ein; [|exact Hslow]. breflect.
  exists c. split; [|auto]. do 2 f_equal.
  assert (Ap : aligned (page_of addr)).
  { unfold page_of, aligned, PAGE_SIZE. Z.to_euclidean_division_equations. lia. }
  replace (vm_find_vma mm addr) with (vm_find_vma mm (page_of addr)) by (unfold vm_find_vma; rewrite Hpp; done).
  destruct (vm_find_vma mm (page_of addr)) as [q|] eqn:E.
  - destruct (find_vma_first _ _ _ Ho Ap E) as (Hq & Hqe & Hfirst). specialize (Hfirst r Hr ltac:(auto)).
    f_equal. eapply (ordered_disjoint _ r q (page_of addr)); eauto; unfold contains; lia.
  - pose proof (find_vma_none _ _ Ho Ap E r Hr). lia.
Qed.

(** ** Limits of the search for room *)

(** The reserve for the growth of the stack is kept only above the last
    region: when a region lies at the top of the task, the gap below it is
    handed out, reserve included. *)
Lemma disc_in_reserve mm r size :
  regions mm = [r] -> 0 < size -> 0 <= mmap_base mm -> begin r < vaddr_mod ->
  mmap_base mm + size = begin r -> vm_disc_map mm size = Some (mmap_base mm).
Proof.
  intros El Hs Hb Hr He. unfold vm_disc_map, vm_tree_first. rewrite rb_first_spec, El. cbn.
  rewrite Z.mod_small by lia. rewrite (proj2 (Z.leb_le _ _)) by lia. done.
Qed.

(** For an address space whose only region is the initial stack at its
    top, a search for the whole gap below returns it, although it reaches
    into the reserve that the check after the last region keeps free. *)
Theorem vm_disc_map_reserve_not_kept mm r size :
  regions mm = [r] -> 0 <= mmap_base mm -> 0 < size -> mmap_base mm + size = begin r ->
  end_ r = task_size mm -> begin r < end_ r -> task_size mm <= vaddr_mod ->
  end_ r - begin r < USER_STACK_PAGES * PAGE_SIZE ->
  vm_disc_map mm size = Some (mmap_base mm) /\
  mmap_base mm + size > task_size mm - USER_STACK_PAGES * PAGE_SIZE.
Proof. intros. split; [eapply disc_in_reserve; eauto|]; lia. Qed.

(** An anonymous mapping for which there is no room: do_mmap() returns 0, an
    address, not a negative error. *)
Theorem do_mmap_no_room_is_zero len p flags fd off fds euid c mm s :
  nz (Z.land flags MAP_ANONYMOUS) = true -> nz (Z.land flags MAP_FIXED) = false ->
  0 < len <= task_size mm -> 0 < task_size mm -> len + PAGE_SIZE <= vaddr_mod ->
  vm_disc_map mm (span 0 len) = Some 0 ->
  do_mmap 0 len p flags fd off fds euid c mm s = Some (0, c, mm, s).
Proof.
  intros Ha Hf Hl Ht Hw Hd. unfold do_mmap. rewrite Ha, Hf. rewrite andb_false_r.
  rewrite (proj2 (Z.eqb_neq len 0)), (proj2 (Z.ltb_ge (task_size mm) len)) by lia.
  rewrite (proj2 (Z.leb_gt (task_size mm) 0)), (proj2 (Z.ltb_ge (task_size mm - 0) len)) by lia.
  replace (if arch_mm_user_range_valid 0 len then 0 else 0) with 0 by (case_if; done).
  cbn -[do_mmap_kernel]. unfold do_mmap_kernel. rewrite kernel_size by lia. rewrite Hf.
  change (page_of 0) with 0. cbn [nz Z.eqb negb]. rewrite Hd. done.
Qed.
End Theorems.

(** ** A run

    A task of the 32-bit machine with two mappings: four pages of file 7,
    shared, and two anonymous pages, one page of each present. *)
Module Demo.
#[local] Existing Instance x86_arch.

Definition plain_inode : inode := Inode S_IFREG 5 9 0 0 0 false.
#[export] Instance demo_files : Files := {|
  file_of := fun _ => File (Some plain_inode) O_RDWR 0 false true false;
  fs_file_readonly := fun _ => false;
  write_page := fun _ _ _ => true;
  ext4_fseek := fun _ _ => true;
  ext4_fwrite := fun _ _ _ => true;
  mmap_file := fun _ off _ _ _ => (0, off, 0);
  frame_ordinary := fun _ => true
|}.

Definition code : vm_region := Region 0x40000000 0x40004000 3 MAP_SHARED 0 1 7 4096 0.
Definition data : vm_region := Region 0x40006000 0x40008000 3 2 0 2 0 0 0.
Definition demo_mm : mm_struct :=
  Mm (Node false (Node true Leaf code Leaf) data Leaf) 5 0x40000000 0xC0000000.
Definition demo_kst : kstate :=
  Kst {[ 0x40001000 := Pte 50 7; 0x40006000 := Pte 51 7 ]} {[ 50 ]}
    {[ 7 := 2 ]} ∅ {[ 1 := 1; 2 := 1 ]} 3 0 [].
Definition demo_others : others :=
  Others (fun f => if f =? 7 then 1 else 0) (fun _ => 0) (fun _ => 0).

Lemma demo_tree : rb_wf (vma_index demo_mm).
Proof. split; [done | exists 1%nat; repeat constructor]. Qed.

Lemma demo_ordered : ordered (regions demo_mm).
Proof.
  cbn. apply ordered_cons. split; [done|]. split.
  - apply ordered_cons. split; [done|]. split; [repeat constructor|]. intros y Hy; inversion Hy.
  - intros y ->%list_elem_of_singleton. done.
Qed.

Lemma demo_regions r : r ∈ regions demo_mm -> region_ok r.
Proof.
  cbn. intros [-> | ->%list_elem_of_singleton]%elem_of_cons; split; done.
Qed.

Lemma demo_cnt P : cnt P (regions demo_mm) = b2z (P code) + b2z (P data).
Proof. change (regions demo_mm) with [code; data]. rewrite !cnt_cons. unfold cnt. cbn. lia. Qed.

Lemma demo_refs : refs_ok demo_others (regions demo_mm) demo_kst.
Proof.
  assert (Hl : forall k, rc (lock_refs demo_kst) k = b2z (1 =? k) + b2z (2 =? k)).
  { intros k. unfold rc; cbn [lock_refs demo_kst].
    destruct (Z.eqb_spec 1 k) as [<- | H1]; [vm_compute; done|].
    destruct (Z.eqb_spec 2 k) as [<- | H2]; [vm_compute; done|].
    rewrite lookup_insert_ne, lookup_singleton_ne by auto. done. }
  split; intros; rewrite ?demo_cnt, ?Hl; try done.
  - cbn. case_if; lia.
  - destruct (Z.eq_dec f 7) as [-> | Hn]; [vm_compute; done|].
    unfold rc, uses_file; cbn [file_refs demo_kst of_file demo_others code data fp].
    rewrite lookup_singleton_ne by auto. rewrite (proj2 (Z.eqb_neq f 7)), (proj2 (Z.eqb_neq 7 f)) by auto. done.
  - cbn [next_lock demo_kst] in *. rewrite !(proj2 (Z.eqb_neq _ _)) by lia. done.
Qed.

Lemma demo_pages k :
  is_Some (ptes demo_kst !! k) -> k = 0x40001000 \/ k = 0x40006000.
Proof.
  intros [x Hx]. cbn [ptes demo_kst] in Hx. apply lookup_insert_Some in Hx as [[<- _] | [_ Hx]]; auto.
  apply lookup_singleton_Some in Hx as [<- _]. auto.
Qed.

Lemma demo_ok : mm_ok demo_others demo_mm demo_kst.
Proof.
  split; [split|].
  - exact demo_tree.
  - exact demo_ordered.
  - exact demo_regions.
  - exact demo_refs.
  - intros k [-> | ->]%demo_pages; done.
  - intros k [-> | ->]%demo_pages; [exists code | exists data]; (split; [cbn; set_solver|]);
      unfold contains; cbn; lia.
Qed.

(** Replacing the middle, across both mappings. *)
Lemma vm_add_map_correct_witness :
  exists mm' s' lk, vm_add_map 0x40002000 0x40007000 1 2 7 0 0 demo_mm demo_kst = Some (mm', s') /\
    mm_ok demo_others mm' s' /\
    (forall a, view mm' a = if in_range a 0x40002000 0x40007000
                            then Some (Attr 1 2 (vm_region_flags_for_file 7) lk 7 (u64 (0 + (a - 0x40002000))) 0)
                            else view demo_mm a) /\
    (forall k, ptes s' !! k = if in_range k 0x40002000 0x40007000 then None else ptes demo_kst !! k).
Proof.
  apply (vm_add_map_correct demo_others 0x40002000 0x40007000 1 2 7 0 0 demo_mm demo_kst demo_ok);
    [lia | reflexivity | reflexivity | reflexivity].
Defined.

Lemma do_munmap_correct_witness :
  exists res c' mm' s',
    do_munmap 0x40001000 0x6000 vm_invalidate_task_cache demo_mm demo_kst = Some (res, c', mm', s') /\
    mm_ok demo_others mm' s' /\ res = 0 /\
    (forall a, view mm' a = if in_range a 0x40001000 0x40007000 then None else view demo_mm a).
Proof.
  destruct (do_munmap_correct demo_others 0x40001000 0x6000 vm_invalidate_task_cache demo_mm demo_kst demo_ok)
    as (res & c' & mm' & s' & E & Hok & Hr & Hv & _); [lia | lia | vm_compute; discriminate|].
  exists res, c', mm', s'. exact (conj E (conj Hok (conj Hr Hv))).
Defined.

Lemma vm_mprotect_correct_witness :
  exists mm' s', vm_mprotect 0x40001000 0x40007000 1 demo_mm demo_kst = Some (mm', s') /\
    mm_ok demo_others mm' s' /\ ptes s' = ptes demo_kst /\
    (forall a, view mm' a = if in_range a 0x40001000 0x40007000 then protect 1 <$> view demo_mm a
                            else view demo_mm a).
Proof.
  apply (vm_mprotect_correct demo_others 0x40001000 0x40007000 1 demo_mm demo_kst demo_ok);
    [lia | reflexivity | reflexivity].
Defined.

Lemma vm_disc_map_first_fit_witness :
  exists c, vm_disc_map demo_mm 0x2000 = Some c /\ 0x40000000 <= c <= 0x40008000 /\
    free_range demo_mm c (c + 0x2000).
Proof.
  apply (vm_disc_map_first_fit demo_mm 0x2000 0x40008000 demo_ordered);
    [lia | cbn; lia | vm_compute; reflexivity | vm_compute; discriminate|].
  intros r [-> | ->%list_elem_of_singleton]%elem_of_cons; unfold overlaps; cbn; lia.
Defined.

Lemma do_mmap_kernel_correct_witness :
  exists t c' mm' s',
    do_mmap_kernel 0x40003000 0x2000 3 2 0 0 vm_invalidate_task_cache demo_mm demo_kst = Some (t, c', mm', s') /\
    mm_ok demo_others mm' s'.
Proof.
  destruct (do_mmap_kernel_correct demo_others 0x40003000 0x2000 3 2 0 0 vm_invalidate_task_cache demo_mm
              demo_kst demo_ok) as (t & c' & mm' & s' & E & Hok & _);
    [lia | lia | cbn; lia | vm_compute; discriminate | reflexivity | cbn; lia | lia |].
  exists t, c', mm', s'. exact (conj E Hok).
Defined.

Lemma vm_dup_correct_witness :
  exists dst' s', vm_dup demo_mm (Mm Leaf 1 0x40000000 0xC0000000) demo_kst = Some (dst', s') /\
    regions dst' = regions demo_mm /\ ptes s' = ptes demo_kst.
Proof.
  destruct (vm_dup_correct demo_others demo_mm (Mm Leaf 1 0x40000000 0xC0000000) demo_kst
              (mo_mid _ _ _ demo_ok) eq_refl) as (dst' & s' & E & Hr & _ & _ & Hp).
  exists dst', s'. exact (conj E (conj Hr Hp)).
Defined.

Lemma vm_find_vma_cached_correct_witness :
  exists c', vm_find_vma_cached (Exec (Some 0x40000000) true 5) demo_mm 0x40001234
             = Some (vm_find_vma demo_mm 0x40001234, c') /\ cache_valid c' demo_mm.
Proof.
  destruct (vm_find_vma_cached_correct (Exec (Some 0x40000000) true 5) demo_mm 0x40001234 demo_ordered)
    as (c' & E & V & _); [vm_compute; split; [discriminate | reflexivity] | |].
  - intros _ _ p Hp. injection Hp as <-. exists code. split; [cbn; set_solver | reflexivity].
  - exists c'. exact (conj E V).
Defined.
End Demo.
