(* ===== verification/Futex.v ===== *)
(** * Futexes

    Model of src/ps/impl/ps_futex.c: the key that names the word a task waits
    on, the queue of waiters, the sections of FUTEX_WAIT and FUTEX_WAKE that
    run under ps_lock, the deadline of a wait, and the robust list of a task
    that dies.  The scheduler is that of Sched.v and the regions a key is
    computed from are those of VmMap.v.

    A waiter lives on the stack of its task; [waiters] is those in scope, by
    task, with the locals of the same frame, and [futex_waiters] the queue.
    An operation is [None] where the code would use a waiter whose frame is
    gone, or a task that does not exist. *)

From S2P Require Import Prelude VmMap Sched.

Definition FUTEX_WAIT : Z := 0.
Definition FUTEX_WAKE : Z := 1.
Definition FUTEX_WAIT_BITSET : Z := 9.
Definition FUTEX_WAKE_BITSET : Z := 10.
Definition FUTEX_CLOCK_REALTIME : Z := 256.
Definition FUTEX_PRIVATE_FLAG : Z := 128.
Definition FUTEX_WAITERS : Z := 0x80000000.
Definition FUTEX_OWNER_DIED : Z := 0x40000000.
Definition FUTEX_TID_MASK : Z := 0x3fffffff.
Definition ROBUST_LIST_LIMIT : nat := Z.to_nat 2048.
Definition PROT_READ : Z := 1.

(** ** Keys *)

Record futex_key := Key { kind : Z; identity : Z; object : Z; koffset : Z; backing : Z }.

Definition futex_keys_equal (a b : futex_key) : bool :=
  (kind a =? kind b) && (identity a =? identity b) && (object a =? object b) && (koffset a =? koffset b).

(** The descent of futex_get_key(). *)
Fixpoint futex_region (t : tree) (addr : Z) : option vm_region :=
  match t with
  | Leaf => None
  | Node _ l r rt =>
      if addr <? begin r then futex_region l addr
      else if end_ r <=? addr then futex_region rt addr
      else Some r
  end.

Section Keys.
Context `{Arch} `{Files}.

(** The key of a word of a shared mapping, and the file it keeps. *)
Definition shared_key (vm addr : Z) (r : vm_region) (s : kstate) : option (futex_key * kstate) :=
  let off := (u32 (offset r) + addr - begin r) mod vaddr_mod in
  match (if nz (fp r) then f_inode (file_of (fp r)) else None) with
  | Some i =>
      s ← fs_get_file (fp r) s;
      Some (Key 1 (if nz (i_pgcache_tag i) then i_pgcache_tag i else i_private i) (i_ino i) off (fp r), s)
  | None =>
      if nz (anon_id r) then Some (Key 2 0 (anon_id r) off 0, s) else Some (Key 0 vm 0 addr 0, s)
  end.

(** [vm]: the address of the memory of the task, [t] its regions. *)
Definition futex_get_key (vm : Z) (t : tree) (addr : Z) (private : bool) (s : kstate)
  : option ((Z + futex_key) * kstate) :=
  let key := Key 0 vm 0 addr 0 in
  if private then Some (inr key, s) else
  if vm =? 0 then Some (inl (- EFAULT), s) else
  match futex_region t addr with
  | None => Some (inl (- EFAULT), s)
  | Some r =>
      if (end_ r - addr <? 4) || negb (nz (Z.land (prot r) PROT_READ)) then Some (inl (- EFAULT), s) else
      if nz (Z.land (flag r) MAP_SHARED) then '(key, s) ← shared_key vm addr r s; Some (inr key, s)
      else Some (inr key, s)
  end.

Definition futex_release_key (key : futex_key) (s : kstate) : option kstate :=
  if nz (backing key) then fs_put_file (backing key) s else Some s.
End Keys.

(** ** State *)

(** The place of a word: what a key says of it. *)
Definition place : Type := Z * Z * Z * Z.
Definition place_of (k : futex_key) : place := (kind k, identity k, object k, koffset k).

Record futex_waiter := Waiter { wkey : futex_key; woken : bool; bitset : Z; val : Z; deadline : option Z }.

Record fsys := Fsys {
  sys : sched;
  waiters : gmap Z futex_waiter;
  futex_waiters : list Z;
  words : gmap place Z
}.
Abbreviation F := (st fsys).

Definition on_sched {A} (m : P A) : F A := fun f =>
  '(x, s) ← m (sys f); Some (x, Fsys s (waiters f) (futex_waiters f) (words f)).
Definition get_waiter (t : Z) : F futex_waiter := fun f => w ← waiters f !! t; Some (w, f).
Definition queue : F (list Z) := fun f => Some (futex_waiters f, f).
Definition word_at (p : place) (f : fsys) : Z := default 0 (words f !! p).
Definition get_word (p : place) : F Z := fun f => Some (word_at p f, f).
Definition put_word (p : place) (v : Z) : F unit := fun f =>
  Some (tt, Fsys (sys f) (waiters f) (futex_waiters f) (<[p := v]> (words f))).
Definition set_waiters (ws : gmap Z futex_waiter) (f : fsys) : fsys :=
  Fsys (sys f) ws (futex_waiters f) (words f).
Definition put_waiter (t : Z) (w : futex_waiter) : F unit := fun f =>
  Some (tt, set_waiters (<[t := w]> (waiters f)) f).
Definition drop_waiter (t : Z) : F unit := fun f => Some (tt, set_waiters (delete t (waiters f)) f).
Definition set_woken (w : futex_waiter) : futex_waiter := Waiter (wkey w) true (bitset w) (val w) (deadline w).
Definition link (t : Z) : F unit := fun f => Some (tt, Fsys (sys f) (waiters f) (futex_waiters f ++ [t]) (words f)).
Definition unlink (t : Z) : F unit := fun f =>
  Some (tt, Fsys (sys f) (waiters f) (without t (futex_waiters f)) (words f)).

(** ** Waking *)

Definition wake_waiter (t : Z) (w : futex_waiter) : F unit :=
  put_waiter t (set_woken w);; unlink t;; on_sched (ps_put_to_ready_queue_unsafe t).

Fixpoint wake_loop (key : futex_key) (max_wake bits n : Z) (entries : list Z) : F Z :=
  match entries with
  | [] => mret n
  | t :: rest =>
      if negb (n <? max_wake) then mret n else
      w ← get_waiter t;
      if negb (futex_keys_equal (wkey w) key) || negb (nz (Z.land (bitset w) bits))
      then wake_loop key max_wake bits n rest
      else wake_waiter t w;; wake_loop key max_wake bits (n + 1) rest
  end.
Definition futex_wake_mask_unsafe (key : futex_key) (max_wake bits : Z) : F Z :=
  l ← queue; wake_loop key max_wake bits 0 l.

Definition ps_futex_wake_unsafe (user uaddr max_wake : Z) : F Z :=
  futex_wake_mask_unsafe (Key 0 user 0 uaddr 0) max_wake UINT32_MAX.

Definition ps_futex_remove_task_unsafe (t : Z) : F unit := unlink t.

(** ** Waiting *)

(** How long: the clocks are read in microseconds, [clock] the one the
    operation names and [us] time_now_us(). *)
Definition futex_deadline (bitset_op : bool) (tv_sec tv_nsec clock us : Z) : Z + Z :=
  if (tv_sec <? 0) || (tv_nsec <? 0) || (1000000000 <=? tv_nsec) then inl (- EINVAL) else
  let '(sec, nsec) :=
    if bitset_op then
      let sec := tv_sec - clock / 1000000 in
      let nsec := tv_nsec - clock mod 1000000 * 1000 in
      if nsec <? 0 then (sec - 1, nsec + 1000000000) else (sec, nsec)
    else (tv_sec, tv_nsec) in
  if (sec <? 0) || (sec =? 0) && (nsec =? 0) then inl (- ETIMEDOUT) else
  let ms := if (UINT64_MAX - 1000) / 1000 <? sec then UINT64_MAX
            else u64 (sec * 1000 + (nsec + 999999) / 1000000) in
  inr (time_deadline_ms us ms).

(** The milliseconds of the next sleep, 0 when there is no timeout. *)
Definition futex_timeout (deadline : option Z) (now : Z) : Z + Z :=
  match deadline with
  | None => inr 0
  | Some d =>
      if d <=? now then inl (- ETIMEDOUT) else
      let remaining := d - now in
      inr (if UINT32_MAX <? remaining then UINT32_MAX else remaining)
  end.

Definition go_to_sleep (us timeout_ms t : Z) : P unit :=
  (if 0 <? timeout_ms then timer_arm_unsafe us t timeout_ms else mret tt);;
  ps_put_to_wait_queue_unsafe t None;;
  modify t (set_interruptible true).

(** From wait_again to the switch: [Some r] when the call returns [r]
    instead of going to sleep.  The clock is read twice. *)
Definition futex_wait (us us' : Z) (interrupted : bool) (t : Z) (key : futex_key) (v bits : Z) (d : option Z)
  : F (option Z) :=
  match futex_timeout d (us / 1000) with
  | inl r => mret (Some r)
  | inr timeout_ms =>
      x ← get_word (place_of key);
      if negb (x =? v) then mret (Some (- EAGAIN)) else
      if interrupted then mret (Some (- EINTR)) else
      put_waiter t (Waiter key false bits v d);; link t;;
      on_sched (go_to_sleep us' timeout_ms t);;
      mret None
  end.

(** After the switch back: [None] for another round. *)
Definition futex_resume (us : Z) (interrupted : bool) (t : Z) : F (option Z) :=
  w ← get_waiter t;
  (if woken w then mret tt else unlink t);;
  on_sched (timer_disarm_unsafe t);;
  drop_waiter t;;
  mret (if woken w then Some 0 else
        if interrupted then Some (- EINTR) else
        match deadline w with
        | None => None
        | Some d => if us / 1000 <? d then None else Some (- ETIMEDOUT)
        end).

(** ** The system call *)

Inductive request := Wait (v bits : Z) (d : option Z) | WakeUp (max_wake bits : Z).

(** The checks of futex_common() and futex_execute() and what they ask for:
    [value] and [timeout] are what ps_read_process_memory() finds at the
    addresses of the caller, [Some None] being a timeout that cannot be
    read. *)
Definition futex_execute (uaddr op v val3 : Z) (value : option Z) (timeout : option (option (Z * Z)))
  (wall us us' : Z) : Z + request :=
  let cmd := Z.ldiff op (Z.lor FUTEX_PRIVATE_FLAG FUTEX_CLOCK_REALTIME) in
  let realtime := nz (Z.land op FUTEX_CLOCK_REALTIME) in
  let bitset_op := (cmd =? FUTEX_WAIT_BITSET) || (cmd =? FUTEX_WAKE_BITSET) in
  let bits := if bitset_op then u32 val3 else UINT32_MAX in
  if uaddr =? 0 then inl (- EFAULT) else
  if nz (Z.land (u32 uaddr) 3) then inl (- EINVAL) else
  if realtime && negb (cmd =? FUTEX_WAIT_BITSET) then inl (- ENOSYS) else
  if bitset_op && (bits =? 0) then inl (- EINVAL) else
  if (cmd =? FUTEX_WAIT) || (cmd =? FUTEX_WAIT_BITSET) then
    match value with
    | None => inl (- EFAULT)
    | Some x =>
        if negb (x =? v) then inl (- EAGAIN) else
        match timeout with
        | None => inr (Wait v bits None)
        | Some None => inl (- EFAULT)
        | Some (Some (sec, nsec)) =>
            match futex_deadline (cmd =? FUTEX_WAIT_BITSET) sec nsec (if realtime then wall else us) us' with
            | inl e => inl e
            | inr d => inr (Wait v bits (Some d))
            end
        end
    end
  else if (cmd =? FUTEX_WAKE) || (cmd =? FUTEX_WAKE_BITSET) then
    if v <? 0 then inl (- EINVAL) else inr (WakeUp v bits)
  else inl (- ENOSYS).

(** futex_common(): the key is kept while the request runs, and released when
    it is refused. *)
Definition futex_common `{Arch} `{Files} (vm : Z) (t : tree) (uaddr op v val3 : Z) (value : option Z)
  (timeout : option (option (Z * Z))) (wall us us' : Z) (s : kstate) : option ((Z + futex_key * request) * kstate) :=
  let cmd := Z.ldiff op (Z.lor FUTEX_PRIVATE_FLAG FUTEX_CLOCK_REALTIME) in
  if uaddr =? 0 then Some (inl (- EFAULT), s) else
  if nz (Z.land (u32 uaddr) 3) then Some (inl (- EINVAL), s) else
  if negb (cmd =? FUTEX_WAIT) && negb (cmd =? FUTEX_WAIT_BITSET) && negb (cmd =? FUTEX_WAKE) && negb (cmd =? FUTEX_WAKE_BITSET)
  then Some (inl (- ENOSYS), s) else
  '(key, s) ← futex_get_key vm t uaddr (nz (Z.land op FUTEX_PRIVATE_FLAG)) s;
  match key with
  | inl e => Some (inl e, s)
  | inr key =>
      match futex_execute uaddr op v val3 value timeout wall us us' with
      | inl e => s ← futex_release_key key s; Some (inl e, s)
      | inr q => Some (inr (key, q), s)
      end
  end.

(** ** The robust list

    [reads] is the reader of the binary interface of the task (arch/abi/robust.h),
    [locate] the word an address of its memory names, if it is mapped. *)
Section Robust.
Context (vm tid : Z) (vaddr_mod : Z) (locate : Z -> option place).
Context (read_head : Z -> option (Z * Z * Z)) (read_next : Z -> option Z).

Definition robust_release_futex (entry offset : Z) : F unit :=
  let addr := (entry + offset) mod vaddr_mod in
  if (entry =? 0) || (addr <? PAGE_SIZE) then mret tt else
  match locate addr with
  | None => mret tt
  | Some p =>
      value ← get_word p;
      if negb (Z.land value FUTEX_TID_MASK =? tid) then mret tt else
      put_word p (Z.lor (Z.land value FUTEX_WAITERS) FUTEX_OWNER_DIED);;
      if nz (Z.land value FUTEX_WAITERS) then _ ← ps_futex_wake_unsafe vm addr 1; mret tt else mret tt
  end.

Definition untag (a : Z) : Z := Z.ldiff a 1.

Fixpoint robust_loop (count : nat) (base offset pending entry : Z) : F unit :=
  match count with
  | O => mret tt
  | S c =>
      if (entry =? 0) || (entry =? base) then mret tt else
      match read_next entry with
      | None => mret tt
      | Some next =>
          (if negb (entry =? pending) then robust_release_futex entry offset else mret tt);;
          robust_loop c base offset pending (untag next)
      end
  end.

Definition ps_release_robust_list (base : Z) : F unit :=
  if base =? 0 then mret tt else
  match read_head base with
  | None => mret tt
  | Some (entry, offset, pending) =>
      let pending := untag pending in
      robust_loop ROBUST_LIST_LIMIT base offset pending (untag entry);;
      if nz pending then robust_release_futex pending offset else mret tt
  end.
End Robust.

(** The word a task asked to be cleared at its end; [region] is what
    vm_find_map_cached() finds for its address. *)
Definition ps_clear_child_tid (vm : Z) (locate : Z -> option place) (region : option vm_region) (addr : Z) : F unit :=
  if addr =? 0 then mret tt else
  match region with
  | None => mret tt
  | Some r =>
      if (begin r <=? addr) && (addr + 4 <=? end_ r) && nz (Z.land (prot r) PROT_WRITE) then
        match locate addr with
        | None => mret tt
        | Some p => put_word p 0;; _ ← ps_futex_wake_unsafe vm addr 1; mret tt
        end
      else mret tt
  end.

(** ** The system

    The calls of the tasks that run, stores to the words, the removal of a
    thread by the exit of its group (after which its stack is freed), and
    everything else the scheduler does. *)
Definition kill_thread (t : Z) : F unit :=
  on_sched (timer_disarm_unsafe t);; ps_futex_remove_task_unsafe t;;
  on_sched (list_remove_entry t;; timer_disarm_unsafe t;; modify t (set_status ps_dying));; drop_waiter t.

Inductive fevent :=
| FWait (cpu : nat) (us us' : Z) (interrupted : bool) (key : futex_key) (v bits : Z) (d : option Z)
| FResume (cpu : nat) (us : Z) (interrupted : bool)
| FWake (key : futex_key) (max_wake bits : Z)
| FStore (p : place) (v : Z)
| FKill (t : Z)
| FSched (e : event).

Definition fperform (e : fevent) : F unit :=
  match e with
  | FWait cpu us us' i key v bits d =>
      t ← on_sched (current cpu); _ ← futex_wait us us' i t key v bits d; mret tt
  | FResume cpu us i => t ← on_sched (current cpu); _ ← futex_resume us i t; mret tt
  | FWake key n bits => _ ← futex_wake_mask_unsafe key n bits; mret tt
  | FStore p v => put_word p v
  | FKill t => kill_thread t
  | FSched e => on_sched (perform e)
  end.
Fixpoint fperform_all (es : list fevent) : F unit :=
  match es with [] => mret tt | e :: es => fperform e;; fperform_all es end.
