(* ===== verification/FutexProof.v ===== *)
(** * Futexes: invariant

    The invariant of the queue of waiters, the loop of a wakeup, and that the
    scheduler never loses the task of a waiter. *)

From S2P Require Import Prelude RbTree RbTreeInv Timer TimerProof Sched SchedInv SchedKeeps SchedProof SchedCorrect VmMap VmMapTree Futex.

#[local] Arguments without : simpl never.

(** ** Programs on the system *)

Lemma runs_sched {A} (m : P A) f (Q : A -> fsys -> Prop) :
  ends m (sys f) (fun x s => Q x (Fsys s (waiters f) (futex_waiters f) (words f))) -> ends (on_sched m) f Q.
Proof. intros (x & s & E & H). eexists x, _. unfold on_sched. rewrite E. done. Qed.
Lemma runs_waiter t w f (Q : futex_waiter -> fsys -> Prop) : waiters f !! t = Some w -> Q w f -> ends (get_waiter t) f Q.
Proof. intros E H. exists w, f. unfold get_waiter. rewrite E. done. Qed.

(** ** The invariant

    The queue holds once each waiter that is not woken, and only those; a
    waiter belongs to a task and can be woken. *)
Record futex_ok (f : fsys) : Prop := {
  fo_sched : exists l, sched_ok (sys f) l;
  fo_nodup : NoDup (futex_waiters f);
  fo_queue t : t ∈ futex_waiters f <-> exists w, waiters f !! t = Some w /\ woken w = false;
  fo_task t : is_Some (waiters f !! t) -> is_Some (tasks (sys f) !! t);
  fo_bits t w : waiters f !! t = Some w -> 0 < bitset w < UINT32_MOD
}.

(** ** Waking *)

Definition wants (f : fsys) (key : futex_key) (bits : Z) (t : Z) : Prop :=
  exists w, waiters f !! t = Some w /\ futex_keys_equal (wkey w) key = true /\ Z.land (bitset w) bits <> 0.
#[export] Instance wants_dec f key bits t : Decision (wants f key bits t).
Proof.
  destruct (waiters f !! t) as [w|] eqn:E.
  - destruct (decide (futex_keys_equal (wkey w) key = true /\ Z.land (bitset w) bits <> 0)) as [H | H].
    + left. exists w. done.
    + right. intros (w' & E' & Hw). rewrite E in E'. injection E' as <-. done.
  - right. intros (w' & E' & _). congruence.
Defined.

(** The tasks of [c] were woken. *)
Record woke (c : list Z) (f f' : fsys) : Prop := {
  wo_queue : futex_waiters f' = filter (fun t => t ∉ c) (futex_waiters f);
  wo_waiters t : waiters f' !! t = (if decide (t ∈ c) then set_woken else id) <$> waiters f !! t;
  wo_tasks t : tasks (sys f') !! t = (if decide (t ∈ c) then readied else id) <$> tasks (sys f) !! t;
  wo_words : words f' = words f;
  wo_cpus : cpus (sys f') = cpus (sys f);
  wo_lists : length (wait_lists (sys f')) = length (wait_lists (sys f))
}.

Lemma woke_none f : woke [] f f.
Proof.
  split; try done.
  - symmetry. apply filter_everything. set_solver.
  - intros t. rewrite decide_False by set_solver. destruct (waiters f !! t); done.
  - intros t. rewrite decide_False by set_solver. destruct (tasks (sys f) !! t); done.
Qed.

Lemma woke_cons t c f f1 f2 : t ∉ c -> woke [t] f f1 -> woke c f1 f2 -> woke (t :: c) f f2.
Proof.
  intros Ht [Q1 W1 T1 D1 C1 L1] [Q2 W2 T2 D2 C2 L2].
  split; [| | | congruence..].
  - rewrite Q2, Q1, list_filter_filter. apply list_filter_iff. set_solver.
  - intros x. rewrite W2, W1. destruct (waiters f !! x); [|done]. cbn. destruct (decide (x ∈ c)), (decide (x ∈ [t])), (decide (x ∈ t :: c)); set_solver.
  - intros x. rewrite T2, T1. destruct (tasks (sys f) !! x); [|done]. cbn. destruct (decide (x ∈ c)), (decide (x ∈ [t])), (decide (x ∈ t :: c)); set_solver.
Qed.

Lemma wake_one f t w :
  futex_ok f -> t ∈ futex_waiters f -> waiters f !! t = Some w ->
  ends (wake_waiter t w) f
    (fun _ f' => futex_ok f' /\ woke [t] f f').
Proof.
  intros [(l & Hok) Hn Hq Ht Hb] Hi Ew. destruct (Ht t ltac:(eauto)) as [k Ek].
  do 2 (eapply ends_bind; eexists _, _; split; [reflexivity|]). apply runs_sched. cbn.
  eapply ends_mono; [exact (sched_ready _ t k l Hok Ek)|]. intros [] s' (Hok' & Et & Ec & El).
  assert (Hw : woke [t] f (Fsys s' (<[t := set_woken w]> (waiters f)) (without t (futex_waiters f)) (words f))).
  { split; cbn; try done; [apply list_filter_iff; set_solver | |]; intros x; case_decide as Hx.
    - apply list_elem_of_singleton in Hx as ->. rewrite lookup_insert_eq, Ew. done.
    - rewrite lookup_insert_ne by set_solver. destruct (waiters f !! x); done.
    - apply list_elem_of_singleton in Hx as ->. rewrite Et, lookup_insert_eq, Ek. done.
    - rewrite Et, lookup_insert_ne by set_solver. destruct (tasks (sys f) !! x); done. }
  split; [|exact Hw]. split; cbn [sys waiters futex_waiters]; [eauto | apply without_nodup; done | | |].
  - intros x. rewrite elem_of_without, Hq. destruct (decide (x = t)) as [-> | Hx].
    + rewrite lookup_insert_eq. split; [tauto | intros (w' & E & H); simplify_eq; done].
    + rewrite lookup_insert_ne by auto. tauto.
  - intros x. pose proof (wo_waiters _ _ _ Hw x) as Ex. pose proof (wo_tasks _ _ _ Hw x) as Ex'. cbn [waiters sys] in Ex, Ex'.
    rewrite Ex, Ex', !fmap_is_Some. auto.
  - intros x w'. destruct (decide (x = t)) as [-> | Hx]; [rewrite lookup_insert_eq; intros E; injection E as <-; exact (Hb t w Ew)|].
    rewrite lookup_insert_ne by auto. apply Hb.
Qed.

Lemma wants_after t f f1 key bits x : woke [t] f f1 -> wants f1 key bits x <-> wants f key bits x.
Proof.
  intros Hw. unfold wants. rewrite (wo_waiters _ _ _ Hw x). destruct (waiters f !! x) as [w|]; [|done]. cbn.
  split; intros (w' & E & H); injection E as <-; (eexists; split; [reflexivity|]); case_decide; done.
Qed.

Lemma wake_loop_ok key max bits rest : forall n f,
  futex_ok f -> NoDup rest -> (forall t, t ∈ rest -> t ∈ futex_waiters f) -> 0 <= n <= max ->
  let c := take (Z.to_nat (max - n)) (filter (wants f key bits) rest) in
  ends (wake_loop key max bits n rest) f (fun r f' => futex_ok f' /\ r = n + Z.of_nat (length c) /\ woke c f f').
Proof.
  induction rest as [|t rest IH]; intros n f Hok Hnd Hin Hn; cbn [wake_loop]; cbv zeta.
  { apply ends_ret. rewrite filter_nil, take_nil. split; [done|]. split; [cbn; lia | apply woke_none]. }
  destruct (Z.ltb_spec n max) as [Hlt | Hge]; cbn [negb].
  2:{ apply ends_ret. replace (Z.to_nat (max - n)) with 0%nat by lia. rewrite take_0. split; [done|]. split; [cbn; lia | apply woke_none]. }
  destruct (proj1 (fo_queue _ Hok t) (Hin t ltac:(left))) as (w & Ew & Hwk). apply NoDup_cons in Hnd as [Ht Hnd].
  eapply ends_bind, runs_waiter; [exact Ew|]. destruct (decide (wants f key bits t)) as [Hw | Hw].
  - rewrite filter_cons_True by done. pose proof Hw as (w' & E' & Hk & Hb). rewrite Ew in E'. injection E' as <-.
    rewrite Hk. unfold nz. rewrite (proj2 (Z.eqb_neq _ _) Hb). cbn [negb orb].
    eapply ends_bind, ends_mono; [exact (wake_one f t w Hok (Hin t ltac:(left)) Ew)|]. intros [] f1 [Hok1 Hw1].
    eapply ends_mono; [apply (IH (n + 1) f1 Hok1 Hnd); [|lia]|].
    { intros x Hx. rewrite (wo_queue _ _ _ Hw1), list_elem_of_filter, list_elem_of_singleton. split; [set_solver|]. apply Hin. right. done. }
    intros r f' (Hok' & Hr & Hw'). split; [done|]. rewrite (list_filter_iff _ (wants f key bits)) in Hr, Hw' by (intros x; apply (wants_after t); done).
    replace (Z.to_nat (max - n)) with (S (Z.to_nat (max - (n + 1)))) by lia. rewrite firstn_cons. split; [cbn [length]; lia|].
    eapply woke_cons; [|exact Hw1 | exact Hw']. intros (i & Hi & _)%elem_of_take. apply list_elem_of_lookup_2, list_elem_of_filter in Hi. tauto.
  - rewrite filter_cons_False by done.
    assert (Hno : negb (futex_keys_equal (wkey w) key) || negb (nz (Z.land (bitset w) bits)) = true).
    { apply not_false_is_true. intros H. apply orb_false_iff in H as [H1 H2]. apply Hw. exists w. split; [done|].
      apply negb_false_iff in H1, H2. split; [done|]. unfold nz in H2. apply negb_true_iff, Z.eqb_neq in H2. done. }
    rewrite Hno. apply (IH n f Hok Hnd); [|lia]. intros x Hx. apply Hin. right. done.
Qed.
