(* ===== verification/FutexCorrect.v ===== *)
(** * Futexes: theorems

    What a wakeup does, that no wakeup is lost, that no waiter outlives its
    frame, the keys, the deadlines and the robust list. *)

From S2P Require Import Prelude RbTree RbTreeInv Timer TimerProof Sched SchedInv SchedKeeps SchedProof SchedCorrect VmMap VmMapTree Futex FutexProof.

#[local] Arguments without : simpl never.

(** ** The sections of a wait *)

Lemma wait_section us ms s t k l :
  sched_ok s l -> tasks s !! t = Some k -> (0 < length (wait_lists s))%nat ->
  ends (go_to_sleep us ms t) s
    (fun _ s' => (exists l', sched_ok s' l') /\ exists k', tasks s' !! t = Some k' /\ status k' = ps_waiting /\ wait_interruptible k' = true).
Proof.
  intros Hok E Hw. eapply ends_bind, ends_mono; [exact (sched_maybe_arm _ us ms s t k l Hok E)|].
  intros [] s1 (l1 & k1 & Hok1 & E1 & Ew). eapply ends_bind, ends_mono; [apply (sched_wait s1 t k1 l1 None Hok1 E1); rewrite Ew; done|].
  intros [] s2 [Hok2 (Et & _)]. assert (E2 : tasks s2 !! t = Some (to_waiting k1)) by (rewrite Et, lookup_insert_eq; done).
  eapply runs_modify; [exact E2|]. split.
  - exists l1. apply (sched_modify s2 l1 t (to_waiting k1)); try done. right. done.
  - cbn. rewrite lookup_insert_eq. eexists. done.
Qed.

Lemma keeps_section us ms t :
  keeps (go_to_sleep us ms t).
Proof. unfold go_to_sleep. eauto 20 with evolves. Qed.

(** A program of the scheduler leaves the waiters and their queue alone. *)
Lemma runs_keeps {A} (m : P A) f (Q : A -> sched -> Prop) :
  keeps m -> ends m (sys f) Q ->
  ends (on_sched m) f (fun x f' => Q x (sys f') /\ waiters f' = waiters f /\ futex_waiters f' = futex_waiters f /\ words f' = words f /\
    forall t, is_Some (tasks (sys f) !! t) -> is_Some (tasks (sys f') !! t)).
Proof.
  intros Hk (x & s & E & H). apply runs_sched. exists x, s. split; [done|]. split_and!; try done. cbn. intros t Ht. eapply keeps_task; eauto.
Qed.

(** The task is not asleep. *)
Definition up (f : fsys) (t : Z) : Prop := exists k, tasks (sys f) !! t = Some k /\ status k <> ps_waiting.

Lemma no_sleep : task_moves (fun k k' => status k' = ps_waiting -> status k = ps_waiting).
Proof. split; cbn; intros; auto; congruence. Qed.
#[local] Hint Resolve no_sleep : evolves.

(** A program that puts no task to sleep, or only [t]. *)
Lemma runs_awake {A} (m : P A) f Q :
  evolves (fun k k' => status k' = ps_waiting -> status k = ps_waiting) m -> ends (on_sched m) f Q ->
  ends (on_sched m) f (fun x f' => Q x f' /\ forall t, up f t -> up f' t).
Proof.
  intros Hm (x & f' & E & H). exists x, f'. split; [done|]. split; [done|]. unfold on_sched in E.
  destruct (m (sys f)) as [[y s]|] eqn:Em; [|discriminate]. injection E as -> <-. intros t (k & Ek & Hk).
  destruct (Hm _ _ _ Em) as [Ht _]. specialize (Ht t). rewrite Ek in Ht. inversion Ht as [k1 k2 H1 E1 E2|]; subst.
  exists k2. split; [done | auto].
Qed.
Lemma runs_only {A} (m : P A) f Q t :
  only t m -> ends (on_sched m) f Q -> ends (on_sched m) f (fun x f' => Q x f' /\ forall u, u <> t -> up f u -> up f' u).
Proof.
  intros Hm (x & f' & E & H). exists x, f'. split; [done|]. split; [done|]. unfold on_sched in E.
  destruct (m (sys f)) as [[y s]|] eqn:Em; [|discriminate]. injection E as -> <-. intros u Hu (k & Ek & Hk).
  exists k. split; [|done]. cbn. rewrite (Hm _ _ _ Em u Hu). done.
Qed.

Definition went_to_sleep (t : Z) (w : futex_waiter) (f f' : fsys) : Prop :=
  word_at (place_of (wkey w)) f = val w /\ woken w = false /\ futex_waiters f' = futex_waiters f ++ [t] /\
  waiters f' = <[t := w]> (waiters f) /\ (forall u, u <> t -> up f u -> up f' u) /\
  exists k, tasks (sys f') !! t = Some k /\ status k = ps_waiting /\ wait_interruptible k = true.

Lemma join_ok f f1 t w :
  futex_ok f -> waiters f !! t = None -> woken w = false -> 0 < bitset w < UINT32_MOD ->
  waiters f1 = <[t := w]> (waiters f) -> futex_waiters f1 = futex_waiters f ++ [t] -> (exists l, sched_ok (sys f1) l) ->
  is_Some (tasks (sys f) !! t) -> (forall t, is_Some (tasks (sys f) !! t) -> is_Some (tasks (sys f1) !! t)) -> futex_ok f1.
Proof.
  intros [_ Hn Hq Ht Hb] Et Hw Hbw Ew El Hok Hk Hkeep. assert (Hnot : t ∉ futex_waiters f).
  { rewrite Hq, Et. intros (w0 & E & _). discriminate. }
  split; rewrite ?Ew, ?El; [done | | | |].
  - apply NoDup_app. split_and!; [done | set_solver | apply NoDup_singleton].
  - intros x. rewrite elem_of_app, list_elem_of_singleton, Hq. destruct (decide (x = t)) as [-> | Hx].
    + rewrite lookup_insert_eq. split; [eauto | auto].
    + rewrite lookup_insert_ne by auto. tauto.
  - intros x. destruct (decide (x = t)) as [-> | Hx]; [auto | rewrite lookup_insert_ne by auto; auto].
  - intros x w'. destruct (decide (x = t)) as [-> | Hx]; [rewrite lookup_insert_eq; intros E; injection E as <-; done|].
    rewrite lookup_insert_ne by auto. apply Hb.
Qed.

Lemma futex_wait_ok us us' i f t key v bits d :
  futex_ok f -> is_Some (tasks (sys f) !! t) -> waiters f !! t = None -> (0 < length (wait_lists (sys f)))%nat -> 0 < bits < UINT32_MOD ->
  ends (futex_wait us us' i t key v bits d) f (fun r f' => futex_ok f' /\ words f' = words f /\
    match r with Some _ => f' = f | None => went_to_sleep t (Waiter key false bits v d) f f' end).
Proof.
  intros Hok [k Ek] Hno Hw Hb. unfold futex_wait. destruct (futex_timeout d (us / 1000)) as [e|ms]; [apply ends_ret; done|].
  eapply ends_bind. eexists _, _. split; [reflexivity|]. destruct (Z.eqb_spec (word_at (place_of key) f) v) as [Hv | Hv]; cbn [negb]; [|apply ends_ret; done].
  destruct i; [apply ends_ret; done|]. do 2 (eapply ends_bind; eexists _, _; split; [reflexivity|]).
  set (w := Waiter key false bits v d). set (f1 := Fsys _ _ _ _).
  destruct (fo_sched _ Hok) as (l & Hs).
  assert (Ho : only t (go_to_sleep us' ms t)) by (unfold go_to_sleep; eauto 20 with only).
  eapply ends_bind, ends_mono; [exact (runs_only _ f1 _ t Ho (runs_keeps _ f1 _ (keeps_section us' ms t) (wait_section us' ms (sys f) t k l Hs Ek Hw)))|].
  intros [] f2 (((Hok2 & Hk2) & Ew & El & Ed & Hkeep) & Hup). apply ends_ret. split; [|split; [done|]].
  - eapply (join_ok f f2 t w); eauto.
  - split_and!; done.
Qed.

(** The waiter of [t] goes out of scope, off the queue. *)
Lemma leave_ok f f1 t :
  futex_ok f -> waiters f1 = delete t (waiters f) -> futex_waiters f1 = without t (futex_waiters f) ->
  (exists l, sched_ok (sys f1) l) -> (forall t, is_Some (tasks (sys f) !! t) -> is_Some (tasks (sys f1) !! t)) -> futex_ok f1.
Proof.
  intros [_ Hn Hq Ht Hb] Ew El Hok Hkeep. split; rewrite ?Ew, ?El; [done | apply without_nodup; done | | |].
  - intros x. rewrite elem_of_without, Hq. setoid_rewrite lookup_delete_Some. split; [intros (? & w & ? & ?); exists w; auto|].
    intros (w & (? & ?) & ?). eauto.
  - intros x (w & (_ & E)%lookup_delete_Some). eauto.
  - intros x w (_ & E)%lookup_delete_Some. eauto.
Qed.

Definition resume_result (us : Z) (interrupted : bool) (w : futex_waiter) : option Z :=
  if woken w then Some 0 else
  if interrupted then Some (- EINTR) else
  match deadline w with None => None | Some d => if us / 1000 <? d then None else Some (- ETIMEDOUT) end.

Lemma futex_resume_ok us i f t w :
  futex_ok f -> waiters f !! t = Some w ->
  ends (futex_resume us i t) f (fun r f' => futex_ok f' /\ words f' = words f /\ r = resume_result us i w /\
    waiters f' = delete t (waiters f) /\ futex_waiters f' = without t (futex_waiters f) /\ forall u, up f u -> up f' u).
Proof.
  intros Hok Ew. destruct (fo_task _ Hok t ltac:(eauto)) as [k Ek]. destruct (fo_sched _ Hok) as (l & Hs).
  unfold futex_resume. eapply ends_bind, runs_waiter; [exact Ew|].
  assert (Hu : ends (if woken w then mret tt else unlink t) f (fun _ f1 => f1 = Fsys (sys f) (waiters f) (without t (futex_waiters f)) (words f))).
  { destruct (woken w) eqn:Hw; [|eexists _, _; split; reflexivity]. apply ends_ret. unfold without. rewrite without_absent; [destruct f; done|].
    rewrite (fo_queue _ Hok). intros (w' & E & H). congruence. }
  eapply ends_bind, ends_mono; [exact Hu|]. intros [] f1 ->.
  eapply ends_bind, ends_mono; [exact (runs_awake _ _ _ (evolves_disarm _ no_sleep t) (runs_keeps _ (Fsys _ _ _ _) _ (evolves_disarm _ any_change t) (sched_disarm (sys f) t k l Hs Ek)))|].
  intros [] f2 (((Hok2 & _) & Ew2 & El2 & Ed2 & Hkeep) & Hup). cbn in Ew2, El2, Ed2, Hkeep. eapply ends_bind. eexists _, _. split; [reflexivity|]. apply ends_ret.
  cbn [words waiters futex_waiters set_waiters]. rewrite Ew2, El2, Ed2. split_and!; try done.
  apply (leave_ok f _ t Hok); cbn; rewrite ?Ew2; eauto.
Qed.

Lemma ending_awake t : evolves (fun k k' => status k' = ps_waiting -> status k = ps_waiting)
  (list_remove_entry t;; timer_disarm_unsafe t;; modify t (set_status ps_dying)).
Proof.
  assert (forall k, status (set_status ps_dying k) = ps_waiting -> status k = ps_waiting) by done. eauto 20 with evolves.
Qed.

Lemma kill_ok f t : futex_ok f -> is_Some (tasks (sys f) !! t) ->
  ends (kill_thread t) f (fun _ f' => futex_ok f' /\ words f' = words f /\ waiters f' = delete t (waiters f) /\ (t ∉ futex_waiters f') /\
    forall u, up f u -> up f' u).
Proof.
  intros Hok [k Ek]. destruct (fo_sched _ Hok) as (l & Hs). unfold kill_thread.
  eapply ends_bind, ends_mono; [exact (runs_awake _ f _ (evolves_disarm _ no_sleep t) (runs_keeps _ f _ (evolves_disarm _ any_change t) (sched_disarm (sys f) t k l Hs Ek)))|].
  intros [] f1 (((Hok1 & _ & _ & k1 & Ek1 & _) & Ew1 & El1 & Ed1 & Hk1) & Hup1).
  eapply ends_bind. eexists _, _. split; [reflexivity|].
  eapply ends_bind, ends_mono; [apply (runs_awake _ (Fsys _ _ _ _));
    [|apply (runs_keeps _ (Fsys _ _ _ _)); [|exact (exit_ok _ _ t k1 Hok1 Ek1)]; eauto 20 with evolves]; exact (ending_awake t)|].
  intros [] f2 ((Hok2 & Ew2 & El2 & Ed2 & Hk2) & Hup2). cbn in Ew2, El2, Ed2, Hk2. eexists _, _. split; [reflexivity|].
  cbn [words waiters futex_waiters set_waiters]. rewrite Ew2, Ed2, El2, Ew1. split_and!; try done.
  - apply (leave_ok f _ t Hok); cbn; [congruence | congruence | done | auto].
  - rewrite elem_of_without. tauto.
  - intros u Hu. apply (Hup2 u), (Hup1 u Hu).
Qed.

(** ** The system *)

(** What can happen: the CPUs, tasks and queues exist, and a task waits, or
    comes back from a wait, on one futex at a time, and sleeps for nothing
    else until it is back. *)
Definition fvalid (f : fsys) (e : fevent) : Prop :=
  match e with
  | FWait cpu _ _ _ _ _ bits _ =>
      (cpu < length (cpus (sys f)))%nat /\ (0 < length (wait_lists (sys f)))%nat /\ 0 < bits < UINT32_MOD /\
      forall t, cpus (sys f) !! cpu = Some t -> waiters f !! t = None
  | FResume cpu _ _ => exists t, cpus (sys f) !! cpu = Some t /\ is_Some (waiters f !! t)
  | FWake _ n _ => 0 <= n
  | FStore _ _ => True
  | FKill t => is_Some (tasks (sys f) !! t)
  | FSched e => valid (sys f) e /\
      forall cpu t, sleeps_on e = Some cpu -> cpus (sys f) !! cpu = Some t -> waiters f !! t = None
  end.
Fixpoint all_fvalid (es : list fevent) (f : fsys) : Prop :=
  match es with
  | [] => True
  | e :: es => fvalid f e /\ forall f', fperform e f = Some (tt, f') -> all_fvalid es f'
  end.

(** A waiter that was woken belongs to a task that is not asleep. *)
Definition awake (f : fsys) : Prop := forall t w, waiters f !! t = Some w -> woken w = true -> up f t.

(** The word is [v], and each task that is in a wait on it expected [v], or
    was woken and is not asleep. *)
Definition settled (p : place) (v : Z) (f : fsys) : Prop :=
  word_at p f = v /\
  forall t w, waiters f !! t = Some w -> place_of (wkey w) = p -> val w = v \/ woken w = true /\ up f t.

Definition stores (p : place) (e : fevent) : Prop := match e with FStore q _ => q = p | _ => False end.

Lemma keys_equal_place a b : futex_keys_equal a b = true <-> place_of a = place_of b.
Proof.
  unfold futex_keys_equal, place_of. rewrite !andb_true_iff, !Z.eqb_eq. split; [intros (((-> & ->) & ->) & ->); done|].
  intros E. injection E as -> -> -> ->. done.
Qed.

Lemma wake_mask_ok key max bits f :
  futex_ok f -> 0 <= max ->
  let c := take (Z.to_nat max) (filter (wants f key bits) (futex_waiters f)) in
  ends (futex_wake_mask_unsafe key max bits) f (fun r f' => futex_ok f' /\ r = Z.of_nat (length c) /\ woke c f f').
Proof.
  intros Hok Hm c. eapply ends_bind. eexists _, _. split; [reflexivity|].
  pose proof (wake_loop_ok key max bits (futex_waiters f) 0 f Hok (fo_nodup _ Hok) ltac:(auto) ltac:(lia)) as H.
  cbv zeta in H. rewrite Z.sub_0_r in H. exact H.
Qed.

(** A step that makes no waiter, wakes some and puts none of their tasks to
    sleep. *)
Definition quiet (f f' : fsys) : Prop := forall t w', waiters f' !! t = Some w' ->
  (up f t -> up f' t) /\ exists w, waiters f !! t = Some w /\ (w' = w \/ w' = set_woken w /\ up f' t).

(** The effect of a step on a word nobody stores to. *)
Definition respects (p : place) (f f' : fsys) : Prop :=
  word_at p f' = word_at p f /\ forall v, settled p v f -> settled p v f'.

Lemma quiet_respects p f f' : quiet f f' -> words f' = words f -> respects p f f'.
Proof.
  intros Hq Ed. assert (E : word_at p f' = word_at p f) by (unfold word_at; rewrite Ed; done). split; [done|].
  intros v [Hv Hs]. split; [congruence|]. intros t w' Et Hp. destruct (Hq t w' Et) as [Hu (w & Ew & [-> | [-> Hup]])].
  - destruct (Hs t w Ew Hp) as [? | [? ?]]; auto.
  - right. done.
Qed.
Lemma quiet_awake f f' : quiet f f' -> awake f -> awake f'.
Proof.
  intros Hq Ha t w' Et Hw. destruct (Hq t w' Et) as [Hu (w & Ew & [-> | [-> Hup]])]; [|done]. exact (Hu (Ha t w Ew Hw)).
Qed.

Lemma woke_quiet c f f' : futex_ok f -> woke c f f' -> quiet f f'.
Proof.
  intros Hok Hw t w' E. pose proof (wo_tasks _ _ _ Hw t) as Et. rewrite (wo_waiters _ _ _ Hw) in E.
  assert (Hr : forall k, status (readied k) <> ps_waiting \/ readied k = k /\ status k = ps_dying).
  { intros k. unfold readied. case_bool_decide; [right; done | left; done]. }
  split.
  - intros (k & Ek & Hk). rewrite Ek in Et. eexists. split; [exact Et|]. case_decide; [|done].
    destruct (Hr k) as [? | [-> ->]]; done.
  - destruct (waiters f !! t) as [w|] eqn:Ew; [|discriminate]. cbn in E. injection E as <-. exists w. split; [done|].
    destruct (fo_task _ Hok t ltac:(eauto)) as [k Ek]. rewrite Ek in Et.
    case_decide; [|auto]. right. split; [done|]. eexists. split; [exact Et|]. cbn. destruct (Hr k) as [? | [-> ->]]; done.
Qed.

Lemma settled_asleep p v f f' t w : settled p v f -> word_at p f' = word_at p f -> went_to_sleep t w f f' -> settled p v f'.
Proof.
  intros [Hv Hs] Ew (Hx & _ & _ & Es & Hup & _). split; [congruence|]. intros x w'. rewrite Es.
  destruct (decide (x = t)) as [-> | Hne].
  - rewrite lookup_insert_eq. intros E Hp. injection E as <-. left. rewrite Hp in Hx. congruence.
  - rewrite lookup_insert_ne by auto. intros E Hp. destruct (Hs x w' E Hp) as [? | [? ?]]; auto.
Qed.
Lemma awake_asleep f f' t w : awake f -> went_to_sleep t w f f' -> awake f'.
Proof.
  intros Ha (_ & Hw & _ & Es & Hup & _) x w'. rewrite Es. destruct (decide (x = t)) as [-> | Hne].
  - rewrite lookup_insert_eq. intros E Hk. injection E as <-. congruence.
  - rewrite lookup_insert_ne by auto. intros E Hk. apply (Hup x Hne), (Ha x w' E Hk).
Qed.

Lemma delete_quiet f f' t : waiters f' = delete t (waiters f) -> (forall u, up f u -> up f' u) -> quiet f f'.
Proof. intros Ew Hu x w'. rewrite Ew. intros (_ & E)%lookup_delete_Some. split; [auto|]. eauto. Qed.

(** A step of the scheduler. *)
Lemma sched_quiet f e x f' :
  (forall cpu t, sleeps_on e = Some cpu -> cpus (sys f) !! cpu = Some t -> waiters f !! t = None) ->
  on_sched (perform e) f = Some (x, f') -> quiet f f'.
Proof.
  intros Hv E. unfold on_sched in E. destruct (perform e (sys f)) as [[y s]|] eqn:Ep; [|discriminate]. injection E as -> <-.
  intros t w' Ew. cbn in Ew. split; [|exists w'; auto]. intros (k & Ek & Hk). destruct (sleeps_on e) as [cpu|] eqn:Es.
  - assert (exists u, cpus (sys f) !! cpu = Some u) as [u Eu].
    { destruct e; try discriminate Es; injection Es as ->; unfold perform, mbind, st_bind, current in Ep;
        destruct (cpus (sys f) !! cpu); try discriminate Ep; eauto. }
    assert (Hu : t <> u) by (intros ->; rewrite (Hv cpu u eq_refl Eu) in Ew; done).
    exists k. split; [|done]. cbn. rewrite (only_sleep e cpu u _ _ _ Es Eu Ep t Hu). done.
  - destruct (evolves_awake _ no_sleep e Es _ _ _ Ep) as [Ht _]. specialize (Ht t). rewrite Ek in Ht.
    inversion Ht as [k1 k2 H1 E1 E2|]; subst. exists k2. split; [done | auto].
Qed.

Lemma fperform_ok f e : futex_ok f -> fvalid f e ->
  ends (fperform e) f (fun _ f' => futex_ok f' /\ (awake f -> awake f') /\ forall p, ~ stores p e -> respects p f f').
Proof.
  intros Hok. destruct (fo_sched _ Hok) as (l & Hs).
  assert (Hquiet : forall f', futex_ok f' -> quiet f f' -> words f' = words f ->
    futex_ok f' /\ (awake f -> awake f') /\ forall p, ~ stores p e -> respects p f f').
  { intros f' Hok' Hq Ed. split; [done|]. split; [apply quiet_awake; done | intros p _; apply quiet_respects; done]. }
  destruct e as [cpu us us' i key x bits d | cpu us i | key n bits | q x | t | e]; cbn [fvalid fperform stores].
  - intros (Hc & Hw & Hb & Hno). destruct (current_task _ _ _ Hs Hc) as (t & k & Ec & E).
    eapply ends_bind, runs_sched, runs_current; [exact Ec|]. destruct f as [s ws q d0] eqn:Ef. cbn [sys waiters futex_waiters words]. rewrite <- Ef in *.
    eapply ends_bind, ends_mono; [apply (futex_wait_ok us us' i f t key x bits d Hok); subst f; eauto|].
    intros r f' (Hok' & Ed & Hr). apply ends_ret. split; [done|]. destruct r; [subst f'; done|].
    split; [intros Ha; eapply awake_asleep; eauto|]. intros p _.
    assert (E' : word_at p f' = word_at p f) by (unfold word_at; rewrite Ed; done). split; [done|]. intros v Hp. eapply settled_asleep; eauto.
  - intros (t & Ec & w & Ew). eapply ends_bind, runs_sched, runs_current; [exact Ec|]. destruct f as [s ws q d0] eqn:Ef. cbn [sys waiters futex_waiters words]. rewrite <- Ef in *.
    eapply ends_bind, ends_mono; [apply (futex_resume_ok us i f t w Hok); subst f; done|].
    intros r f' (Hok' & Ed & _ & Ew' & _ & Hup). apply ends_ret. apply Hquiet; [done | exact (delete_quiet _ _ _ Ew' Hup) | done].
  - intros Hn. eapply ends_bind, ends_mono; [exact (wake_mask_ok key n bits f Hok Hn)|]. intros r f' (Hok' & _ & Hw). apply ends_ret.
    apply Hquiet; [done | exact (woke_quiet _ _ _ Hok Hw) | exact (wo_words _ _ _ Hw)].
  - intros _. eexists _, _. split; [reflexivity|]. split; [destruct Hok; split; done|]. split; [done|].
    intros p Hq. unfold respects, settled, word_at. cbn. rewrite lookup_insert_ne by done. done.
  - intros Ht. eapply ends_mono; [exact (kill_ok f t Hok Ht)|]. intros [] f' (Hok' & Ed & Ew & _ & Hup).
    apply Hquiet; [done | exact (delete_quiet _ _ _ Ew Hup) | done].
  - intros [Hv Hfr]. destruct (runs_keeps _ f _ (evolves_perform _ any_change e ltac:(done)) (perform_ok _ l e Hs Hv))
      as ([] & f' & E & Hs' & Ew & El & Ed & Hk). exists tt, f'. split; [done|]. apply Hquiet; [|exact (sched_quiet _ _ _ _ Hfr E) | done].
    destruct Hok as [_ Hn Hq Ht Hb]. split; rewrite ?Ew, ?El; auto.
Qed.

Lemma fperform_all_ok f es : futex_ok f -> all_fvalid es f ->
  ends (fperform_all es) f (fun _ f' => futex_ok f' /\ (awake f -> awake f') /\
    forall p, Forall (fun e => ~ stores p e) es -> respects p f f').
Proof.
  revert f. induction es as [|e es IH]; intros f Hok Hv; [apply ends_ret; done|]. destruct Hv as [Hv Hn]. cbn [fperform_all].
  destruct (fperform_ok f e Hok Hv) as ([] & f1 & E1 & Hok1 & Ha1 & Hs1). eapply ends_bind. exists tt, f1. split; [done|].
  eapply ends_mono; [exact (IH f1 Hok1 (Hn f1 E1))|]. intros [] f2 (Hok2 & Ha2 & Hs2). split; [done|]. split; [auto|].
  intros p Hf. apply Forall_cons in Hf as [H1 H2]. destruct (Hs1 p H1) as [Ea Ha], (Hs2 p H2) as [Eb Hb]. split; [congruence | auto].
Qed.

(** C8: a wakeup takes the longest waiting tasks that wait on the word and
    share a bit of the mask, as many as it may, off the queue in their order,
    marks their waiters, makes their tasks ready unless they are dying,
    returns how many they were, and touches no other waiter or task. *)
Theorem futex_wake_correct key max bits f :
  futex_ok f -> 0 <= max ->
  let c := take (Z.to_nat max) (filter (wants f key bits) (futex_waiters f)) in
  ends (futex_wake_mask_unsafe key max bits) f (fun r f' =>
    futex_ok f' /\ r = Z.of_nat (length c) /\
    futex_waiters f' = filter (fun t => t ∉ c) (futex_waiters f) /\
    (forall t, waiters f' !! t = (if decide (t ∈ c) then set_woken else id) <$> waiters f !! t) /\
    (forall t, tasks (sys f') !! t = (if decide (t ∈ c) then readied else id) <$> tasks (sys f) !! t)).
Proof.
  intros Hok Hm c. eapply ends_mono; [exact (wake_mask_ok key max bits f Hok Hm)|]. intros r f' (Hok' & Hr & [? ? ? _ _ _]). done.
Qed.

(** A wakeup of everyone leaves nobody asleep on the word. *)
Lemma wake_all_settles key max f p v f' :
  futex_ok f -> awake f' -> place_of key = p -> Z.of_nat (length (futex_waiters f)) <= max -> word_at p f = v ->
  woke (take (Z.to_nat max) (filter (wants f key UINT32_MAX) (futex_waiters f))) f f' -> settled p v f'.
Proof.
  intros Hok Ha Hp Hlen Hv Hw. set (c := take _ _) in *. split; [unfold word_at in *; rewrite (wo_words _ _ _ Hw); done|].
  intros t w E Hpl. right. enough (woken w = true) as Hk by (split; [done | exact (Ha t w E Hk)]).
  rewrite (wo_waiters _ _ _ Hw) in E. destruct (waiters f !! t) as [w0|] eqn:E0; [|discriminate]. cbn in E. injection E as <-.
  destruct (decide (t ∈ c)) as [Hc | Hc]; [done|]. cbn in *. apply not_false_is_true. intros Hk. apply Hc.
  unfold c. rewrite take_ge by (etrans; [apply length_filter|]; lia). apply list_elem_of_filter. split.
  - exists w0. split; [done|]. split; [apply keys_equal_place; congruence|]. unfold UINT32_MAX.
    change (2 ^ 32 - 1) with (Z.ones 32). rewrite Z.land_ones by lia.
    pose proof (fo_bits _ Hok _ _ E0). unfold UINT32_MOD in *. rewrite Z.mod_small; lia.
  - apply (fo_queue _ Hok). eauto.
Qed.

(** C7: no wakeup is lost.  A task stores [v] to a word and later wakes every
    waiter of it; whatever the other CPUs do before, between and after, as
    long as nobody stores to the word again and a task that is in a wait
    sleeps for nothing else, each task then found in a wait on the word
    expected [v], or was woken and is not asleep: none still sleeps for an
    older value. *)
Theorem futex_no_lost_wakeup f key v es1 max es2 :
  let p := place_of key in
  futex_ok f -> awake f -> all_fvalid (FStore p v :: es1) f ->
  Forall (fun e => ~ stores p e) es1 -> Forall (fun e => ~ stores p e) es2 ->
  ends (fperform_all (FStore p v :: es1)) f (fun _ f1 =>
    Z.of_nat (length (futex_waiters f1)) <= max -> all_fvalid (FWake key max UINT32_MAX :: es2) f1 ->
    ends (fperform_all (FWake key max UINT32_MAX :: es2)) f1 (fun _ f2 => settled p v f2)).
Proof.
  intros p Hok Haw [_ Hv1] Hs1 Hs2. specialize (Hv1 _ eq_refl). eapply ends_bind. eexists _, _. split; [reflexivity|].
  set (f0 := Fsys _ _ _ _) in *. assert (Hok0 : futex_ok f0) by (destruct Hok; split; done).
  assert (Hw0 : word_at p f0 = v) by (unfold word_at; cbn; rewrite lookup_insert_eq; done).
  eapply ends_mono; [exact (fperform_all_ok f0 _ Hok0 Hv1)|]. intros [] f1 (Hok1 & Ha1 & Hr1) Hlen [Hv2 Hn2].
  destruct (Hr1 p Hs1) as [Ew1 _]. specialize (Ha1 Haw). cbn [fperform_all fperform]. cbn [fperform] in Hn2.
  destruct (wake_mask_ok key max UINT32_MAX f1 Hok1 Hv2) as (r & f2 & E2 & Hok2 & _ & Hw2).
  assert (E2' : (_ ← futex_wake_mask_unsafe key max UINT32_MAX; mret tt) f1 = Some (tt, f2)) by (unfold mbind, st_bind; rewrite E2; done).
  eapply ends_bind. exists tt, f2. split; [exact E2'|].
  eapply ends_mono; [exact (fperform_all_ok f2 es2 Hok2 (Hn2 f2 E2'))|]. intros [] f3 (_ & _ & Hs). apply (Hs p Hs2).
  apply (wake_all_settles key max f1 p v f2 Hok1); [|done | done | rewrite Ew1; exact Hw0 | exact Hw2].
  exact (quiet_awake _ _ (woke_quiet _ _ _ Hok1 Hw2) Ha1).
Qed.

(** In every run, waits, wakeups, stores, exits and all that the scheduler
    does in any order, no operation fails, and the queue holds exactly the
    waiters whose frames are in scope and that nobody woke, each once. *)
Theorem futex_invariant f es : futex_ok f -> all_fvalid es f -> ends (fperform_all es) f (fun _ f' => futex_ok f').
Proof. intros Hok Hv. eapply ends_mono; [exact (fperform_all_ok f es Hok Hv)|]. intros [] f' [H _]. done. Qed.

(** ** Keys *)

(** What a futex word is: a word of one address space, or of a file or a
    shared anonymous object wherever that is mapped. *)
Inductive named := Private (vm addr : Z) | OfFile (tag ino off : Z) | OfObject (id off : Z).
Definition encode (n : named) : place :=
  match n with Private vm a => (0, vm, 0, a) | OfFile tag ino off => (1, tag, ino, off) | OfObject id off => (2, 0, id, off) end.
Lemma encode_inj m n : encode m = encode n <-> m = n.
Proof. split; [|congruence]. destruct m, n; cbn; congruence. Qed.

Lemma futex_region_spec t a r : ordered (inorder t) -> futex_region t a = Some r <-> r ∈ inorder t /\ contains a r.
Proof.
  unfold contains. induction t as [|c l IHl x rt IHr]; intros Ho; cbn [futex_region inorder]; [split; [done | set_solver]|].
  apply ordered_node in Ho as (Hl & Hx & Hr & Blx & Bxr & _). rewrite elem_of_app, elem_of_cons. unfold nonempty, before in *.
  repeat (case_if; breflect); [rewrite IHl by done | rewrite IHr by done |].
  - split; [tauto|]. intros ([? | [-> | Hi]] & ?); [done | lia |]. specialize (Bxr r Hi). lia.
  - split; [tauto|]. intros ([Hi | [-> | ?]] & ?); [|lia | done]. specialize (Blx r Hi). lia.
  - split; [intros E; injection E as <-; auto|]. intros ([Hi | [-> | Hi]] & ?); [specialize (Blx r Hi); lia | done | specialize (Bxr r Hi); lia].
Qed.

Section Names.
Context `{Arch} `{Files}.

Definition tag_of (i : inode) : Z := if nz (i_pgcache_tag i) then i_pgcache_tag i else i_private i.
Definition names (vm a : Z) (r : vm_region) : named :=
  if negb (nz (Z.land (flag r) MAP_SHARED)) then Private vm a else
  match (if nz (fp r) then f_inode (file_of (fp r)) else None) with
  | Some i => OfFile (tag_of i) (i_ino i) (offset r + (a - begin r))
  | None => if nz (anon_id r) then OfObject (anon_id r) (offset r + (a - begin r)) else Private vm a
  end.

(** A word the caller may wait on. *)
Definition usable (a : Z) (r : vm_region) : Prop := contains a r /\ a + 4 <= end_ r /\ Z.land (prot r) PROT_READ <> 0.

(** A region whose part of its object lies in the first 4 GiB. *)
Definition near (r : vm_region) : Prop := 0 <= offset r /\ offset r + (end_ r - begin r) <= UINT32_MOD.

Lemma near_offset r a : 2 ^ 32 <= vaddr_mod -> near r -> contains a r -> (u32 (offset r) + a - begin r) mod vaddr_mod = offset r + (a - begin r).
Proof. unfold near, contains, UINT32_MOD. intros. rewrite u32_id by (unfold UINT32_MOD; lia). rewrite Z.mod_small; lia. Qed.

Lemma get_put_file f s s' : fs_get_file f s = Some s' -> fs_put_file f s' = Some s.
Proof.
  unfold fs_get_file, fs_put_file, ref_get, ref_put. destruct (Z.ltb_spec 0 (rc (file_refs s) f)) as [Hr | ?]; [|discriminate]. cbn. intros E. injection E as <-.
  cbn. unfold rc at 1 2. rewrite lookup_insert_eq. cbn. rewrite (proj2 (Z.ltb_lt _ _)) by lia. cbn. f_equal.
  rewrite insert_insert_eq. unfold set_file_refs. cbn.
  unfold rc in *. destruct (file_refs s !! f) as [n|] eqn:E; cbn in *; [|lia]. rewrite lookup_insert_eq. cbn. replace (n + 1 - 1) with n by lia. rewrite (insert_id _ _ _ E). destruct s; done.
Qed.

Lemma get_key_ok vm t a s :
  ordered (inorder t) -> vm <> 0 -> 2 ^ 32 <= vaddr_mod -> (forall r, r ∈ inorder t -> nz (fp r) = true -> 0 < rc (file_refs s) (fp r)) ->
  exists res s', futex_get_key vm t a false s = Some (res, s') /\
    match res with
    | inl e => e = - EFAULT /\ s' = s /\ forall r, r ∈ inorder t -> ~ usable a r
    | inr k => futex_release_key k s' = Some s /\
        exists r, r ∈ inorder t /\ usable a r /\ (near r -> place_of k = encode (names vm a r))
    end.
Proof.
  intros Ho Hvm Hmod Hrefs. unfold futex_get_key. rewrite (proj2 (Z.eqb_neq _ _)) by done.
  destruct (futex_region t a) as [r|] eqn:Er.
  2:{ eexists _, _. split; [reflexivity|]. split_and!; try done. intros r Hr [Hc _]. rewrite (proj2 (futex_region_spec t a r Ho)) in Er; done. }
  pose proof (proj1 (futex_region_spec t a r Ho) Er) as [Hr Hc]. destruct ((end_ r - a <? 4) || negb (nz (Z.land (prot r) PROT_READ))) eqn:Hb.
  { eexists _, _. split; [reflexivity|]. split_and!; try done. intros r' Hr' (Hc' & He & Hp).
    rewrite (proj2 (futex_region_spec t a r' Ho)) in Er by done. injection Er as ->.
    apply orb_true_iff in Hb as [Hb | Hb]; unfold nz in Hb; breflect; [lia | congruence]. }
  assert (Hu : usable a r).
  { apply orb_false_iff in Hb as [Hb1 Hb2]. unfold nz in Hb2. breflect. split_and!; [done | lia | done]. }
  assert (Hp : exists k s', (if nz (Z.land (flag r) MAP_SHARED) then '(key, s) ← shared_key vm a r s; Some (inr key : Z + futex_key, s) else Some (inr (Key 0 vm 0 a 0), s))
    = Some (inr k, s') /\ futex_release_key k s' = Some s /\ (near r -> place_of k = encode (names vm a r))).
  { unfold names. destruct (nz (Z.land (flag r) MAP_SHARED)); cbn [negb]; [|eexists _, _; done]. unfold shared_key.
    destruct (nz (fp r)) eqn:Hf; [destruct (f_inode (file_of (fp r))) as [i|]|].
    - assert (exists s', fs_get_file (fp r) s = Some s') as [s' Es].
      { unfold fs_get_file, ref_get. rewrite (proj2 (Z.ltb_lt _ _)) by auto. eauto. }
      rewrite Es. cbn. eexists _, _. split; [reflexivity|]. split; [unfold futex_release_key; cbn; rewrite Hf; apply get_put_file; done|].
      intros Hn. unfold place_of, tag_of. cbn. rewrite near_offset by done. done.
    - destruct (nz (anon_id r)); (eexists _, _; split; [reflexivity|]; split; [done|]); [|done]. intros Hn. unfold place_of. cbn. rewrite near_offset by done. done.
    - destruct (nz (anon_id r)); (eexists _, _; split; [reflexivity|]; split; [done|]); [|done]. intros Hn. unfold place_of. cbn. rewrite near_offset by done. done. }
  destruct Hp as (k & s' & Ek & Hrel & Hpl). exists (inr k), s'. split; [exact Ek|]. split; [done|]. eauto.
Qed.

Lemma usable_unique t a r r' : ordered (inorder t) -> r ∈ inorder t -> r' ∈ inorder t -> usable a r -> usable a r' -> r = r'.
Proof.
  intros Ho H1 H2 [C1 _] [C2 _]. pose proof (proj2 (futex_region_spec t a r Ho) (conj H1 C1)).
  pose proof (proj2 (futex_region_spec t a r' Ho) (conj H2 C2)). congruence.
Qed.

(** Two tasks that name a word, each in its own address space and at its
    own address, wait on the same futex exactly when the word is the same one:
    of the same address space, or at the same offset of the same file or
    shared object; and the key's reference to the file goes with the key. *)
Theorem futex_key_correct vm1 t1 a1 r1 vm2 t2 a2 r2 s :
  2 ^ 32 <= vaddr_mod -> vm1 <> 0 -> vm2 <> 0 -> ordered (inorder t1) -> ordered (inorder t2) ->
  (forall r, r ∈ inorder t1 ++ inorder t2 -> nz (fp r) = true -> 0 < rc (file_refs s) (fp r)) ->
  r1 ∈ inorder t1 -> usable a1 r1 -> near r1 -> r2 ∈ inorder t2 -> usable a2 r2 -> near r2 ->
  exists k1 s1 k2 s2,
    futex_get_key vm1 t1 a1 false s = Some (inr k1, s1) /\ futex_get_key vm2 t2 a2 false s = Some (inr k2, s2) /\
    (futex_keys_equal k1 k2 = true <-> names vm1 a1 r1 = names vm2 a2 r2) /\
    futex_release_key k1 s1 = Some s /\ futex_release_key k2 s2 = Some s.
Proof.
  intros Hmod Hv1 Hv2 Ho1 Ho2 Hr Hi1 Hu1 Hn1 Hi2 Hu2 Hn2.
  destruct (get_key_ok vm1 t1 a1 s Ho1 Hv1 Hmod ltac:(intros; apply Hr; set_solver)) as (x1 & s1 & E1 & H1).
  destruct (get_key_ok vm2 t2 a2 s Ho2 Hv2 Hmod ltac:(intros; apply Hr; set_solver)) as (x2 & s2 & E2 & H2).
  destruct x1 as [e|k1]; [destruct H1 as (_ & _ & H1); destruct (H1 r1 Hi1 Hu1)|].
  destruct x2 as [e|k2]; [destruct H2 as (_ & _ & H2); destruct (H2 r2 Hi2 Hu2)|].
  destruct H1 as (Hk1 & r1' & Hi1' & Hu1' & P1), H2 as (Hk2 & r2' & Hi2' & Hu2' & P2).
  rewrite (usable_unique t1 a1 r1' r1) in P1 by done. rewrite (usable_unique t2 a2 r2' r2) in P2 by done.
  exists k1, s1, k2, s2. split_and!; try done. rewrite keys_equal_place, P1, P2 by done. apply encode_inj.
Qed.

Lemma execute_request uaddr op v val3 value timeout wall us us' q :
  futex_execute uaddr op v val3 value timeout wall us us' = inr q ->
  match q with Wait x bits _ => x = v /\ value = Some v /\ 0 < bits < UINT32_MOD | WakeUp n bits => n = v /\ 0 <= n /\ 0 < bits < UINT32_MOD end.
Proof.
  unfold futex_execute. set (cmd := Z.ldiff op _). set (bop := (cmd =? FUTEX_WAIT_BITSET) || _).
  assert (Hb : bop && ((if bop then u32 val3 else UINT32_MAX) =? 0) = false -> 0 < (if bop then u32 val3 else UINT32_MAX) < UINT32_MOD).
  { destruct bop; cbn; [|done]. intros Hz%Z.eqb_neq. pose proof (u32_range val3). lia. }
  intros E. repeat (case_match; try discriminate); injection E as <-; breflect; split_and!; try done; try congruence; try apply Hb; done || lia.
Qed.

Lemma execute_error uaddr op v val3 value timeout wall us us' e :
  futex_execute uaddr op v val3 value timeout wall us us' = inl e -> e < 0.
Proof.
  unfold futex_execute, futex_deadline. intros E. repeat (case_match; try discriminate); simplify_eq; reflexivity.
Qed.

(** A futex call is refused or accepted: a refusal leaves no reference to
    a file behind, and an accepted call holds its key, waits only for a word
    that held the value it gave, with a mask that can be woken. *)
Theorem futex_common_correct vm t uaddr op v val3 value timeout wall us us' s :
  ordered (inorder t) -> vm <> 0 -> 2 ^ 32 <= vaddr_mod -> (forall r, r ∈ inorder t -> nz (fp r) = true -> 0 < rc (file_refs s) (fp r)) ->
  exists res s', futex_common vm t uaddr op v val3 value timeout wall us us' s = Some (res, s') /\
    match res with
    | inl e => s' = s /\ e < 0
    | inr (k, q) => futex_release_key k s' = Some s /\
        match q with Wait x bits _ => x = v /\ value = Some v /\ 0 < bits < UINT32_MOD
                   | WakeUp n bits => n = v /\ 0 <= n /\ 0 < bits < UINT32_MOD end
    end.
Proof.
  intros Ho Hvm Hmod Hr. unfold futex_common. do 3 (case_match; [eexists _, _; done|]).
  assert (Hk : exists res s', futex_get_key vm t uaddr (nz (Z.land op FUTEX_PRIVATE_FLAG)) s = Some (res, s') /\
    match res with inl e => e = - EFAULT /\ s' = s | inr k => futex_release_key k s' = Some s end).
  { destruct (nz (Z.land op FUTEX_PRIVATE_FLAG)); [eexists _, _; split; [reflexivity|]; done|].
    destruct (get_key_ok vm t uaddr s Ho Hvm Hmod Hr) as (res & s' & E & Hres). exists res, s'. split; [done|]. destruct res; tauto. }
  destruct Hk as ([e|k] & s' & Ek & Hk); rewrite Ek; cbn; [destruct Hk as [-> ->]; eexists _, _; done|].
  destruct (futex_execute _ _ _ _ _ _ _ _ _) as [e|q] eqn:Ex.
  - rewrite Hk. eexists _, _. split; [reflexivity|]. split; [done|]. apply execute_error in Ex. done.
  - eexists _, _. split; [reflexivity|]. split; [done|]. exact (execute_request _ _ _ _ _ _ _ _ _ _ Ex).
Qed.
End Names.

(** Beyond the first 4 GiB of a file the offset is cut to 32 bits: two words
    of one file, 4 GiB apart, have one key. *)
Lemma futex_key_collision `{Arch} `{Files} vm addr b e pr fl vf lk f off id s k s' :
  let r o := Region b e pr fl vf lk f o id in
  shared_key vm addr (r off) s = Some (k, s') -> shared_key vm addr (r (off + 2 ^ 32)) s = Some (k, s').
Proof.
  intros r. unfold shared_key. cbn. replace (u32 (off + 2 ^ 32)) with (u32 off); [done|]. unfold u32, UINT32_MOD.
  rewrite <- (Z.mul_1_l (2 ^ 32)) at 2. rewrite Z_mod_plus_full. done.
Qed.

(** ** Deadlines *)

(** The time to go, in nanoseconds. *)
Definition time_to_go (absolute : bool) (sec nsec clock : Z) : Z :=
  sec * 1000000000 + nsec - if absolute then clock * 1000 else 0.

Lemma deadline_near us ms :
  0 <= us -> 0 <= ms -> 1000 * time_deadline_ms us ms <= us + 1000 * ms + 999.
Proof.
  intros Hu Hm. unfold time_deadline_ms.
  assert (Hn : 1000 * (us / 1000 + b2z (nz (us mod 1000))) <= us + 999 /\ 0 <= us / 1000 + b2z (nz (us mod 1000))).
  { unfold nz, b2z. pose proof (Z.div_mod us 1000 ltac:(lia)). pose proof (Z.mod_pos_bound us 1000 ltac:(lia)).
    assert (0 <= us / 1000) by (apply Z.div_pos; lia). case_if; breflect; lia. }
  set (n := us / 1000 + _) in *. unfold UINT64_MAX. case_if; breflect; [lia|]. rewrite u64_id by (unfold UINT64_MOD; lia). lia.
Qed.

(** The time to go as seconds and nanoseconds. *)
Lemma relative_time (absolute : bool) sec nsec clock :
  0 <= nsec < 1000000000 -> 0 <= clock ->
  let '(s, n) :=
    if absolute then
      let s := sec - clock / 1000000 in
      let n := nsec - clock mod 1000000 * 1000 in
      if n <? 0 then (s - 1, n + 1000000000) else (s, n)
    else (sec, nsec) in
  s * 1000000000 + n = time_to_go absolute sec nsec clock /\ 0 <= n < 1000000000 /\ s <= sec.
Proof.
  intros Hn Hc. unfold time_to_go. destruct absolute; cbv zeta; [|lia].
  pose proof (Z.div_mod clock 1000000 ltac:(lia)). pose proof (Z.mod_pos_bound clock 1000000 ltac:(lia)).
  assert (0 <= clock / 1000000) by (apply Z.div_pos; lia). destruct (Z.ltb_spec (nsec - clock mod 1000000 * 1000) 0); lia.
Qed.

Lemma round_up n : 0 <= n < 1000000000 -> n <= 1000000 * ((n + 999999) / 1000000) <= n + 999999 /\ 0 <= (n + 999999) / 1000000 <= 1000.
Proof.
  intros Hn. pose proof (Z.div_mod (n + 999999) 1000000 ltac:(lia)). pose proof (Z.mod_pos_bound (n + 999999) 1000000 ltac:(lia)).
  split; [lia|]. split; [apply Z.div_pos; lia | apply Z.lt_succ_r, Z.div_lt_upper_bound; lia].
Qed.

Lemma sleep_bounds d now :
  match futex_timeout (Some d) now with
  | inl e => e = - ETIMEDOUT /\ d <= now
  | inr ms => 0 < ms < UINT32_MOD /\ now + ms <= d
  end.
Proof. unfold futex_timeout, UINT32_MAX, UINT32_MOD. destruct (Z.leb_spec d now); [done|]. case_if; breflect; lia. Qed.

(** The deadline of a wait is never before its time and at most two
    milliseconds after, or is the end of the clock; a wait whose time has come
    or was never valid is refused, and a sleep never passes the deadline. *)
Theorem futex_deadline_correct absolute sec nsec clock us :
  0 <= us < UINT64_MOD -> 0 <= clock < UINT64_MOD -> sec < 2 ^ 63 ->
  let go := time_to_go absolute sec nsec clock in
  match futex_deadline absolute sec nsec clock us with
  | inl e => e = - EINVAL /\ ~ (0 <= sec /\ 0 <= nsec < 1000000000) \/ e = - ETIMEDOUT /\ go <= 0
  | inr d => 0 < go /\ (d = UINT64_MAX \/ 1000 * us + go <= 1000000 * d <= 1000 * us + go + 2000000) /\
      forall now, match futex_timeout (Some d) now with
                  | inl e => e = - ETIMEDOUT /\ d <= now
                  | inr ms => 0 < ms < UINT32_MOD /\ now + ms <= d
                  end
  end.
Proof.
  intros Hus Hcl Hsec go. unfold futex_deadline.
  destruct ((sec <? 0) || (nsec <? 0) || (1000000000 <=? nsec)) eqn:Hv.
  { left. split; [done|]. rewrite !orb_true_iff, !Z.ltb_lt, Z.leb_le in Hv. lia. }
  breflect. pose proof (relative_time absolute sec nsec clock ltac:(lia) ltac:(lia)) as Hr. fold go in Hr.
  match type of Hr with context [let '(_, _) := ?p in _] => destruct p as [s n] end. destruct Hr as (Hgo & Hn & Hs).
  destruct ((s <? 0) || (s =? 0) && (n =? 0)) eqn:Hz.
  { right. split; [done|]. rewrite orb_true_iff, andb_true_iff, Z.ltb_lt, !Z.eqb_eq in Hz. lia. }
  assert (Hpos : 0 < go) by (rewrite orb_false_iff, andb_false_iff, Z.ltb_ge, !Z.eqb_neq in Hz; lia). split; [done|].
  split; [|intros now; apply sleep_bounds]. set (ms := if _ : bool then _ else _).
  assert (Hms : ms = UINT64_MAX \/ 0 <= ms < UINT64_MOD /\ go <= 1000000 * ms <= go + 999999).
  { pose proof (round_up n Hn). rewrite orb_false_iff, Z.ltb_ge in Hz. unfold ms. case_if; breflect; [auto|]. right.
    pose proof (Z.mul_div_le (UINT64_MAX - 1000) 1000 ltac:(lia)). assert (s * 1000 <= UINT64_MAX - 1000) by lia. unfold UINT64_MAX, UINT64_MOD in *. rewrite u64_id; unfold UINT64_MOD; lia. }
  assert (Hsat : time_deadline_ms us UINT64_MAX = UINT64_MAX).
  { unfold time_deadline_ms. assert (0 <= us / 1000) by (apply Z.div_pos; lia).
    assert (0 <= us / 1000 + b2z (nz (us mod 1000))) by (unfold b2z; destruct (nz (us mod 1000)); lia).
    set (now := us / 1000 + b2z (nz (us mod 1000))) in *. case_if; [done|]. breflect. assert (now = 0) as -> by lia. done. }
  destruct Hms as [-> | [Hm Hb]]; [left; done|]. destruct (deadline_late us ms Hus Hm) as [? | Hl]; [auto|].
  pose proof (deadline_near us ms ltac:(lia) ltac:(lia)). right. lia.
Qed.

(** ** The robust list *)

(** The word of a lock whose owner died. *)
Definition died (v : Z) : Z := Z.lor (Z.land v FUTEX_WAITERS) FUTEX_OWNER_DIED.
Definition owned (tid v : Z) : Prop := Z.land v FUTEX_TID_MASK = tid.
#[export] Instance owned_dec tid v : Decision (owned tid v).
Proof. unfold owned. apply _. Defined.

(** A word after the release of the locks [ps] by [tid]. *)
Definition released (tid : Z) (ps : list place) (p : place) (v : Z) : Z :=
  if decide (p ∈ ps /\ owned tid v) then died v else v.

Lemma died_unowned tid v : 0 < tid -> ~ owned tid (died v).
Proof.
  unfold owned, died, FUTEX_WAITERS, FUTEX_OWNER_DIED, FUTEX_TID_MASK. intros Ht H.
  rewrite Z.land_lor_distr_l, <- Z.land_assoc in H. change (Z.land 0x80000000 0x3fffffff) with 0 in H.
  change (Z.land 0x40000000 0x3fffffff) with 0 in H. rewrite Z.land_0_r in H. rewrite <- H in Ht. discriminate Ht.
Qed.
Lemma released_app tid ps qs p v : 0 < tid -> released tid qs p (released tid ps p v) = released tid (ps ++ qs) p v.
Proof.
  intros Ht. pose proof (died_unowned tid v Ht). unfold released. repeat case_decide; try done; set_solver.
Qed.

Section RobustList.
Context (vm tid : Z) (vaddr_mod : Z) (locate : Z -> option place).
Context (read_head : Z -> option (Z * Z * Z)) (read_next : Z -> option Z).
Context (Htid : 0 < tid).

(** The word of a lock of the list. *)
Definition lock_word (offset entry : Z) : list place :=
  let addr := (entry + offset) mod vaddr_mod in
  if (entry =? 0) || (addr <? PAGE_SIZE) then [] else option_list (locate addr).
(** The entries of the list, up to one that cannot be read or the limit. *)
Fixpoint entries (count : nat) (base entry : Z) : list Z :=
  match count with
  | O => []
  | S c =>
      if (entry =? 0) || (entry =? base) then [] else
      match read_next entry with None => [] | Some next => entry :: entries c base (untag next) end
  end.

(** What the release of some locks does: to their words, and to no waiter of
    a shared futex. *)
Definition let_go (ps : list place) (f f' : fsys) : Prop :=
  (forall p, word_at p f' = released tid ps p (word_at p f)) /\
  (forall t w, waiters f !! t = Some w -> kind (wkey w) <> 0 -> waiters f' !! t = Some w).

Lemma let_go_none f : let_go [] f f.
Proof. split; [|done]. intros p. unfold released. rewrite decide_False by set_solver. done. Qed.
Lemma let_go_app ps qs f f1 f2 : let_go ps f f1 -> let_go qs f1 f2 -> let_go (ps ++ qs) f f2.
Proof. intros [W1 K1] [W2 K2]. split; [intros p; rewrite W2, W1; apply released_app, Htid | auto]. Qed.

Lemma private_wake addr n f :
  futex_ok f -> 0 <= n -> ends (ps_futex_wake_unsafe vm addr n) f (fun _ f' => futex_ok f' /\ words f' = words f /\
    forall t w, waiters f !! t = Some w -> kind (wkey w) <> 0 -> waiters f' !! t = Some w).
Proof.
  intros Hok Hn. eapply ends_mono; [exact (wake_mask_ok _ n UINT32_MAX f Hok Hn)|]. intros r f' (Hok' & _ & Hw).
  split_and!; [done | exact (wo_words _ _ _ Hw)|]. intros t w E Hk. rewrite (wo_waiters _ _ _ Hw), E. case_decide as Hc; [|done].
  exfalso. apply elem_of_take in Hc as (i & Hi & _). apply list_elem_of_lookup_2, list_elem_of_filter in Hi as [(w' & E' & Hke & _) _].
  rewrite E in E'. injection E' as <-. apply keys_equal_place in Hke. injection Hke. done.
Qed.

Lemma release_ok entry offset f :
  futex_ok f -> ends (robust_release_futex vm tid vaddr_mod locate entry offset) f (fun _ f' => futex_ok f' /\ let_go (lock_word offset entry) f f').
Proof.
  intros Hok. unfold robust_release_futex, lock_word. cbv zeta. set (addr := (entry + offset) mod vaddr_mod).
  destruct ((entry =? 0) || (addr <? PAGE_SIZE)); [apply ends_ret; split; [done | apply let_go_none]|].
  destruct (locate addr) as [p|]; [|apply ends_ret; split; [done | apply let_go_none]]. cbn [option_list].
  eapply ends_bind. eexists _, _. split; [reflexivity|]. destruct (Z.eqb_spec (Z.land (word_at p f) FUTEX_TID_MASK) tid) as [Ho | Ho]; cbn [negb].
  2:{ apply ends_ret. split; [done|]. split; [|done]. intros q. unfold released. rewrite decide_False; [done|].
      intros [->%list_elem_of_singleton ?]. done. }
  eapply ends_bind. eexists _, _. split; [reflexivity|]. set (f1 := Fsys _ _ _ _). assert (Hok1 : futex_ok f1) by (destruct Hok; split; done).
  assert (Hg : let_go [p] f f1).
  { split; [|done]. intros q. unfold released, word_at. cbn. destruct (decide (q = p)) as [-> | Hq].
    - rewrite lookup_insert_eq, decide_True; [done|]. split; [set_solver | done].
    - rewrite lookup_insert_ne, decide_False by set_solver. done. }
  destruct (nz _); [|apply ends_ret; done]. eapply ends_bind, ends_mono; [exact (private_wake addr 1 f1 Hok1 ltac:(lia))|].
  intros r f2 (Hok2 & Ed & Hk). apply ends_ret. split; [done|]. destruct Hg as [W K]. split; [|auto]. intros q. unfold word_at. rewrite Ed. apply W.
Qed.

Lemma robust_loop_ok offset base pending : forall count entry f,
  futex_ok f -> ends (robust_loop vm tid vaddr_mod locate read_next count base offset pending entry) f
    (fun _ f' => futex_ok f' /\ let_go (filter (fun e => e <> pending) (entries count base entry) ≫= lock_word offset) f f').
Proof.
  induction count as [|c IH]; intros entry f Hok; cbn [robust_loop entries]; [apply ends_ret; split; [done | apply let_go_none]|].
  destruct ((entry =? 0) || (entry =? base)); [apply ends_ret; split; [done | apply let_go_none]|].
  destruct (read_next entry) as [next|]; [|apply ends_ret; split; [done | apply let_go_none]].
  eapply ends_bind. destruct (Z.eqb_spec entry pending) as [He | He]; cbn [negb].
  - apply ends_ret. rewrite filter_cons_False by tauto. apply IH. done.
  - rewrite filter_cons_True by done. eapply ends_mono; [exact (release_ok entry offset f Hok)|]. intros [] f1 [Hok1 Hg1].
    eapply ends_mono; [exact (IH (untag next) f1 Hok1)|]. intros [] f2 [Hok2 Hg2]. split; [done|]. eapply let_go_app; eauto.
Qed.

Lemma release_list_ok base entry offset pending f :
  futex_ok f -> base <> 0 -> read_head base = Some (entry, offset, pending) ->
  let locks := filter (fun e => e <> untag pending) (entries ROBUST_LIST_LIMIT base (untag entry)) ++ [untag pending] in
  ends (ps_release_robust_list vm tid vaddr_mod locate read_head read_next base) f (fun _ f' =>
    futex_ok f' /\ let_go (locks ≫= lock_word offset) f f').
Proof.
  intros Hok Hb Hr locks. unfold ps_release_robust_list. rewrite (proj2 (Z.eqb_neq _ _)), Hr by done.
  eapply ends_bind, ends_mono; [exact (robust_loop_ok offset base (untag pending) ROBUST_LIST_LIMIT (untag entry) f Hok)|].
  intros [] f1 [Hok1 Hg1]. unfold locks. rewrite bind_app. cbn [mbind list_bind].
  destruct (Z.eqb_spec (untag pending) 0) as [Hz | Hz]; unfold nz.
  - rewrite Hz, Z.eqb_refl. apply ends_ret. split; [done|]. unfold lock_word at 2. cbn. rewrite app_nil_r. rewrite Hz in Hg1. apply Hg1.
  - rewrite (proj2 (Z.eqb_neq _ _)) by done. eapply ends_mono; [exact (release_ok (untag pending) offset f1 Hok1)|]. intros [] f2 [Hok2 Hg2].
    split; [done|]. rewrite app_nil_r. apply (let_go_app _ _ f f1 f2 Hg1 Hg2).
Qed.
(** The end of a task with a robust list always comes, also when the list
    is circular or broken: each lock of its first 2048 entries, and the one it
    was about to take or release, is marked as left by a dead owner, with its
    waiters bit kept, exactly if the task owned it; no other word changes. *)
Theorem robust_list_correct base entry offset pending f :
  futex_ok f -> base <> 0 -> read_head base = Some (entry, offset, pending) ->
  let locks := filter (fun e => e <> untag pending) (entries ROBUST_LIST_LIMIT base (untag entry)) ++ [untag pending] in
  ends (ps_release_robust_list vm tid vaddr_mod locate read_head read_next base) f (fun _ f' =>
    futex_ok f' /\ forall p, word_at p f' = released tid (locks ≫= lock_word offset) p (word_at p f)).
Proof.
  intros Hok Hb Hr locks. eapply ends_mono; [exact (release_list_ok base entry offset pending f Hok Hb Hr)|].
  intros [] f' [Hok' [Hw _]]. done.
Qed.

(** A task that waits on a lock in memory shared between processes is not
    woken when the owner of the lock dies. *)
Lemma robust_shared_waiters_asleep base entry offset pending f :
  futex_ok f -> base <> 0 -> read_head base = Some (entry, offset, pending) ->
  ends (ps_release_robust_list vm tid vaddr_mod locate read_head read_next base) f (fun _ f' =>
    forall t w, waiters f !! t = Some w -> kind (wkey w) <> 0 -> waiters f' !! t = Some w).
Proof.
  intros Hok Hb Hr. eapply ends_mono; [exact (release_list_ok base entry offset pending f Hok Hb Hr)|].
  intros [] f' [_ [_ Hk]]. done.
Qed.
End RobustList.

(** ** A task asleep on a word, another one about to wake it *)

Module Demo.
Definition key : futex_key := Key 0 512 0 4096 0.
Definition demo_futex : fsys :=
  Fsys SchedCorrect.Demo.demo {[ 20 := Waiter key false UINT32_MAX 7 None ]} [20] {[ place_of key := 7 ]}.

Lemma demo_futex_ok : futex_ok demo_futex.
Proof.
  split.
  - exists [20]. apply SchedCorrect.Demo.demo_sched_ok.
  - apply NoDup_singleton.
  - intros t. cbn. rewrite list_elem_of_singleton. setoid_rewrite lookup_singleton_Some. split.
    + intros ->. eexists. done.
    + intros (w & [<- _] & _). done.
  - intros t [w E]. cbn in E. apply lookup_singleton_Some in E as [<- _]. vm_compute. eauto.
  - intros t w E. cbn in E. apply lookup_singleton_Some in E as [_ <-]. done.
Qed.

Lemma futex_wake_correct_witness :
  ends (futex_wake_mask_unsafe key 1 1) demo_futex (fun r f' => r = 1 /\ futex_waiters f' = []).
Proof.
  eapply ends_mono; [apply (futex_wake_correct key 1 1 demo_futex demo_futex_ok); lia|].
  intros r f' (_ & Hr & Hq & _). vm_compute in Hr, Hq. done.
Defined.

Lemma demo_up : awake demo_futex.
Proof. intros t w E. cbn in E. apply lookup_singleton_Some in E as [_ <-]. discriminate. Qed.

Lemma futex_no_lost_wakeup_witness :
  ends (fperform_all [FStore (place_of key) 8]) demo_futex (fun _ f1 =>
    ends (fperform_all [FWake key 5 UINT32_MAX]) f1 (fun _ f2 => settled (place_of key) 8 f2)).
Proof.
  destruct (futex_no_lost_wakeup demo_futex key 8 [] 5 []) as ([] & f1 & E1 & H); [apply demo_futex_ok | apply demo_up | done | done | done|].
  exists tt, f1. split; [exact E1|]. apply H; [|done]. vm_compute in E1. injection E1 as <-. cbn. lia.
Defined.

Lemma futex_invariant_witness : ends (fperform_all [FStore (place_of key) 8; FWake key 1 1]) demo_futex (fun _ f' => futex_ok f').
Proof. apply (futex_invariant demo_futex _ demo_futex_ok). cbn. split; [done|]. intros. split; [lia|]. done. Defined.

Lemma futex_deadline_correct_witness :
  exists d, futex_deadline false 1 500 0 2500 = inr d /\ (d = UINT64_MAX \/ 1000 * 2500 + 1000000500 <= 1000000 * d <= 1000 * 2500 + 1000000500 + 2000000).
Proof.
  pose proof (futex_deadline_correct false 1 500 0 2500 ltac:(unfold UINT64_MOD; lia) ltac:(unfold UINT64_MOD; lia) ltac:(lia)) as H.
  exists 1004. split; [reflexivity|]. exact (proj1 (proj2 H)).
Defined.

(** One lock, at 8 bytes from its entry, held by task 3 with a waiter. *)
Definition lock_at : Z -> option place := fun a => if a =? 8200 then Some (0, 512, 0, 8200) else None.
Definition held : fsys := Fsys (sys demo_futex) (waiters demo_futex) (futex_waiters demo_futex) {[ (0, 512, 0, 8200) := 0x80000003 ]}.

Lemma held_ok : futex_ok held.
Proof. destruct demo_futex_ok. split; done. Qed.

Lemma robust_list_correct_witness :
  ends (ps_release_robust_list 512 3 (2 ^ 32) lock_at (fun _ => Some (8192, 8, 0)) (fun _ => Some 4096) 4096) held
    (fun _ f' => word_at (0, 512, 0, 8200) f' = 0xC0000000).
Proof.
  eapply ends_mono; [apply (robust_list_correct 512 3 (2 ^ 32) lock_at (fun _ => Some (8192, 8, 0)) (fun _ => Some 4096) ltac:(lia) 4096 8192 8 0 held held_ok); done|].
  intros [] f' [_ Hw]. rewrite Hw. vm_compute. done.
Defined.

(** Two address spaces map one shared page of an object. *)
Definition object_at (b : Z) : tree := Node false Leaf (Region b (b + 4096) 3 MAP_SHARED 0 1 0 0 9) Leaf.
#[export] Instance demo_arch : Arch := x86_arch.
#[export] Instance demo_files : Files := {|
  file_of _ := File None 0 0 false false false; fs_file_readonly _ := false; write_page _ _ _ := false; ext4_fseek _ _ := false;
  ext4_fwrite _ _ _ := false; mmap_file _ _ _ _ _ := (0, 0, 0); frame_ordinary _ := true |}.
Definition demo_kernel : kstate := Kst ∅ ∅ ∅ ∅ ∅ 2 10 [].

Lemma object_ordered b : ordered (inorder (object_at b)).
Proof. split; cbn; repeat constructor. unfold nonempty. cbn. lia. Qed.
Lemma object_refs b r : r ∈ inorder (object_at b) -> nz (fp r) = true -> 0 < rc (file_refs demo_kernel) (fp r).
Proof. intros ->%list_elem_of_singleton. discriminate. Qed.

Lemma futex_key_correct_witness :
  exists k1 s1 k2 s2, futex_get_key 512 (object_at 4096) 4104 false demo_kernel = Some (inr k1, s1) /\
    futex_get_key 768 (object_at 65536) 65544 false demo_kernel = Some (inr k2, s2) /\ futex_keys_equal k1 k2 = true.
Proof.
  destruct (futex_key_correct 512 (object_at 4096) 4104 (Region 4096 8192 3 MAP_SHARED 0 1 0 0 9)
    768 (object_at 65536) 65544 (Region 65536 69632 3 MAP_SHARED 0 1 0 0 9) demo_kernel) as (k1 & s1 & k2 & s2 & E1 & E2 & [_ H] & _);
    [done | lia | lia | apply object_ordered | apply object_ordered | | set_solver | | | set_solver | | |].
  - intros r [Hr | Hr]%elem_of_app; eapply object_refs; eauto.
  - split; [split; cbn; lia | split; [cbn; lia | done]].
  - split; [done | cbn; done].
  - split; [split; cbn; lia | split; [cbn; lia | done]].
  - split; [done | cbn; done].
  - exists k1, s1, k2, s2. split_and!; [done | done | apply H; done].
Defined.

Lemma futex_common_correct_witness :
  exists res s', futex_common 512 (object_at 4096) 4104 FUTEX_WAKE 1 0 (Some 7) None 0 0 0 demo_kernel = Some (res, s') /\
    match res with inl e => s' = demo_kernel | inr (k, q) => futex_release_key k s' = Some demo_kernel end.
Proof.
  destruct (futex_common_correct 512 (object_at 4096) 4104 FUTEX_WAKE 1 0 (Some 7) None 0 0 0 demo_kernel) as (res & s' & E & H);
    [apply object_ordered | lia | done | intros r; apply object_refs|].
  exists res, s'. split; [done|]. destruct res as [e|[k q]]; apply H.
Defined.
End Demo.
