(* ===== verification/Signal.v ===== *)
(** * Signals

    Model of src/ps/impl/ps_signal.c: the pending signals of a task and of its
    thread group, queued events with their information, sending, masks,
    dispositions, the choice of the signal to deliver, and the wakeup of the
    tasks a signal reaches, over the scheduler of Sched.v.

    Sections under ps_lock are one operation each.  A signal set is an
    [unsigned long] of [NSIG - 1] bits, signal [n] being bit [n - 1]; [NSIG] is
    33 or 65 by architecture.  Tasks are named as in Sched.v, groups and
    handler tables by their addresses, 0 being NULL.  The process tree is the
    list of its tasks by psid. *)

From S2P Require Import Prelude Slots Sched.

Definition SIGKILL : Z := 9.
Definition SIGCHLD : Z := 17.
Definition SIGCONT : Z := 18.
Definition SIGSTOP : Z := 19.
Definition SIGTSTP : Z := 20.
Definition SIGTTIN : Z := 21.
Definition SIGTTOU : Z := 22.
Definition SIGURG : Z := 23.
Definition SIGWINCH : Z := 28.
Definition SIGRTMIN_KERNEL : Z := 32.
Definition SIG_DFL : Z := 0.
Definition SIG_IGN : Z := 1.
Definition SA_RESETHAND : Z := 0x80000000.
Definition SIG_BLOCK : Z := 0.
Definition SIG_UNBLOCK : Z := 1.
Definition SIG_SETMASK : Z := 2.
Definition SS_ONSTACK : Z := 1.
Definition SS_DISABLE : Z := 2.
Definition MINSIGSTKSZ : Z := 2048.
Definition SA_RESTART : Z := 0x10000000.
Definition SIG_ERR : Z := -1.
Definition ESRCH : Z := 3.

Definition bit (sig : Z) : Z := Z.shiftl 1 (sig - 1).
Definition STOP_SIGNALS_MASK : Z := Z.lor (Z.lor (bit SIGSTOP) (bit SIGTSTP)) (Z.lor (bit SIGTTIN) (bit SIGTTOU)).
Definition UNBLOCKABLE : Z := Z.lor (bit SIGKILL) (bit SIGSTOP).

(** ** Pending signals *)

Record mos_signal_info := Info {
  signo : Z; code : Z; timer_id : Z; istatus : Z; pid : Z; uid : Z; overrun : Z; value : Z; utime : Z; stime : Z
}.
(** An entry of a table that zalloc() gave. *)
Definition no_info : mos_signal_info := Info 0 0 0 0 0 0 0 0 0 0.
Definition plain_info (sig : Z) : mos_signal_info := Info sig 128 (-1) 0 0 0 0 0 0 0.

Record signal_queue_entry := Entry { e_signo : Z; e_timer_id : Z; e_value : Z; e_info : mos_signal_info }.

(** What task_signal and task_thread have alike. *)
Record pending := Pending {
  sig_pending : Z;
  pending_queue : list signal_queue_entry;
  pending_info : gmap Z mos_signal_info;
  signal_sequence : gmap Z Z
}.
Definition info_of (p : pending) (sig : Z) : mos_signal_info := default no_info (pending_info p !! sig).
Definition sequence_of (p : pending) (sig : Z) : Z := default 0 (signal_sequence p !! sig).

(** The common part of ps_queue_signal_unsafe() and
    ps_queue_group_signal_unsafe(): a continue takes back the stops and a stop
    the continue. *)
Definition raise (sig : Z) (p : pending) : pending :=
  let bits :=
    if sig =? SIGCONT then Z.ldiff (sig_pending p) STOP_SIGNALS_MASK
    else if nz (Z.land (bit sig) STOP_SIGNALS_MASK) then Z.ldiff (sig_pending p) (bit SIGCONT)
    else sig_pending p in
  Pending (Z.lor bits (bit sig)) (pending_queue p)
    (if nz (Z.land bits (bit sig)) then pending_info p else <[sig := plain_info sig]> (pending_info p))
    (<[sig := u64 (sequence_of p sig + 1)]> (signal_sequence p)).

Definition enqueue (e : signal_queue_entry) (p : pending) : pending :=
  Pending (sig_pending p) (pending_queue p ++ [e]) (pending_info p) (signal_sequence p).
Definition set_info (sig : Z) (i : mos_signal_info) (p : pending) : pending :=
  Pending (sig_pending p) (pending_queue p) (<[sig := i]> (pending_info p)) (signal_sequence p).

(** The first event of a signal, and the queue without it. *)
Fixpoint take_entry (sig : Z) (q : list signal_queue_entry) : option signal_queue_entry * list signal_queue_entry :=
  match q with
  | [] => (None, [])
  | e :: q => if e_signo e =? sig then (Some e, q) else let '(r, q) := take_entry sig q in (r, e :: q)
  end.

(** The second part of ps_take_signal_info(): the information and what stays
    pending; the bit is kept while another event is queued. *)
Definition consume (sig : Z) (p : pending) : mos_signal_info * pending :=
  let '(e, q) := take_entry sig (pending_queue p) in
  let i := info_of p sig in
  let i :=
    match e with
    | None => i
    | Some e =>
        if 0 <=? e_timer_id e
        then Info (signo i) (-2) (e_timer_id e) (istatus i) (pid i) (uid i) (overrun (e_info e)) (e_value e) (utime i) (stime i)
        else e_info e
    end in
  let more := existsb (fun e => e_signo e =? sig) q in
  (i, Pending (if more then sig_pending p else Z.ldiff (sig_pending p) (bit sig)) q (pending_info p) (signal_sequence p)).

(** ** State *)

Record sigaction := Action { sa_handler : Z; sa_mask : Z; sa_flags : Z; sa_restorer : Z }.
Record stack_t := Stack { ss_sp : Z; ss_flags : Z; ss_size : Z }.

Record task_signal := TaskSignal {
  local : pending; sig_mask : Z; saved_sigmask : Z; restore_sigmask : bool; altstack : stack_t
}.

(** Of the other parts of a task what no operation here changes: [user],
    [execution], [memory] say that it is a user task and has these parts. *)
Record identity := Identity {
  thread : Z; sighand : Z; user : bool; execution : bool; memory : bool; ppid : Z;
  cred_uid : Z; cred_euid : Z; cred_suid : Z
}.

Record sigtask := SigTask {
  signal : task_signal; who : identity; signal_wait_mask : Z; stop_signal : Z; stop_report_pending : Z
}.

(** Of task_thread. *)
Record tgroup := TGroup { shared : pending; g_tgid : Z; group_id : Z; members : list Z }.

(** [processes]: the tasks in the order of the manager tree. *)
Record sigsys := SigSys {
  ssys : sched;
  stasks : gmap Z sigtask;
  sgroups : gmap Z tgroup;
  actions : gmap Z (gmap Z sigaction);
  processes : list Z
}.
Abbreviation G := (st sigsys).

Definition set_sched (k : sched) (s : sigsys) : sigsys := SigSys k (stasks s) (sgroups s) (actions s) (processes s).
Definition set_stasks (m : gmap Z sigtask) (s : sigsys) : sigsys := SigSys (ssys s) m (sgroups s) (actions s) (processes s).
Definition set_groups (m : gmap Z tgroup) (s : sigsys) : sigsys := SigSys (ssys s) (stasks s) m (actions s) (processes s).
Definition set_actions (m : gmap Z (gmap Z sigaction)) (s : sigsys) : sigsys :=
  SigSys (ssys s) (stasks s) (sgroups s) m (processes s).

Definition in_sched {A} (m : P A) : G A := fun s => '(x, k) ← m (ssys s); Some (x, set_sched k s).
Definition observe {A} (f : sigsys -> G A) : G A := fun s => f s s.
Definition get_sig (t : Z) : G sigtask := fun s => k ← stasks s !! t; Some (k, s).
Definition get_tgroup (g : Z) : G tgroup := fun s => p ← sgroups s !! g; Some (p, s).
Definition change (t : Z) (f : sigtask -> sigtask) : G unit := fun s =>
  k ← stasks s !! t; Some (tt, set_stasks (<[t := f k]> (stasks s)) s).
Definition change_group (g : Z) (f : tgroup -> tgroup) : G unit := fun s =>
  p ← sgroups s !! g; Some (tt, set_groups (<[g := f p]> (sgroups s)) s).

Definition on_signal (f : task_signal -> task_signal) (k : sigtask) : sigtask :=
  SigTask (f (signal k)) (who k) (signal_wait_mask k) (stop_signal k) (stop_report_pending k).
Definition on_local (f : pending -> pending) : sigtask -> sigtask :=
  on_signal (fun x => TaskSignal (f (local x)) (sig_mask x) (saved_sigmask x) (restore_sigmask x) (altstack x)).
Definition on_mask (f : Z -> Z) : sigtask -> sigtask :=
  on_signal (fun x => TaskSignal (local x) (f (sig_mask x)) (saved_sigmask x) (restore_sigmask x) (altstack x)).
Definition on_shared (f : pending -> pending) (g : tgroup) : tgroup := TGroup (f (shared g)) (g_tgid g) (group_id g) (members g).
Definition set_stop (x y : Z) (k : sigtask) : sigtask := SigTask (signal k) (who k) (signal_wait_mask k) x y.
Definition set_wait_mask (x : Z) (k : sigtask) : sigtask := SigTask (signal k) (who k) x (stop_signal k) (stop_report_pending k).
Definition set_altstack (a : stack_t) : sigtask -> sigtask :=
  on_signal (fun x => TaskSignal (local x) (sig_mask x) (saved_sigmask x) (restore_sigmask x) a).

(** ** Dispositions *)

Definition no_action : sigaction := Action SIG_DFL 0 0 0.
Definition action_of (s : sigsys) (h sig : Z) : sigaction := default no_action (actions s !! h ≫= lookup sig).
Definition put_action (h sig : Z) (a : sigaction) : G unit := fun s =>
  m ← actions s !! h; Some (tt, set_actions (<[h := <[sig := a]> m]> (actions s)) s).

(** ps_signal_action(): the action before, and the new one if given. *)
Definition ps_signal_action (t sig : Z) (new : option sigaction) : G sigaction :=
  k ← get_sig t;
  observe (fun s =>
    (match new with Some a => put_action (sighand (who k)) sig a | None => mret tt end);;
    mret (action_of s (sighand (who k)) sig)).

Definition ps_claim_signal_action (t sig : Z) : G sigaction :=
  k ← get_sig t;
  observe (fun s =>
    let out := action_of s (sighand (who k)) sig in
    (if nz (Z.land (sa_flags out) SA_RESETHAND)
     then put_action (sighand (who k)) sig (Action SIG_DFL (sa_mask out) (sa_flags out) (sa_restorer out)) else mret tt);;
    mret out).

Definition ps_pending_signals (s : sigsys) (k : sigtask) : Z :=
  let pending := if nz (sighand (who k)) then sig_pending (local (signal k)) else 0 in
  if execution (who k) && nz (thread (who k))
  then Z.lor pending (from_option (fun g => sig_pending (shared g)) 0 (sgroups s !! thread (who k))) else pending.

(** A signal that its disposition makes disappear. *)
Definition ignorable (sig handler : Z) : bool :=
  negb (sig =? SIGKILL) && negb (sig =? SIGSTOP) &&
  ((handler =? SIG_IGN) ||
   (handler =? SIG_DFL) && ((sig =? SIGCHLD) || (sig =? SIGURG) || (sig =? SIGWINCH) || (sig =? SIGCONT))).

Fixpoint drop_ignored (handler : Z -> Z) (n : nat) (sig pending : Z) : Z :=
  match n with
  | O => pending
  | S n =>
      drop_ignored handler n (sig + 1)
        (if nz (Z.land pending (bit sig)) && ignorable sig (handler sig) then Z.ldiff pending (bit sig) else pending)
  end.

(** ** Process identifiers, as a pid namespace shows them

    [None] is the initial namespace; a pair is a local and a global pid. *)

Definition pid_ns : Type := option (list (Z * Z)).
Definition ps_pid_for (ns : pid_ns) (global : Z) : Z :=
  match ns with
  | None => global
  | Some pids => from_option fst 0 (head (filter (fun p => snd p = global) pids))
  end.
Definition ps_pid_global (ns : pid_ns) (local : Z) : Z :=
  match ns with
  | None => local
  | Some pids => from_option snd 0xffffffff (head (filter (fun p => fst p = local) pids))
  end.

(** The search of the manager tree, whose keys are the psids: the task with
    that psid. *)
Definition psid_in (s : sigsys) (t : Z) : Z := from_option psid NO_PSID (tasks (ssys s) !! t).
Definition ps_find_process_unsafe (s : sigsys) (id : Z) : option Z := head (filter (fun t => psid_in s t = id) (processes s)).

Section Signals.
Context (NSIG : Z).

Definition ps_interrupting_signals (s : sigsys) (k : sigtask) : Z :=
  if negb (nz (sighand (who k))) then 0 else
  let pending := Z.ldiff (ps_pending_signals s k) (sig_mask (signal k)) in
  if negb (nz pending) then 0 else
  drop_ignored (fun sig => sa_handler (action_of s (sighand (who k)) sig)) (Z.to_nat (NSIG - 1)) 1 pending.

(** ** Queueing *)

Definition wake_signal_target (t sig : Z) : G unit :=
  k ← get_sig t; x ← in_sched (get_task t);
  observe (fun s =>
    if bool_decide (status x = ps_stopped) && ((sig =? SIGCONT) || (sig =? SIGKILL)) then
      change t (set_stop 0 0);; in_sched (ps_put_to_ready_queue_unsafe t)
    else if bool_decide (status x = ps_waiting) && wait_interruptible x &&
            (nz (ps_interrupting_signals s k) || nz (Z.land (signal_wait_mask k) (bit sig))) then
      in_sched (ps_put_to_ready_queue_unsafe t)
    else mret tt).

Fixpoint wake_members (g sig : Z) (l : list Z) : G unit :=
  match l with
  | [] => mret tt
  | t :: l =>
      k ← get_sig t; x ← in_sched (get_task t);
      (if execution (who k) && (thread (who k) =? g) && nz (sighand (who k)) && negb (bool_decide (status x = ps_dying))
       then wake_signal_target t sig else mret tt);;
      wake_members g sig l
  end.

Definition ps_queue_group_signal_unsafe (t sig : Z) : G unit :=
  k ← get_sig t;
  change_group (thread (who k)) (on_shared (raise sig));;
  g ← get_tgroup (thread (who k));
  wake_members (thread (who k)) sig (members g).

Definition ps_queue_signal_unsafe (t sig : Z) : G unit :=
  change t (on_local (raise sig));; wake_signal_target t sig.

(** Changes the pending signals of a task or of its group. *)
Definition on_pending (t : Z) (thread_directed : bool) (f : pending -> pending) : G unit :=
  k ← get_sig t;
  if thread_directed then change t (on_local f) else change_group (thread (who k)) (on_shared f).
Definition get_pending (t : Z) (thread_directed : bool) : G pending :=
  k ← get_sig t;
  if thread_directed then mret (local (signal k)) else g ← get_tgroup (thread (who k)); mret (shared g).
Definition queue_to (t sig : Z) (thread_directed : bool) : G unit :=
  if thread_directed then ps_queue_signal_unsafe t sig else ps_queue_group_signal_unsafe t sig.

(** ** Timers *)

(** [overrun] and one more added to a count that saturates. *)
Definition add_overrun (old overrun : Z) : Z :=
  let extra := if overrun =? UINT32_MAX then UINT32_MAX else u32 (overrun + 1) in
  if UINT32_MAX - old <? extra then UINT32_MAX else u32 (old + extra).
Definition set_overrun (n : Z) (i : mos_signal_info) : mos_signal_info :=
  Info (signo i) (code i) (timer_id i) (istatus i) (pid i) (uid i) n (value i) (utime i) (stime i).

(** The first event of the timer in the queue takes the expiry; [None]: there
    is none. *)
Fixpoint merge_overrun (sig timer overrun : Z) (q : list signal_queue_entry) : option (list signal_queue_entry) :=
  match q with
  | [] => None
  | e :: q =>
      if (e_timer_id e =? timer) && (e_signo e =? sig)
      then Some (Entry (e_signo e) (e_timer_id e) (e_value e) (set_overrun (add_overrun (Signal.overrun (e_info e)) overrun) (e_info e)) :: q)
      else q' ← merge_overrun sig timer overrun q; Some (e :: q')
  end.

Definition set_queue (q : list signal_queue_entry) (p : pending) : pending :=
  Pending (sig_pending p) q (pending_info p) (signal_sequence p).

(** [allocated]: kmalloc() gave an entry. *)
Definition ps_timer_notify (allocated : bool) (tid sig timer value : Z) (thread_directed : bool) (overrun : Z) : G unit :=
  if negb allocated then mret tt else
  let entry := Entry sig timer value (set_overrun overrun no_info) in
  observe (fun s =>
    match ps_find_process_unsafe s tid with
    | None => mret tt
    | Some t =>
        k ← get_sig t; x ← in_sched (get_task t);
        if user (who k) && nz (sighand (who k)) && negb (bool_decide (status x = ps_dying)) then
          p ← get_pending t thread_directed;
          match merge_overrun sig timer overrun (pending_queue p) with
          | Some q => on_pending t thread_directed (set_queue q)
          | None => on_pending t thread_directed (enqueue entry);; queue_to t sig thread_directed
          end
        else mret tt
    end).

(** ** Taking *)

(** ps_take_signal_info(): the signal and its information; [None] is 0. *)
Definition ps_take_signal_info (t mask : Z) : G (option (Z * mos_signal_info)) :=
  k ← get_sig t;
  observe (fun s =>
    match ctz_from (Z.to_nat (NSIG - 1)) (Z.land (ps_pending_signals s k) mask) 0 with
    | None => mret None
    | Some c =>
        let sig := c + 1 in
        let is_local := nz (Z.land (sig_pending (local (signal k))) (bit sig)) in
        p ← get_pending t is_local;
        let '(i, p) := consume sig p in
        on_pending t is_local (fun _ => p);;
        mret (Some (sig, i))
    end).

(** The sum of the sequence numbers of the signals of a set. *)
Fixpoint sum_sequences (mask : Z) (n : nat) (sig : Z) (group : pending) (task : option pending) (sum : Z) : Z :=
  match n with
  | O => sum
  | S n =>
      sum_sequences mask n (sig + 1) group task
        (if nz (Z.land mask (bit sig))
         then let sum := u64 (sum + sequence_of group sig) in
              match task with Some p => u64 (sum + sequence_of p sig) | None => sum end
         else sum)
  end.
Definition ps_signalfd_snapshot (tid g mask : Z) : G (Z * Z) :=
  group ← get_tgroup g;
  observe (fun s =>
    let task := t ← ps_find_process_unsafe s tid; k ← stasks s !! t;
                if thread (who k) =? g then Some (local (signal k)) else None in
    mret (Z.land (match task with Some p => Z.lor (sig_pending (shared group)) (sig_pending p) | None => sig_pending (shared group) end) mask,
          sum_sequences mask (Z.to_nat (NSIG - 1)) 1 (shared group) task 0)).

(** ** Sending *)

(** The information of the end of a child: [encoded] is its exit status,
    [child] its thread group id, [uid], [utime], [stime] its credentials and
    times. *)
Definition child_info (sig encoded child uid utime stime : Z) : mos_signal_info :=
  let killed := nz (Z.land encoded 0x7f) in
  Info sig (if killed then 2 else 1) (-1)
    (if killed then Z.land encoded 0x7f else Z.land (Z.shiftr encoded 8) 0xff) child uid 0 0 utime stime.
Definition ps_child_signal_unsafe (parent sig encoded child uid utime stime : Z) : G unit :=
  p ← get_pending parent false;
  ps_queue_group_signal_unsafe parent sig;;
  if nz (Z.land (sig_pending p) (bit sig)) then mret tt
  else on_pending parent false (set_info sig (child_info sig encoded child uid utime stime)).

(** The sender exists; the target may be without execution state. *)
Definition can_send_signal (sender target : identity) : bool :=
  execution target &&
  ((cred_euid sender =? 0) || (cred_uid sender =? cred_uid target) || (cred_uid sender =? cred_suid target) ||
   (cred_euid sender =? cred_uid target) || (cred_euid sender =? cred_suid target)).

Definition tgid_of (t : Z) : G Z := k ← get_sig t; g ← get_tgroup (thread (who k)); mret (g_tgid g).

Definition from_sender (code pid uid : Z) (i : mos_signal_info) : mos_signal_info :=
  Info (signo i) code (timer_id i) (istatus i) pid uid (overrun i) (value i) (utime i) (stime i).

Definition send_signal (cur pid sig : Z) (thread_directed : bool) : G Z :=
  if (sig <? 0) || (NSIG <=? sig) then mret (- EINVAL) else
  sender ← get_sig cur;
  observe (fun s =>
    match ps_find_process_unsafe s pid with
    | None => mret (- ESRCH)
    | Some t =>
        k ← get_sig t;
        if negb (user (who k)) || negb (execution (who k)) || negb (nz (sighand (who k))) then mret (- ESRCH) else
        if negb (can_send_signal (who sender) (who k)) then mret (- EPERM) else
        if negb (nz sig) then mret 0 else
        p ← get_pending t thread_directed;
        queue_to t sig thread_directed;;
        (if nz (Z.land (sig_pending p) (bit sig)) then mret tt else
         tgid ← tgid_of cur;
         on_pending t thread_directed (fun q =>
           set_info sig (from_sender (if thread_directed then -6 else 0) tgid (cred_uid (who sender)) (info_of q sig)) q));;
        mret 0
    end).
Definition ps_send_signal (cur pid sig : Z) : G Z := send_signal cur pid sig false.
Definition ps_send_thread_signal (cur tid sig : Z) : G Z := send_signal cur tid sig true.

(** [wire]: what ps_read_process_memory() read of the caller's siginfo, the
    128 bytes as 32 words; [allocated]: zalloc() gave an entry. *)
Definition sigqueueinfo (allocated : bool) (cur pid sig : Z) (wire : option (list Z)) (wide x64 : bool) : G Z :=
  if (sig <=? 0) || (NSIG <=? sig) then mret (- EINVAL) else
  match wire with
  | None => mret (- EFAULT)
  | Some wire =>
      let word n := default 0 (wire !! n) in
      let c := s32 (word 2%nat) in
      if (0 <=? c) || (c =? -6) then mret (- EPERM) else
      let value := word (if wide then 6 else 5)%nat in
      let value := if x64 && wide then Z.lor value (Z.shiftl (word 7%nat) 32) else value in
      if negb allocated then mret (- EAGAIN) else
      sender ← get_sig cur; tgid ← tgid_of cur;
      let entry := Entry sig (-1) 0 (Info sig c (-1) 0 tgid (cred_uid (who sender)) 0 value 0 0) in
      observe (fun s =>
        match ps_find_process_unsafe s pid with
        | None => mret (- ESRCH)
        | Some t =>
            k ← get_sig t; x ← in_sched (get_task t);
            if negb (execution (who k)) || negb (nz (sighand (who k))) || bool_decide (status x = ps_dying) then mret (- ESRCH) else
            if negb (can_send_signal (who sender) (who k)) then mret (- EPERM) else
            p ← get_pending t false;
            if (sig =? SIGRTMIN_KERNEL) || negb (nz (Z.land (sig_pending p) (bit sig))) then
              if 128 <=? Z.of_nat (length (pending_queue p)) then mret (- EAGAIN) else
              on_pending t false (enqueue entry);;
              ps_queue_group_signal_unsafe t sig;;
              mret 0
            else mret 0
        end)
  end.

(** ** Actions and masks *)

Definition sys_sigaction (cur sig : Z) (act : option sigaction) : G (Z + sigaction) :=
  if (sig <=? 0) || (NSIG <=? sig) then mret (inl (- EINVAL)) else
  if (sig =? SIGKILL) || (sig =? SIGSTOP) then mret (inl (- EINVAL)) else
  old ← ps_signal_action cur sig act; mret (inr old).

Definition sys_signal (cur sig handler : Z) : G Z :=
  r ← sys_sigaction cur sig (Some (Action handler 0 SA_RESTART 0));
  mret (match r with inl _ => SIG_ERR | inr old => sa_handler old end).

(** [width]: the bits of the set in memory; [set]: its value, if it is given.
    The result has what is stored as the old mask. *)
Definition change_mask (width : Z) (cur how : Z) (set : option Z) : G (Z * option Z) :=
  k ← get_sig cur;
  let old := Z.land (sig_mask (signal k)) (Z.ones width) in
  match set with
  | None => mret (0, Some old)
  | Some newmask =>
      let newmask := Z.land newmask (Z.land (Z.ones width) (Z.ones (NSIG - 1))) in
      let f :=
        if how =? SIG_BLOCK then Some (fun m => Z.lor m newmask)
        else if how =? SIG_UNBLOCK then Some (fun m => Z.ldiff m newmask)
        else if how =? SIG_SETMASK then Some (fun _ => newmask) else None in
      match f with
      | None => mret (- EINVAL, Some old)
      | Some f => change cur (on_mask (fun m => Z.ldiff (f m) UNBLOCKABLE));; mret (0, Some old)
      end
  end.
Definition sys_sigprocmask (cur how : Z) (set : option Z) : G (Z * option Z) := change_mask 32 cur how set.
Definition sys_rt_sigprocmask (cur how : Z) (set : option Z) (sigsetsize : Z) : G (Z * option Z) :=
  if negb (sigsetsize =? 8) then mret (- EINVAL, None) else change_mask 64 cur how set.

Definition sys_rt_sigpending (cur : Z) (set : bool) : G (Z * Z) :=
  if negb set then mret (- EFAULT, 0) else
  k ← get_sig cur; observe (fun s => mret (0, Z.land (ps_pending_signals s k) (sig_mask (signal k)))).

Definition sys_sigaltstack (cur : Z) (ss : option stack_t) : G (Z * stack_t) :=
  k ← get_sig cur;
  let alt := altstack (signal k) in
  match ss with
  | None => mret (0, alt)
  | Some ss =>
      if nz (Z.land (ss_flags alt) SS_ONSTACK) then mret (- EPERM, alt) else
      if nz (Z.land (ss_flags ss) SS_DISABLE) then change cur (set_altstack (Stack 0 SS_DISABLE 0));; mret (0, alt) else
      if ss_size ss <? MINSIGSTKSZ then mret (- ENOMEM, alt) else
      change cur (set_altstack (Stack (ss_sp ss) 0 (ss_size ss)));; mret (0, alt)
  end.

(** ** Delivery *)

(** The signals that are pending, not blocked, and ignored. *)
Definition ignored_signals (s : sigsys) (k : sigtask) : Z :=
  Z.ldiff (Z.ldiff (ps_pending_signals s k) (sig_mask (signal k))) (ps_interrupting_signals s k).

Fixpoint discard_loop (fuel : nat) (cur : Z) : G unit :=
  match fuel with
  | O => fun _ => None
  | S fuel =>
      k ← get_sig cur;
      observe (fun s =>
        let ignored := ignored_signals s k in
        if negb (nz ignored) then mret tt else
        r ← ps_take_signal_info cur ignored;
        match r with None => mret tt | Some _ => discard_loop fuel cur end)
  end.

(** Every round takes an event off a queue or clears a bit. *)
Definition discard_fuel (s : sigsys) (k : sigtask) : nat :=
  S (2 * Z.to_nat (NSIG - 1) + length (pending_queue (local (signal k))) +
     from_option (fun g => length (pending_queue (shared g))) 0%nat (sgroups s !! thread (who k))).

Definition pick_signal (cur : Z) : G (option (Z * mos_signal_info)) :=
  k ← get_sig cur;
  observe (fun s => discard_loop (discard_fuel s k) cur);;
  k ← get_sig cur;
  observe (fun s => ps_take_signal_info cur (ps_interrupting_signals s k)).

Definition restored (x : task_signal) : task_signal :=
  if restore_sigmask x then TaskSignal (local x) (saved_sigmask x) (saved_sigmask x) false (altstack x) else x.
Definition maybe_restore_sigmask (cur : Z) : G unit := change cur (on_signal restored).

(** The parent learns of a stop; [ppid] 0 is none. *)
Definition ptrace_notify_parent_unsafe (t : Z) : G unit :=
  k ← get_sig t;
  if negb (nz (ppid (who k))) then mret tt else
  observe (fun s =>
    match ps_find_process_unsafe s (ppid (who k)) with
    | None => mret tt
    | Some parent =>
        kp ← get_sig parent;
        if negb (nz (sighand (who kp))) then mret tt else
        ps_queue_group_signal_unsafe parent SIGCHLD;; in_sched (ps_put_to_ready_queue_unsafe parent)
    end).

(** ps_stop_current() up to its call of task_sched(); the registers the
    tracer sees are not modelled. *)
Definition ps_stop_current (cur sig : Z) : G unit :=
  in_sched (ps_stop_unsafe cur);; change cur (set_stop sig 1);; ptrace_notify_parent_unsafe cur.

(** How do_signal() goes on: it is done, looks for another signal, ends the
    thread group, waits as a stopped task and then looks for another signal,
    or enters a handler. *)
Inductive verdict :=
| Done
| Next
| Exits (sig : Z)
| Stops (sig : Z)
| Delivers (sig : Z) (action : sigaction) (event : mos_signal_info).

Definition handle_sig_dfl (cur sig : Z) : G verdict :=
  x ← in_sched (get_task cur);
  if psid x =? 1 then maybe_restore_sigmask cur;; mret Next else
  if (sig =? SIGCHLD) || (sig =? SIGURG) || (sig =? SIGWINCH) || (sig =? SIGCONT) then maybe_restore_sigmask cur;; mret Next else
  if (sig =? SIGSTOP) || (sig =? SIGTSTP) || (sig =? SIGTTIN) || (sig =? SIGTTOU) then
    maybe_restore_sigmask cur;; ps_stop_current cur sig;; mret (Stops sig)
  else mret (Exits sig).

(** From [next_signal]; the pid of the event is the one the task sees. *)
Definition next_signal (ns : pid_ns) (cur : Z) : G verdict :=
  r ← pick_signal cur;
  match r with
  | None => mret Done
  | Some (sig, info) =>
      x ← in_sched (get_task cur);
      if sig =? SIGKILL then
        if psid x =? 1 then maybe_restore_sigmask cur;; mret Done else mret (Exits sig)
      else
        action ← ps_claim_signal_action cur sig;
        if sa_handler action =? SIG_IGN then maybe_restore_sigmask cur;; mret Done else
        if sa_handler action =? SIG_DFL then handle_sig_dfl cur sig else
        mret (Delivers sig action (from_sender (code info) (ps_pid_for ns (pid info)) (uid info) info))
  end.

Fixpoint signal_loop (fuel : nat) (ns : pid_ns) (cur : Z) : G verdict :=
  match fuel with
  | O => fun _ => None
  | S fuel => v ← next_signal ns cur; match v with Next => signal_loop fuel ns cur | _ => mret v end
  end.

(** do_signal() until it is done or leaves the CPU; [user_frame]: the return
    is to user mode. *)
Definition do_signal (ns : pid_ns) (user_frame : bool) (cur : Z) : G verdict :=
  k ← get_sig cur;
  if negb (user (who k)) then mret Done else
  if negb user_frame then mret Done else
  observe (fun s => signal_loop (discard_fuel s k) ns cur).

Definition ps_fault_signal (cur sig : Z) (user_frame : bool) (event : mos_signal_info) : G verdict :=
  action ← ps_claim_signal_action cur sig;
  if negb user_frame then mret (Exits sig) else
  k ← get_sig cur;
  let forced := nz (Z.land (sig_mask (signal k)) (bit sig)) || (sa_handler action =? SIG_IGN) in
  let action := if forced then Action SIG_DFL (sa_mask action) (sa_flags action) (sa_restorer action) else action in
  (if forced then
     change cur (on_mask (fun m => Z.ldiff m (bit sig)));; _ ← ps_signal_action cur sig (Some action); mret tt
   else mret tt);;
  change cur (on_local (fun p => Pending (Z.ldiff (sig_pending p) (bit sig)) (pending_queue p) (pending_info p) (signal_sequence p)));;
  if sa_handler action =? SIG_DFL then mret (Exits sig) else mret (Delivers sig action event).

(** ** Waiting

    A wait is the steps of its loop, between which other tasks run: a step
    returns, goes on at another place of the code, or calls task_sched() with
    the task asleep and goes on when the task runs again. *)

Inductive turn (P A : Type) := Returns (x : A) | Goes (pc : P) | Sleeps (pc : P).
#[global] Arguments Returns {P A} x.
#[global] Arguments Goes {P A} pc.
#[global] Arguments Sleeps {P A} pc.

(** ps_prepare_interruptible_wait() of Sched.v with its condition, which is
    looked at under ps_lock. *)
Definition interrupted (s : sigsys) (k : sigtask) : bool :=
  nz (ps_interrupting_signals s k) || nz (sighand (who k)) && nz (Z.land (ps_pending_signals s k) (signal_wait_mask k)).
Definition prepare_wait (us t : Z) (queue : option nat) (ms : Z) : G Z :=
  k ← get_sig t; observe (fun s => in_sched (ps_prepare_interruptible_wait us (interrupted s k) t queue ms)).

(** ps_signal_wait(): the test of the loop, which takes no lock, the section
    that goes to sleep, and what follows the sleep. *)
Inductive wait_pc := WTest | WPrepare | WFinish.
Definition ps_signal_wait (us cur : Z) (pc : wait_pc) : G (turn wait_pc unit) :=
  match pc with
  | WTest =>
      k ← get_sig cur;
      observe (fun s => mret (if nz (ps_interrupting_signals s k) then Returns tt else Goes WPrepare))
  | WPrepare => r ← prepare_wait us cur None 0; mret (if nz r then Goes WTest else Sleeps WFinish)
  | WFinish => in_sched (ps_finish_timed_wait cur);; mret (Goes WTest)
  end.

(** [None] is at the test of its own loop. *)
Definition sys_pause (us cur : Z) (pc : option wait_pc) : G (turn (option wait_pc) Z) :=
  match pc with
  | None =>
      k ← get_sig cur;
      observe (fun s => mret (if nz (ps_interrupting_signals s k) then Returns (- EINTR) else Goes (Some WTest)))
  | Some pc =>
      r ← ps_signal_wait us cur pc;
      mret (match r with Returns _ => Goes None | Goes pc => Goes (Some pc) | Sleeps pc => Sleeps (Some pc) end)
  end.

(** rt_sigsuspend(2) up to its wait, and after it; [None]: no mask. *)
Definition sigsuspend_begin (cur : Z) (mask : option Z) : G (Z + Z) :=
  match mask with
  | None => mret (inl (- EFAULT))
  | Some mask =>
      k ← get_sig cur;
      change cur (on_mask (fun _ => Z.ldiff (Z.land mask (Z.ones (NSIG - 1))) UNBLOCKABLE));;
      mret (inr (sig_mask (signal k)))
  end.
Definition sigsuspend_end (cur saved : Z) : G Z :=
  change cur (on_signal (fun x => TaskSignal (local x) (sig_mask x) saved true (altstack x)));; mret (- EINTR).

(** rt_sigtimedwait(2), with the set and the deadline it works on: the steps
    of its loop; [now]: time_now_ms(), [us]: the clock when the timer is
    armed. *)
Definition wait_set_of (set : Z) : Z := Z.ldiff (Z.land set (Z.ones (NSIG - 1))) UNBLOCKABLE.
Definition sigtimedwait_deadline (us sec nsec : Z) : option Z :=
  if (sec <? 0) || (nsec <? 0) || (1000000000 <=? nsec) then None
  else Some (time_deadline_ms us (u64 (u64 (sec * 1000) + (nsec + 999999) / 1000000))).

Inductive timedwait_pc := TTake | TTest | TClock | TMask (ms : Z) | TPrepare (ms : Z) | TFinish | TReset.
Definition sigtimedwait (us now cur wait_set : Z) (deadline : option Z) (pc : timedwait_pc)
  : G (turn timedwait_pc (Z * option mos_signal_info)) :=
  match pc with
  | TTake =>
      r ← ps_take_signal_info cur wait_set;
      mret (match r with Some (sig, i) => Returns (sig, Some i) | None => Goes TTest end)
  | TTest =>
      k ← get_sig cur;
      observe (fun s =>
        mret (if nz (Z.ldiff (ps_interrupting_signals s k) wait_set) then Returns (- EINTR, None) else Goes TClock))
  | TClock =>
      mret (match deadline with
            | Some d =>
                if d <=? now then Returns (- EAGAIN, None)
                else Goes (TMask (if 0xffffffff <? d - now then 0xffffffff else u32 (d - now)))
            | None => Goes (TMask 0)
            end)
  | TMask ms => change cur (set_wait_mask wait_set);; mret (Goes (TPrepare ms))
  | TPrepare ms => r ← prepare_wait us cur None ms; mret (if nz r then Goes TReset else Sleeps TFinish)
  | TFinish => in_sched (ps_finish_timed_wait cur);; mret (Goes TReset)
  | TReset => change cur (set_wait_mask 0);; mret (Goes TTake)
  end.

(** The words of the siginfo that rt_sigtimedwait(2) stores. *)
Definition sigtimedwait_words (ns : pid_ns) (x64 : bool) (sig : Z) (e : mos_signal_info) : list Z :=
  [u32 sig; 0; u32 (code e)] ++
  (if 0 <=? timer_id e then [u32 (timer_id e); overrun e] else [ps_pid_for ns (pid e); uid e]) ++
  [if 0 <? code e then u32 (istatus e) else u32 (value e);
   if x64 && (code e <? 0) then u32 (Z.shiftr (value e) 32) else 0] ++ repeat 0 25.

(** ** Sending to many

    kill(2) to more than one process goes through the manager tree; other
    tasks may run between two processes, none of which changes the order.  The
    wake of the parent of a task that ended while ps_enum_all() held it is not
    modelled. *)

Fixpoint broadcast (p : Z -> sigsys -> bool) (cur sig : Z) (l : list Z) (sent : Z) : G Z :=
  match l with
  | [] => mret sent
  | t :: l =>
      observe (fun s =>
        if p t s then
          r ← ps_send_signal cur (psid_in s t) sig; broadcast p cur sig l (if r =? 0 then sent + 1 else sent)
        else broadcast p cur sig l sent)
  end.

(** A process other than the sender's that the sender can see. *)
Definition other_process (ns : pid_ns) (cur t : Z) (s : sigsys) : bool :=
  match stasks s !! t with
  | Some k =>
      user (who k) &&
      match sgroups s !! thread (who k) with
      | Some g => (psid_in s t =? g_tgid g) && nz (ps_pid_for ns (psid_in s t)) && negb (psid_in s t =? psid_in s cur)
      | None => false
      end
  | None => false
  end.
Definition in_pgrp (ns : pid_ns) (cur pgrp t : Z) (s : sigsys) : bool :=
  other_process ns cur t s &&
  match stasks s !! t with
  | Some k => execution (who k) && from_option (fun g => group_id g =? pgrp) false (sgroups s !! thread (who k))
  | None => false
  end.
Definition to_many (p : Z -> sigsys -> bool) (cur sig : Z) : G (Z * verdict) :=
  observe (fun s => sent ← broadcast p cur sig (processes s) 0; mret (if nz sent then 0 else - ESRCH, Done)).

(** The result, and what do_signal() did where the sender is the target. *)
Definition kill_one (ns : pid_ns) (cur pid sig : Z) : G (Z * verdict) :=
  ret ← ps_send_signal cur pid sig;
  k ← get_sig cur;
  observe (fun s =>
    if (ret =? 0) && user (who k) && (pid =? psid_in s cur) && nz (sighand (who k)) && negb (nz (Z.land (sig_mask (signal k)) (bit sig)))
    then v ← do_signal ns true cur; mret (ret, v)
    else mret (ret, Done)).
Definition sys_kill (ns : pid_ns) (cur pid sig : Z) : G (Z * verdict) :=
  let global := ps_pid_global ns pid in
  if (0 <? pid) && (global =? 0xffffffff) then mret (- ESRCH, Done) else
  let pid := if 0 <? pid then s32 global else pid in
  if sig =? 0 then
    observe (fun s => mret (if 0 <? pid then match ps_find_process_unsafe s pid with Some _ => 0 | None => - ESRCH end else 0, Done))
  else if 0 <? pid then kill_one ns cur pid sig
  else if pid =? 0 then
    k ← get_sig cur;
    if negb (execution (who k)) then mret (- ESRCH, Done) else
    g ← get_tgroup (thread (who k)); to_many (in_pgrp ns cur (group_id g)) cur sig
  else if pid =? -1 then to_many (other_process ns cur) cur sig
  else to_many (in_pgrp ns cur (ps_pid_global ns (u32 (- pid)))) cur sig.

(** ps_send_signal_pgrp() and ps_send_signal_owner() of src/ps/impl/ps.c: to
    every process of a group, for the terminal and file owners. *)
Fixpoint signal_pgrp (pgrp sig : Z) (l : list Z) : G unit :=
  match l with
  | [] => mret tt
  | t :: l =>
      k ← get_sig t;
      observe (fun s =>
        match sgroups s !! thread (who k) with
        | Some g =>
            if user (who k) && memory (who k) && (psid_in s t =? g_tgid g) && (group_id g =? pgrp)
            then ps_queue_group_signal_unsafe t sig else mret tt
        | None => mret tt
        end);;
      signal_pgrp pgrp sig l
  end.
Definition ps_send_signal_pgrp (pgrp sig : Z) : G unit :=
  if negb (nz pgrp) || (sig <=? 0) || (NSIG <=? sig) then mret tt else observe (fun s => signal_pgrp pgrp sig (processes s)).
Definition ps_send_signal_owner (owner sig : Z) : G unit :=
  if negb (nz owner) || (sig <=? 0) || (NSIG <=? sig) then mret tt else
  if owner <? 0 then ps_send_signal_pgrp (u32 (- owner)) sig else
  observe (fun s =>
    match ps_find_process_unsafe s owner with
    | Some t =>
        k ← get_sig t;
        if user (who k) && memory (who k) && nz (sighand (who k)) then ps_queue_group_signal_unsafe t sig else mret tt
    | None => mret tt
    end).
End Signals.
