(* ===== verification/SignalProof.v ===== *)
(** * Signals: pending sets

    Signal sets bit by bit, the events of a pending set as one queue for each
    signal, and the signals that interrupt a task. *)

From S2P Require Import Prelude Slots SlotsProof Sched Signal.

(** ** Sets *)

Definition has (b sig : Z) : bool := Z.testbit b (sig - 1).

Lemma testbit_bit sig j : 1 <= sig -> 0 <= j -> Z.testbit (bit sig) j = (j =? sig - 1).
Proof.
  intros. unfold bit. rewrite Z.shiftl_1_l. destruct (Z.eqb_spec j (sig - 1)) as [-> | Hj].
  - apply Z.pow2_bits_true. lia.
  - apply Z.pow2_bits_false. lia.
Qed.
Lemma has_bit sig j : 1 <= sig -> 1 <= j -> has (bit sig) j = (j =? sig).
Proof. intros. unfold has. rewrite testbit_bit by lia. apply Bool.eq_true_iff_eq. lia. Qed.
Lemma has_lor a b j : has (Z.lor a b) j = has a j || has b j.
Proof. apply Z.lor_spec. Qed.
Lemma has_land a b j : has (Z.land a b) j = has a j && has b j.
Proof. apply Z.land_spec. Qed.
Lemma has_ldiff a b j : has (Z.ldiff a b) j = has a j && negb (has b j).
Proof. apply Z.ldiff_spec. Qed.
Lemma has_0 j : has 0 j = false.
Proof. apply Z.bits_0. Qed.

Lemma nz_land_bit b sig : 1 <= sig -> nz (Z.land b (bit sig)) = has b sig.
Proof.
  intros Hs. unfold nz. destruct (has b sig) eqn:E.
  - destruct (Z.eqb_spec (Z.land b (bit sig)) 0) as [Ez | Hz]; [|done]. exfalso.
    assert (H : has (Z.land b (bit sig)) sig = true) by (rewrite has_land, E, has_bit, Z.eqb_refl by lia; done).
    rewrite Ez, has_0 in H. done.
  - destruct (Z.eqb_spec (Z.land b (bit sig)) 0) as [Ez | Hz]; [done|]. exfalso. apply Hz. apply Z.bits_inj_0. intros i.
    destruct (Z.neg_nonneg_cases i) as [Hi | Hi]; [destruct i; done|].
    rewrite Z.land_spec, testbit_bit by lia. destruct (Z.eqb_spec i (sig - 1)) as [-> | _]; [unfold has in E; rewrite E; done | apply andb_false_r].
Qed.

(** A set of the signals below [n]. *)
Definition sigset (n b : Z) : Prop := 0 <= b < 2 ^ (n - 1).
Lemma sigset_has n b j : sigset n b -> n <= j -> has b j = false.
Proof. intros [H1 H2] Hj. apply (low_bits (n - 1)); [|done|lia]. destruct (Z.neg_nonneg_cases (n - 1)); [|lia]. rewrite Z.pow_neg_r in H2; lia. Qed.
Lemma sigset_of n b : 1 <= n -> 0 <= b -> (forall j, n <= j -> has b j = false) -> sigset n b.
Proof.
  intros Hn Hb Hj. split; [done|]. destruct (Z.eq_dec b 0) as [-> | Hz]; [apply Z.pow_pos_nonneg; lia|].
  apply Z.log2_lt_pow2; [lia|]. destruct (Z.lt_ge_cases (Z.log2 b) (n - 1)) as [|Hge]; [done|].
  specialize (Hj (Z.log2 b + 1) ltac:(lia)). unfold has in Hj. replace (Z.log2 b + 1 - 1) with (Z.log2 b) in Hj by lia.
  rewrite Z.bit_log2 in Hj by lia. done.
Qed.
Lemma sigset_nz n b : sigset n b -> b <> 0 -> exists j, 1 <= j < n /\ has b j = true.
Proof.
  intros Hb Hz. exists (Z.log2 b + 1). destruct Hb as [H0 H1]. pose proof (Z.log2_nonneg b).
  assert (Z.log2 b < n - 1) by (apply Z.log2_lt_pow2; lia). split; [lia|].
  unfold has. replace (Z.log2 b + 1 - 1) with (Z.log2 b) by lia. apply Z.bit_log2. lia.
Qed.
Lemma sigset_land n a b : sigset n a -> sigset n (Z.land a b).
Proof.
  intros Ha. destruct (Z.le_gt_cases 1 n) as [Hn | Hn]; [|destruct Ha; assert (n - 1 < 0) by lia; rewrite Z.pow_neg_r in *; lia].
  apply sigset_of; [done | apply Z.land_nonneg; left; apply Ha|]. intros j Hj. rewrite has_land, (sigset_has n a) by done. done.
Qed.
Lemma sigset_ldiff n a b : sigset n a -> sigset n (Z.ldiff a b).
Proof.
  intros Ha. destruct (Z.le_gt_cases 1 n) as [Hn | Hn]; [|destruct Ha; assert (n - 1 < 0) by lia; rewrite Z.pow_neg_r in *; lia].
  apply sigset_of; [done | apply Z.ldiff_nonneg; left; apply Ha|]. intros j Hj. rewrite has_ldiff, (sigset_has n a) by done. done.
Qed.
Lemma sigset_lor n a b : sigset n a -> sigset n b -> sigset n (Z.lor a b).
Proof.
  intros Ha Hb. destruct (Z.le_gt_cases 1 n) as [Hn | Hn]; [|destruct Ha; assert (n - 1 < 0) by lia; rewrite Z.pow_neg_r in *; lia].
  apply sigset_of; [done | apply Z.lor_nonneg; split; [apply Ha | apply Hb]|]. intros j Hj.
  rewrite has_lor, (sigset_has n a), (sigset_has n b) by done. done.
Qed.
Lemma sigset_bit n sig : 1 <= sig < n -> sigset n (bit sig).
Proof.
  intros Hs. unfold bit. rewrite Z.shiftl_1_l. split; [apply Z.pow_nonneg; lia | apply Z.pow_lt_mono_r; lia].
Qed.
Lemma sigset_ones n b : 1 <= n -> sigset n (Z.land b (Z.ones (n - 1))).
Proof. intros Hn. unfold sigset. rewrite Z.land_ones by lia. apply Z.mod_pos_bound. apply Z.pow_pos_nonneg; lia. Qed.

(** The lowest signal of a set. *)
Definition lowest (b sig : Z) : Prop := has b sig = true /\ forall j, 1 <= j < sig -> has b j = false.
Lemma ctz_lowest n b : sigset n b ->
  match ctz_from (Z.to_nat (n - 1)) b 0 with
  | Some c => 1 <= c + 1 < n /\ lowest b (c + 1)
  | None => b = 0
  end.
Proof.
  intros Hb. destruct (Z.eq_dec b 0) as [-> | Hz].
  - destruct (ctz_from _ 0 0) as [c|] eqn:E; [|done]. exfalso. revert E. generalize 0 at 2. induction (Z.to_nat (n - 1)); cbn; intros i E; [done|].
    rewrite Z.bits_0 in E. eauto.
  - destruct (sigset_nz n b Hb Hz) as (j & Hj & Ht).
    destruct (ctz_from_spec b (Z.to_nat (n - 1)) 0) as (c & -> & Hc & Tc & Lc); [lia | exists (j - 1); split; [lia | exact Ht]|].
    split; [lia|]. unfold lowest, has. replace (c + 1 - 1) with c by lia. split; [done|]. intros i Hi. apply Lc. lia.
Qed.

(** ** Raising and consuming *)

Definition stops (sig : Z) : bool := (sig =? SIGSTOP) || (sig =? SIGTSTP) || (sig =? SIGTTIN) || (sig =? SIGTTOU).
(** A signal that a raise of [sig] takes back. *)
Definition cancels (sig j : Z) : bool := (sig =? SIGCONT) && stops j || stops sig && (j =? SIGCONT).

Lemma has_stops j : 1 <= j -> has STOP_SIGNALS_MASK j = stops j.
Proof.
  intros Hj. unfold STOP_SIGNALS_MASK, stops. rewrite !has_lor, !has_bit by (done || lia). rewrite !orb_assoc. done.
Qed.
Lemma has_unblockable j : 1 <= j -> has UNBLOCKABLE j = (j =? SIGKILL) || (j =? SIGSTOP).
Proof. intros Hj. unfold UNBLOCKABLE. rewrite has_lor, !has_bit by (done || lia). done. Qed.

Lemma raise_has sig p j : 1 <= sig -> 1 <= j ->
  has (sig_pending (raise sig p)) j = (j =? sig) || has (sig_pending p) j && negb (cancels sig j).
Proof.
  intros Hs Hj. unfold raise, cancels. cbn [sig_pending]. rewrite has_lor, has_bit by lia. rewrite orb_comm. f_equal.
  rewrite (Z.land_comm (bit sig)), nz_land_bit, has_stops by lia. destruct (Z.eqb_spec sig SIGCONT) as [-> | Hc].
  - rewrite has_ldiff, has_stops by lia. cbn. rewrite orb_false_r. done.
  - cbn [andb orb]. destruct (stops sig); cbn [andb].
    + rewrite has_ldiff, has_bit by (done || lia). done.
    + rewrite andb_true_r. done.
Qed.

Lemma raise_sigset n sig p : 1 <= sig < n -> sigset n (sig_pending p) -> sigset n (sig_pending (raise sig p)).
Proof.
  intros Hs Hp. unfold raise. cbn [sig_pending]. apply sigset_lor; [|apply sigset_bit; done].
  repeat case_match; try apply sigset_ldiff; done.
Qed.

Definition of_signal (sig : Z) (q : list signal_queue_entry) : list signal_queue_entry := filter (fun e => e_signo e = sig) q.
#[global] Arguments of_signal : simpl never.

Lemma take_entry_spec sig q :
  match take_entry sig q with
  | (Some e, q') => e_signo e = sig /\ of_signal sig q = e :: of_signal sig q' /\ length q = S (length q') /\
      (forall j, j <> sig -> of_signal j q' = of_signal j q) /\ (forall x, x ∈ q' -> x ∈ q) /\ e ∈ q
  | (None, q') => q' = q /\ of_signal sig q = []
  end.
Proof.
  induction q as [|e q IH]; cbn [take_entry]; [done|]. destruct (Z.eqb_spec (e_signo e) sig) as [He | He].
  - split_and!; try done.
    + unfold of_signal. rewrite filter_cons_True by done. done.
    + intros j Hj. unfold of_signal. rewrite filter_cons_False by congruence. done.
    + intros x Hx. right. done.
    + left.
  - destruct (take_entry sig q) as [[e'|] q'].
    + destruct IH as (H1 & H2 & H3 & H4 & H5 & H6). unfold of_signal in *. split_and!; try done.
      * rewrite !filter_cons_False by done. done.
      * cbn. lia.
      * intros j Hj. rewrite !filter_cons. rewrite H4 by done. done.
      * intros x [-> | Hx]%elem_of_cons; [left | right; auto].
      * right. done.
    + destruct IH as [-> H]. unfold of_signal in *. rewrite filter_cons_False by done. done.
Qed.

Lemma take_entry_place sig q :
  match take_entry sig q with
  | (Some e, q') => exists A B, q = A ++ e :: B /\ q' = A ++ B /\ of_signal sig A = []
  | (None, q') => q' = q
  end.
Proof.
  induction q as [|e q IH]; cbn [take_entry]; [done|]. destruct (Z.eqb_spec (e_signo e) sig) as [He | He]; [exists [], q; done|].
  destruct (take_entry sig q) as [[e'|] q']; [|congruence]. destruct IH as (A & B & -> & -> & HA). exists (e :: A), B.
  split_and!; try done. unfold of_signal in *. rewrite filter_cons_False by done. done.
Qed.

(** The information of a queued event; [i] is that of the plain signal. *)
Definition event_info (i : mos_signal_info) (e : signal_queue_entry) : mos_signal_info :=
  if 0 <=? e_timer_id e
  then Info (signo i) (-2) (e_timer_id e) (istatus i) (pid i) (uid i) (overrun (e_info e)) (e_value e) (utime i) (stime i)
  else e_info e.

Lemma more_of_signal sig q : existsb (fun e => e_signo e =? sig) q = negb (bool_decide (of_signal sig q = [])).
Proof.
  induction q as [|e q IH]; [done|]. cbn [existsb]. unfold of_signal in *. rewrite filter_cons.
  destruct (Z.eqb_spec (e_signo e) sig); cbn [orb]; [rewrite decide_True by done; done | rewrite decide_False by done; done].
Qed.

(** One event of the signal goes, the first if there are queued ones; the
    signal stays pending while others are. *)
Record consumed (sig : Z) (p p' : pending) (i : mos_signal_info) : Prop := {
  cn_queue : of_signal sig (pending_queue p') = tail (of_signal sig (pending_queue p));
  cn_others j : j <> sig -> of_signal j (pending_queue p') = of_signal j (pending_queue p);
  cn_sub x : x ∈ pending_queue p' -> x ∈ pending_queue p;
  cn_length : length (pending_queue p) =
    (length (pending_queue p') + if bool_decide (of_signal sig (pending_queue p) = []) then 0 else 1)%nat;
  cn_info : i = match of_signal sig (pending_queue p) with e :: _ => event_info (info_of p sig) e | [] => info_of p sig end;
  cn_has j : 1 <= j -> has (sig_pending p') j =
    has (sig_pending p) j && (negb (j =? sig) || negb (bool_decide (of_signal sig (pending_queue p') = [])));
  cn_infos : pending_info p' = pending_info p /\ signal_sequence p' = signal_sequence p;
  cn_place : of_signal sig (pending_queue p) = [] /\ pending_queue p' = pending_queue p \/
    exists A e B, pending_queue p = A ++ e :: B /\ e_signo e = sig /\ of_signal sig A = [] /\ pending_queue p' = A ++ B
}.

Lemma consume_spec sig p : 1 <= sig -> consumed sig p (consume sig p).2 (consume sig p).1.
Proof.
  intros Hs. unfold consume. pose proof (take_entry_spec sig (pending_queue p)) as H. pose proof (take_entry_place sig (pending_queue p)) as Hpl.
  destruct (take_entry sig (pending_queue p)) as [[e|] q]; cbn [fst snd].
  - destruct H as (H1 & H2 & H3 & H4 & H5 & H6). split; cbn.
    + rewrite H2. done.
    + done.
    + done.
    + rewrite H2, bool_decide_eq_false_2 by done. lia.
    + rewrite H2. done.
    + intros j Hj. rewrite more_of_signal. case_bool_decide; cbn [negb].
      * rewrite has_ldiff, has_bit by lia. rewrite orb_false_r. done.
      * rewrite orb_true_r, andb_true_r. done.
    + done.
    + right. destruct Hpl as (A & B & ? & ? & ?). exists A, e, B. done.
  - destruct H as (-> & H). split; cbn; try done.
    + rewrite H. done.
    + rewrite H, bool_decide_eq_true_2 by done. lia.
    + rewrite H. done.
    + intros j Hj. rewrite more_of_signal, H, bool_decide_eq_true_2 by done. cbn. rewrite has_ldiff, has_bit by lia. rewrite orb_false_r. done.
    + left. done.
Qed.

Lemma consume_sigset n sig p : sigset n (sig_pending p) -> sigset n (sig_pending (consume sig p).2).
Proof. intros H. unfold consume. destruct (take_entry _ _) as [e q]. cbn. case_match; [done | apply sigset_ldiff; done]. Qed.

(** ** One queue for each signal

    What happens to a pending set: an event is queued and its signal raised, a
    signal without an event is raised, or the lowest signal of a mask is taken. *)
Inductive pending_op := Queue (e : signal_queue_entry) | Plain (sig : Z) | Take (mask : Z).

Section Fifo.
Context (NSIG : Z).

Definition pstep (op : pending_op) (p : pending) : list (Z * mos_signal_info) * pending :=
  match op with
  | Queue e => ([], raise (e_signo e) (enqueue e p))
  | Plain sig => ([], raise sig p)
  | Take mask =>
      match ctz_from (Z.to_nat (NSIG - 1)) (Z.land (sig_pending p) mask) 0 with
      | Some c => let '(i, p) := consume (c + 1) p in ([(c + 1, i)], p)
      | None => ([], p)
      end
  end.
Fixpoint prun (ops : list pending_op) (p : pending) : list (Z * mos_signal_info) * pending :=
  match ops with
  | [] => ([], p)
  | op :: ops => let '(out, p) := pstep op p in let '(out', p) := prun ops p in (out ++ out', p)
  end.

(** Operations in which [sig] comes with an event of its own each time. *)
Definition queues (sig : Z) (op : pending_op) : Prop :=
  match op with
  | Queue e => 1 <= e_signo e < NSIG /\ (e_signo e = sig -> e_timer_id e < 0)
  | Plain j => 1 <= j < NSIG /\ j <> sig
  | Take _ => True
  end.
Definition queued_of (sig : Z) (op : pending_op) : list mos_signal_info :=
  match op with Queue e => if e_signo e =? sig then [e_info e] else [] | _ => [] end.
Definition taken_of (sig : Z) (out : list (Z * mos_signal_info)) : list mos_signal_info :=
  snd <$> filter (fun x => x.1 = sig) out.

Definition waiting_of (sig : Z) (p : pending) : list mos_signal_info := e_info <$> of_signal sig (pending_queue p).

(** [sig] is pending exactly while it has events, which carry their
    information. *)
Record exact_queue (sig : Z) (p : pending) : Prop := {
  eq_set : sigset NSIG (sig_pending p);
  eq_bit : has (sig_pending p) sig = negb (bool_decide (of_signal sig (pending_queue p) = []));
  eq_info e : e ∈ of_signal sig (pending_queue p) -> e_timer_id e < 0
}.

Lemma raise_exact sig j p : 1 <= j < NSIG -> 1 <= sig -> j <> sig -> stops sig = false -> sig <> SIGCONT ->
  exact_queue sig p -> exact_queue sig (raise j p).
Proof.
  intros Hj Hs Hne Hst Hc [H1 H2 H3]. split; [apply raise_sigset; done | | done].
  rewrite raise_has by lia. unfold cancels. rewrite (proj2 (Z.eqb_neq sig j)), (proj2 (Z.eqb_neq sig SIGCONT)), Hst, !andb_false_r by auto.
  cbn. rewrite andb_true_r. done.
Qed.

Lemma of_signal_snoc sig q e : of_signal sig (q ++ [e]) = of_signal sig q ++ (if e_signo e =? sig then [e] else []).
Proof.
  unfold of_signal. rewrite filter_app. f_equal. destruct (Z.eqb_spec (e_signo e) sig); [rewrite filter_cons_True by done | rewrite filter_cons_False by done]; done.
Qed.

Lemma pstep_exact sig op p :
  1 <= sig < NSIG -> stops sig = false -> sig <> SIGCONT -> queues sig op -> exact_queue sig p ->
  exact_queue sig (pstep op p).2 /\
  waiting_of sig p ++ queued_of sig op = taken_of sig (pstep op p).1 ++ waiting_of sig (pstep op p).2.
Proof.
  intros Hs Hst Hc Hq Hp. destruct op as [e | j | mask]; cbn [pstep queued_of queues] in *.
  - destruct Hq as [He Ht]. split.
    + destruct (decide (e_signo e = sig)) as [Ee | Ne].
      * destruct Hp as [H1 H2 H3]. cbn. split; [apply raise_sigset; done | |].
        -- rewrite raise_has, Ee, Z.eqb_refl by lia. cbn. rewrite of_signal_snoc, Ee, Z.eqb_refl, bool_decide_eq_false_2; [done|].
           intros [_ ?]%app_eq_nil. done.
        -- cbn. rewrite of_signal_snoc. intros x [Hx | Hx]%elem_of_app; [auto|]. case_match; [|set_solver].
           apply list_elem_of_singleton in Hx as ->. auto.
      * apply raise_exact; try done; [lia|]. destruct Hp as [H1 H2 H3]. split; cbn; [done | |];
          rewrite of_signal_snoc, (proj2 (Z.eqb_neq _ _) Ne), app_nil_r; done.
    + unfold waiting_of. cbn. rewrite of_signal_snoc, fmap_app. case_match; done.
  - destruct Hq as [Hj Hn]. split; [apply raise_exact; done || lia|]. unfold waiting_of. cbn. apply app_nil_r.
  - pose proof (ctz_lowest NSIG (Z.land (sig_pending p) mask) (sigset_land _ _ _ (eq_set _ _ Hp))) as Hz.
    destruct (ctz_from _ _ _) as [c|]; [|split; [done | apply app_nil_r]]. destruct Hz as [Hr [Hb _]].
    rewrite has_land in Hb. apply andb_prop in Hb as [Hb _].
    pose proof (consume_spec (c + 1) p ltac:(lia)) as Hcn. pose proof (consume_sigset NSIG (c + 1) p (eq_set _ _ Hp)) as Hset.
    destruct (consume (c + 1) p) as [i p'] eqn:E. cbn [fst snd] in *. destruct Hp as [H1 H2 H3]. destruct Hcn as [K1 K2 K3 K4 K5 K6 K7].
    unfold taken_of, waiting_of. rewrite app_nil_r. destruct (decide (c + 1 = sig)) as [<- | Hne].
    + rewrite filter_cons_True by done. rewrite Hb in H2. destruct (of_signal (c + 1) (pending_queue p)) as [|e l] eqn:El; [done|].
      cbn in K1. split.
      * split; [done | rewrite K6, Hb, Z.eqb_refl by lia; done | rewrite K1; intros x Hx; apply H3; right; done].
      * cbn. rewrite K1, K5. unfold event_info. rewrite (proj2 (Z.leb_gt _ _)); [done|]. apply H3. left.
    + rewrite filter_cons_False by done. split; [|cbn; rewrite K2 by auto; done].
      split; [done | | rewrite K2 by auto; done]. rewrite K6, (proj2 (Z.eqb_neq sig (c + 1))), (K2 sig) by lia. cbn. rewrite andb_true_r. done.
Qed.

Definition no_pending : pending := Pending 0 [] ∅ ∅.

Lemma prun_fifo sig ops : forall p,
  1 <= sig < NSIG -> stops sig = false -> sig <> SIGCONT -> Forall (queues sig) ops -> exact_queue sig p ->
  exact_queue sig (prun ops p).2 /\
  waiting_of sig p ++ (ops ≫= queued_of sig) = taken_of sig (prun ops p).1 ++ waiting_of sig (prun ops p).2.
Proof.
  induction ops as [|op ops IH]; intros p Hs Hst Hc Hf Hp; [split; [done | apply app_nil_r]|]. inversion_clear Hf as [|? ? Hq Hf'].
  destruct (pstep_exact sig op p Hs Hst Hc Hq Hp) as [Hp1 E1]. cbn [prun]. destruct (pstep op p) as [out p1]. cbn [fst snd] in *.
  destruct (IH p1 Hs Hst Hc Hf' Hp1) as [Hp2 E2]. destruct (prun ops p1) as [out' p2]. cbn [fst snd] in *. split; [done|].
  cbn. rewrite app_assoc, E1, <- app_assoc, E2. unfold taken_of. rewrite filter_app, fmap_app, app_assoc. done.
Qed.

(** A signal whose every occurrence is queued with its information, as
    rt_sigqueueinfo(2) does for the real-time signal, is a first-in first-out
    queue, whatever happens to other signals and whichever masks it is taken
    with: what was queued is what was taken, in order, followed by what is
    still queued, nothing lost and nothing twice, and the signal is pending
    exactly while an event is left. *)
Theorem signal_events_fifo sig ops :
  1 <= sig < NSIG -> stops sig = false -> sig <> SIGCONT -> Forall (queues sig) ops ->
  let '(out, p) := prun ops no_pending in
  ops ≫= queued_of sig = taken_of sig out ++ waiting_of sig p /\
  (has (sig_pending p) sig = true <-> waiting_of sig p <> []).
Proof.
  intros Hs Hst Hc Hf. destruct (prun_fifo sig ops no_pending Hs Hst Hc Hf) as [Hp E].
  { split; cbn; [split; [done | apply Z.pow_pos_nonneg; lia] | apply has_0 | set_solver]. }
  destruct (prun ops no_pending) as [out p]. cbn [fst snd] in *. split; [done|]. rewrite (eq_bit _ _ Hp). unfold waiting_of.
  case_bool_decide as H; [rewrite H; done|]. split; [|done]. intros _ ?%fmap_nil_inv. done.
Qed.
End Fifo.

(** ** The signals that interrupt *)

Lemma drop_ignored_has h n : forall sig p j, 1 <= sig -> 1 <= j ->
  has (drop_ignored h n sig p) j = has p j && negb (ignorable j (h j) && bool_decide (sig <= j < sig + Z.of_nat n)).
Proof.
  induction n as [|n IH]; intros sig p j Hs Hj; cbn [drop_ignored].
  - rewrite bool_decide_eq_false_2 by lia. rewrite andb_false_r, andb_true_r. done.
  - rewrite IH by lia. rewrite nz_land_bit by lia. destruct (Z.eq_dec j sig) as [-> | Hne].
    + rewrite (bool_decide_eq_false_2 (sig + 1 <= sig < _)), (bool_decide_eq_true_2 (sig <= sig < _)) by lia.
      rewrite andb_false_r, !andb_true_r. destruct (has p sig) eqn:E; cbn [andb]; [|done]. destruct (ignorable sig (h sig)); [|done].
      rewrite has_ldiff, has_bit, Z.eqb_refl, andb_false_r by lia. done.
    + rewrite (bool_decide_ext (sig + 1 <= j < sig + 1 + Z.of_nat n) (sig <= j < sig + Z.of_nat (S n))) by lia. f_equal.
      case_match; [|done]. rewrite has_ldiff, has_bit, (proj2 (Z.eqb_neq j sig) Hne), andb_true_r by lia. done.
Qed.
Lemma drop_ignored_sigset N h n : forall sig p, sigset N p -> sigset N (drop_ignored h n sig p).
Proof. induction n as [|n IH]; intros sig p Hp; cbn; [done|]. apply IH. case_match; [apply sigset_ldiff|]; done. Qed.

Definition disposed (s : sigsys) (k : sigtask) (j : Z) : bool := ignorable j (sa_handler (action_of s (sighand (who k)) j)).

Lemma interrupting_has N s k j : 1 <= j < N ->
  has (ps_interrupting_signals N s k) j =
    nz (sighand (who k)) && (has (ps_pending_signals s k) j && negb (has (sig_mask (signal k)) j) && negb (disposed s k j)).
Proof.
  intros Hj. unfold ps_interrupting_signals. destruct (nz (sighand (who k))); cbn [negb andb]; [|apply has_0].
  destruct (nz (Z.ldiff _ _)) eqn:En; cbn [negb].
  - rewrite drop_ignored_has, has_ldiff, bool_decide_eq_true_2, andb_true_r by lia. done.
  - apply negb_false_iff, Z.eqb_eq in En. rewrite has_0, <- has_ldiff, En, has_0. done.
Qed.
Lemma interrupting_sigset N s k : 1 <= N -> sigset N (ps_pending_signals s k) -> sigset N (ps_interrupting_signals N s k).
Proof.
  intros HN Hp. assert (sigset N 0) by (split; [done | apply Z.pow_pos_nonneg; lia]).
  unfold ps_interrupting_signals. repeat (case_match; [done|]). apply drop_ignored_sigset, sigset_ldiff. done.
Qed.

Lemma signal_events_fifo_witness :
  let e n := Entry 32 (-1) 0 (Info 32 (-1) (-1) 0 0 0 0 n 0 0) in
  let ops := [Queue (e 1); Plain 10; Queue (e 2); Take (bit 32)] in
  ops ≫= queued_of 32 = [e_info (e 1); e_info (e 2)] /\
  taken_of 32 (prun 65 ops no_pending).1 = [e_info (e 1)] /\
  has (sig_pending (prun 65 ops no_pending).2) 32 = true.
Proof.
  intros e ops. split; [reflexivity|]. split; [vm_compute; reflexivity|].
  pose proof (signal_events_fifo 65 32 ops) as H. destruct (prun 65 ops no_pending) as [out p] eqn:E. apply H; clear H.
  - lia.
  - reflexivity.
  - discriminate.
  - repeat constructor; cbn; lia.
  - vm_compute in E. injection E as <- <-. vm_compute. discriminate.
Defined.
