(* ===== verification/SignalInv.v ===== *)
(** * Signals: invariant

    The invariant of the system of signals, who a signal wakes, and what is
    kept by the operations: programs that leave the system well formed and
    no task asleep that a signal should have woken. *)

From S2P Require Import Prelude Slots SlotsProof RbTree RbTreeInv Timer TimerProof Sched SchedInv SchedKeeps SchedProof SchedCorrect Signal SignalProof.

#[local] Arguments without : simpl never.

(** ** Interruptible sleep *)

Definition sleeping (x : task) : Prop := status x = ps_waiting /\ wait_interruptible x = true.

Lemma calm : task_changes (fun x x' => sleeping x' -> sleeping x).
Proof.
  split; [split|]; unfold sleeping; cbn; intros; auto; intuition congruence.
Qed.
#[export] Hint Resolve calm : evolves.
Abbreviation calms := (evolves (fun x x' => sleeping x' -> sleeping x)).

Lemma runs_observe {A} (f : sigsys -> G A) s (Q : A -> sigsys -> Prop) : ends (f s) s Q -> ends (observe f) s Q.
Proof. intros H. exact H. Qed.
Lemma runs_sig t k s (Q : sigtask -> sigsys -> Prop) : stasks s !! t = Some k -> Q k s -> ends (get_sig t) s Q.
Proof. intros E H. exists k, s. unfold get_sig. rewrite E. done. Qed.
Lemma runs_tgroup g x s (Q : tgroup -> sigsys -> Prop) : sgroups s !! g = Some x -> Q x s -> ends (get_tgroup g) s Q.
Proof. intros E H. exists x, s. unfold get_tgroup. rewrite E. done. Qed.
Lemma runs_task t x s (Q : task -> sigsys -> Prop) : tasks (ssys s) !! t = Some x -> Q x s -> ends (in_sched (get_task t)) s Q.
Proof. intros E H. exists x, s. unfold in_sched, get_task. rewrite E. destruct s. done. Qed.
Lemma runs_change t f k s (Q : unit -> sigsys -> Prop) :
  stasks s !! t = Some k -> Q tt (set_stasks (<[t := f k]> (stasks s)) s) -> ends (change t f) s Q.
Proof. intros E H. eexists tt, _. unfold change. rewrite E. done. Qed.

Section Invariant.
Context (NSIG : Z) (HN : SIGRTMIN_KERNEL < NSIG).

(** ** The invariant *)

(** An event of a signal that no other cancels is never left behind. *)
Record pending_ok (p : pending) : Prop := {
  po_set : sigset NSIG (sig_pending p);
  po_entry e : e ∈ pending_queue p ->
    1 <= e_signo e < NSIG /\ (stops (e_signo e) = false -> e_signo e <> SIGCONT -> has (sig_pending p) (e_signo e) = true)
}.

(** A mask that blocks neither SIGKILL nor SIGSTOP. *)
Definition mask_ok (m : Z) : Prop := has m SIGKILL = false /\ has m SIGSTOP = false.

Definition signal_ok (x : task_signal) : Prop :=
  pending_ok (local x) /\ mask_ok (sig_mask x) /\ mask_ok (saved_sigmask x).

Record sig_ok (s : sigsys) : Prop := {
  sg_sched : exists l, sched_ok (ssys s) l;
  sg_waits : (0 < length (wait_lists (ssys s)))%nat;
  sg_task t k : stasks s !! t = Some k -> signal_ok (signal k) /\ is_Some (tasks (ssys s) !! t) /\ is_Some (sgroups s !! thread (who k)) /\
    (nz (sighand (who k)) = true -> is_Some (actions s !! sighand (who k)));
  sg_group g x : sgroups s !! g = Some x -> pending_ok (shared x) /\ forall t, t ∈ members x -> is_Some (stasks s !! t);
  sg_member t k x : stasks s !! t = Some k -> sgroups s !! thread (who k) = Some x -> execution (who k) = true -> t ∈ members x;
  sg_process t : t ∈ processes s -> is_Some (stasks s !! t);
  sg_stop h : sa_handler (action_of s h SIGSTOP) = SIG_DFL
}.

(** No task sleeps interruptibly that has a signal to wake for. *)
Definition attentive (s : sigsys) : Prop := forall t k x,
  stasks s !! t = Some k -> tasks (ssys s) !! t = Some x -> sleeping x -> interrupted NSIG s k = false.

(** A task that does not sleep interruptibly. *)
Definition awake (s : sigsys) (t : Z) : Prop := forall x, tasks (ssys s) !! t = Some x -> ~ sleeping x.

(** What no operation changes, but for a task that goes to sleep. *)
Record frame (s s' : sigsys) : Prop := {
  fr_task t : option_Forall2 (fun k k' => who k' = who k) (stasks s !! t) (stasks s' !! t);
  fr_group g : option_Forall2 (fun x x' => members x' = members x /\ g_tgid x' = g_tgid x /\ group_id x' = group_id x) (sgroups s !! g) (sgroups s' !! g);
  fr_process : processes s' = processes s;
  fr_sched t : is_Some (tasks (ssys s) !! t) -> is_Some (tasks (ssys s') !! t);
  fr_cpus : length (cpus (ssys s')) = length (cpus (ssys s));
  fr_awake t : awake s t -> awake s' t
}.

Lemma sig_frame_refl s : frame s s.
Proof. split; try done; try (intros i; exact (fun h => h)); intros i; [destruct (stasks s !! i) | destruct (sgroups s !! i)]; constructor; done. Qed.
Lemma sig_frame_trans s1 s2 s3 : frame s1 s2 -> frame s2 s3 -> frame s1 s3.
Proof.
  intros [T1 G1 P1 S1 C1 A1] [T2 G2 P2 S2 C2 A2]. split; [| | congruence | auto | congruence | auto].
  - intros t. specialize (T1 t). specialize (T2 t). destruct T1; inversion T2; subst; constructor. congruence.
  - intros g. specialize (G1 g). specialize (G2 g). destruct G1; inversion G2; subst; constructor. intuition congruence.
Qed.
Lemma frame_known s s' t k : frame s s' -> stasks s !! t = Some k -> exists k', stasks s' !! t = Some k' /\ who k' = who k.
Proof. intros H E. pose proof (fr_task _ _ H t) as Ht. rewrite E in Ht. inversion Ht; eauto. Qed.

(** The program ends well; [b]: it also leaves no sleeper behind. *)
Definition keeping (b : bool) {A} (m : G A) (s : sigsys) : Prop :=
  ends m s (fun _ s' => sig_ok s' /\ frame s s' /\ (b = true -> attentive s -> attentive s')).

Lemma keeping_ret b {A} (x : A) s : sig_ok s -> keeping b (mret x) s.
Proof. intros H. apply ends_ret. split_and!; [done | apply sig_frame_refl | done]. Qed.
Lemma keeping_bind b {A B} (m : G A) (f : A -> G B) s :
  keeping b m s -> (forall x s', m s = Some (x, s') -> sig_ok s' -> frame s s' -> keeping b (f x) s') -> keeping b (m ≫= f) s.
Proof.
  intros (x & s1 & E1 & Ok1 & F1 & A1) Hf. apply ends_bind. exists x, s1. split; [done|].
  eapply ends_mono; [apply (Hf x s1 E1 Ok1 F1)|]. intros y s2 (Ok2 & F2 & A2). split_and!; [done | eapply sig_frame_trans; eauto | auto].
Qed.
Lemma keeping_observe b {A} (f : sigsys -> G A) s : keeping b (f s) s -> keeping b (observe f) s.
Proof. intros H. exact H. Qed.
Lemma keeping_sig b {A} (f : sigtask -> G A) t k s :
  stasks s !! t = Some k -> keeping b (f k) s -> keeping b (get_sig t ≫= f) s.
Proof. intros E H. eapply ends_bind, runs_sig; done. Qed.
Lemma keeping_group b {A} (f : tgroup -> G A) g x s :
  sgroups s !! g = Some x -> keeping b (f x) s -> keeping b (get_tgroup g ≫= f) s.
Proof. intros E H. eapply ends_bind, runs_tgroup; done. Qed.
Lemma keeping_task b {A} (f : task -> G A) t x s :
  tasks (ssys s) !! t = Some x -> keeping b (f x) s -> keeping b (in_sched (get_task t) ≫= f) s.
Proof. intros E H. eapply ends_bind, runs_task; done. Qed.
Lemma keeping_weaken {A} (m : G A) s b : keeping true m s -> keeping b m s.
Proof. intros H. eapply ends_mono; [exact H|]. intros x s' (? & ? & ?). auto. Qed.

(** The parts of the state, known from the invariant. *)
Lemma known_task s t k : sig_ok s -> stasks s !! t = Some k -> exists x, tasks (ssys s) !! t = Some x.
Proof. intros H E. destruct (sg_task _ H _ _ E) as (_ & [x Ex] & _). eauto. Qed.
Lemma known_group s t k : sig_ok s -> stasks s !! t = Some k -> exists g, sgroups s !! thread (who k) = Some g.
Proof. intros H E. destruct (sg_task _ H _ _ E) as (_ & _ & [x Ex] & _). eauto. Qed.
Lemma known_process s id t : sig_ok s -> ps_find_process_unsafe s id = Some t -> exists k, stasks s !! t = Some k.
Proof.
  intros H E. unfold ps_find_process_unsafe in E. apply head_Some_elem_of, list_elem_of_filter in E as [_ E].
  destruct (sg_process _ H _ E). eauto.
Qed.

(** ** What a task reacts to *)

Definition reacts (s : sigsys) (k : sigtask) (j : Z) : Prop :=
  has (ps_pending_signals s k) j = true /\
  (has (sig_mask (signal k)) j = false /\ disposed s k j = false \/ has (signal_wait_mask k) j = true).

Lemma pending_has s k j : has (ps_pending_signals s k) j =
  nz (sighand (who k)) && has (sig_pending (local (signal k))) j ||
  execution (who k) && nz (thread (who k)) && from_option (fun g => has (sig_pending (shared g)) j) false (sgroups s !! thread (who k)).
Proof.
  unfold ps_pending_signals. destruct (execution (who k) && nz (thread (who k))); cbn [andb].
  - rewrite has_lor. f_equal; [destruct (nz _); [done | apply has_0] | destruct (sgroups s !! _); [done | apply has_0]].
  - rewrite orb_false_r. destruct (nz _); [done | apply has_0].
Qed.

Lemma sigset_0 : sigset NSIG 0.
Proof. split; [done | apply Z.pow_pos_nonneg; unfold SIGRTMIN_KERNEL in HN; lia]. Qed.

Lemma pending_sigset s t k : sig_ok s -> stasks s !! t = Some k -> sigset NSIG (ps_pending_signals s k).
Proof.
  intros H E. destruct (sg_task _ H _ _ E) as ([[Hl _] _] & _). unfold ps_pending_signals.
  assert (sigset NSIG (if nz (sighand (who k)) then sig_pending (local (signal k)) else 0)) by (case_match; [done | apply sigset_0]).
  destruct (execution _ && _); [|done]. apply sigset_lor; [done|]. destruct (sgroups s !! _) as [g|] eqn:Eg; cbn; [|apply sigset_0].
  destruct (sg_group _ H _ _ Eg) as [[Hg _] _]. done.
Qed.

Lemma nz_iff n b : sigset n b -> nz b = true <-> exists j, 1 <= j < n /\ has b j = true.
Proof.
  intros Hb. unfold nz. rewrite negb_true_iff, Z.eqb_neq. split; [intros; apply sigset_nz; done|].
  intros (j & _ & Hj) ->. rewrite has_0 in Hj. done.
Qed.

Lemma interrupted_iff s t k : sig_ok s -> stasks s !! t = Some k ->
  interrupted NSIG s k = true <-> nz (sighand (who k)) = true /\ exists j, 1 <= j < NSIG /\ reacts s k j.
Proof.
  intros H E. pose proof (pending_sigset s t k H E) as Hp. unfold interrupted.
  rewrite orb_true_iff, andb_true_iff.
  rewrite (nz_iff NSIG (ps_interrupting_signals NSIG s k)) by (apply interrupting_sigset; [unfold SIGRTMIN_KERNEL in HN; lia | done]).
  rewrite (nz_iff NSIG (Z.land (ps_pending_signals s k) _)) by (apply sigset_land; done). unfold reacts. split.
  - intros [(j & Hj & Hi) | (Hs & j & Hj & Hi)].
    + rewrite interrupting_has in Hi by done. apply andb_prop in Hi as [Hs Hi]. apply andb_prop in Hi as [Hi Hd]. apply andb_prop in Hi as [Hi Hm].
      apply negb_true_iff in Hd, Hm. eauto 8.
    + rewrite has_land in Hi. apply andb_prop in Hi as [? ?]. eauto 8.
  - intros (Hs & j & Hj & Hi & [[Hm Hd] | Hw]).
    + left. exists j. split; [done|]. rewrite interrupting_has, Hs, Hi, Hm, Hd by done. done.
    + right. split; [done|]. exists j. split; [done|]. rewrite has_land, Hi, Hw. done.
Qed.

(** A task that sleeps afterwards slept before and reacts to nothing new. *)
Lemma attentive_shrinks s s' :
  sig_ok s -> sig_ok s' ->
  (forall t k' x', stasks s' !! t = Some k' -> tasks (ssys s') !! t = Some x' -> sleeping x' ->
     exists k x, stasks s !! t = Some k /\ tasks (ssys s) !! t = Some x /\ sleeping x /\ sighand (who k) = sighand (who k') /\
       forall j, 1 <= j < NSIG -> reacts s' k' j -> reacts s k j) ->
  attentive s -> attentive s'.
Proof.
  intros Hs Hs' H Ha t k' x' Ek Ex Hx. destruct (H t k' x' Ek Ex Hx) as (k & x & Ek0 & Ex0 & Hx0 & Hh & Hr).
  specialize (Ha t k x Ek0 Ex0 Hx0). apply not_true_is_false. intros Hi. apply (interrupted_iff s' t k' Hs' Ek) in Hi as (Hn & j & Hj & Hre).
  apply not_true_iff_false in Ha. apply Ha, (interrupted_iff s t k Hs Ek0). rewrite Hh. eauto.
Qed.

(** ** Changes of one part *)

Lemma change_ok s t k f :
  sig_ok s -> stasks s !! t = Some k -> who (f k) = who k -> signal_ok (signal (f k)) ->
  sig_ok (set_stasks (<[t := f k]> (stasks s)) s) /\ frame s (set_stasks (<[t := f k]> (stasks s)) s).
Proof.
  intros H E Hw Hs. split.
  - destruct H as [H1 H2 H3 H4 H6 H5 H7].
    assert (Hd : forall u, is_Some (stasks s !! u) -> is_Some (<[t := f k]> (stasks s) !! u)).
    { intros u Hu. destruct (decide (u = t)) as [-> | Hne]; [rewrite lookup_insert_eq | rewrite lookup_insert_ne by auto]; eauto. }
    split; cbn; [done | done | | | | auto | exact H7].
    + intros u ku. destruct (decide (u = t)) as [-> | Hne]; [|rewrite lookup_insert_ne by auto; auto].
      rewrite lookup_insert_eq. intros [= <-]. rewrite Hw. destruct (H3 t k E) as (_ & ? & ? & ?). done.
    + intros g x Eg. destruct (H4 g x Eg) as [? Hm]. auto.
    + intros u ku x. destruct (decide (u = t)) as [-> | Hne]; [|rewrite lookup_insert_ne by auto; exact (H6 u ku x)].
      rewrite lookup_insert_eq. intros [= <-]. rewrite Hw. exact (H6 t k x E).
  - split; cbn; try done; try (intros u; exact (fun h => h)).
    + intros u. destruct (decide (u = t)) as [-> | Hne]; [rewrite lookup_insert_eq, E; constructor; done|].
      rewrite lookup_insert_ne by auto. destruct (stasks s !! u); constructor. done.
    + intros g. destruct (sgroups s !! g); constructor. done.
Qed.

(** A task changes its own state, awake. *)
Lemma keeping_change_self b s t k f :
  sig_ok s -> stasks s !! t = Some k -> who (f k) = who k -> signal_ok (signal (f k)) ->
  (forall x, tasks (ssys s) !! t = Some x -> ~ sleeping x) -> keeping b (change t f) s.
Proof.
  intros H E Hw Hs Hx. destruct (change_ok s t k f H E Hw Hs) as [Hok Hf].
  eexists tt, _. unfold change. rewrite E. split; [reflexivity|]. split_and!; [done | done|]. intros _. apply attentive_shrinks; [done | done|].
  cbn. intros u ku x Eu Ex Hsl. destruct (decide (u = t)) as [-> | Hne]; [destruct (Hx x Ex Hsl)|].
  rewrite lookup_insert_ne in Eu by auto. eauto 10.
Qed.

(** Someone else takes pending signals away from a task. *)
Lemma keeping_change_shrink b s t k f :
  sig_ok s -> stasks s !! t = Some k -> who (f k) = who k -> signal_ok (signal (f k)) ->
  sig_mask (signal (f k)) = sig_mask (signal k) -> signal_wait_mask (f k) = signal_wait_mask k ->
  (forall j, 1 <= j < NSIG -> has (sig_pending (local (signal (f k)))) j = true -> has (sig_pending (local (signal k))) j = true) ->
  keeping b (change t f) s.
Proof.
  intros H E Hw Hs Hm Hwm Hsh. destruct (change_ok s t k f H E Hw Hs) as [Hok Hf].
  eexists tt, _. unfold change. rewrite E. split; [reflexivity|]. split_and!; [done | done|]. intros _. apply attentive_shrinks; [done | done|].
  cbn. intros u ku x Eu Ex Hsl. destruct (decide (u = t)) as [-> | Hne]; [|rewrite lookup_insert_ne in Eu by auto; eauto 10].
  rewrite lookup_insert_eq in Eu. injection Eu as <-. exists k, x. split_and!; try done; [rewrite Hw; done|].
  intros j Hj [Hp Hr]. unfold reacts, disposed in *. rewrite Hm, Hwm, Hw in Hr. split; [|done].
  rewrite pending_has in *. rewrite Hw in Hp. cbn in Hp. apply orb_true_iff in Hp as [Hp | Hp]; apply orb_true_iff; [left | right; done].
  apply andb_prop in Hp as [-> Hp]. rewrite (Hsh j Hj Hp). done.
Qed.

Lemma change_group_ok s g x f :
  sig_ok s -> sgroups s !! g = Some x -> members (f x) = members x -> g_tgid (f x) = g_tgid x -> group_id (f x) = group_id x ->
  pending_ok (shared (f x)) ->
  sig_ok (set_groups (<[g := f x]> (sgroups s)) s) /\ frame s (set_groups (<[g := f x]> (sgroups s)) s).
Proof.
  intros H E Hm Ht Hg Hp. split.
  - destruct H as [H1 H2 H3 H4 H6 H5 H7]. split; cbn; [done | done | | | | done | exact H7].
    + intros t k Ek. destruct (H3 t k Ek) as (? & ? & Hgr & ?). split_and!; try done.
      destruct (decide (g = thread (who k))) as [<- | Hne]; [rewrite lookup_insert_eq; eauto | rewrite lookup_insert_ne by auto; done].
    + intros g' x'. destruct (decide (g' = g)) as [-> | Hne]; [|rewrite lookup_insert_ne by auto; apply H4].
      rewrite lookup_insert_eq. intros [= <-]. rewrite Hm. split; [done | apply (H4 g x E)].
    + intros t k x' Ek. destruct (decide (thread (who k) = g)) as [Eg | Hne]; [|rewrite lookup_insert_ne by auto; eauto].
      rewrite Eg, lookup_insert_eq. intros [= <-]. rewrite Hm. rewrite <- Eg in E. eauto.
  - split; cbn; try done; try (intros u; exact (fun h => h)).
    + intros t. destruct (stasks s !! t); constructor. done.
    + intros g'. destruct (decide (g' = g)) as [-> | Hne]; [rewrite lookup_insert_eq, E; constructor; done|].
      rewrite lookup_insert_ne by auto. destruct (sgroups s !! g'); constructor. done.
Qed.

Lemma keeping_group_shrink b s g x f :
  sig_ok s -> sgroups s !! g = Some x -> members (f x) = members x -> g_tgid (f x) = g_tgid x -> group_id (f x) = group_id x ->
  pending_ok (shared (f x)) ->
  (forall j, 1 <= j < NSIG -> has (sig_pending (shared (f x))) j = true -> has (sig_pending (shared x)) j = true) ->
  keeping b (change_group g f) s.
Proof.
  intros H E Hm Ht Hg Hp Hsh. destruct (change_group_ok s g x f H E Hm Ht Hg Hp) as [Hok Hf].
  eexists tt, _. unfold change_group. rewrite E. split; [reflexivity|]. split_and!; [done | done|].
  intros _. apply attentive_shrinks; [done | done|]. cbn. intros u ku y Eu Ey Hsl. exists ku, y. split_and!; try done.
  intros j Hj [Hpe Hr]. split; [|done]. rewrite pending_has in *. cbn in Hpe. apply orb_true_iff in Hpe as [Hpe | Hpe]; apply orb_true_iff; [left; done | right].
  apply andb_prop in Hpe as [-> Hpe]. destruct (decide (thread (who ku) = g)) as [Eg | Hne]; [|rewrite lookup_insert_ne in Hpe by auto; done].
  rewrite Eg, lookup_insert_eq in Hpe. rewrite Eg, E. cbn. auto.
Qed.

Lemma action_put s h m sig a h' j : actions s !! h = Some m ->
  action_of (set_actions (<[h := <[sig := a]> m]> (actions s)) s) h' j = if decide (h' = h /\ j = sig) then a else action_of s h' j.
Proof.
  intros E. unfold action_of. cbn. destruct (decide (h' = h)) as [-> | Hh].
  - rewrite lookup_insert_eq, E. cbn. destruct (decide (j = sig)) as [-> | Hj].
    + rewrite lookup_insert_eq, decide_True by done. done.
    + rewrite lookup_insert_ne, decide_False by (auto || tauto). done.
  - rewrite lookup_insert_ne, decide_False by (auto || tauto). done.
Qed.

(** [b]: no signal that was ignored is not any more. *)
Lemma keeping_put_action b s h m sig a :
  sig_ok s -> actions s !! h = Some m -> (sig = SIGSTOP -> sa_handler a = SIG_DFL) ->
  (b = true -> ignorable sig (sa_handler a) = false -> ignorable sig (sa_handler (action_of s h sig)) = false) ->
  keeping b (put_action h sig a) s.
Proof.
  intros H E Hst Hi. eexists tt, _. unfold put_action. rewrite E. split; [reflexivity|].
  assert (Hok : sig_ok (set_actions (<[h := <[sig := a]> m]> (actions s)) s)).
  { destruct H as [H1 H2 H3 H4 H6 H5 H7]. split; cbn; try done.
    - intros t k Ek. destruct (H3 t k Ek) as (? & ? & ? & Ha). split_and!; try done.
      intros Hs. destruct (decide (sighand (who k) = h)) as [-> | Hne]; [rewrite lookup_insert_eq; eauto | rewrite lookup_insert_ne by auto; auto].
    - intros h'. rewrite (action_put s h m) by done. case_decide as Hc; [|apply H7]. destruct Hc as [_ ?]. auto. }
  split_and!; [done | |].
  - split; cbn; try done; try (intros u; exact (fun h => h)); [intros t; destruct (stasks s !! t) | intros g; destruct (sgroups s !! g)]; constructor; done.
  - intros Hb. apply attentive_shrinks; [done | done|]. cbn. intros t k x Ek Ex Hx. exists k, x. split_and!; try done.
    intros j Hj [Hp Hr]. split; [done|]. destruct Hr as [[Hm Hd] | Hw]; [left | right; done]. split; [done|].
    unfold disposed in *. rewrite (action_put s h m) in Hd by done. case_decide as Hc; [|done]. destruct Hc as [-> ->]. auto.
Qed.

(** The scheduler does not look at signals. *)
Lemma in_sched_ok {A} (m : P A) (x : A) s k :
  sig_ok s -> calms m -> m (ssys s) = Some (x, k) -> (exists l, sched_ok k l) -> sig_ok (set_sched k s) /\ frame s (set_sched k s).
Proof.
  intros [H1 H2 H3 H4 H6 H5 H7] Hc E Hk. destruct (Hc _ _ _ E) as (Ht & Hw & Hcp).
  assert (Hd : forall t, is_Some (tasks (ssys s) !! t) -> is_Some (tasks k !! t)).
  { intros t [y Ey]. specialize (Ht t). rewrite Ey in Ht. inversion Ht; eauto. }
  split; split; cbn; try done.
  - lia.
  - intros t kt Ekt. destruct (H3 t kt Ekt) as (? & ? & ? & ?). split_and!; auto.
  - intros t. destruct (stasks s !! t); constructor. done.
  - intros g. destruct (sgroups s !! g); constructor. done.
  - intros t Ha y Ey Hy. specialize (Ht t). cbn in Ey. rewrite Ey in Ht. inversion Ht as [y0 y1 Hr Ey0|]; subst. symmetry in Ey0. exact (Ha y0 Ey0 (Hr Hy)).
Qed.
Lemma keeping_sched b {A} (m : P A) s :
  sig_ok s -> calms m -> ends m (ssys s) (fun _ k => exists l, sched_ok k l) -> keeping b (in_sched m) s.
Proof.
  intros H Hc (x & k & E & Hk). destruct (in_sched_ok m x s k H Hc E Hk) as [Hok Hf]. exists x, (set_sched k s). unfold in_sched.
  rewrite E. split; [done|]. split_and!; [done | done|]. intros _. apply attentive_shrinks; [done | done|]. cbn. intros t kt y Ekt Ey Hy.
  destruct (Hc _ _ _ E) as (Ht & _). specialize (Ht t). rewrite Ey in Ht. inversion Ht as [y0 y1 Hr E0|]; subst. exists kt, y0. split_and!; auto.
Qed.

(** ** Who wakes *)

Definition stop_ends (sig : Z) (x : task) : bool := bool_decide (status x = ps_stopped) && ((sig =? SIGCONT) || (sig =? SIGKILL)).
Definition wakes (s : sigsys) (sig : Z) (t : Z) : bool :=
  match stasks s !! t, tasks (ssys s) !! t with
  | Some k, Some x =>
      stop_ends sig x ||
      bool_decide (status x = ps_waiting) && wait_interruptible x &&
        (nz (ps_interrupting_signals NSIG s k) || nz (Z.land (signal_wait_mask k) (bit sig)))
  | _, _ => false
  end.

(** The tasks in [c] were made ready, and the stopped ones have no stop to
    report any more. *)
Record woken (sig : Z) (c : Z -> bool) (s s' : sigsys) : Prop := {
  wk_sched l : sched_ok (ssys s) l -> sched_ok (ssys s') l;
  wk_tasks t : tasks (ssys s') !! t = (if c t then to_ready else id) <$> tasks (ssys s) !! t;
  wk_signals t : stasks s' !! t = (if c t && from_option (stop_ends sig) false (tasks (ssys s) !! t) then set_stop 0 0 else id) <$> stasks s !! t;
  wk_groups : sgroups s' = sgroups s;
  wk_actions : actions s' = actions s;
  wk_process : processes s' = processes s;
  wk_cpus : cpus (ssys s') = cpus (ssys s);
  wk_lists : length (wait_lists (ssys s')) = length (wait_lists (ssys s))
}.

Lemma woken_none sig s : woken sig (fun _ => false) s s.
Proof. split; try done; intros t; cbn; rewrite option_fmap_id; done. Qed.
Lemma woken_ext sig c c' s s' : (forall t, c t = c' t) -> woken sig c s s' -> woken sig c' s s'.
Proof. intros H [? ? ? ? ? ? ?]. split; try done; intros t; rewrite <- H; done. Qed.

Lemma ready_step (s : sched) t x l :
  sched_ok s l -> tasks s !! t = Some x -> status x <> ps_dying ->
  exists s', ps_put_to_ready_queue_unsafe t s = Some (tt, s') /\ (forall l', sched_ok s l' -> sched_ok s' l') /\
    (forall u, tasks s' !! u = (if u =? t then to_ready else id) <$> tasks s !! u) /\
    cpus s' = cpus s /\ length (wait_lists s') = length (wait_lists s).
Proof.
  intros Hl Ex Hd. destruct (sched_ready s t x l Hl Ex) as ([] & s1 & E1 & Hok1 & Ht1 & Hc1 & Hw1). exists s1. split_and!; try done.
  - intros l' Hl'. destruct (sched_ready s t x l' Hl' Ex) as ([] & s2 & E2 & Hok2 & _). rewrite E1 in E2. injection E2 as <-. done.
  - intros u. unfold readied in Ht1. rewrite bool_decide_eq_false_2 in Ht1 by done. rewrite Ht1.
    destruct (Z.eqb_spec u t) as [-> | Hne]; [rewrite lookup_insert_eq, Ex; done|].
    rewrite lookup_insert_ne by auto. destruct (tasks s !! u); done.
Qed.

Lemma wake_target_ok s t k x sig :
  sig_ok s -> stasks s !! t = Some k -> tasks (ssys s) !! t = Some x ->
  ends (wake_signal_target NSIG t sig) s (fun _ s' => woken sig (fun u => (u =? t) && wakes s sig t) s s').
Proof.
  intros H Ek Ex. destruct (sg_sched _ H) as [l Hl]. unfold wake_signal_target.
  eapply ends_bind, runs_sig; [exact Ek|]. eapply ends_bind, runs_task; [exact Ex|].
  apply runs_observe. cbv beta. unfold wakes. rewrite Ek, Ex. fold (stop_ends sig x). destruct (stop_ends sig x) eqn:Es; cbn [orb].
  - assert (Hst : status x = ps_stopped) by (unfold stop_ends in Es; apply andb_prop in Es as [Es _]; case_bool_decide; done).
    eapply ends_bind, runs_change; [exact Ek|].
    destruct (ready_step (ssys s) t x l Hl Ex ltac:(congruence)) as (s1 & E1 & Hok1 & Ht1 & Hc1 & Hw1).
    eexists tt, _. split; [unfold in_sched; cbn [ssys set_stasks]; rewrite E1; reflexivity|]. split; cbn; try done.
    + intros u. rewrite Ht1, andb_true_r. done.
    + intros u. rewrite andb_true_r. destruct (Z.eqb_spec u t) as [-> | Hne]; [rewrite lookup_insert_eq, Ek, Ex; cbn; rewrite Es; done|].
      cbn. rewrite lookup_insert_ne by auto. destruct (stasks s !! u); done.
  - destruct (bool_decide (status x = ps_waiting) && wait_interruptible x && _) eqn:Ew; cbn [orb].
    + assert (Hst : status x = ps_waiting) by (apply andb_prop in Ew as [Ew _]; apply andb_prop in Ew as [Ew _]; case_bool_decide; done).
      destruct (ready_step (ssys s) t x l Hl Ex ltac:(congruence)) as (s1 & E1 & Hok1 & Ht1 & Hc1 & Hw1).
      eexists tt, _. split; [unfold in_sched; rewrite E1; reflexivity|]. split; cbn; try done.
      * intros u. rewrite Ht1, andb_true_r. done.
      * intros u. rewrite andb_true_r. destruct (Z.eqb_spec u t) as [-> | Hne]; [rewrite Ek, Ex; cbn; rewrite Es; done|].
        cbn. destruct (stasks s !! u); done.
    + apply ends_ret. eapply woken_ext; [|apply woken_none]. intros u. rewrite andb_false_r. done.
Qed.

Lemma sig_woken_ok sig c s s' : sig_ok s -> woken sig c s s' -> sig_ok s' /\ frame s s'.
Proof.
  intros [H1 H2 H3 H4 H6 H5 H7] [W1 W2 W3 W4 W5 W6 W7 W8].
  assert (Hsig : forall t k', stasks s' !! t = Some k' -> exists k, stasks s !! t = Some k /\ who k' = who k /\ signal k' = signal k).
  { intros t k'. rewrite W3. destruct (stasks s !! t) as [k|]; [|done]. intros [= <-]. exists k. case_match; done. }
  assert (Hdom : forall t, is_Some (stasks s !! t) -> is_Some (stasks s' !! t)) by (intros t [k Ek]; rewrite W3, Ek; eauto).
  assert (Htask : forall t, is_Some (tasks (ssys s) !! t) -> is_Some (tasks (ssys s') !! t)) by (intros t [k Ek]; rewrite W2, Ek; eauto).
  split; split.
  - destruct H1 as [l Hl]. eauto.
  - lia.
  - intros t k' Ek. destruct (Hsig t k' Ek) as (k & E0 & -> & ->). rewrite W4, W5. destruct (H3 t k E0) as (? & ? & ? & ?). auto.
  - rewrite W4. intros g x Eg. destruct (H4 g x Eg). auto.
  - rewrite W4. intros t k' x Ek. destruct (Hsig t k' Ek) as (k & E0 & -> & _). eauto.
  - rewrite W6. auto.
  - unfold action_of. rewrite W5. exact H7.
  - intros t. rewrite W3. destruct (stasks s !! t); constructor. case_match; done.
  - intros g. rewrite W4. destruct (sgroups s !! g); constructor. done.
  - done.
  - done.
  - congruence.
  - intros t Ha y. rewrite W2. destruct (tasks (ssys s) !! t) as [x|] eqn:Ex; [|done]. intros [= <-]. destruct (c t); [intros [? _]; done | exact (Ha x Ex)].
Qed.

Lemma pending_same s s' k : sgroups s' = sgroups s -> ps_pending_signals s' k = ps_pending_signals s k.
Proof. intros E. unfold ps_pending_signals. rewrite E. done. Qed.
Lemma interrupting_same s s' k k' :
  sgroups s' = sgroups s -> actions s' = actions s -> who k' = who k -> signal k' = signal k ->
  ps_interrupting_signals NSIG s' k' = ps_interrupting_signals NSIG s k.
Proof. intros E1 E2 E3 E4. unfold ps_interrupting_signals, ps_pending_signals, action_of. rewrite E1, E2, E3, E4. done. Qed.

Lemma woken_trans sig c1 c2 s s1 s2 :
  (forall t, c1 t = true -> c2 t = false) -> woken sig c1 s s1 -> woken sig c2 s1 s2 -> woken sig (fun t => c1 t || c2 t) s s2.
Proof.
  intros Hc [A1 A2 A3 A4 A5 A6 A7 A8] [B1 B2 B3 B4 B5 B6 B7 B8]. split; try congruence; [auto | |].
  - intros t. rewrite B2, A2. destruct (c1 t) eqn:E1; cbn [orb]; [rewrite (Hc t E1)|]; destruct (tasks (ssys s) !! t); done.
  - intros t. rewrite B3, A3, A2. destruct (c1 t) eqn:E1; cbn [orb andb].
    + rewrite (Hc t E1). cbn [andb]. destruct (stasks s !! t); done.
    + destruct (tasks (ssys s) !! t); destruct (stasks s !! t); done.
Qed.

Definition called (s : sigsys) (g t : Z) : bool :=
  match stasks s !! t, tasks (ssys s) !! t with
  | Some k, Some x => execution (who k) && (thread (who k) =? g) && nz (sighand (who k)) && negb (bool_decide (status x = ps_dying))
  | _, _ => false
  end.

Lemma wakes_after sig c s s1 t : woken sig c s s1 -> wakes s1 sig t = negb (c t) && wakes s sig t.
Proof.
  intros [A1 A2 A3 A4 A5 A6 A7 A8]. unfold wakes. rewrite A2, A3. destruct (stasks s !! t) as [k|]; [|destruct (c t); reflexivity].
  destruct (tasks (ssys s) !! t) as [x|]; [|destruct (c t); reflexivity]. cbn. destruct (c t); [reflexivity|]; cbn [andb negb].
  cbn. rewrite (interrupting_same s s1 k k) by done. done.
Qed.
Lemma called_after sig c s s1 g t : woken sig c s s1 -> c t = false -> called s1 g t = called s g t.
Proof.
  intros [A1 A2 A3 A4 A5 A6 A7 A8] Hc. unfold called. rewrite A2, A3, Hc. cbn.
  destruct (stasks s !! t); [|done]. destruct (tasks (ssys s) !! t); done.
Qed.

Lemma wake_members_ok g sig l : forall s,
  sig_ok s -> (forall t, t ∈ l -> is_Some (stasks s !! t)) ->
  ends (wake_members NSIG g sig l) s (fun _ s' => woken sig (fun t => bool_decide (t ∈ l) && called s g t && wakes s sig t) s s').
Proof.
  induction l as [|t l IH]; intros s H Hl; cbn [wake_members].
  - apply ends_ret. eapply woken_ext; [|apply woken_none]. intros t. rewrite bool_decide_eq_false_2 by set_solver. done.
  - destruct (Hl t ltac:(left)) as [k Ek]. destruct (known_task s t k H Ek) as [x Ex].
    eapply ends_bind, runs_sig; [exact Ek|]. eapply ends_bind, runs_task; [exact Ex|].
    set (c1 := fun u => (u =? t) && called s g t && wakes s sig t).
    assert (H1 : ends (if execution (who k) && (thread (who k) =? g) && nz (sighand (who k)) && negb (bool_decide (status x = ps_dying))
                       then wake_signal_target NSIG t sig else mret tt) s (fun _ s1 => woken sig c1 s s1)).
    { unfold c1, called. rewrite Ek, Ex. destruct (execution (who k) && _ && _ && _).
      - eapply ends_mono; [exact (wake_target_ok s t k x sig H Ek Ex)|]. intros [] s1. apply woken_ext. intros u. rewrite andb_true_r. done.
      - apply ends_ret. eapply woken_ext; [|apply woken_none]. intros u. rewrite andb_false_r. done. }
    eapply ends_bind, ends_mono; [exact H1|]. intros [] s1 Hw1. destruct (sig_woken_ok _ _ _ _ H Hw1) as [Hok1 Hf1].
    eapply ends_mono; [apply (IH s1 Hok1)|].
    + intros u Hu. destruct (Hl u ltac:(right; done)) as [ku Eku]. destruct (frame_known _ _ _ _ Hf1 Eku) as (k' & -> & _). eauto.
    + intros [] s2 Hw2. eapply woken_ext; [|eapply woken_trans; [|exact Hw1 | exact Hw2]].
      * intros u. cbn. rewrite (wakes_after _ _ _ _ u Hw1). destruct (c1 u) eqn:Ec.
        -- cbn [negb andb orb]. unfold c1 in Ec. apply andb_prop in Ec as [Ec Ew]. apply andb_prop in Ec as [Eu Ec]. apply Z.eqb_eq in Eu as ->.
           rewrite Ew, Ec, bool_decide_eq_true_2 by left. done.
        -- rewrite (called_after _ _ _ _ g u Hw1 Ec). cbn [negb andb orb]. destruct (decide (u = t)) as [-> | Hne].
           ++ unfold c1 in Ec. rewrite Z.eqb_refl in Ec. cbn in Ec. rewrite <- !andb_assoc, Ec, !andb_false_r. done.
           ++ f_equal. f_equal. apply bool_decide_ext. set_solver.
      * intros u Hu. cbn. rewrite (wakes_after _ _ _ _ u Hw1), Hu. cbn. rewrite andb_false_r. done.
Qed.

(** ** Raising *)

Lemma raise_pending_ok p sig : 1 <= sig < NSIG -> pending_ok p -> pending_ok (raise sig p).
Proof.
  intros Hs [H1 H2]. split; [apply raise_sigset; done|]. intros e He. destruct (H2 e He) as [Hr Hb]. split; [done|]. intros Hst Hc.
  rewrite raise_has, (Hb Hst Hc) by lia. unfold cancels. rewrite Hst, (proj2 (Z.eqb_neq _ _) Hc), !andb_false_r. apply orb_true_r.
Qed.
Lemma queue_pending_ok p e : 1 <= e_signo e < NSIG -> pending_ok p -> pending_ok (raise (e_signo e) (enqueue e p)).
Proof.
  intros Hs Hp. pose proof (raise_pending_ok p (e_signo e) Hs Hp) as [H1 H2]. split; [exact H1|]. intros e' [He | He]%elem_of_app; [exact (H2 e' He)|].
  apply list_elem_of_singleton in He as ->. split; [done|]. intros _ _. rewrite raise_has, Z.eqb_refl by lia. done.
Qed.

(** [f] adds no signal but [sig] to a pending set. *)
Definition adds (sig : Z) (p p' : pending) : Prop :=
  pending_ok p' /\ forall j, 1 <= j -> has (sig_pending p') j = true -> j = sig \/ has (sig_pending p) j = true.
Lemma raise_adds p sig : 1 <= sig < NSIG -> pending_ok p -> adds sig p (raise sig p).
Proof.
  intros Hs Hp. split; [apply raise_pending_ok; done|]. intros j Hj. rewrite raise_has by lia.
  intros [?%Z.eqb_eq | [? _]%andb_prop]%orb_true_iff; auto.
Qed.
Lemma queue_adds p e : 1 <= e_signo e < NSIG -> pending_ok p -> adds (e_signo e) p (raise (e_signo e) (enqueue e p)).
Proof.
  intros Hs Hp. split; [apply queue_pending_ok; done|]. apply (raise_adds p (e_signo e) Hs Hp).
Qed.

Lemma reacts_wakes s t k x sig :
  sig_ok s -> stasks s !! t = Some k -> tasks (ssys s) !! t = Some x -> sleeping x -> nz (sighand (who k)) = true -> 1 <= sig < NSIG ->
  reacts s k sig -> wakes s sig t = true.
Proof.
  intros H Ek Ex [Hw Hi] Hs Hr [Hp Hm]. unfold wakes. rewrite Ek, Ex, Hi, bool_decide_eq_true_2 by done. apply orb_true_iff. right. cbn.
  apply orb_true_iff. destruct Hm as [[Hm Hd] | Hm].
  - left. apply (nz_iff NSIG); [apply interrupting_sigset; [lia | eapply pending_sigset; eauto]|]. exists sig. split; [done|].
    rewrite interrupting_has, Hs, Hp, Hm, Hd by done. done.
  - right. rewrite nz_land_bit by lia. done.
Qed.

(** The sleepers that are left react to nothing new; [s0] is the state with
    the signal raised. *)
Lemma attentive_woken sig c s s0 s' :
  sig_ok s -> sig_ok s' -> woken sig c s0 s' -> tasks (ssys s0) = tasks (ssys s) ->
  (forall t k x j, stasks s0 !! t = Some k -> tasks (ssys s0) !! t = Some x -> sleeping x -> nz (sighand (who k)) = true ->
     1 <= j < NSIG -> reacts s0 k j ->
     c t = true \/ exists k0, stasks s !! t = Some k0 /\ who k0 = who k /\ reacts s k0 j) ->
  attentive s -> attentive s'.
Proof.
  intros H H' [W1 W2 W3 W4 W5 W6 W7 W8] Et Hre Ha t k' x' Ek Ex Hx. apply not_true_is_false. intros Hi.
  apply (interrupted_iff s' t k' H' Ek) in Hi as (Hn & j & Hj & Hr).
  rewrite W2 in Ex. rewrite W3 in Ek. destruct (c t) eqn:Ec.
  - destruct (tasks (ssys s0) !! t); [injection Ex as <-; destruct Hx; done | done].
  - assert (Ek0 : stasks s0 !! t = Some k') by (destruct (stasks s0 !! t); exact Ek). clear Ek. rename Ek0 into Ek.
    rewrite option_fmap_id in Ex.
    assert (Hr0 : reacts s0 k' j).
    { unfold reacts, disposed, action_of in *. rewrite (pending_same s0 s' k' W4), W5 in Hr. done. }
    destruct (Hre t k' x' j Ek Ex Hx Hn Hj Hr0) as [? | (k0 & E0 & Ew & Hr1)]; [congruence|].
    rewrite Et in Ex. specialize (Ha t k0 x' E0 Ex Hx). apply not_true_iff_false in Ha. apply Ha, (interrupted_iff s t k0 H E0).
    rewrite Ew. eauto.
Qed.

(** What a signal to a group does. *)
Definition group_raised (f : pending -> pending) (g sig : Z) (x : tgroup) (s s' : sigsys) : Prop :=
  let s0 := set_groups (<[g := on_shared f x]> (sgroups s)) s in
  woken sig (fun u => bool_decide (u ∈ members x) && called s0 g u && wakes s0 sig u) s0 s'.

Lemma raise_group s g x f sig :
  sig_ok s -> sgroups s !! g = Some x -> 1 <= sig < NSIG -> adds sig (shared x) (f (shared x)) ->
  ends (change_group g (on_shared f);; x ← get_tgroup g; wake_members NSIG g sig (members x)) s
    (fun _ s' => group_raised f g sig x s s' /\ sig_ok s' /\ frame s s' /\ (attentive s -> attentive s')).
Proof.
  intros H E Hs [Hok Hadd]. destruct (change_group_ok s g x (on_shared f) H E) as [H0 F0]; try done.
  set (s0 := set_groups (<[g := on_shared f x]> (sgroups s)) s) in *.
  eapply ends_bind. exists tt, s0. split; [unfold change_group; rewrite E; done|].
  eapply ends_bind, (runs_tgroup g (on_shared f x)); [apply lookup_insert_eq|].
  eapply ends_mono; [apply (wake_members_ok g sig (members x) s0 H0)|].
  { destruct (sg_group _ H _ _ E) as [_ Hm]. exact Hm. }
  intros [] s' Hw. destruct (sig_woken_ok _ _ _ _ H0 Hw) as [H' F'].
  split_and!; [exact Hw | done | eapply sig_frame_trans; eauto|].
  apply (attentive_woken _ _ s s0 s' H H' Hw eq_refl). intros t k y j Ek Ey Hy Hn Hj [Hp Hr].
  destruct (has (ps_pending_signals s k) j) eqn:Ep; [right; exists k; done|]. left. rewrite pending_has in Hp, Ep. apply orb_false_iff in Ep as [El Eg].
  rewrite El in Hp. cbn [orb] in Hp. apply andb_prop in Hp as [He Hp]. rewrite He in Eg. cbn [andb] in Eg.
  assert (Et : thread (who k) = g).
  { destruct (decide (thread (who k) = g)) as [|Hne]; [done|]. unfold s0 in Hp. cbn in Hp. rewrite lookup_insert_ne in Hp by auto. congruence. }
  assert (j = sig) as ->.
  { unfold s0 in Hp. cbn in Hp. rewrite Et, lookup_insert_eq in Hp. rewrite Et, E in Eg. cbn in Hp, Eg. destruct (Hadd j) as [? | ?]; [lia | done | done|]. congruence. }
  pose proof He as He2. apply andb_prop in He as [He _]. rewrite (reacts_wakes s0 t k y sig H0 Ek Ey Hy Hn Hs); [|split; [|done]].
  - rewrite andb_true_r. rewrite bool_decide_eq_true_2.
    + unfold called. rewrite Ek, Ey, He, Et, Z.eqb_refl, Hn, bool_decide_eq_false_2; [done|]. destruct Hy. congruence.
    + apply (sg_member _ H t k x Ek); [rewrite Et; done | done].
  - rewrite pending_has, El, He2, Hp. done.
Qed.

(** What a signal to a task does. *)
Definition task_raised (f : pending -> pending) (t sig : Z) (k : sigtask) (s s' : sigsys) : Prop :=
  let s0 := set_stasks (<[t := on_local f k]> (stasks s)) s in
  woken sig (fun u => (u =? t) && wakes s0 sig t) s0 s'.

Lemma raise_task s t k f sig :
  sig_ok s -> stasks s !! t = Some k -> 1 <= sig < NSIG -> adds sig (local (signal k)) (f (local (signal k))) ->
  ends (change t (on_local f);; wake_signal_target NSIG t sig) s
    (fun _ s' => task_raised f t sig k s s' /\ sig_ok s' /\ frame s s' /\ (attentive s -> attentive s')).
Proof.
  intros H E Hs [Hok Hadd]. destruct (sg_task _ H _ _ E) as ((_ & Hm & Hsm) & [x Ex] & _).
  destruct (change_ok s t k (on_local f) H E) as [H0 F0]; [done | done|].
  set (s0 := set_stasks (<[t := on_local f k]> (stasks s)) s) in *.
  assert (E0 : stasks s0 !! t = Some (on_local f k)) by apply lookup_insert_eq.
  eapply ends_bind, runs_change; [exact E|]. fold s0.
  eapply ends_mono; [exact (wake_target_ok s0 t _ x sig H0 E0 Ex)|].
  intros [] s' Hw. destruct (sig_woken_ok _ _ _ _ H0 Hw) as [H' F'].
  split_and!; [exact Hw | done | eapply sig_frame_trans; eauto|].
  apply (attentive_woken _ _ s s0 s' H H' Hw eq_refl). intros u ku y j Eu Ey Hy Hn Hj Hr.
  destruct (decide (u = t)) as [-> | Hne].
  - rewrite E0 in Eu. injection Eu as <-. destruct (has (ps_pending_signals s k) j) eqn:Ep; [right; exists k; destruct Hr; done|].
    assert (j = sig) as ->.
    { destruct Hr as [Hp _]. rewrite pending_has in Hp, Ep. apply orb_false_iff in Ep as [El Eg]. apply orb_true_iff in Hp as [Hp | Hp].
      - cbn in Hp, El. apply andb_prop in Hp as [Hh Hp]. rewrite Hh in El. cbn in El. destruct (Hadd j) as [? | ?]; [lia | done | done|]. congruence.
      - cbn in Hp, Eg. congruence. }
    left. rewrite Z.eqb_refl. exact (reacts_wakes s0 t _ y sig H0 E0 Ey Hy Hn Hs Hr).
  - right. exists ku. unfold s0 in Eu. cbn in Eu. rewrite lookup_insert_ne in Eu by auto. done.
Qed.

(** ** Programs that send *)

Lemma keeping_of {A} b (m : G A) s (Q : A -> sigsys -> Prop) :
  ends m s (fun x s' => Q x s' /\ sig_ok s' /\ frame s s' /\ (attentive s -> attentive s')) -> keeping b m s.
Proof. intros H. eapply ends_mono; [exact H|]. intros x s' (_ & ? & ? & ?). auto. Qed.

Lemma keeping_queue b s t k sig d :
  sig_ok s -> stasks s !! t = Some k -> 1 <= sig < NSIG -> keeping b (queue_to NSIG t sig d) s.
Proof.
  intros H E Hs. destruct d; unfold queue_to.
  - destruct (sg_task _ H _ _ E) as ((Hp & _) & _). eapply keeping_of, (raise_task s t k (raise sig) sig); try done. apply raise_adds; done.
  - destruct (known_group s t k H E) as [x Ex]. unfold ps_queue_group_signal_unsafe. apply (keeping_sig _ _ t k); [done|].
    eapply keeping_of, (raise_group s (thread (who k)) x (raise sig) sig); try done. apply raise_adds; [done|]. apply (sg_group _ H _ _ Ex).
Qed.

Lemma keeping_queue_event b s t k e d :
  sig_ok s -> stasks s !! t = Some k -> 1 <= e_signo e < NSIG ->
  keeping b (on_pending t d (enqueue e);; queue_to NSIG t (e_signo e) d) s.
Proof.
  intros H E Hs. destruct (known_group s t k H E) as [x Ex]. destruct d.
  - destruct (sg_task _ H _ _ E) as ((Hp & _) & _).
    pose proof (keeping_of b _ _ _ (raise_task s t k (fun p => raise (e_signo e) (enqueue e p)) (e_signo e) H E Hs (queue_adds _ e Hs Hp))) as HK.
    unfold keeping, ends in *. replace ((on_pending t true (enqueue e);; queue_to NSIG t (e_signo e) true) s)
      with ((change t (on_local (fun p => raise (e_signo e) (enqueue e p)));; wake_signal_target NSIG t (e_signo e)) s); [exact HK|].
    unfold queue_to, ps_queue_signal_unsafe, on_pending, mbind, st_bind, get_sig, change. rewrite E. cbn. rewrite E. cbn.
    rewrite lookup_insert_eq. cbn. unfold set_stasks. cbn. rewrite insert_insert_eq. done.
  - destruct (sg_group _ H _ _ Ex) as [Hp _].
    pose proof (keeping_of b _ _ _ (raise_group s (thread (who k)) x (fun p => raise (e_signo e) (enqueue e p)) (e_signo e) H Ex Hs (queue_adds _ e Hs Hp))) as HK.
    unfold keeping, ends in *. replace ((on_pending t false (enqueue e);; queue_to NSIG t (e_signo e) false) s)
      with ((change_group (thread (who k)) (on_shared (fun p => raise (e_signo e) (enqueue e p)));;
             x ← get_tgroup (thread (who k)); wake_members NSIG (thread (who k)) (e_signo e) (members x)) s); [exact HK|].
    unfold queue_to, ps_queue_group_signal_unsafe, on_pending, mbind, st_bind, get_sig, change_group. rewrite E. cbn. rewrite Ex. cbn. rewrite E. cbn.
    rewrite lookup_insert_eq. cbn. unfold set_groups. cbn. rewrite insert_insert_eq. done.
Qed.

(** The pending set of a task, or of its group. *)
Lemma keeping_pending {A} b (f : pending -> G A) s t k d :
  sig_ok s -> stasks s !! t = Some k -> (forall p, pending_ok p -> keeping b (f p) s) -> keeping b (get_pending t d ≫= f) s.
Proof.
  intros H E Hf. destruct (known_group s t k H E) as [x Ex]. destruct (sg_task _ H _ _ E) as ((Hp & _) & _). destruct (sg_group _ H _ _ Ex) as [Hg _].
  apply ends_bind. unfold get_pending. eapply ends_bind, runs_sig; [exact E|].
  destruct d; [apply ends_ret, Hf; done|]. eapply ends_bind, runs_tgroup; [exact Ex|]. apply ends_ret, Hf. done.
Qed.

(** A change that keeps the signals and loses no event of one that stays. *)
Lemma keeping_on_pending b s t k d f :
  sig_ok s -> stasks s !! t = Some k ->
  (forall p, pending_ok p -> pending_ok (f p) /\ forall j, 1 <= j < NSIG -> has (sig_pending (f p)) j = true -> has (sig_pending p) j = true) ->
  keeping b (on_pending t d f) s.
Proof.
  intros H E Hf. destruct (known_group s t k H E) as [x Ex]. destruct (sg_task _ H _ _ E) as ((Hp & Hm & Hsm) & _). destruct (sg_group _ H _ _ Ex) as [Hg _].
  unfold on_pending. apply (keeping_sig _ _ t k); [done|]. destruct d.
  - destruct (Hf _ Hp) as [? ?]. apply (keeping_change_shrink _ _ t k); done.
  - destruct (Hf _ Hg) as [? ?]. apply (keeping_group_shrink _ _ _ x); done.
Qed.
Lemma set_info_shrinks sig i p : pending_ok p -> pending_ok (set_info sig i p) /\
  forall j, 1 <= j < NSIG -> has (sig_pending (set_info sig i p)) j = true -> has (sig_pending p) j = true.
Proof. intros [H1 H2]. split; [split; done | done]. Qed.
End Invariant.
