(* ===== verification/SignalTake.v ===== *)
(** * Signals: taking and delivering

    What taking a signal does, that discarding the ignored ones and looking
    for one to deliver come to an end, and what they end with. *)

From S2P Require Import Prelude Slots SlotsProof RbTree RbTreeInv Timer TimerProof Sched SchedInv SchedKeeps SchedProof SchedCorrect Signal SignalProof SignalInv.

#[local] Arguments without : simpl never.

Section Take.
Context (NSIG : Z) (HN : SIGRTMIN_KERNEL < NSIG).
Abbreviation sig_ok := (sig_ok NSIG).
Abbreviation pending_ok := (pending_ok NSIG).

(** ** One event less *)

Lemma consumed_ok sig p p' i : 1 <= sig -> pending_ok p -> sigset NSIG (sig_pending p') -> consumed sig p p' i -> pending_ok p'.
Proof.
  intros Hs [_ H2] Hset [K1 K2 K3 K4 K5 K6 K7]. split; [done|]. intros e He. destruct (H2 e (K3 e He)) as [Hr Hb]. split; [done|].
  intros Hst Hc. rewrite K6, (Hb Hst Hc) by lia. cbn. destruct (Z.eqb_spec (e_signo e) sig) as [E | Hne]; [|done]. cbn.
  rewrite bool_decide_eq_false_2; [done|]. intros Hn.
  assert (Hi : e ∈ of_signal sig (pending_queue p')) by (apply list_elem_of_filter; done). rewrite Hn in Hi. set_solver.
Qed.

(** The number of times a signal can be taken from a pending set. *)
Definition weight (p : pending) : nat :=
  length (filter (fun j => has (sig_pending p) j = true) (seqZ 1 (NSIG - 1))) + length (pending_queue p).

Lemma filter_shrinks {A} (P Q : A -> Prop) `{forall x, Decision (P x), forall x, Decision (Q x)} l :
  (forall x, x ∈ l -> P x -> Q x) -> (length (filter P l) <= length (filter Q l))%nat.
Proof.
  intros HPQ. induction l as [|x l IH]; [done|]. rewrite !filter_cons. specialize (IH (fun y Hy => HPQ y ltac:(right; done))).
  destruct (decide (P x)) as [Hp | Hp].
  - rewrite decide_True by (apply HPQ; [left | done]). cbn. lia.
  - destruct (decide (Q x)); cbn; lia.
Qed.
Lemma filter_shrinks_lt {A} (P Q : A -> Prop) `{forall x, Decision (P x), forall x, Decision (Q x)} l y :
  (forall x, x ∈ l -> P x -> Q x) -> y ∈ l -> Q y -> ~ P y -> (length (filter P l) < length (filter Q l))%nat.
Proof.
  intros HPQ Hy Hq Hp. apply list_elem_of_split in Hy as (l1 & l2 & ->). rewrite !filter_app, !length_app, !filter_cons.
  rewrite decide_False, decide_True by done. cbn.
  pose proof (filter_shrinks P Q l1 (fun x Hx => HPQ x ltac:(set_solver))). pose proof (filter_shrinks P Q l2 (fun x Hx => HPQ x ltac:(set_solver))). lia.
Qed.

Lemma consumed_weight sig p p' i : 1 <= sig < NSIG -> has (sig_pending p) sig = true -> consumed sig p p' i -> (weight p' < weight p)%nat.
Proof.
  intros Hs Hb [K1 K2 K3 K4 K5 K6 K7]. unfold weight.
  assert (Hsub : forall j, j ∈ seqZ 1 (NSIG - 1) -> has (sig_pending p') j = true -> has (sig_pending p) j = true).
  { intros j Hj%elem_of_seqZ. rewrite K6 by lia. intros [? _]%andb_prop. done. }
  destruct (decide (of_signal sig (pending_queue p) = [])) as [Hq | Hq]; [rewrite bool_decide_eq_true_2 in K4 by done | rewrite bool_decide_eq_false_2 in K4 by done].
  - enough (length (filter (fun j => has (sig_pending p') j = true) (seqZ 1 (NSIG - 1))) < length (filter (fun j => has (sig_pending p) j = true) (seqZ 1 (NSIG - 1))))%nat by lia.
    apply (filter_shrinks_lt _ _ _ sig); [done | apply elem_of_seqZ; lia | done|].
    rewrite K6, Z.eqb_refl, K1, Hq by lia. cbn. rewrite andb_false_r. done.
  - pose proof (filter_shrinks (fun j => has (sig_pending p') j = true) (fun j => has (sig_pending p) j = true) (seqZ 1 (NSIG - 1)) Hsub). lia.
Qed.

(** What can still be taken by a task. *)
Definition total (s : sigsys) (k : sigtask) : nat :=
  weight (local (signal k)) + from_option (fun g => weight (shared g)) 0%nat (sgroups s !! thread (who k)).
Lemma total_fuel s k : (total s k < discard_fuel NSIG s k)%nat.
Proof.
  unfold total, discard_fuel, weight.
  assert (Hb : forall (P : Z -> Prop) (HP : forall j, Decision (P j)), (length (filter P (seqZ 1 (NSIG - 1))) <= Z.to_nat (NSIG - 1))%nat).
  { intros P HP. pose proof (length_filter P (seqZ 1 (NSIG - 1))) as Hl. rewrite length_seqZ in Hl. done. }
  pose proof (Hb (fun j => has (sig_pending (local (signal k))) j = true) _).
  destruct (sgroups s !! thread (who k)) as [g|]; cbn; [|lia].
  pose proof (Hb (fun j => has (sig_pending (shared g)) j = true) _). lia.
Qed.

(** ** Taking *)

(** The pending set of a task or of its group, and the state with another in
    its place. *)
Definition pending_at (s : sigsys) (k : sigtask) (d : bool) : option pending :=
  if d then Some (local (signal k)) else shared <$> sgroups s !! thread (who k).
Definition with_pending (s : sigsys) (t : Z) (k : sigtask) (d : bool) (p : pending) : sigsys :=
  if d then set_stasks (<[t := on_local (fun _ => p) k]> (stasks s)) s
  else match sgroups s !! thread (who k) with
       | Some x => set_groups (<[thread (who k) := on_shared (fun _ => p) x]> (sgroups s)) s
       | None => s
       end.

(** The lowest of the pending signals of the mask goes, a signal to the task
    before one to its group. *)
Definition took (t : Z) (k : sigtask) (mask : Z) (s : sigsys) (r : option (Z * mos_signal_info)) (s' : sigsys) : Prop :=
  match r with
  | None => s' = s /\ Z.land (ps_pending_signals s k) mask = 0
  | Some (sig, i) =>
      1 <= sig < NSIG /\ lowest (Z.land (ps_pending_signals s k) mask) sig /\
      let d := has (sig_pending (local (signal k))) sig in
      exists p p', pending_at s k d = Some p /\ has (sig_pending p) sig = true /\ consumed sig p p' i /\
        pending_ok p' /\ s' = with_pending s t k d p'
  end.

Lemma take_ok s t k mask :
  sig_ok s -> stasks s !! t = Some k -> ends (ps_take_signal_info NSIG t mask) s (took t k mask s).
Proof.
  intros H E. destruct (known_group NSIG s t k H E) as [x Ex]. destruct (sg_task _ _ H _ _ E) as ((Hp & _) & _). destruct (sg_group _ _ H _ _ Ex) as [Hg _].
  unfold ps_take_signal_info. eapply ends_bind, runs_sig; [exact E|]. apply runs_observe. cbv beta.
  pose proof (ctz_lowest NSIG _ (sigset_land NSIG _ mask (pending_sigset NSIG HN s t k H E))) as Hz.
  destruct (ctz_from _ _ _) as [c|]; [|apply ends_ret; done]. destruct Hz as [Hr Hlow]. cbv zeta.
  rewrite nz_land_bit by lia. set (d := has (sig_pending (local (signal k))) (c + 1)).
  set (p := if d then local (signal k) else shared x).
  assert (Hpo : pending_ok p) by (unfold p; destruct d; done).
  assert (Hbit : has (sig_pending p) (c + 1) = true).
  { unfold p, d. destruct (has (sig_pending (local (signal k))) (c + 1)) eqn:Eb; [done|]. destruct Hlow as [Hb _].
    rewrite has_land, pending_has, Eb, andb_false_r in Hb. apply andb_prop in Hb as [Hb _]. cbn in Hb. apply andb_prop in Hb as [_ Hb]. rewrite Ex in Hb. done. }
  pose proof (consume_spec (c + 1) p ltac:(lia)) as Hc. pose proof (consume_sigset NSIG (c + 1) p (po_set _ _ Hpo)) as Hset.
  assert (Eg : ends (get_pending t d) s (fun q s' => q = p /\ s' = s)).
  { unfold get_pending. eapply ends_bind, runs_sig; [exact E|]. unfold p. destruct d; [apply ends_ret; done|].
    eapply ends_bind, runs_tgroup; [exact Ex|]. apply ends_ret. done. }
  eapply ends_bind, ends_mono; [exact Eg|]. intros q s' [-> ->]. destruct (consume (c + 1) p) as [i p'] eqn:Ec. cbn [fst snd] in *.
  eapply ends_bind. exists tt, (with_pending s t k d p'). split.
  { unfold on_pending, with_pending, mbind, st_bind, get_sig. rewrite E. cbn. destruct d; unfold change, change_group.
    - rewrite E. done.
    - rewrite Ex. done. }
  apply ends_ret. split; [done|]. split; [done|]. cbv zeta. fold d. exists p, p'. split; [|split; [done|]; split; [done|]; split; [|done]].
  - unfold pending_at, p. destruct d; [done|]. rewrite Ex. done.
  - eapply consumed_ok; eauto. lia.
Qed.

Lemma with_pending_ok s t k d p p' :
  sig_ok s -> stasks s !! t = Some k -> pending_at s k d = Some p -> pending_ok p' ->
  (forall j, 1 <= j < NSIG -> has (sig_pending p') j = true -> has (sig_pending p) j = true) ->
  sig_ok (with_pending s t k d p') /\ frame s (with_pending s t k d p') /\ (attentive NSIG s -> attentive NSIG (with_pending s t k d p')).
Proof.
  intros H E Ep Hp' Hsh. unfold with_pending, pending_at in *. destruct d.
  - injection Ep as <-. destruct (sg_task _ _ H _ _ E) as ((_ & Hm & Hsm) & _).
    destruct (keeping_change_shrink NSIG HN true s t k (on_local (fun _ => p')) H E) as ([] & s' & E' & ? & ? & ?); try done.
    unfold change in E'. rewrite E in E'. injection E' as <-. auto.
  - destruct (sgroups s !! thread (who k)) as [x|] eqn:Ex; [|done]. injection Ep as <-.
    destruct (keeping_group_shrink NSIG HN true s (thread (who k)) x (on_shared (fun _ => p')) H Ex) as ([] & s' & E' & ? & ? & ?); try done.
    unfold change_group in E'. rewrite Ex in E'. injection E' as <-. auto.
Qed.

(** The task afterwards: only its pending signals may be fewer. *)
Record drained (s : sigsys) (k : sigtask) (s' : sigsys) (k' : sigtask) : Prop := {
  dr_who : who k' = who k;
  dr_mask : sig_mask (signal k') = sig_mask (signal k);
  dr_saved : saved_sigmask (signal k') = saved_sigmask (signal k) /\ restore_sigmask (signal k') = restore_sigmask (signal k);
  dr_sched : ssys s' = ssys s;
  dr_actions : actions s' = actions s;
  dr_pending j : 1 <= j -> has (ps_pending_signals s' k') j = true -> has (ps_pending_signals s k) j = true;
  dr_total : (total s' k' <= total s k)%nat
}.
Lemma drained_refl s k : drained s k s k.
Proof. split; done. Qed.
Lemma drained_trans s1 k1 s2 k2 s3 k3 : drained s1 k1 s2 k2 -> drained s2 k2 s3 k3 -> drained s1 k1 s3 k3.
Proof.
  intros [A1 A2 [A3 A4] A5 A6 A7 A8] [B1 B2 [B3 B4] B5 B6 B7 B8].
  split; [congruence | congruence | split; congruence | congruence | congruence | auto | lia].
Qed.

Lemma took_drains s t k mask sig i s' :
  sig_ok s -> stasks s !! t = Some k -> took t k mask s (Some (sig, i)) s' ->
  sig_ok s' /\ frame s s' /\ (attentive NSIG s -> attentive NSIG s') /\
  exists k', stasks s' !! t = Some k' /\ drained s k s' k' /\ (total s' k' < total s k)%nat /\
    forall j, 1 <= j -> j <> sig -> has (ps_pending_signals s' k') j = has (ps_pending_signals s k) j.
Proof.
  intros H E (Hs & _ & p & p' & Ep & Hb & Hc & Hp' & ->).
  assert (Hsh : forall j, 1 <= j < NSIG -> has (sig_pending p') j = true -> has (sig_pending p) j = true).
  { intros j Hj. rewrite (cn_has _ _ _ _ Hc) by lia. intros [? _]%andb_prop. done. }
  assert (Hne : forall j, 1 <= j -> j <> sig -> has (sig_pending p') j = has (sig_pending p) j).
  { intros j Hj Hn. rewrite (cn_has _ _ _ _ Hc), (proj2 (Z.eqb_neq j sig) Hn) by lia. apply andb_true_r. }
  assert (Hle : forall j, 1 <= j -> has (sig_pending p') j = true -> has (sig_pending p) j = true).
  { intros j Hj. rewrite (cn_has _ _ _ _ Hc) by lia. intros [? _]%andb_prop. done. }
  destruct (with_pending_ok s t k _ p p' H E Ep Hp' Hsh) as (Ok & Hf & Ha).
  split_and!; [done | done | done|]. pose proof (consumed_weight sig p p' i Hs Hb Hc) as Hw.
  unfold with_pending, pending_at in *. destruct (has (sig_pending (local (signal k))) sig) eqn:Ed.
  - injection Ep as <-. exists (on_local (fun _ => p') k). split; [apply lookup_insert_eq|]. split; [split; try done|]; [| |split].
    + intros j Hj. rewrite !pending_has. cbn. intros Hi. apply orb_true_iff in Hi as [Hi | Hi]; apply orb_true_iff; [left | right; done].
      apply andb_prop in Hi as [-> Hi]. rewrite (Hle j Hj Hi). done.
    + unfold total. cbn. lia.
    + unfold total. cbn. lia.
    + intros j Hj Hn. rewrite !pending_has. cbn. rewrite (Hne j Hj Hn). done.
  - destruct (sgroups s !! thread (who k)) as [x|] eqn:Ex; [|done]. injection Ep as <-. exists k. split; [done|].
    split; [split; try done|]; [| |split].
    + intros j Hj. rewrite !pending_has. cbn. rewrite lookup_insert_eq, Ex. cbn. intros Hi.
      apply orb_true_iff in Hi as [Hi | Hi]; apply orb_true_iff; [left; done | right].
      apply andb_prop in Hi as [-> Hi]. rewrite (Hle j Hj Hi). done.
    + unfold total. cbn. rewrite lookup_insert_eq, Ex. cbn. lia.
    + unfold total. cbn. rewrite lookup_insert_eq, Ex. cbn. lia.
    + intros j Hj Hn. rewrite !pending_has. cbn. rewrite lookup_insert_eq, Ex. cbn. rewrite (Hne j Hj Hn). done.
Qed.

Lemma keeping_take b s t k mask : sig_ok s -> stasks s !! t = Some k -> keeping NSIG b (ps_take_signal_info NSIG t mask) s.
Proof.
  intros H E. eapply ends_mono; [exact (take_ok s t k mask H E)|]. intros [[sig i]|] s' Ht.
  - destruct (took_drains s t k mask sig i s' H E Ht) as (? & ? & ? & _). auto.
  - destruct Ht as [-> _]. split_and!; [done | apply sig_frame_refl | done].
Qed.

(** ** Discarding and picking *)

Definition interrupts (s : sigsys) (k : sigtask) (j : Z) : bool := has (ps_interrupting_signals NSIG s k) j.

Lemma interrupts_set s t k : sig_ok s -> stasks s !! t = Some k -> sigset NSIG (ps_interrupting_signals NSIG s k).
Proof. intros H E. apply interrupting_sigset; [unfold SIGRTMIN_KERNEL in HN; lia | eapply pending_sigset; eauto]. Qed.

Lemma ignored_set s t k : sig_ok s -> stasks s !! t = Some k -> sigset NSIG (ignored_signals NSIG s k).
Proof. intros H E. unfold ignored_signals. apply sigset_ldiff, sigset_ldiff. eapply pending_sigset; eauto. Qed.

(** Taking a signal that does not interrupt leaves those that do. *)
Lemma drained_interrupts s k s' k' sig :
  drained s k s' k' -> (forall j, 1 <= j -> j <> sig -> has (ps_pending_signals s' k') j = has (ps_pending_signals s k) j) ->
  forall j, 1 <= j < NSIG -> (j = sig -> interrupts s k sig = false) -> interrupts s' k' j = interrupts s k j.
Proof.
  intros [D1 D2 D3 D4 D5 D6 D7] Hne j Hj Hi. unfold interrupts in *. destruct (decide (j = sig)) as [-> | Hn].
  - rewrite (Hi eq_refl). specialize (Hi eq_refl). rewrite interrupting_has in * by done. unfold disposed, action_of in *. rewrite D1, D2, D5 in *.
    destruct (has (ps_pending_signals s' k') sig) eqn:Ep; [|cbn; apply andb_false_r]. rewrite (D6 sig) in Hi by (done || lia). done.
  - rewrite !interrupting_has by done. unfold disposed, action_of. rewrite D1, D2, D5, Hne by (done || lia). done.
Qed.

Lemma discard_ok t : forall fuel s k,
  sig_ok s -> stasks s !! t = Some k -> (total s k < fuel)%nat ->
  ends (discard_loop NSIG fuel t) s (fun _ s' => sig_ok s' /\ frame s s' /\ (attentive NSIG s -> attentive NSIG s') /\
    exists k', stasks s' !! t = Some k' /\ drained s k s' k' /\ forall j, 1 <= j < NSIG -> interrupts s' k' j = interrupts s k j).
Proof.
  induction fuel as [|fuel IH]; intros s k H E Hf; [lia|]. cbn [discard_loop].
  assert (Hdone : sig_ok s /\ frame s s /\ (attentive NSIG s -> attentive NSIG s) /\
    exists k', stasks s !! t = Some k' /\ drained s k s k' /\ forall j, 1 <= j < NSIG -> interrupts s k' j = interrupts s k j).
  { split_and!; [done | apply sig_frame_refl | done|]. exists k. split_and!; [done | apply drained_refl | done]. }
  eapply ends_bind, runs_sig; [exact E|]. apply runs_observe. cbv beta zeta.
  destruct (nz (ignored_signals NSIG s k)); cbn [negb]; [|apply ends_ret; done].
  eapply ends_bind, ends_mono; [exact (take_ok s t k _ H E)|]. intros [[sig i]|] s1 Ht; [|destruct Ht as [-> _]; apply ends_ret; done].
  destruct (took_drains s t k _ sig i s1 H E Ht) as (Ok1 & F1 & A1 & k1 & E1 & D1 & T1 & P1).
  destruct Ht as (Hs & [Hlow _] & _). rewrite has_land in Hlow. apply andb_prop in Hlow as [_ Hig].
  assert (Hi : interrupts s k sig = false).
  { unfold ignored_signals in Hig. rewrite has_ldiff in Hig. apply andb_prop in Hig as [_ Hig]. apply negb_true_iff in Hig. done. }
  eapply ends_mono; [apply (IH s1 k1 Ok1 E1); lia|]. intros [] s2 (Ok2 & F2 & A2 & k2 & E2 & D2 & I2).
  split_and!; [done | eapply sig_frame_trans; eauto | auto|]. exists k2. split_and!; [done | eapply drained_trans; eauto|].
  intros j Hj. rewrite I2 by done. apply (drained_interrupts s k s1 k1 sig D1 P1 j Hj). done.
Qed.

Lemma pick_ok s t k :
  sig_ok s -> stasks s !! t = Some k ->
  ends (pick_signal NSIG t) s (fun r s' => sig_ok s' /\ frame s s' /\ (attentive NSIG s -> attentive NSIG s') /\
    exists k', stasks s' !! t = Some k' /\ drained s k s' k' /\
      match r with
      | None => forall j, 1 <= j < NSIG -> interrupts s k j = false /\ interrupts s' k' j = false
      | Some (sig, _) => 1 <= sig < NSIG /\ interrupts s k sig = true /\ (forall j, 1 <= j < sig -> interrupts s k j = false) /\
          (total s' k' < total s k)%nat
      end).
Proof.
  intros H E. unfold pick_signal. eapply ends_bind, runs_sig; [exact E|]. eapply ends_bind. apply runs_observe. cbv beta.
  eapply ends_mono; [apply (discard_ok t _ s k H E), total_fuel|]. intros [] s1 (Ok1 & F1 & A1 & k1 & E1 & D1 & I1).
  eapply ends_bind, runs_sig; [exact E1|]. apply runs_observe. cbv beta.
  eapply ends_mono; [exact (take_ok s1 t k1 _ Ok1 E1)|]. intros [[sig i]|] s2 Ht.
  - destruct (took_drains s1 t k1 _ sig i s2 Ok1 E1 Ht) as (Ok2 & F2 & A2 & k2 & E2 & D2 & T2 & P2).
    destruct Ht as (Hs & [Hb Hl] & _). rewrite has_land in Hb. apply andb_prop in Hb as [_ Hb].
    split_and!; [done | eapply sig_frame_trans; eauto | auto|]. exists k2. split; [done|]. split; [eapply drained_trans; eauto|].
    split; [done|]. split; [rewrite <- I1 by done; exact Hb|]. split.
    + intros j Hj. rewrite <- I1 by lia. specialize (Hl j Hj). rewrite has_land in Hl. apply andb_false_iff in Hl as [Hp | Hi]; [|exact Hi].
      unfold interrupts. rewrite interrupting_has, Hp by lia. apply andb_false_r.
    + pose proof (dr_total _ _ _ _ D1). lia.
  - destruct Ht as [-> Hz]. split_and!; [done | done | done|]. exists k1. split; [done|]. split; [done|]. intros j Hj.
    assert (Hi : interrupts s1 k1 j = false).
    { destruct (interrupts s1 k1 j) eqn:Ei; [|done]. assert (Hx : has (Z.land (ps_pending_signals s1 k1) (ps_interrupting_signals NSIG s1 k1)) j = true).
      { rewrite has_land. unfold interrupts in Ei. rewrite Ei, andb_true_r. rewrite interrupting_has in Ei by done.
        apply andb_prop in Ei as [_ Ei]. apply andb_prop in Ei as [Ei _]. apply andb_prop in Ei as [Ei _]. done. }
      rewrite Hz, has_0 in Hx. done. }
    rewrite <- I1 by done. done.
Qed.

(** ** Delivering *)

Definition handler_in (s : sigsys) (k : sigtask) (sig : Z) : Z := sa_handler (action_of s (sighand (who k)) sig).

(** The action is returned as it was, and reset if it asks for that. *)
Lemma claim_ok s t k sig :
  sig_ok s -> stasks s !! t = Some k -> nz (sighand (who k)) = true -> ignorable sig (handler_in s k sig) = false ->
  ends (ps_claim_signal_action t sig) s (fun a s' =>
    a = action_of s (sighand (who k)) sig /\ sig_ok s' /\ frame s s' /\ (attentive NSIG s -> attentive NSIG s') /\
    stasks s' = stasks s /\ sgroups s' = sgroups s /\ ssys s' = ssys s /\
    (sa_handler a = SIG_DFL -> forall h j, sa_handler (action_of s' h j) = sa_handler (action_of s h j))).
Proof.
  intros H E Hh Hi. destruct (sg_task _ _ H _ _ E) as (_ & _ & _ & Ha). destruct (Ha Hh) as [m Em].
  unfold ps_claim_signal_action. eapply ends_bind, runs_sig; [exact E|]. apply runs_observe. cbv beta zeta. destruct (nz (Z.land _ _)).
  - set (a := Action SIG_DFL _ _ _). destruct (keeping_put_action NSIG HN true s (sighand (who k)) m sig a H Em) as ([] & s' & E' & ? & ? & ?); [done | done|].
    eapply ends_bind. exists tt, s'. split; [done|]. apply ends_ret. unfold put_action in E'. rewrite Em in E'. injection E' as <-.
    split_and!; auto. intros Hd h j. rewrite (action_put s _ m) by done. case_decide as Hc; [|done]. destruct Hc as [-> ->]. done.
  - eapply ends_bind, ends_ret, ends_ret. split_and!; auto. apply sig_frame_refl.
Qed.

Lemma restore_ok s t k :
  sig_ok s -> stasks s !! t = Some k -> awake s t ->
  ends (maybe_restore_sigmask t) s (fun _ s' => sig_ok s' /\ frame s s' /\ (attentive NSIG s -> attentive NSIG s') /\
    s' = set_stasks (<[t := on_signal restored k]> (stasks s)) s).
Proof.
  intros H E Hw. destruct (sg_task _ _ H _ _ E) as ((Hp & Hm & Hsm) & _).
  destruct (keeping_change_self NSIG HN true s t k (on_signal restored) H E) as ([] & s' & E' & ? & ? & ?); [done | | done|].
  { cbn. unfold restored. destruct (restore_sigmask _); split_and!; done. }
  exists tt, s'. split; [exact E'|]. unfold change in E'. rewrite E in E'. injection E' as <-. auto.
Qed.

(** The same signals, or fewer, after a change of the mask. *)
Record carries (s : sigsys) (k : sigtask) (s' : sigsys) (k' : sigtask) : Prop := {
  ca_who : who k' = who k;
  ca_sched : ssys s' = ssys s;
  ca_handlers h j : sa_handler (action_of s' h j) = sa_handler (action_of s h j);
  ca_pending j : 1 <= j -> has (ps_pending_signals s' k') j = true -> has (ps_pending_signals s k) j = true;
  ca_total : (total s' k' <= total s k)%nat
}.
Lemma carries_trans s1 k1 s2 k2 s3 k3 : carries s1 k1 s2 k2 -> carries s2 k2 s3 k3 -> carries s1 k1 s3 k3.
Proof.
  intros [A1 A2 A3 A4 A5] [B1 B2 B3 B4 B5]. split; [congruence | congruence | | auto | lia]. intros h j. rewrite B3, A3. done.
Qed.
Lemma drained_carries s k s' k' : drained s k s' k' -> carries s k s' k'.
Proof. intros [D1 D2 D3 D4 D5 D6 D7]. split; try done. intros h j. unfold action_of. rewrite D5. done. Qed.

(** What the next signal comes to; [k] is the task before and [k'] after. *)
Definition outcome (s : sigsys) (k : sigtask) (x : task) (v : verdict) (s' : sigsys) (k' : sigtask) : Prop :=
  match v with
  | Next => carries s k s' k' /\ (total s' k' < total s k)%nat
  | Done => (forall j, 1 <= j < NSIG -> interrupts s' k' j = false) \/ psid x = 1 /\ interrupts s k SIGKILL = true
  | Exits sig => psid x <> 1 /\ (1 <= sig < NSIG /\ interrupts s k sig = true) /\ (sig = SIGKILL \/ handler_in s k sig = SIG_DFL /\ stops sig = false)
  | Stops sig => psid x <> 1 /\ (1 <= sig < NSIG /\ interrupts s k sig = true) /\ handler_in s k sig = SIG_DFL /\ stops sig = true
  | Delivers sig a _ =>
      (1 <= sig < NSIG /\ interrupts s k sig = true) /\ a = action_of s (sighand (who k)) sig /\ sig <> SIGKILL /\ sig <> SIGSTOP /\
      sa_handler a <> SIG_DFL /\ sa_handler a <> SIG_IGN
  end.

Lemma keeping_ready b s t : sig_ok s -> is_Some (tasks (ssys s) !! t) -> keeping NSIG b (in_sched (ps_put_to_ready_queue_unsafe t)) s.
Proof.
  intros H [x Ex]. destruct (sg_sched _ _ H) as [l Hl]. apply keeping_sched; [done | done | eauto with evolves|].
  eapply ends_mono; [exact (sched_ready (ssys s) t x l Hl Ex)|]. intros [] k [? _]. eauto.
Qed.

Lemma keeping_notify b s t k : sig_ok s -> stasks s !! t = Some k -> keeping NSIG b (ptrace_notify_parent_unsafe NSIG t) s.
Proof.
  intros H E. unfold ptrace_notify_parent_unsafe. apply (keeping_sig NSIG _ _ t k); [done|].
  destruct (nz (ppid (who k))); cbn [negb]; [|apply keeping_ret; done]. apply keeping_observe. cbv beta.
  destruct (ps_find_process_unsafe s (ppid (who k))) as [q|] eqn:Eq; [|apply keeping_ret; done].
  destruct (known_process NSIG s _ q H Eq) as [kq Ekq]. apply (keeping_sig NSIG _ _ q kq); [done|].
  destruct (nz (sighand (who kq))); cbn [negb]; [|apply keeping_ret; done].
  apply keeping_bind; [apply (keeping_queue NSIG HN b s q kq SIGCHLD false H Ekq); unfold SIGCHLD, SIGRTMIN_KERNEL in *; lia|].
  intros [] s' _ H' F'. apply keeping_ready; [done|]. apply (fr_sched _ _ F'). destruct (known_task NSIG s q kq H Ekq); eauto.
Qed.

Lemma keeping_stop b s t k sig : sig_ok s -> stasks s !! t = Some k -> keeping NSIG b (ps_stop_current NSIG t sig) s.
Proof.
  intros H E. destruct (known_task NSIG s t k H E) as [x Ex]. destruct (sg_sched _ _ H) as [l Hl]. unfold ps_stop_current.
  apply keeping_bind.
  - apply keeping_sched; [done | done | eauto with evolves|].
    eapply ends_mono; [exact (sched_stop (ssys s) t x l Hl Ex (sg_waits _ _ H))|]. intros [] k0 [? _]. eauto.
  - intros [] s1 _ H1 F1. destruct (frame_known _ _ _ _ F1 E) as (k1 & E1 & Ew1). destruct (sg_task _ _ H1 _ _ E1) as (Hs1 & _).
    apply keeping_bind; [apply (keeping_change_shrink NSIG HN _ _ t k1); done|].
    intros [] s2 _ H2 F2. destruct (frame_known _ _ _ _ F2 E1) as (k2 & E2 & _). apply (keeping_notify _ _ t k2); done.
Qed.

(** A default action other than to ignore. *)
Lemma handle_sig_dfl_ok s t k x sig :
  sig_ok s -> stasks s !! t = Some k -> tasks (ssys s) !! t = Some x -> awake s t -> 1 <= sig < NSIG -> ignorable sig SIG_DFL = false ->
  ends (handle_sig_dfl NSIG t sig) s (fun v s' => sig_ok s' /\ frame s s' /\ (attentive NSIG s -> attentive NSIG s') /\
    exists k', stasks s' !! t = Some k' /\ who k' = who k /\
      match v with
      | Next => carries s k s' k'
      | Exits j => j = sig /\ psid x <> 1 /\ stops sig = false
      | Stops j => j = sig /\ psid x <> 1 /\ stops sig = true
      | _ => False
      end).
Proof.
  intros H E Ex Hw Hs Hi. unfold handle_sig_dfl. eapply ends_bind, runs_task; [exact Ex|].
  assert (Hrest : carries s k (set_stasks (<[t := on_signal restored k]> (stasks s)) s) (on_signal restored k)).
  { split; try done.
    - intros j Hj. unfold ps_pending_signals. cbn. unfold restored. destruct (restore_sigmask (signal k)); done.
    - unfold total. cbn. unfold restored. destruct (restore_sigmask (signal k)); done. }
  destruct (Z.eqb_spec (psid x) 1) as [Hx | Hx].
  { eapply ends_bind, ends_mono; [exact (restore_ok s t k H E Hw)|]. intros [] s' (? & ? & ? & ->). apply ends_ret. split_and!; try done.
    exists (on_signal restored k). split; [apply lookup_insert_eq|]. split; [done | exact Hrest]. }
  destruct ((sig =? SIGCHLD) || (sig =? SIGURG) || (sig =? SIGWINCH) || (sig =? SIGCONT)) eqn:Eig.
  { exfalso. unfold ignorable in Hi. change (SIG_DFL =? SIG_IGN) with false in Hi. change (SIG_DFL =? SIG_DFL) with true in Hi.
    rewrite Eig in Hi. cbn in Hi. rewrite andb_true_r in Hi. apply andb_false_iff in Hi.
    unfold SIGKILL, SIGSTOP, SIGCHLD, SIGURG, SIGWINCH, SIGCONT in *. rewrite !orb_true_iff, !Z.eqb_eq in Eig. rewrite !negb_false_iff, !Z.eqb_eq in Hi. lia. }
  fold (stops sig). destruct (stops sig) eqn:Es.
  - eapply ends_bind, ends_mono; [exact (restore_ok s t k H E Hw)|]. intros [] s' (H' & F' & A' & ->).
    assert (E' : stasks (set_stasks (<[t := on_signal restored k]> (stasks s)) s) !! t = Some (on_signal restored k)) by apply lookup_insert_eq.
    eapply ends_bind, ends_mono; [exact (keeping_stop true _ t _ sig H' E')|]. intros [] s2 (H2 & F2 & A2). apply ends_ret.
    split_and!; [done | eapply sig_frame_trans; eauto | auto|]. destruct (frame_known _ _ _ _ F2 E') as (k2 & E2 & Ew2). exists k2. done.
  - apply ends_ret. split_and!; [done | apply sig_frame_refl | done|]. exists k. done.
Qed.

Lemma next_signal_ok ns s t k x :
  sig_ok s -> stasks s !! t = Some k -> tasks (ssys s) !! t = Some x -> awake s t ->
  ends (next_signal NSIG ns t) s (fun v s' => sig_ok s' /\ frame s s' /\ (attentive NSIG s -> attentive NSIG s') /\
    exists k', stasks s' !! t = Some k' /\ who k' = who k /\ outcome s k x v s' k').
Proof.
  intros H E Ex Hw. unfold next_signal. eapply ends_bind, ends_mono; [exact (pick_ok s t k H E)|].
  intros r s1 (H1 & F1 & A1 & k1 & E1 & D1 & Hr). pose proof (dr_who _ _ _ _ D1) as Ew1. pose proof (dr_sched _ _ _ _ D1) as Es1.
  destruct r as [[sig i]|].
  2:{ apply ends_ret. split_and!; try done. exists k1. split_and!; try done. left. intros j Hj. apply Hr. done. }
  destruct Hr as (Hs & Hi & _ & Ht). eapply ends_bind, runs_task; [rewrite Es1; exact Ex|].
  assert (Hw1 : awake s1 t) by (unfold awake; rewrite Es1; exact Hw).
  pose proof Hi as Hi'. unfold interrupts in Hi'. rewrite interrupting_has in Hi' by done.
  apply andb_prop in Hi' as [Hh Hi']. apply andb_prop in Hi' as [_ Hd]. apply negb_true_iff in Hd. unfold disposed in Hd. fold (handler_in s k sig) in Hd.
  destruct (Z.eqb_spec sig SIGKILL) as [-> | Hk].
  { destruct (Z.eqb_spec (psid x) 1) as [Hx | Hx].
    - eapply ends_bind, ends_mono; [exact (restore_ok s1 t k1 H1 E1 Hw1)|]. intros [] s2 (H2 & F2 & A2 & ->). apply ends_ret.
      split_and!; [done | eapply sig_frame_trans; eauto | auto|]. exists (on_signal restored k1). split; [apply lookup_insert_eq|]. split; [done | right; done].
    - apply ends_ret. split_and!; try done. exists k1. split; [done|]. split; [done|]. cbn. auto. }
  assert (Hact : forall h j, action_of s1 h j = action_of s h j) by (intros; unfold action_of; rewrite (dr_actions _ _ _ _ D1); done).
  eapply ends_bind, ends_mono; [apply (claim_ok s1 t k1 sig H1 E1)|].
  { rewrite Ew1. done. }
  { unfold handler_in. rewrite Hact, Ew1. done. }
  intros a s2 (-> & H2 & F2 & A2 & Et2 & Eg2 & Es2 & Hh2). rewrite Hact, Ew1 in *. fold (handler_in s k sig).
  assert (Hstop : sig = SIGSTOP -> handler_in s k sig = SIG_DFL) by (intros ->; apply (sg_stop _ _ H)).
  destruct (Z.eqb_spec (handler_in s k sig) SIG_IGN) as [Hg | Hg].
  { exfalso. unfold ignorable in Hd. rewrite Hg in *. change (SIG_IGN =? SIG_IGN) with true in Hd. cbn [orb] in Hd. rewrite andb_true_r in Hd.
    apply andb_false_iff in Hd as [Hd | Hd]; apply negb_false_iff, Z.eqb_eq in Hd; [done|]. specialize (Hstop Hd). discriminate. }
  destruct (Z.eqb_spec (handler_in s k sig) SIG_DFL) as [Hf | Hf].
  - assert (E2 : stasks s2 !! t = Some k1) by (rewrite Et2; done).
    assert (Hc2 : carries s k s2 k1).
    { apply (carries_trans _ _ s1 k1); [apply drained_carries; done|]. split; try done; [apply Hh2; exact Hf | intros j Hj | unfold total; rewrite Eg2; done].
      rewrite (pending_same s1 s2) by done. done. }
    eapply ends_mono; [apply (handle_sig_dfl_ok s2 t k1 x sig H2 E2)|]; [rewrite Es2, Es1; done | unfold awake; rewrite Es2; done | done | rewrite <- Hf; done|].
    intros v s3 (H3 & F3 & A3 & k3 & E3 & Ew3 & Hv). split_and!; [done | eapply sig_frame_trans; [exact F1|]; eapply sig_frame_trans; eauto | auto|].
    exists k3. split; [done|]. split; [congruence|]. destruct v; try done.
    + split; [eapply carries_trans; eauto|]. pose proof (ca_total _ _ _ _ Hv). unfold total in *. rewrite Eg2 in *. lia.
    + destruct Hv as (-> & ? & ?). cbn. auto.
    + destruct Hv as (-> & ? & ?). cbn. auto.
  - apply ends_ret. split_and!; [done | eapply sig_frame_trans; eauto | auto|]. exists k1. rewrite Et2. split; [done|]. split; [done|]. cbn.
    split; [done|]. split; [done|]. split; [done|]. split; [intros Hx; exact (Hf (Hstop Hx)) | done].
Qed.
End Take.
