(* ===== verification/SignalOps.v ===== *)
(** * Signals: the operations

    Each operation ends, keeps the invariant, and leaves no task asleep that
    a signal should wake. *)

From S2P Require Import Prelude Slots SlotsProof RbTree RbTreeInv Timer TimerProof Sched SchedInv SchedKeeps SchedProof SchedCorrect Signal SignalProof SignalInv SignalTake.

#[local] Arguments without : simpl never.

Section Operations.
Context (NSIG : Z) (HN : SIGRTMIN_KERNEL < NSIG).
Abbreviation sig_ok := (sig_ok NSIG).
Abbreviation keeping := (keeping NSIG).

(** ** Delivery to the end *)

(** How do_signal() comes to an end, in terms of the state it began in. *)
Definition delivery (s : sigsys) (k : sigtask) (x : task) (v : verdict) (s' : sigsys) (k' : sigtask) : Prop :=
  match v with
  | Next => False
  | Done => (forall j, 1 <= j < NSIG -> interrupts NSIG s' k' j = false) \/ psid x = 1 /\ has (ps_pending_signals s k) SIGKILL = true
  | Exits sig => psid x <> 1 /\ (1 <= sig < NSIG /\ has (ps_pending_signals s k) sig = true) /\ (sig = SIGKILL \/ handler_in s k sig = SIG_DFL /\ stops sig = false)
  | Stops sig => psid x <> 1 /\ (1 <= sig < NSIG /\ has (ps_pending_signals s k) sig = true) /\ handler_in s k sig = SIG_DFL /\ stops sig = true
  | Delivers sig a _ =>
      (1 <= sig < NSIG /\ has (ps_pending_signals s k) sig = true) /\ sa_handler a = handler_in s k sig /\ sig <> SIGKILL /\ sig <> SIGSTOP /\
      handler_in s k sig <> SIG_DFL /\ handler_in s k sig <> SIG_IGN
  end.

Lemma interrupts_pending s k j : 1 <= j < NSIG -> interrupts NSIG s k j = true -> has (ps_pending_signals s k) j = true.
Proof.
  intros Hj. unfold interrupts. rewrite interrupting_has by done. intros Hi. apply andb_prop in Hi as [_ Hi]. apply andb_prop in Hi as [Hi _].
  apply andb_prop in Hi as [Hi _]. done.
Qed.

Lemma signal_loop_ok ns t : forall fuel s k x,
  sig_ok s -> stasks s !! t = Some k -> tasks (ssys s) !! t = Some x -> awake s t -> (total NSIG s k < fuel)%nat ->
  ends (signal_loop NSIG fuel ns t) s (fun v s' => sig_ok s' /\ frame s s' /\ (attentive NSIG s -> attentive NSIG s') /\
    exists k', stasks s' !! t = Some k' /\ who k' = who k /\ delivery s k x v s' k').
Proof.
  induction fuel as [|fuel IH]; intros s k x H E Ex Hw Hf; [lia|]. cbn [signal_loop].
  eapply ends_bind, ends_mono; [exact (next_signal_ok NSIG HN ns s t k x H E Ex Hw)|].
  intros v s1 (H1 & F1 & A1 & k1 & E1 & Ew1 & Ho). destruct v as [| |sig|sig|sig a e]; cbn in Ho.
  - apply ends_ret. split_and!; try done. exists k1. split_and!; try done. destruct Ho as [Ho | [Hx Ho]]; [left; done | right].
    split; [done|]. apply interrupts_pending; [unfold SIGKILL, SIGRTMIN_KERNEL in *; lia | done].
  - destruct Ho as [[C1 C2 C3 C4 C5] Ht]. eapply ends_mono; [apply (IH s1 k1 x H1 E1); [rewrite C2; done | unfold awake; rewrite C2; done | lia]|].
    intros v s2 (H2 & F2 & A2 & k2 & E2 & Ew2 & Hd). split_and!; [done | eapply sig_frame_trans; eauto | auto|]. exists k2. split; [done|]. split; [congruence|].
    assert (Hh : forall j, handler_in s1 k1 j = handler_in s k j) by (intros j; unfold handler_in; rewrite C3, Ew1; done).
    destruct v as [| |sig|sig|sig a e]; cbn in Hd |- *; try done.
    + destruct Hd as [Hd | [Hx Hd]]; [left; done | right]. split; [done | apply C4; [unfold SIGKILL; lia | done]].
    + rewrite Hh in Hd. destruct Hd as (? & [? ?] & ?). split; [done|]. split; [split; [done | apply C4; [lia | done]] | done].
    + rewrite Hh in Hd. destruct Hd as (? & [? ?] & ?). split; [done|]. split; [split; [done | apply C4; [lia | done]] | done].
    + rewrite Hh in Hd. destruct Hd as ([? ?] & ?). split; [split; [done | apply C4; [lia | done]] | done].
  - apply ends_ret. split_and!; try done. exists k1. split; [done|]. split; [done|]. destruct Ho as (? & [? ?] & ?). cbn. auto using interrupts_pending.
  - apply ends_ret. split_and!; try done. exists k1. split; [done|]. split; [done|]. destruct Ho as (? & [? ?] & ? & ?). cbn. auto using interrupts_pending.
  - apply ends_ret. split_and!; try done. exists k1. split; [done|]. split; [done|]. destruct Ho as ([? ?] & -> & ?). cbn.
    split; [auto using interrupts_pending | done].
Qed.

Lemma do_signal_ok ns s t k x :
  sig_ok s -> stasks s !! t = Some k -> tasks (ssys s) !! t = Some x -> awake s t -> user (who k) = true ->
  ends (do_signal NSIG ns true t) s (fun v s' => sig_ok s' /\ frame s s' /\ (attentive NSIG s -> attentive NSIG s') /\
    exists k', stasks s' !! t = Some k' /\ who k' = who k /\ delivery s k x v s' k').
Proof.
  intros H E Ex Hw Hu. unfold do_signal. eapply ends_bind, runs_sig; [exact E|]. rewrite Hu. cbn [negb]. apply runs_observe. cbv beta.
  apply signal_loop_ok; try done. apply total_fuel.
Qed.

Lemma keeping_do_signal b ns uf s t k : sig_ok s -> stasks s !! t = Some k -> awake s t -> keeping b (do_signal NSIG ns uf t) s.
Proof.
  intros H E Hw. destruct (known_task NSIG s t k H E) as [x Ex]. destruct (user (who k)) eqn:Eu; [destruct uf|].
  - eapply ends_mono; [exact (do_signal_ok ns s t k x H E Ex Hw Eu)|]. intros v s' (? & ? & ? & _). auto.
  - unfold do_signal. apply (keeping_sig NSIG _ _ t k); [done|]. rewrite Eu. apply keeping_ret. done.
  - unfold do_signal. apply (keeping_sig NSIG _ _ t k); [done|]. rewrite Eu. apply keeping_ret. done.
Qed.

(** ** Sending *)

Lemma keeping_tgid {A} b (f : Z -> G A) s t k : sig_ok s -> stasks s !! t = Some k -> (forall g, keeping b (f g) s) -> keeping b (tgid_of t ≫= f) s.
Proof.
  intros H E Hf. destruct (known_group NSIG s t k H E) as [x Ex]. apply ends_bind. unfold tgid_of. eapply ends_bind, runs_sig; [exact E|].
  eapply ends_bind, runs_tgroup; [exact Ex|]. apply ends_ret, Hf.
Qed.

Lemma keeping_send b s cur kc id sig d : sig_ok s -> stasks s !! cur = Some kc -> keeping b (send_signal NSIG cur id sig d) s.
Proof.
  intros H E. unfold send_signal. destruct ((sig <? 0) || (NSIG <=? sig)) eqn:Er; [apply keeping_ret; done|].
  apply (keeping_sig NSIG _ _ cur kc); [done|]. apply keeping_observe. cbv beta.
  destruct (ps_find_process_unsafe s id) as [t|] eqn:Et; [|apply keeping_ret; done].
  destruct (known_process NSIG s _ t H Et) as [k Ek]. apply (keeping_sig NSIG _ _ t k); [done|].
  destruct (negb _ || _ || _); [apply keeping_ret; done|]. destruct (negb (can_send_signal _ _)); [apply keeping_ret; done|].
  destruct (nz sig) eqn:Es; cbn [negb]; [|apply keeping_ret; done].
  assert (Hs : 1 <= sig < NSIG) by (apply orb_false_iff in Er as [E1 E2]; apply negb_true_iff, Z.eqb_neq in Es; lia).
  apply (keeping_pending NSIG b _ s t k d H Ek). intros p _.
  apply keeping_bind; [apply (keeping_queue NSIG HN b s t k sig d H Ek Hs)|]. intros [] s1 _ H1 F1.
  destruct (frame_known _ _ _ _ F1 E) as (kc1 & Ec1 & _). destruct (frame_known _ _ _ _ F1 Ek) as (k1 & Ek1 & _).
  apply keeping_bind; [|intros; apply keeping_ret; done].
  destruct (nz (Z.land _ _)); [apply keeping_ret; done|]. apply (keeping_tgid _ _ _ cur kc1); [done | done|]. intros g.
  apply (keeping_on_pending NSIG HN _ _ t k1); [done | done|]. intros q Hq. apply set_info_shrinks. done.
Qed.

Lemma keeping_sigqueue b s al cur kc id sig wire wide x64 :
  sig_ok s -> stasks s !! cur = Some kc -> keeping b (sigqueueinfo NSIG al cur id sig wire wide x64) s.
Proof.
  intros H E. unfold sigqueueinfo. destruct ((sig <=? 0) || (NSIG <=? sig)) eqn:Er; [apply keeping_ret; done|].
  assert (Hs : 1 <= sig < NSIG) by (apply orb_false_iff in Er as [E1 E2]; lia).
  destruct wire as [wire|]; [|apply keeping_ret; done]. cbv zeta. destruct ((0 <=? _) || _); [apply keeping_ret; done|].
  destruct (negb al); [apply keeping_ret; done|].
  apply (keeping_sig NSIG _ _ cur kc); [done|]. apply (keeping_tgid _ _ _ cur kc); [done | done|]. intros g. apply keeping_observe. cbv beta.
  destruct (ps_find_process_unsafe s id) as [t|] eqn:Et; [|apply keeping_ret; done].
  destruct (known_process NSIG s _ t H Et) as [k Ek]. destruct (known_task NSIG s t k H Ek) as [x Ex].
  apply (keeping_sig NSIG _ _ t k); [done|]. apply (keeping_task NSIG _ _ t x); [done|].
  destruct (negb _ || _ || _); [apply keeping_ret; done|]. destruct (negb (can_send_signal _ _)); [apply keeping_ret; done|].
  apply (keeping_pending NSIG b _ s t k false H Ek). intros p _.
  destruct ((sig =? SIGRTMIN_KERNEL) || _); [|apply keeping_ret; done]. destruct (128 <=? _); [apply keeping_ret; done|].
  set (e := Entry sig _ _ _).
  pose proof (keeping_queue_event NSIG HN b s t k e false H Ek Hs) as HK.
  unfold keeping, SignalInv.keeping in HK |- *. destruct HK as ([] & s1 & E1 & H1). exists 0, s1. split; [|exact H1].
  unfold mbind, st_bind in E1 |- *. destruct (on_pending t false (enqueue e) s) as [[[] s0]|]; [|done]. cbn in E1 |- *. rewrite E1. done.
Qed.

Lemma merge_overrun_entries sig timer n q q' : merge_overrun sig timer n q = Some q' -> e_signo <$> q' = e_signo <$> q.
Proof.
  revert q'. induction q as [|e q IH]; intros q' Hm; [done|]. cbn in Hm. destruct (_ && _); [injection Hm as <-; done|].
  destruct (merge_overrun sig timer n q) as [q1|]; [|done]. injection Hm as <-. cbn. rewrite (IH q1 eq_refl). done.
Qed.

(** The pending set that is read is the one that is changed. *)
Lemma keeping_pending_at {A} b (f : pending -> G A) s t k d :
  sig_ok s -> stasks s !! t = Some k -> (forall p, pending_at s k d = Some p -> pending_ok NSIG p -> keeping b (f p) s) ->
  keeping b (get_pending t d ≫= f) s.
Proof.
  intros H E Hf. destruct (known_group NSIG s t k H E) as [x Ex]. destruct (sg_task _ _ H _ _ E) as ((Hp & _) & _). destruct (sg_group _ _ H _ _ Ex) as [Hg _].
  apply ends_bind. unfold get_pending. eapply ends_bind, runs_sig; [exact E|].
  destruct d; [apply ends_ret, Hf; done|]. eapply ends_bind, runs_tgroup; [exact Ex|]. apply ends_ret, Hf; [|done]. cbn. rewrite Ex. done.
Qed.
Lemma keeping_on_pending_at b s t k d p f :
  sig_ok s -> stasks s !! t = Some k -> pending_at s k d = Some p -> pending_ok NSIG (f p) ->
  (forall j, 1 <= j < NSIG -> has (sig_pending (f p)) j = true -> has (sig_pending p) j = true) -> keeping b (on_pending t d f) s.
Proof.
  intros H E Ep Hf Hs. destruct (sg_task _ _ H _ _ E) as ((_ & Hm & Hsm) & _).
  unfold on_pending. apply (keeping_sig NSIG _ _ t k); [done|]. destruct d; cbn in Ep.
  - injection Ep as <-. apply (keeping_change_shrink NSIG HN _ _ t k); done.
  - destruct (sgroups s !! thread (who k)) as [x|] eqn:Ex; [|done]. injection Ep as <-. apply (keeping_group_shrink NSIG HN _ _ _ x); done.
Qed.

Lemma merge_pending_ok sig timer n p q : pending_ok NSIG p -> merge_overrun sig timer n (pending_queue p) = Some q -> pending_ok NSIG (set_queue q p).
Proof.
  intros [H1 H2] Hm%merge_overrun_entries. split; [done|]. cbn. intros e He.
  assert (Hi : e_signo e ∈ e_signo <$> pending_queue p) by (rewrite <- Hm; apply list_elem_of_fmap_2; done).
  apply list_elem_of_fmap_1 in Hi as (e0 & -> & He0). exact (H2 e0 He0).
Qed.

Lemma keeping_timer b s al tid sig timer v d n : sig_ok s -> 1 <= sig < NSIG -> keeping b (ps_timer_notify NSIG al tid sig timer v d n) s.
Proof.
  intros H Hs. unfold ps_timer_notify. destruct (negb al); [apply keeping_ret; done|]. cbv zeta. apply keeping_observe. cbv beta.
  destruct (ps_find_process_unsafe s tid) as [t|] eqn:Et; [|apply keeping_ret; done].
  destruct (known_process NSIG s _ t H Et) as [k Ek]. destruct (known_task NSIG s t k H Ek) as [x Ex].
  apply (keeping_sig NSIG _ _ t k); [done|]. apply (keeping_task NSIG _ _ t x); [done|].
  destruct (user (who k) && _ && _); [|apply keeping_ret; done].
  apply (keeping_pending_at _ _ _ t k); [done | done|]. intros p Ep Hp. destruct (merge_overrun _ _ _ _) as [q|] eqn:Em.
  - apply (keeping_on_pending_at _ _ t k d p); try done. eapply merge_pending_ok; eauto.
  - exact (keeping_queue_event NSIG HN b s t k (Entry sig timer v (set_overrun n no_info)) d H Ek Hs).
Qed.

Lemma keeping_child b s parent k sig enc ch u ut st :
  sig_ok s -> stasks s !! parent = Some k -> 1 <= sig < NSIG -> keeping b (ps_child_signal_unsafe NSIG parent sig enc ch u ut st) s.
Proof.
  intros H E Hs. unfold ps_child_signal_unsafe. apply (keeping_pending NSIG b _ s parent k false H E). intros p _.
  apply keeping_bind; [apply (keeping_queue NSIG HN b s parent k sig false H E Hs)|]. intros [] s1 _ H1 F1.
  destruct (nz (Z.land _ _)); [apply keeping_ret; done|]. destruct (frame_known _ _ _ _ F1 E) as (k1 & E1 & _).
  apply (keeping_on_pending NSIG HN _ _ parent k1); [done | done|]. intros q Hq. apply set_info_shrinks. done.
Qed.

Lemma keeping_pgrp b pgrp sig l : forall s, sig_ok s -> 1 <= sig < NSIG -> (forall t, t ∈ l -> is_Some (stasks s !! t)) ->
  keeping b (signal_pgrp NSIG pgrp sig l) s.
Proof.
  induction l as [|t l IH]; intros s H Hs Hl; cbn [signal_pgrp]; [apply keeping_ret; done|]. destruct (Hl t ltac:(left)) as [k E].
  apply (keeping_sig NSIG _ _ t k); [done|]. apply keeping_bind.
  - apply keeping_observe. cbv beta. destruct (sgroups s !! _); [|apply keeping_ret; done].
    destruct (_ && _); [|apply keeping_ret; done]. exact (keeping_queue NSIG HN b s t k sig false H E Hs).
  - intros [] s1 _ H1 F1. apply IH; [done | done|]. intros u Hu. destruct (Hl u ltac:(right; done)) as [ku Eu].
    destruct (frame_known _ _ _ _ F1 Eu) as (k1 & E1 & _). eauto.
Qed.
Lemma keeping_owner b s owner sig : sig_ok s -> keeping b (ps_send_signal_owner NSIG owner sig) s.
Proof.
  intros H. unfold ps_send_signal_owner, ps_send_signal_pgrp. destruct (negb (nz owner) || (sig <=? 0) || (NSIG <=? sig)) eqn:Er; [apply keeping_ret; done|].
  assert (Hs : 1 <= sig < NSIG) by (apply orb_false_iff in Er as [E1 E2]; apply orb_false_iff in E1 as [_ E1]; lia). clear Er.
  destruct (owner <? 0).
  - destruct (_ || _); [apply keeping_ret; done|]. apply keeping_observe. cbv beta. apply keeping_pgrp; [done | done|]. apply (sg_process _ _ H).
  - apply keeping_observe. cbv beta. destruct (ps_find_process_unsafe s owner) as [t|] eqn:Et; [|apply keeping_ret; done].
    destruct (known_process NSIG s _ t H Et) as [k E]. apply (keeping_sig NSIG _ _ t k); [done|].
    destruct (_ && _); [|apply keeping_ret; done]. exact (keeping_queue NSIG HN b s t k sig false H E Hs).
Qed.

Lemma keeping_broadcast b p cur sig l : forall s kc n, sig_ok s -> stasks s !! cur = Some kc -> keeping b (broadcast NSIG p cur sig l n) s.
Proof.
  induction l as [|t l IH]; intros s kc n H E; cbn [broadcast]; [apply keeping_ret; done|]. apply keeping_observe. cbv beta.
  destruct (p t s); [|eapply IH; eauto]. apply keeping_bind; [apply (keeping_send b s cur kc); done|]. intros r s1 _ H1 F1.
  destruct (frame_known _ _ _ _ F1 E) as (k1 & E1 & _). eapply IH; eauto.
Qed.

(** ** The task itself *)

Lemma mask_ok_ldiff m : mask_ok (Z.ldiff m UNBLOCKABLE).
Proof. split; rewrite has_ldiff, has_unblockable by (unfold SIGKILL, SIGSTOP; lia); cbn; apply andb_false_r. Qed.

Lemma keeping_mask_self b s t k f : sig_ok s -> stasks s !! t = Some k -> awake s t -> mask_ok (f (sig_mask (signal k))) -> keeping b (change t (on_mask f)) s.
Proof.
  intros H E Hw Hm. destruct (sg_task _ _ H _ _ E) as ((Hp & _ & Hsm) & _). apply (keeping_change_self NSIG HN _ _ t k); done.
Qed.

Lemma keeping_change_mask b s w t k how set : sig_ok s -> stasks s !! t = Some k -> awake s t -> keeping b (change_mask NSIG w t how set) s.
Proof.
  intros H E Hw. unfold change_mask. apply (keeping_sig NSIG _ _ t k); [done|]. cbv zeta. destruct set as [m|]; [|apply keeping_ret; done].
  assert (Hk : forall f, keeping b (change t (on_mask (fun m => Z.ldiff (f m) UNBLOCKABLE));; mret (0, Some (Z.land (sig_mask (signal k)) (Z.ones w)))) s).
  { intros f. apply keeping_bind; [|intros; apply keeping_ret; done]. apply (keeping_mask_self _ _ t k); [done | done | done | apply mask_ok_ldiff]. }
  destruct (how =? SIG_BLOCK); [apply Hk|]. destruct (how =? SIG_UNBLOCK); [apply Hk|]. destruct (how =? SIG_SETMASK); [|apply keeping_ret; done].
  apply (Hk (fun _ => _)).
Qed.

Lemma keeping_altstack b s t k ss : sig_ok s -> stasks s !! t = Some k -> keeping b (sys_sigaltstack t ss) s.
Proof.
  intros H E. destruct (sg_task _ _ H _ _ E) as ((Hp & Hm & Hsm) & _). unfold sys_sigaltstack. apply (keeping_sig NSIG _ _ t k); [done|]. cbv zeta.
  destruct ss as [ss|]; [|apply keeping_ret; done].
  assert (Hk : forall a (r : Z * stack_t), keeping b (change t (set_altstack a);; mret r) s).
  { intros a r. apply keeping_bind; [|intros; apply keeping_ret; done]. apply (keeping_change_shrink NSIG HN _ _ t k); done. }
  repeat (case_match; try (apply keeping_ret; done)); apply Hk.
Qed.

Lemma keeping_suspend_begin b s t k m : sig_ok s -> stasks s !! t = Some k -> awake s t -> keeping b (sigsuspend_begin NSIG t m) s.
Proof.
  intros H E Hw. unfold sigsuspend_begin. destruct m as [m|]; [|apply keeping_ret; done]. apply (keeping_sig NSIG _ _ t k); [done|].
  apply keeping_bind; [|intros; apply keeping_ret; done]. apply (keeping_mask_self _ _ t k); [done | done | done | apply mask_ok_ldiff].
Qed.
Lemma keeping_suspend_end b s t k m : sig_ok s -> stasks s !! t = Some k -> awake s t -> mask_ok m -> keeping b (sigsuspend_end t m) s.
Proof.
  intros H E Hw Hmk. destruct (sg_task _ _ H _ _ E) as ((Hp & Hm & Hsm) & _). unfold sigsuspend_end.
  apply keeping_bind; [|intros; apply keeping_ret; done]. apply (keeping_change_self NSIG HN _ _ t k); done.
Qed.

(** An action may make an ignored signal count that another thread has
    pending in its sleep. *)
Lemma keeping_sigaction s t k sig act : sig_ok s -> stasks s !! t = Some k -> nz (sighand (who k)) = true -> keeping false (sys_sigaction NSIG t sig act) s.
Proof.
  intros H E Hh. unfold sys_sigaction. destruct (_ || (NSIG <=? sig)); [apply keeping_ret; done|]. destruct (_ || _) eqn:Er; [apply keeping_ret; done|].
  destruct (sg_task _ _ H _ _ E) as (_ & _ & _ & Ha). destruct (Ha Hh) as [m Em]. apply keeping_bind; [|intros; apply keeping_ret; done].
  unfold ps_signal_action. apply (keeping_sig NSIG _ _ t k); [done|]. apply keeping_observe. cbv beta.
  apply keeping_bind; [|intros; apply keeping_ret; done]. destruct act as [a|]; [|apply keeping_ret; done].
  apply (keeping_put_action NSIG HN _ _ _ m); try done. intros ->. cbn in Er. done.
Qed.

(** A fault clears the pending bit of its signal; an event queued for it would
    be left behind. *)
Lemma clear_bit_ok sig p :
  1 <= sig < NSIG -> pending_ok NSIG p -> of_signal sig (pending_queue p) = [] ->
  pending_ok NSIG (Pending (Z.ldiff (sig_pending p) (bit sig)) (pending_queue p) (pending_info p) (signal_sequence p)).
Proof.
  intros Hs [H1 H2] Hq. split; [apply sigset_ldiff; done|]. intros e He. destruct (H2 e He) as [Hr Hb]. split; [done|]. intros Hst Hc. cbn.
  rewrite has_ldiff, (Hb Hst Hc), has_bit by lia. destruct (Z.eqb_spec (e_signo e) sig) as [Ee | Hne]; [|done]. exfalso.
  assert (Hi : e ∈ of_signal sig (pending_queue p)) by (apply list_elem_of_filter; done). rewrite Hq in Hi. set_solver.
Qed.

Lemma claim_keeps s t k sig :
  sig_ok s -> stasks s !! t = Some k -> nz (sighand (who k)) = true ->
  ends (ps_claim_signal_action t sig) s (fun a s' => sig_ok s' /\ frame s s' /\ stasks s' = stasks s /\ ssys s' = ssys s /\
    (sig = SIGSTOP -> sa_handler a = SIG_DFL)).
Proof.
  intros H E Hh. destruct (sg_task _ _ H _ _ E) as (_ & _ & _ & Ha). destruct (Ha Hh) as [m Em]. unfold ps_claim_signal_action.
  eapply ends_bind, runs_sig; [exact E|]. apply runs_observe. cbv beta zeta.
  assert (Hst : sig = SIGSTOP -> sa_handler (action_of s (sighand (who k)) sig) = SIG_DFL) by (intros ->; apply (sg_stop _ _ H)). destruct (nz (Z.land _ _)).
  - set (a := Action SIG_DFL _ _ _). destruct (keeping_put_action NSIG HN false s (sighand (who k)) m sig a H Em) as ([] & s' & E' & ? & ? & _); [done | done|].
    eapply ends_bind. exists tt, s'. split; [done|]. apply ends_ret. unfold put_action in E'. rewrite Em in E'. injection E' as <-. done.
  - eapply ends_bind, ends_ret, ends_ret. split_and!; auto. apply sig_frame_refl.
Qed.

Lemma keeping_after b {A B} (m : G A) (f : A -> G B) s :
  ends m s (fun x s1 => sig_ok s1 /\ frame s s1 /\ (b = true -> attentive NSIG s -> attentive NSIG s1) /\ keeping b (f x) s1) -> keeping b (m ≫= f) s.
Proof.
  intros (x & s1 & E1 & H1 & F1 & A1 & y & s2 & E2 & H2 & F2 & A2). apply ends_bind. exists x, s1. split; [done|]. exists y, s2.
  split_and!; [done | done | eapply sig_frame_trans; eauto | auto].
Qed.
Lemma change_self s t k f :
  sig_ok s -> stasks s !! t = Some k -> who (f k) = who k -> signal_ok NSIG (signal (f k)) ->
  ends (change t f) s (fun _ s' => s' = set_stasks (<[t := f k]> (stasks s)) s /\ sig_ok s' /\ frame s s').
Proof. intros H E Hw Hs. destruct (change_ok NSIG s t k f H E Hw Hs). eapply runs_change; [exact E|]. auto. Qed.

Lemma keeping_clear s t k sig (v : bool) (r r' : verdict) :
  sig_ok s -> stasks s !! t = Some k -> 1 <= sig < NSIG -> of_signal sig (pending_queue (local (signal k))) = [] ->
  keeping false (change t (on_local (fun p => Pending (Z.ldiff (sig_pending p) (bit sig)) (pending_queue p) (pending_info p) (signal_sequence p)));;
    if v then mret r else mret r') s.
Proof.
  intros H E Hs Hq. destruct (sg_task _ _ H _ _ E) as ((Hp & Hm & Hsm) & _). apply keeping_bind; [|intros; destruct v; apply keeping_ret; done].
  apply (keeping_change_shrink NSIG HN _ _ t k); try done.
  - split_and!; try done. apply clear_bit_ok; done.
  - intros j Hj. cbn. rewrite has_ldiff. intros [? _]%andb_prop. done.
Qed.

Lemma keeping_fault s t k sig uf e :
  sig_ok s -> stasks s !! t = Some k -> nz (sighand (who k)) = true -> 1 <= sig < NSIG ->
  of_signal sig (pending_queue (local (signal k))) = [] -> keeping false (ps_fault_signal t sig uf e) s.
Proof.
  intros H E Hh Hs Hq. unfold ps_fault_signal.
  eapply keeping_after, ends_mono; [exact (claim_keeps s t k sig H E Hh)|]. intros a s1 (H1 & F1 & Et1 & Es1 & Hst). split_and!; try done.
  rewrite <- Et1 in E. destruct uf; cbn [negb]; [|apply keeping_ret; done]. apply (keeping_sig NSIG _ _ t k); [done|]. cbv zeta.
  destruct (nz (Z.land (sig_mask (signal k)) (bit sig)) || (sa_handler a =? SIG_IGN)).
  - eapply keeping_after, ends_bind, ends_mono; [apply (change_self s1 t k (on_mask (fun m => Z.ldiff m (bit sig))) H1 E); [done|]|].
    { destruct (sg_task _ _ H1 _ _ E) as ((Hp1 & [Hm1 Hm2] & Hsm1) & _). split; [done|]. split; [|done].
      split; cbn; rewrite has_ldiff; [rewrite Hm1 | rewrite Hm2]; done. }
    intros [] s2 (-> & H2 & F2). set (k2 := on_mask _ k) in *. set (s2 := set_stasks _ s1) in *.
    assert (E2 : stasks s2 !! t = Some k2) by apply lookup_insert_eq. destruct (sg_task _ _ H2 _ _ E2) as (_ & _ & _ & Ha2). destruct (Ha2 Hh) as [m Em].
    change (actions s2 !! sighand (who k) = Some m) in Em.
    destruct (keeping_put_action NSIG HN false s2 (sighand (who k)) m sig (Action SIG_DFL (sa_mask a) (sa_flags a) (sa_restorer a)) H2 Em) as ([] & s3 & E3 & H3 & F3 & _);
      [done | done|].
    eapply ends_bind. unfold ps_signal_action. eapply ends_bind, runs_sig; [exact E2|]. apply runs_observe. cbv beta.
    eapply ends_bind. exists tt, s3. split; [exact E3|]. apply ends_ret, ends_ret. split_and!; [done | eapply sig_frame_trans; eauto | done|].
    apply (keeping_clear s3 t k2); try done. unfold put_action in E3. rewrite Em in E3. injection E3 as <-. done.
  - eapply keeping_after, ends_ret. split_and!; [done | apply sig_frame_refl | done|]. apply (keeping_clear s1 t k); done.
Qed.

(** ** Waiting *)

(** Going to sleep, of one task. *)
Lemma sleep_ok (k : sched) l t x us q ms :
  sched_ok k l -> tasks k !! t = Some x -> (default 0%nat q < length (wait_lists k))%nat ->
  ends (ps_prepare_interruptible_wait us false t q ms) k (fun r k' => r = 0 /\ (exists l', sched_ok k' l') /\
    length (wait_lists k') = length (wait_lists k) /\ length (cpus k') = length (cpus k) /\
    (exists x', tasks k' !! t = Some x' /\ sleeping x') /\
    (forall u, u <> t -> option_Forall2 (fun x x' => sleeping x' -> sleeping x) (tasks k !! u) (tasks k' !! u))).
Proof.
  intros Hok Ex Hw. unfold ps_prepare_interruptible_wait.
  destruct (sched_maybe_arm (nz ms) us ms k t x l Hok Ex) as ([] & k1 & E1 & l1 & x1 & Hok1 & Ex1 & Ew1).
  assert (C1 : calms (if nz ms then timer_arm_unsafe us t ms else mret tt)) by eauto 10 with evolves.
  destruct (C1 _ _ _ E1) as (T1 & _ & L1). eapply ends_bind. exists tt, k1. split; [exact E1|].
  destruct (sched_wait k1 t x1 l1 q Hok1 Ex1 ltac:(rewrite Ew1; done)) as ([] & k2 & E2 & Hok2 & Hm2).
  destruct (evolves_to_wait _ calm t q _ _ _ E2) as (T2 & W2 & L2). eapply ends_bind. exists tt, k2. split; [exact E2|].
  destruct Hm2 as (Et2 & _). assert (Ex2 : tasks k2 !! t = Some (to_waiting x1)) by (rewrite Et2, lookup_insert_eq; done).
  eapply ends_bind, runs_modify; [exact Ex2|]. apply ends_ret. split; [done|]. split; [|split; [|split; [|split]]].
  - exists l1. apply (sched_modify k2 l1 t (to_waiting x1)); try done. right. done.
  - cbn. congruence.
  - cbn. congruence.
  - cbn. rewrite lookup_insert_eq. eexists. split; [done | split; done].
  - intros u Hu. cbn. rewrite lookup_insert_ne by auto. specialize (T1 u). specialize (T2 u).
    destruct (tasks k1 !! u); inversion T1; subst; inversion T2; subst; constructor; auto.
Qed.

(** The program ends well, perhaps with the task asleep. *)
Definition lasting (b : bool) {A} (m : G A) (s : sigsys) : Prop :=
  ends m s (fun _ s' => sig_ok s' /\ (b = true -> attentive NSIG s -> attentive NSIG s')).
Lemma lasting_keeping b {A} (m : G A) s : keeping b m s -> lasting b m s.
Proof. intros H. eapply ends_mono; [exact H|]. intros x s' (? & _ & ?). auto. Qed.
Lemma lasting_after b {A B} (m : G A) (f : A -> G B) s :
  ends m s (fun x s1 => sig_ok s1 /\ (b = true -> attentive NSIG s -> attentive NSIG s1) /\ lasting b (f x) s1) -> lasting b (m ≫= f) s.
Proof.
  intros (x & s1 & E1 & H1 & A1 & y & s2 & E2 & H2 & A2). apply ends_bind. exists x, s1. split; [done|]. exists y, s2. auto.
Qed.

(** A wait that does not sleep changes nothing. *)
Lemma prepare_ok b s t k us q ms : sig_ok s -> stasks s !! t = Some k -> (default 0%nat q < length (wait_lists (ssys s)))%nat ->
  ends (prepare_wait NSIG us t q ms) s (fun r s' => sig_ok s' /\ (b = true -> attentive NSIG s -> attentive NSIG s') /\ (nz r = true -> s' = s)).
Proof.
  intros H E Hq. unfold prepare_wait. eapply ends_bind, runs_sig; [exact E|]. apply runs_observe. cbv beta.
  destruct (interrupted NSIG s k) eqn:Ei; [exists (- EINTR), s; split; [destruct s; done | done]|].
  destruct (known_task NSIG s t k H E) as [x Ex]. destruct (sg_sched _ _ H) as [l Hl].
  destruct (sleep_ok (ssys s) l t x us q ms Hl Ex Hq) as (r & k1 & E1 & -> & Hok1 & Hw1 & Hc1 & (x1 & Ex1 & _) & Ho1).
  exists 0, (set_sched k1 s). split; [unfold in_sched; rewrite E1; done|]. split_and!; [| |done].
  - assert (Hd : forall u, is_Some (tasks (ssys s) !! u) -> is_Some (tasks k1 !! u)).
    { intros u [y Ey]. destruct (decide (u = t)) as [-> | Hu]; [eauto|]. specialize (Ho1 u Hu). rewrite Ey in Ho1. inversion Ho1; eauto. }
    destruct H as [H1 H2 H3 H4 H6 H5 H7]. split; cbn; try done; [lia|]. intros u ku Eu. destruct (H3 u ku Eu) as (? & ? & ? & ?). auto.
  - intros _ Ha u ku y Eu Ey Hy. cbn in Eu, Ey. change (interrupted NSIG s ku = false). destruct (decide (u = t)) as [-> | Hu]; [congruence|].
    specialize (Ho1 u Hu). rewrite Ey in Ho1. inversion Ho1 as [y0 y1 Hr Ey0|]; subst. symmetry in Ey0. eapply Ha; eauto.
Qed.

Lemma lasting_prepare b s t k us q ms {A} (f : Z -> A) :
  sig_ok s -> stasks s !! t = Some k -> (default 0%nat q < length (wait_lists (ssys s)))%nat ->
  lasting b (r ← prepare_wait NSIG us t q ms; mret (f r)) s.
Proof.
  intros H E Hq. eapply lasting_after, ends_mono; [exact (prepare_ok b s t k us q ms H E Hq)|].
  intros r s1 (? & ? & _). split_and!; try done. apply lasting_keeping, keeping_ret. done.
Qed.
Lemma keeping_finish b s t k {A} (x : A) : sig_ok s -> stasks s !! t = Some k -> keeping b (in_sched (ps_finish_timed_wait t);; mret x) s.
Proof.
  intros H E. destruct (known_task NSIG s t k H E) as [y Ey]. destruct (sg_sched _ _ H) as [l Hl].
  apply keeping_bind; [|intros; apply keeping_ret; done].
  apply keeping_sched; [done | done | unfold ps_finish_timed_wait; eauto with evolves|].
  eapply ends_mono; [exact (sched_disarm (ssys s) t y l Hl Ey)|]. intros [] k1 [? _]. eauto.
Qed.
Lemma keeping_look b s t k {A} (f : sigsys -> sigtask -> A) :
  sig_ok s -> stasks s !! t = Some k -> keeping b (k ← get_sig t; observe (fun s => mret (f s k))) s.
Proof. intros H E. apply (keeping_sig NSIG _ _ t k); [done|]. apply keeping_observe, keeping_ret. done. Qed.

Lemma lasting_signal_wait b s t k us pc : sig_ok s -> stasks s !! t = Some k -> lasting b (ps_signal_wait NSIG us t pc) s.
Proof.
  intros H E. destruct pc; cbn [ps_signal_wait].
  - apply lasting_keeping, (keeping_look b s t k (fun s k => if nz (ps_interrupting_signals NSIG s k) then Returns tt else Goes WPrepare) H E).
  - apply (lasting_prepare b s t k us None 0 (fun r => if nz r then Goes WTest else Sleeps WFinish) H E (sg_waits _ _ H)).
  - apply lasting_keeping, (keeping_finish b s t k); done.
Qed.

Lemma keeping_wait_mask b s t k m : sig_ok s -> stasks s !! t = Some k -> awake s t -> keeping b (change t (set_wait_mask m)) s.
Proof. intros H E Hw. destruct (sg_task _ _ H _ _ E) as (Hs & _). apply (keeping_change_self NSIG HN _ _ t k); done. Qed.

Lemma lasting_timedwait b s t k us now set d pc :
  sig_ok s -> stasks s !! t = Some k -> awake s t -> lasting b (sigtimedwait NSIG us now t set d pc) s.
Proof.
  intros H E Hw. destruct pc as [| | | ms | ms | |]; cbn [sigtimedwait].
  - apply lasting_keeping, keeping_bind; [eauto using keeping_take | intros; apply keeping_ret; done].
  - apply lasting_keeping, (keeping_look b s t k (fun s k => if nz (Z.ldiff (ps_interrupting_signals NSIG s k) set) then Returns (- EINTR, None) else Goes TClock) H E).
  - apply lasting_keeping, keeping_ret. done.
  - apply lasting_keeping, keeping_bind; [exact (keeping_wait_mask b s t k set H E Hw) | intros; apply keeping_ret; done].
  - apply (lasting_prepare b s t k us None ms (fun r => if nz r then Goes TReset else Sleeps TFinish) H E (sg_waits _ _ H)).
  - apply lasting_keeping, (keeping_finish b s t k); done.
  - apply lasting_keeping, keeping_bind; [exact (keeping_wait_mask b s t k 0 H E Hw) | intros; apply keeping_ret; done].
Qed.

(** ** The scheduler, and kill(2) *)

Lemma keeping_event b s e : sig_ok s -> valid (ssys s) e -> (forall cpu us i q ms, e <> InterruptibleWait cpu us i q ms) -> keeping b (in_sched (perform e)) s.
Proof.
  intros H Hv Hn. destruct (sg_sched _ _ H) as [l Hl]. apply keeping_sched; [done | done | |exact (perform_ok (ssys s) l e Hl Hv)].
  apply (evolves_perform _ calm). intros cpu us i q ms ->. destruct (Hn cpu us i q ms eq_refl).
Qed.

Lemma keeping_kill b ns s cur kc id sig : sig_ok s -> stasks s !! cur = Some kc -> awake s cur -> keeping b (sys_kill NSIG ns cur id sig) s.
Proof.
  intros H E Hw. unfold sys_kill. cbv zeta. destruct (_ && (_ =? 0xffffffff)); [apply keeping_ret; done|].
  set (id' := if 0 <? id then _ else id).
  assert (Hmany : forall p, keeping b (to_many NSIG p cur sig) s).
  { intros p. unfold to_many. apply keeping_observe. cbv beta. apply keeping_bind; [eapply keeping_broadcast; eauto|]. intros. apply keeping_ret. done. }
  destruct (sig =? 0); [apply keeping_observe, keeping_ret; done|]. destruct (0 <? id').
  - unfold kill_one. apply keeping_bind; [apply (keeping_send b s cur kc); done|]. intros r s1 _ H1 F1.
    destruct (frame_known _ _ _ _ F1 E) as (k1 & E1 & _). apply (keeping_sig NSIG _ _ cur k1); [done|]. apply keeping_observe. cbv beta.
    destruct (_ && _); [|apply keeping_ret; done].
    apply keeping_bind; [apply (keeping_do_signal _ _ _ _ cur k1); [done | done | exact (fr_awake _ _ F1 cur Hw)]|]. intros. apply keeping_ret. done.
  - destruct (id' =? 0).
    + apply (keeping_sig NSIG _ _ cur kc); [done|]. destruct (negb _); [apply keeping_ret; done|].
      destruct (known_group NSIG s cur kc H E) as [g Eg]. apply (keeping_group NSIG _ _ _ g); [done|]. apply Hmany.
    + destruct (id' =? -1); apply Hmany.
Qed.
End Operations.
