(* ===== verification/SignalCorrect.v ===== *)
(** * Signals: theorems

    The invariant in every run, that no task sleeps through a signal, what a
    signal to a group, a send, a take and a delivery do. *)

From S2P Require Import Prelude Slots SlotsProof RbTree RbTreeInv Timer TimerProof Sched SchedInv SchedKeeps SchedProof SchedCorrect Signal SignalProof SignalInv SignalTake SignalOps.

#[local] Arguments without : simpl never.

(** ** Runs of the system

    What the tasks, the timers and the scheduler do, in any order; [cur] is
    the task that does it. *)
Inductive sigop :=
| Scheduler (e : event)
| Send (cur id sig : Z) (d : bool)
| SigQueue (allocated : bool) (cur id sig : Z) (wire : option (list Z)) (wide x64 : bool)
| Expiry (allocated : bool) (tid sig timer v : Z) (d : bool) (n : Z)
| ChildEnds (parent sig encoded child uid utime stime : Z)
| ToOwner (owner sig : Z)
| Kill (ns : pid_ns) (cur id sig : Z)
| TakeOne (cur mask : Z)
| SetAction (cur sig : Z) (act : option sigaction)
| SetMask (width cur how : Z) (set : option Z)
| AltStack (cur : Z) (ss : option stack_t)
| SuspendBegin (cur : Z) (mask : option Z)
| SuspendEnd (cur saved : Z)
| Sleep (us cur : Z) (queue : option nat) (ms : Z)
| Finish (cur : Z)
| Wait (us cur : Z) (pc : wait_pc)
| AwaitSet (us now cur set : Z) (deadline : option Z) (pc : timedwait_pc)
| Deliver (ns : pid_ns) (user_frame : bool) (cur : Z)
| Fault (cur sig : Z) (user_frame : bool) (e : mos_signal_info).

Section Runs.
Context (NSIG : Z) (HN : SIGRTMIN_KERNEL < NSIG).
Abbreviation sig_ok := (sig_ok NSIG).

Definition sperform (op : sigop) : G unit :=
  match op with
  | Scheduler e => in_sched (perform e)
  | Send cur id sig d => _ ← send_signal NSIG cur id sig d; mret tt
  | SigQueue al cur id sig w wide x64 => _ ← sigqueueinfo NSIG al cur id sig w wide x64; mret tt
  | Expiry al tid sig timer v d n => ps_timer_notify NSIG al tid sig timer v d n
  | ChildEnds p sig enc ch u ut st => ps_child_signal_unsafe NSIG p sig enc ch u ut st
  | ToOwner owner sig => ps_send_signal_owner NSIG owner sig
  | Kill ns cur id sig => _ ← sys_kill NSIG ns cur id sig; mret tt
  | TakeOne cur mask => _ ← ps_take_signal_info NSIG cur mask; mret tt
  | SetAction cur sig act => _ ← sys_sigaction NSIG cur sig act; mret tt
  | SetMask w cur how set => _ ← change_mask NSIG w cur how set; mret tt
  | AltStack cur ss => _ ← sys_sigaltstack cur ss; mret tt
  | SuspendBegin cur m => _ ← sigsuspend_begin NSIG cur m; mret tt
  | SuspendEnd cur m => _ ← sigsuspend_end cur m; mret tt
  | Sleep us cur q ms => _ ← prepare_wait NSIG us cur q ms; mret tt
  | Finish cur => in_sched (ps_finish_timed_wait cur);; mret tt
  | Wait us cur pc => _ ← ps_signal_wait NSIG us cur pc; mret tt
  | AwaitSet us now cur set d pc => _ ← sigtimedwait NSIG us now cur set d pc; mret tt
  | Deliver ns uf cur => _ ← do_signal NSIG ns uf cur; mret tt
  | Fault cur sig uf e => _ ← ps_fault_signal cur sig uf e; mret tt
  end.

Fixpoint sperform_all (ops : list sigop) : G unit :=
  match ops with [] => mret tt | op :: ops => sperform op;; sperform_all ops end.

(** The task that runs is not asleep. *)
Definition runs (s : sigsys) (cur : Z) : Prop := is_Some (stasks s !! cur) /\ awake s cur.
Definition runs_handlers (s : sigsys) (cur : Z) : Prop :=
  exists k, stasks s !! cur = Some k /\ awake s cur /\ nz (sighand (who k)) = true.

Definition svalid (s : sigsys) (op : sigop) : Prop :=
  match op with
  | Scheduler e => valid (ssys s) e /\ forall cpu us i q ms, e <> InterruptibleWait cpu us i q ms
  | Send cur _ _ _ | SigQueue _ cur _ _ _ _ _ | Kill _ cur _ _ | TakeOne cur _ | SetMask _ cur _ _ | AltStack cur _
  | SuspendBegin cur _ | Finish cur | Wait _ cur _ | AwaitSet _ _ cur _ _ _ | Deliver _ _ cur => runs s cur
  | Sleep _ cur q _ => runs s cur /\ (default 0 q < length (wait_lists (ssys s)))%nat
  | Expiry _ _ sig _ _ _ _ => 1 <= sig < NSIG
  | ChildEnds parent sig _ _ _ _ _ => is_Some (stasks s !! parent) /\ 1 <= sig < NSIG
  | ToOwner _ _ => True
  | SetAction cur _ _ => runs_handlers s cur
  | SuspendEnd cur saved => runs s cur /\ mask_ok saved
  | Fault cur sig _ _ => 1 <= sig < NSIG /\ exists k, stasks s !! cur = Some k /\ nz (sighand (who k)) = true /\
      of_signal sig (pending_queue (local (signal k))) = []
  end.
Fixpoint all_svalid (ops : list sigop) (s : sigsys) : Prop :=
  match ops with
  | [] => True
  | op :: ops => svalid s op /\ forall s', sperform op s = Some (tt, s') -> all_svalid ops s'
  end.

(** An operation that gives no new meaning to a signal another thread ignores. *)
Definition keeps_actions (op : sigop) : bool := match op with SetAction _ _ _ | Fault _ _ _ _ => false | _ => true end.

Lemma keeping_then b {A} (m : G A) s : keeping NSIG b m s -> keeping NSIG b (_ ← m; mret tt) s.
Proof. intros H. apply keeping_bind; [done|]. intros. apply keeping_ret. done. Qed.
Lemma lasting_then b {A} (m : G A) s : lasting NSIG b m s -> lasting NSIG b (_ ← m; mret tt) s.
Proof. intros H. apply lasting_after. eapply ends_mono; [exact H|]. intros x s' [? ?]. split_and!; try done. apply ends_ret. done. Qed.

Lemma sperform_ok op s : sig_ok s -> svalid s op -> lasting NSIG (keeps_actions op) (sperform op) s.
Proof.
  intros H Hv.
  destruct op; cbn [svalid sperform keeps_actions] in *;
    repeat match goal with
           | Hr : runs _ _ |- _ => destruct Hr as [[k Ek] Hw]
           | Hr : runs_handlers _ _ |- _ => destruct Hr as (k & Ek & Hw & Hh)
           | Hr : _ /\ _ |- _ => destruct Hr
           | Hr : is_Some _ |- _ => destruct Hr as [k Ek]
           | Hr : exists k, _ |- _ => destruct Hr as (k & Ek & Hh & Hq)
           end;
    try (apply lasting_then; eauto using lasting_signal_wait, lasting_timedwait; fail);
    try (eapply lasting_prepare; eauto; fail); try (apply lasting_keeping; eauto using keeping_finish; fail);
    apply lasting_keeping; try apply keeping_then;
    eauto using keeping_event, keeping_send, keeping_sigqueue, keeping_timer, keeping_child, keeping_owner, keeping_kill, keeping_take,
      keeping_sigaction, keeping_change_mask, keeping_altstack, keeping_suspend_begin, keeping_suspend_end, keeping_do_signal, keeping_fault.
Qed.

Lemma sperform_all_ok b ops : forall s, sig_ok s -> all_svalid ops s -> (b = true -> Forall (fun op => keeps_actions op = true) ops) ->
  ends (sperform_all ops) s (fun _ s' => sig_ok s' /\ (b = true -> attentive NSIG s -> attentive NSIG s')).
Proof.
  induction ops as [|op ops IH]; intros s H Hv Hb; [apply ends_ret; done|]. destruct Hv as [Hv Hn]. cbn.
  destruct (sperform_ok op s H Hv) as ([] & s1 & E1 & H1 & A1). eapply ends_bind. exists tt, s1. split; [done|].
  eapply ends_mono; [apply (IH s1 H1 (Hn s1 E1))|].
  - intros Hb'. specialize (Hb Hb'). inversion Hb; done.
  - intros [] s2 [H2 A2]. split; [done|]. intros Hb' Ha. apply A2; [done|]. apply A1; [|done]. specialize (Hb Hb'). inversion Hb; done.
Qed.



(** C11: taking a signal takes the lowest one of the mask that is pending, to
    the task before one to its group: its first queued event if there is one,
    with the information of that event, and the signal stays pending exactly
    while more events of it are queued.  The other pending signals, the other
    events in their order, the information kept for each signal, the sequence
    numbers and the rest of the system stay as they are.  If nothing is taken
    no signal of the mask is pending and nothing has changed. *)
Theorem take_signal_correct s t k mask :
  sig_ok s -> stasks s !! t = Some k ->
  ends (ps_take_signal_info NSIG t mask) s (fun r s' =>
    match r with
    | None => s' = s /\ forall j, 1 <= j < NSIG -> has (Z.land (ps_pending_signals s k) mask) j = false
    | Some (sig, i) =>
        1 <= sig < NSIG /\ lowest (Z.land (ps_pending_signals s k) mask) sig /\
        let d := has (sig_pending (local (signal k))) sig in
        exists p p', pending_at s k d = Some p /\ s' = with_pending s t k d p' /\
          pending_info p' = pending_info p /\ signal_sequence p' = signal_sequence p /\
          (forall j, 1 <= j -> j <> sig -> has (sig_pending p') j = has (sig_pending p) j) /\
          has (sig_pending p') sig = negb (bool_decide (of_signal sig (pending_queue p') = [])) /\
          ((of_signal sig (pending_queue p) = [] /\ pending_queue p' = pending_queue p /\ i = info_of p sig) \/
           exists A e B, pending_queue p = A ++ e :: B /\ e_signo e = sig /\ of_signal sig A = [] /\
             pending_queue p' = A ++ B /\ i = event_info (info_of p sig) e)
    end).
Proof.
  intros H E. eapply ends_mono; [exact (take_ok NSIG HN s t k mask H E)|]. intros [[sig i]|] s'.
  - intros (Hs & Hl & p & p' & Ep & Hb & [K1 K2 K3 K4 K5 K6 K7 K8] & _ & ->). split; [done|]. split; [done|]. exists p, p'. split_and!; try apply K7; try done.
    + intros j Hj Hne. rewrite K6, (proj2 (Z.eqb_neq j sig) Hne) by done. apply andb_true_r.
    + rewrite K6, Hb, Z.eqb_refl by lia. done.
    + destruct K8 as [[K8 K9] | (A & e & B & K8 & He & HA & K9)]; [left; rewrite K8 in K5; done|].
      right. exists A, e, B. split_and!; try done. rewrite K5, K8. unfold of_signal in *.
      rewrite filter_app, HA, filter_cons_True by done. done.
  - intros [-> Hz]. split; [done|]. intros j _. rewrite Hz. apply has_0.
Qed.


(** A signal to a process is pending for its whole thread group, and
    exactly those living members are made ready that are stopped, if it
    continues or kills, or sleep interruptibly and now have a signal that
    interrupts them or wait for this one; no other task is touched.  SIGKILL
    thus reaches every member that is stopped or sleeps interruptibly. *)
Theorem group_signal_correct s t k g sig :
  sig_ok s -> stasks s !! t = Some k -> sgroups s !! thread (who k) = Some g -> thread (who k) <> 0 -> 1 <= sig < NSIG ->
  let s0 := set_groups (<[thread (who k) := on_shared (raise sig) g]> (sgroups s)) s in
  ends (ps_queue_group_signal_unsafe NSIG t sig) s (fun _ s' => sig_ok s' /\ sgroups s' = sgroups s0 /\
    (forall u, tasks (ssys s') !! u =
       (if bool_decide (u ∈ members g) && called s0 (thread (who k)) u && wakes NSIG s0 sig u then to_ready else id) <$> tasks (ssys s) !! u) /\
    (sig = SIGKILL -> forall u y, u ∈ members g -> called s0 (thread (who k)) u = true -> tasks (ssys s) !! u = Some y ->
       status y = ps_stopped \/ sleeping y -> exists y', tasks (ssys s') !! u = Some y' /\ status y' = ps_ready)).
Proof.
  intros H E Eg Hz Hs s0. destruct (sg_group _ _ H _ _ Eg) as [Hp _]. unfold ps_queue_group_signal_unsafe. eapply ends_bind, runs_sig; [exact E|].
  eapply ends_mono; [apply (raise_group NSIG HN s (thread (who k)) g (raise sig) sig H Eg Hs), raise_adds; done|].
  intros [] s' ([W1 W2 W3 W4 W5 W6 W7 W8] & H' & _ & _). fold s0 in W2, W4. change (tasks (ssys s0)) with (tasks (ssys s)) in W2.
  split_and!; [done | done | done|]. intros -> u y Hu Hc Ey Hst. rewrite W2, Ey, Hc, bool_decide_eq_true_2 by done.
  assert (Hw : wakes NSIG s0 SIGKILL u = true); [|rewrite Hw; eexists; split; [reflexivity | done]].
  unfold called in Hc. unfold wakes. change (tasks (ssys s0)) with (tasks (ssys s)) in *. destruct (stasks s0 !! u) as [ku|] eqn:Eu; [|done]. rewrite Ey in *.
  destruct Hst as [Hst | [Hst Hi]]; [unfold stop_ends; rewrite Hst; done|]. rewrite Hst, Hi. cbn. apply orb_true_iff. right. apply orb_true_iff. left.
  apply andb_prop in Hc as [Hc _]. apply andb_prop in Hc as [Hc Hh]. apply andb_prop in Hc as [He Ht]. apply Z.eqb_eq in Ht.
  destruct (sg_task _ _ H u ku Eu) as ((_ & [Hm _] & _) & _).
  destruct (nz (ps_interrupting_signals NSIG s0 ku)) eqn:En; [done|]. apply negb_false_iff, Z.eqb_eq in En.
  assert (Hx : has (ps_interrupting_signals NSIG s0 ku) SIGKILL = true); [|rewrite En, has_0 in Hx; done].
  rewrite interrupting_has, Hh, Hm, pending_has, He, Ht by (unfold SIGKILL, SIGRTMIN_KERNEL in *; lia). unfold s0. cbn [sgroups set_groups].
  rewrite lookup_insert_eq. cbn [from_option shared on_shared]. rewrite raise_has, Z.eqb_refl by (unfold SIGKILL; lia). unfold nz. rewrite (proj2 (Z.eqb_neq _ _) Hz). cbn.
  rewrite orb_true_r. done.
Qed.

(** ** Sending *)

(** The task an identifier names: the first of the tree with it. *)
Definition named (s : sigsys) (id t : Z) (k : sigtask) : Prop :=
  stasks s !! t = Some k /\ psid_in s t = id /\
  exists A B, processes s = A ++ t :: B /\ forall u, u ∈ A -> psid_in s u <> id.
(** A task signals can be sent to. *)
Definition receives (k : sigtask) : Prop := user (who k) = true /\ execution (who k) = true /\ sighand (who k) <> 0.
(** The rule of kill(2): the super-user, or a real or effective user id that
    is the real or saved one of the target. *)
Definition may_signal (sender target : identity) : Prop :=
  cred_euid sender = 0 \/
  exists id, (id = cred_uid sender \/ id = cred_euid sender) /\ (id = cred_uid target \/ id = cred_suid target).

(** The result of a send to [id]. *)
Inductive outcome (s : sigsys) (sender : sigtask) (id sig : Z) : Z -> Prop :=
| BadSignal : ~ 0 <= sig < NSIG -> outcome s sender id sig (- EINVAL)
| NoTarget : 0 <= sig < NSIG -> (forall t k, named s id t k -> ~ receives k) -> outcome s sender id sig (- ESRCH)
| Refused t k : 0 <= sig < NSIG -> named s id t k -> receives k -> ~ may_signal (who sender) (who k) ->
    outcome s sender id sig (- EPERM)
| Allowed t k : 0 <= sig < NSIG -> named s id t k -> receives k -> may_signal (who sender) (who k) ->
    outcome s sender id sig 0.

Lemma find_some s id t k : ps_find_process_unsafe s id = Some t -> stasks s !! t = Some k -> named s id t k.
Proof.
  unfold ps_find_process_unsafe, named. intros E Ek. split; [done|].
  induction (processes s) as [|x l IH]; [discriminate|]. rewrite filter_cons in E. case_decide as Hx.
  - injection E as ->. split; [done|]. exists [], l. split; [done|]. intros u Hu. inversion Hu.
  - destruct (IH E) as (Hi & A & B & -> & HA). split; [done|]. exists (x :: A), B. split; [done|]. intros u [-> | Hu]%elem_of_cons; auto.
Qed.
Lemma find_named s id t k : named s id t k -> ps_find_process_unsafe s id = Some t.
Proof.
  intros (_ & Hi & A & B & E & HA). unfold ps_find_process_unsafe. rewrite E, filter_app, filter_cons_True by done.
  assert (filter (fun u => psid_in s u = id) A = []) as ->; [|done].
  destruct (filter _ A) as [|u l] eqn:Ef; [done|]. assert (Hu : u ∈ filter (fun u => psid_in s u = id) A) by (rewrite Ef; left).
  apply list_elem_of_filter in Hu as [Hu Hin]. destruct (HA u Hin Hu).
Qed.
Lemma can_send_spec a b : can_send_signal a b = true <-> execution b = true /\ may_signal a b.
Proof.
  unfold can_send_signal, may_signal. rewrite andb_true_iff, !orb_true_iff, !Z.eqb_eq. split; intros [H1 H2]; (split; [done|]).
  - destruct H2 as [[[[H2 | H2] | H2] | H2] | H2]; [auto | right; exists (cred_uid a); auto | right; exists (cred_uid a); auto | right; exists (cred_euid a); auto |right; exists (cred_euid a); auto].
  - destruct H2 as [H2 | (id & [-> | ->] & [H2 | H2])]; tauto.
Qed.
Lemma receives_spec k : user (who k) && execution (who k) && nz (sighand (who k)) = true <-> receives k.
Proof. unfold receives, nz. rewrite !andb_true_iff, negb_true_iff, Z.eqb_neq. tauto. Qed.

(** The pending set after a raise. *)
Lemma queue_pending s t k sig d p :
  sig_ok s -> stasks s !! t = Some k -> 1 <= sig < NSIG -> pending_at s k d = Some p ->
  ends (queue_to NSIG t sig d) s (fun _ s' => sig_ok s' /\ frame s s' /\
    exists k', stasks s' !! t = Some k' /\ who k' = who k /\ pending_at s' k' d = Some (raise sig p)).
Proof.
  intros H E Hs Ep. destruct (sg_task _ _ H _ _ E) as ((Hp & _) & _). destruct d; cbn in Ep.
  - injection Ep as <-. eapply ends_mono; [apply (raise_task NSIG HN s t k (raise sig) sig H E Hs), raise_adds; done|].
    intros [] s' ([W1 W2 W3 W4 W5 W6 W7 W8] & H' & F' & _). split_and!; try done. rewrite W3. cbn. rewrite lookup_insert_eq. cbn.
    eexists. split; [done|]. case_match; done.
  - destruct (sgroups s !! thread (who k)) as [g|] eqn:Eg; [|done]. injection Ep as <-. destruct (sg_group _ _ H _ _ Eg) as [Hg _].
    unfold queue_to, ps_queue_group_signal_unsafe. eapply ends_bind, runs_sig; [exact E|].
    eapply ends_mono; [apply (raise_group NSIG HN s (thread (who k)) g (raise sig) sig H Eg Hs), raise_adds; done|].
    intros [] s' ([W1 W2 W3 W4 W5 W6 W7 W8] & H' & F' & _). split_and!; try done. rewrite W3. cbn. rewrite E. cbn. eexists. split; [done|].
    rewrite W4. cbn. case_match; cbn; rewrite lookup_insert_eq; done.
Qed.

Lemma raise_info sig p : 1 <= sig -> info_of (raise sig p) sig = if has (sig_pending p) sig then info_of p sig else plain_info sig.
Proof.
  intros Hs. unfold raise, info_of. cbn [pending_info]. rewrite nz_land_bit by lia.
  set (bits := if sig =? SIGCONT then _ else _). assert (Hb : has bits sig = has (sig_pending p) sig).
  { unfold bits. rewrite (Z.land_comm (bit sig)), nz_land_bit, has_stops by lia. destruct (Z.eqb_spec sig SIGCONT) as [-> | Hc].
    - rewrite has_ldiff, has_stops by lia. cbn. apply andb_true_r.
    - destruct (stops sig); [|done]. rewrite has_ldiff, has_bit by (unfold SIGCONT; lia). rewrite (proj2 (Z.eqb_neq _ _) Hc). apply andb_true_r. }
  rewrite Hb. destruct (has (sig_pending p) sig); [done|]. rewrite lookup_insert_eq. done.
Qed.

Lemma on_pending_at s s' t k d p f :
  stasks s !! t = Some k -> pending_at s k d = Some p -> on_pending t d f s = Some (tt, s') ->
  exists k', stasks s' !! t = Some k' /\ pending_at s' k' d = Some (f p).
Proof.
  intros E Ep. unfold on_pending, mbind, st_bind, get_sig, change, change_group, pending_at in *. rewrite E. cbn. destruct d.
  - rewrite E. cbn. intros [= <-]. injection Ep as <-. cbn. rewrite lookup_insert_eq. eexists. done.
  - destruct (sgroups s !! thread (who k)) as [g|] eqn:Eg; [|done]. injection Ep as <-. cbn. intros [= <-]. exists k. cbn.
    rewrite lookup_insert_eq. done.
Qed.

(** C31: sending a signal returns exactly the error the arguments and the
    credentials call for: EINVAL for no signal, ESRCH if the identifier names
    no task that receives signals, EPERM if the sender is neither the
    super-user nor has a user id, real or effective, that is the real or saved
    one of the target, and 0 otherwise.  After an error, or for signal 0,
    nothing has changed.  A signal that is sent is pending for the named task
    or its group afterwards, and its information names the sender unless it
    was pending already. *)
Theorem send_signal_correct s cur sender gs id sig d :
  sig_ok s -> stasks s !! cur = Some sender -> sgroups s !! thread (who sender) = Some gs ->
  ends (send_signal NSIG cur id sig d) s (fun r s' => sig_ok s' /\ outcome s sender id sig r /\
    (r <> 0 \/ sig = 0 -> s' = s) /\
    (r = 0 -> sig <> 0 -> exists t k k' p p', named s id t k /\ stasks s' !! t = Some k' /\ pending_at s k d = Some p /\ pending_at s' k' d = Some p' /\
       has (sig_pending p') sig = true /\
       info_of p' sig = if has (sig_pending p) sig then info_of p sig
                        else Info sig (if d then -6 else 0) (-1) 0 (g_tgid gs) (cred_uid (who sender)) 0 0 0 0)).
Proof.
  intros H E Egs. unfold send_signal. destruct ((sig <? 0) || (NSIG <=? sig)) eqn:Er.
  { apply ends_ret; split_and!; try done. constructor. apply orb_true_iff in Er. lia. }
  assert (Hr : 0 <= sig < NSIG) by (apply orb_false_iff in Er; lia).
  eapply ends_bind, runs_sig; [exact E|]. apply runs_observe. cbv beta.
  destruct (ps_find_process_unsafe s id) as [t|] eqn:Et.
  2:{ apply ends_ret; split_and!; try done. constructor; [done|]. intros t k Hn. rewrite (find_named _ _ _ _ Hn) in Et. discriminate. }
  destruct (known_process NSIG s _ t H Et) as [k Ek]. pose proof (find_some _ _ _ _ Et Ek) as Hnm.
  eapply ends_bind, runs_sig; [exact Ek|]. rewrite <- !negb_andb.
  destruct (user (who k) && execution (who k) && nz (sighand (who k))) eqn:Erc; cbn [negb].
  2:{ apply ends_ret; split_and!; try done. constructor; [done|]. intros t' k' Hn. pose proof (find_named _ _ _ _ Hn) as Et'.
      rewrite Et in Et'. injection Et' as <-. destruct Hn as (Ek' & _). rewrite Ek in Ek'. injection Ek' as <-.
      rewrite <- receives_spec, Erc. done. }
  apply receives_spec in Erc as Hrc. destruct (can_send_signal (who sender) (who k)) eqn:Ec; cbn [negb].
  2:{ apply ends_ret; split_and!; try done. apply (Refused _ _ _ _ t k); try done. intros Hm. rewrite (proj2 (can_send_spec _ _)) in Ec; [done|].
      split; [apply Hrc | done]. }
  apply can_send_spec in Ec as [_ Hm]. assert (Hout : outcome s sender id sig 0) by (apply (Allowed _ _ _ _ t k); done).
  destruct (nz sig) eqn:Es; cbn [negb]; [apply negb_true_iff, Z.eqb_neq in Es | apply negb_false_iff, Z.eqb_eq in Es; apply ends_ret; split_and!; done].
  assert (Hs : 1 <= sig < NSIG) by (apply orb_false_iff in Er as [E1 E2]; lia). clear Er.
  destruct (known_group NSIG s t k H Ek) as [g Eg].
  assert (Hat : exists p, pending_at s k d = Some p) by (unfold pending_at; destruct d; [eauto | rewrite Eg; eauto]). destruct Hat as [p Ep].
  assert (Hget : ends (get_pending t d) s (fun q s' => q = p /\ s' = s)).
  { unfold get_pending. eapply ends_bind, runs_sig; [exact Ek|]. unfold pending_at in Ep. destruct d; [injection Ep as <-; apply ends_ret; done|].
    eapply ends_bind, runs_tgroup; [exact Eg|]. rewrite Eg in Ep. injection Ep as <-. apply ends_ret. done. }
  eapply ends_bind, ends_mono; [exact Hget|]. intros q s' [-> ->]. rewrite nz_land_bit by lia.
  eapply ends_bind, ends_mono; [exact (queue_pending s t k sig d p H Ek Hs Ep)|]. intros [] s1 (H1 & F1 & k1 & Ek1 & Ew1 & Ep1).
  destruct (has (sig_pending p) sig) eqn:Eb.
  - eapply ends_bind, ends_ret, ends_ret. split_and!; try done; [intros [?|?]; done|]. intros _ _. exists t, k, k1, p, (raise sig p). split_and!; try done.
    + rewrite raise_has, Z.eqb_refl by lia. done.
    + rewrite raise_info, Eb by lia. done.
  - destruct (frame_known _ _ _ _ F1 E) as (sender1 & E1 & Ews1). pose proof (fr_group _ _ F1 (thread (who sender))) as Hg1. rewrite Egs in Hg1.
    inversion Hg1 as [g1 g2 (Hm1 & Ht1 & Hi1) Eg1 Eg2|]; subst. symmetry in Eg2.
    eapply ends_bind, ends_bind. unfold tgid_of. eapply ends_bind, runs_sig; [exact E1|]. rewrite Ews1. eapply ends_bind, runs_tgroup; [exact Eg2|]. apply ends_ret.
    set (f := fun q => set_info sig _ q).
    destruct (keeping_on_pending_at NSIG HN true s1 t k1 d (raise sig p) f H1 Ek1 Ep1) as ([] & s2 & E2 & H2 & F2 & _); [|done|].
    { destruct (known_group NSIG s1 t k1 H1 Ek1) as [x1 Ex1]. apply set_info_shrinks. clear -H1 Ek1 Ep1 Ex1. unfold pending_at in Ep1.
      destruct d; [injection Ep1 as <-; apply (sg_task _ _ H1 _ _ Ek1)|]. rewrite Ex1 in Ep1. injection Ep1 as <-. apply (sg_group _ _ H1 _ _ Ex1). }
    exists tt, s2. split; [done|]. apply ends_ret. split_and!; try done; [intros [?|?]; done|]. intros _ _.
    destruct (on_pending_at s1 s2 t k1 d (raise sig p) f Ek1 Ep1 E2) as (k2 & Ek2 & Ep2). exists t, k, k2, p, (f (raise sig p)). split_and!; try done.
    + unfold f, set_info. cbn [sig_pending]. rewrite raise_has, Z.eqb_refl by lia. done.
    + unfold f, info_of, set_info. cbn [pending_info]. rewrite lookup_insert_eq. cbn [default]. change (default no_info (pending_info (raise sig p) !! sig)) with (info_of (raise sig p) sig).
      rewrite raise_info, Eb, Ht1 by lia. done.
Qed.
End Runs.

(** ** Two processes of one task each *)

Module Demo.
Import SchedCorrect.Demo.

(** The second one has SIGUSR1 pending. *)
Definition usr1 : pending := Pending (bit 10) [] ∅ ∅.
Definition member_of (g : Z) (p : pending) : sigtask :=
  SigTask (TaskSignal p 0 0 false (Stack 0 SS_DISABLE 0)) (Identity g 300 true true true 0 0 0 0) 0 0 0.
Definition demo_stasks : list (Z * sigtask) := [(12, member_of 100 no_pending); (16, member_of 200 usr1)].
Definition demo_groups : list (Z * tgroup) := [(100, TGroup no_pending 10 10 [12]); (200, TGroup no_pending 11 10 [16])].
Definition demo_sig : sigsys := SigSys demo (list_to_map demo_stasks) (list_to_map demo_groups) {[300 := ∅]} [12; 16].

Lemma no_pending_ok : pending_ok 65 no_pending.
Proof. split; [split; [done | reflexivity] | intros e He; inversion He]. Qed.
Lemma usr1_ok : pending_ok 65 usr1.
Proof. split; [split; [done | reflexivity] | intros e He; inversion He]. Qed.
Lemma demo_sig_ok : sig_ok 65 demo_sig.
Proof.
  split.
  - exists [20]. exact demo_sched_ok.
  - cbn. lia.
  - intros t k E. apply elem_of_list_to_map_2 in E.
    repeat (apply elem_of_cons in E as [E | E]; [injection E as -> -> |]); [| |inversion E];
      (split; [split; [exact no_pending_ok || exact usr1_ok | done] |]); (split; [vm_compute; eauto|]); (split; [vm_compute; eauto|]); intros _; vm_compute; eauto.
  - intros g x E. apply elem_of_list_to_map_2 in E.
    repeat (apply elem_of_cons in E as [E | E]; [injection E as -> -> |]); [| |inversion E]; (split; [exact no_pending_ok|]);
      intros t Ht%list_elem_of_singleton; subst; vm_compute; eauto.
  - intros t k x E Ex _. apply elem_of_list_to_map_2 in E.
    repeat (apply elem_of_cons in E as [E | E]; [injection E as -> -> |]); [| |inversion E]; vm_compute in Ex; injection Ex as <-; left.
  - intros t Ht. repeat (apply elem_of_cons in Ht as [-> | Ht]); [| |inversion Ht]; vm_compute; eauto.
  - intros h. unfold action_of. cbn. destruct (decide (h = 300)) as [-> | Hne]; [rewrite lookup_singleton_eq; done|].
    rewrite lookup_singleton_ne by auto. done.
Qed.

Lemma demo_awake t : awake demo_sig t.
Proof. intros x E [_ Hi]. each_task E; discriminate. Qed.
Lemma demo_attentive : attentive 65 demo_sig.
Proof. intros t k x _ Ex Hx. destruct (demo_awake t x Ex Hx). Qed.

(** The first task finds no signal and goes to sleep, the other one sends it one. *)
Definition demo_ops : list sigop := [Wait 0 12 WTest; Wait 0 12 WPrepare; Send 16 10 10 false].
Lemma demo_valid : all_svalid 65 demo_ops demo_sig.
Proof.
  split; [split; [vm_compute; eauto | apply demo_awake]|]. intros s1 E1. vm_compute in E1. injection E1 as <-.
  split; [split; [vm_compute; eauto | intros x Ex [Hs _]; vm_compute in Ex; injection Ex as <-; done]|].
  intros s2 E2. vm_compute in E2. injection E2 as <-. split; [|done].
  split; [vm_compute; eauto | intros x Ex [Hs _]; vm_compute in Ex; injection Ex as <-; done].
Qed.



Lemma take_signal_correct_witness : ends (ps_take_signal_info 65 16 (Z.ones 64)) demo_sig (fun r _ => r <> None).
Proof.
  eapply ends_mono; [apply (take_signal_correct 65 eq_refl demo_sig 16 (member_of 200 usr1) (Z.ones 64) demo_sig_ok); vm_compute; reflexivity|].
  intros [x|] s'; [discriminate|]. intros [_ H]. specialize (H 10 ltac:(lia)). vm_compute in H. discriminate.
Defined.


Lemma group_signal_correct_witness : ends (ps_queue_group_signal_unsafe 65 12 SIGKILL) demo_sig (fun _ s' => sig_ok 65 s').
Proof.
  eapply ends_mono; [apply (group_signal_correct 65 eq_refl demo_sig 12 (member_of 100 no_pending) (TGroup no_pending 10 10 [12]) SIGKILL demo_sig_ok);
    [vm_compute; reflexivity | vm_compute; reflexivity | done | unfold SIGKILL; lia]|].
  intros v s' [H _]. exact H.
Defined.

Lemma send_signal_correct_witness : ends (send_signal 65 16 10 10 false) demo_sig (fun r _ => r = 0).
Proof.
  eapply ends_mono; [apply (send_signal_correct 65 eq_refl demo_sig 16 (member_of 200 usr1) (TGroup no_pending 11 10 [16]) 10 10 false demo_sig_ok);
    vm_compute; reflexivity|].
  intros r s' (_ & H & _). destruct H as [Hr | _ Hn | t k _ (Ek & Ei & A & B & Ep & HA) _ Hm | t k _ _ _ _]; [lia | | | reflexivity].
  - destruct (Hn 12 (member_of 100 no_pending)); [|split_and!; done].
    split_and!; [vm_compute; reflexivity | vm_compute; reflexivity | exists [], [16]; split; [reflexivity | intros u Hu; inversion Hu]].
  - assert (Hk : cred_euid (who (member_of 200 usr1)) = 0) by reflexivity. destruct Hm. left. exact Hk.
Defined.
End Demo.
