(* ===== verification/SignalFd.v ===== *)
(** * Signal descriptors (signalfd)

    Model of src/fs/impl/signalfd.c, over the signals of [Signal].  A
    descriptor is the address of its signalfd_state, whose mask [fmasks] has;
    a watch is a subscription of a poll table, and counts the calls of
    poll_notify() on its waiters.  The reference a watch holds on its group
    and the installation of the descriptor are not modelled. *)

From S2P Require Import Prelude Sched Signal Poll.

Record signalfd_info := FdInfo {
  f_signo : Z; f_code : Z; f_pid : Z; f_uid : Z; f_tid : Z; f_overrun : Z; f_status : Z;
  f_value_int : Z; f_value_ptr : Z; f_utime : Z; f_stime : Z
}.
Definition INFO_SIZE : Z := 128.

Record signalfd_watch := Watch { w_addr : Z; w_state : Z; w_group : Z; w_tid : Z; w_sequence : Z; w_notified : Z }.

Record fdsys := FdSys { fsig : sigsys; fmasks : gmap Z Z; watches : list signalfd_watch }.

Definition in_sig {A} (m : st sigsys A) : st fdsys A := fun s => '(x, k) ← m (fsig s); Some (x, FdSys k (fmasks s) (watches s)).
Definition mask_of (a : Z) : st fdsys Z := fun s => m ← fmasks s !! a; Some (m, s).
Definition get_watches : st fdsys (list signalfd_watch) := fun s => Some (watches s, s).
Definition set_watches (l : list signalfd_watch) : st fdsys unit := fun s => Some (tt, FdSys (fsig s) (fmasks s) l).
Definition set_mask (a m : Z) : st fdsys unit := fun s => Some (tt, FdSys (fsig s) (<[a := m]> (fmasks s)) (watches s)).

Definition notify (w : signalfd_watch) : signalfd_watch :=
  Watch (w_addr w) (w_state w) (w_group w) (w_tid w) (w_sequence w) (w_notified w + 1).

Definition signalfd_unwatch (a : Z) : st fdsys unit := l ← get_watches; set_watches (filter (fun w => w_addr w <> a) l).

Section SignalFd.
Context (NSIG : Z).

(** A watch after a look at its signals. *)
Definition looked (pending sequence : Z) (w : signalfd_watch) : signalfd_watch :=
  let w := if nz pending && negb (sequence =? w_sequence w) then notify w else w in
  Watch (w_addr w) (w_state w) (w_group w) (w_tid w) sequence (w_notified w).
Fixpoint poll_watches (l : list signalfd_watch) : st fdsys (list signalfd_watch) :=
  match l with
  | [] => mret []
  | w :: l =>
      mask ← mask_of (w_state w);
      r ← in_sig (ps_signalfd_snapshot NSIG (w_tid w) (w_group w) mask);
      l ← poll_watches l;
      mret (looked r.1 r.2 w :: l)
  end.
Definition signalfd_poll_signals : st fdsys unit := l ← get_watches; l ← poll_watches l; set_watches l.

(** signalfd_poll(): [table] is the address of the new watch, or nothing if
    zalloc() failed, and whether the table has room, which poll_table_add()
    marks as unsupported if not; the result has the events and that mark.  The
    watch has the sequence from before it is linked, and the events are looked
    up after that; here this is one step. *)
Definition signalfd_poll (cur a events : Z) (table : option (option Z * bool)) : st fdsys (Z * bool) :=
  unsupported ←
    (match table with
     | None => mret false
     | Some (None, _) => mret true
     | Some (Some addr, room) =>
         k ← in_sig (get_sig cur); x ← in_sig (in_sched (get_task cur));
         mask ← mask_of a;
         r ← in_sig (ps_signalfd_snapshot NSIG (psid x) (thread (who k)) mask);
         (if room then l ← get_watches; set_watches (l ++ [Watch addr a (thread (who k)) (psid x) r.2 0]) else mret tt);;
         mret (negb room)
     end);
  k ← in_sig (get_sig cur); mask ← mask_of a;
  pending ← in_sig (observe (fun s => mret (ps_pending_signals s k)));
  mret (if nz (Z.land pending mask) then Z.land events FS_POLL_READ else 0, unsupported).

(** The record of an event. *)
Definition fd_record (ns : pid_ns) (sig : Z) (i : mos_signal_info) : signalfd_info :=
  FdInfo sig (code i) (ps_pid_for ns (pid i)) (uid i) (if 0 <=? timer_id i then timer_id i else 0) (overrun i) (istatus i)
    (s32 (value i)) (value i) (utime i) (stime i).
Definition signalfd_take (ns : pid_ns) (cur a : Z) : st fdsys (option signalfd_info) :=
  mask ← mask_of a;
  r ← in_sig (ps_take_signal_info NSIG cur mask);
  mret (match r with Some (sig, i) => Some (fd_record ns sig i) | None => None end).

(** The loop of signalfd_read(); [n] records fit, [writes] says which of the
    copies to user memory succeed.  The result and the records written. *)
Fixpoint read_loop (ns : pid_ns) (writes : Z -> bool) (cur a : Z) (n : nat) (r : option signalfd_info) (done : Z)
  : st fdsys (Z * list signalfd_info) :=
  match n, r with
  | S n, Some i =>
      if negb (writes done) then mret (if nz done then done else - EFAULT, []) else
      let done := done + INFO_SIZE in
      match n with
      | O => mret (done, [i])
      | S _ => r ← signalfd_take ns cur a; x ← read_loop ns writes cur a n r done; mret (x.1, i :: x.2)
      end
  | _, _ => mret (done, [])
  end.
(** signalfd_read() from the check of anonfd_read_wait() that finds a signal;
    [None]: it finds none, and the wait goes on or ends with its error. *)
Definition signalfd_read (ns : pid_ns) (writes : Z -> bool) (cur a count : Z) : st fdsys (option (Z * list signalfd_info)) :=
  if count <? INFO_SIZE then mret (Some (- EINVAL, [])) else
  r ← signalfd_take ns cur a;
  match r with
  | None => mret None
  | Some _ => x ← read_loop ns writes cur a (Z.to_nat (count / INFO_SIZE)) r 0; mret (Some x)
  end.

(** [input]: the mask read from user memory; [file]: what anonfd_get() finds,
    a signal descriptor or another file; [state]: the address zalloc() gave;
    [installed]: the result of anonfd_install(). *)
Definition sys_signalfd4 (fd : Z) (input : option Z) (size flags : Z) (file : option (option Z)) (state : option Z) (installed : Z)
  : st fdsys Z :=
  if negb (size =? 8) || nz (Z.ldiff flags (Z.lor O_NONBLOCK O_CLOEXEC)) then mret (- EINVAL) else
  match input with
  | None => mret (- EFAULT)
  | Some input =>
      let signals := Z.ldiff (Z.land input (Z.ones (NSIG - 1))) UNBLOCKABLE in
      if negb (fd =? -1) then
        match file with
        | None => mret (- EBADF)
        | Some None => mret (- EINVAL)
        | Some (Some a) =>
            set_mask a signals;;
            l ← get_watches;
            set_watches ((fun w => if w_state w =? a then notify w else w) <$> l);;
            mret fd
        end
      else
        match state with
        | None => mret (- ENOMEM)
        | Some a => (if installed <? 0 then mret tt else set_mask a signals);; mret installed
        end
  end.
End SignalFd.
