(* ===== verification/SignalFdProof.v ===== *)
(** * Signal descriptors: theorems

    Reading takes what is pending of the mask, a signal makes the next look at
    the watches notify its waiters, and a mask that is replaced can hide one. *)

From S2P Require Import Prelude Slots SlotsProof RbTree RbTreeInv Timer TimerProof Sched SchedInv SchedKeeps SchedProof SchedCorrect Signal SignalProof SignalInv SignalTake SignalOps SignalCorrect Poll SignalFd.

Section SignalFd.
Context (NSIG : Z) (HN : SIGRTMIN_KERNEL < NSIG).
Abbreviation sig_ok := (sig_ok NSIG).

Lemma ends_in_sig {A} (m : st sigsys A) s (Q : A -> fdsys -> Prop) :
  ends m (fsig s) (fun x k => Q x (FdSys k (fmasks s) (watches s))) -> ends (in_sig m) s Q.
Proof. intros (x & k & E & H). exists x. eexists. unfold in_sig. rewrite E. done. Qed.
Lemma runs_mask a m s (Q : Z -> fdsys -> Prop) : fmasks s !! a = Some m -> Q m s -> ends (mask_of a) s Q.
Proof. intros E H. exists m, s. unfold mask_of. rewrite E. done. Qed.

(** ** Reading *)

(** What a take leaves: a record of a signal of the mask, or nothing if none
    was pending. *)
Lemma signalfd_take_ok ns s cur k a mask :
  sig_ok (fsig s) -> stasks (fsig s) !! cur = Some k -> fmasks s !! a = Some mask ->
  ends (signalfd_take NSIG ns cur a) s (fun r s' =>
    sig_ok (fsig s') /\ fmasks s' = fmasks s /\ watches s' = watches s /\
    exists k', stasks (fsig s') !! cur = Some k' /\
    match r with
    | None => s' = s /\ k' = k /\ Z.land (ps_pending_signals (fsig s) k) mask = 0
    | Some i => 1 <= f_signo i < NSIG /\ lowest (Z.land (ps_pending_signals (fsig s) k) mask) (f_signo i)
    end).
Proof.
  intros H E Em. unfold signalfd_take. eapply ends_bind, runs_mask; [exact Em|].
  eapply ends_bind, ends_in_sig, ends_mono; [exact (take_ok NSIG HN (fsig s) cur k mask H E)|]. intros [[sig i]|] s' Ht; apply ends_ret; cbn [fsig fmasks watches].
  - destruct (took_drains NSIG HN _ _ _ _ _ _ _ H E Ht) as (H' & _ & _ & k' & E' & _). destruct Ht as (Hs & Hl & _).
    split; [done|]. split; [done|]. split; [done|]. exists k'. split; [done|]. split; done.
  - destruct Ht as [-> Hz]. split; [done|]. split; [done|]. split; [done|]. exists k. split; [done|]. destruct s. done.
Qed.

Lemma read_loop_ok ns cur a mask n : forall s k r d0,
  sig_ok (fsig s) -> stasks (fsig s) !! cur = Some k -> fmasks s !! a = Some mask ->
  match r with Some i => 1 <= f_signo i < NSIG /\ has mask (f_signo i) = true | None => Z.land (ps_pending_signals (fsig s) k) mask = 0 end ->
  ends (read_loop NSIG ns (fun _ => true) cur a (S n) r d0) s (fun x s' =>
    sig_ok (fsig s') /\ x.1 = d0 + INFO_SIZE * Z.of_nat (length x.2) /\ (length x.2 <= S n)%nat /\ (r <> None -> x.2 <> []) /\
    Forall (fun i => 1 <= f_signo i < NSIG /\ has mask (f_signo i) = true) x.2 /\
    (length x.2 = S n \/ exists k', stasks (fsig s') !! cur = Some k' /\ Z.land (ps_pending_signals (fsig s') k') mask = 0)).
Proof.
  unfold INFO_SIZE. induction n as [|n IH]; intros s k r d0 H E Em Hr; (destruct r as [i|];
    [|apply ends_ret; cbn [fst snd length]; (split; [done|]); (split; [lia|]); (split; [lia|]); (split; [done|]); (split; [constructor|]); right; eauto]).
  - apply ends_ret. cbn [fst snd length]. unfold INFO_SIZE. split; [done|]. split; [lia|]. split; [lia|]. split; [done|]. split; [repeat constructor; apply Hr | left; done].
  - cbn [read_loop negb]. eapply ends_bind, ends_mono; [exact (signalfd_take_ok ns s cur k a mask H E Em)|].
    intros r s1 (H1 & M1 & _ & k1 & E1 & Hr1). eapply ends_bind, ends_mono; [apply (IH s1 k1 r); [done | done | rewrite M1; done|]|].
    + destruct r as [j|]; [|destruct Hr1 as (-> & -> & ?); done]. destruct Hr1 as [? [Hb _]]. split; [done|].
      rewrite has_land in Hb. apply andb_prop in Hb as [_ ?]. done.
    + intros x s2 (H2 & Ex & Hl & _ & Hf & Hd). apply ends_ret. cbn [fst snd length]. unfold INFO_SIZE in *.
      split; [done|]. split; [lia|]. split; [lia|]. split; [done|]. split; [constructor; [exact Hr | exact Hf]|].
      destruct Hd as [Hd | Hd]; [left; lia | right; exact Hd].
Qed.

(** A read of a signal descriptor ends and stores at most as many records
    as fit, each of a signal of the mask, and returns their size; it stops
    only when no other fits or no signal of the mask is pending.  It waits
    exactly when none was pending to begin with. *)
Theorem signalfd_read_correct ns s cur k a mask count :
  sig_ok (fsig s) -> stasks (fsig s) !! cur = Some k -> fmasks s !! a = Some mask -> INFO_SIZE <= count ->
  ends (signalfd_read NSIG ns (fun _ => true) cur a count) s (fun r s' => sig_ok (fsig s') /\
    (r = None <-> Z.land (ps_pending_signals (fsig s) k) mask = 0) /\
    match r with
    | None => s' = s
    | Some (d, l) =>
        d = INFO_SIZE * Z.of_nat (length l) /\ 0 < d <= count /\
        Forall (fun i => 1 <= f_signo i < NSIG /\ has mask (f_signo i) = true) l /\
        (count - d < INFO_SIZE \/ exists k', stasks (fsig s') !! cur = Some k' /\ Z.land (ps_pending_signals (fsig s') k') mask = 0)
    end).
Proof.
  intros H E Em Hc. unfold signalfd_read. rewrite (proj2 (Z.ltb_ge _ _) Hc).
  eapply ends_bind, ends_mono; [exact (signalfd_take_ok ns s cur k a mask H E Em)|]. intros [i|] s1 (H1 & M1 & _ & k1 & E1 & Hr1).
  - destruct Hr1 as [Hi [Hb Hlow]]. assert (Hm : has mask (f_signo i) = true) by (rewrite has_land in Hb; apply andb_prop in Hb as [_ ?]; done).
    assert (Hn : exists n, Z.to_nat (count / INFO_SIZE) = S n).
    { exists (pred (Z.to_nat (count / INFO_SIZE))). assert (1 <= count / INFO_SIZE) by (apply Z.div_le_lower_bound; unfold INFO_SIZE in *; lia). lia. }
    destruct Hn as [n En]. rewrite En. eapply ends_bind, ends_mono; [apply (read_loop_ok ns cur a mask n s1 k1 (Some i) 0); [done | done | rewrite M1; done | done]|].
    intros [d l] s2 (H2 & Ex & Hl & Hne & Hf & Hd). apply ends_ret. cbn [fst snd] in *.
    assert (0 < length l)%nat by (destruct l; [destruct Hne; done | cbn; lia]).
    assert (count = INFO_SIZE * (count / INFO_SIZE) + count mod INFO_SIZE) by (apply Z.div_mod; done).
    assert (0 <= count mod INFO_SIZE < INFO_SIZE) by (apply Z.mod_pos_bound; done). unfold INFO_SIZE in *.
    split; [done|]. split; [split; [done | intros Hz; rewrite Hz, has_0 in Hb; done]|]. split; [lia|]. split; [lia|]. split; [done|].
    destruct Hd as [Hd | Hd]; [left; lia | right; done].
  - destruct Hr1 as (-> & -> & Hz). apply ends_ret. split_and!; done.
Qed.

(** ** Notification *)

Lemma sequence_raise sig j p : sequence_of (raise sig p) j = if j =? sig then u64 (sequence_of p sig + 1) else sequence_of p j.
Proof.
  unfold sequence_of, raise. cbn [signal_sequence]. destruct (Z.eqb_spec j sig) as [-> | Hne]; [rewrite lookup_insert_eq | rewrite lookup_insert_ne by auto]; done.
Qed.

Lemma u64_add_l a b : u64 (u64 a + b) = u64 (a + b).
Proof. unfold u64. apply Z.add_mod_idemp_l. done. Qed.
Lemma u64_add_r a b : u64 (a + u64 b) = u64 (a + b).
Proof. unfold u64. apply Z.add_mod_idemp_r. done. Qed.

Lemma sum_shift mask p o n : forall a x e, sum_sequences mask n a p o (u64 (x + e)) = u64 (sum_sequences mask n a p o (u64 x) + e).
Proof.
  induction n as [|n IH]; intros a x e; cbn [sum_sequences]; [rewrite u64_add_l; done|].
  destruct (nz (Z.land mask (Signal.bit a))); [|apply IH]. destruct o as [q|]; cbv zeta; rewrite !u64_add_l, <- ?Z.add_assoc, ?u64_add_l, <- IH; do 2 f_equal; lia.
Qed.

Lemma sum_raise_other mask sig p o n : forall a x, sig < a -> sum_sequences mask n a (raise sig p) o x = sum_sequences mask n a p o x.
Proof.
  induction n as [|n IH]; intros a x Ha; cbn [sum_sequences]; [done|]. rewrite sequence_raise, (proj2 (Z.eqb_neq a sig)) by lia. apply IH. lia.
Qed.

(** A signal of the mask moves the sum by one. *)
Lemma sum_raise mask sig p o n : forall a x, 1 <= a <= sig -> sig < a + Z.of_nat n -> has mask sig = true ->
  sum_sequences mask n a (raise sig p) o (u64 x) = u64 (sum_sequences mask n a p o (u64 x) + 1).
Proof.
  induction n as [|n IH]; intros a x Ha Hn Hm; [lia|]. cbn [sum_sequences]. rewrite sequence_raise. destruct (Z.eqb_spec a sig) as [-> | Hne].
  - rewrite nz_land_bit, Hm, sum_raise_other by lia. destruct o as [q|]; cbv zeta; rewrite ?u64_add_r, ?u64_add_l, <- ?Z.add_assoc, ?u64_add_l, <- sum_shift; do 2 f_equal; lia.
  - destruct (nz (Z.land mask (Signal.bit a))); [|apply IH; done || lia]. destruct o as [q|]; apply IH; done || lia.
Qed.

Lemma sum_raise_task_other mask sig p q n : forall a x, sig < a ->
  sum_sequences mask n a p (Some (raise sig q)) x = sum_sequences mask n a p (Some q) x.
Proof.
  induction n as [|n IH]; intros a x Ha; cbn [sum_sequences]; [done|]. rewrite sequence_raise, (proj2 (Z.eqb_neq a sig)) by lia. apply IH. lia.
Qed.
Lemma sum_raise_task mask sig p q n : forall a x, 1 <= a <= sig -> sig < a + Z.of_nat n -> has mask sig = true ->
  sum_sequences mask n a p (Some (raise sig q)) (u64 x) = u64 (sum_sequences mask n a p (Some q) (u64 x) + 1).
Proof.
  induction n as [|n IH]; intros a x Ha Hn Hm; [lia|]. cbn [sum_sequences]. rewrite sequence_raise. destruct (Z.eqb_spec a sig) as [-> | Hne].
  - rewrite nz_land_bit, Hm, sum_raise_task_other by lia. cbv zeta. rewrite ?u64_add_r, ?u64_add_l, <- ?Z.add_assoc, ?u64_add_l, <- sum_shift. do 2 f_equal; lia.
  - destruct (nz (Z.land mask (Signal.bit a))); apply IH; done || lia.
Qed.
(** A signal outside the mask does not count. *)
Lemma sum_masked mask sig p q o n : forall a x, 1 <= a -> has mask sig = false ->
  sum_sequences mask n a (raise sig p) o x = sum_sequences mask n a p o x /\
  sum_sequences mask n a p (Some (raise sig q)) x = sum_sequences mask n a p (Some q) x.
Proof.
  induction n as [|n IH]; intros a x Ha Hm; cbn [sum_sequences]; [done|]. rewrite !sequence_raise. destruct (Z.eqb_spec a sig) as [-> | Hne].
  - rewrite nz_land_bit, Hm by lia. apply IH; [lia | done].
  - split; apply IH; lia || done.
Qed.

(** What a snapshot sees of the task of a watch. *)
Definition seen (s : sigsys) (tid g : Z) : option pending :=
  t ← ps_find_process_unsafe s tid; k ← stasks s !! t; if thread (who k) =? g then Some (local (signal k)) else None.
Definition snapshot (s : sigsys) (tid : Z) (g : Z) (x : tgroup) (mask : Z) : Z * Z :=
  (Z.land (match seen s tid g with Some p => Z.lor (sig_pending (shared x)) (sig_pending p) | None => sig_pending (shared x) end) mask,
   sum_sequences mask (Z.to_nat (NSIG - 1)) 1 (shared x) (seen s tid g) 0).
Lemma runs_snapshot s tid g x mask (Q : Z * Z -> sigsys -> Prop) :
  sgroups s !! g = Some x -> Q (snapshot s tid g x mask) s -> ends (ps_signalfd_snapshot NSIG tid g mask) s Q.
Proof. intros E H. unfold ps_signalfd_snapshot. eapply ends_bind, runs_tgroup; [exact E|]. apply runs_observe, ends_ret. exact H. Qed.

(** The task of a watch, while it is in the group. *)
Definition watched (s : sigsys) (tid g : Z) : option Z :=
  t ← ps_find_process_unsafe s tid; k ← stasks s !! t; if thread (who k) =? g then Some t else None.
Lemma seen_watched s tid g : seen s tid g = t ← watched s tid g; k ← stasks s !! t; Some (local (signal k)).
Proof.
  unfold seen, watched. destruct (ps_find_process_unsafe s tid) as [t|]; [|done]. cbn. destruct (stasks s !! t) as [k|] eqn:E; [|done]. cbn.
  destruct (thread (who k) =? g); cbn; [rewrite E|]; done.
Qed.

Lemma woken_watched sig c s s' tid g : woken sig c s s' -> watched s' tid g = watched s tid g.
Proof.
  intros [_ W2 W3 _ _ W6 _ _]. unfold watched.
  assert (Hf : ps_find_process_unsafe s' tid = ps_find_process_unsafe s tid).
  { unfold ps_find_process_unsafe. rewrite W6. f_equal. apply list_filter_iff. intros t. unfold psid_in. rewrite W2.
    destruct (tasks (ssys s) !! t); cbn; [destruct (c t)|]; done. }
  rewrite Hf. destruct (ps_find_process_unsafe s tid) as [t|]; [|done]. cbn. rewrite W3. destruct (stasks s !! t); cbn; [|done]. destruct (c t && _); done.
Qed.
(** Waking tasks changes nothing a snapshot sees of them. *)
Lemma woken_seen sig c s s' tid g : woken sig c s s' -> seen s' tid g = seen s tid g.
Proof.
  intros Hw. rewrite !seen_watched, (woken_watched _ _ _ _ _ _ Hw). destruct (watched s tid g) as [t|]; [|done]. cbn.
  rewrite (wk_signals _ _ _ _ Hw). destruct (stasks s !! t); cbn; [|done]. destruct (c t && _); done.
Qed.

(** A signal, to the task [t] or to its group, that the watch on [tid] and
    the group [g] is for. *)
Definition reaches (s : sigsys) (tid g mask : Z) (e : Z * Z * bool) : bool :=
  let '(t, sig, d) := e in
  has mask sig && (if d then bool_decide (watched s tid g = Some t)
                   else from_option (fun k => thread (who k) =? g) false (stasks s !! t)).

Lemma local_watched s t k f tid g : stasks s !! t = Some k ->
  watched (set_stasks (<[t := on_local f k]> (stasks s)) s) tid g = watched s tid g.
Proof.
  intros E. unfold watched. change (ps_find_process_unsafe (set_stasks _ s) tid) with (ps_find_process_unsafe s tid).
  destruct (ps_find_process_unsafe s tid) as [u|]; [|done]. cbn. destruct (decide (u = t)) as [-> | Hu]; [rewrite lookup_insert_eq, E|rewrite lookup_insert_ne by auto]; done.
Qed.

(** What a raise leaves as it was. *)
Definition stable (s s' : sigsys) : Prop :=
  (forall tid g, watched s' tid g = watched s tid g) /\
  (forall t, option_Forall2 (fun k k' => who k' = who k) (stasks s !! t) (stasks s' !! t)) /\
  (forall g, is_Some (sgroups s !! g) -> is_Some (sgroups s' !! g)).
Lemma stable_reaches s s' tid g mask e : stable s s' -> reaches s' tid g mask e = reaches s tid g mask e.
Proof.
  intros (Hw & Ht & _). destruct e as [[t sig] d]. unfold reaches. rewrite Hw. f_equal. destruct d; [done|].
  specialize (Ht t). inversion Ht as [k k' E|]; [|done]. cbn. rewrite E. done.
Qed.

(** What a signal does to the sum a watch sees. *)
Definition counts (s s' : sigsys) (n : Z -> Z -> Z -> Z) : Prop :=
  forall tid g x mask, sgroups s !! g = Some x -> exists x', sgroups s' !! g = Some x' /\
    (snapshot s' tid g x' mask).2 = u64 ((snapshot s tid g x mask).2 + n tid g mask).

Lemma sum_u64 mask p o n : forall a x, u64 x = x -> u64 (sum_sequences mask n a p o x) = sum_sequences mask n a p o x.
Proof.
  induction n as [|n IH]; intros a x Hx; cbn [sum_sequences]; [done|]. apply IH. destruct (nz _); [|done].
  destruct o; cbv zeta; unfold u64; apply Z.mod_mod; done.
Qed.
Lemma snapshot_u64 s tid g x mask : u64 ((snapshot s tid g x mask).2 + 0) = (snapshot s tid g x mask).2.
Proof. rewrite Z.add_0_r. apply sum_u64. done. Qed.

Lemma group_counts s s' t k x sig c :
  1 <= sig < NSIG -> stasks s !! t = Some k -> sgroups s !! thread (who k) = Some x ->
  woken sig c (set_groups (<[thread (who k) := on_shared (raise sig) x]> (sgroups s)) s) s' ->
  counts s s' (fun tid g mask => b2z (reaches s tid g mask (t, sig, false))).
Proof.
  intros Hs E Ex Hw tid g y mask Ey. rewrite (wk_groups _ _ _ _ Hw). cbn [sgroups set_groups]. unfold snapshot.
  rewrite (woken_seen _ _ _ _ tid g Hw). change (seen (set_groups _ s) tid g) with (seen s tid g). unfold reaches. rewrite E. cbn [from_option snd].
  destruct (Z.eqb_spec (thread (who k)) g) as [<- | Hg].
  - rewrite lookup_insert_eq. eexists. split; [done|]. rewrite Ex in Ey. injection Ey as <-. rewrite andb_true_r. cbn [shared on_shared].
    destruct (has mask sig) eqn:Hm; cbn [b2z].
    + apply (sum_raise mask sig (shared x) (seen s tid (thread (who k))) _ 1 0); lia || done.
    + rewrite (proj1 (sum_masked mask sig (shared x) (shared x) (seen s tid (thread (who k))) _ 1 0 ltac:(lia) Hm)).
      rewrite Z.add_0_r. symmetry. apply sum_u64. done.
  - rewrite lookup_insert_ne by done. exists y. split; [done|]. rewrite andb_false_r. symmetry. exact (snapshot_u64 s tid g y mask).
Qed.

Lemma task_counts s s' t k sig c :
  1 <= sig < NSIG -> stasks s !! t = Some k -> woken sig c (set_stasks (<[t := on_local (raise sig) k]> (stasks s)) s) s' ->
  counts s s' (fun tid g mask => b2z (reaches s tid g mask (t, sig, true))).
Proof.
  intros Hs E Hw tid g y mask Ey. rewrite (wk_groups _ _ _ _ Hw). exists y. split; [done|]. unfold snapshot. rewrite (woken_seen _ _ _ _ tid g Hw).
  assert (Hwt : watched (set_stasks (<[t := on_local (raise sig) k]> (stasks s)) s) tid g = watched s tid g) by exact (local_watched s t k _ tid g E).
  unfold reaches. cbn [snd]. case_bool_decide as Ht.
  - rewrite andb_true_r, !seen_watched, Hwt, Ht. cbn. rewrite lookup_insert_eq, E. cbn. destruct (has mask sig) eqn:Hm; cbn [b2z].
    + apply (sum_raise_task mask sig (shared y) (local (signal k)) _ 1 0); lia || done.
    + rewrite (proj2 (sum_masked mask sig (shared y) (local (signal k)) None _ 1 0 ltac:(lia) Hm)). rewrite Z.add_0_r. symmetry. apply sum_u64. done.
  - rewrite andb_false_r, !seen_watched, Hwt. cbn [b2z]. assert (Hsame : (u ← watched s tid g; k0 ← <[t := on_local (raise sig) k]> (stasks s) !! u; Some (local (signal k0)))
      = (u ← watched s tid g; k0 ← stasks s !! u; Some (local (signal k0)))).
    { destruct (watched s tid g) as [u|]; [|done]. cbn. rewrite lookup_insert_ne by congruence. done. }
    cbn [stasks set_stasks]. rewrite Hsame, Z.add_0_r. symmetry. apply sum_u64. done.
Qed.

(** The watches can be looked at. *)
Definition watch_ok (s : fdsys) (w : signalfd_watch) : Prop := is_Some (fmasks s !! w_state w) /\ is_Some (sgroups (fsig s) !! w_group w).

Lemma poll_watches_ok l s : Forall (watch_ok s) l ->
  ends (poll_watches NSIG l) s (fun l' s' => s' = s /\ Forall2 (fun w w' => exists mask x,
    fmasks s !! w_state w = Some mask /\ sgroups (fsig s) !! w_group w = Some x /\
    w' = looked (snapshot (fsig s) (w_tid w) (w_group w) x mask).1 (snapshot (fsig s) (w_tid w) (w_group w) x mask).2 w) l l').
Proof.
  induction l as [|w l IH]; intros Hl; [apply ends_ret; split; [done | constructor]|]. inversion_clear Hl as [|? ? [[m Em] [x Ex]] Hl']. cbn [poll_watches].
  eapply ends_bind, runs_mask; [exact Em|]. eapply ends_bind, ends_in_sig, runs_snapshot; [exact Ex|]. destruct s as [s fm ws]. cbn [fsig fmasks watches] in *.
  eapply ends_bind, ends_mono; [exact (IH Hl')|]. intros l' s' [-> Hf]. apply ends_ret. split; [done|]. constructor; [eauto | exact Hf].
Qed.

(** A signal to a task or to its group. *)
Lemma queue_counts s t k sig d :
  sig_ok s -> stasks s !! t = Some k -> 1 <= sig < NSIG ->
  ends (queue_to NSIG t sig d) s (fun _ s' => sig_ok s' /\ stable s s' /\
    counts s s' (fun tid g mask => b2z (reaches s tid g mask (t, sig, d)))).
Proof.
  intros H E Hs. destruct (sg_task _ _ H _ _ E) as ((Hp & _) & _). destruct d; cbn [queue_to].
  - eapply ends_mono; [apply (raise_task NSIG HN s t k (raise sig) sig H E Hs), raise_adds; done|].
    intros [] s' (Hw & H' & F' & _). split; [done|]. split; [|exact (task_counts _ _ _ _ _ _ Hs E Hw)]. split; [|split; [apply F'|]].
    + intros tid g. rewrite (woken_watched _ _ _ _ _ _ Hw). apply (local_watched s t k _ tid g E).
    + intros g [y Ey]. rewrite (wk_groups _ _ _ _ Hw). eauto.
  - destruct (known_group NSIG s t k H E) as [x Ex]. destruct (sg_group _ _ H _ _ Ex) as [Hg _].
    unfold ps_queue_group_signal_unsafe. eapply ends_bind, runs_sig; [exact E|].
    eapply ends_mono; [apply (raise_group NSIG HN s (thread (who k)) x (raise sig) sig H Ex Hs), raise_adds; done|].
    intros [] s' (Hw & H' & F' & _). split; [done|]. split; [|exact (group_counts _ _ _ _ _ _ _ Hs E Ex Hw)]. split; [|split; [apply F'|]].
    + intros tid g. rewrite (woken_watched _ _ _ _ _ _ Hw). done.
    + intros g Hy. rewrite (wk_groups _ _ _ _ Hw). apply lookup_insert_is_Some'. auto.
Qed.

(** Signals sent one after the other. *)
Fixpoint send_all (es : list (Z * Z * bool)) : st sigsys unit :=
  match es with [] => mret tt | (t, sig, d) :: es => queue_to NSIG t sig d;; send_all es end.
Definition sendable (s : sigsys) (e : Z * Z * bool) : Prop := is_Some (stasks s !! e.1.1) /\ 1 <= e.1.2 < NSIG.
Definition reaching (s : sigsys) (tid g mask : Z) (es : list (Z * Z * bool)) : nat := length (filter (reaches s tid g mask) es).

Lemma send_all_counts es : forall s, sig_ok s -> Forall (sendable s) es ->
  ends (send_all es) s (fun _ s' => sig_ok s' /\ stable s s' /\ counts s s' (fun tid g mask => Z.of_nat (reaching s tid g mask es))).
Proof.
  induction es as [|[[t sig] d] es IH]; intros s H Hv; cbn [send_all].
  { apply ends_ret. split; [done|]. split; [split_and!; try done; intros t; destruct (stasks s !! t); constructor; done|].
    intros tid g x mask Ex. exists x. split; [done|]. symmetry. apply snapshot_u64. }
  inversion_clear Hv as [|? ? [[k E] Hs] Hv']. eapply ends_bind, ends_mono; [exact (queue_counts s t k sig d H E Hs)|].
  intros [] s1 (H1 & S1 & C1). pose proof S1 as (Sa & Sb & Sc). eapply ends_mono; [apply (IH s1 H1)|].
  { eapply Forall_impl; [exact Hv'|]. intros e [[ke Ee] He]. split; [|done]. specialize (Sb e.1.1). rewrite Ee in Sb. inversion Sb; eauto. }
  intros [] s2 (H2 & (Ta & Tb & Tc) & C2). split; [done|]. split.
  - split; [intros; rewrite Ta; apply Sa|]. split; [|auto]. intros u. specialize (Sb u). specialize (Tb u).
    destruct (stasks s1 !! u); inversion Sb; subst; inversion Tb; subst; constructor. congruence.
  - intros tid g x0 mask Ex0. destruct (C1 tid g x0 mask Ex0) as (x1 & Ex1 & Eq1). destruct (C2 tid g x1 mask Ex1) as (x2 & Ex2 & Eq2).
    exists x2. split; [done|]. rewrite Eq2, Eq1, u64_add_l, <- Z.add_assoc. do 2 f_equal. unfold reaching.
    rewrite (list_filter_iff (reaches s1 tid g mask) (reaches s tid g mask)) by (intros e; rewrite (stable_reaches _ _ _ _ _ _ S1); done).
    rewrite filter_cons. destruct (reaches s tid g mask (t, sig, d)) eqn:Er; [rewrite decide_True by done | rewrite decide_False by (intros [])];
      cbn [length b2z]; lia.
Qed.

Lemma u64_moved x n : u64 x = x -> 0 <= n < UINT64_MOD -> (u64 (x + n) =? x) = (n =? 0).
Proof.
  unfold u64, UINT64_MOD. intros Hx Hn. assert (0 <= x < 2 ^ 64) by (rewrite <- Hx; apply Z.mod_pos_bound; lia).
  destruct (Z.eqb_spec n 0) as [-> | Hne]; [rewrite Z.add_0_r, Hx; apply Z.eqb_refl|]. apply Z.eqb_neq.
  destruct (Z.lt_ge_cases (x + n) (2 ^ 64)); [rewrite Z.mod_small by lia; lia|].
  replace (x + n) with (x + n - 2 ^ 64 + 1 * 2 ^ 64) by lia. rewrite Z.mod_add, Z.mod_small by lia. lia.
Qed.

(** A signal of the mask is pending for the group or the task of the watch. *)
Definition has_pending (s : sigsys) (w : signalfd_watch) (mask : Z) : Prop := exists sig, 1 <= sig /\ has mask sig = true /\
  ((exists x, sgroups s !! w_group w = Some x /\ has (sig_pending (shared x)) sig = true) \/
   exists t k, watched s (w_tid w) (w_group w) = Some t /\ stasks s !! t = Some k /\ has (sig_pending (local (signal k))) sig = true).

Lemma snapshot_pending s w x mask : sgroups s !! w_group w = Some x -> has_pending s w mask ->
  nz (snapshot s (w_tid w) (w_group w) x mask).1 = true.
Proof.
  intros Ex (sig & Hs & Hm & Hp). unfold snapshot. cbn [fst]. apply negb_true_iff, Z.eqb_neq. intros Hz.
  assert (Hc : has 0 sig = true); [|rewrite has_0 in Hc; done]. rewrite <- Hz, has_land, Hm, andb_true_r, seen_watched.
  destruct Hp as [(y & Ey & Hy) | (t & k & Ew & Ek & Hk)]; [|rewrite Ew; cbn; rewrite Ek; cbn; rewrite has_lor, Hk, orb_true_r; done].
  rewrite Ex in Ey. injection Ey as <-. destruct (_ ≫= _); [rewrite has_lor|]; rewrite Hy; done.
Qed.

End SignalFd.

(** ** A descriptor of the first of two processes *)

Module Demo.
Import SignalCorrect.Demo.

(** Descriptor 500 takes SIGUSR1, descriptor 600 SIGUSR1 and SIGUSR2. *)
Definition demo_masks : gmap Z Z := {[500 := Signal.bit 10; 600 := Z.lor (Signal.bit 10) (Signal.bit 12)]}.
Definition demo_watch : signalfd_watch := Watch 700 500 100 10 0 0.
Definition demo_fd : fdsys := FdSys demo_sig demo_masks [demo_watch].

(** The second process reads the SIGUSR1 that it has pending. *)
Lemma signalfd_read_correct_witness : ends (signalfd_read 65 None (fun _ => true) 16 500 256) demo_fd (fun r _ => r <> None).
Proof.
  eapply ends_mono; [apply (signalfd_read_correct 65 eq_refl None demo_fd 16 (member_of 200 usr1) 500 (Signal.bit 10) 256 demo_sig_ok);
    [vm_compute; reflexivity | vm_compute; reflexivity | unfold INFO_SIZE; lia]|].
  intros r s' (_ & Hr & _) E. apply Hr in E. vm_compute in E. discriminate.
Defined.

(** SIGUSR1 is sent to the thread of the watch, and SIGUSR2 to its group. *)
Definition demo_sends : list (Z * Z * bool) := [(12, 10, true); (12, 12, false)].

(** The watch saw one SIGUSR1 when the mask becomes that of SIGUSR2 alone.
    The SIGUSR2 that is sent then has the same sum, and the next look at the
    watches does not notify although the signal is pending. *)
Definition stale_run : st fdsys unit :=
  in_sig (ps_queue_group_signal_unsafe 65 12 10);;
  signalfd_poll_signals 65;;
  _ ← in_sig (ps_take_signal_info 65 12 (Signal.bit 10));
  _ ← sys_signalfd4 65 3 (Some (Signal.bit 12)) 8 0 (Some (Some 500)) None 0;
  in_sig (ps_queue_group_signal_unsafe 65 12 12);;
  signalfd_poll_signals 65.
(** Notified by the first signal and by the change of the mask only. *)
Lemma signalfd_mask_hides_signal : exists s' w, stale_run demo_fd = Some (tt, s') /\ watches s' = [w] /\ w_notified w = 2 /\
  from_option (fun g => has (sig_pending (shared g)) 12) false (sgroups (fsig s') !! 100) = true.
Proof. eexists _, _. split; [vm_compute; reflexivity|]. split; [reflexivity|]. split; vm_compute; reflexivity. Qed.
End Demo.
