(* ===== verification/Shm.v ===== *)
(** * System V shared memory

    Model of src/syscall/impl/sys_ipc.c.  A section under mos_shm_lock is one
    step.  shmat(2) has more: it looks up the segment and reserves a record,
    maps a region, then without the lock reads, allocates, stores and maps the
    pages of the segment one by one, each of these a step, and enters the
    record; between any two of them other tasks run, while it keeps a pointer
    to the segment, here the number of its slot.

    A red-black tree is the list of its nodes in order: an insertion goes
    before the first node that its comparison puts behind it, a search finds
    the first node that matches.  Entries of the static arrays that are all
    zero are absent from the maps. *)

From S2P Require Import Prelude Slots Phymm.

Definition MOS_IPC_PRIVATE : Z := 0.
Definition MOS_IPC_CREAT : Z := 0x200.
Definition MOS_IPC_EXCL : Z := 0x400.
Definition MOS_IPC_RMID : Z := 0.
Definition MOS_IPC_STAT : Z := 2.
Definition MOS_IPC_64 : Z := 0x100.
Definition MOS_SHM_RDONLY : Z := 0x1000.
Definition MOS_SHM_RND : Z := 0x2000.
Definition MOS_SHM_SEGMENT_MAX : Z := 32.
Definition MOS_SHM_ATTACH_MAX : Z := 64.
Definition PROT_READ : Z := 1.
Definition PROT_WRITE : Z := 2.
Definition MAP_SHARED : Z := 1.
Definition MAP_FIXED : Z := 0x10.
Definition MAP_ANONYMOUS : Z := 0x20.
Definition INT_MAX : Z := 2 ^ 31 - 1.

Record mos_shm_segment := Segment {
  removed : bool; namespace_id : Z; key : Z; shmid : Z; size : Z; page_count : Z; pages : list Z;
  owner_pid : Z; creator_uid : Z; creator_gid : Z; mode : Z; ctime : Z; attach_count : Z
}.
Definition zero_segment : mos_shm_segment := Segment false 0 0 0 0 0 [] 0 0 0 0 0 0.
Record mos_shm_attach := Attach { at_shmid : Z; at_owner : Z; at_addr : Z; at_size : Z }.

(** What a task does to its address space. *)
Inductive call := Mmap (addr size prot flags : Z) | MapPage (vir phy : Z) (write : bool) | Munmap (addr size : Z).

(** A shmat(2) that has left the lock: the segment and the record it points
    to, and how far it is.  In the loop over the pages [vir] and [n] are its
    variables: it is at the test and reads entry [n], allocates a page, stores
    page [i], or maps the page at [phy]; or the loop has failed or ended. *)
Inductive phase :=
  | Reserved | Reading (addr vir : Z) (n : nat) | Allocating (addr vir : Z) (n : nat) | Storing (addr vir : Z) (n : nat) (i : Z)
  | Mapping (addr vir : Z) (n : nat) (phy : Z)
  | Failed (addr : Z) | Filled (addr : Z).
Record flight := Flight { fl_shmid : Z; fl_segment : Z; fl_attach : Z; fl_addr : Z; fl_prot : Z; fl_flags : Z; fl_phase : phase }.

(** The task that calls. *)
Record caller := Caller { psid : Z; ipc_ns : Z; euid : Z; egid : Z }.

Record shm := Shm {
  segments : gmap Z mos_shm_segment; attaches : gmap Z mos_shm_attach; next_id : Z;
  ids : list Z; keys : list Z; addresses : list Z;
  segment_slots : slot_pool; attach_slots : slot_pool;
  phys : phymm; flights : gmap Z flight; calls : list (Z * call)
}.
Abbreviation H := (st shm).

Definition set_segments (m : gmap Z mos_shm_segment) (s : shm) : shm :=
  Shm m (attaches s) (next_id s) (ids s) (keys s) (addresses s) (segment_slots s) (attach_slots s) (phys s) (flights s) (calls s).
Definition set_attaches (m : gmap Z mos_shm_attach) (l : list Z) (s : shm) : shm :=
  Shm (segments s) m (next_id s) (ids s) (keys s) l (segment_slots s) (attach_slots s) (phys s) (flights s) (calls s).
Definition set_next_id (n : Z) (s : shm) : shm :=
  Shm (segments s) (attaches s) n (ids s) (keys s) (addresses s) (segment_slots s) (attach_slots s) (phys s) (flights s) (calls s).
Definition set_trees (i k : list Z) (s : shm) : shm :=
  Shm (segments s) (attaches s) (next_id s) i k (addresses s) (segment_slots s) (attach_slots s) (phys s) (flights s) (calls s).
Definition set_slots (p q : slot_pool) (s : shm) : shm :=
  Shm (segments s) (attaches s) (next_id s) (ids s) (keys s) (addresses s) p q (phys s) (flights s) (calls s).
Definition set_phys (p : phymm) (s : shm) : shm :=
  Shm (segments s) (attaches s) (next_id s) (ids s) (keys s) (addresses s) (segment_slots s) (attach_slots s) p (flights s) (calls s).
Definition set_flights (m : gmap Z flight) (s : shm) : shm :=
  Shm (segments s) (attaches s) (next_id s) (ids s) (keys s) (addresses s) (segment_slots s) (attach_slots s) (phys s) m (calls s).
Definition set_calls (l : list (Z * call)) (s : shm) : shm :=
  Shm (segments s) (attaches s) (next_id s) (ids s) (keys s) (addresses s) (segment_slots s) (attach_slots s) (phys s) (flights s) l.

Definition undefined {A} : H A := fun _ => None.
Definition look {A} (f : shm -> A) : H A := fun s => Some (f s, s).
Definition change (f : shm -> shm) : H unit := fun s => Some (tt, f s).
Definition log (t : Z) (c : call) : H unit := change (fun s => set_calls (calls s ++ [(t, c)]) s).

(** The segment behind a pointer. *)
Definition segment_at (s : shm) (i : Z) : mos_shm_segment := default zero_segment (segments s !! i).
Definition attach_at (s : shm) (i : Z) : mos_shm_attach := default (Attach 0 0 0 0) (attaches s !! i).

(** ** Slots *)

Definition take_segment_slot : H Z := fun s =>
  '(i, p) ← slot_take (segment_slots s) MOS_SHM_SEGMENT_MAX; Some (i, set_slots p (attach_slots s) s).
Definition take_attach_slot : H Z := fun s =>
  '(i, p) ← slot_take (attach_slots s) MOS_SHM_ATTACH_MAX; Some (i, set_slots (segment_slots s) p s).
Definition return_segment_slot (i : Z) : H unit := fun s =>
  p ← slot_return (segment_slots s) i; Some (tt, set_slots p (attach_slots s) s).
Definition return_attach_slot (i : Z) : H unit := fun s =>
  p ← slot_return (attach_slots s) i; Some (tt, set_slots (segment_slots s) p s).

(** ** Trees *)

Fixpoint tree_insert (before : Z -> bool) (n : Z) (l : list Z) : list Z :=
  match l with [] => [n] | x :: l => if before x then n :: x :: l else x :: tree_insert before n l end.
Definition tree_find (match_ : Z -> bool) (l : list Z) : option Z := head (filter (fun x => match_ x = true) l).
Definition tree_erase (n : Z) (l : list Z) : list Z := filter (fun x => x <> n) l.

Definition shm_ids_find (s : shm) (id : Z) : option Z := tree_find (fun i => shmid (segment_at s i) =? id) (ids s).
Definition id_before (s : shm) (i o : Z) : bool := shmid (segment_at s i) <? shmid (segment_at s o).
Definition shm_ids_insert (i : Z) : H unit := change (fun s => set_trees (tree_insert (id_before s i) i (ids s)) (keys s) s).

Definition shm_keys_find (s : shm) (ns k : Z) : option Z :=
  tree_find (fun i => (ns =? namespace_id (segment_at s i)) && (k =? key (segment_at s i))) (keys s).
Definition key_before (s : shm) (i o : Z) : bool :=
  let seg := segment_at s i in
  let other := segment_at s o in
  (namespace_id seg <? namespace_id other) || ((namespace_id seg =? namespace_id other) && (key seg <? key other)).
Definition shm_keys_insert (i : Z) : H unit := change (fun s => set_trees (ids s) (tree_insert (key_before s i) i (keys s)) s).

Definition shm_address_find (s : shm) (owner addr : Z) : option Z :=
  tree_find (fun i => (owner =? at_owner (attach_at s i)) && (addr =? at_addr (attach_at s i))) (addresses s).
(** Equal addresses go by their place in the array. *)
Definition address_before (s : shm) (i o : Z) : bool :=
  let a := attach_at s i in
  let other := attach_at s o in
  (at_owner a <? at_owner other) ||
  ((at_owner a =? at_owner other) && ((at_addr a <? at_addr other) || ((at_addr a =? at_addr other) && (i <? o)))).
Definition shm_address_insert (i : Z) : H unit := change (fun s =>
  set_attaches (attaches s) (tree_insert (address_before s i) i (addresses s)) s).

(** *** The trees themselves

    The loops of the searches and of the insertions, on a tree of any shape:
    [descend] stops at a node that matches, [descend_low] goes on to its left,
    [link] puts a node where the way down ends. *)

Inductive tree := Leaf | Node (lc : tree) (x : Z) (rc : tree).
Fixpoint in_order (r : tree) : list Z := match r with Leaf => [] | Node lc x rc => in_order lc ++ x :: in_order rc end.
Fixpoint descend (here left_ : Z -> bool) (r : tree) : option Z :=
  match r with
  | Leaf => None
  | Node lc x rc => if here x then Some x else descend here left_ (if left_ x then lc else rc)
  end.
Fixpoint descend_low (here left_ : Z -> bool) (found : option Z) (r : tree) : option Z :=
  match r with
  | Leaf => found
  | Node lc x rc => if here x then descend_low here left_ (Some x) lc else descend_low here left_ found (if left_ x then lc else rc)
  end.
Fixpoint link (left_ : Z -> bool) (n : Z) (r : tree) : tree :=
  match r with
  | Leaf => Node Leaf n Leaf
  | Node lc x rc => if left_ x then Node (link left_ n lc) x rc else Node lc x (link left_ n rc)
  end.

Definition ids_descend (s : shm) (id : Z) : tree -> option Z :=
  descend (fun i => shmid (segment_at s i) =? id) (fun i => id <? shmid (segment_at s i)).
Definition keys_descend (s : shm) (ns k : Z) : tree -> option Z :=
  descend (fun i => (ns =? namespace_id (segment_at s i)) && (k =? key (segment_at s i)))
    (fun i => (ns <? namespace_id (segment_at s i)) || ((ns =? namespace_id (segment_at s i)) && (k <? key (segment_at s i)))).
Definition address_descend (s : shm) (owner addr : Z) : tree -> option Z :=
  descend_low (fun i => (owner =? at_owner (attach_at s i)) && (addr =? at_addr (attach_at s i)))
    (fun i => (owner <? at_owner (attach_at s i)) || ((owner =? at_owner (attach_at s i)) && (addr <? at_addr (attach_at s i)))) None.

(** ** Segments

    [W]: 2 to the width of size_t, [PTR]: sizeof(paddr_t). *)

Section Operations.
Context {cfg : PhysConfig} (W PTR : Z).

Definition set_removed (seg : mos_shm_segment) : mos_shm_segment :=
  Segment true (namespace_id seg) (key seg) (shmid seg) (size seg) (page_count seg) (pages seg) (owner_pid seg)
    (creator_uid seg) (creator_gid seg) (mode seg) (ctime seg) (attach_count seg).
Definition set_page_at (n : nat) (phy : Z) (seg : mos_shm_segment) : mos_shm_segment :=
  Segment (removed seg) (namespace_id seg) (key seg) (shmid seg) (size seg) (page_count seg) (<[n := phy]> (pages seg)) (owner_pid seg)
    (creator_uid seg) (creator_gid seg) (mode seg) (ctime seg) (attach_count seg).
Definition set_count (n : Z) (seg : mos_shm_segment) : mos_shm_segment :=
  Segment (removed seg) (namespace_id seg) (key seg) (shmid seg) (size seg) (page_count seg) (pages seg) (owner_pid seg)
    (creator_uid seg) (creator_gid seg) (mode seg) (ctime seg) n.
Definition put_segment (i : Z) (seg : mos_shm_segment) : H unit := change (fun s => set_segments (<[i := seg]> (segments s)) s).

(** The loop over the pages of a segment. *)
Fixpoint release_pages (l : list Z) (p : phymm) : phymm :=
  match l with
  | [] => p
  | phy :: l =>
      if negb (nz phy) then release_pages l p else
      let page_index := u32 (phy / PAGE_SIZE) in
      let '(r, p) := phymm_dereference_page p page_index in
      release_pages l (if r =? 0 then phymm_free_user p page_index else p)
  end.
Definition mos_shm_destroy_segment (i : Z) : H unit :=
  seg ← look (fun s => segment_at s i);
  change (fun s => set_trees (tree_erase i (ids s)) (keys s) s);;
  (if negb (key seg =? MOS_IPC_PRIVATE) && negb (removed seg)
   then change (fun s => set_trees (ids s) (tree_erase i (keys s)) s) else mret tt);;
  change (fun s => set_phys (release_pages (pages seg) (phys s)) s);;
  return_segment_slot i;;
  change (fun s => set_segments (delete i (segments s)) s).

(** The array has as many entries as fit in what kmalloc() is asked for, which
    takes an unsigned.  [allocated]: it gave the memory; [now]: the wall clock
    in seconds.  The counter of identifiers is an int. *)
Definition mos_shm_create (c : caller) (allocated : bool) (now k sz md : Z) : H Z :=
  let rounded := (sz + PAGE_SIZE - 1) mod W in
  let count := if rounded / PAGE_SIZE =? 0 then 1 else rounded / PAGE_SIZE in
  if negb allocated then mret (- ENOMEM) else
  i ← take_segment_slot;
  if i <? 0 then mret (- ENOSPC) else
  id ← look next_id;
  (if id =? INT_MAX then undefined else change (set_next_id (id + 1)));;
  let bytes := rounded / PAGE_SIZE * PAGE_SIZE in
  put_segment i
    (Segment false (ipc_ns c) k id (if bytes =? 0 then PAGE_SIZE else bytes) count
       (replicate (Z.to_nat (u32 (PTR * count) / PTR)) 0) (psid c) (euid c) (egid c) (Z.land md 0x1ff) (u32 now) 0);;
  shm_ids_insert i;;
  (if negb (k =? MOS_IPC_PRIVATE) then shm_keys_insert i else mret tt);;
  mret id.

Definition sys_shmget (c : caller) (allocated : bool) (now k sz shmflg : Z) : H Z :=
  if sz =? 0 then mret (- EINVAL) else
  found ← (if k =? MOS_IPC_PRIVATE then mret None else look (fun s => shm_keys_find s (ipc_ns c) k));
  match found with
  | Some i =>
      seg ← look (fun s => segment_at s i);
      if nz (Z.land shmflg MOS_IPC_CREAT) && nz (Z.land shmflg MOS_IPC_EXCL) then mret (- EEXIST) else
      if size seg <? sz then mret (- EINVAL) else mret (shmid seg)
  | None =>
      if negb (k =? MOS_IPC_PRIVATE) && negb (nz (Z.land shmflg MOS_IPC_CREAT)) then mret (- ENOENT)
      else mos_shm_create c allocated now k sz (u32 shmflg)
  end.

(** ** Attaching *)

(** Looks up the segment and takes a slot; 0 leaves the call in flight. *)
Definition shmat_begin (c : caller) (id shmaddr shmflg : Z) : H Z :=
  let fixed := nz shmaddr in
  let addr := if fixed && nz (Z.land shmflg MOS_SHM_RND) then shmaddr / PAGE_SIZE * PAGE_SIZE else shmaddr in
  if fixed && negb (nz (Z.land shmflg MOS_SHM_RND)) && nz (shmaddr mod PAGE_SIZE) then mret (- EINVAL) else
  let flags := Z.lor (Z.lor MAP_SHARED MAP_ANONYMOUS) (if fixed then MAP_FIXED else 0) in
  let prot := if nz (Z.land shmflg MOS_SHM_RDONLY) then PROT_READ else Z.lor PROT_READ PROT_WRITE in
  found ← look (fun s => shm_ids_find s id);
  match found with
  | None => mret (- EINVAL)
  | Some j =>
      seg ← look (fun s => segment_at s j);
      if negb (namespace_id seg =? ipc_ns c) || removed seg then mret (- EINVAL) else
      i ← take_attach_slot;
      if i <? 0 then mret (- ENOSPC) else
      change (fun s => set_flights (<[psid c := Flight id j i addr prot flags Reserved]> (flights s)) s);;
      mret 0
  end.

Definition get_flight (t : Z) : H flight := fun s => f ← flights s !! t; Some (f, s).
Definition set_phase (t : Z) (p : phase) (f : flight) : H unit := change (fun s =>
  set_flights (<[t := Flight (fl_shmid f) (fl_segment f) (fl_attach f) (fl_addr f) (fl_prot f) (fl_flags f) p]> (flights s)) s).
Definition drop_flight (t : Z) (f : flight) : H unit :=
  return_attach_slot (fl_attach f);; change (fun s => set_flights (delete t (flights s)) s).

(** [mapped]: what do_mmap() returned. *)
Definition shmat_mmap (t mapped : Z) : H Z :=
  f ← get_flight t;
  seg ← look (fun s => segment_at s (fl_segment f));
  log t (Mmap (fl_addr f) (size seg) (fl_prot f) (fl_flags f));;
  if W - 4095 <=? mapped then drop_flight t f;; mret mapped
  else set_phase t (Reading mapped mapped 0%nat) f;; mret 0.

(** What the page allocator, the kernel map and the page table do:
    [reclaim] is phymm_reclaim_user_cache(), [kmap] and [map_page] say which
    mappings succeed. *)
Record machine := Machine { reclaim : phymm -> phymm; kmap : Z -> bool; map_page : Z -> bool }.

Definition alloc_page (m : machine) : H Z := fun s =>
  let '(i, p) := phymm_alloc_user (phys s) in
  let '(i, p) := if i =? PHYMM_INVALID then phymm_alloc_user (reclaim m p) else (i, p) in
  Some (i, set_phys p s).

(** mos_shm_ensure_page() in three: the entry of the page, 0 if it has none
    yet, *)
Definition ensure_read (j : Z) (page_no : nat) : H (Z + Z) :=
  seg ← look (fun s => segment_at s j);
  if page_count seg <=? Z.of_nat page_no then mret (inl (- EINVAL)) else
  match pages seg !! page_no with None => undefined | Some phy => mret (inr phy) end.
(** a new page, mapped to be cleared, *)
Definition ensure_alloc (m : machine) : H (Z + Z) :=
  i ← alloc_page m;
  if i =? PHYMM_INVALID then mret (inl (- ENOMEM)) else
  if negb (kmap m ((i * PAGE_SIZE) mod W)) then change (fun s => set_phys (phymm_free_user (phys s) i) s);; mret (inl (- ENOMEM)) else
  mret (inr i).
(** and the store to the entry, in the array the segment has by then. *)
Definition ensure_store (j : Z) (page_no : nat) (i : Z) : H Z :=
  seg ← look (fun s => segment_at s j);
  match pages seg !! page_no with
  | None => undefined
  | Some _ =>
      let phy := (i * PAGE_SIZE) mod W in
      change (fun s => set_phys (phymm_reference_page (phys s) i).2 s);;
      put_segment j (set_page_at page_no phy seg);;
      mret phy
  end.

(** The loop of mos_shm_map_pages() and the way out when it fails, a step at a
    time: the next phase, or none when the call has failed. *)
Definition pages_step (m : machine) (t : Z) (f : flight) : H (option phase) :=
  let j := fl_segment f in
  match fl_phase f with
  | Reading addr vir n =>
      seg ← look (fun s => segment_at s j);
      if (addr + size seg) mod W <=? vir then mret (Some (Filled addr)) else
      r ← ensure_read j n;
      mret (Some (match r with inl _ => Failed addr | inr phy => if nz phy then Mapping addr vir n phy else Allocating addr vir n end))
  | Allocating addr vir n =>
      r ← ensure_alloc m;
      mret (Some (match r with inl _ => Failed addr | inr i => Storing addr vir n i end))
  | Storing addr vir n i => phy ← ensure_store j n i; mret (Some (Mapping addr vir n phy))
  | Mapping addr vir n phy =>
      if negb (map_page m vir) then mret (Some (Failed addr)) else
      log t (MapPage vir phy (nz (Z.land (fl_prot f) PROT_WRITE)));;
      mret (Some (Reading addr ((vir + PAGE_SIZE) mod W) (S n)))
  | Failed addr =>
      seg ← look (fun s => segment_at s j);
      log t (Munmap addr (size seg));;
      mret None
  | Reserved | Filled _ => undefined
  end.
Definition shmat_pages (m : machine) (t : Z) : H Z :=
  f ← get_flight t;
  next ← pages_step m t f;
  match next with
  | Some p => set_phase t p f;; mret 0
  | None => drop_flight t f;; mret (- ENOMEM)
  end.

Definition shmat_finish (c : caller) : H Z :=
  f ← get_flight (psid c);
  match fl_phase f with
  | Filled mapped =>
      found ← look (fun s => shm_ids_find s (fl_shmid f));
      seg ← look (fun s => match found with Some j => segment_at s j | None => zero_segment end);
      match found with
      | Some j =>
          if negb (namespace_id seg =? ipc_ns c) || removed seg then
            drop_flight (psid c) f;; log (psid c) (Munmap mapped (size seg));; mret (- EINVAL)
          else
            change (fun s => set_attaches (<[fl_attach f := Attach (fl_shmid f) (psid c) mapped (size seg)]> (attaches s)) (addresses s) s);;
            shm_address_insert (fl_attach f);;
            put_segment j (set_count (u32 (attach_count seg + 1)) seg);;
            change (fun s => set_flights (delete (psid c) (flights s)) s);;
            mret 0
      | None => drop_flight (psid c) f;; log (psid c) (Munmap mapped PAGE_SIZE);; mret (- EINVAL)
      end
  | _ => undefined
  end.

(** ** Detaching and control *)

(** The result is 0 where the source returns that of do_munmap(). *)
Definition sys_shmdt (c : caller) (addr : Z) : H Z :=
  found ← look (fun s => shm_address_find s (psid c) addr);
  match found with
  | None => mret (- EINVAL)
  | Some i =>
      a ← look (fun s => attach_at s i);
      change (fun s => set_attaches (attaches s) (tree_erase i (addresses s)) s);;
      return_attach_slot i;;
      change (fun s => set_attaches (delete i (attaches s)) (addresses s) s);;
      if at_size a =? 0 then mret (- EINVAL) else
      found ← look (fun s => shm_ids_find s (at_shmid a));
      (match found with
       | None => mret tt
       | Some j =>
           seg ← look (fun s => segment_at s j);
           let n := if 0 <? attach_count seg then attach_count seg - 1 else attach_count seg in
           put_segment j (set_count n seg);;
           if removed seg && (n =? 0) then mos_shm_destroy_segment j else mret tt
       end);;
      log (psid c) (Munmap addr (at_size a));;
      mret 0
  end.

Record shm_status := Status {
  st_key : Z; st_uid : Z; st_gid : Z; st_mode : Z; st_ctime : Z; st_cpid : Z; st_nattch : Z; st_size : Z
}.
Definition shm_remove (j : Z) : H Z :=
  seg ← look (fun s => segment_at s j);
  (if negb (removed seg) && negb (key seg =? MOS_IPC_PRIVATE)
   then change (fun s => set_trees (ids s) (tree_erase j (keys s)) s) else mret tt);;
  put_segment j (set_removed seg);;
  (if attach_count seg =? 0 then mos_shm_destroy_segment j else mret tt);;
  mret 0.
(** [buf]: there is a place for the answer. *)
Definition shm_stat (j : Z) (buf : bool) : H (Z * option shm_status) :=
  if negb buf then mret (- EFAULT, None) else
  seg ← look (fun s => segment_at s j);
  mret (0, Some (Status (key seg) (creator_uid seg) (creator_gid seg) (mode seg) (ctime seg) (owner_pid seg) (attach_count seg) (size seg))).
Definition ps_shmctl (c : caller) (id cmd : Z) (buf : bool) : H (Z * option shm_status) :=
  let cmd := Z.ldiff cmd MOS_IPC_64 in
  found ← look (fun s => shm_ids_find s id);
  match found with
  | None => mret (- EINVAL, None)
  | Some j =>
      seg ← look (fun s => segment_at s j);
      if negb (namespace_id seg =? ipc_ns c) then mret (- EINVAL, None) else
      if cmd =? MOS_IPC_RMID then r ← shm_remove j; mret (r, None)
      else if cmd =? MOS_IPC_STAT then shm_stat j buf
      else mret (- ENOSYS, None)
  end.
End Operations.
