(* ===== verification/ShmProof.v ===== *)
(** * System V shared memory: the tables agree

    The invariant of the tables of [Shm], and that every step of every task
    keeps it: the slots in use are those of the entries and of the calls in
    flight, the three trees hold exactly the entries they should, in order, a
    segment counts its attachments, and a removed one is gone with the last. *)

From Stdlib Require Import Sorting.Sorted.
From S2P Require Import Prelude Slots SlotsProof Phymm Shm.

Implicit Types (s : shm) (i j k : Z) (seg : mos_shm_segment) (a : mos_shm_attach) (t : Z) (f : flight) (l : list Z).

(** ** Trees *)

Abbreviation ordered R l := (StronglySorted (fun x y => R x y = true) l).

Lemma tree_insert_elem b n l x : x ∈ tree_insert b n l <-> x = n \/ x ∈ l.
Proof. induction l as [|y l IH]; cbn; [set_solver|]. destruct (b y); set_solver. Qed.
Lemma tree_erase_elem n l x : x ∈ tree_erase n l <-> x <> n /\ x ∈ l.
Proof. unfold tree_erase. rewrite list_elem_of_filter. done. Qed.
Lemma tree_erase_ordered R n l : ordered R l -> ordered R (tree_erase n l).
Proof.
  induction 1 as [|x l Hl IH Hx]; cbn; [constructor|]. unfold tree_erase. cbn. case_decide; [|done]. constructor; [done|].
  rewrite Forall_forall in *. intros y Hy. apply Hx. apply tree_erase_elem in Hy. tauto.
Qed.
Lemma tree_insert_ordered (R : Z -> Z -> bool) n l :
  (forall x y z, R x y = true -> R y z = true -> R x z = true) -> (forall x, x ∈ l -> R n x = false -> R x n = true) ->
  ordered R l -> ordered R (tree_insert (R n) n l).
Proof.
  intros Htr Htot H. induction H as [|x l Hl IH Hx]; cbn; [repeat constructor|]. destruct (R n x) eqn:E.
  - constructor; [constructor; done|]. constructor; [done|]. rewrite Forall_forall in *. eauto.
  - constructor; [apply IH; set_solver|]. rewrite Forall_forall in *. intros y [-> | Hy]%tree_insert_elem; [apply Htot; set_solver | auto].
Qed.
Lemma sorted_mono (R R' : Z -> Z -> Prop) l : (forall x y, x ∈ l -> y ∈ l -> R x y -> R' x y) -> StronglySorted R l -> StronglySorted R' l.
Proof.
  intros He H. induction H as [|x l Hl IH Hx]; constructor; [apply IH; set_solver|].
  rewrite Forall_forall in *. intros y Hy. apply He; [set_solver | set_solver | auto].
Qed.
Lemma ordered_ext (R R' : Z -> Z -> bool) l : (forall x y, x ∈ l -> y ∈ l -> R x y = R' x y) -> ordered R l -> ordered R' l.
Proof. intros He. apply sorted_mono. intros x y Hx Hy E. rewrite <- He; done. Qed.
Lemma ordered_total R l x y : ordered R l -> x ∈ l -> y ∈ l -> x = y \/ R x y = true \/ R y x = true.
Proof.
  induction 1 as [|z l Hl IH Hz]; [set_solver|]. rewrite Forall_forall in Hz.
  intros [-> | Hx]%elem_of_cons [-> | Hy]%elem_of_cons; auto.
Qed.
Lemma search_some b l x : tree_find b l = Some x -> x ∈ l /\ b x = true.
Proof.
  unfold tree_find. intros E. destruct (filter _ l) as [|y r] eqn:Ef; [done|]. injection E as ->.
  assert (Hx : x ∈ filter (fun x => b x = true) l) by (rewrite Ef; set_solver). apply list_elem_of_filter in Hx. tauto.
Qed.
Lemma search_none b l x : tree_find b l = None -> x ∈ l -> b x = false.
Proof.
  unfold tree_find. intros E Hx. destruct (filter _ l) as [|y r] eqn:Ef; [|done]. destruct (b x) eqn:Eb; [|done].
  assert (H : x ∈ filter (fun x => b x = true) l) by (apply list_elem_of_filter; done). rewrite Ef in H. set_solver.
Qed.

(** *** The list stands for the tree

    Going left is right from some node on, and the nodes on the other side do
    not match. *)
Definition directs (here left_ : Z -> bool) (l : list Z) : Prop :=
  StronglySorted (fun x y => (left_ x = true -> left_ y = true /\ here y = false) /\ (left_ y = false -> here y = false -> here x = false)) l.
Definition unique (here : Z -> bool) (l : list Z) : Prop := StronglySorted (fun x y => here x = true -> here y = false) l.

Lemma sorted_split {R : Z -> Z -> Prop} l1 x l2 : StronglySorted R (l1 ++ x :: l2) ->
  StronglySorted R l1 /\ StronglySorted R l2 /\ (forall y, y ∈ l1 -> R y x) /\ (forall y, y ∈ l2 -> R x y).
Proof.
  induction l1 as [|z l1 IH]; cbn; intros H; apply StronglySorted_inv in H as [Hs Hf]; rewrite Forall_forall in Hf.
  - split; [constructor|]. split; [done|]. split; [set_solver | auto].
  - destruct (IH Hs) as (I1 & I2 & I3 & I4). split; [constructor; [done|]; rewrite Forall_forall; intros y Hy; apply Hf; set_solver|].
    split; [done|]. split; [|done]. intros y [-> | Hy]%elem_of_cons; [apply Hf; set_solver | auto].
Qed.
Lemma filter_no_match (b : Z -> bool) l : (forall y, y ∈ l -> b y = false) -> filter (fun x => b x = true) l = [].
Proof. induction l as [|y l IH]; intros H; [done|]. rewrite filter_cons, (H y) by set_solver. cbn. apply IH. set_solver. Qed.
Lemma descend_low_finds here left_ r : forall m, directs here left_ (in_order r) ->
  descend_low here left_ m r = match tree_find here (in_order r) with Some x => Some x | None => m end.
Proof.
  induction r as [|lc IHl x rc IHr]; intros m H; [done|]. cbn in *. apply sorted_split in H as (D1 & D2 & N1 & N2).
  unfold tree_find in *. rewrite filter_app, filter_cons. destruct (here x) eqn:Eh; cbn.
  - rewrite IHl by done. destruct (filter _ (in_order lc)); done.
  - destruct (left_ x) eqn:El.
    + rewrite (filter_no_match here (in_order rc)), app_nil_r by (intros y Hy; apply N2 in Hy; tauto). auto.
    + rewrite (filter_no_match here (in_order lc)) by (intros y Hy; apply N1 in Hy; tauto). auto.
Qed.
Lemma descend_finds here left_ r : directs here left_ (in_order r) -> unique here (in_order r) -> descend here left_ r = tree_find here (in_order r).
Proof.
  induction r as [|lc IHl x rc IHr]; intros H U; [done|]. cbn in *. apply sorted_split in H as (D1 & D2 & N1 & N2). apply sorted_split in U as (U1 & U2 & V1 & V2).
  unfold tree_find in *. rewrite filter_app, filter_cons. destruct (here x) eqn:Eh; cbn.
  - rewrite filter_no_match; [done|]. intros y Hy. destruct (here y) eqn:Ey; [|done]. pose proof (V1 y Hy Ey) as V. cbn in V. congruence.
  - destruct (left_ x) eqn:El.
    + rewrite (filter_no_match here (in_order rc)), app_nil_r by (intros y Hy; apply N2 in Hy; tauto). auto.
    + rewrite (filter_no_match here (in_order lc)) by (intros y Hy; apply N1 in Hy; tauto). auto.
Qed.
Lemma tree_insert_left b n l1 x l2 : b x = true -> tree_insert b n (l1 ++ x :: l2) = tree_insert b n l1 ++ x :: l2.
Proof. intros Hx. induction l1 as [|y l1 IH]; cbn; [rewrite Hx; done|]. destruct (b y); [done|]. rewrite IH. done. Qed.
Lemma tree_insert_right b n l1 x l2 : (forall y, y ∈ l1 -> b y = false) -> b x = false -> tree_insert b n (l1 ++ x :: l2) = l1 ++ x :: tree_insert b n l2.
Proof. intros H Hx. induction l1 as [|y l1 IH]; cbn; [rewrite Hx; done|]. rewrite H, IH by set_solver. done. Qed.
Lemma link_inserts left_ n r : StronglySorted (fun x y => left_ x = true -> left_ y = true) (in_order r) ->
  in_order (link left_ n r) = tree_insert left_ n (in_order r).
Proof.
  induction r as [|lc IHl x rc IHr]; intros H; [done|]. cbn in *. apply sorted_split in H as (D1 & D2 & N1 & N2).
  destruct (left_ x) eqn:E; cbn; [rewrite IHl, tree_insert_left by done; done|]. rewrite IHr, tree_insert_right; [done | | done | done].
  intros y Hy. destruct (left_ y) eqn:Ey; [|done]. pose proof (N1 y Hy Ey) as N. cbn in N. congruence.
Qed.

(** ** The invariant *)

(** The attachments of segment [id]. *)
Definition attached s (id : Z) : gmap Z mos_shm_attach := filter (fun x => at_shmid x.2 = id) (attaches s).

Record ids_ok s : Prop := {
  io_mem i : i ∈ ids s <-> i ∈ dom (segments s);
  io_sorted : ordered (id_before s) (ids s);
  io_range i seg : segments s !! i = Some seg -> 1 <= shmid seg < next_id s;
  io_next : 1 <= next_id s <= INT_MAX
}.
Record keys_ok s : Prop := {
  ko_mem i : i ∈ keys s <-> exists seg, segments s !! i = Some seg /\ key seg <> MOS_IPC_PRIVATE /\ removed seg = false;
  ko_sorted : ordered (key_before s) (keys s)
}.
Record addresses_ok s : Prop := {
  ao_mem i : i ∈ addresses s <-> i ∈ dom (attaches s);
  ao_sorted : ordered (address_before s) (addresses s)
}.
Record counts_ok s : Prop := {
  co_count j seg : segments s !! j = Some seg -> attach_count seg = Z.of_nat (base.size (attached s (shmid seg)));
  co_attach i a : attaches s !! i = Some a -> 0 < at_size a /\ exists j seg, segments s !! j = Some seg /\ shmid seg = at_shmid a /\ size seg = at_size a
}.
Definition removed_ok s : Prop := forall j seg, segments s !! j = Some seg -> removed seg = true -> 0 < attach_count seg.
Definition shape_ok s : Prop := forall j seg, segments s !! j = Some seg ->
  0 < page_count seg /\ size seg = page_count seg * PAGE_SIZE /\ length (pages seg) = Z.to_nat (page_count seg).
Record slots_ok s : Prop := {
  so_segments : pool_for MOS_SHM_SEGMENT_MAX (segment_slots s) (dom (segments s));
  so_attaches : pool_for MOS_SHM_ATTACH_MAX (attach_slots s) (dom (attaches s) ∪ map_img (fl_attach <$> flights s));
  so_fresh t f : flights s !! t = Some f -> fl_attach f ∉ dom (attaches s);
  so_apart t t' f f' : flights s !! t = Some f -> flights s !! t' = Some f' -> fl_attach f = fl_attach f' -> t = t'
}.
Record shm_ok s : Prop := {
  ok_ids : ids_ok s; ok_keys : keys_ok s; ok_addresses : addresses_ok s; ok_counts : counts_ok s; ok_removed : removed_ok s; ok_shape : shape_ok s; ok_slots : slots_ok s
}.

Definition start (p : phymm) : shm := Shm ∅ ∅ 1 [] [] [] zero_pool zero_pool p ∅ [].
Lemma shm_start_ok p : shm_ok (start p).
Proof.
  split.
  - split; cbn; [set_solver | constructor | intros i seg; rewrite lookup_empty; done | done].
  - split; cbn; [|constructor]. intros i. split; [set_solver|]. intros (seg & E & _). rewrite lookup_empty in E. done.
  - split; cbn; [set_solver | constructor].
  - split; cbn; intros i seg; rewrite lookup_empty; done.
  - intros j seg; cbn; rewrite lookup_empty; done.
  - intros j seg; cbn; rewrite lookup_empty; done.
  - split; cbn; [rewrite dom_empty_L; apply pool_start; done | | intros t f; rewrite lookup_empty; done | intros t t' f f'; rewrite lookup_empty; done].
    rewrite dom_empty_L, fmap_empty, map_img_empty_L, union_empty_l_L. apply pool_start. done.
Qed.

(** ** Searches *)

Lemma segment_at_some s j seg : segments s !! j = Some seg -> segment_at s j = seg.
Proof. unfold segment_at. intros ->. done. Qed.
Lemma attach_at_some s i a : attaches s !! i = Some a -> attach_at s i = a.
Proof. unfold attach_at. intros ->. done. Qed.

Lemma ids_inj s i j (a b : mos_shm_segment) : ids_ok s -> segments s !! i = Some a -> segments s !! j = Some b -> shmid a = shmid b -> i = j.
Proof.
  intros [Hm Hs _ _] Ea Eb E. destruct (ordered_total _ _ i j Hs) as [? | H]; [apply Hm, elem_of_dom; eauto | apply Hm, elem_of_dom; eauto | done |].
  unfold id_before in H. rewrite (segment_at_some _ _ _ Ea), (segment_at_some _ _ _ Eb) in H. lia.
Qed.
Lemma ids_find_spec s id : ids_ok s ->
  match shm_ids_find s id with
  | Some j => exists seg, segments s !! j = Some seg /\ shmid seg = id
  | None => forall j seg, segments s !! j = Some seg -> shmid seg <> id
  end.
Proof.
  intros [Hm _ _ _]. unfold shm_ids_find. destruct (tree_find _ _) as [j|] eqn:E.
  - apply search_some in E as [Hj E]. apply Hm, elem_of_dom in Hj as [seg Hs]. cbn beta in E. rewrite (segment_at_some _ _ _ Hs) in E. exists seg. split; [done | lia].
  - intros j seg Hs. apply (search_none _ _ j) in E; [|apply Hm, elem_of_dom; eauto]. cbn beta in E. rewrite (segment_at_some _ _ _ Hs) in E. lia.
Qed.
Lemma keys_find_spec s ns k : keys_ok s ->
  match shm_keys_find s ns k with
  | Some j => exists seg, segments s !! j = Some seg /\ namespace_id seg = ns /\ key seg = k /\ k <> MOS_IPC_PRIVATE /\ removed seg = false
  | None => k <> MOS_IPC_PRIVATE -> forall j seg, segments s !! j = Some seg -> namespace_id seg = ns -> key seg = k -> removed seg = true
  end.
Proof.
  intros [Hm _]. unfold shm_keys_find. destruct (tree_find _ _) as [j|] eqn:E.
  - apply search_some in E as [Hj E]. apply Hm in Hj as (seg & Hs & Hk & Hr). cbn beta in E. rewrite (segment_at_some _ _ _ Hs) in E.
    exists seg. split_and!; [done | lia | lia | | done]. replace k with (key seg) by lia. done.
  - intros Hk j seg Hs Hn Ek. destruct (removed seg) eqn:Er; [done|]. apply (search_none _ _ j) in E; [|apply Hm; exists seg; rewrite Ek; done].
    cbn beta in E. rewrite (segment_at_some _ _ _ Hs) in E. lia.
Qed.
Lemma address_find_spec s owner addr : addresses_ok s ->
  match shm_address_find s owner addr with
  | Some i => exists a, attaches s !! i = Some a /\ at_owner a = owner /\ at_addr a = addr
  | None => forall i a, attaches s !! i = Some a -> at_owner a = owner -> at_addr a <> addr
  end.
Proof.
  intros [Hm _]. unfold shm_address_find. destruct (tree_find _ _) as [i|] eqn:E.
  - apply search_some in E as [Hi E]. apply Hm, elem_of_dom in Hi as [a Ha]. cbn beta in E. rewrite (attach_at_some _ _ _ Ha) in E. exists a. split_and!; [done | lia | lia].
  - intros i a Ha Ho. apply (search_none _ _ i) in E; [|apply Hm, elem_of_dom; eauto]. cbn beta in E. rewrite (attach_at_some _ _ _ Ha) in E. lia.
Qed.

(** ** Changes of one table *)

Abbreviation put j seg s := (set_segments (<[j := seg]> (segments s)) s).

Lemma segment_at_put s j seg i : segment_at (put j seg s) i = if decide (i = j) then seg else segment_at s i.
Proof. unfold segment_at. cbn. case_decide as E; [subst; rewrite lookup_insert_eq | rewrite lookup_insert_ne by done]; done. Qed.
Lemma attach_at_put s i a l x : attach_at (set_attaches (<[i := a]> (attaches s)) l s) x = if decide (x = i) then a else attach_at s x.
Proof. unfold attach_at. cbn. case_decide as E; [subst; rewrite lookup_insert_eq | rewrite lookup_insert_ne by done]; done. Qed.

Lemma ids_put s j seg seg' : ids_ok s -> segments s !! j = Some seg -> shmid seg' = shmid seg -> ids_ok (put j seg' s).
Proof.
  intros [Hm Hs Hr Hn] E Ei. split; cbn; [| | |done].
  - intros i. rewrite Hm, dom_insert_lookup_L by eauto. done.
  - revert Hs. apply ordered_ext. intros x y _ _. unfold id_before. rewrite !segment_at_put.
    repeat case_decide; subst; rewrite ?Ei, ?(segment_at_some _ _ _ E); done.
  - intros i g. destruct (decide (i = j)) as [-> | Hne]; [rewrite lookup_insert_eq; intros [= <-]; rewrite Ei | rewrite lookup_insert_ne by done]; eauto.
Qed.
Lemma key_before_put s j seg seg' x y : segments s !! j = Some seg -> namespace_id seg' = namespace_id seg -> key seg' = key seg ->
  key_before s x y = key_before (put j seg' s) x y.
Proof. intros E En Ek. unfold key_before. rewrite !segment_at_put. repeat case_decide; subst; rewrite ?En, ?Ek, ?(segment_at_some _ _ _ E); done. Qed.
Lemma keys_put s j seg seg' : keys_ok s -> segments s !! j = Some seg ->
  namespace_id seg' = namespace_id seg -> key seg' = key seg -> removed seg' = removed seg -> keys_ok (put j seg' s).
Proof.
  intros [Hm Hs] E En Ek Er. split; cbn.
  - intros i. rewrite Hm. destruct (decide (i = j)) as [-> | Hne]; [rewrite lookup_insert_eq, E | rewrite lookup_insert_ne by done; done].
    split; intros (g & [= <-] & H); eexists; (split; [reflexivity|]); rewrite Ek, Er in *; done.
  - revert Hs. apply ordered_ext. intros. apply (key_before_put s j seg); done.
Qed.
Lemma keys_removed s j seg : keys_ok s -> segments s !! j = Some seg ->
  keys_ok (set_trees (ids s) (if negb (removed seg) && negb (key seg =? MOS_IPC_PRIVATE) then tree_erase j (keys s) else keys s) (put j (set_removed seg) s)).
Proof.
  intros [Hm Hs] E. split; cbn.
  - intros i. transitivity (i <> j /\ i ∈ keys s).
    + destruct (_ && _) eqn:Eb; [rewrite tree_erase_elem; done|]. split; [|tauto]. intros Hi. split; [|done]. intros ->. apply Hm in Hi as (g & Eg & Hk & Hr).
      simplify_eq. rewrite Hr, (proj2 (Z.eqb_neq _ _) Hk) in Eb. done.
    + rewrite Hm. destruct (decide (i = j)) as [-> | Hne]; [rewrite lookup_insert_eq | rewrite lookup_insert_ne by done; tauto].
      split; [tauto|]. intros (g & [= <-] & _ & Hr). done.
  - assert (Ho : ordered (key_before (put j (set_removed seg) s)) (keys s)).
    { revert Hs. apply ordered_ext. intros. apply (key_before_put s j seg); done. }
    destruct (_ && _); [apply tree_erase_ordered|]; exact Ho.
Qed.
Lemma shape_put s j seg seg' : shape_ok s -> segments s !! j = Some seg ->
  page_count seg' = page_count seg -> size seg' = size seg -> length (pages seg') = length (pages seg) -> shape_ok (put j seg' s).
Proof.
  intros H E E1 E2 E3 i g. cbn. destruct (decide (i = j)) as [-> | Hne]; [rewrite lookup_insert_eq; intros [= <-]; rewrite E1, E2, E3; exact (H _ _ E) | rewrite lookup_insert_ne by done; exact (H i g)].
Qed.
Lemma slots_put s j seg seg' : slots_ok s -> segments s !! j = Some seg -> slots_ok (put j seg' s).
Proof. intros [H1 H2 H3 H4] E. split; cbn; [rewrite dom_insert_lookup_L by eauto|..]; done. Qed.
Lemma counts_put s j seg seg' : counts_ok s -> segments s !! j = Some seg ->
  shmid seg' = shmid seg -> size seg' = size seg -> attach_count seg' = attach_count seg -> counts_ok (put j seg' s).
Proof.
  intros [Hc Ha] E E1 E2 E3. split; cbn.
  - intros i g. destruct (decide (i = j)) as [-> | Hne]; [rewrite lookup_insert_eq; intros [= <-]; rewrite E1, E3; exact (Hc _ _ E) | rewrite lookup_insert_ne by done; exact (Hc i g)].
  - intros i a Hi. destruct (Ha i a Hi) as (Hp & k & g & Eg & H). split; [done|]. destruct (decide (k = j)) as [-> | Hne].
    + exists j, seg'. simplify_eq. rewrite lookup_insert_eq, E1, E2. done.
    + exists k, g. rewrite lookup_insert_ne; done.
Qed.

(** ** A segment goes *)

Lemma ends_look {A} (g : shm -> A) s Q : Q (g s) s -> ends (look g) s Q.
Proof. intros H. exists (g s), s. done. Qed.
Lemma ends_change (g : shm -> shm) s (Q : unit -> shm -> Prop) : Q tt (g s) -> ends (change g) s Q.
Proof. intros H. exists tt, (g s). done. Qed.

(** What a step leaves alone. *)
Record keeps s s' : Prop := { kp_next : next_id s' = next_id s; kp_attaches : attaches s' = attaches s; kp_flights : flights s' = flights s; kp_calls : calls s' = calls s }.

Section Destroy.
Context {cfg : PhysConfig}.

Lemma destroy_ok s j seg : ids_ok s -> keys_ok s -> addresses_ok s -> counts_ok s -> shape_ok s -> slots_ok s ->
  (forall i g, i <> j -> segments s !! i = Some g -> removed g = true -> 0 < attach_count g) ->
  segments s !! j = Some seg -> removed seg = true -> attached s (shmid seg) = ∅ ->
  ends (mos_shm_destroy_segment j) s (fun _ s' => shm_ok s' /\ segments s' = delete j (segments s) /\ keeps s s').
Proof.
  intros Hi Hk Ha Hc Hp Hs Hrm E Er He. unfold mos_shm_destroy_segment. apply ends_bind, ends_look. rewrite (segment_at_some _ _ _ E), Er, andb_false_r.
  apply ends_bind, ends_change, ends_bind, ends_ret, ends_bind, ends_change, ends_bind.
  destruct (pool_return _ _ _ j (so_segments _ Hs)) as (p' & Ep & Hp'); [apply elem_of_dom; eauto|].
  eexists tt, _. split; [unfold return_segment_slot; cbn; rewrite Ep; reflexivity|]. apply ends_change.
  assert (Hne : forall i, i ∈ keys s -> i <> j) by (intros i Hin ->; apply (ko_mem _ Hk) in Hin as (g & Eg & _ & Hr); simplify_eq; congruence).
  split; [|split; [reflexivity | split; reflexivity]]. split.
  - destruct Hi as [Hm Ho Hr Hn]. split; cbn; [| | |done].
    + intros i. rewrite tree_erase_elem, Hm, dom_delete_L. set_solver.
    + apply (ordered_ext (id_before s)); [|apply tree_erase_ordered; done]. intros x y [Hx _]%tree_erase_elem [Hy _]%tree_erase_elem.
      unfold id_before, segment_at. cbn. rewrite !lookup_delete_ne; done.
    + intros i g [_ Eg]%lookup_delete_Some. eauto.
  - destruct Hk as [Hm Ho]. split; cbn.
    + intros i. split.
      * intros Hin. rewrite lookup_delete_ne by (symmetry; auto). apply Hm. done.
      * intros (g & [_ Eg]%lookup_delete_Some & H). apply Hm. eauto.
    + revert Ho. apply ordered_ext. intros x y Hx Hy. unfold key_before, segment_at. cbn. rewrite !lookup_delete_ne by (symmetry; auto). done.
  - destruct Ha as [Hm Ho]. split; [exact Hm | exact Ho].
  - destruct Hc as [Hn Hat]. split; cbn.
    + intros i g [_ Eg]%lookup_delete_Some. apply (Hn i). done.
    + intros i a Ea. destruct (Hat i a Ea) as (Hz & k & g & Eg & Hid & H). split; [done|]. exists k, g. rewrite lookup_delete_ne; [done|]. intros <-. simplify_eq.
      assert (Hx : attached s (shmid seg) !! i = Some a) by (apply map_lookup_filter_Some; done). rewrite He, lookup_empty in Hx. done.
  - intros i g. cbn. intros [Hx Eg]%lookup_delete_Some. eapply Hrm; [symmetry; exact Hx | exact Eg].
  - intros i g. cbn. intros [_ Eg]%lookup_delete_Some. apply (Hp i). done.
  - destruct Hs as [H1 H2 H3 H4]. split; cbn; [rewrite dom_delete_L; exact Hp' | exact H2 | exact H3 | exact H4].
Qed.
End Destroy.
