(* ===== verification/ShmSteps.v ===== *)
(** * System V shared memory: attaching and detaching

    The steps of shmat(2) and the whole of shmdt(2) keep the invariant of
    [ShmProof], and what they change. *)

From S2P Require Import Prelude Slots SlotsProof Phymm Shm ShmProof.

Implicit Types (s : shm) (i j : Z) (seg : mos_shm_segment) (a : mos_shm_attach) (t : Z) (f : flight) (l : list Z).

(** The fields of a changed state. *)
Ltac fields := cbn [set_segments set_attaches set_next_id set_trees set_slots set_phys set_flights set_calls
  segments attaches next_id ids keys addresses segment_slots attach_slots phys flights calls].

(** ** Flights *)

Lemma elem_of_held (m : gmap Z flight) (x : Z) : x ∈ (map_img (fl_attach <$> m) : gset Z) <-> exists t f, m !! t = Some f /\ fl_attach f = x.
Proof. rewrite elem_of_map_img. setoid_rewrite lookup_fmap_Some. split; intros (t & f & H); exists t, f; tauto. Qed.

(** Nothing of the invariant is about the pages or the address spaces. *)
Lemma ok_ext s p c : shm_ok s -> shm_ok (set_calls c (set_phys p s)).
Proof.
  intros [[] [] [] [] ? ? []]. split; [split | split | split | split | | | split]; assumption.
Qed.
Lemma ok_calls s c : shm_ok s -> shm_ok (set_calls c s).
Proof. intros H. destruct s. exact (ok_ext _ phys c H). Qed.
Lemma ok_phys s p : shm_ok s -> shm_ok (set_phys p s).
Proof. intros H. destruct s. exact (ok_ext _ p calls H). Qed.

Lemma ok_flights s m q : shm_ok s -> slots_ok (set_slots (segment_slots s) q (set_flights m s)) -> shm_ok (set_slots (segment_slots s) q (set_flights m s)).
Proof. intros [[] [] [] [] ? ? _] Hs. split; [split | split | split | split | | | exact Hs]; assumption. Qed.

Lemma phase_ok s t f p : shm_ok s -> flights s !! t = Some f ->
  ends (set_phase t p f) s (fun _ s' => shm_ok s' /\ segments s' = segments s /\ attaches s' = attaches s /\
    flights s' = <[t := Flight (fl_shmid f) (fl_segment f) (fl_attach f) (fl_addr f) (fl_prot f) (fl_flags f) p]> (flights s)).
Proof.
  intros Hok E. apply ends_change. split; [|done]. set (f' := Flight _ _ _ _ _ _ _). destruct (ok_slots _ Hok) as [H1 H2 H3 H4].
  assert (Hm : forall u g, <[t := f']> (flights s) !! u = Some g -> exists g', flights s !! u = Some g' /\ fl_attach g' = fl_attach g).
  { intros u g. destruct (decide (u = t)) as [-> | Hne]; [rewrite lookup_insert_eq; intros [= <-]; eauto | rewrite lookup_insert_ne by done; eauto]. }
  refine (ok_flights s (<[t := f']> (flights s)) (attach_slots s) Hok _). split; fields; [done | | |].
  - rewrite fmap_insert, insert_id; [done|]. rewrite lookup_fmap, E. done.
  - intros u g Eu. destruct (Hm u g Eu) as (g' & E' & <-). eauto.
  - intros u u' g g' Eu Eu' Ea. destruct (Hm _ _ Eu) as (h & Eh & Ha), (Hm _ _ Eu') as (h' & Eh' & Ha'). apply (H4 u u' h h'); [done | done | congruence].
Qed.
Lemma drop_ok s t f : shm_ok s -> flights s !! t = Some f ->
  ends (drop_flight t f) s (fun _ s' => shm_ok s' /\ segments s' = segments s /\ attaches s' = attaches s /\ flights s' = delete t (flights s)).
Proof.
  intros Hok E. destruct (ok_slots _ Hok) as [H1 H2 H3 H4]. apply ends_bind.
  destruct (pool_return _ _ _ (fl_attach f) H2) as (p & Ep & Hp); [apply elem_of_union_r, elem_of_held; eauto|].
  eexists tt, _. split; [unfold return_attach_slot; cbn; rewrite Ep; reflexivity|]. apply ends_change. split; [|done].
  change (shm_ok (set_slots (segment_slots s) p (set_flights (delete t (flights s)) s))). apply ok_flights; [done|]. split; fields; [done | | |].
  - replace (_ ∪ _) with ((dom (attaches s) ∪ map_img (fl_attach <$> flights s)) ∖ {[fl_attach f]}); [exact Hp|]. apply set_eq. intros x. rewrite elem_of_difference, !elem_of_union, !elem_of_held, elem_of_singleton. split.
    + intros [[Hx | (u & g & Eu & Hx)] Hne]; [tauto|]. right. exists u, g. rewrite lookup_delete_ne by congruence. done.
    + intros [Hx | (u & g & [Hu Eu]%lookup_delete_Some & Hx)].
      * split; [tauto|]. intros ->. exact (H3 _ _ E Hx).
      * split; [eauto|]. intros Ex. apply Hu. apply (H4 t u f g); congruence.
  - intros u g [_ Eu]%lookup_delete_Some. eauto.
  - intros u u' g g' [_ Eu]%lookup_delete_Some [_ Eu']%lookup_delete_Some. eauto.
Qed.

(** ** Attachments *)

Lemma attached_insert s i a l id : attaches s !! i = None ->
  base.size (attached (set_attaches (<[i := a]> (attaches s)) l s) id) = (base.size (attached s id) + if decide (at_shmid a = id) then 1 else 0)%nat.
Proof.
  intros E. unfold attached. fields. case_decide as Hid.
  - rewrite map_filter_insert_True by done. rewrite map_size_insert_None; [lia|]. apply map_lookup_filter_None. auto.
  - rewrite map_filter_insert_False, delete_id by done. lia.
Qed.
Lemma attached_delete s i a l id : attaches s !! i = Some a ->
  base.size (attached s id) = (base.size (attached (set_attaches (delete i (attaches s)) l s) id) + if decide (at_shmid a = id) then 1 else 0)%nat.
Proof.
  intros E. rewrite <- (attached_insert (set_attaches (delete i (attaches s)) l s) i a (addresses s)) by apply lookup_delete_eq.
  unfold attached. fields. rewrite insert_delete_id; done.
Qed.
Lemma attached_bound s id : slots_ok s -> (base.size (attached s id) <= 64)%nat.
Proof.
  intros Hs. transitivity (base.size (attaches s)).
  { unfold attached. apply map_subseteq_size, map_filter_subseteq. }
  rewrite <- size_dom. transitivity (base.size (list_to_set (seqZ 0 64) : gset Z)); [|vm_compute; lia].
  apply subseteq_size. intros i Hi. apply elem_of_list_to_set, elem_of_seqZ. apply (pf_range _ _ _ (so_attaches _ Hs)). set_solver.
Qed.

Lemma address_before_trans s x y z : address_before s x y = true -> address_before s y z = true -> address_before s x z = true.
Proof. unfold address_before. lia. Qed.
Lemma id_before_trans s x y z : id_before s x y = true -> id_before s y z = true -> id_before s x z = true.
Proof. unfold id_before. lia. Qed.
Lemma key_before_trans s x y z : key_before s x y = true -> key_before s y z = true -> key_before s x z = true.
Proof. unfold key_before. lia. Qed.

(** A record enters the table of addresses. *)
Lemma addresses_insert s i a : addresses_ok s -> attaches s !! i = None ->
  addresses_ok (let s1 := set_attaches (<[i := a]> (attaches s)) (addresses s) s in set_attaches (attaches s1) (tree_insert (address_before s1 i) i (addresses s1)) s1).
Proof.
  intros [Hm Ho] E. cbv zeta. set (s1 := set_attaches _ _ s). assert (Hd : i ∉ addresses s) by (rewrite Hm, not_elem_of_dom; done). split; fields.
  - intros x. rewrite tree_insert_elem. unfold s1. fields. rewrite Hm, dom_insert_L. set_solver.
  - apply (ordered_ext (address_before s1)); [done|]. apply tree_insert_ordered; [apply address_before_trans | |].
    + intros x Hx. assert (x <> i) by (intros ->; done). unfold address_before. lia.
    + revert Ho. apply ordered_ext. intros x y Hx Hy. unfold address_before, s1. rewrite !attach_at_put.
      rewrite !decide_False by (intros ->; done). done.
Qed.
Lemma addresses_delete s i : addresses_ok s -> addresses_ok (set_attaches (delete i (attaches s)) (tree_erase i (addresses s)) s).
Proof.
  intros [Hm Ho]. split; fields.
  - intros x. rewrite tree_erase_elem, Hm, dom_delete_L. set_solver.
  - apply (ordered_ext (address_before s)); [|apply tree_erase_ordered; done]. intros x y [Hx _]%tree_erase_elem [Hy _]%tree_erase_elem.
    unfold address_before, attach_at. fields. rewrite !lookup_delete_ne; done.
Qed.

(** ** Steps of shmat(2) *)

Section Steps.
Context {cfg : PhysConfig} (W PTR : Z).

Lemma begin_ok s c id shmaddr shmflg : shm_ok s -> flights s !! psid c = None ->
  ends (shmat_begin c id shmaddr shmflg) s (fun r s' => shm_ok s' /\ segments s' = segments s /\ attaches s' = attaches s /\
    (r = - EINVAL /\ s' = s \/ r = - ENOSPC /\ flights s' = flights s \/
     r = 0 /\ exists j seg f, segments s !! j = Some seg /\ shmid seg = id /\ namespace_id seg = ipc_ns c /\ removed seg = false /\
       fl_shmid f = id /\ fl_segment f = j /\ fl_phase f = Reserved /\ flights s' = <[psid c := f]> (flights s))).
Proof.
  intros Hok Hn. unfold shmat_begin. case_match; [apply ends_ret; tauto|]. apply ends_bind, ends_look.
  pose proof (ids_find_spec s id (ok_ids _ Hok)) as Hf. destruct (shm_ids_find s id) as [j|]; [|apply ends_ret; tauto].
  destruct Hf as (seg & E & Hid). apply ends_bind, ends_look. rewrite (segment_at_some _ _ _ E). destruct (negb _ || _) eqn:Eb; [apply ends_ret; tauto|].
  apply orb_false_iff in Eb as [Ens%negb_false_iff Er]. destruct (ok_slots _ Hok) as [H1 H2 H3 H4].
  destruct (pool_take MOS_SHM_ATTACH_MAX _ _ ltac:(done) H2) as (i & p & Ep & Hp).
  apply ends_bind. eexists i, _. split; [unfold take_attach_slot; rewrite Ep; reflexivity|]. destruct Hp as [(-> & Hp & _) | (Hi & Hni & Hp)].
  - apply ends_ret. split; [|split; [done|]; split; [done|]; right; left; done]. apply (ok_flights s (flights s) p Hok). split; fields; done.
  - rewrite (proj2 (Z.ltb_ge i 0)) by lia. apply ends_bind, ends_change, ends_ret. set (f := Flight _ _ _ _ _ _ _). split.
    2: { split; [done|]. split; [done|]. right. right. split; [done|]. exists j, seg, f. split_and!; try done. lia. }
    apply not_elem_of_union in Hni as [Hni Hnf]. rewrite elem_of_held in Hnf.
    change (shm_ok (set_slots (segment_slots s) p (set_flights (<[psid c := f]> (flights s)) s))). apply ok_flights; [done|]. split; fields; [done | | |].
    + rewrite fmap_insert, map_img_insert_notin_L by (rewrite lookup_fmap, Hn; done). replace (_ ∪ _) with ({[i]} ∪ (dom (attaches s) ∪ map_img (fl_attach <$> flights s))); [exact Hp | cbn; set_solver].
    + intros u g. destruct (decide (u = psid c)) as [-> | Hne]; [rewrite lookup_insert_eq; intros [= <-]; done | rewrite lookup_insert_ne by done; eauto].
    + intros u u' g g' Eu Eu' Ea. apply lookup_insert_Some in Eu as [[<- <-] | [Hu Eu]], Eu' as [[<- <-] | [Hu' Eu']]; [done | | | eauto].
      * destruct Hnf. eauto.
      * destruct Hnf. eauto.
Qed.

Lemma get_flight_ends s t f Q : flights s !! t = Some f -> Q f s -> ends (get_flight t) s Q.
Proof. intros E H. exists f, s. unfold get_flight. rewrite E. done. Qed.

Lemma mmap_ok s t f mapped : shm_ok s -> flights s !! t = Some f -> ends (shmat_mmap W t mapped) s (fun _ s' => shm_ok s').
Proof.
  intros Hok E. apply ends_bind, (get_flight_ends _ _ f); [done|]. apply ends_bind, ends_look, ends_bind, ends_change.
  set (s1 := set_calls _ s). assert (H1 : shm_ok s1) by (apply ok_calls; done). case_match; apply ends_bind.
  - eapply ends_mono; [apply (drop_ok s1 t f); done|]. intros _ s' [Hs _]. apply ends_ret. done.
  - eapply ends_mono; [apply (phase_ok s1 t f); done|]. intros _ s' [Hs _]. apply ends_ret. done.
Qed.

Lemma put_page_ok s j seg n phy : shm_ok s -> segments s !! j = Some seg -> shm_ok (put j (set_page_at n phy seg) s).
Proof.
  intros [Hi Hk Ha Hc Hr Hp Hs] E. split.
  - apply (ids_put _ _ seg); done.
  - apply (keys_put _ _ seg); done.
  - destruct Ha. split; assumption.
  - apply (counts_put _ _ seg); done.
  - intros i g. fields. intros [[<- <-] | [_ Eg]]%lookup_insert_Some; [exact (Hr _ _ E) | exact (Hr _ _ Eg)].
  - apply (shape_put _ _ seg); [done | done | done | done | apply length_insert].
  - apply (slots_put _ _ seg); done.
Qed.
Lemma alloc_ends s m Q : (forall i p, Q i (set_phys p s)) -> ends (alloc_page m) s Q.
Proof.
  intros H. unfold ends, alloc_page. destruct (phymm_alloc_user (phys s)) as [i p].
  destruct (if i =? PHYMM_INVALID then phymm_alloc_user (reclaim m p) else (i, p)) as [i' p']. eauto.
Qed.
Lemma entry_read_ok s j n : shm_ok s -> ends (ensure_read j n) s (fun _ s' => s' = s).
Proof.
  intros Hok. apply ends_bind, ends_look. case_match eqn:En; [apply ends_ret; done|]. destruct (segments s !! j) as [seg|] eqn:E; [|apply Z.leb_gt in En; unfold segment_at in En; rewrite E in En; cbn [default page_count zero_segment] in En; lia].
  rewrite (segment_at_some _ _ _ E) in *. destruct (ok_shape _ Hok _ _ E) as (Hc & _ & Hl).
  destruct (lookup_lt_is_Some_2 (pages seg) n) as [phy ->]; [lia|]. apply ends_ret. done.
Qed.
(** Every state of the pages is as good, and the flights stay. *)
Definition same_flights s s' : Prop := shm_ok s' /\ flights s' = flights s.
Lemma page_alloc_ok s m : shm_ok s -> ends (ensure_alloc W m) s (fun _ => same_flights s).
Proof.
  intros Hok. apply ends_bind, alloc_ends. intros i p. pose proof (ok_phys s p Hok) as H1. case_match; [apply ends_ret; done|].
  case_match; [apply ends_bind, ends_change, ends_ret; split; [apply ok_phys; done | done] | apply ends_ret; done].
Qed.
Lemma entry_store_ok s j n i : shm_ok s -> is_Some (pages (segment_at s j) !! n) -> ends (ensure_store W j n i) s (fun _ => same_flights s).
Proof.
  intros Hok [x Hx]. apply ends_bind, ends_look. rewrite Hx. destruct (segments s !! j) as [seg|] eqn:E; [|unfold segment_at in Hx; rewrite E in Hx; done].
  rewrite (segment_at_some _ _ _ E). apply ends_bind, ends_change, ends_bind, ends_change, ends_ret. split; [|done].
  set (q := (phymm_reference_page _ _).2). exact (put_page_ok (set_phys q s) j seg _ _ (ok_phys _ _ Hok) E).
Qed.
(** What a step in the loop relies on: the entry to store is still there. *)
Definition in_loop s f : Prop :=
  match fl_phase f with
  | Reserved | Filled _ => False
  | Storing _ _ n _ => is_Some (pages (segment_at s (fl_segment f)) !! n)
  | _ => True
  end.
Lemma pages_step_ok s m t f : shm_ok s -> in_loop s f -> ends (pages_step W m t f) s (fun _ => same_flights s).
Proof.
  intros Hok Hv. assert (Hend : same_flights s s) by (split; done). unfold pages_step, in_loop in *.
  destruct (fl_phase f) as [|addr vir n|addr vir n|addr vir n i|addr vir n phy|addr|]; try done.
  - apply ends_bind, ends_look. case_match; [apply ends_ret; done|]. apply ends_bind.
    eapply ends_mono; [apply entry_read_ok; done|]. intros r ? ->. apply ends_ret. done.
  - apply ends_bind. eapply ends_mono; [apply page_alloc_ok; done|]. intros r s' H'. apply ends_ret. done.
  - apply ends_bind. eapply ends_mono; [apply entry_store_ok; done|]. intros r s' H'. apply ends_ret. done.
  - case_match; [apply ends_ret; done|]. apply ends_bind, ends_change, ends_ret. split; [apply ok_calls; done | done].
  - apply ends_bind, ends_look, ends_bind, ends_change, ends_ret. split; [apply ok_calls; done | done].
Qed.
Lemma pages_ok s t f m : shm_ok s -> flights s !! t = Some f -> in_loop s f -> ends (shmat_pages W m t) s (fun _ s' => shm_ok s').
Proof.
  intros Hok E Hv. apply ends_bind, (get_flight_ends _ _ f); [done|]. apply ends_bind. eapply ends_mono; [apply pages_step_ok; done|].
  intros [p|] s1 [H1 E1]; rewrite <- E1 in E; apply ends_bind.
  - eapply ends_mono; [apply phase_ok; done|]. intros _ s' [H' _]. apply ends_ret. done.
  - eapply ends_mono; [apply drop_ok; done|]. intros _ s' [H' _]. apply ends_ret. done.
Qed.

(** The last step enters the record, or gives its slot back. *)
Lemma finish_ok s c f mapped : shm_ok s -> flights s !! psid c = Some f -> fl_phase f = Filled mapped ->
  ends (shmat_finish c) s (fun r s' => shm_ok s' /\ flights s' = delete (psid c) (flights s) /\
    (r = - EINVAL /\ segments s' = segments s /\ attaches s' = attaches s \/
     r = 0 /\ exists j seg, segments s !! j = Some seg /\ shmid seg = fl_shmid f /\ namespace_id seg = ipc_ns c /\ removed seg = false /\
       segments s' = <[j := set_count (attach_count seg + 1) seg]> (segments s) /\
       attaches s' = <[fl_attach f := Attach (fl_shmid f) (psid c) mapped (size seg)]> (attaches s))).
Proof.
  intros Hok E Ep. apply ends_bind, (get_flight_ends _ _ f); [done|]. rewrite Ep. apply ends_bind, ends_look, ends_bind, ends_look.
  pose proof (ids_find_spec s (fl_shmid f) (ok_ids _ Hok)) as Hf. destruct (shm_ids_find s (fl_shmid f)) as [j|].
  2: { apply ends_bind. eapply ends_mono; [apply drop_ok; done|]. intros _ s1 (H1 & H2 & H3 & H4). apply ends_bind, ends_change, ends_ret.
       split; [apply ok_calls; done|]. auto. }
  destruct Hf as (seg & Es & Hid). rewrite (segment_at_some _ _ _ Es). destruct (negb _ || _) eqn:Eb.
  { apply ends_bind. eapply ends_mono; [apply drop_ok; done|]. intros _ s1 (H1 & H2 & H3 & H4). apply ends_bind, ends_change, ends_ret.
    split; [apply ok_calls; done|]. auto. }
  apply orb_false_iff in Eb as [Ens%negb_false_iff Er]. destruct Hok as [Hi Hk Ha Hc Hr Hp Hs]. pose proof Hs as [S1 S2 S3 S4].
  pose proof (attached_bound s (shmid seg) Hs) as Hb. pose proof (co_count _ Hc _ _ Es) as Hn. set (a := Attach _ _ _ _).
  assert (Eu : u32 (attach_count seg + 1) = attach_count seg + 1) by (apply Z.mod_small; unfold UINT32_MOD; lia). rewrite Eu.
  assert (Hfree : attaches s !! fl_attach f = None) by (apply not_elem_of_dom; eauto).
  pose proof (addresses_insert s (fl_attach f) a Ha Hfree) as Ha'. cbv zeta in Ha'.
  apply ends_bind, ends_change, ends_bind, ends_change, ends_bind, ends_change, ends_bind, ends_change, ends_ret.
  split; [|split; [done|]; right; split; [done|]; exists j, seg; split_and!; try done; lia]. split.
  - destruct (ids_put s j seg (set_count (attach_count seg + 1) seg) Hi Es eq_refl). split; assumption.
  - destruct (keys_put s j seg (set_count (attach_count seg + 1) seg) Hk Es eq_refl eq_refl eq_refl). split; assumption.
  - destruct Ha'. split; assumption.
  - destruct Hc as [Hc1 Hc2]. pose proof (fun id => attached_insert s (fl_attach f) a (addresses s) id Hfree) as Hsz. split; fields.
    + intros i g Eg. transitivity (Z.of_nat (base.size (attached (set_attaches (<[fl_attach f := a]> (attaches s)) (addresses s) s) (shmid g)))); [|done]. rewrite Hsz. cbn [at_shmid a].
      apply lookup_insert_Some in Eg as [[<- <-] | [Hne Eg]]; [cbn; rewrite decide_True by done; lia|].
      rewrite decide_False; [rewrite (Hc1 _ _ Eg); lia|]. intros Hx. apply Hne, (ids_inj s j i seg g); congruence.
    + intros x b [[<- <-] | [Hne Eb]]%lookup_insert_Some.
      * destruct (Hp _ _ Es) as (Hpc & Hsz' & _). split; [cbn; unfold PAGE_SIZE in *; lia|]. exists j, (set_count (attach_count seg + 1) seg). rewrite lookup_insert_eq. done.
      * destruct (Hc2 _ _ Eb) as (Hz & k & g & Eg & H). split; [done|]. destruct (decide (k = j)) as [-> | Hkj]; [|exists k, g; rewrite lookup_insert_ne; done].
        exists j, (set_count (attach_count seg + 1) seg). rewrite lookup_insert_eq. simplify_eq. done.
  - intros i g. fields. intros [[<- <-] | [_ Eg]]%lookup_insert_Some; [cbn; lia | exact (Hr _ _ Eg)].
  - exact (shape_put s j seg (set_count (attach_count seg + 1) seg) Hp Es eq_refl eq_refl eq_refl).
  - split; fields; [rewrite dom_insert_lookup_L by eauto; done | | |].
    + replace (_ ∪ _) with (dom (attaches s) ∪ map_img (fl_attach <$> flights s) : gset Z); [exact S2|]. apply set_eq. intros x.
      rewrite !elem_of_union, !elem_of_held, dom_insert_L, elem_of_union, elem_of_singleton. split.
      * intros [Hx | (u & g & Eg & Hx)]; [tauto|]. destruct (decide (u = psid c)) as [-> | Hne]; [left; left; congruence|]. right. exists u, g. rewrite lookup_delete_ne; done.
      * intros [[-> | Hx] | (u & g & [_ Eg]%lookup_delete_Some & Hx)]; eauto.
    + intros u g [Hu Eg]%lookup_delete_Some. rewrite dom_insert_L, elem_of_union, elem_of_singleton. intros [Hx | Hx]; [apply Hu; eauto | exact (S3 _ _ Eg Hx)].
    + intros u u' g g' [_ Eu1]%lookup_delete_Some [_ Eu2]%lookup_delete_Some. eauto.
Qed.

(** ** Detaching and removing *)

(** A record leaves the table, and its segment counts one less: all of the
    invariant but that a removed segment without attachments is gone. *)
Lemma detach_parts s i a p j seg : shm_ok s -> attaches s !! i = Some a -> segments s !! j = Some seg -> shmid seg = at_shmid a ->
  pool_for MOS_SHM_ATTACH_MAX p ((dom (attaches s) ∪ map_img (fl_attach <$> flights s)) ∖ {[i]}) ->
  let s' := put j (set_count (attach_count seg - 1) seg) (set_slots (segment_slots s) p (set_attaches (delete i (attaches s)) (tree_erase i (addresses s)) s)) in
  ids_ok s' /\ keys_ok s' /\ addresses_ok s' /\ counts_ok s' /\ shape_ok s' /\ slots_ok s' /\
  (forall k g, k <> j -> segments s' !! k = Some g -> removed g = true -> 0 < attach_count g).
Proof.
  intros [Hi Hk Ha Hc Hr Hp Hs] Ea Es Hid Hpool. cbv zeta. set (seg' := set_count _ seg). pose proof Hs as [S1 S2 S3 S4]. split_and!.
  - destruct (ids_put s j seg seg' Hi Es eq_refl). split; assumption.
  - destruct (keys_put s j seg seg' Hk Es eq_refl eq_refl eq_refl). split; assumption.
  - destruct (addresses_delete s i Ha). split; assumption.
  - destruct Hc as [Hc1 Hc2]. pose proof (fun id => attached_delete s i a (tree_erase i (addresses s)) id Ea) as Hsz. split; fields.
    + intros k g Eg. set (s1 := set_attaches (delete i (attaches s)) (tree_erase i (addresses s)) s) in *.
      transitivity (Z.of_nat (base.size (attached s1 (shmid g)))); [|done]. specialize (Hsz (shmid g)).
      apply lookup_insert_Some in Eg as [[<- <-] | [Hne Eg]].
      * pose proof (Hc1 _ _ Es). cbn [shmid attach_count seg' set_count] in *. rewrite decide_True in Hsz by done. lia.
      * rewrite (Hc1 _ _ Eg). rewrite decide_False in Hsz; [lia|]. intros Hx. apply Hne, (ids_inj s j k seg g); congruence.
    + intros x b [_ Eb]%lookup_delete_Some. destruct (Hc2 _ _ Eb) as (Hz & k & g & Eg & H). split; [done|].
      destruct (decide (k = j)) as [-> | Hkj]; [|exists k, g; rewrite lookup_insert_ne; done]. exists j, seg'. rewrite lookup_insert_eq. simplify_eq. done.
  - exact (shape_put s j seg seg' Hp Es eq_refl eq_refl eq_refl).
  - split; fields; [rewrite dom_insert_lookup_L by eauto; done | | | done].
    + replace (_ ∪ _) with ((dom (attaches s) ∪ map_img (fl_attach <$> flights s)) ∖ {[i]}); [exact Hpool|]. apply set_eq. intros x.
      rewrite dom_delete_L, elem_of_difference, !elem_of_union, elem_of_difference, elem_of_singleton, !elem_of_held. split; [tauto|].
      intros [? | (u & g & Eg & Hx)]; [tauto|]. split; [eauto|]. intros ->. apply (S3 _ _ Eg). rewrite Hx. apply elem_of_dom. eauto.
    + intros u g Eg. rewrite dom_delete_L. pose proof (S3 _ _ Eg). set_solver.
  - intros k g Hne. fields. rewrite lookup_insert_ne by done. apply Hr.
Qed.

(** The result of shmdt(2). *)
Inductive detached (c : caller) (addr : Z) s : Z -> shm -> Prop :=
| detached_none : (forall i a, attaches s !! i = Some a -> at_owner a = psid c -> at_addr a <> addr) -> detached c addr s (- EINVAL) s
| detached_one i a j seg s' :
    attaches s !! i = Some a -> at_owner a = psid c -> at_addr a = addr -> segments s !! j = Some seg -> shmid seg = at_shmid a ->
    attaches s' = delete i (attaches s) -> flights s' = flights s -> calls s' = calls s ++ [(psid c, Munmap addr (at_size a))] ->
    segments s' = (if removed seg && (attach_count seg =? 1) then delete j (segments s) else <[j := set_count (attach_count seg - 1) seg]> (segments s)) ->
    detached c addr s 0 s'.

Lemma detach_ok s c addr : shm_ok s -> ends (sys_shmdt c addr) s (fun r s' => shm_ok s' /\ detached c addr s r s').
Proof.
  intros Hok. apply ends_bind, ends_look. pose proof (address_find_spec s (psid c) addr (ok_addresses _ Hok)) as Hf.
  destruct (shm_address_find s (psid c) addr) as [i|]; [|apply ends_ret; split; [done|]; constructor; done]. destruct Hf as (a & Ea & Ho & Haddr).
  apply ends_bind, ends_look, ends_bind, ends_change, ends_bind. rewrite (attach_at_some _ _ _ Ea).
  destruct (pool_return _ _ _ i (so_attaches _ (ok_slots _ Hok))) as (p & Ep & Hp); [apply elem_of_union_l, elem_of_dom; eauto|].
  eexists tt, _. split; [unfold return_attach_slot; fields; rewrite Ep; reflexivity|]. apply ends_bind, ends_change.
  destruct (co_attach _ (ok_counts _ Hok) _ _ Ea) as (Hz & j & seg & Es & Hid & _). rewrite (proj2 (Z.eqb_neq (at_size a) 0)) by lia.
  pose proof (ids_find_spec s (at_shmid a) (ok_ids _ Hok)) as Hf. apply ends_bind, ends_look. change (shm_ids_find _ (at_shmid a)) with (shm_ids_find s (at_shmid a)).
  destruct (shm_ids_find s (at_shmid a)) as [j'|]; [|destruct (Hf _ _ Es Hid)]. destruct Hf as (seg' & Es' & Hid').
  assert (j' = j) as -> by (apply (ids_inj s j' j seg' seg (ok_ids _ Hok)); congruence). simplify_eq.
  apply ends_bind, ends_bind, ends_look. change (segment_at _ j) with (segment_at s j). rewrite (segment_at_some _ _ _ Es).
  destruct (detach_parts s i a p j seg Hok Ea Es Hid Hp) as (D1 & D2 & D3 & D4 & D5 & D6 & D7). set (seg' := set_count (attach_count seg - 1) seg) in *.
  pose proof (co_count _ (ok_counts _ Hok) _ _ Es) as Hn. pose proof (attached_delete s i a (tree_erase i (addresses s)) (shmid seg) Ea) as Hsz. rewrite decide_True in Hsz by done.
  rewrite (proj2 (Z.ltb_lt 0 (attach_count seg))) by lia. apply ends_bind, ends_change. set (s1 := set_segments _ _) in *.
  assert (E1 : segments s1 !! j = Some seg') by apply lookup_insert_eq.
  replace (attach_count seg - 1 =? 0) with (attach_count seg =? 1) by lia. destruct (removed seg && (attach_count seg =? 1)) eqn:Eb.
  - apply andb_true_iff in Eb as [Er En]. eapply ends_mono.
    + apply (destroy_ok s1 j seg'); try done. apply map_size_empty_inv. pose proof (co_count _ D4 _ _ E1) as Hx. cbn [attach_count seg' set_count] in Hx. cbn [shmid seg' set_count] in *. lia.
    + intros _ s2 (H1 & H2 & [K1 K2 K3 K4]). apply ends_bind, ends_change, ends_ret. split; [apply ok_calls; done|].
      apply (detached_one _ _ _ i a j seg); fields; try done; [rewrite K4; done|]. rewrite Er, En, H2. unfold s1. fields. rewrite delete_insert_eq. done.
  - apply ends_ret, ends_bind, ends_change, ends_ret. split.
    + apply ok_calls. split; try done. intros k g Eg Hrm. destruct (decide (k = j)) as [-> | Hne]; [|eauto]. rewrite E1 in Eg. injection Eg as <-. change (removed seg = true) in Hrm. change (0 < attach_count seg - 1). rewrite Hrm in Eb. cbn in Eb. lia.
    + apply (detached_one _ _ _ i a j seg); try done. rewrite Eb. done.
Qed.
End Steps.
