(* ===== verification/ShmCorrect.v ===== *)
(** * System V shared memory: the calls

    What shmget(2), shmdt(2) and shmctl(2) return and change; that every step
    of every task keeps the invariant of [ShmProof], in any order; that the
    lists of the model are the trees of the code; and runs in which shmat(2)
    uses a segment that is gone. *)

From S2P Require Import Prelude Slots SlotsProof Phymm Shm ShmProof ShmSteps.

Implicit Types (s : shm) (i j : Z) (seg : mos_shm_segment) (a : mos_shm_attach) (t : Z) (f : flight) (l : list Z).

Section Calls.
Context {cfg : PhysConfig} (W PTR : Z).

(** ** shmctl(2) *)

Inductive controlled (c : caller) (id cmd : Z) (buf : bool) s : Z * option shm_status -> shm -> Prop :=
| controlled_none : (forall j seg, segments s !! j = Some seg -> shmid seg = id -> namespace_id seg <> ipc_ns c) ->
    controlled c id cmd buf s (- EINVAL, None) s
| controlled_removed j seg s' : segments s !! j = Some seg -> shmid seg = id -> namespace_id seg = ipc_ns c -> Z.ldiff cmd MOS_IPC_64 = MOS_IPC_RMID ->
    attaches s' = attaches s -> flights s' = flights s -> (forall ns k, k <> MOS_IPC_PRIVATE -> shm_keys_find s' ns k <> Some j) ->
    segments s' = (if attach_count seg =? 0 then delete j (segments s) else <[j := set_removed seg]> (segments s)) ->
    controlled c id cmd buf s (0, None) s'
| controlled_stat j seg : segments s !! j = Some seg -> shmid seg = id -> namespace_id seg = ipc_ns c -> Z.ldiff cmd MOS_IPC_64 = MOS_IPC_STAT ->
    controlled c id cmd buf s
      (if buf then (0, Some (Status (key seg) (creator_uid seg) (creator_gid seg) (mode seg) (ctime seg) (owner_pid seg) (attach_count seg) (size seg)))
       else (- EFAULT, None)) s
| controlled_other : Z.ldiff cmd MOS_IPC_64 <> MOS_IPC_RMID -> Z.ldiff cmd MOS_IPC_64 <> MOS_IPC_STAT -> controlled c id cmd buf s (- ENOSYS, None) s.

Lemma shm_remove_ok s j seg : shm_ok s -> segments s !! j = Some seg ->
  ends (shm_remove j) s (fun r s' => shm_ok s' /\ r = 0 /\ attaches s' = attaches s /\ flights s' = flights s /\
    segments s' = (if attach_count seg =? 0 then delete j (segments s) else <[j := set_removed seg]> (segments s))).
Proof.
  intros [Hi Hk Ha Hc Hr Hp Hs] E. apply ends_bind, ends_look. rewrite (segment_at_some _ _ _ E).
  pose proof (ids_put s j seg (set_removed seg) Hi E eq_refl) as D1. pose proof (keys_removed s j seg Hk E) as D2.
  pose proof (counts_put s j seg (set_removed seg) Hc E eq_refl eq_refl eq_refl) as D3.
  pose proof (shape_put s j seg (set_removed seg) Hp E eq_refl eq_refl eq_refl) as D4. pose proof (slots_put s j seg (set_removed seg) Hs E) as D5.
  set (l := if negb (removed seg) && _ then tree_erase j (keys s) else keys s) in D2. set (s1 := set_trees (ids s) l (put j (set_removed seg) s)) in D2.
  assert (A1 : ids_ok s1) by (destruct D1; split; assumption). assert (A2 : addresses_ok s1) by (destruct Ha; split; assumption).
  assert (A3 : counts_ok s1) by (destruct D3; split; assumption). assert (A4 : shape_ok s1) by exact D4. assert (A5 : slots_ok s1) by (destruct D5; split; assumption).
  assert (E1 : segments s1 !! j = Some (set_removed seg)) by apply lookup_insert_eq.
  assert (Hrm : forall k g, k <> j -> segments s1 !! k = Some g -> removed g = true -> 0 < attach_count g).
  { intros k g Hne. unfold s1. fields. rewrite lookup_insert_ne by done. apply Hr. }
  apply ends_bind. apply (ends_mono _ _ (fun _ s' => s' = set_trees (ids s) l s)).
  { subst s1 l. destruct (negb (removed seg) && _); [apply ends_change | apply ends_ret; destruct s]; done. }
  intros _ s' ->. apply ends_bind, ends_change, ends_bind. change (set_segments _ (set_trees (ids s) l s)) with s1. case_match eqn:En.
  - eapply ends_mono; [apply (destroy_ok s1 j (set_removed seg)); try done|].
    + apply map_size_empty_inv. pose proof (co_count _ A3 _ _ E1) as Hx. cbn [attach_count shmid set_removed] in *. lia.
    + intros _ s2 (H1 & H2 & [K1 K2 K3 K4]). apply ends_ret. split_and!; [done | done | done | done |]. rewrite H2. unfold s1. fields. rewrite delete_insert_eq. done.
  - apply ends_ret, ends_ret. split_and!; try done. split; try done. intros k g Eg Hx. destruct (decide (k = j)) as [-> | Hne]; [|eauto].
    rewrite E1 in Eg. injection Eg as <-. pose proof (co_count _ Hc _ _ E). cbn [attach_count set_removed]. lia.
Qed.
Lemma control_ok s c id cmd buf : shm_ok s -> ends (ps_shmctl c id cmd buf) s (fun r s' => shm_ok s' /\ controlled c id cmd buf s r s').
Proof.
  intros Hok. apply ends_bind, ends_look. pose proof (ids_find_spec s id (ok_ids _ Hok)) as Hf. destruct (shm_ids_find s id) as [j|].
  2: { apply ends_ret. split; [done|]. constructor. intros j seg E Hid. destruct (Hf _ _ E Hid). }
  destruct Hf as (seg & E & Hid). apply ends_bind, ends_look. rewrite (segment_at_some _ _ _ E). case_match eqn:Ens.
  { apply ends_ret. split; [done|]. constructor. intros j' seg' E' Hid'. assert (j' = j) as -> by (apply (ids_inj s j' j seg' seg (ok_ids _ Hok)); congruence). simplify_eq. lia. }
  case_match eqn:E0; [|case_match eqn:E2].
  - apply ends_bind. eapply ends_mono; [apply (shm_remove_ok s j seg); done|]. intros r s' (H1 & -> & H2 & H3 & H4). apply ends_ret. split; [done|].
    apply (controlled_removed _ _ _ _ _ j seg); try done; [lia | lia |]. intros ns k Hk Hfind. pose proof (keys_find_spec s' ns k (ok_keys _ H1)) as Hx.
    rewrite Hfind, H4 in Hx. destruct Hx as (g & Eg & _ & _ & _ & Hr). case_match; [rewrite lookup_delete_eq in Eg; done | rewrite lookup_insert_eq in Eg; injection Eg as <-; done].
  - unfold shm_stat. destruct buf; cbn [negb]; [apply ends_bind, ends_look; rewrite (segment_at_some _ _ _ E)|]; apply ends_ret; (split; [done|]).
    + refine (controlled_stat c id cmd true s j seg _ _ _ _); [done | done | lia | lia].
    + refine (controlled_stat c id cmd false s j seg _ _ _ _); [done | done | lia | lia].
  - apply ends_ret. split; [done|]. constructor; lia.
Qed.

(** ** shmget(2) *)

(** A segment of this name that can still be found. *)
Definition named s (ns k : Z) j seg : Prop := segments s !! j = Some seg /\ namespace_id seg = ns /\ key seg = k /\ k <> MOS_IPC_PRIVATE /\ removed seg = false.
(** The pages for [sz] bytes. *)
Definition pages_for (sz : Z) : Z := (sz + PAGE_SIZE - 1) / PAGE_SIZE.

Definition may_create (c : caller) (k sz shmflg : Z) s : Prop :=
  sz <> 0 /\ (forall j seg, ~ named s (ipc_ns c) k j seg) /\ (k = MOS_IPC_PRIVATE \/ nz (Z.land shmflg MOS_IPC_CREAT) = true).

Inductive got (c : caller) (allocated : bool) (now k sz shmflg : Z) s : Z -> shm -> Prop :=
| got_zero : sz = 0 -> got c allocated now k sz shmflg s (- EINVAL) s
| got_exclusive j seg : sz <> 0 -> named s (ipc_ns c) k j seg -> nz (Z.land shmflg MOS_IPC_CREAT) = true -> nz (Z.land shmflg MOS_IPC_EXCL) = true ->
    got c allocated now k sz shmflg s (- EEXIST) s
| got_found j seg : sz <> 0 -> named s (ipc_ns c) k j seg -> nz (Z.land shmflg MOS_IPC_CREAT) && nz (Z.land shmflg MOS_IPC_EXCL) = false ->
    got c allocated now k sz shmflg s (if sz <=? size seg then shmid seg else - EINVAL) s
| got_absent : sz <> 0 -> k <> MOS_IPC_PRIVATE -> (forall j seg, ~ named s (ipc_ns c) k j seg) -> nz (Z.land shmflg MOS_IPC_CREAT) = false ->
    got c allocated now k sz shmflg s (- ENOENT) s
| got_no_memory : may_create c k sz shmflg s -> allocated = false -> got c allocated now k sz shmflg s (- ENOMEM) s
| got_full s' : may_create c k sz shmflg s -> (forall j, 0 <= j < MOS_SHM_SEGMENT_MAX -> is_Some (segments s !! j)) ->
    segments s' = segments s -> next_id s' = next_id s -> got c allocated now k sz shmflg s (- ENOSPC) s'
| got_new j s' : may_create c k sz shmflg s -> allocated = true -> 0 <= j < MOS_SHM_SEGMENT_MAX -> segments s !! j = None ->
    (forall i seg, segments s !! i = Some seg -> shmid seg <> next_id s) -> next_id s' = next_id s + 1 ->
    segments s' = <[j := Segment false (ipc_ns c) k (next_id s) (pages_for sz * PAGE_SIZE) (pages_for sz) (replicate (Z.to_nat (pages_for sz)) 0)
      (psid c) (euid c) (egid c) (Z.land (u32 shmflg) 0x1ff) (u32 now) 0]> (segments s) ->
    got c allocated now k sz shmflg s (next_id s) s'.

(** A segment enters the tables. *)
Lemma create_parts s j g p : shm_ok s -> segments s !! j = None -> shmid g = next_id s -> next_id s < INT_MAX ->
  attach_count g = 0 -> removed g = false -> 0 < page_count g -> size g = page_count g * PAGE_SIZE -> length (pages g) = Z.to_nat (page_count g) ->
  (forall i seg, ~ named s (namespace_id g) (key g) i seg) -> pool_for MOS_SHM_SEGMENT_MAX p ({[j]} ∪ dom (segments s)) ->
  let s1 := put j g (set_next_id (next_id s + 1) (set_slots p (attach_slots s) s)) in
  shm_ok (set_trees (tree_insert (id_before s1 j) j (ids s)) (if negb (key g =? MOS_IPC_PRIVATE) then tree_insert (key_before s1 j) j (keys s) else keys s) s1).
Proof.
  intros [Hi Hk Ha Hc Hr Hp Hs] E Hid Hmax Hn0 Hrm Hpc Hsz Hlen Hnamed Hpool s1.
  assert (Hat : forall x, segment_at s1 x = if decide (x = j) then g else segment_at s x) by (intros x; apply (segment_at_put (set_next_id (next_id s + 1) (set_slots p (attach_slots s) s)))).
  assert (Hj : forall x, x ∈ ids s -> x <> j) by (intros x Hx ->; apply (io_mem _ Hi), elem_of_dom in Hx as [? Hx]; congruence).
  assert (Hkj : forall x, x ∈ keys s -> x <> j) by (intros x Hx ->; apply (ko_mem _ Hk) in Hx as (? & Hx & _); congruence). split.
  - destruct Hi as [Hm Ho Hrg Hnx]. split; [| | |cbn; lia].
    + intros x. fields. unfold s1. fields. rewrite tree_insert_elem, Hm, dom_insert_L. set_solver.
    + apply (ordered_ext (id_before s1)); [done|]. apply tree_insert_ordered; [apply id_before_trans | |].
      * intros x Hx _. unfold id_before. rewrite !Hat, decide_False, decide_True by auto. apply Hm, elem_of_dom in Hx as [seg Es].
        rewrite (segment_at_some _ _ _ Es). pose proof (Hrg _ _ Es). lia.
      * revert Ho. apply ordered_ext. intros x y Hx Hy. unfold id_before. rewrite !Hat, !decide_False by auto. done.
    + intros x seg. unfold s1. fields. intros [[<- <-] | [_ Es]]%lookup_insert_Some; [lia|]. pose proof (Hrg _ _ Es). lia.
  - destruct Hk as [Hm Ho]. assert (Ho1 : ordered (key_before s1) (keys s)).
    { revert Ho. apply ordered_ext. intros x y Hx Hy. unfold key_before. rewrite !Hat, !decide_False by auto. done. }
    split.
    + intros x. unfold s1. fields. transitivity (x = j /\ key g <> MOS_IPC_PRIVATE \/ x ∈ keys s).
      { destruct (Z.eqb_spec (key g) MOS_IPC_PRIVATE); cbn [negb]; [|rewrite tree_insert_elem]; tauto. }
      destruct (decide (x = j)) as [-> | Hne]; [rewrite lookup_insert_eq | rewrite lookup_insert_ne, Hm by done; tauto].
      split; [intros [[_ H] | H]; [eauto | destruct (Hkj _ H eq_refl)] | intros (? & [= <-] & H & _); tauto].
    + change (ordered (key_before s1) (if negb (key g =? MOS_IPC_PRIVATE) then tree_insert (key_before s1 j) j (keys s) else keys s)).
      destruct (Z.eqb_spec (key g) MOS_IPC_PRIVATE) as [|Hkey]; cbn [negb]; [done|]. apply tree_insert_ordered; [apply key_before_trans | | done].
      intros x Hx Hb. unfold key_before in *. rewrite !Hat, (decide_True (P := j = j)), (decide_False (P := x = j)) in * by auto.
      apply Hm in Hx as (seg & Es & Hseg & Hr'). rewrite (segment_at_some _ _ _ Es) in *. destruct (decide (namespace_id seg = namespace_id g /\ key seg = key g)) as [[H1 H2] | H]; [|lia].
      destruct (Hnamed x seg). split_and!; done.
  - destruct Ha. split; assumption.
  - destruct Hc as [Hc1 Hc2]. split; unfold s1; fields.
    + intros x seg [[<- <-] | [_ Es]]%lookup_insert_Some; [|exact (Hc1 _ _ Es)]. rewrite Hn0. symmetry.
      replace (attached _ _) with (∅ : gmap Z mos_shm_attach); [done|]. symmetry. apply map_empty. intros i. apply map_lookup_filter_None. fields. right.
      intros a Ea Hx. cbn in Hx. destruct (Hc2 _ _ Ea) as (_ & k & h & Eh & Hh & _). pose proof (io_range _ Hi _ _ Eh). lia.
    + intros i a Ea. destruct (Hc2 _ _ Ea) as (Hz & k & h & Eh & H). split; [done|]. exists k, h. rewrite lookup_insert_ne by congruence. done.
  - intros x seg. unfold s1. fields. intros [[<- <-] | [_ Es]]%lookup_insert_Some; [congruence | exact (Hr _ _ Es)].
  - intros x seg. unfold s1. fields. intros [[<- <-] | [_ Es]]%lookup_insert_Some; [done | exact (Hp _ _ Es)].
  - destruct Hs. split; unfold s1; fields; [rewrite dom_insert_L; done | done | done | done].
Qed.

(** The size fits: no sum wraps, and the array has an entry per page. *)
Definition fits (sz : Z) : Prop := 0 <= sz /\ sz + PAGE_SIZE - 1 < W /\ 0 < PTR /\ PTR * pages_for sz < UINT32_MOD.

Lemma create_ok s c allocated now k sz shmflg : shm_ok s -> fits sz -> next_id s < INT_MAX -> may_create c k sz shmflg s ->
  ends (mos_shm_create W PTR c allocated now k sz (u32 shmflg)) s (fun r s' => shm_ok s' /\ got c allocated now k sz shmflg s r s').
Proof.
  intros Hok (Hsz & HW & HP & H32) Hmax Hmay. pose proof Hmay as (Hne & Hnamed & _). pose proof (ok_slots _ Hok) as [S1 S2 S3 S4].
  unfold mos_shm_create. rewrite (Z.mod_small (sz + PAGE_SIZE - 1)) by (unfold PAGE_SIZE in *; lia). fold (pages_for sz). cbv zeta.
  assert (Hc : 0 < pages_for sz) by (apply Z.div_str_pos; unfold PAGE_SIZE in *; lia). rewrite (proj2 (Z.eqb_neq (pages_for sz) 0)) by lia.
  rewrite (proj2 (Z.eqb_neq (pages_for sz * PAGE_SIZE) 0)) by (unfold PAGE_SIZE in *; lia).
  rewrite u32_id, (Z.mul_comm PTR), Z.div_mul by lia. destruct allocated; cbn [negb]; [|apply ends_ret; split; [done|]; constructor; done].
  destruct (pool_take MOS_SHM_SEGMENT_MAX _ _ ltac:(done) S1) as (j & p & Ep & Hp).
  apply ends_bind. eexists j, _. split; [unfold take_segment_slot; rewrite Ep; reflexivity|]. destruct Hp as [(-> & Hp & Hall) | (Hj & Hnj & Hp)].
  - apply ends_ret. split; [|apply got_full; try done; intros j Hj; apply elem_of_dom; auto].
    destruct Hok as [[] [] [] [] ? ? _]. split; [split | split | split | split | | | split]; assumption.
  - rewrite (proj2 (Z.ltb_ge j 0)) by lia. apply not_elem_of_dom in Hnj. apply ends_bind, ends_look. fields.
    apply ends_bind. rewrite (proj2 (Z.eqb_neq _ _)) by lia. apply ends_change. apply ends_bind, ends_change, ends_bind, ends_change, ends_bind.
    set (g := Segment _ _ _ _ _ _ _ _ _ _ _ _ _).
    pose proof (create_parts s j g p Hok Hnj eq_refl Hmax eq_refl eq_refl Hc eq_refl ltac:(apply length_replicate) Hnamed Hp) as Hend. cbv zeta in Hend.
    change (key g) with k in Hend.
    assert (Hgot : forall l l', got c true now k sz shmflg s (next_id s) (set_trees l l' (put j g (set_next_id (next_id s + 1) (set_slots p (attach_slots s) s))))).
    { intros l l'. apply (got_new _ _ _ _ _ _ _ j); try done. intros i seg Es. pose proof (io_range _ (ok_ids _ Hok) _ _ Es). lia. }
    destruct (negb (k =? MOS_IPC_PRIVATE)); [apply ends_change | apply ends_ret]; (apply ends_ret; split; [exact Hend | apply Hgot]).
Qed.
Lemma get_ok s c allocated now k sz shmflg : shm_ok s -> fits sz -> next_id s < INT_MAX ->
  ends (sys_shmget W PTR c allocated now k sz shmflg) s (fun r s' => shm_ok s' /\ got c allocated now k sz shmflg s r s').
Proof.
  intros Hok Hfit Hmax. unfold sys_shmget. destruct (Z.eqb_spec sz 0) as [-> | Hne]; [apply ends_ret; split; [done|]; constructor; done|]. apply ends_bind.
  pose proof (keys_find_spec s (ipc_ns c) k (ok_keys _ Hok)) as Hf. destruct (Z.eqb_spec k MOS_IPC_PRIVATE) as [-> | Hk]; cbn [negb andb].
  - apply ends_ret. apply create_ok; try done. split; [done|]. split; [|auto]. intros j seg (_ & _ & _ & H & _). done.
  - apply ends_look. destruct (shm_keys_find s (ipc_ns c) k) as [j|].
    + destruct Hf as (seg & E & Hseg). apply ends_bind, ends_look. rewrite (segment_at_some _ _ _ E). assert (Hn : named s (ipc_ns c) k j seg) by (split; done).
      destruct (nz (Z.land shmflg MOS_IPC_CREAT) && nz (Z.land shmflg MOS_IPC_EXCL)) eqn:Eb.
      * apply ends_ret. split; [done|]. apply andb_true_iff in Eb as [? ?]. apply (got_exclusive _ _ _ _ _ _ _ j seg); done.
      * pose proof (got_found c allocated now k sz shmflg s j seg Hne Hn Eb) as Hg. rewrite Z.ltb_antisym. destruct (sz <=? size seg); apply ends_ret; done.
    + assert (Hn : forall j seg, ~ named s (ipc_ns c) k j seg) by (intros j seg (H1 & H2 & H3 & H4 & H5); rewrite (Hf Hk j seg) in H5; done).
      destruct (nz (Z.land shmflg MOS_IPC_CREAT)) eqn:Eb; cbn [negb]; [apply create_ok; try done; split; auto|]. apply ends_ret. split; [done|]. constructor; done.
Qed.
End Calls.

(** ** All runs *)

(** A step of a task: a call that takes the lock once, or one of those of
    shmat(2). *)
Inductive op :=
  | Get (c : caller) (allocated : bool) (now k sz shmflg : Z) | Begin (c : caller) (id shmaddr shmflg : Z) | MmapStep (t mapped : Z)
  | PagesStep (m : machine) (t : Z) | Finish (c : caller) | Detach (c : caller) (addr : Z) | Control (c : caller) (id cmd : Z) (buf : bool).

Section Runs.
Context {cfg : PhysConfig} (W PTR : Z).

Definition exec (o : op) : H unit :=
  match o with
  | Get c al now k sz flg => sys_shmget W PTR c al now k sz flg;; mret tt
  | Begin c id addr flg => shmat_begin c id addr flg;; mret tt
  | MmapStep t mapped => shmat_mmap W t mapped;; mret tt
  | PagesStep m t => shmat_pages W m t;; mret tt
  | Finish c => shmat_finish c;; mret tt
  | Detach c addr => sys_shmdt c addr;; mret tt
  | Control c id cmd buf => ps_shmctl c id cmd buf;; mret tt
  end.

(** A task is in one call at a time, the steps of shmat(2) come in their
    order, the identifiers have not run out, and a page is stored to a segment
    that still has a place for it: see [Demo.store_to_nothing]. *)
Definition valid s (o : op) : Prop :=
  match o with
  | Get _ _ _ _ sz _ => fits W PTR sz /\ next_id s < INT_MAX
  | Begin c _ _ _ => flights s !! psid c = None
  | MmapStep t _ => exists f, flights s !! t = Some f /\ fl_phase f = Reserved
  | PagesStep _ t => exists f, flights s !! t = Some f /\ in_loop s f
  | Finish c => exists f mapped, flights s !! psid c = Some f /\ fl_phase f = Filled mapped
  | Detach _ _ | Control _ _ _ _ => True
  end.

Inductive reachable (p : phymm) : shm -> Prop :=
| reachable_start : reachable p (start p)
| reachable_step s o s' : reachable p s -> valid s o -> exec o s = Some (tt, s') -> reachable p s'.

Lemma exec_ok s o : shm_ok s -> valid s o -> ends (exec o) s (fun _ s' => shm_ok s').
Proof.
  assert (Hret : forall (A : Type) (m : H A), ends m s (fun _ s' => shm_ok s') -> ends (m;; mret tt) s (fun _ s' => shm_ok s')).
  { intros A m Hm. apply ends_bind. eapply ends_mono; [exact Hm|]. intros x s' Hs'. apply ends_ret. done. }
  intros Hok Hv. destruct o; apply Hret; cbn in Hv.
  - destruct Hv. eapply ends_mono; [apply get_ok; done | intros ? ? [? ?]; done].
  - eapply ends_mono; [apply begin_ok; done | intros ? ? [? ?]; done].
  - destruct Hv as (f & E & _). eapply mmap_ok; done.
  - destruct Hv as (f & E & Ep). eapply pages_ok; done.
  - destruct Hv as (f & mapped & E & Ep). eapply ends_mono; [eapply finish_ok; done | intros ? ? [? ?]; done].
  - eapply ends_mono; [apply detach_ok; done | intros ? ? [? ?]; done].
  - eapply ends_mono; [apply control_ok; done | intros ? ? [? ?]; done].
Qed.
Lemma reachable_ok p s : reachable p s -> shm_ok s.
Proof. induction 1 as [|s o s' _ IH Hv E]; [apply shm_start_ok|]. destruct (exec_ok s o IH Hv) as (u & s1 & E1 & H1). congruence. Qed.

(** C15: In every run of the shared memory calls, whatever the order of the
    steps of the tasks, as long as the sizes asked for do not wrap (nor, in
    bytes of the array of pages, 32 bits) and identifiers are left, the tables
    agree: the slots taken are those of the
    segments, of the attachments and of the shmat(2) calls under way, each tree
    holds the entries it should in its order, identifiers are unique, a segment
    counts its attachments, and a removed one is there only while it has some.
    And no step of a call gets stuck, each page of a shmat(2) being read,
    allocated, stored and mapped in steps of its own, but the store of a page
    to a segment that was destroyed since it was read. *)
Theorem shm_invariant p s : reachable p s -> shm_ok s /\ forall o, valid s o -> ends (exec o) s (fun _ s' => reachable p s').
Proof.
  intros Hr. pose proof (reachable_ok p s Hr) as Hok. split; [done|]. intros o Hv. destruct (exec_ok s o Hok Hv) as ([] & s' & E & _).
  exists tt, s'. split; [done|]. econstructor; done.
Qed.

(** C26: shmget(2) answers as it should in every state, for a size that does not
    wrap when rounded up to pages and whose array of pages has a size of 32
    bits, while identifiers are left: EINVAL for no bytes or
    more than the segment of this key has, EEXIST where it must be new, ENOENT
    where it may not be created, ENOMEM without memory, ENOSPC with all 32
    slots taken; or else the identifier of the segment found, or a new one
    under which a segment of enough whole pages, none allocated yet, is
    entered, and nothing else. *)
Theorem shmget_correct p s c allocated now k sz shmflg : reachable p s -> fits W PTR sz -> next_id s < INT_MAX ->
  ends (sys_shmget W PTR c allocated now k sz shmflg) s (got c allocated now k sz shmflg s).
Proof. intros Hr Hf Hm. eapply ends_mono; [apply get_ok; [exact (reachable_ok p s Hr) | done | done] | intros ? ? [? ?]; done]. Qed.

(** C27: shmdt(2) detaches exactly the record of the caller at this address: the
    region is unmapped with the size it was attached with, the segment counts
    one less, and it is destroyed if it was removed and this was the last. *)
Theorem shmdt_correct p s c addr : reachable p s -> ends (sys_shmdt c addr) s (detached c addr s).
Proof. intros Hr. eapply ends_mono; [apply detach_ok; exact (reachable_ok p s Hr) | intros ? ? [? ?]; done]. Qed.

(** Shmctl(2) with IPC_RMID takes the name of a segment away at once and
    the segment with its last attachment, at once if it has none; IPC_STAT
    reports it; and no other namespace gets at it. *)
Theorem shmctl_correct p s c id cmd buf : reachable p s -> ends (ps_shmctl c id cmd buf) s (controlled c id cmd buf s).
Proof. intros Hr. eapply ends_mono; [apply control_ok; exact (reachable_ok p s Hr) | intros ? ? [? ?]; done]. Qed.

(** ** The trees *)

Lemma link_ordered (R : Z -> Z -> bool) n l r : (forall x y z, R x y = true -> R y z = true -> R x z = true) -> ordered R l -> in_order r = l ->
  in_order (link (R n) n r) = tree_insert (R n) n l.
Proof. intros Htr Ho <-. apply link_inserts. revert Ho. apply sorted_mono. intros x y _ _ H1 H2. eauto. Qed.

Lemma ids_search s id r : ids_ok s -> in_order r = ids s -> ids_descend s id r = shm_ids_find s id.
Proof.
  intros Hi E. unfold shm_ids_find. rewrite <- E. apply descend_finds; rewrite E; generalize (io_sorted _ Hi); apply sorted_mono; intros x y _ _; unfold id_before; cbn beta; lia.
Qed.
Lemma keys_search s ns k r : keys_ok s -> in_order r = keys s -> keys_descend s ns k r = shm_keys_find s ns k.
Proof.
  intros Hk E. unfold shm_keys_find. rewrite <- E. apply descend_finds; rewrite E; generalize (ko_sorted _ Hk); apply sorted_mono; intros x y _ _; unfold key_before; cbn beta; lia.
Qed.
Lemma address_search s owner addr r : addresses_ok s -> in_order r = addresses s -> address_descend s owner addr r = shm_address_find s owner addr.
Proof.
  intros Ha E. unfold address_descend, shm_address_find. rewrite descend_low_finds, E; [destruct (tree_find _ _); done|]. rewrite E.
  generalize (ao_sorted _ Ha). apply sorted_mono. intros x y _ _. unfold address_before. cbn beta. lia.
Qed.

(** C25: The trees of the code are the lists of the model, however the trees are
    balanced: going down a tree whose nodes in order are the list finds what the
    search of the model finds, for identifiers, keys and addresses; and a new
    entry linked where the way down ends comes to stand where the model inserts
    it. *)
Theorem shm_trees p s r : reachable p s ->
  (in_order r = ids s ->
   (forall id, ids_descend s id r = shm_ids_find s id) /\
   (forall j g, segments s !! j = None -> let s1 := put j g s in in_order (link (id_before s1 j) j r) = tree_insert (id_before s1 j) j (ids s1))) /\
  (in_order r = keys s ->
   (forall ns k, keys_descend s ns k r = shm_keys_find s ns k) /\
   (forall j g, segments s !! j = None -> let s1 := put j g s in in_order (link (key_before s1 j) j r) = tree_insert (key_before s1 j) j (keys s1))) /\
  (in_order r = addresses s ->
   (forall owner addr, address_descend s owner addr r = shm_address_find s owner addr) /\
   (forall i a, attaches s !! i = None -> let s1 := set_attaches (<[i := a]> (attaches s)) (addresses s) s in
      in_order (link (address_before s1 i) i r) = tree_insert (address_before s1 i) i (addresses s1))).
Proof.
  intros Hr. destruct (reachable_ok p s Hr) as [Hi Hk Ha _ _ _ _]. split; [|split]; intros E; (split; [intros; first [apply ids_search | apply keys_search | apply address_search]; done|]); intros j g Hj s1.
  - apply link_ordered; [apply id_before_trans | | done]. generalize (io_sorted _ Hi). apply ordered_ext. intros x y Hx Hy.
    apply (io_mem _ Hi), elem_of_dom in Hx, Hy. unfold id_before, s1. rewrite !segment_at_put, !decide_False by (intros ->; rewrite Hj in *; destruct Hx, Hy; done). done.
  - apply link_ordered; [apply key_before_trans | | done]. generalize (ko_sorted _ Hk). apply ordered_ext. intros x y Hx Hy.
    apply (ko_mem _ Hk) in Hx as (gx & Hx & _), Hy as (gy & Hy & _). unfold key_before, s1. rewrite !segment_at_put, !decide_False by congruence. done.
  - apply link_ordered; [apply address_before_trans | | done]. generalize (ao_sorted _ Ha). apply ordered_ext. intros x y Hx Hy.
    apply (ao_mem _ Ha), elem_of_dom in Hx as [? Hx], Hy as [? Hy]. unfold address_before, s1. rewrite !attach_at_put, !decide_False by congruence. done.
Qed.
End Runs.

(** ** Concrete runs *)

Module Demo.
(** Eleven pages from page 5; no cache to reclaim, every mapping succeeds. *)
Definition memory : phymm := phymm_init (Phymm 5 16 (fun _ => Page 0 0 0) (fun _ => []) 0 0 0) [MemoryMap 0x5000 0 0xB000 0 1].
Definition easy : machine := Machine (fun p => p) (fun _ => true) (fun _ => true).
Abbreviation W32 := (2 ^ 32).
Abbreviation execute := (exec W32 4).
Definition next s (o : op) : shm := default s (snd <$> execute o s).

Lemma next_reachable s o : reachable W32 4 memory s -> valid W32 4 s o -> reachable W32 4 memory (next s o).
Proof.
  intros Hr Hv. destruct (exec_ok W32 4 s o (reachable_ok _ _ _ _ Hr) Hv) as ([] & s' & E & _). unfold next. rewrite E. econstructor; done.
Qed.

Definition A : caller := Caller 10 0 0 0.
Definition B : caller := Caller 11 0 0 0.
Definition get_small : op := Get A true 100 5 4000 0x3b6.

(** A segment of one page, attached by its creator at 0x40000000, then removed. *)
Definition attach_ops (c : caller) (id : Z) : list op := [Begin c id 0 0; MmapStep (psid c) 0x40000000] ++ replicate 5 (PagesStep easy (psid c)) ++ [Finish c].
Definition used : shm := fold_left next (get_small :: attach_ops A 1) (start memory).
Definition gone : shm := next used (Control A 1 MOS_IPC_RMID false).

Lemma small_fits : fits W32 4 4000.
Proof. unfold fits, UINT32_MOD. vm_compute. split_and!; first [reflexivity | discriminate]. Qed.
Lemma used_reachable : reachable W32 4 memory used.
Proof.
  unfold used. cbn [fold_left attach_ops psid A app replicate]. repeat apply next_reachable; [constructor | split; [apply small_fits | reflexivity] | reflexivity | ..].
  - eexists. split; vm_compute; reflexivity.
  - eexists. split; [vm_compute; reflexivity | exact I].
  - eexists. split; [vm_compute; reflexivity | exact I].
  - eexists. split; [vm_compute; reflexivity|]. eexists. vm_compute. reflexivity.
  - eexists. split; [vm_compute; reflexivity | exact I].
  - eexists. split; [vm_compute; reflexivity | exact I].
  - eexists _, _. split; vm_compute; reflexivity.
Qed.
Lemma gone_reachable : reachable W32 4 memory gone.
Proof. apply next_reachable; [apply used_reachable | exact I]. Qed.

Lemma shm_invariant_witness : shm_ok used /\ map_size (attaches used) = 1%nat /\ ends (execute (Control A 1 MOS_IPC_RMID false)) used (fun _ s => reachable W32 4 memory s).
Proof.
  destruct (shm_invariant W32 4 memory used used_reachable) as [H1 H2]. split; [exact H1|]. split; [vm_compute; reflexivity|]. apply H2. exact I.
Defined.
Lemma shmget_correct_witness : next_id used = 2 /\ ends (sys_shmget W32 4 B true 200 5 4000 0) used (got B true 200 5 4000 0 used).
Proof.
  split; [vm_compute; reflexivity|]. apply (shmget_correct W32 4 memory used B true 200 5 4000 0 used_reachable small_fits). vm_compute. reflexivity.
Defined.
Lemma shmdt_correct_witness : (exists seg, segments gone !! 0 = Some seg /\ removed seg = true) /\ ends (sys_shmdt A 0x40000000) gone (detached A 0x40000000 gone).
Proof.
  split; [eexists; split; vm_compute; reflexivity|]. apply (shmdt_correct W32 4 memory gone A 0x40000000 gone_reachable).
Defined.
Lemma shmctl_correct_witness : ends (ps_shmctl B 1 MOS_IPC_STAT true) used (controlled B 1 MOS_IPC_STAT true used).
Proof. apply (shmctl_correct W32 4 memory used B 1 MOS_IPC_STAT true used_reachable). Defined.
Lemma shm_trees_witness : in_order (Node Leaf 0 Leaf) = ids used /\ ids_descend used 1 (Node Leaf 0 Leaf) = shm_ids_find used 1 /\ shm_ids_find used 1 = Some 0.
Proof.
  destruct (shm_trees W32 4 memory used (Node Leaf 0 Leaf) used_reachable) as [H _]. assert (E : in_order (Node Leaf 0 Leaf) = ids used) by (vm_compute; reflexivity).
  split; [exact E|]. split; [apply H; exact E | vm_compute; reflexivity].
Defined.

(** The segment a shmat(2) under way points to can be removed and its slot
    taken by another, of any size and any namespace.  The call maps the pages
    of that one, fails with EINVAL, and unmaps one page: the rest of a
    segment that it has never named stays mapped in the task. *)
Definition other : caller := Caller 11 7 500 500.
Definition raced : shm := fold_left next
  ([get_small; Begin A 1 0 0; Control A 1 MOS_IPC_RMID false; Get other true 200 0 12000 0x180; MmapStep 10 0x40000000] ++
   replicate 13 (PagesStep easy 10) ++ [Finish A]) (start memory).
Lemma stale_segment_mapped :
  attaches raced = ∅ /\ flights raced = ∅ /\ (exists seg, segments raced !! 0 = Some seg /\ shmid seg = 2 /\ namespace_id seg = 7 /\ mode seg = 0x180 /\ attach_count seg = 0 /\
    calls raced = [(10, Mmap 0 12288 3 0x21)] ++ imap (fun n phy => (10, MapPage (0x40000000 + Z.of_nat n * PAGE_SIZE) phy true)) (pages seg) ++ [(10, Munmap 0x40000000 PAGE_SIZE)]).
Proof. split; [vm_compute; reflexivity|]. split; [vm_compute; reflexivity|]. eexists. split; [vm_compute; reflexivity|]. split_and!; vm_compute; reflexivity. Qed.

(** If it is destroyed after its entry was read, the new page is stored
    through the pointer of the cleared segment, which is null. *)
Definition destroyed : shm := fold_left next
  [get_small; Begin A 1 0 0; MmapStep 10 0x40000000; PagesStep easy 10; PagesStep easy 10; Control B 1 MOS_IPC_RMID false] (start memory).
Lemma store_to_nothing : fl_phase <$> flights destroyed !! 10 = Some (Storing 0x40000000 0x40000000 0 5) /\ execute (PagesStep easy 10) destroyed = None.
Proof. split; vm_compute; reflexivity. Qed.
(** Two that attach at once both find that a page is missing: the one the
    first has mapped is no longer in the segment, and they do not share it. *)
Definition apart : shm := fold_left next
  ([get_small; Begin A 1 0 0; Begin B 1 0 0; MmapStep 10 0x40000000; MmapStep 11 0x40000000; PagesStep easy 10; PagesStep easy 11] ++
   replicate 4 (PagesStep easy 10) ++ replicate 4 (PagesStep easy 11) ++ [Finish A; Finish B]) (start memory).
Lemma pages_not_shared : map_size (attaches apart) = 2%nat /\ exists p q, p <> q /\ pages (segment_at apart 0) = [q] /\
  drop 2 (calls apart) = [(10, MapPage 0x40000000 p true); (11, MapPage 0x40000000 q true)].
Proof.
  split; [vm_compute; reflexivity|]. exists (5 * PAGE_SIZE), (7 * PAGE_SIZE). split; [done|]. split; vm_compute; reflexivity.
Qed.

(** On x86-64 kmalloc() is asked for the low 32 bits of the size of the array:
    a segment of 2^29 pages has an array without entries, and the first
    attachment reads past it. *)
Lemma short_array :
  let s := default (start memory) (snd <$> exec (2 ^ 64) 8 (Get A true 100 0 (2 ^ 41) 0x180) (start memory)) in
  page_count (segment_at s 0) = 2 ^ 29 /\ pages (segment_at s 0) = [] /\ ensure_read 0 0 s = None.
Proof. vm_compute. done. Qed.
(** A size that wraps makes a segment of one page. *)
Lemma wrapped_size :
  let s := next (start memory) (Get A true 100 0 (2 ^ 32 - 1) 0x180) in size (segment_at s 0) = PAGE_SIZE /\ page_count (segment_at s 0) = 1.
Proof. vm_compute. done. Qed.
End Demo.
