(* ===== verification/Syslog.v ===== *)
(** * The kernel log

    Model of src/fs/impl/syslog.c: a ring of records behind syslog(2),
    /proc/kmsg and /dev/kmsg, filled by printk() of [KPrint] and by writes to
    the device, and printed with its sprintf().  A section under log_lock is one
    step.  A file is known by a number; what is read goes to a list of bytes. *)

From S2P Require Import Prelude KString KPrint.
Open Scope mos_scope.

Definition LOG_RECORDS : Z := 64.
Definition LOG_TEXT : Z := 512.
Definition LOG_FORMAT : Z := LOG_TEXT * 4 + 96.
Definition KMSG_SEEK_SET : Z := 0.
Definition KMSG_SEEK_END : Z := 2.
Definition KMSG_SEEK_DATA : Z := 3.
Definition S_IFMT : Z := 0xf000.
Definition S_IFCHR : Z := 0x2000.
Definition FS_POLL_READ : Z := 1.
Definition FS_POLL_WRITE : Z := 2.
Definition FS_POLL_ERR : Z := 16.

Record log_record := LogRecord { sequence : Z; timestamp : Z; priority : Z; length_of_text : Z; text_array : list Z }.
Record log_cursor := Cursor { at_sequence : Z; offset : Z; rdev : Z }.
Record log_file := LogFile { i_mode : Z; i_private : log_cursor }.

(** [notified]: how often the waiters were notified. *)
Record log := Log {
  records : list log_record; first_sequence : Z; next_sequence : Z; clear_sequence : Z; stream_cursor : log_cursor;
  log_format_buffer : list Z; initialized : bool; notified : nat; files : gmap Z log_file
}.
Abbreviation L := (st log).

Definition set_ring (r : list log_record) (first next : Z) (s : log) : log :=
  Log r first next (clear_sequence s) (stream_cursor s) (log_format_buffer s) (initialized s) (S (notified s)) (files s).
Definition set_clear (n : Z) (s : log) : log :=
  Log (records s) (first_sequence s) (next_sequence s) n (stream_cursor s) (log_format_buffer s) (initialized s) (notified s) (files s).
Definition set_stream (c : log_cursor) (s : log) : log :=
  Log (records s) (first_sequence s) (next_sequence s) (clear_sequence s) c (log_format_buffer s) (initialized s) (notified s) (files s).
Definition set_buffer (b : list Z) (s : log) : log :=
  Log (records s) (first_sequence s) (next_sequence s) (clear_sequence s) (stream_cursor s) b (initialized s) (notified s) (files s).
Definition set_files (m : gmap Z log_file) (s : log) : log :=
  Log (records s) (first_sequence s) (next_sequence s) (clear_sequence s) (stream_cursor s) (log_format_buffer s) (initialized s) (notified s) m.

Definition look {A} (f : log -> A) : L A := fun s => Some (f s, s).
Definition change (f : log -> log) : L unit := fun s => Some (tt, f s).
Definition the {A} (x : option A) : L A := fun s => y ← x; Some (y, s).

Definition S_ISCHR (m : Z) : bool := Z.land m S_IFMT =? S_IFCHR.

(** ** Producers *)

(** [now]: the clock in microseconds. *)
Definition syslog_emit (now prio : Z) (text : list Z) (length : Z) : L unit := fun s =>
  if negb (initialized s) || (length =? 0) then Some (tt, s) else
  let length := if LOG_TEXT <=? length then LOG_TEXT - 1 else length in
  c ← text !! Z.to_nat (length - 1);
  let length := if c =? 10 then length - 1 else length in
  let i := Z.to_nat (next_sequence s mod LOG_RECORDS) in
  old ← records s !! i;
  let r := LogRecord (next_sequence s) now prio length (splice (text_array old) 0 (take (Z.to_nat length) text)) in
  let next := u64 (next_sequence s + 1) in
  Some (tt, set_ring (<[i := r]> (records s)) (if LOG_RECORDS <? u64 (next - first_sequence s) then u64 (next - LOG_RECORDS) else first_sequence s) next s).

(** ** Printing a record *)

Definition hex : list Z := [48; 49; 50; 51; 52; 53; 54; 55; 56; 57; 97; 98; 99; 100; 101; 102].
(** "%u,%llu,%llu,-;" and "<%u>". *)
Definition device_format : list Z := [37; 117; 44; 37; 108; 108; 117; 44; 37; 108; 108; 117; 44; 45; 59].
Definition stream_format : list Z := [60; 37; 117; 62].

(** The loop over the text: the array and the length printed so far. *)
Fixpoint escape_loop (t : list Z) (b : list Z) (n : nat) : option (list Z * nat) :=
  match t with
  | [] => Some (b, n)
  | c :: t =>
      if (c <? 32) || (127 <=? c) || (c =? 92) then
        hi ← hex !! Z.to_nat (Z.shiftr c 4); lo ← hex !! Z.to_nat (Z.land c 15);
        b ← store b n 92; b ← store b (n + 1) 120; b ← store b (n + 2) hi; b ← store b (n + 3) lo;
        escape_loop t b (n + 4)
      else b ← store b n c; escape_loop t b (n + 1)
  end.

Section Operations.
(** The architecture, and what the array of the formatter holds. *)
Context (x64 : bool) (a : list Z).

Definition log_format (r : log_record) (device : bool) : L Z := fun s =>
  let text := take (Z.to_nat (length_of_text r)) (text_array r) in
  '(b, n) ← (if device then
    '(d, n) ← vsprintf x64 a (Some (log_format_buffer s)) device_format [AInt (priority r); AInt (sequence r); AInt (timestamp r)];
    b ← d; escape_loop text b (Z.to_nat n)
  else
    '(d, n) ← vsprintf x64 a (Some (log_format_buffer s)) stream_format [AInt (priority r)];
    b ← d; if decide (Z.to_nat n + length text <= length b)%nat then Some (splice b (Z.to_nat n) text, (Z.to_nat n + length text)%nat) else None);
  b ← store b n 10;
  Some (Z.of_nat (S n), set_buffer b s).

(** ** Reading *)

(** The cursor of a read: that of the stream or that of a file. *)
Inductive place := Stream | Own (fp : Z).
Definition get_cursor (p : place) : L log_cursor := fun s =>
  match p with Stream => Some (stream_cursor s, s) | Own fp => f ← files s !! fp; Some (i_private f, s) end.
Definition set_cursor (p : place) (c : log_cursor) : L unit := fun s =>
  match p with
  | Stream => Some (tt, set_stream c s)
  | Own fp => f ← files s !! fp; Some (tt, set_files (<[fp := LogFile (i_mode f) c]> (files s)) s)
  end.

(** What is read so far, or EINVAL; [fuel]: the records that are left. *)
Fixpoint copy_loop (fuel : nat) (p : place) (size : Z) (device : bool) (data : list Z) : L (option (list Z)) :=
  match fuel with
  | O => mret (Some data)
  | S fuel =>
      c ← get_cursor p;
      next ← look next_sequence;
      if negb ((at_sequence c <? next) && (Z.of_nat (length data) <? size)) then mret (Some data) else
      r ← (fun s => r ← records s !! Z.to_nat (at_sequence c mod LOG_RECORDS); Some (r, s));
      full ← log_format r device;
      if device && (size <? full) then mret None else
      let rest := u32 (full - offset c) in
      let n := if size - Z.of_nat (length data) <? rest then size - Z.of_nat (length data) else rest in
      b ← look log_format_buffer;
      new ← the (if decide (Z.to_nat (offset c) + Z.to_nat n <= length b)%nat then Some (take (Z.to_nat n) (drop (Z.to_nat (offset c)) b)) else None);
      let off := u32 (offset c + n) in
      set_cursor p (if off =? full then Cursor (u64 (at_sequence c + 1)) 0 (rdev c) else Cursor (at_sequence c) off (rdev c));;
      if device then mret (Some (data ++ new)) else copy_loop fuel p size device (data ++ new)
  end.

(** A section under the lock: what the read returns, or that it has to wait. *)
Inductive answer := Returns (r : Z) (data : list Z) | Waits.
Definition read_section (p : place) (size : Z) (device : bool) : L answer :=
  c ← get_cursor p;
  first ← look first_sequence;
  (if at_sequence c <? first then set_cursor p (Cursor first 0 (rdev c)) else mret tt);;
  if (at_sequence c <? first) && device then mret (Returns (- EPIPE) []) else
  c ← get_cursor p;
  next ← look next_sequence;
  data ← copy_loop (Z.to_nat (next - at_sequence c)) p size device [];
  mret match data with
       | None => Returns (- EINVAL) []
       | Some [] => Waits
       | Some data => Returns (Z.of_nat (length data)) data
       end.

Definition log_wait_check (p : place) (interrupted : bool) : L Z :=
  c ← get_cursor p;
  next ← look next_sequence;
  mret (if at_sequence c <? next then 1 else if interrupted then - EINTR else 0).

(** [waits]: for each wait what poll_wait_loop() returned and what the other
    tasks did to the log by then; the call is still waiting when they run out. *)
Fixpoint read_loop (waits : list (Z * (log -> log))) (p : place) (size : Z) (device nonblock : bool) : L answer :=
  r ← read_section p size device;
  match r with
  | Returns _ _ => mret r
  | Waits =>
      if nonblock then mret (Returns (- EAGAIN) []) else
      match waits with
      | [] => mret Waits
      | (result, others) :: waits =>
          change others;;
          if result <? 0 then mret (Returns result []) else read_loop waits p size device nonblock
      end
  end.
(** [buf]: there is a place for what is read. *)
Definition log_read (waits : list (Z * (log -> log))) (p : place) (buf : bool) (size : Z) (device nonblock : bool) : L answer :=
  if size =? 0 then mret (Returns 0 []) else
  if negb buf then mret (Returns (- EFAULT) []) else
  read_loop waits p size device nonblock.

(** ** Files *)

Definition file_of (fp : Z) : L log_file := fun s => f ← files s !! fp; Some (f, s).

Definition log_file_read (waits : list (Z * (log -> log))) (fp : Z) (buf : bool) (size : Z) (nonblock : bool) : L answer :=
  f ← file_of fp;
  let device := S_ISCHR (i_mode f) in
  log_read waits (if device then Own fp else Stream) buf size device nonblock.

(** The loop over the digits behind a less-than sign: the index and the value
    it ends with. *)
Fixpoint prefix_loop (n : nat) (text : list Z) (size i value : Z) : option (Z * Z) :=
  match n with
  | O => Some (i, value)
  | S n =>
      if (i <? size) && (i <=? 3) then
        c ← text !! Z.to_nat i;
        if (48 <=? schar c) && (schar c <=? 57) then prefix_loop n text size (i + 1) (u32 (value * 10 + schar c - 48)) else Some (i, value)
      else Some (i, value)
  end.
(** The priority and the length of the prefix. *)
Definition parse_prefix (text : list Z) (size : Z) : option (Z * Z) :=
  c ← text !! 0%nat;
  if negb (c =? 60) then Some (14, 0) else
  '(i, value) ← prefix_loop 3 text size 1 0;
  if negb ((1 <? i) && (i <? size)) then Some (14, 0) else
  c ← text !! Z.to_nat i;
  if negb ((c =? 62) && (value <=? 191)) then Some (14, 0) else
  Some (if negb (nz (Z.ldiff value 7)) then Z.lor value 8 else value, i + 1).
Definition log_file_write (now fp : Z) (text : option (list Z)) (size : Z) : L Z :=
  f ← file_of fp;
  if negb (S_ISCHR (i_mode f)) then mret (- EBADF) else
  if LOG_TEXT <=? size then mret (- EMSGSIZE) else
  if size =? 0 then mret 0 else
  match text with
  | None => mret (- EFAULT)
  | Some text =>
      pp ← the (parse_prefix text size);
      syslog_emit now (fst pp) (drop (Z.to_nat (snd pp)) text) (size - snd pp);;
      mret size
  end.

(** The second result: the caller is registered with the waiters. *)
Definition log_file_poll (fp events : Z) : L (Z * bool) :=
  f ← file_of fp;
  let device := S_ISCHR (i_mode f) in
  c ← get_cursor (if device then Own fp else Stream);
  s ← look id;
  let ready := if nz (Z.land events FS_POLL_READ) && (at_sequence c <? next_sequence s) then FS_POLL_READ else 0 in
  let ready := if device && (at_sequence c <? first_sequence s) then Z.lor ready FS_POLL_ERR else ready in
  let ready := if device && nz (Z.land events FS_POLL_WRITE) then Z.lor ready FS_POLL_WRITE else ready in
  mret (ready, negb (nz ready)).

Definition log_file_seek (fp off whence : Z) : L Z :=
  f ← file_of fp;
  if negb (S_ISCHR (i_mode f)) then mret (- ESPIPE) else
  if nz off || (negb (whence =? KMSG_SEEK_SET) && negb (whence =? KMSG_SEEK_END) && negb (whence =? KMSG_SEEK_DATA)) then mret (- EINVAL) else
  s ← look id;
  let n := if whence =? KMSG_SEEK_END then next_sequence s else first_sequence s in
  let n := if (whence =? KMSG_SEEK_DATA) && (n <? clear_sequence s) then clear_sequence s else n in
  set_cursor (Own fp) (Cursor n 0 (rdev (i_private f)));;
  mret 0.

Definition log_file_release (fp : Z) : L Z := change (fun s => set_files (delete fp (files s)) s);; mret 0.
(** [fp]: the file allocated, or none. *)
Definition syslog_open (fp : option Z) (mode dev : Z) : L (option Z) :=
  match fp with
  | None => mret None
  | Some fp => change (fun s => set_files (<[fp := LogFile mode (Cursor (first_sequence s) 0 dev)]> (files s)) s);; mret (Some fp)
  end.

(** ** syslog(2) *)

(** The sum of the lengths of [n] records from [seq] on. *)
Fixpoint total_loop (n : nat) (seq total : Z) : L Z :=
  match n with
  | O => mret total
  | S n =>
      r ← (fun s => r ← records s !! Z.to_nat (seq mod LOG_RECORDS); Some (r, s));
      len ← log_format r false;
      total_loop n (seq + 1) (u32 (total + len))
  end.
(** What is copied of [n] records from [seq] on but the first [skip] bytes. *)
Fixpoint snapshot_loop (n : nat) (seq skip : Z) (data : list Z) : L (list Z) :=
  match n with
  | O => mret data
  | S n =>
      r ← (fun s => r ← records s !! Z.to_nat (seq mod LOG_RECORDS); Some (r, s));
      len ← log_format r false;
      if len <=? skip then snapshot_loop n (seq + 1) (skip - len) data else
      b ← look log_format_buffer;
      new ← the (if decide (Z.to_nat len <= length b)%nat then Some (take (Z.to_nat (len - skip)) (drop (Z.to_nat skip) b)) else None);
      snapshot_loop n (seq + 1) 0 (data ++ new)
  end.
Definition sys_syslog (waits : list (Z * (log -> log))) (type : Z) (buf : bool) (len : Z) : L answer :=
  if (type =? 0) || (type =? 1) || (type =? 6) || (type =? 7) || (type =? 8) then mret (Returns 0 []) else
  if type =? 10 then mret (Returns (LOG_RECORDS * LOG_TEXT) []) else
  if type =? 2 then if len <? 0 then mret (Returns (- EINVAL) []) else log_read waits Stream buf len false false else
  if negb (type =? 3) && negb (type =? 4) && negb (type =? 5) && negb (type =? 9) then mret (Returns (- EINVAL) []) else
  if ((type =? 3) || (type =? 4)) && ((len <? 0) || (negb buf && nz len)) then mret (Returns (- EINVAL) []) else
  s ← look id;
  let begin := if type =? 9 then at_sequence (stream_cursor s) else clear_sequence s in
  let begin := if begin <? first_sequence s then first_sequence s else begin in
  let n := Z.to_nat (next_sequence s - begin) in
  total ← total_loop n begin 0;
  if type =? 9 then
    mret (Returns (if first_sequence s <=? at_sequence (stream_cursor s) then u32 (total - offset (stream_cursor s)) else total) [])
  else
  data ← (if (type =? 3) || (type =? 4) then snapshot_loop n begin (if len <? total then total - len else 0) [] else mret []);
  (if (type =? 4) || (type =? 5) then change (fun s => set_clear (next_sequence s) s) else mret tt);;
  mret (Returns (Z.of_nat (length data)) data).
End Operations.
