(* ===== verification/SyslogProof.v ===== *)
(** * The kernel log: records and their text

    What a record prints as, on the stream and on the device, and that
    log_format() prints it within its buffer; the invariant that ties the ring
    to the history of all records, and what adding one does. *)

From S2P Require Import Prelude KString KStringProof KPrint KPrintProof Syslog.

(** ** Numbers *)

Fixpoint digits (fuel : nat) (n : Z) : list Z :=
  match fuel with O => [] | S fuel => if n <=? 0 then [] else digits fuel (n / 10) ++ [n mod 10] end.
Definition decimal (n : Z) : list Z := hexdigit <$> if n =? 0 then [0] else digits 20 n.

Lemma digits_numeral fuel : forall n, 0 <= n < 10 ^ Z.of_nat fuel -> numeral 10 n (digits fuel n) /\ (length (digits fuel n) <= fuel)%nat.
Proof.
  induction fuel as [|fuel IH]; intros n Hn; cbn [digits].
  - change (10 ^ Z.of_nat 0) with 1 in Hn. replace n with 0 by lia. split; [|done]. split; [done|]. split; [constructor | done].
  - destruct (Z.leb_spec n 0); [replace n with 0 by lia; split; [|cbn; lia]; split; [done|]; split; [constructor | done]|].
    rewrite Nat2Z.inj_succ, Z.pow_succ_r in Hn by lia. destruct (IH (n / 10)) as [(Hv & Hd & Hh) Hl]; [split; [apply Z.div_pos; lia | apply Z.div_lt_upper_bound; lia]|].
    pose proof (Z.mod_pos_bound n 10 ltac:(lia)). split; [|rewrite length_app; cbn; lia]. split; [rewrite value_snoc, Hv; pose proof (Z.div_mod n 10); lia|].
    split; [apply Forall_app; split; [done | repeat constructor; lia]|]. destruct (digits fuel (n / 10)); cbn; [|done]. pose proof (Z.div_mod n 10). lia.
Qed.
Lemma decimal_text n : 0 <= n < UINT64_MOD -> text_of 10 n (decimal n) /\ (1 <= length (decimal n) <= 20)%nat.
Proof.
  intros Hn. destruct (digits_numeral 20 n) as [Hd Hl]; [split; [lia|]; transitivity UINT64_MOD; [lia | reflexivity]|]. split.
  - exists (digits 20 n). rewrite Z.abs_eq, (proj2 (Z.ltb_ge n 0)) by lia. done.
  - unfold decimal. rewrite length_fmap. destruct (Z.eqb_spec n 0); [cbn; lia|]. destruct (digits 20 n) eqn:E; [|cbn in *; lia]. destruct Hd as (_ & _ & Hd). done.
Qed.

(** The conversions u without flags. *)
Lemma unsigned_field_plain ds : unsigned_field false false 0 ds = ds.
Proof. unfold unsigned_field. rewrite signed_field_plain. done. Qed.
Lemma renders_u x64 v p args t : 0 <= v < UINT32_MOD -> renders x64 p args t -> renders x64 (37 :: 117 :: p) (AInt v :: args) (decimal v ++ t).
Proof.
  intros Hv Hr. rewrite <- (unsigned_field_plain (decimal v)). apply (R_conversion x64 [] [] [] false false 117 p (AInt v :: args) args); try constructor; try done.
  - intros _. cbn. rewrite u32_id by done. unfold UINT32_MOD in Hv. lia.
  - cbn. rewrite u32_id by done. apply decimal_text. unfold UINT32_MOD, UINT64_MOD in *. lia.
Qed.
Lemma renders_llu x64 v p args t : 0 <= v < UINT64_MOD -> renders x64 p args t -> renders x64 (37 :: 108 :: 108 :: 117 :: p) (AInt v :: args) (decimal v ++ t).
Proof.
  intros Hv Hr. rewrite <- (unsigned_field_plain (decimal v)). apply (R_conversion x64 [] [] [108; 108] false true 117 p (AInt v :: args) args); try constructor; try done.
  cbn. unfold u64. rewrite Z.mod_small by done. apply decimal_text. done.
Qed.

(** ** Lines *)

(** A record as it was handed to the log. *)
Record entry := Entry { e_time : Z; e_priority : Z; e_text : list Z }.
Record entry_ok (e : entry) : Prop := {
  eo_time : 0 <= e_time e < UINT64_MOD; eo_priority : 0 <= e_priority e < UINT32_MOD;
  eo_length : Z.of_nat (length (e_text e)) < LOG_TEXT; eo_bytes : Forall (fun c => 0 <= c < 256) (e_text e)
}.

Definition plain (c : Z) : bool := (32 <=? c) && (c <? 127) && negb (c =? 92).
Definition escape (t : list Z) : list Z := t ≫= fun c => if plain c then [c] else [92; 120; hexdigit (c / 16); hexdigit (c mod 16)].

Definition device_head (seq : Z) (e : entry) : list Z :=
  decimal (e_priority e) ++ [44] ++ decimal seq ++ [44] ++ decimal (e_time e) ++ [44; 45; 59].
Definition stream_head (e : entry) : list Z := [60] ++ decimal (e_priority e) ++ [62].
(** What record [seq] prints as. *)
Definition line (device : bool) (seq : Z) (e : entry) : list Z :=
  (if device then device_head seq e ++ escape (e_text e) else stream_head e ++ e_text e) ++ [10].

Lemma device_head_ok x64 seq e : 0 <= seq < UINT64_MOD -> entry_ok e ->
  renders x64 device_format [AInt (e_priority e); AInt seq; AInt (e_time e)] (device_head seq e) /\ printable (device_head seq e) /\ (length (device_head seq e) <= 65)%nat.
Proof.
  intros Hs [Ht Hp _ _]. assert (Hp' : 0 <= e_priority e < UINT64_MOD) by (unfold UINT32_MOD, UINT64_MOD in *; lia).
  destruct (decimal_text _ Hs) as [T1 L1], (decimal_text _ Ht) as [T2 L2], (decimal_text _ Hp') as [T3 L3]. split_and!.
  - unfold device_head, device_format. apply renders_u; [done|]. apply R_char; [done|]. apply renders_llu; [done|]. apply R_char; [done|]. apply renders_llu; [done|].
    repeat (apply R_char; [done|]). constructor.
  - unfold device_head, printable. rewrite !Forall_app. pose proof (text_printable 10 _ _ ltac:(lia) T1). pose proof (text_printable 10 _ _ ltac:(lia) T2).
    pose proof (text_printable 10 _ _ ltac:(lia) T3). split_and!; try done; repeat constructor; done.
  - unfold device_head. rewrite !length_app. cbn [length]. lia.
Qed.
Lemma stream_head_ok x64 e : entry_ok e -> renders x64 stream_format [AInt (e_priority e)] (stream_head e) /\ printable (stream_head e) /\ (length (stream_head e) <= 22)%nat.
Proof.
  intros [Ht Hp _ _]. assert (Hp' : 0 <= e_priority e < UINT64_MOD) by (unfold UINT32_MOD, UINT64_MOD in *; lia). destruct (decimal_text _ Hp') as [T3 L3]. split_and!.
  - unfold stream_head, stream_format. apply R_char; [done|]. apply renders_u; [done|]. repeat (apply R_char; [done|]). constructor.
  - unfold stream_head, printable. rewrite !Forall_app. pose proof (text_printable 10 _ _ ltac:(lia) T3). split_and!; try done; repeat constructor; done.
  - unfold stream_head. rewrite !length_app. cbn [length]. lia.
Qed.

(** ** log_format() *)

(** [b] begins with [t]. *)
Definition begins (b t : list Z) : Prop := take (length t) b = t.

Lemma begins_app b t u : (length t + length u <= length b)%nat -> begins b t -> begins (splice b (length t) u) (t ++ u).
Proof. intros Hl Hb. unfold begins, splice. rewrite length_app, app_assoc, Hb, take_app_le by (rewrite length_app; lia). rewrite <- length_app. apply take_ge. done. Qed.
Lemma begins_store b t c : (length t < length b)%nat -> begins b t -> exists b', store b (length t) c = Some b' /\ length b' = length b /\ begins b' (t ++ [c]).
Proof.
  intros Hl Hb. exists (<[length t := c]> b). rewrite store_at by done. split; [done|]. split; [apply length_insert|].
  unfold begins. rewrite length_app. cbn [length]. rewrite Nat.add_1_r, take_insert_end by done. rewrite Hb. done.
Qed.

Lemma hex_digit d : 0 <= d < 16 -> hex !! Z.to_nat d = Some (hexdigit d).
Proof. intros Hd. assert (H : In d (seqZ 0 16)) by (apply list_elem_of_In, elem_of_seqZ; lia). vm_compute in H. repeat (destruct H as [<- | H]; [reflexivity|]). done. Qed.
Lemma escape_length t : (length (escape t) <= 4 * length t)%nat.
Proof. induction t as [|c t IH]; cbn; [lia|]. rewrite length_app. destruct (plain c); cbn in *; unfold escape in IH; lia. Qed.

Lemma escape_loop_ok t : Forall (fun c => 0 <= c < 256) t -> forall b u, begins b u -> (length u + length (escape t) <= length b)%nat ->
  exists b', escape_loop t b (length u) = Some (b', length (u ++ escape t)) /\ length b' = length b /\ begins b' (u ++ escape t).
Proof.
  induction 1 as [|c t Hc Ht IH]; intros b u Hb Hl; cbn [escape_loop].
  { exists b. unfold escape. cbn. rewrite app_nil_r. done. }
  change (escape (c :: t)) with ((if plain c then [c] else [92; 120; hexdigit (c / 16); hexdigit (c mod 16)]) ++ escape t) in *. rewrite length_app in Hl.
  replace ((c <? 32) || (127 <=? c) || (c =? 92)) with (negb (plain c)) by (unfold plain; lia). destruct (plain c); cbn [negb length] in *.
  - destruct (begins_store b u c ltac:(lia) Hb) as (b1 & E1 & L1 & B1). rewrite E1. cbn [mbind option_bind].
    replace (length u + 1)%nat with (length (u ++ [c])) by (rewrite length_app; done). destruct (IH b1 (u ++ [c]) B1) as (b' & E & L' & B'); [rewrite length_app; cbn; lia|].
    exists b'. rewrite <- app_assoc in *. rewrite E. split; [done|]. split; [congruence | done].
  - change 15 with (Z.ones 4). rewrite Z.shiftr_div_pow2, Z.land_ones by lia. change (2 ^ 4) with 16.
    rewrite !hex_digit by (first [apply Z.mod_pos_bound; lia | split; [apply Z.div_pos; lia | apply Z.div_lt_upper_bound; lia]]). cbn [mbind option_bind].
    destruct (begins_store b u 92 ltac:(lia) Hb) as (b1 & E1 & L1 & B1). rewrite E1. cbn [mbind option_bind].
    destruct (begins_store b1 (u ++ [92]) 120 ltac:(rewrite length_app; cbn; lia) B1) as (b2 & E2 & L2 & B2). rewrite length_app in E2. cbn [length] in E2. rewrite E2. cbn [mbind option_bind].
    destruct (begins_store b2 ((u ++ [92]) ++ [120]) (hexdigit (c / 16)) ltac:(rewrite !length_app; cbn; lia) B2) as (b3 & E3 & L3 & B3). rewrite !length_app, <- !Nat.add_assoc in E3. cbn [length Nat.add] in E3. rewrite E3. cbn [mbind option_bind].
    destruct (begins_store b3 (((u ++ [92]) ++ [120]) ++ [hexdigit (c / 16)]) (hexdigit (c mod 16)) ltac:(rewrite !length_app; cbn; lia) B3) as (b4 & E4 & L4 & B4). rewrite !length_app, <- !Nat.add_assoc in E4. cbn [length Nat.add] in E4. rewrite E4. cbn [mbind option_bind].
    rewrite <- !app_assoc in B4. cbn [app] in B4. replace (length u + 4)%nat with (length (u ++ [92; 120; hexdigit (c / 16); hexdigit (c mod 16)])) by (rewrite length_app; done).
    destruct (IH b4 _ B4) as (b' & E & L' & B'); [rewrite length_app; cbn; lia|]. exists b'. rewrite <- app_assoc in *. rewrite E. split; [done|]. split; [congruence | done].
Qed.

(** The record of entry [seq]. *)
Record matches (r : log_record) (seq : Z) (e : entry) : Prop := {
  mt_sequence : sequence r = seq; mt_time : timestamp r = e_time e; mt_priority : priority r = e_priority e;
  mt_length : length_of_text r = Z.of_nat (length (e_text e)); mt_text : take (length (e_text e)) (text_array r) = e_text e
}.

Lemma line_length device seq e : 0 <= seq < UINT64_MOD -> entry_ok e -> (1 <= length (line device seq e))%nat /\ Z.of_nat (length (line device seq e)) < LOG_FORMAT.
Proof.
  intros Hs He. destruct (device_head_ok false seq e Hs He) as (_ & _ & H1), (stream_head_ok false e He) as (_ & _ & H2). pose proof (eo_length _ He) as Hl.
  pose proof (escape_length (e_text e)). unfold line, LOG_FORMAT, LOG_TEXT in *. rewrite length_app. cbn [length]. destruct device; rewrite length_app; lia.
Qed.

Lemma log_format_ok x64 a r seq e device s : length a = VBUF_SZ -> Z.of_nat (length (log_format_buffer s)) = LOG_FORMAT ->
  0 <= seq < UINT64_MOD -> entry_ok e -> matches r seq e ->
  exists b, log_format x64 a r device s = Some (Z.of_nat (length (line device seq e)), set_buffer b s) /\ Z.of_nat (length b) = LOG_FORMAT /\ begins b (line device seq e).
Proof.
  intros Ha Hb Hs He [E1 E2 E3 E4 E5]. destruct (device_head_ok x64 seq e Hs He) as (R1 & P1 & L1), (stream_head_ok x64 e He) as (R2 & P2 & L2).
  pose proof (line_length device seq e Hs He) as [_ Hl]. pose proof (eo_length _ He) as Htl. unfold log_format. rewrite E1, E2, E3, E4, Nat2Z.id, E5. unfold LOG_FORMAT, LOG_TEXT in *.
  assert (Hmid : exists b n, (if device then
      '(d, n) ← vsprintf x64 a (Some (log_format_buffer s)) device_format [AInt (e_priority e); AInt seq; AInt (e_time e)]; b ← d; escape_loop (e_text e) b (Z.to_nat n)
    else '(d, n) ← vsprintf x64 a (Some (log_format_buffer s)) stream_format [AInt (e_priority e)];
      b ← d; if decide (Z.to_nat n + length (e_text e) <= length b)%nat then Some (splice b (Z.to_nat n) (e_text e), (Z.to_nat n + length (e_text e))%nat) else None) = Some (b, n) /\
    length b = length (log_format_buffer s) /\ n = length (if device then device_head seq e ++ escape (e_text e) else stream_head e ++ e_text e) /\
    begins b (if device then device_head seq e ++ escape (e_text e) else stream_head e ++ e_text e)).
  { unfold line in Hl. rewrite length_app in Hl. cbn [length] in Hl. destruct device.
    - rewrite length_app in Hl. destruct (vsprintf_correct x64 a (log_format_buffer s) _ _ (device_head seq e) Ha R1 P1 ltac:(lia) ltac:(lia)) as [-> _]. cbn [mbind option_bind]. rewrite Nat2Z.id.
      set (b0 := _ ++ 0 :: _). assert (L0 : length b0 = length (log_format_buffer s)) by (unfold b0; rewrite length_app; cbn [length]; rewrite length_drop; lia).
      destruct (escape_loop_ok (e_text e) (eo_bytes _ He) b0 (device_head seq e)) as (b & E & L & B); [apply take_app_length | lia|]. exists b, (length (device_head seq e ++ escape (e_text e))). rewrite E. split_and!; congruence.
    - rewrite length_app in Hl. destruct (vsprintf_correct x64 a (log_format_buffer s) _ _ (stream_head e) Ha R2 P2 ltac:(lia) ltac:(lia)) as [-> _]. cbn [mbind option_bind]. rewrite Nat2Z.id.
      set (b0 := _ ++ 0 :: _). assert (L0 : length b0 = length (log_format_buffer s)) by (unfold b0; rewrite length_app; cbn [length]; rewrite length_drop; lia).
      rewrite decide_True by lia. eexists _, _. split; [reflexivity|]. rewrite splice_length, length_app by lia. split; [done|]. split; [done|]. apply begins_app; [lia | apply take_app_length]. }
  destruct Hmid as (b & n & Em & Lb & -> & Bb). rewrite Em. cbn [mbind option_bind]. unfold line in *. set (u := if device then _ else _) in *. rewrite length_app in Hl. cbn [length] in Hl.
  destruct (begins_store b u 10 ltac:(lia) Bb) as (b' & Es & L' & B'). rewrite Es. cbn [mbind option_bind]. exists b'. rewrite length_app. cbn [length]. rewrite Nat.add_1_r, L', Lb. done.
Qed.

(** ** The ring and the history

    [h] lists all records ever taken, in order. *)

Definition cursor_in (h : list entry) (c : log_cursor) : Prop := 0 <= at_sequence c <= Z.of_nat (length h).
(** A cursor of the stream is inside of the line it points to. *)
Definition stream_ok (s : log) (h : list entry) : Prop :=
  let c := stream_cursor s in
  cursor_in h c /\ 0 <= offset c /\
  (first_sequence s <= at_sequence c ->
   match h !! Z.to_nat (at_sequence c) with Some e => offset c < Z.of_nat (length (line false (at_sequence c) e)) | None => offset c = 0 end).

Record log_ok (s : log) (h : list entry) : Prop := {
  lo_init : initialized s = true;
  lo_next : next_sequence s = Z.of_nat (length h);
  lo_small : Z.of_nat (length h) < UINT64_MOD;
  lo_first : first_sequence s = Z.max 0 (Z.of_nat (length h) - LOG_RECORDS);
  lo_clear : 0 <= clear_sequence s <= Z.of_nat (length h);
  lo_records : length (records s) = Z.to_nat LOG_RECORDS;
  lo_texts : Forall (fun r => Z.of_nat (length (text_array r)) = LOG_TEXT) (records s);
  lo_buffer : Z.of_nat (length (log_format_buffer s)) = LOG_FORMAT;
  lo_entries : Forall entry_ok h;
  lo_ring q e : first_sequence s <= q -> h !! Z.to_nat q = Some e -> exists r, records s !! Z.to_nat (q mod LOG_RECORDS) = Some r /\ matches r q e;
  lo_stream : stream_ok s h;
  lo_files fp f : files s !! fp = Some f -> cursor_in h (i_private f) /\ offset (i_private f) = 0
}.

(** The entry that syslog_emit() makes of its arguments. *)
Definition taken (text : list Z) (length : Z) : list Z :=
  let t := take (Z.to_nat (Z.min length (LOG_TEXT - 1))) text in
  if decide (last t = Some 10) then removelast t else t.

Lemma taken_spec text len c : 0 < len <= Z.of_nat (length text) -> text !! Z.to_nat (Z.min len (LOG_TEXT - 1) - 1) = Some c ->
  taken text len = take (Z.to_nat (if c =? 10 then Z.min len (LOG_TEXT - 1) - 1 else Z.min len (LOG_TEXT - 1))) text.
Proof.
  intros Hlen Ec. unfold taken. set (n := Z.min len (LOG_TEXT - 1)) in *. assert (Hn : 0 < n <= Z.of_nat (length text)) by (unfold n, LOG_TEXT; lia).
  assert (El : last (take (Z.to_nat n) text) = Some c).
  { rewrite last_lookup, length_take, lookup_take_lt by lia. rewrite <- Ec. f_equal. lia. }
  rewrite El. destruct (Z.eqb_spec c 10) as [-> | Hne]; [rewrite decide_True by done | rewrite decide_False by congruence; done].
  rewrite removelast_firstn_len, length_take, take_take. f_equal. lia.
Qed.
Lemma ring_apart q n : 0 < n - q < LOG_RECORDS -> q mod LOG_RECORDS <> n mod LOG_RECORDS.
Proof.
  unfold LOG_RECORDS. intros H E. assert (Hz : (n - q) mod 64 = 0) by (rewrite Zminus_mod, E, Z.sub_diag; done). rewrite Z.mod_small in Hz by lia. lia.
Qed.

Lemma emit_ok s h now prio text len : log_ok s h -> Z.of_nat (S (length h)) < UINT64_MOD ->
  0 < len <= Z.of_nat (length text) -> 0 <= now < UINT64_MOD -> 0 <= prio < UINT32_MOD -> Forall (fun c => 0 <= c < 256) text ->
  ends (syslog_emit now prio text len) s (fun _ s' => log_ok s' (h ++ [Entry now prio (taken text len)]) /\
    notified s' = S (notified s) /\ clear_sequence s' = clear_sequence s /\ stream_cursor s' = stream_cursor s /\ files s' = files s).
Proof.
  intros Hok Hmax Hlen Hnow Hprio Hbytes. destruct Hok as [O1 O2 O3 O4 O5 O6 O7 O8 O9 O10 O11 O12]. unfold ends, syslog_emit. rewrite O1, (proj2 (Z.eqb_neq len 0)) by lia. cbn [negb orb].
  replace (if LOG_TEXT <=? len then LOG_TEXT - 1 else len) with (Z.min len (LOG_TEXT - 1)) by (destruct (Z.leb_spec LOG_TEXT len); unfold LOG_TEXT in *; lia).
  destruct (lookup_lt_is_Some_2 text (Z.to_nat (Z.min len (LOG_TEXT - 1) - 1))) as [c Ec]; [unfold LOG_TEXT; lia|]. rewrite Ec. cbn [mbind option_bind].
  pose proof (taken_spec text len c Hlen Ec) as Et. set (n := if c =? 10 then _ else _) in *.
  assert (Hn : 0 <= n < LOG_TEXT /\ n <= Z.of_nat (length text)) by (unfold n, LOG_TEXT; destruct (c =? 10); lia).
  set (q := next_sequence s) in *. pose proof (Z.mod_pos_bound q LOG_RECORDS ltac:(done)) as Hq.
  destruct (lookup_lt_is_Some_2 (records s) (Z.to_nat (q mod LOG_RECORDS))) as [old Eold]; [unfold LOG_RECORDS in *; lia|]. rewrite Eold. cbn [mbind option_bind].
  pose proof (proj1 (Forall_lookup _ _) O7 _ _ Eold) as Hold. cbn beta in Hold. rewrite <- Et. set (e := Entry now prio (taken text len)).
  assert (Hte : length (taken text len) = Z.to_nat n) by (rewrite Et, length_take; lia).
  assert (He : entry_ok e) by (split; cbn; [done | done | rewrite Hte; lia | rewrite Et; apply Forall_take; done]).
  set (r := LogRecord _ _ _ _ _). assert (Hr : matches r q e).
  { split; try done; cbn; [rewrite Hte; lia|]. unfold splice. rewrite take_0, app_nil_l. apply take_app_length. }
  assert (Hnext : u64 (q + 1) = Z.of_nat (length h) + 1) by (unfold u64; rewrite Z.mod_small; lia).
  set (first := if LOG_RECORDS <? _ then _ else _). assert (Hfirst : first = Z.max 0 (Z.of_nat (length h) + 1 - LOG_RECORDS)).
  { unfold first. rewrite Hnext, O4. unfold u64. rewrite Z.mod_small by (unfold LOG_RECORDS; lia). destruct (Z.ltb_spec LOG_RECORDS (Z.of_nat (length h) + 1 - Z.max 0 (Z.of_nat (length h) - LOG_RECORDS))); [|lia].
    rewrite Z.mod_small by (unfold LOG_RECORDS in *; lia). lia. }
  clearbody first. eexists tt, _. split; [reflexivity|]. split; [|done]. split; cbn [set_ring records first_sequence next_sequence clear_sequence stream_cursor log_format_buffer initialized files]; try done.
  - rewrite Hnext, length_app. cbn [length]. lia.
  - rewrite length_app. cbn [length]. lia.
  - rewrite Hfirst, length_app. cbn [length]. lia.
  - rewrite length_app. cbn [length]. lia.
  - rewrite length_insert. done.
  - apply Forall_insert; [done|]. cbn. rewrite splice_length; [done | rewrite Hte; cbn; lia].
  - apply Forall_app. split; [done | constructor; [done | constructor]].
  - intros k g Hk Eg. destruct (decide (Z.to_nat k < length h)%nat) as [Hlt | Hge].
    + rewrite lookup_app_l in Eg by done. destruct (O10 k g ltac:(lia) Eg) as (x & Ex & Hx). exists x. split; [|done].
      assert (Hap : k mod LOG_RECORDS <> q mod LOG_RECORDS) by (apply ring_apart; unfold LOG_RECORDS in *; lia).
      pose proof (Z.mod_pos_bound k LOG_RECORDS ltac:(done)). rewrite list_lookup_insert_ne by lia. done.
    + apply lookup_app_Some in Eg as [Eg | [_ Eg]]; [apply lookup_lt_Some in Eg; lia|]. apply list_lookup_singleton_Some in Eg as [Hz <-].
      replace k with q by lia. exists r. rewrite list_lookup_insert_eq by (apply lookup_lt_Some in Eold; done). done.
  - destruct O11 as (S1 & S2 & S3). split; [unfold cursor_in in *; cbn; rewrite length_app; lia|]. split; [done|]. cbn. intros Hc. specialize (S3 ltac:(lia)).
    destruct (decide (Z.to_nat (at_sequence (stream_cursor s)) < length h)%nat) as [Hlt | Hge]; [rewrite lookup_app_l by done; done|].
    rewrite (lookup_ge_None_2 h) in S3 by lia. rewrite lookup_app_r by lia. destruct S1 as [_ S1]. replace (_ - _)%nat with 0%nat by lia. cbn. rewrite S3.
    pose proof (line_length false (at_sequence (stream_cursor s)) e ltac:(lia) He). lia.
  - intros fp f Ef. destruct (O12 fp f Ef) as [H1 H2]. split; [|done]. unfold cursor_in in *. rewrite length_app. lia.
Qed.
