(* ===== verification/SyslogRead.v ===== *)
(** * The kernel log: reading it

    What a read of the stream, a read of the device and the snapshots of
    syslog(2) return, and where they leave the cursors. *)

From S2P Require Import Prelude KString KStringProof KPrint KPrintProof Syslog SyslogProof.

Implicit Types (s : log) (h : list entry) (c : log_cursor) (p : place).

(** ** The text of the log *)

(** The lines of the records from [n] on. *)
Definition text_from (device : bool) h (n : nat) : list Z := concat (imap (fun i e => line device (Z.of_nat (n + i)) e) (drop n h)).
(** What the stream has not given out yet. *)
Definition unread s h : list Z :=
  let c := stream_cursor s in
  if at_sequence c <? first_sequence s then text_from false h (Z.to_nat (first_sequence s))
  else drop (Z.to_nat (offset c)) (text_from false h (Z.to_nat (at_sequence c))).

Lemma text_from_cons device h n e : h !! n = Some e -> text_from device h n = line device (Z.of_nat n) e ++ text_from device h (S n).
Proof.
  intros E. unfold text_from. rewrite (drop_S _ e) by done. cbn [imap concat]. rewrite Nat.add_0_r. do 2 f_equal. apply imap_ext. intros i x _. cbn. do 2 f_equal. lia.
Qed.
Lemma text_from_end device h n : (length h <= n)%nat -> text_from device h n = [].
Proof. intros H. unfold text_from. rewrite drop_ge by done. done. Qed.
Lemma text_from_bound h : Forall entry_ok h -> Z.of_nat (length h) < UINT64_MOD -> forall n, Z.of_nat (length (text_from false h n)) <= LOG_FORMAT * Z.of_nat (length h - n).
Proof.
  intros He Hh n. remember (length h - n)%nat as k eqn:Ek. revert n Ek. induction k as [|k IH]; intros n Ek.
  - rewrite text_from_end by lia. cbn. lia.
  - destruct (lookup_lt_is_Some_2 h n ltac:(lia)) as [e E]. rewrite (text_from_cons _ _ _ _ E), length_app. specialize (IH (S n) ltac:(lia)).
    pose proof (line_length false (Z.of_nat n) e ltac:(lia) (proj1 (Forall_lookup _ _) He _ _ E)). unfold LOG_FORMAT, LOG_TEXT in *. lia.
Qed.

(** ** Changes that keep the invariant *)

Lemma ok_buffer s h b : log_ok s h -> Z.of_nat (length b) = LOG_FORMAT -> log_ok (set_buffer b s) h.
Proof. intros [] Hb. split; assumption. Qed.
Lemma ok_stream s h c : log_ok s h -> stream_ok (set_stream c s) h -> log_ok (set_stream c s) h.
Proof. intros [] Hc. split; assumption. Qed.
Lemma ok_clear s h n : log_ok s h -> 0 <= n <= Z.of_nat (length h) -> log_ok (set_clear n s) h.
Proof. intros [] Hc. split; assumption. Qed.
Lemma ok_files s h m : log_ok s h -> (forall fp f, m !! fp = Some f -> cursor_in h (i_private f) /\ offset (i_private f) = 0) -> log_ok (set_files m s) h.
Proof. intros [] Hm. split; assumption. Qed.

Lemma log_look {A} (g : log -> A) s Q : Q (g s) s -> ends (look g) s Q.
Proof. intros H. exists (g s), s. done. Qed.
Lemma log_change (g : log -> log) s (Q : unit -> log -> Prop) : Q tt (g s) -> ends (change g) s Q.
Proof. intros H. exists tt, (g s). done. Qed.
Lemma ends_the {A} (x : A) s (Q : A -> log -> Prop) : Q x s -> ends (the (Some x)) s Q.
Proof. intros H. exists x, s. done. Qed.

Lemma ring_text_small s h q : log_ok s h -> first_sequence s <= q -> 0 + Z.of_nat (length (text_from false h (Z.to_nat q))) < UINT32_MOD.
Proof.
  intros Hok Hq. pose proof (text_from_bound h (lo_entries _ _ Hok) (lo_small _ _ Hok) (Z.to_nat q)). pose proof (lo_first _ _ Hok).
  unfold LOG_FORMAT, LOG_TEXT, LOG_RECORDS, UINT32_MOD in *. lia.
Qed.
Lemma unread_length s h : log_ok s h ->
  Z.of_nat (length (unread s h)) = Z.of_nat (length (text_from false h (Z.to_nat (Z.max (at_sequence (stream_cursor s)) (first_sequence s))))) - (if first_sequence s <=? at_sequence (stream_cursor s) then offset (stream_cursor s) else 0).
Proof.
  intros Hok. destruct (lo_stream _ _ Hok) as ([Hin Hin'] & Hoff & Hs). unfold unread. rewrite Z.leb_antisym. destruct (Z.ltb_spec (at_sequence (stream_cursor s)) (first_sequence s)) as [Hlt | Hge]; cbn [negb].
  - rewrite Z.max_r by lia. lia.
  - rewrite Z.max_l, length_drop by lia. specialize (Hs Hge). destruct (h !! Z.to_nat (at_sequence (stream_cursor s))) as [e|] eqn:E.
    + rewrite (text_from_cons _ _ _ _ E), Z2Nat.id, length_app by lia. lia.
    + rewrite text_from_end by (apply lookup_ge_None; done). cbn. lia.
Qed.

Lemma begins_part (b t : list Z) off n : begins b t -> (off + n <= length t)%nat -> take n (drop off b) = take n (drop off t).
Proof.
  intros Hb Hl. unfold begins in Hb. rewrite <- Hb. rewrite !take_drop_commute, take_take. do 2 f_equal. lia.
Qed.
Lemma begins_length (b t : list Z) : begins b t -> (length t <= length b)%nat.
Proof. unfold begins. intros E. apply (f_equal length) in E. rewrite length_take in E. lia. Qed.

Lemma set_own_ok s h fp f c : log_ok s h -> files s !! fp = Some f -> cursor_in h c -> offset c = 0 ->
  ends (set_cursor (Own fp) c) s (fun _ s' => s' = set_files (<[fp := LogFile (i_mode f) c]> (files s)) s /\ log_ok s' h).
Proof.
  intros Hok E Hc Ho. unfold ends, set_cursor. rewrite E. eexists tt, _. split; [reflexivity|]. split; [done|]. apply ok_files; [done|].
  intros fp' f' [[<- <-] | [_ E']]%lookup_insert_Some; [done | eapply lo_files; done].
Qed.
Lemma get_own_ends s fp f Q : files s !! fp = Some f -> Q (i_private f) s -> ends (get_cursor (Own fp)) s Q.
Proof. intros E H. exists (i_private f), s. unfold get_cursor. rewrite E. done. Qed.

Section Reading.
Context (x64 : bool) (a : list Z) (Ha : length a = VBUF_SZ).

(** Fetching and printing record [q]. *)
Lemma fetch_ok s h q e device {A} (m : Z -> L A) Q : log_ok s h -> first_sequence s <= q -> h !! Z.to_nat q = Some e ->
  (forall b, log_ok (set_buffer b s) h -> begins b (line device q e) -> ends (m (Z.of_nat (length (line device q e)))) (set_buffer b s) Q) ->
  ends (r ← (fun s => r ← records s !! Z.to_nat (q mod LOG_RECORDS); Some (r, s)); full ← log_format x64 a r device; m full) s Q.
Proof.
  intros Hok Hq E Hm. destruct (lo_ring _ _ Hok q e Hq E) as (r & Er & Hr). apply ends_bind. exists r, s. rewrite Er. split; [done|].
  pose proof (lookup_lt_Some _ _ _ E). pose proof (lo_small _ _ Hok). pose proof (lo_first _ _ Hok).
  destruct (log_format_ok x64 a r q e device s Ha (lo_buffer _ _ Hok) ltac:(lia) (proj1 (Forall_lookup _ _) (lo_entries _ _ Hok) _ _ E) Hr) as (b & Ef & Hb & Bb).
  apply ends_bind. eexists _, _. split; [exact Ef|]. apply Hm; [apply ok_buffer|]; done.
Qed.
(** What the loop of a read of the stream does. *)
Lemma stream_loop_ok fuel : forall s h size data, log_ok s h -> first_sequence s <= at_sequence (stream_cursor s) ->
  (next_sequence s - at_sequence (stream_cursor s) <= Z.of_nat fuel \/ Z.of_nat (length data) = size) -> Z.of_nat (length data) <= size ->
  ends (copy_loop x64 a fuel Stream size false data) s (fun r s' => log_ok s' h /\ files s' = files s /\ clear_sequence s' = clear_sequence s /\
    r = Some (data ++ take (Z.to_nat size - length data) (unread s h)) /\ unread s' h = drop (Z.to_nat size - length data) (unread s h)).
Proof.
  induction fuel as [|fuel IH]; intros s h size data Hok Hfirst Hfuel Hsize; cbn [copy_loop].
  - pose proof (lo_next _ _ Hok) as Hn. destruct (lo_stream _ _ Hok) as ([_ Hc] & _). apply ends_ret. split_and!; try done.
    all: destruct Hfuel as [Hf | Hf]; [|replace (Z.to_nat size - length data)%nat with 0%nat by lia; rewrite ?take_0, ?drop_0, ?app_nil_r; done].
    all: unfold unread; rewrite (proj2 (Z.ltb_ge _ _)), text_from_end, drop_nil by lia; rewrite ?take_nil, ?drop_nil, ?app_nil_r; done.
  - apply ends_bind. eexists _, _. split; [reflexivity|]. apply ends_bind, log_look. set (c := stream_cursor s) in *. pose proof (lo_next _ _ Hok) as Hn.
    destruct (lo_stream _ _ Hok) as (Hin & Hoff & Hs). fold c in Hin, Hoff, Hs. unfold cursor_in in Hin. specialize (Hs Hfirst).
    assert (Eu : unread s h = drop (Z.to_nat (offset c)) (text_from false h (Z.to_nat (at_sequence c)))) by (unfold unread; fold c; rewrite (proj2 (Z.ltb_ge _ _)) by lia; done).
    destruct ((at_sequence c <? next_sequence s) && (Z.of_nat (length data) <? size)) eqn:Ec; cbn [negb].
    2: { apply ends_ret. split_and!; try done.
         all: destruct (decide (Z.of_nat (length data) = size)) as [Hd | Hd]; [replace (Z.to_nat size - length data)%nat with 0%nat by lia; rewrite ?take_0, ?drop_0, ?app_nil_r; done|].
         all: rewrite Eu, text_from_end, drop_nil by lia; rewrite ?take_nil, ?drop_nil, ?app_nil_r; done. }
    apply andb_true_iff in Ec as [E1%Z.ltb_lt E2%Z.ltb_lt]. destruct (lookup_lt_is_Some_2 h (Z.to_nat (at_sequence c)) ltac:(lia)) as [e E]. rewrite E in Hs.
    eapply (fetch_ok s h (at_sequence c) e false); [done | done | done|]. intros b Hokb Hb. cbn [andb]. set (ln := line false (at_sequence c) e) in *.
    pose proof (line_length false (at_sequence c) e ltac:(pose proof (lo_small _ _ Hok); lia) (proj1 (Forall_lookup _ _) (lo_entries _ _ Hok) _ _ E)) as [_ Hlb]. fold ln in Hlb. unfold LOG_FORMAT, LOG_TEXT in Hlb.
    rewrite (u32_id (_ - _)) by (unfold UINT32_MOD; lia). set (k := if size - _ <? _ then _ else _). assert (Hk : 0 < k <= Z.of_nat (length ln) - offset c /\ k <= size - Z.of_nat (length data) /\
      (k < Z.of_nat (length ln) - offset c -> k = size - Z.of_nat (length data))) by (unfold k; destruct (Z.ltb_spec (size - Z.of_nat (length data)) (Z.of_nat (length ln) - offset c)); lia). clearbody k.
    apply ends_bind, log_look. pose proof (begins_length _ _ Hb). cbn [log_format_buffer set_buffer]. rewrite decide_True by lia. apply ends_bind, ends_the.
    rewrite (begins_part _ _ _ _ Hb) by lia. rewrite u32_id by (unfold UINT32_MOD; lia).
    assert (Eln : text_from false h (Z.to_nat (at_sequence c)) = ln ++ text_from false h (S (Z.to_nat (at_sequence c)))) by (rewrite (text_from_cons _ _ _ _ E), Z2Nat.id by lia; done).
    rewrite Eln, drop_app_le in Eu by lia. set (c' := if _ =? _ then _ else _). set (new := take (Z.to_nat k) _). assert (Hnew : length new = Z.to_nat k) by (unfold new; rewrite length_take, length_drop; lia).
    set (s' := set_stream c' (set_buffer b s)). assert (Hc' : log_ok s' h /\ first_sequence s' <= at_sequence c' /\ unread s' h = drop (Z.to_nat k) (unread s h) /\
      (next_sequence s - at_sequence c' <= Z.of_nat fuel \/ Z.of_nat (length data) + k = size) /\ new = take (Z.to_nat k) (unread s h)).
    { assert (Hstream : forall c1, 0 <= offset c1 -> 0 <= at_sequence c1 <= Z.of_nat (length h) ->
        match h !! Z.to_nat (at_sequence c1) with Some e => offset c1 < Z.of_nat (length (line false (at_sequence c1) e)) | None => offset c1 = 0 end -> log_ok (set_stream c1 (set_buffer b s)) h).
      { intros c1 H1 H2 H3. apply ok_stream; [done|]. split; [exact H2|]. split; [exact H1|]. intros _. exact H3. }
      assert (Hnew' : new = take (Z.to_nat k) (unread s h)) by (rewrite Eu, take_app_le by (rewrite length_drop; lia); done). 
      change (unread s' h) with (if at_sequence c' <? first_sequence s then text_from false h (Z.to_nat (first_sequence s)) else drop (Z.to_nat (offset c')) (text_from false h (Z.to_nat (at_sequence c')))).
      change (first_sequence s') with (first_sequence s). unfold s', c'. destruct (Z.eqb_spec (offset c + k) (Z.of_nat (length ln))) as [Hfull | Hpart]; cbn [at_sequence offset].
      - unfold u64. rewrite Z.mod_small by (pose proof (lo_small _ _ Hok); lia). split_and!; [| lia | | lia | done].
        + apply Hstream; cbn [at_sequence offset]; [lia | lia|]. destruct (h !! Z.to_nat (at_sequence c + 1)) as [g|] eqn:Eg; [|done].
          pose proof (line_length false (at_sequence c + 1) g ltac:(pose proof (lo_small _ _ Hok); apply lookup_lt_Some in Eg; lia) (proj1 (Forall_lookup _ _) (lo_entries _ _ Hok) _ _ Eg)). lia.
        + rewrite (proj2 (Z.ltb_ge _ _)) by lia. rewrite drop_0, Eu, drop_app_ge by (rewrite length_drop; lia). rewrite length_drop. replace (_ - _)%nat with 0%nat by lia.
          rewrite drop_0. f_equal. lia.
      - split_and!; [| done | | lia | done].
        + apply Hstream; cbn [at_sequence offset]; [lia | lia|]. rewrite E. fold ln. lia.
        + rewrite (proj2 (Z.ltb_ge _ _)) by lia. rewrite Eln, Eu, !drop_app_le by (rewrite ?length_drop; lia). rewrite drop_drop. do 2 f_equal. lia. }
    destruct Hc' as (G1 & G2 & G3 & G4 & G5). apply ends_bind. exists tt, s'. split; [done|].
    eapply ends_mono; [apply (IH s' h size (data ++ new) G1 G2)|].
    + rewrite length_app, Hnew. destruct G4; [left; done | right; lia].
    + rewrite length_app, Hnew. lia.
    + intros r s'' (F1 & F2 & F3 & F4 & F5). split_and!; try done.
      * rewrite F4, G3, length_app, Hnew, <- app_assoc. do 2 f_equal. rewrite G5, take_drop_commute. replace (Z.to_nat k + _)%nat with (Z.to_nat size - length data)%nat by lia.
        rewrite <- (take_drop (Z.to_nat k) (take (Z.to_nat size - length data) (unread s h))) at 2. rewrite take_take. do 2 f_equal. lia.
      * rewrite F5, G3, drop_drop, length_app, Hnew. f_equal. lia.
Qed.

Definition handed (data : list Z) : answer := match data with [] => Waits | _ => Returns (Z.of_nat (length data)) data end.

Lemma stream_section_ok s h size : log_ok s h -> 0 < size ->
  ends (read_section x64 a Stream size false) s (fun r s' => log_ok s' h /\ files s' = files s /\ clear_sequence s' = clear_sequence s /\
    r = handed (take (Z.to_nat size) (unread s h)) /\ unread s' h = drop (Z.to_nat size) (unread s h)).
Proof.
  intros Hok Hsize. set (c := stream_cursor s). set (s1 := if at_sequence c <? first_sequence s then set_stream (Cursor (first_sequence s) 0 (rdev c)) s else s).
  pose proof (lo_first _ _ Hok) as Hf. assert (H1 : log_ok s1 h /\ unread s1 h = unread s h /\ first_sequence s1 <= at_sequence (stream_cursor s1) /\ files s1 = files s /\ clear_sequence s1 = clear_sequence s).
  { unfold s1. destruct (Z.ltb_spec (at_sequence c) (first_sequence s)) as [Hlt | Hge]; [|done]. split_and!; try done.
    - apply ok_stream; [done|]. split; [unfold cursor_in; cbn; unfold LOG_RECORDS in *; lia|]. split; [done|]. intros _. cbn. destruct (h !! _) as [e|] eqn:E; [|done].
      pose proof (line_length false (first_sequence s) e ltac:(pose proof (lo_small _ _ Hok); unfold LOG_RECORDS in *; lia) (proj1 (Forall_lookup _ _) (lo_entries _ _ Hok) _ _ E)). lia.
    - unfold unread. cbn [stream_cursor set_stream first_sequence at_sequence offset]. fold c. rewrite Z.ltb_irrefl, drop_0, (proj2 (Z.ltb_lt _ _)) by done. done. }
  destruct H1 as (H1 & H2 & H3 & H4 & H5). unfold read_section. apply ends_bind. eexists _, _. split; [reflexivity|]. fold c. apply ends_bind, log_look, ends_bind.
  exists tt, s1. split; [unfold s1; destruct (_ <? _); done|]. rewrite andb_false_r. apply ends_bind. eexists _, _. split; [reflexivity|]. apply ends_bind, log_look, ends_bind.
  eapply ends_mono; [apply (stream_loop_ok _ s1 h size [] H1 H3); cbn; lia|]. intros r s' (G1 & G2 & G3 & -> & G5). cbn [length] in *. rewrite Nat.sub_0_r, H2, ?G2, ?G3 in *. apply ends_ret. split_and!; try congruence.
  cbn [app]. unfold handed. destruct (take _ _); done.
Qed.

(** ** The device *)

(** A read of the device: the records lost are reported, then each read gives
    one record, if there is room. *)
Inductive device_read s h (fp : Z) (f : log_file) (size : Z) : answer -> log_cursor -> Prop :=
| read_lost : at_sequence (i_private f) < first_sequence s -> device_read s h fp f size (Returns (- EPIPE) []) (Cursor (first_sequence s) 0 (rdev (i_private f)))
| read_none : at_sequence (i_private f) = next_sequence s -> device_read s h fp f size Waits (i_private f)
| read_short e : first_sequence s <= at_sequence (i_private f) -> h !! Z.to_nat (at_sequence (i_private f)) = Some e ->
    size < Z.of_nat (length (line true (at_sequence (i_private f)) e)) -> device_read s h fp f size (Returns (- EINVAL) []) (i_private f)
| read_one e : first_sequence s <= at_sequence (i_private f) -> h !! Z.to_nat (at_sequence (i_private f)) = Some e ->
    Z.of_nat (length (line true (at_sequence (i_private f)) e)) <= size ->
    device_read s h fp f size (Returns (Z.of_nat (length (line true (at_sequence (i_private f)) e))) (line true (at_sequence (i_private f)) e))
      (Cursor (at_sequence (i_private f) + 1) 0 (rdev (i_private f))).

Lemma device_section_ok s h fp f size : log_ok s h -> files s !! fp = Some f -> 0 < size ->
  ends (read_section x64 a (Own fp) size true) s (fun r s' => log_ok s' h /\ clear_sequence s' = clear_sequence s /\ stream_cursor s' = stream_cursor s /\
    exists c, device_read s h fp f size r c /\ files s' = <[fp := LogFile (i_mode f) c]> (files s)).
Proof.
  intros Hok E Hsize. destruct (lo_files _ _ Hok _ _ E) as [Hin Hoff]. pose proof (lo_first _ _ Hok) as Hf. pose proof (lo_next _ _ Hok) as Hn. pose proof (lo_small _ _ Hok) as Hs.
  assert (Hid : <[fp := LogFile (i_mode f) (i_private f)]> (files s) = files s) by (apply insert_id; rewrite E; destruct f; done).
  unfold cursor_in in Hin. unfold read_section. apply ends_bind, (get_own_ends _ _ f); [done|]. set (c := i_private f) in *. apply ends_bind, log_look, ends_bind.
  destruct (Z.ltb_spec (at_sequence c) (first_sequence s)) as [Hlt | Hge].
  { eapply ends_mono; [apply (set_own_ok s h fp f); [done | done | unfold cursor_in; cbn; unfold LOG_RECORDS in *; lia | done]|]. intros _ s' [-> H']. cbn [andb]. apply ends_ret. split_and!; try done.
    eexists. split; [apply read_lost; done | done]. }
  apply ends_ret. cbn [andb]. apply ends_bind, (get_own_ends _ _ f); [done|]. apply ends_bind, log_look, ends_bind. fold c.
  destruct (Z.to_nat (next_sequence s - at_sequence c)) as [|fuel] eqn:Ef; cbn [copy_loop].
  { apply ends_ret, ends_ret. split_and!; try done. exists c. split; [apply read_none; fold c; lia | done]. }
  apply ends_bind, (get_own_ends _ _ f); [done|]. fold c. apply ends_bind, log_look. rewrite (proj2 (Z.ltb_lt (at_sequence c) _)), (proj2 (Z.ltb_lt _ size)) by (cbn; lia). cbn [andb negb].
  destruct (lookup_lt_is_Some_2 h (Z.to_nat (at_sequence c)) ltac:(lia)) as [e Ee]. eapply (fetch_ok s h (at_sequence c) e true); [done | done | done|]. intros b Hokb Hb. set (ln := line true (at_sequence c) e) in *.
  pose proof (line_length true (at_sequence c) e ltac:(lia) (proj1 (Forall_lookup _ _) (lo_entries _ _ Hok) _ _ Ee)) as [Hl1 Hl2]. fold ln in Hl1, Hl2. unfold LOG_FORMAT, LOG_TEXT in Hl2. cbn [andb].
  destruct (Z.ltb_spec size (Z.of_nat (length ln))) as [Hshort | Hroom].
  { apply ends_ret, ends_ret. split_and!; try done. exists c. split; [apply (read_short _ _ _ _ _ e); done | done]. }
  cbv zeta. rewrite Hoff. rewrite (Z.sub_0_r (Z.of_nat (length ln))), (u32_id (Z.of_nat (length ln))) by (unfold UINT32_MOD; lia). cbn [length]. rewrite Z.sub_0_r. rewrite (proj2 (Z.ltb_ge size _)) by lia.
  apply ends_bind, log_look. cbn [log_format_buffer set_buffer]. pose proof (begins_length _ _ Hb). rewrite Nat2Z.id, decide_True by lia. apply ends_bind, ends_the. rewrite drop_0.
  replace (take (length ln) b) with ln by (symmetry; exact Hb). rewrite Z.add_0_l, u32_id, Z.eqb_refl by (unfold UINT32_MOD; lia). unfold u64. rewrite Z.mod_small by lia. apply ends_bind.
  eapply ends_mono; [apply (set_own_ok (set_buffer b s) h fp f); [done | done | unfold cursor_in; cbn; lia | done]|]. intros _ s' [-> H']. apply ends_ret, ends_ret. split_and!; try done.
  eexists. split; [|reflexivity]. cbn [app]. pose proof (read_one s h fp f size e Hge Ee Hroom) as Hr. fold c ln in Hr. destruct ln; [cbn in Hl1; lia | done].
Qed.

(** ** syslog(2) *)

(** The text since the last clear. *)
Definition since_clear s h : list Z := text_from false h (Z.to_nat (Z.max (clear_sequence s) (first_sequence s))).

Lemma total_loop_ok n : forall s h q total, log_ok s h -> first_sequence s <= q <= Z.of_nat (length h) -> n = (length h - Z.to_nat q)%nat -> 0 <= total ->
  total + Z.of_nat (length (text_from false h (Z.to_nat q))) < UINT32_MOD ->
  ends (total_loop x64 a n q total) s (fun r s' => r = total + Z.of_nat (length (text_from false h (Z.to_nat q))) /\ log_ok s' h /\ exists b, s' = set_buffer b s).
Proof.
  induction n as [|n IH]; intros s h q total Hok Hq En Ht Hb; cbn [total_loop].
  - apply ends_ret. rewrite text_from_end by lia. cbn. split; [lia|]. split; [done|]. exists (log_format_buffer s). destruct s; done.
  - pose proof (lo_first _ _ Hok) as Hf. destruct (lookup_lt_is_Some_2 h (Z.to_nat q) ltac:(lia)) as [e E]. eapply (fetch_ok s h q e false); [done | lia | done|]. intros b Hok' Hbeg.
    rewrite (text_from_cons _ _ _ _ E), Z2Nat.id, length_app in * by (unfold LOG_RECORDS in *; lia). rewrite u32_id by lia. replace (S (Z.to_nat q)) with (Z.to_nat (q + 1)) in * by (unfold LOG_RECORDS in *; lia).
    eapply ends_mono; [apply (IH (set_buffer b s) h (q + 1)); try done; cbn [first_sequence set_buffer]; lia|]. intros r s' (-> & H1 & b' & ->). split; [lia|]. split; [done|]. exists b'. done.
Qed.
Lemma snapshot_loop_ok n : forall s h q skip data, log_ok s h -> first_sequence s <= q <= Z.of_nat (length h) -> n = (length h - Z.to_nat q)%nat -> 0 <= skip ->
  ends (snapshot_loop x64 a n q skip data) s (fun r s' => r = data ++ drop (Z.to_nat skip) (text_from false h (Z.to_nat q)) /\ log_ok s' h /\ exists b, s' = set_buffer b s).
Proof.
  induction n as [|n IH]; intros s h q skip data Hok Hq En Hskip; cbn [snapshot_loop].
  - apply ends_ret. rewrite text_from_end, drop_nil, app_nil_r by lia. split; [done|]. split; [done|]. exists (log_format_buffer s). destruct s; done.
  - pose proof (lo_first _ _ Hok) as Hf. destruct (lookup_lt_is_Some_2 h (Z.to_nat q) ltac:(lia)) as [e E]. eapply (fetch_ok s h q e false); [done | lia | done|]. intros b Hok' Hbeg.
    rewrite (text_from_cons _ _ _ _ E), Z2Nat.id by (unfold LOG_RECORDS in *; lia). replace (S (Z.to_nat q)) with (Z.to_nat (q + 1)) by (unfold LOG_RECORDS in *; lia). set (ln := line false q e) in *.
    destruct (Z.leb_spec (Z.of_nat (length ln)) skip) as [Hle | Hgt].
    + eapply ends_mono; [apply (IH (set_buffer b s) h (q + 1)); try done; cbn [first_sequence set_buffer]; lia|]. intros r s' (-> & H1 & b' & ->). split; [|split; [done | exists b'; done]].
      rewrite drop_app_ge by lia. do 2 f_equal. lia.
    + apply ends_bind, log_look. pose proof (begins_length _ _ Hbeg). cbn [log_format_buffer set_buffer]. rewrite decide_True by lia. apply ends_bind, ends_the.
      eapply ends_mono; [apply (IH (set_buffer b s) h (q + 1)); try done; cbn [first_sequence set_buffer]; lia|]. intros r s' (-> & H1 & b' & ->). split; [|split; [done | exists b'; done]].
      rewrite (begins_part _ _ _ _ Hbeg), drop_app_le, <- app_assoc by lia. do 2 f_equal. apply take_ge. rewrite length_drop. lia.
Qed.

Lemma snapshot_ok s h waits type buf len : log_ok s h -> type = 3 \/ type = 4 -> 0 <= len -> buf = true \/ len = 0 ->
  ends (sys_syslog x64 a waits type buf len) s (fun r s' => log_ok s' h /\ unread s' h = unread s h /\ clear_sequence s' = (if type =? 4 then next_sequence s else clear_sequence s) /\
    let d := drop (length (since_clear s h) - Z.to_nat len) (since_clear s h) in r = Returns (Z.of_nat (length d)) d).
Proof.
  intros Hok Htype Hlen Hbuf. unfold sys_syslog. pose proof (lo_first _ _ Hok) as Hf. pose proof (lo_clear _ _ Hok) as Hc. pose proof (lo_next _ _ Hok) as Hn.
  replace ((type =? 0) || _ || _ || _ || _) with false by lia. rewrite (proj2 (Z.eqb_neq type 10)), (proj2 (Z.eqb_neq type 2)), (proj2 (Z.eqb_neq type 9)), (proj2 (Z.eqb_neq type 5)) by lia.
  replace ((type =? 3) || (type =? 4)) with true by lia. replace (negb (type =? 3) && negb (type =? 4) && _ && _) with false by lia.
  replace (true && _) with false by (destruct Hbuf as [-> | ->]; unfold nz; lia). apply ends_bind, log_look. cbn [id]. cbv zeta.
  set (q := if clear_sequence s <? first_sequence s then _ else _). assert (Hq : q = Z.max (clear_sequence s) (first_sequence s)) by (unfold q; destruct (Z.ltb_spec (clear_sequence s) (first_sequence s)); lia).
  unfold LOG_RECORDS in Hf. apply ends_bind. eapply ends_mono; [apply (total_loop_ok _ s h q 0 Hok); [lia | lia | lia | apply (ring_text_small s); [done | lia]]|].
  intros total s1 (-> & H1 & b1 & ->). rewrite Z.add_0_l. unfold since_clear. rewrite <- Hq. set (T := text_from false h (Z.to_nat q)). apply ends_bind.
  eapply ends_mono; [apply (snapshot_loop_ok _ _ h q); [exact H1 | cbn [first_sequence set_buffer]; lia | cbn [next_sequence set_buffer]; lia | destruct (Z.ltb_spec len (Z.of_nat (length T))); lia]|]. intros data s2 (-> & H2 & b2 & ->). cbn [app].
  replace (Z.to_nat (if len <? Z.of_nat (length T) then _ else 0)) with (length T - Z.to_nat len)%nat by (destruct (Z.ltb_spec len (Z.of_nat (length T))); lia).
  apply ends_bind. rewrite orb_false_r. destruct (type =? 4); [apply log_change | apply ends_ret]; apply ends_ret; (split; [|done]); [apply ok_clear; [done | cbn; lia] | done].
Qed.
Lemma pending_ok s h waits buf len : log_ok s h ->
  ends (sys_syslog x64 a waits 9 buf len) s (fun r s' => log_ok s' h /\ unread s' h = unread s h /\ clear_sequence s' = clear_sequence s /\ r = Returns (Z.of_nat (length (unread s h))) []).
Proof.
  intros Hok. pose proof (unread_length s h Hok) as Hu. destruct (lo_stream _ _ Hok) as ([Hin Hin'] & Hoff & _). pose proof (lo_first _ _ Hok) as Hf. pose proof (lo_next _ _ Hok) as Hn. unfold LOG_RECORDS in Hf.
  unfold sys_syslog. cbn [Z.eqb Pos.eqb orb andb negb]. apply ends_bind, log_look. cbn [id]. cbv zeta.
  set (q := if at_sequence (stream_cursor s) <? first_sequence s then _ else _). assert (Hq : q = Z.max (at_sequence (stream_cursor s)) (first_sequence s)) by (unfold q; destruct (Z.ltb_spec (at_sequence (stream_cursor s)) (first_sequence s)); lia).
  apply ends_bind. eapply ends_mono; [apply (total_loop_ok _ s h q 0 Hok); [lia | lia | lia | apply (ring_text_small s); [done | lia]]|].
  intros total s1 (-> & H1 & b1 & ->). apply ends_ret. split; [done|]. split; [done|]. split; [done|]. f_equal. rewrite <- Hq in Hu.
  pose proof (ring_text_small s h q Hok ltac:(lia)). revert Hu. destruct (first_sequence s <=? at_sequence (stream_cursor s)); intros Hu; [rewrite u32_id|]; lia.
Qed.
End Reading.
