(* ===== verification/SyslogCorrect.v ===== *)
(** * The kernel log: all runs

    The ring stands for the history of all records in every run of producers
    and readers; what the stream, the device and syslog(2) give out; that the
    text of the device can be parsed back; and that what printk() prints is in
    the log. *)

From S2P Require Import Prelude KString KStringProof KPrint KPrintProof Syslog SyslogProof SyslogRead.

Implicit Types (s : log) (h : list entry).

(** ** Writing to the device *)

Lemma prefix_loop_ok n : forall text size i v, 0 <= i -> size <= Z.of_nat (length text) -> 0 <= v ->
  exists j w, prefix_loop n text size i v = Some (j, w) /\ i <= j /\ (j <= i \/ j <= size) /\ 0 <= w.
Proof.
  induction n as [|n IH]; intros text size i v Hi Hs Hv; cbn [prefix_loop]; [exists i, v; split_and!; [done | lia | lia | lia]|].
  destruct ((i <? size) && (i <=? 3)) eqn:E; [|exists i, v; split_and!; [done | lia | lia | lia]].
  destruct (lookup_lt_is_Some_2 text (Z.to_nat i)) as [c Ec]; [lia|]. rewrite Ec. cbn [mbind option_bind]. case_match; [|exists i, v; split_and!; [done | lia | lia | lia]].
  destruct (IH text size (i + 1) (u32 (v * 10 + schar c - 48))) as (j & w & Ej & H1 & H2 & H3); [lia | done | apply u32_range|]. exists j, w. split_and!; [done | lia | lia | done].
Qed.
Lemma lor_8_range v : 0 <= v <= 191 -> 0 <= Z.lor v 8 < 256 /\ (if negb (nz (Z.ldiff v 7)) then Z.lor v 8 else v) = if v <? 8 then v + 8 else v.
Proof.
  intros Hv. assert (H : Forall (fun v => 0 <= Z.lor v 8 < 256 /\ (if negb (nz (Z.ldiff v 7)) then Z.lor v 8 else v) = if v <? 8 then v + 8 else v) (seqZ 0 192)).
  { vm_compute. repeat constructor; discriminate. }
  rewrite Forall_forall in H. apply H, elem_of_seqZ. lia.
Qed.
Lemma parse_prefix_ok text size : 0 < size <= Z.of_nat (length text) -> exists prio k, parse_prefix text size = Some (prio, k) /\ 0 <= prio < 256 /\ 0 <= k <= size.
Proof.
  intros Hs. unfold parse_prefix. destruct (lookup_lt_is_Some_2 text 0) as [c Ec]; [lia|]. rewrite Ec. cbn [mbind option_bind]. assert (D : exists prio k, Some (14, 0) = Some (prio, k) /\ 0 <= prio < 256 /\ 0 <= k <= size) by (exists 14, 0; split; [done | lia]).
  case_match; [done|]. destruct (prefix_loop_ok 3 text size 1 0) as (i & v & Ei & H1 & H2 & H3); [lia | lia | lia|]. rewrite Ei. cbn [mbind option_bind]. case_match eqn:Eb; [done|].
  destruct (lookup_lt_is_Some_2 text (Z.to_nat i)) as [c' Ec']; [lia|]. rewrite Ec'. cbn [mbind option_bind]. case_match eqn:Ep; [done|]. eexists _, _. split; [reflexivity|]. split; [|lia].
  case_match; [|lia]. pose proof (lor_8_range v ltac:(lia)). lia.
Qed.
Lemma prefix_loop_digits ds : forall n text size i v rest, is_digits 10 ds -> drop (Z.to_nat i) text = (hexdigit <$> ds) ++ 62 :: rest ->
  1 <= i -> i + Z.of_nat (length ds) <= 4 -> (length ds <= n)%nat -> i + Z.of_nat (length ds) < size -> 0 <= v < 10 ^ (i - 1) ->
  prefix_loop n text size i v = Some (i + Z.of_nat (length ds), value 10 v ds).
Proof.
  induction ds as [|d ds IH]; intros n text size i v rest Hd Et Hi H4 Hn Hs Hv; cbn [length value fold_left] in *.
  - rewrite Z.add_0_r. destruct n as [|n]; cbn [prefix_loop]; [done|]. case_match; [|done]. rewrite <- (Nat.add_0_r (Z.to_nat i)), <- lookup_drop, Et. done.
  - destruct n as [|n]; [lia|]. cbn [prefix_loop]. rewrite (proj2 (Z.ltb_lt i size)), (proj2 (Z.leb_le i 3)) by lia. cbn [andb]. apply Forall_cons in Hd as [Hd Hds].
    rewrite <- (Nat.add_0_r (Z.to_nat i)), <- lookup_drop, Et. cbn [fmap list_fmap app lookup list_lookup mbind option_bind].
    replace (hexdigit d) with (48 + d) by (unfold hexdigit; destruct (Z.ltb_spec d 10); lia). replace (schar (48 + d)) with (48 + d) by (unfold schar; destruct (Z.ltb_spec (48 + d) 128); lia).
    rewrite (proj2 (Z.leb_le 48 _)), (proj2 (Z.leb_le _ 57)) by lia. cbn [andb]. assert (Hp : 10 ^ i = 10 * 10 ^ (i - 1)) by (rewrite <- Z.pow_succ_r by lia; f_equal; lia).
    assert (10 ^ i <= 10 ^ 3) by (apply Z.pow_le_mono_r; lia). rewrite u32_id by (unfold UINT32_MOD; lia).
    rewrite (IH n text size (i + 1) _ rest); [do 2 f_equal; [lia | unfold value; f_equal; lia] | done | | lia | lia | lia | lia | replace (i + 1 - 1) with i by lia; lia].
    replace (Z.to_nat (i + 1)) with (Z.to_nat i + 1)%nat by lia. rewrite <- drop_drop, Et. done.
Qed.
(** A decimal priority in angle brackets is taken off, and made one of the user
    facility if it is one of the kernel. *)
Lemma parse_prefix_digits ds rest : is_digits 10 ds -> (1 <= length ds <= 3)%nat -> value 10 0 ds <= 191 -> rest <> [] ->
  parse_prefix (60 :: (hexdigit <$> ds) ++ 62 :: rest) (Z.of_nat (length ds + 2 + length rest)) =
  Some (if value 10 0 ds <? 8 then value 10 0 ds + 8 else value 10 0 ds, Z.of_nat (length ds + 2)).
Proof.
  intros Hd Hl Hv Hr. unfold parse_prefix. cbn [lookup list_lookup mbind option_bind Z.eqb Pos.eqb negb]. set (text := 60 :: _). set (size := Z.of_nat (_ + _ + _)).
  rewrite (prefix_loop_digits ds 3 text size 1 0 rest) by (first [done | unfold size; lia]). cbn [mbind option_bind]. rewrite (proj2 (Z.ltb_lt 1 _)), (proj2 (Z.ltb_lt _ size)) by (unfold size; lia). cbn [andb negb].
  assert (Ec : text !! Z.to_nat (1 + Z.of_nat (length ds)) = Some 62).
  { replace (Z.to_nat (1 + Z.of_nat (length ds))) with (S (length ds)) by lia. change (((hexdigit <$> ds) ++ 62 :: rest) !! length ds = Some 62). rewrite lookup_app_r by (rewrite length_fmap; lia). rewrite length_fmap, Nat.sub_diag. done. }
  rewrite Ec. cbn [mbind option_bind]. rewrite (proj2 (Z.leb_le _ 191) Hv). cbn [Z.eqb Pos.eqb andb negb].
  assert (0 <= value 10 0 ds) by (apply value_mono; [lia | lia | eapply Forall_impl; [exact Hd|]; cbn; lia]). rewrite (proj2 (lor_8_range (value 10 0 ds) ltac:(lia))). do 2 f_equal. lia.
Qed.

(** ** Parsing a line of the device *)

Fixpoint read_number (v : Z) (t : list Z) : Z * list Z :=
  match t with c :: t' => if (48 <=? c) && (c <=? 57) then read_number (v * 10 + (c - 48)) t' else (v, t) | [] => (v, []) end.
Definition hex_value (c : Z) : Z := if c <? 97 then c - 48 else c - 87.
Fixpoint unescape (t : list Z) : list Z :=
  match t with
  | 92 :: 120 :: hi :: lo :: t => hex_value hi * 16 + hex_value lo :: unescape t
  | c :: t => c :: unescape t
  | [] => []
  end.
(** Priority, sequence number, time and text. *)
Definition parse_line (t : list Z) : Z * Z * Z * list Z :=
  let '(prio, t) := read_number 0 t in
  let '(seq, t) := read_number 0 (drop 1 t) in
  let '(time, t) := read_number 0 (drop 1 t) in
  (prio, seq, time, unescape (removelast (drop 3 t))).

Lemma read_number_digits ds : forall v c t, is_digits 10 ds -> c = 44 -> read_number v ((hexdigit <$> ds) ++ c :: t) = (value 10 v ds, c :: t).
Proof.
  induction ds as [|d ds IH]; intros v c t Hd Hc; cbn [fmap list_fmap app read_number]; [subst; done|]. apply Forall_cons in Hd as [Hd Hds].
  replace (hexdigit d) with (48 + d) by (unfold hexdigit; destruct (Z.ltb_spec d 10); lia). rewrite (proj2 (Z.leb_le 48 _)), (proj2 (Z.leb_le _ 57)) by lia. cbn [andb].
  rewrite IH by done. unfold value. cbn [fold_left]. do 2 f_equal. lia.
Qed.
Lemma read_decimal n t : 0 <= n < UINT64_MOD -> read_number 0 (decimal n ++ 44 :: t) = (n, 44 :: t).
Proof.
  intros Hn. destruct (digits_numeral 20 n) as [(Hv & Hd & _) _]; [split; [lia|]; transitivity UINT64_MOD; [lia | reflexivity]|]. unfold decimal.
  destruct (Z.eqb_spec n 0) as [-> | Hz]; rewrite read_number_digits; try done; [repeat constructor; lia | rewrite Hv; done].
Qed.
Lemma hex_value_digit d : 0 <= d < 16 -> hex_value (hexdigit d) = d.
Proof. intros Hd. unfold hex_value, hexdigit. destruct (Z.ltb_spec d 10); case_match; lia. Qed.
Lemma unescape_plain c t : c <> 92 -> unescape (c :: t) = c :: unescape t.
Proof. intros Hc. cbn. destruct c as [|[]|]; try done. repeat (match goal with |- context [match ?x with _ => _ end] => destruct x; try done end). Qed.
Lemma unescape_escape t : Forall (fun c => 0 <= c < 256) t -> unescape (escape t) = t.
Proof.
  induction 1 as [|c t Hc Ht IH]; [done|]. change (escape (c :: t)) with ((if plain c then [c] else [92; 120; hexdigit (c / 16); hexdigit (c mod 16)]) ++ escape t).
  destruct (plain c) eqn:Ep; cbn [app].
  - rewrite unescape_plain, IH by (unfold plain in Ep; lia). done.
  - cbn [unescape]. rewrite IH, !hex_value_digit by (first [apply Z.mod_pos_bound; lia | split; [apply Z.div_pos; lia | apply Z.div_lt_upper_bound; lia]]).
    f_equal. pose proof (Z.div_mod c 16). lia.
Qed.
Lemma parse_line_ok seq e : 0 <= seq < UINT64_MOD -> entry_ok e -> parse_line (line true seq e) = (e_priority e, seq, e_time e, e_text e).
Proof.
  intros Hs [Ht Hp _ Hb]. unfold parse_line, line, device_head. rewrite <- !app_assoc. cbn [app]. rewrite read_decimal by (unfold UINT32_MOD, UINT64_MOD in *; lia). cbn [drop skipn]; rewrite ?drop_0.
  rewrite read_decimal by done. cbn [drop skipn]; rewrite ?drop_0. rewrite read_decimal by done. cbn [drop skipn]; rewrite ?drop_0. rewrite removelast_last, unescape_escape by done. done.
Qed.

(** ** All runs *)

(** A section under the lock: a record taken, a read of the stream or of a
    device, the other file operations, syslog(2) other than a read. *)
Inductive op :=
  | Emit (now prio : Z) (text : list Z) (len : Z) | ReadStream (size : Z) | ReadDevice (fp size : Z) | Write (now fp : Z) (text : list Z) (size : Z)
  | Seek (fp off whence : Z) | Open (fp mode dev : Z) | Release (fp : Z) | Syslog (type : Z) (buf : bool) (len : Z).

Definition blank : log_record := LogRecord 0 0 0 0 (replicate 512 0).
Definition boot : log := Log (replicate 64 blank) 0 0 0 (Cursor 0 0 0) (replicate 2144 0) true 0 ∅.

Section Runs.
Context (x64 : bool) (a : list Z) (Ha : length a = VBUF_SZ).

Definition exec (o : op) : L unit :=
  match o with
  | Emit now prio text len => syslog_emit now prio text len
  | ReadStream size => read_section x64 a Stream size false;; mret tt
  | ReadDevice fp size => read_section x64 a (Own fp) size true;; mret tt
  | Write now fp text size => log_file_write now fp (Some text) size;; mret tt
  | Seek fp off whence => log_file_seek fp off whence;; mret tt
  | Open fp mode dev => syslog_open (Some fp) mode dev;; mret tt
  | Release fp => log_file_release fp;; mret tt
  | Syslog type buf len => sys_syslog x64 a [] type buf len;; mret tt
  end.

Definition is_text (text : list Z) : Prop := Forall (fun c => 0 <= c < 256) text.
(** The record numbers have not run out, the files are open, and there is as
    much text as is said. *)
Definition valid s (o : op) : Prop :=
  match o with
  | Emit now prio text len => next_sequence s + 1 < UINT64_MOD /\ 0 <= len <= Z.of_nat (length text) /\ 0 <= now < UINT64_MOD /\ 0 <= prio < UINT32_MOD /\ is_text text
  | ReadStream size => 0 < size
  | ReadDevice fp size => is_Some (files s !! fp) /\ 0 < size
  | Write now fp text size => is_Some (files s !! fp) /\ next_sequence s + 1 < UINT64_MOD /\ 0 <= size <= Z.of_nat (length text) /\ 0 <= now < UINT64_MOD /\ is_text text
  | Seek fp _ _ => is_Some (files s !! fp)
  | Open fp _ _ | Release fp => True
  | Syslog type _ _ => type <> 2
  end.

(** The records that a step adds. *)
Definition emitted_by (now prio : Z) (text : list Z) (len : Z) : list entry := if len =? 0 then [] else [Entry now prio (taken text len)].
Definition adds s (o : op) : list entry :=
  match o with
  | Emit now prio text len => emitted_by now prio text len
  | Write now fp text size =>
      match files s !! fp with
      | Some f =>
          if S_ISCHR (i_mode f) && (size <? LOG_TEXT) && negb (size =? 0) then
            match parse_prefix text size with Some (prio, k) => emitted_by now prio (drop (Z.to_nat k) text) (size - k) | None => [] end
          else []
      | None => []
      end
  | _ => []
  end.

(** The states a run can come to, with the records taken so far. *)
Inductive logged : log -> list entry -> Prop :=
| logged_boot : logged boot []
| logged_step s h o s' : logged s h -> valid s o -> exec o s = Some (tt, s') -> logged s' (h ++ adds s o).

Lemma boot_ok : log_ok boot [].
Proof.
  split; try done. apply Forall_replicate. done.
Qed.
Lemma emit_any s h now prio text len : log_ok s h -> next_sequence s + 1 < UINT64_MOD -> 0 <= len <= Z.of_nat (length text) -> 0 <= now < UINT64_MOD -> 0 <= prio < UINT32_MOD -> is_text text ->
  ends (syslog_emit now prio text len) s (fun _ s' => log_ok s' (h ++ emitted_by now prio text len)).
Proof.
  intros Hok Hn Hl Ht Hp Hb. unfold emitted_by. destruct (Z.eqb_spec len 0) as [-> | Hz].
  - rewrite app_nil_r. exists tt, s. unfold syslog_emit. rewrite orb_true_r. done.
  - rewrite (lo_next _ _ Hok) in Hn. eapply ends_mono; [apply (emit_ok s h now prio text len); try done; lia|]. intros _ s' [H _]. done.
Qed.
Lemma write_ok s h now fp f text size : log_ok s h -> files s !! fp = Some f -> next_sequence s + 1 < UINT64_MOD -> 0 <= size <= Z.of_nat (length text) -> 0 <= now < UINT64_MOD -> is_text text ->
  ends (log_file_write now fp (Some text) size) s (fun r s' => log_ok s' (h ++ adds s (Write now fp text size)) /\
    r = if negb (S_ISCHR (i_mode f)) then - EBADF else if LOG_TEXT <=? size then - EMSGSIZE else size).
Proof.
  intros Hok E Hn Hs Ht Hb. unfold adds. rewrite E. unfold log_file_write. apply ends_bind. exists f, s. unfold file_of. rewrite E. split; [done|].
  destruct (S_ISCHR (i_mode f)); cbn [negb andb]; [|apply ends_ret; rewrite app_nil_r; done]. rewrite Z.ltb_antisym. destruct (LOG_TEXT <=? size); cbn [negb andb]; [apply ends_ret; rewrite app_nil_r; done|].
  destruct (Z.eqb_spec size 0) as [-> | Hz]; cbn [negb]; [apply ends_ret; rewrite app_nil_r; done|].
  destruct (parse_prefix_ok text size ltac:(lia)) as (prio & k & -> & Hp & Hk). apply ends_bind, ends_the, ends_bind. cbn [fst snd].
  eapply ends_mono; [apply (emit_any s h now prio (drop (Z.to_nat k) text) (size - k)); try done; [rewrite length_drop; lia | unfold UINT32_MOD; lia | apply Forall_drop; done]|].
  intros [] s' H. apply ends_ret. done.
Qed.
Lemma seek_ok s h fp f off whence : log_ok s h -> files s !! fp = Some f -> ends (log_file_seek fp off whence) s (fun _ s' => log_ok s' h).
Proof.
  intros Hok E. pose proof (lo_first _ _ Hok). pose proof (lo_next _ _ Hok). pose proof (lo_clear _ _ Hok). unfold LOG_RECORDS in *. apply ends_bind. exists f, s. unfold file_of. rewrite E. split; [done|].
  case_match; [apply ends_ret; done|]. case_match; [apply ends_ret; done|]. apply ends_bind, log_look. cbn [id]. cbv zeta. apply ends_bind.
  eapply ends_mono; [apply (set_own_ok s h fp f); [done | done | | done]|]. { unfold cursor_in. cbn [at_sequence]. repeat case_match; lia. }
  intros _ s' [_ H']. apply ends_ret. done.
Qed.
Lemma open_ok s h fp mode dev : log_ok s h -> ends (syslog_open (Some fp) mode dev) s (fun _ s' => log_ok s' h).
Proof.
  intros Hok. pose proof (lo_first _ _ Hok). unfold LOG_RECORDS in *. apply ends_bind, log_change, ends_ret. apply ok_files; [done|].
  intros fp' f' [[<- <-] | [_ E']]%lookup_insert_Some; [unfold cursor_in; cbn; lia | eapply lo_files; done].
Qed.
Lemma log_release_ok s h fp : log_ok s h -> ends (log_file_release fp) s (fun _ s' => log_ok s' h).
Proof. intros Hok. apply ends_bind, log_change, ends_ret. apply ok_files; [done|]. intros fp' f' [_ E']%lookup_delete_Some. eapply lo_files; done. Qed.

Lemma log_clear_ok s h buf len : log_ok s h -> ends (sys_syslog x64 a [] 5 buf len) s (fun r s' => log_ok s' h /\ r = Returns 0 [] /\ unread s' h = unread s h /\ clear_sequence s' = next_sequence s).
Proof.
  intros Hok. pose proof (lo_first _ _ Hok) as Hf. pose proof (lo_clear _ _ Hok) as Hc. pose proof (lo_next _ _ Hok) as Hn. unfold LOG_RECORDS in Hf.
  unfold sys_syslog. cbn [Z.eqb Pos.eqb orb andb negb]. apply ends_bind, log_look. cbn [id]. cbv zeta. set (q := if clear_sequence s <? first_sequence s then _ else _).
  assert (Hq : q = Z.max (clear_sequence s) (first_sequence s)) by (unfold q; destruct (Z.ltb_spec (clear_sequence s) (first_sequence s)); lia).
  apply ends_bind. eapply ends_mono; [apply (total_loop_ok x64 a Ha _ s h q 0 Hok); [lia | lia | lia | apply (ring_text_small s); [done | lia]]|].
  intros total s1 (_ & H1 & b1 & ->). apply ends_bind, ends_ret, ends_bind, log_change, ends_ret. split; [|done]. apply ok_clear; [done | cbn; lia].
Qed.
Lemma syslog_any s h type buf len : log_ok s h -> type <> 2 -> ends (sys_syslog x64 a [] type buf len) s (fun _ s' => log_ok s' h).
Proof.
  intros Hok H2. destruct (decide (type = 9)) as [-> | H9]; [eapply ends_mono; [apply (pending_ok x64 a Ha s h); done | intros r s' [H' _]; exact H']|].
  destruct (decide (type = 5)) as [-> | H5]; [eapply ends_mono; [apply log_clear_ok; done | intros r s' [H' _]; exact H']|].
  destruct (decide ((type = 3 \/ type = 4) /\ 0 <= len /\ (buf = true \/ len = 0))) as [(Ht & Hl & Hb) | Hno].
  { eapply ends_mono; [apply (snapshot_ok x64 a Ha s h); done | intros r s' [H' _]; exact H']. }
  unfold sys_syslog. case_match eqn:E0; [apply ends_ret; done|]. case_match eqn:E10; [apply ends_ret; done|]. rewrite (proj2 (Z.eqb_neq type 2)) by done.
  case_match eqn:E1; [apply ends_ret; done|]. replace (((type =? 3) || (type =? 4)) && _) with true; [apply ends_ret; done|].
  symmetry. apply andb_true_iff. split; [lia|]. destruct buf; unfold nz; cbn [negb andb orb]; lia.
Qed.

Lemma log_exec_ok s h o : log_ok s h -> valid s o -> ends (exec o) s (fun _ s' => log_ok s' (h ++ adds s o)).
Proof.
  intros Hok Hv. assert (Hret : forall (A : Type) (m : L A) h', ends m s (fun _ s' => log_ok s' h') -> ends (m;; mret tt) s (fun _ s' => log_ok s' h')).
  { intros A m h' Hm. apply ends_bind. eapply ends_mono; [exact Hm|]. intros x s' H. apply ends_ret. done. }
  destruct o; cbn [valid] in Hv; cbn [exec].
  - destruct Hv as (V1 & V2 & V3 & V4 & V5). apply emit_any; done.
  - apply Hret. rewrite app_nil_r. eapply ends_mono; [apply (stream_section_ok x64 a Ha s h); done|]. intros r s' [H' _]. exact H'.
  - destruct Hv as [[f E] Hs]. apply Hret. rewrite app_nil_r. eapply ends_mono; [apply (device_section_ok x64 a Ha s h fp f); done|]. intros r s' [H' _]. exact H'.
  - destruct Hv as ([f E] & V1 & V2 & V3 & V4). apply Hret. eapply ends_mono; [apply (write_ok s h now fp f); done|]. intros r s' [H' _]. exact H'.
  - destruct Hv as [f E]. apply Hret. rewrite app_nil_r. eapply seek_ok; done.
  - apply Hret. rewrite app_nil_r. apply open_ok. done.
  - apply Hret. rewrite app_nil_r. apply log_release_ok. done.
  - apply Hret. rewrite app_nil_r. apply syslog_any; done.
Qed.
Lemma logged_ok s h : logged s h -> log_ok s h.
Proof.
  induction 1 as [|s h o s' _ IH Hv E]; [apply boot_ok|]. destruct (log_exec_ok s h o IH Hv) as (u & s1 & E1 & H1). congruence.
Qed.

(** C16: The ring of the kernel log stands for the history of all records: in
    every run of producers and readers it holds the last 64 of them in their
    places, every cursor points into the history, the stream cursor into the
    line it is in; and whatever comes next ends, without a store outside of a
    record or of the buffer a line is printed to. *)
Theorem syslog_ring s h : logged s h -> log_ok s h /\ forall o, valid s o -> ends (exec o) s (fun _ s' => logged s' (h ++ adds s o)).
Proof.
  intros Hl. pose proof (logged_ok s h Hl) as Hok. split; [done|]. intros o Hv. destruct (log_exec_ok s h o Hok Hv) as ([] & s' & E & _). exists tt, s'. split; [done|]. econstructor; done.
Qed.

(** C17: /proc/kmsg is a stream: a read returns the next bytes of the lines of
    the retained records that have not been read, as many as fit, and the next
    read goes on where it stopped; with nothing to read it has to wait. *)
Theorem kmsg_stream s h size : logged s h -> 0 < size ->
  ends (read_section x64 a Stream size false) s (fun r s' => r = handed (take (Z.to_nat size) (unread s h)) /\ unread s' h = drop (Z.to_nat size) (unread s h)).
Proof. intros Hl Hs. eapply ends_mono; [apply (stream_section_ok x64 a Ha s h); [apply logged_ok|]; done|]. intros r s' (_ & _ & _ & H1 & H2). done. Qed.

(** C34: What a program reads from /dev/kmsg it can parse back: a record has one
    line, of which its priority, its number, its time and every byte of its
    text can be told again; a read with room for that line, however little more
    there is, gives exactly the line, and the next read the next; a read with
    less room gives EINVAL and stays at the record. *)
Theorem kmsg_device_round_trip s h fp f e : logged s h -> files s !! fp = Some f -> first_sequence s <= at_sequence (i_private f) ->
  h !! Z.to_nat (at_sequence (i_private f)) = Some e ->
  exists data, parse_line data = (e_priority e, at_sequence (i_private f), e_time e, e_text e) /\ Z.of_nat (length data) < LOG_FORMAT /\
  forall size, 0 < size -> ends (read_section x64 a (Own fp) size true) s (fun r s' =>
    if Z.of_nat (length data) <=? size
    then r = Returns (Z.of_nat (length data)) data /\ files s' = <[fp := LogFile (i_mode f) (Cursor (at_sequence (i_private f) + 1) 0 (rdev (i_private f)))]> (files s)
    else r = Returns (- EINVAL) [] /\ files s' = files s).
Proof.
  intros Hl E Hf Ee. pose proof (logged_ok s h Hl) as Hok. pose proof (lo_small _ _ Hok) as Hs. pose proof (lookup_lt_Some _ _ _ Ee) as Hlt. destruct (lo_files _ _ Hok _ _ E) as [[Hin _] _].
  pose proof (proj1 (Forall_lookup _ _) (lo_entries _ _ Hok) _ _ Ee) as He. pose proof (line_length true (at_sequence (i_private f)) e ltac:(lia) He) as [_ Hlen].
  exists (line true (at_sequence (i_private f)) e). split; [apply parse_line_ok; [lia | done]|]. split; [done|]. intros size Hsize.
  eapply ends_mono; [apply (device_section_ok x64 a Ha s h fp f); done|]. intros r s' (_ & _ & _ & c & Hr & Efiles). pose proof (lo_next _ _ Hok).
  destruct Hr as [Hlost | Hnone | e' _ Ee' Hshort | e' _ Ee' Hfit]; [lia | lia | |]; rewrite Ee in Ee'; injection Ee' as <-.
  - rewrite (proj2 (Z.leb_gt _ _)) by lia. split; [done|]. rewrite Efiles. apply insert_id. rewrite E. destruct f; done.
  - rewrite (proj2 (Z.leb_le _ _)) by lia. done.
Qed.

(** Syslog(2) with READ_ALL returns the end of the text since the last
    clear, as much as fits; READ_CLEAR then moves the mark behind it; the size
    of the unread text is that of the stream; and none of them moves the stream. *)
Theorem klogctl_snapshot s h type len : logged s h -> type = 3 \/ type = 4 -> 0 <= len ->
  ends (sys_syslog x64 a [] type true len) s (fun r s' =>
    (exists t d, since_clear s h = t ++ d /\ (length t = 0%nat \/ Z.of_nat (length d) = len) /\ Z.of_nat (length d) <= len /\ r = Returns (Z.of_nat (length d)) d) /\
    unread s' h = unread s h /\ clear_sequence s' = if type =? 4 then next_sequence s else clear_sequence s) /\
  ends (sys_syslog x64 a [] 9 true len) s (fun r s' => r = Returns (Z.of_nat (length (unread s h))) [] /\ unread s' h = unread s h).
Proof.
  intros Hl Ht Hlen. pose proof (logged_ok s h Hl) as Hok. split.
  - eapply ends_mono; [apply (snapshot_ok x64 a Ha s h); auto|]. cbv zeta. intros r s' (_ & H1 & H2 & H3). split; [|done].
    set (T := since_clear s h) in *. exists (take (length T - Z.to_nat len) T), (drop (length T - Z.to_nat len) T). rewrite take_drop, length_take, length_drop. split_and!; [done | lia | lia | rewrite length_drop in H3; done].
  - eapply ends_mono; [apply (pending_ok x64 a Ha s h); done|]. intros r s' (_ & H1 & _ & H2). done.
Qed.

(** A read of the stream with any waits: it returns some bytes, no more than
    asked for, or an error, and only a blocking one is still waiting. *)
Lemma log_read_loop_ok waits : Forall (fun w => forall s h, log_ok s h -> exists h', log_ok (snd w s) h') waits -> forall s h size nonblock, log_ok s h -> 0 < size ->
  ends (read_loop x64 a waits Stream size false nonblock) s (fun r s' => (exists h', log_ok s' h') /\
    match r with Returns n d => n = Z.of_nat (length d) /\ 0 < n <= size \/ n < 0 /\ d = [] | Waits => nonblock = false end).
Proof.
  induction 1 as [|[result others] waits Hw _ IH]; intros s h size nonblock Hok Hs; cbn [read_loop]; apply ends_bind;
    (eapply ends_mono; [apply (stream_section_ok x64 a Ha s h); done|]); intros r s1 (H1 & _ & _ & -> & _); pose proof (length_take (unread s h) (Z.to_nat size)) as Hl;
    unfold handed; destruct (take (Z.to_nat size) (unread s h)) as [|x d]; cbn [length] in *; try (apply ends_ret; split; [eauto | left; cbn [length]; lia]).
  - destruct nonblock; apply ends_ret; (split; [eauto|]); [right; done | done].
  - destruct nonblock; [apply ends_ret; split; [eauto | right; done]|]. apply ends_bind, log_change. destruct (Hw s1 h H1) as [h' H']. destruct (Z.ltb_spec result 0); [apply ends_ret; split; [eauto | right; done]|].
    apply (IH _ h'); done.
Qed.
(** poll(2) of the stream says that it can be read exactly when a read does not
    have to wait, and registers the caller otherwise. *)
Lemma stream_poll_ok s h fp f : log_ok s h -> files s !! fp = Some f -> S_ISCHR (i_mode f) = false ->
  ends (log_file_poll fp FS_POLL_READ) s (fun r s' => s' = s /\ r = if decide (unread s h = []) then (0, true) else (FS_POLL_READ, false)).
Proof.
  intros Hok E Hc. apply ends_bind. exists f, s. unfold file_of. rewrite E. split; [done|]. rewrite Hc. apply ends_bind. eexists _, _. split; [reflexivity|]. apply ends_bind, log_look, ends_ret. split; [done|].
  destruct (lo_stream _ _ Hok) as ([Hin Hin'] & Hoff & Hs). pose proof (lo_next _ _ Hok) as Hn. pose proof (lo_first _ _ Hok) as Hf. unfold LOG_RECORDS in Hf.
  cbn [id andb]. change (nz (Z.land FS_POLL_READ FS_POLL_READ)) with true. cbn [andb]. set (c := stream_cursor s) in *. destruct (Z.ltb_spec (at_sequence c) (next_sequence s)) as [Hlt | Hge].
  - rewrite decide_False; [done|]. intros Hu. apply (f_equal (fun l => Z.of_nat (length l))) in Hu. rewrite (unread_length s h Hok) in Hu. fold c in Hu. cbn [length] in Hu.
    destruct (lookup_lt_is_Some_2 h (Z.to_nat (Z.max (at_sequence c) (first_sequence s))) ltac:(lia)) as [e Ee]. rewrite (text_from_cons _ _ _ _ Ee), length_app, Z2Nat.id in Hu by lia.
    pose proof (line_length false (Z.max (at_sequence c) (first_sequence s)) e ltac:(pose proof (lo_small _ _ Hok); lia) (proj1 (Forall_lookup _ _) (lo_entries _ _ Hok) _ _ Ee)) as [Hl _].
    destruct (Z.leb_spec (first_sequence s) (at_sequence c)) as [Hle | Hgt]; [|lia]. rewrite Z.max_l in * by lia. specialize (Hs Hle). rewrite Ee in Hs. lia.
  - rewrite decide_True; [done|]. unfold unread. fold c. rewrite (proj2 (Z.ltb_ge _ _)), text_from_end, drop_nil by lia. done.
Qed.

(** ** printk() and the log *)

(** printk() emits its records with priority 6; [clock] reads the clock. *)
Fixpoint emit_all (clock : nat -> Z) (recs : list (list Z)) : L unit :=
  match recs with [] => mret tt | r :: recs => syslog_emit (clock 0%nat) 6 r (Z.of_nat (length r));; emit_all (fun n => clock (S n)) recs end.

(** The record without the newline it ends in. *)
Definition strip (r : list Z) : list Z := if decide (last r = Some 10) then removelast r else r.
Lemma taken_strip r : (length r < 512)%nat -> taken r (Z.of_nat (length r)) = strip r.
Proof. intros Hr. unfold taken, strip. rewrite Z.min_l, Nat2Z.id, take_ge by (unfold LOG_TEXT; lia). done. Qed.

Lemma emit_all_ok recs : forall clock s h, log_ok s h -> Z.of_nat (length h + length recs) + 1 < UINT64_MOD -> (forall n, 0 <= clock n < UINT64_MOD) ->
  Forall (fun r => (1 <= length r < 512)%nat) recs -> Forall is_text recs ->
  ends (emit_all clock recs) s (fun _ s' => log_ok s' (h ++ imap (fun n r => Entry (clock n) 6 (strip r)) recs) /\ notified s' = (notified s + length recs)%nat).
Proof.
  induction recs as [|r recs IH]; intros clock s h Hok Hn Hc Hl Hb; cbn [emit_all length imap].
  - apply ends_ret. rewrite app_nil_r. split; [done | lia].
  - apply Forall_cons in Hl as [Hr Hl], Hb as [Hrb Hb]. cbn [length] in Hn. apply ends_bind.
    eapply ends_mono; [apply (emit_ok s h (clock 0%nat) 6 r (Z.of_nat (length r))); try done; [lia | lia]|]. intros [] s1 (H1 & N1 & _). rewrite taken_strip in H1 by lia.
    eapply ends_mono; [apply (IH (fun n => clock (S n)) s1 _ H1); [rewrite length_app; cbn [length]; lia | auto | done | done]|]. intros [] s2 [H2 N2]. split; [|lia]. rewrite <- app_assoc in H2. exact H2.
Qed.

(** C33: What printk() prints is in the log: after printk() of a message the
    history has one more record of priority 6 for each line of it, or for each
    511 bytes of a longer one: no record has a newline but at its end, each
    but the last ends in one or is full, and put together they are the
    message; every waiting reader is notified of each. *)
Theorem printk_logged r psid fmt args t clock s h : logged s h -> length r = RECORD_SZ -> renders x64 fmt args t -> printable t -> is_text t ->
  (forall n, 0 <= clock n < UINT64_MOD) -> next_sequence s + Z.of_nat (length t) + 1 < UINT64_MOD ->
  exists console recs, printk x64 a r psid fmt args = Some (console, recs) /\ concat recs = t /\
    Forall (fun rec => 1 <= length rec < RECORD_SZ)%nat recs /\ Forall one_line recs /\ (forall l rec, recs = l ++ [rec] -> Forall full_record l) /\
    ends (emit_all clock recs) s (fun _ s' => log_ok s' (h ++ imap (fun n rec => Entry (clock n) 6 (strip rec)) recs) /\ notified s' = (notified s + length recs)%nat).
Proof.
  intros Hl Hr Ht Hp Hb Hc Hn. destruct (printk_text x64 a r psid fmt args t Ha Hr Ht Hp) as (id & recs & _ & E & Et & Hrecs & Hone & Hfull). eexists _, recs. split; [exact E|].
  do 3 (split; [done|]). split; [intros l rec El; exact (Hfull rec l El)|].
  pose proof (logged_ok s h Hl) as Hok. rewrite (lo_next _ _ Hok) in Hn. assert (Hlen : (length recs <= length t)%nat).
  { rewrite <- Et. clear -Hrecs. induction Hrecs as [|x l [Hx _] _ IH]; cbn; [lia|]. rewrite length_app. lia. }
  apply emit_all_ok; [done | lia | done | eapply Forall_impl; [exact Hrecs | unfold RECORD_SZ; lia] |].
  rewrite <- Et in Hb. clear -Hb. induction recs as [|x l IH]; constructor; cbn in Hb; apply Forall_app in Hb as [? ?]; auto.
Qed.
End Runs.

(** ** A concrete run *)

Module Demo.
Definition stack : list Z := replicate 64 7.
Definition next s (o : op) : log := default s (snd <$> exec true stack o s).
Lemma stack_length : length stack = VBUF_SZ.
Proof. reflexivity. Qed.
Lemma next_logged s h o : logged true stack s h -> valid s o -> logged true stack (next s o) (h ++ adds s o).
Proof.
  intros Hl Hv. destruct (log_exec_ok true stack stack_length s h o (logged_ok _ _ stack_length s h Hl) Hv) as ([] & s' & E & _). unfold next. rewrite E. econstructor; done.
Qed.

(** A device is opened, a line is logged, another written to the device; four
    bytes are read from the stream. *)
Definition open_device : op := Open 3 0x2180 0x10b.
Definition log_hi : op := Emit 100 6 [104; 105; 10; 0] 3.
Definition write_yo : op := Write 200 3 [60; 51; 62; 121; 92; 111] 6.
Definition s1 : log := next boot open_device.
Definition s2 : log := next s1 log_hi.
Definition s3 : log := next s2 write_yo.
Definition s4 : log := next s3 (ReadStream 4).
Definition h4 : list entry := [Entry 100 6 [104; 105]; Entry 200 11 [121; 92; 111]].

Lemma s4_logged : logged true stack s4 h4.
Proof.
  assert (H2 : logged true stack s2 [Entry 100 6 [104; 105]]).
  { apply (next_logged s1 [] log_hi); [apply (next_logged boot [] open_device); [constructor | exact I]|]. cbn. unfold UINT64_MOD, UINT32_MOD, is_text. split_and!; try lia; [vm_compute; reflexivity|]. repeat constructor; lia. }
  assert (H3 : logged true stack s3 h4).
  { apply (next_logged s2 _ write_yo H2). cbn. unfold UINT64_MOD, is_text. split_and!; try lia; [vm_compute; eauto | vm_compute; reflexivity|]. repeat constructor; lia. }
  apply (next_logged s3 h4 (ReadStream 4) H3). cbn. lia.
Qed.

Lemma syslog_ring_witness : log_ok s4 h4 /\ ends (exec true stack (ReadStream 4)) s4 (fun _ s' => logged true stack s' (h4 ++ [])).
Proof. destruct (syslog_ring true stack stack_length s4 h4 s4_logged) as [H1 H2]. split; [exact H1|]. apply (H2 (ReadStream 4)). cbn. lia. Defined.
Lemma kmsg_stream_witness : unread s4 h4 = [105; 10; 60; 49; 49; 62; 121; 92; 111; 10] /\
  ends (read_section true stack Stream 3 false) s4 (fun r s' => r = handed (take 3 (unread s4 h4)) /\ unread s' h4 = drop 3 (unread s4 h4)).
Proof. split; [vm_compute; reflexivity|]. apply (kmsg_stream true stack stack_length s4 h4 3 s4_logged). lia. Defined.
Lemma kmsg_device_round_trip_witness :
  exists data, parse_line data = (6, 0, 100, [104; 105]) /\
  ends (read_section true stack (Own 3) LOG_FORMAT true) s4 (fun r s' => r = Returns (Z.of_nat (length data)) data /\
    files s' = <[3 := LogFile 0x2180 (Cursor 1 0 0x10b)]> (files s4)).
Proof.
  destruct (kmsg_device_round_trip true stack stack_length s4 h4 3 (LogFile 0x2180 (Cursor 0 0 0x10b)) (Entry 100 6 [104; 105]) s4_logged) as (data & Hd & Hn & Hr);
    [vm_compute; reflexivity | vm_compute; discriminate | reflexivity|].
  exists data. split; [exact Hd|]. eapply ends_mono; [apply (Hr LOG_FORMAT); vm_compute; reflexivity|]. intros r s'. rewrite (proj2 (Z.leb_le (Z.of_nat (length data)) LOG_FORMAT)) by lia. exact id.
Defined.
Lemma klogctl_snapshot_witness : since_clear s4 h4 = [60; 54; 62; 104; 105; 10; 60; 49; 49; 62; 121; 92; 111; 10] /\
  ends (sys_syslog true stack [] 9 true 5) s4 (fun r s' => r = Returns (Z.of_nat (length (unread s4 h4))) [] /\ unread s' h4 = unread s4 h4).
Proof.
  split; [vm_compute; reflexivity|]. assert (H3 : 3 = 3 \/ 3 = 4) by (left; reflexivity). assert (H5 : 0 <= 5) by lia. apply (klogctl_snapshot true stack stack_length s4 h4 3 5 s4_logged H3 H5).
Defined.
Lemma printk_logged_witness : exists console recs, printk true stack (replicate 512 0) 1 [104; 105; 10] [] = Some (console, recs) /\ concat recs = [104; 105; 10] /\
  ends (emit_all (fun _ => 300) recs) s4 (fun _ s' => log_ok s' (h4 ++ imap (fun n rec => Entry 300 6 (strip rec)) recs) /\ notified s' = (notified s4 + length recs)%nat).
Proof.
  destruct (printk_logged true stack stack_length (replicate 512 0) 1 [104; 105; 10] [] [104; 105; 10] (fun _ => 300) s4 h4 s4_logged) as (console & recs & E & Et & _ & _ & _ & H).
  - reflexivity.
  - repeat (apply R_char; [lia|]). constructor.
  - repeat constructor; lia.
  - repeat constructor; lia.
  - intros _. unfold UINT64_MOD. lia.
  - vm_compute. reflexivity.
  - exists console, recs. exact (conj E (conj Et H)).
Defined.
End Demo.
